(* ===== verification/_CoqProject ===== *)
-Q . S2P
Prelude.v
Policy.v
Metrics.v
Egress.v
Signing.v
Utf8.v
Source.v
Quote.v
WhenLex.v
Queue.v
Envelope.v
Deliver.v
Port.v
Worker.v
Wakeup.v
Partition.v
Catalog.v
Maintain.v
Repair.v
Ledger.v
Bootstrap.v
Pool.v
SqlLex.v
Config.v
Listen.v
Interpolate.v
Ident.v
Suggest.v
ConnString.v
Diag.v
Yaml.v
Substitute.v
Normalize.v
Schema.v
Fallback.v
Redact.v
Withheld.v
Raw.v
Merge.v
Validate.v
Sound.v
Load.v
Render.v
Generate.v
Reconcile.v
Apply.v
RunLock.v
Cli.v
Command.v
Serve.v
