(* ===== verification/Prelude.v ===== *)
(** * pg_noty: a verification development

    pg_noty captures row changes of PostgreSQL tables with generated triggers, keeps each change in a
    queue inside the database, and delivers it to an HTTP receiver, at least once and signed. This
    library models the program's own logic (the Go code under [src/internal/]) as executable
    definitions and proves what makes each part, and the parts together, correct.

    ** The parts of the program and how they meet

    - [internal/config] turns the bytes of a file into a configuration or a list of findings. Everything
      else receives the configuration it accepts.
    - [internal/schema] boots and keeps the service's own schema: the migration ledger, the marker that
      says whose it is, the partitions of the event log, their retention and repair.
    - [internal/source] generates the SQL of the triggers, and is the queue: claim, acknowledge,
      reschedule, bury, reclaim, retry, listen.
    - [internal/reconcile] compares the configuration, the registry of what was installed and the
      catalog, plans what to create, replace, rename or drop, and applies the plan in one transaction
      per table.
    - [internal/delivery] is the worker: it claims batches through the port [EventSource], holds what no
      slot is free for, sends requests, classifies answers, settles each event, drains at the end.
    - [internal/cli] composes the others into commands and asks for consent.

    The queue is where they meet: the trigger body that [Generate.v] renders adds to the tables of
    [Queue.v], [Worker.v] settles rows of it through the class of [Port.v], and [Maintain.v] and
    [Repair.v] move and drop its partitions, as parts of the database of [Catalog.v].

    ** The files

    Each file opens with what it holds and which source files it translates; every definition keeps the
    name it has in the source, with an underscore where the language reserves it.

    Shared:
    - [Prelude.v]: bytes and literals, [strconv.Itoa] and the decimal readers, machine-width arithmetic
      ([wrap64] and the bounds), results of fallible calls, the list, option and ordering lemmas the
      components share, the tactics and the hint databases.
    - [Utf8.v]: [unicode/utf8]'s decoder and encoder and [storabletext.go].

    Delivery ([src/internal/delivery]):
    - [Policy.v]: backoff.go, policy.go, classify.go, retryafter.go, snippet.go, payload.go.
    - [Signing.v]: signing.go. [Envelope.v]: envelope.go. [Deliver.v]: client.go, ports.go, record.go.
    - [Worker.v]: semaphore.go, worker.go, dispatch.go, hold.go, drain.go. [Worker] is the struct under
      its mutexes; a running goroutine is an entry of its state that ends by a [Completes] disturbance.
    - [Wakeup.v]: wakeup.go, the machine and the loop's select as a step relation.
    - [Egress.v]: ssrf.go and transport.go, with the address readers of package [net].

    The source ([src/internal/source]):
    - [Quote.v]: names, literals, dollar quotes and markers. [SqlLex.v]: what PostgreSQL's lexer reads of
      rendered text. [Generate.v]: the trigger compiler.
    - [Queue.v]: the queue's transactions over the tables of 0002_objects.sql. [Port.v]: the interface
      between the worker and the queue, with its laws, and the queue as an instance.
    - [Listen.v]: listen.go and triggersource.go as interleaved steps.

    The schema ([src/internal/schema]):
    - [Partition.v]: the grid, the plan and the bound reader. [Catalog.v]: the database, its errors and
      the one lock-bounded transaction. [Maintain.v]: the two passes. [Repair.v]: the operator's drain.
    - [Ledger.v]: the migrations and their ledger. [Bootstrap.v]: the whole boot. [Pool.v]: pool.go and
      the elision of passwords from errors.

    The configuration ([src/internal/config]):
    - [Config.v]: the accepted data. [Source.v], [Yaml.v]: the text and the parsed tree. [Interpolate.v],
      [Substitute.v]: environment references (stage D). [Normalize.v]: anchors, merges, lists (E).
      [Schema.v], [Suggest.v]: the shape (F). [Raw.v]: what was written (G). [Ident.v], [WhenLex.v],
      [Validate.v]: the rules (H, I). [Merge.v]: resolution. [Diag.v]: diagnostics. [Load.v]: the stages
      composed. [Sound.v]: what no finding in any stage means for the values.
    - What a diagnostic may show: [ConnString.v], where passwords stand in a connection string;
      [Fallback.v], what is withheld of a document that does not parse; [Redact.v], the values the table
      declares sensitive in one that does, and the copy they are replaced in, with its proofs in
      [Withheld.v]; [Render.v], the rendered block, its messages and the logged configuration.

    Reconciliation and commands ([src/internal/reconcile], [src/internal/cli]):
    - [Reconcile.v]: the plan, from values. [Apply.v]: the readings, the transactions and the registry.
      [RunLock.v]: the run lock's wait and its release. [Cli.v]: the commands. [Serve.v]: the serving
      command, from the configuration to the worker it runs and its shutdown. [Command.v]: what every
      command does first, and validate, status and the operator's drain. [Metrics.v]: the observation
      concurrent scrapes share.

    ** State, operations and failures

    A pure function of the source is a function here; a stateful one takes the state and answers it with
    its result; concurrent parts are step functions or relations over a log of actions, and a theorem
    about them quantifies over every interleaving. A call to a server may fail at any place: the record
    a transaction runs in ([Queue.session], [Catalog.tx_session], [Bootstrap.boot_session],
    [Ledger.ledger_session]) says which call fails, what others committed before each statement, and
    whether a commit whose answer was lost took effect. An [error] is [Err] of a [result], with its text
    or the sentinel the callers test for; a panic is a value of its own ([Panics], [None]) that theorems
    show unreachable. Machine integers are [Z] with the wrap-around written out wherever the source adds,
    multiplies or converts, and the bounds theorems show where it cannot happen.

    ** What the theorems show

    - The configuration: [loading_is_sound] (total, no panic, a configuration exactly when there is no
      error, every promise of [sound] kept), [null_required_keys_load] and
      [only_a_derived_instance_cannot_listen] (two defects), [expand_reads_the_grammar],
      [findings_are_order_free].
    - Containment: [passwords_are_not_quoted], [unparsed_secrets_are_withheld],
      [parsed_secrets_are_withheld], [rendered_messages_are_contained], [the_log_shows_no_secret],
      [no_password_leaves_the_pool]. Beside them, [overlapping_values_show_a_secret],
      [split_key_shows_its_block], [positionless_messages_are_not_contained] and [shorter_password_first]
      show where a hypothesis or a guard of the code does not hold.
    - The queue: [queue_invariant], [queue_status_machine], [lease_is_exclusive],
      [settlement_requires_the_lease].
    - The worker: [RunOnce_conserves], [dispatchBatch_conserves], [concurrency_never_exceeded],
      [drain_releases_once], [attempt_settles_once], [DelayAfter_bounds], [Ladder_refines_ideal],
      [VerifyHeader_iff], [envelope_reads_back]; its transport, [blocked_destinations_are_refused]; what
      it is given, [accepted_configuration_is_served]; its end,
      [shutdown_drains_unless_the_server_hangs] (a defect).
    - The generator and its texts: [Generate_reads], [marker_ownership], [listening_is_safe].
    - The schema: [ApplyRetention_keeps], [Maintain_converges], [dropOne_guarded],
      [PlanMaintenance_converges], [repair_conserves], [busy_drain_loses_a_delivery] (a defect),
      [migrations_install_once], [boot_vouches], [foreign_schema_is_untouched],
      [two_instances_boot_one_schema] (a defect).
    - Reconciliation: [plan_is_guarded], [plan_order_independent], [resolution_stays],
      [Apply_is_licensed], [writeRegistry_reads_back], [rename_records_without_installing],
      [destroy_is_guarded], [destroy_refuses_the_unrecorded], [run_lock_is_settled],
      [validate_speaks_for_every_command], [scrapes_share_one_observation].

    ** Loops and fuel

    Recursion that is not structural takes fuel, and each use has enough by a lemma beside it: a scan of
    a text takes the text's length, plus one where it makes a last empty step ([over_runes], [scan],
    [valueAfterKeyword], [SqlLex.lex], the lexer of [WhenLex.v]); [dollarQuoteTag] tries as many tags as
    the body has bytes; [ranges_through] and [retry_until_none] count the ranges and the rows left;
    [dispatchBatch] runs one round more than the batch has events; [replacing_from] and
    [replace_all_from] move past a match each round and take the text's length; the shape pass descends the table of
    levels, whose depth is four ([required_fuel]). That the loops of the source end is part of the
    theorems above or of the lemmas they use, never a premise of them.

    ** Parameters

    Code that is not under [src/] is an argument: the driver's [Sanitize]; [hmac] and [sha256_hex];
    [time.Parse], [ParseDuration] and the time layout; [json.Valid] and [json.Marshal]; [strconv.Quote];
    the HTTP client, its header canonicalisation and date reader; the YAML parser and its reading of
    scalars and structs (classes [Yaml] and [YamlLaws]), its account of styles, tokens and node texts
    (class [ParsedText]); [slices.SortFunc]; [url.Parse], [unicode.IsLetter] (class
    [Letters]), [to_lower]; the order of a range over a map (class [Enumerates], [any_order]); the
    server's reading of DDL and of migration scripts ([ddl_server], [script_server]); what others commit
    meanwhile. Their laws are those their documentation states, and each theorem that has one as a
    hypothesis has a witness in which the parameter is a concrete function.

    ** Not modelled

    Process start, the Sentry SDK's calls, flag parsing, output streams, HTTP servers of the process
    itself, the metrics registry and the JSON of listed events (I/O around operations modelled here); log lines, apart from the
    logged configuration; dialling, TLS and the connections a pool or a client keeps, which are their
    libraries'; the statement that sets a marker's comment. *)

From stdpp Require Export base list gmap strings sorting.
From Stdlib Require Export ZArith Lia Ascii.
From Stdlib Require Import DecimalString DecimalZ DecimalFacts.


(** ** Go strings and byte slices *)

(** A Go [string] or [[]byte] is a sequence of bytes; one byte is an [ascii]. *)
Abbreviation gostring := (list ascii).

Declare Scope gostring_scope.
Delimit Scope gostring_scope with go.

(** A literal of the source, as the bytes it denotes. *)
Definition bs (s : string) : gostring := String.list_ascii_of_string s.
#[global] Arguments bs _%_string : simpl never.

Definition newline : gostring := [ascii_of_nat 10].

(** The numeric value of a byte. *)
Definition code (c : ascii) : Z := Z.of_N (N_of_ascii c).

(** The byte of a numeric value. *)
Definition byte_of (z : Z) : ascii := ascii_of_N (Z.to_N z).

(** ** Machine integers *)

Definition min_int64 : Z := - 2 ^ 63.
Definition max_int64 : Z := 2 ^ 63 - 1.
Definition int64_range (z : Z) : Prop := (min_int64 <= z <= max_int64)%Z.

(** Two's-complement wrap-around, what Go's [int64] arithmetic does on overflow. *)
Definition wrap64 (z : Z) : Z := ((z + 2 ^ 63) `mod` 2 ^ 64 - 2 ^ 63)%Z.

(** Saturation at the [int64] bounds, what [time.Time.Sub] does. *)
Definition sat64 (z : Z) : Z := (Z.max min_int64 (Z.min max_int64 z))%Z.

(** ** Results of fallible code *)

Inductive result (E A : Type) : Type :=
  | Ok (a : A)
  | Err (e : E).
Arguments Ok {E A} a.
Arguments Err {E A} e.

#[export] Instance result_eq_dec {E A} `{EqDecision E, EqDecision A} : EqDecision (result E A).
Proof. solve_decision. Defined.

Definition rbind {E A B} (m : result E A) (k : A -> result E B) : result E B :=
  match m with
  | Ok a => k a
  | Err e => Err e
  end.

Declare Scope result_scope.
Delimit Scope result_scope with res.
Notation "'let!' x ':=' m 'in' k" := (rbind m (fun x => k))
  (at level 10, x pattern, m at level 100, k at level 200) : result_scope.

Definition is_ok {E A} (m : result E A) : bool :=
  match m with Ok _ => true | Err _ => false end.

(** ** Sections of the standard library's [strings] package *)

Definition has_prefix (s p : gostring) : bool := bool_decide (take (length p) s = p).
Definition has_suffix (s p : gostring) : bool :=
  (length p <=? length s) && bool_decide (drop (length s - length p) s = p).
Definition trim_prefix (s p : gostring) : gostring :=
  if has_prefix s p then drop (length p) s else s.
Definition contains_byte (c : ascii) (s : gostring) : bool := bool_decide (c ∈ s).

(** [strings.Index]: the first position at which [sub] occurs. *)
Fixpoint index_of (sub s : gostring) : option nat :=
  if has_prefix s sub then Some 0
  else match s with [] => None | _ :: r => S <$> index_of sub r end.

(** [strings.Contains]. *)
Definition contains_sub (s sub : gostring) : bool := bool_decide (is_Some (index_of sub s)).

(** [strings.Split] with a separator of one byte: always at least one part. *)
Fixpoint split_on (c : ascii) (s : gostring) : list gostring :=
  match s with
  | [] => [[]]
  | x :: r =>
      if bool_decide (x = c) then [] :: split_on c r
      else match split_on c r with
           | [] => [[x]]
           | p :: ps => (x :: p) :: ps
           end
  end.

(** [slices.Compact] on strings. *)
Fixpoint Compact (names : list gostring) : list gostring :=
  match names with
  | a :: ((b :: _) as rest) => if bool_decide (a = b) then Compact rest else a :: Compact rest
  | _ => names
  end.

(** [strings.Join]. *)
Fixpoint join (sep : gostring) (parts : list gostring) : gostring :=
  match parts with
  | [] => []
  | [p] => p
  | p :: r => p ++ sep ++ join sep r
  end.

(** [strings.ReplaceAll] with a pattern of one byte. *)
Definition replace_byte (c : ascii) (by_ : gostring) (s : gostring) : gostring :=
  s ≫= λ x, if bool_decide (x = c) then by_ else [x].

(** [strconv.FormatInt(_, 10)]. *)
Definition format_int (z : Z) : gostring :=
  bs (NilZero.string_of_int (Z.to_int z)).

Definition is_digit (c : ascii) : bool := ((48 <=? code c) && (code c <=? 57))%Z.

(** The decimal value of a run of digits, most significant first. *)
Definition digits_value (s : gostring) : Z :=
  foldl (λ acc c, 10 * acc + (code c - 48))%Z 0%Z s.

(** The order of Go strings, byte by byte. *)
Fixpoint string_le (a b : gostring) : bool :=
  match a, b with
  | [], _ => true
  | _, [] => false
  | x :: a, y :: b => ((code x <? code y) || ((code x =? code y) && string_le a b))%Z
  end.

Definition go_le (a b : gostring) : Prop := string_le a b = true.
#[export] Instance go_le_dec : RelDecision go_le.
Proof. intros a b. unfold go_le. apply _. Defined.

(** [cmp.Compare] on strings, and comparisons tried one after the other. *)
Definition string_compare (a b : gostring) : comparison :=
  if bool_decide (a = b) then Eq else if string_le a b then Lt else Gt.

Definition or_else (c d : comparison) : comparison := match c with Eq => d | c => c end.

(** What a sort by a comparison function orders by. *)
Definition below {A} (cmp : A -> A -> comparison) (a b : A) : Prop := cmp a b <> Gt.
#[export] Instance below_dec {A} (cmp : A -> A -> comparison) : RelDecision (below cmp).
Proof. intros a b. unfold below. apply _. Defined.

(** A comparison function that is a total order up to equality. *)
Class Comparison {A} (cmp : A -> A -> comparison) : Prop := {
  cmp_eq a b : cmp a b = Eq <-> a = b;
  cmp_opp a b : cmp b a = CompOpp (cmp a b);
  cmp_lt a b c : cmp a b = Lt -> cmp b c = Lt -> cmp a c = Lt
}.

(** ** Tactics and hint databases *)

Create HintDb noty discriminated.

(** Split every boolean conjunction in the context and turn comparisons into propositions. *)
Ltac bool_to_prop :=
  repeat match goal with
  | H : (_ && _)%bool = true |- _ => apply andb_true_iff in H; destruct H
  | H : (_ || _)%bool = false |- _ => apply orb_false_iff in H; destruct H
  | H : negb _ = true |- _ => apply negb_true_iff in H
  | H : negb _ = false |- _ => apply negb_false_iff in H
  | H : (_ <=? _)%Z = true |- _ => apply Z.leb_le in H
  | H : (_ <=? _)%Z = false |- _ => apply Z.leb_gt in H
  | H : (_ <? _)%Z = true |- _ => apply Z.ltb_lt in H
  | H : (_ <? _)%Z = false |- _ => apply Z.ltb_ge in H
  | H : (_ =? _)%Z = true |- _ => apply Z.eqb_eq in H
  | H : (_ =? _)%Z = false |- _ => apply Z.eqb_neq in H
  | H : (_ <=? _)%nat = true |- _ => apply Nat.leb_le in H
  | H : (_ <=? _)%nat = false |- _ => apply Nat.leb_gt in H
  | H : (_ =? _)%nat = true |- _ => apply Nat.eqb_eq in H
  | H : (_ =? _)%nat = false |- _ => apply Nat.eqb_neq in H
  | H : bool_decide _ = true |- _ => apply bool_decide_eq_true in H
  | H : bool_decide _ = false |- _ => apply bool_decide_eq_false in H
  end.

(** Case on every integer comparison the goal or the context branches on. *)
Ltac cases_Z :=
  repeat match goal with
  | |- context [(?a <=? ?b)%Z] => destruct (Z.leb_spec a b)
  | |- context [(?a <? ?b)%Z] => destruct (Z.ltb_spec a b)
  | |- context [(?a =? ?b)%Z] => destruct (Z.eqb_spec a b)
  | H : context [(?a <=? ?b)%Z] |- _ => destruct (Z.leb_spec a b)
  | H : context [(?a <? ?b)%Z] |- _ => destruct (Z.ltb_spec a b)
  | H : context [(?a =? ?b)%Z] |- _ => destruct (Z.eqb_spec a b)
  end; simpl in *.

(** Decide a closed decidable proposition by evaluation. *)
Ltac by_compute := apply (bool_decide_unpack _); vm_compute; exact I.

Ltac unfold_int := unfold int64_range, min_int64, max_int64 in *.

(** ** Lemmas the components share *)

Lemma rbind_Ok {E A B} (m : result E A) (k : A -> result E B) b :
  rbind m k = Ok b -> exists a, m = Ok a /\ k a = Ok b.
Proof. destruct m; [eauto|done]. Qed.

Lemma rbind_Err {E A B} (m : result E A) (k : A -> result E B) e :
  rbind m k = Err e -> m = Err e \/ exists a, m = Ok a /\ k a = Err e.
Proof. destruct m; naive_solver. Qed.

(** Split a successful [let!] chain into its successful steps. *)
Ltac steps :=
  repeat match goal with
  | H : rbind ?m ?k = Ok ?b |- _ =>
      let a := fresh "a" in let H1 := fresh "Hm" in
      apply rbind_Ok in H; destruct H as (a & H1 & H)
  | H : Ok _ = Ok _ |- _ => injection H as H
  | H : Err _ = Ok _ |- _ => discriminate H
  | H : Ok _ = Err _ |- _ => discriminate H
  | H : _ = Ok ?p |- _ => is_var p; match type of p with (_ * _)%type => destruct p end
  end.

Lemma wrap64_id z : int64_range z -> wrap64 z = z.
Proof. unfold_int. intros. unfold wrap64. rewrite Z.mod_small; lia. Qed.

Lemma wrap64_range z : int64_range (wrap64 z).
Proof.
  unfold_int. unfold wrap64. pose proof (Z.mod_pos_bound (z + 2 ^ 63) (2 ^ 64) ltac:(lia)). lia.
Qed.

Lemma sat64_id z : int64_range z -> sat64 z = z.
Proof. unfold_int. unfold sat64. unfold_int. lia. Qed.

Lemma sat64_range z : int64_range (sat64 z).
Proof. unfold sat64. unfold_int. lia. Qed.

Lemma byte_of_code c : byte_of (code c) = c.
Proof. unfold byte_of, code. rewrite N2Z.id. apply ascii_N_embedding. Qed.

Lemma code_inj c d : code c = code d -> c = d.
Proof.
  unfold code. intros H. apply N2Z.inj in H.
  rewrite <- (ascii_N_embedding c), <- (ascii_N_embedding d). by rewrite H.
Qed.

Lemma code_range c : (0 <= code c < 256)%Z.
Proof. unfold code. pose proof (N_ascii_bounded c). lia. Qed.

Lemma has_prefix_spec s p : has_prefix s p = true <-> exists r, s = p ++ r.
Proof.
  unfold has_prefix. rewrite bool_decide_eq_true. split.
  - intros H. exists (drop (length p) s). rewrite <- H at 1. by rewrite take_drop.
  - intros [r ->]. by rewrite take_app_length.
Qed.

Lemma has_prefix_app p r : has_prefix (p ++ r) p = true.
Proof. apply has_prefix_spec. by exists r. Qed.

Lemma has_prefix_head c t p : head p <> Some c -> p <> [] -> has_prefix (c :: t) p = false.
Proof.
  destruct p as [|x p]; [done|]. intros Hx _. apply not_true_is_false.
  intros [r Hr]%has_prefix_spec. injection Hr as <- _. by apply Hx.
Qed.

Lemma trim_prefix_app p r : trim_prefix (p ++ r) p = r.
Proof. unfold trim_prefix. by rewrite has_prefix_app, drop_app_length. Qed.

(** *** The order of strings *)

Lemma string_le_cons x y a b :
  string_le (x :: a) (y :: b) = true <-> (code x < code y)%Z \/ (x = y /\ string_le a b = true).
Proof.
  cbn [string_le]. rewrite orb_true_iff, andb_true_iff, Z.ltb_lt, Z.eqb_eq.
  split; intros [?|[? ?]]; auto; right; split; auto using code_inj. by subst.
Qed.

#[export] Instance go_le_total : Total go_le.
Proof.
  intros a. induction a as [|x a IH]; intros [|y b]; unfold go_le in *; auto.
  rewrite !string_le_cons. destruct (Z.lt_trichotomy (code x) (code y)) as [|[Heq|]]; auto.
  apply code_inj in Heq as ->. destruct (IH b); auto.
Qed.

#[export] Instance go_le_trans : Transitive go_le.
Proof.
  intros a. induction a as [|x a IH]; intros [|y b] [|z c]; unfold go_le in *; try done.
  rewrite !string_le_cons. intros [?|[-> ?]] [?|[-> ?]]; try (left; lia); right; split; eauto.
Qed.

#[export] Instance go_le_antisymm : AntiSymm (=) go_le.
Proof.
  intros a. induction a as [|x a IH]; intros [|y b]; unfold go_le in *; try done.
  rewrite !string_le_cons. intros [?|[-> ?]] [?|[? ?]]; try lia; [subst; lia|]. f_equal. by apply IH.
Qed.

Lemma string_compare_Lt a b : string_compare a b = Lt <-> a <> b /\ go_le a b.
Proof. unfold string_compare, go_le. case_bool_decide; [naive_solver|]. destruct (string_le a b); naive_solver. Qed.

#[export] Instance string_compare_order : Comparison string_compare.
Proof.
  split; [unfold string_compare..|].
  - intros a b. case_bool_decide; [done|]. by destruct (string_le a b).
  - intros a b. repeat case_bool_decide; try congruence; [done|].
    destruct (string_le a b) eqn:E, (string_le b a) eqn:F; try done.
    + by destruct (go_le_antisymm a b E F).
    + destruct (go_le_total a b) as [G|G]; unfold go_le in G; congruence.
  - intros a b c. rewrite !string_compare_Lt. intros [Hn Ha] [Hm Hb]. split; [|by trans b].
    intros ->. destruct Hn. by apply (anti_symm go_le).
Qed.

(** Two comparisons one after the other order what their keys together identify. *)
Lemma or_else_order {A K L} (f : A -> K) (g : A -> L) c d :
  Comparison c -> Comparison d -> (forall a b, f a = f b -> g a = g b -> a = b) ->
  Comparison (λ a b, or_else (c (f a) (f b)) (d (g a) (g b))).
Proof.
  intros Hc Hd Hinj. split.
  - intros a b. split; [|by intros ->; rewrite (proj2 (cmp_eq _ _) eq_refl), (proj2 (cmp_eq _ _) eq_refl)].
    destruct (c (f a) (f b)) eqn:E; try done. simpl. intros F. apply Hinj; by eapply cmp_eq.
  - intros a b. rewrite (cmp_opp (f a)), (cmp_opp (g a)). by destruct (c (f a) (f b)).
  - intros x y z. destruct (c (f x) (f y)) eqn:E, (c (f y) (f z)) eqn:F; simpl; intros H1 H2; try done;
      rewrite ?cmp_eq in *.
    + rewrite E, F, (proj2 (cmp_eq (f z) _)) by done. simpl. by eapply cmp_lt.
    + by rewrite E, F.
    + by rewrite <- F, E.
    + by rewrite (cmp_lt _ _ _ E F).
Qed.

Section below.
Context {A} (cmp : A -> A -> comparison) `{!Comparison cmp}.

#[export] Instance below_total : Total (below cmp).
Proof. intros a b. unfold below. rewrite (cmp_opp (cmp := cmp) a b). destruct (cmp a b); naive_solver. Qed.

#[export] Instance below_trans : Transitive (below cmp).
Proof.
  intros a b c. unfold below. intros Ha Hb. destruct (cmp a b) eqn:E, (cmp b c) eqn:F; try done.
  - apply cmp_eq in E as ->. by rewrite F.
  - apply cmp_eq in E as ->. by rewrite F.
  - apply cmp_eq in F as ->. by rewrite E.
  - by rewrite (cmp_lt _ _ _ E F).
Qed.

#[export] Instance below_antisymm : AntiSymm (=) (below cmp).
Proof.
  intros a b. unfold below. rewrite (cmp_opp (cmp := cmp) a b). destruct (cmp a b) eqn:E; [|done..].
  intros _ _. by apply cmp_eq in E.
Qed.

(** Sorting by it depends on nothing but what is sorted. *)
Lemma sort_below_perm (l k : list A) : l ≡ₚ k -> merge_sort (below cmp) l = merge_sort (below cmp) k.
Proof.
  intros H. apply (Sorted_unique (below cmp)); [apply (Sorted_merge_sort _)..|].
  by rewrite !merge_sort_Permutation.
Qed.
End below.

(** *** Substrings *)

Lemma index_of_Some sub s n :
  index_of sub s = Some n ->
  has_prefix (drop n s) sub = true /\ (n <= length s) /\
  forall m, m < n -> has_prefix (drop m s) sub = false.
Proof.
  revert n. induction s as [|x r IH]; intros n; simpl.
  - destruct (has_prefix [] sub) eqn:H; [|done]. intros [= <-]. by split_and!; [|lia|lia].
  - destruct (has_prefix (x :: r) sub) eqn:H.
    + intros [= <-]. by split_and!; [|lia|lia].
    + intros (k & Hk & ->)%fmap_Some. destruct (IH k Hk) as (Hp & Hl & Hm). split_and!; [done|lia|].
      intros [|m] Hlt; [done|]. apply Hm. lia.
Qed.

Lemma index_of_None sub s :
  index_of sub s = None <-> forall m, m <= length s -> has_prefix (drop m s) sub = false.
Proof.
  induction s as [|x r IH]; simpl.
  - destruct (has_prefix [] sub) eqn:H; split; try done; intros Ha.
    + specialize (Ha 0 ltac:(lia)). simpl in Ha. congruence.
    + intros [|m] Hm; [done|lia].
  - destruct (has_prefix (x :: r) sub) eqn:H.
    + split; [done|]. intros Ha. specialize (Ha 0 ltac:(lia)). simpl in Ha. congruence.
    + rewrite fmap_None, IH. split.
      * intros Ha [|m] Hm; [done|]. apply Ha. lia.
      * intros Ha m Hm. apply (Ha (S m)). lia.
Qed.

Lemma contains_sub_spec s sub :
  contains_sub s sub = true <-> exists m, m <= length s /\ has_prefix (drop m s) sub = true.
Proof.
  unfold contains_sub. rewrite bool_decide_eq_true. split.
  - intros [n Hn]. apply index_of_Some in Hn as (? & ? & _). eauto.
  - intros (m & Hm & Hp). destruct (index_of sub s) eqn:E; [eauto|].
    rewrite index_of_None in E. by rewrite E in Hp.
Qed.

Lemma contains_sub_app s sub : contains_sub s sub = true <-> exists a b, s = a ++ sub ++ b.
Proof.
  rewrite contains_sub_spec. split.
  - intros (m & Hm & [b Hb]%has_prefix_spec). exists (take m s), b. by rewrite <- Hb, take_drop.
  - intros (a & b & ->). exists (length a). rewrite length_app, drop_app_length.
    split; [lia|]. apply has_prefix_spec. by exists b.
Qed.

(** The first occurrence of a byte that nothing before it is. *)
Lemma index_of_first_sep c s r : c ∉ s -> index_of [c] (s ++ c :: r) = Some (length s).
Proof.
  intros Hs. induction s as [|x s IH]; cbn [app index_of].
  - assert (has_prefix (c :: r) [c] = true) as -> by (apply has_prefix_spec; by exists r). done.
  - apply not_elem_of_cons in Hs as [Hx Hs].
    assert (has_prefix (x :: s ++ c :: r) [c] = false) as ->.
    { apply not_true_is_false. intros [t [= -> _]]%has_prefix_spec. done. }
    by rewrite IH.
Qed.

(** *** Splitting and joining *)

(** The first occurrence of a separator splits a string in one way. *)
Lemma first_sep_inj (c : ascii) s r s' r' :
  c ∉ s -> c ∉ s' -> s ++ c :: r = s' ++ c :: r' -> s = s' /\ r = r'.
Proof.
  revert s'. induction s as [|x s IHs]; intros [|x' s'] Hs Hs' Heq; simpl in Heq.
  - by injection Heq.
  - injection Heq as -> _. by destruct Hs'; left.
  - injection Heq as <- _. by destruct Hs; left.
  - injection Heq as -> Heq. apply not_elem_of_cons in Hs as [_ Hs], Hs' as [_ Hs'].
    by destruct (IHs s' Hs Hs' Heq) as [-> ->].
Qed.

Lemma split_on_nonempty c s : split_on c s <> [].
Proof. destruct s as [|x r]; simpl; [done|]. case_bool_decide; [done|]. by destruct (split_on c r). Qed.

Lemma split_on_no_sep c s : c ∉ s -> split_on c s = [s].
Proof.
  induction s as [|x r IH]; simpl; [done|]. intros [Hx Hr]%not_elem_of_cons.
  rewrite bool_decide_eq_false_2 by done. by rewrite IH.
Qed.

Lemma split_on_app c s r : c ∉ s -> split_on c (s ++ c :: r) = s :: split_on c r.
Proof.
  induction s as [|x s IH]; simpl.
  - by rewrite bool_decide_eq_true_2.
  - intros [Hx Hs]%not_elem_of_cons. rewrite bool_decide_eq_false_2 by done. by rewrite IH.
Qed.

(** Joining parts that do not hold the separator and splitting again gives the parts back. *)
Lemma split_on_join c parts :
  parts <> [] -> Forall (λ p, c ∉ p) parts -> split_on c (join [c] parts) = parts.
Proof.
  induction parts as [|p [|q r] IH]; intros Hne Hall; [done| |].
  - simpl. apply split_on_no_sep. by inversion Hall.
  - inversion Hall; subst. cbn [join]. cbn [app]. rewrite split_on_app by done.
    f_equal. by apply IH.
Qed.

(** Joining what a split produced gives the string back. *)
Lemma join_split_on c s parts : split_on c s = parts -> join [c] parts = s.
Proof.
  revert parts. induction s as [|x r IH]; intros parts <-; [done|]. simpl.
  pose proof (split_on_nonempty c r) as Hne. pose proof (IH _ eq_refl) as Hr.
  case_bool_decide as Hx.
  - subst x. destruct (split_on c r) as [|p ps]; [done|]. simpl in *. by rewrite Hr.
  - destruct (split_on c r) as [|p [|q ps]]; [done| |]; simpl in *; by rewrite Hr.
Qed.

(** *** Decimal formatting *)

Lemma foldl_cons {A B} (f : A -> B -> A) a x l : foldl f a (x :: l) = foldl f (f a x) l.
Proof. done. Qed.

Lemma bs_cons c s : bs (String c s) = c :: bs s.
Proof. done. Qed.

Lemma bs_append s t : bs (s +:+ t) = bs s ++ bs t.
Proof. unfold bs. induction s as [|a s IH]; simpl; [done|]. f_equal. exact IH. Qed.

Lemma bs_inj s t : bs s = bs t -> s = t.
Proof.
  unfold bs. intros H.
  by rewrite <- (String.string_of_list_ascii_of_string s), H, String.string_of_list_ascii_of_string.
Qed.

Lemma bs_string_of_uint_digits d : Forall (λ c, is_digit c = true) (bs (NilEmpty.string_of_uint d)).
Proof. unfold bs. induction d; simpl; constructor; done. Qed.

(** Every byte of a formatted integer is a digit, or the sign. *)
Lemma format_int_bytes z : Forall (λ c, is_digit c = true \/ c = "-"%char) (format_int z).
Proof.
  unfold format_int.
  assert (HU : forall d, Forall (λ c, is_digit c = true \/ c = "-"%char) (bs (NilZero.string_of_uint d))).
  { intros d. apply Forall_impl with (λ c, is_digit c = true); [|by left].
    destruct d; try apply bs_string_of_uint_digits. by repeat constructor. }
  destruct (Z.to_int z) as [d|d]; simpl; [apply HU|].
  constructor; [by right|]. apply HU.
Qed.

Lemma to_int_of_string z : NilZero.int_of_string (NilZero.string_of_int (Z.to_int z)) = Some (Z.to_int z).
Proof.
  apply NilZero.isi; intros H; assert (Hz : z = 0%Z) by (by rewrite <- (DecimalZ.of_to z), H);
    subst z; discriminate H.
Qed.

Lemma format_int_inj y z : format_int y = format_int z -> y = z.
Proof.
  unfold format_int. intros H%bs_inj. rewrite <- (DecimalZ.of_to y), <- (DecimalZ.of_to z).
  f_equal. apply (inj Some). by rewrite <- !to_int_of_string, H.
Qed.

(** *** Reading a decimal numeral back *)

Lemma digits_value_acc d acc :
  foldl (λ acc c, 10 * acc + (code c - 48))%Z (Z.pos acc) (bs (NilEmpty.string_of_uint d))
  = Z.pos (Pos.of_uint_acc d acc).
Proof.
  revert acc. induction d; intros acc; [done|..];
    cbn [NilEmpty.string_of_uint Pos.of_uint_acc]; rewrite bs_cons, foldl_cons, <- IHd;
    f_equal; unfold code; simpl; lia.
Qed.

Lemma digits_value_uint d :
  digits_value (bs (NilEmpty.string_of_uint d)) = Z.of_uint d.
Proof.
  unfold digits_value, Z.of_uint. induction d; [done|..];
    cbn [NilEmpty.string_of_uint Pos.of_uint]; rewrite bs_cons, foldl_cons;
    [exact IHd|..]; apply digits_value_acc.
Qed.

Lemma digits_value_nonneg s : Forall (λ c, is_digit c = true) s -> (0 <= digits_value s)%Z.
Proof.
  unfold digits_value. intros Hs. assert (forall acc, (0 <= acc)%Z ->
    (0 <= foldl (λ acc c, 10 * acc + (code c - 48)) acc s)%Z) as H; [|by apply H].
  induction Hs as [|c s Hc _ IH]; intros acc Hacc; simpl; [done|].
  apply IH. unfold is_digit in Hc. bool_to_prop. lia.
Qed.

Lemma string_of_uint_zero d : d <> Decimal.Nil -> NilZero.string_of_uint d = NilEmpty.string_of_uint d.
Proof. by destruct d. Qed.

Lemma format_int_nonneg z : (0 <= z)%Z ->
  exists d, d <> Decimal.Nil /\ format_int z = bs (NilEmpty.string_of_uint d) /\ Z.of_uint d = z.
Proof.
  intros Hz. pose proof (DecimalZ.of_to z) as H. unfold format_int. destruct z as [|p|p]; [| |lia].
  - exists (Decimal.D0 Decimal.Nil). done.
  - exists (Pos.to_uint p). cbn [Z.to_int] in *.
    assert (Hn : Pos.to_uint p <> Decimal.Nil) by (apply DecimalPos.Unsigned.to_uint_nonnil).
    split; [done|]. split; [|done]. simpl. by rewrite string_of_uint_zero.
Qed.

(** A formatted non-negative integer is a non-empty run of digits denoting it. *)
Lemma format_int_digits z : (0 <= z)%Z ->
  format_int z <> [] /\ Forall (λ c, is_digit c = true) (format_int z) /\ digits_value (format_int z) = z.
Proof.
  intros (d & Hd & -> & Hz)%format_int_nonneg. split; [by destruct d|].
  split; [apply bs_string_of_uint_digits|]. by rewrite digits_value_uint.
Qed.

#[export] Hint Resolve wrap64_range sat64_range code_range has_prefix_app : noty.
Create Rewrite HintDb noty_rw.
#[export] Hint Rewrite has_prefix_app trim_prefix_app : noty_rw.
