(* ===== verification/Policy.v ===== *)
(** * Retry policy: [internal/delivery/backoff.go], [policy.go], [classify.go], [retryafter.go],
    and the pure guards [snippet.go] and [payload.go].

    Durations are [int64] nanoseconds, kept at their width: every place the source multiplies,
    adds or compares is written with the wrap-around the machine has, and the theorems say that the
    guards keep the arithmetic from ever wrapping. *)

From S2P Require Import Prelude.

Local Open Scope Z_scope.

(** ** backoff.go *)

Definition maxDurationInt64 : Z := max_int64.

Definition positiveDuration (value : Z) : Z := if value <? 0 then 0 else value.

Definition clampDuration (value maximum : Z) : Z :=
  if (0 <? maximum) && (maximum <? value) then maximum else value.

(** Go's integer division truncates, hence [Z.quot]. *)
Definition multiplyDuration (value factor : Z) : Z :=
  if (value <=? 0) || (factor <=? 0) then 0
  else if maxDurationInt64 `quot` value <? factor then maxDurationInt64
  else wrap64 (value * factor).

Definition powerOfTwo (exponent : Z) : Z :=
  if exponent <=? 0 then 1
  else if 63 <=? exponent then maxDurationInt64
  else if exponent =? 62 then 2 ^ 62
  else wrap64 (Z.shiftl 1 exponent).

(** ** policy.go *)

(** A jitter source is a function of the exclusive bound; [None] is Go's nil. *)
Abbreviation JitterFunc := (Z -> Z).

Record Policy := {
  MaxAttempts : Z;
  Backoff : gostring;
  InitialInterval : Z;
  MaxInterval : Z;
  Jitter : bool;
}.

Definition Ladder (p : Policy) (attempt : Z) : Z :=
  let attempt := if attempt <? 1 then 1 else attempt in
  let base := positiveDuration (InitialInterval p) in
  let delay :=
    if bool_decide (Backoff p = bs "linear") then multiplyDuration base attempt
    else if bool_decide (Backoff p = bs "exponential")
      then multiplyDuration base (powerOfTwo (attempt - 1))
    else base in
  clampDuration delay (MaxInterval p).

Definition DelayWith (p : Policy) (attempt : Z) (draw : option JitterFunc) : Z :=
  let limit := Ladder p attempt in
  match draw with
  | Some draw =>
      if negb (Jitter p) || (limit <=? 0) then limit
      else
        let bound := if limit <? maxDurationInt64 then wrap64 (limit + 1) else limit in
        let value := draw bound in
        let value := if value <? 0 then 0 else value in
        if limit <? value then limit else value
  | None => limit
  end.

Definition EffectiveDelay (ladder retryAfter maxInterval : Z) : Z :=
  let delay := positiveDuration ladder in
  let delay := if delay <? retryAfter then retryAfter else delay in
  clampDuration delay maxInterval.

Definition DelayAfter (p : Policy) (attempt retryAfter : Z) (draw : option JitterFunc) : Z :=
  EffectiveDelay (DelayWith p attempt draw) retryAfter (MaxInterval p).

(** ** classify.go *)

Inductive Outcome := OutcomeTerminal | OutcomeSuccess | OutcomeRetryable.

#[export] Instance Outcome_eq_dec : EqDecision Outcome.
Proof. solve_decision. Defined.

Definition Outcome_String (o : Outcome) : gostring :=
  match o with
  | OutcomeSuccess => bs "success"
  | OutcomeRetryable => bs "retryable"
  | OutcomeTerminal => bs "terminal"
  end.

Definition ClassifyStatus (status : Z) : Outcome :=
  if (200 <=? status) && (status <=? 299) then OutcomeSuccess
  else if (status =? 408) || (status =? 429) || ((500 <=? status) && (status <=? 599))
    then OutcomeRetryable
  else OutcomeTerminal.

(** Go's [error] is modelled by its message; [None] is nil. *)
Definition ClassifyError (err : option gostring) : Outcome :=
  match err with
  | Some _ => OutcomeRetryable
  | None => OutcomeTerminal
  end.

Definition Terminal (p : Policy) (attempt : Z) : bool :=
  (MaxAttempts p <=? 0) || (MaxAttempts p <=? attempt).

Definition ShouldRetry (p : Policy) (attempt : Z) (outcome : Outcome) : bool :=
  bool_decide (outcome = OutcomeRetryable) && negb (Terminal p attempt).

(** ** retryafter.go *)

(** [unicode.IsSpace], as the UTF-8 encodings [strings.TrimSpace] removes at either end. *)
Definition utf8 (l : list Z) : gostring := map (λ z, ascii_of_N (Z.to_N z)) l.
Definition space_runes : list gostring :=
  map utf8 ([[9]; [10]; [11]; [12]; [13]; [32]; [194; 133]; [194; 160]; [225; 154; 128]]
    ++ map (λ k, [226; 128; k]) [128; 129; 130; 131; 132; 133; 134; 135; 136; 137; 138; 168; 169; 175]
    ++ [[226; 129; 159]; [227; 128; 128]]).

Definition trim_one (dropped : gostring -> gostring -> option gostring) (s : gostring) : option gostring :=
  list_find (λ r, is_Some (dropped s r)) space_runes ≫= λ ir, dropped s ir.2.
Definition cut_front (s r : gostring) : option gostring :=
  if has_prefix s r then Some (drop (length r) s) else None.
Definition cut_back (s r : gostring) : option gostring :=
  if has_suffix s r then Some (take (length s - length r) s) else None.
Fixpoint trim_all (cut : gostring -> gostring -> option gostring) (fuel : nat) (s : gostring) : gostring :=
  match fuel with
  | O => s
  | S fuel => match trim_one cut s with Some s' => trim_all cut fuel s' | None => s end
  end.

(** [strings.TrimSpace]: each removal shortens the string, so its length is enough fuel. *)
Definition TrimSpace (s : gostring) : gostring :=
  let s := trim_all cut_front (length s) s in trim_all cut_back (length s) s.

(** [strconv.ParseUint(value, 10, 64)] on a run of digits: [None] is its range error. *)
Definition ParseUint_digits (value : gostring) : option Z :=
  let n := digits_value value in if n <? 2 ^ 64 then Some n else None.

Definition second : Z := 1000000000.

Definition parseDeltaSeconds (value : gostring) : option Z :=
  if negb (forallb is_digit value) then None
  else match ParseUint_digits value with
       | None => Some max_int64
       | Some seconds =>
           if max_int64 `quot` second <? seconds then Some max_int64
           else Some (wrap64 (wrap64 seconds * second))
       end.

Section RetryAfter.
(** [net/http.ParseTime], the standard library's HTTP-date parser: nanoseconds since the epoch,
    or [None] for its error. Nothing below depends on which dates it accepts. *)
Variable ParseTime : gostring -> option Z.

Definition parseHTTPDate (value : gostring) : option Z := ParseTime value.

Definition ParseRetryAfter (value : gostring) (now : Z) : option Z :=
  let value := TrimSpace value in
  if bool_decide (value = []) then None
  else match parseDeltaSeconds value with
       | Some delay => Some delay
       | None =>
           match parseHTTPDate value with
           | None => None
           | Some when_ =>
               let delay := sat64 (when_ - now) in
               if delay <=? 0 then None else Some delay
           end
       end.
End RetryAfter.

(** ** snippet.go and payload.go *)

Definition maxSnippetBytes : nat := Z.to_nat (Z.shiftl 2 10).

Definition TruncateSnippet (body : gostring) : gostring :=
  if (length body <=? maxSnippetBytes)%nat then body else take maxSnippetBytes body.

Definition checkPayloadSize (payload : gostring) (limit : Z) : bool * gostring :=
  if Z.of_nat (length payload) <=? limit then (true, [])
  else (false, bs "payload size " ++ format_int (Z.of_nat (length payload))
               ++ bs " exceeds limit " ++ format_int limit).

(** ** Specification and proofs *)

(** What a policy of the running program satisfies: its fields are machine integers. *)
Record wf_policy (p : Policy) : Prop := {
  wf_initial : int64_range (InitialInterval p);
  wf_maximum : int64_range (MaxInterval p);
}.

(** The ladder over unbounded integers, before saturation and the policy's cap. *)
Definition ideal_delay (p : Policy) (attempt : Z) : Z :=
  let attempt := Z.max 1 attempt in
  let base := Z.max 0 (InitialInterval p) in
  if bool_decide (Backoff p = bs "linear") then base * attempt
  else if bool_decide (Backoff p = bs "exponential") then base * 2 ^ (attempt - 1)
  else base.

Definition capped (maximum value : Z) : Z :=
  if 0 <? maximum then Z.min value maximum else value.

Lemma positiveDuration_max v : positiveDuration v = Z.max 0 v.
Proof. unfold positiveDuration. cases_Z; lia. Qed.

Lemma clampDuration_capped v m : clampDuration v m = capped m v.
Proof. unfold clampDuration, capped. cases_Z; lia. Qed.

Lemma multiplyDuration_saturates v f :
  0 <= v <= max_int64 -> 0 <= f <= max_int64 ->
  multiplyDuration v f = Z.min (v * f) max_int64.
Proof.
  unfold multiplyDuration, maxDurationInt64. intros Hv Hf.
  destruct (Z.leb_spec v 0); simpl; [assert (v = 0) by lia; subst; unfold_int; lia|].
  destruct (Z.leb_spec f 0); simpl; [assert (f = 0) by lia; subst; unfold_int; lia|].
  rewrite Z.quot_div_nonneg by lia.
  pose proof (Z.mul_div_le max_int64 v ltac:(lia)).
  pose proof (Z.mul_succ_div_gt max_int64 v ltac:(lia)).
  destruct (Z.ltb_spec (max_int64 / v) f); [nia|].
  rewrite wrap64_id; [nia|]. unfold_int. nia.
Qed.

Lemma powerOfTwo_saturates e :
  powerOfTwo e = Z.min (2 ^ Z.max 0 e) max_int64.
Proof.
  unfold powerOfTwo, maxDurationInt64.
  destruct (Z.leb_spec e 0); [by rewrite Z.max_l|].
  rewrite Z.max_r by lia.
  destruct (Z.leb_spec 63 e).
  { assert (2 ^ 63 <= 2 ^ e) by (apply Z.pow_le_mono_r; lia). unfold_int. lia. }
  assert (2 ^ e <= 2 ^ 62) by (apply Z.pow_le_mono_r; lia).
  assert (0 < 2 ^ e) by (apply Z.pow_pos_nonneg; lia).
  destruct (Z.eqb_spec e 62); [subst; unfold_int; lia|].
  rewrite Z.shiftl_1_l, wrap64_id; unfold_int; lia.
Qed.

Lemma exponential_saturates b e :
  0 <= b <= max_int64 -> 0 <= e ->
  multiplyDuration b (powerOfTwo e) = Z.min (b * 2 ^ e) max_int64.
Proof.
  intros Hb He. rewrite powerOfTwo_saturates, Z.max_r by lia.
  assert (0 < 2 ^ e) by (apply Z.pow_pos_nonneg; lia).
  rewrite multiplyDuration_saturates by (unfold_int; lia).
  destruct (Z.le_gt_cases (2 ^ e) max_int64); [by rewrite (Z.min_l (2 ^ e)) by lia|].
  rewrite (Z.min_r (2 ^ e)) by lia. destruct (Z.eq_dec b 0) as [->|]; [lia|]. unfold_int. nia.
Qed.

Lemma positive_range v : int64_range v -> 0 <= positiveDuration v <= max_int64.
Proof. rewrite positiveDuration_max. unfold_int. lia. Qed.

Lemma Ladder_ideal p attempt :
  wf_policy p -> int64_range attempt ->
  Ladder p attempt = capped (MaxInterval p) (Z.min (ideal_delay p attempt) max_int64).
Proof.
  intros [HI _] Ha. unfold Ladder, ideal_delay. rewrite clampDuration_capped.
  replace (if attempt <? 1 then 1 else attempt) with (Z.max 1 attempt) by (cases_Z; lia).
  pose proof (positive_range _ HI) as Hb. rewrite <- positiveDuration_max. f_equal.
  repeat case_bool_decide; [| |lia].
  - rewrite multiplyDuration_saturates by (unfold_int; lia). done.
  - rewrite exponential_saturates by lia. done.
Qed.

Lemma ideal_delay_nonneg p attempt : 0 <= ideal_delay p attempt.
Proof.
  unfold ideal_delay. pose proof (Z.pow_nonneg 2 (Z.max 1 attempt - 1)).
  repeat case_bool_decide; nia.
Qed.

Lemma ideal_delay_mono p a b : a <= b -> ideal_delay p a <= ideal_delay p b.
Proof.
  intros Hab. unfold ideal_delay.
  assert (2 ^ (Z.max 1 a - 1) <= 2 ^ (Z.max 1 b - 1)) by (apply Z.pow_le_mono_r; lia).
  repeat case_bool_decide; nia.
Qed.

Lemma capped_mono m x y : x <= y -> capped m x <= capped m y.
Proof. unfold capped. cases_Z; lia. Qed.

Lemma capped_bounds m x : 0 <= x -> 0 <= capped m x <= x.
Proof. unfold capped. cases_Z; lia. Qed.

Lemma capped_le m x : 0 < m -> capped m x <= m.
Proof. unfold capped. cases_Z; lia. Qed.

Lemma Ladder_bounds p attempt :
  wf_policy p -> int64_range attempt -> 0 <= Ladder p attempt <= max_int64.
Proof.
  intros Hp Ha. rewrite Ladder_ideal by done. pose proof (ideal_delay_nonneg p attempt).
  pose proof (capped_bounds (MaxInterval p) (Z.min (ideal_delay p attempt) max_int64)).
  unfold_int. lia.
Qed.

Lemma DelayWith_bounds p attempt draw :
  wf_policy p -> int64_range attempt -> 0 <= DelayWith p attempt draw <= Ladder p attempt.
Proof.
  intros Hp Ha. pose proof (Ladder_bounds p attempt Hp Ha). unfold DelayWith.
  destruct draw as [draw|]; [|lia]. destruct (negb (Jitter p) || _); [lia|].
  cases_Z; lia.
Qed.

#[export] Hint Resolve Ladder_bounds DelayWith_bounds : noty.

(** C23. The backoff ladder, computed in wrapping 64-bit arithmetic, is the exact linear or
    exponential schedule over unbounded integers, saturated at the largest duration and then cut at
    [max_interval]: for every attempt number and every machine-integer policy no intermediate
    product or power overflows. *)
Theorem Ladder_refines_ideal p attempt :
  wf_policy p -> int64_range attempt ->
  Ladder p attempt = capped (MaxInterval p) (Z.min (ideal_delay p attempt) max_int64) /\
  (forall later, int64_range later -> attempt <= later -> Ladder p attempt <= Ladder p later).
Proof.
  intros Hp Ha. split; [by apply Ladder_ideal|]. intros later Hl Hle.
  rewrite !Ladder_ideal by done. apply capped_mono.
  pose proof (ideal_delay_mono p _ _ Hle). lia.
Qed.

Definition sample_policy : Policy :=
  {| MaxAttempts := 20; Backoff := bs "exponential"; InitialInterval := second;
     MaxInterval := 3600 * second; Jitter := true |}.

Lemma Ladder_refines_ideal_witness :
  wf_policy sample_policy /\ int64_range 5 /\
  Ladder sample_policy 5 = capped (MaxInterval sample_policy) (Z.min (ideal_delay sample_policy 5) max_int64).
Proof.
  assert (Hp : wf_policy sample_policy) by (split; unfold_int; simpl; unfold second; lia).
  assert (Ha : int64_range 5) by (unfold_int; lia).
  split; [done|]. split; [done|]. exact (proj1 (Ladder_refines_ideal sample_policy 5 Hp Ha)).
Defined.

(** *** Jitter *)

(** The bound [DelayWith] passes to the jitter source. *)
Definition draw_bound (p : Policy) (attempt : Z) : Z := Z.min (Ladder p attempt + 1) max_int64.

Lemma DelayWith_draw p attempt draw :
  wf_policy p -> int64_range attempt -> Jitter p = true -> 0 < Ladder p attempt ->
  DelayWith p attempt (Some draw) =
  Z.max 0 (Z.min (Ladder p attempt) (draw (draw_bound p attempt))).
Proof.
  intros Hp Ha HJ Hl. pose proof (Ladder_bounds p attempt Hp Ha) as Hb. unfold DelayWith, draw_bound.
  rewrite HJ. simpl. destruct (Z.leb_spec (Ladder p attempt) 0); [lia|].
  assert ((if Ladder p attempt <? maxDurationInt64 then wrap64 (Ladder p attempt + 1)
           else Ladder p attempt) = Z.min (Ladder p attempt + 1) max_int64) as ->.
  { unfold maxDurationInt64. destruct (Z.ltb_spec (Ladder p attempt) max_int64); [|lia].
    rewrite wrap64_id; unfold_int; lia. }
  cases_Z; lia.
Qed.

(** Full jitter is exact: the jitter source is always asked for a value below a positive bound,
    any value it may legally answer is used unchanged as the delay, the delay never leaves the
    interval from zero to the ladder value, and below saturation every delay of that closed
    interval is one some legal answer produces. *)
Theorem DelayWith_full_jitter p attempt draw :
  wf_policy p -> int64_range attempt -> Jitter p = true -> 0 < Ladder p attempt ->
  (forall bound, 0 < bound -> 0 <= draw bound < bound) ->
  0 < draw_bound p attempt /\
  DelayWith p attempt (Some draw) = draw (draw_bound p attempt) /\
  0 <= DelayWith p attempt (Some draw) <= Ladder p attempt /\
  (forall d, 0 <= d <= Ladder p attempt -> Ladder p attempt < max_int64 ->
     exists draw', (forall bound, 0 < bound -> 0 <= draw' bound < bound) /\
       DelayWith p attempt (Some draw') = d).
Proof.
  intros Hp Ha HJ Hl Hdraw.
  assert (Hbound : 0 < draw_bound p attempt <= Ladder p attempt + 1) by (unfold draw_bound; unfold_int; lia).
  split; [lia|]. pose proof (Hdraw (draw_bound p attempt) ltac:(lia)).
  split; [rewrite DelayWith_draw by done; lia|]. split; [by apply DelayWith_bounds|].
  intros d Hd Hlt. exists (λ bound, Z.min d (bound - 1)). split; [intros; lia|].
  rewrite DelayWith_draw by done. unfold draw_bound. lia.
Qed.

Lemma DelayWith_full_jitter_witness :
  0 < draw_bound sample_policy 5 /\
  DelayWith sample_policy 5 (Some (λ bound, Z.min 7 (bound - 1))) = 7.
Proof.
  assert (Hp : wf_policy sample_policy) by (split; unfold_int; simpl; unfold second; lia).
  destruct (DelayWith_full_jitter sample_policy 5 (λ bound, Z.min 7 (bound - 1)) Hp
    ltac:(unfold_int; lia) eq_refl ltac:(vm_compute; reflexivity) ltac:(intros; lia)) as (H1 & H2 & _).
  split; [exact H1|]. rewrite H2. vm_compute. reflexivity.
Defined.

(** *** Combining with Retry-After *)

Lemma EffectiveDelay_spec ladder retryAfter m :
  EffectiveDelay ladder retryAfter m = capped m (Z.max (Z.max 0 ladder) retryAfter).
Proof.
  unfold EffectiveDelay. rewrite clampDuration_capped, positiveDuration_max. f_equal. cases_Z; lia.
Qed.

Lemma DelayWith_capped p attempt draw : wf_policy p -> int64_range attempt ->
  DelayWith p attempt draw = capped (MaxInterval p) (DelayWith p attempt draw).
Proof.
  intros Hp Ha. pose proof (DelayWith_bounds p attempt draw Hp Ha) as Hd.
  assert (Ladder p attempt = capped (MaxInterval p) (Ladder p attempt)) as HL.
  { rewrite Ladder_ideal by done. unfold capped. cases_Z; lia. }
  unfold capped in *. cases_Z; lia.
Qed.

(** The delay handed to the queue is never negative, never exceeds a configured
    [max_interval], never undercuts a parsed Retry-After unless the cap is what cuts it, and without
    a Retry-After it is the jittered ladder unchanged. *)
Theorem DelayAfter_bounds p attempt retryAfter draw :
  wf_policy p -> int64_range attempt -> 0 <= retryAfter ->
  0 <= DelayAfter p attempt retryAfter draw /\
  (0 < MaxInterval p -> DelayAfter p attempt retryAfter draw <= MaxInterval p) /\
  capped (MaxInterval p) retryAfter <= DelayAfter p attempt retryAfter draw /\
  (retryAfter <= DelayWith p attempt draw ->
     DelayAfter p attempt retryAfter draw = DelayWith p attempt draw).
Proof.
  intros Hp Ha Hr. unfold DelayAfter. rewrite EffectiveDelay_spec.
  pose proof (DelayWith_bounds p attempt draw Hp Ha) as Hd.
  split; [unfold capped; cases_Z; lia|]. split; [intros; by apply capped_le|].
  split; [apply capped_mono; lia|]. intros. rewrite (DelayWith_capped p attempt draw) at 2 by done. f_equal. lia.
Qed.

Lemma DelayAfter_bounds_witness :
  DelayAfter sample_policy 3 (10 * second) None <= 3600 * second /\
  10 * second <= DelayAfter sample_policy 3 (10 * second) None.
Proof.
  assert (Hp : wf_policy sample_policy) by (split; unfold_int; simpl; unfold second; lia).
  destruct (DelayAfter_bounds sample_policy 3 (10 * second) None Hp
    ltac:(unfold_int; lia) ltac:(unfold second; lia)) as (_ & H1 & H2 & _).
  split; [apply H1; reflexivity|exact H2].
Defined.

(** *** Status classification *)

(** Classification is total and its three classes are exactly: success on 2xx, retryable on
    408, 429 and 5xx, terminal on everything else; an attempt is retried only when its class is
    retryable and attempts remain, and a non-positive attempt limit never retries. *)
Theorem ShouldRetry_spec p attempt status :
  (ClassifyStatus status = OutcomeSuccess <-> 200 <= status <= 299) /\
  (ClassifyStatus status = OutcomeRetryable <-> status = 408 \/ status = 429 \/ 500 <= status <= 599) /\
  (ShouldRetry p attempt (ClassifyStatus status) = true <->
     (status = 408 \/ status = 429 \/ 500 <= status <= 599) /\ 0 < MaxAttempts p /\ attempt < MaxAttempts p).
Proof.
  assert (HS : ClassifyStatus status = OutcomeSuccess <-> 200 <= status <= 299).
  { unfold ClassifyStatus. cases_Z; split; intros; try done; try lia. }
  assert (HR : ClassifyStatus status = OutcomeRetryable <->
    status = 408 \/ status = 429 \/ 500 <= status <= 599).
  { unfold ClassifyStatus. cases_Z; split; intros; try done; try lia. }
  split; [done|]. split; [done|]. unfold ShouldRetry, Terminal.
  rewrite andb_true_iff, bool_decide_eq_true, HR, negb_true_iff, orb_false_iff, !Z.leb_gt. lia.
Qed.

(** *** Retry-After in delta-seconds form *)

Lemma space_runes_not_digits :
  forallb (λ r, negb (bool_decide (r = [])) && negb (forallb is_digit r)) space_runes = true.
Proof. vm_compute. reflexivity. Qed.

Lemma trim_one_digits cut s :
  (forall s r s', cut s r = Some s' -> exists a b, s = a ++ r ++ b) ->
  Forall (λ c, is_digit c = true) s -> trim_one cut s = None.
Proof.
  intros Hcut Hs. unfold trim_one. destruct (list_find _ _) as [[i r]|] eqn:Hfind; [|done].
  apply list_find_Some in Hfind as (Hi & [s' Hr] & _). exfalso.
  apply Hcut in Hr as (a & b & ->).
  pose proof (proj1 (forallb_forall _ _) space_runes_not_digits r) as H.
  assert (Hin : In r space_runes) by (by eapply list_elem_of_In, list_elem_of_lookup_2).
  specialize (H Hin). apply andb_true_iff in H as [_ H]. apply negb_true_iff in H.
  rewrite !Forall_app in Hs. destruct Hs as (_ & Hr & _).
  assert (forallb is_digit r = true); [|congruence].
  apply forallb_forall. intros c Hc. rewrite Forall_forall in Hr. by apply Hr, list_elem_of_In.
Qed.

Lemma cut_front_split s r s' : cut_front s r = Some s' -> exists a b, s = a ++ r ++ b.
Proof.
  unfold cut_front. destruct (has_prefix s r) eqn:H; [|done]. intros _.
  apply has_prefix_spec in H as [b ->]. by exists [], b.
Qed.

Lemma cut_back_split s r s' : cut_back s r = Some s' -> exists a b, s = a ++ r ++ b.
Proof.
  unfold cut_back, has_suffix. destruct (_ && _) eqn:H; [|done]. intros _. bool_to_prop.
  exists (take (length s - length r) s), []. rewrite app_nil_r.
  simplify_eq/=. by rewrite <- (take_drop (length s - length r) s) at 1; f_equal.
Qed.

Lemma trim_all_digits cut n s :
  (forall s r s', cut s r = Some s' -> exists a b, s = a ++ r ++ b) ->
  Forall (λ c, is_digit c = true) s -> trim_all cut n s = s.
Proof. intros Hcut Hs. destruct n; [done|]. simpl. by rewrite trim_one_digits. Qed.

Lemma TrimSpace_digits s : Forall (λ c, is_digit c = true) s -> TrimSpace s = s.
Proof.
  intros Hs. unfold TrimSpace. rewrite (trim_all_digits cut_front) by eauto using cut_front_split.
  by rewrite (trim_all_digits cut_back) by eauto using cut_back_split.
Qed.

Lemma parseDeltaSeconds_saturates s :
  Forall (λ c, is_digit c = true) s ->
  parseDeltaSeconds s = Some (Z.min (digits_value s * second) max_int64).
Proof.
  intros Hs. unfold parseDeltaSeconds, ParseUint_digits.
  assert (forallb is_digit s = true) as ->.
  { apply forallb_forall. intros c Hc. rewrite Forall_forall in Hs. by apply Hs, list_elem_of_In. }
  pose proof (digits_value_nonneg _ Hs). simpl.
  destruct (Z.ltb_spec (digits_value s) (2 ^ 64)); unfold second in *; [|f_equal; unfold_int; lia].
  change (max_int64 `quot` 1000000000) with 9223372036.
  destruct (Z.ltb_spec 9223372036 (digits_value s)); [f_equal; unfold_int; lia|].
  f_equal. rewrite (wrap64_id (digits_value s)) by (unfold_int; lia).
  rewrite wrap64_id; unfold_int; lia.
Qed.

(** The delta-seconds form of Retry-After is read exactly: any non-negative decimal number of
    seconds, however long, becomes that many nanoseconds saturated at the largest duration, whatever
    the clock says, and whatever the header holds an answer is a non-negative duration. *)
Theorem ParseRetryAfter_delta_seconds PT now n :
  0 <= n -> ParseRetryAfter PT (format_int n) now = Some (Z.min (n * second) max_int64) /\
  (forall value d, ParseRetryAfter PT value now = Some d -> 0 <= d <= max_int64).
Proof.
  intros Hn. split.
  - destruct (format_int_digits n Hn) as (Hne & Hd & Hv). unfold ParseRetryAfter.
    rewrite TrimSpace_digits, bool_decide_eq_false_2, parseDeltaSeconds_saturates by done. by rewrite Hv.
  - intros value d. unfold ParseRetryAfter. case_bool_decide; [done|].
    destruct (parseDeltaSeconds (TrimSpace value)) as [d'|] eqn:Hp.
    + intros [= ->]. destruct (forallb is_digit (TrimSpace value)) eqn:Hf.
      2: { unfold parseDeltaSeconds in Hp. by rewrite Hf in Hp. }
      assert (Hs : Forall (λ c, is_digit c = true) (TrimSpace value)).
      { apply Forall_forall. intros c Hc. eapply forallb_forall in Hf; [done|]. by apply list_elem_of_In. }
      rewrite parseDeltaSeconds_saturates in Hp by done. injection Hp as <-.
      pose proof (digits_value_nonneg _ Hs). unfold second. unfold_int. lia.
    + destruct (parseHTTPDate PT _) as [w|]; [|done]. case_match; [done|]. intros [= <-].
      bool_to_prop. pose proof (sat64_range (w - now)). unfold_int. lia.
Qed.

Lemma ParseRetryAfter_delta_seconds_witness :
  ParseRetryAfter (λ _, None) (bs "120") 0 = Some (120 * second).
Proof.
  pose proof (proj1 (ParseRetryAfter_delta_seconds (λ _, None) 0 120 ltac:(lia))) as H.
  exact H.
Defined.
