(* ===== verification/Metrics.v ===== *)
(** * The snapshot behind the metrics endpoint: [internal/cli/metricssnapshot.go].

    Any number of scrapes call [refresh] at once. What a call does under the mutex is one step; between two
    it waits, or it is in the observation: that is the queue's and the catalog's, and the gauges it sets are
    the metrics registry's. A channel is a number, and closing it twice is a panic, [None]. *)

From S2P Require Import Prelude Policy.

Local Open Scope Z_scope.

(** [time.Since] saturates at the width of a duration. *)
Definition Since (now then_ : Z) : Z := Z.max min_int64 (Z.min max_int64 (now - then_)).

Record metricsSnapshot := {
  last : Z;
  ttl : Z;
  loading : bool;
  done_ : nat;
  lastErr : option gostring;
  made : nat;                  (* channels made *)
  closed : gset nat;
  observations : list Z        (* when each observation began, the last first *)
}.

(** A zero [time.Time] is before any clock. *)
Definition newMetricsSnapshot (zero : Z) (ttl : Z) : metricsSnapshot :=
  {| last := zero; ttl := if ttl <=? 0 then second else ttl; loading := false; done_ := 0; lastErr := None; made := 0; closed := ∅;
     observations := [] |}.

(** Where a call of [refresh] is: it waits on a channel, observes and will close one, or has answered. *)
Inductive scrape := Entering | Waiting (done_ : nat) | Observing (done_ : nat) | Answered (err : option gostring).

Definition enter (now : Z) (s : metricsSnapshot) : metricsSnapshot * scrape :=
  if Since now (last s) <? ttl s then (s, Answered (lastErr s))
  else if loading s then (s, Waiting (done_ s))
  else ({| last := last s; ttl := ttl s; loading := true; done_ := made s; lastErr := lastErr s; made := S (made s); closed := closed s;
           observations := now :: observations s |}, Observing (made s)).

(** [close] of a channel. *)
Definition close_channel (channel : nat) (s : metricsSnapshot) : option metricsSnapshot :=
  if bool_decide (channel ∈ closed s) then None
  else Some {| last := last s; ttl := ttl s; loading := loading s; done_ := done_ s; lastErr := lastErr s; made := made s;
               closed := {[channel]} ∪ closed s; observations := observations s |}.

Definition end_observation (now : Z) (err : option gostring) (channel : nat) (s : metricsSnapshot) : option metricsSnapshot :=
  close_channel channel
    {| last := now; ttl := ttl s; loading := false; done_ := done_ s; lastErr := err; made := made s; closed := closed s;
       observations := observations s |}.

(** ** Any interleaving *)

Record scrapes := { shared : metricsSnapshot; calls : gmap nat scrape; clock : Z }.

Definition moved (st : scrapes) (k : nat) (c : scrape) (s : metricsSnapshot) : scrapes :=
  {| shared := s; calls := <[k := c]> (calls st); clock := clock st |}.

Inductive scrape_step (st : scrapes) : option scrapes -> Prop :=
  | ticks now : clock st <= now -> scrape_step st (Some {| shared := shared st; calls := calls st; clock := now |})
  | arrives k : calls st !! k = None -> scrape_step st (Some (moved st k Entering (shared st)))
  | enters k : calls st !! k = Some Entering ->
      scrape_step st (Some (moved st k (enter (clock st) (shared st)).2 (enter (clock st) (shared st)).1))
  | observed k channel err : calls st !! k = Some (Observing channel) ->
      scrape_step st (moved st k (Answered err) <$> end_observation (clock st) err channel (shared st))
  | wakes k channel : calls st !! k = Some (Waiting channel) -> channel ∈ closed (shared st) ->
      scrape_step st (Some (moved st k (Answered (lastErr (shared st))) (shared st)))
  | cancelled k channel err : calls st !! k = Some (Waiting channel) -> scrape_step st (Some (moved st k (Answered (Some err)) (shared st))).

Inductive scraped (st0 : scrapes) : scrapes -> Prop :=
  | starts : scraped st0 st0
  | continues_ st st' : scraped st0 st -> scrape_step st (Some st') -> scraped st0 st'.

Definition idle (zero ttl_ now : Z) : scrapes := {| shared := newMetricsSnapshot zero ttl_; calls := ∅; clock := now |}.

Definition observes (c : option scrape) (channel : nat) : Prop := c = Some (Observing channel).

(** Observations are as far apart as the time a snapshot lives. *)
Fixpoint apart_by (gap : Z) (times : list Z) : Prop :=
  match times with
  | later :: (earlier :: _) as rest => earlier + gap <= later /\ apart_by gap rest
  | _ => True
  end.

Record shared_by_one (st : scrapes) : Prop := {
  inv_one : forall k channel, observes (calls st !! k) channel -> loading (shared st) = true /\ channel = done_ (shared st);
  inv_same : forall k k' channel channel', observes (calls st !! k) channel -> observes (calls st !! k') channel' -> k = k';
  inv_someone : loading (shared st) = true -> exists k, observes (calls st !! k) (done_ (shared st));
  inv_fresh : forall channel, channel ∈ closed (shared st) -> (channel < made (shared st))%nat;
  inv_open : loading (shared st) = true -> done_ (shared st) ∉ closed (shared st) /\ (done_ (shared st) < made (shared st))%nat;
  inv_waits : forall k channel, calls st !! k = Some (Waiting channel) ->
    channel ∈ closed (shared st) \/ (loading (shared st) = true /\ channel = done_ (shared st));
  inv_apart : apart_by (ttl (shared st)) (observations (shared st)) /\ 0 < ttl (shared st);
  inv_past : forall began, head (observations (shared st)) = Some began -> began <= clock st /\ (loading (shared st) = false -> began <= last (shared st));
  inv_last : last (shared st) <= clock st
}.

Lemma Since_elapsed now then_ gap : gap <= Since now then_ -> 0 < gap -> then_ + gap <= now.
Proof. unfold Since. unfold_int. lia. Qed.

Lemma observes_moved st k c s j channel : observes (calls (moved st k c s) !! j) channel ->
  (j = k /\ c = Observing channel) \/ (j <> k /\ observes (calls st !! j) channel).
Proof.
  unfold observes. cbn [moved calls]. destruct (decide (j = k)) as [->|Hj]; [rewrite lookup_insert_eq; intros [= ->]; by left|].
  rewrite lookup_insert_ne by done. by right.
Qed.

Lemma waits_moved st k c s j channel : calls (moved st k c s) !! j = Some (Waiting channel) ->
  (j = k /\ c = Waiting channel) \/ (j <> k /\ calls st !! j = Some (Waiting channel)).
Proof.
  cbn [moved calls]. destruct (decide (j = k)) as [->|Hj]; [rewrite lookup_insert_eq; intros [= ->]; by left|].
  rewrite lookup_insert_ne by done. by right.
Qed.

(** A call that neither observes nor comes to wait or observe changes nothing the invariant reads. *)
Lemma settled_moved st k c : shared_by_one st -> (forall channel, ~ observes (calls st !! k) channel) ->
  (forall channel, c = Waiting channel -> channel ∈ closed (shared st) \/ (loading (shared st) = true /\ channel = done_ (shared st))) ->
  (forall channel, c <> Observing channel) -> shared_by_one (moved st k c (shared st)).
Proof.
  intros [H1 H2 H3 H4 H5 H6 H7 H8 H9] Hk Hw Ho. split; cbn [moved shared clock]; try done.
  - intros j channel [[-> ->]|[_ Hj]]%observes_moved; [by destruct (Ho channel)|by eapply H1].
  - intros j j' channel channel' [[-> ->]|[_ Hj]]%observes_moved; [by destruct (Ho channel)|].
    intros [[-> ->]|[_ Hj']]%observes_moved; [by destruct (Ho channel')|by eapply H2].
  - intros Hl. destruct (H3 Hl) as [j Hj]. exists j. cbn [moved calls]. rewrite lookup_insert_ne; [done|]. intros ->. by destruct (Hk (done_ (shared st))).
  - intros j channel [[-> ->]|[_ Hj]]%waits_moved; [by apply Hw|by eapply H6].
Qed.

Lemma settled_begins st k : shared_by_one st -> calls st !! k = Some Entering -> loading (shared st) = false ->
  ttl (shared st) <= Since (clock st) (last (shared st)) ->
  shared_by_one (moved st k (Observing (made (shared st)))
    {| last := last (shared st); ttl := ttl (shared st); loading := true; done_ := made (shared st); lastErr := lastErr (shared st);
       made := S (made (shared st)); closed := closed (shared st); observations := clock st :: observations (shared st) |}).
Proof.
  intros [H1 H2 H3 H4 H5 H6 [H7 Hpos] H8 H9] Hk Hl Hgap. apply Since_elapsed in Hgap; [|done].
  assert (Hnone : forall j channel, ~ observes (calls st !! j) channel) by (intros j channel Hj; destruct (H1 _ _ Hj); congruence).
  split; cbn [moved shared clock last ttl loading done_ made closed observations].
  - intros j channel [[-> [= ->]]|[_ Hj]]%observes_moved; [done|by destruct (Hnone j channel)].
  - intros j j' channel channel' [[-> _]|[_ Hj]]%observes_moved; [|by destruct (Hnone j channel)].
    intros [[-> _]|[_ Hj']]%observes_moved; [done|by destruct (Hnone j' channel')].
  - intros _. exists k. unfold observes. cbn [moved calls]. by rewrite lookup_insert_eq.
  - intros channel Hc. specialize (H4 channel Hc). lia.
  - intros _. split; [|lia]. intros Hc. specialize (H4 _ Hc). lia.
  - intros j channel [[-> [=]]|[_ Hj]]%waits_moved. destruct (H6 j channel Hj) as [Hc|[Hc _]]; [by left|congruence].
  - split; [|done]. destruct (observations (shared st)) as [|began rest]; [done|]. split; [|done].
    destruct (H8 began eq_refl) as [_ Hb]. specialize (Hb Hl). lia.
  - intros began [= <-]. split; [lia|done].
  - done.
Qed.

Lemma settled_ends st k channel err s : shared_by_one st -> calls st !! k = Some (Observing channel) ->
  end_observation (clock st) err channel (shared st) = Some s -> shared_by_one (moved st k (Answered err) s).
Proof.
  intros [H1 H2 H3 H4 H5 H6 [H7 Hpos] H8 H9] Hk Hs. unfold end_observation, close_channel in Hs. cbn [closed loading done_ lastErr made observations last ttl] in Hs.
  destruct (H1 k channel Hk) as [Hl Hc]. destruct (H5 Hl) as [Hopen Hmade]. case_bool_decide; [done|]. injection Hs as <-.
  assert (Hothers : forall j channel', j <> k -> ~ observes (calls st !! j) channel') by (intros j channel' Hj Ho; by destruct (Hj (H2 _ _ _ _ Ho Hk))).
  split; cbn [moved shared clock last ttl loading done_ made closed observations].
  - intros j channel' [[-> [=]]|[Hj Ho]]%observes_moved. by destruct (Hothers j channel').
  - intros j j' channel' channel'' [[-> [=]]|[Hj Ho]]%observes_moved. by destruct (Hothers j channel').
  - done.
  - intros channel' [->%elem_of_singleton|Hin]%elem_of_union; [lia|by apply H4].
  - done.
  - intros j channel' [[-> [=]]|[Hj Hw]]%waits_moved. left. apply elem_of_union. destruct (H6 j channel' Hw) as [Hin|[_ ->]]; [by right|left; by apply elem_of_singleton].
  - done.
  - intros began Hb. destruct (H8 began Hb). done.
  - lia.
Qed.

Lemma settled_step st st' : shared_by_one st -> scrape_step st (Some st') -> shared_by_one st'.
Proof.
  intros Hs Hstep. inversion Hstep as [now Hnow|k Hk|k Hk|k channel err Hk Hf|k channel Hk Hc|k channel err Hk]; subst.
  - destruct Hs as [H1 H2 H3 H4 H5 H6 H7 H8 H9]. split; cbn [shared calls clock]; try done; [|lia].
    intros began Hb. destruct (H8 began Hb) as [Hb1 Hb2]. split; [lia|done].
  - apply settled_moved; try done. unfold observes. by rewrite Hk.
  - unfold enter. destruct (Z.ltb_spec (Since (clock st) (last (shared st))) (ttl (shared st))); cbn [fst snd].
    + apply settled_moved; try done. unfold observes. by rewrite Hk.
    + destruct (loading (shared st)) eqn:Hl; cbn [fst snd]; [|by apply settled_begins].
      apply settled_moved; try done; [unfold observes; by rewrite Hk|]. intros channel [= <-]. by right.
  - apply fmap_Some in Hf as (s & Hf & ->). by eapply settled_ends.
  - apply settled_moved; try done. unfold observes. by rewrite Hk.
  - apply settled_moved; try done. unfold observes. by rewrite Hk.
Qed.

Lemma settled_reachable zero ttl_ now st : zero <= now -> scraped (idle zero ttl_ now) st -> shared_by_one st.
Proof.
  intros Hz. induction 1 as [|st st' _ IH Hstep]; [|by eapply settled_step].
  split; cbn [idle shared calls clock newMetricsSnapshot last ttl loading done_ made closed observations]; try done.
  split; [done|]. destruct (Z.leb_spec ttl_ 0); [|lia]. unfold second. lia.
Qed.

(** However many scrapes arrive, at most one observes at a time; observations begin at least the
    snapshot's life apart, and it is positive whatever was configured; the channel of an observation is
    closed once; and a scrape that waits is either answered by its next step or waits for the one that
    observes, whose end answers it. *)
Theorem scrapes_share_one_observation zero ttl_ now st : zero <= now -> scraped (idle zero ttl_ now) st ->
  (forall k k' channel channel', observes (calls st !! k) channel -> observes (calls st !! k') channel' -> k = k') /\
  (apart_by (ttl (shared st)) (observations (shared st)) /\ 0 < ttl (shared st)) /\
  ~ scrape_step st None /\
  forall k channel, calls st !! k = Some (Waiting channel) ->
    (exists answer, scrape_step st (Some (moved st k (Answered answer) (shared st))) /\ channel ∈ closed (shared st)) \/
    exists k', k' <> k /\ observes (calls st !! k') channel /\
      forall err, exists st', scrape_step st (Some st') /\ calls st' !! k = Some (Waiting channel) /\ channel ∈ closed (shared st') /\ lastErr (shared st') = err.
Proof.
  intros Hz Hr. pose proof (settled_reachable _ _ _ _ Hz Hr) as [H1 H2 H3 H4 H5 H6 H7 H8 H9].
  assert (Hcloses : forall k channel err, observes (calls st !! k) channel -> exists s, end_observation (clock st) err channel (shared st) = Some s /\
    channel ∈ closed s /\ lastErr s = err).
  { intros k channel err Hk. destruct (H1 k channel Hk) as [Hl ->]. destruct (H5 Hl) as [Ho _]. unfold end_observation, close_channel. cbn [closed].
    rewrite bool_decide_eq_false_2 by done. eexists. split; [done|]. cbn [closed lastErr]. set_solver. }
  split; [done|]. split; [done|]. split.
  - intros Hs. inversion Hs as [| | |k channel err Hk Hf| |]; subst. destruct (Hcloses k channel err Hk) as (s & Heq & _). by rewrite Heq in Hf.
  - intros k channel Hk. destruct (H6 k channel Hk) as [Hc|[Hl ->]]; [left|right].
    + exists (lastErr (shared st)). split; [by eapply wakes|done].
    + destruct (H3 Hl) as [k' Hk']. assert (Hne : k' <> k) by (intros ->; unfold observes in Hk'; congruence). exists k'. split_and!; [done|done|].
      intros err. destruct (Hcloses k' _ err Hk') as (s & Hf & Hin & He). exists (moved st k' (Answered err) s).
      split_and!; [|cbn [moved calls]; by rewrite lookup_insert_ne|done|done].
      pose proof (observed st k' _ err Hk') as Hstep. by rewrite Hf in Hstep.
Qed.

(** Two scrapes at once: one observes, the other is answered by its end. *)
Definition two_scrapes : scrapes :=
  {| shared := {| last := 0; ttl := second; loading := true; done_ := 0; lastErr := None; made := 1; closed := ∅; observations := [2 * second] |};
     calls := {[1%nat := Waiting 0]} ∪ {[0%nat := Observing 0]}; clock := 2 * second |}.

Lemma two_scrapes_reachable : scraped (idle 0 0 (2 * second)) two_scrapes.
Proof.
  assert (H1 : scraped (idle 0 0 (2 * second)) (moved (idle 0 0 (2 * second)) 0 Entering (shared (idle 0 0 (2 * second))))).
  { eapply continues_; [apply starts|]. by apply arrives. }
  eapply continues_ in H1; [|by apply (enters _ 0)].
  eapply continues_ in H1; [|by apply (arrives _ 1)].
  eapply continues_ in H1; [|by apply (enters _ 1)].
  vm_compute in H1. vm_compute. exact H1.
Qed.

Lemma scrapes_share_one_observation_witness :
  calls two_scrapes !! 1%nat = Some (Waiting 0) /\ exists k', k' <> 1%nat /\ observes (calls two_scrapes !! k') 0.
Proof.
  split; [reflexivity|].
  destruct (scrapes_share_one_observation 0 0 (2 * second) two_scrapes ltac:(unfold second; lia) two_scrapes_reachable) as (_ & _ & _ & Hw).
  destruct (Hw 1%nat 0%nat eq_refl) as [(a & _ & Hc)|(k' & Hk & Ho & _)]; [by apply not_elem_of_empty in Hc|]. by exists k'.
Defined.
