(* ===== verification/Egress.v ===== *)
(** * Outbound connections: [internal/delivery]'s [ssrf.go], [transport.go] and the rest of [client.go].

    Which addresses a listener's dialer may connect to, and the budgets of its client. An address is its
    bytes, four or sixteen, as in package [net]; the readers of that package that the guard rests on --
    [SplitHostPort], [ParseIP], [ParseCIDR], [IPNet.Contains] -- are written out here. Durations are
    nanoseconds. *)

From S2P Require Import Prelude Policy.

Local Open Scope Z_scope.

(** ** Addresses, as package [net] has them *)

Abbreviation IP := (list Z).

Definition v4InV6Prefix : IP := [0; 0; 0; 0; 0; 0; 0; 0; 0; 0; 255; 255].

Definition To4 (ip : IP) : option IP :=
  if (length ip =? 4)%nat then Some ip
  else if (length ip =? 16)%nat && bool_decide (take 12 ip = v4InV6Prefix) then Some (drop 12 ip)
  else None.

(** [CIDRMask]: [ones] bits set, then clear, over [bytes] bytes. *)
Fixpoint CIDRMask (ones : Z) (bytes : nat) : list Z :=
  match bytes with
  | O => []
  | S bytes => (if 8 <=? ones then 255 else if ones <=? 0 then 0 else 256 - 2 ^ (8 - ones)) :: CIDRMask (ones - 8) bytes
  end.

Record IPNet := { net_IP : IP; Mask : list Z }.

Definition masked : list Z -> list Z -> list Z := zip_with Z.land.

Definition networkNumberAndMask (n : IPNet) : option (IP * list Z) :=
  match To4 (net_IP n) with
  | Some ip =>
      if (length (Mask n) =? 4)%nat then Some (ip, Mask n)
      else if (length (Mask n) =? 16)%nat then Some (ip, drop 12 (Mask n))
      else None
  | None =>
      if (length (net_IP n) =? 16)%nat && (length (Mask n) =? 16)%nat then Some (net_IP n, Mask n) else None
  end.

Definition Contains (n : IPNet) (ip : IP) : bool :=
  match networkNumberAndMask n with
  | None => false
  | Some (nn, m) =>
      let ip := default ip (To4 ip) in
      (length ip =? length nn)%nat && bool_decide (masked nn m = masked ip m)
  end.

(** *** [netip.ParseAddr] *)

(** The fields of [parseIPv4Fields]: the bytes written so far, the octet being read and its digits. *)
Fixpoint ipv4_fields (fields : list Z) (val digLen : Z) (s : gostring) : option (list Z) :=
  match s with
  | [] => if (length fields =? 3)%nat then Some (fields ++ [val]) else None
  | c :: rest =>
      if is_digit c then
        if (digLen =? 1) && (val =? 0) then None
        else let val := val * 10 + (code c - 48) in
             if 255 <? val then None else ipv4_fields fields val (digLen + 1) rest
      else if bool_decide (c = "."%char) then
        if (digLen =? 0) || bool_decide (rest = []) || (length fields =? 3)%nat then None
        else ipv4_fields (fields ++ [val]) 0 0 rest
      else None
  end.

Definition parseIPv4 (s : gostring) : option (list Z) := ipv4_fields [] 0 0 s.

Definition hex_digit (c : ascii) : option Z :=
  if is_digit c then Some (code c - 48)
  else if (97 <=? code c) && (code c <=? 102) then Some (code c - 87)
  else if (65 <=? code c) && (code c <=? 70) then Some (code c - 55)
  else None.

(** One group: its value, its digits, and what follows; [None] past four digits. *)
Fixpoint hex_group (off : nat) (acc : Z) (s : gostring) : option (nat * Z * gostring) :=
  match s with
  | [] => Some (off, acc, [])
  | c :: rest =>
      match hex_digit c with
      | None => Some (off, acc, s)
      | Some d => if (3 <? off)%nat then None else hex_group (S off) (acc * 16 + d) rest
      end
  end.

(** The loop of [parseIPv6], over the bytes written so far: a group writes two of them, so eight rounds
    are all it makes. It answers the bytes, where the ellipsis stands and what is left of the text. *)
Fixpoint ipv6_groups (fuel : nat) (ip : list Z) (ellipsis : option nat) (s : gostring) : option (list Z * option nat * gostring) :=
  match fuel with
  | O => Some (ip, ellipsis, s)
  | S fuel =>
      match hex_group 0 0 s with
      | None | Some (O, _, _) => None
      | Some (S _, acc, rest) =>
          if bool_decide (head rest = Some "."%char) then
            if (bool_decide (ellipsis = None) && negb (length ip =? 12)%nat) || (16 <? length ip + 4)%nat then None
            else (λ v4, (ip ++ v4, ellipsis, [])) <$> ipv4_fields [] 0 0 s
          else
            let ip := ip ++ [acc / 256; acc `mod` 256] in
            match rest with
            | [] => Some (ip, ellipsis, [])
            | c :: rest =>
                if negb (bool_decide (c = ":"%char)) || bool_decide (rest = []) then None
                else if bool_decide (head rest = Some ":"%char) then
                  match ellipsis with
                  | Some _ => None
                  | None =>
                      if bool_decide (tail rest = []) then Some (ip, Some (length ip), [])
                      else ipv6_groups fuel ip (Some (length ip)) (tail rest)
                  end
                else ipv6_groups fuel ip ellipsis rest
            end
      end
  end.

Definition expand_ellipsis (ip : list Z) (ellipsis : option nat) : option (list Z) :=
  match ellipsis with
  | None => if (length ip <? 16)%nat then None else Some ip
  | Some at_ => if (length ip <? 16)%nat then Some (take at_ ip ++ replicate (16 - length ip) 0 ++ drop at_ ip) else None
  end.

(** An address and whether it names a zone. *)
Definition parseIPv6 (s : gostring) : option (list Z * bool) :=
  let '(s, zone) :=
    match index_of (bs "%") s with None => (s, Some false) | Some i => (take i s, if bool_decide (drop (S i) s = []) then None else Some true) end in
  zone ← zone;
  if has_prefix s (bs "::") then
    if bool_decide (drop 2 s = []) then Some (replicate 16 0, zone)
    else '(ip, ellipsis, rest) ← ipv6_groups 8 [] (Some 0%nat) (drop 2 s);
         if bool_decide (rest = []) then (λ ip, (ip, zone)) <$> expand_ellipsis ip ellipsis else None
  else
    '(ip, ellipsis, rest) ← ipv6_groups 8 [] None s;
    if bool_decide (rest = []) then (λ ip, (ip, zone)) <$> expand_ellipsis ip ellipsis else None.

(** The first of [.], [:] and [%] decides the family. *)
Fixpoint ParseAddr_from (s : gostring) (rest : gostring) : option (list Z * bool) :=
  match rest with
  | [] => None
  | c :: rest =>
      if bool_decide (c = "."%char) then (λ ip, (ip, false)) <$> parseIPv4 s
      else if bool_decide (c = ":"%char) then parseIPv6 s
      else if bool_decide (c = "%"%char) then None
      else ParseAddr_from s rest
  end.
Definition ParseAddr (s : gostring) : option (list Z * bool) := ParseAddr_from s s.

Definition As16 (ip : list Z) : IP := if (length ip =? 4)%nat then v4InV6Prefix ++ ip else ip.

Definition ParseIP (s : gostring) : option IP :=
  match ParseAddr s with Some (ip, false) => Some (As16 ip) | _ => None end.

(** [dtoi]: a run of digits below [0xFFFFFF]. *)
Fixpoint dtoi (n : Z) (s : gostring) : option (Z * gostring) :=
  match s with
  | [] => Some (n, [])
  | c :: rest =>
      if is_digit c then let n := n * 10 + (code c - 48) in if 16777215 <=? n then None else dtoi n rest
      else Some (n, s)
  end.

Definition ParseCIDR (s : gostring) : option IPNet :=
  i ← index_of (bs "/") s;
  match ParseAddr (take i s) with
  | Some (ip, false) =>
      let mask := drop (S i) s in
      '(n, rest) ← dtoi 0 mask;
      if bool_decide (mask = []) || negb (bool_decide (rest = [])) || (Z.of_nat (8 * length ip) <? n) then None
      else let m := CIDRMask n (length ip) in Some {| net_IP := masked ip m; Mask := m |}
  | _ => None
  end.

Definition LastIndexByte (s : gostring) (c : ascii) : option nat :=
  (λ found, (length s - 1 - found.1)%nat) <$> list_find (c =.) (rev s).

(** The host [net.SplitHostPort] answers; [None] is its error. *)
Definition SplitHostPort (hostport : gostring) : option gostring :=
  i ← LastIndexByte hostport ":";
  if has_prefix hostport (bs "[") then
    end_ ← index_of (bs "]") hostport;
    if (end_ + 1 =? i)%nat && negb (contains_byte "[" (drop 1 hostport)) && negb (contains_byte "]" (drop (end_ + 1) hostport))
    then Some (drop 1 (take end_ hostport)) else None
  else if contains_byte ":" (take i hostport) || contains_byte "[" hostport || contains_byte "]" hostport then None
  else Some (take i hostport).

(** ** ssrf.go *)

Definition blockedRangeTexts : list gostring :=
  map bs ["0.0.0.0/8"; "10.0.0.0/8"; "100.64.0.0/10"; "127.0.0.0/8"; "169.254.0.0/16"; "172.16.0.0/12";
          "192.0.0.0/24"; "192.168.0.0/16"; "198.18.0.0/15"; "224.0.0.0/4"; "240.0.0.0/4";
          "::/128"; "::1/128"; "64:ff9b::/96"; "2002::/16"; "fc00::/7"; "fe80::/10"; "ff00::/8"]%string.

(** [None] is the panic. *)
Definition mustNetworks (values : list gostring) : option (list IPNet) := mapM ParseCIDR values.

Definition blockedRanges : list IPNet := Eval vm_compute in default [] (mustNetworks blockedRangeTexts).

Inductive egressRefusal :=
  | NotACIDR (value : gostring)
  | UnparsableAddress (address : gostring)
  | NotAnIP (address : gostring)
  | Blocked (ip : IP).

Fixpoint ParseAllowedDestinations (values : list gostring) : result egressRefusal (list IPNet) :=
  match values with
  | [] => Ok []
  | value :: values =>
      match ParseCIDR (TrimSpace value) with
      | None => Err (NotACIDR value)
      | Some network => rbind (ParseAllowedDestinations values) (λ networks, Ok (network :: networks))
      end
  end.

Definition blockedAddress (ip : IP) (exempt : list IPNet) : bool :=
  let ip := default ip (To4 ip) in
  if existsb (λ network, Contains network ip) exempt then false
  else existsb (λ network, Contains network ip) blockedRanges.

(** [strings.Trim(host, "[]")]. *)
Fixpoint trim_left_brackets (host : gostring) : gostring :=
  match host with c :: rest => if contains_byte c (bs "[]") then trim_left_brackets rest else host | [] => [] end.
Definition trim_brackets (host : gostring) : gostring := rev (trim_left_brackets (rev (trim_left_brackets host))).

Definition without_zone (host : gostring) : gostring :=
  match LastIndexByte host "%" with Some zone => take zone host | None => host end.

Definition refuseUnsafeAddress (address : gostring) (exempt : list IPNet) : result egressRefusal unit :=
  match SplitHostPort address with
  | None => Err (UnparsableAddress address)
  | Some host =>
      match ParseIP (without_zone (trim_brackets host)) with
      | None => Err (NotAnIP address)
      | Some ip => if blockedAddress ip exempt then Err (Blocked ip) else Ok tt
      end
  end.

Definition ssrfControlAllowing (exempt : list IPNet) (network address : gostring) : result egressRefusal unit :=
  refuseUnsafeAddress address exempt.
Definition ssrfSafeControl (network address : gostring) : result egressRefusal unit := ssrfControlAllowing [] network address.

(** ** transport.go *)

Record TransportConfig := {
  Timeout : Z;
  DialTimeout : Z;
  KeepAlive : Z;
  TLSHandshakeTimeout : Z;
  ResponseHeaderTimeout : Z;
  ExpectContinueTimeout : Z;
  IdleConnTimeout : Z;
  MaxIdleConns : Z;
  MaxIdleConnsPerHost : Z;
  AllowedDestinations : list IPNet
}.

Definition defaultDialTimeout : Z := 5 * second.
Definition defaultKeepAlive : Z := 30 * second.
Definition defaultTLSHandshakeTimeout : Z := 5 * second.
Definition defaultResponseHeaderTimeout : Z := 10 * second.
Definition defaultExpectContinue : Z := second.
Definition defaultIdleConnTimeout : Z := 90 * second.
Definition defaultRequestTimeout : Z := 30 * second.
Definition defaultMaxIdleConns : Z := 100.

Definition positive_or (value fallback : Z) : Z := if value <=? 0 then fallback else value.

Definition normalized (c : TransportConfig) : TransportConfig :=
  let perHost := positive_or (MaxIdleConnsPerHost c) 1 in
  {| Timeout := positive_or (Timeout c) defaultRequestTimeout;
     DialTimeout := positive_or (DialTimeout c) defaultDialTimeout;
     KeepAlive := positive_or (KeepAlive c) defaultKeepAlive;
     TLSHandshakeTimeout := positive_or (TLSHandshakeTimeout c) defaultTLSHandshakeTimeout;
     ResponseHeaderTimeout := positive_or (ResponseHeaderTimeout c) defaultResponseHeaderTimeout;
     ExpectContinueTimeout := positive_or (ExpectContinueTimeout c) defaultExpectContinue;
     IdleConnTimeout := positive_or (IdleConnTimeout c) defaultIdleConnTimeout;
     MaxIdleConnsPerHost := perHost;
     MaxIdleConns :=
       if MaxIdleConns c <? perHost then (if defaultMaxIdleConns <? perHost then perHost else defaultMaxIdleConns)
       else MaxIdleConns c;
     AllowedDestinations := AllowedDestinations c |}.

(** What the code sets of a [net.Dialer], an [http.Transport] and an [http.Client]. *)
Record Dialer := {
  dial_Timeout : Z;
  dial_KeepAlive : Z;
  Control : gostring -> gostring -> result egressRefusal unit
}.
Record Transport := {
  Proxy : bool;
  dialer : Dialer;
  ForceAttemptHTTP2 : bool;
  t_MaxIdleConns : Z;
  t_MaxIdleConnsPerHost : Z;
  t_IdleConnTimeout : Z;
  t_TLSHandshakeTimeout : Z;
  t_ResponseHeaderTimeout : Z;
  t_ExpectContinueTimeout : Z
}.
Inductive redirectVerdict := Follow | ErrUseLastResponse.
Record Client := { transport_ : Transport; client_Timeout : Z; CheckRedirect : redirectVerdict }.

Definition configuredDialer (config : TransportConfig) : Dialer :=
  {| dial_Timeout := DialTimeout config; dial_KeepAlive := KeepAlive config;
     Control := ssrfControlAllowing (AllowedDestinations config) |}.

Definition NewTransport (config : TransportConfig) : Transport :=
  let config := normalized config in
  {| Proxy := false; dialer := configuredDialer config; ForceAttemptHTTP2 := true;
     t_MaxIdleConns := MaxIdleConns config; t_MaxIdleConnsPerHost := MaxIdleConnsPerHost config;
     t_IdleConnTimeout := IdleConnTimeout config; t_TLSHandshakeTimeout := TLSHandshakeTimeout config;
     t_ResponseHeaderTimeout := ResponseHeaderTimeout config; t_ExpectContinueTimeout := ExpectContinueTimeout config |}.

Definition refuseRedirects : redirectVerdict := ErrUseLastResponse.

Definition buildClient (config : TransportConfig) : Client * Transport :=
  let config := normalized config in
  let transport := NewTransport config in
  ({| transport_ := transport; client_Timeout := Timeout config; CheckRedirect := refuseRedirects |}, transport).

Definition NewClient (config : TransportConfig) : Client := (buildClient config).1.

(** client.go's [NewListenerClient]. *)
Definition NewListenerClient (timeout concurrency : Z) (allowed : list IPNet) : Client * Transport :=
  buildClient {| Timeout := timeout; DialTimeout := 0; KeepAlive := 0; TLSHandshakeTimeout := 0; ResponseHeaderTimeout := 0;
                 ExpectContinueTimeout := 0; IdleConnTimeout := 0; MaxIdleConns := 0; MaxIdleConnsPerHost := concurrency;
                 AllowedDestinations := allowed |}.

(** ** The numbers addresses stand for *)

Fixpoint number (ip : list Z) : Z :=
  match ip with [] => 0 | b :: rest => b * 256 ^ Z.of_nat (length rest) + number rest end.

Definition bytes (ip : list Z) : Prop := Forall (λ b, 0 <= b < 256) ip.

Lemma number_range ip : bytes ip -> 0 <= number ip < 256 ^ Z.of_nat (length ip).
Proof.
  induction 1 as [|b ip Hb _ IH]; [cbn; lia|]. cbn [number length]. rewrite Nat2Z.inj_succ, Z.pow_succ_r by lia. nia.
Qed.

Lemma land_high x y k : 0 <= x < 256 -> 0 <= y < 256 -> 0 <= k <= 8 ->
  Z.land x (256 - 2 ^ k) = Z.land y (256 - 2 ^ k) <-> x / 2 ^ k = y / 2 ^ k.
Proof.
  intros Hx Hy Hk.
  assert (H : forall z, 0 <= z < 256 -> Z.land z (256 - 2 ^ k) = z / 2 ^ k * 2 ^ k).
  { intros z Hz. replace (256 - 2 ^ k) with (Z.shiftl (Z.ones (8 - k)) k).
    - apply Z.bits_inj'. intros i Hi. rewrite Z.land_spec, Z.shiftl_spec by lia.
      rewrite <- Z.shiftl_mul_pow2, Z.shiftl_spec, <- Z.shiftr_div_pow2 by lia.
      destruct (Z.ltb_spec i k).
      + rewrite (Z.testbit_neg_r _ (i - k)), (Z.testbit_neg_r _ (i - k)) by lia. apply andb_false_r.
      + rewrite Z.shiftr_spec by lia. replace (i - k + k) with i by lia.
        destruct (Z.ltb_spec i 8); [rewrite Z.ones_spec_low by lia; apply andb_true_r|].
        rewrite Z.ones_spec_high by lia. rewrite andb_false_r. symmetry.
        apply (Z.testbit_false); [lia|]. rewrite Z.div_small; [done|]. split; [lia|].
        apply Z.lt_le_trans with (2 ^ 8); [lia|]. apply Z.pow_le_mono_r; lia.
    - rewrite Z.ones_equiv, Z.shiftl_mul_pow2 by lia.
      replace 256 with (2 ^ (8 - k) * 2 ^ k) by (rewrite <- Z.pow_add_r by lia; by replace (8 - k + k) with 8 by lia). lia. }
  rewrite !H by done. assert (0 < 2 ^ k) by (apply Z.pow_pos_nonneg; lia). nia.
Qed.

Lemma div_join x y a b p q : 0 <= a < p -> 0 <= b < p -> 0 < p -> 0 < q -> 0 <= x -> 0 <= y ->
  (x * p + a) / (p * q) = (y * p + b) / (p * q) <-> x / q = y / q.
Proof.
  intros Ha Hb Hp Hq Hx Hy.
  assert (H : forall z c, 0 <= c < p -> (z * p + c) / (p * q) = z / q).
  { intros z c Hc. rewrite <- Z.div_div by lia. rewrite Z.div_add_l by lia. by rewrite (Z.div_small c) by lia; rewrite Z.add_0_r. }
  by rewrite !H.
Qed.

Lemma masked_none a ones : ones <= 0 -> masked a (CIDRMask ones (length a)) = replicate (length a) 0.
Proof.
  revert ones. induction a as [|x a IH]; intros ones Ho; [done|]. cbn [length CIDRMask masked zip_with replicate].
  rewrite (proj2 (Z.leb_gt 8 ones)), (proj2 (Z.leb_le ones 0)), Z.land_0_r by lia. f_equal. apply IH. lia.
Qed.

Lemma pow256 n : 256 ^ Z.of_nat n = 2 ^ (8 * Z.of_nat n).
Proof. rewrite Z.pow_mul_r by lia. done. Qed.

Lemma head_splits x y a b p q : 0 <= a < p * q -> 0 <= b < p * q -> 0 < p -> 0 < q -> 
  (x * (p * q) + a) / p = (y * (p * q) + b) / p <-> x = y /\ a / p = b / p.
Proof.
  intros Ha Hb Hp Hq.
  assert (H : forall z c, (z * (p * q) + c) / p = z * q + c / p).
  { intros z c. replace (z * (p * q)) with (z * q * p) by lia. by rewrite Z.div_add_l by lia. }
  rewrite !H. assert (0 <= a / p < q) by (split; [apply Z.div_pos; lia|apply Z.div_lt_upper_bound; lia]).
  assert (0 <= b / p < q) by (split; [apply Z.div_pos; lia|apply Z.div_lt_upper_bound; lia]).
  split; [|by intros [-> ->]]. intros He. assert (x = y) by nia. subst. split; [done|lia].
Qed.

(** A mask of [ones] bits compares the addresses' leading bits. *)
Lemma masked_prefix a : forall b ones, bytes a -> bytes b -> length a = length b -> 0 <= ones <= 8 * Z.of_nat (length a) ->
  masked a (CIDRMask ones (length a)) = masked b (CIDRMask ones (length a)) <->
  number a / 2 ^ (8 * Z.of_nat (length a) - ones) = number b / 2 ^ (8 * Z.of_nat (length a) - ones).
Proof.
  induction a as [|x a IH]; intros b ones Ha Hb Hl Ho; destruct b as [|y b]; try done.
  apply Forall_cons in Ha as [Hx Ha], Hb as [Hy Hb]. injection Hl as Hl.
  pose proof (number_range a Ha) as Hna. pose proof (number_range b Hb) as Hnb. rewrite <- Hl in Hnb.
  rewrite pow256 in Hna, Hnb. cbn [length] in Ho |- *. rewrite Nat2Z.inj_succ in Ho |- *.
  cbn [CIDRMask masked zip_with number]. rewrite <- Hl, pow256.
  fold (masked a (CIDRMask (ones - 8) (length a))). fold (masked b (CIDRMask (ones - 8) (length a))).
  destruct (Z.leb_spec 8 ones).
  - specialize (IH b (ones - 8) Ha Hb Hl ltac:(lia)).
    replace (8 * Z.succ (Z.of_nat (length a)) - ones) with (8 * Z.of_nat (length a) - (ones - 8)) by lia.
    set (s := 8 * Z.of_nat (length a) - (ones - 8)) in *.
    replace (2 ^ (8 * Z.of_nat (length a))) with (2 ^ s * 2 ^ (ones - 8)) in * by (rewrite <- Z.pow_add_r by lia; f_equal; lia).
    rewrite head_splits, <- IH by (try lia; apply Z.pow_pos_nonneg; lia).
    change 255 with (Z.ones 8). rewrite !Z.land_ones by lia. rewrite !Z.mod_small by lia.
    split; [by intros [= -> ->]|by intros [-> ->]].
  - replace (8 * Z.succ (Z.of_nat (length a)) - ones) with (8 * Z.of_nat (length a) + (8 - ones)) by lia.
    rewrite (Z.pow_add_r 2 (8 * _)) by lia.
    rewrite div_join by (try lia; apply Z.pow_pos_nonneg; lia). rewrite masked_none by lia.
    replace (masked b (CIDRMask (ones - 8) (length a))) with (replicate (length a) 0) by (rewrite Hl; symmetry; apply masked_none; lia).
    destruct (Z.leb_spec ones 0).
    + assert (ones = 0) as -> by lia. rewrite !Z.land_0_r. split; [|done]. intros _. by rewrite !Z.div_small by lia.
    + rewrite <- land_high by lia. split; [by intros [= ->]|by intros ->].
Qed.

(** ** What the readers read *)

Lemma ipv4_fields_spec s : forall fields val digLen l, bytes fields -> 0 <= val < 256 -> (length fields <= 3)%nat ->
  ipv4_fields fields val digLen s = Some l -> bytes l /\ length l = 4%nat.
Proof.
  induction s as [|c s IH]; intros fields val digLen l Hf Hv Hl; cbn [ipv4_fields].
  - destruct (Nat.eqb_spec (length fields) 3) as [H3|]; [|done]. intros [= <-]. split.
    + apply Forall_app. split; [done|]. by constructor.
    + rewrite length_app, H3. done.
  - destruct (is_digit c) eqn:Hd.
    + destruct (_ && _); [done|]. destruct (Z.ltb_spec 255 (val * 10 + (code c - 48))); [done|].
      apply IH; [done| |done]. unfold is_digit in Hd. bool_to_prop. lia.
    + case_bool_decide; [|done]. destruct ((_ || _) || _) eqn:Hx; [done|].
      apply orb_false_iff in Hx as [_ Hx%Nat.eqb_neq]. apply IH; [|lia|rewrite length_app; cbn [length]; lia].
      apply Forall_app. split; [done|]. by constructor.
Qed.

Lemma parseIPv4_spec s l : parseIPv4 s = Some l -> bytes l /\ length l = 4%nat.
Proof. apply ipv4_fields_spec; [constructor|lia|cbn; lia]. Qed.

Lemma hex_digit_range c d : hex_digit c = Some d -> 0 <= d < 16.
Proof.
  unfold hex_digit, is_digit. destruct (_ && _) eqn:H; [intros [= <-]; bool_to_prop; lia|].
  destruct ((97 <=? code c) && _) eqn:H1; [intros [= <-]; bool_to_prop; lia|].
  destruct ((65 <=? code c) && _) eqn:H2; [|done]. intros [= <-]. bool_to_prop. lia.
Qed.

Lemma hex_group_range s : forall off acc n v rest, (off <= 4)%nat -> 0 <= acc < 16 ^ Z.of_nat off ->
  hex_group off acc s = Some (n, v, rest) -> 0 <= v < 65536.
Proof.
  assert (Hend : forall (off : nat) acc, (off <= 4)%nat -> 0 <= acc < 16 ^ Z.of_nat off -> 0 <= acc < 65536).
  { intros off acc Ho Ha. split; [lia|]. apply Z.lt_le_trans with (16 ^ Z.of_nat off); [lia|].
    change 65536 with (16 ^ 4). apply Z.pow_le_mono_r; lia. }
  induction s as [|c s IH]; intros off acc n v rest Ho Ha; cbn [hex_group]; [intros [= _ <- _]; by eapply Hend|].
  destruct (hex_digit c) as [d|] eqn:Hd; [|intros [= _ <- _]; by eapply Hend].
  destruct (Nat.ltb_spec 3 off); [done|]. apply IH; [lia|].
  apply hex_digit_range in Hd. rewrite Nat2Z.inj_succ, Z.pow_succ_r by lia. nia.
Qed.

Definition half_read (ip : list Z) (ellipsis : option nat) : Prop :=
  bytes ip /\ (length ip <= 16)%nat /\ forall at_, ellipsis = Some at_ -> (at_ <= length ip)%nat.

Lemma ipv6_groups_spec fuel : forall ip ellipsis s ip' ellipsis' rest,
  half_read ip ellipsis -> (length ip + 2 * fuel <= 16)%nat ->
  ipv6_groups fuel ip ellipsis s = Some (ip', ellipsis', rest) -> half_read ip' ellipsis'.
Proof.
  induction fuel as [|fuel IH]; intros ip ellipsis s ip' ellipsis' rest Hr Hf; cbn [ipv6_groups]; [by intros [= <- <- _]|].
  destruct (hex_group 0 0 s) as [[[[|n] acc] after]|] eqn:Hg; try done.
  apply hex_group_range in Hg; [|lia|cbn; lia].
  destruct Hr as (Hb & Hl & He). case_bool_decide.
  - destruct ((_ && _) || _) eqn:Hx; [done|]. apply orb_false_iff in Hx as [_ Hx%Nat.ltb_ge].
    destruct (ipv4_fields [] 0 0 s) as [v4|] eqn:Hv; [|done]. cbn [fmap option_fmap option_map]. intros [= <- <- _].
    apply ipv4_fields_spec in Hv as [Hvb Hvl]; [|constructor|lia|cbn; lia].
    split_and!; [by apply Forall_app|rewrite length_app; lia|]. intros at_ Ha. rewrite length_app. specialize (He _ Ha). lia.
  - assert (Hr : forall e, (forall at_, e = Some at_ -> (at_ <= length ip + 2)%nat) -> half_read (ip ++ [acc / 256; acc `mod` 256]) e).
    { intros e Hat. split_and!.
      - apply Forall_app. split; [done|]. repeat constructor; try (apply Z.mod_pos_bound; lia); [apply Z.div_pos; lia|].
        apply Z.div_lt_upper_bound; lia.
      - rewrite length_app. cbn [length]. lia.
      - rewrite length_app. exact Hat. }
    assert (Hkeep : forall at_, ellipsis = Some at_ -> (at_ <= length ip + 2)%nat) by (intros at_ Ha; specialize (He _ Ha); lia).
    assert (Hlen : length (ip ++ [acc / 256; acc `mod` 256]) = (length ip + 2)%nat) by (rewrite length_app; done).
    destruct after as [|c after]; [intros [= <- <- _]; by apply Hr|].
    destruct (_ || _); [done|]. case_bool_decide.
    + destruct ellipsis; [done|]. case_bool_decide.
      * intros [= <- <- _]. apply Hr. intros at_ [= <-]. lia.
      * apply IH; [|rewrite Hlen; lia]. apply Hr. intros at_ [= <-]. lia.
    + apply IH; [by apply Hr|rewrite Hlen; lia].
Qed.

Lemma expand_ellipsis_spec ip ellipsis l : half_read ip ellipsis -> expand_ellipsis ip ellipsis = Some l -> bytes l /\ length l = 16%nat.
Proof.
  intros (Hb & Hl & He). unfold expand_ellipsis. destruct ellipsis as [at_|].
  - destruct (Nat.ltb_spec (length ip) 16); [|done]. intros [= <-]. specialize (He _ eq_refl). split.
    + apply Forall_app. split; [by apply Forall_take|]. apply Forall_app. split; [|by apply Forall_drop].
      apply Forall_replicate. lia.
    + rewrite !length_app, length_take, length_drop, length_replicate. lia.
  - destruct (Nat.ltb_spec (length ip) 16); [done|]. intros [= <-]. split; [done|lia].
Qed.

Lemma parseIPv6_spec s l z : parseIPv6 s = Some (l, z) -> bytes l /\ length l = 16%nat.
Proof.
  unfold parseIPv6. destruct (match index_of (bs "%") s with None => _ | Some i => _ end) as [t [zone|]]; [|done]. cbn [mbind option_bind].
  assert (Hgo : forall e u, half_read [] e ->
    ('(ip, ellipsis, rest) ← ipv6_groups 8 [] e u; if bool_decide (rest = []) then (λ ip, (ip, zone)) <$> expand_ellipsis ip ellipsis else None) = Some (l, z) ->
    bytes l /\ length l = 16%nat).
  { intros e u Hh. destruct (ipv6_groups 8 [] e u) as [[[ip ellipsis] rest]|] eqn:Hg; [|done]. cbn [mbind option_bind].
    case_bool_decide; [|done]. destruct (expand_ellipsis ip ellipsis) as [ip'|] eqn:Hx; [|done]. intros [= <- _].
    eapply expand_ellipsis_spec; [|exact Hx]. eapply ipv6_groups_spec; [exact Hh| |exact Hg]. cbn. lia. }
  destruct (has_prefix t (bs "::")).
  - case_bool_decide; [intros [= <- _]; split; [|done]; by_compute|].
    apply Hgo. split_and!; [constructor|cbn; lia|by intros at_ [= <-]].
  - apply Hgo. split_and!; [constructor|cbn; lia|done].
Qed.

(** Whatever [ParseIP] reads is sixteen bytes. *)
Lemma ParseIP_spec s ip : ParseIP s = Some ip -> bytes ip /\ length ip = 16%nat.
Proof.
  assert (H : forall rest l z, ParseAddr_from s rest = Some (l, z) -> bytes l /\ (length l = 4%nat \/ length l = 16%nat)).
  { induction rest as [|c rest IH]; intros l z; cbn [ParseAddr_from]; [done|]. case_bool_decide.
    - destruct (parseIPv4 s) as [v4|] eqn:Hv; [|done]. intros [= <- _]. apply parseIPv4_spec in Hv as [Hb Hl]. auto.
    - case_bool_decide; [intros Hv%parseIPv6_spec; naive_solver|]. case_bool_decide; [done|]. apply IH. }
  unfold ParseIP, ParseAddr. destruct (ParseAddr_from s s) as [[l [|]]|] eqn:Hp; try done. intros [= <-].
  apply H in Hp as [Hb Hl]. unfold As16. destruct (Nat.eqb_spec (length l) 4) as [H4|H4].
  - split; [|rewrite length_app, H4; done]. apply Forall_app. split; [|done]. by_compute.
  - split; [done|lia].
Qed.

(** ** The addresses nothing is sent to *)

Definition quad (a b c d : Z) : Z := number [a; b; c; d].

Definition unsafe_v4 : list (Z * Z) :=
  [(quad 0 0 0 0, quad 0 255 255 255);
   (quad 10 0 0 0, quad 10 255 255 255);
   (quad 100 64 0 0, quad 100 127 255 255);
   (quad 127 0 0 0, quad 127 255 255 255);
   (quad 169 254 0 0, quad 169 254 255 255);
   (quad 172 16 0 0, quad 172 31 255 255);
   (quad 192 0 0 0, quad 192 0 0 255);
   (quad 192 168 0 0, quad 192 168 255 255);
   (quad 198 18 0 0, quad 198 19 255 255);
   (quad 224 0 0 0, quad 239 255 255 255);
   (quad 240 0 0 0, quad 255 255 255 255)].

(** In hexadecimal groups: [::], [::1], [64:ff9b::/96], [2002::/16], [fc00::/7], [fe80::/10], [ff00::/8]. *)
Definition unsafe_v6 : list (Z * Z) :=
  [(0, 0);
   (1, 1);
   (0x64ff9b * 2 ^ 96, 0x64ff9b * 2 ^ 96 + (2 ^ 32 - 1));
   (0x2002 * 2 ^ 112, 0x2003 * 2 ^ 112 - 1);
   (0xfc00 * 2 ^ 112, 0xfe00 * 2 ^ 112 - 1);
   (0xfe80 * 2 ^ 112, 0xfec0 * 2 ^ 112 - 1);
   (0xff00 * 2 ^ 112, 2 ^ 128 - 1)].

(** An address is judged by its four-byte number when it is one, however many bytes spell it. *)
Definition unsafe (ip : IP) : Prop :=
  match To4 ip with
  | Some v4 => exists r, r ∈ unsafe_v4 /\ r.1 <= number v4 <= r.2
  | None => exists r, r ∈ unsafe_v6 /\ r.1 <= number ip <= r.2
  end.

Definition network_of (base : IP) (ones : Z) : IPNet := {| net_IP := base; Mask := CIDRMask ones (length base) |}.

Lemma length_CIDRMask ones n : length (CIDRMask ones n) = n.
Proof. revert ones. induction n as [|n IH]; intros ones; [done|]. cbn [CIDRMask length]. by rewrite IH. Qed.

Lemma To4_spec ip v4 : bytes ip -> To4 ip = Some v4 -> bytes v4 /\ length v4 = 4%nat.
Proof.
  intros Hb. unfold To4. destruct (Nat.eqb_spec (length ip) 4); [by intros [= <-]|].
  destruct (Nat.eqb_spec (length ip) 16); [|done]. destruct (bool_decide _); [|done]. intros [= <-].
  split; [by apply Forall_drop|]. rewrite length_drop. lia.
Qed.

Lemma To4_four ip : length ip = 4%nat -> To4 ip = Some ip.
Proof. unfold To4. by intros ->. Qed.

(** A network is an interval of numbers. *)
Lemma prefix_interval v base bits ones : 0 <= v -> 0 <= ones <= bits -> base mod 2 ^ (bits - ones) = 0 ->
  v / 2 ^ (bits - ones) = base / 2 ^ (bits - ones) <-> base <= v <= base + (2 ^ (bits - ones) - 1).
Proof.
  intros Hv Ho Hb. assert (0 < 2 ^ (bits - ones)) by (apply Z.pow_pos_nonneg; lia).
  pose proof (Z.div_mod v (2 ^ (bits - ones)) ltac:(lia)). pose proof (Z.div_mod base (2 ^ (bits - ones)) ltac:(lia)).
  pose proof (Z.mod_pos_bound v (2 ^ (bits - ones)) ltac:(lia)). split; [intros He; rewrite He in *; lia|].
  intros Hin. symmetry. apply Z.div_unique with (v - base); lia.
Qed.

Definition aligned (bits : Z) (n : IP * Z) : bool :=
  (Z.of_nat (8 * length n.1) =? bits) && (number n.1 mod 2 ^ (bits - n.2) =? 0) && (0 <=? n.2) && (n.2 <=? bits) &&
  forallb (λ b, (0 <=? b) && (b <? 256)) n.1.

Definition interval_of (bits : Z) (n : IP * Z) : Z * Z := (number n.1, number n.1 + (2 ^ (bits - n.2) - 1)).

Lemma aligned_spec bits base ones : aligned bits (base, ones) = true ->
  bits = 8 * Z.of_nat (length base) /\ number base mod 2 ^ (bits - ones) = 0 /\ 0 <= ones <= bits /\ bytes base.
Proof.
  unfold aligned. cbn [fst snd]. rewrite !andb_true_iff. intros ((((H1%Z.eqb_eq & H2%Z.eqb_eq) & H3%Z.leb_le) & H4%Z.leb_le) & H5).
  split_and!; [lia|done|lia|lia|]. apply Forall_forall. intros b Hb%list_elem_of_In.
  pose proof (proj1 (forallb_forall _ _) H5 b Hb) as H. cbv beta in H. bool_to_prop. lia.
Qed.

Lemma masked_interval bits base ones ip : aligned bits (base, ones) = true -> bytes ip -> length ip = length base ->
  masked base (CIDRMask ones (length base)) = masked ip (CIDRMask ones (length base)) <->
  (interval_of bits (base, ones)).1 <= number ip <= (interval_of bits (base, ones)).2.
Proof.
  intros (-> & Hm & Ho & Hb)%aligned_spec Hip Hl. rewrite masked_prefix by done.
  pose proof (number_range ip Hip). unfold interval_of. cbn [fst snd]. rewrite <- prefix_interval by (done || lia).
  split; congruence.
Qed.

Lemma Contains_v4 base ones ip v4 : aligned 32 (base, ones) = true -> bytes ip -> To4 ip = Some v4 ->
  Contains (network_of base ones) ip = true <-> (interval_of 32 (base, ones)).1 <= number v4 <= (interval_of 32 (base, ones)).2.
Proof.
  intros Ha Hip Hv. pose proof (aligned_spec _ _ _ Ha) as (Hl & _). destruct (To4_spec _ _ Hip Hv) as [Hvb Hvl].
  unfold Contains, networkNumberAndMask, network_of. cbn [net_IP Mask]. rewrite To4_four by lia.
  rewrite length_CIDRMask, (proj2 (Nat.eqb_eq (length base) 4)) by lia. rewrite Hv. cbn [default from_option id].
  rewrite (proj2 (Nat.eqb_eq (length v4) (length base))) by lia. cbn [andb].
  rewrite bool_decide_eq_true. apply masked_interval; [done|done|lia].
Qed.

Lemma Contains_v6 base ones ip : aligned 128 (base, ones) = true -> To4 base = None -> bytes ip -> length ip = 16%nat -> To4 ip = None ->
  Contains (network_of base ones) ip = true <-> (interval_of 128 (base, ones)).1 <= number ip <= (interval_of 128 (base, ones)).2.
Proof.
  intros Ha Hbase Hip Hl16 Hv. pose proof (aligned_spec _ _ _ Ha) as (Hl & _).
  unfold Contains, networkNumberAndMask, network_of. cbn [net_IP Mask]. rewrite Hbase.
  rewrite length_CIDRMask, (proj2 (Nat.eqb_eq (length base) 16)) by lia. cbn [andb]. rewrite Hv. cbn [default from_option id].
  rewrite (proj2 (Nat.eqb_eq (length ip) (length base))) by lia. cbn [andb].
  rewrite bool_decide_eq_true. apply masked_interval; [done|done|lia].
Qed.

(** The two families do not meet. *)
Lemma Contains_other_family base ones ip : (To4 base = None /\ is_Some (To4 ip) /\ bytes ip) \/ (length base = 4%nat /\ To4 ip = None /\ length ip = 16%nat) ->
  Contains (network_of base ones) ip = false.
Proof.
  unfold Contains, networkNumberAndMask, network_of. cbn [net_IP Mask]. rewrite length_CIDRMask.
  intros [(-> & [v4 Hv] & Hb)|(Hl & Hv & Hl16)].
  - destruct (Nat.eqb_spec (length base) 16) as [H16|]; [|done]. cbn [andb]. rewrite Hv. cbn [default from_option id].
    destruct (To4_spec _ _ Hb Hv) as [_ H4]. rewrite (proj2 (Nat.eqb_neq _ _)) by lia. done.
  - rewrite To4_four, Hl by done. cbn [Nat.eqb]. rewrite Hv. cbn [default from_option id]. rewrite Hl, Hl16. done.
Qed.

Definition v4_networks : list (IP * Z) :=
  [([0; 0; 0; 0], 8); ([10; 0; 0; 0], 8); ([100; 64; 0; 0], 10); ([127; 0; 0; 0], 8); ([169; 254; 0; 0], 16); ([172; 16; 0; 0], 12);
   ([192; 0; 0; 0], 24); ([192; 168; 0; 0], 16); ([198; 18; 0; 0], 15); ([224; 0; 0; 0], 4); ([240; 0; 0; 0], 4)].
Definition v6_networks : list (IP * Z) :=
  [(replicate 16 0, 128); (replicate 15 0 ++ [1], 128); ([0; 0x64; 0xff; 0x9b] ++ replicate 12 0, 96);
   ([0x20; 2] ++ replicate 14 0, 16); (0xfc :: replicate 15 0, 7); ([0xfe; 0x80] ++ replicate 14 0, 10); (0xff :: replicate 15 0, 8)].

Lemma blockedRanges_networks : blockedRanges = map (λ n, network_of n.1 n.2) (v4_networks ++ v6_networks).
Proof. vm_compute. reflexivity. Qed.

Lemma existsb_networks (networks : list (IP * Z)) ip P (interval : IP * Z -> Z * Z) v :
  (forall n, n ∈ networks -> P n = true) ->
  (forall base ones, P (base, ones) = true ->
    Contains (network_of base ones) ip = true <-> (interval (base, ones)).1 <= v <= (interval (base, ones)).2) ->
  existsb (λ network, Contains network ip) (map (λ n, network_of n.1 n.2) networks) = true <->
  exists r, r ∈ map interval networks /\ r.1 <= v <= r.2.
Proof.
  intros HP Hc. rewrite existsb_exists. split.
  - intros (net & Hin & Ht). apply in_map_iff in Hin as ([base ones] & <- & Hin%list_elem_of_In).
    exists (interval (base, ones)). split; [apply list_elem_of_fmap; eauto|]. apply Hc; [by apply HP|done].
  - intros (r & Hr & Hv). apply list_elem_of_fmap in Hr as ([base ones] & -> & Hin).
    exists (network_of base ones). split; [apply in_map_iff; exists (base, ones); split; [done|by apply list_elem_of_In]|].
    apply Hc; [by apply HP|done].
Qed.

Lemma no_network (networks : list (IP * Z)) ip : (forall n, n ∈ networks -> Contains (network_of n.1 n.2) ip = false) ->
  existsb (λ network, Contains network ip) (map (λ n, network_of n.1 n.2) networks) = false.
Proof.
  intros H. apply not_true_is_false. intros (net & Hin & Ht)%existsb_exists.
  apply in_map_iff in Hin as (n & <- & Hin%list_elem_of_In). by rewrite H in Ht.
Qed.

Lemma all_aligned bits networks n : forallb (aligned bits) networks = true -> n ∈ networks -> aligned bits n = true.
Proof. intros H Hn%list_elem_of_In. by eapply forallb_forall in H. Qed.

Lemma v6_networks_wide n : n ∈ v6_networks -> aligned 128 n && bool_decide (To4 n.1 = None) = true.
Proof. intros Hn%list_elem_of_In. revert n Hn. apply forallb_forall. vm_compute. done. Qed.

(** The compiled table is the documented one. *)
Lemma blocked_iff ip : bytes ip -> length ip = 16%nat ->
  existsb (λ network, Contains network ip) blockedRanges = true <-> unsafe ip.
Proof.
  intros Hb Hl. rewrite blockedRanges_networks, map_app, existsb_app. unfold unsafe. destruct (To4 ip) as [v4|] eqn:Hv.
  - rewrite (no_network v6_networks), orb_false_r.
    + change unsafe_v4 with (map (interval_of 32) v4_networks).
      apply (existsb_networks v4_networks ip (aligned 32)); [|by intros; eapply Contains_v4].
      intros n. apply all_aligned. vm_compute. done.
    + intros [base ones] [_ Ht%bool_decide_eq_true]%v6_networks_wide%andb_true_iff.
      apply Contains_other_family. left. split; [done|]. by split; [eexists|].
  - rewrite (no_network v4_networks); [cbn [orb]|].
    + change unsafe_v6 with (map (interval_of 128) v6_networks).
      apply (existsb_networks v6_networks ip (λ n, aligned 128 n && bool_decide (To4 n.1 = None)) (interval_of 128)).
      * exact v6_networks_wide.
      * intros base ones [Ha Ht%bool_decide_eq_true]%andb_true_iff. by apply Contains_v6.
    + intros [base ones] Hn. apply Contains_other_family. right. split; [|done].
      pose proof (all_aligned 32 v4_networks (base, ones) ltac:(vm_compute; done) Hn) as (? & _)%aligned_spec. cbn [fst]. lia.
Qed.

Lemma Contains_To4 n ip : Contains n (default ip (To4 ip)) = Contains n ip.
Proof.
  unfold Contains. destruct (networkNumberAndMask n) as [[nn m]|]; [|done]. destruct (To4 ip) as [v4|] eqn:Hv; cbn [default from_option id]; [|by rewrite Hv].
  rewrite To4_four; [done|]. unfold To4 in Hv. destruct (Nat.eqb_spec (length ip) 4); [by injection Hv as <-|].
  destruct (Nat.eqb_spec (length ip) 16); [|done]. destruct (bool_decide _); [|done]. injection Hv as <-. rewrite length_drop. lia.
Qed.

Lemma existsb_ext_in {A} (f g : A -> bool) l : (forall x, f x = g x) -> existsb f l = existsb g l.
Proof. intros H. induction l as [|x l IH]; [done|]. cbn [existsb]. by rewrite H, IH. Qed.

Lemma blockedAddress_iff ip exempt : bytes ip -> length ip = 16%nat ->
  blockedAddress ip exempt = false <-> (exists network, network ∈ exempt /\ Contains network ip = true) \/ ~ unsafe ip.
Proof.
  intros Hb Hl. unfold blockedAddress.
  assert (Hx : forall l, existsb (λ network, Contains network (default ip (To4 ip))) l = existsb (λ network, Contains network ip) l).
  { intros l. apply existsb_ext_in. intros n. apply Contains_To4. }
  rewrite !Hx.
  rewrite <- (blocked_iff ip Hb Hl). destruct (existsb _ exempt) eqn:He.
  - split; [|done]. intros _. left. apply existsb_exists in He as (n & Hn%list_elem_of_In & Hc). eauto.
  - rewrite <- not_true_iff_false. split; [by right|]. intros [(n & Hn%list_elem_of_In & Hc)|H]; [|done].
    assert (existsb (λ network, Contains network ip) exempt = true) by (apply existsb_exists; eauto). congruence.
Qed.

(** *** Reading the text of an address *)

Lemma octet_cases (P : Z -> Prop) : Forall P (map Z.of_nat (seq 0 256)) -> forall z, 0 <= z < 256 -> P z.
Proof.
  intros HP z Hz. apply (proj1 (Forall_forall _ _) HP). apply list_elem_of_fmap. exists (Z.to_nat z). split; [lia|].
  apply list_elem_of_In, in_seq. lia.
Qed.

Lemma octet_reads z : 0 <= z < 256 -> exists n, 0 < n /\ forall fields rest, ipv4_fields fields 0 0 (format_int z ++ rest) = ipv4_fields fields z n rest.
Proof.
  revert z. apply octet_cases. unfold map, seq.
  repeat (constructor; [first [by exists 1; split; [lia|intros; reflexivity] | by exists 2; split; [lia|intros; reflexivity] | by exists 3; split; [lia|intros; reflexivity]]|]).
  constructor.
Qed.

Lemma octet_hex z : 0 <= z < 256 -> forall rest, exists n v, hex_group 0 0 (format_int z ++ "."%char :: rest) = Some (S n, v, "."%char :: rest).
Proof.
  revert z. apply (octet_cases (λ z, forall rest, exists n v, hex_group 0 0 (format_int z ++ "."%char :: rest) = Some (S n, v, "."%char :: rest))).
  unfold map, seq. repeat (constructor; [intros rest; do 2 eexists; reflexivity|]). constructor.
Qed.

Definition dotted (a b c d : Z) : gostring :=
  format_int a ++ bs "." ++ format_int b ++ bs "." ++ format_int c ++ bs "." ++ format_int d.

Definition address_byte (c : ascii) : Prop := is_digit c = true \/ c = "."%char.

Lemma not_address_byte c : is_digit c || bool_decide (c = "."%char) = false -> ~ address_byte c.
Proof. intros [Hd Hdot%bool_decide_eq_false]%orb_false_iff [H|H]; [by rewrite H in Hd|done]. Qed.

Lemma format_int_octet z : 0 <= z < 256 -> Forall (λ c, is_digit c = true) (format_int z) /\ format_int z <> [].
Proof. intros Hz. destruct (format_int_digits z) as (? & ? & _); [lia|done]. Qed.

Lemma ParseAddr_digits s ds rest : Forall (λ c, is_digit c = true) ds -> ParseAddr_from s (ds ++ rest) = ParseAddr_from s rest.
Proof.
  induction 1 as [|c ds Hc _ IH]; [done|]. cbn [app ParseAddr_from].
  rewrite !bool_decide_eq_false_2; [done|..]; intros ->; by vm_compute in Hc.
Qed.

(** A dotted quad is read as the four bytes it spells, whatever was written before it. *)
Lemma dotted_fields a b c d : bytes [a; b; c; d] -> ipv4_fields [] 0 0 (dotted a b c d) = Some [a; b; c; d].
Proof.
  unfold bytes. rewrite !Forall_cons. intros (Ha & Hb & Hc & Hd & _). unfold dotted.
  destruct (octet_reads a Ha) as (na & Hna & ->). destruct (octet_reads b Hb) as (nb & Hnb & Hrb).
  destruct (octet_reads c Hc) as (nc & Hnc & Hrc). destruct (octet_reads d Hd) as (nd & Hnd & Hrd).
  assert (Hdot : forall fields val n rest, 0 < n -> rest <> [] -> (length fields < 3)%nat ->
    ipv4_fields fields val n (bs "." ++ rest) = ipv4_fields (fields ++ [val]) 0 0 rest).
  { intros fields val n rest Hn Hr Hf. change (bs "." ++ rest) with ("."%char :: rest). cbn [ipv4_fields].
    change (is_digit ".") with false. cbn iota. rewrite bool_decide_eq_true_2 by done.
    rewrite (proj2 (Z.eqb_neq n 0)), bool_decide_eq_false_2, (proj2 (Nat.eqb_neq _ _)) by (done || lia). done. }
  assert (Hne : forall z rest, 0 <= z < 256 -> format_int z ++ rest <> []).
  { intros z rest Hz [He _]%app_nil. by destruct (format_int_octet z Hz). }
  rewrite Hdot, Hrb by (try apply Hne; cbn; lia || done). rewrite Hdot, Hrc by (try apply Hne; cbn; lia || done).
  rewrite Hdot by (try (rewrite <- (app_nil_r (format_int d)); apply Hne); cbn; lia || done).
  rewrite <- (app_nil_r (format_int d)), Hrd. done.
Qed.

Lemma dotted_bytes a b c d : bytes [a; b; c; d] -> Forall address_byte (dotted a b c d).
Proof.
  unfold bytes. rewrite !Forall_cons. intros (Ha & Hb & Hc & Hd & _). unfold dotted, address_byte.
  assert (Hz : forall z, 0 <= z < 256 -> Forall (λ c, is_digit c = true \/ c = "."%char) (format_int z)).
  { intros z Hz. eapply Forall_impl; [apply (format_int_octet z Hz)|]. by left. }
  assert (Hdot : Forall (λ c, is_digit c = true \/ c = "."%char) (bs ".")) by (repeat constructor; by right).
  repeat (apply Forall_app; split); auto.
Qed.

Lemma dotted_head a b c d : bytes [a; b; c; d] -> exists x rest, dotted a b c d = x :: rest /\ is_digit x = true.
Proof.
  intros Hb. unfold bytes in Hb. apply Forall_cons in Hb as [Ha _]. destruct (format_int_octet a Ha) as [Hd Hne]. unfold dotted.
  destruct (format_int a) as [|x rest]; [done|]. apply Forall_cons in Hd as [Hx _]. cbn [app]. eauto.
Qed.

Lemma dotted_without a b c d x : bytes [a; b; c; d] -> ~ address_byte x -> x ∉ dotted a b c d.
Proof. intros Hb Hx Hin. apply Hx. by apply (proj1 (Forall_forall _ _) (dotted_bytes a b c d Hb)). Qed.

Lemma ParseIP_dotted a b c d : bytes [a; b; c; d] -> ParseIP (dotted a b c d) = Some (v4InV6Prefix ++ [a; b; c; d]).
Proof.
  intros Hb. unfold ParseIP, ParseAddr. pose proof (Forall_inv Hb) as Ha. cbv beta in Ha.
  assert (Hp : ParseAddr_from (dotted a b c d) (dotted a b c d) = Some ([a; b; c; d], false)).
  { unfold dotted at 2. rewrite ParseAddr_digits by (apply format_int_octet; lia).
    change (bs "." ++ ?r) with ("."%char :: r). cbn [ParseAddr_from]. rewrite bool_decide_eq_true_2 by done.
    unfold parseIPv4. by rewrite dotted_fields. }
  rewrite Hp. done.
Qed.

Definition mapped (a b c d : Z) : gostring := bs "::ffff:" ++ dotted a b c d.

Lemma index_of_absent c s : c ∉ s -> index_of [c] s = None.
Proof.
  intros Hc. apply index_of_None. intros m _. apply not_true_iff_false. intros [r Hr]%has_prefix_spec. apply Hc.
  rewrite <- (take_drop m s), Hr. apply elem_of_app. right. apply list_elem_of_here.
Qed.

Lemma ParseIP_mapped a b c d : bytes [a; b; c; d] -> ParseIP (mapped a b c d) = Some (v4InV6Prefix ++ [a; b; c; d]).
Proof.
  intros Hb. pose proof (Forall_inv Hb) as Ha. cbv beta in Ha. unfold ParseIP, ParseAddr, mapped.
  assert (Hz : index_of (bs "%") (bs "::ffff:" ++ dotted a b c d) = None).
  { apply index_of_absent. rewrite elem_of_app. intros [Hin|Hin]; [exact (bool_decide_eq_false_1 ("%"%char ∈ bs "::ffff:") eq_refl Hin)|].
    by apply dotted_without in Hin; [|done|apply not_address_byte]. }
  assert (Hp : parseIPv6 (bs "::ffff:" ++ dotted a b c d) = Some (v4InV6Prefix ++ [a; b; c; d], false)).
  { unfold parseIPv6. rewrite Hz. change (bs "::ffff:" ++ dotted a b c d) with (":"%char :: ":"%char :: bs "ffff:" ++ dotted a b c d).
    cbn [mbind option_bind]. rewrite (proj2 (has_prefix_spec _ _)) by by eexists.
    rewrite bool_decide_eq_false_2 by done. cbn [drop].
    destruct (dotted_head a b c d Hb) as (x & rest & Hx & Hdig).
    assert (Hcolon : x <> ":"%char) by (intros ->; by vm_compute in Hdig).
    destruct (octet_hex a Ha (format_int b ++ bs "." ++ format_int c ++ bs "." ++ format_int d)) as (n & v & Hg).
    change (hex_group 0 0 (dotted a b c d) = Some (S n, v, "."%char :: (format_int b ++ bs "." ++ format_int c ++ bs "." ++ format_int d))) in Hg.
    pose proof (dotted_fields a b c d Hb) as Hf. rewrite Hx in Hg, Hf |- *.
    rewrite drop_0. change (ipv6_groups 8 [] (Some 0%nat) (bs "ffff:" ++ x :: rest)) with
      (if bool_decide (Some x = Some ":"%char) then (None : option (list Z * option nat * gostring)) else ipv6_groups 7 [255; 255] (Some 0%nat) (x :: rest)).
    rewrite bool_decide_eq_false_2 by congruence. cbn [ipv6_groups]. rewrite Hg. cbn [head]. rewrite bool_decide_eq_true_2 by done.
    rewrite Hf. done. }
  change (ParseAddr_from ?s (bs "::ffff:" ++ ?r)) with (parseIPv6 s). rewrite Hp. done.
Qed.

Lemma not_in_rev (c : ascii) s : c ∉ s -> c ∉ rev s.
Proof. intros Hc Hin. apply Hc. by apply list_elem_of_In, in_rev, list_elem_of_In. Qed.

Lemma not_in_rev_inv (c : ascii) s : c ∉ s -> forall x, x ∈ rev s -> c <> x.
Proof. intros Hc x Hx <-. by apply (not_in_rev c s). Qed.

Lemma LastIndexByte_last pre (c : ascii) post : c ∉ post -> LastIndexByte (pre ++ c :: post) c = Some (length pre).
Proof.
  intros Hc. unfold LastIndexByte. rewrite rev_app_distr. cbn [rev]. rewrite <- app_assoc. cbn [app].
  rewrite list_find_app_r by (apply list_find_None, Forall_forall; by intros x Hx%(not_in_rev_inv _ _ Hc)).
  cbn [list_find]. rewrite decide_True by done. cbn [fmap option_fmap option_map fst prod_map Nat.add].
  rewrite length_app, length_rev. cbn [length]. f_equal. lia.
Qed.

Lemma LastIndexByte_absent s (c : ascii) : c ∉ s -> LastIndexByte s c = None.
Proof.
  intros Hc. unfold LastIndexByte. rewrite (proj2 (list_find_None _ _)); [done|].
  apply Forall_forall. by intros x Hx%(not_in_rev_inv _ _ Hc).
Qed.

Lemma trim_left_brackets_id s : "["%char ∉ s -> "]"%char ∉ s -> trim_left_brackets s = s.
Proof.
  destruct s as [|c s]; [done|]. rewrite !not_elem_of_cons. intros [Ho _] [Hc _]. cbn [trim_left_brackets]. unfold contains_byte.
  rewrite bool_decide_eq_false_2; [done|]. intros Hin. change (bs "[]") with ["["%char; "]"%char] in Hin. set_unfold in Hin. naive_solver.
Qed.

Lemma plain_host s : "["%char ∉ s -> "]"%char ∉ s -> "%"%char ∉ s -> without_zone (trim_brackets s) = s.
Proof.
  intros Ho Hc Hp. unfold trim_brackets. rewrite (trim_left_brackets_id s) by done.
  rewrite trim_left_brackets_id by by apply not_in_rev.
  rewrite rev_involutive. unfold without_zone. by rewrite LastIndexByte_absent.
Qed.

Lemma SplitHostPort_plain host port : ":"%char ∉ host -> "["%char ∉ host -> "]"%char ∉ host -> Forall (λ c, is_digit c = true) port ->
  SplitHostPort (host ++ ":"%char :: port) = Some host.
Proof.
  intros Hcol Ho Hc Hport.
  assert (Hp : forall c, is_digit c = false -> c ∉ port).
  { intros c Hd Hin. apply (proj1 (Forall_forall _ _) Hport) in Hin. congruence. }
  unfold SplitHostPort. rewrite LastIndexByte_last by by apply Hp. cbn [mbind option_bind].
  rewrite take_app_length. unfold contains_byte. rewrite (bool_decide_eq_false_2 (_ ∈ host)) by done.
  assert (Hb : forall c, is_digit c = false -> c <> ":"%char -> c ∉ host -> c ∉ host ++ ":"%char :: port).
  { intros c Hd Hne Hh. rewrite elem_of_app, elem_of_cons. intros [H|[H|H]]; [done|done|by apply Hp in H]. }
  destruct (has_prefix _ (bs "[")) eqn:Hpre.
  - apply has_prefix_spec in Hpre as [r Hr]. exfalso.
    apply (Hb "["%char); [done|done|done|]. rewrite Hr. apply list_elem_of_here.
  - by rewrite !bool_decide_eq_false_2 by by apply Hb.
Qed.

Lemma SplitHostPort_bracketed host port : "["%char ∉ host -> "]"%char ∉ host -> Forall (λ c, is_digit c = true) port ->
  SplitHostPort (bs "[" ++ host ++ bs "]:" ++ port) = Some host.
Proof.
  intros Ho Hc Hport.
  assert (Hp : forall c, is_digit c = false -> c ∉ port).
  { intros c Hd Hin. apply (proj1 (Forall_forall _ _) Hport) in Hin. congruence. }
  unfold SplitHostPort. rewrite has_prefix_app.
  replace (bs "[" ++ host ++ bs "]:" ++ port) with (("["%char :: host ++ bs "]") ++ ":"%char :: port) by (cbn [app]; by rewrite <- app_assoc).
  rewrite LastIndexByte_last by by apply Hp. cbn [mbind option_bind].
  replace (("["%char :: host ++ bs "]") ++ ":"%char :: port) with (("["%char :: host) ++ "]"%char :: ":"%char :: port) by (cbn [app]; by rewrite <- app_assoc).
  change (bs "]") with ["]"%char]. rewrite index_of_first_sep by (rewrite not_elem_of_cons; done). cbn [mbind option_bind].
  rewrite (proj2 (Nat.eqb_eq _ _)) by (cbn [length]; rewrite length_app; cbn [length]; lia). unfold contains_byte.
  rewrite !bool_decide_eq_false_2; [cbn [andb negb]; by rewrite take_app_length| |].
  - replace (length ("["%char :: host) + 1)%nat with (length (("["%char :: host) ++ ["]"%char])) by (rewrite length_app; done).
    replace (("["%char :: host) ++ "]"%char :: ":"%char :: port) with ((("["%char :: host) ++ ["]"%char]) ++ ":"%char :: port) by by rewrite <- app_assoc.
    rewrite drop_app_length, elem_of_cons. intros [H|H]; [done|by apply Hp in H].
  - cbn [app drop]. rewrite drop_0, elem_of_app, !elem_of_cons. intros [H|[H|[H|H]]]; [done|done|done|by apply Hp in H].
Qed.

Lemma To4_mapped a b c d : To4 (v4InV6Prefix ++ [a; b; c; d]) = Some [a; b; c; d].
Proof. reflexivity. Qed.

Lemma refuseUnsafeAddress_iff address exempt :
  refuseUnsafeAddress address exempt = Ok tt <->
  exists host ip, SplitHostPort address = Some host /\ ParseIP (without_zone (trim_brackets host)) = Some ip /\
    ((exists network, network ∈ exempt /\ Contains network ip = true) \/ ~ unsafe ip).
Proof.
  unfold refuseUnsafeAddress. destruct (SplitHostPort address) as [host|]; [|split; [done|naive_solver]].
  destruct (ParseIP _) as [ip|] eqn:Hip; [|split; [done|naive_solver]].
  destruct (ParseIP_spec _ _ Hip) as [Hb Hl]. pose proof (blockedAddress_iff ip exempt Hb Hl) as Hbl.
  destruct (blockedAddress ip exempt).
  - split; [done|]. intros (h & i & [= <-] & Hi & Ha). assert (i = ip) as -> by congruence. by apply Hbl in Ha.
  - split; [|done]. intros _. exists host, ip. split_and!; [done|done|]. by apply Hbl.
Qed.

(** An IPv4 destination in the two spellings the resolver hands a dialer. *)
Definition spellings (a b c d : Z) (port : gostring) : list gostring :=
  [dotted a b c d ++ ":"%char :: port; bs "[" ++ mapped a b c d ++ bs "]:" ++ port].

Lemma spelled_host a b c d port address : bytes [a; b; c; d] -> Forall (λ x, is_digit x = true) port -> address ∈ spellings a b c d port ->
  exists host, SplitHostPort address = Some host /\ ParseIP (without_zone (trim_brackets host)) = Some (v4InV6Prefix ++ [a; b; c; d]).
Proof.
  intros Hb Hport Hin. assert (Hno : forall x, is_digit x || bool_decide (x = "."%char) = false -> x ∉ dotted a b c d).
  { intros x Hx. by apply dotted_without, not_address_byte. }
  assert (Hm : forall x, is_digit x || bool_decide (x = "."%char) = false -> bool_decide (x ∈ bs "::ffff:") = false -> x ∉ mapped a b c d).
  { intros x Hx Hl%bool_decide_eq_false. unfold mapped. rewrite elem_of_app. intros [H|H]; [done|by apply Hno in H]. }
  unfold spellings in Hin. rewrite !elem_of_cons in Hin. destruct Hin as [->|[->|Hin]]; [| |by apply elem_of_nil in Hin].
  - exists (dotted a b c d). rewrite SplitHostPort_plain, plain_host, ParseIP_dotted by (done || by apply Hno). done.
  - exists (mapped a b c d). rewrite SplitHostPort_bracketed, plain_host, ParseIP_mapped by (done || by apply Hm). done.
Qed.

(** C7. C42: No connection is opened to an unsafe address. A listener's client connects only where its
    control lets it: to an address that reads as an IP, and either lies in a network the operator
    exempted or in none of the documented ranges -- loopback, private, link-local, shared, benchmarking,
    multicast and reserved space, and the IPv6 ranges that embed or are such space -- judged by its number,
    however it is spelled. An IPv4 address, dotted or mapped into IPv6, is read as that number, so each
    of its spellings is refused exactly when it is unsafe. Nothing reaches another address by a proxy or
    by a redirect, whatever the listener's settings. *)
Theorem blocked_destinations_are_refused timeout concurrency exempt network address :
  let client := (NewListenerClient timeout concurrency exempt).1 in
  Proxy (transport_ client) = false /\ CheckRedirect client = ErrUseLastResponse /\
  (Control (dialer (transport_ client)) network address = Ok tt <->
   exists host ip, SplitHostPort address = Some host /\ ParseIP (without_zone (trim_brackets host)) = Some ip /\
     ((exists network, network ∈ exempt /\ Contains network ip = true) \/ ~ unsafe ip)) /\
  (forall a b c d port, bytes [a; b; c; d] -> Forall (λ x, is_digit x = true) port -> address ∈ spellings a b c d port -> exempt = [] ->
   (Control (dialer (transport_ client)) network address = Ok tt <-> ~ exists r, r ∈ unsafe_v4 /\ r.1 <= quad a b c d <= r.2)).
Proof.
  intros client. split; [done|]. split; [done|].
  assert (Hc : Control (dialer (transport_ client)) network address = refuseUnsafeAddress address exempt) by done.
  rewrite Hc. split; [apply refuseUnsafeAddress_iff|].
  intros a b c d port Hb Hport Hin ->. rewrite refuseUnsafeAddress_iff.
  destruct (spelled_host a b c d port address Hb Hport Hin) as (host & Hs & Hp). split.
  - intros (h & ip & Hh & Hi & Ha). rewrite Hs in Hh. injection Hh as <-. rewrite Hp in Hi. injection Hi as <-.
    destruct Ha as [(n & Hn & _)|Ha]; [by apply elem_of_nil in Hn|exact Ha].
  - intros Hu. exists host, (v4InV6Prefix ++ [a; b; c; d]). split_and!; [done|done|]. right. exact Hu.
Qed.

(** The loopback address, mapped into IPv6: the resolver's bracketed form. *)
Lemma blocked_destinations_are_refused_witness :
  bytes [127; 0; 0; 1] /\ bs "[::ffff:127.0.0.1]:443" ∈ spellings 127 0 0 1 (bs "443") /\
  (Control (dialer (transport_ (NewListenerClient 0 4 []).1)) (bs "tcp6") (bs "[::ffff:127.0.0.1]:443") = Ok tt <->
   ~ exists r, r ∈ unsafe_v4 /\ r.1 <= quad 127 0 0 1 <= r.2).
Proof.
  split; [by_compute|]. split; [by_compute|].
  apply (proj2 (proj2 (proj2 (blocked_destinations_are_refused 0 4 [] (bs "tcp6") (bs "[::ffff:127.0.0.1]:443")))) 127 0 0 1 (bs "443"));
    [by_compute|by_compute|by_compute|reflexivity].
Defined.

(** ** Budgets *)

Record bounded_config (c : TransportConfig) : Prop := {
  some_time : Forall (λ t, 0 < t) [Timeout c; DialTimeout c; KeepAlive c; TLSHandshakeTimeout c; ResponseHeaderTimeout c;
                                   ExpectContinueTimeout c; IdleConnTimeout c];
  some_connection : 1 <= MaxIdleConnsPerHost c <= MaxIdleConns c
}.

(** Every budget of a client is positive -- in package [net/http] zero means none -- whatever the
    listener's settings, and what was written positive is kept. *)
Lemma normalized_bounded c : bounded_config (normalized c) /\ (bounded_config c -> normalized c = c).
Proof.
  assert (Hp : forall v f, 0 < f -> 0 < positive_or v f) by (intros v f Hf; unfold positive_or; destruct (Z.leb_spec v 0); lia).
  split.
  - split; cbn [normalized Timeout DialTimeout KeepAlive TLSHandshakeTimeout ResponseHeaderTimeout ExpectContinueTimeout IdleConnTimeout
                MaxIdleConns MaxIdleConnsPerHost].
    + repeat constructor; by apply Hp.
    + specialize (Hp (MaxIdleConnsPerHost c) 1 ltac:(lia)). unfold defaultMaxIdleConns.
      destruct (Z.ltb_spec (MaxIdleConns c) (positive_or (MaxIdleConnsPerHost c) 1)); [|lia].
      destruct (Z.ltb_spec 100 (positive_or (MaxIdleConnsPerHost c) 1)); lia.
  - intros [Ht [Hc Hm]]. rewrite !Forall_cons in Ht. destruct c. unfold normalized. cbn in *.
    assert (Hk : forall v f, 0 < v -> positive_or v f = v) by (intros v f Hv; unfold positive_or; destruct (Z.leb_spec v 0); lia).
    rewrite !Hk by lia. rewrite (proj2 (Z.ltb_ge _ _)) by lia. done.
Qed.
