(* ===== verification/Signing.v ===== *)
(** * Request signing: [internal/delivery/signing.go].

    HMAC-SHA256 is the standard library's; the development takes it as a function [hmac] whose
    digests have the 32 bytes SHA-256 promises, so every theorem holds for each such function. *)

From S2P Require Import Prelude.

Local Open Scope Z_scope.

(** ** [encoding/hex] *)


Definition hex_digit (v : Z) : ascii := if v <? 10 then byte_of (48 + v) else byte_of (87 + v).

Definition from_hex_digit (c : ascii) : option Z :=
  let v := code c in
  if (48 <=? v) && (v <=? 57) then Some (v - 48)
  else if (97 <=? v) && (v <=? 102) then Some (v - 87)
  else if (65 <=? v) && (v <=? 70) then Some (v - 55)
  else None.

Definition EncodeToString (d : gostring) : gostring :=
  d ≫= λ c, [hex_digit (code c / 16); hex_digit (code c mod 16)].

(** [hex.DecodeString]; [None] is its error, on an odd length or a byte that is no hex digit. *)
Fixpoint DecodeString (s : gostring) : option gostring :=
  match s with
  | [] => Some []
  | [_] => None
  | a :: b :: r =>
      match from_hex_digit a, from_hex_digit b, DecodeString r with
      | Some x, Some y, Some d => Some (byte_of (16 * x + y) :: d)
      | _, _, _ => None
      end
  end.

Definition sha256_Size : nat := 32.

Definition lower_hex_byte (c : ascii) : bool :=
  negb (((code c <? 48) || (57 <? code c)) && ((code c <? 97) || (102 <? code c))).

Definition isLowerHex (value : gostring) : bool :=
  if bool_decide (length value = 0%nat) then false else forallb lower_hex_byte value.

Record Signer := { secrets : list gostring }.

Definition NewSigner (values : list gostring) : Signer := {| secrets := values |}.

Definition Signer_String (s : Signer) : gostring := bs "Signer{secrets:<redacted>}".
Definition Signer_GoString (s : Signer) : gostring := bs "delivery.Signer{secrets:<redacted>}".

Section Signing.
Variable hmac : gostring -> gostring -> gostring.

Definition signatureDigest (secret : gostring) (timestamp : Z) (body : gostring) : gostring :=
  hmac secret (format_int timestamp ++ bs "." ++ body).

Definition Sign (secret : gostring) (timestamp : Z) (body : gostring) : gostring :=
  EncodeToString (signatureDigest secret timestamp body).

Definition SignAll (secrets : list gostring) (timestamp : Z) (body : gostring) : gostring :=
  join (bs ",") (map (λ secret, bs "v1=" ++ Sign secret timestamp body) secrets).

(** [hmac.Equal] is equality of the two digests. *)
Definition Verify (secret : gostring) (timestamp : Z) (body candidate : gostring) : bool :=
  if negb (length candidate =? sha256_Size * 2)%nat || negb (isLowerHex candidate) then false
  else match DecodeString candidate with
       | None => false
       | Some want => bool_decide (signatureDigest secret timestamp body = want)
       end.

(** The loop of [VerifyHeader] over the remaining terms, with [matched] carried along. *)
Fixpoint verify_terms (secret : gostring) (timestamp : Z) (body : gostring)
    (matched : bool) (terms : list gostring) : bool :=
  match terms with
  | [] => matched
  | term :: rest =>
      if negb (has_prefix term (bs "v1=")) then false
      else
        let candidate := trim_prefix term (bs "v1=") in
        if negb (length candidate =? sha256_Size * 2)%nat || negb (isLowerHex candidate) then false
        else verify_terms secret timestamp body
               (if Verify secret timestamp body candidate then true else matched) rest
  end.

Definition VerifyHeader (secret : gostring) (timestamp : Z) (body header : gostring) : bool :=
  verify_terms secret timestamp body false (split_on "," header).

Definition Signer_Header (s : Signer) (timestamp : Z) (body : gostring) : gostring :=
  SignAll (secrets s) timestamp body.

Definition Signer_Verify (s : Signer) (timestamp : Z) (body header : gostring) : bool :=
  existsb (λ secret, VerifyHeader secret timestamp body header) (secrets s).
End Signing.

(** ** Hexadecimal *)

Lemma hex_pair_decodes c :
  from_hex_digit (hex_digit (code c / 16)) = Some (code c / 16) /\
  from_hex_digit (hex_digit (code c mod 16)) = Some (code c mod 16).
Proof. destruct c as [[] [] [] [] [] [] [] []]; split; reflexivity. Qed.

Lemma Decode_Encode d : DecodeString (EncodeToString d) = Some d.
Proof.
  induction d as [|c d IH]; [done|]. simpl.
  destruct (hex_pair_decodes c) as [-> ->]. change (d ≫= _) with (EncodeToString d). rewrite IH.
  do 2 f_equal. replace (16 * (code c / 16) + code c mod 16) with (code c).
  - apply byte_of_code.
  - pose proof (Z.div_mod (code c) 16). lia.
Qed.

Lemma lower_hex_pair c d :
  lower_hex_byte c = true -> lower_hex_byte d = true ->
  exists x y, from_hex_digit c = Some x /\ from_hex_digit d = Some y /\
    hex_digit (code (byte_of (16 * x + y)) / 16) = c /\
    hex_digit (code (byte_of (16 * x + y)) mod 16) = d.
Proof.
  assert (H : forallb (λ c, if lower_hex_byte c then forallb (λ d, if lower_hex_byte d then
      match from_hex_digit c, from_hex_digit d with
      | Some x, Some y =>
          bool_decide (hex_digit (code (byte_of (16 * x + y)) / 16) = c) &&
          bool_decide (hex_digit (code (byte_of (16 * x + y)) mod 16) = d)
      | _, _ => false
      end else true) (map byte_of (seqZ 0 256)) else true) (map byte_of (seqZ 0 256)) = true)
    by (vm_compute; reflexivity).
  assert (Hall : forall c, In c (map byte_of (seqZ 0 256))).
  { intros e. rewrite <- (byte_of_code e). apply in_map, list_elem_of_In, elem_of_seqZ.
    pose proof (code_range e). lia. }
  intros Hc Hd. rewrite forallb_forall in H. specialize (H c (Hall c)). rewrite Hc in H.
  rewrite forallb_forall in H. specialize (H d (Hall d)). rewrite Hd in H.
  destruct (from_hex_digit c) as [x|]; [|done]. destruct (from_hex_digit d) as [y|]; [|done].
  bool_to_prop. eauto 10.
Qed.

Lemma Encode_Decode s :
  Nat.Even (length s) -> forallb lower_hex_byte s = true ->
  exists d, DecodeString s = Some d /\ EncodeToString d = s.
Proof.
  remember (length s) as n eqn:Hn. revert s Hn.
  induction n as [n IH] using lt_wf_ind. intros [|a [|b r]] -> Heven Hlow; simpl in *.
  - by exists [].
  - by apply Nat.even_spec in Heven.
  - bool_to_prop. destruct (lower_hex_pair a b) as (x & y & Hx & Hy & Ha & Hb); [done..|].
    destruct (IH (length r)) with (s := r) as (d & Hd & Hr); [lia|done| |done|].
    + apply Nat.even_spec. by apply Nat.even_spec in Heven.
    + exists (byte_of (16 * x + y) :: d). rewrite Hx, Hy, Hd. split; [done|].
      cbn [EncodeToString mbind list_bind app]. rewrite Ha, Hb. do 2 f_equal. exact Hr.
Qed.

Lemma Encode_length d : length (EncodeToString d) = (2 * length d)%nat.
Proof. induction d as [|c d IH]; [done|]. simpl. change (d ≫= _) with (EncodeToString d). lia. Qed.

Lemma hex_digit_lower c :
  lower_hex_byte (hex_digit (code c / 16)) = true /\ lower_hex_byte (hex_digit (code c mod 16)) = true.
Proof. destruct c as [[] [] [] [] [] [] [] []]; split; reflexivity. Qed.

Lemma Encode_lower d : forallb lower_hex_byte (EncodeToString d) = true.
Proof. induction d as [|c d IH]; [done|]. simpl. destruct (hex_digit_lower c) as [-> ->]. exact IH. Qed.

Lemma lower_hex_not_comma d : ","%char ∉ EncodeToString d.
Proof.
  intros H%list_elem_of_In. pose proof (Encode_lower d) as Hl.
  eapply forallb_forall in Hl; [|exact H]. done.
Qed.

(** ** Signatures *)

Lemma format_int_no_dot z : "."%char ∉ format_int z.
Proof.
  intros H. pose proof (format_int_bytes z) as Hall. rewrite Forall_forall in Hall.
  by destruct (Hall _ H) as [Hd|Hd].
Qed.

Lemma signed_message_inj ts ts' body body' :
  format_int ts ++ bs "." ++ body = format_int ts' ++ bs "." ++ body' -> ts = ts' /\ body = body'.
Proof.
  intros [Hf Hb]%first_sep_inj; [|apply format_int_no_dot..]. by apply format_int_inj in Hf.
Qed.

(** A signature binds the timestamp together with the exact body: two requests signed under one
    secret carry the same signature only if both timestamp and body agree, or the two framed
    messages are a collision of the underlying HMAC. *)
Theorem Sign_binds_timestamp_and_body hmac secret ts ts' body body' :
  Sign hmac secret ts body = Sign hmac secret ts' body' ->
  (ts = ts' /\ body = body') \/ exists m m', m <> m' /\ hmac secret m = hmac secret m'.
Proof.
  unfold Sign, signatureDigest. intros H.
  assert (Hd : forall x y, EncodeToString x = EncodeToString y -> x = y).
  { intros x y Hxy. apply (inj Some). by rewrite <- !Decode_Encode, Hxy. }
  apply Hd in H. destruct (decide (ts = ts' /\ body = body')) as [|Hne]; [by left|right].
  eexists _, _. split; [|exact H]. intros Heq. by apply Hne, signed_message_inj.
Qed.

(** A 32-byte digest that depends on key and message, to evaluate the model on. *)
Definition toy_hmac (key message : gostring) : gostring :=
  take sha256_Size (message ++ key ++ replicate sha256_Size "0"%char).

Lemma toy_hmac_size key message : length (toy_hmac key message) = sha256_Size.
Proof. unfold toy_hmac. rewrite length_take, !length_app, length_replicate. lia. Qed.

Lemma Sign_binds_timestamp_and_body_witness :
  Sign toy_hmac (bs "k") 17 (bs "body") = Sign toy_hmac (bs "k") 17 (bs "body") /\
  ((17 = 17 /\ bs "body" = bs "body") \/ exists m m', m <> m' /\ toy_hmac (bs "k") m = toy_hmac (bs "k") m').
Proof.
  split; [reflexivity|]. apply Sign_binds_timestamp_and_body. reflexivity.
Defined.

Section Verification.
Variable hmac : gostring -> gostring -> gostring.
Hypothesis hmac_size : forall key message, length (hmac key message) = sha256_Size.

Lemma Sign_length secret ts body : length (Sign hmac secret ts body) = (sha256_Size * 2)%nat.
Proof. unfold Sign. rewrite Encode_length. unfold signatureDigest. rewrite hmac_size. lia. Qed.

Lemma isLowerHex_Sign secret ts body : isLowerHex (Sign hmac secret ts body) = true.
Proof.
  unfold isLowerHex. rewrite bool_decide_eq_false_2; [apply Encode_lower|].
  rewrite Sign_length. done.
Qed.

Lemma Verify_iff secret ts body candidate :
  Verify hmac secret ts body candidate = true <-> candidate = Sign hmac secret ts body.
Proof.
  unfold Verify. split.
  - destruct (negb (length candidate =? _)%nat || _) eqn:Hg; [done|]. bool_to_prop.
    unfold isLowerHex in *. case_bool_decide; [done|].
    destruct (Encode_Decode candidate) as (d & -> & Henc); [|done|].
    + rewrite H. by exists sha256_Size.
    + rewrite bool_decide_eq_true. intros <-. by rewrite <- Henc.
  - intros ->. rewrite Sign_length, Nat.eqb_refl, isLowerHex_Sign. simpl.
    unfold Sign. rewrite Decode_Encode. by apply bool_decide_eq_true_2.
Qed.

(** A well-formed term of a signature header. *)
Definition v1_term (term : gostring) : Prop :=
  exists candidate, term = bs "v1=" ++ candidate /\
    length candidate = (sha256_Size * 2)%nat /\ isLowerHex candidate = true.

Lemma verify_terms_iff secret ts body matched terms :
  verify_terms hmac secret ts body matched terms = true <->
  Forall v1_term terms /\ (matched = true \/ bs "v1=" ++ Sign hmac secret ts body ∈ terms).
Proof.
  revert matched. induction terms as [|term rest IH]; intros matched; simpl.
  { split; [by auto|]. by intros [_ [?|?%elem_of_nil]]. }
  rewrite Forall_cons, elem_of_cons. destruct (has_prefix term (bs "v1=")) eqn:Hp; simpl.
  2: { split; [done|]. intros [[(c & -> & _) _] _]. by rewrite has_prefix_app in Hp. }
  apply has_prefix_spec in Hp as [c ->]. rewrite trim_prefix_app.
  destruct (negb (length c =? _)%nat || negb (isLowerHex c)) eqn:Hg.
  { split; [done|]. intros [[(c' & Hc & Hl & Hh) _] _]. simplify_list_eq.
    apply orb_true_iff in Hg as [Hg|Hg]; [|by rewrite Hh in Hg].
    rewrite Hl in Hg. by apply negb_true_iff, Nat.eqb_neq in Hg. }
  bool_to_prop. rewrite IH. assert (v1_term (bs "v1=" ++ c)) by (exists c; eauto using Nat.eqb_eq).
  pose proof (Verify_iff secret ts body c) as Hv.
  destruct (Verify hmac secret ts body c) eqn:E.
  - destruct Hv as [Hv _]. rewrite <- Hv by done. intuition.
  - split; [intuition|]. intros ([_ Hr] & Hm). split; [done|].
    destruct Hm as [Hm|[Heq|Hm]]; [auto| |auto]. apply (app_inv_head (bs "v1=")) in Heq.
    destruct Hv as [_ Hv]. discriminate (Hv (eq_sym Heq)).
Qed.

Lemma SignAll_terms values ts body :
  values <> [] ->
  split_on "," (SignAll hmac values ts body) = map (λ secret, bs "v1=" ++ Sign hmac secret ts body) values.
Proof.
  intros Hne. unfold SignAll. apply split_on_join; [by destruct values|].
  apply Forall_map, Forall_true. intros secret. simpl.
  rewrite !not_elem_of_cons. repeat split; try done. apply lower_hex_not_comma.
Qed.

Lemma SignAll_well_formed values ts body :
  Forall v1_term (map (λ secret, bs "v1=" ++ Sign hmac secret ts body) values).
Proof.
  apply Forall_map, Forall_true. intros secret. exists (Sign hmac secret ts body).
  eauto using Sign_length, isLowerHex_Sign.
Qed.

(** C24. Header verification fails closed and supports rotation: a header is accepted under a
    secret exactly when every comma-separated term is a well-formed [v1=] lower-hex digest and one
    of them is the signature of this timestamp and body; hence a receiver holding any one of the
    signer's secrets accepts what [SignAll] emits, and an empty secret list signs nothing that
    verifies. *)
Theorem VerifyHeader_iff secret ts body header :
  (VerifyHeader hmac secret ts body header = true <->
     Forall v1_term (split_on "," header) /\
     bs "v1=" ++ Sign hmac secret ts body ∈ split_on "," header) /\
  (forall values ts' body',
     VerifyHeader hmac secret ts body (SignAll hmac values ts' body') = true <->
     exists value, value ∈ values /\ Sign hmac value ts' body' = Sign hmac secret ts body).
Proof.
  unfold VerifyHeader. split; [rewrite verify_terms_iff; naive_solver|]. intros values ts' body'.
  destruct (decide (values = [])) as [->|Hne].
  { split; [done|]. by intros (v & Hv & _); apply elem_of_nil in Hv. }
  rewrite SignAll_terms by done. rewrite verify_terms_iff. split.
  - intros [_ [|Hin]]; [done|]. apply list_elem_of_fmap in Hin as (v & Heq & Hv).
    apply (app_inv_head (bs "v1=")) in Heq. eauto.
  - intros (v & Hv & Heq). split; [apply SignAll_well_formed|]. right.
    apply list_elem_of_fmap. exists v. by rewrite Heq.
Qed.
End Verification.

Lemma VerifyHeader_iff_witness :
  VerifyHeader toy_hmac (bs "new") 17 (bs "body") (SignAll toy_hmac [bs "old"; bs "new"] 17 (bs "body")) = true.
Proof.
  apply (VerifyHeader_iff toy_hmac toy_hmac_size (bs "new") 17 (bs "body") []).
  exists (bs "new"). split; [|reflexivity].
  apply list_elem_of_further, list_elem_of_here.
Defined.
