(* ===== verification/Utf8.v ===== *)
(** * UTF-8, as [unicode/utf8] reads and writes it, and [internal/source/storabletext.go].

    The decoder follows the standard library's tables: an ill-formed sequence yields the replacement
    rune with width one, the empty string the replacement rune with width zero. *)

From S2P Require Import Prelude.

Local Open Scope Z_scope.

Definition RuneError : Z := 65533.


Definition in_range (lo hi : Z) (c : ascii) : bool := (lo <=? code c) && (code c <=? hi).
Definition continuation : ascii -> bool := in_range 128 191.

(** The bounds of the second byte, by the first byte of a three- or four-byte sequence. *)
Definition second_low (v : Z) : Z := if v =? 224 then 160 else if v =? 240 then 144 else 128.
Definition second_high (v : Z) : Z := if v =? 237 then 159 else if v =? 244 then 143 else 191.

(** [utf8.DecodeRuneInString]: the rune and its width. *)
Definition DecodeRune (s : gostring) : Z * nat :=
  match s with
  | [] => (RuneError, 0%nat)
  | b0 :: r =>
      let v := code b0 in
      if v <? 128 then (v, 1%nat)
      else if in_range 194 223 b0 then
        match r with
        | b1 :: _ =>
            if continuation b1 then ((v - 192) * 64 + (code b1 - 128), 2%nat) else (RuneError, 1%nat)
        | _ => (RuneError, 1%nat)
        end
      else if in_range 224 239 b0 then
        match r with
        | b1 :: b2 :: _ =>
            if in_range (second_low v) (second_high v) b1 && continuation b2
            then ((v - 224) * 4096 + (code b1 - 128) * 64 + (code b2 - 128), 3%nat)
            else (RuneError, 1%nat)
        | _ => (RuneError, 1%nat)
        end
      else if in_range 240 244 b0 then
        match r with
        | b1 :: b2 :: b3 :: _ =>
            if in_range (second_low v) (second_high v) b1 && continuation b2 && continuation b3
            then ((v - 240) * 262144 + (code b1 - 128) * 4096 + (code b2 - 128) * 64
                  + (code b3 - 128), 4%nat)
            else (RuneError, 1%nat)
        | _ => (RuneError, 1%nat)
        end
      else (RuneError, 1%nat)
  end.

(** [strings.Builder.WriteRune]: surrogates and values out of range write the replacement rune. *)
Definition scalar_or_error (r : Z) : Z :=
  if (r <? 0) || (1114111 <? r) || ((55296 <=? r) && (r <=? 57343)) then RuneError else r.

Definition encode_scalar (r : Z) : gostring :=
  if r <? 128 then [byte_of r]
  else if r <? 2048 then [byte_of (192 + r / 64); byte_of (128 + r mod 64)]
  else if r <? 65536 then
    [byte_of (224 + r / 4096); byte_of (128 + (r / 64) mod 64); byte_of (128 + r mod 64)]
  else
    [byte_of (240 + r / 262144); byte_of (128 + (r / 4096) mod 64);
     byte_of (128 + (r / 64) mod 64); byte_of (128 + r mod 64)].

Definition EncodeRune (r : Z) : gostring := encode_scalar (scalar_or_error r).

(** Whether the first rune of a string is an encoding error. *)
Definition decode_fails (s : gostring) : bool :=
  let '(r, w) := DecodeRune s in (r =? RuneError) && (w <=? 1)%nat.

(** Fold a function of the decoded runes over a string, as Go's [range] and index loops do: the
    width is at least one while bytes remain, so the length is enough fuel. *)
Fixpoint over_runes {A} (f : Z -> nat -> A -> A) (done : A) (fuel : nat) (s : gostring) : A :=
  match fuel, s with
  | S fuel, _ :: _ =>
      let '(r, w) := DecodeRune s in f r w (over_runes f done fuel (drop (Nat.max w 1) s))
  | _, _ => done
  end.

(** [utf8.ValidString]. *)
Definition ValidString (s : gostring) : bool :=
  over_runes (λ r w rest, negb ((r =? RuneError) && (w <=? 1)%nat) && rest) true (length s) s.

Definition NUL : ascii := byte_of 0.

Definition replacementRune : Z := 65533.

Definition storableText (text : gostring) : gostring :=
  if ValidString text && negb (contains_byte NUL text) then text
  else over_runes (λ decoded width rest,
         EncodeRune (if (decoded =? 0) || ((decoded =? RuneError) && (width <=? 1)%nat)
                     then replacementRune else decoded) ++ rest)
       [] (length text) text.

(** What a PostgreSQL [text] column stores: valid UTF-8 without a NUL. *)
Definition storable (s : gostring) : Prop := ValidString s = true /\ NUL ∉ s.

(** ** Decoding and encoding agree *)

Ltac div_mod := Z.to_euclidean_division_equations; lia.

Lemma code_byte_of z : 0 <= z < 256 -> code (byte_of z) = z.
Proof. intros H. unfold byte_of, code. rewrite N_ascii_embedding; lia. Qed.

Lemma byte_of_eq z c : z = code c -> byte_of z = c.
Proof. intros ->. apply byte_of_code. Qed.

Lemma second_low_bounds v : 128 <= second_low v.
Proof. unfold second_low. cases_Z; lia. Qed.

Lemma second_high_bounds v : second_high v <= 191.
Proof. unfold second_high. cases_Z; lia. Qed.

(** The well-formed sequences and the runes they encode. *)
Inductive encodes : gostring -> Z -> Prop :=
  | encodes1 b : code b < 128 -> encodes [b] (code b)
  | encodes2 b0 b1 :
      194 <= code b0 <= 223 -> 128 <= code b1 <= 191 ->
      encodes [b0; b1] ((code b0 - 192) * 64 + (code b1 - 128))
  | encodes3 b0 b1 b2 :
      224 <= code b0 <= 239 -> second_low (code b0) <= code b1 <= second_high (code b0) ->
      128 <= code b2 <= 191 ->
      encodes [b0; b1; b2] ((code b0 - 224) * 4096 + (code b1 - 128) * 64 + (code b2 - 128))
  | encodes4 b0 b1 b2 b3 :
      240 <= code b0 <= 244 -> second_low (code b0) <= code b1 <= second_high (code b0) ->
      128 <= code b2 <= 191 -> 128 <= code b3 <= 191 ->
      encodes [b0; b1; b2; b3]
        ((code b0 - 240) * 262144 + (code b1 - 128) * 4096 + (code b2 - 128) * 64 + (code b3 - 128)).

Lemma in_range_true lo hi c : in_range lo hi c = true <-> lo <= code c <= hi.
Proof. unfold in_range. rewrite andb_true_iff, !Z.leb_le. done. Qed.

Lemma in_range_false lo hi c : ~ lo <= code c <= hi -> in_range lo hi c = false.
Proof. rewrite <- in_range_true. apply not_true_is_false. Qed.

Ltac range_facts :=
  repeat match goal with
  | |- context [(?v <? 128)] =>
      first [rewrite (proj2 (Z.ltb_lt v 128)) by lia | rewrite (proj2 (Z.ltb_ge v 128)) by lia]
  | |- context [in_range ?lo ?hi ?c] =>
      first [rewrite (proj2 (in_range_true lo hi c)) by lia | rewrite (in_range_false lo hi c) by lia]
  end.

Lemma DecodeRune_encodes seq r t : encodes seq r -> DecodeRune (seq ++ t) = (r, length seq).
Proof. destruct 1; simpl; unfold continuation; range_facts; reflexivity. Qed.

Lemma DecodeRune_cases s :
  s <> [] -> (exists seq r t, s = seq ++ t /\ encodes seq r) \/ DecodeRune s = (RuneError, 1%nat).
Proof.
  destruct s as [|b0 s]; [done|]. intros _. simpl. unfold continuation.
  destruct (Z.ltb_spec (code b0) 128).
  { left. exists [b0], (code b0), s. split; [done|]. by constructor. }
  destruct (in_range 194 223 b0) eqn:H2.
  { apply in_range_true in H2. destruct s as [|b1 t]; [by right|].
    destruct (in_range 128 191 b1) eqn:H3; [|by right]. apply in_range_true in H3.
    left. by eexists [b0; b1], _, t; split; [|constructor]. }
  destruct (in_range 224 239 b0) eqn:H3.
  { apply in_range_true in H3. destruct s as [|b1 [|b2 t]]; [by right..|].
    destruct (_ && _) eqn:H4; [|by right]. apply andb_true_iff in H4 as [H4 H5].
    apply in_range_true in H4, H5. left. by eexists [b0; b1; b2], _, t; split; [|constructor]. }
  destruct (in_range 240 244 b0) eqn:H4; [|by right].
  apply in_range_true in H4. destruct s as [|b1 [|b2 [|b3 t]]]; [by right..|].
  destruct (_ && _ && _) eqn:H5; [|by right]. apply andb_true_iff in H5 as [H5 H7].
  apply andb_true_iff in H5 as [H5 H6].
  apply in_range_true in H5, H6, H7. left. by eexists [b0; b1; b2; b3], _, t; split; [|constructor].
Qed.

(** A well-formed sequence never decodes to an error: only the three-byte form reaches it. *)
Lemma encodes_no_error seq r : encodes seq r -> (r =? RuneError) && (length seq <=? 1)%nat = false.
Proof.
  destruct 1 as [b Hb| | |]; simpl; try apply andb_false_r.
  apply andb_false_iff. left. apply Z.eqb_neq. unfold RuneError. lia.
Qed.

Lemma encodes_length seq r : encodes seq r -> (1 <= length seq)%nat.
Proof. destruct 1; simpl; lia. Qed.

(** The scalar values each length of sequence denotes. *)
Lemma encodes_scalar seq r :
  encodes seq r ->
  match seq with
  | [b] => r = code b /\ 0 <= r < 128
  | [b0; b1] => 128 <= r < 2048
  | [b0; b1; b2] => 2048 <= r < 65536 /\ (r < 55296 \/ 57343 < r)
  | _ => 65536 <= r <= 1114111
  end.
Proof.
  destruct 1 as [b H|b0 b1 H0 H1|b0 b1 b2 H0 H1 H2|b0 b1 b2 b3 H0 H1 H2 H3].
  - pose proof (code_range b). lia.
  - lia.
  - unfold second_low, second_high in H1. cases_Z; lia.
  - unfold second_low, second_high in H1. cases_Z; lia.
Qed.

Lemma scalar_or_error_id r :
  0 <= r <= 1114111 -> r < 55296 \/ 57343 < r -> scalar_or_error r = r.
Proof. intros. unfold scalar_or_error. cases_Z; lia. Qed.

Lemma EncodeRune_encodes seq r : encodes seq r -> EncodeRune r = seq.
Proof.
  intros He. pose proof (encodes_scalar _ _ He) as Hr.
  destruct He as [b H|b0 b1 H0 H1|b0 b1 b2 H0 H1 H2|b0 b1 b2 b3 H0 H1 H2 H3].
  - unfold EncodeRune, encode_scalar. rewrite scalar_or_error_id by lia.
    cases_Z; [|lia..]. by rewrite byte_of_code.
  - unfold EncodeRune, encode_scalar. rewrite scalar_or_error_id by lia.
    cases_Z; try lia. repeat f_equal; apply byte_of_eq; div_mod.
  - assert (128 <= code b1 <= 191)
      by (pose proof (second_low_bounds (code b0)); pose proof (second_high_bounds (code b0)); lia).
    unfold EncodeRune, encode_scalar. rewrite scalar_or_error_id by lia.
    cases_Z; try lia. repeat f_equal; apply byte_of_eq; div_mod.
  - assert (128 <= code b1 <= 191)
      by (pose proof (second_low_bounds (code b0)); pose proof (second_high_bounds (code b0)); lia).
    unfold EncodeRune, encode_scalar. rewrite scalar_or_error_id by lia.
    cases_Z; try lia. repeat f_equal; apply byte_of_eq; div_mod.
Qed.

(** ** Induction over the runes of a string *)

Lemma rune_ind (P : gostring -> Prop) :
  P [] ->
  (forall seq r t, encodes seq r -> P t -> P (seq ++ t)) ->
  (forall b t, DecodeRune (b :: t) = (RuneError, 1%nat) -> P t -> P (b :: t)) ->
  forall s, P s.
Proof.
  intros Hnil Hseq Herr s. remember (length s) as n eqn:Hn. revert s Hn.
  induction n as [n IH] using lt_wf_ind. intros s ->. destruct s as [|b t]; [done|].
  destruct (DecodeRune_cases (b :: t)) as [(seq & r & u & Heq & He)|He]; [done| |].
  - rewrite Heq. apply (Hseq _ r); [done|]. apply (IH (length u)); [|done].
    pose proof (encodes_length _ _ He). apply (f_equal length) in Heq. rewrite length_app in Heq.
    simpl in Heq. simpl. lia.
  - apply Herr; [done|]. apply (IH (length t)); simpl; [lia|done].
Qed.

Lemma over_runes_fuel {A} (f : Z -> nat -> A -> A) d n m s :
  (length s <= n)%nat -> (length s <= m)%nat -> over_runes f d n s = over_runes f d m s.
Proof.
  revert m s. induction n as [|n IH]; intros [|m] [|b t] Hn Hm; try done; try (simpl in *; lia).
  cbn [over_runes]. simpl in Hn, Hm. destruct (DecodeRune (b :: t)) as [r w]. f_equal. apply IH; rewrite length_drop; simpl; lia.
Qed.

Lemma over_runes_seq {A} (f : Z -> nat -> A -> A) d seq r t :
  encodes seq r ->
  over_runes f d (length (seq ++ t)) (seq ++ t) = f r (length seq) (over_runes f d (length t) t).
Proof.
  intros He. pose proof (encodes_length _ _ He) as Hl. pose proof (DecodeRune_encodes seq r t He) as Hd.
  destruct (seq ++ t) as [|b u] eqn:Hst; [destruct seq; [simpl in Hl; lia|done]|].
  cbn [length over_runes]. rewrite Hd.
  f_equal. rewrite <- Hst, Nat.max_l, drop_app_length by lia.
  apply over_runes_fuel; [|done]. apply (f_equal length) in Hst. rewrite length_app in Hst.
  simpl in Hst. lia.
Qed.

Lemma over_runes_error {A} (f : Z -> nat -> A -> A) d b t :
  DecodeRune (b :: t) = (RuneError, 1%nat) ->
  over_runes f d (length (b :: t)) (b :: t) = f RuneError 1%nat (over_runes f d (length t) t).
Proof. intros Hd. cbn [length over_runes]. rewrite Hd. done. Qed.

Lemma ValidString_seq seq r t : encodes seq r -> ValidString (seq ++ t) = ValidString t.
Proof.
  intros He. unfold ValidString. rewrite (over_runes_seq _ _ _ _ _ He).
  by rewrite encodes_no_error.
Qed.

Lemma ValidString_error b t : DecodeRune (b :: t) = (RuneError, 1%nat) -> ValidString (b :: t) = false.
Proof. intros Hd. unfold ValidString. by rewrite over_runes_error. Qed.

(** ** storableText *)

(** The rewriting loop alone, without the early return. *)
Definition sanitized_text (text : gostring) : gostring :=
  over_runes (λ decoded width rest,
    EncodeRune (if (decoded =? 0) || ((decoded =? RuneError) && (width <=? 1)%nat)
                then replacementRune else decoded) ++ rest)
  [] (length text) text.

Lemma replacement_encodes : encodes (EncodeRune replacementRune) replacementRune.
Proof.
  change (encodes [byte_of 239; byte_of 191; byte_of 189]
    ((239 - 224) * 4096 + (191 - 128) * 64 + (189 - 128))).
  rewrite <- (code_byte_of 239), <- (code_byte_of 191), <- (code_byte_of 189) by lia.
  rewrite !byte_of_code. constructor; vm_compute; split; discriminate.
Qed.

(** Only the one-byte form holds a byte below 128. *)
Lemma encodes_ascii seq r c : encodes seq r -> c ∈ seq -> code c < 128 -> seq = [c] /\ r = code c.
Proof.
  intros He Hin Hc. destruct He as [b H|b0 b1 H0 H1|b0 b1 b2 H0 H1 H2|b0 b1 b2 b3 H0 H1 H2 H3];
    try (pose proof (second_low_bounds (code b0)));
    repeat (apply elem_of_cons in Hin as [->|Hin]; [try done; lia|]); by apply elem_of_nil in Hin.
Qed.

Lemma encodes_zero seq r : encodes seq r -> r = 0 <-> NUL ∈ seq.
Proof.
  intros He. split.
  - intros H0. pose proof (encodes_scalar _ _ He) as Hr. destruct He; try lia.
    apply list_elem_of_singleton. unfold NUL. by apply byte_of_eq.
  - intros Hin. by destruct (encodes_ascii _ _ _ He Hin eq_refl) as [_ ->].
Qed.

Lemma sanitized_text_storable text : storable (sanitized_text text).
Proof.
  assert (Hseq : forall seq r t, encodes seq r -> r <> 0 -> storable t -> storable (seq ++ t)).
  { intros seq r t He Hr [Hv Hn]. split; [by rewrite (ValidString_seq _ _ _ He)|].
    intros [Hin|Hin]%elem_of_app; [|done]. by apply Hr, (encodes_zero _ _ He). }
  assert (Hrep : forall t, storable t -> storable (EncodeRune replacementRune ++ t)).
  { intros t. apply (Hseq _ _ _ replacement_encodes). done. }
  unfold sanitized_text. induction text as [|seq r t He IH|b t Hd IH] using rune_ind.
  - split; [done|]. apply not_elem_of_nil.
  - rewrite (over_runes_seq _ _ _ _ _ He), (encodes_no_error _ _ He), orb_false_r.
    destruct (Z.eqb_spec r 0); [by apply Hrep|]. rewrite (EncodeRune_encodes _ _ He). by apply (Hseq _ r).
  - rewrite (over_runes_error _ _ _ _ Hd). by apply Hrep.
Qed.

Lemma sanitized_text_id text : storable text -> sanitized_text text = text.
Proof.
  unfold sanitized_text. induction text as [|seq r t He IH|b t Hd IH] using rune_ind; intros [Hv Hn].
  - done.
  - rewrite (over_runes_seq _ _ _ _ _ He), (encodes_no_error _ _ He), orb_false_r.
    rewrite (ValidString_seq _ _ _ He) in Hv. apply not_elem_of_app in Hn as [Hs Ht].
    destruct (Z.eqb_spec r 0) as [->|Hr].
    + exfalso. apply Hs. by apply (encodes_zero _ _ He).
    + rewrite (EncodeRune_encodes _ _ He), IH; [done|split; done].
  - rewrite (ValidString_error _ _ Hd) in Hv. done.
Qed.

Lemma storableText_sanitized text : storableText text = sanitized_text text.
Proof.
  unfold storableText. destruct (ValidString text && _) eqn:H; [|done]. bool_to_prop.
  symmetry. apply sanitized_text_id. unfold contains_byte in *. by bool_to_prop.
Qed.

(** Whatever bytes a destination or an error produced, the text written to a delivery or
    dead-letter column is one PostgreSQL can store -- valid UTF-8 and free of NUL -- and text that
    already is storable is written unchanged. *)
Theorem storableText_storable text :
  storable (storableText text) /\ (storable text -> storableText text = text).
Proof. rewrite storableText_sanitized. split; [apply sanitized_text_storable|apply sanitized_text_id]. Qed.
