(* ===== verification/Source.v ===== *)
(** * The text as read: [internal/config/source.go], [linecolumn.go], [lineshape.go] and the column half
    of [position.go].

    The configuration's bytes, the lines a position is resolved against, and the two coordinates a line
    is measured in. A range over a string visits its runes ([over_runes]); a carriage return, a line feed
    and a tab are single bytes in every encoding of the others, so scans for them read bytes. *)

From S2P Require Import Prelude Utf8.

Local Open Scope Z_scope.

(** ** source.go *)

Definition CR : ascii := ascii_of_nat 13.
Definition LF : ascii := ascii_of_nat 10.
Definition TAB : ascii := ascii_of_nat 9.

(** [strings.ReplaceAll(text, "\r\n", "\n")]. *)
Fixpoint unify_crlf (text : gostring) : gostring :=
  match text with
  | c :: ((d :: rest) as tail) =>
      if bool_decide (c = CR /\ d = LF) then LF :: unify_crlf rest else c :: unify_crlf tail
  | _ => text
  end.

Definition splitLines (text : gostring) : list gostring :=
  split_on LF (replace_byte CR [LF] (unify_crlf text)).

Definition carriageReturnSplits (text : gostring) : list bool :=
  false :: (unify_crlf text ≫= λ char,
    if bool_decide (char = LF) then [false] else if bool_decide (char = CR) then [true] else []).

Record source := { src_name : gostring; src_bytes : gostring; src_lines : list gostring; continuesPhysicalLine : list bool }.

Definition newSource (name data : gostring) : source :=
  {| src_name := name; src_bytes := data; src_lines := splitLines data; continuesPhysicalLine := carriageReturnSplits data |}.

(** The raw text of a 1-based line, empty outside the source. *)
Definition src_Line (src : source) (number : Z) : gostring :=
  if (number <? 1) || (Z.of_nat (length (src_lines src)) <? number) then []
  else src_lines src !!! Z.to_nat (number - 1).

Definition continuesTheLineAbove (marks : list bool) (number : Z) : bool :=
  if (number <? 1) || (Z.of_nat (length marks) <? number) then false else marks !!! Z.to_nat (number - 1).

(** ** position.go: columns *)

Definition tabColumns : Z := 1.
Definition firstColumn : Z := 1.
Definition noColumn : Z := 0.

(** The runes a range visits. *)
Definition runes (s : gostring) : list Z := over_runes (λ r _ rest, r :: rest) [] (length s) s.

(** The loop of [runeColumn]: the parser's column, the rendered one and the last place they met. *)
Fixpoint scan_columns (reported : Z) (line : list Z) (parserColumn renderedColumn start : Z) : Z * Z :=
  match line with
  | [] => (renderedColumn, start)
  | char :: rest =>
      let start := if parserColumn =? reported then renderedColumn else start in
      if char =? code TAB then scan_columns reported rest parserColumn (renderedColumn + tabColumns) start
      else scan_columns reported rest (parserColumn + 1) (renderedColumn + 1) start
  end.

Definition runeColumn (line : gostring) (reportedColumn : Z) : Z :=
  if reportedColumn <? firstColumn then noColumn
  else let '(renderedColumn, start) := scan_columns reportedColumn (runes line) firstColumn firstColumn noColumn in
       if start =? noColumn then renderedColumn else start.

(** ** linecolumn.go: bytes and runes of a line *)

(** Where a rune column begins, the line's length when it is past the last rune. *)
Definition byteOffsetOf (line : gostring) (column : Z) : nat :=
  over_runes (λ _ width beyond current, if current =? column then 0%nat else (width + beyond (current + 1)%Z)%nat)
    (λ _, 0%nat) (length line) line firstColumn.

Definition runesFrom (line : gostring) (column : Z) : gostring := drop (byteOffsetOf line column) line.

Definition byteSpanOf (line : gostring) (start count : Z) : nat * nat :=
  let from := byteOffsetOf line start in
  let past := byteOffsetOf (drop from line) (count + firstColumn) in (from, (from + past)%nat).

Definition indentCharacters : gostring := [" "%char; TAB].

(** [strings.TrimLeft] and [strings.TrimRight] with a set of ASCII characters. *)
Fixpoint TrimLeft (s cutset : gostring) : gostring :=
  match s with [] => [] | c :: rest => if contains_byte c cutset then TrimLeft rest cutset else s end.
Definition TrimRight (s cutset : gostring) : gostring := rev (TrimLeft (rev s) cutset).

Definition runeCount (text : gostring) : Z := Z.of_nat (length (runes text)).

Definition pastIndentation (line : gostring) : gostring * Z :=
  let content := TrimLeft line indentCharacters in (content, runeCount line - runeCount content).

Definition indentWidth (line : gostring) : Z := (pastIndentation line).2.

(** redact.go *)
Definition redactionPlaceholder : gostring := bs "[redacted]".

Definition blankFromColumn (line : gostring) (start : Z) : gostring :=
  take (byteOffsetOf line start) line ++ redactionPlaceholder.

Definition replaceRunes (line : gostring) (start count : Z) (replacement : gostring) : gostring :=
  let '(from, past) := byteSpanOf line start count in take from line ++ replacement ++ drop past line.

Definition blankPastIndentation (line : gostring) : gostring :=
  blankFromColumn line (indentWidth line + firstColumn).

(** ** lineshape.go *)

Definition sequenceItemMarker : gostring := bs "-".
Definition commentIndicator : gostring := bs "#".
Definition documentMarkers : list gostring := [bs "---"; bs "..."].

Definition writtenContent (content : gostring) : gostring := TrimRight content indentCharacters.

Definition holdsNoBytesToHide (content : gostring) : bool :=
  let written := writtenContent content in bool_decide (written = []) || bool_decide (written ∈ documentMarkers).

Definition looksLikeAComment (content : gostring) : bool := has_prefix (writtenContent content) commentIndicator.

Definition closesNoBlock (content : gostring) : bool := holdsNoBytesToHide content || looksLikeAComment content.

(** ** The marks and the lines are aligned *)

Lemma length_split_on c s : length (split_on c s) = S (length (filter (.= c) s)).
Proof.
  induction s as [|d s IH]; [done|]. cbn [split_on]. rewrite filter_cons.
  destruct (decide (d = c)) as [->|Hd]; [rewrite bool_decide_eq_true_2 by done|rewrite bool_decide_eq_false_2 by done].
  - cbn [length]. by rewrite IH.
  - destruct (split_on c s) as [|part parts] eqn:E; [by apply split_on_nonempty in E|]. cbn [length] in *. lia.
Qed.

(** Redaction asks of a line by its number whether it continues the one above: there is a mark for each
    line, and no more. *)
Lemma marks_are_aligned text : length (carriageReturnSplits text) = length (splitLines text).
Proof.
  unfold carriageReturnSplits, splitLines, replace_byte. rewrite length_split_on. cbn [length]. f_equal.
  induction (unify_crlf text) as [|c s IH]; [done|]. cbn [mbind list_bind]. rewrite filter_app, !length_app, IH.
  f_equal. destruct (decide (c = LF)) as [->|Hl]; [done|].
  rewrite (bool_decide_eq_false_2 _ Hl). destruct (decide (c = CR)) as [->|Hc]; [done|].
  rewrite (bool_decide_eq_false_2 _ Hc). rewrite filter_cons_False by done. done.
Qed.

(** ** Columns *)

Lemma runes_seq seq r t : encodes seq r -> runes (seq ++ t) = r :: runes t.
Proof. intros He. unfold runes. by rewrite (over_runes_seq _ _ _ _ _ He). Qed.

Lemma runes_ascii c t : code c < 128 -> runes (c :: t) = code c :: runes t.
Proof. intros Hc. exact (runes_seq [c] (code c) t (encodes1 c Hc)). Qed.

(** What the parser's column counts: a tab has no width. *)
Definition with_width (line : list Z) : list Z := filter (.≠ code TAB) line.

Lemma scan_columns_beyond reported line : forall p q start,
  reported < p -> scan_columns reported line p q start = (q + Z.of_nat (length line), start).
Proof.
  induction line as [|r line IH]; intros p q start Hp; cbn [scan_columns length]; [f_equal; lia|].
  rewrite (proj2 (Z.eqb_neq p reported)) by lia. unfold tabColumns. destruct (r =? code TAB); rewrite IH by lia; f_equal; lia.
Qed.

Lemma scan_columns_at pre r post : r <> code TAB -> forall p q start,
  (scan_columns (p + Z.of_nat (length (with_width pre))) (pre ++ r :: post) p q start).2 = q + Z.of_nat (length pre).
Proof.
  intros Hr. unfold with_width. induction pre as [|s pre IH]; intros p q start; cbn [app scan_columns length].
  - rewrite filter_nil. cbn [length]. rewrite (proj2 (Z.eqb_eq p _)) by lia. rewrite (proj2 (Z.eqb_neq _ _) Hr).
    rewrite scan_columns_beyond by lia. cbn [snd]. lia.
  - rewrite filter_cons. unfold tabColumns. destruct (s =? code TAB) eqn:Hs.
    + apply Z.eqb_eq in Hs. rewrite decide_False by (intros []; done). rewrite IH. lia.
    + apply Z.eqb_neq in Hs. rewrite decide_True by done. cbn [length].
      replace (p + Z.of_nat (S (length (filter (.≠ code TAB) pre))))
        with (p + 1 + Z.of_nat (length (filter (.≠ code TAB) pre))) by lia.
      rewrite IH. lia.
Qed.

(** A token that is not a tab is reported at its own column: the parser's column, which gives the tabs
    before it no width, names the place counting every rune as one. *)
Lemma runeColumn_finds line pre r post :
  runes line = pre ++ r :: post -> r <> code TAB ->
  runeColumn line (1 + Z.of_nat (length (with_width pre))) = 1 + Z.of_nat (length pre).
Proof.
  intros Hl Hr. unfold runeColumn, firstColumn, noColumn. rewrite (proj2 (Z.ltb_ge _ _)) by lia.
  pose proof (scan_columns_at pre r post Hr 1 1 0) as H. rewrite Hl.
  destruct (scan_columns _ _ _ _ _) as [rendered start]. cbn [snd] in H. subst start.
  rewrite (proj2 (Z.eqb_neq _ _)) by lia. done.
Qed.

(** ** Blanking a line *)

Definition offset_walk (column : Z) (line : gostring) : Z -> nat :=
  over_runes (λ _ width beyond current, if current =? column then 0%nat else (width + beyond (current + 1)%Z)%nat)
    (λ _, 0%nat) (length line) line.

Lemma offset_walk_ascii column c t current : code c < 128 ->
  offset_walk column (c :: t) current =
  if current =? column then 0%nat else S (offset_walk column t (current + 1)).
Proof.
  intros Hc. unfold offset_walk. change (c :: t) with ([c] ++ t). by rewrite (over_runes_seq _ _ _ _ _ (encodes1 c Hc)).
Qed.

Lemma offset_walk_here column line : offset_walk column line column = 0%nat.
Proof.
  unfold offset_walk. destruct line as [|b t]; [done|]. cbn [length over_runes].
  destruct (DecodeRune (b :: t)) as [r w]. by rewrite Z.eqb_refl.
Qed.

Lemma byteOffsetOf_ascii pre post :
  Forall (λ c, code c < 128) pre ->
  byteOffsetOf (pre ++ post) (Z.of_nat (length pre) + firstColumn) = length pre.
Proof.
  intros Hpre. change (byteOffsetOf ?l ?c) with (offset_walk c l firstColumn). unfold firstColumn.
  assert (H : forall k, offset_walk (Z.of_nat (length pre) + k) (pre ++ post) k = length pre); [|apply H].
  induction Hpre as [|c pre Hc Hpre IH]; intros k; cbn [app length].
  - apply offset_walk_here.
  - rewrite offset_walk_ascii by done. rewrite (proj2 (Z.eqb_neq _ _)) by lia. f_equal.
    rewrite <- (IH (k + 1)) at 2. f_equal. lia.
Qed.

Fixpoint indentation (line : gostring) : gostring :=
  match line with [] => [] | c :: rest => if contains_byte c indentCharacters then c :: indentation rest else [] end.

Lemma indentation_content line : line = indentation line ++ TrimLeft line indentCharacters.
Proof.
  induction line as [|c line IH]; [done|]. cbn [indentation TrimLeft]. destruct (contains_byte c indentCharacters); [|done].
  cbn [app]. by f_equal.
Qed.

Lemma indentation_bytes line : Forall (λ c, c ∈ indentCharacters) (indentation line).
Proof.
  induction line as [|c line IH]; [constructor|]. cbn [indentation]. unfold contains_byte.
  case_bool_decide; [by constructor|constructor].
Qed.

Lemma indent_ascii c : c ∈ indentCharacters -> code c < 128.
Proof. intros Hc. unfold indentCharacters in Hc. by set_unfold in Hc; destruct Hc as [-> |[-> |[]]]. Qed.

Lemma indentation_ascii line : Forall (λ c, code c < 128) (indentation line).
Proof. eapply Forall_impl; [apply indentation_bytes|]. apply indent_ascii. Qed.

Lemma runeCount_ascii_app pre post :
  Forall (λ c, code c < 128) pre -> runeCount (pre ++ post) = Z.of_nat (length pre) + runeCount post.
Proof.
  unfold runeCount. induction 1 as [|c pre Hc _ IH]; [done|]. cbn [app]. rewrite runes_ascii by done. cbn [length]. lia.
Qed.

Lemma indentWidth_indentation line : indentWidth line = Z.of_nat (length (indentation line)).
Proof.
  unfold indentWidth, pastIndentation. cbn [snd]. rewrite (indentation_content line) at 1.
  rewrite runeCount_ascii_app by apply indentation_ascii. lia.
Qed.

(** A blanked line shows its indentation and nothing else of itself, whatever bytes it holds. *)
Lemma blankPastIndentation_shows line : blankPastIndentation line = indentation line ++ redactionPlaceholder.
Proof.
  unfold blankPastIndentation, blankFromColumn. f_equal. rewrite indentWidth_indentation.
  assert (H : byteOffsetOf line (Z.of_nat (length (indentation line)) + firstColumn) = length (indentation line)).
  { rewrite (indentation_content line) at 1. apply byteOffsetOf_ascii, indentation_ascii. }
  rewrite H. rewrite (indentation_content line) at 2. apply take_app_length.
Qed.
