(* ===== verification/Quote.v ===== *)
(** * SQL names and literals: [internal/schema/identifier.go], [objectname.go],
    [ownershipmarker.go], [internal/source/literal.go], [dollarquote.go], [splitqualified.go],
    [marker.go] and [internal/reconcile/markerparse.go].

    [Sanitize] is the driver's identifier quoter ([pgx.Identifier.Sanitize]); it is a parameter, and
    the one thing relied on is what [identifier.go] documents: on names without NUL it wraps each
    part in double quotes, doubles every quote inside it and joins the parts with dots. *)

From S2P Require Import Prelude Utf8.

(** ** identifier.go *)

Definition MaxIdentifierBytes : nat := 63.

Inductive IdentifierFault := IdentifierOK | IdentifierEmpty | IdentifierHoldsNUL | IdentifierTooLong.

#[export] Instance IdentifierFault_eq_dec : EqDecision IdentifierFault.
Proof. solve_decision. Defined.

Definition fault_text (f : IdentifierFault) : gostring :=
  match f with
  | IdentifierOK => bs "ok"
  | IdentifierEmpty => bs "is empty, and PostgreSQL rejects a zero-length identifier"
  | IdentifierHoldsNUL => bs "holds a NUL byte, which the driver's quoter deletes"
  | IdentifierTooLong => bs "is over the 63-byte identifier limit"
  end.

(** [strings.ContainsRune(name, 0)] looks for the byte: no multi-byte encoding holds a zero. *)
Definition WhyUnusable (name : gostring) : IdentifierFault :=
  if bool_decide (name = []) then IdentifierEmpty
  else if contains_byte NUL name then IdentifierHoldsNUL
  else if (MaxIdentifierBytes <? length name)%nat then IdentifierTooLong
  else IdentifierOK.

Definition reservedSchemaPrefix : gostring := bs "pg_".

(** ASCII case folding, all that [strings.EqualFold] does against an ASCII operand free of
    letters with a non-ASCII fold. *)
Definition to_lower (c : ascii) : ascii :=
  if ((65 <=? code c) && (code c <=? 90))%Z then byte_of (code c + 32) else c.
Definition equal_fold (s t : gostring) : bool := bool_decide (map to_lower s = map to_lower t).

Definition claimsReservedSchemaPrefix (name : gostring) : bool :=
  (length reservedSchemaPrefix <=? length name)%nat &&
  equal_fold (take (length reservedSchemaPrefix) name) reservedSchemaPrefix.

Section Identifier.
Variable Sanitize : list gostring -> gostring.

Definition sanitized (parts : list gostring) : gostring := Sanitize parts.

(** A rendered name, or the fault that refuses it. *)
Definition Quoted (name : gostring) : result IdentifierFault gostring :=
  match WhyUnusable name with
  | IdentifierOK => Ok (sanitized [name])
  | fault => Err fault
  end.

Definition Qualified (schema name : gostring) : result IdentifierFault gostring :=
  match WhyUnusable schema with
  | IdentifierOK =>
      match WhyUnusable name with
      | IdentifierOK => Ok (sanitized [schema; name])
      | fault => Err fault
      end
  | fault => Err fault
  end.
End Identifier.

(** ** objectname.go *)

Definition identifierHashHexDigits : nat := 8.

(** [hash/fnv.New32a] over the bytes written. *)
Definition fnv32a (s : gostring) : Z :=
  foldl (λ h c, (Z.lxor h (code c) * 16777619) `mod` 2 ^ 32)%Z 2166136261%Z s.

Definition hex_digit (v : Z) : ascii := if (v <? 10)%Z then byte_of (48 + v) else byte_of (87 + v).

(** [fmt.Sprintf("%0*x", width, v)] for [0 <= v < 16^width]. *)
Fixpoint hex_padded (width : nat) (v : Z) : gostring :=
  match width with
  | O => []
  | S w => hex_padded w (v / 16) ++ [hex_digit (v `mod` 16)]
  end.

(** [utf8.RuneStart]. *)
Definition RuneStart (c : ascii) : bool := negb (Z.land (code c) 192 =? 128)%Z.

(** The index is in range wherever [ObjectName] calls it. *)
Fixpoint runeBoundaryAtOrBefore (text : gostring) (limit : nat) : nat :=
  match limit with
  | O => O
  | S l =>
      match text !! limit with
      | Some c => if RuneStart c then limit else runeBoundaryAtOrBefore text l
      | None => limit
      end
  end.

Definition ObjectName (base suffix : gostring) : gostring :=
  let full := base ++ bs "_" ++ suffix in
  if (length full <=? MaxIdentifierBytes)%nat then full
  else
    let tag := hex_padded identifierHashHexDigits (fnv32a full) in
    take (runeBoundaryAtOrBefore full (MaxIdentifierBytes - length tag - 1)) full ++ bs "_" ++ tag.

(** ** The service's tables (schema/doc.go) *)

Definition TableEvents : gostring := bs "events".
Definition TableEventQueue : gostring := bs "event_queue".
Definition TableDeliveries : gostring := bs "deliveries".
Definition PartitionDefault : gostring := bs "events_default".

(** ** literal.go *)

Definition quoteLiteral (value : gostring) : gostring :=
  if contains_byte "\" value then
    let value := replace_byte "\" (bs "\\") value in
    let value := replace_byte "'" (bs "''") value in
    bs "E'" ++ value ++ bs "'"
  else bs "'" ++ replace_byte "'" (bs "''") value ++ bs "'".

(** ** dollarquote.go *)

Definition dollar_tag (suffix : nat) : gostring :=
  if (0 <? suffix)%nat then bs "fn_" ++ format_int (Z.of_nat suffix) else bs "fn".

Definition dollar_delimiter (tag : gostring) : gostring := bs "$" ++ tag ++ bs "$".

(** The unbounded loop, from [suffix] upwards; [None] is running out of fuel. *)
Fixpoint dollarQuoteTag_from (renderedBody : gostring) (fuel suffix : nat) : option gostring :=
  match fuel with
  | O => None
  | S fuel =>
      let tag := dollar_tag suffix in
      if negb (contains_sub renderedBody (dollar_delimiter tag)) then Some tag
      else dollarQuoteTag_from renderedBody fuel (S suffix)
  end.

Definition dollarQuoteTag (renderedBody : gostring) : option gostring :=
  dollarQuoteTag_from renderedBody (length renderedBody + 2) 0.

(** ** splitqualified.go *)

Definition dquote : ascii := byte_of 34.

(** The scan of one quoted part after its opening quote: the part and what follows its close. *)
Fixpoint quoted_part (stored : gostring) : option (gostring * gostring) :=
  match stored with
  | [] => None
  | c :: rest =>
      if bool_decide (c <> dquote) then
        match quoted_part rest with Some (part, next) => Some (c :: part, next) | None => None end
      else match rest with
           | d :: rest' =>
               if bool_decide (d = dquote) then
                 match quoted_part rest' with
                 | Some (part, next) => Some (dquote :: part, next)
                 | None => None
                 end
               else Some ([], rest)
           | [] => Some ([], [])
           end
  end.

Definition splitQualifiedPart (stored : gostring) : option (gostring * gostring) :=
  match stored with
  | c :: rest => if bool_decide (c <> dquote) then None else quoted_part rest
  | [] => None
  end.

Definition SplitQualified (stored : gostring) : option (gostring * gostring) :=
  match splitQualifiedPart stored with
  | Some (schemaName, c :: next) =>
      if bool_decide (c <> "."%char) then None
      else match splitQualifiedPart next with
           | Some (tableName, []) =>
               if bool_decide (schemaName = []) || bool_decide (tableName = []) then None
               else Some (schemaName, tableName)
           | _ => None
           end
  | _ => None
  end.

(** ** marker.go, ownershipmarker.go and markerparse.go *)

Definition markerVersion : gostring := bs "v1".
Definition MarkerPrefix : gostring := bs "pg_noty:" ++ markerVersion ++ bs ":".
Definition partitionMarkerSuffix : gostring := bs ":partition".

Definition marker (instance listener operation : gostring) : gostring :=
  MarkerPrefix ++ instance ++ bs ":" ++ listener ++ bs ":" ++ operation.

Definition cut_prefix (s p : gostring) : option gostring :=
  if has_prefix s p then Some (drop (length p) s) else None.
Definition cut_suffix (s p : gostring) : option gostring :=
  if has_suffix s p then Some (take (length s - length p) s) else None.

Record catalogMarker := { Instance_ : gostring; Listener_ : gostring; Operation_ : gostring }.

Definition hasEmptyMarkerField (fields : list gostring) : bool :=
  existsb (λ field, bool_decide (field = []) || contains_byte ":" field) fields.

Definition parseCatalogMarker (found : option gostring) : option catalogMarker :=
  match found with
  | None => None
  | Some found =>
      match cut_prefix found MarkerPrefix with
      | None => None
      | Some rest =>
          let fields := split_on ":" rest in
          if negb (length fields =? 3)%nat || hasEmptyMarkerField fields then None
          else match fields with
               | [i; l; o] => Some {| Instance_ := i; Listener_ := l; Operation_ := o |}
               | _ => None
               end
      end
  end.

Record markerForm := { suffix : gostring }.
Definition schemaMarkerForm : markerForm := {| suffix := [] |}.
Definition partitionMarkerForm : markerForm := {| suffix := partitionMarkerSuffix |}.

Definition marker_text (form : markerForm) (instance : gostring) : gostring :=
  MarkerPrefix ++ instance ++ suffix form.

Definition instanceIn (form : markerForm) (written : gostring) : option gostring :=
  match cut_prefix written MarkerPrefix with
  | None => None
  | Some named =>
      match cut_suffix named (suffix form) with
      | None => None
      | Some named => if bool_decide (named = []) then None else Some named
      end
  end.

Inductive markerState := markerOurs | markerAbsent | markerUnreadable | markerForeign.

Record markerReading := { state : markerState; named : gostring }.

Definition markerReadingOf (form : markerForm) (written : gostring) (present : bool)
    (instance : gostring) : markerReading :=
  if negb present then {| state := markerAbsent; named := [] |}
  else match instanceIn form written with
       | None => {| state := markerUnreadable; named := [] |}
       | Some named =>
           if bool_decide (named = instance) then {| state := markerOurs; named := named |}
           else {| state := markerForeign; named := named |}
       end.

(** ** Doubled quotes *)

(** A quoted spelling reads back to its content, whatever follows it, as long as that does not
    start with another quote. *)
Definition doubled (q : ascii) (s : gostring) : gostring := replace_byte q [q; q] s.

Definition starts_with (q : ascii) (s : gostring) : Prop := head s = Some q.

Lemma doubled_cons q c s :
  doubled q (c :: s) = (if bool_decide (c = q) then [q; q] else [c]) ++ doubled q s.
Proof. done. Qed.

Lemma quoted_part_doubled part next :
  ~ starts_with dquote next -> quoted_part (doubled dquote part ++ dquote :: next) = Some (part, next).
Proof.
  intros Hn. induction part as [|c part IH].
  - simpl. destruct next as [|d next]; [done|]. rewrite bool_decide_eq_false_2; [done|].
    intros ->. by apply Hn.
  - rewrite doubled_cons. case_bool_decide as Hc.
    + subst c. simpl. by rewrite IH.
    + cbn [app quoted_part]. rewrite bool_decide_eq_true_2 by done. by rewrite IH.
Qed.

Lemma quoted_part_Some stored part next :
  quoted_part stored = Some (part, next) ->
  stored = doubled dquote part ++ dquote :: next /\ ~ starts_with dquote next.
Proof.
  remember (length stored) as n eqn:Hn. revert stored part next Hn.
  induction n as [n IH] using lt_wf_ind. intros [|c rest] part next -> H; [done|]. simpl in H.
  case_bool_decide as Hc.
  - destruct (quoted_part rest) as [[p m]|] eqn:Hr; [|done]. injection H as <- <-.
    destruct (IH (length rest) ltac:(simpl; lia) rest p m eq_refl Hr) as [-> Hs].
    rewrite doubled_cons, bool_decide_eq_false_2 by done. done.
  - assert (c = dquote) as -> by (by destruct (decide (c = dquote))).
    destruct rest as [|d rest]; [injection H as <- <-; by split|].
    case_bool_decide as Hd.
    + subst d. destruct (quoted_part rest) as [[p m]|] eqn:Hr; [|done]. injection H as <- <-.
      destruct (IH (length rest) ltac:(simpl; lia) rest p m eq_refl Hr) as [-> Hs]. done.
    + injection H as <- <-. split; [done|]. intros [= ->]. done.
Qed.

(** ** Qualified names *)

(** The spelling of a qualified name, as [events.table_name] stores it. *)
Definition spelled (name : gostring) : gostring := dquote :: doubled dquote name ++ [dquote].
Definition spelled_pair (schema name : gostring) : gostring := spelled schema ++ "."%char :: spelled name.

Lemma splitQualifiedPart_iff stored part next :
  splitQualifiedPart stored = Some (part, next) <->
  stored = spelled part ++ next /\ ~ starts_with dquote next.
Proof.
  unfold spelled. split.
  - destruct stored as [|c rest]; [done|]. simpl. case_bool_decide as Hc; [done|].
    assert (c = dquote) as -> by (by destruct (decide (c = dquote))).
    intros [-> Hs]%quoted_part_Some. by rewrite <- app_assoc.
  - intros [-> Hs]. simpl. rewrite <- app_assoc. by apply quoted_part_doubled.
Qed.

Lemma SplitQualified_iff stored schema name :
  SplitQualified stored = Some (schema, name) <->
  stored = spelled_pair schema name /\ schema <> [] /\ name <> [].
Proof.
  unfold SplitQualified, spelled_pair. split.
  - destruct (splitQualifiedPart stored) as [[s1 [|c next]]|] eqn:H1; [done| |done].
    apply splitQualifiedPart_iff in H1 as [-> _]. case_bool_decide as Hc; [done|].
    assert (c = "."%char) as -> by (by destruct (decide (c = "."%char))).
    destruct (splitQualifiedPart next) as [[s2 [|d next']]|] eqn:H2; [|done|done].
    apply splitQualifiedPart_iff in H2 as [-> _]. case_match eqn:Hb; [done|].
    intros [= -> ->]. bool_to_prop. by rewrite app_nil_r.
  - intros (-> & Hs & Ht).
    assert (splitQualifiedPart (spelled schema ++ "."%char :: spelled name) =
            Some (schema, "."%char :: spelled name)) as ->.
    { apply splitQualifiedPart_iff. split; [done|]. done. }
    case_bool_decide as H; [by destruct H|].
    assert (splitQualifiedPart (spelled name) = Some (name, [])) as ->.
    { apply splitQualifiedPart_iff. split; [by rewrite app_nil_r|done]. }
    by rewrite !bool_decide_eq_false_2.
Qed.

Section QualifiedNames.
Variable Sanitize : list gostring -> gostring.
Hypothesis Sanitize_quotes : forall parts,
  Forall (λ p, NUL ∉ p) parts -> Sanitize parts = join ["."%char] (map spelled parts).

Lemma WhyUnusable_ok name :
  WhyUnusable name = IdentifierOK <-> name <> [] /\ NUL ∉ name /\ (length name <= MaxIdentifierBytes)%nat.
Proof.
  unfold WhyUnusable, contains_byte. repeat case_bool_decide; try naive_solver.
  destruct (Nat.ltb_spec MaxIdentifierBytes (length name)); naive_solver lia.
Qed.

Lemma Quoted_ok name q :
  Quoted Sanitize name = Ok q -> WhyUnusable name = IdentifierOK /\ q = spelled name.
Proof.
  unfold Quoted. destruct (WhyUnusable name) eqn:E; try done. intros [= <-]. split; [done|].
  apply WhyUnusable_ok in E as (_ & Hn & _). unfold sanitized.
  rewrite Sanitize_quotes; [done|by constructor].
Qed.

Lemma Qualified_ok schema name q :
  Qualified Sanitize schema name = Ok q ->
  WhyUnusable schema = IdentifierOK /\ WhyUnusable name = IdentifierOK /\ q = spelled_pair schema name.
Proof.
  unfold Qualified. destruct (WhyUnusable schema) eqn:E1; try done.
  destruct (WhyUnusable name) eqn:E2; try done. intros [= <-]. split_and!; [done..|].
  apply WhyUnusable_ok in E1 as (_ & H1 & _), E2 as (_ & H2 & _). unfold sanitized.
  rewrite Sanitize_quotes; [done|by repeat constructor].
Qed.

(** A qualified table name survives storage: whatever schema and table the quoting authority
    accepts, [SplitQualified] recovers exactly that pair from the rendered text -- quotes and dots
    inside either name included -- it accepts no spelling but the canonical one, so two different
    pairs never share a rendering, and a refusal names the schema's fault before the table's. *)
Theorem SplitQualified_Qualified schema name :
  (forall q, Qualified Sanitize schema name = Ok q -> SplitQualified q = Some (schema, name)) /\
  (forall stored s t, SplitQualified stored = Some (s, t) -> stored = spelled_pair s t) /\
  (forall fault, Qualified Sanitize schema name = Err fault ->
     WhyUnusable schema = fault \/ (WhyUnusable schema = IdentifierOK /\ WhyUnusable name = fault)) /\
  (is_ok (Qualified Sanitize schema name) = true <->
     WhyUnusable schema = IdentifierOK /\ WhyUnusable name = IdentifierOK).
Proof.
  split_and!.
  - intros q (H1 & H2 & ->)%Qualified_ok. apply WhyUnusable_ok in H1 as (H1 & _), H2 as (H2 & _).
    by apply SplitQualified_iff.
  - by intros stored s t (-> & _)%SplitQualified_iff.
  - intros fault. unfold Qualified. destruct (WhyUnusable schema), (WhyUnusable name); naive_solver.
  - unfold Qualified. destruct (WhyUnusable schema), (WhyUnusable name); naive_solver.
Qed.
End QualifiedNames.

(** The documented quoter, to evaluate the model on. *)
Definition documented_Sanitize (parts : list gostring) : gostring := join ["."%char] (map spelled parts).

Lemma SplitQualified_Qualified_witness :
  SplitQualified (spelled_pair (bs "pub.lic") (bs "or'ders")) = Some (bs "pub.lic", bs "or'ders").
Proof.
  destruct (SplitQualified_Qualified documented_Sanitize ltac:(done) (bs "pub.lic") (bs "or'ders")) as (H & _).
  apply H. vm_compute. reflexivity.
Defined.

(** ** Literals

    What PostgreSQL reads back from a string constant: between the quotes a doubled quote is one
    quote, and under the [E] prefix a backslash takes the next byte as it is (the only two escapes a
    rendered literal holds are an escaped backslash and a doubled quote). *)

(** A byte of an unquoted word: a letter, a digit, an underscore, a dollar or a byte past ASCII. *)
Definition is_word (c : ascii) : bool :=
  (((48 <=? code c) && (code c <=? 57)) || ((65 <=? code c) && (code c <=? 90)) ||
   ((97 <=? code c) && (code c <=? 122)) || (code c =? 95) || (code c =? 36) || (128 <=? code c))%Z.

Definition squote : ascii := "'"%char.
Definition backslash : ascii := "\"%char.

Fixpoint literal_body (escapes : bool) (s : gostring) : option (gostring * gostring) :=
  match s with
  | [] => None
  | c :: rest =>
      if bool_decide (c = backslash) && escapes then
        match rest with
        | d :: rest' =>
            if bool_decide (d = backslash) then
              match literal_body escapes rest' with Some (v, next) => Some (d :: v, next) | None => None end
            else None
        | [] => None
        end
      else if bool_decide (c <> squote) then
        match literal_body escapes rest with Some (v, next) => Some (c :: v, next) | None => None end
      else match rest with
           | d :: rest' =>
               if bool_decide (d = squote) then
                 match literal_body escapes rest' with
                 | Some (v, next) => Some (squote :: v, next)
                 | None => None
                 end
               else Some ([], rest)
           | [] => Some ([], [])
           end
  end.

Definition read_literal (s : gostring) : option (gostring * gostring) :=
  match s with
  | a :: rest =>
      if bool_decide (a = squote) then literal_body false rest
      else if bool_decide (a = "E"%char) then
        match rest with
        | b :: rest' => if bool_decide (b = squote) then literal_body true rest' else None
        | [] => None
        end
      else None
  | [] => None
  end.

Lemma literal_body_doubled escapes v next :
  (escapes = true -> backslash ∉ v) -> ~ starts_with squote next ->
  literal_body escapes (doubled squote v ++ squote :: next) = Some (v, next).
Proof.
  intros Hv Hn. induction v as [|c v IH].
  - simpl. replace (bool_decide (squote = backslash)) with false by done. simpl.
    destruct next as [|d next]; [done|]. rewrite bool_decide_eq_false_2; [done|].
    intros ->. by apply Hn.
  - assert (IH' := IH ltac:(intros He; specialize (Hv He); set_solver)). clear IH.
    rewrite doubled_cons. case_bool_decide as Hc.
    + subst c. simpl. replace (bool_decide (squote = backslash)) with false by done. simpl.
      by rewrite IH'.
    + cbn [app literal_body].
      replace (bool_decide (c = backslash) && escapes) with false.
      2: { destruct escapes; [|by rewrite andb_false_r]. symmetry. rewrite andb_true_r.
           apply bool_decide_eq_false_2. intros ->. apply Hv; [done|]. by left. }
      rewrite bool_decide_eq_true_2 by done. by rewrite IH'.
Qed.

Lemma replace_app c by_ s t : replace_byte c by_ (s ++ t) = replace_byte c by_ s ++ replace_byte c by_ t.
Proof. unfold replace_byte. by rewrite bind_app. Qed.

Lemma replace_cons c by_ x s :
  replace_byte c by_ (x :: s) = (if bool_decide (x = c) then by_ else [x]) ++ replace_byte c by_ s.
Proof. done. Qed.

(** Both replacements in one pass, as a reader meets them. *)
Lemma escaped_body v next :
  ~ starts_with squote next ->
  literal_body true
    (replace_byte squote (bs "''") (replace_byte backslash (bs "\\") v) ++ squote :: next) = Some (v, next).
Proof.
  intros Hn. induction v as [|c v IH].
  - exact (literal_body_doubled true [] next ltac:(set_solver) Hn).
  - rewrite replace_cons, replace_app. case_bool_decide as Hc.
    + subst c. change (replace_byte squote (bs "''") (bs "\\")) with [backslash; backslash].
      simpl. by rewrite IH.
    + rewrite replace_cons. case_bool_decide as Hq.
      * subst c. simpl. replace (bool_decide (squote = backslash)) with false by done. simpl.
        by rewrite IH.
      * cbn [app literal_body replace_byte mbind list_bind].
        rewrite (bool_decide_eq_false_2 (c = backslash)) by done. cbn [andb].
        rewrite bool_decide_eq_true_2 by done. by rewrite IH.
Qed.

Lemma literal_reads_back value next :
  ~ starts_with squote next -> read_literal (quoteLiteral value ++ next) = Some (value, next).
Proof.
  intros Hn. unfold quoteLiteral, contains_byte. case_bool_decide as Hb.
  - change (bs "E'" ++ ?v ++ bs "'") with ("E"%char :: squote :: v ++ [squote]).
    cbn [app read_literal]. rewrite <- app_assoc. cbn [app].
    change (bool_decide ("E"%char = squote)) with false. cbv iota.
    rewrite !bool_decide_eq_true_2 by done. by apply escaped_body.
  - change (bs "'" ++ ?v ++ bs "'") with (squote :: v ++ [squote]).
    cbn [app read_literal]. rewrite <- app_assoc. cbn [app].
    rewrite bool_decide_eq_true_2 by done. by apply literal_body_doubled.
Qed.

(** No value escapes its literal: whatever bytes [quoteLiteral] is given -- quotes and
    backslashes included -- PostgreSQL reads one string constant holding exactly that value and
    resumes at the text that follows, so a rendered value can neither end its literal early nor
    swallow what comes after it. *)
Theorem quoteLiteral_reads_back value next :
  ~ starts_with squote next -> read_literal (quoteLiteral value ++ next) = Some (value, next).
Proof. apply literal_reads_back. Qed.

Lemma quoteLiteral_reads_back_witness :
  ~ starts_with squote (bs " OR 1=1") /\
  read_literal (quoteLiteral (bs "a'b\") ++ bs " OR 1=1") = Some (bs "a'b\", bs " OR 1=1").
Proof.
  assert (H : ~ starts_with squote (bs " OR 1=1")) by (intros [=]).
  split; [exact H|]. apply (quoteLiteral_reads_back (bs "a'b\") (bs " OR 1=1") H).
Defined.

(** ** Dollar quoting *)

Lemma dollar_tag_no_dollar k : "$"%char ∉ dollar_tag k.
Proof.
  unfold dollar_tag. destruct (0 <? k)%nat; [|by_compute].
  intros [H|H]%elem_of_app.
  - revert H. by_compute.
  - pose proof (format_int_bytes (Z.of_nat k)) as Hall. rewrite Forall_forall in Hall.
    by destruct (Hall _ H) as [?|?].
Qed.

Lemma dollar_tag_inj j k : dollar_tag j = dollar_tag k -> j = k.
Proof.
  unfold dollar_tag. destruct (Nat.ltb_spec 0 j), (Nat.ltb_spec 0 k); intros Heq; try done; try lia.
  apply app_inv_head, format_int_inj in Heq. lia.
Qed.

Lemma dollar_delimiter_at j k s :
  has_prefix s (dollar_delimiter (dollar_tag j)) = true ->
  has_prefix s (dollar_delimiter (dollar_tag k)) = true -> j = k.
Proof.
  intros [r Hr]%has_prefix_spec [r' Hr']%has_prefix_spec. subst s. unfold dollar_delimiter in Hr'.
  apply dollar_tag_inj. rewrite <- !app_assoc in Hr'. apply (app_inv_head (bs "$")) in Hr'.
  apply (first_sep_inj "$" _ r _ r'); [apply dollar_tag_no_dollar..|]. exact Hr'.
Qed.

Lemma dollarQuoteTag_from_None body fuel s :
  dollarQuoteTag_from body fuel s = None ->
  forall k, s <= k < s + fuel -> is_Some (index_of (dollar_delimiter (dollar_tag k)) body).
Proof.
  revert s. induction fuel as [|fuel IH]; intros s H k Hk; [lia|]. simpl in H.
  case_match eqn:E; [done|]. bool_to_prop. unfold contains_sub in E. bool_to_prop.
  destruct (decide (k = s)) as [->|]; [done|]. apply (IH (S s)); [done|lia].
Qed.

Lemma dollarQuoteTag_from_Some body fuel s tag :
  dollarQuoteTag_from body fuel s = Some tag ->
  (exists k, tag = dollar_tag k) /\ contains_sub body (dollar_delimiter tag) = false.
Proof.
  revert s. induction fuel as [|fuel IH]; intros s H; [done|]. simpl in H.
  case_match eqn:E; [|by apply (IH (S s))]. injection H as <-. bool_to_prop. eauto.
Qed.

Lemma dollarQuoteTag_total body : is_Some (dollarQuoteTag body).
Proof.
  unfold dollarQuoteTag. destruct (dollarQuoteTag_from _ _ _) eqn:H; [done|exfalso].
  pose proof (dollarQuoteTag_from_None _ _ _ H) as Hall.
  pose (f := λ k, default 0 (index_of (dollar_delimiter (dollar_tag k)) body)).
  assert (Hf : forall k, k < length body + 2 ->
    f k <= length body /\ has_prefix (drop (f k) body) (dollar_delimiter (dollar_tag k)) = true).
  { intros k Hk. destruct (Hall k ltac:(lia)) as [n Hn]. unfold f. rewrite Hn. simpl.
    apply index_of_Some in Hn as (? & ? & _). done. }
  assert (Hnd : NoDup (f <$> seq 0 (length body + 2))).
  { apply NoDup_fmap_2_strong; [|apply NoDup_seq]. intros j k Hj%elem_of_seq Hk%elem_of_seq Heq.
    destruct (Hf j ltac:(lia)) as [_ H1], (Hf k ltac:(lia)) as [_ H2]. rewrite <- Heq in H2.
    by apply (dollar_delimiter_at _ _ _ H1). }
  assert (Hin : (f <$> seq 0 (length body + 2)) ⊆ seq 0 (length body + 1)).
  { intros n (k & -> & Hk%elem_of_seq)%list_elem_of_fmap. apply elem_of_seq.
    destruct (Hf k ltac:(lia)). lia. }
  apply NoDup_ListNoDup in Hnd. pose proof (NoDup_incl_length Hnd (l' := seq 0 (length body + 1))) as Hl.
  rewrite length_fmap, !length_seq in Hl. enough (length body + 2 <= length body + 1) by lia.
  apply Hl. intros n Hn. apply list_elem_of_In, Hin, list_elem_of_In, Hn.
Qed.

Lemma dollar_tag_no_newline k : ascii_of_nat 10 ∉ dollar_tag k.
Proof.
  unfold dollar_tag. destruct (0 <? k)%nat; [|by_compute].
  intros [H|H]%elem_of_app.
  - revert H. by_compute.
  - pose proof (format_int_bytes (Z.of_nat k)) as Hall. rewrite Forall_forall in Hall.
    by destruct (Hall _ H) as [?|?].
Qed.

(** Text without a newline first occurs after a newline where it is written, if it is nowhere
    before: an earlier occurrence would lie inside the body or cover the newline. *)
Lemma index_of_after_newline (d body rest : gostring) :
  ascii_of_nat 10 ∉ d -> contains_sub body d = false ->
  index_of d (body ++ newline ++ d ++ rest) = Some (S (length body)).
Proof.
  intros Hnl Hno.
  assert (Hp : has_prefix (drop (S (length body)) (body ++ newline ++ d ++ rest)) d = true).
  { rewrite app_assoc. replace (S (length body)) with (length (body ++ newline)).
    - rewrite drop_app_length. apply has_prefix_app.
    - rewrite length_app. simpl. lia. }
  destruct (index_of d (body ++ newline ++ d ++ rest)) as [n|] eqn:Hn.
  2: { exfalso. rewrite index_of_None in Hn. rewrite Hn in Hp; [done|].
       rewrite !length_app. simpl. lia. }
  f_equal. pose proof (index_of_Some _ _ _ Hn) as (Hpn & _ & Hmin).
  destruct (Nat.lt_trichotomy n (S (length body))) as [Hlt|[->|Hgt]]; [exfalso|done|exfalso].
  2: { specialize (Hmin _ Hgt). by rewrite Hmin in Hp. }
  apply has_prefix_spec in Hpn as [r Hr]. rewrite drop_app_le in Hr by lia.
  destruct (decide (length d <= length (drop n body))) as [Hle|Hle].
  - enough (contains_sub body d = true) by congruence. apply contains_sub_spec.
    exists n. split; [lia|]. apply has_prefix_spec. exists (drop (length d) (drop n body)).
    rewrite <- (take_drop (length d) (drop n body)) at 1. f_equal.
    apply (f_equal (take (length d))) in Hr. by rewrite take_app_le, take_app_length in Hr by done.
  - apply Hnl. apply (f_equal (λ l, l !! length (drop n body))) in Hr.
    rewrite lookup_app_r, Nat.sub_diag in Hr by lia. simpl in Hr.
    rewrite lookup_app_l in Hr by lia. by eapply list_elem_of_lookup_2.
Qed.

Lemma dollar_delimiter_no_newline k : ascii_of_nat 10 ∉ dollar_delimiter (dollar_tag k).
Proof.
  unfold dollar_delimiter. rewrite !not_elem_of_app.
  split_and!; [by_compute|apply dollar_tag_no_newline|by_compute].
Qed.

(** The function DDL wraps the body in newlines: the delimiter first closes after the second. *)
Lemma index_of_wrapped body k rest :
  contains_sub body (dollar_delimiter (dollar_tag k)) = false ->
  index_of (dollar_delimiter (dollar_tag k))
    (newline ++ body ++ newline ++ dollar_delimiter (dollar_tag k) ++ rest) = Some (S (S (length body))).
Proof.
  intros Hno. change (newline ++ ?t) with (ascii_of_nat 10 :: t). cbn [index_of].
  assert (has_prefix (ascii_of_nat 10 :: body ++ newline ++ dollar_delimiter (dollar_tag k) ++ rest)
            (dollar_delimiter (dollar_tag k)) = false) as ->.
  { apply not_true_is_false. intros [r Hr]%has_prefix_spec. discriminate Hr. }
  by rewrite index_of_after_newline by (done || apply dollar_delimiter_no_newline).
Qed.

(** Dollar quoting terminates and cannot be closed from inside: the search for a tag finds one
    within the body's length plus two candidates, the chosen delimiter does not occur in the body,
    and in the function DDL, which wraps the body in newlines, the first closing delimiter after the
    opening one is the one written after the body. *)
Theorem dollarQuoteTag_closes body rest :
  exists tag, dollarQuoteTag body = Some tag /\
    contains_sub body (dollar_delimiter tag) = false /\
    index_of (dollar_delimiter tag) (newline ++ body ++ newline ++ dollar_delimiter tag ++ rest)
    = Some (S (S (length body))).
Proof.
  destruct (dollarQuoteTag_total body) as [tag Htag]. exists tag. split; [done|].
  apply dollarQuoteTag_from_Some in Htag as [[k ->] Hno]. split; [done|]. by apply index_of_wrapped.
Qed.

(** ** Ownership markers *)

Lemma cut_prefix_iff s p r : cut_prefix s p = Some r <-> s = p ++ r.
Proof.
  unfold cut_prefix. split.
  - destruct (has_prefix s p) eqn:H; [|done]. intros [= <-]. apply has_prefix_spec in H as [r ->].
    by rewrite drop_app_length.
  - intros ->. by rewrite has_prefix_app, drop_app_length.
Qed.

Lemma cut_suffix_iff s p r : cut_suffix s p = Some r <-> s = r ++ p.
Proof.
  unfold cut_suffix, has_suffix. split.
  - destruct (_ && _) eqn:H; [|done]. intros [= <-]. bool_to_prop.
    rewrite <- (take_drop (length s - length p) s) at 1. by f_equal.
  - intros ->. rewrite length_app. replace (length r + length p - length p) with (length r) by lia.
    rewrite drop_app_length, take_app_length, bool_decide_eq_true_2, andb_true_r by done.
    destruct (Nat.leb_spec (length p) (length r + length p)); [done|lia].
Qed.

Lemma cut_prefix_app p r : cut_prefix (p ++ r) p = Some r.
Proof. by apply cut_prefix_iff. Qed.

Lemma cut_suffix_app p r : cut_suffix (r ++ p) p = Some r.
Proof. by apply cut_suffix_iff. Qed.

#[export] Hint Rewrite cut_prefix_app cut_suffix_app : noty_rw.

Definition marker_field (f : gostring) : Prop := f <> [] /\ ":"%char ∉ f.

Lemma hasEmptyMarkerField_false fields :
  hasEmptyMarkerField fields = false <-> Forall marker_field fields.
Proof.
  unfold hasEmptyMarkerField, contains_byte. induction fields as [|f fields IH]; simpl; [done|].
  rewrite Forall_cons, orb_false_iff, IH, orb_false_iff, !bool_decide_eq_false. done.
Qed.

Lemma parseCatalogMarker_iff found m :
  parseCatalogMarker (Some found) = Some m <->
  found = marker (Instance_ m) (Listener_ m) (Operation_ m) /\
  marker_field (Instance_ m) /\ marker_field (Listener_ m) /\ marker_field (Operation_ m).
Proof.
  unfold parseCatalogMarker, marker. split.
  - destruct (cut_prefix found MarkerPrefix) as [rest|] eqn:Hp; [|done].
    apply cut_prefix_iff in Hp as ->. case_match eqn:Hg; [done|]. bool_to_prop.
    destruct (split_on ":" rest) as [|i [|l [|o [|]]]] eqn:Hs; try done. intros [= <-]. simpl.
    apply hasEmptyMarkerField_false in H0. inversion H0 as [|? ? Hi H1]; subst.
    inversion H1 as [|? ? Hl H2]; subst. inversion H2 as [|? ? Ho _]; subst.
    split; [|done]. f_equal. by apply join_split_on in Hs as <-.
  - intros (-> & Hi & Hl & Ho). destruct m as [i l o]; cbn [Instance_ Listener_ Operation_] in *.
    rewrite cut_prefix_app.
    change (bs ":" ++ l ++ bs ":" ++ o) with (":"%char :: l ++ ":"%char :: o).
    rewrite (split_on_app ":" i), (split_on_app ":" l), (split_on_no_sep ":" o) by apply Hi || apply Hl || apply Ho.
    rewrite (proj2 (hasEmptyMarkerField_false [i; l; o])); [done|by repeat apply Forall_cons_2].
Qed.

(** C25. Ownership markers read back exactly: what [marker] writes for non-empty colon-free fields
    parses to those three fields and nothing else parses to them, and an object is judged this
    instance's own exactly when it carries a comment that is, byte for byte, this instance's marker
    in the form asked for -- so a missing, foreign, truncated or other-form marker never licenses a
    destructive step. *)
Theorem marker_ownership :
  (forall found m, parseCatalogMarker (Some found) = Some m <->
     found = marker (Instance_ m) (Listener_ m) (Operation_ m) /\
     marker_field (Instance_ m) /\ marker_field (Listener_ m) /\ marker_field (Operation_ m)) /\
  (forall form written present instance,
     state (markerReadingOf form written present instance) = markerOurs <->
     present = true /\ written = marker_text form instance /\ instance <> []).
Proof.
  split.
  - exact parseCatalogMarker_iff.
  - intros form written present instance. unfold markerReadingOf, marker_text.
    destruct present; cbn [negb]; [|naive_solver]. unfold instanceIn.
    destruct (cut_prefix written MarkerPrefix) as [r|] eqn:Hp.
    2: { split; [done|]. intros (_ & -> & _). by rewrite cut_prefix_app in Hp. }
    apply cut_prefix_iff in Hp as ->. destruct (cut_suffix r (suffix form)) as [n|] eqn:Hn.
    2: { split; [done|]. intros (_ & Heq%app_inv_head & _). subst r.
         by rewrite cut_suffix_app in Hn. }
    apply cut_suffix_iff in Hn as ->. case_bool_decide as Hnil; cbn [state].
    { subst n. split; [done|]. intros (_ & Heq%app_inv_head & Hne).
      change ([] ++ suffix form = instance ++ suffix form) in Heq. by apply app_inv_tail in Heq as <-. }
    case_bool_decide as Hi; cbn [state]; [by subst n|]. split; [done|].
    intros (_ & Heq%app_inv_head & _). by apply app_inv_tail in Heq.
Qed.

(** ** Generated object names *)

Lemma ObjectName_full base suffix :
  length (base ++ bs "_" ++ suffix) <= MaxIdentifierBytes -> ObjectName base suffix = base ++ bs "_" ++ suffix.
Proof. intros Hl. unfold ObjectName. by rewrite (proj2 (Nat.leb_le _ _)). Qed.

Lemma fnv32a_range s : (0 <= fnv32a s < 2 ^ 32)%Z.
Proof.
  unfold fnv32a. assert (forall h, (0 <= h < 2 ^ 32)%Z ->
    (0 <= foldl (λ h c, (Z.lxor h (code c) * 16777619) `mod` 2 ^ 32) h s < 2 ^ 32)%Z) as H.
  { induction s as [|c s IH]; intros h Hh; [done|]. simpl. apply IH, Z.mod_pos_bound. lia. }
  apply H. lia.
Qed.

Lemma hex_padded_length w v : length (hex_padded w v) = w.
Proof. revert v. induction w as [|w IH]; intros v; [done|]. simpl. rewrite length_app, IH. simpl. lia. Qed.

Lemma hex_digit_inj a b :
  (0 <= a < 16)%Z -> (0 <= b < 16)%Z -> hex_digit a = hex_digit b -> a = b.
Proof.
  intros Ha Hb H. apply (f_equal code) in H. unfold hex_digit in H.
  revert H. cases_Z; rewrite !code_byte_of by lia; lia.
Qed.

Lemma hex_padded_inj w v v' :
  (0 <= v < 16 ^ Z.of_nat w)%Z -> (0 <= v' < 16 ^ Z.of_nat w)%Z ->
  hex_padded w v = hex_padded w v' -> v = v'.
Proof.
  revert v v'. induction w as [|w IH]; intros v v' Hv Hv' H; [simpl in *; lia|].
  rewrite Nat2Z.inj_succ, Z.pow_succ_r in * by lia. simpl in H.
  apply app_inj_2 in H as [H1 H2]; [|done]. injection H2 as H2.
  apply hex_digit_inj in H2; [|apply Z.mod_pos_bound; lia..].
  apply IH in H1; [|split; [apply Z.div_pos; lia|apply Z.div_lt_upper_bound; lia]..].
  rewrite (Z.div_mod v 16), (Z.div_mod v' 16) by lia. congruence.
Qed.

Lemma runeBoundary_le text limit : runeBoundaryAtOrBefore text limit <= limit.
Proof.
  induction limit as [|l IH]; simpl; [done|]. destruct (text !! S l) as [c|]; [|done].
  destruct (RuneStart c); lia.
Qed.

Lemma runeBoundary_start text limit c :
  limit < length text -> text !! (runeBoundaryAtOrBefore text limit) = Some c ->
  RuneStart c = true \/ runeBoundaryAtOrBefore text limit = 0.
Proof.
  induction limit as [|l IH]; simpl; intros Hl H; [by right|].
  destruct (text !! S l) as [d|] eqn:Hd.
  - destruct (RuneStart d) eqn:Hr; [left; congruence|]. apply IH; [lia|done].
  - by apply lookup_ge_None in Hd; lia.
Qed.

Lemma ObjectName_long base suffix :
  let full := base ++ bs "_" ++ suffix in MaxIdentifierBytes < length full ->
  ObjectName base suffix =
  take (runeBoundaryAtOrBefore full 54) full ++ bs "_" ++ hex_padded identifierHashHexDigits (fnv32a full).
Proof.
  intros full Hl. unfold ObjectName. fold full. rewrite hex_padded_length.
  destruct (Nat.leb_spec (length full) MaxIdentifierBytes); [lia|done].
Qed.

Lemma ObjectName_length base suffix : length (ObjectName base suffix) <= MaxIdentifierBytes.
Proof.
  destruct (Nat.le_gt_cases (length (base ++ bs "_" ++ suffix)) MaxIdentifierBytes).
  - by rewrite ObjectName_full.
  - rewrite ObjectName_long by done. rewrite !length_app, length_take, hex_padded_length.
    pose proof (runeBoundary_le (base ++ bs "_" ++ suffix) 54).
    unfold MaxIdentifierBytes, identifierHashHexDigits. change (length (bs "_")) with 1. lia.
Qed.

Lemma hex_digit_byte v : (0 <= v < 16)%Z -> is_word (hex_digit v) = true.
Proof.
  intros Hv. unfold is_word, hex_digit.
  destruct (Z.ltb_spec v 10); rewrite code_byte_of by lia; cases_Z; try done; lia.
Qed.

Lemma hex_padded_bytes w v : (0 <= v)%Z -> Forall (λ c, is_word c = true) (hex_padded w v).
Proof.
  revert v. induction w as [|w IH]; intros v Hv; simpl; [done|].
  apply Forall_app. split; [apply IH; apply Z.div_pos; lia|]. constructor; [|done].
  apply hex_digit_byte, Z.mod_pos_bound. lia.
Qed.

(** A generated object name is always one the server keeps whole: at most 63 bytes, unchanged
    when it already fits, otherwise a prefix cut where a rune starts, followed by an underscore and
    eight hex digits of the hash of the entire untruncated name -- so two over-long names collide
    only if those hashes collide, never merely by sharing their first 63 bytes. *)
Theorem ObjectName_bounded base suffix :
  let full := base ++ bs "_" ++ suffix in
  length (ObjectName base suffix) <= MaxIdentifierBytes /\
  (length full <= MaxIdentifierBytes -> ObjectName base suffix = full) /\
  (MaxIdentifierBytes < length full -> exists cut,
     cut <= MaxIdentifierBytes - identifierHashHexDigits - 1 /\
     (cut = 0 \/ exists c, full !! cut = Some c /\ RuneStart c = true) /\
     ObjectName base suffix = take cut full ++ bs "_" ++ hex_padded identifierHashHexDigits (fnv32a full)) /\
  (forall base' suffix', let full' := base' ++ bs "_" ++ suffix' in
     MaxIdentifierBytes < length full -> MaxIdentifierBytes < length full' ->
     ObjectName base suffix = ObjectName base' suffix' -> fnv32a full = fnv32a full').
Proof.
  intros full. pose proof (runeBoundary_le full 54) as Hb. split_and!.
  - apply ObjectName_length.
  - apply ObjectName_full.
  - intros Hl. exists (runeBoundaryAtOrBefore full 54). split; [exact Hb|].
    split; [|by apply ObjectName_long].
    destruct (full !! runeBoundaryAtOrBefore full 54) as [c|] eqn:Hc.
    + destruct (runeBoundary_start full 54 c) as [|]; eauto. unfold MaxIdentifierBytes in Hl. lia.
    + apply lookup_ge_None in Hc. unfold MaxIdentifierBytes in Hl. lia.
  - intros base' suffix' full' Hl Hl' Heq. rewrite !ObjectName_long in Heq by done. fold full full' in Heq.
    rewrite !app_assoc in Heq. apply app_inj_2 in Heq as [_ Heq]; [|by rewrite !hex_padded_length].
    apply hex_padded_inj in Heq; [done|apply fnv32a_range..].
Qed.
