(* ===== verification/WhenLex.v ===== *)
(** * The WHEN-clause lexer: [internal/config/whenlex.go].

    The source walks an index through the clause; here each scan takes the text that remains at its
    index and returns the text that remains at the index it answers, so [clause[index:]] is the
    argument and [len(clause) - len(result)] the index returned. Loops whose step is not one byte
    take fuel; the length of the text is enough, which the progress lemmas below establish. *)

From S2P Require Import Prelude Utf8 Quote.

(** ** The vocabulary *)

Definition oldRowVariable : gostring := bs "OLD".
Definition newRowVariable : gostring := bs "NEW".
Definition insertStatement : gostring := bs "INSERT".
Definition deleteStatement : gostring := bs "DELETE".
Definition insertOperationKey : gostring := bs "insert".
Definition deleteOperationKey : gostring := bs "delete".

Definition lineCommentOpen : gostring := bs "--".
Definition blockCommentOpen : gostring := bs "/*".
Definition blockCommentClose : gostring := bs "*/".
Definition escapeStringPrefix : gostring := bs "E".
Definition stringQuote : ascii := "'"%char.
Definition identifierQuote : ascii := dquote.
Definition fieldSelector : ascii := "."%char.
Definition newlineBytes : gostring := [byte_of 10; byte_of 13].
Definition spaceBytes : gostring := [byte_of 32; byte_of 9; byte_of 10; byte_of 13; byte_of 12; byte_of 11].
Definition firstByteAboveASCII : Z := 128.

(** ** Byte classes *)

Definition isWordStartByte (char : ascii) : bool :=
  let v := code char in
  (((97 <=? v) && (v <=? 122)) || ((65 <=? v) && (v <=? 90)) || (v =? 95) || (firstByteAboveASCII <=? v))%Z.

Definition isTagByte (char : ascii) : bool :=
  isWordStartByte char || ((48 <=? code char) && (code char <=? 57))%Z.

Definition isWordByte (char : ascii) : bool := isTagByte char || bool_decide (char = "$"%char).

(** ** Scans *)

(** The rest of the text past the longest run of bytes a class admits. *)
Fixpoint endOfByteRun (admits : ascii -> bool) (text : gostring) : gostring :=
  match text with
  | [] => []
  | c :: rest => if negb (admits c) then text else endOfByteRun admits rest
  end.

Definition isDollarQuoteTag (text : gostring) : bool :=
  match text with
  | [] => false
  | c :: rest => isWordStartByte c && bool_decide (endOfByteRun isTagByte rest = [])
  end.

(** [strings.TrimLeft] with a set of ASCII bytes. *)
Fixpoint trim_left (cutset text : gostring) : gostring :=
  match text with
  | [] => []
  | c :: rest => if contains_byte c cutset then trim_left cutset rest else text
  end.

(** One past the newline that ends the comment: [text] starts at its opening dashes. *)
Fixpoint endOfLineComment (text : gostring) : gostring :=
  match text with
  | [] => []
  | c :: rest => if contains_byte c newlineBytes then rest else endOfLineComment rest
  end.

(** The loop that steps over [--] comments in the gap of a continued constant. *)
Fixpoint skip_gap (fuel : nat) (gap : gostring) : gostring :=
  match fuel with
  | O => gap
  | S fuel =>
      if has_prefix gap lineCommentOpen then skip_gap fuel (trim_left spaceBytes (endOfLineComment gap))
      else gap
  end.

(** What follows the quote that reopens the constant closed just before [after], when one does. *)
Definition continuationQuote (after : gostring) (quote : ascii) : option gostring :=
  if negb (bool_decide (quote = stringQuote)) then None
  else
    let gap := skip_gap (length after) (trim_left spaceBytes after) in
    let crossed := take (length after - length gap) after in
    match gap with
    | c :: reopened =>
        if negb (existsb (λ b, contains_byte b newlineBytes) crossed) || negb (bool_decide (c = quote))
        then None else Some reopened
    | [] => None
    end.

(** The body loop of [endOfQuoted], from just after an opening quote. *)
Fixpoint quoted_rest (fuel : nat) (quote : ascii) (backslashEscapes : bool) (text : gostring) : gostring :=
  match fuel, text with
  | S fuel, c :: rest =>
      if backslashEscapes && bool_decide (c = "\"%char) then
        quoted_rest fuel quote backslashEscapes (tail rest)
      else if negb (bool_decide (c = quote)) then quoted_rest fuel quote backslashEscapes rest
      else
        let continued :=
          match continuationQuote rest quote with
          | None => rest
          | Some reopened => quoted_rest fuel quote backslashEscapes reopened
          end in
        match rest with
        | d :: rest' =>
            if bool_decide (d = quote) then quoted_rest fuel quote backslashEscapes rest' else continued
        | [] => continued
        end
  | _, _ => []
  end.

Definition endOfQuoted (text : gostring) (quote : ascii) (backslashEscapes : bool) : gostring :=
  quoted_rest (length text) quote backslashEscapes (tail text).

(** The loop of [endOfBlockComment] at a nesting depth. *)
Fixpoint block_rest (fuel : nat) (depth : Z) (text : gostring) : gostring :=
  match fuel, text with
  | S fuel, _ :: rest =>
      if has_prefix text blockCommentOpen then
        block_rest fuel (depth + 1) (drop (length blockCommentOpen) text)
      else if has_prefix text blockCommentClose then
        let text' := drop (length blockCommentOpen) text in
        if (depth - 1 =? 0)%Z then text' else block_rest fuel (depth - 1) text'
      else block_rest fuel depth rest
  | _, _ => []
  end.

Definition endOfBlockComment (text : gostring) : gostring := block_rest (length text) 0 text.

(** The delimiter that opens a dollar-quoted literal at the start of [text]. *)
Definition dollarQuoteDelimiter (text : gostring) : option gostring :=
  let rest := tail text in
  match index_of (bs "$") rest with
  | None => None
  | Some end_ =>
      let tag := take end_ rest in
      if negb (bool_decide (tag = [])) && negb (isDollarQuoteTag tag) then None
      else Some (take (end_ + 2) text)
  end.

Definition endOfDollarQuoted (text : gostring) : gostring :=
  match dollarQuoteDelimiter text with
  | None => tail text
  | Some delimiter =>
      let body := drop (length delimiter) text in
      match index_of delimiter body with
      | Some length_ => drop (length_ + length delimiter) body
      | None => []
      end
  end.

(** The rest past the word [text] starts with, or past the literal it prefixes. *)
Definition endOfWordOrEscapeString (text : gostring) : gostring * bool :=
  let end_ := endOfByteRun isWordByte (tail text) in
  let word := take (length text - length end_) text in
  match end_ with
  | c :: _ =>
      if bool_decide (c = stringQuote) && equal_fold word escapeStringPrefix
      then (endOfQuoted end_ stringQuote true, false)
      else (end_, true)
  | [] => (end_, true)
  end.

Definition nextToken (text : gostring) : gostring * bool :=
  match text with
  | [] => ([], false)
  | c :: rest =>
      if isWordStartByte c then endOfWordOrEscapeString text
      else if has_prefix text lineCommentOpen then (endOfLineComment text, false)
      else if has_prefix text blockCommentOpen then (endOfBlockComment text, false)
      else if bool_decide (c = stringQuote) || bool_decide (c = identifierQuote)
        then (endOfQuoted text c false, false)
      else if bool_decide (c = "$"%char) then (endOfDollarQuoted text, false)
      else (rest, false)
  end.

Definition isTokenSeparator (text : gostring) : bool :=
  match text with
  | [] => false
  | c :: _ => contains_byte c spaceBytes || has_prefix text lineCommentOpen || has_prefix text blockCommentOpen
  end.

(** The loop of [firstBareWord]: [index] counts the bytes consumed before [text]. *)
Fixpoint bare_word_from (fuel index : nat) (afterFieldSelector : bool) (text word : gostring) : option nat :=
  match fuel, text with
  | S fuel, c :: _ =>
      let '(end_, isWord) := nextToken text in
      if isWord && negb afterFieldSelector && equal_fold (take (length text - length end_) text) word
      then Some index
      else
        let after := if negb (isTokenSeparator text) then bool_decide (c = fieldSelector)
                     else afterFieldSelector in
        bare_word_from fuel (index + (length text - length end_)) after end_ word
  | _, _ => None
  end.

Definition firstBareWord (clause word : gostring) : option nat :=
  bare_word_from (length clause) 0 false clause word.

Record bareReference := { Word : gostring; Statement : gostring; Start : nat }.

Definition whenRefusal (operation : gostring) : gostring * gostring :=
  if bool_decide (operation = insertOperationKey) then (oldRowVariable, insertStatement)
  else if bool_decide (operation = deleteOperationKey) then (newRowVariable, deleteStatement)
  else ([], []).

Definition forbiddenWhenReference (operation clause : gostring) : option bareReference :=
  let '(variable, statement) := whenRefusal operation in
  if bool_decide (variable = []) then None
  else match firstBareWord clause variable with
       | None => None
       | Some start => Some {| Word := variable; Statement := statement; Start := start |}
       end.

(** Readings the source's comments record, evaluated. *)
Example nested_comment : endOfBlockComment (bs "/* /* */ */x") = bs "x".
Proof. reflexivity. Qed.
Example shared_star : endOfBlockComment (bs "/*/ x") = [].
Proof. reflexivity. Qed.
Example escape_constant : firstBareWord (bs "E'a''\' OLD '") (bs "OLD") = None.
Proof. reflexivity. Qed.
Example field_selector : firstBareWord (bs "NEW /* pick */ . old > 1") (bs "OLD") = None.
Proof. reflexivity. Qed.
Example bare_reference :
  forbiddenWhenReference (bs "insert") (bs "NEW.a > 1 AND old.a < 2") =
  Some {| Word := bs "OLD"; Statement := bs "INSERT"; Start := 14 |}.
Proof. reflexivity. Qed.

(** ** Progress

    Every scan answers with a suffix of the text it was given, and [nextToken] with a strictly
    shorter one, so the fuel of every loop is enough and the scan ends on any input. *)

Lemma suffix_length_le (a b : gostring) : a `suffix_of` b -> length a <= length b.
Proof. apply suffix_length. Qed.

Lemma tail_suffix (text : gostring) : tail text `suffix_of` text.
Proof. destruct text; [done|]. by exists [a]. Qed.

Lemma endOfByteRun_suffix admits text : endOfByteRun admits text `suffix_of` text.
Proof.
  induction text as [|c rest IH]; [done|]. simpl. destruct (admits c); simpl; [|done].
  by apply suffix_cons_r.
Qed.

Lemma trim_left_suffix cutset text : trim_left cutset text `suffix_of` text.
Proof.
  induction text as [|c rest IH]; [done|]. simpl. destruct (contains_byte c cutset); [|done].
  by apply suffix_cons_r.
Qed.

Lemma endOfLineComment_suffix text : endOfLineComment text `suffix_of` text.
Proof.
  induction text as [|c rest IH]; [done|]. simpl. apply suffix_cons_r.
  by destruct (contains_byte c newlineBytes).
Qed.

Lemma endOfLineComment_shorter text : text <> [] -> length (endOfLineComment text) < length text.
Proof.
  destruct text as [|c rest]; [done|]. intros _. simpl.
  pose proof (suffix_length_le _ _ (endOfLineComment_suffix rest)).
  destruct (contains_byte c newlineBytes); lia.
Qed.

Lemma skip_gap_suffix fuel gap : skip_gap fuel gap `suffix_of` gap.
Proof.
  revert gap. induction fuel as [|fuel IH]; intros gap; [done|]. simpl.
  destruct (has_prefix gap lineCommentOpen); [|done].
  etrans; [apply IH|]. etrans; [apply trim_left_suffix|]. apply endOfLineComment_suffix.
Qed.

Lemma continuationQuote_suffix after quote reopened :
  continuationQuote after quote = Some reopened -> quote :: reopened `suffix_of` after.
Proof.
  unfold continuationQuote. destruct (negb (bool_decide (quote = stringQuote))); [done|].
  pose proof (skip_gap_suffix (length after) (trim_left spaceBytes after)) as Hs.
  destruct (skip_gap _ _) as [|c r] eqn:E; [done|]. case_match eqn:Hg; [done|]. intros [= <-].
  bool_to_prop. subst c. etrans; [exact Hs|]. apply trim_left_suffix.
Qed.

Lemma quoted_rest_suffix fuel quote esc text : quoted_rest fuel quote esc text `suffix_of` text.
Proof.
  revert text. induction fuel as [|fuel IH]; intros text; [destruct text; apply suffix_nil|].
  destruct text as [|c rest]; [done|]. simpl. apply suffix_cons_r.
  destruct (esc && _); [etrans; [apply IH|apply tail_suffix]|].
  destruct (negb _); [apply IH|].
  assert (Hc : (match continuationQuote rest quote with
                | None => rest | Some reopened => quoted_rest fuel quote esc reopened end)
               `suffix_of` rest).
  { destruct (continuationQuote rest quote) as [r|] eqn:E; [|done].
    apply continuationQuote_suffix in E. etrans; [apply IH|].
    etrans; [|exact E]. by apply suffix_cons_r. }
  destruct rest as [|d rest']; [done|]. destruct (bool_decide (d = quote)); [|done].
  apply suffix_cons_r, IH.
Qed.

Lemma block_rest_suffix fuel depth text : block_rest fuel depth text `suffix_of` text.
Proof.
  revert depth text. induction fuel as [|fuel IH]; intros depth text; [destruct text; apply suffix_nil|].
  destruct text as [|c rest]; [done|]. cbn [block_rest].
  destruct (has_prefix _ blockCommentOpen); [etrans; [apply IH|apply suffix_drop]|].
  destruct (has_prefix _ blockCommentClose); [|apply suffix_cons_r, IH].
  destruct (depth - 1 =? 0)%Z; [apply suffix_drop|etrans; [apply IH|apply suffix_drop]].
Qed.

Lemma block_rest_shorter fuel depth c rest : length (block_rest fuel depth (c :: rest)) <= length rest.
Proof.
  destruct fuel as [|fuel]; cbn [block_rest]; [simpl; lia|].
  assert (Hd : length (drop (length blockCommentOpen) (c :: rest)) <= length rest)
    by (rewrite length_drop; simpl; lia).
  assert (Hr : forall d t, length (block_rest fuel d t) <= length t)
    by (intros; apply suffix_length_le, block_rest_suffix).
  destruct (has_prefix _ blockCommentOpen); [etrans; [apply Hr|exact Hd]|].
  destruct (has_prefix _ blockCommentClose); [|apply Hr].
  destruct (depth - 1 =? 0)%Z; [exact Hd|etrans; [apply Hr|exact Hd]].
Qed.

Lemma endOfDollarQuoted_shorter c rest : length (endOfDollarQuoted (c :: rest)) <= length rest.
Proof.
  unfold endOfDollarQuoted. destruct (dollarQuoteDelimiter (c :: rest)) as [d|] eqn:Hd; [|simpl; lia].
  destruct (index_of d _) as [n|]; [|simpl; lia]. rewrite !length_drop.
  assert (1 <= length d); [|cbn [length]; lia].
  unfold dollarQuoteDelimiter in Hd. destruct (index_of (bs "$") (tail _)); [|done].
  case_match; [done|]. injection Hd as <-. rewrite length_take. cbn [length]. lia.
Qed.

Lemma endOfDollarQuoted_suffix text : endOfDollarQuoted text `suffix_of` text.
Proof.
  unfold endOfDollarQuoted. destruct (dollarQuoteDelimiter text) as [d|]; [|apply tail_suffix].
  destruct (index_of d _) as [n|]; [|apply suffix_nil]. rewrite drop_drop. apply suffix_drop.
Qed.

Lemma endOfQuoted_suffix text quote esc : endOfQuoted text quote esc `suffix_of` tail text.
Proof. apply quoted_rest_suffix. Qed.

Lemma endOfWord_suffix text : (endOfWordOrEscapeString text).1 `suffix_of` tail text.
Proof.
  unfold endOfWordOrEscapeString.
  pose proof (endOfByteRun_suffix isWordByte (tail text)) as Hs.
  destruct (endOfByteRun isWordByte (tail text)) as [|c r] eqn:E; [done|].
  destruct (bool_decide (c = stringQuote) && _); [|done]. simpl.
  etrans; [apply endOfQuoted_suffix|]. etrans; [apply tail_suffix|done].
Qed.

Lemma nextToken_progress c rest :
  (nextToken (c :: rest)).1 `suffix_of` (c :: rest) /\ length (nextToken (c :: rest)).1 <= length rest.
Proof.
  assert (Htail : forall e, e `suffix_of` rest -> e `suffix_of` (c :: rest) /\ length e <= length rest)
    by (intros e He; split; [by apply suffix_cons_r|by apply suffix_length_le]).
  unfold nextToken. destruct (isWordStartByte c); [apply Htail, (endOfWord_suffix (c :: rest))|].
  destruct (has_prefix _ lineCommentOpen).
  { split; [apply endOfLineComment_suffix|]. pose proof (endOfLineComment_shorter (c :: rest) ltac:(done)).
    cbn [length fst] in *. lia. }
  destruct (has_prefix _ blockCommentOpen).
  { split; [apply block_rest_suffix|apply block_rest_shorter]. }
  destruct (_ || _); [apply Htail, (endOfQuoted_suffix (c :: rest))|].
  destruct (bool_decide (c = "$"%char)).
  { split; [apply endOfDollarQuoted_suffix|apply endOfDollarQuoted_shorter]. }
  apply Htail. done.
Qed.

#[export] Hint Resolve nextToken_progress tail_suffix : noty.

(** ** What a reported reference is *)

(** One iteration of the scan: the text past one token, and whether the token before it is a field
    selector. *)
Definition flag_after (text : gostring) (after : bool) : bool :=
  if negb (isTokenSeparator text) then bool_decide (head text = Some fieldSelector) else after.

(** [scans clause a text b]: the scan of [clause] reaches [text] at a token boundary, with the flags
    before and after. *)
Inductive scans : gostring -> bool -> gostring -> bool -> Prop :=
  | scans_here text a : scans text a text a
  | scans_next c rest a text b :
      scans (nextToken (c :: rest)).1 (flag_after (c :: rest) a) text b ->
      scans (c :: rest) a text b.

Definition token (text : gostring) : gostring := take (length text - length (nextToken text).1) text.

(** The token at the start of [text] is a bare word that spells [word]. *)
Definition bare_word (text word : gostring) : Prop :=
  text <> [] /\ (nextToken text).2 = true /\ equal_fold (token text) word = true.

Lemma scans_suffix clause a text b : scans clause a text b -> text `suffix_of` clause.
Proof.
  induction 1 as [|c rest a text b _ IH]; [done|]. etrans; [exact IH|]. apply nextToken_progress.
Qed.

Lemma bare_word_from_spec fuel index a text word :
  length text <= fuel ->
  match bare_word_from fuel index a text word with
  | Some i => exists hit, scans text a hit false /\ bare_word hit word /\
                i = index + (length text - length hit)
  | None => forall hit, scans text a hit false -> ~ bare_word hit word
  end.
Proof.
  revert index a text. induction fuel as [|fuel IH]; intros index a text Hf.
  { destruct text; [|simpl in Hf; lia]. intros hit Hs. inversion Hs; subst. by intros [? _]. }
  destruct text as [|c rest].
  { intros hit Hs. inversion Hs; subst. by intros [? _]. }
  cbn [bare_word_from]. pose proof (nextToken_progress c rest) as [Hsuf Hlen].
  assert (Htok : bare_word (c :: rest) word <->
    (nextToken (c :: rest)).2 = true /\ equal_fold (token (c :: rest)) word = true)
    by (unfold bare_word; naive_solver).
  destruct (nextToken (c :: rest)) as [e w] eqn:Hn. simpl in Hsuf, Hlen.
  assert (token (c :: rest) = take (length (c :: rest) - length e) (c :: rest)) as Ht
    by (unfold token; by rewrite Hn).
  rewrite <- Ht. simpl in Htok. cbn [length] in Hf.
  destruct (w && negb a && equal_fold (token (c :: rest)) word) eqn:Hhit.
  - exists (c :: rest). apply andb_true_iff in Hhit as [[Hw Ha]%andb_true_iff Heq].
    apply negb_true_iff in Ha. subst a. split; [constructor|]. split; [by apply Htok|lia].
  - assert (Hflag : (if negb (isTokenSeparator (c :: rest)) then bool_decide (c = fieldSelector) else a)
                    = flag_after (c :: rest) a).
    { unfold flag_after. destruct (isTokenSeparator (c :: rest)); cbn [negb head]; [done|].
      apply bool_decide_ext. split; [by intros ->|by intros [= ->]]. }
    rewrite Hflag. specialize (IH (index + (length (c :: rest) - length e)) (flag_after (c :: rest) a) e
      ltac:(lia)).
    assert (Hnext : forall hit, scans (c :: rest) a hit false ->
      (hit = c :: rest /\ a = false) \/ scans e (flag_after (c :: rest) a) hit false).
    { intros hit Hs. inversion Hs; subst; [by left|]. right. by rewrite Hn in *. }
    destruct (bare_word_from _ _ _ _ _) as [i|].
    + destruct IH as (hit & Hs & Hb & ->). exists hit. split; [|split; [done|]].
      * apply scans_next. by rewrite Hn.
      * apply scans_suffix, suffix_length_le in Hs. cbn [length] in *. lia.
    + intros hit Hs Hb. destruct (Hnext hit Hs) as [[-> ->]|Hs']; [|by apply (IH hit)].
      apply Htok in Hb as [-> Heq]. by rewrite Heq in Hhit.
Qed.

Lemma endOfByteRun_split admits text :
  exists run, text = run ++ endOfByteRun admits text /\ Forall (λ c, admits c = true) run /\
    (forall c r, endOfByteRun admits text = c :: r -> admits c = false).
Proof.
  induction text as [|c rest IH]; [by exists []|]. simpl. destruct (admits c) eqn:Hc; simpl.
  - destruct IH as (run & Heq & Hall & Hend). exists (c :: run). rewrite Heq at 1.
    split_and!; [done|by constructor|done].
  - exists []. split_and!; [done|done|]. intros d r [= <- _]. done.
Qed.

(** A word token is a maximal run of word bytes. *)
Lemma word_token_maximal text :
  (nextToken text).2 = true ->
  exists c word, token text = c :: word /\ text = token text ++ (nextToken text).1 /\
    isWordStartByte c = true /\ Forall (λ b, isWordByte b = true) word /\
    (forall b r, (nextToken text).1 = b :: r -> isWordByte b = false).
Proof.
  destruct text as [|c rest]; [done|]. unfold token, nextToken.
  destruct (isWordStartByte c) eqn:Hc; [|by repeat case_match].
  unfold endOfWordOrEscapeString. cbn [tail].
  destruct (endOfByteRun_split isWordByte rest) as (run & Heq & Hall & Hend).
  set (e := endOfByteRun isWordByte rest) in *.
  assert (Htake : take (length (c :: rest) - length e) (c :: rest) = c :: run).
  { rewrite Heq. cbn [length]. rewrite length_app.
    replace (S (length run + length e) - length e) with (S (length run)) by lia.
    simpl. by rewrite take_app_length. }
  assert (Hres : forall b, (e, b).2 = true -> exists c0 word,
    take (length (c :: rest) - length (e, b).1) (c :: rest) = c0 :: word /\
    c :: rest = take (length (c :: rest) - length (e, b).1) (c :: rest) ++ (e, b).1 /\
    isWordStartByte c0 = true /\ Forall (λ b, isWordByte b = true) word /\
    (forall x r, (e, b).1 = x :: r -> isWordByte x = false)).
  { intros b _. exists c, run. cbn [fst]. rewrite Htake. split_and!; try done. simpl. by f_equal. }
  destruct e as [|d r]; [by apply Hres|]. case_match; [done|]. by apply Hres.
Qed.

(** [firstBareWord] reports exactly the first bare use of a row variable. A reported index is
    a token boundary of the scan, not preceded by a field selector, at which a maximal run of word
    bytes spells the variable in either case -- so [old_price], [xOLD], text inside a literal,
    identifier or comment, and the field of [NEW.old] are never reported -- and when nothing is
    reported no such boundary exists. *)
Theorem firstBareWord_spec clause word :
  match firstBareWord clause word with
  | Some i => exists before found after c run,
      clause = before ++ found ++ after /\ length before = i /\
      scans clause false (found ++ after) false /\ nextToken (found ++ after) = (after, true) /\
      equal_fold found word = true /\ found = c :: run /\ isWordStartByte c = true /\
      Forall (λ b, isWordByte b = true) run /\ (forall b r, after = b :: r -> isWordByte b = false)
  | None => forall text, scans clause false text false -> ~ bare_word text word
  end.
Proof.
  unfold firstBareWord. pose proof (bare_word_from_spec (length clause) 0 false clause word ltac:(lia)) as H.
  destruct (bare_word_from _ _ _ _ _) as [i|]; [|done].
  destruct H as (hit & Hs & (_ & Hw & Heq) & ->). pose proof (scans_suffix _ _ _ _ Hs) as [before Hbefore].
  destruct (word_token_maximal hit Hw) as (c & run & Htok & Hsplit & Hc & Hrun & Hmax).
  exists before, (token hit), (nextToken hit).1, c, run. rewrite <- Hsplit. split_and!; try done.
  - rewrite Hbefore, length_app. lia.
  - by rewrite (surjective_pairing (nextToken hit)), Hw.
Qed.

(** ** Rendered tokens are opaque *)

Lemma quoted_rest_literal esc fuel s v next :
  length s <= fuel -> continuationQuote next stringQuote = None ->
  literal_body esc s = Some (v, next) -> quoted_rest fuel stringQuote esc s = next.
Proof.
  intros Hf Hc. revert s v Hf. induction fuel as [|fuel IH]; intros [|c rest] v Hf H; try done.
  { simpl in Hf. lia. }
  cbn [length] in Hf. cbn [literal_body] in H. cbn [quoted_rest].
  rewrite andb_comm in H. destruct (esc && bool_decide (c = backslash)) eqn:Hb.
  - change (bool_decide (c = "\"%char)) with (bool_decide (c = backslash)). rewrite Hb.
    destruct rest as [|d rest]; [done|]. case_bool_decide; [|done].
    destruct (literal_body esc rest) as [[w m]|] eqn:E; [|done]. injection H as _ <-.
    cbn [tail]. apply (IH rest w); [cbn [length] in Hf; lia|done].
  - change (bool_decide (c = "\"%char)) with (bool_decide (c = backslash)). rewrite Hb.
    change stringQuote with squote in *. case_bool_decide as Hq.
    + destruct (literal_body esc rest) as [[w m]|] eqn:E; [|done]. injection H as _ <-.
      rewrite bool_decide_eq_false_2 by done. apply (IH rest w); [lia|done].
    + rewrite bool_decide_eq_true_2 by (destruct (decide (c = squote)); [done|by destruct Hq]).
      cbn [negb]. destruct rest as [|d rest]; [injection H as _ <-; by rewrite Hc|].
      case_bool_decide.
      * destruct (literal_body esc rest) as [[w m]|] eqn:E; [|done]. injection H as _ <-.
        apply (IH rest w); [cbn [length] in Hf; lia|done].
      * injection H as _ <-. by rewrite Hc.
Qed.

Lemma quoted_rest_identifier fuel s part next :
  length s <= fuel -> quoted_part s = Some (part, next) -> quoted_rest fuel identifierQuote false s = next.
Proof.
  revert s part. induction fuel as [|fuel IH]; intros [|c rest] part Hf H; try done.
  { simpl in Hf. lia. }
  cbn [length] in Hf. cbn [quoted_part] in H. cbn [quoted_rest andb].
  change identifierQuote with dquote. case_bool_decide as Hq.
  - destruct (quoted_part rest) as [[w m]|] eqn:E; [|done]. injection H as _ <-.
    rewrite bool_decide_eq_false_2 by done. apply (IH rest w); [lia|done].
  - rewrite bool_decide_eq_true_2 by (destruct (decide (c = dquote)); [done|by destruct Hq]). cbn [negb].
    destruct rest as [|d rest]; [by injection H as _ <-|]. case_bool_decide.
    + destruct (quoted_part rest) as [[w m]|] eqn:E; [|done]. injection H as _ <-.
      apply (IH rest w); [cbn [length] in Hf; lia|done].
    + by injection H as _ <-.
Qed.

Lemma nextToken_plain_literal v next :
  ~ starts_with stringQuote next -> continuationQuote next stringQuote = None -> backslash ∉ v ->
  nextToken (stringQuote :: doubled squote v ++ stringQuote :: next) = (next, false).
Proof.
  intros Hn Hc Hv. cbn [nextToken]. change (isWordStartByte stringQuote) with false. cbv iota.
  rewrite !has_prefix_head by done. rewrite (bool_decide_eq_true_2 (stringQuote = stringQuote)) by done. cbn [orb].
  f_equal. unfold endOfQuoted. eapply quoted_rest_literal; [simpl; lia|done|].
  by apply literal_body_doubled.
Qed.

Lemma nextToken_escape_literal body v next :
  continuationQuote next stringQuote = None -> literal_body true body = Some (v, next) ->
  nextToken ("E"%char :: stringQuote :: body) = (next, false).
Proof.
  intros Hc Hl. cbn [nextToken]. change (isWordStartByte "E") with true. cbv iota.
  unfold endOfWordOrEscapeString. cbn [tail endOfByteRun]. change (isWordByte stringQuote) with false.
  cbn [negb]. rewrite (bool_decide_eq_true_2 (stringQuote = stringQuote)) by done.
  replace (take (length ("E"%char :: stringQuote :: body) - length (stringQuote :: body))
             ("E"%char :: stringQuote :: body)) with (bs "E").
  2: { cbn [length]. replace (S (S (length body)) - S (length body)) with 1 by lia. done. }
  change (equal_fold (bs "E") escapeStringPrefix) with true. cbn [andb]. f_equal.
  unfold endOfQuoted. eapply quoted_rest_literal; [simpl; lia|done|]. exact Hl.
Qed.

Lemma nextToken_quoteLiteral v next :
  ~ starts_with stringQuote next -> continuationQuote next stringQuote = None ->
  nextToken (quoteLiteral v ++ next) = (next, false).
Proof.
  intros Hn Hc. unfold quoteLiteral, contains_byte. case_bool_decide as Hb.
  - change (bs "E'" ++ ?x ++ bs "'") with ("E"%char :: stringQuote :: x ++ [stringQuote]).
    cbn [app]. rewrite <- app_assoc. eapply nextToken_escape_literal; [done|]. by apply escaped_body.
  - change (bs "'" ++ ?x ++ bs "'") with (stringQuote :: x ++ [stringQuote]).
    cbn [app]. rewrite <- app_assoc. by apply nextToken_plain_literal.
Qed.

Lemma nextToken_spelled name next :
  ~ starts_with dquote next -> nextToken (spelled name ++ next) = (next, false).
Proof.
  intros Hn. unfold spelled. cbn [app nextToken]. change (isWordStartByte dquote) with false. cbv iota.
  rewrite !has_prefix_head by done. change (bool_decide (dquote = stringQuote)) with false.
  rewrite (bool_decide_eq_true_2 (dquote = identifierQuote)) by done. cbn [orb]. f_equal.
  unfold endOfQuoted. eapply quoted_rest_identifier; [simpl; lia|]. cbn [tail].
  rewrite <- app_assoc. by apply quoted_part_doubled.
Qed.

(** The rest past a dollar-quoted literal whose delimiter first closes after [body]. *)
Lemma nextToken_dollar tag body next :
  (tag = [] \/ isDollarQuoteTag tag = true) -> "$"%char ∉ tag ->
  index_of (dollar_delimiter tag) (body ++ dollar_delimiter tag ++ next) = Some (length body) ->
  nextToken (dollar_delimiter tag ++ body ++ dollar_delimiter tag ++ next) = (next, false).
Proof.
  intros Htag Hd Hi. assert (Hdel : dollar_delimiter tag = "$"%char :: tag ++ ["$"%char]) by done.
  set (rest := body ++ dollar_delimiter tag ++ next) in *. rewrite Hdel at 1. cbn [app nextToken].
  change (isWordStartByte "$") with false. cbv iota.
  rewrite !has_prefix_head by done. change (bool_decide ("$"%char = stringQuote)) with false.
  change (bool_decide ("$"%char = identifierQuote)) with false.
  rewrite (bool_decide_eq_true_2 ("$"%char = "$"%char)) by done. cbn [orb]. f_equal.
  unfold endOfDollarQuoted, dollarQuoteDelimiter. cbn [tail]. rewrite <- app_assoc. cbn [app].
  change (bs "$") with ["$"%char]. rewrite index_of_first_sep by done. rewrite take_app_length.
  assert (Hg : negb (bool_decide (tag = [])) && negb (isDollarQuoteTag tag) = false)
    by (destruct Htag as [->| ->]; [done|apply andb_false_r]).
  rewrite Hg.
  assert (Htake : take (length tag + 2) ("$"%char :: tag ++ "$"%char :: rest) = dollar_delimiter tag).
  { rewrite Hdel. replace (length tag + 2) with (S (length (tag ++ ["$"%char])))
      by (rewrite length_app; simpl; lia).
    cbn [take]. f_equal. change (tag ++ "$"%char :: rest) with (tag ++ ["$"%char] ++ rest).
    rewrite app_assoc. apply take_app_length. }
  rewrite Htake.
  assert (Hdrop : drop (length (dollar_delimiter tag)) ("$"%char :: tag ++ "$"%char :: rest) = rest).
  { rewrite Hdel. cbn [length drop]. change (tag ++ "$"%char :: rest) with (tag ++ ["$"%char] ++ rest).
    rewrite app_assoc. apply drop_app_length. }
  rewrite Hdrop, Hi. unfold rest. rewrite app_assoc, <- length_app. apply drop_app_length.
Qed.

Lemma dollar_tag_valid k : isDollarQuoteTag (dollar_tag k) = true.
Proof.
  unfold dollar_tag. destruct (0 <? k)%nat; [|done].
  destruct (format_int_digits (Z.of_nat k) ltac:(lia)) as (_ & Hd & _).
  assert (endOfByteRun isTagByte (format_int (Z.of_nat k)) = []) as H.
  { induction Hd as [|c s Hc _ IH]; [done|]. cbn [endOfByteRun]. unfold isTagByte.
    change ((48 <=? code c) && (code c <=? 57))%Z with (is_digit c). rewrite Hc, orb_true_r. exact IH. }
  change (bs "fn_" ++ ?x) with ("f"%char :: "n"%char :: "_"%char :: x).
  unfold isDollarQuoteTag. cbn [endOfByteRun]. change (isTagByte "n") with true.
  change (isTagByte "_") with true. cbn [negb]. rewrite H. done.
Qed.

(** What the SQL generator renders is one opaque token to the WHEN lexer: a literal of any
    value, a quoted identifier of any name and a dollar-quoted body under its chosen tag are each
    skipped whole, whatever bytes they hold, as long as the text after them does not reopen them --
    so no value, column name or function body is ever scanned as code. *)
Theorem rendered_tokens_opaque next :
  (forall value, ~ starts_with stringQuote next -> continuationQuote next stringQuote = None ->
     nextToken (quoteLiteral value ++ next) = (next, false)) /\
  (forall name, ~ starts_with identifierQuote next -> nextToken (spelled name ++ next) = (next, false)) /\
  (forall body tag, dollarQuoteTag body = Some tag ->
     nextToken (dollar_delimiter tag ++ (newline ++ body ++ newline) ++ dollar_delimiter tag ++ next)
     = (next, false)).
Proof.
  split_and!.
  - intros value. apply nextToken_quoteLiteral.
  - intros name. apply nextToken_spelled.
  - intros body tag Htag. apply dollarQuoteTag_from_Some in Htag as [[k ->] Hno].
    apply nextToken_dollar; [right; apply dollar_tag_valid|apply dollar_tag_no_dollar|].
    rewrite <- !app_assoc. rewrite index_of_wrapped by done.
    f_equal. rewrite !length_app. simpl. lia.
Qed.
