(* ===== verification/Queue.v ===== *)
(** * The delivery queue

    [internal/source]'s PostgreSQL adapter: the three tables of [migrations/0002_objects.sql], the
    transactions of claim.go, ack.go, nack.go, dead.go, leasereclaim.go, queueretry.go, queuelist.go
    and queueobserve.go over them, and the effect of the trigger body of body.go. A SQL statement is
    the function on the tables it denotes; what the server decides (its clock, the rows other
    transactions have locked, the order of RETURNING, where a call fails) is the [session]. *)

From S2P Require Import Prelude Utf8 Quote.
From stdpp Require Import sorting.

Local Open Scope Z_scope.

(** ** Tables *)

Inductive queue_status := pending | delivering | dead.

#[global] Instance queue_status_eq_dec : EqDecision queue_status.
Proof. solve_decision. Defined.

#[global] Instance queue_status_countable : Countable queue_status.
Proof.
  refine (inj_countable' (λ s, match s with pending => 0%nat | delivering => 1%nat | dead => 2%nat end)
            (λ n, match n with 0%nat => pending | 1%nat => delivering | _ => dead end) _).
  by intros [].
Defined.

Definition status_text (s : queue_status) : gostring :=
  match s with pending => bs "pending" | delivering => bs "delivering" | dead => bs "dead" end.

Record queue_row := QueueRow {
  occurred_at : Z;
  row_listener : gostring;
  status : queue_status;
  attempts : Z;
  next_attempt_at : Z;
  leased_until : option Z;
  leased_by : option gostring;
  dead_reason : option gostring
}.

Record event_row := EventRow {
  ev_listener : gostring;
  ev_table_name : gostring;
  ev_operation : gostring;
  ev_payload : gostring;
  ev_txid : Z
}.

Record delivery_row := DeliveryRow {
  http_status : option Z;
  response_snippet : option gostring;
  delivery_error : option gostring;
  duration_ms : Z;
  created_at : Z
}.

(** [events] is keyed on (id, occurred_at), [deliveries] on (event_id, attempt); [identity] is the
    next value of the identity column. *)
Record tables := Tables {
  events : gmap (Z * Z) event_row;
  event_queue : gmap Z queue_row;
  deliveries : gmap (Z * Z) delivery_row;
  identity : Z
}.

Definition with_queue (d : tables) (q : gmap Z queue_row) : tables :=
  Tables (events d) q (deliveries d) (identity d).

(** ** The port's vocabulary *)

Record Event := {
  ID : Z;
  Listener : gostring;
  Operation : gostring;
  OccurredAt : Z;
  Table : gostring;
  TXID : Z;
  Payload : gostring;
  Attempt : Z
}.

Record Delivery := {
  HTTPStatus : Z;
  Snippet : gostring;
  DeliveryErr : gostring;
  Duration : Z
}.

Inductive source_error :=
  | ErrEventNotClaimed
  | ErrSourceClosed
  | noPool
  | unusableIdentifier (field value : gostring) (reason : IdentifierFault)
  | refused (message : gostring)
  | databaseError (doing : gostring).

Record TriggerSource := {
  closed : bool;
  pool : bool;
  DatabaseSchema : gostring;
  LeasedBy : gostring;
  Lease : Z
}.

(** One call's view of the server: [now()] of its transaction, [clock_timestamp()], the rows other
    transactions have locked, the order in which RETURNING lists rows, which of the call's round
    trips fail (each named by the message the code wraps its error in), and whether a commit whose
    answer was lost took effect. *)
Record session := {
  tx_now : Z;
  clock_timestamp : Z;
  locked : gset Z;
  returning : list Z -> list Z;
  fails : gostring -> bool;
  lost_commit_applied : bool
}.

Definition statement {A} (s : session) (doing : gostring) (m : result source_error A) :
    result source_error A :=
  if fails s doing then Err (databaseError doing) else m.

(** Begin, run [body], commit under the label [body] answers; a failed body is rolled back. *)
Definition transaction {A} (s : session) (beginning : gostring)
    (body : tables -> result source_error (A * tables * gostring)) (d : tables) :
    result source_error A * tables :=
  if fails s beginning then (Err (databaseError beginning), d)
  else match body d with
       | Err e => (Err e, d)
       | Ok (a, d', committing) =>
           if fails s committing
           then (Err (databaseError committing), if lost_commit_applied s then d' else d)
           else (Ok a, d')
       end.

(** [UPDATE event_queue SET ... WHERE ...] *)
Definition update_rows (where_ : Z -> queue_row -> bool) (set_ : queue_row -> queue_row)
    (q : gmap Z queue_row) : gmap Z queue_row :=
  map_imap (λ id r, Some (if where_ id r then set_ r else r)) q.

(** A PostgreSQL [int]. *)
Definition max_int4 : Z := 2 ^ 31 - 1.
Definition int4 (z : Z) : bool := (- 2 ^ 31 <=? z) && (z <=? max_int4).


Definition ensureUsable (src : TriggerSource) : result source_error unit :=
  if closed src then Err ErrSourceClosed
  else if negb (pool src) then Err noPool
  else Ok tt.

(** ** Retry selection (queueadmin.go, queueretry.go) *)

Record QueueSelector := {
  SelID : option Z;
  SelListener : gostring;
  SelStatus : gostring
}.

Definition validateStatus (st : gostring) : result source_error unit :=
  if bool_decide (st = []) || bool_decide (st = bs "pending") || bool_decide (st = bs "delivering")
     || bool_decide (st = bs "dead")
  then Ok tt else Err (refused (bs "unknown queue status")).

Definition ValidateForRetry (s : QueueSelector) : result source_error unit :=
  (let! _ := validateStatus (SelStatus s) in
   let no_id := bool_decide (SelID s = None) in
   let no_status := bool_decide (SelStatus s = []) in
   let no_listener := bool_decide (SelListener s = []) in
   if no_id && no_status && no_listener then Err (refused (bs "retry requires a selector"))
   else if negb no_id && (negb no_status || negb no_listener)
   then Err (refused (bs "id selector cannot be combined with listener or status"))
   else if no_id && (no_status || no_listener)
   then Err (refused (bs "listener retry requires both listener and status"))
   else Ok tt)%res.

(** One rendered comparison [column=$placeholder] and the values bound to the placeholders. *)
Inductive column := event_id_column | listener_column | status_column.
Record clause := Clause { clause_column : column; placeholder : nat }.
Inductive argument := int_argument (z : Z) | text_argument (t : gostring).

Definition selectorPredicateQualified (s : QueueSelector) (first : nat) (retry : bool) :
    result source_error (list clause * list argument) :=
  (let! _ := validateStatus (SelStatus s) in
   let! _ := (if retry then ValidateForRetry s else Ok tt) in
   let '(clauses, args, next) :=
     match SelID s with
     | Some id => ([Clause event_id_column first], [int_argument id], S first)
     | None => ([], [], first)
     end in
   let '(clauses, args, next) :=
     if bool_decide (SelListener s = []) then (clauses, args, next)
     else (clauses ++ [Clause listener_column next], args ++ [text_argument (SelListener s)], S next) in
   let '(clauses, args) :=
     if bool_decide (SelStatus s = []) then (clauses, args)
     else (clauses ++ [Clause status_column next], args ++ [text_argument (SelStatus s)]) in
   Ok (clauses, args))%res.

Definition selectorPredicate (s : QueueSelector) (first : nat) (retry : bool) :
    result source_error (list clause * list argument) :=
  selectorPredicateQualified s first retry.

(** What the server makes of one clause: a placeholder that no argument is bound to is an error, a
    comparison of the wrong type is false. *)
Definition clause_holds (args : list argument) (id : Z) (r : queue_row) (c : clause) : option bool :=
  match placeholder c with
  | O => None
  | S k =>
      match args !! k, clause_column c with
      | Some (int_argument z), event_id_column => Some (bool_decide (id = z))
      | Some (text_argument t), listener_column => Some (bool_decide (row_listener r = t))
      | Some (text_argument t), status_column => Some (bool_decide (status_text (status r) = t))
      | Some _, _ => Some false
      | None, _ => None
      end
  end.

Definition where_holds (args : list argument) (clauses : list clause) (id : Z) (r : queue_row) : bool :=
  forallb (λ c, default false (clause_holds args id r c)) clauses.

(** ** Reasoning about statements and transactions *)

Lemma lookup_update_rows where_ set_ q id :
  update_rows where_ set_ q !! id = (λ r, if where_ id r then set_ r else r) <$> q !! id.
Proof. unfold update_rows. rewrite map_lookup_imap. by destruct (q !! id). Qed.

(** A transaction leaves the tables it met, or those its body made. *)
Lemma transaction_effect {A} s beginning (body : tables -> result source_error (A * tables * gostring)) d :
  snd (transaction s beginning body d) = d \/
  exists a committing, body d = Ok (a, snd (transaction s beginning body d), committing).
Proof.
  unfold transaction. destruct (fails s beginning); [by left|].
  destruct (body d) as [[[a d'] c]|e] eqn:E; [|by left].
  destruct (fails s c); [destruct (lost_commit_applied s)|]; cbn; eauto.
Qed.

Lemma transaction_Ok {A} s beginning (body : tables -> result source_error (A * tables * gostring)) d a d' :
  transaction s beginning body d = (Ok a, d') -> exists committing, body d = Ok (a, d', committing).
Proof.
  unfold transaction. destruct (fails s beginning); [done|].
  destruct (body d) as [[[a0 d0] c]|e]; [|done]. destruct (fails s c); [done|].
  intros [= -> ->]. by exists c.
Qed.

(** An error leaves the tables alone unless it is a lost commit. *)
Lemma transaction_Err {A} s beginning (body : tables -> result source_error (A * tables * gostring)) d e :
  body d = Err e -> transaction s beginning body d = (Err (if fails s beginning then databaseError beginning else e), d).
Proof. unfold transaction. intros ->. by destruct (fails s beginning). Qed.

Lemma statement_Ok {A} s doing (m : result source_error A) a :
  statement s doing m = Ok a -> fails s doing = false /\ m = Ok a.
Proof. unfold statement. by destruct (fails s doing). Qed.

(** Peel the monadic steps of a hypothesis that says a body succeeded. *)
Ltac peel :=
  repeat match goal with
  | H : rbind ?m ?k = Ok ?b |- _ =>
      let a := fresh "a" in let H1 := fresh "Hm" in
      apply rbind_Ok in H; destruct H as (a & H1 & H)
  | H : statement _ _ _ = Ok _ |- _ => apply statement_Ok in H; destruct H as [? H]
  | H : context [match ?p with pair _ _ => _ end] |- _ => destruct p
  | H : Ok _ = Ok _ |- _ => injection H as H
  | H : Err _ = Ok _ |- _ => discriminate H
  end; simplify_eq.

Ltac committed_or_not :=
  match goal with
  | |- context [transaction ?s ?b ?body ?d] =>
      let a := fresh "a" in let c := fresh "c" in let H := fresh "H" in
      destruct (transaction_effect s b body d) as [H|(a & c & H)];
      [|revert H; generalize (snd (transaction s b body d)); intros ? H]
  end.

Lemma with_queue_same d : with_queue d (event_queue d) = d.
Proof. by destruct d. Qed.

(** ** Selectors *)

(** What a selector means, without placeholders. *)
Definition selects (sel : QueueSelector) (id : Z) (r : queue_row) : bool :=
  match SelID sel with Some z => bool_decide (id = z) | None => true end &&
  (bool_decide (SelListener sel = []) || bool_decide (row_listener r = SelListener sel)) &&
  (bool_decide (SelStatus sel = []) || bool_decide (status_text (status r) = SelStatus sel)).

Lemma ValidateForRetry_iff sel :
  ValidateForRetry sel = Ok tt <->
  (is_Some (SelID sel) /\ SelListener sel = [] /\ SelStatus sel = []) \/
  (SelID sel = None /\ SelListener sel <> [] /\ exists st, SelStatus sel = status_text st).
Proof.
  unfold ValidateForRetry, validateStatus. destruct sel as [[z|] l st]; cbn [SelID SelListener SelStatus].
  - rewrite (bool_decide_eq_false_2 (Some z = None)) by done. cbn.
    destruct (decide (st = [])) as [->|Hst]; cbn.
    + case_bool_decide; cbn; split; [intros _; left; eauto|done|done|naive_solver].
    + rewrite (bool_decide_eq_false_2 (st = [])) by done. cbn.
      destruct (bool_decide (st = bs "pending") || _ || _); cbn; split; naive_solver.
  - rewrite (bool_decide_eq_true_2 (None = None)) by done. cbn.
    destruct (decide (st = [])) as [->|Hst]; cbn.
    + assert (Hno : forall s0, [] <> status_text s0) by (by intros []).
      case_bool_decide; cbn; (split; [done|]); intros [[[? E] ?]|(_ & _ & s0 & E)]; try done; by destruct (Hno s0).
    + rewrite (bool_decide_eq_false_2 (st = [])) by done. cbn.
      destruct (bool_decide (st = bs "pending") || _ || _) eqn:E; cbn.
      * assert (exists s0, st = status_text s0) as Hs0.
        { apply orb_true_iff in E as [[E|E]%orb_true_iff|E]; apply bool_decide_eq_true in E;
            [exists pending|exists delivering|exists dead]; done. }
        clear E. case_bool_decide as Hl; cbn.
        { split; [done|]. by intros [[[? ?] ?]|(_ & ? & _)]. }
        { split; [|done]. intros _. by right. }
      * split; [done|]. intros [[[? ?] ?]|(_ & _ & s0 & ->)]; [done|]. by destruct s0.
Qed.

Lemma where_holds_app args c1 c2 id r :
  where_holds args (c1 ++ c2) id r = where_holds args c1 id r && where_holds args c2 id r.
Proof. apply forallb_app. Qed.

Lemma where_holds_text (col : column) (cell : queue_row -> gostring) args k t id r :
  args !! k = Some (text_argument t) -> (col = listener_column /\ cell = row_listener) \/
    (col = status_column /\ cell = λ r, status_text (status r)) ->
  where_holds args [Clause col (S k)] id r = bool_decide (cell r = t).
Proof.
  intros Hk Hc. unfold where_holds, clause_holds. cbn. rewrite Hk.
  destruct Hc as [[-> ->]|[-> ->]]; cbn; by rewrite andb_true_r.
Qed.

(** A selector is rendered to the comparisons it means: whichever of its fields are set and
    whatever arguments precede its own, every placeholder is bound to the argument of its column, so
    the WHERE clause holds of exactly the rows the selector selects; and a retry admits exactly an id
    alone, or a listener with one of the queue's statuses. *)
Theorem selector_means_its_fields sel prefix retry :
  match selectorPredicateQualified sel (S (length prefix)) retry with
  | Ok (clauses, args) =>
      (forall id r, where_holds (prefix ++ args) clauses id r = selects sel id r) /\
      (forall id r c, c ∈ clauses -> is_Some (clause_holds (prefix ++ args) id r c)) /\
      (retry = true -> clauses <> [])
  | Err _ => validateStatus (SelStatus sel) <> Ok tt \/ (retry = true /\ ValidateForRetry sel <> Ok tt)
  end /\
  (ValidateForRetry sel = Ok tt <->
   (is_Some (SelID sel) /\ SelListener sel = [] /\ SelStatus sel = []) \/
   (SelID sel = None /\ SelListener sel <> [] /\ exists st, SelStatus sel = status_text st)).
Proof.
  split; [|apply ValidateForRetry_iff]. unfold selectorPredicateQualified.
  destruct (validateStatus (SelStatus sel)) as [[]|] eqn:Ev; cbn; [|by left].
  destruct (if retry then ValidateForRetry sel else Ok tt) as [[]|e] eqn:Er; cbn.
  2: { destruct retry; [|done]. right. by rewrite Er. }
  assert (Hempty : retry = true -> SelID sel <> None \/ SelListener sel <> []).
  { intros ->. apply ValidateForRetry_iff in Er as [[[? ->] _]|(_ & ? & _)]; [by left|by right]. }
  assert (Hat : forall a args k, k = length prefix -> (prefix ++ a :: args) !! k = Some a).
  { intros a args k ->. apply list_lookup_middle. done. }
  assert (Hat1 : forall a b args, (prefix ++ a :: b :: args) !! S (length prefix) = Some b).
  { intros a b args. rewrite lookup_app_r by lia. by replace (_ - _)%nat with 1%nat by lia. }
  assert (Hat2 : forall a b c args, (prefix ++ a :: b :: c :: args) !! S (S (length prefix)) = Some c).
  { intros a b c args. rewrite lookup_app_r by lia. by replace (_ - _)%nat with 2%nat by lia. }
  unfold selects. destruct (SelID sel) as [z|] eqn:Ez;
    destruct (bool_decide (SelListener sel = [])) eqn:El; destruct (bool_decide (SelStatus sel = [])) eqn:Es;
    cbn; unfold where_holds, clause_holds; cbn; rewrite ?Hat, ?Hat1, ?Hat2 by done; cbn;
    (split_and!; [intros id r; by rewrite ?andb_true_r, ?andb_assoc|
                  intros id r c Hc; rewrite ?elem_of_cons in Hc; set_unfold; destruct_or!; subst; cbn;
                  rewrite ?Hat, ?Hat1, ?Hat2 by done; done|
                  intros Ht; apply bool_decide_eq_true in El || done; destruct (Hempty Ht); done]).
Qed.

(** ** The operations *)

Section adapter.
Context (Sanitize : list gostring -> gostring).
(** [pgx]'s encoding of a [time.Duration] as an interval, and [make_interval(secs => d.Seconds())]. *)
Context (duration_interval seconds_interval : Z -> Z).

Definition qualifiedServiceTable (serviceSchema table : gostring) : result source_error gostring :=
  match Qualified Sanitize serviceSchema table with
  | Ok q => Ok q
  | Err fault => Err (unusableIdentifier (bs "service table") table fault)
  end.

(** *** claim.go *)

Definition claimable (s : session) (id : Z) (r : queue_row) : bool :=
  bool_decide (status r = pending) && (next_attempt_at r <=? tx_now s) && negb (bool_decide (id ∈ locked s)).

(** ORDER BY next_attempt_at, event_id *)
Definition claim_before (a b : Z * queue_row) : Prop :=
  next_attempt_at (snd a) < next_attempt_at (snd b) \/
  (next_attempt_at (snd a) = next_attempt_at (snd b) /\ fst a <= fst b).

#[global] Instance claim_before_dec : RelDecision claim_before.
Proof. intros a b. unfold claim_before. solve_decision. Defined.

Definition claim_candidates (s : session) (q : gmap Z queue_row) : list (Z * queue_row) :=
  merge_sort claim_before (filter (λ p, claimable s (fst p) (snd p) = true) (map_to_list q)).

Definition claim_choice (s : session) (n : Z) (q : gmap Z queue_row) : list Z :=
  map fst (take (Z.to_nat n) (claim_candidates s q)).

Definition leased (src : TriggerSource) (s : session) (r : queue_row) : queue_row :=
  QueueRow (occurred_at r) (row_listener r) delivering (attempts r + 1) (next_attempt_at r)
    (Some (tx_now s + duration_interval (Lease src))) (Some (LeasedBy src)) (dead_reason r).

(** The claim statement: the ids it returns and the queue it leaves. [attempts + 1] is refused by
    the server where it leaves the column's range. *)
Definition claim_update (src : TriggerSource) (s : session) (n : Z) (q : gmap Z queue_row) :
    result source_error (list Z * gmap Z queue_row) :=
  let chosen := claim_choice s n q in
  if forallb (λ id, match q !! id with Some r => int4 (attempts r + 1) | None => true end) chosen then Ok (returning s chosen, update_rows (λ id _, bool_decide (id ∈ chosen)) (leased src s) q)
  else Err (databaseError (bs "claim queue")).

Definition claimQueryFor (serviceSchema : gostring) :
    result source_error
      (TriggerSource -> session -> Z -> gmap Z queue_row -> result source_error (list Z * gmap Z queue_row)) :=
  (let! _ := qualifiedServiceTable serviceSchema TableEventQueue in
   let! _ := qualifiedServiceTable serviceSchema TableEvents in
   Ok claim_update)%res.

Definition joined_event (d : tables) (id : Z) (r : queue_row) : option Event :=
  (λ e, {| ID := id; Listener := ev_listener e; Operation := ev_operation e;
           OccurredAt := occurred_at r; Table := ev_table_name e; TXID := ev_txid e;
           Payload := ev_payload e; Attempt := attempts r |})
  <$> events d !! (id, occurred_at r).

Definition readClaimedEvents (s : session) (serviceSchema : gostring) (ids : list Z) (d : tables) :
    result source_error (list Event) :=
  (let! _ := qualifiedServiceTable serviceSchema TableEventQueue in
   let! _ := qualifiedServiceTable serviceSchema TableEvents in
   let! byID := statement s (bs "read claimed events")
     (Ok (map_imap (λ id r, if bool_decide (id ∈ ids) then joined_event d id r else None)
            (event_queue d))) in
   Ok (omap (λ id, byID !! id) ids))%res.

(** The claim's transaction, once its query is rendered. *)
Definition claim_body (src : TriggerSource) (s : session) (n : Z)
    (query : TriggerSource -> session -> Z -> gmap Z queue_row ->
             result source_error (list Z * gmap Z queue_row)) (d : tables) :
    result source_error (list Event * tables * gostring) :=
  (let! (ids, q) := statement s (bs "claim queue") (query src s n (event_queue d)) in
   if bool_decide (ids = []) then Ok ([], with_queue d q, bs "commit empty claim")
   else
     let! found := readClaimedEvents s (DatabaseSchema src) ids (with_queue d q) in
     Ok (found, with_queue d q, bs "commit claim"))%res.

Definition Claim (src : TriggerSource) (s : session) (n : Z) (d : tables) :
    result source_error (list Event) * tables :=
  match ensureUsable src with
  | Err e => (Err e, d)
  | Ok _ =>
      if n <=? 0 then (Ok [], d)
      else match claimQueryFor (DatabaseSchema src) with
           | Err e => (Err e, d)
           | Ok query => transaction s (bs "begin claim") (claim_body src s n query) d
           end
  end.

(** *** ack.go, nack.go, dead.go *)

Definition held_by (src : TriggerSource) (r : queue_row) : bool :=
  bool_decide (status r = delivering) && bool_decide (leased_by r = Some (LeasedBy src)).

(** [guardTransition]: the guarded statement touches the row [id] or the transition is refused. *)
Definition guardTransition (src : TriggerSource) (s : session) (id : Z)
    (change : queue_row -> option queue_row) (q : gmap Z queue_row) :
    result source_error (gmap Z queue_row) :=
  statement s (bs "transition guard")
    match q !! id with
    | Some r => if held_by src r then Ok (partial_alter (λ _, change r) id q) else Err ErrEventNotClaimed
    | None => Err ErrEventNotClaimed
    end.

Definition Milliseconds (d : Z) : Z := d `quot` 1000000.

Definition recordDelivery (s : session) (serviceSchema : gostring) (event : Event) (delivery : Delivery)
    (d : tables) : result source_error tables :=
  (let! _ := qualifiedServiceTable serviceSchema TableDeliveries in
   let st := if 0 <? HTTPStatus delivery then Some (HTTPStatus delivery) else None in
   let snippet := if bool_decide (Snippet delivery = []) then None
                  else Some (storableText (Snippet delivery)) in
   let recordedError := if bool_decide (DeliveryErr delivery = []) then None
                        else Some (storableText (DeliveryErr delivery)) in
   let milliseconds := Milliseconds (Duration delivery) in
   statement s (bs "record delivery")
     (if int4 (Attempt event) && int4 (default 0 st) && int4 milliseconds
      then Ok (Tables (events d) (event_queue d)
                 (<[(ID event, Attempt event) :=
                      DeliveryRow st snippet recordedError milliseconds (clock_timestamp s)]> (deliveries d))
                 (identity d))
      else Err (databaseError (bs "record delivery"))))%res.

(** The transaction Ack, Nack and Dead share. *)
Definition transition_body (src : TriggerSource) (s : session) (event : Event) (delivery : Delivery)
    (change : queue_row -> option queue_row) (committing : gostring) (d : tables) :
    result source_error (unit * tables * gostring) :=
  (let! _ := qualifiedServiceTable (DatabaseSchema src) TableEventQueue in
   let! q := guardTransition src s (ID event) change (event_queue d) in
   let! d' := recordDelivery s (DatabaseSchema src) event delivery (with_queue d q) in
   Ok (tt, d', committing))%res.

Definition transition (src : TriggerSource) (s : session) (event : Event) (delivery : Delivery)
    (change : queue_row -> option queue_row) (committing : gostring) (d : tables) :
    result source_error unit * tables :=
  match ensureUsable src with
  | Err e => (Err e, d)
  | Ok _ =>
      transaction s (bs "begin transition") (transition_body src s event delivery change committing) d
  end.

Definition Ack (src : TriggerSource) (s : session) (event : Event) (delivery : Delivery) (d : tables) :
    result source_error unit * tables :=
  transition src s event delivery (λ _, None) (bs "commit ack") d.

(** [retryAt.Sub(source.now())], saturated as Go's [Sub] is, never negative. *)
Definition retryDelay (source_now retryAt : Z) : Z :=
  let delay := sat64 (retryAt - source_now) in
  if delay <? 0 then 0 else delay.

Definition rescheduled (s : session) (delay : Z) (r : queue_row) : queue_row :=
  QueueRow (occurred_at r) (row_listener r) pending (attempts r) (tx_now s + seconds_interval delay)
    None None (dead_reason r).

Definition Nack (src : TriggerSource) (s : session) (source_now : Z) (event : Event) (delivery : Delivery)
    (retryAt : Z) (d : tables) : result source_error unit * tables :=
  transition src s event delivery (λ r, Some (rescheduled s (retryDelay source_now retryAt) r))
    (bs "commit nack") d.

Definition retained (reason : gostring) (r : queue_row) : queue_row :=
  QueueRow (occurred_at r) (row_listener r) dead (attempts r) (next_attempt_at r) None None (Some reason).

Definition Dead (src : TriggerSource) (s : session) (event : Event) (delivery : Delivery)
    (reason : gostring) (d : tables) : result source_error unit * tables :=
  transition src s event delivery (λ r, Some (retained (storableText reason) r)) (bs "commit dead") d.

(** *** leasereclaim.go *)

Definition lease_expired (s : session) (r : queue_row) : bool :=
  bool_decide (status r = delivering) &&
  match leased_until r with Some until => until <? tx_now s | None => false end.

Definition reclaimed (r : queue_row) : queue_row :=
  QueueRow (occurred_at r) (row_listener r) pending (attempts r) (next_attempt_at r) None None (dead_reason r).

Definition count_rows (where_ : Z -> queue_row -> bool) (q : gmap Z queue_row) : nat :=
  length (filter (λ p, where_ (fst p) (snd p) = true) (map_to_list q)).

(** One statement outside a transaction commits itself: when its answer is lost it may have run. *)
Definition ReclaimExpired (src : TriggerSource) (s : session) (d : tables) :
    result source_error nat * tables :=
  match ensureUsable src, qualifiedServiceTable (DatabaseSchema src) TableEventQueue with
  | Err e, _ => (Err e, d)
  | Ok _, Err e => (Err e, d)
  | Ok _, Ok _ =>
      let q := update_rows (λ _, lease_expired s) reclaimed (event_queue d) in
      if fails s (bs "reclaim expired leases")
      then (Err (databaseError (bs "reclaim expired leases")),
            if lost_commit_applied s then with_queue d q else d)
      else (Ok (count_rows (λ _, lease_expired s) (event_queue d)), with_queue d q)
  end.

(** *** queueretry.go *)

Definition alreadyRetried (s : session) (r : queue_row) : bool :=
  bool_decide (status r = pending) && (attempts r =? 0) && bool_decide (dead_reason r = None)
  && (next_attempt_at r <=? tx_now s).

Definition retried (s : session) (r : queue_row) : queue_row :=
  QueueRow (occurred_at r) (row_listener r) pending 0 (tx_now s) (leased_until r) (leased_by r) None.

Definition retriable (s : session) (args : list argument) (clauses : list clause) (id : Z) (r : queue_row) : bool :=
  where_holds args clauses id r && negb (alreadyRetried s r).

Definition by_id (a b : Z * queue_row) : Prop := fst a <= fst b.
#[global] Instance by_id_dec : RelDecision by_id.
Proof. intros a b. unfold by_id. apply _. Defined.

(** ORDER BY event_id LIMIT $1 FOR UPDATE SKIP LOCKED *)
Definition retry_choice (s : session) (limit : Z) (wanted : Z -> queue_row -> bool)
    (q : gmap Z queue_row) : list Z :=
  map fst (take (Z.to_nat limit)
    (merge_sort by_id
       (filter (λ p, (wanted (fst p) (snd p) && negb (bool_decide (fst p ∈ locked s)))%bool = true)
          (map_to_list q)))).

Definition retry_body (s : session) (limit : Z) (clauses : list clause) (args : list argument)
    (d : tables) : result source_error (nat * tables * gostring) :=
  let chosen := retry_choice s limit (retriable s (int_argument limit :: args) clauses) (event_queue d) in
  (let! q := statement s (bs "retry queue batch")
     (Ok (update_rows (λ id _, bool_decide (id ∈ chosen)) (retried s) (event_queue d))) in
   Ok (length chosen, with_queue d q, bs "commit retry batch"))%res.

Definition RetryBatch (src : TriggerSource) (s : session) (selector : QueueSelector) (limit : Z)
    (d : tables) : result source_error nat * tables :=
  match ensureUsable src with
  | Err e => (Err e, d)
  | Ok _ =>
      if limit <=? 0 then (Err (refused (bs "retry batch limit must be positive")), d)
      else match selectorPredicate selector 2 true with
           | Err e => (Err e, d)
           | Ok (clauses, args) =>
               match qualifiedServiceTable (DatabaseSchema src) TableEventQueue with
               | Err e => (Err e, d)
               | Ok _ => transaction s (bs "begin retry batch") (retry_body s limit clauses args) d
               end
           end
  end.

(** [buildEventsRetry]'s loop over batches of [retryBatchLimit]: the counts it prints, until a batch
    retries nothing, a batch fails or the command's context is done. [serving k] is the server the
    [k]-th batch meets. *)
Definition retryBatchLimit : Z := 1000.

Inductive drain_end := drained | drain_failed (e : source_error) | drain_cancelled | drain_out_of_fuel.

Fixpoint retry_until_none (fuel k : nat) (src : TriggerSource) (serving : nat -> session)
    (cancelled : nat -> bool) (selector : QueueSelector) (d : tables) : drain_end * list nat * tables :=
  match fuel with
  | O => (drain_out_of_fuel, [], d)
  | S fuel =>
      match RetryBatch src (serving k) selector retryBatchLimit d with
      | (Err e, d) => (drain_failed e, [], d)
      | (Ok O, d) => (drained, [], d)
      | (Ok count, d) =>
          if cancelled k then (drain_cancelled, [count], d)
          else let '(ending, counts, d) := retry_until_none fuel (S k) src serving cancelled selector d in
               (ending, count :: counts, d)
      end
  end.

(** [retrySelector]: the selector of the command's flags, refused before a connection is opened. *)
Definition retrySelector (id : Z) (hasID : bool) (listener status_ : gostring) :
    result source_error QueueSelector :=
  let selector := {| SelID := if hasID then Some id else None; SelListener := listener;
                     SelStatus := status_ |} in
  (let! _ := ValidateForRetry selector in Ok selector)%res.

(** *** queuelist.go *)

Record QueueEvent := {
  QE_event : Event;
  QE_status : queue_status;
  QE_next_attempt_at : Z;
  QE_dead_reason : option gostring
}.

Definition listed_event (d : tables) (p : Z * queue_row) : option QueueEvent :=
  (λ e, {| QE_event := e; QE_status := status (snd p); QE_next_attempt_at := next_attempt_at (snd p);
           QE_dead_reason := dead_reason (snd p) |}) <$> joined_event d (fst p) (snd p).

Definition ListEvents (src : TriggerSource) (s : session) (selector : QueueSelector) (d : tables) :
    result source_error (list QueueEvent) :=
  (let! _ := ensureUsable src in
   let! (clauses, args) := selectorPredicateQualified selector 1 false in
   let! _ := qualifiedServiceTable (DatabaseSchema src) TableEventQueue in
   let! _ := qualifiedServiceTable (DatabaseSchema src) TableEvents in
   statement s (bs "list events")
     (Ok (omap (listed_event d)
            (merge_sort by_id
               (filter (λ p, where_holds args clauses (fst p) (snd p) = true)
                  (map_to_list (event_queue d)))))))%res.

(** *** queueobserve.go *)

Record QueueObservation := {
  Pending : Z;
  Delivering : Z;
  DeadCount : Z;
  OldestPendingAge : Z;
  DeadByListener : gmap gostring Z
}.

(** GROUP BY listener, status: each group's depth and its oldest [occurred_at]. *)
Definition queue_groups (q : gmap Z queue_row) : gmap (gostring * queue_status) (Z * Z) :=
  foldr (λ p, partial_alter
                (λ found, Some match found with
                               | Some (depth, oldest) => (depth + 1, Z.min oldest (occurred_at (snd p)))
                               | None => (1, occurred_at (snd p))
                               end) (row_listener (snd p), status (snd p)))
    ∅ (map_to_list q).

(** COALESCE(SUM(depth) FILTER (WHERE status=...), 0) *)
Definition depth_of (st : queue_status) (groups : gmap (gostring * queue_status) (Z * Z)) : Z :=
  map_fold (λ k v total, (if bool_decide (snd k = st) then fst v else 0) + total) 0 groups.

(** MIN(oldest) FILTER (WHERE status='pending') *)
Definition oldest_pending (groups : gmap (gostring * queue_status) (Z * Z)) : option Z :=
  map_fold (λ k v oldest,
              if bool_decide (snd k = pending)
              then Some match oldest with Some o => Z.min (snd v) o | None => snd v end
              else oldest) None groups.

(** jsonb_object_agg(listener, depth) FILTER (WHERE status='dead') *)
Definition dead_by_listener (groups : gmap (gostring * queue_status) (Z * Z)) : gmap gostring Z :=
  map_fold (λ k v m, if bool_decide (snd k = dead) then <[fst k := fst v]> m else m) ∅ groups.

(** [age_duration] is Go's [time.Duration(age * float64(time.Second))] of an age EXTRACT computed. *)
Definition ObserveQueue (age_duration : Z -> Z) (src : TriggerSource) (s : session) (d : tables) :
    result source_error QueueObservation :=
  (let! _ := ensureUsable src in
   let! _ := qualifiedServiceTable (DatabaseSchema src) TableEventQueue in
   let groups := queue_groups (event_queue d) in
   statement s (bs "observe queue")
     (Ok {| Pending := depth_of pending groups;
            Delivering := depth_of delivering groups;
            DeadCount := depth_of dead groups;
            OldestPendingAge :=
              match oldest_pending groups with Some o => age_duration (tx_now s - o) | None => 0 end;
            DeadByListener := dead_by_listener groups |}))%res.

(** *** The trigger body (body.go): what one captured row writes, inside the customer's transaction.

    The identity value is consumed whether or not that transaction commits. *)
Definition enqueue (listener table operation payload : gostring) (txid : Z) (committed : bool)
    (s : session) (d : tables) : tables :=
  let id := identity d in
  if committed then
    Tables (<[(id, clock_timestamp s) := EventRow listener table operation payload txid]> (events d))
      (<[id := QueueRow (clock_timestamp s) listener pending 0 (clock_timestamp s) None None None]>
         (event_queue d))
      (deliveries d) (id + 1)
  else Tables (events d) (event_queue d) (deliveries d) (id + 1).

(** ** The queue as a state machine *)

Inductive action :=
  | Enqueue (listener table operation payload : gostring) (txid : Z) (committed : bool)
  | DoClaim (src : TriggerSource) (n : Z)
  | DoAck (src : TriggerSource) (event : Event) (delivery : Delivery)
  | DoNack (src : TriggerSource) (source_now : Z) (event : Event) (delivery : Delivery) (retryAt : Z)
  | DoDead (src : TriggerSource) (event : Event) (delivery : Delivery) (reason : gostring)
  | DoReclaim (src : TriggerSource)
  | DoRetry (src : TriggerSource) (selector : QueueSelector) (limit : Z).

Definition perform (a : action) (s : session) (d : tables) : tables :=
  match a with
  | Enqueue listener table operation payload txid committed =>
      enqueue listener table operation payload txid committed s d
  | DoClaim src n => snd (Claim src s n d)
  | DoAck src event delivery => snd (Ack src s event delivery d)
  | DoNack src source_now event delivery retryAt => snd (Nack src s source_now event delivery retryAt d)
  | DoDead src event delivery reason => snd (Dead src s event delivery reason d)
  | DoReclaim src => snd (ReclaimExpired src s d)
  | DoRetry src selector limit => snd (RetryBatch src s selector limit d)
  end.

(** What any number of workers, sweeps, operators and writers can make of an empty schema. *)
Inductive reachable : tables -> Prop :=
  | reachable_empty : reachable (Tables ∅ ∅ ∅ 1)
  | reachable_step d a s : reachable d -> reachable (perform a s d).

(** ** Lemmas *)

Lemma Claim_effect src s n d :
  snd (Claim src s n d) = d \/
  (forall id r, id ∈ claim_choice s n (event_queue d) -> event_queue d !! id = Some r ->
     int4 (attempts r + 1) = true) /\
  snd (Claim src s n d) =
    with_queue d (update_rows (λ id _, bool_decide (id ∈ claim_choice s n (event_queue d)))
                    (leased src s) (event_queue d)).
Proof.
  unfold Claim. destruct (ensureUsable src); [|by left]. destruct (n <=? 0); [by left|].
  destruct (claimQueryFor (DatabaseSchema src)) as [query|] eqn:Eq; [|by left].
  unfold claimQueryFor in Eq. peel.
  committed_or_not; [by left|right].
  unfold claim_body, claim_update in H. peel.
  destruct (forallb _ _) eqn:Ei; [|done]. simplify_eq. split.
  - intros id r Hin Hr. rewrite forallb_forall in Ei.
    specialize (Ei id ltac:(by apply list_elem_of_In)). by rewrite Hr in Ei.
  - destruct (bool_decide _); peel; congruence.
Qed.

Lemma transition_effect src s event delivery change committing d :
  snd (transition src s event delivery change committing d) = d \/
  exists r dl, event_queue d !! ID event = Some r /\ held_by src r = true /\
    snd (transition src s event delivery change committing d) =
      Tables (events d) (partial_alter (λ _, change r) (ID event) (event_queue d)) dl (identity d).
Proof.
  unfold transition. destruct (ensureUsable src); [|by left].
  committed_or_not; [by left|right].
  unfold transition_body, guardTransition, recordDelivery in H. peel.
  destruct (event_queue d !! ID event) as [r|]; [|done]. destruct (held_by src r) eqn:Eh; [|done].
  destruct (int4 _ && _ && _); [|done]. simplify_eq. eauto 10.
Qed.

Lemma ReclaimExpired_effect src s d :
  snd (ReclaimExpired src s d) = d \/
  snd (ReclaimExpired src s d) = with_queue d (update_rows (λ _, lease_expired s) reclaimed (event_queue d)).
Proof.
  unfold ReclaimExpired. destruct (ensureUsable src), (qualifiedServiceTable (DatabaseSchema src) TableEventQueue); try by left.
  destruct (fails s _); [destruct (lost_commit_applied s)|]; auto.
Qed.

Lemma RetryBatch_effect src s selector limit d :
  snd (RetryBatch src s selector limit d) = d \/
  exists clauses args, selectorPredicate selector 2 true = Ok (clauses, args) /\
  snd (RetryBatch src s selector limit d) =
    with_queue d (update_rows (λ id _, bool_decide (id ∈
      retry_choice s limit (retriable s (int_argument limit :: args) clauses) (event_queue d)))
      (retried s) (event_queue d)).
Proof.
  unfold RetryBatch. destruct (ensureUsable src); [|by left]. destruct (limit <=? 0); [by left|].
  destruct (selectorPredicate selector 2 true) as [[clauses args]|]; [|by left].
  destruct (qualifiedServiceTable (DatabaseSchema src) TableEventQueue); [|by left].
  committed_or_not; [by left|right].
  exists clauses, args. split; [done|]. unfold retry_body in H. peel. done.
Qed.
(** *** What one action does to one row *)

(** The moves a queue row can make, each with its condition and the row it makes written out; [None] is
    a row that is not in the queue. *)
Inductive moves (a : action) (s : session) (id : Z) : option queue_row -> option queue_row -> Prop :=
  | stays r : moves a s id r r
  | arrives listener table operation payload txid :
      a = Enqueue listener table operation payload txid true ->
      moves a s id None
        (Some (QueueRow (clock_timestamp s) listener pending 0 (clock_timestamp s) None None None))
  | is_claimed src n r :
      a = DoClaim src n -> 0 < n -> status r = pending -> next_attempt_at r <= tx_now s -> id ∉ locked s ->
      attempts r < max_int4 ->
      moves a s id (Some r)
        (Some (QueueRow (occurred_at r) (row_listener r) delivering (attempts r + 1) (next_attempt_at r)
                 (Some (tx_now s + duration_interval (Lease src))) (Some (LeasedBy src)) (dead_reason r)))
  | is_acked src event delivery r :
      a = DoAck src event delivery -> ID event = id ->
      status r = delivering -> leased_by r = Some (LeasedBy src) -> moves a s id (Some r) None
  | is_nacked src source_now event delivery retryAt r :
      a = DoNack src source_now event delivery retryAt -> ID event = id ->
      status r = delivering -> leased_by r = Some (LeasedBy src) ->
      moves a s id (Some r)
        (Some (QueueRow (occurred_at r) (row_listener r) pending (attempts r)
                 (tx_now s + seconds_interval (Z.max 0 (sat64 (retryAt - source_now)))) None None (dead_reason r)))
  | is_buried src event delivery reason r :
      a = DoDead src event delivery reason -> ID event = id ->
      status r = delivering -> leased_by r = Some (LeasedBy src) ->
      moves a s id (Some r)
        (Some (QueueRow (occurred_at r) (row_listener r) dead (attempts r) (next_attempt_at r) None None
                 (Some (storableText reason))))
  | is_reclaimed src until r :
      a = DoReclaim src -> status r = delivering -> leased_until r = Some until -> until < tx_now s ->
      moves a s id (Some r)
        (Some (QueueRow (occurred_at r) (row_listener r) pending (attempts r) (next_attempt_at r) None None
                 (dead_reason r)))
  | is_retried src selector limit r :
      a = DoRetry src selector limit -> selects selector id r = true ->
      ~ (status r = pending /\ attempts r = 0 /\ dead_reason r = None /\ next_attempt_at r <= tx_now s) ->
      moves a s id (Some r)
        (Some (QueueRow (occurred_at r) (row_listener r) pending 0 (tx_now s) (leased_until r) (leased_by r) None)).

Lemma elem_of_claim_choice s n q id :
  id ∈ claim_choice s n q -> exists r, q !! id = Some r /\ claimable s id r = true.
Proof.
  unfold claim_choice, claim_candidates. intros ([i r] & -> & Hin)%list_elem_of_fmap. exists r. cbn.
  apply elem_of_take in Hin as (k & Hk & _). apply list_elem_of_lookup_2 in Hk.
  rewrite merge_sort_Permutation, list_elem_of_filter, elem_of_map_to_list in Hk. naive_solver.
Qed.

Lemma claim_choice_positive s n q id : id ∈ claim_choice s n q -> 0 < n.
Proof.
  unfold claim_choice. destruct (decide (0 < n)); [done|].
  replace (Z.to_nat n) with 0%nat by lia. intros H. by apply elem_of_nil in H.
Qed.

Lemma held_by_iff src r : held_by src r = true <-> status r = delivering /\ leased_by r = Some (LeasedBy src).
Proof. unfold held_by. by rewrite andb_true_iff, !bool_decide_eq_true. Qed.

Lemma claimable_iff s id r :
  claimable s id r = true <-> status r = pending /\ next_attempt_at r <= tx_now s /\ id ∉ locked s.
Proof. unfold claimable. rewrite !andb_true_iff, negb_true_iff, bool_decide_eq_true, bool_decide_eq_false, Z.leb_le. tauto. Qed.

Lemma lease_expired_iff s r :
  lease_expired s r = true <-> status r = delivering /\ exists until, leased_until r = Some until /\ until < tx_now s.
Proof.
  unfold lease_expired. rewrite andb_true_iff, bool_decide_eq_true. destruct (leased_until r) as [u|].
  - rewrite Z.ltb_lt. naive_solver.
  - naive_solver.
Qed.

Lemma alreadyRetried_iff s r :
  alreadyRetried s r = true <->
  status r = pending /\ attempts r = 0 /\ dead_reason r = None /\ next_attempt_at r <= tx_now s.
Proof. unfold alreadyRetried. rewrite !andb_true_iff, !bool_decide_eq_true, Z.eqb_eq, Z.leb_le. tauto. Qed.

Lemma retryDelay_max a b : retryDelay a b = Z.max 0 (sat64 (b - a)).
Proof. unfold retryDelay. cases_Z; lia. Qed.

(** The clause a retry renders holds of the rows its selector selects. *)
Lemma retriable_selects s sel limit clauses args id r :
  selectorPredicate sel 2 true = Ok (clauses, args) ->
  retriable s (int_argument limit :: args) clauses id r = selects sel id r && negb (alreadyRetried s r).
Proof.
  intros E. pose proof (proj1 (selector_means_its_fields sel [int_argument limit] true)) as H.
  unfold selectorPredicate in E. cbn [length] in H. rewrite E in H. destruct H as (H & _). unfold retriable.
  f_equal. apply H.
Qed.

Lemma elem_of_retry_choice s limit wanted q id :
  id ∈ retry_choice s limit wanted q ->
  exists r, q !! id = Some r /\ wanted id r = true /\ id ∉ locked s.
Proof.
  unfold retry_choice. intros ([i r] & -> & Hin)%list_elem_of_fmap. exists r. cbn.
  apply elem_of_take in Hin as (k & Hk & _). apply list_elem_of_lookup_2 in Hk.
  rewrite merge_sort_Permutation, list_elem_of_filter, elem_of_map_to_list in Hk.
  destruct Hk as [Hk ?]. cbn in Hk. apply andb_true_iff in Hk as [? ?%negb_true_iff%bool_decide_eq_false].
  done.
Qed.

(** A row of an UPDATE whose WHERE clause implies [P] stays or is set by a row that meets [P]. *)
Lemma update_rows_moves where_ set_ q id (M : option queue_row -> option queue_row -> Prop) :
  (forall r, M (Some r) (Some r)) -> M None None ->
  (forall r, q !! id = Some r -> where_ id r = true -> M (Some r) (Some (set_ r))) ->
  M (q !! id) (update_rows where_ set_ q !! id).
Proof.
  intros Hr Hn Hs. rewrite lookup_update_rows. destruct (q !! id) as [r|] eqn:E; cbn; [|done].
  destruct (where_ id r) eqn:Ew; auto.
Qed.

Definition ids_used (d : tables) : Prop :=
  (forall id, is_Some (event_queue d !! id) -> id < identity d) /\
  (forall id t, is_Some (events d !! (id, t)) -> id < identity d).

Lemma transition_moves a s id src event delivery change committing d :
  (forall r, status r = delivering -> leased_by r = Some (LeasedBy src) -> moves a s (ID event) (Some r) (change r)) ->
  moves a s id (event_queue d !! id)
    (event_queue (snd (transition src s event delivery change committing d)) !! id).
Proof.
  intros Hc. destruct (transition_effect src s event delivery change committing d)
    as [->|(r & dl & Hr & [Hst Hl]%held_by_iff & ->)]; [constructor|].
  cbn. destruct (decide (id = ID event)) as [->|Hne].
  - rewrite lookup_partial_alter_eq, Hr. auto.
  - rewrite lookup_partial_alter_ne by done. constructor.
Qed.

Lemma perform_moves a s id d :
  ids_used d -> moves a s id (event_queue d !! id) (event_queue (perform a s d) !! id).
Proof.
  intros [Hq _]. destruct a; cbn [perform].
  - unfold enqueue. destruct committed; cbn; [|constructor].
    destruct (decide (id = identity d)) as [->|Hne].
    + rewrite lookup_insert_eq. destruct (event_queue d !! identity d) eqn:E.
      { specialize (Hq (identity d)). rewrite E in Hq. specialize (Hq ltac:(done)). lia. }
      by eapply arrives.
    + rewrite lookup_insert_ne by done. constructor.
  - destruct (Claim_effect src s n d) as [->|[Hi ->]]; [constructor|]. cbn.
    apply update_rows_moves; [constructor..|]. intros r Hr Hin%bool_decide_eq_true.
    specialize (Hi id r Hin Hr). pose proof (claim_choice_positive _ _ _ _ Hin).
    apply elem_of_claim_choice in Hin as (r' & Hr' & Hc). simplify_eq. apply claimable_iff in Hc as (? & ? & ?).
    unfold int4 in Hi. apply andb_true_iff in Hi as [_ Hi%Z.leb_le]. eapply is_claimed; [done..|lia].
  - apply transition_moves. intros. by eapply is_acked.
  - apply transition_moves. intros. unfold rescheduled. rewrite retryDelay_max. by eapply is_nacked.
  - apply transition_moves. intros. by eapply is_buried.
  - destruct (ReclaimExpired_effect src s d) as [->| ->]; [constructor|]. cbn.
    apply update_rows_moves; [constructor..|]. intros r _ (? & until & ? & ?)%lease_expired_iff.
    by eapply is_reclaimed.
  - destruct (RetryBatch_effect src s selector limit d) as [->|(cl & args & Hs & ->)]; [constructor|]. cbn.
    apply update_rows_moves; [constructor..|]. intros r Hr Hin%bool_decide_eq_true.
    apply elem_of_retry_choice in Hin as (r' & Hr' & Hc & _). simplify_eq.
    rewrite (retriable_selects _ _ _ _ _ _ _ Hs) in Hc. apply andb_true_iff in Hc as [Hsel Hn%negb_true_iff].
    eapply is_retried; [done..|]. rewrite <- alreadyRetried_iff. congruence.
Qed.

(** *** The invariant of every reachable queue *)

Definition row_ok (r : queue_row) : Prop :=
  0 <= attempts r <= max_int4 /\
  (status r = delivering -> 1 <= attempts r /\ is_Some (leased_by r) /\ is_Some (leased_until r)) /\
  (is_Some (dead_reason r) <-> status r = dead).

Record well_formed (d : tables) : Prop := {
  wf_ids : ids_used d;
  wf_rows : forall id r, event_queue d !! id = Some r -> row_ok r;
  wf_logged : forall id r, event_queue d !! id = Some r -> is_Some (events d !! (id, occurred_at r))
}.

Lemma moves_row_ok a s id o r :
  (forall r0, o = Some r0 -> row_ok r0) -> moves a s id o (Some r) -> row_ok r.
Proof.
  intros Ho Hm. unfold row_ok in *. inversion Hm; subst; cbn; auto;
    try specialize (Ho _ eq_refl); unfold max_int4 in *.
  - split_and!; [lia..|done|]. split; [by intros []|done].
  - unfold int4, claimable, max_int4 in *. bool_to_prop. destruct Ho as (? & _ & Hr).
    split_and!; [lia..| |]; [intros _; split_and!; [lia|done..]|].
    rewrite Hr. split; [congruence|done].
  - unfold held_by in *. bool_to_prop. destruct Ho as (? & _ & Hr).
    split_and!; [lia..|done|]. rewrite Hr. split; [congruence|done].
  - split_and!; [lia..|done|]. by split.
  - unfold lease_expired in *. bool_to_prop. destruct Ho as (? & _ & Hr).
    split_and!; [lia..|done|]. rewrite Hr. split; [congruence|done].
  - split_and!; [lia..|done|]. split; [by intros []|done].
Qed.

Lemma moves_occurred_at a s id r0 r : moves a s id (Some r0) (Some r) -> occurred_at r = occurred_at r0.
Proof. intros H. by inversion H. Qed.

(** The log and the identity only grow, and only [Enqueue] grows them. *)
Lemma perform_log a s d :
  (events (perform a s d) = events d /\ identity (perform a s d) = identity d) \/
  (exists listener table operation payload txid committed,
     a = Enqueue listener table operation payload txid committed /\
     perform a s d = enqueue listener table operation payload txid committed s d).
Proof.
  destruct a; cbn [perform]; [right; eauto 10|left..].
  - destruct (Claim_effect src s n d) as [->|[_ ->]]; done.
  - unfold Ack. edestruct transition_effect as [->|(? & ? & _ & _ & ->)]; done.
  - unfold Nack. edestruct transition_effect as [->|(? & ? & _ & _ & ->)]; done.
  - unfold Dead. edestruct transition_effect as [->|(? & ? & _ & _ & ->)]; done.
  - destruct (ReclaimExpired_effect src s d) as [->| ->]; done.
  - destruct (RetryBatch_effect src s selector limit d) as [->|(? & ? & _ & ->)]; done.
Qed.

Lemma perform_events a s d : ids_used d -> events d ⊆ events (perform a s d).
Proof.
  intros [_ He]. destruct (perform_log a s d) as [[-> _]|(l & t & o & p & x & c & -> & ->)]; [done|].
  unfold enqueue. destruct c; cbn; [|done]. apply insert_subseteq.
  destruct (events d !! _) eqn:E; [|done].
  specialize (He (identity d) (clock_timestamp s)). rewrite E in He. specialize (He ltac:(done)). lia.
Qed.

Lemma perform_ids_used a s d : ids_used d -> ids_used (perform a s d).
Proof.
  intros Hd. assert (Hid := Hd). destruct Hd as [Hq He].
  destruct (perform_log a s d) as [[Hev Hi]|(l & t & o & p & x & c & -> & ->)].
  - split; [|by rewrite Hev, Hi]. intros id [r Hr]. rewrite Hi.
    pose proof (perform_moves a s id d Hid) as Hm. rewrite Hr in Hm. inversion Hm as [|? ? ? ? ? ->| | | | | |]; subst; eauto.
    cbn in Hi. lia.
  - unfold enqueue. destruct c; split; cbn.
    + intros id [r Hr]. destruct (decide (id = identity d)) as [->|]; [lia|].
      rewrite lookup_insert_ne in Hr by done. specialize (Hq id ltac:(by eexists)). lia.
    + intros id tm [r Hr]. destruct (decide (id = identity d)) as [->|]; [lia|].
      rewrite lookup_insert_ne in Hr by naive_solver. specialize (He id tm ltac:(by eexists)). lia.
    + intros id H. specialize (Hq id H). lia.
    + intros id tm H. specialize (He id tm H). lia.
Qed.

Lemma perform_well_formed a s d : well_formed d -> well_formed (perform a s d).
Proof.
  intros [Hid Hrows Hlog]. split; [by apply perform_ids_used|intros id r Hr..];
    pose proof (perform_moves a s id d Hid) as Hm; rewrite Hr in Hm.
  - eapply moves_row_ok; [|exact Hm]. intros r0. apply Hrows.
  - destruct (event_queue d !! id) as [r0|] eqn:E.
    + rewrite (moves_occurred_at _ _ _ _ _ Hm). eapply lookup_weaken_is_Some; [by eapply Hlog|].
      by apply perform_events.
    + inversion Hm; subst; cbn [perform] in *. revert Hr. unfold enqueue. cbn.
      destruct (decide (id = identity d)) as [->|]; [|rewrite lookup_insert_ne by done; congruence].
      rewrite !lookup_insert_eq. done.
Qed.

Lemma reachable_well_formed d : reachable d -> well_formed d.
Proof.
  induction 1; [|by apply perform_well_formed].
  split; [split|..]; cbn; intros *; rewrite ?lookup_empty; try done; by intros [].
Qed.

(** *** What a claim chooses *)

Lemma claim_before_total : Total claim_before.
Proof. intros a b. unfold claim_before. lia. Qed.

Lemma claim_before_trans : Transitive claim_before.
Proof. intros a b c. unfold claim_before. lia. Qed.

Lemma by_id_total : Total by_id.
Proof. intros a b. unfold by_id. lia. Qed.

Lemma NoDup_choice (P : Z * queue_row -> Prop) `{!forall p, Decision (P p)} R `{!RelDecision R} n q :
  NoDup (fst <$> (take n (merge_sort R (filter P (map_to_list (K:=Z) q))))).
Proof.
  eapply sublist_NoDup; [|apply fmap_sublist, sublist_take].
  rewrite merge_sort_Permutation.
  apply (sublist_NoDup _ (map_to_list q).*1); [apply NoDup_fst_map_to_list|].
  apply fmap_sublist, sublist_filter.
Qed.

Lemma claim_choice_NoDup s n q : NoDup (claim_choice s n q).
Proof. apply (NoDup_choice (λ p, claimable s (fst p) (snd p) = true)). Qed.

Lemma claim_choice_length s n q :
  length (claim_choice s n q) = Nat.min (Z.to_nat n) (count_rows (claimable s) q).
Proof.
  unfold claim_choice, claim_candidates, count_rows.
  by rewrite length_map, length_take, merge_sort_Permutation.
Qed.

(** What a claim leaves for later comes after everything it takes. *)
Lemma claim_choice_first s n q i j ri rj :
  i ∈ claim_choice s n q -> q !! i = Some ri ->
  j ∉ claim_choice s n q -> q !! j = Some rj -> claimable s j rj = true -> claim_before (i, ri) (j, rj).
Proof.
  unfold claim_choice. set (L := claim_candidates s q). intros Hi Hri Hj Hrj Hc.
  assert (Hsort : StronglySorted claim_before L).
  { unfold L, claim_candidates. apply Sorted_StronglySorted; [apply claim_before_trans|].
    apply Sorted_merge_sort. apply claim_before_total. }
  assert (HL : forall p, p ∈ L -> q !! fst p = Some (snd p)).
  { intros [k rk]. unfold L, claim_candidates.
    rewrite merge_sort_Permutation, list_elem_of_filter, elem_of_map_to_list. naive_solver. }
  assert (HjL : (j, rj) ∈ L).
  { unfold L, claim_candidates. rewrite merge_sort_Permutation, list_elem_of_filter, elem_of_map_to_list.
    done. }
  apply list_elem_of_fmap in Hi as ([i' ri'] & -> & Hi). cbn in *.
  assert (ri' = ri) as -> by (apply elem_of_take in Hi as (k & Hk & _); apply list_elem_of_lookup_2, HL in Hk; cbn in Hk; congruence).
  rewrite <- (take_drop (Z.to_nat n) L) in HjL, Hsort.
  apply elem_of_app in HjL as [HjL|HjL].
  - destruct Hj. apply list_elem_of_fmap. by exists (j, rj).
  - by apply (StronglySorted_app_1_elem_of _ _ _ _ _ Hsort Hi HjL).
Qed.

(** *** Calls that meet no failure *)

Record usable (src : TriggerSource) : Prop := {
  usable_open : closed src = false;
  usable_pool : pool src = true;
  usable_schema : WhyUnusable (DatabaseSchema src) = IdentifierOK
}.

Definition healthy (s : session) : Prop :=
  (forall doing, fails s doing = false) /\ (forall l, returning s l ≡ₚ l).

Lemma usable_ensure src : usable src -> ensureUsable src = Ok tt.
Proof. intros [Hc Hp _]. unfold ensureUsable. by rewrite Hc, Hp. Qed.

Lemma usable_table src table :
  usable src -> WhyUnusable table = IdentifierOK ->
  qualifiedServiceTable (DatabaseSchema src) table = Ok (Sanitize [DatabaseSchema src; table]).
Proof. intros [_ _ Hs] Ht. unfold qualifiedServiceTable, Qualified. by rewrite Hs, Ht. Qed.

Lemma healthy_statement {A} s doing (m : result source_error A) : healthy s -> statement s doing m = m.
Proof. intros [Hf _]. unfold statement. by rewrite Hf. Qed.

Lemma healthy_transaction {A} s beginning (body : tables -> result source_error (A * tables * gostring)) d :
  healthy s ->
  transaction s beginning body d =
    match body d with Ok (a, d', _) => (Ok a, d') | Err e => (Err e, d) end.
Proof.
  intros [Hf _]. unfold transaction. rewrite Hf. destruct (body d) as [[[a d'] c]|]; [|done].
  by rewrite Hf.
Qed.

(** The event a claimed row is delivered as. *)
Definition claimed_event (d : tables) (id : Z) (e : Event) : Prop :=
  exists r logged, event_queue d !! id = Some r /\ events d !! (id, occurred_at r) = Some logged /\
    e = {| ID := id; Listener := ev_listener logged; Operation := ev_operation logged;
           OccurredAt := occurred_at r; Table := ev_table_name logged; TXID := ev_txid logged;
           Payload := ev_payload logged; Attempt := attempts r + 1 |}.

Definition after_claim (src : TriggerSource) (s : session) (n : Z) (d : tables) : tables :=
  with_queue d (update_rows (λ id _, bool_decide (id ∈ claim_choice s n (event_queue d)))
                  (leased src s) (event_queue d)).

Lemma read_claimed src s n d ids :
  well_formed d -> (forall id, id ∈ ids -> id ∈ claim_choice s n (event_queue d)) ->
  Forall2 (claimed_event d) ids
    (omap (λ id, map_imap (λ id r, if bool_decide (id ∈ ids) then joined_event (after_claim src s n d) id r
                                  else None) (event_queue (after_claim src s n d)) !! id) ids).
Proof.
  intros Hwf Hin.
  assert (H : forall id, id ∈ ids -> exists e, claimed_event d id e /\
    map_imap (λ id r, if bool_decide (id ∈ ids) then joined_event (after_claim src s n d) id r
                      else None) (event_queue (after_claim src s n d)) !! id = Some e).
  { intros id Hid. specialize (Hin id Hid). pose proof Hin as Hc.
    apply elem_of_claim_choice in Hc as (r & Hr & _). destruct (wf_logged _ Hwf _ _ Hr) as [logged Hl].
    eexists. split; [by exists r, logged|]. rewrite map_lookup_imap. cbn.
    rewrite lookup_update_rows, Hr. cbn. rewrite !bool_decide_eq_true_2 by done. unfold joined_event.
    cbn. by rewrite Hl. }
  revert H. generalize (map_imap (λ id r, if bool_decide (id ∈ ids) then joined_event (after_claim src s n d) id r
                      else None) (event_queue (after_claim src s n d))).
  intros m. clear. induction ids as [|id ids IH]; cbn; [constructor|]. intros H.
  destruct (H id) as (e & He & Hm); [set_solver|]. rewrite Hm. constructor; [done|].
  apply IH. intros i Hi. apply H. set_solver.
Qed.

Lemma Claim_healthy src s n d :
  well_formed d -> usable src -> healthy s -> 0 < n ->
  (forall id r, event_queue d !! id = Some r -> status r = pending -> attempts r < max_int4) ->
  exists evs, Claim src s n d = (Ok evs, after_claim src s n d) /\
    Forall2 (claimed_event d) (returning s (claim_choice s n (event_queue d))) evs.
Proof.
  intros Hwf Hu Hs Hn Hmax. unfold Claim. rewrite (usable_ensure src Hu), (proj2 (Z.leb_gt _ _) Hn).
  unfold claimQueryFor. rewrite !usable_table by done. cbn [rbind].
  rewrite healthy_transaction by done. unfold claim_body. rewrite healthy_statement by done.
  unfold claim_update.
  replace (forallb _ _) with true.
  2: { symmetry. apply forallb_forall. intros id Hin%list_elem_of_In.
       apply elem_of_claim_choice in Hin as (r & Hr & Hc). rewrite Hr. unfold int4, claimable in *.
       bool_to_prop. specialize (Hmax _ _ Hr ltac:(done)). destruct (wf_rows _ Hwf _ _ Hr) as [? _].
       apply andb_true_iff. unfold max_int4 in *. lia. }
  cbn [rbind]. set (ids := returning s (claim_choice s n (event_queue d))).
  assert (Hperm : ids ≡ₚ claim_choice s n (event_queue d)) by apply Hs.
  pose proof (read_claimed src s n d ids Hwf (λ id H, proj1 (elem_of_Permutation_proper id _ _ Hperm) H)) as Hread.
  case_bool_decide as Hnil.
  - rewrite Hnil in *. exists []. split; [done|constructor].
  - unfold readClaimedEvents. rewrite !usable_table by done. cbn [rbind].
    rewrite healthy_statement by done. cbn [rbind]. eexists. split; [done|]. exact Hread.
Qed.

(** With no failure, a claim takes the earliest claimable rows and no others: it returns, in the
    server's order, one event per row taken, each carrying the logged payload and the row's attempt
    number raised by one; exactly those rows become leased to the caller; it takes as many as it may;
    and a claimable row it leaves is due no earlier than any it takes, ties broken by id. *)
Theorem Claim_takes_earliest src s n d :
  reachable d -> usable src -> healthy s -> 0 < n ->
  (forall id r, event_queue d !! id = Some r -> status r = pending -> attempts r < max_int4) ->
  exists evs taken, Claim src s n d = (Ok evs, after_claim src s n d) /\
    Forall2 (claimed_event d) (returning s taken) evs /\ NoDup taken /\
    length taken = Nat.min (Z.to_nat n) (count_rows (claimable s) (event_queue d)) /\
    (forall id, event_queue (after_claim src s n d) !! id =
       (λ r, if bool_decide (id ∈ taken) then leased src s r else r) <$> event_queue d !! id) /\
    (forall id, id ∈ taken -> exists r, event_queue d !! id = Some r /\ claimable s id r = true) /\
    (forall i j ri rj, i ∈ taken -> event_queue d !! i = Some ri ->
       j ∉ taken -> event_queue d !! j = Some rj -> claimable s j rj = true ->
       claim_before (i, ri) (j, rj)).
Proof.
  intros Hd Hu Hs Hn Hmax. apply reachable_well_formed in Hd.
  destruct (Claim_healthy src s n d) as (evs & He & Hread); [done..|].
  exists evs, (claim_choice s n (event_queue d)).
  split_and!; [done..|apply claim_choice_NoDup|apply claim_choice_length| | |].
  - intros id. apply lookup_update_rows.
  - intros id. apply elem_of_claim_choice.
  - intros i j ri rj. by eapply claim_choice_first.
Qed.

(** *** Settling a claim *)

(** What a settlement of [event] records, when the server takes it. *)
Definition settled (src : TriggerSource) (s : session) (event : Event)
    (change : queue_row -> option queue_row) (d d' : tables) : Prop :=
  exists r row, event_queue d !! ID event = Some r /\ status r = delivering /\
    leased_by r = Some (LeasedBy src) /\
    d' = Tables (events d) (partial_alter (λ _, change r) (ID event) (event_queue d))
           (<[(ID event, Attempt event) := row]> (deliveries d)) (identity d).

Lemma transition_sound src s event delivery change committing d :
  let '(answer, d') := transition src s event delivery change committing d in
  (answer = Ok tt -> settled src s event change d d') /\
  (d' = d \/ (settled src s event change d d' /\
              (answer = Ok tt \/ (answer = Err (databaseError committing) /\ lost_commit_applied s = true)))) /\
  (answer = Err ErrEventNotClaimed -> d' = d /\
     forall r, event_queue d !! ID event = Some r ->
       ~ (status r = delivering /\ leased_by r = Some (LeasedBy src))).
Proof.
  unfold transition. destruct (ensureUsable src) eqn:Eu.
  2: { split_and!; [done|by left|]. unfold ensureUsable in Eu.
       destruct (closed src), (pool src); cbn in Eu; congruence. }
  unfold transaction. destruct (fails s _); [split_and!; [done|by left|done]|].
  destruct (transition_body src s event delivery change committing d) as [[[[] d'] c]|e] eqn:E.
  - unfold transition_body, guardTransition, recordDelivery in E. peel.
    destruct (event_queue d !! ID event) as [r|] eqn:Er; [|done].
    destruct (held_by src r) eqn:Eh; [|done]. destruct (int4 _ && _ && _); [|done]. simplify_eq.
    assert (Hset : forall row, settled src s event change d
      (Tables (events d) (partial_alter (λ _, change r) (ID event) (event_queue d))
           (<[(ID event, Attempt event) := row]> (deliveries d)) (identity d))).
    { intros row. unfold held_by in Eh. bool_to_prop. by exists r, row. }
    unfold statement, with_queue in *; cbn in *.
    destruct (fails s c); [destruct (lost_commit_applied s) eqn:El|]; split_and!; try done; eauto 10.
  - split_and!; [done|by left|]. intros [= ->]. split; [done|]. intros r Hr [Hst Hl].
    unfold transition_body, guardTransition, recordDelivery, statement in E. rewrite Hr in E.
    assert (held_by src r = true) as Hh by (unfold held_by; rewrite !bool_decide_eq_true_2; done).
    rewrite Hh in E. unfold qualifiedServiceTable in E.
    repeat (case_match; cbn in E; try congruence).
Qed.

Lemma transition_healthy src s event delivery change committing d r :
  usable src -> healthy s -> event_queue d !! ID event = Some r -> status r = delivering ->
  leased_by r = Some (LeasedBy src) ->
  int4 (Attempt event) && int4 (HTTPStatus delivery) && int4 (Milliseconds (Duration delivery)) = true ->
  fst (transition src s event delivery change committing d) = Ok tt.
Proof.
  intros Hu Hs Hr Hst Hl Hint. unfold transition. rewrite (usable_ensure src Hu).
  rewrite healthy_transaction by done. unfold transition_body, guardTransition, recordDelivery.
  rewrite !usable_table by done. cbn [rbind]. rewrite healthy_statement by done. rewrite Hr.
  assert (held_by src r = true) as -> by (unfold held_by; rewrite !bool_decide_eq_true_2; done).
  cbn [rbind]. rewrite healthy_statement by done.
  assert (int4 (default 0 (if 0 <? HTTPStatus delivery then Some (HTTPStatus delivery) else None)) = true) as ->.
  { bool_to_prop. destruct (0 <? _); cbn; [done|reflexivity]. }
  bool_to_prop. by rewrite H, H0.
Qed.

(** Only the holder of a row's lease settles it, whatever fails: an Ack, Nack or Dead that answers
    nil found the row delivering under its own LeasedBy, and removed it, rescheduled it at now() plus
    the delay (never a negative one) or retained it as dead, recording one attempt and leaving the
    event log alone; one that answers ErrEventNotClaimed changed nothing and the row was not its; and
    any other answer changed nothing unless a commit took effect whose reply was lost. *)
Theorem settlement_requires_the_lease src s event delivery d :
  (let '(answer, d') := Ack src s event delivery d in
   (answer = Ok tt -> settled src s event (λ _, None) d d') /\
   (answer = Err ErrEventNotClaimed -> d' = d /\ forall r, event_queue d !! ID event = Some r ->
      ~ (status r = delivering /\ leased_by r = Some (LeasedBy src))) /\
   (lost_commit_applied s = false -> answer <> Ok tt -> d' = d)) /\
  (forall source_now retryAt,
   let '(answer, d') := Nack src s source_now event delivery retryAt d in
   0 <= retryDelay source_now retryAt /\
   (answer = Ok tt ->
      settled src s event (λ r, Some (rescheduled s (retryDelay source_now retryAt) r)) d d') /\
   (answer = Err ErrEventNotClaimed -> d' = d /\ forall r, event_queue d !! ID event = Some r ->
      ~ (status r = delivering /\ leased_by r = Some (LeasedBy src))) /\
   (lost_commit_applied s = false -> answer <> Ok tt -> d' = d)) /\
  (forall reason,
   let '(answer, d') := Dead src s event delivery reason d in
   (answer = Ok tt -> settled src s event (λ r, Some (retained (storableText reason) r)) d d') /\
   (answer = Err ErrEventNotClaimed -> d' = d /\ forall r, event_queue d !! ID event = Some r ->
      ~ (status r = delivering /\ leased_by r = Some (LeasedBy src))) /\
   (lost_commit_applied s = false -> answer <> Ok tt -> d' = d)).
Proof.
  assert (Hdelay : forall a b, 0 <= retryDelay a b) by (intros; unfold retryDelay; cases_Z; lia).
  assert (Hall : forall change committing,
    let '(answer, d') := transition src s event delivery change committing d in
    (answer = Ok tt -> settled src s event change d d') /\
    (answer = Err ErrEventNotClaimed -> d' = d /\ forall r, event_queue d !! ID event = Some r ->
       ~ (status r = delivering /\ leased_by r = Some (LeasedBy src))) /\
    (lost_commit_applied s = false -> answer <> Ok tt -> d' = d)).
  { intros change committing. pose proof (transition_sound src s event delivery change committing d) as H.
    destruct (transition src s event delivery change committing d) as [answer d'].
    destruct H as (H1 & H2 & H3). split_and!; [done..|]. intros Hl Hn.
    destruct H2 as [|[_ [|[_ ?]]]]; congruence. }
  split_and!; [apply (Hall (λ _, None))|intros source_now retryAt|intros reason; apply Hall].
  unfold Nack. pose proof (Hall (λ r, Some (rescheduled s (retryDelay source_now retryAt) r)) (bs "commit nack")) as H.
  destruct (transition _ _ _ _ _ _ _). by split.
Qed.

(** *** Many steps *)

Definition run (steps : list (action * session)) (d : tables) : tables :=
  foldl (λ d st, perform (fst st) (snd st) d) d steps.

Lemma run_reachable steps d : reachable d -> reachable (run steps d).
Proof. revert d. induction steps as [|st steps IH]; cbn; [done|]. intros d Hd. by apply IH, reachable_step. Qed.

Lemma sweep_reclaims src s d id r until :
  usable src -> healthy s -> event_queue d !! id = Some r -> status r = delivering ->
  leased_until r = Some until -> until < tx_now s ->
  event_queue (snd (ReclaimExpired src s d)) !! id = Some (reclaimed r).
Proof.
  intros Hu Hs Hr Hst Hul Hlt. unfold ReclaimExpired. rewrite (usable_ensure src Hu), usable_table by done.
  destruct Hs as [Hf _]. rewrite Hf. cbn. rewrite lookup_update_rows, Hr. cbn.
  assert (lease_expired s r = true) as -> by (apply lease_expired_iff; eauto). done.
Qed.

Lemma sweep_counts src s d count :
  fst (ReclaimExpired src s d) = Ok count ->
  count = size (filter (λ p, bool_decide (status (snd p) = delivering) &&
                          from_option (λ until, until <? tx_now s) false (leased_until (snd p)) = true)
                  (event_queue d)).
Proof.
  unfold ReclaimExpired. destruct (ensureUsable src), (qualifiedServiceTable (DatabaseSchema src) TableEventQueue); try done.
  destruct (fails s _); [done|]. cbn. intros [= <-]. unfold count_rows.
  rewrite map_filter_alt, map_size_list_to_map; [done|].
  apply NoDup_fmap_fst; [|apply NoDup_filter, NoDup_map_to_list].
  intros i r1 r2 [_ H1]%list_elem_of_filter [_ H2]%list_elem_of_filter.
  apply elem_of_map_to_list in H1, H2. congruence.
Qed.

(** C22. Every queue row reached by any interleaving of writers, workers, sweeps and retries has its
    event in the log, counts its attempts within the column's range, is leased to someone until some
    time while it is delivering, and carries a dead reason exactly when it is dead. *)
Theorem queue_invariant d :
  reachable d -> forall id r, event_queue d !! id = Some r ->
  is_Some (events d !! (id, occurred_at r)) /\ 0 <= attempts r <= max_int4 /\
  (status r = delivering -> 1 <= attempts r /\ is_Some (leased_by r) /\ is_Some (leased_until r)) /\
  (is_Some (dead_reason r) <-> status r = dead).
Proof.
  intros Hd id r Hr. apply reachable_well_formed in Hd. split; [by eapply wf_logged|].
  by apply (wf_rows _ Hd _ _ Hr).
Qed.

(** C11. Each action moves each row along the status machine of [moves] and no other way: a row enters
    pending, is claimed only while it is pending, due and not locked, is settled or buried only by its
    lease's holder, returns to pending only by its holder, by a sweep after its lease's end or by an
    operator's retry that selects it, and leaves the queue only by its holder's Ack; each move is with
    the row it makes written out. And the sweep does its part: with no failure, every row that is
    delivering and whose lease ended before the sweep's transaction began is pending after it, with no
    lease, and it answers how many there were. *)
Theorem queue_status_machine d a s id :
  reachable d ->
  moves a s id (event_queue d !! id) (event_queue (perform a s d) !! id) /\
  (forall r, event_queue d !! id = Some r -> event_queue (perform a s d) !! id = None ->
     exists src event delivery, a = DoAck src event delivery /\ ID event = id /\
       status r = delivering /\ leased_by r = Some (LeasedBy src)) /\
  (forall src r until, a = DoReclaim src -> usable src -> healthy s ->
     event_queue d !! id = Some r -> status r = delivering -> leased_until r = Some until -> until < tx_now s ->
     event_queue (perform a s d) !! id =
       Some (QueueRow (occurred_at r) (row_listener r) pending (attempts r) (next_attempt_at r) None None
               (dead_reason r))) /\
  (forall src count, fst (ReclaimExpired src s d) = Ok count ->
     count = size (filter (λ p, bool_decide (status (snd p) = delivering) &&
                             from_option (λ until, until <? tx_now s) false (leased_until (snd p)) = true)
                     (event_queue d))).
Proof.
  intros Hd. apply reachable_well_formed in Hd as [Hid _ _].
  pose proof (perform_moves a s id d Hid) as Hm. split_and!; [done| | |].
  - intros r Hr Hn. rewrite Hr, Hn in Hm. inversion Hm; subst. eauto 10.
  - intros src r until -> Hu Hs Hr Hst Hul Hlt. by eapply sweep_reclaims.
  - intros src count. apply sweep_counts.
Qed.

(** The event log is append-only: whatever the queue goes through, an event that was logged keeps
    its row unchanged, and an action that is not a captured write logs nothing. *)
Theorem event_log_append_only d steps :
  reachable d ->
  events d ⊆ events (run steps d) /\
  (forall a s, (forall l t o p x c, a <> Enqueue l t o p x c) -> events (perform a s d) = events d).
Proof.
  intros Hd. split.
  - revert d Hd. induction steps as [|st steps IH]; cbn; [done|]. intros d Hd.
    etrans; [|by apply IH, reachable_step]. apply perform_events. by apply reachable_well_formed in Hd as [].
  - intros a s Hn. destruct (perform_log a s d) as [[-> _]|(l & t & o & p & x & c & -> & _)]; [done|].
    by destruct (Hn l t o p x c).
Qed.

(** A step that may not end the lease on [r]: it is no settlement by the holder, no retry that
    selects the row, and no sweep past the lease. *)
Definition leaves_lease (id : Z) (r : queue_row) (st : action * session) : Prop :=
  match fst st with
  | DoAck src event _ | DoNack src _ event _ _ | DoDead src event _ _ =>
      ID event = id -> leased_by r <> Some (LeasedBy src)
  | DoReclaim _ => exists until, leased_until r = Some until /\ tx_now (snd st) <= until
  | DoRetry _ selector _ => selects selector id r = false
  | _ => True
  end.

Lemma lease_stays id r steps d :
  reachable d -> event_queue d !! id = Some r -> status r = delivering ->
  Forall (leaves_lease id r) steps -> event_queue (run steps d) !! id = Some r.
Proof.
  intros Hd Hr Hst H. revert d Hd Hr. induction H as [|[a s] steps Ha _ IH]; cbn; [done|].
  intros d Hd Hr. apply IH; [by constructor|].
  destruct (reachable_well_formed d Hd) as [Hid _ _].
  pose proof (perform_moves a s id d Hid) as Hm. rewrite Hr in Hm.
  inversion Hm; subst; cbn in Ha; try done; try congruence; try by destruct (Ha eq_refl).
  destruct Ha as (u & Hu & Hle). simplify_eq. lia.
Qed.

(** The events a claim answers are among the rows it chose. *)
Lemma Claim_answers_chosen src s n d evs :
  (forall l, returning s l ⊆ l) -> fst (Claim src s n d) = Ok evs ->
  forall e, e ∈ evs -> ID e ∈ claim_choice s n (event_queue d).
Proof.
  intros Hret. unfold Claim. destruct (ensureUsable src); [|done]. destruct (n <=? 0).
  { intros [= <-] e He. by apply elem_of_nil in He. }
  destruct (claimQueryFor (DatabaseSchema src)) as [query|] eqn:Eq; [|done].
  unfold claimQueryFor in Eq. peel.
  destruct (transaction s _ _ d) as [[evs'|] d'] eqn:E; cbn; [|done]. intros [= ->].
  apply transaction_Ok in E as (c & E). unfold claim_body, claim_update in E. peel.
  destruct (forallb _ _); [|done]. simplify_eq. case_bool_decide as Hnil; peel; [by intros ? ?%elem_of_nil|].
  unfold readClaimedEvents in *. peel. intros e (id & Hin & He)%list_elem_of_omap.
  rewrite map_lookup_imap in He. cbn in He.
  destruct (event_queue d !! id) as [r|] eqn:Er; rewrite lookup_update_rows, Er in He; cbn in He; [|done].
  rewrite bool_decide_eq_true_2 in He by done. unfold joined_event in He. cbn in He.
  apply fmap_Some in He as (? & _ & ->). cbn. by apply Hret.
Qed.

(** A settlement by the holder of a lease, when nothing fails. *)
Lemma transition_settles src s event delivery change committing d r :
  usable src -> healthy s -> event_queue d !! ID event = Some r -> status r = delivering ->
  leased_by r = Some (LeasedBy src) ->
  int4 (Attempt event) && int4 (HTTPStatus delivery) && int4 (Milliseconds (Duration delivery)) = true ->
  fst (transition src s event delivery change committing d) = Ok tt /\
  event_queue (snd (transition src s event delivery change committing d)) !! ID event = change r.
Proof.
  intros Hu Hs Hr Hst Hl Hint.
  pose proof (transition_healthy src s event delivery change committing d r Hu Hs Hr Hst Hl Hint) as Hok.
  pose proof (transition_sound src s event delivery change committing d) as H.
  destruct (transition src s event delivery change committing d) as [a d']. cbn in *.
  destruct H as (H & _). destruct (H Hok) as (r' & row & Hr' & _ & _ & ->). simplify_eq.
  split; [done|]. cbn. by rewrite lookup_partial_alter_eq.
Qed.

(** C2. A lease is exclusive until it expires: while no sweep runs past it and no operator retries the
    row, nothing other workers do -- claims, settlements of this or other events, reclaims -- changes
    the row; a claim by anyone, whatever of it fails, answers no event of that id and leaves the row as
    it was, provided its RETURNING lists only rows it updated; and with no failure the holder's
    settlement then succeeds, each kind with its effect: an Ack takes the row from the queue, a Nack
    makes it pending again, due after the delay asked for and never a negative one, with no lease, and
    a Dead keeps it as dead with its reason. *)
Theorem lease_is_exclusive id r steps d src s event delivery :
  reachable d -> event_queue d !! id = Some r -> status r = delivering ->
  Forall (leaves_lease id r) steps ->
  event_queue (run steps d) !! id = Some r /\
  (forall other n s', (forall l, returning s' l ⊆ l) ->
     match fst (Claim other s' n (run steps d)) with
     | Ok claimed => forall e, e ∈ claimed -> ID e <> id
     | Err _ => True
     end /\
     event_queue (snd (Claim other s' n (run steps d))) !! id = Some r) /\
  (usable src -> healthy s -> leased_by r = Some (LeasedBy src) -> ID event = id ->
   int4 (Attempt event) && int4 (HTTPStatus delivery) && int4 (Milliseconds (Duration delivery)) = true ->
   (let '(answer, d') := Ack src s event delivery (run steps d) in
    answer = Ok tt /\ event_queue d' !! id = None) /\
   (forall source_now retryAt,
    let '(answer, d') := Nack src s source_now event delivery retryAt (run steps d) in
    answer = Ok tt /\
    event_queue d' !! id =
      Some (QueueRow (occurred_at r) (row_listener r) pending (attempts r)
              (tx_now s + seconds_interval (Z.max 0 (sat64 (retryAt - source_now)))) None None (dead_reason r))) /\
   (forall reason,
    let '(answer, d') := Dead src s event delivery reason (run steps d) in
    answer = Ok tt /\
    event_queue d' !! id =
      Some (QueueRow (occurred_at r) (row_listener r) dead (attempts r) (next_attempt_at r) None None
              (Some (storableText reason))))).
Proof.
  intros Hd Hr Hst Hsteps. pose proof (lease_stays id r steps d Hd Hr Hst Hsteps) as Hkeep.
  split_and!; [done| |].
  - intros other n s' Hret.
    assert (Hnot : id ∉ claim_choice s' n (event_queue (run steps d))).
    { intros (r' & Hr' & (? & _)%claimable_iff)%elem_of_claim_choice. congruence. }
    split.
    + destruct (fst (Claim other s' n (run steps d))) as [claimed|] eqn:E; [|done].
      intros e He <-. by apply Hnot, (Claim_answers_chosen other s' n _ claimed).
    + destruct (Claim_effect other s' n (run steps d)) as [->|[_ ->]]; [done|]. cbn.
      rewrite lookup_update_rows, Hkeep. cbn. by rewrite bool_decide_eq_false_2.
  - intros Hu Hs Hl <- Hint. unfold Ack, Nack, Dead.
    split_and!; [|intros now retryAt; rewrite <- retryDelay_max|intros reason];
      match goal with |- context [transition ?a ?b ?c ?e ?ch ?cm ?t] =>
        pose proof (transition_settles a b c e ch cm t r Hu Hs Hkeep Hst Hl Hint) as Hset;
        destruct (transition a b c e ch cm t) end; exact Hset.
Qed.

(** *** The retry drain *)

(** The rows a batch at [s] would still retry. *)
Definition to_retry (s : session) (args : list argument) (clauses : list clause) (q : gmap Z queue_row) : gset Z :=
  dom (filter (λ p, retriable s args clauses (fst p) (snd p) = true) q).

Lemma elem_of_to_retry s args clauses q id :
  id ∈ to_retry s args clauses q <-> exists r, q !! id = Some r /\ retriable s args clauses id r = true.
Proof. unfold to_retry. rewrite elem_of_dom. split; intros [r H]; exists r; by apply map_lookup_filter_Some in H || apply map_lookup_filter_Some. Qed.

Lemma retry_choice_NoDup s limit wanted q : NoDup (retry_choice s limit wanted q).
Proof. apply (NoDup_choice (λ p, (wanted (fst p) (snd p) && negb (bool_decide (fst p ∈ locked s)))%bool = true)). Qed.

Lemma retry_choice_empty s limit args clauses q :
  locked s = ∅ -> 0 < limit ->
  retry_choice s limit (retriable s args clauses) q = [] -> to_retry s args clauses q = ∅.
Proof.
  intros Hl Hlim H. apply set_eq. intros id. split; [|set_solver]. intros (r & Hr & Hw)%elem_of_to_retry.
  unfold retry_choice in H. apply fmap_nil_inv in H.
  assert (Hin : (id, r) ∈ merge_sort by_id
    (filter (λ p, (retriable s args clauses (fst p) (snd p) && negb (bool_decide (fst p ∈ locked s)))%bool = true)
       (map_to_list q))).
  { rewrite merge_sort_Permutation, list_elem_of_filter, elem_of_map_to_list. cbn. rewrite Hw, Hl.
    by rewrite bool_decide_eq_false_2 by set_solver. }
  revert H Hin. destruct (merge_sort _ _) as [|x l]; [by intros _ ?%not_elem_of_nil|].
  destruct (Z.to_nat limit) eqn:E; [lia|done].
Qed.

Lemma alreadyRetried_mono s s' r : tx_now s <= tx_now s' -> alreadyRetried s r = true -> alreadyRetried s' r = true.
Proof.
  intros Hle H. unfold alreadyRetried in *. apply andb_true_iff in H as [H Ht].
  apply andb_true_iff. split; [done|lia].
Qed.

Definition after_retry (s : session) (chosen : list Z) (d : tables) : tables :=
  with_queue d (update_rows (λ id _, bool_decide (id ∈ chosen)) (retried s) (event_queue d)).

Lemma after_retry_nil s d : after_retry s [] d = d.
Proof.
  unfold after_retry. replace (update_rows _ _ _) with (event_queue d); [apply with_queue_same|].
  apply map_eq. intros id. rewrite lookup_update_rows. by destruct (event_queue d !! id).
Qed.

(** A batch takes its rows out of what the next batch would retry, and puts nothing in. *)
Lemma to_retry_shrinks s s' args clauses chosen d :
  tx_now s <= tx_now s' ->
  to_retry s' args clauses (event_queue (after_retry s chosen d))
    ⊆ to_retry s args clauses (event_queue d) ∖ list_to_set chosen.
Proof.
  intros Hle id (r & Hr & Hw)%elem_of_to_retry. cbn in Hr. rewrite lookup_update_rows in Hr.
  destruct (event_queue d !! id) as [r0|] eqn:E; [|done]. cbn in Hr.
  case_bool_decide as Hin; simplify_eq.
  - exfalso. unfold retriable, alreadyRetried, retried in Hw. cbn in Hw. bool_to_prop.
    rewrite (proj2 (Z.leb_le _ _) Hle) in *. done.
  - apply elem_of_difference. rewrite elem_of_list_to_set. split; [|done].
    apply elem_of_to_retry. exists r. split; [done|]. unfold retriable in *. apply andb_true_iff in Hw as [-> Hw].
    cbn. apply negb_true_iff in Hw. apply negb_true_iff.
    destruct (alreadyRetried s r) eqn:Ea; [|done]. by rewrite (alreadyRetried_mono s s') in Hw.
Qed.

Lemma RetryBatch_healthy src s selector limit d clauses args :
  usable src -> healthy s -> 0 < limit -> selectorPredicate selector 2 true = Ok (clauses, args) ->
  let chosen := retry_choice s limit (retriable s (int_argument limit :: args) clauses) (event_queue d) in
  RetryBatch src s selector limit d = (Ok (length chosen), after_retry s chosen d).
Proof.
  intros Hu Hs Hl Hsel chosen. unfold RetryBatch. rewrite (usable_ensure src Hu), (proj2 (Z.leb_gt _ _) Hl), Hsel.
  rewrite usable_table by done. rewrite healthy_transaction by done. unfold retry_body.
  by rewrite healthy_statement by done.
Qed.

Lemma retry_drain_steps src serving cancelled selector clauses args fuel k d :
  usable src -> (forall i, healthy (serving i) /\ locked (serving i) = ∅ /\ cancelled i = false) ->
  (forall i, tx_now (serving i) <= tx_now (serving (S i))) ->
  selectorPredicate selector 2 true = Ok (clauses, args) ->
  let left_at i d := to_retry (serving i) (int_argument retryBatchLimit :: args) clauses (event_queue d) in
  (size (left_at k d) < fuel)%nat ->
  exists counts d' last, retry_until_none fuel k src serving cancelled selector d = (drained, counts, d') /\
    left_at last d' = ∅ /\
    (forall id, id ∉ left_at k d -> event_queue d' !! id = event_queue d !! id) /\
    (sum_list counts <= size (left_at k d))%nat.
Proof.
  intros Hu Hserve Hclock Hsel left_at. revert k d. induction fuel as [|fuel IH]; intros k d Hf; [lia|].
  cbn [retry_until_none]. destruct (Hserve k) as (Hh & Hlock & Hc).
  rewrite (RetryBatch_healthy src (serving k) selector retryBatchLimit d clauses args Hu Hh ltac:(done) Hsel).
  set (chosen := retry_choice _ _ _ _).
  assert (Hsub : list_to_set chosen ⊆ left_at k d).
  { intros id (r & Hr & Hw & _)%elem_of_list_to_set%elem_of_retry_choice. apply elem_of_to_retry. eauto. }
  destruct chosen as [|x chosen'] eqn:Ech; cbn [length].
  - exists [], (after_retry (serving k) [] d), k.
    rewrite after_retry_nil. split_and!; [done|apply (retry_choice_empty _ retryBatchLimit); done|done|cbn; lia].
  - rewrite <- Ech in *. rewrite Hc.
    pose proof (to_retry_shrinks (serving k) (serving (S k)) (int_argument retryBatchLimit :: args) clauses
                  chosen d (Hclock k)) as Hshrink.
    assert (Hsz : (size (left_at (S k) (after_retry (serving k) chosen d)) + length chosen <= size (left_at k d))%nat).
    { apply subseteq_size in Hshrink. rewrite size_difference in Hshrink by done.
      rewrite size_list_to_set in Hshrink by apply retry_choice_NoDup.
      apply subseteq_size in Hsub. rewrite size_list_to_set in Hsub by apply retry_choice_NoDup.
      fold (left_at (S k) (after_retry (serving k) chosen d)) in Hshrink. fold (left_at k d) in Hshrink. lia. }
    assert (Hlen : length chosen = S (length chosen')) by by rewrite Ech.
    destruct (IH (S k) (after_retry (serving k) chosen d)) as (counts & d' & last & -> & Hlast & Hout & Hsum); [lia|].
    exists (length chosen :: counts), d', last. rewrite <- Hlen. split_and!; [done|done| |cbn; lia].
    intros id Hid. rewrite Hout.
    + cbn. rewrite lookup_update_rows. destruct (event_queue d !! id); [|done]. cbn.
      rewrite bool_decide_eq_false_2; [done|]. intros Hin. apply Hid, Hsub. by apply elem_of_list_to_set.
    + intros Hin. apply Hshrink in Hin. set_solver.
Qed.

(** Draining a retry ends: whatever status the selector names -- "pending" included, which is the
    status a batch assigns -- the loop over batches reaches a batch that retries nothing after at most
    as many batches as there were rows to retry, when no call fails and no row is locked; then no
    selected row is left unretried, every row not to be retried is as it was, and the counts printed
    never exceed the rows there were. *)
Theorem retry_drain_terminates src serving cancelled selector clauses args fuel d :
  usable src -> (forall i, healthy (serving i) /\ locked (serving i) = ∅ /\ cancelled i = false) ->
  (forall i, tx_now (serving i) <= tx_now (serving (S i))) ->
  selectorPredicate selector 2 true = Ok (clauses, args) ->
  let left_at i d := to_retry (serving i) (int_argument retryBatchLimit :: args) clauses (event_queue d) in
  (size (left_at 0%nat d) < fuel)%nat ->
  exists counts d' last, retry_until_none fuel 0 src serving cancelled selector d = (drained, counts, d') /\
    left_at last d' = ∅ /\
    (forall id, id ∉ left_at 0%nat d -> event_queue d' !! id = event_queue d !! id) /\
    (sum_list counts <= size (left_at 0%nat d))%nat.
Proof. intros. by apply retry_drain_steps. Qed.

(** *** Observation *)

Definition rows_with (P : queue_row -> bool) (q : gmap Z queue_row) : Z :=
  Z.of_nat (count_rows (λ _, P) q).

Definition grow (p : Z * queue_row) (groups : gmap (gostring * queue_status) (Z * Z)) :=
  partial_alter (λ found, Some match found with
                               | Some (depth, oldest) => (depth + 1, Z.min oldest (occurred_at (snd p)))
                               | None => (1, occurred_at (snd p))
                               end) (row_listener (snd p), status (snd p)) groups.

Lemma depth_of_delete st groups k v :
  groups !! k = Some v ->
  depth_of st groups = (if bool_decide (snd k = st) then fst v else 0) + depth_of st (delete k groups).
Proof.
  intros H. unfold depth_of.
  rewrite <- (insert_delete_id groups k v) at 1 by done.
  rewrite map_fold_insert_L; [done| |by rewrite lookup_delete_eq]. intros. lia.
Qed.

Lemma depth_of_grow st p groups :
  depth_of st (grow p groups) = depth_of st groups + (if bool_decide (status (snd p) = st) then 1 else 0).
Proof.
  unfold grow. set (k := (row_listener (snd p), status (snd p))).
  destruct (groups !! k) as [[depth oldest]|] eqn:E.
  - erewrite (depth_of_delete st (partial_alter _ _ _)) by (rewrite lookup_partial_alter_eq, E; done).
    rewrite (depth_of_delete st groups _ _ E), delete_partial_alter_eq. cbn. case_bool_decide; lia.
  - erewrite (depth_of_delete st (partial_alter _ _ _)) by (rewrite lookup_partial_alter_eq, E; done).
    rewrite delete_partial_alter_eq. rewrite (delete_id groups) by done. cbn. case_bool_decide; lia.
Qed.

Lemma dead_by_listener_lookup groups l :
  dead_by_listener groups !! l = fst <$> groups !! (l, dead).
Proof.
  unfold dead_by_listener. apply (map_fold_weak_ind (λ m groups, m !! l = fst <$> groups !! (l, dead))).
  - by rewrite !lookup_empty.
  - intros [l' st] v m r Hm IH. cbn. case_bool_decide as Hst; cbn in Hst.
    + subst st. destruct (decide (l' = l)) as [->|Hne].
      * by rewrite !lookup_insert_eq.
      * rewrite !lookup_insert_ne by congruence. done.
    + rewrite lookup_insert_ne by congruence. done.
Qed.

Lemma groups_lookup (L : list (Z * queue_row)) l st :
  fst <$> foldr grow ∅ L !! (l, st) =
  let n := length (filter (λ p, (bool_decide (row_listener (snd p) = l) && bool_decide (status (snd p) = st))%bool = true) L) in
  if (n =? 0)%nat then None else Some (Z.of_nat n).
Proof.
  induction L as [|p L IH]; [done|]. cbn [foldr]. unfold grow at 1. cbn zeta in *.
  destruct (decide ((row_listener (snd p), status (snd p)) = (l, st))) as [E|E].
  - injection E as <- <-. rewrite lookup_partial_alter_eq.
    rewrite filter_cons_True by (by rewrite !bool_decide_eq_true_2). cbn [length fmap option_fmap option_map].
    revert IH. destruct (foldr grow ∅ L !! _) as [[depth oldest]|]; cbn; destruct (length _); intros [=]; subst; cbn; f_equal; lia.
  - rewrite lookup_partial_alter_ne by done. rewrite filter_cons_False; [done|].
    intros H. apply E. bool_to_prop. congruence.
Qed.

Lemma depth_of_groups st (L : list (Z * queue_row)) :
  depth_of st (foldr grow ∅ L) = Z.of_nat (length (filter (λ p, bool_decide (status (snd p) = st) = true) L)).
Proof.
  induction L as [|p L IH]; [done|]. cbn [foldr]. rewrite depth_of_grow, IH. rewrite filter_cons.
  destruct (bool_decide (status p.2 = st)), (decide _); try done; cbn [length]; lia.
Qed.

(** An observation counts what is there: each depth is the number of rows in that status, and a
    listener has a dead count exactly when it has dead rows, equal to their number. *)
Theorem ObserveQueue_counts age_duration src s d o :
  ObserveQueue age_duration src s d = Ok o ->
  Pending o = rows_with (λ r, bool_decide (status r = pending)) (event_queue d) /\
  Delivering o = rows_with (λ r, bool_decide (status r = delivering)) (event_queue d) /\
  DeadCount o = rows_with (λ r, bool_decide (status r = dead)) (event_queue d) /\
  (forall l, default 0 (DeadByListener o !! l) =
     rows_with (λ r, bool_decide (row_listener r = l) && bool_decide (status r = dead)) (event_queue d)) /\
  (forall l n, DeadByListener o !! l = Some n -> 0 < n).
Proof.
  unfold ObserveQueue. intros H. peel. cbn.
  change (queue_groups (event_queue d)) with (foldr grow ∅ (map_to_list (event_queue d))).
  unfold rows_with, count_rows. split_and!; [apply depth_of_groups..| |].
  - intros l. rewrite dead_by_listener_lookup, groups_lookup. cbn zeta.
    destruct (length _); done.
  - intros l n. rewrite dead_by_listener_lookup, groups_lookup. cbn zeta.
    destruct (length _); cbn; [done|]. intros [= <-]. lia.
Qed.

End adapter.

(** ** The properties at concrete inputs *)

Definition quiet (t : Z) : session :=
  {| tx_now := t; clock_timestamp := t; locked := ∅; returning := id; fails := λ _, false;
     lost_commit_applied := false |}.
Definition worker (name : gostring) : TriggerSource :=
  {| closed := false; pool := true; DatabaseSchema := bs "noty"; LeasedBy := name; Lease := 30 |}.
Definition orders : action := Enqueue (bs "orders") (bs "public.orders") (bs "insert") (bs "{}") 7 true.

Notation step a s d := (perform documented_Sanitize id id a s d) (only parsing).

(** Two events are captured; the first worker then claims one of them. *)
Definition captured : tables := step orders (quiet 1) (step orders (quiet 0) (Tables ∅ ∅ ∅ 1)).
Definition leased_one : tables := step (DoClaim (worker (bs "a")) 1) (quiet 5) captured.
Definition no_event : Event :=
  {| ID := 1; Listener := []; Operation := []; OccurredAt := 0; Table := []; TXID := 0; Payload := []; Attempt := 1 |}.
Definition ok_delivery : Delivery := {| HTTPStatus := 200; Snippet := bs "ok"; DeliveryErr := []; Duration := 3000000 |}.

Lemma captured_reachable : reachable documented_Sanitize id id captured.
Proof. repeat constructor. Qed.
Lemma leased_one_reachable : reachable documented_Sanitize id id leased_one.
Proof. apply reachable_step, captured_reachable. Qed.
Lemma worker_usable name : usable (worker name).
Proof. by split. Qed.
Lemma quiet_healthy t : healthy (quiet t).
Proof. by split. Qed.

Lemma Claim_takes_earliest_witness :
  exists evs, fst (Claim documented_Sanitize id (worker (bs "a")) (quiet 5) 1 captured) = Ok evs /\
    map (λ e, (ID e, Attempt e)) evs = [(1, 1)].
Proof.
  destruct (Claim_takes_earliest documented_Sanitize id id (worker (bs "a")) (quiet 5) 1 captured)
    as (evs & taken & He & _).
  - apply captured_reachable.
  - apply worker_usable.
  - apply quiet_healthy.
  - lia.
  - intros i r Hr _. revert i r Hr. change (map_Forall (λ _ r, attempts r < max_int4) (event_queue captured)).
    by_compute.
  - exists evs. split; [by rewrite He|]. apply (f_equal fst) in He. vm_compute in He. injection He as <-. done.
Defined.

Lemma queue_invariant_witness :
  exists r, event_queue leased_one !! 1 = Some r /\ 1 <= attempts r.
Proof.
  destruct (event_queue leased_one !! 1) as [r|] eqn:E; [|by vm_compute in E].
  exists r. split; [done|].
  destruct (queue_invariant documented_Sanitize id id leased_one leased_one_reachable 1 r E) as (_ & _ & H & _).
  apply H. vm_compute in E. injection E as <-. done.
Defined.

(** The first worker's claim found row 1 pending and due; its lease, until 35, survives a sweep at 35
    and not one at 36. *)
Lemma queue_status_machine_witness :
  (exists r, event_queue captured !! 1 = Some r /\ status r = pending /\ next_attempt_at r <= 5) /\
  event_queue (step (DoReclaim (worker (bs "b"))) (quiet 35) leased_one) !! 1 = event_queue leased_one !! 1 /\
  (exists r, event_queue (step (DoReclaim (worker (bs "b"))) (quiet 36) leased_one) !! 1 = Some r /\
     status r = pending /\ leased_by r = None) /\
  fst (ReclaimExpired documented_Sanitize (worker (bs "b")) (quiet 36) leased_one) = Ok 1%nat.
Proof.
  split; [|split; [|split]].
  - destruct (queue_status_machine documented_Sanitize id id captured (DoClaim (worker (bs "a")) 1) (quiet 5) 1
      captured_reachable) as (Hm & _).
    destruct (event_queue captured !! 1) as [r|] eqn:E; [|by vm_compute in E].
    exists r. split; [done|].
    destruct (event_queue (step (DoClaim (worker (bs "a")) 1) (quiet 5) captured) !! 1) as [r'|] eqn:E';
      [|by vm_compute in E'].
    inversion Hm; subst; try congruence; try done. vm_compute in E, E'. congruence.
  - destruct (queue_status_machine documented_Sanitize id id leased_one (DoReclaim (worker (bs "b"))) (quiet 35) 1
      leased_one_reachable) as (Hm & _).
    inversion Hm as [| | | | | |src until r _ Hst Hu Hlt Hr|]; try done; try congruence.
  - destruct (event_queue leased_one !! 1) as [r|] eqn:E; [|by vm_compute in E].
    destruct (queue_status_machine documented_Sanitize id id leased_one (DoReclaim (worker (bs "b"))) (quiet 36) 1
      leased_one_reachable) as (_ & _ & Hs & _).
    rewrite (Hs (worker (bs "b")) r 35); [by eexists|done|apply worker_usable|apply quiet_healthy|done|..];
      vm_compute in E; injection E as <-; done.
  - destruct (queue_status_machine documented_Sanitize id id leased_one (DoReclaim (worker (bs "b"))) (quiet 36) 1
      leased_one_reachable) as (_ & _ & _ & Hc).
    destruct (fst (ReclaimExpired documented_Sanitize (worker (bs "b")) (quiet 36) leased_one)) as [count|] eqn:E;
      [|by vm_compute in E].
    by rewrite (Hc _ _ E).
Defined.

Lemma event_log_append_only_witness :
  events captured ⊆ events (run documented_Sanitize id id
    [(DoClaim (worker (bs "a")) 1, quiet 5); (DoAck (worker (bs "a")) no_event ok_delivery, quiet 9)] captured).
Proof. apply (event_log_append_only documented_Sanitize id id captured _ captured_reachable). Defined.

(** A second worker's claim at 10 answers only the other event, and the holder's settlement succeeds. *)
Lemma lease_is_exclusive_witness :
  let d := run documented_Sanitize id id
       [(DoClaim (worker (bs "b")) 5, quiet 10); (DoReclaim (worker (bs "b")), quiet 12)] leased_one in
  (exists claimed, fst (Claim documented_Sanitize id (worker (bs "c")) (quiet 14) 5 d) = Ok claimed /\
     forall e, e ∈ claimed -> ID e <> 1) /\
  fst (Ack documented_Sanitize (worker (bs "a")) (quiet 20) no_event ok_delivery d) = Ok tt /\
  fst (Nack documented_Sanitize id (worker (bs "a")) (quiet 20) 20 no_event ok_delivery 60 d) = Ok tt /\
  fst (Dead documented_Sanitize (worker (bs "a")) (quiet 20) no_event ok_delivery (bs "gone") d) = Ok tt.
Proof.
  destruct (event_queue leased_one !! 1) as [r|] eqn:E; [|by vm_compute in E].
  destruct (lease_is_exclusive documented_Sanitize id id 1 r
    [(DoClaim (worker (bs "b")) 5, quiet 10); (DoReclaim (worker (bs "b")), quiet 12)] leased_one
    (worker (bs "a")) (quiet 20) no_event ok_delivery leased_one_reachable E) as (_ & Hc & H);
    try (vm_compute in E; injection E as <-).
  - done.
  - repeat constructor. exists 35. by_compute.
  - cbn zeta. split.
    + destruct (Hc (worker (bs "c")) 5 (quiet 14)) as [Hc' _]; [done|]. revert Hc'.
      destruct (fst (Claim _ _ _ _ _ _)) as [claimed|] eqn:Ec; [|by vm_compute in Ec]. eauto.
    + destruct H as (Ha & Hn & Hd); [done..|]. specialize (Hn 20 60). specialize (Hd (bs "gone")).
      destruct (Ack _ _ _ _ _ _), (Nack _ _ _ _ _ _ _ _ _), (Dead _ _ _ _ _ _ _). split_and!; [apply Ha|apply Hn|apply Hd].
Defined.

Definition pending_orders : QueueSelector :=
  {| SelID := None; SelListener := bs "orders"; SelStatus := bs "pending" |}.
Definition delivering_orders : QueueSelector :=
  {| SelID := None; SelListener := bs "orders"; SelStatus := bs "delivering" |}.

Lemma retry_drain_terminates_witness :
  exists counts d' , retry_until_none documented_Sanitize 5 0 (worker (bs "a")) (λ i, quiet (Z.of_nat i))
    (λ _, false) delivering_orders leased_one = (drained, counts, d').
Proof.
  destruct (retry_drain_terminates documented_Sanitize (worker (bs "a")) (λ i, quiet (Z.of_nat i)) (λ _, false)
    delivering_orders [Clause listener_column 2; Clause status_column 3]
    [text_argument (bs "orders"); text_argument (bs "delivering")] 5 leased_one) as (counts & d' & last & H & _).
  - apply worker_usable.
  - intros i. split_and!; [apply quiet_healthy|done..].
  - intros i. cbn. lia.
  - done.
  - vm_compute. lia.
  - by exists counts, d'.
Defined.

Lemma ObserveQueue_counts_witness :
  exists o, ObserveQueue documented_Sanitize id (worker (bs "a")) (quiet 9) leased_one = Ok o /\ Delivering o = 1.
Proof.
  destruct (ObserveQueue documented_Sanitize id (worker (bs "a")) (quiet 9) leased_one) as [o|e] eqn:E;
    [|by vm_compute in E].
  exists o. split; [done|]. destruct (ObserveQueue_counts _ _ _ _ _ _ E) as (_ & -> & _). by vm_compute.
Defined.

(** The guard of a settlement is the lease's owner, not the attempt: after an expired lease is
    reclaimed and claimed again by the same owner, the late acknowledgement of the first attempt is
    accepted and removes the row the second attempt holds. *)
Lemma late_ack_settles_a_newer_claim :
  let again := step (DoClaim (worker (bs "a")) 1) (quiet 41) (step (DoReclaim (worker (bs "a"))) (quiet 40) leased_one) in
  (attempts <$> event_queue again !! 1) = Some 2 /\
  fst (Ack documented_Sanitize (worker (bs "a")) (quiet 42) no_event ok_delivery again) = Ok tt /\
  event_queue (snd (Ack documented_Sanitize (worker (bs "a")) (quiet 42) no_event ok_delivery again)) !! 1 = None.
Proof. by vm_compute. Qed.
