(* ===== verification/Envelope.v ===== *)
(** * The webhook body

    [internal/delivery]'s envelope.go over [encoding/json]'s string encoder: the body a receiver is
    sent, and a reader of it. [json.Valid] and the layout of [time.Format] are parameters. *)

From S2P Require Import Prelude Utf8 Signing Quote Queue.

Local Open Scope Z_scope.

(** ** [encoding/json.Marshal] of a string

    HTML escaping is on, an encoding error becomes U+FFFD, and U+2028 and U+2029 are escaped. *)

Definition json_hex4 (r : Z) : gostring :=
  map (λ k, Signing.hex_digit (Z.land (Z.shiftr r k) 15)) [12; 8; 4; 0].

Definition json_rune (r : Z) (w : nat) : gostring :=
  if (r =? RuneError) && (w <=? 1)%nat then bs "\ufffd"
  else if r <? 128 then
    if (r =? 34) || (r =? 92) then [backslash; byte_of r]
    else if r =? 8 then bs "\b"
    else if r =? 12 then bs "\f"
    else if r =? 10 then bs "\n"
    else if r =? 13 then bs "\r"
    else if r =? 9 then bs "\t"
    else if (r <? 32) || (r =? 60) || (r =? 62) || (r =? 38) then bs "\u" ++ json_hex4 r
    else [byte_of r]
  else if (r =? 8232) || (r =? 8233) then bs "\u" ++ json_hex4 r
  else EncodeRune r.

Definition json_body (s : gostring) : gostring :=
  over_runes (λ r w rest, json_rune r w ++ rest) [] (length s) s.

Definition writeJSONString (value : gostring) : gostring := dquote :: json_body value ++ [dquote].

(** ** [BuildEnvelope] *)

(** A fragment of JSON text of the source, its double quotes written as apostrophes. *)
Definition json_text (s : string) : gostring := replace_byte squote [dquote] (bs s).
#[global] Arguments json_text _%_string : simpl never.

Inductive envelope_error := not_qualified | payload_empty | payload_invalid.

(** [error.Error()]; [quoted] is [fmt]'s %q. *)
Definition envelope_error_text (quoted : gostring -> gostring) (table : gostring) (e : envelope_error) : gostring :=
  match e with
  | not_qualified => bs "event table is not a quoted qualified name: " ++ quoted table
  | payload_empty => bs "event payload is empty"
  | payload_invalid => bs "event payload is not valid JSON"
  end.

Section envelope.
Context (json_Valid : gostring -> bool).
(** [value.UTC().Format("2006-01-02T15:04:05.000000Z07:00")] *)
Context (occurredAt : Z -> gostring).

Definition BuildEnvelope (event : Event) : result envelope_error gostring :=
  match SplitQualified (Table event) with
  | None => Err not_qualified
  | Some (schemaName, tableName) =>
      if bool_decide (Payload event = []) then Err payload_empty
      else if negb (json_Valid (Payload event)) then Err payload_invalid
      else Ok (json_text "{'pg_noty':'1','id':" ++ format_int (ID event) ++
               json_text ",'listener':" ++ writeJSONString (Listener event) ++
               json_text ",'table':{'schema':" ++ writeJSONString schemaName ++
               json_text ",'name':" ++ writeJSONString tableName ++
               json_text "},'op':" ++ writeJSONString (Operation event) ++
               json_text ",'occurred_at':" ++ writeJSONString (occurredAt (OccurredAt event)) ++
               json_text ",'txid':" ++ format_int (TXID event) ++
               json_text ",'data':" ++ Payload event ++ bs "}")
  end.
End envelope.

(** ** A reader *)

Definition json_escape (c : ascii) : option gostring :=
  if bool_decide (c = dquote) || bool_decide (c = backslash) || bool_decide (c = "/"%char) then Some [c]
  else if bool_decide (c = "b"%char) then Some [byte_of 8]
  else if bool_decide (c = "f"%char) then Some [byte_of 12]
  else if bool_decide (c = "n"%char) then Some [byte_of 10]
  else if bool_decide (c = "r"%char) then Some [byte_of 13]
  else if bool_decide (c = "t"%char) then Some [byte_of 9]
  else None.

Definition json_hex (a b c d : ascii) : option Z :=
  match from_hex_digit a, from_hex_digit b, from_hex_digit c, from_hex_digit d with
  | Some a, Some b, Some c, Some d => Some (4096 * a + 256 * b + 16 * c + d)
  | _, _, _, _ => None
  end.

Definition prepend (p : gostring) (o : option (gostring * gostring)) : option (gostring * gostring) :=
  (λ x, (p ++ fst x, snd x)) <$> o.

(** The value of a JSON string past its opening quote, and the text past its closing one. *)
Fixpoint json_value (s : gostring) : option (gostring * gostring) :=
  match s with
  | [] => None
  | c :: t =>
      if bool_decide (c = dquote) then Some ([], t)
      else if code c <? 32 then None
      else if bool_decide (c = backslash) then
        match t with
        | [] => None
        | e :: t =>
            if bool_decide (e = "u"%char) then
              match t with
              | a :: b :: c :: d :: t =>
                  match json_hex a b c d with
                  | Some r => prepend (EncodeRune r) (json_value t)
                  | None => None
                  end
              | _ => None
              end
            else match json_escape e with Some x => prepend x (json_value t) | None => None end
        end
      else prepend [c] (json_value t)
  end.

Definition read_string (s : gostring) : option (gostring * gostring) :=
  match s with
  | c :: t => if bool_decide (c = dquote) then json_value t else None
  | [] => None
  end.

(** The text of a number: the bytes up to the next comma. *)
Fixpoint read_number (s : gostring) : gostring * gostring :=
  match s with
  | c :: t => if bool_decide (c = ","%char) then ([], s)
              else let '(n, rest) := read_number t in (c :: n, rest)
  | [] => ([], [])
  end.

Record envelope := Envelope {
  env_id : gostring;
  env_listener : gostring;
  env_schema : gostring;
  env_table : gostring;
  env_op : gostring;
  env_occurred_at : gostring;
  env_txid : gostring;
  env_data : gostring
}.

(** What a receiver reads: each member in its place, the data being all that is left but the last brace. *)
Definition read_envelope (s : gostring) : option envelope :=
  s ← cut_prefix s (json_text "{'pg_noty':'1','id':");
  let '(id, s) := read_number s in
  s ← cut_prefix s (json_text ",'listener':");
  '(listener, s) ← read_string s;
  s ← cut_prefix s (json_text ",'table':{'schema':");
  '(schema, s) ← read_string s;
  s ← cut_prefix s (json_text ",'name':");
  '(table, s) ← read_string s;
  s ← cut_prefix s (json_text "},'op':");
  '(op, s) ← read_string s;
  s ← cut_prefix s (json_text ",'occurred_at':");
  '(at_, s) ← read_string s;
  s ← cut_prefix s (json_text ",'txid':");
  let '(txid, s) := read_number s in
  s ← cut_prefix s (json_text ",'data':");
  data ← cut_suffix s (bs "}");
  Some (Envelope id listener schema table op at_ txid data).

(** ** The encoder and the reader *)

Lemma prepend_prepend a b o : prepend a (prepend b o) = prepend (a ++ b) o.
Proof. destruct o as [[]|]; [|done]. cbn. by rewrite app_assoc. Qed.

Lemma prepend_nil o : prepend [] o = o.
Proof. by destruct o as [[]|]. Qed.

Lemma json_rune_ascii c t :
  code c < 128 -> json_value (json_rune (code c) 1 ++ t) = prepend [c] (json_value t).
Proof.
  intros Hc. destruct c as [[] [] [] [] [] [] [] []]; try (exfalso; revert Hc; vm_compute; discriminate);
    reflexivity.
Qed.

Lemma json_value_high seq t :
  Forall (λ c, 128 <= code c) seq -> json_value (seq ++ t) = prepend seq (json_value t).
Proof.
  induction 1 as [|c seq Hc _ IH]; [by rewrite prepend_nil|]. cbn [app json_value].
  rewrite bool_decide_eq_false_2 by (intros ->; revert Hc; vm_compute; by intros []).
  rewrite (proj2 (Z.ltb_ge _ _)) by lia.
  rewrite bool_decide_eq_false_2 by (intros ->; revert Hc; vm_compute; by intros []).
  rewrite IH. apply (prepend_prepend [c]).
Qed.

Lemma json_rune_reads_back seq r t :
  encodes seq r -> json_value (json_rune r (length seq) ++ t) = prepend seq (json_value t).
Proof.
  intros He. destruct (decide (r < 128)) as [Hr|Hr].
  - destruct He as [c Hc|b0 b1|b0 b1 b2 H0 H1 H2|b0 b1 b2 b3 H0 H1 H2 H3]; [by apply json_rune_ascii|lia|..];
      exfalso; revert Hr H1; unfold second_low; cases_Z; lia.
  - unfold json_rune. rewrite (encodes_no_error _ _ He), (proj2 (Z.ltb_ge _ _)) by lia.
    destruct ((r =? 8232) || (r =? 8233)) eqn:E.
    + rewrite <- (EncodeRune_encodes _ _ He). apply orb_true_iff in E as [->%Z.eqb_eq| ->%Z.eqb_eq]; reflexivity.
    + rewrite (EncodeRune_encodes _ _ He). apply json_value_high.
      destruct He as [c Hc|b0 b1|b0 b1 b2|b0 b1 b2 b3]; try lia;
        try (pose proof (second_low_bounds (code b0))); repeat constructor; lia.
Qed.

Lemma json_body_reads_back s t :
  ValidString s = true -> json_value (json_body s ++ t) = prepend s (json_value t).
Proof.
  unfold json_body. induction s as [|seq r u He IH|b u Hd IH] using rune_ind; intros Hv.
  - by rewrite prepend_nil.
  - rewrite (over_runes_seq _ _ _ _ _ He), <- app_assoc, (json_rune_reads_back _ _ _ He).
    rewrite (ValidString_seq _ _ _ He) in Hv. rewrite IH by done. apply prepend_prepend.
  - by rewrite (ValidString_error _ _ Hd) in Hv.
Qed.

Lemma read_written_string s t : ValidString s = true -> read_string (writeJSONString s ++ t) = Some (s, t).
Proof.
  intros Hv. unfold writeJSONString. cbn [app read_string]. rewrite bool_decide_eq_true_2 by done.
  rewrite <- app_assoc, json_body_reads_back by done.
  cbn [app json_value]. rewrite bool_decide_eq_true_2 by done. unfold prepend. cbn. by rewrite app_nil_r.
Qed.

Lemma read_number_app n t : ","%char ∉ n -> head t = Some ","%char -> read_number (n ++ t) = (n, t).
Proof.
  intros Hn Ht. induction n as [|c n IH]; cbn.
  - destruct t as [|c t]; [done|]. cbn in *. by rewrite bool_decide_eq_true_2 by congruence.
  - apply not_elem_of_cons in Hn as [Hc Hn]. rewrite bool_decide_eq_false_2 by congruence.
    by rewrite IH.
Qed.

Lemma no_comma z : ","%char ∉ format_int z.
Proof.
  intros H. pose proof (format_int_bytes z) as Hall. rewrite Forall_forall in Hall.
  by destruct (Hall _ H) as [?|?].
Qed.

Section receiver.
Context (json_Valid : gostring -> bool) (occurredAt : Z -> gostring).
(** The layout writes digits and ASCII punctuation. *)
Hypothesis occurredAt_text : forall t, ValidString (occurredAt t) = true.

(** C21. A receiver reads back exactly what was captured: the envelope of an event whose names are
    UTF-8 parses, member by member, to the event's id, listener, table, operation, instant and
    transaction -- no value can end its string early or add a member -- and its data is the stored
    payload byte for byte. An envelope is refused exactly for a table that is no qualified name, an
    empty payload or one that is not JSON. *)
Theorem envelope_reads_back event :
  match BuildEnvelope json_Valid occurredAt event with
  | Ok body =>
      exists schema table, SplitQualified (Table event) = Some (schema, table) /\
        json_Valid (Payload event) = true /\
        (ValidString (Listener event) = true -> ValidString (Operation event) = true ->
         ValidString schema = true -> ValidString table = true ->
         read_envelope body =
           Some (Envelope (format_int (ID event)) (Listener event) schema table (Operation event)
                   (occurredAt (OccurredAt event)) (format_int (TXID event)) (Payload event)))
  | Err not_qualified => SplitQualified (Table event) = None
  | Err payload_empty => Payload event = []
  | Err payload_invalid => Payload event <> [] /\ json_Valid (Payload event) = false
  end.
Proof.
  unfold BuildEnvelope. destruct (SplitQualified (Table event)) as [[schema table]|]; [|done].
  case_bool_decide; [done|]. destruct (json_Valid (Payload event)) eqn:Ej; [|done]. cbn [negb].
  exists schema, table. split_and!; [done..|]. intros Hl Ho Hs Ht. unfold read_envelope.
  rewrite cut_prefix_app. cbn [mbind option_bind].
  rewrite (read_number_app (format_int (ID event))) by (done || apply no_comma).
  repeat (rewrite cut_prefix_app; cbn [mbind option_bind]; rewrite read_written_string by done;
          cbn [mbind option_bind]).
  rewrite cut_prefix_app; cbn [mbind option_bind].
  rewrite (read_number_app (format_int (TXID event))) by (done || apply no_comma).
  rewrite cut_prefix_app; cbn [mbind option_bind]. by rewrite cut_suffix_app.
Qed.
End receiver.

Definition sample_event : Event :=
  {| ID := 42; Listener := bs "orders"; Operation := bs "insert"; OccurredAt := 0;
     Table := spelled_pair (bs "public") [dquote; "o"%char]; TXID := 7; Payload := bs "{}"; Attempt := 1 |}.

Lemma envelope_reads_back_witness :
  exists body, BuildEnvelope (λ _, true) (λ _, bs "1970-01-01T00:00:00.000000Z") sample_event = Ok body /\
    (env_table <$> read_envelope body) = Some [dquote; "o"%char].
Proof.
  pose proof (envelope_reads_back (λ _, true) (λ _, bs "1970-01-01T00:00:00.000000Z") (λ _, eq_refl) sample_event) as H.
  destruct (BuildEnvelope _ _ _) as [body|e] eqn:E; [|by vm_compute in E].
  exists body. split; [done|]. destruct H as (schema & table & Hsp & _ & Hr).
  assert (schema = bs "public" /\ table = [dquote; "o"%char]) as [-> ->] by (vm_compute in Hsp; by injection Hsp as <- <-).
  by rewrite Hr.
Defined.
