(* ===== verification/Deliver.v ===== *)
(** * One delivery attempt

    [internal/delivery]'s ports.go, client.go, record.go and the delivery of dispatch.go: the request
    built for an event, what is read of the answer, how the attempt is classified and the one
    transition of the source it ends in. The HTTP client, [http.NewRequest]'s acceptance of a method
    and URL, header canonicalisation and [http.ParseTime] are parameters. *)

From S2P Require Import Prelude Policy Signing Queue Envelope.

Local Open Scope Z_scope.

(** ** The request *)

Record ListenerConfig := {
  Name : gostring;
  URL : gostring;
  Method : gostring;
  (** In the order a range over the map visits them. *)
  Headers : list (gostring * gostring);
  Signer_ : Signer;
  Policy_ : Policy;
  Concurrency : Z;
  MaxPayloadBytes : Z;
  (** Whether the listener has an HTTP client: its own, or the one built for its URL. *)
  Client : bool
}.

Record request := {
  req_method : gostring;
  req_url : gostring;
  req_header : gmap gostring gostring;
  req_body : gostring
}.

(** ** The answer *)

(** A body: the bytes it yields, the error reading meets after them, if any, and the error of Close. *)
Record response_body := {
  body_bytes : gostring;
  read_error : option gostring;
  close_error : option gostring
}.

Record response := {
  StatusCode : Z;
  RetryAfterHeader : gostring;
  Body : option response_body
}.

(** [io.LimitReader] stops at its limit without reading further, so an error behind it is met by the
    drain instead. *)
Definition DrainResponseBody (resp : option response) (maxSnippet : Z) : gostring * option gostring :=
  match resp ≫= Body with
  | None => ([], Some (bs "response has no body"))
  | Some body =>
      let limit := Z.to_nat (if maxSnippet <? 0 then 0 else maxSnippet) in
      let snippet := take limit (body_bytes body) in
      let readErr := if (length (body_bytes body) <? limit)%nat then read_error body else None in
      let drainErr := if (length (body_bytes body) <? limit)%nat then None else read_error body in
      match readErr, drainErr with
      | Some e, _ => (snippet, Some e)
      | None, Some e => (snippet, Some e)
      | None, None => (snippet, close_error body)
      end
  end.

Definition responseStatus (resp : option response) : Z :=
  match resp with Some r => StatusCode r | None => 0 end.

(** ** The transition an attempt ends in *)

Inductive settlement :=
  | settleAck (d : Delivery)
  | settleNack (d : Delivery) (retryAt : Z)
  | settleDead (d : Delivery) (reason : gostring).

Definition settled_delivery (s : settlement) : Delivery :=
  match s with settleAck d | settleNack d _ | settleDead d _ => d end.

Definition deliveryError (d : Delivery) : option gostring :=
  if bool_decide (DeliveryErr d = []) then None else Some (DeliveryErr d).

Definition classifyAttempt (event : Event) (policy : Policy) (resp : option response) (d : Delivery) : Outcome :=
  let outcome := ClassifyError (deliveryError d) in
  let outcome := match resp with
                 | Some r => if bool_decide (DeliveryErr d = []) then ClassifyStatus (StatusCode r) else outcome
                 | None => outcome
                 end in
  if bool_decide (outcome = OutcomeRetryable) && negb (ShouldRetry policy (Attempt event) outcome)
  then OutcomeTerminal else outcome.

(** [swallowLateClaim]: a settlement that came too late is no error. *)
Definition swallowLateClaim (answer : result source_error unit) : option source_error :=
  match answer with
  | Ok _ | Err ErrEventNotClaimed => None
  | Err e => Some e
  end.

Section attempt.
(** [net/textproto.CanonicalMIMEHeaderKey], [http.NewRequestWithContext]'s refusals, [http.ParseTime],
    the signature's HMAC, and [json.Valid] and the time layout of the envelope. *)
Context (canonical : gostring -> gostring).
Context (request_refused : gostring -> gostring -> option gostring).
Context (ParseTime : gostring -> option Z).
Context (hmac : gostring -> gostring -> gostring).
Context (json_Valid : gostring -> bool) (occurredAt : Z -> gostring) (quoted : gostring -> gostring).

Definition set_header (h : gmap gostring gostring) (nv : gostring * gostring) : gmap gostring gostring :=
  <[canonical (fst nv) := snd nv]> h.

(** [time.Unix] of a nanosecond count. *)
Definition Unix (t : Z) : Z := t / second.

Definition buildRequest (listener : ListenerConfig) (event : Event) (body : gostring) (now : Z) :
    result gostring request :=
  let method := if bool_decide (Method listener = []) then bs "POST" else Method listener in
  match request_refused method (URL listener) with
  | Some e => Err e
  | None =>
      let h := foldl set_header ∅ (Headers listener) in
      let h := set_header h (bs "X-Pg-Noty-Event-Id", format_int (ID event)) in
      let h := set_header h (bs "X-Pg-Noty-Timestamp", format_int (Unix now)) in
      let h := set_header h (bs "X-Pg-Noty-Attempt", format_int (Attempt event)) in
      let signed := Signer_Header hmac (Signer_ listener) (Unix now) body in
      let h := if bool_decide (signed = []) then h else set_header h (bs "X-Pg-Noty-Signature", signed) in
      Ok {| req_method := method; req_url := URL listener; req_header := h; req_body := body |}
  end.

(** What the client makes of a request: an error, or a response whose body is still to be read. *)
Definition http_client := request -> result gostring response.

Definition doRequest (client : option http_client) (req : request) :
    option response * gostring * option gostring :=
  match client with
  | None => (None, [], Some (bs "listener has no HTTP client"))
  | Some do_ =>
      match do_ req with
      | Err e => (None, [], Some e)
      | Ok resp =>
          let '(snippet, readErr) := DrainResponseBody (Some resp) (Z.of_nat maxSnippetBytes) in
          (Some resp, snippet, readErr)
      end
  end.

Definition recordResult (event : Event) (policy : Policy) (resp : option response) (d : Delivery)
    (clockNow : Z) (jitter : option JitterFunc) : settlement :=
  let d := {| HTTPStatus := HTTPStatus d; Snippet := TruncateSnippet (Snippet d);
              DeliveryErr := DeliveryErr d; Duration := Duration d |} in
  match classifyAttempt event policy resp d with
  | OutcomeSuccess => settleAck d
  | OutcomeRetryable =>
      let retryAfter := match resp with
                        | Some r => default 0 (ParseRetryAfter ParseTime (RetryAfterHeader r) clockNow)
                        | None => 0
                        end in
      settleNack d (clockNow + DelayAfter policy (Attempt event) retryAfter jitter)
  | OutcomeTerminal =>
      let reason :=
        if negb (bool_decide (DeliveryErr d = [])) then DeliveryErr d
        else if (300 <=? HTTPStatus d) && (HTTPStatus d <=? 399)
        then bs "HTTP redirect status " ++ format_int (HTTPStatus d)
        else bs "HTTP status " ++ format_int (HTTPStatus d) in
      settleDead d reason
  end.

(** The clock readings of one delivery: when it starts, when the request is stamped, when the answer
    is in and when a retry is scheduled. *)
Record readings := { started : Z; stamped : Z; finished : Z; scheduled : Z }.

Record DispatchResult := {
  res_request : option request;
  res_status : Z;
  res_outcome : Outcome;
  res_snippet : gostring;
  res_err : option gostring
}.

Definition refused_before_sending (t : readings) (reason : gostring) : DispatchResult * settlement :=
  ({| res_request := None; res_status := 0; res_outcome := OutcomeTerminal; res_snippet := [];
      res_err := Some reason |},
   settleDead {| HTTPStatus := 0; Snippet := []; DeliveryErr := reason;
                 Duration := sat64 (finished t - started t) |} reason).

(** [deliver], up to the call of the source: what is observed and the transition asked for. *)
Definition deliver (event : Event) (listener : ListenerConfig) (client : http_client)
    (t : readings) (jitter : option JitterFunc) : DispatchResult * settlement :=
  match BuildEnvelope json_Valid occurredAt event with
  | Err e => refused_before_sending t (envelope_error_text quoted (Table event) e)
  | Ok body =>
      match buildRequest listener event body (stamped t) with
      | Err e => refused_before_sending t e
      | Ok req =>
          let '(resp, snippet, requestErr) := doRequest (if Client listener then Some client else None) req in
          let d := {| HTTPStatus := responseStatus resp; Snippet := TruncateSnippet snippet;
                      DeliveryErr := default [] requestErr;
                      Duration := sat64 (finished t - started t) |} in
          ({| res_request := Some req; res_status := responseStatus resp;
              res_outcome := classifyAttempt event (Policy_ listener) resp d; res_snippet := snippet;
              res_err := requestErr |},
           recordResult event (Policy_ listener) resp d (scheduled t) jitter)
      end
  end.
End attempt.

(** ** Lemmas *)

Lemma TruncateSnippet_bound body : (length (TruncateSnippet body) <= maxSnippetBytes)%nat.
Proof.
  unfold TruncateSnippet. destruct (Nat.leb_spec (length body) maxSnippetBytes); [done|].
  rewrite length_take. lia.
Qed.

Lemma capped_bounds_from_zero m v : 0 <= v -> 0 <= capped m v /\ (0 < m -> capped m v <= m).
Proof. intros Hv. unfold capped. cases_Z; lia. Qed.

Lemma DelayAfter_range p attempt retryAfter draw :
  0 <= DelayAfter p attempt retryAfter draw /\
  (0 < MaxInterval p -> DelayAfter p attempt retryAfter draw <= MaxInterval p).
Proof. unfold DelayAfter. rewrite EffectiveDelay_spec. apply capped_bounds_from_zero. lia. Qed.

Definition transient_status (status : Z) : Prop := status = 408 \/ status = 429 \/ 500 <= status <= 599.

Lemma ClassifyStatus_spec status :
  match ClassifyStatus status with
  | OutcomeSuccess => 200 <= status <= 299
  | OutcomeRetryable => transient_status status
  | OutcomeTerminal => ~ 200 <= status <= 299 /\ ~ transient_status status
  end.
Proof. unfold ClassifyStatus, transient_status. cases_Z; try lia. Qed.

(** Whether an attempt failed in a way another attempt may mend. *)
Definition transient (resp : option response) (d : Delivery) : Prop :=
  DeliveryErr d <> [] \/ exists r, resp = Some r /\ transient_status (StatusCode r).

Lemma classifyAttempt_spec event policy resp d :
  match classifyAttempt event policy resp d with
  | OutcomeSuccess => DeliveryErr d = [] /\ exists r, resp = Some r /\ 200 <= StatusCode r <= 299
  | OutcomeRetryable => transient resp d /\ Attempt event < MaxAttempts policy
  | OutcomeTerminal =>
      (transient resp d -> MaxAttempts policy <= 0 \/ MaxAttempts policy <= Attempt event) /\
      ~ (DeliveryErr d = [] /\ exists r, resp = Some r /\ 200 <= StatusCode r <= 299)
  end.
Proof.
  unfold classifyAttempt, deliveryError, transient.
  set (outcome := match resp with Some _ => _ | None => _ end).
  assert (Ho : match outcome with
    | OutcomeSuccess => DeliveryErr d = [] /\ exists r, resp = Some r /\ 200 <= StatusCode r <= 299
    | OutcomeRetryable => DeliveryErr d <> [] \/ exists r, resp = Some r /\ transient_status (StatusCode r)
    | OutcomeTerminal => DeliveryErr d = [] /\ forall r, resp = Some r ->
        ~ 200 <= StatusCode r <= 299 /\ ~ transient_status (StatusCode r)
    end).
  { unfold outcome. clear outcome. destruct resp as [r|]; case_bool_decide as Hd; cbn; [| |done|by left].
    - pose proof (ClassifyStatus_spec (StatusCode r)) as Hs. destruct (ClassifyStatus _); naive_solver.
    - by left. }
  clearbody outcome. destruct outcome.
  - rewrite bool_decide_eq_false_2 by done. cbn. naive_solver.
  - rewrite bool_decide_eq_false_2 by done. done.
  - rewrite bool_decide_eq_true_2 by done. unfold ShouldRetry, Terminal.
    rewrite bool_decide_eq_true_2 by done. cbn [andb]. rewrite negb_involutive.
    destruct (Z.leb_spec (MaxAttempts policy) 0); cbn [orb]; [|destruct (Z.leb_spec (MaxAttempts policy) (Attempt event))].
    + split; [lia|]. intros [He (r & -> & Hr)]. destruct Ho as [|(r' & [= <-] & Ht)]; [done|].
      unfold transient_status in Ht. lia.
    + split; [lia|]. intros [He (r & -> & Hr)]. destruct Ho as [|(r' & [= <-] & Ht)]; [done|].
      unfold transient_status in Ht. lia.
    + done.
Qed.

(** The classification does not read the snippet. *)
Lemma classifyAttempt_snippet event policy resp d snippet :
  classifyAttempt event policy resp
    {| HTTPStatus := HTTPStatus d; Snippet := snippet; DeliveryErr := DeliveryErr d; Duration := Duration d |}
  = classifyAttempt event policy resp d.
Proof. done. Qed.

Section attempts.
Context (canonical : gostring -> gostring) (request_refused : gostring -> gostring -> option gostring).
Context (ParseTime : gostring -> option Z) (hmac : gostring -> gostring -> gostring).
Context (json_Valid : gostring -> bool) (occurredAt : Z -> gostring) (quoted : gostring -> gostring).

(** What came of an attempt that was sent, said of the client and its answer alone: the response, the
    bytes of its body that are kept, and the error -- the client's own, that of a missing body, that of
    reading it, or that of closing it, in this order; none where all went well. *)
Definition what_came_back (listener : ListenerConfig) (client : http_client) (req : request) :
    option response * gostring * gostring :=
  if Client listener then
    match client req with
    | Err e => (None, [], e)
    | Ok resp =>
        match Body resp with
        | None => (Some resp, [], bs "response has no body")
        | Some body =>
            (Some resp, take (Z.to_nat 2048) (body_bytes body),
             match read_error body, close_error body with
             | Some e, _ => e
             | None, Some e => e
             | None, None => []
             end)
        end
    end
  else (None, [], bs "listener has no HTTP client").

Lemma doRequest_came_back listener client req :
  let '(resp, snippet, err) := doRequest (if Client listener then Some client else None) req in
  (resp, snippet, default [] err) = what_came_back listener client req.
Proof.
  unfold doRequest, what_came_back. destruct (Client listener); [|done].
  destruct (client req) as [resp|e]; [|done]. unfold DrainResponseBody. cbn [mbind option_bind].
  destruct (Body resp) as [body|]; [|done]. change (Z.of_nat maxSnippetBytes) with 2048. cbn [Z.ltb Z.compare].
  destruct (length (body_bytes body) <? _)%nat, (read_error body); try done; by destruct (close_error body).
Qed.

Lemma came_back_bound listener client req :
  (length (snd (fst (what_came_back listener client req))) <= maxSnippetBytes)%nat.
Proof.
  unfold what_came_back. destruct (Client listener); [|cbn; lia]. destruct (client req) as [resp|]; [|cbn; lia].
  destruct (Body resp); [|cbn; lia]. cbn [fst snd]. rewrite length_take. change (Z.to_nat 2048) with maxSnippetBytes. lia.
Qed.

Lemma TruncateSnippet_id body : (length body <= maxSnippetBytes)%nat -> TruncateSnippet body = body.
Proof. intros H. unfold TruncateSnippet. by rewrite (proj2 (Nat.leb_le _ _) H). Qed.

(** What a settlement must be, given what came of the attempt. *)
Definition fits (event : Event) (policy : Policy) (resp : option response) (now : Z) (outcome : Outcome)
    (s : settlement) : Prop :=
  match s with
  | settleAck d => outcome = OutcomeSuccess /\ DeliveryErr d = [] /\
      exists r, resp = Some r /\ 200 <= StatusCode r <= 299
  | settleNack d retryAt => outcome = OutcomeRetryable /\ transient resp d /\
      Attempt event < MaxAttempts policy /\ now <= retryAt /\
      (0 < MaxInterval policy -> retryAt <= now + MaxInterval policy)
  | settleDead d reason => outcome = OutcomeTerminal /\ reason <> [] /\
      reason = (if bool_decide (DeliveryErr d = [])
                then (if bool_decide (300 <= HTTPStatus d <= 399) then bs "HTTP redirect status " else bs "HTTP status ")
                     ++ format_int (HTTPStatus d)
                else DeliveryErr d) /\
      (transient resp d -> MaxAttempts policy <= 0 \/ MaxAttempts policy <= Attempt event) /\
      ~ (DeliveryErr d = [] /\ exists r, resp = Some r /\ 200 <= StatusCode r <= 299)
  end.

Lemma recordResult_fits event policy resp d now jitter :
  fits event policy resp now (classifyAttempt event policy resp d)
    (recordResult ParseTime event policy resp d now jitter) /\
  settled_delivery (recordResult ParseTime event policy resp d now jitter) =
    {| HTTPStatus := HTTPStatus d; Snippet := TruncateSnippet (Snippet d); DeliveryErr := DeliveryErr d;
       Duration := Duration d |}.
Proof.
  unfold recordResult. set (d' := {| HTTPStatus := _ |}).
  change (classifyAttempt event policy resp d') with (classifyAttempt event policy resp d).
  pose proof (classifyAttempt_spec event policy resp d) as Hc.
  destruct (classifyAttempt event policy resp d); cbn [fits settled_delivery]; (split; [|done]).
  - split_and!; [done| | |apply Hc..].
    + destruct (bool_decide (DeliveryErr d' = [])) eqn:E; cbn [negb].
      * by destruct (_ && _).
      * by apply bool_decide_eq_false in E.
    + destruct (bool_decide (DeliveryErr d' = [])); [|done]. cbn [negb].
      replace (bool_decide (300 <= HTTPStatus d' <= 399)) with ((300 <=? HTTPStatus d') && (HTTPStatus d' <=? 399)).
      { by destruct (_ && _). }
      apply eq_true_iff_eq. rewrite bool_decide_eq_true, andb_true_iff, !Z.leb_le. done.
  - by destruct Hc.
  - destruct Hc. pose proof (DelayAfter_range policy (Attempt event)
      match resp with Some r => default 0 (ParseRetryAfter ParseTime (RetryAfterHeader r) now) | None => 0 end jitter).
    split_and!; try done; lia.
Qed.

(** C12. Every delivery attempt asks for exactly one transition, and the right one: an Ack exactly for a
    2xx answer whose body was read and closed; a Nack only for a transport error or a 408, 429 or 5xx
    answer with attempts left, never before now nor past the policy's max_interval; a Dead for
    everything else, with the error, or the status, as its reason. A request is sent unless the envelope
    or the request cannot be built, and then the attempt ends dead with that error. What is recorded is
    exactly what came back: the answer's status, its first 2 KiB, the client's or the body's error, and
    how long it took; and what is observed of the attempt carries the same outcome and status. *)
Theorem attempt_settles_once event listener client t jitter :
  let '(res, s) := deliver canonical request_refused ParseTime hmac json_Valid occurredAt quoted
                     event listener client t jitter in
  let unsendable := request_refused (if bool_decide (Method listener = []) then bs "POST" else Method listener)
                      (URL listener) in
  match res_request res with
  | None => res_outcome res = OutcomeTerminal /\
      exists reason, s = settleDead {| HTTPStatus := 0; Snippet := []; DeliveryErr := reason;
                                       Duration := sat64 (finished t - started t) |} reason /\
        match BuildEnvelope json_Valid occurredAt event with
        | Err e => reason = envelope_error_text quoted (Table event) e
        | Ok _ => unsendable = Some reason
        end
  | Some req =>
      BuildEnvelope json_Valid occurredAt event = Ok (req_body req) /\ unsendable = None /\
      let '(resp, snippet, err) := what_came_back listener client req in
      settled_delivery s =
        {| HTTPStatus := match resp with Some r => StatusCode r | None => 0 end; Snippet := snippet;
           DeliveryErr := err; Duration := sat64 (finished t - started t) |} /\
      fits event (Policy_ listener) resp (scheduled t) (res_outcome res) s /\
      res_status res = match resp with Some r => StatusCode r | None => 0 end
  end.
Proof.
  unfold deliver. destruct (BuildEnvelope json_Valid occurredAt event) as [body|e]; cbn; [|eauto].
  destruct (buildRequest _ _ _ _ _ _) as [req|e] eqn:Eb; cbn.
  2: { unfold buildRequest in Eb. destruct (request_refused _ _); [|done]. injection Eb as ->. eauto. }
  assert (req_body req = body /\
    request_refused (if bool_decide (Method listener = []) then bs "POST" else Method listener) (URL listener) = None)
    as [<- Hno].
  { unfold buildRequest in Eb. destruct (request_refused _ _); [done|]. by injection Eb as <-. }
  pose proof (doRequest_came_back listener client req) as Hback.
  destruct (doRequest _ req) as [[resp snippet] requestErr] eqn:Ed.
  cbn -[what_came_back fits]. rewrite <- Hback, Hno.
  edestruct recordResult_fits as [H1 ->]. split_and!; [done..| |exact H1|done].
  cbn -[what_came_back]. f_equal. assert (Hsn : snippet = snd (fst (what_came_back listener client req))) by by rewrite <- Hback.
  rewrite !TruncateSnippet_id; [done|..]; rewrite ?TruncateSnippet_id; subst snippet; apply came_back_bound.
Qed.

(** *** The request *)

Definition reserved_headers : list gostring :=
  [bs "X-Pg-Noty-Event-Id"; bs "X-Pg-Noty-Timestamp"; bs "X-Pg-Noty-Attempt"; bs "X-Pg-Noty-Signature"].

Lemma set_headers_lookup hs h n v :
  NoDup (map (λ nv, canonical (fst nv)) hs) -> (n, v) ∈ hs ->
  foldl (set_header canonical) h hs !! canonical n = Some v.
Proof.
  revert h. induction hs as [|[n' v'] hs IH]; cbn; intros h Hnd Hin; [by apply not_elem_of_nil in Hin|].
  apply NoDup_cons in Hnd as [Hn Hnd]. apply elem_of_cons in Hin as [[= <- <-]|Hin]; [|by apply IH].
  clear IH Hnd. assert (Hstay : forall h, (forall nv, nv ∈ hs -> canonical (fst nv) <> canonical n) ->
    foldl (set_header canonical) h hs !! canonical n = h !! canonical n).
  { clear. induction hs as [|nv hs IH]; cbn; intros h Hne; [done|]. rewrite IH by set_solver.
    unfold set_header. rewrite lookup_insert_ne; [done|]. apply Hne. set_solver. }
  rewrite Hstay; [unfold set_header; cbn; by rewrite lookup_insert_eq|].
  intros nv Hnv Heq. apply Hn. rewrite <- Heq. by apply (list_elem_of_fmap_2 (λ nv, canonical (fst nv))).
Qed.

Lemma set_header_lookup h n v m :
  set_header canonical h (n, v) !! m = if bool_decide (m = canonical n) then Some v else h !! m.
Proof.
  unfold set_header. cbn. case_bool_decide as E; [subst; by rewrite lookup_insert_eq|].
  by rewrite lookup_insert_ne.
Qed.

(** The last header set under a name is the one that is sent. *)
Lemma request_header_lookup listener event body now req m :
  buildRequest canonical request_refused hmac listener event body now = Ok req ->
  let signed := Signer_Header hmac (Signer_ listener) (Unix now) body in
  req_header req !! m =
    if negb (bool_decide (signed = [])) && bool_decide (m = canonical (bs "X-Pg-Noty-Signature")) then Some signed
    else if bool_decide (m = canonical (bs "X-Pg-Noty-Attempt")) then Some (format_int (Attempt event))
    else if bool_decide (m = canonical (bs "X-Pg-Noty-Timestamp")) then Some (format_int (Unix now))
    else if bool_decide (m = canonical (bs "X-Pg-Noty-Event-Id")) then Some (format_int (ID event))
    else foldl (set_header canonical) ∅ (Headers listener) !! m.
Proof.
  unfold buildRequest. destruct (request_refused _ _); [done|]. intros [= <-]. cbn [req_header]. cbn zeta.
  destruct (bool_decide (_ = [])); cbn [negb andb]; by rewrite !set_header_lookup.
Qed.

Lemma signed_nonempty s ts body : secrets s <> [] -> Signer_Header hmac s ts body <> [].
Proof. intros Hs. unfold Signer_Header, SignAll. by destruct (secrets s) as [|x [|y l]]. Qed.

(** Decide the comparisons between reserved names the context tells apart. *)
Ltac decide_names :=
  repeat match goal with
  | |- context [bool_decide (?x = ?x)] => rewrite (bool_decide_eq_true_2 (x = x)) by done
  | |- context [bool_decide (canonical ?x = canonical ?y)] =>
      rewrite (bool_decide_eq_false_2 (canonical x = canonical y)) by congruence
  | |- context [bool_decide (canonical ?x = canonical ?y)] =>
      rewrite (bool_decide_eq_false_2 (canonical x = canonical y)) by done
  end; rewrite ?andb_false_r, ?andb_true_r.

(** Canonicalisation keeps the four reserved names apart. *)
Hypothesis reserved_distinct : NoDup (map canonical reserved_headers).

(** The request of an attempt carries the envelope as its body and, whatever headers a listener
    configures, its own event id, timestamp and attempt; the signature is over that body and that
    timestamp with every configured secret; and every configured header that claims no reserved name
    is sent with its configured value. *)
Theorem buildRequest_headers listener event body now req :
  buildRequest canonical request_refused hmac listener event body now = Ok req ->
  let at_ h := req_header req !! canonical h in
  req_body req = body /\ req_url req = URL listener /\
  at_ (bs "X-Pg-Noty-Event-Id") = Some (format_int (ID event)) /\
  at_ (bs "X-Pg-Noty-Timestamp") = Some (format_int (Unix now)) /\
  at_ (bs "X-Pg-Noty-Attempt") = Some (format_int (Attempt event)) /\
  (secrets (Signer_ listener) <> [] ->
     at_ (bs "X-Pg-Noty-Signature") = Some (SignAll hmac (secrets (Signer_ listener)) (Unix now) body)) /\
  (NoDup (map (λ nv, canonical (fst nv)) (Headers listener)) ->
   forall n v, (n, v) ∈ Headers listener -> canonical n ∉ map canonical reserved_headers -> at_ n = Some v).
Proof.
  intros Hb. pose proof (λ m, request_header_lookup _ _ _ _ _ m Hb) as Hfull. cbn zeta in Hfull.
  assert (Hd := reserved_distinct). unfold reserved_headers in Hd. cbn [map] in Hd.
  rewrite !NoDup_cons, !not_elem_of_cons in Hd.
  destruct Hd as ((H12 & H13 & H14 & _) & (H23 & H24 & _) & (H34 & _) & _).
  assert (req_body req = body /\ req_url req = URL listener) as [-> ->].
  { unfold buildRequest in Hb. destruct (request_refused _ _); [done|]. by injection Hb as <-. }
  cbv beta zeta. rewrite !Hfull. split_and!; try done; [by decide_names..| |].
  - intros Hs. decide_names. by rewrite bool_decide_eq_false_2 by by apply signed_nonempty.
  - intros Hnd n v Hin Hno. rewrite Hfull. unfold reserved_headers in Hno. cbn [map] in Hno.
    rewrite !not_elem_of_cons in Hno. destruct Hno as (N1 & N2 & N3 & N4 & _).
    repeat rewrite (bool_decide_eq_false_2 (canonical n = canonical _)) by done. rewrite andb_false_r. by apply set_headers_lookup.
Qed.
End attempts.

(** ** The properties at concrete inputs *)

Definition sample_listener : ListenerConfig :=
  {| Name := bs "orders"; URL := bs "https://example.test/hook"; Method := [];
     Headers := [(bs "X-Pg-Noty-Attempt", bs "99"); (bs "X-Team", bs "core")];
     Signer_ := NewSigner [bs "secret"]; Policy_ := sample_policy; Concurrency := 1; MaxPayloadBytes := 0;
     Client := true |}.

Lemma buildRequest_headers_witness :
  exists req, buildRequest id (λ _ _, None) toy_hmac sample_listener sample_event (bs "{}") 5000000000 = Ok req /\
    req_header req !! bs "X-Pg-Noty-Attempt" = Some (bs "1") /\ req_header req !! bs "X-Team" = Some (bs "core").
Proof.
  destruct (buildRequest id (λ _ _, None) toy_hmac sample_listener sample_event (bs "{}") 5000000000) as [req|e] eqn:E;
    [|by vm_compute in E].
  destruct (buildRequest_headers id (λ _ _, None) toy_hmac ltac:(by_compute) _ _ _ _ _ E)
    as (_ & _ & _ & _ & Ha & _ & Hc).
  exists req. split; [done|]. split; [exact Ha|].
  apply (Hc ltac:(by_compute) (bs "X-Team") (bs "core")); by_compute.
Defined.

Definition at_second (n : Z) : readings :=
  {| started := n * second; stamped := n * second; finished := (n + 1) * second; scheduled := (n + 1) * second |}.
Definition sample_delivery (client : http_client) : DispatchResult * settlement :=
  deliver id (λ _ _, None) (λ _, None) toy_hmac (λ _, true) (λ _, bs "1970-01-01T00:00:00.000000Z") id
    sample_event sample_listener client (at_second 5) None.
Definition cut_short : response :=
  {| StatusCode := 200; RetryAfterHeader := [];
     Body := Some {| body_bytes := bs "accep"; read_error := Some (bs "unexpected EOF"); close_error := None |} |}.

(** A client that could not connect, and an answer of 200 whose body was cut short: both errors are
    recorded, and neither delivery is acknowledged. *)
Lemma attempt_settles_once_witness :
  settled_delivery (snd (sample_delivery (λ _, Err (bs "connection refused")))) =
    {| HTTPStatus := 0; Snippet := []; DeliveryErr := bs "connection refused"; Duration := second |} /\
  settled_delivery (snd (sample_delivery (λ _, Ok cut_short))) =
    {| HTTPStatus := 200; Snippet := bs "accep"; DeliveryErr := bs "unexpected EOF"; Duration := second |}.
Proof.
  unfold sample_delivery. split;
    match goal with |- context [deliver ?a ?b ?c ?d ?e ?f ?g ?h ?i ?j ?k ?l] =>
      pose proof (attempt_settles_once a b c d e f g h i j k l) as H;
      destruct (deliver a b c d e f g h i j k l) as [res s] eqn:E end;
    (assert (is_Some (res_request res)) as [req Hreq] by (vm_compute in E; injection E as <- _; done));
    cbn zeta in H; rewrite Hreq in H; cbn [snd]; destruct H as (_ & _ & -> & _); reflexivity.
Defined.
