(* ===== verification/Port.v ===== *)
(** * The event-source port

    [internal/source]'s EventSource and LeaseReclaimer (eventsource.go, leasereclaim.go) as the
    interface the delivery worker is written against, its laws, and the PostgreSQL queue as an
    implementation of it. *)

From S2P Require Import Prelude Quote Queue.

Local Open Scope Z_scope.

(** The port's operations, and what it promises in every state its own operations can reach. *)
Class EventSource (S : Type) := {
  es_Claim : Z -> S -> result source_error (list Event) * S;
  es_Ack : Event -> Delivery -> S -> result source_error unit * S;
  es_Nack : Event -> Delivery -> Z -> S -> result source_error unit * S;
  es_Dead : Event -> Delivery -> gostring -> S -> result source_error unit * S;
  es_ReclaimExpired : S -> result source_error nat * S
}.

Class EventSourceLaws (S : Type) `{EventSource S} := {
  es_valid : S -> Prop;
  es_claim_valid n s : es_valid s -> es_valid (snd (es_Claim n s));
  es_ack_valid e d s : es_valid s -> es_valid (snd (es_Ack e d s));
  es_nack_valid e d t s : es_valid s -> es_valid (snd (es_Nack e d t s));
  es_dead_valid e d r s : es_valid s -> es_valid (snd (es_Dead e d r s));
  es_reclaim_valid s : es_valid s -> es_valid (snd (es_ReclaimExpired s));
  (** A claim never answers more than it was asked for, nor an event twice. *)
  es_claim_bounded n s evs : es_valid s -> fst (es_Claim n s) = Ok evs ->
    Z.of_nat (length evs) <= Z.max 0 n /\ NoDup (map ID evs)
}.

(** ** The queue behind the port *)

(** The adapter, the tables, and the server each call meets: the [k]-th call meets [serving k], after
    [meanwhile k] has changed the tables. *)
Record world := World {
  adapter_ : TriggerSource;
  tables_ : tables;
  serving : nat -> session;
  worker_now : nat -> Z;
  turn : nat
}.

Section queue_port.
Context (Sanitize : list gostring -> gostring) (duration_interval seconds_interval : Z -> Z).

Definition answered {A} (w : world) (r : result source_error A * tables) : result source_error A * world :=
  (fst r, World (adapter_ w) (snd r) (serving w) (worker_now w) (S (turn w))).

#[export] Instance queue_source : EventSource world := {
  es_Claim n w := answered w (Claim Sanitize duration_interval (adapter_ w) (serving w (turn w)) n (tables_ w));
  es_Ack e d w := answered w (Ack Sanitize (adapter_ w) (serving w (turn w)) e d (tables_ w));
  es_Nack e d t w :=
    answered w (Nack Sanitize seconds_interval (adapter_ w) (serving w (turn w)) (worker_now w (turn w)) e d t (tables_ w));
  es_Dead e d r w := answered w (Dead Sanitize (adapter_ w) (serving w (turn w)) e d r (tables_ w));
  es_ReclaimExpired w := answered w (ReclaimExpired Sanitize (adapter_ w) (serving w (turn w)) (tables_ w))
}.

Definition queue_valid (w : world) : Prop :=
  reachable Sanitize duration_interval seconds_interval (tables_ w) /\
  (forall k l, returning (serving w k) l ≡ₚ l).

Lemma answered_valid {A} w (r : result source_error A * tables) :
  queue_valid w -> (reachable Sanitize duration_interval seconds_interval (tables_ w) ->
    reachable Sanitize duration_interval seconds_interval (snd r)) ->
  queue_valid (snd (answered w r)).
Proof. intros [Hr Hs] H. split; cbn; auto. Qed.

(** The ids of the events a claim answers are, in order, among those its statement returned. *)
Lemma omap_ids (m : gmap Z Event) ids :
  (forall id e, m !! id = Some e -> ID e = id) ->
  map ID (omap (λ id, m !! id) ids) `sublist_of` ids.
Proof.
  intros Hm. induction ids as [|id ids IH]; cbn; [constructor|].
  destruct (m !! id) eqn:E; cbn; [rewrite (Hm _ _ E)|]; by constructor.
Qed.

Lemma Claim_answer src s n d evs :
  fst (Claim Sanitize duration_interval src s n d) = Ok evs ->
  map ID evs `sublist_of` returning s (claim_choice s n (event_queue d)) \/ evs = [].
Proof.
  unfold Claim. destruct (ensureUsable src); [|done]. destruct (n <=? 0); [intros [= <-]; by right|].
  destruct (claimQueryFor _ _ _) as [query|] eqn:Eq; [|done]. unfold claimQueryFor in Eq. peel.
  destruct (transaction _ _ _ _) as [answer d'] eqn:Et. cbn. intros ->.
  apply transaction_Ok in Et as [c Et]. unfold claim_body, claim_update in Et. peel.
  destruct (forallb _ _); [|done]. simplify_eq. case_bool_decide; peel; [by right|].
  left. unfold readClaimedEvents in *. peel. apply omap_ids. intros id e He.
  rewrite map_lookup_imap in He. destruct (_ !! id); [|done]. cbn in He. case_bool_decide; [|done].
  unfold joined_event in He. destruct (_ !! _); [|done]. by injection He as <-.
Qed.

#[export] Instance queue_source_laws : EventSourceLaws world.
Proof.
  refine {| es_valid := queue_valid |}.
  - intros n w Hw. apply answered_valid; [done|]. intros Hr.
    by apply (reachable_step _ _ _ _ (DoClaim (adapter_ w) n) (serving w (turn w))) in Hr.
  - intros e d w Hw. apply answered_valid; [done|]. intros Hr.
    by apply (reachable_step _ _ _ _ (DoAck (adapter_ w) e d) (serving w (turn w))) in Hr.
  - intros e d t w Hw. apply answered_valid; [done|]. intros Hr.
    by apply (reachable_step _ _ _ _ (DoNack (adapter_ w) (worker_now w (turn w)) e d t) (serving w (turn w))) in Hr.
  - intros e d r w Hw. apply answered_valid; [done|]. intros Hr.
    by apply (reachable_step _ _ _ _ (DoDead (adapter_ w) e d r) (serving w (turn w))) in Hr.
  - intros w Hw. apply answered_valid; [done|]. intros Hr.
    by apply (reachable_step _ _ _ _ (DoReclaim (adapter_ w)) (serving w (turn w))) in Hr.
  - intros n w evs [_ Hret] He. cbn in He. destruct (decide (n <= 0)) as [Hn|Hn].
    { assert (evs = []) as ->.
      { revert He. unfold Claim. destruct (ensureUsable _); [|done].
        rewrite (proj2 (Z.leb_le _ _)) by done. by intros [= <-]. }
      split; [cbn; lia|constructor]. }
    apply Claim_answer in He as [Hsub| ->]; [|split; [cbn; lia|constructor]].
    assert (Hp := Hret (turn w) (claim_choice (serving w (turn w)) n (event_queue (tables_ w)))).
    split.
    + apply sublist_length in Hsub. rewrite length_map, Hp, claim_choice_length in Hsub. lia.
    + eapply sublist_NoDup; [|done]. rewrite Hp. apply claim_choice_NoDup.
Defined.
End queue_port.
