(* ===== verification/Worker.v ===== *)
(** * The delivery worker

    [internal/delivery]'s semaphore.go, worker.go, dispatch.go, hold.go and drain.go over the
    event-source port. A worker's state is what its mutexes guard; the goroutines it starts are
    [running] events that end by a [Completes] disturbance, which may fall between any two visits of
    the dispatch loop, as may the start of a drain. The order of a range over a map is a parameter. *)

From S2P Require Import Prelude Policy Signing Quote Queue Port Envelope Deliver.
From stdpp Require Import sorting.

Local Open Scope Z_scope.

(** ** semaphore.go *)

Record semaphore := { slots : nat; capacity : nat }.

Definition newSemaphore (capacity : Z) : semaphore :=
  {| slots := 0; capacity := Z.to_nat (if capacity <=? 0 then 1 else capacity) |}.

(** A nil semaphore admits everyone. *)
Definition tryAcquire (s : option semaphore) : bool * option semaphore :=
  match s with
  | None => (true, None)
  | Some s => if (slots s <? capacity s)%nat then (true, Some {| slots := S (slots s); capacity := capacity s |})
              else (false, Some s)
  end.

(** A release of an empty semaphore is ignored. *)
Definition release (s : option semaphore) : option semaphore :=
  (λ s, {| slots := pred (slots s); capacity := capacity s |}) <$> s.

Definition hasCapacity (s : option semaphore) : bool :=
  match s with None => true | Some s => (slots s <? capacity s)%nat end.

(** ** The worker's state *)

Record listenerState := { config : ListenerConfig; sem : option semaphore }.

Record WorkerConfig := {
  BatchSize : Z;
  GlobalConcurrency : Z;
  PollInterval : Z;
  LeaseTimeout : Z;
  Listeners : list ListenerConfig;
  (** Whether [NewWorker] is given a reclaimer. *)
  HasReclaimer : bool
}.

Inductive worker_error := ErrDrainTimedOut | portError (e : source_error).

(** What a worker did, in order: kept to state what it does, never read by it. *)
Inductive happening :=
  | Started (e : Event)
  | Finished (e : Event) (s : settlement)
  | DeadLettered (e : Event) (reason : gostring)
  | Lapsed (e : Event)
  | Released (id : Z).

Record Worker (P : Type) := MkWorker {
  port : P;
  worker_config : WorkerConfig;
  global : semaphore;
  listeners : gmap gostring listenerState;
  order : list gostring;
  inFlight : gmap Z nat;
  activity : gmap Z (list Event);
  stopping : bool;
  releaseErr : list worker_error;
  pending_ : gmap gostring (list Event);
  held : gmap Z Z;
  running : list Event;
  history : list happening
}.
Arguments MkWorker {P}. Arguments port {P}. Arguments worker_config {P}. Arguments global {P}.
Arguments listeners {P}. Arguments order {P}. Arguments inFlight {P}. Arguments activity {P}.
Arguments stopping {P}. Arguments releaseErr {P}. Arguments pending_ {P}. Arguments held {P}.
Arguments running {P}. Arguments history {P}.

Section worker.
Context {P : Type} `{EventSource P}.
(** The order in which a range visits a map of queues. *)
Context (range : gmap gostring (list Event) -> list (gostring * list Event)).
(** What a delivery makes of an event, its listener, its clock readings and what the client answers. *)
Context (attempt : Event -> ListenerConfig -> readings -> http_client -> settlement).

Definition set_port (p : P) (w : Worker P) : Worker P :=
  MkWorker p (worker_config w) (global w) (listeners w) (order w) (inFlight w) (activity w) (stopping w)
    (releaseErr w) (pending_ w) (held w) (running w) (history w).
Definition set_admission (g : semaphore) (l : gmap gostring listenerState) (w : Worker P) : Worker P :=
  MkWorker (port w) (worker_config w) g l (order w) (inFlight w) (activity w) (stopping w)
    (releaseErr w) (pending_ w) (held w) (running w) (history w).
Definition set_tracking (i : gmap Z nat) (a : gmap Z (list Event)) (r : list Event) (w : Worker P) : Worker P :=
  MkWorker (port w) (worker_config w) (global w) (listeners w) (order w) i a (stopping w)
    (releaseErr w) (pending_ w) (held w) r (history w).
Definition set_drain (s : bool) (e : list worker_error) (w : Worker P) : Worker P :=
  MkWorker (port w) (worker_config w) (global w) (listeners w) (order w) (inFlight w) (activity w) s
    e (pending_ w) (held w) (running w) (history w).
Definition set_held (p : gmap gostring (list Event)) (h : gmap Z Z) (w : Worker P) : Worker P :=
  MkWorker (port w) (worker_config w) (global w) (listeners w) (order w) (inFlight w) (activity w) (stopping w)
    (releaseErr w) p h (running w) (history w).
Definition log (h : happening) (w : Worker P) : Worker P :=
  MkWorker (port w) (worker_config w) (global w) (listeners w) (order w) (inFlight w) (activity w) (stopping w)
    (releaseErr w) (pending_ w) (held w) (running w) (history w ++ [h]).

(** [NewWorker]: the first listener of a name is kept, one without a name is skipped. *)
Definition add_listener (acc : gmap gostring listenerState * list gostring) (l : ListenerConfig) :
    gmap gostring listenerState * list gostring :=
  let '(ls, order) := acc in
  if bool_decide (Name l = []) then acc
  else match ls !! Name l with
       | Some _ => acc
       | None =>
           let sem := if 0 <? Concurrency l then Some (newSemaphore (Concurrency l)) else None in
           (<[Name l := {| config := l; sem := sem |}]> ls, order ++ [Name l])
       end.

Definition at_least_one (n : Z) : Z := if n <=? 0 then 1 else n.

Definition NewWorker (events : P) (c : WorkerConfig) : Worker P :=
  let c := {| BatchSize := at_least_one (BatchSize c); GlobalConcurrency := at_least_one (GlobalConcurrency c);
              PollInterval := PollInterval c; LeaseTimeout := LeaseTimeout c; Listeners := Listeners c;
              HasReclaimer := HasReclaimer c |} in
  let '(ls, order) := foldl add_listener (∅, []) (Listeners c) in
  MkWorker events c (newSemaphore (GlobalConcurrency c)) ls order ∅ ∅ false [] ∅ ∅ [] [].

(** ** Tracking (drain.go, dispatch.go) *)

Definition InFlight (w : Worker P) : nat := map_fold (λ _ n total, (n + total)%nat) 0%nat (inFlight w).

Definition finish (id : Z) (m : gmap Z nat) : gmap Z nat :=
  let count := default 0%nat (m !! id) in
  if (count <=? 1)%nat then delete id m else <[id := pred count]> m.

Definition note_in_flight (id : Z) (m : gmap Z nat) : gmap Z nat :=
  <[id := S (default 0%nat (m !! id))]> m.

Definition track_event (e : Event) (a : gmap Z (list Event)) : gmap Z (list Event) :=
  <[ID e := default [] (a !! ID e) ++ [e]]> a.

Definition untrack_event (e : Event) (a : gmap Z (list Event)) : gmap Z (list Event) :=
  let queued := default [] (a !! ID e) in
  if (length queued <=? 1)%nat then delete (ID e) a else <[ID e := tail queued]> a.

(** ** Calls of the port *)

Definition settleDead (e : Event) (d : Delivery) (reason : gostring) (w : Worker P) : option worker_error * Worker P :=
  let '(answer, p) := es_Dead e d reason (port w) in
  (portError <$> swallowLateClaim answer, set_port p w).

Definition settle (e : Event) (s : settlement) (w : Worker P) : option worker_error * Worker P :=
  match s with
  | settleAck d => let '(answer, p) := es_Ack e d (port w) in
                   (portError <$> swallowLateClaim answer, set_port p w)
  | settleNack d retryAt => let '(answer, p) := es_Nack e d retryAt (port w) in
                            (portError <$> swallowLateClaim answer, set_port p w)
  | Deliver.settleDead d reason => settleDead e d reason w
  end.

Definition only_error (reason : gostring) : Delivery :=
  {| HTTPStatus := 0; Snippet := []; DeliveryErr := reason; Duration := 0 |}.

Definition dead_letter (e : Event) (reason : gostring) (w : Worker P) : Worker P :=
  log (DeadLettered e reason) (snd (settleDead e (only_error reason) reason w)).

Definition consumeUnknown (e : Event) (w : Worker P) : Worker P :=
  dead_letter e (bs "unknown listener " ++ Listener e) w.

(** ** What happens beside the worker's own loop *)

Inductive disturbance :=
  | Completes (i : nat) (t : readings) (client : http_client)
  | DrainBegins.

(** The goroutine's body and its deferred calls: the delivery is settled, the event untracked, and
    both semaphores released. *)
Definition complete (i : nat) (t : readings) (client : http_client) (w : Worker P) : Worker P :=
  match running w !! i with
  | None => w
  | Some e =>
      match listeners w !! Listener e with
      | None => w
      | Some st =>
          let s := attempt e (config st) t client in
          let w := log (Finished e s) (snd (settle e s w)) in
          let w := set_tracking (finish (ID e) (inFlight w)) (untrack_event e (activity w))
                     (delete i (running w)) w in
          set_admission (default (global w) (release (Some (global w))))
            (<[Listener e := {| config := config st; sem := release (sem st) |}]> (listeners w)) w
      end
  end.

Definition disturb (w : Worker P) (d : disturbance) : Worker P :=
  match d with
  | Completes i t client => complete i t client w
  | DrainBegins => set_drain true (releaseErr w) w
  end.

(** ** dispatch.go *)

Inductive dispatchState := dispatchBlocked | dispatchConsumed | dispatchAccepted.

(** [racing] is whether a drain begins between the acquisition of the slots and [track]. *)
Definition tryDispatch (e : Event) (st : listenerState) (racing : bool) (w : Worker P) :
    dispatchState * Worker P :=
  if stopping w then (dispatchBlocked, w)
  else
    let '(fits_, reason) :=
      if 0 <? MaxPayloadBytes (config st) then checkPayloadSize (Payload e) (MaxPayloadBytes (config st))
      else (true, []) in
    if negb fits_ then (dispatchConsumed, dead_letter e reason w)
    else match tryAcquire (Some (global w)) with
         | (false, _) => (dispatchBlocked, w)
         | (true, g) =>
             match tryAcquire (sem st) with
             | (false, _) => (dispatchBlocked, set_admission (default (global w) (release g)) (listeners w) w)
             | (true, s) =>
                 let w := set_admission (default (global w) g)
                            (<[Listener e := {| config := config st; sem := s |}]> (listeners w)) w in
                 let w := set_tracking (note_in_flight (ID e) (inFlight w)) (activity w) (running w) w in
                 let w := if racing then set_drain true (releaseErr w) w else w in
                 if stopping w then
                   let w := set_tracking (finish (ID e) (inFlight w)) (activity w) (running w) w in
                   (dispatchBlocked,
                    set_admission (default (global w) (release (Some (global w))))
                      (<[Listener e := {| config := config st; sem := release s |}]> (listeners w)) w)
                 else
                   (dispatchAccepted,
                    log (Started e) (set_tracking (inFlight w) (track_event e (activity w)) (running w ++ [e]) w))
             end
         end.

Definition releaseHold (e : Event) (w : Worker P) : Worker P :=
  set_held (pending_ w) (delete (ID e) (held w)) w.

Definition listenerNames (w : Worker P) (queues : gmap gostring (list Event)) : list gostring :=
  order w ++ merge_sort go_le (filter (λ name, name ∉ order w) (map fst (range queues))).

Definition by_listener (events : list Event) : gmap gostring (list Event) :=
  foldl (λ queues e, <[Listener e := default [] (queues !! Listener e) ++ [e]]> queues) ∅ events.

Definition queue_of (queues : gmap gostring (list Event)) (name : gostring) : list Event :=
  default [] (queues !! name).

Definition allQueuesEmpty (queues : gmap gostring (list Event)) : bool :=
  forallb (λ p, bool_decide (snd p = [])) (map_to_list queues).

(** The disturbances before the [k]-th visit of a queue, and whether a drain races its admission. *)
Record schedule := { before : nat -> list disturbance; races : nat -> bool }.

Record loop := {
  at_ : nat;
  worker_ : Worker P;
  queues_ : gmap gostring (list Event);
  progress : bool;
  accepted : nat
}.

Definition visit (sched : schedule) (l : loop) (name : gostring) : loop :=
  let w := foldl disturb (worker_ l) (before sched (at_ l)) in
  match queue_of (queues_ l) name with
  | [] => {| at_ := S (at_ l); worker_ := w; queues_ := queues_ l; progress := progress l; accepted := accepted l |}
  | e :: rest =>
      match listeners w !! name with
      | None =>
          {| at_ := S (at_ l); worker_ := consumeUnknown e (releaseHold e w);
             queues_ := <[name := rest]> (queues_ l); progress := true; accepted := accepted l |}
      | Some st =>
          match tryDispatch e st (races sched (at_ l)) w with
          | (dispatchBlocked, w) =>
              {| at_ := S (at_ l); worker_ := w; queues_ := queues_ l; progress := progress l;
                 accepted := accepted l |}
          | (dispatchConsumed, w) =>
              {| at_ := S (at_ l); worker_ := releaseHold e w; queues_ := <[name := rest]> (queues_ l);
                 progress := true; accepted := accepted l |}
          | (dispatchAccepted, w) =>
              {| at_ := S (at_ l); worker_ := releaseHold e w; queues_ := <[name := rest]> (queues_ l);
                 progress := true; accepted := S (accepted l) |}
          end
      end
  end.

Definition one_round (sched : schedule) (names : list gostring) (l : loop) : loop :=
  foldl (visit sched) {| at_ := at_ l; worker_ := worker_ l; queues_ := queues_ l; progress := false;
                         accepted := accepted l |} names.

(** The dispatch loop; [None] when its fuel runs out. *)
Fixpoint rounds (fuel : nat) (sched : schedule) (names : list gostring) (l : loop) : option loop :=
  match fuel with
  | O => None
  | S fuel =>
      let l := one_round sched names l in
      if negb (progress l) || allQueuesEmpty (queues_ l) then Some l else rounds fuel sched names l
  end.

(** ** drain.go and hold.go: releasing and retaining *)

Definition release_delivery : Delivery := only_error (bs "delivery worker drain").

Fixpoint release_each (t : Z) (seen : gset Z) (released : list Z) (err : list worker_error)
    (events : list Event) (w : Worker P) : list Z * list worker_error * Worker P :=
  match events with
  | [] => (released, err, w)
  | e :: rest =>
      if bool_decide (ID e ∈ seen) then release_each t seen released err rest w
      else
        let seen := {[ID e]} ∪ seen in
        let '(answer, p) := es_Nack e release_delivery t (port w) in
        let w := set_port p w in
        match answer with
        | Err ErrEventNotClaimed => release_each t seen released err rest w
        | Err x => release_each t seen released (err ++ [portError x]) rest w
        | Ok _ => release_each t seen (released ++ [ID e]) err rest (log (Released (ID e)) w)
        end
  end.

Definition releaseHeld (t : Z) (events : list Event) (prior : list worker_error) (w : Worker P) :
    list Z * list worker_error * Worker P := release_each t ∅ [] prior events w.

Definition noteDrainError (err : list worker_error) (w : Worker P) : Worker P :=
  set_drain (stopping w) (releaseErr w ++ err) w.

(** Record when an event is first held. *)
Definition hold_event (t : Z) (h : gmap Z Z) (e : Event) : gmap Z Z :=
  match h !! ID e with Some _ => h | None => <[ID e := t]> h end.

Definition retain_queue (t : Z) (w : Worker P) (p : gostring * list Event) : Worker P :=
  set_held (match snd p with
            | [] => pending_ w
            | _ => <[fst p := queue_of (pending_ w) (fst p) ++ snd p]> (pending_ w)
            end) (foldl (hold_event t) (held w) (snd p)) w.

Definition retainPending (t : Z) (queues : gmap gostring (list Event)) (w : Worker P) : Worker P :=
  if stopping w then
    let '(_, err, w) := releaseHeld t (range queues ≫= snd) [] w in noteDrainError err w
  else foldl (retain_queue t) w (range queues).

Definition retainEvents (t : Z) (events : list Event) (w : Worker P) : Worker P :=
  retainPending t (by_listener events) w.

Definition dispatchBatch (t : Z) (sched : schedule) (events : list Event) (w : Worker P) :
    option (nat * Worker P) :=
  let queues := by_listener events in
  let start := {| at_ := 0; worker_ := w; queues_ := queues; progress := false; accepted := 0 |} in
  (λ l, (accepted l, if progress l then worker_ l else retainPending t (queues_ l) (worker_ l)))
  <$> rounds (S (length events)) sched (listenerNames w queues) start.

(** ** hold.go: the lease bound *)

Definition defaultLeaseTimeout : Z := 300 * second.
Definition Millisecond : Z := 1000000.

Definition leaseHoldLimit (w : Worker P) : Z :=
  let lease := LeaseTimeout (worker_config w) in
  let lease := if lease <=? 0 then defaultLeaseTimeout else lease in
  let margin := lease `quot` 10 in
  let margin := if margin <? Millisecond then Millisecond else margin in
  let margin := if lease <=? margin then lease `quot` 2 else margin in
  lease - margin.

Definition pollInterval (w : Worker P) : Z :=
  let interval := PollInterval (worker_config w) in
  let interval := if interval <=? 0 then second else interval in
  let bound := leaseHoldLimit w `quot` 2 in
  let bound := if bound <=? 0 then leaseHoldLimit w else bound in
  if bound <? interval then bound else interval.

Definition takePending (w : Worker P) : list Event * Worker P :=
  (range (pending_ w) ≫= snd, set_held ∅ (held w) w).

Fixpoint dropExpiredHeld (t limit : Z) (events : list Event) (w : Worker P) : list Event * bool * Worker P :=
  match events with
  | [] => ([], false, w)
  | e :: rest =>
      match held w !! ID e with
      | Some since =>
          if limit <=? sat64 (t - since) then
            let '(kept, _, w) := dropExpiredHeld t limit rest
                                   (log (Lapsed e) (set_held (pending_ w) (delete (ID e) (held w)) w)) in
            (kept, true, w)
          else let '(kept, expired, w) := dropExpiredHeld t limit rest w in (e :: kept, expired, w)
      | None => let '(kept, expired, w) := dropExpiredHeld t limit rest w in (e :: kept, expired, w)
      end
  end.

(** ** [RunOnce]

    The answer is how many deliveries it started, or the port's error. *)
Definition RunOnce (t : Z) (sched : schedule) (w : Worker P) : option (result worker_error nat * Worker P) :=
  if stopping w then Some (Ok 0%nat, w)
  else
    let '(events, w) := takePending w in
    let '(events, expired, w) := dropExpiredHeld t (leaseHoldLimit w) events w in
    let dispatch events w := (λ r, (Ok (fst r), snd r)) <$> dispatchBatch t sched events w in
    if expired : bool then dispatch events w
    else
      let '(reclaimed, p) := if HasReclaimer (worker_config w) then es_ReclaimExpired (port w)
                             else (Ok 0%nat, port w) in
      let w := set_port p w in
      match reclaimed with
      | Err e => Some (Err (portError e), retainEvents t events w)
      | Ok _ =>
          if hasCapacity (Some (global w)) then
            let '(claimed, p) := es_Claim (BatchSize (worker_config w)) (port w) in
            let w := set_port p w in
            match claimed with
            | Err e => Some (Err (portError e), retainEvents t events w)
            | Ok claimed => dispatch (events ++ claimed) w
            end
          else dispatch events w
      end.

(** ** [Drain] *)

Record DrainResult := { Clean : bool; TimedOut : bool; DrainReleased : list Z; DrainErr : list worker_error }.

Definition Success (r : DrainResult) : bool := Clean r && negb (TimedOut r) && bool_decide (length (DrainErr r) = 0%nat).

Definition takeHeldForDrain (w : Worker P) : list Event * Worker P :=
  (range (pending_ w) ≫= snd, set_held ∅ ∅ w).

(** [waiting] is what happens while the drain waits; [late] is whether the timer is chosen though the
    last delivery has just ended. The range over the tracked events visits [tracked]. *)
Definition Drain (t : Z) (waiting : list disturbance) (late : bool)
    (tracked : gmap Z (list Event) -> list (Z * list Event)) (w : Worker P) : DrainResult * Worker P :=
  let w := foldl disturb (set_drain true (releaseErr w) w) waiting in
  let timedOut := if bool_decide (activity w = ∅) then late else true in
  let active := tracked (activity w) ≫= snd in
  let '(waiting_events, w) := takeHeldForDrain w in
  let '(released, err, w) := releaseHeld t (active ++ waiting_events) (if timedOut then [ErrDrainTimedOut] else []) w in
  let err := err ++ releaseErr w in
  let w := noteDrainError err w in
  ({| Clean := negb timedOut && bool_decide (length err = 0%nat); TimedOut := timedOut; DrainReleased := released;
      DrainErr := err |}, w).
#[local] Arguments Nat.ltb : simpl never.

(** ** The queues of a batch *)

Lemma queue_of_insert queues name name' q :
  queue_of (<[name := q]> queues) name' = if decide (name = name') then q else queue_of queues name'.
Proof.
  unfold queue_of. destruct (decide (name = name')) as [->|]; [by rewrite lookup_insert_eq|].
  by rewrite lookup_insert_ne.
Qed.

Lemma queue_of_empty name : queue_of ∅ name = [].
Proof. unfold queue_of. by rewrite lookup_empty. Qed.

Definition of_listener (name : gostring) (events : list Event) : list Event :=
  filter (λ e, Listener e = name) events.

Lemma by_listener_queue events name : queue_of (by_listener events) name = of_listener name events.
Proof.
  unfold by_listener. induction events as [|e events IH] using rev_ind; [done|].
  rewrite foldl_app. cbn [foldl]. rewrite queue_of_insert. unfold of_listener in *. rewrite filter_app.
  rewrite filter_cons. destruct (decide (Listener e = name)) as [<-|Hne]; [|by rewrite app_nil_r].
  fold (queue_of (foldl (λ queues e, <[Listener e := default [] (queues !! Listener e) ++ [e]]> queues) ∅ events)
          (Listener e)). by rewrite IH.
Qed.

(** How many events a map of queues holds. *)
Definition qsize (queues : gmap gostring (list Event)) : nat :=
  map_fold (λ _ q n, (length q + n)%nat) 0%nat queues.

Lemma qsize_insert queues name q :
  (qsize (<[name := q]> queues) + length (queue_of queues name) = qsize queues + length q)%nat.
Proof.
  unfold qsize, queue_of. destruct (queues !! name) as [q0|] eqn:E; cbn.
  - rewrite <- (insert_delete_id queues name q0) at 2 by done. rewrite <- insert_delete_eq.
    rewrite !map_fold_insert_L by (intros; lia || apply lookup_delete_eq). lia.
  - rewrite map_fold_insert_L by (intros; lia || done). lia.
Qed.

Lemma qsize_by_listener events : qsize (by_listener events) = length events.
Proof.
  unfold by_listener. induction events as [|e events IH] using rev_ind; [done|].
  rewrite foldl_app, length_app. cbn [foldl length].
  set (q := foldl _ _ _) in *. pose proof (qsize_insert q (Listener e) (default [] (q !! Listener e) ++ [e])) as H'.
  rewrite length_app in H'. cbn [length] in H'. unfold queue_of in H'. lia.
Qed.

Lemma allQueuesEmpty_queue queues name : allQueuesEmpty queues = true -> queue_of queues name = [].
Proof.
  unfold allQueuesEmpty, queue_of. rewrite forallb_forall. intros H'.
  destruct (queues !! name) as [q|] eqn:E; [|done].
  specialize (H' (name, q)). cbn in *. apply bool_decide_eq_true in H'; [done|].
  by apply list_elem_of_In, elem_of_map_to_list.
Qed.

(** ** Admission *)

(** The deliveries running for a listener, and for an event id. *)
Definition load (name : gostring) (w : Worker P) : nat := length (of_listener name (running w)).
Definition flights (id : Z) (w : Worker P) : nat := length (filter (λ e, ID e = id) (running w)).

Record admitted (w : Worker P) : Prop := {
  adm_global : slots (global w) = length (running w) /\ (slots (global w) <= capacity (global w))%nat;
  adm_listener name st s : listeners w !! name = Some st -> sem st = Some s ->
    slots s = load name w /\ (slots s <= capacity s)%nat;
  adm_known e : e ∈ running w -> is_Some (listeners w !! Listener e);
  adm_tracked id : length (default [] (activity w !! id)) = flights id w;
  adm_tracked_nonempty id : activity w !! id <> Some [];
  adm_in_flight id : default 0%nat (inFlight w !! id) = flights id w;
  adm_in_flight_nonzero id : inFlight w !! id <> Some 0%nat
}.

(** What a worker is built with and never changes. *)
Definition limits (w : Worker P) : nat * gmap gostring (ListenerConfig * option nat) * list gostring :=
  (capacity (global w), (λ st, (config st, capacity <$> sem st)) <$> listeners w, order w).

(** Two workers with the same admission state. *)
Definition same_admission (w w' : Worker P) : Prop :=
  global w' = global w /\ listeners w' = listeners w /\ order w' = order w /\ inFlight w' = inFlight w /\
  activity w' = activity w /\ running w' = running w.

Lemma same_admission_admitted w w' :
  same_admission w w' -> (admitted w -> admitted w') /\ limits w' = limits w.
Proof.
  intros (Hg & Hl & Ho & Hi & Ha & Hr). split.
  - intros []. split; unfold load, flights in *; rewrite ?Hg, ?Hl, ?Hi, ?Ha, ?Hr; auto.
  - unfold limits. by rewrite Hg, Hl, Ho.
Qed.

Lemma finish_lookup id id' m :
  (forall i, m !! i <> Some 0%nat) -> (0 < default 0%nat (m !! id))%nat ->
  default 0%nat (finish id m !! id') = (default 0%nat (m !! id') - if decide (id = id') then 1 else 0)%nat /\
  finish id m !! id' <> Some 0%nat.
Proof.
  intros Hm H0. unfold finish. destruct (Nat.leb_spec (default 0%nat (m !! id)) 1); destruct (decide (id = id')) as [->|];
    rewrite ?lookup_delete_eq, ?lookup_insert_eq, ?lookup_delete_ne, ?lookup_insert_ne by done; cbn;
    (split; [lia|]); try done; try congruence; auto; try (intros [= Hz]; lia).
Qed.

Lemma untrack_lookup e id' a :
  (forall i, a !! i <> Some []) -> (0 < length (default [] (a !! ID e)))%nat ->
  length (default [] (untrack_event e a !! id')) =
    (length (default [] (a !! id')) - if decide (ID e = id') then 1 else 0)%nat /\
  untrack_event e a !! id' <> Some [].
Proof.
  intros Ha H0. unfold untrack_event.
  destruct (Nat.leb_spec (length (default [] (a !! ID e))) 1); destruct (decide (ID e = id')) as [<-|];
    rewrite ?lookup_delete_eq, ?lookup_insert_eq, ?lookup_delete_ne, ?lookup_insert_ne by done; cbn.
  - split; [lia|done].
  - split; [lia|done].
  - destruct (default [] (a !! ID e)) as [|x [|y l]]; cbn in *; try lia. split; [lia|done].
  - split; [lia|done].
Qed.

Lemma delete_filter {A} (Q : A -> Prop) `{!forall x, Decision (Q x)} (l : list A) i x :
  l !! i = Some x -> length (filter Q (delete i l)) = (length (filter Q l) - if decide (Q x) then 1 else 0)%nat.
Proof.
  intros Hi. rewrite <- (take_drop_middle l i x Hi) at 2. rewrite delete_take_drop.
  rewrite !filter_app, !length_app, filter_cons. destruct (decide (Q x)); cbn; lia.
Qed.

Lemma lookup_filter_pos {A} (Q : A -> Prop) `{!forall x, Decision (Q x)} (l : list A) i x :
  l !! i = Some x -> Q x -> (0 < length (filter Q l))%nat.
Proof.
  intros Hi HQ. apply list_elem_of_lookup_2 in Hi.
  assert (x ∈ filter Q l) as Hf by by apply list_elem_of_filter.
  destruct (filter Q l); [by apply not_elem_of_nil in Hf|cbn; lia].
Qed.

Lemma settle_same e s w : same_admission w (snd (settle e s w)).
Proof.
  unfold settle, settleDead. destruct s.
  - by destruct (es_Ack e d (port w)).
  - by destruct (es_Nack e d retryAt (port w)).
  - by destruct (es_Dead e d reason (port w)).
Qed.

Lemma dead_letter_same e reason w : same_admission w (dead_letter e reason w).
Proof. unfold dead_letter, settleDead. by destruct (es_Dead e (only_error reason) reason (port w)). Qed.

Lemma complete_admitted i t client w : admitted w -> admitted (complete i t client w) /\ limits (complete i t client w) = limits w.
Proof.
  intros Hadm. unfold complete. destruct (running w !! i) as [e|] eqn:Er; [|done].
  destruct (listeners w !! Listener e) as [st|] eqn:El; [|done].
  set (s := attempt e (config st) t client).
  destruct (settle_same e s w) as (Hg & Hl & Ho & Hi & Ha & Hr).
  set (w1 := log (Finished e s) (snd (settle e s w))).
  change (global w1) with (global (snd (settle e s w))).
  change (inFlight w1) with (inFlight (snd (settle e s w))).
  change (activity w1) with (activity (snd (settle e s w))).
  change (running w1) with (running (snd (settle e s w))). rewrite Hi, Ha, Hr.
  destruct Hadm as [[Hs Hc] Hsem Hknown Htr Htr0 Hif Hif0].
  assert (Hpos : (0 < length (running w))%nat) by (apply lookup_lt_Some in Er; lia).
  pose proof (lookup_filter_pos (λ e', ID e' = ID e) _ _ _ Er eq_refl) as Hfl.
  split; [split; cbn|].
  - rewrite Hg, length_delete by eauto. lia.
  - intros name st' s' Hn Hst. unfold load, of_listener. cbn. rewrite (delete_filter _ _ _ _ Er).
    rewrite Hl in Hn. destruct (decide (Listener e = name)) as [<-|Hne].
    + rewrite lookup_insert_eq in Hn. injection Hn as <-. cbn in Hst.
      destruct (sem st) as [s0|] eqn:E0; [|done]. injection Hst as <-. cbn.
      destruct (Hsem _ _ _ El E0) as [H1 H2]. unfold load, of_listener in H1. rewrite H1 in *. lia.
    + rewrite lookup_insert_ne in Hn by done. destruct (Hsem _ _ _ Hn Hst) as [-> ?]. split; [unfold load, of_listener; lia|done].
  - intros e' He'. rewrite Hl. destruct (decide (Listener e = Listener e')) as [E'|Hne].
    + rewrite E', lookup_insert_eq. eauto.
    + rewrite lookup_insert_ne by done. apply Hknown.
      eapply elem_of_sublist; [exact He'|apply sublist_delete].
  - intros id. unfold flights. cbn. rewrite (delete_filter _ _ _ _ Er), (proj1 (untrack_lookup e id _ Htr0 ltac:(rewrite Htr; exact Hfl))).
    by rewrite Htr.
  - intros id. apply untrack_lookup; [done|]. rewrite Htr. exact Hfl.
  - intros id. unfold flights. cbn. rewrite (delete_filter _ _ _ _ Er), (proj1 (finish_lookup (ID e) id _ Hif0 ltac:(rewrite Hif; exact Hfl))).
    by rewrite Hif.
  - intros id. apply finish_lookup; [done|]. rewrite Hif. exact Hfl.
  - unfold limits. cbn. rewrite Hg, Hl, Ho, fmap_insert. cbn. do 2 f_equal.
    rewrite insert_id; [done|]. rewrite lookup_fmap, El. cbn. destruct (sem st); done.
Qed.

Lemma disturb_admitted ds w :
  admitted w -> admitted (foldl disturb w ds) /\ limits (foldl disturb w ds) = limits w.
Proof.
  revert w. induction ds as [|d ds IH]; cbn; [done|]. intros w Hw.
  assert (admitted (disturb w d) /\ limits (disturb w d) = limits w) as [H1 H2].
  { destruct d; cbn; [by apply complete_admitted|]. destruct (same_admission_admitted w (set_drain true (releaseErr w) w)); [done|auto]. }
  destruct (IH _ H1) as [H3 H4]. split; [done|congruence].
Qed.

(** ** What a batch does with its events *)

(** The events dispatch is done with: started, or dead-lettered without a request. *)
Definition begun (h : list happening) : list Event :=
  omap (λ x, match x with Started e | DeadLettered e _ => Some e | _ => None end) h.
Definition starts (h : list happening) : nat :=
  length (omap (λ x, match x with Started e => Some e | _ => None end) h).

Arguments begun : simpl never.
Arguments starts : simpl never.

Lemma begun_app h h' : begun (h ++ h') = begun h ++ begun h'.
Proof. apply omap_app. Qed.
Lemma starts_app h h' : starts (h ++ h') = (starts h + starts h')%nat.
Proof. unfold starts. by rewrite omap_app, length_app. Qed.

(** One step of a worker's loop, the loop being done with [taken] and having started [n] of them. *)
Record step_ok (w w' : Worker P) (taken : list Event) (n : nat) : Prop := {
  step_admitted : admitted w -> admitted w';
  step_limits : admitted w -> limits w' = limits w;
  step_begun : begun (history w') = begun (history w) ++ taken;
  step_starts : starts (history w') = (starts (history w) + n)%nat;
  step_pending : pending_ w' = pending_ w
}.

Lemma step_ok_refl w : step_ok w w [] 0.
Proof. split; auto. by rewrite app_nil_r. Qed.

Lemma step_ok_trans w1 w2 w3 t1 t2 n1 n2 :
  step_ok w1 w2 t1 n1 -> step_ok w2 w3 t2 n2 -> step_ok w1 w3 (t1 ++ t2) (n1 + n2).
Proof.
  intros [A1 L1 B1 S1 P1] [A2 L2 B2 S2 P2]. split; auto.
  - intros Ha. rewrite L2, L1; auto.
  - by rewrite B2, B1, app_assoc.
  - lia.
  - congruence.
Qed.

(** A step that leaves admission alone. *)
Lemma step_ok_same w w' taken n :
  same_admission w w' -> begun (history w') = begun (history w) ++ taken ->
  starts (history w') = (starts (history w) + n)%nat -> pending_ w' = pending_ w -> step_ok w w' taken n.
Proof. intros Hs. destruct (same_admission_admitted w w' Hs). by split. Qed.

Lemma settle_kept e s w : history (snd (settle e s w)) = history w /\ pending_ (snd (settle e s w)) = pending_ w.
Proof.
  unfold settle, settleDead. destruct s.
  - by destruct (es_Ack e d (port w)).
  - by destruct (es_Nack e d retryAt (port w)).
  - by destruct (es_Dead e d reason (port w)).
Qed.

Lemma disturb_kept d w :
  begun (history (disturb w d)) = begun (history w) /\ starts (history (disturb w d)) = starts (history w) /\
  pending_ (disturb w d) = pending_ w.
Proof.
  destruct d as [i t client|]; cbn; [|done]. unfold complete. destruct (running w !! i) as [e|]; [|done].
  destruct (listeners w !! Listener e) as [st|]; [|done]. cbn.
  destruct (settle_kept e (attempt e (config st) t client) w) as [-> ->].
  by rewrite begun_app, starts_app, app_nil_r, Nat.add_0_r.
Qed.

Lemma disturb_step ds w : step_ok w (foldl disturb w ds) [] 0.
Proof.
  split; [apply disturb_admitted|apply disturb_admitted|..];
    (induction ds as [|d ds IH] using rev_ind; [by rewrite ?app_nil_r|]);
    rewrite foldl_app; cbn [foldl]; destruct (disturb_kept d (foldl disturb w ds)) as (E1 & E2 & E3);
    rewrite ?E1, ?E2, ?E3; done.
Qed.

Lemma dead_letter_step e reason w : step_ok w (dead_letter e reason w) [e] 0.
Proof.
  apply step_ok_same; [apply dead_letter_same|..]; unfold dead_letter, settleDead;
    destruct (es_Dead e (only_error reason) reason (port w)); cbn; rewrite ?begun_app, ?starts_app; cbn; rewrite ?Nat.add_0_r; done.
Qed.

Lemma releaseHold_step e w : step_ok w (releaseHold e w) [] 0.
Proof. apply step_ok_same; [done|by rewrite app_nil_r|cbn; lia|done]. Qed.

(** The state of a worker that starts the delivery of [e]. *)
Definition started_worker (e : Event) (st : listenerState) (w : Worker P) : Worker P :=
  log (Started e)
    (set_tracking (note_in_flight (ID e) (inFlight w)) (track_event e (activity w)) (running w ++ [e])
       (set_admission {| slots := S (slots (global w)); capacity := capacity (global w) |}
          (<[Listener e := {| config := config st; sem := snd (tryAcquire (sem st)) |}]> (listeners w)) w)).

Lemma filter_snoc_length {A} (Q : A -> Prop) `{!forall x, Decision (Q x)} (l : list A) x :
  length (filter Q (l ++ [x])) = (length (filter Q l) + if decide (Q x) then 1 else 0)%nat.
Proof. rewrite filter_app, length_app, filter_cons. destruct (decide (Q x)); cbn; lia. Qed.

Lemma tryAcquire_capacity s : capacity <$> snd (tryAcquire s) = capacity <$> s.
Proof. destruct s as [s|]; [|done]. unfold tryAcquire. by destruct (Nat.ltb (slots s) (capacity s)). Qed.

Lemma started_admitted e st w :
  admitted w -> listeners w !! Listener e = Some st -> (slots (global w) < capacity (global w))%nat ->
  fst (tryAcquire (sem st)) = true ->
  admitted (started_worker e st w) /\ limits (started_worker e st w) = limits w.
Proof.
  intros [[Hs Hc] Hsem Hknown Htr Htr0 Hif Hif0] Hl Hcap Hacq. split; [split; cbn|].
  - rewrite length_app. cbn. lia.
  - intros name st' s' Hn Hst. unfold load, of_listener. cbn. rewrite filter_snoc_length.
    destruct (decide (Listener e = name)) as [<-|Hne].
    + rewrite lookup_insert_eq in Hn. injection Hn as <-. cbn in Hst.
      destruct (sem st) as [s0|] eqn:E0; [|done]. revert Hacq Hst. unfold tryAcquire.
      destruct (Nat.ltb_spec (slots s0) (capacity s0)); [intros _ [= <-]|done]. cbn. destruct (Hsem _ _ _ Hl E0) as [H1 _]. unfold load, of_listener in H1. lia.
    + rewrite lookup_insert_ne in Hn by done. destruct (Hsem _ _ _ Hn Hst) as [E1 E2]. unfold load, of_listener in *. lia.
  - intros e' He'. destruct (decide (Listener e = Listener e')) as [E'|Hne].
    + rewrite E', lookup_insert_eq. eauto.
    + rewrite lookup_insert_ne by done. apply elem_of_app in He' as [He'|He'%list_elem_of_singleton]; [auto|congruence].
  - intros id. unfold flights, track_event. cbn. rewrite filter_snoc_length. destruct (decide (ID e = id)) as [<-|Hne].
    + rewrite lookup_insert_eq. cbn. rewrite length_app, Htr. done.
    + rewrite lookup_insert_ne, Htr by done. unfold flights. lia.
  - intros id. unfold track_event. destruct (decide (ID e = id)) as [<-|Hne].
    + rewrite lookup_insert_eq. intros [= Hx]. by apply app_eq_nil in Hx as [_ ?].
    + by rewrite lookup_insert_ne.
  - intros id. unfold flights, note_in_flight. cbn. rewrite filter_snoc_length. destruct (decide (ID e = id)) as [<-|Hne].
    + rewrite lookup_insert_eq. cbn. rewrite Hif. unfold flights. lia.
    + rewrite lookup_insert_ne, Hif by done. unfold flights. lia.
  - intros id. unfold note_in_flight. destruct (decide (ID e = id)) as [<-|Hne];
      [by rewrite lookup_insert_eq|by rewrite lookup_insert_ne].
  - unfold limits. cbn. rewrite fmap_insert. cbn. do 2 f_equal. rewrite insert_id; [done|].
    rewrite lookup_fmap, Hl. cbn [fmap option_fmap option_map]. by rewrite tryAcquire_capacity.
Qed.

Lemma finish_note id m : (forall i, m !! i <> Some 0%nat) -> finish id (note_in_flight id m) = m.
Proof.
  intros Hm. apply map_eq. intros i. unfold finish, note_in_flight. rewrite lookup_insert_eq. cbn.
  destruct (m !! id) as [[|n]|] eqn:Ei; cbn; [by destruct (Hm id)|..];
    (destruct (decide (id = i)) as [<-|]; [|by rewrite ?lookup_insert_ne, ?lookup_delete_ne, ?lookup_insert_ne by done]);
    by rewrite ?lookup_insert_eq, ?lookup_delete_eq.
Qed.

Definition too_large (e : Event) (st : listenerState) : bool :=
  (0 <? MaxPayloadBytes (config st)) && (MaxPayloadBytes (config st) <? Z.of_nat (length (Payload e))).

(** The admission of an event, its slots taken together or not at all. *)
Lemma tryDispatch_eq e st racing w :
  (forall i, inFlight w !! i <> Some 0%nat) -> listeners w !! Listener e = Some st ->
  stopping w = false ->
  tryDispatch e st racing w =
    if too_large e st
    then (dispatchConsumed, dead_letter e (snd (checkPayloadSize (Payload e) (MaxPayloadBytes (config st)))) w)
    else if hasCapacity (Some (global w)) && hasCapacity (sem st) then
      if racing then (dispatchBlocked, set_drain true (releaseErr w) w)
      else (dispatchAccepted, started_worker e st w)
    else (dispatchBlocked, w).
Proof.
  intros Hif Hl Hst. unfold tryDispatch, too_large, checkPayloadSize. rewrite Hst.
  destruct (Z.ltb_spec 0 (MaxPayloadBytes (config st))); cbn [andb negb];
    [rewrite Z.ltb_antisym; destruct (Z.leb_spec (Z.of_nat (length (Payload e))) (MaxPayloadBytes (config st))); cbn [negb]; [|done]|];
    destruct w as [p c [gs gc] ls o i a s err pd h r hist], st as [cf [[ss sc]|]];
    cbn [global sem slots capacity hasCapacity listeners stopping inFlight] in *; subst s;
    unfold tryAcquire; cbn [slots capacity]; destruct (Nat.ltb gs gc) eqn:E1; cbn [andb]; try done;
    try destruct (Nat.ltb ss sc) eqn:E2; cbn [andb]; try done; destruct racing; try done; cbn;
    rewrite ?E1, ?finish_note, ?insert_insert_eq, ?insert_id by done; try done;
    unfold started_worker, tryAcquire; cbn; by rewrite ?E1, ?E2.
Qed.

(** A blocked admission gives back what it took. *)
Lemma tryDispatch_step e st racing w :
  listeners w !! Listener e = Some st -> admitted w ->
  let '(r, w') := tryDispatch e st racing w in
  step_ok w w' (match r with dispatchBlocked => [] | _ => [e] end)
    (match r with dispatchAccepted => 1 | _ => 0 end) /\
  (r = dispatchBlocked -> stopping w = false -> racing = false ->
   w' = w /\ (hasCapacity (Some (global w)) = false \/ hasCapacity (sem st) = false)).
Proof.
  intros Hl Hadm. destruct (stopping w) eqn:Est.
  { unfold tryDispatch. rewrite Est. split; [apply step_ok_refl|done]. }
  rewrite tryDispatch_eq; [|apply Hadm|done..].
  destruct (too_large e st); [split; [apply dead_letter_step|done]|].
  destruct (hasCapacity (Some (global w)) && hasCapacity (sem st)) eqn:Ecap.
  - destruct racing.
    + split; [|done]. apply step_ok_same; [done|by rewrite app_nil_r|cbn; lia|done].
    + split; [|done]. apply andb_true_iff in Ecap as [Hg Hs].
      assert (Ha : admitted (started_worker e st w) /\ limits (started_worker e st w) = limits w).
      { apply started_admitted; [done..| |].
        - unfold hasCapacity in Hg. by apply Nat.ltb_lt.
        - unfold hasCapacity in Hs. destruct (sem st); [|done]. unfold tryAcquire. by rewrite Hs. }
      split; try (intros; apply Ha); unfold started_worker; cbn; by rewrite ?begun_app, ?starts_app.
  - split; [apply step_ok_refl|]. intros _ _ _. split; [done|]. by apply andb_false_iff.
Qed.

(** ** The dispatch loop *)

Definition keyed (queues : gmap gostring (list Event)) : Prop :=
  forall name e, e ∈ queue_of queues name -> Listener e = name.

Lemma keyed_by_listener events : keyed (by_listener events).
Proof. intros name e. rewrite by_listener_queue. unfold of_listener. by intros [? _]%list_elem_of_filter. Qed.

(** From [l] to [l'] the loop is done with [taken], in order, and has started [n] of them. *)
Record loop_ok (l l' : loop) (taken : list Event) (n : nat) : Prop := {
  loop_step : step_ok (worker_ l) (worker_ l') taken n;
  loop_accepted : accepted l' = (accepted l + n)%nat;
  loop_queues name : queue_of (queues_ l) name = of_listener name taken ++ queue_of (queues_ l') name;
  loop_size : qsize (queues_ l) = (length taken + qsize (queues_ l'))%nat;
  loop_progress : progress l' = progress l || negb (bool_decide (taken = []))
}.

Lemma loop_ok_refl l l' :
  queues_ l' = queues_ l -> accepted l' = accepted l -> progress l' = progress l ->
  step_ok (worker_ l) (worker_ l') [] 0 -> loop_ok l l' [] 0.
Proof.
  intros Hq Ha Hp Hs. split; rewrite ?Hq, ?Ha, ?Hp; try done; try lia; by destruct (progress l).
Qed.

Lemma loop_ok_trans l1 l2 l3 t1 t2 n1 n2 :
  loop_ok l1 l2 t1 n1 -> loop_ok l2 l3 t2 n2 -> loop_ok l1 l3 (t1 ++ t2) (n1 + n2).
Proof.
  intros [S1 A1 Q1 Z1 P1] [S2 A2 Q2 Z2 P2]. split.
  - by eapply step_ok_trans.
  - lia.
  - intros name. unfold of_listener in *. by rewrite Q1, Q2, filter_app, app_assoc.
  - rewrite length_app. lia.
  - rewrite P2, P1, <- orb_assoc. f_equal. destruct t1; cbn; [done|]. by destruct (bool_decide (t2 = [])).
Qed.

Lemma loop_ok_keyed l l' taken n : loop_ok l l' taken n -> keyed (queues_ l) -> keyed (queues_ l').
Proof. intros [_ _ Hq _ _] Hk name e He. apply Hk. rewrite Hq. set_solver. Qed.

(** Taking the head of a queue. *)
Lemma take_head l l' name e rest n :
  keyed (queues_ l) -> queue_of (queues_ l) name = e :: rest -> queues_ l' = <[name := rest]> (queues_ l) ->
  step_ok (worker_ l) (worker_ l') [e] n -> accepted l' = (accepted l + n)%nat -> progress l' = true ->
  loop_ok l l' [e] n.
Proof.
  intros Hk Hq Hq' Hs Ha Hp. assert (Listener e = name) as He by (apply Hk; rewrite Hq; set_solver).
  split; try done.
  - intros name'. rewrite Hq', queue_of_insert. unfold of_listener. rewrite filter_cons, He.
    destruct (decide (name = name')) as [<-|]; [by rewrite Hq|done].
  - rewrite Hq'. pose proof (qsize_insert (queues_ l) name rest) as H'. rewrite Hq in H'. cbn in *. lia.
  - rewrite Hp. cbn. by rewrite orb_true_r.
Qed.

Lemma visit_ok sched l name :
  admitted (worker_ l) -> keyed (queues_ l) -> exists taken n, loop_ok l (visit sched l name) taken n.
Proof.
  intros Hadm Hk. unfold visit. set (w := foldl disturb (worker_ l) (before sched (at_ l))).
  assert (Hd : step_ok (worker_ l) w [] 0) by apply disturb_step.
  assert (Hw : admitted w) by by apply Hd.
  destruct (queue_of (queues_ l) name) as [|e rest] eqn:Eq; [exists [], 0%nat; by apply loop_ok_refl|].
  assert (He : Listener e = name) by (apply Hk; rewrite Eq; set_solver).
  destruct (listeners w !! name) as [st|] eqn:El.
  - pose proof (tryDispatch_step e st (races sched (at_ l)) w ltac:(by rewrite He) Hw) as Ht.
    destruct (tryDispatch e st (races sched (at_ l)) w) as [r w'] eqn:Et. destruct Ht as [Ht _].
    pose proof (step_ok_trans _ _ _ _ _ _ _ Hd Ht) as Hall. cbn [app Nat.add] in Hall.
    destruct r; cbn iota in *.
    + exists [], 0%nat. by apply loop_ok_refl.
    + exists [e], 0%nat. eapply (take_head _ _ name e rest); try done; cbn [worker_ accepted]; try lia.
      apply (step_ok_trans _ _ _ [e] [] 0 0 Hall). apply releaseHold_step.
    + exists [e], 1%nat. eapply (take_head _ _ name e rest); try done; cbn [worker_ accepted]; try lia.
      apply (step_ok_trans _ _ _ [e] [] 1 0 Hall). apply releaseHold_step.
  - exists [e], 0%nat. eapply (take_head _ _ name e rest); try done; cbn [worker_ accepted]; try lia.
    apply (step_ok_trans _ _ _ [] [e] 0 0 Hd).
    apply (step_ok_trans _ _ _ [] [e] 0 0 (releaseHold_step e w)). apply dead_letter_step.
Qed.

Lemma visits_ok sched names l :
  admitted (worker_ l) -> keyed (queues_ l) ->
  exists taken n, loop_ok l (foldl (visit sched) l names) taken n.
Proof.
  revert l. induction names as [|name names IH]; intros l Hadm Hk; cbn [foldl].
  - exists [], 0%nat. apply loop_ok_refl; try done. apply step_ok_refl.
  - destruct (visit_ok sched l name Hadm Hk) as (t1 & n1 & H1).
    destruct (IH (visit sched l name)) as (t2 & n2 & H2); [by apply (loop_step _ _ _ _ H1)|by eapply loop_ok_keyed|].
    exists (t1 ++ t2), (n1 + n2)%nat. by eapply loop_ok_trans.
Qed.

(** A round without progress takes nothing; one with progress takes something. *)
Lemma one_round_ok sched names l :
  admitted (worker_ l) -> keyed (queues_ l) ->
  exists taken n,
    loop_ok {| at_ := at_ l; worker_ := worker_ l; queues_ := queues_ l; progress := false; accepted := accepted l |}
      (one_round sched names l) taken n /\
    progress (one_round sched names l) = negb (bool_decide (taken = [])).
Proof.
  intros Hadm Hk. unfold one_round.
  destruct (visits_ok sched names
    {| at_ := at_ l; worker_ := worker_ l; queues_ := queues_ l; progress := false; accepted := accepted l |} Hadm Hk)
    as (taken & n & Hl). exists taken, n. split; [done|]. apply (loop_progress _ _ _ _ Hl).
Qed.

(** Each round with progress takes an event, so one round more than there are events is enough. *)
Lemma rounds_ok fuel sched names l :
  admitted (worker_ l) -> keyed (queues_ l) -> (qsize (queues_ l) < fuel)%nat ->
  exists l' taken n, rounds fuel sched names l = Some l' /\
    step_ok (worker_ l) (worker_ l') taken n /\ accepted l' = (accepted l + n)%nat /\
    (forall name, queue_of (queues_ l) name = of_listener name taken ++ queue_of (queues_ l') name) /\
    (progress l' = true -> forall name, queue_of (queues_ l') name = []).
Proof.
  revert l. induction fuel as [|fuel IH]; intros l Hadm Hk Hf; [lia|]. cbn [rounds].
  destruct (one_round_ok sched names l Hadm Hk) as (t1 & n1 & H1 & Hp).
  set (l1 := one_round sched names l) in *.
  destruct (progress l1) eqn:Ep; cbn [negb orb].
  - destruct (allQueuesEmpty (queues_ l1)) eqn:Ee.
    + exists l1, t1, n1. split_and!; [done|apply H1..|]. intros _ name. by apply allQueuesEmpty_queue.
    + assert (t1 <> []) as Hne by (intros ->; by rewrite bool_decide_eq_true_2 in Hp by done).
      pose proof (loop_size _ _ _ _ H1) as Hsz. cbn in Hsz.
      destruct (IH l1) as (l' & t2 & n2 & Hr & Hs & Ha & Hq & Hdone);
        [by apply H1|by eapply (loop_ok_keyed _ _ _ _ H1)|destruct t1; [done|cbn in Hsz; lia]|].
      exists l', (t1 ++ t2), (n1 + n2)%nat. rewrite Hr. split_and!; try done.
      * eapply step_ok_trans; [apply H1|done].
      * pose proof (loop_accepted _ _ _ _ H1) as Hacc. cbn in Hacc. lia.
      * intros name. rewrite (loop_queues _ _ _ _ H1 name : queue_of (queues_ l) name = _).
        unfold of_listener in *. by rewrite Hq, filter_app, app_assoc.
  - exists l1, t1, n1. split_and!; [done|apply H1..|]. congruence.
Qed.

(** ** Retaining what is left *)

Hypothesis range_visits : forall m, range m ≡ₚ map_to_list m.

Lemma range_lookup m name q : (name, q) ∈ range m <-> m !! name = Some q.
Proof. by rewrite range_visits, elem_of_map_to_list. Qed.

Lemma range_NoDup m : NoDup (map fst (range m)).
Proof. rewrite range_visits. apply NoDup_fst_map_to_list. Qed.

Lemma retain_queues_pending t name (L : list (gostring * list Event)) (w : Worker P) :
  NoDup (map fst L) ->
  queue_of (pending_ (foldl (retain_queue t) w L)) name =
    queue_of (pending_ w) name ++ queue_of (list_to_map L) name.
Proof.
  revert w. induction L as [|[n q] L IH]; intros w Hnd; cbn [foldl list_to_map fst snd foldr].
  { unfold queue_of at 3. rewrite lookup_empty. by rewrite app_nil_r. }
  apply NoDup_cons in Hnd as [Hn Hnd]. rewrite IH, queue_of_insert by done.
  assert (Hq : queue_of (pending_ (retain_queue t w (n, q))) name =
    queue_of (pending_ w) name ++ if decide (n = name) then q else []).
  { unfold retain_queue. cbn. destruct q as [|e q]; [by destruct (decide (n = name)); rewrite app_nil_r|].
    rewrite queue_of_insert. destruct (decide (n = name)) as [->|]; [done|by rewrite app_nil_r]. }
  rewrite Hq. destruct (decide (n = name)) as [->|Hne]; [|by rewrite app_nil_r].
  unfold queue_of at 2. rewrite (not_elem_of_list_to_map_1 L name) by done. by rewrite app_nil_r.
Qed.

Lemma retainPending_queue t queues (w : Worker P) name :
  stopping w = false ->
  queue_of (pending_ (retainPending t queues w)) name = queue_of (pending_ w) name ++ queue_of queues name.
Proof.
  intros Hs. unfold retainPending. rewrite Hs. rewrite retain_queues_pending by apply range_NoDup.
  f_equal. f_equal. rewrite <- (list_to_map_to_list queues) at 2.
  apply list_to_map_proper; [apply range_NoDup|apply range_visits].
Qed.

(** ** Releasing *)

Lemma nack_same e d t (w : Worker P) : same_admission w (set_port (snd (es_Nack e d t (port w))) w).
Proof. done. Qed.

Lemma release_each_step t seen released err events w :
  step_ok w (snd (release_each t seen released err events w)) [] 0.
Proof.
  revert seen released err w. induction events as [|e events IH]; intros seen released err w; cbn [release_each].
  { apply step_ok_refl. }
  case_bool_decide; [apply IH|]. destruct (es_Nack e release_delivery t (port w)) as [answer p].
  assert (Hset : step_ok w (set_port p w) [] 0)
    by (apply step_ok_same; [done|by rewrite app_nil_r|cbn; lia|done]).
  assert (Hlog : step_ok w (log (Released (ID e)) (set_port p w)) [] 0).
  { apply step_ok_same; [done|..|done]; cbn; by rewrite ?begun_app, ?starts_app, ?Nat.add_0_r. }
  destruct answer as [[]|[]]; (eapply (step_ok_trans _ _ _ [] [] 0 0); [|apply IH]; done).
Qed.

Lemma releaseHeld_step t events prior w : step_ok w (snd (releaseHeld t events prior w)) [] 0.
Proof. apply release_each_step. Qed.

Lemma noteDrainError_step err w : step_ok w (noteDrainError err w) [] 0.
Proof. apply step_ok_same; [done|by rewrite app_nil_r|cbn; lia|done]. Qed.

(** Retaining changes the queues and the holds only. *)
Record retained_ok (w w' : Worker P) : Prop := {
  ret_admitted : admitted w -> admitted w';
  ret_limits : admitted w -> limits w' = limits w;
  ret_begun : begun (history w') = begun (history w);
  ret_starts : starts (history w') = starts (history w);
  ret_stopping : stopping w' = stopping w;
  ret_pending : stopping w = true -> pending_ w' = pending_ w
}.

Lemma release_each_stopping t seen released err events w :
  stopping (snd (release_each t seen released err events w)) = stopping w.
Proof.
  revert seen released err w. induction events as [|e events IH]; intros seen released err w; cbn [release_each]; [done|].
  case_bool_decide; [apply IH|]. destruct (es_Nack e release_delivery t (port w)) as [answer p].
  destruct answer as [[]|[]]; by rewrite IH.
Qed.

Lemma retain_fold_same t L w :
  let w' := foldl (retain_queue t) w L in
  same_admission w w' /\ history w' = history w /\ stopping w' = stopping w.
Proof. revert w. induction L as [|p L IH]; intros w; cbn [foldl]; [done|]. apply (IH (retain_queue t w p)). Qed.

Lemma retainPending_ok t queues w : retained_ok w (retainPending t queues w).
Proof.
  unfold retainPending. destruct (stopping w) eqn:Es.
  - pose proof (releaseHeld_step t (range queues ≫= snd) [] w) as Hr.
    pose proof (release_each_stopping t ∅ [] [] (range queues ≫= snd) w) as Hst. unfold releaseHeld in *.
    destruct (release_each _ _ _ _ _ _) as [[rel err] w1]. cbn [snd] in *.
    pose proof (step_ok_trans _ _ _ _ _ _ _ Hr (noteDrainError_step err w1)) as [Ha Hl Hb Hs Hp].
    split; auto; [by rewrite Hb, app_nil_r|lia].
  - destruct (retain_fold_same t (range queues) w) as (Hsame & Hh & Hst).
    destruct (same_admission_admitted _ _ Hsame). split; rewrite ?Hh; try done. congruence.
Qed.

(** ** Releasing *)

Definition released_ids (h : list happening) : list Z :=
  omap (λ x, match x with Released id => Some id | _ => None end) h.

(** How the release of an id ended: it was given back, it was no longer claimed, or its error is kept. *)
Definition release_outcome (t : Z) (events : list Event) (rel : list Z) (err : list worker_error) (id : Z) : Prop :=
  exists e s, e ∈ events /\ ID e = id /\
    match fst (es_Nack e release_delivery t s) with
    | Ok _ => id ∈ rel
    | Err ErrEventNotClaimed => True
    | Err x => portError x ∈ err
    end.

Record release_ok (t : Z) (seen : gset Z) (released : list Z) (err : list worker_error) (events : list Event)
    (w : Worker P) (rel : list Z) (err' : list worker_error) (w' : Worker P) : Prop := {
  rel_more : exists more, rel = released ++ more /\ NoDup more /\
    (forall id, id ∈ more -> id ∉ seen /\ exists e, e ∈ events /\ ID e = id) /\
    released_ids (history w') = released_ids (history w) ++ more;
  rel_err : err ⊆ err';
  rel_all e : e ∈ events -> ID e ∉ seen -> release_outcome t events rel err' (ID e);
  rel_kept : pending_ w' = pending_ w /\ held w' = held w /\ releaseErr w' = releaseErr w /\ running w' = running w
}.

Lemma release_outcome_cons t e events rel err id :
  release_outcome t events rel err id -> release_outcome t (e :: events) rel err id.
Proof. intros (e' & s & He & Hid & Hm). exists e', s. split_and!; [by right|done..]. Qed.

Lemma release_ok_skip t seen released err e events w rel err' w' :
  ID e ∈ seen -> release_ok t seen released err events w rel err' w' ->
  release_ok t seen released err (e :: events) w rel err' w'.
Proof.
  intros Hs [(more & Hrel & Hnd & Hm & Hh) He Hall Hk]. split; try done.
  - exists more. split_and!; try done. intros id Hid. destruct (Hm id Hid) as (? & e' & ? & ?).
    split; [done|]. exists e'. split; [by right|done].
  - intros e0 [->|He0]%elem_of_cons Hno; [done|]. by apply release_outcome_cons, Hall.
Qed.

Lemma release_ok_step t seen released err e events w rel err' w' answer p gain err1 w1 :
  ID e ∉ seen -> es_Nack e release_delivery t p = (answer, port w1) ->
  release_ok t ({[ID e]} ∪ seen) (released ++ gain) err1 events w1 rel err' w' ->
  gain = match answer with Ok _ => [ID e] | Err _ => [] end ->
  released_ids (history w1) = released_ids (history w) ++ gain -> err ⊆ err1 ->
  match answer with Ok _ | Err ErrEventNotClaimed => True | Err x => portError x ∈ err1 end ->
  pending_ w1 = pending_ w /\ held w1 = held w /\ releaseErr w1 = releaseErr w /\ running w1 = running w ->
  release_ok t seen released err (e :: events) w rel err' w'.
Proof.
  intros Hno Hn [(more & Hrel & Hnd & Hm & Hh) He Hall (K1 & K2 & K3 & K4)] Hg Hh1 Herr Ha (J1 & J2 & J3 & J4).
  assert (Hgain : forall id, id ∈ gain -> id = ID e).
  { intros id Hid. rewrite Hg in Hid. destruct answer; [by apply list_elem_of_singleton|by apply not_elem_of_nil in Hid]. }
  split.
  - exists (gain ++ more). split_and!.
    + by rewrite Hrel, app_assoc.
    + apply NoDup_app. split_and!; [rewrite Hg; destruct answer; [apply NoDup_singleton|constructor]| |done].
      intros id Hid%Hgain Hin. destruct (Hm id Hin) as [Hx _]. set_solver.
    + intros id [Hid%Hgain|Hid]%elem_of_app; [subst; split; [done|]; exists e; split; [by left|done]|].
      destruct (Hm id Hid) as (? & e' & ? & ?). split; [set_solver|]. exists e'. split; [by right|done].
    + by rewrite Hh, Hh1, app_assoc.
  - set_solver.
  - intros e0 He0 Hs0. destruct (decide (ID e0 = ID e)) as [Hid|Hid].
    + exists e, p. rewrite Hid, Hn. split_and!; [by left|done|]. cbn. destruct answer as [u|[]]; try done; try (by apply He).
      rewrite Hrel, Hg. set_solver.
    + apply elem_of_cons in He0 as [->|He0]; [done|]. apply release_outcome_cons, Hall; [done|set_solver].
  - split_and!; congruence.
Qed.

Lemma release_each_spec t seen released err events w :
  let '(rel, err', w') := release_each t seen released err events w in
  release_ok t seen released err events w rel err' w'.
Proof.
  revert seen released err w. induction events as [|e events IH]; intros seen released err w; cbn [release_each].
  { split; try done; [|by intros e ?%not_elem_of_nil]. exists []. rewrite !app_nil_r.
    split_and!; [done|constructor| |done]. by intros id ?%not_elem_of_nil. }
  case_bool_decide as Hseen.
  { specialize (IH seen released err w). destruct (release_each _ _ _ _ _ _) as [[rel err'] w'].
    by apply release_ok_skip. }
  destruct (es_Nack e release_delivery t (port w)) as [answer p] eqn:En.
  assert (Hstep : forall gain err1 w1, port w1 = p ->
    gain = match answer with Ok _ => [ID e] | Err _ => [] end ->
    released_ids (history w1) = released_ids (history w) ++ gain -> err ⊆ err1 ->
    match answer with Ok _ | Err ErrEventNotClaimed => True | Err x => portError x ∈ err1 end ->
    pending_ w1 = pending_ w /\ held w1 = held w /\ releaseErr w1 = releaseErr w /\ running w1 = running w ->
    let '(rel, err', w') := release_each t ({[ID e]} ∪ seen) (released ++ gain) err1 events w1 in
    release_ok t seen released err (e :: events) w rel err' w').
  { intros gain err1 w1 Hp Hg Hh1 Herr Ha Hk. specialize (IH ({[ID e]} ∪ seen) (released ++ gain) err1 w1).
    destruct (release_each _ _ _ _ _ _) as [[rel err'] w'].
    eapply (release_ok_step _ _ _ _ _ _ _ _ _ _ _ (port w) gain err1 w1); try done. by rewrite Hp. }
  destruct answer as [[]|x].
  - apply (Hstep [ID e] err (log (Released (ID e)) (set_port p w))); try done.
    unfold released_ids. cbn. by rewrite omap_app.
  - assert (Hend : forall err1, err ⊆ err1 -> x = ErrEventNotClaimed \/ portError x ∈ err1 ->
      let '(rel, err', w') := release_each t ({[ID e]} ∪ seen) released err1 events (set_port p w) in
      release_ok t seen released err (e :: events) w rel err' w').
    { intros err1 Herr Hx. pose proof (Hstep [] err1 (set_port p w)) as Hs. rewrite !app_nil_r in Hs.
      apply Hs; try done. destruct x; destruct Hx; done. }
    destruct x; apply Hend; try set_solver; by left.
Qed.

Lemma release_outcome_mono t events rel err err' id :
  err ⊆ err' -> release_outcome t events rel err id -> release_outcome t events rel err' id.
Proof.
  intros Hs (e & s & He & Hid & Hm). exists e, s. split_and!; [done..|].
  destruct (fst _) as [|[]]; auto.
Qed.

(** ** Queues as one list *)

Lemma of_listener_bind name (L : list (gostring * list Event)) :
  NoDup (map fst L) -> (forall n q e, (n, q) ∈ L -> e ∈ q -> Listener e = n) ->
  of_listener name (L ≫= snd) = queue_of (list_to_map L) name.
Proof.
  induction L as [|[n q] L IH]; intros Hnd Hk; cbn [mbind list_bind list_to_map foldr fst snd map] in *; [done|].
  apply NoDup_cons in Hnd as [Hn Hnd]. unfold of_listener in *. rewrite filter_app, queue_of_insert.
  rewrite IH; [|done|intros; eapply Hk; [right|]; done].
  assert (Hq : forall e, e ∈ q -> Listener e = n) by (intros e He; eapply Hk; [left|done]).
  destruct (decide (n = name)) as [->|Hne].
  - unfold queue_of. rewrite (not_elem_of_list_to_map_1 L name) by done. cbn. rewrite app_nil_r.
    clear -Hq. induction q as [|e q IH]; [done|]. rewrite filter_cons_True by (apply Hq; left).
    f_equal. apply IH. intros. apply Hq. by right.
  - replace (filter (λ e, Listener e = name) q) with (@nil Event); [done|].
    clear -Hq Hne. induction q as [|e q IH]; [done|].
    rewrite filter_cons_False by (rewrite (Hq e) by left; done). apply IH. intros. apply Hq. by right.
Qed.

Lemma keyed_lookup queues n q e : keyed queues -> queues !! n = Some q -> e ∈ q -> Listener e = n.
Proof. intros Hk Hn He. apply Hk. unfold queue_of. by rewrite Hn. Qed.

Lemma range_queue queues name :
  keyed queues -> of_listener name (range queues ≫= snd) = queue_of queues name.
Proof.
  intros Hk. rewrite of_listener_bind; [|apply range_NoDup|].
  - f_equal. rewrite <- (list_to_map_to_list queues) at 2. apply list_to_map_proper; [apply range_NoDup|apply range_visits].
  - intros n q e Hn. apply range_lookup in Hn. by eapply keyed_lookup.
Qed.

(** What a worker that is draining offers back to its port, each event with how its release ended: it
    was released, it was no longer claimed, or its error is kept for the verdict. *)
Definition offered_back (t : Z) (returned : list Event) (w : Worker P) : Prop :=
  forall e, e ∈ returned -> release_outcome t returned (released_ids (history w)) (releaseErr w) (ID e).

Lemma retainPending_returns t queues w :
  stopping w = true -> offered_back t (range queues ≫= snd) (retainPending t queues w).
Proof.
  intros Hst e He. unfold retainPending, releaseHeld. rewrite Hst.
  pose proof (release_each_spec t ∅ [] [] (range queues ≫= snd) w) as Hs.
  destruct (release_each _ _ _ _ _ _) as [[rel err] w1]. destruct Hs as [(more & -> & _ & _ & Hh) _ Hall _].
  destruct (Hall e He) as (e' & s & He' & Hid & Hm); [set_solver|]. exists e', s. split_and!; [done..|].
  cbn [noteDrainError set_drain history releaseErr]. rewrite Hh.
  destruct (fst _) as [|[]]; try done; cbn in *; set_solver.
Qed.

(** ** A batch *)

(** The batch ends, with an account of its events. *)
Lemma dispatchBatch_ok t sched events w :
  admitted w ->
  exists n w' taken rest, dispatchBatch t sched events w = Some (n, w') /\
    admitted w' /\ limits w' = limits w /\
    begun (history w') = begun (history w) ++ taken /\ starts (history w') = (starts (history w) + n)%nat /\
    (forall name, of_listener name events = of_listener name taken ++ rest name) /\
    (stopping w' = false -> forall name,
       queue_of (pending_ w') name = queue_of (pending_ w) name ++ rest name) /\
    (stopping w' = true -> pending_ w' = pending_ w /\
       exists returned, (forall name, of_listener name returned = rest name) /\ offered_back t returned w').
Proof.
  intros Hadm. unfold dispatchBatch.
  destruct (rounds_ok (S (length events)) sched (listenerNames w (by_listener events))
    {| at_ := 0; worker_ := w; queues_ := by_listener events; progress := false; accepted := 0 |})
    as (l' & taken & n & Hr & [Ha Hl Hb Hs Hp] & Hacc & Hq & Hdone); [done|apply keyed_by_listener|..].
  { cbn [queues_]. rewrite qsize_by_listener. lia. }
  rewrite Hr. cbn [fmap option_fmap option_map worker_ queues_ accepted] in *.
  destruct (retainPending_ok t (queues_ l') (worker_ l')) as [Ra Rl Rb Rs Rst Rp].
  eexists _, _, taken, (queue_of (queues_ l')). split; [done|].
  assert (Hq' : forall name, of_listener name events = of_listener name taken ++ queue_of (queues_ l') name).
  { intros name. rewrite <- by_listener_queue. apply Hq. }
  destruct (progress l') eqn:Ep.
  - split_and!; auto; [lia| |].
    + intros _ name. by rewrite Hp, (Hdone eq_refl), app_nil_r.
    + intros _. split; [done|]. exists []. split; [intros name; by rewrite (Hdone eq_refl)|].
      by intros e ?%not_elem_of_nil.
  - split_and!; auto.
    + rewrite Rl; auto.
    + by rewrite Rb, Hb.
    + lia.
    + intros Hst name. rewrite Rst in Hst. rewrite retainPending_queue by done. by rewrite Hp.
    + intros Hst. rewrite Rst in Hst. split; [by rewrite Rp, Hp|].
      exists (range (queues_ l') ≫= snd). split; [|by apply retainPending_returns].
      intros name. apply range_queue. intros name' e He.
      assert (e ∈ of_listener name' events) as Hin by (rewrite Hq'; set_solver).
      unfold of_listener in Hin. by apply list_elem_of_filter in Hin as [? _].
Qed.

(** Dispatching a batch always ends and loses nothing: whatever deliveries complete and whenever a
    drain begins meanwhile, the loop stops within one round more than the batch has events; each
    listener's events are started or dead-lettered in the order they were claimed, and what is left of
    them -- a suffix -- waits, in order, behind what the listener already had waiting; and the number
    answered is the number of deliveries started. *)
Theorem dispatchBatch_conserves t sched events w :
  admitted w ->
  exists n w' taken rest, dispatchBatch t sched events w = Some (n, w') /\
    begun (history w') = begun (history w) ++ taken /\ starts (history w') = (starts (history w) + n)%nat /\
    (forall name, of_listener name events = of_listener name taken ++ rest name) /\
    (stopping w' = false -> forall name,
       queue_of (pending_ w') name = queue_of (pending_ w) name ++ rest name).
Proof.
  intros Hadm. destruct (dispatchBatch_ok t sched events w Hadm)
    as (n & w' & taken & rest & Hd & _ & _ & Hb & Hs & Hq & Hp & _). by exists n, w', taken, rest.
Qed.

(** ** The lease bound *)

Definition lapses (h : list happening) : list Event :=
  omap (λ x, match x with Lapsed e => Some e | _ => None end) h.

Lemma dropExpiredHeld_ok t limit events w :
  let '(kept, expired, w') := dropExpiredHeld t limit events w in
  step_ok w w' [] 0 /\ stopping w' = stopping w /\ worker_config w' = worker_config w /\ port w' = port w /\
  kept `sublist_of` events /\
  (exists dropped, events ≡ₚ dropped ++ kept /\ lapses (history w') = lapses (history w) ++ dropped /\
     (expired = false <-> dropped = []) /\
     (forall e, e ∈ dropped -> exists since, held w !! ID e = Some since /\ limit <= sat64 (t - since))) /\
  (forall id since, held w' !! id = Some since -> held w !! id = Some since) /\
  (forall e since, e ∈ kept -> held w' !! ID e = Some since -> sat64 (t - since) < limit) /\
  (expired = false -> w' = w).
Proof.
  revert w. induction events as [|e events IH]; intros w; cbn [dropExpiredHeld].
  { split_and!; try done; [apply step_ok_refl|exists []; split_and!; [done|by rewrite app_nil_r|done|by intros e ?%not_elem_of_nil]|].
    by intros e since ?%not_elem_of_nil. }
  destruct (held w !! ID e) as [since|] eqn:Eh; [destruct (Z.leb_spec limit (sat64 (t - since))) as [Hle|Hlt]|].
  - set (w1 := log (Lapsed e) _). specialize (IH w1).
    destruct (dropExpiredHeld t limit events w1) as [[kept expired] w'].
    destruct IH as (Hs & Hst & Hc & Hp & Hsub & (dropped & Hperm & Hl & Hx & Hd) & Hh & Hk & Hsame).
    split_and!; try done.
    + assert (step_ok w w1 [] 0) as H1.
      { apply step_ok_same; [done|..|done]; cbn; by rewrite ?begun_app, ?starts_app, ?Nat.add_0_r. }
      apply (step_ok_trans _ _ _ [] [] 0 0 H1 Hs).
    + by constructor.
    + exists (e :: dropped). split_and!; [by rewrite Hperm| |done|].
      * rewrite Hl. unfold w1, lapses. cbn. rewrite omap_app. by rewrite <- app_assoc.
      * intros e' [->|He']%elem_of_cons; [eauto|]. destruct (Hd e' He') as (s0 & H0 & ?). exists s0.
        split; [|done]. cbn in H0. by apply lookup_delete_Some in H0 as [_ ?].
    + intros id s0 H0. specialize (Hh id s0 H0). cbn in Hh. by apply lookup_delete_Some in Hh as [_ ?].
  - specialize (IH w). destruct (dropExpiredHeld t limit events w) as [[kept expired] w'].
    destruct IH as (Hs & Hst & Hc & Hp & Hsub & (dropped & Hperm & Hl & Hx & Hd) & Hh & Hk & Hsame).
    split_and!; try done; [by constructor| |].
    + exists dropped. split_and!; [rewrite Hperm; apply Permutation_middle|done..].
    + intros e' s0 [->|He']%elem_of_cons H0; [|by eapply Hk].
      apply Hh in H0. rewrite Eh in H0. by injection H0 as <-.
  - specialize (IH w). destruct (dropExpiredHeld t limit events w) as [[kept expired] w'].
    destruct IH as (Hs & Hst & Hc & Hp & Hsub & (dropped & Hperm & Hl & Hx & Hd) & Hh & Hk & Hsame).
    split_and!; try done; [by constructor| |].
    + exists dropped. split_and!; [rewrite Hperm; apply Permutation_middle|done..].
    + intros e' s0 [->|He']%elem_of_cons H0; [|by eapply Hk].
      apply Hh in H0. by rewrite Eh in H0.
Qed.

(** The local bound on a held event falls short of its lease: the limit is positive and at most the
    lease, shorter than it by a tenth -- never less than a millisecond -- whenever the lease is longer
    than a millisecond; the poll interval is positive and at most half the limit of any lease that can
    be halved; and an event that passes the bound is dropped, never dispatched. *)
Theorem hold_limit_within_lease t events w :
  let lease := if LeaseTimeout (worker_config w) <=? 0 then defaultLeaseTimeout else LeaseTimeout (worker_config w) in
  let limit := leaseHoldLimit w in
  0 < limit <= lease /\
  (Millisecond < lease -> limit <= lease - Millisecond /\ limit <= lease - lease `quot` 10) /\
  (2 <= lease -> limit < lease) /\
  0 < pollInterval w <= limit /\ (2 <= limit -> 2 * pollInterval w <= limit) /\
  (let '(kept, expired, w') := dropExpiredHeld t limit events w in
   kept `sublist_of` events /\
   (forall e since, e ∈ kept -> held w' !! ID e = Some since -> sat64 (t - since) < limit) /\
   (exists dropped, events ≡ₚ dropped ++ kept /\ lapses (history w') = lapses (history w) ++ dropped /\
      (expired = false <-> dropped = []) /\
      (forall e, e ∈ dropped -> exists since, held w !! ID e = Some since /\ limit <= sat64 (t - since)))).
Proof.
  intros lease limit.
  assert (Hlease : 0 < lease) by (unfold lease, defaultLeaseTimeout, second; cases_Z; lia).
  assert (Hlimit : 0 < limit <= lease /\
    (Millisecond < lease -> limit <= lease - Millisecond /\ limit <= lease - lease `quot` 10) /\
    (2 <= lease -> limit < lease)).
  { unfold limit, leaseHoldLimit. fold lease. clearbody lease. unfold Millisecond.
    cases_Z; Z.to_euclidean_division_equations; lia. }
  split_and!; try apply Hlimit; try (unfold pollInterval; fold limit; unfold second; clearbody limit;
    cases_Z; Z.to_euclidean_division_equations; lia).
  pose proof (dropExpiredHeld_ok t limit events w) as Hd.
  destruct (dropExpiredHeld t limit events w) as [[kept expired] w'].
  destruct Hd as (_ & _ & _ & _ & Hsub & Hdrop & _ & Hk & _). done.
Qed.

(** ** One poll *)

Lemma takePending_queue (w : Worker P) name :
  keyed (pending_ w) -> of_listener name (fst (takePending w)) = queue_of (pending_ w) name.
Proof. apply range_queue. Qed.

Lemma of_listener_sublist name l k : l `sublist_of` k -> of_listener name l `sublist_of` of_listener name k.
Proof.
  unfold of_listener. induction 1 as [|x l k _ IH|x l k _ IH]; [done|..]; rewrite !filter_cons;
    destruct (decide (Listener x = name)); try done; by constructor.
Qed.

(** The account of one poll for one listener: the events it had waiting and was given, against those
    that lapsed, those begun and those that wait now. *)
Definition accounted (w w' : Worker P) (claimed dropped taken : list Event) (name : gostring) : Prop :=
  let before_ := queue_of (pending_ w) name ++ of_listener name claimed in
  let after_ := of_listener name taken ++ queue_of (pending_ w') name in
  before_ ≡ₚ of_listener name dropped ++ after_ /\ after_ `sublist_of` before_.

(** The account of a poll during which a drain began: what is neither lapsed nor begun was offered back
    to the port, and nothing waits. *)
Definition drained_account (t : Z) (w w' : Worker P) (claimed dropped taken : list Event) : Prop :=
  pending_ w' = ∅ /\
  exists returned,
    (forall name, queue_of (pending_ w) name ++ of_listener name claimed ≡ₚ
       of_listener name dropped ++ of_listener name taken ++ of_listener name returned) /\
    offered_back t returned w'.

(** Dispatching what was not dropped completes the account. *)
Lemma dispatch_account t sched kept dropped claimed w0 w :
  admitted w -> pending_ w = ∅ -> keyed (pending_ w0) ->
  fst (takePending w0) ≡ₚ dropped ++ kept -> kept `sublist_of` fst (takePending w0) ->
  exists n w' taken, dispatchBatch t sched (kept ++ claimed) w = Some (n, w') /\
    admitted w' /\ limits w' = limits w /\ begun (history w') = begun (history w) ++ taken /\
    starts (history w') = (starts (history w) + n)%nat /\
    (stopping w' = false -> forall name, accounted w0 w' claimed dropped taken name) /\
    (stopping w' = true -> drained_account t w0 w' claimed dropped taken) /\
    keyed (pending_ w').
Proof.
  intros Hadm Hp Hk Hperm Hsub.
  destruct (dispatchBatch_ok t sched (kept ++ claimed) w Hadm)
    as (n & w' & taken & rest & Hd & Ha & Hl & Hb & Hs & Hq & Hpend & Hpst).
  assert (Hbefore : forall name, queue_of (pending_ w0) name ++ of_listener name claimed ≡ₚ
      of_listener name dropped ++ of_listener name taken ++ rest name).
  { intros name. rewrite <- Hq, <- (takePending_queue w0 name Hk). unfold of_listener.
    rewrite filter_app, Hperm, filter_app. by rewrite app_assoc. }
  exists n, w', taken. split_and!; try done.
  - intros Hst name. unfold accounted. specialize (Hpend Hst name). rewrite Hp, queue_of_empty in Hpend. cbn in Hpend.
    rewrite Hpend. split; [done|]. rewrite <- Hq, <- (takePending_queue w0 name Hk). unfold of_listener.
    rewrite filter_app. apply sublist_app; [|done]. by apply of_listener_sublist.
  - intros Hst. destruct (Hpst Hst) as (Hpw & returned & Hret & Hoff). split; [by rewrite Hpw|].
    exists returned. split; [|done]. intros name. by rewrite Hret.
  - intros name e He. destruct (stopping w') eqn:Est.
    + rewrite (proj1 (Hpst eq_refl)), Hp, queue_of_empty in He. by apply not_elem_of_nil in He.
    + rewrite Hpend, Hp, queue_of_empty in He by done. cbn in He.
      assert (e ∈ of_listener name (kept ++ claimed)) as Hin by (rewrite Hq; set_solver).
      unfold of_listener in Hin. by apply list_elem_of_filter in Hin as [? _].
Qed.

(** Retaining every kept event completes the account of a poll whose port failed. *)
Lemma retain_account t kept dropped w0 w :
  stopping w = false -> pending_ w = ∅ -> keyed (pending_ w0) ->
  fst (takePending w0) ≡ₚ dropped ++ kept -> kept `sublist_of` fst (takePending w0) ->
  forall name, accounted w0 (retainEvents t kept w) [] dropped [] name.
Proof.
  intros Hst Hp Hk Hperm Hsub name. unfold accounted, retainEvents.
  rewrite retainPending_queue, by_listener_queue, Hp, queue_of_empty by done.
  cbn [app]. rewrite app_nil_r, <- (takePending_queue w0 name Hk). cbn [of_listener filter list_filter app].
  split; [|by apply of_listener_sublist]. unfold of_listener. by rewrite Hperm, filter_app.
Qed.

(** What one poll is given: a poll that lets an event lapse asks its port nothing; otherwise it first
    reclaims, if it has a reclaimer, and then, if a slot is free, claims up to a batch, and [claimed] is
    the claim's answer and all of it; an error of either is the poll's answer. *)
Definition given (w : Worker P) (answer : result worker_error nat) (claimed dropped : list Event) : Prop :=
  match dropped with
  | _ :: _ => claimed = [] /\ is_ok answer = true
  | [] =>
      match (if HasReclaimer (worker_config w) then es_ReclaimExpired (port w) else (Ok 0%nat, port w)) with
      | (Err e, _) => claimed = [] /\ answer = Err (portError e)
      | (Ok _, p) =>
          if (slots (global w) <? capacity (global w))%nat then
            match fst (es_Claim (BatchSize (worker_config w)) p) with
            | Ok events => claimed = events /\ is_ok answer = true
            | Err e => claimed = [] /\ answer = Err (portError e)
            end
          else claimed = [] /\ is_ok answer = true
      end
  end.

(** What one poll does, with the events it was given, those it let lapse and those it began. *)
Definition polled (t : Z) (w : Worker P) (answer : result worker_error nat) (w' : Worker P)
    (claimed dropped taken : list Event) : Prop :=
  admitted w' /\ limits w' = limits w /\ begun (history w') = begun (history w) ++ taken /\
  given w answer claimed dropped /\
  match answer with
  | Ok n => starts (history w') = (starts (history w) + n)%nat
  | Err _ => taken = [] /\ stopping w' = false
  end /\
  (forall e, e ∈ dropped -> exists since, held w !! ID e = Some since /\ leaseHoldLimit w <= sat64 (t - since)) /\
  (dropped = [] -> forall name e since, e ∈ queue_of (pending_ w) name -> held w !! ID e = Some since ->
     sat64 (t - since) < leaseHoldLimit w) /\
  (stopping w' = false -> forall name, accounted w w' claimed dropped taken name) /\
  (stopping w' = true -> drained_account t w w' claimed dropped taken) /\
  keyed (pending_ w').

Lemma accounted_keyed w w' claimed dropped taken :
  keyed (pending_ w) -> (forall name, accounted w w' claimed dropped taken name) -> keyed (pending_ w').
Proof.
  intros Hk Hacc name e He. destruct (Hacc name) as [_ Hsub].
  assert (e ∈ queue_of (pending_ w) name ++ of_listener name claimed) as [Hin|Hin]%elem_of_app.
  { eapply elem_of_sublist; [|exact Hsub]. set_solver. }
  - by apply Hk.
  - unfold of_listener in Hin. by apply list_elem_of_filter in Hin as [? _].
Qed.

Lemma retain_polled t w w2 p kept e :
  admitted w -> stopping w = false -> keyed (pending_ w) ->
  step_ok (snd (takePending w)) w2 [] 0 -> stopping w2 = false ->
  fst (takePending w) ≡ₚ kept -> kept `sublist_of` fst (takePending w) ->
  (forall name e since, e ∈ queue_of (pending_ w) name -> held w !! ID e = Some since ->
     sat64 (t - since) < leaseHoldLimit w) ->
  given w (Err e) [] [] ->
  polled t w (Err e) (retainEvents t kept (set_port p w2)) [] [] [].
Proof.
  intros Hadm Hst Hk Hs Hst2 Hperm Hsub Hnone Hgiven.
  assert (Ha2 : admitted (set_port p w2)).
  { apply (same_admission_admitted w2); [done|]. by apply Hs, (same_admission_admitted w). }
  destruct (retainPending_ok t (by_listener kept) (set_port p w2)) as [Ra Rl Rb Rs Rst Rp].
  assert (Hst' : stopping (retainEvents t kept (set_port p w2)) = false) by (unfold retainEvents; by rewrite Rst).
  assert (Hacc : forall name, accounted w (retainEvents t kept (set_port p w2)) [] [] [] name).
  { apply retain_account; try done. cbn. by rewrite (step_pending _ _ _ _ Hs). }
  unfold polled. rewrite Hst'. split_and!; try done.
  - by apply Ra.
  - unfold retainEvents. rewrite Rl by done. change (limits (set_port p w2)) with (limits w2).
    rewrite (step_limits _ _ _ _ Hs); [done|]. by apply (same_admission_admitted w).
  - unfold retainEvents. rewrite Rb. cbn. by rewrite (step_begun _ _ _ _ Hs).
  - by intros e' ?%not_elem_of_nil.
  - by apply (accounted_keyed w _ [] [] []).
Qed.

Lemma dispatch_polled t sched w w2 p kept dropped claimed :
  admitted w -> keyed (pending_ w) -> step_ok (snd (takePending w)) w2 [] 0 ->
  fst (takePending w) ≡ₚ dropped ++ kept -> kept `sublist_of` fst (takePending w) ->
  (forall n, given w (Ok n) claimed dropped) ->
  (forall e, e ∈ dropped -> exists since, held w !! ID e = Some since /\ leaseHoldLimit w <= sat64 (t - since)) ->
  (dropped = [] -> forall name e since, e ∈ queue_of (pending_ w) name -> held w !! ID e = Some since ->
     sat64 (t - since) < leaseHoldLimit w) ->
  exists n w' taken, dispatchBatch t sched (kept ++ claimed) (set_port p w2) = Some (n, w') /\
    polled t w (Ok n) w' claimed dropped taken.
Proof.
  intros Hadm Hk Hs Hperm Hsub Hgiven Hd Hnone.
  assert (Ha1 : admitted (snd (takePending w))) by by apply (same_admission_admitted w).
  assert (Ha2 : admitted (set_port p w2)) by (apply (same_admission_admitted w2); [done|]; by apply Hs).
  destruct (dispatch_account t sched kept dropped claimed w (set_port p w2))
    as (n & w' & taken & He & Ha & Hl & Hb & Hst & Hacc & Hdr & Hkey); try done.
  { cbn. by rewrite (step_pending _ _ _ _ Hs). }
  exists n, w', taken. split; [done|]. split_and!; try done.
  - rewrite Hl. change (limits (set_port p w2)) with (limits w2). by rewrite (step_limits _ _ _ _ Hs).
  - rewrite Hb. cbn. by rewrite (step_begun _ _ _ _ Hs), app_nil_r.
  - rewrite Hst. cbn. rewrite (step_starts _ _ _ _ Hs). cbn. lia.
Qed.

Lemma RunOnce_polled t sched w :
  admitted w -> keyed (pending_ w) -> stopping w = false ->
  exists answer w' claimed dropped taken,
    RunOnce t sched w = Some (answer, w') /\ polled t w answer w' claimed dropped taken.
Proof.
  intros Hadm Hk Hst. unfold RunOnce. rewrite Hst.
  pose proof (dropExpiredHeld_ok t (leaseHoldLimit w) (fst (takePending w)) (snd (takePending w))) as Hdrop.
  destruct (takePending w) as [events w1] eqn:Et. cbn [fst snd] in *.
  assert (Hw1 : w1 = set_held ∅ (held w) w) by (unfold takePending in Et; congruence).
  replace (leaseHoldLimit w1) with (leaseHoldLimit w) by by rewrite Hw1.
  destruct (dropExpiredHeld t (leaseHoldLimit w) events w1) as [[kept expired] w2].
  destruct Hdrop as (Hs & Hst2 & Hc2 & Hp2 & Hsub & (dropped & Hperm & _ & Hx & Hd) & _ & Hkept & Hsame).
  rewrite Hw1 in Hst2, Hc2, Hp2, Hd. cbn in Hst2, Hc2, Hp2, Hd. rewrite Hst in Hst2.
  assert (He : events = fst (takePending w)) by by rewrite Et.
  assert (Hw1' : w1 = snd (takePending w)) by by rewrite Et.
  assert (Hnone : dropped = [] -> forall name e since, e ∈ queue_of (pending_ w) name ->
      held w !! ID e = Some since -> sat64 (t - since) < leaseHoldLimit w).
  { intros Hnil name e since Hin Hheld. apply (Hkept e since).
    - rewrite Hnil in Hperm. cbn in Hperm. rewrite <- Hperm, He.
      rewrite <- (takePending_queue w name Hk) in Hin. unfold of_listener in Hin. by apply list_elem_of_filter in Hin as [_ ?].
    - rewrite (Hsame (proj2 Hx Hnil)), Hw1. done. }
  rewrite He in Hperm, Hsub. rewrite Hw1' in Hs.
  assert (Hport : set_port (port w2) w2 = w2) by by destruct w2.
  destruct expired.
  - destruct dropped as [|e0 dropped]; [by discriminate (proj2 Hx eq_refl)|].
    destruct (dispatch_polled t sched w w2 (port w2) kept (e0 :: dropped) []) as (n & w' & taken & Hr & Hpol); try done.
    rewrite app_nil_r, Hport in Hr. exists (Ok n), w', [], (e0 :: dropped), taken. rewrite Hr. done.
  - assert (dropped = []) as -> by by apply Hx.
    assert (Hglobal : global w2 = global w) by (rewrite (Hsame eq_refl), Hw1; done).
    unfold given in *. rewrite Hc2, Hp2.
    destruct (if HasReclaimer (worker_config w) then es_ReclaimExpired (port w) else (Ok 0%nat, port w))
      as [[k|e] p] eqn:Er.
    2: { eexists _, _, [], [], []. split; [done|]. eapply retain_polled; try done; [by apply Hnone|].
         unfold given. by rewrite Er. }
    cbn [hasCapacity global set_port]. rewrite Hglobal.
    destruct (slots (global w) <? capacity (global w))%nat eqn:Ecap.
    + cbn [worker_config set_port port]. rewrite Hc2.
      destruct (es_Claim (BatchSize (worker_config w)) p) as [[claimed|e] p'] eqn:Ec;
        change (set_port p' (set_port p w2)) with (set_port p' w2).
      * destruct (dispatch_polled t sched w w2 p' kept [] claimed) as (n & w' & taken & Hr & Hpol); try done.
        { intros n. unfold given. by rewrite Er, Ecap, Ec. }
        exists (Ok n), w', claimed, [], taken. by rewrite Hr.
      * eexists _, _, [], [], []. split; [done|]. eapply retain_polled; try done; [by apply Hnone|].
        unfold given. by rewrite Er, Ecap, Ec.
    + destruct (dispatch_polled t sched w w2 p kept [] []) as (n & w' & taken & Hr & Hpol); try done.
      { intros n. unfold given. by rewrite Er, Ecap. }
      rewrite app_nil_r in Hr. exists (Ok n), w', [], [], taken. by rewrite Hr.
Qed.

(** C9. One poll ends and accounts for every event. What it is given is exactly what the claim answered
    (nothing where it did not ask: an event lapsed, the reclaim failed, or no slot was free), and a
    port's error is the poll's answer. What each listener had waiting and was given is what lapsed, was
    begun and waits now, the last two in the order the events came in; where a drain began meanwhile,
    what is neither lapsed nor begun was offered back to the port, each event released, no longer
    claimed, or its error kept. An event lapses only past the local lease bound, and one past it lapses;
    a poll whose port fails begins nothing; one that does not answers how many deliveries it started;
    and over a port that keeps its promises a poll is given at most a batch, no event twice. *)
Theorem RunOnce_conserves `{!EventSourceLaws P} t sched w :
  admitted w -> keyed (pending_ w) -> stopping w = false -> es_valid (port w) ->
  exists answer w' claimed dropped taken,
    RunOnce t sched w = Some (answer, w') /\ polled t w answer w' claimed dropped taken /\
    Z.of_nat (length claimed) <= Z.max 0 (BatchSize (worker_config w)) /\ NoDup (map ID claimed).
Proof.
  intros Hadm Hk Hst Hv. destruct (RunOnce_polled t sched w Hadm Hk Hst) as (answer & w' & claimed & dropped & taken & Hr & Hp).
  exists answer, w', claimed, dropped, taken. split; [done|]. split; [done|].
  destruct claimed as [|e claimed]; [split; [cbn; lia|constructor]|].
  destruct Hp as (_ & _ & _ & Hg & _). unfold given in Hg. destruct dropped; [|by destruct Hg].
  destruct (if HasReclaimer (worker_config w) then es_ReclaimExpired (port w) else (Ok 0%nat, port w))
    as [[k|er] p] eqn:Er; [|by destruct Hg].
  assert (Hvp : es_valid p).
  { destruct (HasReclaimer _); [|by injection Er as _ <-].
    pose proof (es_reclaim_valid (port w) Hv) as H'. by rewrite Er in H'. }
  destruct (slots (global w) <? capacity (global w))%nat; [|by destruct Hg].
  destruct (fst (es_Claim (BatchSize (worker_config w)) p)) as [events|er] eqn:Ec; [|by destruct Hg].
  destruct Hg as [-> _]. by apply es_claim_bounded in Ec.
Qed.

(** ** Every worker *)

(** [Dispatch]: one event, outside a batch. *)
Definition Dispatch (e : Event) (racing : bool) (w : Worker P) : bool * Worker P :=
  match listeners w !! Listener e with
  | None => (false, consumeUnknown e w)
  | Some st => let '(r, w) := tryDispatch e st racing w in
               (match r with dispatchAccepted => true | _ => false end, w)
  end.

(** What becomes of a new worker: polls, single dispatches, deliveries that complete, drains. *)
Inductive reached (events : P) (c : WorkerConfig) : Worker P -> Prop :=
  | reached_new : reached events c (NewWorker events c)
  | reached_poll t sched w answer w' :
      reached events c w -> RunOnce t sched w = Some (answer, w') -> reached events c w'
  | reached_dispatch e racing w : reached events c w -> reached events c (snd (Dispatch e racing w))
  | reached_disturb d w : reached events c w -> reached events c (disturb w d)
  | reached_drain t waiting late tracked w :
      reached events c w -> reached events c (snd (Drain t waiting late tracked w)).

(** The listener a configuration names: the first of its name. *)
Definition configured (c : WorkerConfig) (name : gostring) : option ListenerConfig :=
  if bool_decide (name = []) then None else head (filter (λ l, Name l = name) (Listeners c)).

Definition idle_listener (l : ListenerConfig) : listenerState :=
  {| config := l; sem := if 0 <? Concurrency l then Some (newSemaphore (Concurrency l)) else None |}.

Lemma add_listener_lookup ls acc name :
  fst (foldl add_listener acc ls) !! name =
    match fst acc !! name with
    | Some st => Some st
    | None => if bool_decide (name = []) then None else idle_listener <$> head (filter (λ l, Name l = name) ls)
    end.
Proof.
  revert acc. induction ls as [|l ls IH]; intros [m o]; cbn [foldl fst].
  { destruct (m !! name); [done|]. by destruct (bool_decide _). }
  rewrite IH. unfold add_listener. rewrite filter_cons.
  destruct (decide (Name l = [])) as [E|E]; [rewrite bool_decide_eq_true_2 by done|rewrite bool_decide_eq_false_2 by done].
  - cbn [fst]. destruct (m !! name); [done|]. case_bool_decide; [done|]. by rewrite decide_False by congruence.
  - destruct (m !! Name l) as [st|] eqn:Em; cbn [fst].
    + destruct (m !! name) eqn:En; [done|]. case_bool_decide; [done|]. by rewrite decide_False by congruence.
    + destruct (decide (Name l = name)) as [<-|Hne].
      * rewrite lookup_insert_eq, Em. rewrite bool_decide_eq_false_2 by done. done.
      * rewrite lookup_insert_ne by done. done.
Qed.

Lemma NewWorker_listeners events c name :
  listeners (NewWorker events c) !! name = idle_listener <$> configured c name.
Proof.
  unfold NewWorker, configured. cbn [Listeners].
  pose proof (add_listener_lookup (Listeners c) (∅, []) name) as Hl. cbn [fst] in Hl. rewrite lookup_empty in Hl.
  destruct (foldl add_listener (∅, []) (Listeners c)) as [ls o]. cbn in *. rewrite Hl. by case_bool_decide.
Qed.

Lemma newSemaphore_idle n : slots (newSemaphore n) = 0%nat /\ capacity (newSemaphore n) = Z.to_nat (at_least_one n).
Proof. done. Qed.

Lemma NewWorker_fields events c :
  global (NewWorker events c) = newSemaphore (at_least_one (GlobalConcurrency c)) /\
  inFlight (NewWorker events c) = ∅ /\ activity (NewWorker events c) = ∅ /\ running (NewWorker events c) = [] /\
  pending_ (NewWorker events c) = ∅ /\ stopping (NewWorker events c) = false.
Proof. unfold NewWorker. by destruct (foldl _ _ _). Qed.

Lemma NewWorker_admitted events c : admitted (NewWorker events c).
Proof.
  destruct (NewWorker_fields events c) as (Hg & Hi & Ha & Hr & _). split; unfold load, flights; rewrite ?Hg, ?Hi, ?Ha, ?Hr.
  - cbn. lia.
  - intros name st s Hl Hs. rewrite NewWorker_listeners in Hl. destruct (configured c name) as [l|]; [|done].
    injection Hl as <-. cbn in Hs. destruct (0 <? Concurrency l); [|done]. injection Hs as <-. cbn. lia.
  - by intros e ?%not_elem_of_nil.
  - done.
  - done.
  - done.
  - done.
Qed.

Lemma Drain_step t waiting late tracked w :
  admitted w -> admitted (snd (Drain t waiting late tracked w)) /\
  limits (snd (Drain t waiting late tracked w)) = limits w /\
  pending_ (snd (Drain t waiting late tracked w)) = ∅.
Proof.
  intros Hadm. unfold Drain.
  set (w1 := foldl disturb _ waiting).
  assert (H1 : step_ok w w1 [] 0).
  { apply (step_ok_trans _ (set_drain true (releaseErr w) w) _ [] [] 0 0); [|apply disturb_step].
    apply step_ok_same; [done|by rewrite app_nil_r|cbn; lia|done]. }
  destruct (takeHeldForDrain w1) as [waiting_events w2] eqn:E2. injection E2 as <- <-.
  match goal with |- context [releaseHeld t ?evs ?prior ?w2] =>
    pose proof (releaseHeld_step t evs prior w2) as H3; destruct (releaseHeld t evs prior w2) as [[rel err] w3] end.
  cbn [snd] in *. pose proof (noteDrainError_step (err ++ releaseErr w3) w3) as H4.
  pose proof (step_ok_trans _ _ _ [] [] 0 0 H3 H4) as H5.
  assert (Ha1 : admitted w1) by by apply H1.
  assert (Ha2 : admitted (set_held ∅ ∅ w1)) by by apply (same_admission_admitted w1).
  split_and!.
  - by apply H5.
  - rewrite (step_limits _ _ _ _ H5) by done. change (limits (set_held ∅ ∅ w1)) with (limits w1).
    by apply (step_limits _ _ _ _ H1).
  - by rewrite (step_pending _ _ _ _ H5).
Qed.

Lemma keyed_empty : keyed ∅.
Proof. intros name e. rewrite queue_of_empty. by intros ?%not_elem_of_nil. Qed.

Lemma reached_ok events c w :
  reached events c w -> admitted w /\ keyed (pending_ w) /\ limits w = limits (NewWorker events c).
Proof.
  induction 1 as [|t sched w answer w' _ (Ha & Hk & Hl) Hr|e racing w _ (Ha & Hk & Hl)
                 |d w _ (Ha & Hk & Hl)|t waiting late tracked w _ (Ha & Hk & Hl)].
  - split_and!; [apply NewWorker_admitted| |done].
    destruct (NewWorker_fields events c) as (_ & _ & _ & _ & -> & _). apply keyed_empty.
  - destruct (stopping w) eqn:Est.
    { unfold RunOnce in Hr. rewrite Est in Hr. by injection Hr as _ <-. }
    destruct (RunOnce_polled t sched w Ha Hk Est) as (answer' & w1 & claimed & dropped & taken & Hr' & Hp).
    rewrite Hr in Hr'. injection Hr' as <- <-. destruct Hp as (Ha' & Hl' & _ & _ & _ & _ & _ & _ & _ & Hk').
    split_and!; [done..|congruence].
  - unfold Dispatch. destruct (listeners w !! Listener e) as [st|] eqn:E.
    + pose proof (tryDispatch_step e st racing w E Ha) as Ht. destruct (tryDispatch e st racing w) as [r w'].
      destruct Ht as [[Ha' Hl' _ _ Hp'] _]. cbn. rewrite Hp'. split_and!; auto. by rewrite Hl'.
    + destruct (dead_letter_step e (bs "unknown listener " ++ Listener e) w) as [Ha' Hl' _ _ Hp']. cbn [snd].
      unfold consumeUnknown. rewrite Hp'. split_and!; auto. by rewrite Hl'.
  - destruct (disturb_step [d] w) as [Ha' Hl' _ _ Hp']. cbn in *. rewrite Hp'. split_and!; auto. by rewrite Hl'.
  - destruct (Drain_step t waiting late tracked w Ha) as (Ha' & Hl' & ->). split_and!; [done|apply keyed_empty|congruence].
Qed.

(** The number of deliveries in flight, counted id by id, is the number that run. *)
Lemma in_flight_total (r : list Event) (m : gmap Z nat) :
  (forall id, default 0%nat (m !! id) = length (filter (λ e, ID e = id) r)) -> (forall id, m !! id <> Some 0%nat) ->
  map_fold (λ _ n total, (n + total)%nat) 0%nat m = length r.
Proof.
  revert m. induction r as [|e r IH]; intros m Hm H0.
  - assert (m = ∅) as ->; [|done]. apply map_eq. intros id. specialize (Hm id). specialize (H0 id). rewrite lookup_empty.
    destruct (m !! id) as [n|]; [|done]. cbn in Hm. congruence.
  - assert (Hpos : (0 < default 0%nat (m !! ID e))%nat) by (rewrite Hm, filter_cons_True by done; cbn; lia).
    cbn [length]. rewrite <- (IH (finish (ID e) m)).
    2: { intros id. rewrite (proj1 (finish_lookup (ID e) id m H0 Hpos)), Hm, filter_cons. destruct (decide _); cbn; lia. }
    2: { intros id. by apply finish_lookup. }
    destruct (m !! ID e) as [n|] eqn:En; cbn in Hpos; [|lia]. unfold finish. rewrite En. cbn [default from_option].
    rewrite <- (insert_delete_id m (ID e) n) at 1 by done.
    rewrite map_fold_insert_L by (intros; lia || apply lookup_delete_eq). cbn.
    destruct (Nat.leb_spec n 1); [cbn; lia|]. rewrite <- insert_delete_eq.
    rewrite map_fold_insert_L by (intros; lia || apply lookup_delete_eq). lia.
Qed.

(** A reached worker's listeners are the configured ones, with the capacities they were given. *)
Lemma reached_listeners events c w name : reached events c w ->
  (λ st, (config st, capacity <$> sem st)) <$> listeners w !! name =
  (λ st, (config st, capacity <$> sem st)) <$> (idle_listener <$> configured c name).
Proof.
  intros Hr. destruct (reached_ok _ _ _ Hr) as (_ & _ & Hl). destruct (NewWorker_fields events c) as (Hg & _).
  unfold limits in Hl. rewrite Hg in Hl. injection Hl as _ Hls _.
  rewrite <- NewWorker_listeners with (events := events). rewrite <- !lookup_fmap. by rewrite Hls.
Qed.

Lemma reached_global events c w : reached events c w ->
  (length (running w) <= Z.to_nat (at_least_one (GlobalConcurrency c)))%nat.
Proof.
  intros Hr. destruct (reached_ok _ _ _ Hr) as (Ha & _ & Hl). destruct (NewWorker_fields events c) as (Hg & _).
  unfold limits in Hl. rewrite Hg in Hl. injection Hl as Hcap _ _.
  pose proof (adm_global _ Ha) as [H1 H2]. rewrite Hcap in H2. unfold at_least_one in *. revert H2. cases_Z; lia.
Qed.

Lemma reached_load events c w l : reached events c w -> configured c (Name l) = Some l -> 0 < Concurrency l ->
  (load (Name l) w <= Z.to_nat (Concurrency l))%nat.
Proof.
  intros Hr Hc Hpos. pose proof (reached_listeners _ _ _ (Name l) Hr) as Hconf. destruct (reached_ok _ _ _ Hr) as (Ha & _).
  rewrite Hc in Hconf. cbn in Hconf.
  rewrite (proj2 (Z.ltb_lt _ _) Hpos) in Hconf. destruct (listeners w !! Name l) as [st|] eqn:E; [|done].
  cbn in Hconf. destruct (sem st) as [s|] eqn:Es; [|discriminate Hconf]. cbn in Hconf.
  destruct (adm_listener _ Ha _ _ _ E Es) as [H1 H2]. injection Hconf as _ Hcs. rewrite Hcs in H2.
  rewrite (proj2 (Z.leb_gt _ _) Hpos) in H2. lia.
Qed.

Lemma reached_known events c w e : reached events c w -> e ∈ running w -> is_Some (configured c (Listener e)).
Proof.
  intros Hr He. pose proof (reached_listeners _ _ _ (Listener e) Hr) as Hconf. destruct (reached_ok _ _ _ Hr) as (Ha & _).
  destruct (adm_known _ Ha e He) as [st Hst]. rewrite Hst in Hconf. destruct (configured c (Listener e)); [done|discriminate].
Qed.

(** C16. Concurrency bounds hold in every state a worker can reach, through any interleaving of polls,
    single dispatches, completions and drains: never more deliveries run than the global bound, never
    more of a listener's than its own, and what the worker reports in flight is what runs. *)
Theorem concurrency_never_exceeded events c w :
  reached events c w ->
  (length (running w) <= Z.to_nat (at_least_one (GlobalConcurrency c)))%nat /\
  (forall l, configured c (Name l) = Some l -> 0 < Concurrency l ->
     (load (Name l) w <= Z.to_nat (Concurrency l))%nat) /\
  (forall e, e ∈ running w -> is_Some (configured c (Listener e))) /\
  InFlight w = length (running w).
Proof.
  intros Hr. split; [by eapply reached_global|]. split; [intros l; by apply reached_load with events|].
  split; [intros e; by apply reached_known with events|]. destruct (reached_ok _ _ _ Hr) as (Ha & _).
  apply in_flight_total; [apply (adm_in_flight _ Ha)|apply (adm_in_flight_nonzero _ Ha)].
Qed.

(** ** Work conservation *)

(** A schedule in which nothing happens beside the loop. *)
Definition undisturbed (sched : schedule) : Prop :=
  (forall k, before sched k = []) /\ (forall k, races sched k = false).

(** Why an event of a listener cannot be dispatched now. *)
Definition saturated (w : Worker P) (name : gostring) : Prop :=
  exists st, listeners w !! name = Some st /\
    (stopping w = true \/ hasCapacity (Some (global w)) = false \/ hasCapacity (sem st) = false).

Lemma visit_progress sched l name : progress l = true -> progress (visit sched l name) = true.
Proof.
  intros Hp. unfold visit. destruct (queue_of _ _) as [|e rest]; [done|].
  destruct (listeners _ !! _); [|done]. by destruct (tryDispatch _ _ _ _) as [[] ?].
Qed.

Lemma visits_progress sched names l : progress l = true -> progress (foldl (visit sched) l names) = true.
Proof. revert l. induction names as [|n names IH]; cbn; [done|]. intros l Hp. by apply IH, visit_progress. Qed.

(** A visit without progress changes nothing, and its queue is empty or saturated. *)
Lemma quiet_visit sched l name :
  undisturbed sched -> admitted (worker_ l) -> keyed (queues_ l) -> progress (visit sched l name) = false ->
  worker_ (visit sched l name) = worker_ l /\ queues_ (visit sched l name) = queues_ l /\
  (queue_of (queues_ l) name = [] \/ saturated (worker_ l) name).
Proof.
  intros [Hb Hr] Ha Hk. unfold visit. rewrite Hb, Hr. cbn [foldl].
  destruct (queue_of (queues_ l) name) as [|e rest] eqn:Eq; [by auto|].
  assert (He : Listener e = name) by (apply Hk; rewrite Eq; set_solver).
  destruct (listeners (worker_ l) !! name) as [st|] eqn:El; [|done].
  pose proof (tryDispatch_step e st false (worker_ l) ltac:(by rewrite He) Ha) as Ht.
  destruct (tryDispatch e st false (worker_ l)) as [[] w'] eqn:Et; cbn; try done. intros _.
  destruct Ht as [_ Ht].
  destruct (stopping (worker_ l)) eqn:Est.
  - unfold tryDispatch in Et. rewrite Est in Et. injection Et as <-. split_and!; [done..|].
    right. exists st. auto.
  - destruct Ht as [-> Hc]; [done..|]. split_and!; [done..|]. right. exists st. auto.
Qed.

Lemma quiet_visits sched names l :
  undisturbed sched -> admitted (worker_ l) -> keyed (queues_ l) ->
  progress (foldl (visit sched) l names) = false ->
  worker_ (foldl (visit sched) l names) = worker_ l /\ queues_ (foldl (visit sched) l names) = queues_ l /\
  (forall name, name ∈ names -> queue_of (queues_ l) name = [] \/ saturated (worker_ l) name).
Proof.
  intros Hu. revert l. induction names as [|name names IH]; cbn [foldl]; intros l Ha Hk Hp.
  - split_and!; [done..|]. by intros n ?%not_elem_of_nil.
  - assert (Hp1 : progress (visit sched l name) = false).
    { destruct (progress (visit sched l name)) eqn:E; [|done]. by rewrite visits_progress in Hp. }
    destruct (quiet_visit sched l name Hu Ha Hk Hp1) as (Hw & Hq & Hs).
    destruct (IH (visit sched l name)) as (Hw' & Hq' & Hs'); [by rewrite Hw|by rewrite Hq|done|].
    rewrite Hw in *. rewrite Hq in *. split_and!; [done..|]. intros n [->|Hn]%elem_of_cons; auto.
Qed.

Lemma rounds_last fuel sched names l l' :
  admitted (worker_ l) -> keyed (queues_ l) -> rounds fuel sched names l = Some l' ->
  exists l0, l' = one_round sched names l0 /\ admitted (worker_ l0) /\ keyed (queues_ l0).
Proof.
  revert l. induction fuel as [|fuel IH]; intros l Ha Hk; cbn [rounds]; [done|].
  destruct (one_round_ok sched names l Ha Hk) as (t1 & n1 & H1 & _).
  destruct (negb _ || _); [intros [= <-]; eauto|]. apply IH; [by apply H1|by eapply (loop_ok_keyed _ _ _ _ H1)].
Qed.

Lemma listenerNames_cover w queues name : queue_of queues name <> [] -> name ∈ listenerNames w queues.
Proof.
  intros Hq. unfold listenerNames. apply elem_of_app. destruct (decide (name ∈ order w)); [by left|right].
  rewrite merge_sort_Permutation. apply list_elem_of_filter. split; [done|].
  unfold queue_of in Hq. destruct (queues !! name) as [q|] eqn:E; [|done].
  apply list_elem_of_fmap. exists (name, q). split; [done|]. by apply range_lookup.
Qed.

(** Dispatch leaves an event waiting only when it must: with nothing happening beside it, after a
    batch every listener whose queue grew is a configured one and either it or the worker as a whole
    is at its bound -- so no event of an unknown listener is left behind, and a listener at its cap
    holds up no other. *)
Theorem dispatchBatch_work_conserving t sched events w n w' :
  admitted w -> undisturbed sched -> dispatchBatch t sched events w = Some (n, w') -> stopping w' = false ->
  forall name, queue_of (pending_ w') name <> queue_of (pending_ w) name ->
  exists st, listeners w' !! name = Some st /\
    (hasCapacity (Some (global w')) = false \/ hasCapacity (sem st) = false).
Proof.
  intros Hadm Hu Hd Hst name Hne. unfold dispatchBatch in Hd.
  set (start := {| at_ := 0; worker_ := w; queues_ := by_listener events; progress := false; accepted := 0 |}) in Hd.
  set (names := listenerNames w (by_listener events)) in Hd.
  destruct (rounds_ok (S (length events)) sched names start) as (l' & taken & n0 & Hr & Hs & _ & Hq & _);
    [done|apply keyed_by_listener|cbn [start queues_]; rewrite qsize_by_listener; lia|].
  rewrite Hr in Hd. injection Hd as _ Hw'.
  destruct (progress l') eqn:Ep.
  { subst w'. destruct Hne. by rewrite (step_pending _ _ _ _ Hs). }
  destruct (rounds_last _ sched names start l' Hadm (keyed_by_listener events) Hr) as (l0 & Hl0 & Ha0 & Hk0).
  unfold one_round in Hl0. set (l0' := {| at_ := at_ l0 |}) in Hl0.
  destruct (quiet_visits sched names l0' Hu Ha0 Hk0 ltac:(by rewrite <- Hl0)) as (Hw0 & Hq0 & Hsat).
  rewrite <- Hl0 in Hw0, Hq0.
  destruct (retainPending_ok t (queues_ l') (worker_ l')) as [_ _ _ _ Rst _].
  rewrite Hw' in Rst. rewrite Rst in Hst. 
  assert (Hpend : queue_of (pending_ w') name = queue_of (pending_ w) name ++ queue_of (queues_ l') name).
  { rewrite <- Hw', retainPending_queue by done. by rewrite (step_pending _ _ _ _ Hs). }
  assert (Hleft : queue_of (queues_ l') name <> []).
  { intros Hz. apply Hne. by rewrite Hpend, Hz, app_nil_r. }
  assert (Hname : name ∈ names).
  { apply listenerNames_cover. change (queue_of (queues_ start) name <> []).
    rewrite (Hq name). by destruct (of_listener name taken). }
  destruct (Hsat name Hname) as [Hz|(st & Hl & Hc)]; [by rewrite <- Hq0 in Hz|].
  rewrite <- Hw0 in Hl, Hc. exists st.
  unfold retainPending in Hw'. rewrite Hst in Hw'.
  destruct (retain_fold_same t (range (queues_ l')) (worker_ l')) as ((Hg & Hls & _) & _ & _).
  rewrite Hw' in Hg, Hls. rewrite Hls, Hg. split; [done|]. destruct Hc as [Hc|Hc]; [congruence|done].
Qed.

(** ** Draining *)

Lemma disturb_drain ds w :
  stopping w = true -> stopping (foldl disturb w ds) = true /\ releaseErr (foldl disturb w ds) = releaseErr w.
Proof.
  revert w. induction ds as [|d ds IH]; cbn [foldl]; [done|]. intros w Hs.
  assert (stopping (disturb w d) = true /\ releaseErr (disturb w d) = releaseErr w) as [H1 H2].
  { destruct d as [i t client|]; cbn; [|done]. unfold complete. destruct (running w !! i) as [e|]; [|done].
    destruct (listeners w !! Listener e); [|done]. cbn. unfold settle, settleDead.
    destruct (attempt _ _ _ _);
      [destruct (es_Ack e d (port w))|destruct (es_Nack e d retryAt (port w))|destruct (es_Dead e d reason (port w))];
      done. }
  rewrite <- H2. by apply IH.
Qed.

(** What [Drain] comes to, its waiting done. *)
Lemma Drain_eq t waiting late tracked w :
  let w1 := foldl disturb (set_drain true (releaseErr w) w) waiting in
  let timedOut := if bool_decide (activity w1 = ∅) then late else true in
  let events := (tracked (activity w1) ≫= snd) ++ (range (pending_ w1) ≫= snd) in
  exists rel err w2,
    release_ok t ∅ [] (if timedOut then [ErrDrainTimedOut] else []) events (set_held ∅ ∅ w1) rel err w2 /\
    Drain t waiting late tracked w =
      ({| Clean := negb timedOut && bool_decide (length (err ++ releaseErr w2) = 0%nat); TimedOut := timedOut;
          DrainReleased := rel; DrainErr := err ++ releaseErr w2 |}, noteDrainError (err ++ releaseErr w2) w2) /\
    stopping w2 = true /\ releaseErr w2 = releaseErr w.
Proof.
  intros w1 timedOut events. unfold Drain. fold w1. cbn [takeHeldForDrain]. fold timedOut. fold events.
  pose proof (release_each_spec t ∅ [] (if timedOut then [ErrDrainTimedOut] else []) events (set_held ∅ ∅ w1)) as Hr.
  pose proof (release_each_stopping t ∅ [] (if timedOut then [ErrDrainTimedOut] else []) events (set_held ∅ ∅ w1)) as Hst.
  unfold releaseHeld. destruct (release_each _ _ _ _ _ _) as [[rel err] w2]. exists rel, err, w2.
  destruct (disturb_drain waiting (set_drain true (releaseErr w) w) eq_refl) as [Hs1 He1]. fold w1 in Hs1, He1.
  cbn in Hst, He1. split_and!; [done|done|congruence|]. destruct (rel_kept _ _ _ _ _ _ _ _ _ Hr) as (_ & _ & Hk & _).
  cbn in Hk. congruence.
Qed.

(** The events a worker still answers for: those it tracks and those that wait. *)
Definition still_held (w : Worker P) (e : Event) : Prop :=
  (exists i q, activity w !! i = Some q /\ e ∈ q) \/ (exists name, e ∈ queue_of (pending_ w) name).

Lemma elem_of_still_held (tracked : gmap Z (list Event) -> list (Z * list Event)) w e :
  (forall m : gmap Z (list Event), tracked m ≡ₚ map_to_list m) ->
  e ∈ (tracked (activity w) ≫= snd) ++ (range (pending_ w) ≫= snd) <-> still_held w e.
Proof.
  intros Htr. unfold still_held. rewrite elem_of_app, !list_elem_of_bind.
  setoid_rewrite Htr. setoid_rewrite range_visits. unfold queue_of. split.
  - intros [([i q] & Hq & Hi)|([n q] & Hq & Hi)]; apply elem_of_map_to_list in Hi; cbn in Hq; [left; eauto|right].
    exists n. by rewrite Hi.
  - intros [(i & q & Hi & Hq)|(n & Hn)]; [left; exists (i, q); split; [done|by apply elem_of_map_to_list]|right].
    destruct (pending_ w !! n) as [q|] eqn:E; [|by apply not_elem_of_nil in Hn].
    exists (n, q). split; [done|by apply elem_of_map_to_list].
Qed.

(** C18. A drain gives back everything it still holds, once: it leaves nothing waiting and lets nothing
    new in; each id among the tracked deliveries and the waiting events is offered back, ending
    released, no longer claimed, or with its error in the verdict; no id is released twice; a drain
    that did not time out left no delivery running; and a verdict of success means no release failed
    -- in this drain or in any drain before it, whose errors every later verdict repeats. *)
Theorem drain_releases_once t waiting late tracked w :
  admitted w -> (forall m : gmap Z (list Event), tracked m ≡ₚ map_to_list m) ->
  let w1 := foldl disturb (set_drain true (releaseErr w) w) waiting in
  let '(r, w') := Drain t waiting late tracked w in
  pending_ w' = ∅ /\ held w' = ∅ /\ stopping w' = true /\
  (TimedOut r = false -> running w' = []) /\
  NoDup (DrainReleased r) /\
  (forall id, id ∈ DrainReleased r -> exists e, still_held w1 e /\ ID e = id) /\
  (forall e, still_held w1 e -> exists events, (forall e', e' ∈ events -> still_held w1 e') /\
     release_outcome t events (DrainReleased r) (DrainErr r) (ID e)) /\
  (Success r = true <-> TimedOut r = false /\ DrainErr r = []) /\
  (DrainErr r <> [] -> forall t' waiting' late' tracked',
     Success (fst (Drain t' waiting' late' tracked' w')) = false).
Proof.
  intros Hadm Htr w1.
  assert (Hadm1 : admitted w1).
  { apply disturb_admitted. by apply (same_admission_admitted w). }
  destruct (Drain_eq t waiting late tracked w) as (rel & err & w2 & Hr & He & Hst & Hre). fold w1 in Hr, He.
  set (timedOut := if bool_decide (activity w1 = ∅) then late else true) in *.
  assert (Hsuccess : forall c to rl er, Success {| Clean := c; TimedOut := to; DrainReleased := rl; DrainErr := er |} = true ->
    to = false /\ er = []).
  { intros c to rl er. unfold Success. cbn. intros [[_ Hto]%andb_true_iff Her%bool_decide_eq_true]%andb_true_iff.
    split; [by apply negb_true_iff|by apply length_zero_iff_nil]. }
  assert (Hheld : forall e, e ∈ (tracked (activity w1) ≫= snd) ++ (range (pending_ w1) ≫= snd) <-> still_held w1 e)
    by (intros e; by apply elem_of_still_held).
  rewrite He. destruct Hr as [(more & Hrel & Hnd & Hm & _) Herr Hall (Hp & Hh & _ & Hrun)]. cbn [app] in Hrel. subst rel.
  cbn in Hp, Hh, Hrun.
  split_and!; try done.
  - cbn. intros Hto. rewrite Hrun. destruct (running w1) as [|e l] eqn:E; [done|exfalso].
    unfold timedOut in Hto. case_bool_decide as Ha; [|done].
    pose proof (adm_tracked _ Hadm1 (ID e)) as Ht. rewrite Ha, lookup_empty in Ht. cbn in Ht.
    unfold flights in Ht. rewrite E, filter_cons_True in Ht by done. done.
  - cbn. intros id Hid. destruct (Hm id Hid) as (_ & e & Hin & <-). exists e. split; [by apply Hheld|done].
  - cbn. intros e Hin%Hheld. eexists. split; [intros e'; apply Hheld|].
    eapply release_outcome_mono; [|apply Hall; [exact Hin|set_solver]]. set_solver.
  - split; [apply Hsuccess|]. cbn. intros [-> Hno]. unfold Success. cbn. by rewrite Hno.
  - cbn [DrainErr]. intros Hne t' waiting' late' tracked'.
    destruct (Drain_eq t' waiting' late' tracked' (noteDrainError (err ++ releaseErr w2) w2))
      as (rel' & err' & w3 & _ & He' & _ & Hre'). rewrite He'. cbn [fst].
    apply not_true_is_false. intros [_ Hz]%Hsuccess. apply app_eq_nil in Hz as [_ Hz]. rewrite Hre' in Hz.
    cbn in Hz. apply app_eq_nil in Hz as [_ Hz]. done.
Qed.

End worker.

(** ** The properties at concrete inputs

    A worker over the PostgreSQL queue, with one listener of concurrency one and two captured events. *)

#[local] Instance sample_port : EventSource world := queue_source documented_Sanitize id id.
#[local] Instance sample_laws : EventSourceLaws world := queue_source_laws documented_Sanitize id id.

Definition visit_all (m : gmap gostring (list Event)) : list (gostring * list Event) := map_to_list m.
Definition sample_attempt (e : Event) (l : ListenerConfig) (t : readings) (c : http_client) : settlement :=
  snd (deliver id (λ _ _, None) (λ _, None) toy_hmac (λ _, true) (λ _, bs "1970-01-01T00:00:00.000000Z") id e l c t None).
Definition sample_config : WorkerConfig :=
  {| BatchSize := 5; GlobalConcurrency := 2; PollInterval := second; LeaseTimeout := 60 * second;
     Listeners := [sample_listener]; HasReclaimer := true |}.
Definition sample_world : world := World (worker (bs "a")) captured (λ _, quiet 5) (λ _, 5) 0.
Definition sample_worker : Worker world := NewWorker sample_world sample_config.
Definition no_schedule : schedule := {| before := λ _, []; races := λ _, false |}.
Definition waiting_events : list Event :=
  map (λ i, {| ID := i; Listener := bs "orders"; Operation := bs "insert"; OccurredAt := 0;
               Table := spelled_pair (bs "public") (bs "orders"); TXID := 7; Payload := bs "{}"; Attempt := 1 |}) [1; 2].

Lemma visit_all_ok m : visit_all m ≡ₚ map_to_list m.
Proof. done. Qed.
Lemma sample_admitted : admitted sample_worker.
Proof. apply NewWorker_admitted. Qed.
Lemma sample_world_valid : es_valid sample_world.
Proof. split; [apply captured_reachable|done]. Qed.

Lemma dispatchBatch_conserves_witness :
  exists w', dispatchBatch visit_all sample_attempt 0 no_schedule waiting_events sample_worker = Some (1%nat, w') /\
    map ID (queue_of (pending_ w') (bs "orders")) = [2].
Proof.
  destruct (dispatchBatch_conserves visit_all sample_attempt visit_all_ok 0 no_schedule waiting_events sample_worker
    sample_admitted) as (n & w' & taken & rest & Hd & _).
  destruct (dispatchBatch visit_all sample_attempt 0 no_schedule waiting_events sample_worker) as [[n' w'']|] eqn:E;
    [|done].
  vm_compute in E. injection E as <- <-. eexists. split; [reflexivity|]. by vm_compute.
Defined.

(** Both captured events are claimed; one is begun, and the other waits. *)
Lemma RunOnce_conserves_witness :
  exists answer w' claimed dropped taken,
    RunOnce visit_all sample_attempt 0 no_schedule sample_worker = Some (answer, w') /\
    map ID claimed = [1; 2] /\ length (running w') = 1%nat /\
    accounted sample_worker w' claimed dropped taken (bs "orders").
Proof.
  destruct (RunOnce_conserves visit_all sample_attempt visit_all_ok 0 no_schedule sample_worker sample_admitted)
    as (answer & w' & claimed & dropped & taken & Hr & Hp & _).
  - intros name e. vm_compute. by intros ?%elem_of_nil.
  - done.
  - apply sample_world_valid.
  - exists answer, w', claimed, dropped, taken. split; [done|].
    destruct Hp as (_ & _ & _ & Hg & _ & Hd & _ & Hacc & _).
    assert (stopping w' = false /\ length (running w') = 1%nat) as [Hst Hn]
      by (vm_compute in Hr; injection Hr as _ <-; done).
    destruct dropped as [|e dropped].
    + split; [|split; [done|by apply Hacc]].
      vm_compute in Hg. destruct Hg as [-> _]. done.
    + destruct (Hd e) as (since & Hin & _); [by left|]. vm_compute in Hin. done.
Defined.

Lemma concurrency_never_exceeded_witness :
  exists answer w', RunOnce visit_all sample_attempt 0 no_schedule sample_worker = Some (answer, w') /\
    (load (bs "orders") w' <= 1)%nat.
Proof.
  destruct (RunOnce visit_all sample_attempt 0 no_schedule sample_worker) as [[answer w']|] eqn:E; [|by vm_compute in E].
  exists answer, w'. split; [done|].
  destruct (concurrency_never_exceeded visit_all sample_attempt visit_all_ok sample_world sample_config w') as (_ & H & _).
  - eapply reached_poll; [apply reached_new|exact E].
  - apply (H sample_listener); done.
Defined.

Lemma dispatchBatch_work_conserving_witness :
  exists n w', dispatchBatch visit_all sample_attempt 0 no_schedule waiting_events sample_worker = Some (n, w') /\
    exists st, listeners w' !! bs "orders" = Some st /\
      (hasCapacity (Some (global w')) = false \/ hasCapacity (sem st) = false).
Proof.
  destruct (dispatchBatch visit_all sample_attempt 0 no_schedule waiting_events sample_worker) as [[n w']|] eqn:E;
    [|by vm_compute in E].
  exists n, w'. split; [done|].
  apply (dispatchBatch_work_conserving visit_all sample_attempt visit_all_ok 0 no_schedule waiting_events sample_worker n w');
    [apply sample_admitted|by split|exact E|..]; vm_compute in E; injection E as _ <-; [done|by vm_compute].
Defined.

Lemma drain_releases_once_witness :
  exists w, RunOnce visit_all sample_attempt 0 no_schedule sample_worker = Some (Ok 1%nat, w) /\
    stopping (snd (Drain visit_all sample_attempt 0 [] false map_to_list w)) = true.
Proof.
  destruct (RunOnce visit_all sample_attempt 0 no_schedule sample_worker) as [[answer w]|] eqn:E; [|by vm_compute in E].
  exists w. split; [f_equal; vm_compute in E; by injection E as <- _|].
  pose proof (drain_releases_once visit_all sample_attempt visit_all_ok 0 [] false map_to_list w) as H.
  destruct (Drain visit_all sample_attempt 0 [] false map_to_list w) as [r w'].
  assert (Hr : reached visit_all sample_attempt sample_world sample_config w)
    by (eapply reached_poll; [apply reached_new|exact E]).
  destruct (reached_ok visit_all sample_attempt visit_all_ok _ _ _ Hr) as [Ha _].
  destruct (H Ha (λ m, reflexivity _)) as (_ & _ & Hst & _). exact Hst.
Defined.
