(* ===== verification/Wakeup.v ===== *)
(** * Waking the worker

    [internal/delivery]'s wakeup.go: the machine that turns notifications into delayed polls, and the
    loop's select as a step relation. An input is the channel a step receives from; a nil channel is
    never received from. *)

From S2P Require Import Prelude Policy.

Local Open Scope Z_scope.

Section wakeup.
(** The draw of [JitterFunc], or of [rand.Int63n] where none is given. *)
Context (draw : JitterFunc).

Record wakeMachine := { interval : Z; hinted : bool; listening : bool; reconnecting : bool }.

Definition newWakeMachine (interval : Z) : wakeMachine :=
  {| interval := if interval <=? 0 then second else interval; hinted := false; listening := true;
     reconnecting := false |}.

Record wakeAction := { hint : bool; poll : bool; delay : Z }.
Definition no_action : wakeAction := {| hint := false; poll := false; delay := 0 |}.

Definition wakeDelay (interval : Z) : Z :=
  if interval <=? 0 then 0
  else
    let limit := interval in
    let bound := if limit <? max_int64 then wrap64 (limit + 1) else limit in
    let delay := draw bound in
    if delay <? 0 then 0 else if limit <? delay then interval else delay.

Definition machine_poll (m : wakeMachine) : wakeAction := {| hint := false; poll := true; delay := 0 |}.

Definition machine_notify (open : bool) (m : wakeMachine) : wakeAction * wakeMachine :=
  if negb open then
    (no_action, {| interval := interval m; hinted := hinted m; listening := false; reconnecting := reconnecting m |})
  else if hinted m then
    (no_action, {| interval := interval m; hinted := hinted m; listening := true; reconnecting := reconnecting m |})
  else ({| hint := true; poll := false; delay := wakeDelay (interval m) |},
        {| interval := interval m; hinted := true; listening := true; reconnecting := reconnecting m |}).

Definition machine_fired (m : wakeMachine) : wakeAction * wakeMachine :=
  (machine_poll m,
   {| interval := interval m; hinted := false; listening := listening m; reconnecting := reconnecting m |}).

Definition machine_lost (m : wakeMachine) : bool * wakeMachine :=
  if reconnecting m then
    (false, {| interval := interval m; hinted := hinted m; listening := false; reconnecting := true |})
  else (true, {| interval := interval m; hinted := hinted m; listening := false; reconnecting := true |}).

Definition machine_reconnected (open : bool) (m : wakeMachine) : wakeMachine :=
  {| interval := interval m; hinted := hinted m; listening := open; reconnecting := false |}.

(** ** The loop

    Which of its channels are non-nil: the notification channel, the hint timer (with the delay it was
    armed for), the result of a reconnection under way, the retry timer. *)
Record wakeLoop := {
  machine : wakeMachine;
  notify : bool;
  hint_timer : option Z;
  reconnectResult : bool;
  retry : bool
}.

Inductive wake_input := Tick | Notified | NotifyClosed | HintFired | Reconnected (channel : bool) | RetryFired.

(** Whether the loop has a reconnect function. *)
Context (has_reconnect : bool).

Definition startReconnect (m : wakeMachine) : bool * wakeMachine :=
  let '(lost, m) := machine_lost m in (lost && has_reconnect, m).

(** One iteration of the select, [None] when the input's channel is nil: the state left and whether it
    polled. *)
Definition receive (i : wake_input) (l : wakeLoop) : option (wakeLoop * bool) :=
  match i with
  | Tick => Some (l, true)
  | Notified =>
      if negb (notify l) then None
      else
        let '(action, m) := machine_notify true (machine l) in
        let timer := if hint action && bool_decide (hint_timer l = None) then Some (delay action)
                     else hint_timer l in
        Some ({| machine := m; notify := true; hint_timer := timer; reconnectResult := reconnectResult l;
                 retry := retry l |}, false)
  | NotifyClosed =>
      if negb (notify l) then None
      else
        let '(started, m) := startReconnect (machine l) in
        Some ({| machine := m; notify := false; hint_timer := hint_timer l; reconnectResult := started;
                 retry := retry l |}, false)
  | HintFired =>
      match hint_timer l with
      | None => None
      | Some _ =>
          let '(action, m) := machine_fired (machine l) in
          Some ({| machine := m; notify := notify l; hint_timer := None; reconnectResult := reconnectResult l;
                   retry := retry l |}, poll action)
      end
  | Reconnected channel =>
      if negb (reconnectResult l) then None
      else
        let m := machine_reconnected channel (machine l) in
        Some ({| machine := m; notify := if channel then true else notify l; hint_timer := hint_timer l;
                 reconnectResult := false; retry := if channel then retry l else true |}, false)
  | RetryFired =>
      if negb (retry l) then None
      else
        let '(started, m) := startReconnect (machine l) in
        Some ({| machine := m; notify := notify l; hint_timer := hint_timer l;
                 reconnectResult := if started then true else reconnectResult l; retry := false |}, false)
  end.

Definition newWakeLoop (interval : Z) (subscribed : bool) : wakeLoop :=
  {| machine := newWakeMachine interval; notify := subscribed; hint_timer := None; reconnectResult := false;
     retry := false |}.

(** A run from a state: the inputs received, the state reached, and the polls made. *)
Inductive receives : wakeLoop -> list wake_input -> wakeLoop -> nat -> Prop :=
  | receives_nil l : receives l [] l 0
  | receives_snoc l ins l1 n i l2 (polled : bool) :
      receives l ins l1 n -> receive i l1 = Some (l2, polled) ->
      receives l (ins ++ [i]) l2 (n + if polled then 1 else 0).

(** ** Lemmas *)

Lemma wakeDelay_range i : int64_range i -> 0 < i -> 0 <= wakeDelay i <= i.
Proof. intros _ Hi. unfold wakeDelay. cases_Z; lia. Qed.

Record loop_ok (l : wakeLoop) : Prop := {
  ok_interval : 0 < interval (machine l);
  ok_hint : hinted (machine l) = true <-> is_Some (hint_timer l);
  ok_delay d : hint_timer l = Some d -> 0 <= d <= interval (machine l);
  ok_notify : notify l = true -> reconnecting (machine l) = false /\ reconnectResult l = false /\ retry l = false;
  ok_reconnecting : has_reconnect = true -> reconnecting (machine l) = reconnectResult l;
  ok_one : reconnectResult l = true -> retry l = false;
  ok_none : has_reconnect = false -> reconnectResult l = false /\ retry l = false
}.

Lemma receive_ok i l l' polled :
  int64_range (interval (machine l)) -> loop_ok l -> receive i l = Some (l', polled) ->
  loop_ok l' /\ interval (machine l') = interval (machine l).
Proof.
  intros Hi [H1 H2 H3 H4 H5 H6 H7] Hr.
  pose proof (wakeDelay_range _ Hi H1) as Hd.
  destruct l as [[iv h li re] no ht rr rt], i as [| | | |ch|]; cbn in *; unfold startReconnect, machine_lost in *; cbn in *.
  - by simplify_eq.
  - destruct no; [|done]. unfold machine_notify in Hr. cbn in Hr. destruct H4 as (-> & -> & ->); [done|].
    destruct h, ht as [d0|]; cbn in Hr; simplify_eq; (split; [|done]);
      try (by destruct H2 as [H2 _]; destruct (H2 eq_refl)); try (by destruct H2 as [_ H2]; discriminate H2; eauto);
      split; cbn; auto; try done; intros d [= <-]; lia.
  - destruct no; [|done]. destruct H4 as (-> & -> & ->); [done|]. cbn in Hr. simplify_eq.
    split; [|done]. split; cbn; auto; try done; intros ->; by auto.
  - destruct ht; [|done]. simplify_eq. split; [|done]. split; cbn; auto; try done.
  - destruct rr; [|done]. cbn in Hr. simplify_eq.
    split; [|done].
    assert (has_reconnect = true) as Hhr by (destruct has_reconnect; [done|]; destruct (H7 eq_refl); done).
    destruct ch; split; cbn; auto; try done; try congruence; rewrite ?Hhr; try done.
    intros Hn. by destruct (H4 Hn) as (_ & ? & _).
  - destruct rt; [|done]. assert (no = false) as -> by (destruct no; [by destruct (H4 eq_refl) as (_ & _ & ?)|done]).
    destruct rr; [by specialize (H6 eq_refl)|].
    assert (has_reconnect = true) as Hhr by (destruct has_reconnect; [done|]; destruct (H7 eq_refl); done).
    specialize (H5 Hhr). cbn in H5. rewrite H5, Hhr in Hr. cbn in Hr. simplify_eq. split; [|done].
    split; cbn; auto; try done; intros ?; congruence.
Qed.
Lemma newWakeLoop_ok i subscribed : int64_range i ->
  loop_ok (newWakeLoop i subscribed) /\ int64_range (interval (machine (newWakeLoop i subscribed))).
Proof.
  intros Hi. split; [split; cbn; try done|]; cbn; unfold int64_range, min_int64, max_int64, second in *; cases_Z; try lia.
Qed.

Lemma receives_ok l ins l' n :
  int64_range (interval (machine l)) -> loop_ok l -> receives l ins l' n ->
  loop_ok l' /\ interval (machine l') = interval (machine l).
Proof.
  intros Hi Hl H. induction H as [|l ins l1 n i l2 polled _ IH Hr]; [done|].
  destruct (IH Hi Hl) as [Hl1 Hi1]. destruct (receive_ok i l1 l2 polled) as [? ?]; [by rewrite Hi1|done..|].
  split; [done|congruence].
Qed.

(** How often an input was received. *)
Definition received (P : wake_input -> bool) (ins : list wake_input) : nat :=
  length (filter (λ i, P i = true) ins).
Definition is_tick (i : wake_input) : bool := match i with Tick => true | _ => false end.
Definition is_notified (i : wake_input) : bool := match i with Notified => true | _ => false end.
Definition is_fired (i : wake_input) : bool := match i with HintFired => true | _ => false end.

Lemma received_snoc Q ins i : received Q (ins ++ [i]) = (received Q ins + if Q i then 1 else 0)%nat.
Proof. unfold received. rewrite filter_app, length_app, filter_cons. destruct (decide _), (Q i); try done; cbn; lia. Qed.

(** Hints fired, and the one armed, against notifications. *)
Lemma receives_counts l ins l' n :
  int64_range (interval (machine l)) -> loop_ok l -> hint_timer l = None -> receives l ins l' n ->
  n = (received is_tick ins + received is_fired ins)%nat /\
  (received is_fired ins + (if hint_timer l' then 1 else 0) <= received is_notified ins)%nat /\
  (hint_timer l' = None -> (0 < received is_notified ins)%nat -> (0 < received is_fired ins)%nat).
Proof.
  intros Hi Hl H0 H. induction H as [l|l ins l1 n i l2 polled Hrs IH Hr].
  { rewrite H0. cbn. split_and!; lia. }
  destruct (IH Hi Hl H0) as (Hn & Hc & Hw). clear IH.
  destruct (receives_ok _ _ _ _ Hi Hl Hrs) as [Hok _].
  rewrite !received_snoc. subst n. destruct i; cbn in Hr |- *.
  - simplify_eq. split_and!; [lia|lia|]. rewrite !Nat.add_0_r. done.
  - destruct (notify l1); [|done]. pose proof (ok_hint _ Hok) as Hh. unfold machine_notify in Hr. cbn in Hr.
    destruct (hinted (machine l1)), (hint_timer l1) as [d|]; cbn in Hr; simplify_eq; cbn.
    + split_and!; [lia|lia|done].
    + by destruct (proj1 Hh eq_refl).
    + by discriminate (proj2 Hh ltac:(by eexists)).
    + split_and!; [lia|lia|done].
  - destruct (notify l1); [|done]. cbn in Hr. destruct (startReconnect (machine l1)). simplify_eq. cbn.
    rewrite !Nat.add_0_r. done.
  - destruct (hint_timer l1); [|done]. simplify_eq. cbn. split_and!; [lia|lia|lia].
  - destruct (reconnectResult l1); [|done]. cbn in Hr. simplify_eq. cbn. rewrite !Nat.add_0_r. done.
  - destruct (retry l1); [|done]. cbn in Hr. destruct (startReconnect (machine l1)). simplify_eq. cbn.
    rewrite !Nat.add_0_r. done.
Qed.

(** Some way to learn of new work is always open, being opened, or about to be tried. *)
Lemma receive_live l i l' polled :
  has_reconnect = true -> loop_ok l -> notify l || reconnectResult l || retry l = true ->
  receive i l = Some (l', polled) -> notify l' || reconnectResult l' || retry l' = true.
Proof.
  intros Hrec Hok Hlive Hr. assert (Hre := ok_reconnecting _ Hok Hrec). destruct Hok as [_ _ _ H4 _ H6 _].
  destruct l as [m no ht rr rt], i as [| | | |ch|]; cbn in *; unfold startReconnect, machine_lost in *.
  - by simplify_eq.
  - destruct no; [|done]. cbn in Hr. destruct (hinted m); cbn in Hr; by simplify_eq.
  - destruct no; [|done]. destruct (H4 eq_refl) as (Hm & -> & ->). rewrite Hm, Hrec in Hr. cbn in Hr. by simplify_eq.
  - destruct ht; [|done]. by simplify_eq.
  - destruct rr; [|done]. cbn in Hr. simplify_eq. cbn. by destruct ch, no.
  - destruct rt; [|done]. destruct rr; [by specialize (H6 eq_refl)|]. rewrite Hre, Hrec in Hr. cbn in Hr.
    simplify_eq. cbn. by rewrite orb_true_r.
Qed.

Lemma receives_live l ins l' n :
  has_reconnect = true -> int64_range (interval (machine l)) -> loop_ok l ->
  notify l || reconnectResult l || retry l = true -> receives l ins l' n ->
  notify l' || reconnectResult l' || retry l' = true.
Proof.
  intros Hrec Hi Hok Hlive H. induction H as [|l ins l1 n i l2 polled Hrs IH Hr]; [done|].
  eapply receive_live; [done| |by apply IH|done]. by eapply receives_ok.
Qed.

(** The wake loop neither loses nor multiplies wake-ups: in every run, it polls once per tick and
    once per hint that fires; a hint is armed exactly while the machine says so, for a delay between
    zero and the interval; hints fired or armed never outnumber notifications, and whenever a
    notification was received a hint has fired or is armed; and a loop that can reconnect always has a
    live notification channel, a reconnection under way or a retry armed -- and never two at once. *)
Theorem wake_loop_sound i ins l n :
  int64_range i -> receives (newWakeLoop i true) ins l n ->
  n = (received is_tick ins + received is_fired ins)%nat /\
  (hinted (machine l) = true <-> is_Some (hint_timer l)) /\
  (forall d, hint_timer l = Some d -> 0 <= d <= interval (machine l)) /\
  (received is_fired ins + (if hint_timer l then 1 else 0) <= received is_notified ins)%nat /\
  ((0 < received is_notified ins)%nat -> (0 < received is_fired ins)%nat \/ is_Some (hint_timer l)) /\
  (has_reconnect = true -> notify l || reconnectResult l || retry l = true /\
     negb (reconnectResult l && retry l) && negb (notify l && (reconnectResult l || retry l)) = true).
Proof.
  intros Hi Hr. destruct (newWakeLoop_ok i true Hi) as [Hok0 Hi0].
  destruct (receives_ok _ _ _ _ Hi0 Hok0 Hr) as [Hok _].
  destruct (receives_counts _ _ _ _ Hi0 Hok0 eq_refl Hr) as (Hn & Hc & Hw).
  split_and!; try done; try apply Hok.
  - intros Hp. destruct (hint_timer l); [by right; eauto|left]. by apply Hw.
  - intros Hrec. split.
    + by eapply receives_live.
    + destruct Hok as [_ _ _ H4 _ H6 _].
      destruct (notify l), (reconnectResult l), (retry l); try done; try (by destruct (H4 eq_refl) as (_ & ? & ?));
        by specialize (H6 eq_refl).
Qed.

End wakeup.

(** Two notifications arrive before the hint they arm fires: one poll answers both. *)
Lemma wake_loop_sound_witness :
  exists l, receives (λ _, 7) false (newWakeLoop 10 true) [Notified; Notified; HintFired; Tick] l 2 /\
    (1 + (if hint_timer l then 1 else 0) <= 2)%nat.
Proof.
  assert (exists l, receives (λ _, 7) false (newWakeLoop 10 true) [Notified; Notified; HintFired; Tick] l 2) as [l Hr].
  { eexists. eapply (receives_snoc _ _ _ [Notified; Notified; HintFired] _ 1 Tick _ true); [|reflexivity].
    eapply (receives_snoc _ _ _ [Notified; Notified] _ 0 HintFired _ true);
      [eapply (receives_snoc _ _ _ [Notified] _ 0 Notified _ false);
        [eapply (receives_snoc _ _ _ [] _ 0 Notified _ false); [constructor|reflexivity]|reflexivity]|reflexivity]. }
  exists l. split; [done|].
  assert (H10 : int64_range 10) by (unfold_int; lia).
  destruct (wake_loop_sound (λ _, 7) false 10 _ l 2 H10 Hr) as (_ & _ & _ & Hc & _).
  exact Hc.
Defined.
