(* ===== verification/Partition.v ===== *)
(** * The partition grid and the maintenance plan

    [internal/schema]'s pure half of maintenance: the epoch-aligned grid of partition.go, the plan of
    plan.go, the precondition of horizon.go and the bound reader of partitionbound.go. An instant is
    a number of nanoseconds from the epoch ([time.Time] is wider than [int64], so it is a [Z]); a
    [time.Duration] is an [int64] whose arithmetic wraps. *)

From S2P Require Import Prelude Utf8 Quote.
From stdpp Require Import sorting.

Local Open Scope Z_scope.

(** ** Rendering an instant in UTC *)

(** [w] decimal digits of [z]. *)
Fixpoint fixed_digits (w : nat) (z : Z) : gostring :=
  match w with
  | O => []
  | S w => fixed_digits w (z / 10) ++ [byte_of (48 + z mod 10)]
  end.

(** The standard library's zero-padded decimal. *)
Definition append_int (z : Z) (width : nat) : gostring :=
  let digits z := if z <? 10 ^ Z.of_nat width then fixed_digits width z else format_int z in
  if z <? 0 then bs "-" ++ digits (- z) else digits z.

Record civil := Civil { year : Z; month : Z; day : Z }.

Definition ns_per_day : Z := 86400 * 10 ^ 9.

(** The proleptic Gregorian date of a day counted from the epoch. Years are counted from 1 March, so
    that a leap day is the last of its year. *)
Definition civil_of_day (days : Z) : civil :=
  let d := days + 719468 in
  let n400 := d / 146097 in let d := d mod 146097 in
  let n100 := Z.min 3 (d / 36524) in let d := d - 36524 * n100 in
  let n4 := d / 1461 in let d := d - 1461 * n4 in
  let n1 := Z.min 3 (d / 365) in let d := d - 365 * n1 in
  let m := (5 * d + 2) / 153 in
  Civil (400 * n400 + 100 * n100 + 4 * n4 + n1 + (if 10 <=? m then 1 else 0))
        (if 10 <=? m then m - 9 else m + 3)
        (d - (153 * m + 2) / 5 + 1).

Record clock := Clock { hour : Z; minute : Z; second : Z; nanosecond : Z }.

Definition clock_of (instant : Z) : clock :=
  let t := instant mod ns_per_day in
  let s := t / 10 ^ 9 in
  Clock (s / 3600) (s / 60 mod 60) (s mod 60) (t mod 10 ^ 9).

Definition civil_of (instant : Z) : civil := civil_of_day (instant / ns_per_day).

(** [bound.UTC().Format(rangeBoundLayout) + "Z"] *)
Definition boundStamp (bound : Z) : gostring :=
  let date := civil_of bound in let t := clock_of bound in
  append_int (year date) 4 ++ append_int (month date) 2 ++ append_int (day date) 2 ++ bs "T" ++
  append_int (hour t) 2 ++ append_int (minute t) 2 ++ append_int (second t) 2 ++ bs "." ++
  append_int (nanosecond t) 9 ++ bs "Z".

(** A fraction without its trailing zeros, and without its point where nothing is left. *)
Definition trim_zeros (digits : gostring) : gostring :=
  reverse (let fix strip s := match s with
                              | c :: r => if bool_decide (c = "0"%char) then strip r else s
                              | [] => []
                              end in strip (reverse digits)).
Definition fraction (nanos : Z) : gostring :=
  match trim_zeros (append_int nanos 9) with [] => [] | digits => bs "." ++ digits end.

(** [bound.UTC().Format(time.RFC3339Nano)] *)
Definition boundLiteral (bound : Z) : gostring :=
  let date := civil_of bound in let t := clock_of bound in
  append_int (year date) 4 ++ bs "-" ++ append_int (month date) 2 ++ bs "-" ++ append_int (day date) 2 ++
  bs "T" ++ append_int (hour t) 2 ++ bs ":" ++ append_int (minute t) 2 ++ bs ":" ++
  append_int (second t) 2 ++ fraction (nanosecond t) ++ bs "Z".

(** ** Ranges *)

Record Range := MkRange { From_ : Z; To_ : Z; Name : gostring }.

#[global] Instance Range_eq_dec : EqDecision Range.
Proof. solve_decision. Defined.

Record Retention := MkRetention { Keep : Z; PartitionInterval : Z; Precreate : Z }.

(** The zero [time.Time]: 1 January of year 1. *)
Definition zero_time : Z := - 62135596800 * 10 ^ 9.

(** ** The grid (partition.go). [None] is a panic: a division by zero, a negative capacity, or a loop
    whose index never passes its end. *)

Definition floorDiv (numerator divisor : Z) : option Z :=
  if divisor =? 0 then None
  else
    let quotient := wrap64 (numerator `quot` divisor) in
    Some (if negb (numerator `rem` divisor =? 0) && (numerator <? 0) then wrap64 (quotient - 1) else quotient).

(** [instant.UnixNano()] wraps outside 1678..2262. *)
Definition gridIndex (instant interval : Z) : option Z := floorDiv (wrap64 instant) interval.

Definition boundary (index interval : Z) : Z := wrap64 (index * interval).

Definition rangeName (from to : Z) : gostring :=
  ObjectName TableEvents (boundStamp from ++ bs "_" ++ boundStamp to).

Definition rangeAt (index interval : Z) : Range :=
  let from := boundary index interval in
  let to := boundary (wrap64 (index + 1)) interval in
  MkRange from to (rangeName from to).

Fixpoint ranges_through (fuel : nat) (index last interval : Z) : option (list Range) :=
  if index <=? last then
    match fuel with
    | O => None
    | S fuel => cons (rangeAt index interval) <$> ranges_through fuel (wrap64 (index + 1)) last interval
    end
  else Some [].

Definition RequiredRanges (now : Z) (cfg : Retention) : option (list Range) :=
  first ← gridIndex now (PartitionInterval cfg);
  last ← gridIndex (now + Precreate cfg) (PartitionInterval cfg);
  if wrap64 (last - first + 1) <? 0 then None
  else ranges_through (Z.to_nat (last - first + 1)) first last (PartitionInterval cfg).

Definition ExpiredRanges (observed : list Range) (now keep : Z) : list Range :=
  let cutoff := now + wrap64 (- keep) in
  filter (λ ranged, ~ cutoff < To_ ranged) observed.

Definition starts_before (a b : Range) : Prop := From_ a <= From_ b.

#[global] Instance starts_before_dec : RelDecision starts_before.
Proof. intros a b. unfold starts_before. apply _. Defined.

Definition sortedByStart (observed : list Range) : list Range := merge_sort starts_before observed.

(** How far a run of ranges sorted by start reaches without a hole. *)
Fixpoint contiguous_reach (reach : Z) (ordered : list Range) : Z :=
  match ordered with
  | [] => reach
  | ranged :: rest =>
      if reach <? From_ ranged then reach
      else contiguous_reach (if reach <? To_ ranged then To_ ranged else reach) rest
  end.

Definition CoverageShortfall (observed : list Range) (now precreate : Z) : Z :=
  let reach := contiguous_reach now (sortedByStart observed) in
  let horizon := now + precreate in
  if negb (reach <? horizon) then 0 else sat64 (horizon - reach).

(** ** The precondition (horizon.go) *)

Definition relationIdentifiersOneDatabaseHolds : Z := 2 ^ 32.
Definition storedInstantGranularity : Z := 1000.
Definition partitionsBeyondAHorizonThatDivides : Z := 1.
Definition partitionsBeyondAHorizonWithRemainder : Z := 2.

Inductive horizon_refusal :=
  | negativeInterval (interval : Z)
  | unstorableInterval (interval : Z)
  | unservableHorizon (count interval precreate : Z).

Definition horizonPartitionCount (retention : Retention) : option Z :=
  if PartitionInterval retention =? 0 then None
  else
    let whole := wrap64 (Precreate retention `quot` PartitionInterval retention) in
    let beyond := if Precreate retention `rem` PartitionInterval retention =? 0
                  then partitionsBeyondAHorizonThatDivides
                  else partitionsBeyondAHorizonWithRemainder in
    Some (if max_int64 - beyond <? whole then max_int64 else wrap64 (whole + beyond)).

(** [None] is the panic of a zero interval, [Some None] a horizon that can be served. *)
Definition unservableHorizonIn (retention : Retention) : option (option horizon_refusal) :=
  let interval := PartitionInterval retention in
  if interval <? 0 then Some (Some (negativeInterval interval))
  else if negb (interval `rem` storedInstantGranularity =? 0) then Some (Some (unstorableInterval interval))
  else
    count ← horizonPartitionCount retention;
    Some (if count <? relationIdentifiersOneDatabaseHolds then None
          else Some (unservableHorizon count interval (Precreate retention))).

(** ** The plan (plan.go) *)

Record Plan := MkPlan { Create : list Range; Drop_ : list Range }.

Definition sameExtentAs (ranged other : Range) : bool :=
  (From_ ranged =? From_ other) && (To_ ranged =? To_ other).

Definition rangesNotYetObserved (required observed : list Range) : list Range :=
  filter (λ wanted, existsb (sameExtentAs wanted) observed = false) required.

Inductive undroppableReason := droppable | itIsTheDefaultPartition | itHasNoUpperBound.

#[global] Instance undroppableReason_eq_dec : EqDecision undroppableReason.
Proof. solve_decision. Defined.

Definition whyUndroppable (observed : Range) : undroppableReason :=
  if bool_decide (Name observed = PartitionDefault) then itIsTheDefaultPartition
  else if To_ observed =? zero_time then itHasNoUpperBound
  else droppable.

Definition retainedByAge (observed : list Range) : list Range :=
  filter (λ candidate, whyUndroppable candidate = droppable) observed.

Definition PlanMaintenance (now : Z) (cfg : Retention) (observed : list Range) : option Plan :=
  required ← RequiredRanges now cfg;
  Some (MkPlan (rangesNotYetObserved required observed)
               (ExpiredRanges (retainedByAge observed) now (Keep cfg))).

(** ** Reading a bound back (partitionbound.go) *)

Definition defaultBoundExpression : gostring := bs "DEFAULT".
Definition rangeBoundOpening : gostring := bs "FOR VALUES FROM ('".
Definition rangeBoundMiddle : gostring := bs "') TO ('".
Definition rangeBoundClosing : gostring := bs "')".
Definition unboundedBelow : gostring := bs "FOR VALUES FROM (MINVALUE)".
Definition unboundedAbove : gostring := bs "TO (MAXVALUE)".
Definition isoBoundLayouts : list gostring :=
  [bs "2006-01-02 15:04:05.999999-07"; bs "2006-01-02 15:04:05.999999-07:00";
   bs "2006-01-02 15:04:05.999999-07:00:00"].

Inductive boundFault :=
  | boundOK | boundNotASingleColumnRange | boundHasNoFiniteEnd | boundInstantUnreadable.

Definition isDefaultBound (written : gostring) : bool := bool_decide (written = defaultBoundExpression).

(** [strings.Cut] *)
Definition cut (s sep : gostring) : option (gostring * gostring) :=
  i ← index_of sep s; Some (take i s, drop (i + length sep) s).

Definition rangeBoundLiterals (written : gostring) : option (gostring * gostring) :=
  opened ← cut_prefix written rangeBoundOpening;
  closed ← cut_suffix opened rangeBoundClosing;
  cut closed rangeBoundMiddle.

Definition whyNotASingleColumnRange (written : gostring) : boundFault :=
  if has_prefix written unboundedBelow || has_suffix written unboundedAbove then boundHasNoFiniteEnd
  else boundNotASingleColumnRange.

Section bound_reader.
(** [time.Parse(layout, written)] *)
Context (time_Parse : gostring -> gostring -> option Z).

Definition instantAt (written : gostring) : option Z :=
  head (omap (λ layout, time_Parse layout written) isoBoundLayouts).

Definition rangeFrom (written name : gostring) : result boundFault Range :=
  match rangeBoundLiterals written with
  | None => Err (whyNotASingleColumnRange written)
  | Some (from, to) =>
      match instantAt from with
      | None => Err boundInstantUnreadable
      | Some begins =>
          match instantAt to with
          | None => Err boundInstantUnreadable
          | Some ends => Ok (MkRange begins ends name)
          end
      end
  end.

End bound_reader.

(** ** The grid is a floor division *)

Lemma floorDiv_div n d : int64_range n -> 0 < d -> floorDiv n d = Some (n / d).
Proof.
  intros Hn Hd. unfold floorDiv. unfold_int. rewrite (proj2 (Z.eqb_neq d 0)) by lia.
  assert (Hq : - 2 ^ 63 <= n `quot` d <= 2 ^ 63 - 1) by (Z.to_euclidean_division_equations; nia).
  rewrite (wrap64_id (n `quot` d)) by (unfold_int; lia). f_equal.
  destruct (Z.eqb_spec (n `rem` d) 0) as [H0|H0], (Z.ltb_spec n 0) as [Hs|Hs]; cbn [negb andb].
  1-2,4: Z.to_euclidean_division_equations; nia.
  rewrite wrap64_id; [|unfold_int]; Z.to_euclidean_division_equations; nia.
Qed.

(** The instants for which every bound the pass computes is expressible. *)
Record on_grid (now : Z) (r : Retention) : Prop := {
  interval_positive : 0 < PartitionInterval r;
  precreate_range : 0 <= Precreate r < max_int64;
  grid_begins : min_int64 + PartitionInterval r <= now;
  grid_ends : now + Precreate r + PartitionInterval r <= max_int64
}.

Lemma boundary_in index interval : int64_range (index * interval) -> boundary index interval = index * interval.
Proof. apply wrap64_id. Qed.

Lemma rangeAt_bounds k i :
  0 < i -> min_int64 <= k * i -> (k + 1) * i <= max_int64 ->
  From_ (rangeAt k i) = k * i /\ To_ (rangeAt k i) = (k + 1) * i /\
  Name (rangeAt k i) = rangeName (k * i) ((k + 1) * i).
Proof.
  intros Hi Hl Hu. unfold rangeAt. cbn [From_ To_ Name]. unfold_int.
  rewrite (wrap64_id (k + 1)) by (unfold_int; nia).
  rewrite !boundary_in by (unfold_int; nia). done.
Qed.

Lemma ranges_through_seqZ fuel first last i :
  min_int64 <= first -> last < max_int64 -> (Z.to_nat (last - first + 1) <= fuel)%nat ->
  ranges_through fuel first last i = Some (map (λ k, rangeAt k i) (seqZ first (last - first + 1))).
Proof.
  revert first. induction fuel as [|fuel IH]; intros first Hf Hl Hfuel; cbn [ranges_through].
  - rewrite (proj2 (Z.leb_gt first last)) by lia. by rewrite seqZ_nil by lia.
  - destruct (Z.leb_spec first last) as [Hle|Hgt]; [|by rewrite seqZ_nil by lia].
    rewrite wrap64_id by (unfold_int; lia). rewrite IH by lia.
    rewrite (seqZ_cons first) by lia. cbn [map]. cbn. do 3 f_equal. f_equal; lia.
Qed.

(** The indexes of the two ends, and how far apart they are. *)
Lemma grid_count i now p a b :
  0 < i -> 0 <= p -> - 2 ^ 63 + i <= now -> now + p + i <= 2 ^ 63 - 1 ->
  i * a <= now < i * (a + 1) -> i * b <= now + p ->
  b - a <= p /\ - 2 ^ 63 <= a /\ b < 2 ^ 63 - 1.
Proof.
  intros Hi Hp Hl Hu Ha Hb. split_and!.
  - destruct (Z.le_gt_cases (b - a) 0); [lia|]. assert ((b - a - 1) * 1 <= (b - a - 1) * i) by nia. lia.
  - destruct (Z.le_gt_cases 0 a); [lia|]. nia.
  - destruct (Z.le_gt_cases b 0); [lia|]. nia.
Qed.

Lemma RequiredRanges_grid now r :
  on_grid now r ->
  RequiredRanges now r =
    Some (map (λ k, rangeAt k (PartitionInterval r))
            (seqZ (now / PartitionInterval r)
                  ((now + Precreate r) / PartitionInterval r - now / PartitionInterval r + 1))).
Proof.
  intros [Hi Hp Hb He]. unfold RequiredRanges, gridIndex. unfold_int.
  rewrite (wrap64_id now), (wrap64_id (now + Precreate r)) by (unfold_int; lia).
  rewrite !floorDiv_div by (unfold_int; lia). cbn [mbind option_bind].
  assert (H1 : now / PartitionInterval r <= (now + Precreate r) / PartitionInterval r)
    by (apply Z.div_le_mono; lia).
  pose proof (Z.mul_div_le now (PartitionInterval r) Hi).
  pose proof (Z.mul_div_le (now + Precreate r) (PartitionInterval r) Hi).
  pose proof (Z.mul_succ_div_gt now (PartitionInterval r) Hi).
  revert H1 H H0 H2. generalize (now / PartitionInterval r), ((now + Precreate r) / PartitionInterval r).
  intros a b H1 Ha Hb' Hab. unfold Z.succ in Hab.
  destruct (grid_count (PartitionInterval r) now (Precreate r) a b) as (H5 & H6 & H7); [lia..|].
  rewrite wrap64_id by (unfold_int; lia).
  rewrite (proj2 (Z.ltb_ge _ _)) by lia.
  apply ranges_through_seqZ; [unfold_int; lia|unfold_int; lia|lia].
Qed.

(** Every range asked for, by the index of its grid line. *)
Lemma RequiredRanges_elem now r L x :
  on_grid now r -> RequiredRanges now r = Some L ->
  x ∈ L <-> exists k, now / PartitionInterval r <= k <= (now + Precreate r) / PartitionInterval r /\
                      x = rangeAt k (PartitionInterval r) /\
                      From_ x = k * PartitionInterval r /\ To_ x = (k + 1) * PartitionInterval r /\
                      Name x = rangeName (From_ x) (To_ x).
Proof.
  intros Hg. rewrite RequiredRanges_grid by done. intros [= <-].
  rewrite list_elem_of_fmap. setoid_rewrite elem_of_seqZ. split.
  - intros (k & -> & Hk). exists k. split; [lia|]. split; [done|].
    destruct Hg as [Hi Hp Hb He].
    destruct (rangeAt_bounds k (PartitionInterval r)) as (-> & -> & ->); [done| | |done];
      unfold_int; Z.to_euclidean_division_equations; nia.
  - intros (k & Hk & -> & _). exists k. split; [done|lia].
Qed.

(** [t] is an instant of the half-open extent. *)
Definition holds (x : Range) (t : Z) : Prop := From_ x <= t < To_ x.

(** Away from the saturation, the count is the whole intervals and one or two more. *)
Lemma horizonPartitionCount_value r :
  0 < PartitionInterval r -> 0 <= Precreate r < max_int64 ->
  horizonPartitionCount r =
    Some (Precreate r / PartitionInterval r +
          (if Precreate r mod PartitionInterval r =? 0 then 1 else 2)).
Proof.
  unfold_int. intros Hi Hp. unfold horizonPartitionCount,
    partitionsBeyondAHorizonThatDivides, partitionsBeyondAHorizonWithRemainder.
  rewrite (proj2 (Z.eqb_neq _ _)), Z.quot_div_nonneg, Z.rem_mod_nonneg by lia. f_equal.
  assert (Hq : 0 <= Precreate r / PartitionInterval r <= Precreate r)
    by (split; [apply Z.div_pos|apply Z.div_le_upper_bound]; nia).
  rewrite (wrap64_id (_ / _)) by (unfold_int; lia).
  assert (Hm : Precreate r / PartitionInterval r + (if Precreate r mod PartitionInterval r =? 0 then 1 else 2) <= 2 ^ 63 - 1).
  { destruct (Z.eqb_spec (Precreate r mod PartitionInterval r) 0) as [H|H]; [lia|].
    assert (PartitionInterval r <> 1) by (intros Hone; rewrite Hone, Z.mod_1_r in H; done).
    assert (Precreate r / PartitionInterval r <= 2 ^ 62); [|lia].
    transitivity (Precreate r / 2); [apply Z.div_le_compat_l; lia|].
    apply Z.div_le_upper_bound; lia. }
  unfold_int. rewrite (proj2 (Z.ltb_ge _ _)) by lia.
  rewrite wrap64_id; [done|]. unfold_int. destruct (_ =? 0); lia.
Qed.

(** Two instants [p] apart are [p / i] grid lines apart, or one more where [p] leaves a remainder. *)
Lemma grid_distance i now p :
  0 < i ->
  let d := (now + p) / i - now / i in
  if p mod i =? 0 then d = p / i else p / i <= d <= p / i + 1.
Proof.
  intros Hi d. subst d. destruct (Z.eqb_spec (p mod i) 0) as [H|H].
  - rewrite (Z.div_mod p i) at 1 by lia. rewrite H, Z.add_0_r, (Z.mul_comm i), Z.div_add by lia. lia.
  - rewrite (Z.div_mod p i) at 2 3 by lia. rewrite Z.add_assoc, (Z.mul_comm i), (Z.add_shuffle0 now).
    rewrite Z.div_add by lia.
    pose proof (Z.mod_pos_bound p i Hi).
    assert (now / i <= (now + p mod i) / i) by (apply Z.div_le_mono; lia).
    assert ((now + p mod i) / i <= now / i + 1); [|lia].
    rewrite <- (Z.div_add now 1 i) by lia. apply Z.div_le_mono; lia.
Qed.

Lemma required_holds now r L t :
  on_grid now r -> RequiredRanges now r = Some L -> now <= t <= now + Precreate r -> exists x, x ∈ L /\ holds x t.
Proof.
  intros Hg HL Ht. set (i := PartitionInterval r). assert (Hc := Hg). destruct Hc as [Hi Hp0 Hb Hu]. fold i in Hi.
  assert (Hk : now / i <= t / i <= (now + Precreate r) / i) by (split; apply Z.div_le_mono; lia).
  destruct (rangeAt_bounds (t / i) i) as (Hf & Ho & Hn); [done|unfold_int; Z.to_euclidean_division_equations; nia..|].
  exists (rangeAt (t / i) i). split.
  - apply (RequiredRanges_elem now r L); [done..|]. exists (t / i). rewrite Hn, Hf, Ho. done.
  - unfold holds. rewrite Hf, Ho. Z.to_euclidean_division_equations; nia.
Qed.

(** The pre-creation horizon: wherever the grid's arithmetic does not leave [int64], the required
    ranges exist, every instant from [now] to [now + precreate] inclusive falls in exactly one of
    them, each starts on a multiple of the interval and spans one interval, none is superfluous
    (each meets the closed horizon), and there are at most as many as [horizonPartitionCount]
    counted from the configuration alone. *)
Theorem RequiredRanges_cover now r :
  on_grid now r ->
  exists L count, RequiredRanges now r = Some L /\ horizonPartitionCount r = Some count /\
    (forall t, now <= t <= now + Precreate r ->
       exists x, x ∈ L /\ holds x t /\ forall y, y ∈ L -> holds y t -> y = x) /\
    (forall x, x ∈ L -> (PartitionInterval r | From_ x) /\ To_ x = From_ x + PartitionInterval r /\
       now < To_ x /\ From_ x <= now + Precreate r) /\
    count - 1 <= Z.of_nat (length L) <= count.
Proof.
  intros Hg. assert (Hp := precreate_range now r Hg). eexists _, _. split; [by apply RequiredRanges_grid|].
  pose proof (λ x, RequiredRanges_elem now r _ x Hg (RequiredRanges_grid now r Hg)) as He.
  assert (Hc := Hg). destruct Hc as [Hi Hp0 Hb Hu]. set (i := PartitionInterval r) in *.
  split; [by apply horizonPartitionCount_value|]. split; [|split].
  - intros t Ht. destruct (required_holds now r _ t Hg (RequiredRanges_grid now r Hg) Ht) as (x & Hx & Hh).
    exists x. split; [exact Hx|]. split; [exact Hh|].
    apply He in Hx as (j & _ & -> & Hfx & Htx & _). unfold holds in Hh.
    intros y (k & _ & -> & Hfy & Hty & _)%He [H1 H2]. f_equal. rewrite Hfx, Htx in Hh. rewrite Hfy in H1. rewrite Hty in H2. nia.
  - intros x (k & Hk & -> & -> & -> & _)%He. split; [by exists k|].
    Z.to_euclidean_division_equations; nia.
  - rewrite length_map, length_seqZ. fold i. pose proof (grid_distance i now (Precreate r) Hi) as Hd.
    cbv zeta in Hd. pose proof (Z.div_pos (Precreate r) i (proj1 Hp0) Hi).
    destruct (Precreate r mod i =? 0); lia.
Qed.

(** ** Coverage *)

Definition covered_by (observed : list Range) (t : Z) : Prop := exists x, x ∈ observed /\ holds x t.

(** The reach of a run sorted by start: everything before it is covered, and it is not. *)
Lemma contiguous_reach_spec reach L :
  Sorted starts_before L ->
  reach <= contiguous_reach reach L /\
  (forall t, reach <= t < contiguous_reach reach L -> covered_by L t) /\
  ~ covered_by L (contiguous_reach reach L).
Proof.
  revert reach. induction L as [|x L IH]; intros reach Hs; cbn [contiguous_reach].
  { split_and!; [lia|intros; lia|]. by intros (y & []%elem_of_nil & _). }
  apply Sorted_StronglySorted in Hs; [|intros ???; unfold starts_before; lia].
  inversion Hs as [|?? Hss Hall]; subst. destruct (Z.ltb_spec reach (From_ x)) as [Hlt|Hge].
  - split_and!; [lia|intros; lia|]. intros (y & Hy & Hh). unfold holds in Hh.
    apply elem_of_cons in Hy as [->|Hy]; [lia|].
    rewrite Forall_forall in Hall. specialize (Hall y Hy). unfold starts_before in Hall. lia.
  - apply StronglySorted_Sorted in Hss. set (r' := if reach <? To_ x then To_ x else reach).
    assert (Hr : r' = Z.max reach (To_ x)) by (unfold r'; destruct (Z.ltb_spec reach (To_ x)); lia).
    destruct (IH r' Hss) as (H1 & H2 & H3). split_and!; [lia| |].
    + intros t Ht. destruct (Z.le_gt_cases r' t) as [Hle|Hgt].
      * destruct (H2 t) as (y & Hy & Hh); [lia|]. exists y. split; [by right|done].
      * exists x. split; [by left|]. unfold holds. lia.
    + intros (y & Hy & Hh). apply elem_of_cons in Hy as [->|Hy].
      * unfold holds in Hh. lia.
      * apply H3. by exists y.
Qed.

#[global] Instance starts_before_total : Total starts_before.
Proof. intros a b. unfold starts_before. lia. Qed.

Lemma covered_sorted observed t : covered_by (sortedByStart observed) t <-> covered_by observed t.
Proof.
  unfold covered_by, sortedByStart.
  by setoid_rewrite (elem_of_Permutation_proper _ _ _ (merge_sort_Permutation starts_before observed)).
Qed.

Lemma shortfall_zero observed now precreate :
  (forall t, now <= t < now + precreate -> covered_by observed t) -> CoverageShortfall observed now precreate = 0.
Proof.
  intros Hall. unfold CoverageShortfall.
  destruct (contiguous_reach_spec now (sortedByStart observed)) as (H1 & _ & H3); [apply Sorted_merge_sort, _|].
  rewrite covered_sorted in H3. destruct (Z.ltb_spec (contiguous_reach now (sortedByStart observed)) (now + precreate)); [|done].
  destruct H3. apply Hall. lia.
Qed.

(** The shortfall against the horizon is exact: whatever ranges the catalog reports, in whatever
    order and however they overlap, every instant from [now] up to [shortfall] before the horizon is
    covered, and where the shortfall is not zero the instant it starts at is a hole -- a write
    landing there has no partition. So it is zero exactly when everything up to the horizon is
    covered. *)
Theorem CoverageShortfall_exact observed now precreate :
  0 <= precreate <= max_int64 ->
  let short := CoverageShortfall observed now precreate in
  let horizon := now + precreate in
  0 <= short <= precreate /\
  (forall t, now <= t < horizon - short -> covered_by observed t) /\
  (short <> 0 -> ~ covered_by observed (horizon - short)) /\
  (short = 0 <-> forall t, now <= t < horizon -> covered_by observed t).
Proof.
  intros Hp short horizon. unfold short, CoverageShortfall. fold horizon.
  destruct (contiguous_reach_spec now (sortedByStart observed)) as (H1 & H2 & H3);
    [apply Sorted_merge_sort, _|].
  setoid_rewrite covered_sorted in H2. rewrite covered_sorted in H3.
  set (reach := contiguous_reach now (sortedByStart observed)) in *.
  destruct (Z.ltb_spec reach horizon) as [Hlt|Hge]; cbn [negb].
  - assert (Hs : sat64 (horizon - reach) = horizon - reach) by (apply sat64_id; unfold_int; lia).
    rewrite Hs. replace (horizon - (horizon - reach)) with reach by lia.
    split_and!; [lia|lia|done|done|]. split; [lia|]. intros Hall. destruct H3. apply Hall. lia.
  - rewrite Z.sub_0_r. assert (H4 : forall t, now <= t < horizon -> covered_by observed t) by (intros; apply H2; lia).
    by split_and!; [lia|lia|done|done|done].
Qed.

(** ** The plan *)

Lemma sameExtentAs_iff a b : sameExtentAs a b = true <-> From_ a = From_ b /\ To_ a = To_ b.
Proof. unfold sameExtentAs. rewrite andb_true_iff, !Z.eqb_eq. done. Qed.

(** Some observed range has this extent, whatever its name. *)
Definition extent_in (x : Range) (observed : list Range) : Prop :=
  exists y, y ∈ observed /\ From_ x = From_ y /\ To_ x = To_ y.

Lemma existsb_same x observed : existsb (sameExtentAs x) observed = true <-> extent_in x observed.
Proof.
  unfold extent_in. rewrite existsb_exists. setoid_rewrite sameExtentAs_iff.
  by setoid_rewrite <- list_elem_of_In.
Qed.

Lemma elem_of_missing x required observed :
  x ∈ rangesNotYetObserved required observed <-> x ∈ required /\ ~ extent_in x observed.
Proof.
  unfold rangesNotYetObserved. rewrite list_elem_of_filter, <- existsb_same, not_true_iff_false. tauto.
Qed.

Lemma elem_of_expired x observed now keep :
  x ∈ ExpiredRanges (retainedByAge observed) now keep <->
  x ∈ observed /\ whyUndroppable x = droppable /\ To_ x <= now + wrap64 (- keep).
Proof.
  unfold ExpiredRanges, retainedByAge. rewrite !list_elem_of_filter. intuition lia.
Qed.

Lemma whyUndroppable_droppable x :
  whyUndroppable x = droppable <-> Name x <> PartitionDefault /\ To_ x <> zero_time.
Proof.
  unfold whyUndroppable. case_bool_decide; [by naive_solver|].
  destruct (Z.eqb_spec (To_ x) zero_time); naive_solver.
Qed.

(** What the catalog reports after a plan has been carried out. *)
Definition carried_out (plan : Plan) (observed : list Range) : list Range :=
  Create plan ++ filter (λ x, x ∉ Drop_ plan) observed.

Lemma required_after now r L x :
  on_grid now r -> RequiredRanges now r = Some L -> x ∈ L -> now < To_ x.
Proof.
  intros Hg HL (k & Hk & -> & _ & -> & _)%(RequiredRanges_elem now r); [|done..].
  destruct Hg as [Hi _ _ _]. Z.to_euclidean_division_equations; nia.
Qed.

(** What was required stays covered when the plan is carried out: nothing it drops is required. *)
Lemma carried_out_required now r L observed x :
  on_grid now r -> int64_range (Keep r) -> 0 <= Keep r -> RequiredRanges now r = Some L -> x ∈ L ->
  extent_in x (carried_out (MkPlan (rangesNotYetObserved L observed)
                             (ExpiredRanges (retainedByAge observed) now (Keep r))) observed).
Proof.
  intros Hg Hk Hk0 HL Hx. unfold carried_out. cbn [Create Drop_].
  destruct (existsb (sameExtentAs x) observed) eqn:E.
  - apply existsb_same in E as (y & Hy & Hf & Ht). exists y. split; [|done].
    apply elem_of_app. right. apply list_elem_of_filter. split; [|done].
    intros (_ & _ & Ho)%elem_of_expired. rewrite wrap64_id in Ho by (unfold_int; lia).
    pose proof (required_after now r L x Hg HL Hx). lia.
  - exists x. split; [|done]. apply elem_of_app. left. apply elem_of_missing. split; [done|].
    rewrite <- existsb_same. congruence.
Qed.

(** C20. A maintenance plan creates exactly the required ranges whose extent no observed partition
    has, and drops exactly the observed ranges that are not the DEFAULT partition, have an upper
    bound, and hold nothing at or after [now - keep]. Carrying it out converges in one pass: the
    horizon is covered without a shortfall and a second plan at the same instant is empty. *)
Theorem PlanMaintenance_converges now r observed :
  on_grid now r -> 0 <= Keep r <= max_int64 ->
  exists L plan, RequiredRanges now r = Some L /\ PlanMaintenance now r observed = Some plan /\
    (forall x, x ∈ Create plan <-> x ∈ L /\ ~ extent_in x observed) /\
    (forall x, x ∈ Drop_ plan <->
       x ∈ observed /\ Name x <> PartitionDefault /\ To_ x <> zero_time /\ To_ x <= now - Keep r) /\
    CoverageShortfall (carried_out plan observed) now (Precreate r) = 0 /\
    PlanMaintenance now r (carried_out plan observed) = Some (MkPlan [] []).
Proof.
  intros Hg Hk. assert (Hki : int64_range (Keep r)) by (unfold_int; lia).
  assert (Hcut : wrap64 (- Keep r) = - Keep r) by (apply wrap64_id; unfold_int; lia).
  pose proof (RequiredRanges_grid now r Hg) as HL.
  set (L := map (λ k, rangeAt k (PartitionInterval r)) _) in HL. exists L.
  unfold PlanMaintenance. rewrite HL. cbn [mbind option_bind]. eexists. split; [done|]. split; [done|].
  cbn [Create Drop_].
  pose proof (carried_out_required now r L observed) as Hafter.
  set (plan := MkPlan _ _) in *. split_and!.
  - intros x. apply elem_of_missing.
  - intros x. rewrite elem_of_expired, whyUndroppable_droppable, Hcut. intuition lia.
  - apply shortfall_zero. intros t Ht. destruct (required_holds now r L t) as (x & Hx & Hh); [done..|lia|].
    destruct (Hafter x) as (y & Hy & Hf & Hto); try done; [lia|].
    exists y. split; [done|]. unfold holds in *. lia.
  - do 2 f_equal.
    + apply elem_of_nil_inv. intros x (Hx & Hn)%elem_of_missing. apply Hn. apply Hafter; try done. lia.
    + apply elem_of_nil_inv. intros x (Hx & Hd & Ho)%elem_of_expired. rewrite Hcut in Ho.
      unfold carried_out in Hx. cbn [Create Drop_ plan] in Hx.
      apply elem_of_app in Hx as [(HxL & _)%elem_of_missing|[Hnd Hxo]%list_elem_of_filter].
      * pose proof (required_after now r L x Hg HL HxL). lia.
      * apply Hnd. apply elem_of_expired. rewrite Hcut. done.
Qed.

Lemma grid_ranges_meet now1 r1 L1 now2 r2 L2 x y :
  on_grid now1 r1 -> on_grid now2 r2 -> PartitionInterval r1 = PartitionInterval r2 ->
  RequiredRanges now1 r1 = Some L1 -> RequiredRanges now2 r2 = Some L2 ->
  x ∈ L1 -> y ∈ L2 -> x = y \/ forall t, ~ (holds x t /\ holds y t).
Proof.
  intros Hg1 Hg2 Hi HL1 HL2
    (k & _ & -> & Hf & Ht & _)%(RequiredRanges_elem now1 r1) (j & _ & -> & Hf' & Ht' & _)%(RequiredRanges_elem now2 r2);
    try done.
  rewrite Hi in *. pose proof (interval_positive _ _ Hg2).
  destruct (decide (k = j)) as [->|Hne]; [by left|]. right. intros t [H1 H2]. unfold holds in *.
  rewrite Hf, Ht in H1. rewrite Hf', Ht' in H2. apply Hne. nia.
Qed.

(** Two boots agree: the ranges one interval demands at any two instants, under any two horizons,
    are the same range -- name included -- wherever they meet. So two replicas never ask the server
    for ranges that overlap without being equal. *)
Theorem RequiredRanges_agree now1 r1 L1 now2 r2 L2 x y :
  on_grid now1 r1 -> on_grid now2 r2 -> PartitionInterval r1 = PartitionInterval r2 ->
  RequiredRanges now1 r1 = Some L1 -> RequiredRanges now2 r2 = Some L2 ->
  x ∈ L1 -> y ∈ L2 -> x = y \/ forall t, ~ (holds x t /\ holds y t).
Proof. apply grid_ranges_meet. Qed.

(** ** Names of partitions *)

Lemma fixed_digits_length w z : length (fixed_digits w z) = w.
Proof. revert z. induction w as [|w IH]; intros z; [done|]. cbn [fixed_digits]. rewrite length_app, IH. simpl. lia. Qed.

Lemma fixed_digits_inj w y z :
  0 <= y < 10 ^ Z.of_nat w -> 0 <= z < 10 ^ Z.of_nat w -> fixed_digits w y = fixed_digits w z -> y = z.
Proof.
  revert y z. induction w as [|w IH]; intros y z Hy Hz; [simpl in *; lia|].
  cbn [fixed_digits]. rewrite Nat2Z.inj_succ, Z.pow_succ_r in Hy, Hz by lia.
  intros [H1 H2]%app_inj_2; [|done]. injection H2 as H2%(f_equal code).
  pose proof (Z.mod_pos_bound y 10 ltac:(lia)). pose proof (Z.mod_pos_bound z 10 ltac:(lia)).
  rewrite !code_byte_of in H2 by lia.
  apply IH in H1; [rewrite (Z.div_mod y 10), (Z.div_mod z 10) by lia; lia|..];
    (split; [apply Z.div_pos; lia|apply Z.div_lt_upper_bound; lia]).
Qed.

Lemma append_int_fixed z w : 0 <= z < 10 ^ Z.of_nat w -> append_int z w = fixed_digits w z.
Proof.
  intros Hz. unfold append_int. rewrite (proj2 (Z.ltb_ge z 0)) by lia. by rewrite (proj2 (Z.ltb_lt _ _)) by lia.
Qed.

Lemma min_quotient k d : 0 < k -> 0 <= d <= 4 * k -> 0 <= Z.min 3 (d / k) <= 3 /\ 0 <= d - k * Z.min 3 (d / k) <= k.
Proof.
  intros Hk Hd. pose proof (Z.mul_div_le d k Hk). pose proof (Z.mul_succ_div_gt d k Hk).
  pose proof (Z.div_pos d k (proj1 Hd) Hk).
  destruct (Z.min_spec 3 (d / k)) as [[? ->]|[? ->]]; nia.
Qed.

Lemma month_day doy : 0 <= doy <= 365 ->
  let m := (5 * doy + 2) / 153 in 0 <= m <= 11 /\ 1 <= doy - (153 * m + 2) / 5 + 1 <= 31.
Proof. intros H m. unfold m. Z.to_euclidean_division_equations; lia. Qed.

(** A date is its year of 400, 100, 4 and 1, and the day in a year that starts in March. *)
Lemma civil_of_day_parts d :
  exists n400 n100 n4 n1 doy m,
    d + 719468 = 146097 * n400 + 36524 * n100 + 1461 * n4 + 365 * n1 + doy /\
    0 <= n100 <= 3 /\ 0 <= n4 <= 24 /\ 0 <= n1 <= 3 /\ 0 <= doy <= 365 /\ 0 <= m <= 11 /\
    1 <= doy - (153 * m + 2) / 5 + 1 <= 31 /\
    civil_of_day d =
      Civil (400 * n400 + 100 * n100 + 4 * n4 + n1 + (if 10 <=? m then 1 else 0))
            (if 10 <=? m then m - 9 else m + 3) (doy - (153 * m + 2) / 5 + 1).
Proof.
  unfold civil_of_day. set (D := d + 719468).
  set (d1 := D mod 146097). set (n100 := Z.min 3 (d1 / 36524)). set (d2 := d1 - 36524 * n100).
  set (d3 := d2 - 1461 * (d2 / 1461)). set (n1 := Z.min 3 (d3 / 365)). set (doy := d3 - 365 * n1).
  exists (D / 146097), n100, (d2 / 1461), n1, doy, ((5 * doy + 2) / 153).
  assert (H1 : 0 <= d1 < 146097) by (apply Z.mod_pos_bound; lia).
  assert (H2 : 0 <= n100 <= 3 /\ 0 <= d2 <= 36524) by (apply (min_quotient 36524); lia).
  assert (H3 : 0 <= d2 / 1461 <= 24 /\ 0 <= d3 <= 1460).
  { unfold d3. clearbody d2. Z.to_euclidean_division_equations; lia. }
  assert (H4 : 0 <= n1 <= 3 /\ 0 <= doy <= 365) by (apply (min_quotient 365); lia).
  split; [unfold doy, d3, d2, d1; pose proof (Z.div_mod D 146097 ltac:(lia)); lia|].
  pose proof (month_day doy (proj2 H4)) as [H5 H6]. split_and!; lia || done.
Qed.

Lemma civil_of_day_inj d e : civil_of_day d = civil_of_day e -> d = e.
Proof.
  destruct (civil_of_day_parts d) as (a & b & c & n & y & m & Hd & H1 & H2 & H3 & H4 & H5 & _ & ->).
  destruct (civil_of_day_parts e) as (a' & b' & c' & n' & y' & m' & He & H1' & H2' & H3' & H4' & H5' & _ & ->).
  intros [= Hy Hm Hday].
  assert (m = m') as <- by (destruct (Z.leb_spec 10 m), (Z.leb_spec 10 m'); lia).
  destruct (Z.leb_spec 10 m); lia.
Qed.

Lemma clock_of_range t :
  0 <= hour (clock_of t) < 24 /\ 0 <= minute (clock_of t) < 60 /\ 0 <= second (clock_of t) < 60 /\
  0 <= nanosecond (clock_of t) < 10 ^ 9.
Proof.
  unfold clock_of. cbn [hour minute second nanosecond].
  pose proof (Z.mod_pos_bound t ns_per_day ltac:(done)) as H.
  set (u := t mod ns_per_day) in *. clearbody u. change ns_per_day with 86400000000000 in H.
  change (10 ^ 9) with 1000000000.
  assert (Hs : 0 <= u / 1000000000 < 86400) by (split; [apply Z.div_pos|apply Z.div_lt_upper_bound]; lia).
  split; [split; [apply Z.div_pos|apply Z.div_lt_upper_bound]; lia|].
  split_and!; apply Z.mod_pos_bound; lia.
Qed.

Lemma instant_parts_inj t u : civil_of t = civil_of u -> clock_of t = clock_of u -> t = u.
Proof.
  unfold civil_of, clock_of. intros Hd%civil_of_day_inj [= Hh Hm Hs Hn].
  rewrite (Z.div_mod t ns_per_day), (Z.div_mod u ns_per_day), Hd by done. f_equal.
  pose proof (Z.mod_pos_bound t ns_per_day ltac:(done)). pose proof (Z.mod_pos_bound u ns_per_day ltac:(done)).
  generalize dependent (t mod ns_per_day). generalize dependent (u mod ns_per_day). clear t u Hd.
  intros u Hu t. change (10 ^ 9) with 1000000000. intros.
  assert (u / 1000000000 = t / 1000000000); Z.to_euclidean_division_equations; lia.
Qed.

Lemma civil_of_range t : int64_range t ->
  0 <= year (civil_of t) < 10 ^ 4 /\ 0 <= month (civil_of t) < 10 ^ 2 /\ 0 <= day (civil_of t) < 10 ^ 2.
Proof.
  unfold_int. intros Ht. unfold civil_of, ns_per_day.
  assert (Hd : - 106752 <= t / (86400 * 10 ^ 9) <= 106751) 
    by (split; [apply Z.div_le_lower_bound|apply Z.lt_succ_r, Z.div_lt_upper_bound]; lia).
  destruct (civil_of_day_parts (t / (86400 * 10 ^ 9))) as (a & b & c & n & y & m & He & H1 & H2 & H3 & H4 & H5 & H6 & ->).
  cbn [year month day]. change (10 ^ 4) with 10000. change (10 ^ 2) with 100.
  destruct (Z.leb_spec 10 m); lia.
Qed.

(** A stamp at fixed width. *)
Lemma boundStamp_fixed t : int64_range t ->
  boundStamp t =
    let date := civil_of t in let c := clock_of t in
    fixed_digits 4 (year date) ++ fixed_digits 2 (month date) ++ fixed_digits 2 (day date) ++ bs "T" ++
    fixed_digits 2 (hour c) ++ fixed_digits 2 (minute c) ++ fixed_digits 2 (second c) ++ bs "." ++
    fixed_digits 9 (nanosecond c) ++ bs "Z".
Proof.
  intros (Hy & Hm & Hd)%civil_of_range. destruct (clock_of_range t) as (Hh & Hmi & Hs & Hn).
  unfold boundStamp. rewrite !append_int_fixed; [done|..]; simpl Z.of_nat; lia.
Qed.

Lemma boundStamp_length t : int64_range t -> length (boundStamp t) = 26%nat.
Proof. intros Ht. rewrite boundStamp_fixed by done. cbv zeta. by rewrite !length_app, !fixed_digits_length. Qed.

(** Peel equal-length pieces off an equation between two concatenations. *)
Ltac peel_pieces H :=
  repeat (apply app_inj_1 in H; [|by rewrite ?fixed_digits_length];
          let H1 := fresh "Hpiece" in destruct H as [H1 H]).

Lemma boundStamp_inj t u : int64_range t -> int64_range u -> boundStamp t = boundStamp u -> t = u.
Proof.
  intros Ht Hu H. rewrite !boundStamp_fixed in H by done. cbv zeta in H.
  pose proof (civil_of_range t Ht) as (? & ? & ?). pose proof (civil_of_range u Hu) as (? & ? & ?).
  pose proof (clock_of_range t) as (? & ? & ? & ?). pose proof (clock_of_range u) as (? & ? & ? & ?).
  peel_pieces H.
  repeat match goal with Hp : fixed_digits _ _ = fixed_digits _ _ |- _ => apply fixed_digits_inj in Hp; [|simpl Z.of_nat; lia..] end.
  apply instant_parts_inj.
  - destruct (civil_of t), (civil_of u). simpl in *. congruence.
  - destruct (clock_of t), (clock_of u). simpl in *. congruence.
Qed.

Lemma rangeName_full from to : int64_range from -> int64_range to ->
  rangeName from to = TableEvents ++ bs "_" ++ boundStamp from ++ bs "_" ++ boundStamp to.
Proof.
  intros Hf Ht. unfold rangeName. apply ObjectName_full.
  rewrite !length_app, !boundStamp_length by done. by apply Nat.leb_le.
Qed.

Lemma fixed_digits_bytes w z c : c ∈ fixed_digits w z -> is_digit c = true.
Proof.
  revert z. induction w as [|w IH]; intros z; cbn [fixed_digits]; [by intros []%elem_of_nil|].
  rewrite elem_of_app, list_elem_of_singleton. intros [H| ->]; [by apply IH in H|].
  pose proof (Z.mod_pos_bound z 10 ltac:(lia)). unfold is_digit. rewrite code_byte_of by lia.
  apply andb_true_intro. split; apply Z.leb_le; lia.
Qed.

(** A byte that is no digit and none of the given ones is in none of the pieces. *)
Ltac by_bytes H :=
  first [apply fixed_digits_bytes in H; discriminate H
        |match type of H with ?P =>
           let Hn := fresh in
           assert (Hn : bool_decide P = false) by (vm_compute; reflexivity);
           apply bool_decide_eq_false in Hn; contradiction
         end].

Lemma boundStamp_no_byte c t : int64_range t -> c = NUL \/ c = "'"%char -> c ∉ boundStamp t.
Proof.
  intros Ht Hc HN. rewrite boundStamp_fixed in HN by done. cbv zeta in HN.
  rewrite !elem_of_app in HN. destruct Hc; subst c; repeat (destruct HN as [HN|HN]; [by_bytes HN|]); by_bytes HN.
Qed.

Lemma rangeName_length from to : int64_range from -> int64_range to -> length (rangeName from to) = 60%nat.
Proof. intros Hf Ht. rewrite rangeName_full, !length_app, !boundStamp_length by done. done. Qed.

Lemma rangeName_usable from to : int64_range from -> int64_range to -> WhyUnusable (rangeName from to) = IdentifierOK.
Proof.
  intros Hf Ht. pose proof (rangeName_length from to Hf Ht) as Hl. unfold WhyUnusable.
  rewrite bool_decide_eq_false_2 by (intros H; by rewrite H in Hl).
  unfold contains_byte. rewrite bool_decide_eq_false_2; [by rewrite Hl|]. rewrite rangeName_full by done.
  rewrite !elem_of_app. intros [HN|[HN|[HN|[HN|HN]]]]; [by_bytes HN|by_bytes HN| |by_bytes HN|].
  - exact (boundStamp_no_byte NUL from Hf (or_introl eq_refl) HN).
  - exact (boundStamp_no_byte NUL to Ht (or_introl eq_refl) HN).
Qed.

Lemma rangeName_inj from to from' to' :
  int64_range from -> int64_range to -> int64_range from' -> int64_range to' ->
  rangeName from to = rangeName from' to' -> from = from' /\ to = to'.
Proof.
  intros Hf Ht Hf' Ht' H. rewrite !rangeName_full in H by done. do 2 (apply app_inv_head in H).
  apply app_inj_1 in H as [H1 H]; [|by rewrite !boundStamp_length].
  apply app_inv_head in H. split; by apply boundStamp_inj.
Qed.

(** Over the whole [int64] range of bounds, an extent and its partition's name determine each
    other: the name is never truncated or hashed, it is a usable identifier, it is never the DEFAULT
    partition's, and two ranges that differ in either bound -- even by a nanosecond, even when they
    start together under two intervals -- have different names. *)
Theorem rangeName_identifies from to from' to' :
  int64_range from -> int64_range to -> int64_range from' -> int64_range to' ->
  length (rangeName from to) = 60%nat /\ WhyUnusable (rangeName from to) = IdentifierOK /\
  rangeName from to <> PartitionDefault /\
  (rangeName from to = rangeName from' to' -> from = from' /\ to = to').
Proof.
  intros Hf Ht Hf' Ht'. split_and!; [by apply rangeName_length|by apply rangeName_usable| |by apply rangeName_inj].
  intros H%(f_equal length). by rewrite rangeName_length in H.
Qed.

(** Bounds of required ranges stay in range, and are whole microseconds where the interval is. *)
Lemma required_bounds now r L x :
  on_grid now r -> RequiredRanges now r = Some L -> x ∈ L ->
  int64_range (From_ x) /\ int64_range (To_ x) /\ From_ x < To_ x /\
  (PartitionInterval r mod storedInstantGranularity = 0 ->
     From_ x mod storedInstantGranularity = 0 /\ To_ x mod storedInstantGranularity = 0).
Proof.
  intros Hg HL (k & Hk & -> & -> & -> & _)%(RequiredRanges_elem now r); [|done..].
  destruct Hg as [Hi Hp Hb He]. unfold_int. split_and!; [..|intros Hm; split];
    try (rewrite Z.mul_mod, Hm, Z.mul_0_r by done; done); Z.to_euclidean_division_equations; nia.
Qed.

Lemma required_names now r L x y :
  on_grid now r -> RequiredRanges now r = Some L -> x ∈ L -> y ∈ L -> Name x = Name y -> x = y.
Proof.
  intros Hg HL Hx Hy Hn.
  destruct (required_bounds now r L x Hg HL Hx) as (H1 & H2 & _), (required_bounds now r L y Hg HL Hy) as (H3 & H4 & _).
  apply (RequiredRanges_elem now r L) in Hx as (k & _ & -> & _ & _ & Hnx), Hy as (j & _ & -> & _ & _ & Hny); [|done..].
  rewrite Hnx, Hny in Hn. apply rangeName_inj in Hn as [Hf Ht]; [|done..].
  destruct (rangeAt k _) eqn:E1, (rangeAt j _) eqn:E2. cbn in *. congruence.
Qed.

Lemma required_NoDup now r L : on_grid now r -> RequiredRanges now r = Some L -> NoDup L.
Proof.
  intros Hg HL. pose proof (λ x, RequiredRanges_elem now r L x Hg HL) as He.
  rewrite RequiredRanges_grid in HL by done. injection HL as <-.
  apply NoDup_fmap_2_strong; [|apply NoDup_seqZ]. intros j k Hj Hk Heq.
  assert (Hbound : forall m, m ∈ seqZ (now / PartitionInterval r) ((now + Precreate r) / PartitionInterval r - now / PartitionInterval r + 1) ->
    From_ (rangeAt m (PartitionInterval r)) = m * PartitionInterval r).
  { intros m Hm%elem_of_seqZ. destruct Hg as [Hi Hp Hb Hu].
    apply rangeAt_bounds; [done|..]; unfold_int; Z.to_euclidean_division_equations; nia. }
  apply (f_equal From_) in Heq. rewrite !Hbound in Heq by done. pose proof (interval_positive _ _ Hg). nia.
Qed.

(** ** Witnesses *)

Definition one_hour : Z := 3600 * 10 ^ 9.
Definition hourly : Retention := MkRetention (24 * one_hour) one_hour (2 * one_hour).

Lemma hourly_on_grid t : 0 <= t <= 2 ^ 62 -> on_grid t hourly.
Proof. intros Ht. split; unfold hourly, one_hour; cbn [PartitionInterval Precreate]; unfold_int; lia. Qed.

Lemma RequiredRanges_cover_witness :
  on_grid (one_hour + 1) hourly /\
  exists L count, RequiredRanges (one_hour + 1) hourly = Some L /\ length L = 3%nat /\ count = 3 /\
    count - 1 <= Z.of_nat (length L) <= count.
Proof.
  split; [apply hourly_on_grid; vm_compute; split; discriminate|].
  destruct (RequiredRanges_cover (one_hour + 1) hourly) as (L & count & HL & Hc & _ & _ & Hb);
    [apply hourly_on_grid; vm_compute; split; discriminate|].
  exists L, count. split; [exact HL|]. vm_compute in HL. injection HL as <-. vm_compute in Hc. injection Hc as <-.
  split; [reflexivity|]. split; [reflexivity|exact Hb].
Defined.

Lemma RequiredRanges_agree_witness :
  exists L1 L2 x, RequiredRanges 5 hourly = Some L1 /\
    RequiredRanges (one_hour + 5) (MkRetention 0 one_hour 0) = Some L2 /\ x ∈ L1 /\ x ∈ L2 /\
    (x = x \/ forall t, ~ (holds x t /\ holds x t)).
Proof.
  assert (H1 : on_grid 5 hourly) by (apply hourly_on_grid; vm_compute; split; discriminate).
  assert (H2 : on_grid (one_hour + 5) (MkRetention 0 one_hour 0)) by (split; vm_compute; try split; try reflexivity; discriminate).
  destruct (RequiredRanges 5 hourly) as [L1|] eqn:E1; [|vm_compute in E1; discriminate E1].
  destruct (RequiredRanges (one_hour + 5) (MkRetention 0 one_hour 0)) as [L2|] eqn:E2; [|vm_compute in E2; discriminate E2].
  assert (Hx1 : rangeAt 1 one_hour ∈ L1) by (vm_compute in E1; injection E1 as <-; vm_compute; right; left).
  assert (Hx2 : rangeAt 1 one_hour ∈ L2) by (vm_compute in E2; injection E2 as <-; vm_compute; left).
  exists L1, L2, (rangeAt 1 one_hour). split; [reflexivity|]. split; [reflexivity|]. split; [exact Hx1|]. split; [exact Hx2|].
  exact (RequiredRanges_agree 5 hourly L1 (one_hour + 5) (MkRetention 0 one_hour 0) L2 _ _ H1 H2 eq_refl E1 E2 Hx1 Hx2).
Defined.

(** A hole at the second one_hour: short by the one_hour behind it and the one past the end. *)
Definition holed : list Range := [MkRange (2 * one_hour) (3 * one_hour) []; MkRange 0 one_hour []].

Lemma CoverageShortfall_exact_witness :
  CoverageShortfall holed 7 (3 * one_hour) = 2 * one_hour + 7 /\ ~ covered_by holed (7 + 3 * one_hour - (2 * one_hour + 7)).
Proof.
  split; [vm_compute; reflexivity|].
  destruct (CoverageShortfall_exact holed 7 (3 * one_hour)) as (_ & _ & Hhole & _); [vm_compute; split; discriminate|].
  apply Hhole. vm_compute. discriminate.
Defined.

Lemma PlanMaintenance_converges_witness :
  exists L plan, RequiredRanges (30 * one_hour) hourly = Some L /\
    PlanMaintenance (30 * one_hour) hourly holed = Some plan /\ length (Create plan) = 3%nat /\ Drop_ plan = holed /\
    PlanMaintenance (30 * one_hour) hourly (carried_out plan holed) = Some (MkPlan [] []).
Proof.
  destruct (PlanMaintenance_converges (30 * one_hour) hourly holed) as (L & plan & HL & HP & _ & _ & _ & Hagain);
    [apply hourly_on_grid; vm_compute; split; discriminate|vm_compute; split; discriminate|].
  exists L, plan. split; [exact HL|]. split; [exact HP|].
  split; [vm_compute in HP; injection HP as <-; reflexivity|].
  split; [vm_compute in HP; injection HP as <-; reflexivity|exact Hagain].
Defined.

Lemma rangeName_identifies_witness :
  length (rangeName (0 * one_hour) (1 * one_hour)) = 60%nat /\
  rangeName (0 * one_hour) (1 * one_hour) <> rangeName (0 * one_hour) (24 * one_hour).
Proof.
  assert (H : forall k, 0 <= k <= 24 -> int64_range (k * one_hour)) by (unfold int64_range, min_int64, max_int64, one_hour; lia).
  destruct (rangeName_identifies (0 * one_hour) (1 * one_hour) (0 * one_hour) (24 * one_hour)) as (Hl & _ & _ & Hi);
    [apply H; lia..|].
  split; [exact Hl|]. intros Heq. destruct (Hi Heq) as [_ Hh]. discriminate Hh.
Defined.
