(* ===== verification/Catalog.v ===== *)
(** * The catalog of partitions and the bounded transaction

    [internal/schema]'s errors (errors.go, errorelision.go, ddlrefusal.go), its one lock-bounded
    execution path (ddl.go) and its observation of the catalog (catalog.go, cataloginventory.go),
    over a database that is the catalog of the configured schema beside the tables of [Queue]. A
    statement is the function on that database it denotes; what the server and the other replicas
    decide is the transaction's [tx_session]. *)

From S2P Require Import Prelude Utf8 Quote Queue Partition.
From stdpp Require Import sorting.
From Stdlib Require Import DecimalString DecimalZ.

Local Open Scope Z_scope.

(** ** Rendering a duration *)

(** [prec] digits of fraction without trailing zeros. *)
Definition fmtFrac (prec : nat) (v : Z) : gostring :=
  match trim_zeros (fixed_digits prec v) with [] => [] | digits => bs "." ++ digits end.

(** [time.Duration.String] *)
Definition Duration_String (d : Z) : gostring :=
  let u := Z.abs d in
  let sign := if d <? 0 then bs "-" else [] in
  if u =? 0 then bs "0s"
  else if u <? 1000 then sign ++ format_int u ++ bs "ns"
  else if u <? 10 ^ 6 then sign ++ format_int (u / 1000) ++ fmtFrac 3 (u mod 1000) ++ [byte_of 194; byte_of 181] ++ bs "s"
  else if u <? 10 ^ 9 then sign ++ format_int (u / 10 ^ 6) ++ fmtFrac 6 (u mod 10 ^ 6) ++ bs "ms"
  else
    let s := u / 10 ^ 9 in
    sign ++ (if 3600 <=? s then format_int (s / 3600) ++ bs "h" else []) ++
    (if 60 <=? s then format_int (s / 60 mod 60) ++ bs "m" else []) ++
    format_int (s mod 60) ++ fmtFrac 9 (u mod 10 ^ 9) ++ bs "s".

(** ** Errors (errors.go, errorelision.go) *)

Inductive sentinel :=
  | ErrSchemaAhead | ErrCoverageShort | ErrDefaultBlocked | ErrLockTimeout | ErrForeignInstance
  | ErrPrivilege | ErrUnservableHorizon | ErrLedgerAbsent.

#[global] Instance sentinel_eq_dec : EqDecision sentinel.
Proof. solve_decision. Defined.

Definition packageSentinels : list sentinel :=
  [ErrSchemaAhead; ErrCoverageShort; ErrDefaultBlocked; ErrLockTimeout; ErrForeignInstance;
   ErrPrivilege; ErrUnservableHorizon; ErrLedgerAbsent].

Definition sentinel_text (e : sentinel) : gostring :=
  match e with
  | ErrSchemaAhead => bs "the database records a schema version this binary does not know"
  | ErrCoverageShort => bs "the partitions in place do not reach the required horizon"
  | ErrDefaultBlocked => bs "the DEFAULT partition already holds rows in this range"
  | ErrLockTimeout => bs "the statement gave up waiting for its lock"
  | ErrForeignInstance => bs "the schema is marked as owned by another pg_noty instance"
  | ErrPrivilege => bs "the connected role is missing a privilege this package requires"
  | ErrUnservableHorizon => bs "the configured pre-creation horizon cannot be served by any database"
  | ErrLedgerAbsent => bs "the configured schema has no migration ledger"
  end.

(** An error of this package: its text, and the sentinels [errors.Is] finds through it. *)
Record failure := Failure { text : gostring; wraps : list sentinel }.

(** An error of the driver: its text, and the SQLSTATE and message where the server raised it. *)
Record raw_error := RawError { raw_text : gostring; condition : option (gostring * gostring) }.

Inductive tx_error := Raw (e : raw_error) | Own (f : failure).

Definition error_text (e : tx_error) : gostring :=
  match e with Raw e => raw_text e | Own f => text f end.

Definition error_is (e : tx_error) (s : sentinel) : bool :=
  match e with Raw _ => false | Own f => bool_decide (s ∈ wraps f) end.

Definition sentinelMatching (e : tx_error) : option sentinel :=
  head (filter (λ s, error_is e s = true) packageSentinels).

(** [finished(err)] with no secret given. *)
Definition finished (e : tx_error) : failure :=
  Failure (error_text e) (option_list (sentinelMatching e)).

(** [fmt.Errorf("...%w", ...)] *)
Definition wrapf (before : gostring) (f : failure) : failure := Failure (before ++ text f) (wraps f).
Definition sentinelf (s : sentinel) (rest : gostring) : failure :=
  Failure (sentinel_text s ++ bs ": " ++ rest) [s].

Definition schemaAhead (recorded highest : Z) : failure :=
  sentinelf ErrSchemaAhead
    (bs "the database records version " ++ format_int recorded ++ bs " and this binary embeds up to " ++ format_int highest).
Definition coverageShort (shortfall horizon : Z) : failure :=
  sentinelf ErrCoverageShort
    (bs "coverage is short by " ++ Duration_String shortfall ++ bs " of the required " ++ Duration_String horizon).
Definition defaultBlocked (rangeName : gostring) : failure :=
  sentinelf ErrDefaultBlocked (bs "partition " ++ rangeName ++ bs " cannot be created until those rows are moved").
Definition foreignInstance (marked expected : gostring) : failure :=
  sentinelf ErrForeignInstance
    (bs "the marker names instance " ++ marked ++ bs " and this instance is " ++ expected).
Definition lockTimedOut (operation : gostring) (timeout : Z) : failure :=
  sentinelf ErrLockTimeout (operation ++ bs " gave up after " ++ Duration_String timeout).
Definition horizon_failure (refusal : horizon_refusal) : failure :=
  sentinelf ErrUnservableHorizon
    match refusal with
    | unservableHorizon count interval precreate =>
        bs "a " ++ Duration_String interval ++ bs " partition interval over a " ++ Duration_String precreate ++
        bs " horizon asks for " ++ format_int count ++ bs " partitions, and a database holds at most " ++
        format_int relationIdentifiersOneDatabaseHolds ++
        bs " relations -- of which this schema's event log and its DEFAULT partition are already two"
    | unstorableInterval interval =>
        bs "a " ++ Duration_String interval ++ bs " partition interval is not a whole multiple of the " ++
        Duration_String storedInstantGranularity ++
        bs " a timestamptz stores, so the bounds it puts on the grid are rounded when written and the catalog reports back an extent this package never asked for"
    | negativeInterval interval =>
        bs "a " ++ Duration_String interval ++
        bs " partition interval steps the grid backwards, so the k-range a horizon asks for runs from a later boundary to an earlier one and holds no partition at all; a partition interval has to be a positive duration"
    end.

(** ** What a server refusal means (ddlrefusal.go) *)

Definition lockNotAvailable : gostring := bs "55P03".
Definition checkViolation : gostring := bs "23514".
Definition defaultPartitionRefusal : gostring := bs "updated partition constraint for default partition".

Record ddlSubject := DdlSubject { operation : gostring; partition : gostring }.

Definition serverRefusalIn (e : tx_error) : option (gostring * gostring) :=
  match e with Raw e => condition e | Own _ => None end.

Definition classified (e : tx_error) (about : ddlSubject) (bound : Z) : tx_error :=
  match serverRefusalIn e with
  | None => e
  | Some (code, message) =>
      if bool_decide (code = lockNotAvailable) then Own (lockTimedOut (operation about) bound)
      else if bool_decide (code = checkViolation) && contains_sub message defaultPartitionRefusal
           then Own (defaultBlocked (partition about))
           else e
  end.

(** ** The database *)

Inductive bound := DefaultBound | RangeBound (from to : Z).

#[global] Instance bound_eq_dec : EqDecision bound.
Proof. solve_decision. Defined.

(** A table of the configured schema: its bound where it is a partition of the event log, its comment. *)
Record relation := Relation { attached : option bound; comment : option gostring }.

(** [elsewhere] is the event log's partitions in other schemas: name, schema and bound. *)
Record database := Database {
  relations : gmap gostring relation;
  elsewhere : list (gostring * gostring * bound);
  data : tables
}.

Definition with_relations (db : database) (r : gmap gostring relation) : database :=
  Database r (elsewhere db) (data db).
Definition with_data (db : database) (d : tables) : database :=
  Database (relations db) (elsewhere db) d.

Definition bounds (db : database) : list bound :=
  omap (λ p, attached (snd p)) (map_to_list (relations db)) ++ map snd (elsewhere db).

Definition bound_covers (b : bound) (t : Z) : bool :=
  match b with RangeBound f u => (f <=? t) && (t <? u) | DefaultBound => false end.

(** The rows a partition holds: those its range covers, or those no range does. *)
Definition routed (db : database) (b : bound) (t : Z) : bool :=
  match b with
  | RangeBound _ _ => bound_covers b t
  | DefaultBound => negb (existsb (λ b, bound_covers b t) (bounds db))
  end.

Definition overlaps (from to : Z) (b : bound) : bool :=
  match b with RangeBound f u => (f <? to) && (from <? u) | DefaultBound => false end.

(** The round trips of a maintenance transaction, and of a drain's two relocations. *)
Inductive call :=
  | CBegin | CBound | CNow | CObserve | CCountDefault | CCreate | CRenderComment | CComment | CLock
  | CMarker | CAttached | CReap | CDetach | CDrop | CCommit
  | CLift (queued : bool) | CRemove (queued : bool) | CRestore (queued : bool) | CDiscard (queued : bool).

(** One transaction's view: what other replicas committed since the one before, [now()], which call
    fails and with what, which partitions are dropped while the catalog is read, and whether a
    commit whose answer was lost took effect. *)
Record tx_session := TxSession {
  others : database -> database;
  server_now : Z;
  call_fails : call -> option raw_error;
  vanishing : gset gostring;
  lost_commit : bool
}.

Definition round_trip (s : tx_session) (c : call) : result tx_error unit :=
  match call_fails s c with Some e => Err (Raw e) | None => Ok tt end.

(** [boundedTx]: begin, [SET LOCAL lock_timeout], the work, the commit; a refusal is classified first
    and finished second, and nothing of a refused transaction stays. *)
Definition boundedTx {A} (s : tx_session) (lock_timeout : Z) (about : ddlSubject)
    (work : database -> result tx_error (A * database)) (db : database) : result failure A * database :=
  let db := others s db in
  let refuse e := Err (finished (classified e about lock_timeout)) in
  match (let! _ := round_trip s CBegin in let! _ := round_trip s CBound in work db)%res with
  | Err e => (refuse e, db)
  | Ok (a, db') =>
      match call_fails s CCommit with
      | Some e => (refuse (Raw e), if lost_commit s then db' else db)
      | None => (Ok a, db')
      end
  end.

Definition millisecondsOfBound (bound : Z) : Z :=
  let milliseconds := bound `quot` 1000000 in if 0 <? milliseconds then milliseconds else 1.
Definition lockTimeoutStatement (bound : Z) : gostring :=
  bs "SET LOCAL lock_timeout = " ++ format_int (millisecondsOfBound bound).

(** ** What the server does with a statement *)

(** The renderings and refusals of PostgreSQL, and the driver's reading of an instant. *)
Record server := Server {
  time_Parse : gostring -> gostring -> option Z;   (* time.Parse(layout, value) *)
  render_instant : Z -> gostring;                  (* a timestamptz in pg_get_expr *)
  stored : Z -> Z;                                 (* a bound literal, as kept *)
  bind_instant : Z -> Z;                           (* a timestamptz parameter, as sent *)
  relation_exists : gostring -> raw_error;
  empty_range : gostring -> raw_error;
  would_overlap : gostring -> raw_error;
  default_violated : raw_error;
  detach_violates : gostring -> raw_error;
  undefined_table : gostring -> raw_error;
  constraint_violated : gostring -> raw_error      (* a foreign or primary key, by its table *)
}.

Section statements.
Context (pg : server).

(** [CREATE TABLE name PARTITION OF events FOR VALUES FROM (from) TO (to)] *)
Definition create_partition (name : gostring) (from to : Z) (db : database) : result tx_error database :=
  let f := stored pg from in let u := stored pg to in
  if bool_decide (is_Some (relations db !! name)) then Err (Raw (relation_exists pg name))
  else if negb (f <? u) then Err (Raw (empty_range pg name))
  else if existsb (overlaps f u) (bounds db) then Err (Raw (would_overlap pg name))
  else if existsb (λ p, bound_covers (RangeBound f u) (snd (fst p))) (map_to_list (events (data db)))
       then Err (Raw (default_violated pg))
  else Ok (with_relations db (<[name := Relation (Some (RangeBound f u)) None]> (relations db))).

(** [COMMENT ON TABLE name IS 'text'] *)
Definition comment_on (name text : gostring) (db : database) : result tx_error database :=
  match relations db !! name with
  | None => Err (Raw (undefined_table pg name))
  | Some r => Ok (with_relations db (<[name := Relation (attached r) (Some text)]> (relations db)))
  end.

(** [DELETE FROM event_queue WHERE status = 'dead' AND occurred_at >= from AND occurred_at < to] *)
Definition reapable (from to : Z) (r : queue_row) : bool :=
  bool_decide (status r = dead) && (bind_instant pg from <=? occurred_at r) && (occurred_at r <? bind_instant pg to).
Definition reap (from to : Z) (db : database) : Z * database :=
  (Z.of_nat (size (filter (λ p, reapable from to (snd p) = true) (event_queue (data db)))),
   with_data db (with_queue (data db) (filter (λ p, reapable from to (snd p) = false) (event_queue (data db))))).

(** [ALTER TABLE events DETACH PARTITION name]: refused while a queue row still points into the
    partition. The rows of the partition leave the event log with it. *)
Definition detach (name : gostring) (db : database) : result tx_error database :=
  match relations db !! name with
  | None => Err (Raw (undefined_table pg name))
  | Some r =>
      match attached r with
      | None => Err (Raw (undefined_table pg name))
      | Some b =>
          if existsb (λ p, routed db b (occurred_at (snd p))) (map_to_list (event_queue (data db)))
          then Err (Raw (detach_violates pg name))
          else Ok (Database (<[name := Relation None (comment r)]> (relations db)) (elsewhere db)
                     (Tables (filter (λ p, routed db b (snd (fst p)) = false) (events (data db)))
                             (event_queue (data db)) (deliveries (data db)) (identity (data db))))
      end
  end.

(** [DROP TABLE IF EXISTS name] *)
Definition drop_table (name : gostring) (db : database) : database :=
  with_relations db (delete name (relations db)).

End statements.

(** ** Observation (catalog.go, cataloginventory.go) *)

Inductive boundReading := boundRendered | boundPartitionVanished | boundUndeclared.
Record observedBound := ObservedBound { reading : boundReading; written : gostring }.
Record observedPartitions := ObservedPartitions { Bounded : list Range; Default : gostring }.

Definition boundReadFrom (declaresABound : bool) (rendered : option gostring) : observedBound :=
  match rendered with
  | Some text => ObservedBound boundRendered text
  | None => if declaresABound then ObservedBound boundPartitionVanished [] else ObservedBound boundUndeclared []
  end.

Definition plain (text : gostring) : failure := Failure text [].

Definition fault_words (fault : boundFault) : gostring :=
  match fault with
  | boundOK => bs "ok"
  | boundNotASingleColumnRange =>
      bs "is not a single-column range bound of the form FOR VALUES FROM (...) TO (...)"
  | boundHasNoFiniteEnd => bs "names MINVALUE or MAXVALUE, and a Range has no way to carry an unbounded end"
  | boundInstantUnreadable =>
      bs "does not write both ends as an ISO timestamp carrying a zone, which is what a DateStyle other than ISO renders"
  end.

Definition unreadableBound (name written : gostring) (fault : boundFault) : failure :=
  plain (bs "the bound of partition " ++ name ++ bs " " ++ fault_words fault ++ bs " (" ++ written ++
         bs "); reporting the other partitions without it would leave retention deciding against an incomplete world").
Definition undeclaredBound (name : gostring) : failure :=
  plain (bs "the child " ++ name ++ bs " of this parent declares no partition bound of its own, so this parent is not partitioned and its children are not partitions; deciding against it would be deciding against a table this package did not build").

(** One row of [observePartitionsQuery]. *)
Record catalog_row := CatalogRow {
  child : gostring; within : gostring; declaresABound : bool; rendered : option gostring
}.

Definition name_le (a b : catalog_row) : Prop :=
  String.leb (String.string_of_list_ascii (child a)) (String.string_of_list_ascii (child b)) = true.
#[global] Instance name_le_dec : RelDecision name_le.
Proof. intros a b. unfold name_le. apply _. Defined.

(** What the configuration supplies. *)
Record config := Config { Schema : gostring; Instance_name : gostring; retention : Retention }.

Section observation.
Context (pg : server) (Sanitize : list gostring -> gostring).

(** [pg_get_expr(relpartbound, oid)] *)
Definition render_bound (b : bound) : gostring :=
  match b with
  | DefaultBound => defaultBoundExpression
  | RangeBound from to =>
      rangeBoundOpening ++ render_instant pg from ++ rangeBoundMiddle ++ render_instant pg to ++ rangeBoundClosing
  end.

(** The rows of the query, ordered by name. A partition another replica drops while it runs declares
    a bound and renders none. *)
Definition observed_rows (s : tx_session) (schema : gostring) (db : database) : list catalog_row :=
  let row n w b := CatalogRow n w true (if bool_decide (n ∈ vanishing s) then None else Some (render_bound b)) in
  merge_sort name_le
    (omap (λ p, row (fst p) schema <$> attached (snd p)) (map_to_list (relations db)) ++
     map (λ p, row (fst (fst p)) (snd (fst p)) (snd p)) (elsewhere db)).

Definition addRendered (found : observedPartitions) (name written : gostring) : result tx_error observedPartitions :=
  if isDefaultBound written then Ok (ObservedPartitions (Bounded found) name)
  else match rangeFrom (time_Parse pg) written name with
       | Err fault => Err (Own (finished (Own (unreadableBound name written fault))))
       | Ok extent => Ok (ObservedPartitions (Bounded found ++ [extent]) (Default found))
       end.

Definition add (found : observedPartitions) (schema name within : gostring) (b : observedBound) :
    result tx_error observedPartitions :=
  if negb (bool_decide (within = schema)) then
    Err (Own (finished (Own (plain (bs "partition " ++ name ++ bs " of this parent lives in schema " ++ within ++
      bs " and not in the configured " ++ schema ++ bs "; this package may neither drop it nor decide without it")))))
  else match reading b with
       | boundRendered => addRendered found name (written b)
       | boundPartitionVanished => Ok found
       | boundUndeclared => Err (Own (finished (Own (undeclaredBound name))))
       end.

Fixpoint add_rows (found : observedPartitions) (schema : gostring) (rows : list catalog_row) :
    result tx_error observedPartitions :=
  match rows with
  | [] => Ok found
  | row :: rest =>
      (let! found := add found schema (child row) (within row) (boundReadFrom (declaresABound row) (rendered row)) in
       add_rows found schema rest)%res
  end.

(** A round trip whose error the code finishes where it meets it. *)
Definition finished_trip (s : tx_session) (c : call) : result tx_error unit :=
  match round_trip s c with Err e => Err (Own (finished e)) | Ok u => Ok u end.

Definition observePartitions (s : tx_session) (schema : gostring) (db : database) : result tx_error observedPartitions :=
  (let! _ := finished_trip s CObserve in
   add_rows (ObservedPartitions [] []) schema (observed_rows s schema db))%res.

Definition dbNow (s : tx_session) : result tx_error Z :=
  (let! _ := finished_trip s CNow in Ok (server_now s))%res.

(** [SELECT count(star) FROM schema.partition]: the rows of the DEFAULT partition. *)
Definition defaultPartitionRows (s : tx_session) (schema partition : gostring) (db : database) : result tx_error Z :=
  match Qualified Sanitize schema partition with
  | Err fault =>
      Err (Own (finished (Own (plain (bs "the DEFAULT partition of schema " ++ schema ++
        bs " cannot be counted: the name " ++ partition ++ bs " given for it " ++ fault_text fault)))))
  | Ok _ =>
      (let! _ := finished_trip s CCountDefault in
       match relations db !! partition with
       | None => Err (Own (finished (Raw (undefined_table pg partition))))
       | Some r =>
           Ok match attached r with
              | Some b => Z.of_nat (size (filter (λ p, routed db b (snd (fst p)) = true) (events (data db))))
              | None => 0
              end
       end)%res
  end.

Definition isPartitionOf (s : tx_session) (partition : gostring) (db : database) : result tx_error bool :=
  (let! _ := finished_trip s CAttached in
   Ok match relations db !! partition with
      | Some r => bool_decide (is_Some (attached r))
      | None => false
      end)%res.

(** ** Ownership of a partition (ownershipmarker.go, ownershipclaim.go) *)

Record markedObject := MarkedObject { form : markerForm; instance : gostring; target : gostring; relname : gostring }.

Definition partitionObject (schema partition instance : gostring) : result IdentifierFault markedObject :=
  match Qualified Sanitize schema partition with
  | Err fault => Err fault
  | Ok target => Ok (MarkedObject partitionMarkerForm instance target partition)
  end.

Definition markerOn (s : tx_session) (object : markedObject) (db : database) : result tx_error markerReading :=
  (let! _ := round_trip s CMarker in
   let written := relations db !! relname object ≫= comment in
   Ok (markerReadingOf (form object) (default [] written) (bool_decide (is_Some written)) (instance object)))%res.

Definition claimMarker (s : tx_session) (object : markedObject) (db : database) : result tx_error database :=
  (let! _ := round_trip s CRenderComment in
   let! _ := round_trip s CComment in
   comment_on pg (relname object) (marker_text (form object) (instance object)) db)%res.

End observation.

(** ** What the development relies on of the server *)

(** A timestamptz keeps microseconds; a bound kept is sent, rendered and read back as it is, and its
    rendering holds no quote. *)
Definition micro (t : Z) : Prop := t mod storedInstantGranularity = 0.

Record server_laws (pg : server) : Prop := {
  law_stored t : micro (stored pg t) /\ (micro t -> stored pg t = t);
  law_bind t : micro t -> bind_instant pg t = t;
  law_read t : micro t -> instantAt (time_Parse pg) (render_instant pg t) = Some t;
  law_quote t : "'"%char ∉ render_instant pg t
}.

(** Every range the configured schema's catalog holds is one the server could store, and the event
    log's partitions elsewhere are in other schemas. *)
Record sound_catalog (schema : gostring) (db : database) : Prop := {
  sc_ranges n r f u : relations db !! n = Some r -> attached r = Some (RangeBound f u) -> f < u /\ micro f /\ micro u;
  sc_elsewhere n w b : (n, w, b) ∈ elsewhere db -> w <> schema
}.

Lemma index_of_first a c sep b :
  c ∉ a -> head sep = Some c -> index_of sep (a ++ sep ++ b) = Some (length a).
Proof.
  intros Ha Hc. destruct (index_of sep (a ++ sep ++ b)) as [n|] eqn:E.
  - apply index_of_Some in E as (Hp & Hn & Hmin). f_equal.
    destruct (Nat.lt_trichotomy n (length a)) as [Hlt|[->|Hgt]]; [|done|].
    + destruct Ha. rewrite drop_app_le in Hp by lia.
      destruct (drop n a) as [|y r] eqn:Ed; [apply (f_equal length) in Ed; rewrite length_drop in Ed; simpl in Ed; lia|].
      assert (y = c) as ->.
      { destruct sep as [|z sep]; [done|]. injection Hc as ->. apply has_prefix_spec in Hp as [x Hx]. by injection Hx. }
      rewrite <- (take_drop n a), Ed. apply elem_of_app. right. by left.
    + specialize (Hmin (length a) Hgt). rewrite drop_app_length, has_prefix_app in Hmin. done.
  - rewrite index_of_None in E. specialize (E (length a)). rewrite drop_app_length, has_prefix_app in E.
    rewrite length_app in E. specialize (E ltac:(lia)). done.
Qed.

Section observed.
Context (pg : server) (laws : server_laws pg).

(** A bound the server renders reads back to the extent it keeps. *)
Lemma rangeFrom_rendered f u name :
  micro f -> micro u -> rangeFrom (time_Parse pg) (render_bound pg (RangeBound f u)) name = Ok (MkRange f u name).
Proof.
  intros Hf Hu. unfold rangeFrom, rangeBoundLiterals, render_bound. rewrite cut_prefix_app. cbn [mbind option_bind].
  rewrite !app_assoc, cut_suffix_app, <- !app_assoc. cbn [mbind option_bind]. unfold cut.
  rewrite (index_of_first _ "'"%char) by (try done; by apply law_quote). cbn [mbind option_bind].
  rewrite take_app_length, app_assoc, <- length_app, drop_app_length.
  by rewrite (law_read pg laws f Hf), (law_read pg laws u Hu).
Qed.

Lemma isDefaultBound_range f u : isDefaultBound (render_bound pg (RangeBound f u)) = false.
Proof. apply bool_decide_eq_false_2. intros H%(f_equal head). discriminate H. Qed.

(** What a run of rows adds to an observation. *)
Lemma add_rows_spec schema rows found found' :
  add_rows pg found schema rows = Ok found' ->
  Forall (λ row, within row = schema) rows /\
  Bounded found' = Bounded found ++
    omap (λ row, match rendered row with
                 | Some w => if isDefaultBound w then None
                             else match rangeFrom (time_Parse pg) w (child row) with Ok x => Some x | Err _ => None end
                 | None => None
                 end) rows /\
  (forall row w, row ∈ rows -> rendered row = Some w -> isDefaultBound w = false ->
     is_ok (rangeFrom (time_Parse pg) w (child row)) = true) /\
  ((Default found' = Default found /\ forall row w, row ∈ rows -> rendered row = Some w -> isDefaultBound w = false) \/
   exists row w, row ∈ rows /\ rendered row = Some w /\ isDefaultBound w = true /\ Default found' = child row).
Proof.
  revert found. induction rows as [|row rows IH]; intros found; cbn [add_rows].
  { intros [= <-]. split_and!; [done|by rewrite app_nil_r|by intros ?? []%elem_of_nil|left].
    split; [done|]. by intros ?? []%elem_of_nil. }
  intros H. apply rbind_Ok in H as (f1 & Hadd & Hrest). apply IH in Hrest as (Hw & Hb & Hok & Hd). clear IH.
  unfold add, boundReadFrom, addRendered in Hadd. case_bool_decide as Hin; [|done]. cbn [negb] in Hadd.
  cbn [omap list_omap]. unfold omap in Hb.
  destruct (rendered row) as [w|] eqn:Er.
  - cbn [reading written] in Hadd. destruct (isDefaultBound w) eqn:Ed.
    + injection Hadd as <-. cbn in *. split_and!; [by constructor|done| |].
      * intros row' w' [->|Hrow]%elem_of_cons Hr' Hd'; [congruence|by eapply Hok].
      * right. destruct Hd as [[-> _]|(row' & w' & ? & ? & ? & ?)]; [exists row, w|exists row', w']; split_and!; try done; [by left|by right].
    + destruct (rangeFrom _ _ _) as [x|] eqn:Ex; [|done]. injection Hadd as <-. cbn in *.
      split_and!; [by constructor|by rewrite Hb, <- app_assoc| |].
      * intros row' w' [->|Hrow]%elem_of_cons Hr' Hd'; [|by eapply Hok]. assert (w' = w) as -> by congruence. by rewrite Ex.
      * destruct Hd as [[? Hno]|(row' & w' & ? & ? & ? & ?)]; [left|right; exists row', w'; split_and!; try done; by right].
        split; [done|]. intros row' w' [->|Hrow]%elem_of_cons Hr'; [congruence|by eapply Hno].
  - destruct (declaresABound row); [|done]. cbn in Hadd. injection Hadd as <-. split_and!; [by constructor|done| |].
    + intros row' w' [->|Hrow]%elem_of_cons Hr' Hd'; [congruence|by eapply Hok].
    + destruct Hd as [[? Hno]|(row' & w' & ? & ? & ? & ?)]; [left|right; exists row', w'; split_and!; try done; by right].
      split; [done|]. intros row' w' [->|Hrow]%elem_of_cons Hr'; [congruence|by eapply Hno].
Qed.

Lemma add_rows_total schema rows found :
  Forall (λ row, within row = schema /\ declaresABound row = true /\
    forall w, rendered row = Some w -> isDefaultBound w = false -> is_ok (rangeFrom (time_Parse pg) w (child row)) = true) rows ->
  exists found', add_rows pg found schema rows = Ok found'.
Proof.
  intros Hall. revert found. induction Hall as [|row rows (Hw & Hd & Hok) _ IH]; intros found; cbn [add_rows]; [eauto|].
  unfold add, boundReadFrom, addRendered. rewrite Hw, bool_decide_eq_true_2 by done. cbn [negb]. rewrite Hd.
  destruct (rendered row) as [w|]; cbn [reading written rbind]; [|apply IH].
  destruct (isDefaultBound w) eqn:E; cbn [rbind]; [apply IH|]. specialize (Hok w eq_refl E).
  destruct (rangeFrom _ _ _); [|done]. cbn [rbind]. apply IH.
Qed.

Lemma elem_of_observed_rows s schema db row :
  row ∈ observed_rows pg s schema db <->
  (exists r b, relations db !! child row = Some r /\ attached r = Some b /\
     row = CatalogRow (child row) schema true (if bool_decide (child row ∈ vanishing s) then None else Some (render_bound pg b))) \/
  (exists n w b, (n, w, b) ∈ elsewhere db /\
     row = CatalogRow n w true (if bool_decide (n ∈ vanishing s) then None else Some (render_bound pg b))).
Proof.
  unfold observed_rows. rewrite (elem_of_Permutation_proper _ _ _ (merge_sort_Permutation name_le _)).
  rewrite elem_of_app, list_elem_of_omap, list_elem_of_fmap. split.
  - intros [((n & r) & Hin & (b & Hb & ->)%fmap_Some)|(((n & w) & b) & -> & Hin)].
    + left. exists r, b. apply elem_of_map_to_list in Hin. done.
    + right. by exists n, w, b.
  - intros [(r & b & Hr & Hb & ->)|(n & w & b & Hin & ->)].
    + left. exists (child row, r). rewrite elem_of_map_to_list. split; [done|]. cbn. by rewrite Hb.
    + right. by exists (n, w, b).
Qed.

(** An observation that answers lists exactly the ranges attached to the event log, each under its
    table's name, but those dropped while the catalog was read. *)
Lemma observePartitions_spec s schema db found :
  sound_catalog schema db -> observePartitions pg s schema db = Ok found ->
  elsewhere db = [] /\
  forall x, x ∈ Bounded found <->
    exists r, relations db !! Name x = Some r /\ attached r = Some (RangeBound (From_ x) (To_ x)) /\
              Name x ∉ vanishing s.
Proof.
  intros [Hsr Hse] H. apply rbind_Ok in H as (u & _ & H). apply add_rows_spec in H as (Hw & Hb & _ & _).
  split.
  - destruct (elsewhere db) as [|[[n w] b] rest] eqn:E; [done|]. exfalso. rewrite Forall_forall in Hw.
    apply (Hse n w b); [by left|].
    specialize (Hw (CatalogRow n w true (if bool_decide (n ∈ vanishing s) then None else Some (render_bound pg b)))).
    apply Hw. apply elem_of_observed_rows. right. exists n, w, b. rewrite E. split; [by left|done].
  - intros x. rewrite Hb. cbn [Bounded app]. rewrite list_elem_of_omap. split.
    + intros (row & [(r & b & Hr & Ha & He)|(n & w & b & Hin & He)]%elem_of_observed_rows & Hx).
      * rewrite He in Hx. cbn [rendered child] in Hx. case_bool_decide as Hv; [done|].
        destruct b as [|f u']; [done|]. rewrite isDefaultBound_range in Hx.
        destruct (Hsr _ _ _ _ Hr Ha) as (_ & Hf & Hu). rewrite rangeFrom_rendered in Hx by done.
        injection Hx as <-. by exists r.
      * exfalso. apply (Hse n w b Hin). rewrite Forall_forall in Hw. specialize (Hw row).
        rewrite He in Hw. apply Hw. apply elem_of_observed_rows. right. by exists n, w, b.
    + intros (r & Hr & Ha & Hv). destruct (Hsr _ _ _ _ Hr Ha) as (_ & Hf & Hu).
      exists (CatalogRow (Name x) schema true (Some (render_bound pg (RangeBound (From_ x) (To_ x))))). split.
      * apply elem_of_observed_rows. left. exists r, (RangeBound (From_ x) (To_ x)).
        cbn [child]. rewrite bool_decide_eq_false_2 by done. done.
      * cbn [rendered child]. rewrite isDefaultBound_range, rangeFrom_rendered by done. by destruct x.
Qed.

(** The one DEFAULT partition is the one observed. *)
Lemma observePartitions_default s schema db found r :
  elsewhere db = [] -> vanishing s = ∅ ->
  relations db !! PartitionDefault = Some r -> attached r = Some DefaultBound ->
  (forall n r, relations db !! n = Some r -> attached r = Some DefaultBound -> n = PartitionDefault) ->
  observePartitions pg s schema db = Ok found -> Default found = PartitionDefault.
Proof.
  intros He Hv Hr Ha Hone H. apply rbind_Ok in H as (u & _ & H).
  apply add_rows_spec in H as (_ & _ & _ & [[_ Hno]|(row & w & Hin & Hw & Hd & ->)]).
  - exfalso. specialize (Hno (CatalogRow PartitionDefault schema true (Some (render_bound pg DefaultBound))) defaultBoundExpression).
    assert (isDefaultBound defaultBoundExpression = true) as Ht by (by apply bool_decide_eq_true_2).
    rewrite Hno in Ht; [done| |done]. apply elem_of_observed_rows. left. exists r, DefaultBound.
    cbn [child]. rewrite Hv. rewrite bool_decide_eq_false_2 by set_solver. done.
  - apply elem_of_observed_rows in Hin as [(r' & b & Hr' & Ha' & Heq)|(n & w' & b & Hin & _)];
      [|rewrite He in Hin; by apply elem_of_nil in Hin].
    apply (Hone _ r' Hr'). rewrite Heq in Hw. cbn [rendered] in Hw. case_bool_decide; [done|]. injection Hw as <-.
    destruct b as [|f u']; [done|]. by rewrite isDefaultBound_range in Hd.
Qed.

Lemma observePartitions_total s schema db :
  sound_catalog schema db -> elsewhere db = [] -> call_fails s CObserve = None ->
  exists found, observePartitions pg s schema db = Ok found.
Proof.
  intros [Hsr _] He Hc. unfold observePartitions, finished_trip, round_trip. rewrite Hc. cbn [rbind].
  apply add_rows_total. apply Forall_forall.
  intros row [(r & b & Hr & Ha & Heq)|(n & w & b & Hin & _)]%elem_of_observed_rows; [|rewrite He in Hin; by apply elem_of_nil in Hin].
  rewrite Heq. cbn [within declaresABound rendered child]. split_and!; [done..|].
  intros w. case_bool_decide; [done|]. intros [= <-] Hd. destruct b as [|f u]; [done|].
  destruct (Hsr _ _ _ _ Hr Ha) as (_ & Hf & Hu). by rewrite rangeFrom_rendered.
Qed.

End observed.

(** A server that renders an instant as its number and keeps whole microseconds, to evaluate the
    model on. *)
Definition sample_refusal (text : string) (name : gostring) : raw_error :=
  RawError (bs text ++ name) (Some (bs "42P07", bs text ++ name)).
Definition sample_server : server := {|
  time_Parse := λ _ w, Z.of_int <$> NilZero.int_of_string (String.string_of_list_ascii w);
  render_instant := format_int;
  stored := λ t, t / storedInstantGranularity * storedInstantGranularity;
  bind_instant := λ t, t / storedInstantGranularity * storedInstantGranularity;
  relation_exists := sample_refusal "already exists: ";
  empty_range := sample_refusal "empty range bound: ";
  would_overlap := sample_refusal "would overlap: ";
  default_violated :=
    let m := bs "updated partition constraint for default partition would be violated by some row" in
    RawError m (Some (checkViolation, m));
  detach_violates := λ name,
    let m := bs "removing partition " ++ name ++ bs " violates foreign key constraint" in
    RawError m (Some (bs "23503", m));
  undefined_table := sample_refusal "does not exist: ";
  constraint_violated := sample_refusal "violates a constraint: "
|}.

Lemma micro_floor t : micro t -> t / storedInstantGranularity * storedInstantGranularity = t.
Proof. unfold micro, storedInstantGranularity. intros H. rewrite (Z.div_mod t 1000) at 2 by lia. lia. Qed.

Lemma sample_server_laws : server_laws sample_server.
Proof.
  split.
  - intros t. split; [|apply micro_floor]. cbn. unfold micro. by rewrite Z.mod_mul.
  - apply micro_floor.
  - intros t _. unfold instantAt. cbn [time_Parse sample_server render_instant omap list_omap isoBoundLayouts].
    unfold format_int, bs. rewrite String.string_of_list_ascii_of_string, to_int_of_string.
    cbn. by rewrite DecimalZ.of_to.
  - intros t H. pose proof (format_int_bytes t) as Hb. rewrite Forall_forall in Hb.
    destruct (Hb _ H) as [Hd|Hd]; discriminate Hd.
Qed.

Definition quiet_tx (t : Z) : tx_session := TxSession id t (λ _, None) ∅ false.
