(* ===== verification/Maintain.v ===== *)
(** * Maintenance and retention passes

    [internal/schema]'s two passes over the event log's partitions: [Maintain] creates what the
    horizon needs (maintain.go, maintainreport.go, maintainrefusal.go) and [ApplyRetention] drops
    what has aged out (retention.go, retentiondrop.go, retentionreport.go, retentionrefusal.go), each
    statement in its own bounded transaction. The [k]-th transaction of a pass runs in the [k]-th
    session, before which other replicas may have changed the database. *)

From S2P Require Import Prelude Utf8 Quote Queue Partition Catalog.

Local Open Scope Z_scope.

(** ** Results and counters (stats.go) *)

Inductive Outcome := OutcomeNothingNeeded | OutcomeWorkDone | OutcomeFailed.

Record Result := MkResult { outcome : Outcome; Created : nat; Dropped : nat }.

Record MaintenanceStats := Stats {
  failures : Z;
  defaultPartitionBlocked : Z;
  default_rows : Z;
  retentionBlockedByLiveEvents : Z
}.

Definition CountFailure (st : MaintenanceStats) : MaintenanceStats :=
  Stats (wrap64 (failures st + 1)) (defaultPartitionBlocked st) (default_rows st) (retentionBlockedByLiveEvents st).
Definition CountDefaultPartitionBlocked (st : MaintenanceStats) : MaintenanceStats :=
  Stats (failures st) (wrap64 (defaultPartitionBlocked st + 1)) (default_rows st) (retentionBlockedByLiveEvents st).
Definition StoreDefaultPartitionRows (rows : Z) (st : MaintenanceStats) : MaintenanceStats :=
  Stats (failures st) (defaultPartitionBlocked st) rows (retentionBlockedByLiveEvents st).
Definition CountRetentionBlockedByLiveEvents (st : MaintenanceStats) : MaintenanceStats :=
  Stats (failures st) (defaultPartitionBlocked st) (default_rows st) (wrap64 (retentionBlockedByLiveEvents st + 1)).

Definition outcomeOf (created refusals : nat) : Outcome :=
  if (0 <? refusals)%nat then OutcomeFailed
  else if (0 <? created)%nat then OutcomeWorkDone
  else OutcomeNothingNeeded.

(** ** What a pass says *)

Definition observingWork : gostring := bs "observe the partitions of " ++ TableEvents.
Definition creatingWork : gostring := bs "create partition ".
Definition droppingWork : gostring := bs "drop partition ".

Definition extentOf (ranged : Range) : gostring :=
  bs "[" ++ boundLiteral (From_ ranged) ++ bs ", " ++ boundLiteral (To_ ranged) ++ bs ")".

Definition creationRefused (ranged : Range) (f : failure) : failure :=
  finished (Own (wrapf (bs "the partition for " ++ extentOf ranged ++ bs " could not be created: ") f)).
Definition dropRefused (ranged : Range) (f : failure) : failure :=
  finished (Own (wrapf (bs "the partition for " ++ extentOf ranged ++ bs " could not be dropped: ") f)).

(** [errors.Join] *)
Definition joined (refusals : list failure) : option failure :=
  match refusals with
  | [] => None
  | _ => Some (finished (Own (Failure (join newline (map text refusals)) (refusals ≫= wraps))))
  end.

Definition theUnmarkedPhrase : gostring := bs "carries no pg_noty ownership marker".
Definition theUnreadablePhrase : gostring :=
  bs "carries a comment this instance cannot read as a pg_noty ownership marker".
Definition theForeignMarkerPhrase : gostring := bs "is marked for another instance".
Definition theUnattachedPhrase : gostring := bs "is not attached to the event log this instance maintains".
Definition theRemovedPartitionPhrase : gostring := bs "removing partition".
Definition theForeignKeyPhrase : gostring := bs "violates foreign key constraint".

Definition unmarkedPartition (name : gostring) : failure :=
  finished (Own (plain (bs "partition " ++ name ++ bs " " ++ theUnmarkedPhrase ++
    bs ", so this instance cannot establish that it created the table and will not drop it"))).
Definition unreadableMarkerOn (name : gostring) : failure :=
  finished (Own (plain (bs "partition " ++ name ++ bs " " ++ theUnreadablePhrase ++
    bs ", and a comment this reader cannot parse is not one it may act on"))).
Definition foreignMarkerOn (name marked expected : gostring) : failure :=
  finished (Own (wrapf (bs "partition " ++ name ++ bs " " ++ theForeignMarkerPhrase ++ bs ": ")
                       (foreignInstance marked expected))).
Definition unattachedTable (name : gostring) : failure :=
  finished (Own (plain (name ++ bs " " ++ theUnattachedPhrase ++
    bs ", and a name matching the partition naming scheme is not evidence that it is one"))).

(** The reading [markerOn] gives beside an error has a fifth, zero state; the caller returns first. *)
Definition refusalForMarker (reading : markerReading) (name instance : gostring) : option failure :=
  match state reading with
  | markerOurs => None
  | markerAbsent => Some (unmarkedPartition name)
  | markerUnreadable => Some (unreadableMarkerOn name)
  | markerForeign => Some (foreignMarkerOn name (named reading) instance)
  end.

Definition readsAsAlreadyGone (f : failure) : bool := contains_sub (text f) theUnmarkedPhrase.
Definition blockedByLiveEvents (f : failure) : bool :=
  contains_sub (text f) theRemovedPartitionPhrase && contains_sub (text f) theForeignKeyPhrase.

Definition countRefusal (f : failure) (st : MaintenanceStats) : MaintenanceStats :=
  let st := CountFailure st in
  if bool_decide (ErrDefaultBlocked ∈ wraps f) then CountDefaultPartitionBlocked st else st.
Definition countDropRefusal (f : failure) (st : MaintenanceStats) : MaintenanceStats :=
  let st := CountFailure st in
  if blockedByLiveEvents f then CountRetentionBlockedByLiveEvents st else st.

(** ** The passes *)

Section passes.
Context (pg : server) (Sanitize : list gostring -> gostring) (cfg : config) (lock_timeout : Z).

Record observation := Observation { now : Z; partitions : list Range; defaultRows : Z }.

Definition observe (s : tx_session) (db : database) : result failure observation * database :=
  let '(seen, db) :=
    boundedTx s lock_timeout (DdlSubject observingWork [])
      (λ db, (let! now := dbNow s in
              let! found := observePartitions pg s (Schema cfg) db in
              let! rows := defaultPartitionRows pg Sanitize s (Schema cfg) (Default found) db in
              Ok (Observation now (Bounded found) rows, db))%res) db in
  (match seen with
   | Err f => Err (finished (Own (wrapf (observingWork ++ bs ": ") f)))
   | Ok o => Ok o
   end, db).

(** *** Creating (maintain.go) *)

Definition createOne (s : tx_session) (ranged : Range) (db : database) : result failure unit * database :=
  match partitionObject Sanitize (Schema cfg) (Name ranged) (Instance_name cfg) with
  | Err fault =>
      (Err (finished (Own (plain (bs "the partition of schema " ++ Schema cfg ++ bs " for " ++ extentOf ranged ++
         bs " cannot be created: the name " ++ Name ranged ++ bs " given for it " ++ fault_text fault)))), db)
  | Ok marked =>
      match Qualified Sanitize (Schema cfg) TableEvents with
      | Err fault =>
          (Err (finished (Own (plain (bs "the event log of schema " ++ Schema cfg ++ bs " cannot be named: " ++
             TableEvents ++ bs " " ++ fault_text fault)))), db)
      | Ok _ =>
          boundedTx s lock_timeout (DdlSubject (creatingWork ++ Name ranged) (Name ranged))
            (λ db, (let! _ := round_trip s CCreate in
                    let! db := create_partition pg (Name ranged) (From_ ranged) (To_ ranged) db in
                    let! db := claimMarker pg s marked db in
                    Ok (tt, db))%res) db
      end
  end.

Definition covers (s : tx_session) (ranged : Range) (db : database) : bool * database :=
  let '(seen, db) :=
    boundedTx s lock_timeout (DdlSubject observingWork [])
      (λ db, (let! found := observePartitions pg s (Schema cfg) db in Ok (Bounded found, db))%res) db in
  (match seen with
   | Ok observed => bool_decide (length (rangesNotYetObserved [ranged] observed) = 0%nat)
   | Err _ => false
   end, db).

(** A pass: its next session, its counters and the database. *)
Record progress := Progress { tx : nat; stats : MaintenanceStats; db_of : database }.

Fixpoint converge (serving : nat -> tx_session) (wanted : list Range) (created : nat) (refusals : list failure)
    (p : progress) : nat * list failure * progress :=
  match wanted with
  | [] => (created, refusals, p)
  | ranged :: rest =>
      match createOne (serving (tx p)) ranged (db_of p) with
      | (Ok _, db) => converge serving rest (S created) refusals (Progress (S (tx p)) (stats p) db)
      | (Err f, db) =>
          match covers (serving (S (tx p))) ranged db with
          | (true, db) => converge serving rest created refusals (Progress (S (S (tx p))) (stats p) db)
          | (false, db) =>
              converge serving rest created (refusals ++ [creationRefused ranged f])
                (Progress (S (S (tx p))) (countRefusal f (stats p)) db)
          end
      end
  end.

(** [None] is the panic of a zero interval. *)
Definition Maintain (serving : nat -> tx_session) (st : MaintenanceStats) (db : database) :
    option (Result * option failure * MaintenanceStats * database) :=
  unservable ← unservableHorizonIn (retention cfg);
  match unservable with
  | Some refusal =>
      Some (MkResult OutcomeFailed 0 0, Some (finished (Own (horizon_failure refusal))), CountFailure st, db)
  | None =>
      match observe (serving 0%nat) db with
      | (Err f, db) => Some (MkResult OutcomeFailed 0 0, Some (finished (Own f)), CountFailure st, db)
      | (Ok seen, db) =>
          plan ← PlanMaintenance (now seen) (retention cfg) (partitions seen);
          let st := StoreDefaultPartitionRows (defaultRows seen) st in
          let '(created, refusals, p) := converge serving (Create plan) 0 [] (Progress 1 st db) in
          Some (MkResult (outcomeOf created (length refusals)) created 0, joined refusals, stats p, db_of p)
      end
  end.

(** *** Dropping (retention.go, retentiondrop.go) *)

Record dropTargets := DropTargets { drop_partition : markedObject; parent : gostring; queue_table : gostring }.

Definition qualifiedOrRefused (schema name role : gostring) : result failure gostring :=
  match Qualified Sanitize schema name with
  | Ok rendered => Ok rendered
  | Err fault =>
      Err (finished (Own (plain (bs "the " ++ role ++ bs " of schema " ++ schema ++ bs " cannot be named: " ++
        name ++ bs " " ++ fault_text fault))))
  end.

Definition dropTargetsFor (schema instance : gostring) (ranged : Range) : result failure dropTargets :=
  match partitionObject Sanitize schema (Name ranged) instance with
  | Err fault =>
      Err (finished (Own (plain (bs "the partition of schema " ++ schema ++ bs " for " ++ extentOf ranged ++
        bs " cannot be dropped: the name " ++ Name ranged ++ bs " given for it " ++ fault_text fault))))
  | Ok marked =>
      (let! parent := qualifiedOrRefused schema TableEvents (bs "event log") in
       let! queue := qualifiedOrRefused schema TableEventQueue (bs "delivery queue") in
       Ok (DropTargets marked parent queue))%res
  end.

Definition confirmOwnMarker (s : tx_session) (marked : markedObject) (ranged : Range) (db : database) :
    result tx_error unit :=
  (let! reading := markerOn s marked db in
   match refusalForMarker reading (Name ranged) (Instance_name cfg) with
   | Some f => Err (Own f)
   | None => Ok tt
   end)%res.

Definition confirmAttachedToTheEventLog (s : tx_session) (ranged : Range) (db : database) : result tx_error unit :=
  (let! attached := isPartitionOf s (Name ranged) db in
   if attached then Ok tt else Err (Own (unattachedTable (Name ranged))))%res.

Definition dropWithinOneTransaction (s : tx_session) (names : dropTargets) (ranged : Range) (db : database) :
    result tx_error (Z * database) :=
  (let! _ := round_trip s CLock in
   let! _ := confirmOwnMarker s (drop_partition names) ranged db in
   let! _ := confirmAttachedToTheEventLog s ranged db in
   let! _ := round_trip s CReap in
   let '(reaped, db) := reap pg (From_ ranged) (To_ ranged) db in
   let! _ := round_trip s CDetach in
   let! db := detach pg (relname (drop_partition names)) db in
   let! _ := round_trip s CDrop in
   Ok (reaped, drop_table (relname (drop_partition names)) db))%res.

Definition dropOne (s : tx_session) (ranged : Range) (db : database) : result failure Z * database :=
  match dropTargetsFor (Schema cfg) (Instance_name cfg) ranged with
  | Err f => (Err f, db)
  | Ok names =>
      let '(answer, db) :=
        boundedTx s lock_timeout (DdlSubject (droppingWork ++ Name ranged) (Name ranged))
          (dropWithinOneTransaction s names ranged) db in
      (match answer with Err f => Err (finished (Own f)) | Ok reaped => Ok reaped end, db)
  end.

Definition noLongerCovered (s : tx_session) (ranged : Range) (db : database) : bool * database :=
  let '(seen, db) := observe s db in
  (match seen with
   | Ok seen => bool_decide (length (rangesNotYetObserved [ranged] (partitions seen)) = 1%nat)
   | Err _ => false
   end, db).

Fixpoint dropExpired (serving : nat -> tx_session) (expired : list Range) (dropped : nat) (refusals : list failure)
    (p : progress) : nat * list failure * progress :=
  match expired with
  | [] => (dropped, refusals, p)
  | ranged :: rest =>
      match dropOne (serving (tx p)) ranged (db_of p) with
      | (Ok _, db) => dropExpired serving rest (S dropped) refusals (Progress (S (tx p)) (stats p) db)
      | (Err f, db) =>
          let '(gone, db) :=
            if readsAsAlreadyGone f then noLongerCovered (serving (S (tx p))) ranged db else (false, db) in
          if gone then dropExpired serving rest dropped refusals (Progress (S (S (tx p))) (stats p) db)
          else dropExpired serving rest dropped (refusals ++ [dropRefused ranged f])
                 (Progress (S (S (tx p))) (countDropRefusal f (stats p)) db)
      end
  end.

Definition ApplyRetention (serving : nat -> tx_session) (st : MaintenanceStats) (db : database) :
    option (Result * option failure * MaintenanceStats * database) :=
  match observe (serving 0%nat) db with
  | (Err f, db) => Some (MkResult OutcomeFailed 0 0, Some (finished (Own f)), CountFailure st, db)
  | (Ok seen, db) =>
      plan ← PlanMaintenance (now seen) (retention cfg) (partitions seen);
      let '(dropped, refusals, p) := dropExpired serving (Drop_ plan) 0 [] (Progress 1 st db) in
      Some (MkResult (outcomeOf dropped (length refusals)) 0 dropped, joined refusals, stats p, db_of p)
  end.

End passes.

(** ** One drop *)

Lemma size_filter_split {K A} `{Countable K} (f : K * A -> bool) (m : gmap K A) :
  (size (filter (λ p, f p = true) m) + size (filter (λ p, f p = false) m) = size m)%nat.
Proof.
  rewrite <- (map_filter_union_complement (λ p, f p = true) m) at 3.
  rewrite map_size_disj_union by apply map_disjoint_filter_complement. f_equal.
  f_equal. apply map_filter_ext. intros i x _. by rewrite not_true_iff_false.
Qed.

(** A comment reads as this instance's exactly when it is the marker this instance writes. *)
Lemma marker_ours_iff form written instance :
  state (markerReadingOf form (default [] written) (bool_decide (is_Some written)) instance) = markerOurs <->
  instance <> [] /\ written = Some (marker_text form instance).
Proof.
  unfold markerReadingOf. destruct written as [w|]; cbn; [|naive_solver].
  unfold instanceIn, marker_text.
  destruct (cut_prefix w MarkerPrefix) as [n1|] eqn:E1.
  - apply cut_prefix_iff in E1 as ->. destruct (cut_suffix n1 (suffix form)) as [n2|] eqn:E2.
    + apply cut_suffix_iff in E2 as ->. case_bool_decide as H0; cbn.
      * subst n2. split; [done|]. intros [Hi Ha%(inj Some)]. apply app_inv_head in Ha.
        apply app_inv_tail in Ha. congruence.
      * case_bool_decide as H1; cbn; [by subst|]. split; [done|].
        intros [_ Ha%(inj Some)]. apply app_inv_head in Ha. apply app_inv_tail in Ha. congruence.
    + split; [done|]. intros [_ Ha%(inj Some)]. apply app_inv_head in Ha. subst n1. by rewrite cut_suffix_app in E2.
  - split; [done|]. intros [_ ->%(inj Some)]. by rewrite cut_prefix_app in E1.
Qed.

(** A bounded transaction leaves what the other replicas left, or what its work made of that. *)
Lemma boundedTx_effect {A} s lock_timeout about (work : database -> result tx_error (A * database)) db :
  snd (boundedTx s lock_timeout about work db) = others s db \/
  exists a, work (others s db) = Ok (a, snd (boundedTx s lock_timeout about work db)) /\
    call_fails s CBegin = None /\
    (call_fails s CCommit = None -> fst (boundedTx s lock_timeout about work db) = Ok a) /\
    (call_fails s CCommit <> None -> lost_commit s = true).
Proof.
  unfold boundedTx, round_trip. destruct (call_fails s CBegin) as [e|] eqn:EB; [by left|]. cbn.
  destruct (call_fails s CBound); [by left|]. cbn.
  destruct (work (others s db)) as [[a db']|e] eqn:E; [|by left].
  destruct (call_fails s CCommit) as [e|] eqn:EC; cbn.
  - destruct (lost_commit s); [|by left]. right. exists a. done.
  - right. exists a. done.
Qed.

Lemma boundedTx_Ok {A} s lock_timeout about (work : database -> result tx_error (A * database)) db a db' :
  boundedTx s lock_timeout about work db = (Ok a, db') -> work (others s db) = Ok (a, db').
Proof.
  unfold boundedTx, round_trip. destruct (call_fails s CBegin); [done|]. cbn.
  destruct (call_fails s CBound); [done|]. cbn.
  destruct (work (others s db)) as [[a0 db0]|e]; [|done]. destruct (call_fails s CCommit); [done|].
  by intros [= -> ->].
Qed.

Definition live (r : queue_row) : Prop := status r <> dead.

(** A transaction whose work changes nothing. *)
Lemma boundedTx_read {A} s lock_timeout about (work : database -> result tx_error (A * database)) db a db' :
  (forall db a db', work db = Ok (a, db') -> db' = db) ->
  boundedTx s lock_timeout about work db = (a, db') -> db' = others s db.
Proof.
  intros Hread H. pose proof (boundedTx_effect s lock_timeout about work db) as He. rewrite H in He.
  cbn in He. destruct He as [?|(a0 & He & _)]; [done|]. by apply Hread in He.
Qed.

(** What a committed drop of the partition [name] needs and does: the table is a partition of the
    event log and carries this instance's marker; no row still queued points into it; its rows leave
    the log; of the queue only dead rows of [[from, to)] go; everything else stays. *)
Record guarded_drop (pg : server) (instance name : gostring) (from to : Z) (db db' : database) : Prop := {
  gd_bound : exists r b, relations db !! name = Some r /\ attached r = Some b /\
    comment r = Some (marker_text partitionMarkerForm instance) /\
    (forall id q, event_queue (data db') !! id = Some q -> routed db b (occurred_at q) = false) /\
    events (data db') = filter (λ p, routed db b (snd (fst p)) = false) (events (data db));
  gd_relations : relations db' = delete name (relations db);
  gd_elsewhere : elsewhere db' = elsewhere db;
  gd_queue : event_queue (data db') = filter (λ p, reapable pg from to (snd p) = false) (event_queue (data db));
  gd_rest : deliveries (data db') = deliveries (data db) /\ identity (data db') = identity (data db)
}.

(** *** What a pass may take away *)

(** What a retention pass leaves of a database, relative to a cutoff. *)
Record kept (instance : gostring) (cutoff : Z) (db db' : database) : Prop := {
  k_events id t e : events (data db) !! (id, t) = Some e ->
    cutoff <= t \/ (exists q, event_queue (data db) !! id = Some q /\ live q /\ occurred_at q = t) ->
    events (data db') !! (id, t) = Some e;
  k_events_sub : events (data db') ⊆ events (data db);
  k_queue id q : event_queue (data db) !! id = Some q -> live q \/ cutoff <= occurred_at q ->
    event_queue (data db') !! id = Some q;
  k_queue_sub : event_queue (data db') ⊆ event_queue (data db);
  k_relations n r : relations db !! n = Some r ->
    relations db' !! n = Some r \/
    comment r = Some (marker_text partitionMarkerForm instance) /\
    exists f u, attached r = Some (RangeBound f u) /\ u <= cutoff;
  k_relations_sub : relations db' ⊆ relations db;
  k_rest : elsewhere db' = elsewhere db /\ deliveries (data db') = deliveries (data db) /\
           identity (data db') = identity (data db)
}.

#[global] Instance kept_preorder instance cutoff : PreOrder (kept instance cutoff).
Proof.
  split.
  - intros db. split; try done. by left.
  - intros a b c [H1 H2 H3 H4 H5 H6 H7] [H1' H2' H3' H4' H5' H6' H7']. split.
    + intros id t e He Hk. apply H1'; [by apply H1|].
      destruct Hk as [?|(q & Hq & Hl & Ht)]; [by left|]. right. exists q. split; [|done]. apply H3; [done|by left].
    + by transitivity (events (data b)).
    + intros id q Hq Hk. apply H3'; [by apply H3|done].
    + by transitivity (event_queue (data b)).
    + intros n r Hr. destruct (H5 n r Hr) as [Hb|?]; [|by right]. by apply H5'.
    + by transitivity (relations b).
    + intuition congruence.
Qed.

(** A guarded drop of a range that ends by the cutoff. *)
Lemma guarded_drop_kept pg instance x cutoff db db' r :
  server_laws pg -> relations db !! Name x = Some r -> attached r = Some (RangeBound (From_ x) (To_ x)) ->
  micro (From_ x) -> micro (To_ x) -> To_ x <= cutoff -> well_formed (data db) ->
  guarded_drop pg instance (Name x) (From_ x) (To_ x) db db' ->
  kept instance cutoff db db' /\ well_formed (data db') /\ S (size (relations db')) = size (relations db).
Proof.
  intros laws Hr Ha Hmf Hmt Hcut [Hids Hrows Hlog] [(r' & b & Hr' & Hb & Hc & Hnone & Hev) Hrel Hels Hq [Hdel Hid]].
  rewrite Hr in Hr'. injection Hr' as <-. rewrite Ha in Hb. injection Hb as <-. cbn [routed bound_covers] in *.
  assert (Hqk : forall id q, event_queue (data db') !! id = Some q <->
    event_queue (data db) !! id = Some q /\ reapable pg (From_ x) (To_ x) q = false).
  { intros id q. rewrite Hq. apply map_lookup_filter_Some. }
  assert (Hek : forall id t e, events (data db') !! (id, t) = Some e <->
    events (data db) !! (id, t) = Some e /\ (From_ x <=? t) && (t <? To_ x) = false).
  { intros id t e. rewrite Hev. apply map_lookup_filter_Some. }
  assert (Hlive : forall id q, event_queue (data db) !! id = Some q -> live q \/ cutoff <= occurred_at q ->
    event_queue (data db') !! id = Some q).
  { intros id q Hq0 Hl. apply Hqk. split; [done|]. unfold reapable. rewrite !(law_bind pg laws) by done.
    apply not_true_is_false. rewrite !andb_true_iff, bool_decide_eq_true, Z.leb_le, Z.ltb_lt.
    intros [[Hd _] Ht]. destruct Hl; [done|lia]. }
  split; [split|split].
  - intros id t e He Hk. apply Hek. split; [done|]. destruct Hk as [Hk|(q & Hq0 & Hl & <-)].
    + apply not_true_is_false. rewrite andb_true_iff, Z.ltb_lt. lia.
    + apply (Hnone id q). apply Hlive; [done|by left].
  - rewrite Hev. apply map_filter_subseteq.
  - exact Hlive.
  - rewrite Hq. apply map_filter_subseteq.
  - intros n rn Hn. destruct (decide (n = Name x)) as [->|Hne].
    + rewrite Hr in Hn. injection Hn as <-. right. split; [done|]. by exists (From_ x), (To_ x).
    + left. rewrite Hrel. by rewrite lookup_delete_ne.
  - rewrite Hrel. apply delete_subseteq.
  - done.
  - destruct Hids as [Hi1 Hi2]. split; [split|..].
    + intros id [q Hq0]. rewrite Hid. apply Hi1. exists q. by apply Hqk.
    + intros id t [e He]. rewrite Hid. apply (Hi2 id t). exists e. by apply Hek.
    + intros id q [Hq0 _]%Hqk. by apply (Hrows id).
    + intros id q Hq'. assert (Hq0 := Hq'). apply Hqk in Hq0 as [Hq0 _]. destruct (Hlog id q Hq0) as [e He].
      exists e. apply Hek. split; [done|]. by apply (Hnone id q).
  - rewrite Hrel, map_size_delete, Hr.
    assert (size (relations db) <> 0%nat); [|lia]. intros Hz%map_size_empty_inv. by rewrite Hz, lookup_empty in Hr.
Qed.

Section passes.
Context (pg : server) (Sanitize : list gostring -> gostring) (cfg : config) (lock_timeout : Z).

Lemma dropTargetsFor_Ok schema instance ranged names :
  dropTargetsFor Sanitize schema instance ranged = Ok names ->
  relname (drop_partition names) = Name ranged /\ form (drop_partition names) = partitionMarkerForm /\
  Catalog.instance (drop_partition names) = instance.
Proof.
  unfold dropTargetsFor, partitionObject. destruct (Qualified Sanitize schema (Name ranged)); [|done].
  intros H. peel. done.
Qed.

Lemma round_trip_Ok s c u : round_trip s c = Ok u -> call_fails s c = None.
Proof. unfold round_trip. by destruct (call_fails s c). Qed.

Lemma confirmOwnMarker_Ok s marked ranged db u :
  confirmOwnMarker cfg s marked ranged db = Ok u ->
  relations db !! relname marked ≫= comment = Some (marker_text (form marked) (Catalog.instance marked)).
Proof.
  unfold confirmOwnMarker, markerOn. intros H. peel.
  destruct (refusalForMarker _ _ _) eqn:E; [done|]. unfold refusalForMarker in E.
  destruct (state _) eqn:Es; try done. by apply marker_ours_iff in Es as [_ ?].
Qed.

Lemma detach_Ok name db db' :
  detach pg name db = Ok db' ->
  exists r b, relations db !! name = Some r /\ attached r = Some b /\
    (forall id q, event_queue (data db) !! id = Some q -> routed db b (occurred_at q) = false) /\
    db' = Database (<[name := Relation None (comment r)]> (relations db)) (elsewhere db)
            (Tables (filter (λ p, routed db b (snd (fst p)) = false) (events (data db)))
                    (event_queue (data db)) (deliveries (data db)) (identity (data db))).
Proof.
  unfold detach. destruct (relations db !! name) as [r|]; [|done]. destruct (attached r) as [b|] eqn:Eb; [|done].
  destruct (existsb _ _) eqn:E; [done|]. intros [= <-]. exists r, b. split_and!; [done..| |done].
  intros id q Hq. apply not_true_is_false. intros Hr. apply not_true_iff_false in E. apply E.
  apply existsb_exists. exists (id, q). split; [|done].
  apply list_elem_of_In, elem_of_map_to_list. done.
Qed.

Lemma dropWithinOneTransaction_Ok s names ranged db n db' :
  form (drop_partition names) = partitionMarkerForm ->
  Catalog.instance (drop_partition names) = Instance_name cfg ->
  dropWithinOneTransaction pg cfg s names ranged db = Ok (n, db') ->
  guarded_drop pg (Instance_name cfg) (relname (drop_partition names)) (From_ ranged) (To_ ranged) db db' /\
  n = Z.of_nat (size (event_queue (data db))) - Z.of_nat (size (event_queue (data db'))).
Proof.
  intros Hform Hinst. unfold dropWithinOneTransaction. intros H.
  unfold reap in H. peel.
  apply confirmOwnMarker_Ok in Hm0. rewrite Hform, Hinst in Hm0.
  apply detach_Ok in Hm4 as (r & b & Hr & Hb & Hnone & ->). cbn [relations with_data data] in *.
  rewrite Hr in Hm0. cbn in Hm0. split.
  - split; cbn; try done.
    + exists r, b. done.
    + by rewrite delete_insert_eq.
  - cbn. rewrite <- (size_filter_split (λ p, reapable pg (From_ ranged) (To_ ranged) (snd p)) (event_queue (data db))). lia.
Qed.

Lemma dropOne_effect s ranged db answer db' :
  dropOne pg Sanitize cfg lock_timeout s ranged db = (answer, db') ->
  (db' = db \/ db' = others s db \/
   guarded_drop pg (Instance_name cfg) (Name ranged) (From_ ranged) (To_ ranged) (others s db) db') /\
  (forall n, answer = Ok n ->
     guarded_drop pg (Instance_name cfg) (Name ranged) (From_ ranged) (To_ ranged) (others s db) db' /\
     n = Z.of_nat (size (event_queue (data (others s db)))) - Z.of_nat (size (event_queue (data db')))).
Proof.
  unfold dropOne. destruct (dropTargetsFor _ _ _ _) as [names|f] eqn:E; [|by intros [= <- <-]; split; [left|]].
  apply dropTargetsFor_Ok in E as (Hrel & Hform & Hinst).
  pose proof (λ db' n, dropWithinOneTransaction_Ok s names ranged (others s db) n db' Hform Hinst) as Hdrop.
  rewrite Hrel in Hdrop.
  pose proof (boundedTx_effect s lock_timeout (DdlSubject (droppingWork ++ Name ranged) (Name ranged))
    (dropWithinOneTransaction pg cfg s names ranged) db) as He.
  destruct (boundedTx _ _ _ _ _) as [a d] eqn:Et. cbn [snd] in He. intros [= <- <-]. split.
  - destruct He as [He|(n & He & _)]; [by right; left|]. right; right. by eapply Hdrop.
  - intros n Hn. apply (Hdrop d n). eapply boundedTx_Ok. rewrite Et. destruct a; [|done]. by injection Hn as ->.
Qed.

(** C19. Whatever the other replicas have done by then, whatever the calls of its transaction answer,
    and whatever became of a commit whose answer was lost, one drop either leaves the database the
    others left or takes every guard with it: the table is attached to the event log, carries exactly
    this instance's marker, and no queue row -- pending, delivering or dead -- still points into it
    once the dead rows of the range are reaped. If it answers that it dropped, it did, and the number
    it reports is the number of queue rows that went. *)
Theorem dropOne_guarded s ranged db answer db' :
  dropOne pg Sanitize cfg lock_timeout s ranged db = (answer, db') ->
  (db' = db \/ db' = others s db \/
   guarded_drop pg (Instance_name cfg) (Name ranged) (From_ ranged) (To_ ranged) (others s db) db') /\
  (forall n, answer = Ok n ->
     guarded_drop pg (Instance_name cfg) (Name ranged) (From_ ranged) (To_ ranged) (others s db) db' /\
     n = Z.of_nat (size (event_queue (data (others s db)))) - Z.of_nat (size (event_queue (data db')))).
Proof. apply dropOne_effect. Qed.

(** *** The whole retention pass *)

Lemma observe_effect s db answer db' :
  observe pg Sanitize cfg lock_timeout s db = (answer, db') ->
  db' = others s db /\
  forall seen, answer = Ok seen -> now seen = server_now s /\
    exists found, observePartitions pg s (Schema cfg) (others s db) = Ok found /\ partitions seen = Bounded found.
Proof.
  unfold observe. destruct (boundedTx _ _ _ _ _) as [a d] eqn:Et. intros [= <- <-]. split.
  - eapply boundedTx_read; [|exact Et]. intros db0 a0 db1 H. unfold dbNow in H. by peel.
  - intros seen Hseen. destruct a as [o|]; [|done]. injection Hseen as ->.
    apply boundedTx_Ok in Et. unfold dbNow in Et. peel. split; [done|]. eauto.
Qed.

Context (laws : server_laws pg).
(** No other replica changes the database while the pass runs. *)
Context (serving : nat -> tx_session) (alone : forall k db, others (serving k) db = db).

Lemma noLongerCovered_effect s ranged db gone db' :
  noLongerCovered pg Sanitize cfg lock_timeout s ranged db = (gone, db') -> db' = others s db.
Proof.
  unfold noLongerCovered. destruct (observe _ _ _ _ _ _) as [a d] eqn:E. apply observe_effect in E as [-> _].
  by intros [= _ <-].
Qed.

(** The loop, from any state in which every planned range is still where the plan saw it or gone. *)
Lemma dropExpired_kept cutoff base expired dropped refusals p dropped' refusals' p' :
  kept (Instance_name cfg) cutoff base (db_of p) -> well_formed (data (db_of p)) ->
  (dropped + size (relations (db_of p)) <= size (relations base))%nat ->
  Forall (λ x, (exists r, relations base !! Name x = Some r /\ attached r = Some (RangeBound (From_ x) (To_ x))) /\
               micro (From_ x) /\ micro (To_ x) /\ To_ x <= cutoff) expired ->
  dropExpired pg Sanitize cfg lock_timeout serving expired dropped refusals p = (dropped', refusals', p') ->
  kept (Instance_name cfg) cutoff base (db_of p') /\ well_formed (data (db_of p')) /\
  (dropped' + size (relations (db_of p')) <= size (relations base))%nat.
Proof.
  intros Hk Hwf Hsz Hall. revert dropped refusals p Hk Hwf Hsz.
  induction Hall as [|x expired ((r & Hr & Ha) & Hmf & Hmt & Hcut) Hall IH]; intros dropped refusals p Hk Hwf Hsz;
    cbn [dropExpired]; [by intros [= <- <- <-]|].
  destruct (dropOne _ _ _ _ _ _ _) as [answer d] eqn:Ed.
  destruct (dropOne_effect _ _ _ _ _ Ed) as [Heff Hok]. rewrite alone in Heff, Hok.
  assert (Hguard : guarded_drop pg (Instance_name cfg) (Name x) (From_ x) (To_ x) (db_of p) d ->
    kept (Instance_name cfg) cutoff base d /\ well_formed (data d) /\ S (size (relations d)) = size (relations (db_of p))).
  { intros Hg. destruct (gd_bound _ _ _ _ _ _ _ Hg) as (r' & _ & Hr' & _).
    assert (r' = r) as -> by (pose proof (lookup_weaken _ _ _ _ Hr' (k_relations_sub _ _ _ _ Hk)); congruence).
    destruct (guarded_drop_kept pg (Instance_name cfg) x cutoff (db_of p) d r) as (H1 & H2 & H3); try done.
    split; [|done]. by transitivity (db_of p). }
  assert (Hd : kept (Instance_name cfg) cutoff base d /\ well_formed (data d) /\
    (dropped + size (relations d) <= size (relations base))%nat).
  { destruct Heff as [->|[->|Hg]]; [done..|]. destruct (Hguard Hg) as (? & ? & ?). split_and!; [done..|lia]. }
  destruct answer as [n|f].
  - apply IH; cbn [db_of]; [apply Hd..|]. destruct (Hok n eq_refl) as [Hg _]. destruct (Hguard Hg) as (_ & _ & ?). lia.
  - destruct (readsAsAlreadyGone f).
    + destruct (noLongerCovered _ _ _ _ _ _ _) as [gone d'] eqn:Eg. apply noLongerCovered_effect in Eg as ->.
      rewrite alone. destruct gone; apply IH; cbn [db_of]; apply Hd.
    + apply IH; cbn [db_of]; apply Hd.
Qed.

(** C1. Retention never loses an event that is still owed. Whatever its statements, its commits and
    its observation answer, one pass by a single replica at [now] removes no event at or after
    [now - keep], no event any pending or delivering queue row still points at, and no queue row
    but dead rows older than that; it removes no table but this instance's own marked ranges ending
    by then -- never the DEFAULT partition, nor a table merely named like one -- counts no drop that
    did not happen, and leaves the queue consistent with the log. *)
Theorem ApplyRetention_keeps st db res err st' db' :
  0 <= Keep (retention cfg) <= max_int64 -> sound_catalog (Schema cfg) db -> well_formed (data db) ->
  ApplyRetention pg Sanitize cfg lock_timeout serving st db = Some (res, err, st', db') ->
  let cutoff := server_now (serving 0%nat) - Keep (retention cfg) in
  kept (Instance_name cfg) cutoff db db' /\ well_formed (data db') /\
  (Dropped res + size (relations db') <= size (relations db))%nat.
Proof.
  intros Hkeep Hsc Hwf H cutoff. unfold ApplyRetention in H.
  destruct (observe _ _ _ _ _ _) as [answer d] eqn:Eo. apply observe_effect in Eo as [-> Hseen]. rewrite alone in *.
  destruct answer as [seen|f]; [|injection H as <- <- <- <-; by split_and!].
  destruct (Hseen seen eq_refl) as (Hnow & found & Hfound & Hparts).
  destruct (PlanMaintenance _ _ _) as [plan|] eqn:Ep; [|done]. cbn [mbind option_bind] in H.
  destruct (dropExpired _ _ _ _ _ _ _ _ _) as [[dropped refusals] p] eqn:Ed. injection H as <- <- <- <-.
  cbn [Dropped]. eapply dropExpired_kept in Ed; [exact Ed|done|exact Hwf|cbn; lia|].
  apply Forall_forall. intros x Hx. unfold PlanMaintenance in Ep.
  destruct (RequiredRanges _ _); [|done]. injection Ep as <-. cbn [Drop_] in Hx.
  apply elem_of_expired in Hx as (Hx & _ & Hcut). rewrite wrap64_id in Hcut by (unfold_int; lia).
  rewrite Hparts in Hx. apply (observePartitions_spec pg laws (serving 0%nat) (Schema cfg) db found) in Hx as (r & Hr & Ha & _); try done.
  destruct (sc_ranges _ _ Hsc _ _ _ _ Hr Ha) as (_ & ? & ?).
  split_and!; [by exists r|done|done|unfold cutoff; lia].
Qed.

(** *** The creating pass *)

(** The table one create leaves: attached over the bounds as kept, marked as this instance's. *)
Definition new_partition (x : Range) : relation :=
  Relation (Some (RangeBound (stored pg (From_ x)) (stored pg (To_ x))))
           (Some (marker_text partitionMarkerForm (Instance_name cfg))).

Lemma create_partition_Ok name from to db db' :
  create_partition pg name from to db = Ok db' ->
  relations db !! name = None /\
  db' = with_relations db (<[name := Relation (Some (RangeBound (stored pg from) (stored pg to))) None]> (relations db)) /\
  stored pg from < stored pg to /\ existsb (overlaps (stored pg from) (stored pg to)) (bounds db) = false.
Proof.
  unfold create_partition. case_bool_decide as Hn; [done|].
  destruct (Z.ltb_spec (stored pg from) (stored pg to)); [|done]. cbn [negb].
  destruct (existsb _ _) eqn:E; [done|]. destruct (existsb _ _) in |- *; [done|]. intros [= <-].
  split_and!; try done. by apply eq_None_not_Some.
Qed.

Lemma claimMarker_Ok s marked db db' :
  claimMarker pg s marked db = Ok db' ->
  exists r, relations db !! relname marked = Some r /\
    db' = with_relations db (<[relname marked :=
      Relation (attached r) (Some (marker_text (form marked) (Catalog.instance marked)))]> (relations db)).
Proof.
  unfold claimMarker. intros H. peel. unfold comment_on in H.
  destruct (relations db !! relname marked) as [r|]; [|done]. injection H as <-. by exists r.
Qed.

Lemma createOne_effect s x db answer db' :
  createOne pg Sanitize cfg lock_timeout s x db = (answer, db') ->
  db' = db \/ db' = others s db \/
  (relations (others s db) !! Name x = None /\
   db' = with_relations (others s db) (<[Name x := new_partition x]> (relations (others s db)))).
Proof.
  unfold createOne. destruct (partitionObject _ _ _ _) as [marked|] eqn:Em; [|intros [= <- <-]; by left].
  destruct (Qualified _ _ _); [|intros [= <- <-]; by left]. intros H.
  pose proof (boundedTx_effect s lock_timeout (DdlSubject (creatingWork ++ Name x) (Name x))
    (λ db, (let! _ := round_trip s CCreate in
            let! db := create_partition pg (Name x) (From_ x) (To_ x) db in
            let! db := claimMarker pg s marked db in
            Ok (tt, db))%res) db) as He.
  rewrite H in He. cbn [snd] in He. destruct He as [?|(u & He & _)]; [by right; left|].
  right; right. unfold partitionObject in Em. destruct (Qualified _ _ (Name x)); [|done]. injection Em as <-.
  peel. match goal with H : create_partition _ _ _ _ _ = _ |- _ => apply create_partition_Ok in H as (Hn & -> & _) end.
  match goal with H : claimMarker _ _ _ _ = _ |- _ => apply claimMarker_Ok in H as (r & Hr & ->) end.
  cbn [relname relations with_relations] in *. rewrite lookup_insert_eq in Hr. injection Hr as <-.
  split; [done|]. unfold with_relations. cbn. by rewrite insert_insert_eq.
Qed.

(** What a creating pass may do to a database: attach marked tables for wanted ranges under free names. *)
Record only_creates (wanted : list Range) (db db' : database) : Prop := {
  oc_data : data db' = data db;
  oc_elsewhere : elsewhere db' = elsewhere db;
  oc_relations n r : relations db !! n = Some r -> relations db' !! n = Some r;
  oc_new n r : relations db' !! n = Some r -> relations db !! n = None ->
    exists x, x ∈ wanted /\ n = Name x /\ r = new_partition x
}.

Lemma covers_effect s x db covered db' :
  covers pg cfg lock_timeout s x db = (covered, db') -> db' = others s db.
Proof.
  unfold covers. destruct (boundedTx _ _ _ _ _) as [a d] eqn:Et. intros [= _ <-].
  eapply boundedTx_read; [|exact Et]. intros db0 a0 db1 H. cbv beta in H. by peel.
Qed.

Lemma converge_only_creates base all wanted created refusals p created' refusals' p' :
  only_creates all base (db_of p) -> (forall x, x ∈ wanted -> x ∈ all) ->
  converge pg Sanitize cfg lock_timeout serving wanted created refusals p = (created', refusals', p') ->
  only_creates all base (db_of p').
Proof.
  revert created refusals p. induction wanted as [|x wanted IH]; intros created refusals p Hoc Hin; cbn [converge];
    [intros H; by simplify_eq|].
  destruct (createOne _ _ _ _ _ _ _) as [answer d] eqn:Ed. apply createOne_effect in Ed. rewrite alone in Ed.
  assert (Hd : only_creates all base d).
  { destruct Ed as [->|[->|[Hfree ->]]]; [done..|]. destruct Hoc as [H1 H2 H3 H4]. split; cbn; try done.
    - intros n r Hr. rewrite lookup_insert_ne; [by apply H3|]. intros <-. rewrite (H3 _ _ Hr) in Hfree. done.
    - intros n r. destruct (decide (n = Name x)) as [->|Hne].
      + rewrite lookup_insert_eq. intros [= <-] _. exists x. split_and!; try done. apply Hin. by left.
      + rewrite lookup_insert_ne by done. apply H4. }
  assert (Hin' : forall y, y ∈ wanted -> y ∈ all) by (intros y Hy; apply Hin; by right).
  destruct answer as [u|f]; [by apply IH|].
  destruct (covers _ _ _ _ _ _) as [c d'] eqn:Ec. apply covers_effect in Ec as ->. rewrite alone.
  destruct c; by apply IH.
Qed.

(** A creating pass moves no row and drops nothing, on every path: whatever fails, the event log,
    the queue and the deliveries are the ones it met -- rows in the DEFAULT partition are counted and
    never moved -- every table it met is as it was, and any table it added is attached for a required
    range that was missing, under a name that was free, and carries this instance's marker. *)
Theorem Maintain_only_creates st db res err st' db' :
  Maintain pg Sanitize cfg lock_timeout serving st db = Some (res, err, st', db') ->
  exists wanted, only_creates wanted db db' /\ (Dropped res = 0)%nat /\
    (wanted = [] \/ exists L found, RequiredRanges (server_now (serving 0%nat)) (retention cfg) = Some L /\
       observePartitions pg (serving 0%nat) (Schema cfg) db = Ok found /\
       wanted = rangesNotYetObserved L (Bounded found)).
Proof.
  assert (Hrefl : only_creates [] db db) by (split; try done; congruence).
  unfold Maintain. destruct (unservableHorizonIn _) as [[refusal|]|]; [|..]; cbn [mbind option_bind]; [| |done].
  { intros [= <- <- <- <-]. exists []. by split_and!; [|done|left]. }
  destruct (observe _ _ _ _ _ _) as [answer d] eqn:Eo. apply observe_effect in Eo as [-> Hseen]. rewrite alone in *.
  destruct answer as [seen|f]; [|intros [= <- <- <- <-]; exists []; by split_and!; [|done|left]].
  destruct (Hseen seen eq_refl) as (Hnow & found & Hfound & Hparts).
  unfold PlanMaintenance. rewrite Hnow. destruct (RequiredRanges _ _) as [L|] eqn:EL; [|done]. cbn [mbind option_bind Create].
  destruct (converge _ _ _ _ _ _ _ _ _) as [[created refusals] p] eqn:Ec. intros [= <- <- <- <-].
  exists (rangesNotYetObserved L (partitions seen)). split_and!; [|done|].
  - eapply (converge_only_creates db _ _ _ _ _ _ _ _); [|by intros x Hx; exact Hx|exact Ec]. split; cbn; try done. congruence.
  - right. exists L, found. by rewrite Hparts.
Qed.

(** *** When nothing fails *)

(** A session in which no call fails and nothing vanishes. *)
Record smooth (s : tx_session) : Prop := {
  sm_calls c : call_fails s c = None;
  sm_vanishing : vanishing s = ∅
}.

Lemma boundedTx_smooth {A} s about (work : database -> result tx_error (A * database)) db a db' :
  smooth s -> work (others s db) = Ok (a, db') -> boundedTx s lock_timeout about work db = (Ok a, db').
Proof. intros [Hs _] Hw. unfold boundedTx, round_trip. rewrite !Hs. cbn [rbind]. by rewrite Hw. Qed.

(** The server would accept a partition for [x]: its name is free, nothing overlaps it, and no row of
    the event log -- which would be in the DEFAULT partition -- falls in it. *)
Record room (db : database) (x : Range) : Prop := {
  room_name : relations db !! Name x = None;
  room_usable : WhyUnusable (Name x) = IdentifierOK;
  room_extent : From_ x < To_ x /\ micro (From_ x) /\ micro (To_ x);
  room_bounds b : b ∈ bounds db -> overlaps (From_ x) (To_ x) b = false;
  room_rows id t : is_Some (events (data db) !! (id, t)) -> ~ holds x t
}.

Lemma Qualified_usable name :
  WhyUnusable (Schema cfg) = IdentifierOK -> WhyUnusable name = IdentifierOK ->
  exists q, Qualified Sanitize (Schema cfg) name = Ok q.
Proof. intros H1 H2. unfold Qualified. rewrite H1, H2. eauto. Qed.

Lemma existsb_false {B} (f : B -> bool) l : (forall x, x ∈ l -> f x = false) -> existsb f l = false.
Proof.
  intros H. apply not_true_is_false. intros (x & Hin & Hx)%existsb_exists.
  apply list_elem_of_In in Hin. rewrite H in Hx by done. done.
Qed.

Lemma createOne_smooth s x db :
  smooth s -> others s db = db -> WhyUnusable (Schema cfg) = IdentifierOK -> room db x ->
  createOne pg Sanitize cfg lock_timeout s x db =
    (Ok tt, with_relations db (<[Name x := new_partition x]> (relations db))).
Proof.
  intros Hs Ho Hsch [Hn Hu (Hlt & Hmf & Hmt) Hb Hrows]. unfold createOne, partitionObject.
  destruct (Qualified_usable (Name x) Hsch Hu) as [q ->].
  destruct (Qualified_usable TableEvents Hsch ltac:(done)) as [q' ->].
  apply boundedTx_smooth; [done|]. rewrite Ho. unfold create_partition, claimMarker, round_trip.
  rewrite !(sm_calls s Hs). cbn [rbind].
  unfold new_partition. rewrite !(proj2 (law_stored pg laws _)) by done.
  rewrite bool_decide_eq_false_2 by (rewrite Hn; by intros []).
  rewrite (proj2 (Z.ltb_lt _ _)) by done. cbn [negb].
  rewrite (existsb_false (overlaps _ _)) by done.
  rewrite (existsb_false (λ p, bound_covers _ _)).
  - cbn [rbind]. unfold comment_on. cbn [relations with_relations relname]. rewrite lookup_insert_eq.
    cbn [rbind]. unfold with_relations. cbn. by rewrite insert_insert_eq.
  - intros [[id t] e] Hin%elem_of_map_to_list. cbn [fst snd]. apply not_true_is_false.
    cbn [bound_covers]. rewrite andb_true_iff, Z.leb_le, Z.ltb_lt. apply (Hrows id t). by exists e.
Qed.

Definition with_partition (x : Range) (db : database) : database :=
  with_relations db (<[Name x := new_partition x]> (relations db)).

Lemma elem_of_bounds db b :
  b ∈ bounds db <-> (exists n r, relations db !! n = Some r /\ attached r = Some b) \/ b ∈ map snd (elsewhere db).
Proof.
  unfold bounds. rewrite elem_of_app, list_elem_of_omap. split; intros [H|H]; try by right.
  - left. destruct H as ([n r] & Hin & Ha). exists n, r. by apply elem_of_map_to_list in Hin.
  - left. destruct H as (n & r & Hin & Ha). exists (n, r). by rewrite elem_of_map_to_list.
Qed.

Lemma room_after db x y :
  room db x -> room db y -> Name x <> Name y -> (forall t, ~ (holds x t /\ holds y t)) ->
  room (with_partition y db) x.
Proof.
  intros [Hn Hu He Hb Hr] [_ _ (Hlt & Hmf & Hmt) _ _] Hne Hdis. split; try done.
  - cbn. by rewrite lookup_insert_ne by congruence.
  - intros b [(n & r & Hl & Ha)|Hin]%elem_of_bounds; [|apply Hb, elem_of_bounds; by right].
    cbn in Hl. destruct (decide (n = Name y)) as [->|Hn'].
    + rewrite lookup_insert_eq in Hl. injection Hl as <-. cbn in Ha. injection Ha as <-.
      rewrite !(proj2 (law_stored pg laws _)) by done.
      destruct He as (Hlx & _). apply not_true_is_false. cbn [overlaps]. rewrite andb_true_iff, !Z.ltb_lt. intros [H1 H2].
      apply (Hdis (Z.max (From_ x) (From_ y))). unfold holds. lia.
    + rewrite lookup_insert_ne in Hl by congruence. apply Hb, elem_of_bounds. left. by exists n, r.
Qed.

Context (all_smooth : forall k, smooth (serving k)).

(** With room for every wanted range, each is created and nothing is refused. *)
Lemma converge_smooth wanted created refusals p :
  WhyUnusable (Schema cfg) = IdentifierOK -> NoDup wanted -> Forall (room (db_of p)) wanted ->
  (forall x y, x ∈ wanted -> y ∈ wanted -> x <> y -> Name x <> Name y /\ forall t, ~ (holds x t /\ holds y t)) ->
  exists k, converge pg Sanitize cfg lock_timeout serving wanted created refusals p =
    ((created + length wanted)%nat, refusals, Progress k (stats p) (foldl (λ db x, with_partition x db) (db_of p) wanted)).
Proof.
  intros Hsch. revert created p. induction wanted as [|x wanted IH]; intros created p Hnd Hroom Hdis; cbn [converge].
  - exists (tx p). rewrite Nat.add_0_r. by destruct p.
  - apply NoDup_cons in Hnd as [Hx Hnd]. apply Forall_cons in Hroom as [Hrx Hroom].
    rewrite (createOne_smooth (serving (tx p)) x (db_of p)) by done. fold (with_partition x (db_of p)).
    destruct (IH (S created) (Progress (S (tx p)) (stats p) (with_partition x (db_of p)))) as [k Hk]; cbn [db_of].
    + done.
    + apply Forall_forall. intros y Hy. rewrite Forall_forall in Hroom.
      assert (y <> x) by congruence.
      destruct (Hdis y x) as [Hn Hd]; [by right|by left|done|]. apply room_after; try done. by apply Hroom.
    + intros y z Hy Hz. apply Hdis; by right.
    + exists k. rewrite Hk. cbn [stats length]. f_equal. f_equal. lia.
Qed.

Lemma foldl_with_partition wanted db :
  let db' := foldl (λ db x, with_partition x db) db wanted in
  data db' = data db /\ elsewhere db' = elsewhere db /\
  (NoDup (map Name wanted) -> forall x, x ∈ wanted -> relations db' !! Name x = Some (new_partition x)) /\
  (forall n, n ∉ map Name wanted -> relations db' !! n = relations db !! n).
Proof.
  revert db. induction wanted as [|y wanted IH]; intros db; cbn.
  { split_and!; try done. by intros _ x Hx%elem_of_nil. }
  destruct (IH (with_partition y db)) as (H1 & H2 & H3 & H4). split_and!; try done.
  - intros [Hy Hnd]%NoDup_cons x [->|Hx]%elem_of_cons; [|by apply H3].
    rewrite H4 by done. cbn. by rewrite lookup_insert_eq.
  - intros n [Hn Hn']%not_elem_of_cons. rewrite H4 by done. cbn. by rewrite lookup_insert_ne.
Qed.

(** The configuration can be served, the schema's DEFAULT partition is in place, and every required
    range is either attached already or has room. *)
Record ready (db : database) : Prop := {
  rd_schema : WhyUnusable (Schema cfg) = IdentifierOK;
  rd_sound : sound_catalog (Schema cfg) db;
  rd_here : elsewhere db = [];
  rd_default : exists r, relations db !! PartitionDefault = Some r /\ attached r = Some DefaultBound;
  rd_one_default n r : relations db !! n = Some r -> attached r = Some DefaultBound -> n = PartitionDefault;
  rd_grid : on_grid (server_now (serving 0%nat)) (retention cfg);
  rd_servable : unservableHorizonIn (retention cfg) = Some None;
  rd_required L x : RequiredRanges (server_now (serving 0%nat)) (retention cfg) = Some L -> x ∈ L ->
    (exists n r, relations db !! n = Some r /\ attached r = Some (RangeBound (From_ x) (To_ x))) \/ room db x
}.

(** An observing transaction of a smooth pass. *)
Lemma observe_smooth k db :
  ready db -> exists seen found, observe pg Sanitize cfg lock_timeout (serving k) db = (Ok seen, db) /\
    now seen = server_now (serving k) /\ partitions seen = Bounded found /\
    observePartitions pg (serving k) (Schema cfg) db = Ok found.
Proof.
  intros [Hsch Hsc He (r & Hr & Ha) Hone _ _ _]. destruct (all_smooth k) as [Hc Hv].
  destruct (observePartitions_total pg laws (serving k) (Schema cfg) db Hsc He (Hc _)) as [found Hf].
  pose proof (observePartitions_default pg laws (serving k) (Schema cfg) db found r He Hv Hr Ha Hone Hf) as Hd.
  destruct (Qualified_usable PartitionDefault Hsch ltac:(done)) as [q Hq].
  exists (Observation (server_now (serving k)) (Bounded found)
    (Z.of_nat (size (filter (λ p, routed db DefaultBound (snd (fst p)) = true) (events (data db)))))), found.
  split; [|done]. unfold observe. erewrite boundedTx_smooth; [reflexivity|done|]. rewrite alone.
  unfold dbNow, defaultPartitionRows, finished_trip, round_trip. rewrite Hc. cbn [rbind]. rewrite Hf. cbn [rbind].
  rewrite Hd, Hq, Hc. cbn [rbind]. rewrite Hr. cbn [rbind]. by rewrite Ha.
Qed.

(** Every range is attached, whatever its table is called. *)
Definition all_attached (db : database) (L : list Range) : Prop :=
  forall x, x ∈ L -> exists n r, relations db !! n = Some r /\ attached r = Some (RangeBound (From_ x) (To_ x)).

(** An observation of a ready database finds the extents that are attached. *)
Lemma observed_extent k db found x :
  ready db -> observePartitions pg (serving k) (Schema cfg) db = Ok found ->
  extent_in x (Bounded found) <->
  exists n r, relations db !! n = Some r /\ attached r = Some (RangeBound (From_ x) (To_ x)).
Proof.
  intros Hr Hf. destruct (observePartitions_spec pg laws _ _ _ _ (rd_sound db Hr) Hf) as [_ Hb].
  destruct (all_smooth k) as [_ Hv]. split.
  - intros (y & Hy & -> & ->). apply Hb in Hy as (r & Hl & Ha & _). by exists (Name y), r.
  - intros (n & r & Hl & Ha). exists (MkRange (From_ x) (To_ x) n). split; [|done]. apply Hb. exists r.
    rewrite Hv. split_and!; [done|done|set_solver].
Qed.

(** A pass over a ready database, in terms of the ranges that are missing. *)
Lemma Maintain_ready st db L :
  ready db -> RequiredRanges (server_now (serving 0%nat)) (retention cfg) = Some L ->
  exists wanted st',
    (forall x, x ∈ wanted <-> x ∈ L /\ ~ (exists n r, relations db !! n = Some r /\
                                        attached r = Some (RangeBound (From_ x) (To_ x)))) /\
    NoDup wanted /\ Forall (room db) wanted /\ failures st' = failures st /\
    Maintain pg Sanitize cfg lock_timeout serving st db =
      Some (MkResult (outcomeOf (length wanted) 0) (length wanted) 0, None, st',
            foldl (λ db x, with_partition x db) db wanted).
Proof.
  intros Hr HL. destruct (observe_smooth 0 db Hr) as (seen & found & Ho & Hnow & Hp & Hf).
  set (wanted := rangesNotYetObserved L (Bounded found)).
  assert (Hw : forall x, x ∈ wanted <-> x ∈ L /\ ~ (exists n r, relations db !! n = Some r /\
                                        attached r = Some (RangeBound (From_ x) (To_ x)))).
  { intros x. unfold wanted. by rewrite elem_of_missing, observed_extent. }
  assert (Hnd : NoDup wanted) by (apply NoDup_filter; eapply required_NoDup; [apply Hr|exact HL]).
  assert (Hroom : Forall (room db) wanted).
  { apply Forall_forall. intros x [Hx Hn]%Hw. by destruct (rd_required db Hr L x HL Hx). }
  exists wanted. eexists. split_and!; [exact Hw|exact Hnd|exact Hroom| |]; cycle 1.
  - unfold Maintain. rewrite (rd_servable db Hr). cbn [mbind option_bind]. rewrite Ho, Hnow, Hp.
    unfold PlanMaintenance. rewrite HL. cbn [mbind option_bind Create]. fold wanted.
    destruct (converge_smooth wanted 0 [] (Progress 1 (StoreDefaultPartitionRows (defaultRows seen) st) db)) as [k Hk].
    + apply Hr.
    + exact Hnd.
    + exact Hroom.
    + intros x y [Hx _]%Hw [Hy _]%Hw Hne. split.
      * intros Hname. apply Hne. by eapply (required_names _ _ L x y (rd_grid db Hr)).
      * destruct (grid_ranges_meet _ _ L _ _ L x y (rd_grid db Hr) (rd_grid db Hr) eq_refl HL HL Hx Hy); done.
    + rewrite Hk. cbn. reflexivity.
  - done.
Qed.

Lemma wanted_names db L wanted (P : Range -> Prop) :
  ready db -> RequiredRanges (server_now (serving 0%nat)) (retention cfg) = Some L ->
  (forall x, x ∈ wanted <-> x ∈ L /\ P x) -> NoDup wanted -> NoDup (map Name wanted).
Proof.
  intros Hr HL Hw Hnd. apply NoDup_fmap_2_strong; [|done]. intros x y [Hx _]%Hw [Hy _]%Hw.
  by eapply required_names; [apply Hr|exact HL|..].
Qed.

(** Creating the missing ranges of a ready database leaves it ready, with every required range attached. *)
Lemma ready_after db L wanted :
  ready db -> RequiredRanges (server_now (serving 0%nat)) (retention cfg) = Some L ->
  (forall x, x ∈ wanted <-> x ∈ L /\ ~ (exists n r, relations db !! n = Some r /\
                                        attached r = Some (RangeBound (From_ x) (To_ x)))) ->
  NoDup wanted -> Forall (room db) wanted ->
  let db' := foldl (λ db x, with_partition x db) db wanted in
  ready db' /\ all_attached db' L /\ data db' = data db.
Proof.
  intros Hr HL Hw Hnd Hroom db'. destruct (foldl_with_partition wanted db) as (Hd & He & Hnew & Hold).
  fold db' in Hd, He, Hnew, Hold. rewrite Forall_forall in Hroom.
  assert (Hnames : NoDup (map Name wanted)) by exact (wanted_names db L wanted _ Hr HL Hw Hnd).
  specialize (Hnew Hnames).
  assert (Hcase : forall n r, relations db' !! n = Some r ->
    relations db !! n = Some r \/ exists x, x ∈ wanted /\ n = Name x /\ r = new_partition x).
  { intros n r Hn. destruct (decide (n ∈ map Name wanted)) as [(x & -> & Hx)%list_elem_of_fmap|Hn'].
    - right. exists x. rewrite (Hnew x Hx) in Hn. by injection Hn as <-.
    - left. by rewrite <- Hold. }
  assert (Hkeep : forall n r, relations db !! n = Some r -> relations db' !! n = Some r).
  { intros n r Hn. rewrite Hold; [done|]. intros (x & -> & Hx)%list_elem_of_fmap.
    by rewrite (room_name _ _ (Hroom x Hx)) in Hn. }
  assert (Hstored : forall x, x ∈ wanted -> attached (new_partition x) = Some (RangeBound (From_ x) (To_ x))).
  { intros x Hx. destruct (room_extent _ _ (Hroom x Hx)) as (_ & ? & ?). cbn.
    by rewrite !(proj2 (law_stored pg laws _)) by done. }
  assert (Hall : all_attached db' L).
  { intros x Hx. destruct (rd_required db Hr L x HL Hx) as [(n & r & Hn & Ha)|Hrx].
    - exists n, r. auto.
    - destruct (decide (x ∈ wanted)) as [Hin|Hout].
      + exists (Name x), (new_partition x). auto.
      + exfalso. apply Hout, Hw. split; [done|]. intros (n & r & Hn & Ha).
        pose proof (room_bounds _ _ Hrx (RangeBound (From_ x) (To_ x))) as Ho.
        destruct (room_extent _ _ Hrx) as (Hlt & _). cbn [overlaps] in Ho.
        rewrite (proj2 (Z.ltb_lt _ _) Hlt) in Ho. cbn in Ho. specialize (Ho ltac:(apply elem_of_bounds; left; by exists n, r)). done. }
  split; [|done]. destruct Hr as [Hsch [Hsr Hse] Hhere (rd & Hrd & Had) Hone Hg Hs Hreq]. split; try done.
  - split.
    + intros n r f u Hn Ha. destruct (Hcase n r Hn) as [Ho|(x & Hx & -> & ->)]; [by eapply Hsr|].
      rewrite (Hstored x Hx) in Ha. injection Ha as <- <-. apply (room_extent _ _ (Hroom x Hx)).
    + rewrite He. exact Hse.
  - by rewrite He.
  - exists rd. auto.
  - intros n r Hn Ha. destruct (Hcase n r Hn) as [Ho|(x & Hx & -> & ->)]; [by eapply Hone|].
    by rewrite (Hstored x Hx) in Ha.
  - intros L' x HL' Hx. rewrite HL in HL'. injection HL' as <-. left. by apply Hall.
Qed.

(** C17. One pass is enough and a second does nothing, where the pass runs alone and nothing fails:
    nobody else acts on the database during it, no call fails, nothing it lists vanishes, and the second
    pass reads the same clock. Where, besides, the configuration can be served, the DEFAULT partition is
    the only default, the event log has no partition in another schema, and every required range is
    attached already or has room -- a free name, no overlap, no row of it in the DEFAULT partition -- a
    pass creates exactly the required ranges that are not attached, each once, as a table attached over
    the range's bounds and carrying this instance's marker, and answers how many; every other table, and
    every row, is as it was; no error and no failure is reported; and every required range is attached,
    so that the shortfall the boot gates on reads zero; a second pass changes nothing and says so. *)
Theorem Maintain_converges st db L :
  ready db -> RequiredRanges (server_now (serving 0%nat)) (retention cfg) = Some L ->
  exists missing st1 db1,
    NoDup (map Name missing) /\
    (forall x, x ∈ missing <-> x ∈ L /\
       ~ exists n r, relations db !! n = Some r /\ attached r = Some (RangeBound (From_ x) (To_ x))) /\
    Maintain pg Sanitize cfg lock_timeout serving st db =
      Some (MkResult match missing with [] => OutcomeNothingNeeded | _ => OutcomeWorkDone end (length missing) 0,
            None, st1, db1) /\
    failures st1 = failures st /\ data db1 = data db /\ elsewhere db1 = elsewhere db /\
    (forall x, x ∈ missing -> relations db !! Name x = None /\
       relations db1 !! Name x =
         Some (Relation (Some (RangeBound (From_ x) (To_ x)))
                 (Some (marker_text partitionMarkerForm (Instance_name cfg))))) /\
    (forall n, n ∉ map Name missing -> relations db1 !! n = relations db !! n) /\
    all_attached db1 L /\
    (exists found, observePartitions pg (serving 0%nat) (Schema cfg) db1 = Ok found /\
       CoverageShortfall (Bounded found) (server_now (serving 0%nat)) (Precreate (retention cfg)) = 0) /\
    (forall st2, exists st3, Maintain pg Sanitize cfg lock_timeout serving st2 db1 =
       Some (MkResult OutcomeNothingNeeded 0 0, None, st3, db1)).
Proof.
  intros Hr HL. destruct (Maintain_ready st db L Hr HL) as (wanted & st1 & Hw & Hnd & Hroom & Hf & HM).
  destruct (ready_after db L wanted Hr HL Hw Hnd Hroom) as (Hr1 & Hall & Hd).
  destruct (foldl_with_partition wanted db) as (_ & He & Hnew & Hold).
  assert (Hnames : NoDup (map Name wanted)) by exact (wanted_names db L wanted _ Hr HL Hw Hnd).
  set (db1 := foldl _ db wanted) in *. rewrite Forall_forall in Hroom.
  exists wanted, st1, db1. split_and!; try done.
  - rewrite HM. unfold outcomeOf. by destruct wanted.
  - intros x Hx. destruct (Hroom x Hx) as [Hn _ (_ & ? & ?) _ _]. split; [done|].
    rewrite (Hnew Hnames x Hx). unfold new_partition. by rewrite !(proj2 (law_stored pg laws _)) by done.
  - destruct (observe_smooth 0 db1 Hr1) as (_ & found & _ & _ & _ & Hfound). exists found. split; [done|].
    apply shortfall_zero. intros t Ht.
    destruct (required_holds _ _ L t (rd_grid db Hr) HL) as (x & Hx & Hh); [lia|].
    destruct (proj2 (observed_extent 0 db1 found x Hr1 Hfound) (Hall x Hx)) as (y & Hy & Hfy & Hty).
    exists y. split; [done|]. unfold holds in *. lia.
  - intros st2. destruct (Maintain_ready st2 db1 L Hr1 HL) as (wanted2 & st3 & Hw2 & _ & _ & _ & HM2).
    destruct wanted2 as [|x wanted2]; [by exists st3|]. exfalso.
    destruct (proj1 (Hw2 x) ltac:(by left)) as [Hx Hn]. apply Hn. by apply Hall.
Qed.

End passes.

(** ** Witnesses *)

Definition sample_config : config :=
  Config (bs "noty") (bs "eu") (MkRetention one_hour one_hour (2 * one_hour)).
Definition our_comment : option gostring := Some (marker_text partitionMarkerForm (bs "eu")).

(** The DEFAULT partition, and the first hour of the epoch attached and marked; one event in it, which
    a dead queue row points at. *)
Definition dead_row : queue_row := QueueRow 5000 (bs "orders") dead 3 7 None None (Some (bs "gone")).
Definition sample_db : database :=
  Database {[ PartitionDefault := Relation (Some DefaultBound) None;
              rangeName 0 one_hour := Relation (Some (RangeBound 0 one_hour)) our_comment ]} []
    (Tables {[ (1, 5000) := EventRow (bs "orders") (bs "public.orders") (bs "insert") (bs "{}") 9 ]}
            {[ 1 := dead_row ]} ∅ 2).
Definition zero_stats : MaintenanceStats := Stats 0 0 0 0.

(** A decidable form of the catalog's well-formedness. *)
Definition sound_relation (r : relation) : bool :=
  match attached r with
  | Some (RangeBound f u) =>
      (f <? u) && (f mod storedInstantGranularity =? 0) && (u mod storedInstantGranularity =? 0)
  | _ => true
  end.
Lemma sound_catalog_dec schema db :
  map_Forall (λ _ r, sound_relation r = true) (relations db) -> elsewhere db = [] -> sound_catalog schema db.
Proof.
  intros Hall He. split.
  - intros n r f u Hr Ha. specialize (Hall n r Hr). unfold sound_relation in Hall. rewrite Ha in Hall.
    bool_to_prop. done.
  - intros n w b. rewrite He. by intros []%elem_of_nil.
Qed.

Lemma sample_sound : sound_catalog (Schema sample_config) sample_db.
Proof. apply sound_catalog_dec; [by_compute|done]. Qed.

Lemma sample_well_formed : well_formed (data sample_db).
Proof.
  split; [split|..].
  - intros id [q Hq]. cbn in Hq. apply lookup_singleton_Some in Hq as [<- _]. cbn. lia.
  - intros id t [e He]. cbn in He. apply lookup_singleton_Some in He as [[= <- <-] _]. cbn. lia.
  - intros id q Hq. cbn in Hq. apply lookup_singleton_Some in Hq as [_ <-].
    split; [by cbn|]. split; [by intros [=]|]. split; [done|]. by exists (bs "gone").
  - intros id q Hq. cbn in Hq. apply lookup_singleton_Some in Hq as [<- <-]. cbn.
    rewrite lookup_singleton_eq. by eexists.
Qed.

Definition at_hour (h : Z) (k : nat) : tx_session := quiet_tx (h * one_hour).

Definition expired_hour : Range := MkRange 0 one_hour (rangeName 0 one_hour).

Lemma dropOne_guarded_witness :
  let out := dropOne sample_server documented_Sanitize sample_config 0 (quiet_tx 7) expired_hour sample_db in
  fst out = Ok 1 /\
  guarded_drop sample_server (bs "eu") (rangeName 0 one_hour) 0 one_hour sample_db (snd out).
Proof.
  intros out. assert (Hok : fst out = Ok 1) by (vm_compute; reflexivity). split; [exact Hok|].
  destruct (dropOne_guarded sample_server documented_Sanitize sample_config 0 (quiet_tx 7) expired_hour sample_db
    (fst out) (snd out) (surjective_pairing out)) as [_ H]. exact (proj1 (H 1 Hok)).
Defined.

(** At the third hour, with one hour kept, the first hour goes with its dead row. *)
Lemma ApplyRetention_keeps_witness :
  exists res err st' db',
    ApplyRetention sample_server documented_Sanitize sample_config 0 (at_hour 3) zero_stats sample_db
      = Some (res, err, st', db') /\
    Dropped res = 1%nat /\ kept (bs "eu") (2 * one_hour) sample_db db' /\ well_formed (data db').
Proof.
  destruct (ApplyRetention sample_server documented_Sanitize sample_config 0 (at_hour 3) zero_stats sample_db)
    as [[[[res err] st'] db']|] eqn:E.
  - exists res, err, st', db'. split; [reflexivity|]. split.
    + assert (H : option_map (λ r, Dropped (fst (fst (fst r))))
        (ApplyRetention sample_server documented_Sanitize sample_config 0 (at_hour 3) zero_stats sample_db) = Some 1%nat)
        by (vm_compute; reflexivity).
      rewrite E in H. injection H as H. exact H.
    + destruct (ApplyRetention_keeps sample_server documented_Sanitize sample_config 0 sample_server_laws (at_hour 3)
        (λ _ _, eq_refl) zero_stats sample_db res err st' db') as (Hk & Hw & _);
        [vm_compute; split; discriminate|exact sample_sound|exact sample_well_formed|exact E|].
      split; [exact Hk|exact Hw].
  - exfalso. assert (H : match ApplyRetention sample_server documented_Sanitize sample_config 0 (at_hour 3) zero_stats sample_db
      with Some _ => true | None => false end = true) by (vm_compute; reflexivity).
    rewrite E in H. discriminate H.
Defined.

Lemma Maintain_only_creates_witness :
  exists res err st' db' wanted,
    Maintain sample_server documented_Sanitize sample_config 0 (at_hour 3) zero_stats sample_db
      = Some (res, err, st', db') /\ Created res = 3%nat /\
    only_creates sample_server sample_config wanted sample_db db'.
Proof.
  destruct (Maintain sample_server documented_Sanitize sample_config 0 (at_hour 3) zero_stats sample_db)
    as [[[[res err] st'] db']|] eqn:E.
  - destruct (Maintain_only_creates sample_server documented_Sanitize sample_config 0 (at_hour 3)
      (λ _ _, eq_refl) zero_stats sample_db res err st' db' E) as (wanted & Hoc & _).
    exists res, err, st', db', wanted. split; [reflexivity|]. split; [|exact Hoc].
    assert (H : option_map (λ r, Created (fst (fst (fst r))))
      (Maintain sample_server documented_Sanitize sample_config 0 (at_hour 3) zero_stats sample_db) = Some 3%nat)
      by (vm_compute; reflexivity).
    rewrite E in H. injection H as H. exact H.
  - exfalso. assert (H : match Maintain sample_server documented_Sanitize sample_config 0 (at_hour 3) zero_stats sample_db
      with Some _ => true | None => false end = true) by (vm_compute; reflexivity).
    rewrite E in H. discriminate H.
Defined.

Lemma sample_room x : x ∈ default [] (RequiredRanges (3 * one_hour) (retention sample_config)) -> room sample_db x.
Proof.
  intros Hx. assert (Hall : Forall (λ x, relations sample_db !! Name x = None /\ WhyUnusable (Name x) = IdentifierOK /\
      (From_ x < To_ x /\ From_ x mod storedInstantGranularity = 0 /\ To_ x mod storedInstantGranularity = 0) /\
      Forall (λ b, overlaps (From_ x) (To_ x) b = false) (bounds sample_db) /\
      map_Forall (λ k _, ~ (From_ x <= snd k < To_ x)) (events (data sample_db)))
    (default [] (RequiredRanges (3 * one_hour) (retention sample_config)))).
  { by_compute. }
  rewrite Forall_forall in Hall. destruct (Hall x Hx) as (Hn & Hu & He & Hb & Hr).
  split; [exact Hn|exact Hu|exact He|..].
  - rewrite Forall_forall in Hb. exact Hb.
  - intros id t [e Hev]. exact (Hr (id, t) e Hev).
Qed.

Lemma sample_ready : ready sample_config (at_hour 3) sample_db.
Proof.
  split.
  - by_compute.
  - exact sample_sound.
  - reflexivity.
  - exists (Relation (Some DefaultBound) None). split; [vm_compute; reflexivity|reflexivity].
  - assert (H : map_Forall (λ n r, attached r = Some DefaultBound -> n = PartitionDefault) (relations sample_db)) by by_compute.
    exact H.
  - split; vm_compute; try split; try reflexivity; discriminate.
  - vm_compute. reflexivity.
  - intros L x HL Hx. right. apply sample_room. change (server_now (at_hour 3 0)) with (3 * one_hour) in HL.
    rewrite HL. exact Hx.
Qed.

(** A database that holds no range yet: three are created, and the pass says three. *)
Lemma Maintain_converges_witness :
  exists L (missing : list Range) st1 db1,
    RequiredRanges (3 * one_hour) (retention sample_config) = Some L /\ length missing = 3%nat /\
    Maintain sample_server documented_Sanitize sample_config 0 (at_hour 3) zero_stats sample_db =
      Some (MkResult OutcomeWorkDone 3 0, None, st1, db1) /\ all_attached db1 L /\
    exists st3, Maintain sample_server documented_Sanitize sample_config 0 (at_hour 3) st1 db1 =
      Some (MkResult OutcomeNothingNeeded 0 0, None, st3, db1).
Proof.
  destruct (RequiredRanges (3 * one_hour) (retention sample_config)) as [L|] eqn:E; [|vm_compute in E; discriminate E].
  destruct (Maintain_converges sample_server documented_Sanitize sample_config 0 sample_server_laws (at_hour 3)
    (λ _ _, eq_refl) (λ k, Build_smooth (at_hour 3 k) (λ _, eq_refl) eq_refl) zero_stats sample_db L sample_ready E)
    as (missing & st1 & db1 & _ & _ & HM & _ & _ & _ & _ & _ & Hall & _ & Hagain).
  assert (length missing = 3%nat) as Hl.
  { assert (H : option_map (λ r, Created (fst (fst (fst r))))
      (Maintain sample_server documented_Sanitize sample_config 0 (at_hour 3) zero_stats sample_db) = Some 3%nat)
      by (vm_compute; reflexivity).
    rewrite HM in H. injection H as H. exact H. }
  exists L, missing, st1, db1. split; [reflexivity|]. split; [exact Hl|]. split.
  { rewrite HM, Hl. destruct missing; [discriminate Hl|reflexivity]. }
  split; [exact Hall|exact (Hagain st1)].
Defined.
