(* ===== verification/Repair.v ===== *)
(** * The operator's drain of the DEFAULT partition: [internal/schema]'s [repair.go] and
    [repairstatements.go].

    One bounded transaction over the database of [Catalog.v]. It is a READ COMMITTED one: every
    statement sees what others committed before it, so the session also says what they commit to
    the tables before each of the drain's statements up to the one that takes ACCESS EXCLUSIVE on
    the event log. A drain that fails is rolled back; the result then shows its own effect, which is
    none, and not what the others committed meanwhile. *)

From S2P Require Import Prelude Utf8 Quote Queue Partition Catalog Maintain.

Local Open Scope Z_scope.

(** ** repairstatements.go *)

Definition drainingWork : gostring := bs "drain the DEFAULT partition for range ".
Definition holdingSuffix : gostring := bs "_repair".

Definition holdingName (relation : gostring) (ranged : Range) : gostring :=
  ObjectName (relation ++ holdingSuffix) (Name ranged).

Record relocation := Relocation {
  named : gostring; source : gostring; moved_target : gostring; holding : gostring; override : gostring
}.

Definition theDrainedRows : gostring := bs " WHERE occurred_at >= $1 AND occurred_at < $2".
Definition overridingSystemValue : gostring := bs "OVERRIDING SYSTEM VALUE ".

Definition liftStatement (moved : relocation) : gostring :=
  bs "CREATE TABLE " ++ holding moved ++ bs " AS SELECT * FROM " ++ source moved ++ theDrainedRows.
Definition removeStatement (moved : relocation) : gostring := bs "DELETE FROM " ++ source moved ++ theDrainedRows.
Definition restoreStatement (moved : relocation) : gostring :=
  bs "INSERT INTO " ++ moved_target moved ++ bs " " ++ override moved ++ bs "SELECT * FROM " ++ holding moved.
Definition discardStatement (moved : relocation) : gostring := bs "DROP TABLE " ++ holding moved.

Record drain := Drain {
  ranged_ : Range; schema_ : gostring; marked : markedObject; drain_parent : gostring;
  queue : relocation; events_ : relocation
}.

(** What the drain did, in the numbers reported. *)
Record RepairResult := MkRepair {
  Repaired : gostring; Moved : Z; QueueMoved : Z; DefaultRowsBefore : Z; DefaultRowsAfter : Z
}.

Section drain.
Context (pg : server) (Sanitize : list gostring -> gostring).

(** The five names rendered in turn, or the first one that cannot be. *)
Fixpoint rendered_names (schema : gostring) (names : list gostring) : result failure (list gostring) :=
  match names with
  | [] => Ok []
  | name :: rest =>
      match Qualified Sanitize schema name with
      | Err fault =>
          Err (finished (Own (plain (bs "the drain of schema " ++ schema ++ bs " cannot name " ++ name ++ bs ": it " ++
            fault_text fault))))
      | Ok target => (let! more := rendered_names schema rest in Ok (target :: more))%res
      end
  end.

Definition assembled (ranged : Range) (schema : gostring) (marked : markedObject) (rendered : list gostring) : drain :=
  let at_ n := default [] (rendered !! n) in
  Drain ranged schema marked (at_ 0%nat)
    (Relocation TableEventQueue (at_ 2%nat) (at_ 2%nat) (at_ 4%nat) [])
    (Relocation TableEvents (at_ 1%nat) (at_ 0%nat) (at_ 3%nat) overridingSystemValue).

Definition drainFor (cfg : config) (ranged : Range) : result failure drain :=
  if negb (From_ ranged <? To_ ranged) then
    Err (finished (Own (plain (bs "the range " ++ Name ranged ++ bs " given to drain is " ++ extentOf ranged ++
      bs ", which selects no row and describes no partition"))))
  else
    match partitionObject Sanitize (Schema cfg) (Name ranged) (Instance_name cfg) with
    | Err fault =>
        Err (finished (Own (plain (bs "the partition of schema " ++ Schema cfg ++ bs " for " ++ extentOf ranged ++
          bs " cannot be created: the name " ++ Name ranged ++ bs " given for it " ++ fault_text fault))))
    | Ok marked =>
        (let! rendered := rendered_names (Schema cfg)
           [TableEvents; PartitionDefault; TableEventQueue; holdingName TableEvents ranged; holdingName TableEventQueue ranged] in
         Ok (assembled ranged (Schema cfg) marked rendered))%res
    end.

(** The empty reason is "it can be drained". *)
Definition whyUnrepairable (work : drain) (found : observedPartitions) : gostring :=
  if bool_decide (Default found = []) then
    bs "the event log carries no DEFAULT partition, so there is nothing to drain out of"
  else if negb (bool_decide (Default found = PartitionDefault)) then
    bs "the event log's DEFAULT partition is " ++ Default found ++ bs " and this package drains " ++ PartitionDefault
  else if (length (rangesNotYetObserved [ranged_ work] (Bounded found)) =? 0)%nat then
    bs "a partition already covers " ++ extentOf (ranged_ work) ++ bs ", so none of its rows is in the DEFAULT partition"
  else [].

(** ** What its statements do *)

(** [occurred_at >= $1 AND occurred_at < $2] *)
Definition drained (ranged : Range) (t : Z) : bool :=
  (bind_instant pg (From_ ranged) <=? t) && (t <? bind_instant pg (To_ ranged)).

(** The rows of the range in [events_default], and in the queue. *)
Definition default_events (ranged : Range) (db : database) : gmap (Z * Z) event_row :=
  filter (λ p, drained ranged (snd (fst p)) && routed db DefaultBound (snd (fst p)) = true) (events (data db)).
Definition queued_events (ranged : Range) (db : database) : gmap Z queue_row :=
  filter (λ p, drained ranged (occurred_at (snd p)) = true) (event_queue (data db)).

Definition with_events (d : tables) (e : gmap (Z * Z) event_row) : tables :=
  Tables e (event_queue d) (deliveries d) (identity d).

(** [CREATE TABLE name AS SELECT ...] *)
Definition create_holding (name : gostring) (db : database) : result tx_error database :=
  if bool_decide (is_Some (relations db !! name)) then Err (Raw (relation_exists pg name))
  else Ok (with_relations db (<[name := Relation None None]> (relations db))).

(** The foreign key: no queue row may point at an event that is not there. *)
Definition references_hold (e : gmap (Z * Z) event_row) (q : gmap Z queue_row) : bool :=
  forallb (λ p, bool_decide (is_Some (e !! (fst p, occurred_at (snd p))))) (map_to_list q).

(** [DELETE FROM events_default], [DELETE FROM event_queue]: how many went, and what is left. *)
Definition delete_events (ranged : Range) (db : database) : result tx_error (Z * database) :=
  let gone := default_events ranged db in
  let left := events (data db) ∖ gone in
  if references_hold left (event_queue (data db))
  then Ok (Z.of_nat (size gone), with_data db (with_events (data db) left))
  else Err (Raw (constraint_violated pg PartitionDefault)).
Definition delete_queued (ranged : Range) (db : database) : Z * database :=
  let gone := queued_events ranged db in
  (Z.of_nat (size gone), with_data db (with_queue (data db) (event_queue (data db) ∖ gone))).

(** [INSERT INTO ... SELECT * FROM holding] *)
Definition insert_events (held : gmap (Z * Z) event_row) (db : database) : result tx_error (Z * database) :=
  if bool_decide (held ##ₘ events (data db))
  then Ok (Z.of_nat (size held), with_data db (with_events (data db) (held ∪ events (data db))))
  else Err (Raw (constraint_violated pg TableEvents)).
Definition insert_queued (held : gmap Z queue_row) (db : database) : result tx_error (Z * database) :=
  if bool_decide (held ##ₘ event_queue (data db)) && references_hold (events (data db)) held
  then Ok (Z.of_nat (size held), with_data db (with_queue (data db) (held ∪ event_queue (data db))))
  else Err (Raw (constraint_violated pg TableEventQueue)).

(** ** repair.go *)

(** What the others commit to the tables before the drain's n-th statement. *)
Definition disturbed (meanwhile : nat -> tables -> tables) (n : nat) (db : database) : database :=
  with_data db (meanwhile n (data db)).

Definition lift_mismatch (moved : relocation) (held removed : Z) : failure :=
  plain (named moved ++ bs ": " ++ format_int held ++ bs " rows were copied out of " ++ source moved ++ bs " and " ++
         format_int removed ++ bs " were removed from it").

(** [liftedOut], of a relation whose rows and whose DELETE are given: what is held, and how many. *)
Definition liftedOut {R} (s : tx_session) (meanwhile : nat -> tables -> tables) (first : nat) (queued : bool)
    (name : gostring) (moved : relocation) (rows : database -> R) (count : R -> Z)
    (remove : database -> result tx_error (Z * database)) (db : database) : result tx_error (R * Z * database) :=
  (let! _ := round_trip s (CLift queued) in
   let db := disturbed meanwhile first db in
   let held := rows db in
   let! db := create_holding name db in
   let! _ := round_trip s (CRemove queued) in
   let! (removed, db) := remove (disturbed meanwhile (S first) db) in
   if negb (removed =? count held) then Err (Own (finished (Own (lift_mismatch moved (count held) removed))))
   else Ok (held, count held, db))%res.

Definition restore_mismatch (moved : relocation) (lifted arrived : Z) : failure :=
  plain (named moved ++ bs ": " ++ format_int lifted ++ bs " rows were lifted out and " ++ format_int arrived ++
         bs " arrived in " ++ moved_target moved).

Definition putBack (s : tx_session) (queued : bool) (name : gostring) (moved : relocation) (lifted : Z)
    (insert : database -> result tx_error (Z * database)) (db : database) : result tx_error database :=
  (let! _ := round_trip s (CRestore queued) in
   let! (arrived, db) := insert db in
   if negb (arrived =? lifted) then Err (Own (finished (Own (restore_mismatch moved lifted arrived))))
   else
     let! _ := round_trip s (CDiscard queued) in
     Ok (drop_table name db))%res.

Definition through (s : tx_session) (meanwhile : nat -> tables -> tables) (work : drain) (db : database) :
    result tx_error (RepairResult * database) :=
  (let ranged := ranged_ work in
   let! found := observePartitions pg s (schema_ work) db in
   if negb (bool_decide (whyUnrepairable work found = [])) then
     Err (Own (finished (Own (plain (extentOf ranged ++ bs " cannot be drained: " ++ whyUnrepairable work found)))))
   else
     let! before := defaultPartitionRows pg Sanitize s (schema_ work) PartitionDefault db in
     let! (held_queue, queued, db) :=
       liftedOut s meanwhile 0 true (holdingName TableEventQueue ranged) (queue work) (queued_events ranged)
         (λ m, Z.of_nat (size m)) (λ db, Ok (delete_queued ranged db)) db in
     let! (held_events, moved, db) :=
       liftedOut s meanwhile 2 false (holdingName TableEvents ranged) (events_ work) (default_events ranged)
         (λ m, Z.of_nat (size m)) (delete_events ranged) db in
     let! _ := round_trip s CCreate in
     let! db := create_partition pg (Name ranged) (From_ ranged) (To_ ranged) (disturbed meanwhile 4 db) in
     let! db := claimMarker pg s (marked work) db in
     let! db := putBack s false (holdingName TableEvents ranged) (events_ work) moved (insert_events held_events) db in
     let! db := putBack s true (holdingName TableEventQueue ranged) (queue work) queued (insert_queued held_queue) db in
     let! after := defaultPartitionRows pg Sanitize s (schema_ work) PartitionDefault db in
     Ok (MkRepair (Name ranged) moved queued before after, db))%res.

Definition RepairDefaultPartition (cfg : config) (lock_timeout : Z) (s : tx_session)
    (meanwhile : nat -> tables -> tables) (ranged : Range) (st : MaintenanceStats) (db : database) :
    result failure RepairResult * MaintenanceStats * database :=
  let refused f :=
    finished (Own (wrapf (bs "the DEFAULT partition of schema " ++ Schema cfg ++ bs " could not be drained for " ++
                          extentOf ranged ++ bs ": ") f)) in
  match drainFor cfg ranged with
  | Err f => (Err (refused f), st, db)
  | Ok work =>
      match boundedTx s lock_timeout (DdlSubject (drainingWork ++ Name ranged) (Name ranged))
              (through s meanwhile work) db with
      | (Err f, db) => (Err (refused f), st, db)
      | (Ok done, db) => (Ok done, StoreDefaultPartitionRows (DefaultRowsAfter done) st, db)
      end
  end.

End drain.

(** ** A drain moves rows and loses none *)

Section conservation.
Context (pg : server) (Sanitize : list gostring -> gostring) (cfg : config) (lock_timeout : Z).

(** Others leave the drained range alone: neither its events nor its queue rows change hands. *)
Record leaves_range (ranged : Range) (meanwhile : nat -> tables -> tables) : Prop := {
  untouched_events n d id t : drained pg ranged t = true -> events (meanwhile n d) !! (id, t) = events d !! (id, t);
  untouched_queue n d id r : drained pg ranged (occurred_at r) = true ->
    event_queue (meanwhile n d) !! id = Some r <-> event_queue d !! id = Some r
}.

Lemma queued_lookup ranged db id r :
  queued_events pg ranged db !! id = Some r <->
  event_queue (data db) !! id = Some r /\ drained pg ranged (occurred_at r) = true.
Proof. unfold queued_events. by rewrite map_lookup_filter_Some. Qed.

Lemma default_lookup ranged db id t e :
  default_events pg ranged db !! (id, t) = Some e <->
  events (data db) !! (id, t) = Some e /\ drained pg ranged t = true /\ routed db DefaultBound t = true.
Proof. unfold default_events. rewrite map_lookup_filter_Some. cbn [fst snd]. by rewrite andb_true_iff. Qed.

(** Two states with the same bounds and the same rows in the range lift the same rows. *)
Lemma queued_same ranged db db' :
  (forall id r, drained pg ranged (occurred_at r) = true ->
     event_queue (data db') !! id = Some r <-> event_queue (data db) !! id = Some r) ->
  queued_events pg ranged db' = queued_events pg ranged db.
Proof.
  intros H. apply map_eq. intros id. apply option_eq. intros r. rewrite !queued_lookup. naive_solver.
Qed.

Lemma default_same ranged db db' :
  bounds db' ≡ₚ bounds db ->
  (forall id t, drained pg ranged t = true -> events (data db') !! (id, t) = events (data db) !! (id, t)) ->
  default_events pg ranged db' = default_events pg ranged db.
Proof.
  intros Hb H. apply map_eq. intros [id t]. apply option_eq. intros e. rewrite !default_lookup.
  assert (routed db' DefaultBound t = routed db DefaultBound t) as ->.
  { cbn [routed]. f_equal. apply eq_true_iff_eq. rewrite !existsb_exists. setoid_rewrite <- list_elem_of_In.
    by setoid_rewrite Hb. }
  split; intros (He & Ht & Hr); split_and!; try done; by rewrite ?H in * by done.
Qed.

Lemma bounds_plain_table name db c :
  relations db !! name = None -> bounds (with_relations db (<[name := Relation None c]> (relations db))) ≡ₚ bounds db.
Proof.
  intros Hn. unfold bounds. cbn [relations with_relations elsewhere]. apply Permutation_app_tail.
  rewrite map_to_list_insert by done. done.
Qed.

Lemma existsb_perm {A} (f : A -> bool) l l' : l ≡ₚ l' -> existsb f l = existsb f l'.
Proof.
  intros H. apply eq_true_iff_eq. rewrite !existsb_exists. setoid_rewrite <- list_elem_of_In. by setoid_rewrite H.
Qed.

Lemma create_holding_Ok name db db' :
  create_holding pg name db = Ok db' ->
  relations db !! name = None /\ db' = with_relations db (<[name := Relation None None]> (relations db)).
Proof.
  unfold create_holding. case_bool_decide as H; [done|]. intros [= <-]. split; [by apply eq_None_not_Some|done].
Qed.

Lemma liftedOut_Ok {R} s meanwhile first queued name moved (rows : database -> R) count remove db held n db' :
  liftedOut pg s meanwhile first queued name moved rows count remove db = Ok (held, n, db') ->
  let db0 := disturbed meanwhile first db in
  relations db !! name = None /\ held = rows db0 /\ n = count held /\
  remove (disturbed meanwhile (S first) (with_relations db0 (<[name := Relation None None]> (relations db)))) = Ok (n, db').
Proof.
  unfold liftedOut. intros H. peel. match goal with H : create_holding _ _ _ = _ |- _ => apply create_holding_Ok in H as [Hn ->] end.
  match type of H with (if negb ?b then _ else _) = _ => destruct b eqn:E; cbn [negb] in H; [|discriminate H] end.
  apply Z.eqb_eq in E. injection H as <- <- <-. subst. split_and!; done.
Qed.

Lemma putBack_Ok s queued name moved lifted insert db db' :
  putBack s queued name moved lifted insert db = Ok db' ->
  exists db1, insert db = Ok (lifted, db1) /\ db' = drop_table name db1.
Proof.
  unfold putBack. intros H. apply rbind_Ok in H as (? & _ & H). apply rbind_Ok in H as ([arrived db1] & Hi & H).
  destruct (Z.eqb_spec arrived lifted) as [->|]; cbn [negb] in H; [|discriminate H].
  apply rbind_Ok in H as (? & _ & H). injection H as <-. by exists db1.
Qed.

Lemma drainFor_Ok ranged work :
  drainFor Sanitize cfg ranged = Ok work ->
  ranged_ work = ranged /\ schema_ work = Schema cfg /\ From_ ranged < To_ ranged /\
  relname (marked work) = Name ranged /\ form (marked work) = partitionMarkerForm /\
  Catalog.instance (marked work) = Instance_name cfg.
Proof.
  unfold drainFor. destruct (Z.ltb_spec (From_ ranged) (To_ ranged)); cbn [negb]; [|done].
  unfold partitionObject. destruct (Qualified _ _ _); [|done]. intros H'. apply rbind_Ok in H' as (names & _ & [= <-]). done.
Qed.

(** What a drain that got through did, statement by statement. *)
Record drained_through (ranged : Range) (meanwhile : nat -> tables -> tables) (db : database)
    (done : RepairResult) (db' : database) : Prop := {
  dt_relations : relations db' = <[Name ranged := new_partition pg cfg ranged]> (relations db);
  dt_elsewhere : elsewhere db' = elsewhere db;
  dt_data :
    let d0 := meanwhile 0%nat (data db) in
    let held_q := queued_events pg ranged (with_data db d0) in
    let d1 := meanwhile 1%nat d0 in
    let d2 := with_queue d1 (event_queue d1 ∖ queued_events pg ranged (with_data db d1)) in
    let d3 := meanwhile 2%nat d2 in
    let held_e := default_events pg ranged (with_data db d3) in
    let d4 := meanwhile 3%nat d3 in
    let d5 := with_events d4 (events d4 ∖ default_events pg ranged (with_data db d4)) in
    let d6 := meanwhile 4%nat d5 in
    held_e ##ₘ events d6 /\ held_q ##ₘ event_queue d6 /\
    data db' = Tables (held_e ∪ events d6) (held_q ∪ event_queue d6) (deliveries d6) (identity d6) /\
    Moved done = Z.of_nat (size held_e) /\ QueueMoved done = Z.of_nat (size held_q);
  dt_covered : existsb (overlaps (stored pg (From_ ranged)) (stored pg (To_ ranged))) (bounds db) = false
}.

Lemma default_events_tables ranged db db' :
  bounds db' ≡ₚ bounds db -> data db' = data db -> default_events pg ranged db' = default_events pg ranged db.
Proof. intros Hb Hd. apply default_same; [done|]. by intros; rewrite Hd. Qed.

Lemma through_Ok s meanwhile ranged work db done db' :
  drainFor Sanitize cfg ranged = Ok work -> through pg Sanitize s meanwhile work db = Ok (done, db') ->
  drained_through ranged meanwhile db done db'.
Proof.
  intros (Hr & Hs & Hlt & Hn & Hf & Hi)%drainFor_Ok. unfold through. rewrite Hr. intros H.
  apply rbind_Ok in H as (found & _ & H). destruct (negb _); [discriminate H|].
  apply rbind_Ok in H as (before & _ & H).
  apply rbind_Ok in H as ([[held_q queued] db1] & Hq & H). apply rbind_Ok in H as ([[held_e moved] db2] & He & H).
  apply rbind_Ok in H as (? & _ & H). apply rbind_Ok in H as (db3 & Hc & H). apply rbind_Ok in H as (db4 & Hm & H).
  apply rbind_Ok in H as (db5 & Hpe & H). apply rbind_Ok in H as (db6 & Hpq & H). apply rbind_Ok in H as (after & _ & H).
  injection H as <- <-.
  apply liftedOut_Ok in Hq as (Hnq & -> & -> & Hrq). injection Hrq as _ <-.
  apply liftedOut_Ok in He as (Hne & -> & -> & Hre). unfold delete_events in Hre.
  destruct (references_hold _ _); [|discriminate Hre]. injection Hre as _ <-.
  apply create_partition_Ok in Hc as (Hnr & -> & _ & Hov).
  apply claimMarker_Ok in Hm as (r & Hl & ->). rewrite Hn, Hf, Hi in *.
  apply putBack_Ok in Hpe as (dbe & Hie & ->). unfold insert_events in Hie.
  case_bool_decide as Hde; [|discriminate Hie]. injection Hie as <-.
  apply putBack_Ok in Hpq as (dbq & Hiq & ->). unfold insert_queued in Hiq.
  case_bool_decide as Hdq; [|discriminate Hiq]. cbn [andb] in Hiq. destruct (references_hold _ _); [|discriminate Hiq].
  injection Hiq as <-.
  unfold drop_table, delete_queued, disturbed, with_data, with_relations, with_events, with_queue in *.
  cbn [relations data elsewhere events event_queue deliveries identity] in *.
  rewrite lookup_insert_eq in Hl. injection Hl as <-. cbn [attached] in *.
  set (nq := holdingName TableEventQueue ranged) in *. set (ne := holdingName TableEvents ranged) in *.
  set (table := Relation None None) in *.
  assert (Hneq : ne <> nq) by (intros E; rewrite E, lookup_insert_eq in Hne; discriminate Hne).
  rewrite lookup_insert_ne in Hne by done.
  assert (Hnr' : Name ranged <> ne /\ Name ranged <> nq).
  { split; intros E; rewrite E in Hnr; [by rewrite lookup_insert_eq in Hnr|].
    rewrite lookup_insert_ne in Hnr by done. by rewrite lookup_insert_eq in Hnr. }
  destruct Hnr' as [Hnr1 Hnr2].
  assert (Hb1 : bounds (Database (<[nq := table]> (relations db)) (elsewhere db) (data db)) ≡ₚ bounds db).
  { exact (bounds_plain_table nq db None Hnq). }
  assert (Hb2 : bounds (Database (<[ne := table]> (<[nq := table]> (relations db))) (elsewhere db) (data db)) ≡ₚ bounds db).
  { rewrite <- Hb1. refine (bounds_plain_table ne (Database (<[nq := table]> (relations db)) (elsewhere db) (data db)) None _).
    cbn [relations]. by rewrite lookup_insert_ne. }
  assert (Hdef1 : forall d, default_events pg ranged (Database (<[nq := table]> (relations db)) (elsewhere db) d) =
                            default_events pg ranged (Database (relations db) (elsewhere db) d)).
  { intros d. by apply default_events_tables. }
  assert (Hdef2 : forall d, default_events pg ranged (Database (<[ne := table]> (<[nq := table]> (relations db))) (elsewhere db) d) =
                            default_events pg ranged (Database (relations db) (elsewhere db) d)).
  { intros d. by apply default_events_tables. }
  assert (Hqs : forall rel d, queued_events pg ranged (Database rel (elsewhere db) d) =
                              queued_events pg ranged (Database (relations db) (elsewhere db) d)) by done.
  rewrite !Hdef1, !Hdef2 in *. rewrite !Hqs in *.
  constructor; cbn [relations elsewhere data Moved QueueMoved].
  - unfold new_partition. apply map_eq. intros k. rewrite ?lookup_delete, ?lookup_insert.
    repeat (rewrite ?lookup_delete, ?lookup_insert; case_decide); congruence.
  - done.
  - split_and!; done.
  - rewrite <- (existsb_perm _ _ _ Hb2). exact Hov.
Qed.

Lemma in_range_kept {A} ranged (f : A -> Z) (held q : gmap Z A) (P : Z -> A -> Prop) :
  held ##ₘ q -> (forall id r, held !! id = Some r <-> P id r) ->
  (forall id r, drained pg ranged (f r) = true -> q !! id <> Some r) ->
  forall id r, drained pg ranged (f r) = true -> (held ∪ q) !! id = Some r <-> P id r.
Proof.
  intros Hd Hh Hq id r Hr. rewrite lookup_union_Some by done. rewrite Hh. specialize (Hq id r Hr). tauto.
Qed.

(** The rows of the range, before and after. *)
Lemma drained_rows ranged meanwhile db done db' :
  leaves_range ranged meanwhile -> drained_through ranged meanwhile db done db' ->
  (forall id t, drained pg ranged t = true -> events (data db') !! (id, t) = events (data db) !! (id, t)) /\
  (forall id r, drained pg ranged (occurred_at r) = true ->
     event_queue (data db') !! id = Some r <-> event_queue (data db) !! id = Some r) /\
  Moved done = Z.of_nat (size (default_events pg ranged db)) /\
  QueueMoved done = Z.of_nat (size (queued_events pg ranged db)).
Proof.
  intros [Hqe Hqq] [_ _ Hdata _]. destruct Hdata as (Hde & Hdq & Hd & Hm & Hqm). rewrite Hd, Hm, Hqm.
  set (d0 := meanwhile 0%nat (data db)) in *. set (d1 := meanwhile 1%nat d0) in *.
  set (gone_q := queued_events pg ranged (with_data db d1)) in *.
  set (d2 := with_queue d1 (event_queue d1 ∖ gone_q)) in *. set (d3 := meanwhile 2%nat d2) in *.
  set (d4 := meanwhile 3%nat d3) in *. set (gone_e := default_events pg ranged (with_data db d4)) in *.
  set (d5 := with_events d4 (events d4 ∖ gone_e)) in *. set (d6 := meanwhile 4%nat d5) in *.
  assert (He4 : forall id t, drained pg ranged t = true -> events d4 !! (id, t) = events (data db) !! (id, t)).
  { intros id t Ht. unfold d4, d3. rewrite !Hqe by done. unfold d2, with_queue. cbn [events].
    unfold d1, d0. by rewrite !Hqe. }
  assert (Hq1 : forall id r, drained pg ranged (occurred_at r) = true ->
    event_queue d1 !! id = Some r <-> event_queue (data db) !! id = Some r).
  { intros id r Hr. unfold d1, d0. by rewrite !Hqq. }
  assert (Heq_e : default_events pg ranged (with_data db d3) = default_events pg ranged db).
  { apply default_same; [done|]. intros id t Ht. cbn [data with_data]. unfold d3. rewrite Hqe by done. unfold d2, with_queue.
    cbn [events]. unfold d1, d0. by rewrite !Hqe. }
  assert (Hgone_e : gone_e = default_events pg ranged db) by (by apply default_same).
  assert (Heq_q : queued_events pg ranged (with_data db d0) = queued_events pg ranged db).
  { apply queued_same. intros id r Hr. cbn [data with_data]. unfold d0. by rewrite Hqq. }
  assert (Hgone_q : gone_q = queued_events pg ranged db) by (apply queued_same; exact Hq1).
  rewrite Heq_e, Heq_q in *. split_and!; try done.
  - intros id t Ht. cbn [events]. destruct (default_events pg ranged db !! (id, t)) as [e|] eqn:E.
    + rewrite (lookup_union_Some_l _ _ _ _ E). by apply default_lookup in E as [-> _].
    + rewrite lookup_union_r by done. unfold d6. rewrite Hqe by done. unfold d5, with_events. cbn [events].
      rewrite lookup_difference, Hgone_e, E. by apply He4.
  - cbn [event_queue]. intros id r Hr.
    rewrite (in_range_kept ranged occurred_at (queued_events pg ranged db) _
      (λ id r, event_queue (data db) !! id = Some r /\ drained pg ranged (occurred_at r) = true) Hdq); [tauto| | |done].
    + intros. apply queued_lookup.
    + intros id' r' Hr' H. unfold d6 in H. rewrite Hqq in H by done. unfold d5, with_events in H. cbn [event_queue] in H.
      unfold d4, d3 in H. rewrite !Hqq in H by done. unfold d2, with_queue in H. cbn [event_queue] in H.
      apply lookup_difference_Some in H as [H Hg]. rewrite Hgone_q in Hg. rewrite Hq1 in H by done.
      assert (Hs : queued_events pg ranged db !! id' = Some r') by (by apply queued_lookup). congruence.
Qed.

(** C14. A drain moves rows and loses none. If nobody else writes rows of the range while it runs, a
    drain that answers leaves every event and every queue row of the range exactly as it was, under
    its own key -- alone in the database, it leaves all data as it was -- and adds one thing to the
    catalog: the range's partition, marked as this instance's, under the free name it was given; the
    holding tables are gone. It reports exactly the events the range had in the DEFAULT partition and
    the queue rows that travelled with them. A drain that fails leaves nothing behind and stores no
    count, unless the answer to its commit was lost. *)
Theorem repair_conserves s meanwhile ranged st db answer st' db' :
  leaves_range ranged meanwhile ->
  RepairDefaultPartition pg Sanitize cfg lock_timeout s meanwhile ranged st db = (answer, st', db') ->
  match answer with
  | Ok done =>
      let db0 := others s db in
      relations db' = <[Name ranged := new_partition pg cfg ranged]> (relations db0) /\ elsewhere db' = elsewhere db0 /\
      (forall id t, drained pg ranged t = true -> events (data db') !! (id, t) = events (data db0) !! (id, t)) /\
      (forall id r, drained pg ranged (occurred_at r) = true ->
         event_queue (data db') !! id = Some r <-> event_queue (data db0) !! id = Some r) /\
      ((forall n d, meanwhile n d = d) -> data db' = data db0) /\
      Moved done = Z.of_nat (size (default_events pg ranged db0)) /\
      QueueMoved done = Z.of_nat (size (queued_events pg ranged db0)) /\
      st' = StoreDefaultPartitionRows (DefaultRowsAfter done) st
  | Err _ => st' = st /\ (call_fails s CCommit = None -> db' = db \/ db' = others s db)
  end.
Proof.
  intros Hquiet. unfold RepairDefaultPartition. destruct (drainFor Sanitize cfg ranged) as [work|f] eqn:Ew.
  2: { intros [= <- <- <-]. auto. }
  set (about := DdlSubject _ _). set (run := through pg Sanitize s meanwhile work).
  pose proof (boundedTx_effect s lock_timeout about run db) as Heff.
  destruct (boundedTx s lock_timeout about run db) as [[done|f] db1] eqn:Et; intros [= <- <- <-]; cbn [fst snd] in Heff.
  2: { split; [done|]. intros Hc. destruct Heff as [->|(a & _ & _ & Hok & _)]; [by right|]. by specialize (Hok Hc). }
  apply boundedTx_Ok in Et. apply (through_Ok _ _ ranged) in Et as Hdt; [|done].
  destruct (drained_rows _ _ _ _ _ Hquiet Hdt) as (He & Hq & Hm & Hqm). destruct Hdt as [Hrel Hels Hdata _].
  split_and!; try done. intros Hid. destruct Hdata as (_ & _ & -> & _). cbv zeta. rewrite !Hid. cbn [events event_queue with_queue with_events].
  set (db0 := others s db). change (with_data db0 (data db0)) with (Database (relations db0) (elsewhere db0) (data db0)).
  replace (Database (relations db0) (elsewhere db0) (data db0)) with db0 by (by destruct db0).
  assert (Hsame : default_events pg ranged (with_data db0 (with_queue (data db0) (event_queue (data db0) ∖ queued_events pg ranged db0))) =
                  default_events pg ranged db0) by (by apply default_same).
  rewrite Hsame. rewrite !map_difference_union by (apply map_filter_subseteq). by destruct (data db0).
Qed.

(** A range that has its partition is not drained again. Whatever the partition is called and
    whoever made it, a drain of an extent the catalog already holds fails, stores no count and leaves
    the database alone; so a drain that committed and whose answer was lost is safe to repeat. *)
Theorem covered_range_is_refused s meanwhile ranged st db name r :
  server_laws pg -> sound_catalog (Schema cfg) (others s db) -> vanishing s = ∅ ->
  relations (others s db) !! name = Some r -> attached r = Some (RangeBound (From_ ranged) (To_ ranged)) ->
  exists f db', RepairDefaultPartition pg Sanitize cfg lock_timeout s meanwhile ranged st db = (Err f, st, db') /\
    (db' = db \/ db' = others s db).
Proof.
  intros laws Hsound Hv Hr Ha. unfold RepairDefaultPartition.
  destruct (drainFor Sanitize cfg ranged) as [work|f] eqn:Ew; [|eauto].
  apply drainFor_Ok in Ew as (Hrg & Hsc & _).
  assert (exists e, through pg Sanitize s meanwhile work (others s db) = Err e) as [e He].
  { unfold through. rewrite Hrg, Hsc. destruct (observePartitions pg s (Schema cfg) (others s db)) as [found|e] eqn:Ef;
      [|by exists e]. cbn [rbind].
    assert (whyUnrepairable work found <> []) as Hwhy; [|rewrite bool_decide_eq_false_2 by done; cbn; eauto].
    unfold whyUnrepairable. rewrite Hrg. case_bool_decide; [done|]. case_bool_decide; cbn [negb]; [|done].
    destruct (observePartitions_spec pg laws _ _ _ _ Hsound Ef) as [_ Hb].
    assert (rangesNotYetObserved [ranged] (Bounded found) = []) as ->; [|done].
    unfold rangesNotYetObserved. rewrite filter_cons, filter_nil, decide_False; [done|].
    rewrite not_false_iff_true. apply existsb_exists. exists (MkRange (From_ ranged) (To_ ranged) name). split.
    - apply list_elem_of_In, Hb. exists r. rewrite Hv. split_and!; [done|done|set_solver].
    - by apply sameExtentAs_iff. }
  unfold boundedTx. destruct (round_trip s CBegin); cbn [rbind]; [|eauto 10].
  destruct (round_trip s CBound); cbn [rbind]; [|eauto 10]. rewrite He. eauto 10.
Qed.

End conservation.

(** ** At concrete inputs *)

(** One event of the first hour, captured while no partition covered it and leased by worker "a". *)
Definition in_default : tables :=
  step (DoClaim (worker (bs "a")) 1) (quiet 5000) (step orders (quiet 0) (Tables ∅ ∅ ∅ 1)).

Definition undrained : database := Database {[ PartitionDefault := Relation (Some DefaultBound) None ]} [] in_default.

Definition first_hour : Range := MkRange 0 one_hour (rangeName 0 one_hour).

Definition alone : nat -> tables -> tables := λ _ d, d.

Definition drain_of (meanwhile : nat -> tables -> tables) : result failure RepairResult * MaintenanceStats * database :=
  RepairDefaultPartition sample_server documented_Sanitize sample_config (3 * 10 ^ 9) (quiet_tx one_hour) meanwhile
    first_hour zero_stats undrained.

Lemma repair_conserves_witness :
  exists done st' db', drain_of alone = (Ok done, st', db') /\
    Moved done = 1 /\ QueueMoved done = 1 /\ DefaultRowsBefore done = 1 /\ DefaultRowsAfter done = 0 /\
    data db' = in_default.
Proof.
  assert (H : match drain_of alone with
              | (Ok done, _, _) => DefaultRowsBefore done = 1 /\ DefaultRowsAfter done = 0
              | (Err _, _, _) => False
              end) by (vm_compute; split; reflexivity).
  destruct (drain_of alone) as [[[done|f] st'] db'] eqn:E; [|destruct H]. destruct H as [Hb Ha].
  exists done, st', db'.
  destruct (repair_conserves sample_server documented_Sanitize sample_config (3 * 10 ^ 9) (quiet_tx one_hour) alone
    first_hour zero_stats undrained (Ok done) st' db') as (_ & _ & _ & _ & Hdata & Hm & Hq & _).
  - constructor; unfold alone; reflexivity.
  - exact E.
  - split; [reflexivity|]. split; [rewrite Hm; vm_compute; reflexivity|]. split; [rewrite Hq; vm_compute; reflexivity|].
    split; [exact Hb|]. split; [exact Ha|]. apply Hdata. reflexivity.
Defined.

Lemma covered_range_is_refused_witness :
  exists f db', RepairDefaultPartition sample_server documented_Sanitize sample_config (3 * 10 ^ 9) (quiet_tx one_hour)
    alone first_hour zero_stats sample_db = (Err f, zero_stats, db') /\ (db' = sample_db \/ db' = sample_db).
Proof.
  apply (covered_range_is_refused sample_server documented_Sanitize sample_config (3 * 10 ^ 9) (quiet_tx one_hour)
    alone first_hour zero_stats sample_db (rangeName 0 one_hour)
    (Relation (Some (RangeBound 0 one_hour)) our_comment)).
  - exact sample_server_laws.
  - exact sample_sound.
  - reflexivity.
  - vm_compute. reflexivity.
  - reflexivity.
Defined.

(** Between the copy of the queue's rows and their deletion, the worker acknowledges its event and
    another is captured in the same range. *)
Definition busy (n : nat) (d : tables) : tables :=
  if (n =? 1)%nat then
    step orders (quiet 7000) (step (DoAck (worker (bs "a")) no_event ok_delivery) (quiet 6000) d)
  else d.

(** C28. A drain beside a busy range can lose a delivery. The copy and the deletion of the queue's
    rows are two statements of a READ COMMITTED transaction, and only their numbers are compared: an
    acknowledgement and a capture committed between them leave the numbers equal, and the drain
    answers that all is well. The event captured is in the log and no longer in the queue, so nobody
    ever delivers it; the one already delivered and acknowledged is queued again. *)
Theorem busy_drain_loses_a_delivery :
  exists done st' db', drain_of busy = (Ok done, st', db') /\
    (exists e, events (data db') !! (2, 7000) = Some e) /\ event_queue (data db') !! 2 = None /\
    is_Some (event_queue (data db') !! 1) /\
    is_Some (event_queue (busy 1 in_default) !! 2) /\ event_queue (busy 1 in_default) !! 1 = None.
Proof.
  assert (H : match drain_of busy with
              | (Ok done, _, db') =>
                  match events (data db') !! (2, 7000), event_queue (data db') !! 2, event_queue (data db') !! 1,
                        event_queue (busy 1 in_default) !! 2, event_queue (busy 1 in_default) !! 1 with
                  | Some _, None, Some _, Some _, None => True
                  | _, _, _, _, _ => False
                  end
              | (Err _, _, _) => False
              end) by (vm_compute; exact I).
  destruct (drain_of busy) as [[[r|f] st'] db']; [|done]. exists r, st', db'.
  repeat case_match; try done. by eauto 10.
Qed.
