(* ===== verification/Ledger.v ===== *)
(** * The migration corpus and its ledger: [internal/schema]'s [migrations.go], [runner.go],
    [runnerledger.go] and [appliedversion.go].

    A directory is the list of its entries, each with what reading it answers. The database is the
    ledger table -- absent, or a row per version -- beside the rest of it, of any type: what a
    migration's script does is the server's [execute]. Each transaction has a session of its own,
    which says what others committed before it, which call fails and whether a commit whose answer
    was lost took effect. [quoted] is [strconv.Quote] and [sha256_hex] the digest in hex. *)

From S2P Require Import Prelude Quote Partition Catalog.
From stdpp Require Import sorting relations.

Local Open Scope Z_scope.

(** ** migrations.go *)

Definition migrationSuffix : gostring := bs ".sql".
Definition firstMigrationVersion : Z := 1.

Record migration := Migration { version : Z; file : gostring; sql : gostring; checksum : gostring }.

#[export] Instance migration_eq_dec : EqDecision migration.
Proof. solve_decision. Defined.

Definition no_migration : migration := Migration 0 [] [] [].

Inductive corpus_error :=
  | ReadDirFailed (dir text : gostring)
  | ReadFileFailed (name text : gostring)
  | errCorpusFilename_form (name : gostring)
  | errCorpusFilename_number (name numbered : gostring)
  | errCorpusVersionRange (name : gostring) (version : Z)
  | errCorpusDuplicate (one other : gostring) (version : Z)
  | errCorpusGap (file : gostring) (version want : Z).

(** [strconv.Atoi] *)
Definition Atoi (s : gostring) : option Z :=
  let '(negative, digits) :=
    match s with
    | c :: r => if bool_decide (c = "-"%char) then (true, r) else if bool_decide (c = "+"%char) then (false, r) else (false, s)
    | [] => (false, [])
    end in
  if bool_decide (digits = []) || negb (forallb is_digit digits) then None
  else
    let v := if (negative : bool) then - digits_value digits else digits_value digits in
    if (min_int64 <=? v) && (v <=? max_int64) then Some v else None.

Definition versionOf (name : gostring) : result corpus_error Z :=
  match cut_suffix name migrationSuffix with
  | None => Err (errCorpusFilename_form name)
  | Some described =>
      match cut described (bs "_") with
      | None => Err (errCorpusFilename_form name)
      | Some (numbered, _) =>
          if bool_decide (numbered = []) then Err (errCorpusFilename_form name)
          else match Atoi numbered with
               | None => Err (errCorpusFilename_number name numbered)
               | Some version =>
                   if version <? firstMigrationVersion then Err (errCorpusVersionRange name version) else Ok version
               end
      end
  end.

Section Corpus.
Context (quoted sha256_hex : gostring -> gostring).

Definition corpus_error_text (e : corpus_error) : gostring :=
  match e with
  | ReadDirFailed dir text => bs "read the migration directory " ++ dir ++ bs ": " ++ text
  | ReadFileFailed name text => bs "read migration " ++ name ++ bs ": " ++ text
  | errCorpusFilename_form name =>
      bs "migration filename declares no version: " ++ quoted name ++ bs " is not <version>_<description>" ++ migrationSuffix
  | errCorpusFilename_number name numbered =>
      bs "migration filename declares no version: " ++ quoted name ++ bs " begins " ++ quoted numbered ++
      bs ", which is no number"
  | errCorpusVersionRange name version =>
      bs "migration version is below the first version: " ++ quoted name ++ bs " declares version " ++
      format_int version ++ bs ", and the sequence starts at " ++ format_int firstMigrationVersion
  | errCorpusDuplicate one other version =>
      bs "two migration files declare one version: " ++ quoted one ++ bs " and " ++ quoted other ++
      bs " both declare version " ++ format_int version
  | errCorpusGap file version want =>
      bs "migration versions are not consecutive: " ++ quoted file ++ bs " declares version " ++ format_int version ++
      bs " where the ascending run reaches " ++ format_int want
  end.

(** One entry of the directory: its name, and what reading it answers. *)
Abbreviation entry := (gostring * result gostring gostring)%type.

Definition readMigration (e : entry) : result corpus_error migration :=
  match versionOf (fst e) with
  | Err refused => Err refused
  | Ok version =>
      match snd e with
      | Err text => Err (ReadFileFailed (fst e) text)
      | Ok data => Ok (Migration version (fst e) data (sha256_hex data))
      end
  end.

Fixpoint readMigrations (entries : list entry) : result corpus_error (list migration) :=
  match entries with
  | [] => Ok []
  | e :: rest =>
      (let! read := readMigration e in let! more := readMigrations rest in Ok (read :: more))%res
  end.

Fixpoint duplicateVersionIn (corpus : list migration) : option corpus_error :=
  match corpus with
  | a :: (b :: _) as rest =>
      if version b =? version a then Some (errCorpusDuplicate (file a) (file b) (version b))
      else duplicateVersionIn rest
  | _ => None
  end.

Fixpoint versionGapIn (want : Z) (corpus : list migration) : option corpus_error :=
  match corpus with
  | [] => None
  | found :: rest =>
      if negb (version found =? want) then Some (errCorpusGap (file found) (version found) want)
      else versionGapIn (want + 1) rest
  end.

(** [slices.SortFunc] by version, which leaves open the order of equal ones. *)
Definition older (a b : migration) : Prop := version a <= version b.
#[export] Instance older_dec : RelDecision older.
Proof. intros a b. unfold older. apply _. Defined.

Context (sort_versions : list migration -> list migration).

Definition corpusFrom (dir : gostring) (entries : result gostring (list entry)) : result corpus_error (list migration) :=
  match entries with
  | Err text => Err (ReadDirFailed dir text)
  | Ok entries =>
      (let! read := readMigrations entries in
       let corpus := sort_versions read in
       match duplicateVersionIn corpus with
       | Some refused => Err refused
       | None => match versionGapIn firstMigrationVersion corpus with
                 | Some refused => Err refused
                 | None => Ok corpus
                 end
       end)%res
  end.

End Corpus.

(** ** runnerledger.go *)

Record appliedVersion := Applied { applied_version : Z; applied_checksum : gostring }.

Inductive ledgerVerdict := ledgerUsable | ledgerAheadOfBinary | ledgerNotAPrefix | ledgerFileChanged.

#[export] Instance ledgerVerdict_eq_dec : EqDecision ledgerVerdict.
Proof. solve_decision. Defined.

Definition highestRecorded (recorded : list appliedVersion) : Z :=
  match last recorded with None => 0 | Some row => applied_version row end.
Definition highestEmbedded (corpus : list migration) : Z :=
  match last corpus with None => 0 | Some m => version m end.

Fixpoint firstOutOfOrder (i : nat) (recorded : list appliedVersion) : option nat :=
  match recorded with
  | [] => None
  | row :: rest =>
      if negb (applied_version row =? firstMigrationVersion + Z.of_nat i) then Some i
      else firstOutOfOrder (S i) rest
  end.

(** [corpus[i]] panics past its end, which is [None]. *)
Fixpoint firstChanged (i : nat) (corpus : list migration) (recorded : list appliedVersion) : option (option nat) :=
  match recorded with
  | [] => Some None
  | row :: rest =>
      m ← corpus !! i;
      if negb (bool_decide (applied_checksum row = checksum m)) then Some (Some i)
      else firstChanged (S i) corpus rest
  end.

Definition whyUnusableLedger (recorded : list appliedVersion) (corpus : list migration) :
    option (ledgerVerdict * nat) :=
  if (length recorded =? 0)%nat then Some (ledgerUsable, 0%nat)
  else if highestEmbedded corpus <? highestRecorded recorded then Some (ledgerAheadOfBinary, (length recorded - 1)%nat)
  else match firstOutOfOrder 0 recorded with
       | Some i => Some (ledgerNotAPrefix, i)
       | None =>
           changed ← firstChanged 0 corpus recorded;
           Some match changed with Some i => (ledgerFileChanged, i) | None => (ledgerUsable, 0%nat) end
       end.

Definition no_row : appliedVersion := Applied 0 [].

Definition refusedLedger (verdict : ledgerVerdict) (at_ : nat) (recorded : list appliedVersion)
    (corpus : list migration) : failure :=
  let row := default no_row (recorded !! at_) in
  let m := default no_migration (corpus !! at_) in
  match verdict with
  | ledgerAheadOfBinary => finished (Own (schemaAhead (highestRecorded recorded) (highestEmbedded corpus)))
  | ledgerNotAPrefix =>
      finished (Own (plain (bs "the ledger records version " ++ format_int (applied_version row) ++
        bs " where an ascending run from " ++ format_int firstMigrationVersion ++ bs " reaches " ++
        format_int (firstMigrationVersion + Z.of_nat at_) ++
        bs ", so it is a prefix of no corpus and applying the missing versions now would apply them after a later one")))
  | ledgerFileChanged =>
      finished (Own (plain (bs "migration " ++ format_int (version m) ++ bs " (" ++ file m ++
        bs ") was applied with checksum " ++ applied_checksum row ++ bs " and its file now hashes to " ++ checksum m ++
        bs ", so the file has been edited since it was applied")))
  | ledgerUsable =>
      finished (Own (plain (bs "the ledger was judged unusable for a reason this runner cannot name (" ++
        bs "usable" ++ bs "), so no migration was applied")))
  end.

(** ** runner.go *)

Record world (O : Type) := World { ledger : option (gmap Z gostring); rest_of : O }.
Arguments World {O}. Arguments ledger {O}. Arguments rest_of {O}.

(** The round trips of reading the ledger and of applying one migration. *)
Inductive ledger_call :=
  | LBegin | LPath | LPresence | LRows | LScript | LRecord | LCommit.

Record ledger_session (O : Type) := LedgerSession {
  meantime : world O -> world O;
  ledger_fails : ledger_call -> option raw_error;
  kept : bool
}.
Arguments LedgerSession {O}. Arguments meantime {O}. Arguments ledger_fails {O}. Arguments kept {O}.

(** What a script does, and the server's refusals of the ledger's own statements. *)
Record script_server (O : Type) := ScriptServer {
  execute : gostring -> world O -> result raw_error (world O);
  version_recorded : Z -> raw_error;
  no_ledger : raw_error
}.
Arguments ScriptServer {O}. Arguments execute {O}. Arguments version_recorded {O}. Arguments no_ledger {O}.

Record migrationRun := MigrationRun { applied_now : list Z; recorded_now : Z }.
Definition no_run : migrationRun := MigrationRun [] 0.

Definition ledgerAbsent (schema : gostring) : failure :=
  sentinelf ErrLedgerAbsent (bs "schema " ++ schema ++ bs " records no applied migration").

Section Runner.
Context {O : Type} (server : script_server O).
Context (Sanitize : list gostring -> gostring) (quoted : gostring -> gostring).

Definition searchPathStatement (schemaName : gostring) : result IdentifierFault gostring :=
  match Quoted Sanitize schemaName with
  | Err fault => Err fault
  | Ok name => Ok (bs "SET LOCAL search_path TO " ++ name ++ bs ", pg_catalog")
  end.

Definition ledger_trip (s : ledger_session O) (c : ledger_call) : result raw_error unit :=
  match ledger_fails s c with Some e => Err e | None => Ok tt end.

(** [SELECT version, checksum FROM schema_version ORDER BY version] *)
Definition version_le (a b : Z * gostring) : Prop := fst a <= fst b.
#[export] Instance version_le_dec : RelDecision version_le.
Proof. intros a b. unfold version_le. apply _. Defined.

Definition ledger_rows (rows : gmap Z gostring) : list appliedVersion :=
  (λ p, Applied (fst p) (snd p)) <$> merge_sort version_le (map_to_list rows).

(** [None] is the nil slice of a schema without a ledger; one without rows is an empty slice. *)
Definition readLedger (s : ledger_session O) (w : world O) : result failure (option (list appliedVersion)) * world O :=
  let w := meantime s w in
  (match (let! _ := ledger_trip s LBegin in
          let! _ := ledger_trip s LPath in
          let! _ := ledger_trip s LPresence in
          match ledger w with
          | None => Ok None
          | Some rows => let! _ := ledger_trip s LRows in Ok (Some (ledger_rows rows))
          end)%res with
   | Err e => Err (finished (Raw e))
   | Ok recorded => Ok recorded
   end, w).

(** The driver's error under words of this package. *)
Definition raw_failure (e : raw_error) : failure := plain (raw_text e).

Definition migration_name (m : migration) : gostring :=
  bs "migration " ++ format_int (version m) ++ bs " (" ++ file m ++ bs ")".
Definition namedFailure (m : migration) (doing : gostring) (e : raw_error) : failure :=
  finished (Own (wrapf (doing ++ bs " " ++ migration_name m ++ bs ": ") (raw_failure e))).

(** The script, unwrapped SQL and all. *)
Definition apply_script (s : ledger_session O) (m : migration) (w : world O) : result failure (world O) :=
  match (let! _ := ledger_trip s LScript in execute server (sql m) w)%res with
  | Err e => Err (wrapf (migration_name m ++ bs ": ") (raw_failure e))
  | Ok w => Ok w
  end.

(** [INSERT INTO schema_version (version, checksum, applied_at)]: the version is the primary key. *)
Definition record_version (s : ledger_session O) (m : migration) (w : world O) : result raw_error (world O) :=
  (let! _ := ledger_trip s LRecord in
   match ledger w with
   | None => Err (no_ledger server)
   | Some rows =>
       if bool_decide (is_Some (rows !! version m)) then Err (version_recorded server (version m))
       else Ok (World (Some (<[version m := checksum m]> rows)) (rest_of w))
   end)%res.

(** [fmt.Errorf] of a step that failed, by the words it is named in. *)
Definition step_named {A} (m : migration) (doing : gostring) (answer : result raw_error A) : result failure A :=
  match answer with Ok a => Ok a | Err e => Err (namedFailure m doing e) end.

Definition applyMigration (s : ledger_session O) (m : migration) (w : world O) : option failure * world O :=
  let w := meantime s w in
  match (let! _ := step_named m (bs "open the transaction for") (ledger_trip s LBegin) in
         let! _ := step_named m (bs "route into its schema") (ledger_trip s LPath) in
         let! w := match apply_script s m w with Ok w => Ok w | Err f => Err (finished (Own f)) end in
         step_named m (bs "record") (record_version s m w))%res with
  | Err f => (Some f, w)
  | Ok w' =>
      match ledger_fails s LCommit with
      | Some e => (Some (namedFailure m (bs "commit") e), if kept s then w' else w)
      | None => (None, w')
      end
  end.

Fixpoint apply_pending (serving : nat -> ledger_session O) (n : nat) (pending : list migration) (run : migrationRun)
    (w : world O) : migrationRun * option failure * world O :=
  match pending with
  | [] => (run, None, w)
  | m :: rest =>
      match applyMigration (serving n) m w with
      | (Some f, w) => (run, Some f, w)
      | (None, w) =>
          apply_pending serving (S n) rest (MigrationRun (applied_now run ++ [version m]) (version m)) w
      end
  end.

(** [None] is a panic; [serving n] is the session of the run's n-th transaction. *)
Definition migrate (serving : nat -> ledger_session O) (schemaName : gostring) (corpus : list migration) (w : world O) :
    option (migrationRun * option failure * world O) :=
  match searchPathStatement schemaName with
  | Err fault =>
      Some (no_run, Some (finished (Own (plain (bs "the configured schema " ++ quoted schemaName ++ bs " " ++
              fault_text fault)))), w)
  | Ok _ =>
      match readLedger (serving 0%nat) w with
      | (Err f, w) => Some (no_run, Some f, w)
      | (Ok answer, w) =>
          let recorded := default [] answer in
          '(verdict, at_) ← whyUnusableLedger recorded corpus;
          if negb (bool_decide (verdict = ledgerUsable))
          then Some (no_run, Some (refusedLedger verdict at_ recorded corpus), w)
          else if (length corpus <? length recorded)%nat then None
          else Some (apply_pending serving 1 (drop (length recorded) corpus) (MigrationRun [] (highestRecorded recorded)) w)
      end
  end.

Definition migrateEmbedded (serving : nat -> ledger_session O) (schemaName : gostring)
    (embedded : result corpus_error (list migration)) (w : world O) : option (migrationRun * option failure * world O) :=
  match embedded with
  | Err e => Some (no_run, Some (finished (Own (plain (corpus_error_text quoted e)))), w)
  | Ok corpus => migrate serving schemaName corpus w
  end.

(** ** appliedversion.go *)

Definition AppliedVersion (s : ledger_session O) (schema : gostring) (w : world O) : result failure Z :=
  match searchPathStatement schema with
  | Err fault => Err (finished (Own (plain (bs "the configured schema " ++ quoted schema ++ bs " " ++ fault_text fault))))
  | Ok _ =>
      match fst (readLedger s w) with
      | Err f => Err f
      | Ok None => Err (finished (Own (ledgerAbsent schema)))
      | Ok (Some recorded) => Ok (highestRecorded recorded)
      end
  end.

Definition ExpectedVersion (embedded : result corpus_error (list migration)) : result failure Z :=
  match embedded with
  | Err e => Err (finished (Own (plain (corpus_error_text quoted e))))
  | Ok corpus => Ok (highestEmbedded corpus)
  end.

End Runner.

(** ** Lists sorted by a key *)

Section Keys.
Context {A : Type} (key : A -> Z).

Definition by_key (a b : A) : Prop := key a <= key b.

(** Two arrangements of elements with distinct keys, each sorted by key, are one. *)
Lemma sorted_by_key_unique l k :
  l ≡ₚ k -> Sorted by_key l -> Sorted by_key k -> NoDup (key <$> k) -> l = k.
Proof.
  intros Hp Hl Hk Hnd.
  assert (Trans : Transitive by_key) by (intros a b c; unfold by_key; lia).
  apply Sorted_StronglySorted in Hl; [|done]. apply Sorted_StronglySorted in Hk; [|done].
  revert k Hp Hk Hnd. induction Hl as [|x l Hl IH Hx]; intros k Hp Hk Hnd; [by apply Permutation_nil_l in Hp|].
  destruct Hk as [|y k Hk Hy]; [by apply Permutation_nil_r in Hp|].
  assert (x = y) as ->.
  { assert (x ∈ y :: k) as [?|Hxk]%elem_of_cons by (rewrite <- Hp; by left); [done|].
    assert (y ∈ x :: l) as [?|Hyl]%elem_of_cons by (rewrite Hp; by left); [done|]. exfalso.
    rewrite Forall_forall in Hx, Hy. specialize (Hx _ Hyl). specialize (Hy _ Hxk). unfold by_key in *.
    cbn [fmap list_fmap] in Hnd. apply NoDup_cons in Hnd as [Hni _]. apply Hni.
    apply list_elem_of_fmap. exists x. split; [lia|done]. }
  f_equal. apply IH; [by apply Permutation_cons_inv in Hp|done|]. cbn [fmap list_fmap] in Hnd.
  by apply NoDup_cons in Hnd as [_ ?].
Qed.

Lemma seqZ_sorted l a n : key <$> l = seqZ a n -> Sorted by_key l.
Proof.
  revert a n. induction l as [|x l IH]; intros a n H; [constructor|].
  assert (Hn : 0 < n). { destruct (Z_lt_le_dec 0 n); [done|]. by rewrite seqZ_nil in H. }
  rewrite seqZ_cons in H by done. cbn [fmap list_fmap] in H. injection H as Hx H. constructor; [by eapply IH|].
  destruct l as [|y l]; [constructor|]. constructor. unfold by_key. cbn [fmap list_fmap] in H.
  assert (Hn' : 0 < Z.pred n). { destruct (Z_lt_le_dec 0 (Z.pred n)); [done|]. by rewrite seqZ_nil in H. }
  rewrite seqZ_cons in H by done. injection H as Hy _. lia.
Qed.

Lemma seqZ_keys_unique l k a n :
  l ≡ₚ k -> Sorted by_key l -> key <$> k = seqZ a n -> l = k.
Proof.
  intros Hp Hs Hk. apply sorted_by_key_unique; [done|done|by eapply seqZ_sorted|]. rewrite Hk. apply NoDup_seqZ.
Qed.
End Keys.

(** ** The corpus *)

Section CorpusLaws.
Context (sha256_hex : gostring -> gostring) (sort_versions : list migration -> list migration).
Hypothesis sort_permutes : forall l, sort_versions l ≡ₚ l.
Hypothesis sort_sorts : forall l, Sorted older (sort_versions l).

(** The name [<version>_<description>.sql] of a version. *)
Definition declares (name : gostring) (v : Z) : Prop :=
  exists numbered description,
    name = numbered ++ bs "_" ++ description ++ migrationSuffix /\ "_"%char ∉ numbered /\
    Atoi numbered = Some v /\ firstMigrationVersion <= v.

(** What an entry is loaded as. *)
Definition loaded (e : gostring * result gostring gostring) (m : migration) : Prop :=
  declares (fst e) (version m) /\ file m = fst e /\ snd e = Ok (sql m) /\ checksum m = sha256_hex (sql m).

(** The versions are 1, 2, ... *)
Definition consecutive (corpus : list migration) : Prop :=
  version <$> corpus = seqZ 1 (Z.of_nat (length corpus)).

Lemma cut_byte_iff (c : ascii) s a b : cut s [c] = Some (a, b) <-> s = a ++ [c] ++ b /\ c ∉ a.
Proof.
  unfold cut. split.
  - destruct (index_of [c] s) as [i|] eqn:E; [|done]. intros [= <- <-].
    apply index_of_Some in E as (Hp & Hi & Hmin). apply has_prefix_spec in Hp as [r Hr]. split.
    + replace (drop (i + 1) s) with r; [by rewrite <- (take_drop i s) at 1; rewrite Hr|].
      by rewrite <- drop_drop, Hr.
    + intros Hin. apply list_elem_of_lookup in Hin as [j Hj]. apply lookup_take_Some in Hj as [Hj Hlt].
      specialize (Hmin j Hlt). apply not_true_iff_false in Hmin. apply Hmin, has_prefix_spec.
      exists (drop (S j) s). by apply drop_S.
  - intros [-> Hn]. rewrite (index_of_first a c [c] b) by done. cbn [mbind option_bind].
    rewrite take_app_length, app_assoc. replace (length a + length [c])%nat with (length (a ++ [c])) by (by rewrite length_app).
    by rewrite drop_app_length.
Qed.

Lemma versionOf_iff name v : versionOf name = Ok v <-> declares name v.
Proof.
  unfold versionOf, declares. split.
  - destruct (cut_suffix name migrationSuffix) as [described|] eqn:Es; [|done]. apply cut_suffix_iff in Es as ->.
    destruct (cut described (bs "_")) as [[numbered description]|] eqn:Ec; [|done].
    apply cut_byte_iff in Ec as [-> Hn]. case_bool_decide; [done|].
    destruct (Atoi numbered) as [v'|] eqn:Ea; [|done]. destruct (v' <? _) eqn:Ev; [done|]. intros [= ->].
    exists numbered, description. rewrite <- app_assoc. apply Z.ltb_ge in Ev. done.
  - intros (numbered & description & -> & Hn & Ha & Hv).
    replace (numbered ++ bs "_" ++ description ++ migrationSuffix)
      with ((numbered ++ bs "_" ++ description) ++ migrationSuffix) by (by rewrite <- !app_assoc).
    rewrite cut_suffix_app. assert (cut (numbered ++ bs "_" ++ description) (bs "_") = Some (numbered, description)) as ->
      by (by apply cut_byte_iff).
    case_bool_decide as E; [by rewrite E in Ha|]. rewrite Ha. by rewrite (proj2 (Z.ltb_ge _ _) Hv).
Qed.

Lemma readMigrations_iff entries read : readMigrations sha256_hex entries = Ok read <-> Forall2 loaded entries read.
Proof.
  revert read. induction entries as [|e entries IH]; intros read; cbn [readMigrations].
  - split; [intros [= <-]; constructor|]. by intros ->%Forall2_nil_inv_l.
  - split.
    + intros H. apply rbind_Ok in H as (m & Hm & H). apply rbind_Ok in H as (more & Hmore & H). injection H as <-.
      constructor; [|by apply IH]. unfold readMigration in Hm. destruct (versionOf (fst e)) as [v|] eqn:Ev; [|done].
      destruct (snd e) as [data|] eqn:Ed; [|done]. injection Hm as <-. apply versionOf_iff in Ev. done.
    + intros (m & more & (Hd & Hf & Hs & Hc) & Hall & ->)%Forall2_cons_inv_l. apply versionOf_iff in Hd.
      unfold readMigration. rewrite Hd, Hs. apply IH in Hall. rewrite Hall. destruct m. cbn in *. by subst.
Qed.

Lemma versionGapIn_iff want corpus :
  versionGapIn want corpus = None <-> version <$> corpus = seqZ want (Z.of_nat (length corpus)).
Proof.
  revert want. induction corpus as [|m rest IH]; intros want; [done|]. cbn [versionGapIn].
  change (version <$> m :: rest) with (version m :: (version <$> rest)). cbn [length].
  rewrite seqZ_cons by lia. replace (Z.pred (Z.of_nat (S (length rest)))) with (Z.of_nat (length rest)) by lia.
  destruct (Z.eqb_spec (version m) want) as [E|E]; cbn [negb]; [|split; [done|congruence]].
  rewrite IH. unfold Z.succ. split; [|congruence]. intros ->. by rewrite E.
Qed.

Lemma seqZ_no_duplicate want corpus :
  version <$> corpus = seqZ want (Z.of_nat (length corpus)) -> duplicateVersionIn corpus = None.
Proof.
  revert want. induction corpus as [|a [|b rest] IH]; intros want H; [done|done|].
  cbn [length fmap list_fmap] in H. rewrite seqZ_cons in H by lia. injection H as Ha H.
  assert (Hb : version b = Z.succ want). { rewrite seqZ_cons in H by lia. by injection H. }
  cbn [duplicateVersionIn]. destruct (Z.eqb_spec (version b) (version a)); [lia|]. apply (IH (Z.succ want)).
  etransitivity; [exact H|]. f_equal. cbn [length]. lia.
Qed.

(** The corpus is the directory, in order. A directory is accepted exactly when every file's
    name is <version>_<description>.sql and the versions are 1, 2, ... each once, whatever order the
    files are listed or sorted in; the corpus then holds each file once, by ascending version, with
    the very bytes read and their digest. *)
Theorem corpus_is_the_directory dir entries corpus :
  corpusFrom sha256_hex sort_versions dir (Ok entries) = Ok corpus <->
  exists read, Forall2 loaded entries read /\ corpus ≡ₚ read /\ consecutive corpus.
Proof.
  unfold corpusFrom. split.
  - intros H. apply rbind_Ok in H as (read & Hr & H). apply readMigrations_iff in Hr.
    destruct (duplicateVersionIn _); [done|]. destruct (versionGapIn _ _) eqn:Hg; [done|]. injection H as <-.
    apply versionGapIn_iff in Hg. exists read. split; [done|]. split; [apply sort_permutes|done].
  - intros (read & Hr & Hp & Hc). apply readMigrations_iff in Hr as ->. cbn [rbind].
    assert (sort_versions read = corpus) as ->.
    { eapply (seqZ_keys_unique version); [by rewrite sort_permutes|apply sort_sorts|exact Hc]. }
    rewrite (seqZ_no_duplicate _ _ Hc). by rewrite (proj2 (versionGapIn_iff firstMigrationVersion corpus) Hc).
Qed.

End CorpusLaws.

(** ** The verdict on a ledger *)

Definition row_of (m : migration) : appliedVersion := Applied (version m) (checksum m).

Section LedgerVerdict.
Context (corpus : list migration) (Hcorpus : consecutive corpus).

Lemma last_seqZ {A} (key : A -> Z) l : key <$> l = seqZ 1 (Z.of_nat (length l)) ->
  from_option key 0 (last l) = Z.of_nat (length l).
Proof.
  intros H. destruct (last l) as [x|] eqn:E.
  - assert (Hx : last (key <$> l) = Some (key x)) by (by rewrite fmap_last, E).
    rewrite H, last_lookup, length_seqZ, Nat2Z.id in Hx. apply lookup_seqZ in Hx as [Hx ?].
    cbn [from_option]. lia.
  - apply last_None in E. by rewrite E.
Qed.

Lemma highestEmbedded_consecutive : highestEmbedded corpus = Z.of_nat (length corpus).
Proof. rewrite <- (last_seqZ version corpus Hcorpus). unfold highestEmbedded. by destruct (last corpus). Qed.

Lemma firstOutOfOrder_None i recorded :
  firstOutOfOrder i recorded = None <->
  applied_version <$> recorded = seqZ (firstMigrationVersion + Z.of_nat i) (Z.of_nat (length recorded)).
Proof.
  revert i. induction recorded as [|row rest IH]; intros i; [done|]. cbn [firstOutOfOrder].
  change (applied_version <$> row :: rest) with (applied_version row :: (applied_version <$> rest)). cbn [length].
  rewrite seqZ_cons by lia. replace (Z.pred (Z.of_nat (S (length rest)))) with (Z.of_nat (length rest)) by lia.
  destruct (Z.eqb_spec (applied_version row) (firstMigrationVersion + Z.of_nat i)) as [E|E]; cbn [negb]; [|split; [done|congruence]].
  rewrite IH. replace (firstMigrationVersion + Z.of_nat (S i)) with (Z.succ (firstMigrationVersion + Z.of_nat i)) by lia.
  split; [|congruence]. intros ->. by rewrite E.
Qed.

Lemma firstOutOfOrder_Some i recorded j :
  firstOutOfOrder i recorded = Some j ->
  (i <= j)%nat /\ exists row, recorded !! (j - i)%nat = Some row /\ applied_version row <> firstMigrationVersion + Z.of_nat j.
Proof.
  revert i. induction recorded as [|row rest IH]; intros i; cbn [firstOutOfOrder]; [done|].
  destruct (Z.eqb_spec (applied_version row) (firstMigrationVersion + Z.of_nat i)) as [E|E]; cbn [negb].
  - intros (Hi & row' & Hr & Hv)%IH. split; [lia|]. exists row'. split; [|done].
    by replace (j - i)%nat with (S (j - S i))%nat by lia.
  - intros [= <-]. split; [lia|]. exists row. rewrite Nat.sub_diag. done.
Qed.

Lemma firstChanged_spec i recorded :
  (i + length recorded <= length corpus)%nat ->
  match firstChanged i corpus recorded with
  | None => False
  | Some None => applied_checksum <$> recorded = checksum <$> take (length recorded) (drop i corpus)
  | Some (Some j) => (i <= j)%nat /\ exists row m, recorded !! (j - i)%nat = Some row /\ corpus !! j = Some m /\
                       applied_checksum row <> checksum m
  end.
Proof.
  revert i. induction recorded as [|row rest IH]; intros i Hi; cbn [firstChanged]; [done|]. cbn [length] in Hi.
  destruct (lookup_lt_is_Some_2 corpus i) as [m Hm]; [lia|]. rewrite Hm. cbn [mbind option_bind].
  case_bool_decide as E; cbn [negb].
  - specialize (IH (S i) ltac:(lia)). destruct (firstChanged (S i) corpus rest) as [[j|]|]; [| |done].
    + destruct IH as (Hj & row' & m' & Hr & Hm' & Hd). split; [lia|]. exists row', m'.
      replace (j - i)%nat with (S (j - S i))%nat by lia. done.
    + cbn [length]. rewrite (drop_S _ _ _ Hm). cbn [take fmap list_fmap]. by f_equal.
  - split; [lia|]. exists row, m. by rewrite Nat.sub_diag.
Qed.

Lemma rows_agree recorded :
  (length recorded <= length corpus)%nat ->
  applied_version <$> recorded = seqZ 1 (Z.of_nat (length recorded)) ->
  applied_checksum <$> recorded = checksum <$> take (length recorded) corpus ->
  recorded = row_of <$> take (length recorded) corpus.
Proof.
  intros Hl Hv Hc. apply list_eq. intros i. destruct (decide (i < length recorded)%nat) as [Hi|Hi].
  - destruct (lookup_lt_is_Some_2 recorded i Hi) as [row Hr]. destruct (lookup_lt_is_Some_2 corpus i) as [m Hm]; [lia|].
    rewrite Hr, list_lookup_fmap, lookup_take_lt by done. rewrite Hm. cbn [fmap option_fmap option_map]. f_equal.
    assert (H1 : Some (applied_version row) = Some (version m)).
    { transitivity ((applied_version <$> recorded) !! i); [by rewrite list_lookup_fmap, Hr|].
      transitivity ((version <$> corpus) !! i); [|by rewrite list_lookup_fmap, Hm]. rewrite Hv, Hcorpus.
      rewrite !(proj2 (lookup_seqZ _ _ _ (1 + Z.of_nat i))) by lia. done. }
    assert (H2 : Some (applied_checksum row) = Some (checksum m)).
    { transitivity ((applied_checksum <$> recorded) !! i); [by rewrite list_lookup_fmap, Hr|].
      by rewrite Hc, list_lookup_fmap, lookup_take_lt, Hm. }
    destruct row, m. unfold row_of. cbn in *. congruence.
  - rewrite !lookup_ge_None_2; [done|rewrite length_fmap, length_take; lia|lia].
Qed.

Lemma recorded_prefix recorded : recorded `prefix_of` (row_of <$> corpus) <->
  (length recorded <= length corpus)%nat /\ recorded = row_of <$> take (length recorded) corpus.
Proof.
  rewrite fmap_take. split.
  - intros H. split; [apply prefix_length in H; by rewrite length_fmap in H|]. destruct H as [r ->]. by rewrite take_app_length.
  - intros [_ Hr]. exists (drop (length recorded) (row_of <$> corpus)). rewrite Hr at 1. by rewrite take_drop.
Qed.

Lemma usable_prefix recorded :
  exists verdict at_, whyUnusableLedger recorded corpus = Some (verdict, at_) /\
    (verdict = ledgerUsable <-> recorded `prefix_of` (row_of <$> corpus)) /\
    (verdict = ledgerAheadOfBinary <-> Z.of_nat (length corpus) < highestRecorded recorded) /\
    (verdict = ledgerNotAPrefix -> exists row, recorded !! at_ = Some row /\ applied_version row <> 1 + Z.of_nat at_) /\
    (verdict = ledgerFileChanged -> exists row m, recorded !! at_ = Some row /\ corpus !! at_ = Some m /\
       applied_version row = version m /\ applied_checksum row <> checksum m).
Proof.
  unfold whyUnusableLedger. rewrite highestEmbedded_consecutive.
  destruct (Nat.eqb_spec (length recorded) 0) as [E|E].
  { apply nil_length_inv in E as ->. exists ledgerUsable, 0%nat. split_and!; try done.
    - split; [intros _; apply prefix_nil|done].
    - split; [done|]. unfold highestRecorded. cbn. lia. }
  assert (Hpre : recorded `prefix_of` (row_of <$> corpus) ->
    applied_version <$> recorded = seqZ 1 (Z.of_nat (length recorded)) /\
    applied_checksum <$> recorded = checksum <$> take (length recorded) corpus /\
    (length recorded <= length corpus)%nat).
  { intros [Hl Hr]%recorded_prefix. rewrite Hr at 1 3. rewrite <- !list_fmap_compose. split_and!; [|done|done].
    change (applied_version ∘ row_of) with version. rewrite fmap_take, Hcorpus. unfold seqZ.
    rewrite <- fmap_take, take_seq, Nat2Z.id, Nat2Z.id, Nat.min_l by done. done. }
  assert (Hlast : applied_version <$> recorded = seqZ 1 (Z.of_nat (length recorded)) ->
    highestRecorded recorded = Z.of_nat (length recorded)).
  { intros H. rewrite <- (last_seqZ applied_version recorded H). unfold highestRecorded. by destruct (last recorded). }
  destruct (Z.ltb_spec (Z.of_nat (length corpus)) (highestRecorded recorded)) as [Hh|Hh].
  { exists ledgerAheadOfBinary, (length recorded - 1)%nat. split_and!; try done. split; [done|].
    intros (Hv & _ & Hl)%Hpre. rewrite (Hlast Hv) in Hh. lia. }
  destruct (firstOutOfOrder 0 recorded) as [i|] eqn:Eo.
  { apply firstOutOfOrder_Some in Eo as Hs. rewrite Nat.sub_0_r in Hs. destruct Hs as (_ & row & Hr & Hv).
    exists ledgerNotAPrefix, i. split_and!; try done; [|split; [done|lia]|by exists row].
    split; [done|]. intros (Hv' & _ & _)%Hpre. by apply (firstOutOfOrder_None 0) in Hv'; congruence. }
  apply firstOutOfOrder_None in Eo. change (firstMigrationVersion + Z.of_nat 0) with 1 in Eo.
  rewrite (Hlast Eo) in Hh. pose proof (firstChanged_spec 0 recorded ltac:(lia)) as Hc.
  destruct (firstChanged 0 corpus recorded) as [[j|]|] eqn:Ec; [| |done]; cbn [mbind option_bind].
  - destruct Hc as (_ & row & m & Hr & Hm & Hd). rewrite Nat.sub_0_r in Hr.
    exists ledgerFileChanged, j. split_and!; try done.
    + split; [done|]. intros (_ & Hcs & _)%Hpre. exfalso. apply Hd.
      assert (Some (applied_checksum row) = Some (checksum m)); [|congruence].
      transitivity ((applied_checksum <$> recorded) !! j); [by rewrite list_lookup_fmap, Hr|].
      rewrite Hcs, list_lookup_fmap, lookup_take_lt, Hm by (by eapply lookup_lt_Some). done.
    + split; [done|]. rewrite (Hlast Eo). lia.
    + intros _. exists row, m. split_and!; try done. apply lookup_lt_Some in Hr as Hj.
      assert (Some (applied_version row) = Some (version m)); [|congruence].
      transitivity ((applied_version <$> recorded) !! j); [by rewrite list_lookup_fmap, Hr|].
      transitivity ((version <$> corpus) !! j); [|by rewrite list_lookup_fmap, Hm]. rewrite Eo, Hcorpus.
      rewrite !(proj2 (lookup_seqZ _ _ _ (1 + Z.of_nat j))) by lia. done.
  - exists ledgerUsable, 0%nat. split_and!; try done; [|split; [done|rewrite (Hlast Eo); lia]].
    split; [|done]. intros _. apply recorded_prefix. split; [lia|]. apply rows_agree; [lia|done|done].
Qed.

(** The ledger is judged by prefix. Whatever rows it holds, the verdict is reached without a
    panic, and the ledger is usable exactly when its rows are, one for one with their checksums, the
    first migrations of the corpus; it is refused as ahead exactly when its highest version is one
    this binary does not embed, and every other refusal points at a row that disagrees: one that
    breaks the ascending run, or one whose migration's file has changed. *)
Theorem ledger_judged_by_prefix recorded :
  exists verdict at_, whyUnusableLedger recorded corpus = Some (verdict, at_) /\
    (verdict = ledgerUsable <-> recorded `prefix_of` (row_of <$> corpus)) /\
    (verdict = ledgerAheadOfBinary <-> Z.of_nat (length corpus) < highestRecorded recorded) /\
    (verdict = ledgerNotAPrefix -> exists row, recorded !! at_ = Some row /\ applied_version row <> 1 + Z.of_nat at_) /\
    (verdict = ledgerFileChanged -> exists row m, recorded !! at_ = Some row /\ corpus !! at_ = Some m /\
       applied_version row = version m /\ applied_checksum row <> checksum m) /\
    (ErrSchemaAhead ∈ wraps (refusedLedger verdict at_ recorded corpus) <-> verdict = ledgerAheadOfBinary).
Proof.
  destruct (usable_prefix recorded) as (verdict & at_ & H1 & H2 & H3 & H4 & H5). exists verdict, at_. split_and!; try done.
  destruct verdict; cbn; split; try done; try (by intros ?%not_elem_of_nil); intros _; by left.
Qed.

End LedgerVerdict.

(** ** Any number of replicas migrate one database *)

Section Installing.
Context {O : Type} (server : script_server O) (Sanitize : list gostring -> gostring) (quoted : gostring -> gostring)
  (corpus : list migration).
Hypothesis Hcorpus : consecutive corpus.

(** A script leaves the ledger's rows alone, and the first creates the ledger. *)
Hypothesis scripts_keep_the_ledger : forall m w w',
  m ∈ corpus -> execute server (sql m) w = Ok w' -> ledger w' = Some (default ∅ (ledger (O := O) w)).

Definition rows_of (ms : list migration) : gmap Z gostring :=
  list_to_map ((λ m, (version m, checksum m)) <$> ms).

(** The ledger holds exactly the first [k] migrations. *)
Definition holds_first (k : nat) (w : world O) : Prop :=
  (k <= length corpus)%nat /\ default ∅ (ledger w) = rows_of (take k corpus).

Definition sound (w : world O) : Prop := exists k, holds_first k w.
Definition reaches (j : nat) (w : world O) : Prop := exists k, (j <= k)%nat /\ holds_first k w.

(** The one way the ledger grows: the next migration's script run, and its row added, at once. *)
Inductive install (w : world O) : world O -> Prop :=
  | Install k m w1 :
      holds_first k w -> corpus !! k = Some m -> execute server (sql m) w = Ok w1 ->
      install w (World (Some (rows_of (take (S k) corpus))) (rest_of w1)).

(** Work that does not concern the ledger. *)
Definition elsewhere_only (w w' : world O) : Prop := ledger w' = ledger w.

Definition evolves : relation (world O) := rtc (λ w w', install w w' \/ elsewhere_only w w').

#[local] Instance evolves_preorder : PreOrder evolves.
Proof. unfold evolves. apply _. Qed.

Lemma version_lookup k m : corpus !! k = Some m -> version m = 1 + Z.of_nat k.
Proof.
  intros Hm. assert (H : (version <$> corpus) !! k = Some (version m)) by (by rewrite list_lookup_fmap, Hm).
  rewrite Hcorpus in H. apply lookup_seqZ in H. lia.
Qed.

Lemma versions_take k : (k <= length corpus)%nat -> version <$> take k corpus = seqZ 1 (Z.of_nat k).
Proof.
  intros Hk. rewrite fmap_take, Hcorpus. unfold seqZ. by rewrite <- fmap_take, take_seq, !Nat2Z.id, Nat.min_l by done.
Qed.

Lemma rows_of_lookup k v :
  is_Some (rows_of (take k corpus) !! v) <-> 1 <= v <= Z.of_nat (k `min` length corpus).
Proof.
  unfold rows_of. rewrite <- not_eq_None_Some, <- not_elem_of_list_to_map, <- list_fmap_compose.
  change (fst ∘ (λ m, (version m, checksum m))) with version. rewrite fmap_take, Hcorpus. unfold seqZ.
  rewrite <- fmap_take, take_seq, Nat2Z.id. split.
  - intros H. apply dec_stable in H. apply list_elem_of_fmap in H as (i & -> & [_ Hi]%elem_of_seq). lia.
  - intros Hv H. apply H. apply list_elem_of_fmap. exists (Z.to_nat (v - 1)). rewrite elem_of_seq. lia.
Qed.

Lemma rows_of_snoc k m : corpus !! k = Some m ->
  rows_of (take (S k) corpus) = <[version m := checksum m]> (rows_of (take k corpus)).
Proof.
  intros Hm. unfold rows_of at 1. rewrite (take_S_r _ _ _ Hm), fmap_app. cbn [fmap list_fmap].
  rewrite list_to_map_snoc; [done|]. apply not_elem_of_list_to_map, eq_None_not_Some.
  change (~ is_Some (rows_of (take k corpus) !! version m)). rewrite rows_of_lookup, (version_lookup _ _ Hm).
  apply lookup_lt_Some in Hm. lia.
Qed.

Lemma holds_first_inj k j w : holds_first k w -> holds_first j w -> k = j.
Proof.
  intros [Hk Hw] [Hj Hw']. assert (E : rows_of (take k corpus) = rows_of (take j corpus)) by congruence.
  assert (forall v, is_Some (rows_of (take k corpus) !! v) <-> is_Some (rows_of (take j corpus) !! v)) as H by (by rewrite E).
  setoid_rewrite rows_of_lookup in H. pose proof (H (Z.of_nat k)). pose proof (H (Z.of_nat j)). lia.
Qed.

(** What a migration committed by this run comes to. *)
Lemma recorded_install w m j w1 s w' :
  reaches j w -> corpus !! j = Some m -> execute server (sql m) w = Ok w1 ->
  record_version server s m w1 = Ok w' -> install w w' /\ holds_first (S j) w'.
Proof.
  intros (k & Hjk & Hk) Hm He Hr. assert (Hin : m ∈ corpus) by (by eapply list_elem_of_lookup_2).
  pose proof (scripts_keep_the_ledger m w w1 Hin He) as Hl. destruct Hk as [Hkl Hrows].
  unfold record_version in Hr. destruct (ledger_trip s LRecord); [|done]. cbn [rbind] in Hr. rewrite Hl in Hr.
  case_bool_decide as Hv; [done|]. injection Hr as <-. rewrite Hrows in *.
  assert (k = j) as ->.
  { rewrite rows_of_lookup, (version_lookup _ _ Hm) in Hv. apply lookup_lt_Some in Hm. lia. }
  rewrite <- rows_of_snoc by done. split; [by eapply Install|]. apply lookup_lt_Some in Hm. by split.
Qed.

Lemma install_grows w w' j : install w w' -> reaches j w -> reaches j w'.
Proof.
  intros [k m w1 Hk Hm He] (k' & Hj & Hk'). rewrite (holds_first_inj _ _ _ Hk' Hk) in Hj.
  exists (S k). apply lookup_lt_Some in Hm. by repeat split; try lia.
Qed.

Lemma evolves_grows w w' j : evolves w w' -> reaches j w -> reaches j w'.
Proof.
  induction 1 as [|w v u [Hs|Hs] _ IH]; [done| |]; intros Hj; apply IH; [by eapply install_grows|].
  destruct Hj as (k & Hk & Hk1 & Hk2). exists k. split; [done|]. split; [done|]. by rewrite Hs.
Qed.

Lemma sound_reaches w : sound w <-> reaches 0 w.
Proof. unfold sound, reaches. split; [intros [k Hk]; exists k; split; [lia|done]|intros (k & _ & Hk); eauto]. Qed.

Lemma evolves_sound w w' : evolves w w' -> sound w -> sound w'.
Proof. rewrite !sound_reaches. apply evolves_grows. Qed.

(** What a run's own transactions assume of everyone else's. *)
Definition well_behaved (serving : nat -> ledger_session O) : Prop :=
  forall n w, sound w -> evolves w (meantime (serving n) w).

Lemma applyMigration_evolves s m j w f w' :
  evolves w (meantime s w) -> reaches j w -> corpus !! j = Some m ->
  applyMigration server s m w = (f, w') -> evolves w w' /\ (f = None -> holds_first (S j) w').
Proof.
  intros He Hj Hm. unfold applyMigration. set (v := meantime s w) in *.
  assert (Hv : reaches j v) by (by eapply evolves_grows).
  match goal with |- (match ?b with _ => _ end = _) -> _ => destruct b as [u|g] eqn:Eb end.
  2: { intros [= <- <-]. by split. }
  assert (Hu : install v u /\ holds_first (S j) u).
  { apply rbind_Ok in Eb as (? & _ & Eb). apply rbind_Ok in Eb as (? & _ & Eb). apply rbind_Ok in Eb as (w1 & Hs & Hr).
    unfold apply_script in Hs. destruct (ledger_trip s LScript); [|done]. cbn [rbind] in Hs.
    destruct (execute server (sql m) v) as [w2|] eqn:Ex; [|done]. injection Hs as ->.
    unfold step_named in Hr. destruct (record_version server s m w1) as [u'|] eqn:Er; [|done]. injection Hr as ->.
    by eapply recorded_install. }
  assert (Hvu : evolves w u) by (eapply rtc_r; [exact He|by left; apply Hu]).
  destruct (ledger_fails s LCommit); intros [= <- <-]; [|by split; [|intros _; apply Hu]].
  split; [|done]. by destruct (kept s).
Qed.

Lemma apply_pending_evolves serving embedded n j run w run' f w' :
  well_behaved serving -> embedded `prefix_of` corpus -> reaches j w -> (j <= length embedded)%nat ->
  apply_pending server serving n (drop j embedded) run w = (run', f, w') ->
  evolves w w' /\
  exists i, (j <= i <= length embedded)%nat /\ reaches i w' /\
    applied_now run' = applied_now run ++ seqZ (1 + Z.of_nat j) (Z.of_nat (i - j)) /\
    (f = None -> i = length embedded) /\
    ((i = j /\ recorded_now run' = recorded_now run) \/ recorded_now run' = Z.of_nat i).
Proof.
  intros Hw Hpre. remember (length embedded - j)%nat as d eqn:Ed. revert n j run w Ed.
  induction d as [|d IH]; intros n j run w Ed Hj Hjl.
  - rewrite drop_ge by lia. cbn [apply_pending]. intros [= <- <- <-]. split; [by apply rtc_refl|]. exists j.
    rewrite Nat.sub_diag. cbn. rewrite app_nil_r. split_and!; first [done|lia|by left].
  - destruct (lookup_lt_is_Some_2 embedded j) as [m Hm]; [lia|]. rewrite (drop_S _ _ _ Hm). cbn [apply_pending].
    assert (Hc : corpus !! j = Some m) by (by eapply prefix_lookup_Some).
    assert (Hs : sound w). { apply sound_reaches. destruct Hj as (k & ? & ?). exists k. split; [lia|done]. }
    destruct (applyMigration server (serving n) m w) as [g v] eqn:Ea.
    destruct (applyMigration_evolves _ _ _ _ _ _ (Hw n w Hs) Hj Hc Ea) as [Hev Hok]. destruct g as [g|].
    + intros [= <- <- <-]. split; [done|]. exists j. rewrite Nat.sub_diag. cbn. rewrite app_nil_r.
      split_and!; first [done|lia|by left|by eapply evolves_grows].
    + specialize (Hok eq_refl). intros H. destruct (IH (S n) (S j) _ v ltac:(lia) ltac:(by exists (S j)) ltac:(lia) H)
        as (Hev' & i & Hi & Hr & Ha & Hf & Hrec). split; [by (etrans; [exact Hev|exact Hev'])|]. exists i.
      split_and!; try done; try lia.
      * rewrite Ha. cbn [applied_now]. rewrite <- app_assoc, (version_lookup _ _ Hc). f_equal.
        rewrite (seqZ_cons (1 + Z.of_nat j)) by lia. cbn [app]. do 2 f_equal; lia.
      * right. destruct Hrec as [[-> ->]| ->]; [|done]. cbn [recorded_now]. rewrite (version_lookup _ _ Hc). lia.
Qed.

Lemma highestRecorded_take k : (k <= length corpus)%nat -> highestRecorded (row_of <$> take k corpus) = Z.of_nat k.
Proof.
  intros Hk. assert (Hlen : length (row_of <$> take k corpus) = k) by (rewrite length_fmap, length_take; lia).
  assert (Hkv : applied_version <$> (row_of <$> take k corpus) = seqZ 1 (Z.of_nat (length (row_of <$> take k corpus)))).
  { rewrite Hlen, <- list_fmap_compose. change (applied_version ∘ row_of) with version. by apply versions_take. }
  apply (last_seqZ applied_version) in Hkv. rewrite Hlen in Hkv. rewrite <- Hkv. unfold highestRecorded. by destruct (last _).
Qed.

Lemma ledger_rows_of k : (k <= length corpus)%nat -> ledger_rows (rows_of (take k corpus)) = row_of <$> take k corpus.
Proof.
  intros Hk. unfold ledger_rows.
  assert (Hnd : NoDup ((λ m, (version m, checksum m)) <$> take k corpus).*1).
  { rewrite <- list_fmap_compose. change (fst ∘ (λ m, (version m, checksum m))) with version.
    rewrite versions_take by done. apply NoDup_seqZ. }
  assert (E : merge_sort version_le (map_to_list (rows_of (take k corpus))) = (λ m, (version m, checksum m)) <$> take k corpus).
  { apply (seqZ_keys_unique fst) with (a := 1) (n := Z.of_nat k).
    - rewrite merge_sort_Permutation. unfold rows_of. by apply map_to_list_to_map.
    - assert (Total version_le) by (intros a b; unfold version_le; lia). apply (Sorted_merge_sort version_le).
    - rewrite <- list_fmap_compose. change (fst ∘ (λ m, (version m, checksum m))) with version.
      by apply versions_take. }
  rewrite E, <- list_fmap_compose. done.
Qed.

Lemma recorded_of k (w : world O) : holds_first k w -> default [] (ledger_rows <$> ledger w) = row_of <$> take k corpus.
Proof.
  intros [Hk Hw]. destruct (ledger w) as [rows|]; cbn in *; [by rewrite Hw, ledger_rows_of|].
  rewrite <- ledger_rows_of by done. rewrite <- Hw. done.
Qed.

Lemma readLedger_reads (s : ledger_session O) (w : world O) answer v :
  readLedger s w = (answer, v) -> v = meantime s w /\
  (forall recorded, answer = Ok recorded -> recorded = ledger_rows <$> ledger v).
Proof.
  unfold readLedger. intros [= <- <-]. split; [done|]. intros recorded.
  match goal with |- match ?b with _ => _ end = _ -> _ => destruct b as [r|] eqn:E end; [|done]. intros [= <-].
  do 3 apply rbind_Ok in E as (? & _ & E). destruct (ledger (meantime s w)); [|by injection E as <-].
  apply rbind_Ok in E as (? & _ & E). by injection E as <-.
Qed.

Lemma prefix_consecutive embedded : embedded `prefix_of` corpus -> consecutive embedded.
Proof.
  intros Hp. pose proof (prefix_length _ _ Hp) as Hl. unfold consecutive. rewrite <- versions_take by done. f_equal.
  destruct Hp as [r ->]. by rewrite take_app_length.
Qed.

Lemma migrate_installs serving schemaName embedded w :
  embedded `prefix_of` corpus -> well_behaved serving -> sound w ->
  exists run f w', migrate server Sanitize quoted serving schemaName embedded w = Some (run, f, w') /\
    evolves w w' /\ sound w' /\
    (exists j n, applied_now run = seqZ (1 + Z.of_nat j) (Z.of_nat n) /\ (j + n <= length embedded)%nat /\
       reaches (if decide (n = 0)%nat then 0 else j + n)%nat w') /\
    (f = None -> reaches (length embedded) w' /\ recorded_now run = Z.of_nat (length embedded)).
Proof.
  intros Hpre Hw Hs. unfold migrate. destruct (searchPathStatement Sanitize schemaName) as [path|fault].
  2: { eexists _, _, w. split_and!; [done|by apply rtc_refl|done| |done]. exists 0%nat, 0%nat. cbn.
       split_and!; [done|lia|by apply sound_reaches]. }
  destruct (readLedger (serving 0%nat) w) as [answer v] eqn:Er. apply readLedger_reads in Er as [-> Hans].
  set (v := meantime (serving 0%nat) w) in *. assert (Hev : evolves w v) by (by apply Hw).
  assert (Hsv : sound v) by (by eapply evolves_sound).
  assert (Hstop : forall f : failure, exists (run : migrationRun) (f' : option failure) (w' : world O), Some (no_run, Some f, v) = Some (run, f', w') /\
    evolves w w' /\ sound w' /\
    (exists j n, applied_now run = seqZ (1 + Z.of_nat j) (Z.of_nat n) /\ (j + n <= length embedded)%nat /\
       reaches (if decide (n = 0)%nat then 0 else j + n)%nat w') /\
    (f' = None -> reaches (length embedded) w' /\ recorded_now run = Z.of_nat (length embedded))).
  { intros f. exists no_run, (Some f), v. split_and!; try done. exists 0%nat, 0%nat. cbn.
    split_and!; [done|lia|by apply sound_reaches]. }
  destruct answer as [recorded|f]; [|apply Hstop]. rewrite (Hans _ eq_refl). destruct Hsv as [k Hk].
  rewrite (recorded_of k v Hk).
  destruct (usable_prefix embedded (prefix_consecutive _ Hpre) (row_of <$> take k corpus))
    as (verdict & at_ & -> & Hu & _). cbn [mbind option_bind]. case_bool_decide as Hv; cbn [negb]; [|apply Hstop].
  apply Hu in Hv. assert (Hkl : (k <= length embedded)%nat).
  { apply prefix_length in Hv. rewrite !length_fmap, length_take in Hv. destruct Hk. lia. }
  assert (Hlen : length (row_of <$> take k corpus) = k) by (rewrite length_fmap, length_take; destruct Hk; lia).
  rewrite Hlen. rewrite (proj2 (Nat.ltb_ge _ _)) by lia.
  destruct (apply_pending server serving 1 (drop k embedded) _ v) as [[run f] w'] eqn:Ep.
  destruct (apply_pending_evolves _ _ _ _ _ _ _ _ _ Hw Hpre ltac:(by exists k) Hkl Ep)
    as (Hev' & i & Hi & Hr & Ha & Hf & Hrec). cbn [applied_now app] in Ha.
  exists run, f, w'. split_and!; [done|by (etrans; [exact Hev|exact Hev'])| | |].
  - eapply evolves_sound; [exact Hev'|by exists k].
  - exists k, (i - k)%nat. split_and!; [done|lia|]. case_decide; [|by replace (k + (i - k))%nat with i by lia].
    eapply evolves_grows; [exact Hev'|]. exists k. split; [lia|done].
  - intros Hnone. rewrite <- (Hf Hnone). split; [done|]. destruct Hrec as [[-> ->]| ->]; [|done].
    apply highestRecorded_take, Hk.
Qed.

(** C29. Every migration is applied once, in order, whoever applies it. However many replicas
    migrate the database at once, locked or not, with this binary's corpus or a shorter or longer
    one of the same history, and whatever fails -- an answer of a commit included -- the database
    only ever moves by installing the next migration, script and ledger row together, so the ledger
    always holds exactly the first migrations of the history. A run never panics; it applies
    consecutive versions; one that reports success has left every migration it embeds recorded. *)
Theorem migrations_install_once serving schemaName embedded w :
  embedded `prefix_of` corpus -> well_behaved serving -> sound w ->
  exists run f w', migrate server Sanitize quoted serving schemaName embedded w = Some (run, f, w') /\
    evolves w w' /\ sound w' /\
    (exists j n, applied_now run = seqZ (1 + Z.of_nat j) (Z.of_nat n) /\ (j + n <= length embedded)%nat /\
       reaches (if decide (n = 0)%nat then 0 else j + n)%nat w') /\
    (f = None -> reaches (length embedded) w' /\ recorded_now run = Z.of_nat (length embedded)).
Proof. apply migrate_installs. Qed.

(** A session in which nobody else writes and nothing fails. *)
Definition calm (s : ledger_session O) : Prop := (forall w, meantime s w = w) /\ forall c, ledger_fails s c = None.

(** The first [k] migrations, and no ledger before the first. *)
Definition at_turn (k : nat) (w : world O) : Prop := holds_first k w /\ (ledger w = None <-> k = 0%nat).

(** Every script runs at its turn. *)
Definition scripts_run : Prop :=
  forall j m w, corpus !! j = Some m -> at_turn j w -> exists w', execute server (sql m) w = Ok w'.

Lemma applyMigration_calm s m j w :
  calm s -> scripts_run -> at_turn j w -> corpus !! j = Some m ->
  exists w', applyMigration server s m w = (None, w') /\ at_turn (S j) w'.
Proof.
  intros [Hm Hf] Hrun [Hj Hl] Hc. destruct (Hrun j m w Hc (conj Hj Hl)) as [w1 He].
  assert (Hin : m ∈ corpus) by (by eapply list_elem_of_lookup_2).
  assert (exists w', record_version server s m w1 = Ok w') as [w' Hr].
  { unfold record_version, ledger_trip. rewrite Hf. cbn [rbind]. rewrite (scripts_keep_the_ledger m w w1 Hin He), (proj2 Hj).
    case_bool_decide as Hv; [|eauto]. rewrite rows_of_lookup, (version_lookup _ _ Hc) in Hv. lia. }
  assert (Hrj : reaches j w) by (by exists j). destruct (recorded_install w m j w1 s w' Hrj Hc He Hr) as [_ Hj'].
  assert (is_Some (ledger w')) as [rows El].
  { clear -Hr. unfold record_version in Hr. apply rbind_Ok in Hr as (? & _ & Hr). destruct (ledger w1); [|done].
    case_bool_decide; [done|]. injection Hr as <-. eauto. }
  exists w'. split; [|by split; [|rewrite El]]. unfold applyMigration, apply_script, ledger_trip, step_named. rewrite Hm, !Hf. cbn [rbind].
  rewrite He. cbn [rbind]. rewrite Hr. by rewrite ?Hf.
Qed.

Lemma apply_pending_calm serving embedded n j run w :
  (forall i, calm (serving i)) -> scripts_run -> embedded `prefix_of` corpus -> at_turn j w -> (j <= length embedded)%nat ->
  exists w', apply_pending server serving n (drop j embedded) run w =
    (MigrationRun (applied_now run ++ seqZ (1 + Z.of_nat j) (Z.of_nat (length embedded - j)))
       (if decide (j = length embedded) then recorded_now run else Z.of_nat (length embedded)), None, w') /\
    at_turn (length embedded) w'.
Proof.
  intros Hcalm Hrun Hpre. remember (length embedded - j)%nat as d eqn:Ed. revert n j run w Ed.
  induction d as [|d IH]; intros n j run w Ed Hj Hjl.
  - assert (j = length embedded) as -> by lia. rewrite drop_all. cbn [apply_pending]. exists w. split; [|done].
    rewrite decide_True by done. cbn. rewrite app_nil_r. by destruct run.
  - destruct (lookup_lt_is_Some_2 embedded j) as [m Hm]; [lia|]. rewrite (drop_S _ _ _ Hm). cbn [apply_pending].
    assert (Hc : corpus !! j = Some m) by (by eapply prefix_lookup_Some).
    destruct (applyMigration_calm (serving n) m j w (Hcalm n) Hrun Hj Hc) as (v & -> & Hv).
    destruct (IH (S n) (S j) (MigrationRun (applied_now run ++ [version m]) (version m)) v ltac:(lia) Hv ltac:(lia))
      as (w' & -> & Hw'). exists w'. split; [|done]. rewrite (decide_False (P := j = length embedded)) by lia. do 3 f_equal.
    + cbn [applied_now]. rewrite <- app_assoc. f_equal. rewrite (version_lookup _ _ Hc), (seqZ_cons (1 + Z.of_nat j)) by lia.
      cbn [app]. do 2 f_equal; lia.
    + case_decide; [|done]. cbn [recorded_now]. rewrite (version_lookup _ _ Hc). lia.
Qed.

Lemma readLedger_calm s w : calm s -> readLedger s w = (Ok (ledger_rows <$> ledger w), w).
Proof.
  intros [Hm Hf]. unfold readLedger, ledger_trip. rewrite Hm, !Hf. cbn [rbind]. by destruct (ledger w).
Qed.

Lemma migrate_from serving schemaName path embedded k w :
  (forall i, calm (serving i)) -> searchPathStatement Sanitize schemaName = Ok path ->
  embedded `prefix_of` corpus -> holds_first k w -> (k <= length embedded)%nat ->
  migrate server Sanitize quoted serving schemaName embedded w =
    Some (apply_pending server serving 1 (drop k embedded) (MigrationRun [] (Z.of_nat k)) w).
Proof.
  intros Hcalm Hpath Hpre Hk Hkl. unfold migrate. rewrite Hpath, (readLedger_calm _ _ (Hcalm 0%nat)), (recorded_of k w Hk).
  assert (Hlen : length (row_of <$> take k corpus) = k) by (rewrite length_fmap, length_take; destruct Hk; lia).
  destruct (usable_prefix embedded (prefix_consecutive _ Hpre) (row_of <$> take k corpus))
    as (verdict & at_ & -> & [_ Hu] & _). cbn [mbind option_bind].
  rewrite bool_decide_eq_true_2; cbn [negb].
  - rewrite Hlen, (proj2 (Nat.ltb_ge _ _)) by lia. do 4 f_equal. apply highestRecorded_take, Hk.
  - apply Hu. destruct Hpre as [r ->]. rewrite take_app_le by lia. exists (row_of <$> drop k embedded).
    by rewrite <- fmap_app, take_drop.
Qed.

(** Left alone, a migration finishes and is then done. On a database without a ledger,
    or with one that holds a first part of the corpus, with nobody else at work, no call failing and every script running at its turn, a run
    applies exactly the missing versions, in order, and records the last; the database then reads as
    the version this binary expects, and a second run applies nothing and changes nothing. *)
Theorem migrate_completes serving schemaName path embedded k w :
  (forall i, calm (serving i)) -> scripts_run -> searchPathStatement Sanitize schemaName = Ok path ->
  embedded `prefix_of` corpus -> embedded <> [] -> at_turn k w -> (k <= length embedded)%nat ->
  exists w', migrate server Sanitize quoted serving schemaName embedded w =
      Some (MigrationRun (seqZ (1 + Z.of_nat k) (Z.of_nat (length embedded - k))) (Z.of_nat (length embedded)), None, w') /\
    at_turn (length embedded) w' /\
    AppliedVersion Sanitize quoted (serving 0%nat) schemaName w' = ExpectedVersion quoted (Ok embedded) /\
    migrate server Sanitize quoted serving schemaName embedded w' = Some (MigrationRun [] (Z.of_nat (length embedded)), None, w').
Proof.
  intros Hcalm Hrun Hpath Hpre Hne Hk Hkl. rewrite (migrate_from _ _ _ _ k w Hcalm Hpath Hpre (proj1 Hk) Hkl).
  destruct (apply_pending_calm serving embedded 1 k (MigrationRun [] (Z.of_nat k)) w Hcalm Hrun Hpre Hk Hkl) as (w' & -> & Hw').
  exists w'. split; [cbn; case_decide; [by subst|done]|]. split; [done|]. split.
  - unfold AppliedVersion, ExpectedVersion. rewrite Hpath, (readLedger_calm _ _ (Hcalm 0%nat)). cbn [fst].
    rewrite (highestEmbedded_consecutive embedded (prefix_consecutive _ Hpre)).
    assert (Hrec := recorded_of _ _ (proj1 Hw')). destruct (ledger w') as [rows|] eqn:El.
    + cbn in Hrec |- *. rewrite Hrec. f_equal. apply highestRecorded_take, Hw'.
    + exfalso. cbn in Hrec. destruct embedded as [|m embedded]; [done|]. destruct Hpre as [r ->]. done.
  - rewrite (migrate_from _ _ _ _ (length embedded) w' Hcalm Hpath Hpre (proj1 Hw')) by lia. by rewrite drop_all.
Qed.

End Installing.

(** What every transaction and every script keeps, a whole run keeps. *)
Lemma migrate_preserves {O} (server : script_server O) Sanitize quoted (P : world O -> Prop) serving schemaName corpus w out :
  (forall n w, P w -> P (meantime (serving n) w)) ->
  (forall script w w', P w -> execute server script w = Ok w' -> P w') ->
  (forall rows w, P w -> P (World (Some rows) (rest_of w))) ->
  P w -> migrate server Sanitize quoted serving schemaName corpus w = Some out -> P out.2.
Proof.
  intros Hmean Hexec Hrow Hw. unfold migrate. destruct (searchPathStatement _ _); [|by intros [= <-]].
  destruct (readLedger (serving 0%nat) w) as [answer v] eqn:Er. unfold readLedger in Er. injection Er as Ea <-.
  apply (Hmean 0%nat) in Hw. destruct answer as [recorded|f]; [|by intros [= <-]]. clear Ea.
  destruct (whyUnusableLedger _ _) as [[verdict at_]|]; [|done]. cbn [mbind option_bind].
  case_bool_decide; cbn [negb]; [|by intros [= <-]]. destruct (_ <? _)%nat; [done|]. intros [= <-].
  generalize (MigrationRun [] (highestRecorded (default [] recorded))), 1%nat.
  generalize (drop (length (default [] recorded)) corpus). intros pending.
  revert Hw. generalize (meantime (serving 0%nat) w). induction pending as [|m rest IH]; intros v Hv run n; cbn [apply_pending]; [done|].
  destruct (applyMigration server (serving n) m v) as [f u] eqn:Ea'.
  assert (Hu : P u).
  { revert Ea'. unfold applyMigration. apply (Hmean n) in Hv. set (v' := meantime (serving n) v) in *.
    match goal with |- (match ?b with _ => _ end = _) -> _ => destruct b as [x|g] eqn:Eb end; [|by intros [= <- <-]].
    assert (Hx : P x).
    { do 2 apply rbind_Ok in Eb as (? & _ & Eb). apply rbind_Ok in Eb as (w1 & Hs & Hr).
      unfold apply_script in Hs. destruct (ledger_trip _ LScript); [|done]. cbn [rbind] in Hs.
      destruct (execute server (sql m) v') as [w2|] eqn:Ex; [|done]. injection Hs as ->. apply (Hexec _ _ _ Hv) in Ex.
      unfold step_named, record_version in Hr. destruct (ledger_trip _ LRecord); [|done]. cbn [rbind] in Hr.
      destruct (ledger w1); [|done]. case_bool_decide; [done|]. injection Hr as <-. by apply Hrow. }
    destruct (ledger_fails _ LCommit); intros [= <- <-]; [by destruct (kept _)|done]. }
  destruct f; [done|]. by apply IH.
Qed.

(** ** At concrete inputs *)

(** A directory of two files, listed out of order, and a database that logs the scripts it ran. *)
Definition ledger_script : gostring := bs "CREATE TABLE schema_version ();".
Definition sample_entries : list (gostring * result gostring gostring) :=
  [(bs "0002_objects.sql", Ok (bs "CREATE TABLE events ();")); (bs "0001_ledger.sql", Ok ledger_script)].
Definition sample_digest (data : gostring) : gostring := format_int (Z.of_nat (length data)).
Definition sample_corpus : list migration :=
  [Migration 1 (bs "0001_ledger.sql") ledger_script (sample_digest ledger_script);
   Migration 2 (bs "0002_objects.sql") (bs "CREATE TABLE events ();") (sample_digest (bs "CREATE TABLE events ();"))].

Definition table_exists : raw_error := RawError (bs "relation already exists") (Some (bs "42P07", bs "relation already exists")).
Definition sample_scripts : script_server (list gostring) := ScriptServer
  (λ script w,
     match ledger w with
     | None => if bool_decide (script = ledger_script) then Ok (World (Some ∅) [script])
               else Err (RawError (bs "no schema") None)
     | Some rows => if bool_decide (script = ledger_script) then Err table_exists
                    else Ok (World (Some rows) (rest_of w ++ [script]))
     end)
  (λ v, RawError (bs "duplicate key " ++ format_int v) (Some (bs "23505", bs "duplicate key")))
  (RawError (bs "no ledger") None).
Definition fresh : world (list gostring) := World None [].
Definition calm_ledger : ledger_session (list gostring) := LedgerSession id (λ _, None) false.

Lemma sample_consecutive : consecutive sample_corpus.
Proof. by_compute. Qed.

Lemma corpus_is_the_directory_witness :
  corpusFrom sample_digest (merge_sort older) (bs "migrations") (Ok sample_entries) = Ok sample_corpus.
Proof.
  apply (corpus_is_the_directory sample_digest (merge_sort older)).
  - intros l. apply merge_sort_Permutation.
  - intros l. assert (Total older) by (intros a b; unfold older; lia). apply (Sorted_merge_sort older).
  - exists (reverse sample_corpus). split_and!.
    + constructor; [|constructor; [|constructor]]; (split; [|split_and!; reflexivity]).
      * exists (bs "0002"), (bs "objects"). split_and!; [reflexivity|by_compute|reflexivity|by_compute].
      * exists (bs "0001"), (bs "ledger"). split_and!; [reflexivity|by_compute|reflexivity|by_compute].
    + symmetry. apply reverse_Permutation.
    + exact sample_consecutive.
Defined.

Lemma ledger_judged_by_prefix_witness :
  whyUnusableLedger [Applied 1 (sample_digest ledger_script); Applied 2 (bs "edited")] sample_corpus = Some (ledgerFileChanged, 1%nat) /\
  ~ [Applied 1 (sample_digest ledger_script); Applied 2 (bs "edited")] `prefix_of` (row_of <$> sample_corpus).
Proof.
  destruct (ledger_judged_by_prefix sample_corpus sample_consecutive
    [Applied 1 (sample_digest ledger_script); Applied 2 (bs "edited")]) as (verdict & at_ & H & [_ Hu] & _).
  assert (E : whyUnusableLedger [Applied 1 (sample_digest ledger_script); Applied 2 (bs "edited")] sample_corpus
              = Some (ledgerFileChanged, 1%nat)) by (vm_compute; reflexivity).
  split; [exact E|]. intros Hp. specialize (Hu Hp). rewrite E in H. injection H as <- _. discriminate Hu.
Defined.

Lemma sample_scripts_keep m w w' :
  m ∈ sample_corpus -> execute sample_scripts (sql m) w = Ok w' -> ledger w' = Some (default ∅ (ledger w)).
Proof. intros _. cbn. destruct (ledger w); case_bool_decide; intros [= <-]; done. Qed.

Lemma fresh_holds : holds_first sample_corpus 0 fresh.
Proof. split; [cbn; lia|reflexivity]. Qed.

(** While this replica is between its two transactions, another applies the first migration. *)
Definition raced (n : nat) : ledger_session (list gostring) :=
  if (n =? 1)%nat
  then LedgerSession (λ w, match ledger w with
                           | None => World (Some (rows_of (take 1 sample_corpus))) [ledger_script]
                           | Some _ => w
                           end) (λ _, None) false
  else calm_ledger.

Lemma raced_well_behaved : well_behaved sample_scripts sample_corpus raced.
Proof.
  intros n w [k Hk]. unfold raced. destruct (n =? 1)%nat; [|apply rtc_refl]. cbn [meantime].
  destruct (ledger w) as [rows|] eqn:E; [apply rtc_refl|]. apply rtc_once. left.
  assert (k = 0%nat) as ->.
  { destruct Hk as [Hk Hr]. rewrite E in Hr. destruct k; [done|]. exfalso.
    assert (H : is_Some (rows_of (take (S k) sample_corpus) !! 1)).
    { apply (rows_of_lookup sample_corpus sample_consecutive). cbn [length sample_corpus] in *. lia. }
    rewrite <- Hr in H. by destruct H as [? H]. }
  apply (Install sample_scripts sample_corpus w 0 (Migration 1 (bs "0001_ledger.sql") ledger_script (sample_digest ledger_script))
    (World (Some ∅) [ledger_script])); [exact Hk|reflexivity|]. cbn. by rewrite E.
Qed.

Lemma migrations_install_once_witness :
  exists run f w', migrate sample_scripts documented_Sanitize id raced (bs "noty") sample_corpus fresh = Some (run, f, w') /\
    is_Some f /\ sound sample_corpus w' /\ rest_of w' = [ledger_script].
Proof.
  destruct (migrations_install_once sample_scripts documented_Sanitize id sample_corpus sample_consecutive sample_scripts_keep
    raced (bs "noty") sample_corpus fresh) as (run & f & w' & H & _ & Hs & _).
  - reflexivity.
  - exact raced_well_behaved.
  - exists 0%nat. exact fresh_holds.
  - exists run, f, w'. split; [exact H|]. split; [|split; [exact Hs|]].
    + apply (f_equal (fmap (λ p, p.1.2))) in H. vm_compute in H. injection H as <-. eexists. reflexivity.
    + apply (f_equal (fmap (λ p, rest_of p.2))) in H. vm_compute in H. injection H as H. exact (eq_sym H).
Defined.

Lemma sample_scripts_run : scripts_run sample_scripts sample_corpus.
Proof.
  intros j m w Hm [_ Hl]. destruct j as [|[|j]]; [injection Hm as <-|injection Hm as <-|by destruct j].
  - rewrite (proj2 Hl eq_refl : ledger w = None) || (cbn; rewrite (proj2 Hl eq_refl)). eauto.
  - cbn. destruct (ledger w) as [rows|]; [eauto|]. discriminate (proj1 Hl eq_refl).
Qed.

Lemma migrate_completes_witness :
  exists w', migrate sample_scripts documented_Sanitize id (λ _, calm_ledger) (bs "noty") sample_corpus fresh =
      Some (MigrationRun [1; 2] 2, None, w') /\
    AppliedVersion documented_Sanitize id calm_ledger (bs "noty") w' = Ok 2.
Proof.
  destruct (migrate_completes sample_scripts documented_Sanitize id sample_corpus sample_consecutive sample_scripts_keep
    (λ _, calm_ledger) (bs "noty") (default [] (match searchPathStatement documented_Sanitize (bs "noty") with Ok p => Some p | Err _ => None end))
    sample_corpus 0 fresh) as (w' & H & _ & Hv & _).
  - intros _. split; reflexivity.
  - exact sample_scripts_run.
  - reflexivity.
  - reflexivity.
  - discriminate.
  - split; [exact fresh_holds|]. split; reflexivity.
  - cbn. lia.
  - exists w'. split; [exact H|exact Hv].
Defined.
