(* ===== verification/Bootstrap.v ===== *)
(** * The boot: [internal/schema]'s [bootstrap.go], [bootstrapschema.go], [advisorylock.go],
    [options.go], [observedpartitions.go] and [grants.go].

    A database is the migration ledger of [Ledger.v] beside the service schema -- absent, or there
    with or without a comment -- and the catalog and tables of [Catalog.v]. A boot runs statement by
    statement on one connection: its [boot_session] says what others commit before each of its own
    statements, which one fails and whether a statement whose answer was lost took effect, and holds
    the sessions of the migrations, of the maintenance pass and of the last reading. What a
    migration's script does is the server's. *)

From S2P Require Import Prelude Quote Queue Partition Catalog Maintain Ledger.

Local Open Scope Z_scope.

(** ** advisorylock.go *)

Definition lockKeySeparator : gostring := [ascii_of_nat 0].
Definition bootstrapDomain : gostring := [].
Definition reconcileDomain : gostring := bs "reconcile" ++ [ascii_of_nat 0].
Definition lockDomains : list gostring := [bootstrapDomain; reconcileDomain].

(** [hash/fnv]'s 64-bit FNV-1a *)
Definition fnv_offset : Z := 14695981039346656037.
Definition fnv_prime : Z := 1099511628211.
Definition fnv1a (data : gostring) : Z :=
  foldl (λ hash c, Z.lxor hash (code c) * fnv_prime mod 2 ^ 64) fnv_offset data.

(** The bytes a key digests. *)
Definition lock_text (domain schema instance : gostring) : gostring := domain ++ schema ++ lockKeySeparator ++ instance.

Definition lockKeyIn (domain schema instance : gostring) : Z := wrap64 (fnv1a (lock_text domain schema instance)).
Definition lockKey (schema instance : gostring) : Z := lockKeyIn bootstrapDomain schema instance.
Definition ReconcileLockKey (schema instance : gostring) : Z := lockKeyIn reconcileDomain schema instance.

(** ** options.go *)

Definition DefaultLockTimeout : Z := 3 * 10 ^ 9.

(** [Options.LockTimeout], normalized: zero is not given. *)
Definition normalized (lock_timeout : Z) : Z := if lock_timeout =? 0 then DefaultLockTimeout else lock_timeout.

(** ** grants.go *)

Section Grants.
Variable Sanitize : list gostring -> gostring.

Definition targetSeparator : gostring := bs ".".

Definition grantPrincipals (schema role : gostring) : option (gostring * gostring) :=
  if claimsReservedSchemaPrefix schema then None
  else match Quoted Sanitize schema, Quoted Sanitize role with
       | Ok quotedSchema, Ok quotedRole => Some (quotedSchema, quotedRole)
       | _, _ => None
       end.

(** [slices.Compact] *)
Fixpoint Compact (l : list gostring) : list gostring :=
  match l with
  | a :: (b :: _) as rest => if bool_decide (a = b) then Compact rest else a :: Compact rest
  | _ => l
  end.

Fixpoint rendered_targets (targets : list gostring) : option (list gostring) :=
  match targets with
  | [] => Some []
  | target :: rest =>
      '(schema, table) ← cut target targetSeparator;
      if contains_sub table targetSeparator then None
      else match Qualified Sanitize schema table with
           | Err _ => None
           | Ok text => more ← rendered_targets rest; Some (text :: more)
           end
  end.

Definition grantTargets (targets : list gostring) : option (list gostring) :=
  rendered_targets (Compact (merge_sort (below string_compare) targets)).

Definition GrantStatements (schema role : gostring) (targets : list gostring) : list gostring :=
  match grantPrincipals schema role with
  | None => []
  | Some (quotedSchema, quotedRole) =>
      match grantTargets targets with
      | None => []
      | Some tables =>
          [bs "ALTER SCHEMA " ++ quotedSchema ++ bs " OWNER TO " ++ quotedRole ++ bs ";";
           bs "GRANT CREATE ON SCHEMA " ++ quotedSchema ++ bs " TO " ++ quotedRole ++ bs ";";
           bs "GRANT USAGE ON SCHEMA " ++ quotedSchema ++ bs " TO " ++ quotedRole ++ bs ";"] ++
          map (λ table, bs "GRANT TRIGGER ON TABLE " ++ table ++ bs " TO " ++ quotedRole ++ bs ";") tables
      end
  end.
End Grants.

(** ** The boot's database *)

#[export] Instance markerState_eq_dec : EqDecision markerState.
Proof. solve_decision. Defined.

(** The service schema: absent, or there with the comment it carries, if any. *)
Record realm := Realm { namespace : option (option gostring); store : database }.

Inductive boot_call := BAcquire | BLock | BMarker | BCreate | BRenderComment | BComment | BUnlock.

Record boot_session := BootSession {
  before : boot_call -> world realm -> world realm;
  boot_fails : boot_call -> option raw_error;
  took_effect : boot_call -> bool;
  migrating : nat -> ledger_session realm;
  maintaining : nat -> tx_session;
  covering : tx_session
}.

Definition with_namespace (n : option (option gostring)) (w : world realm) : world realm :=
  World (ledger w) (Realm n (store (rest_of w))).
Definition with_store (db : database) (w : world realm) : world realm :=
  World (ledger w) (Realm (namespace (rest_of w)) db).

Definition privilegeMissing (schema privilege : gostring) : failure :=
  sentinelf ErrPrivilege (bs "the role needs " ++ privilege ++ bs " on schema " ++ schema).

(** ** observedpartitions.go *)

Definition ObservedPartitions (pg : server) (s : tx_session) (cfg : config) (db : database) : result tx_error (list Range) :=
  (let! found := observePartitions pg s (Schema cfg) db in Ok (Bounded found))%res.

Section Boot.
Context (pg : server) (scripts : script_server realm) (undefined_schema : gostring -> raw_error).
Context (Sanitize : list gostring -> gostring) (quoted : gostring -> gostring) (cfg : config).

(** One statement, outside any transaction: it takes effect when it succeeds, and may when only its
    answer was lost. *)
Definition statement (s : boot_session) (c : boot_call) (effect : world realm -> result raw_error (world realm))
    (w : world realm) : result raw_error unit * world realm :=
  let w := before s c w in
  match boot_fails s c, effect w with
  | None, Ok w' => (Ok tt, w')
  | None, Err e => (Err e, w)
  | Some e, Ok w' => (Err e, if took_effect s c then w' else w)
  | Some e, Err _ => (Err e, w)
  end.

(** ** bootstrapschema.go *)

Definition createSchemaStatement : gostring := bs "CREATE SCHEMA IF NOT EXISTS ".
Definition insufficientPrivilege : gostring := bs "42501".
Definition createSchemaPrivilege : gostring := bs "CREATE".
Definition claimSchemaPrivilege : gostring := bs "OWNERSHIP".

Definition reservedSchemaName (schema : gostring) : failure :=
  finished (Own (plain (bs "the configured schema " ++ quoted schema ++ bs " begins with " ++ quoted reservedSchemaPrefix ++
    bs ", which PostgreSQL reserves for its own schemas"))).

Definition schemaObject (schema instance : gostring) : result IdentifierFault markedObject :=
  match Quoted Sanitize schema with
  | Err fault => Err fault
  | Ok target => Ok (MarkedObject schemaMarkerForm instance target schema)
  end.

(** [CREATE SCHEMA IF NOT EXISTS], [COMMENT ON SCHEMA] *)
Definition create_schema (w : world realm) : result raw_error (world realm) :=
  Ok match namespace (rest_of w) with None => with_namespace (Some None) w | Some _ => w end.
Definition comment_on_schema (object : markedObject) (w : world realm) : result raw_error (world realm) :=
  match namespace (rest_of w) with
  | None => Err (undefined_schema (relname object))
  | Some _ => Ok (with_namespace (Some (Some (marker_text (form object) (Catalog.instance object)))) w)
  end.

(** [markerOn], of the schema: [obj_description(to_regnamespace($1))]. *)
Definition schema_marker (s : boot_session) (object : markedObject) (w : world realm) :
    result raw_error markerReading * world realm :=
  let w := before s BMarker w in
  let written := default None (namespace (rest_of w)) in
  (match boot_fails s BMarker with
   | Some e => Err e
   | None => Ok (markerReadingOf (form object) (default [] written) (bool_decide (is_Some written)) (Catalog.instance object))
   end, w).

(** [claimMarker], of the schema: the statement is rendered, then executed. *)
Definition claim_schema (s : boot_session) (object : markedObject) (w : world realm) : result raw_error unit * world realm :=
  match statement s BRenderComment Ok w with
  | (Err e, w) => (Err e, w)
  | (Ok _, w) => statement s BComment (comment_on_schema object) w
  end.

Definition ownershipRefusal (reading : markerReading) : option failure :=
  match state reading with
  | markerOurs | markerAbsent => None
  | markerForeign => Some (finished (Own (foreignInstance (Quote.named reading) (Instance_name cfg))))
  | markerUnreadable =>
      Some (finished (Own (plain (bs "schema " ++ Schema cfg ++
        bs " carries a comment that is not an ownership marker of this format, so this boot cannot tell whose schema it is: remove the comment, or point instance " ++
        Instance_name cfg ++ bs " at a schema of its own"))))
  end.

Definition schemaRefusal (e : raw_error) (privilege : gostring) : failure :=
  match condition e with
  | Some (code, message) =>
      if bool_decide (code = insufficientPrivilege) then
        let missing := privilegeMissing (Schema cfg) privilege in
        finished (Own (Failure (text missing ++ bs " (the server said: " ++ message ++ bs ")") (wraps missing)))
      else finished (Raw e)
  | None => finished (Raw e)
  end.

Definition claimAndCreateSchema (s : boot_session) (w : world realm) : option failure * world realm :=
  match schemaObject (Schema cfg) (Instance_name cfg) with
  | Err fault =>
      (Some (finished (Own (plain (bs "the configured schema " ++ quoted (Schema cfg) ++ bs " " ++ fault_text fault)))), w)
  | Ok marked =>
      match schema_marker s marked w with
      | (Err e, w) => (Some (finished (Raw e)), w)
      | (Ok reading, w) =>
          match ownershipRefusal reading with
          | Some refusal => (Some refusal, w)
          | None =>
              match statement s BCreate create_schema w with
              | (Err e, w) => (Some (schemaRefusal e createSchemaPrivilege), w)
              | (Ok _, w) =>
                  if negb (bool_decide (state reading = markerAbsent)) then (None, w)
                  else match claim_schema s marked w with
                       | (Err e, w) => (Some (schemaRefusal e claimSchemaPrivilege), w)
                       | (Ok _, w) => (None, w)
                       end
              end
          end
      end
  end.

(** ** bootstrap.go *)

Record coverageReading := CoverageReading { read_now : Z; bounded : list Range }.

Definition readCoverage (s : tx_session) (db : database) : result failure coverageReading * database :=
  match boundedTx s (normalized 0) (DdlSubject observingWork [])
          (λ db, (let! now := dbNow s in
                  let! found := observePartitions pg s (Schema cfg) db in
                  Ok (CoverageReading now (Bounded found), db))%res) db with
  | (Err f, db) => (Err (finished (Own (wrapf (observingWork ++ bs ": ") f))), db)
  | (Ok seen, db) => (Ok seen, db)
  end.

Definition shortCoverageRefusal (seen : coverageReading) : option failure :=
  let short := CoverageShortfall (bounded seen) (read_now seen) (Precreate (retention cfg)) in
  if short <=? 0 then None else Some (finished (Own (coverageShort short (Precreate (retention cfg))))).

Definition refuseShortCoverage (s : tx_session) (db : database) : option failure * database :=
  match readCoverage s db with
  | (Err f, db) => (Some (finished (Own f)), db)
  | (Ok seen, db) => (shortCoverageRefusal seen, db)
  end.

Context (embedded : result corpus_error (list migration)).

(** Everything between the lock and the unlock. [None] is a panic. *)
Definition underTheLock (s : boot_session) (w : world realm) : option (option failure * world realm) :=
  match claimAndCreateSchema s w with
  | (Some f, w) => Some (Some (finished (Own f)), w)
  | (None, w) =>
      '(_, failed, w) ← migrateEmbedded scripts Sanitize quoted (migrating s) (Schema cfg) embedded w;
      match (failed : option failure) with
      | Some f => Some (Some (finished (Own f)), w)
      | None =>
          '(_, _, _, db) ← Maintain pg Sanitize cfg (normalized 0) (maintaining s) (Stats 0 0 0 0) (store (rest_of w));
          let '(short, db) := refuseShortCoverage (covering s) db in
          Some (short, with_store db w)
      end
  end.

Definition release_lock (s : boot_session) (w : world realm) : option failure * world realm :=
  let w := before s BUnlock w in
  (match boot_fails s BUnlock with Some e => Some (finished (Raw e)) | None => None end, w).

Definition Bootstrap (s : boot_session) (w : world realm) : option (option failure * world realm) :=
  if claimsReservedSchemaPrefix (Schema cfg) then Some (Some (reservedSchemaName (Schema cfg)), w)
  else
    unservable ← unservableHorizonIn (retention cfg);
    match (unservable : option horizon_refusal) with
    | Some refusal => Some (Some (finished (Own (horizon_failure refusal))), w)
    | None =>
        match boot_fails s BAcquire with
        | Some e => Some (Some (finished (Raw e)), w)
        | None =>
            let w := before s BLock w in
            match boot_fails s BLock with
            | Some e => Some (Some (finished (Raw e)), w)
            | None =>
                '(err, w) ← underTheLock s w;
                let '(released, w) := release_lock s w in
                Some (match (err : option failure) with None => released | Some f => Some f end, w)
            end
        end
    end.

End Boot.

(** ** The lock's key *)

Lemma no_separator_inj schema instance schema' instance' :
  ascii_of_nat 0 ∉ schema -> ascii_of_nat 0 ∉ schema' ->
  schema ++ lockKeySeparator ++ instance = schema' ++ lockKeySeparator ++ instance' ->
  schema = schema' /\ instance = instance'.
Proof. intros Hs Hs' H. by apply (first_sep_inj (ascii_of_nat 0)) in H. Qed.

(** A key stands for one lock of one instance on one schema. The bytes digested tell the domain,
    the schema and the instance apart as long as neither name holds a NUL -- which no configured name
    does -- so a boot and a reconcile, two schemas, or two instances share a key only where FNV-1a
    collides; and the key is always a bigint the server takes. *)
Theorem lock_texts_are_distinct domain schema instance domain' schema' instance' :
  domain ∈ lockDomains -> domain' ∈ lockDomains ->
  ascii_of_nat 0 ∉ schema -> ascii_of_nat 0 ∉ instance -> ascii_of_nat 0 ∉ schema' -> ascii_of_nat 0 ∉ instance' ->
  (lock_text domain schema instance = lock_text domain' schema' instance' <->
   domain = domain' /\ schema = schema' /\ instance = instance') /\
  int64_range (lockKeyIn domain schema instance).
Proof.
  intros Hd Hd' Hs Hi Hs' Hi'. split; [|apply wrap64_range]. split; [|by intros (-> & -> & ->)].
  assert (Hcross : forall s i s' i', ascii_of_nat 0 ∉ s -> ascii_of_nat 0 ∉ i ->
    lock_text bootstrapDomain s i <> lock_text reconcileDomain s' i').
  { intros s i s' i' Hs1 Hi1 E. unfold lock_text, reconcileDomain in E. rewrite <- !app_assoc in E.
    change (bootstrapDomain ++ s ++ lockKeySeparator ++ i) with (s ++ lockKeySeparator ++ i) in E.
    change [ascii_of_nat 0] with lockKeySeparator in E.
    apply no_separator_inj in E as [_ ->]; [|done|by_compute].
    apply Hi1, elem_of_app. right. apply elem_of_app. left. by left. }
  assert (Hsame : forall d s i s' i', ascii_of_nat 0 ∉ s -> ascii_of_nat 0 ∉ s' ->
    lock_text d s i = lock_text d s' i' -> s = s' /\ i = i').
  { intros d s i s' i' ? ? E%app_inv_head. by apply no_separator_inj. }
  unfold lockDomains in Hd, Hd'. rewrite !elem_of_cons in Hd, Hd'.
  destruct Hd as [->|[->|[]%elem_of_nil]], Hd' as [->|[->|[]%elem_of_nil]]; intros E.
  - split; [done|]. by eapply Hsame.
  - by apply Hcross in E.
  - symmetry in E. by apply Hcross in E.
  - split; [done|]. by eapply Hsame.
Qed.

(** ** Grants *)

Lemma Compact_cons2 a b l : Compact (a :: b :: l) = if bool_decide (a = b) then Compact (b :: l) else a :: Compact (b :: l).
Proof. done. Qed.

Lemma Compact_elem l x : x ∈ Compact l <-> x ∈ l.
Proof.
  induction l as [|a l IH]; [done|]. destruct l as [|b l]; [done|]. rewrite Compact_cons2.
  case_bool_decide as E; [subst; rewrite IH; set_solver|]. rewrite !elem_of_cons in *. by rewrite IH.
Qed.

Lemma Compact_sorted l : Sorted (below string_compare) l -> StronglySorted (below string_compare) (Compact l) /\ NoDup (Compact l).
Proof.
  intros Hs. apply Sorted_StronglySorted in Hs; [|intros a b c Hab Hbc; by apply (transitivity (R := below string_compare) Hab)].
  induction Hs as [|a l Hl [IH1 IH2] Ha]; [split; constructor|].
  destruct l as [|b l]; [split; [repeat constructor|apply NoDup_singleton]|].
  rewrite Compact_cons2. case_bool_decide as E; [done|]. split; constructor; try done.
  - apply Forall_forall. intros x Hx. rewrite Compact_elem in Hx. rewrite Forall_forall in Ha. by apply Ha.
  - rewrite Compact_elem. intros Hin. apply elem_of_cons in Hin as [?|Hin]; [done|].
    inversion Hl as [|? ? _ Hb]; subst. inversion Ha as [|? ? Hab _]; subst. rewrite Forall_forall in Hb. specialize (Hb a Hin).
    apply E. apply (anti_symm (below string_compare)); done.
Qed.

(** Sorted and compacted, a list is told by its elements. *)
Lemma distinct_same l k : (forall x : gostring, x ∈ l <-> x ∈ k) ->
  Compact (merge_sort (below string_compare) l) = Compact (merge_sort (below string_compare) k).
Proof.
  intros H. destruct (Compact_sorted (merge_sort (below string_compare) l)) as [Hl Nl]; [apply (Sorted_merge_sort _)|].
  destruct (Compact_sorted (merge_sort (below string_compare) k)) as [Hk Nk]; [apply (Sorted_merge_sort _)|].
  apply (Sorted_unique (below string_compare)); [by apply StronglySorted_Sorted..|].
  apply NoDup_Permutation; [done..|]. intros x. by rewrite !Compact_elem, !merge_sort_Permutation.
Qed.

(** A target the statements can name, and how. *)
Definition target_text (Sanitize : list gostring -> gostring) (target text : gostring) : Prop :=
  exists schema table, target = schema ++ bs "." ++ table /\ "."%char ∉ schema /\ "."%char ∉ table /\
    Qualified Sanitize schema table = Ok text.

Lemma rendered_targets_iff Sanitize targets tables :
  rendered_targets Sanitize targets = Some tables <-> Forall2 (target_text Sanitize) targets tables.
Proof.
  assert (Hone : forall target text, (exists schema table, cut target (bs ".") = Some (schema, table) /\
    contains_sub table (bs ".") = false /\ Qualified Sanitize schema table = Ok text) <-> target_text Sanitize target text).
  { assert (Hsub : forall table, contains_sub table (bs ".") = false <-> "."%char ∉ table).
    { intros table. rewrite <- not_true_iff_false, contains_sub_app. split; intros H Hin; apply H.
      - apply list_elem_of_split in Hin as (a & b & ->). by exists a, b.
      - destruct Hin as (a & b & ->). apply elem_of_app. right. by left. }
    intros target text. unfold target_text. setoid_rewrite Hsub. split.
    - intros (schema & table & [-> Hn]%cut_byte_iff & Ht & Hq). by exists schema, table.
    - intros (schema & table & -> & Hn & Ht & Hq). exists schema, table. split; [|done]. by apply cut_byte_iff. }
  revert tables. induction targets as [|target rest IH]; intros tables; cbn [rendered_targets].
  - split; [intros [= <-]; constructor|]. by intros ->%Forall2_nil_inv_l.
  - split.
    + intros H. destruct (cut target _) as [[schema table]|] eqn:Ec; [|done]. cbn [mbind option_bind] in H.
      destruct (contains_sub table _) eqn:Et; [done|]. destruct (Qualified Sanitize schema table) as [text|] eqn:Eq; [|done].
      destruct (rendered_targets Sanitize rest) as [more|]; [|done]. cbn [mbind option_bind] in H. injection H as <-.
      constructor; [|by apply IH]. apply Hone. by exists schema, table.
    + intros (text & more & (schema & table & Hc & Ht & Hq)%Hone & Hall & ->)%Forall2_cons_inv_l.
      change targetSeparator with (bs "."). rewrite Hc. cbn [mbind option_bind]. apply IH in Hall. by rewrite Ht, Hq, Hall.
Qed.

Lemma rendered_targets_None Sanitize targets :
  rendered_targets Sanitize targets = None <->
  exists target, target ∈ targets /\ forall text, ~ target_text Sanitize target text.
Proof.
  split.
  - induction targets as [|t rest IH]; [done|]. intros H.
    destruct (rendered_targets Sanitize [t]) as [texts|] eqn:Et.
    + apply rendered_targets_iff in Et. apply Forall2_cons_inv_l in Et as (text & ? & Ht & _ & _).
      destruct (rendered_targets Sanitize rest) as [more|] eqn:Er.
      * apply rendered_targets_iff in Er. assert (Hall : Forall2 (target_text Sanitize) (t :: rest) (text :: more)) by (by constructor).
        apply rendered_targets_iff in Hall. congruence.
      * destruct IH as (target & Hin & Hno); [done|]. exists target. split; [by right|done].
    + exists t. split; [by left|]. intros text Ht.
      assert (Hall : Forall2 (target_text Sanitize) [t] [text]) by (by repeat constructor).
      apply rendered_targets_iff in Hall. congruence.
  - intros (target & Hin & Hno). destruct (rendered_targets Sanitize targets) as [tables|] eqn:E; [|done]. exfalso.
    apply rendered_targets_iff in E. apply list_elem_of_lookup in Hin as [i Hi].
    destruct (Forall2_lookup_l _ _ _ _ _ E Hi) as (text & _ & Ht). by eapply Hno.
Qed.

(** The grants are all there or none is. If the schema and the role can be named, the schema is
    not a reserved one, and every target is schema.table with both usable, the statements are the
    three on the schema and one per distinct target, by name; otherwise there is no statement at all.
    So the order and the repetition of the targets cannot be seen. *)
Theorem grants_all_or_none Sanitize schema role targets :
  (forall quotedSchema quotedRole tables,
     claimsReservedSchemaPrefix schema = false -> Quoted Sanitize schema = Ok quotedSchema ->
     Quoted Sanitize role = Ok quotedRole ->
     Forall2 (target_text Sanitize) (Compact (merge_sort (below string_compare) targets)) tables ->
     GrantStatements Sanitize schema role targets =
       [bs "ALTER SCHEMA " ++ quotedSchema ++ bs " OWNER TO " ++ quotedRole ++ bs ";";
        bs "GRANT CREATE ON SCHEMA " ++ quotedSchema ++ bs " TO " ++ quotedRole ++ bs ";";
        bs "GRANT USAGE ON SCHEMA " ++ quotedSchema ++ bs " TO " ++ quotedRole ++ bs ";"] ++
       ((λ table, bs "GRANT TRIGGER ON TABLE " ++ table ++ bs " TO " ++ quotedRole ++ bs ";") <$> tables)) /\
  (GrantStatements Sanitize schema role targets = [] <->
     claimsReservedSchemaPrefix schema = true \/ WhyUnusable schema <> IdentifierOK \/ WhyUnusable role <> IdentifierOK \/
     exists target, target ∈ targets /\ forall text, ~ target_text Sanitize target text) /\
  NoDup (Compact (merge_sort (below string_compare) targets)) /\
  (forall target, target ∈ Compact (merge_sort (below string_compare) targets) <-> target ∈ targets) /\
  (forall targets', (forall target, target ∈ targets <-> target ∈ targets') ->
     GrantStatements Sanitize schema role targets' = GrantStatements Sanitize schema role targets).
Proof.
  assert (Hel : forall x, x ∈ Compact (merge_sort (below string_compare) targets) <-> x ∈ targets).
  { intros x. by rewrite Compact_elem, merge_sort_Permutation. }
  assert (Hq : forall name, match Quoted Sanitize name with Ok _ => WhyUnusable name = IdentifierOK | Err _ => WhyUnusable name <> IdentifierOK end).
  { intros name. unfold Quoted. by destruct (WhyUnusable name). }
  split_and!; [| |apply Compact_sorted, (Sorted_merge_sort _)|done|].
  - intros qs qr tables Hc Hqs Hqr Ht. unfold GrantStatements, grantPrincipals, grantTargets. rewrite Hc, Hqs, Hqr.
    apply rendered_targets_iff in Ht. by rewrite Ht.
  - unfold GrantStatements, grantPrincipals, grantTargets. pose proof (Hq schema) as H1. pose proof (Hq role) as H2.
    destruct (claimsReservedSchemaPrefix schema); [tauto|].
    destruct (Quoted Sanitize schema) as [qs|]; [|tauto]. destruct (Quoted Sanitize role) as [qr|]; [|tauto].
    assert (Hex : rendered_targets Sanitize (Compact (merge_sort (below string_compare) targets)) = None <->
      exists target, target ∈ targets /\ forall text, ~ target_text Sanitize target text).
    { rewrite rendered_targets_None. by setoid_rewrite Hel. }
    destruct (rendered_targets _ _) as [tables|]; [|tauto]. split; [done|]. intros [?|[?|[?|?%Hex]]]; done.
  - intros targets' Hsame. unfold GrantStatements, grantTargets. by rewrite (distinct_same targets' targets).
Qed.

(** ** What a boot vouches for *)

Section Vouching.
Context (pg : server) (scripts : script_server realm) (undefined_schema : gostring -> raw_error).
Context (Sanitize : list gostring -> gostring) (quoted : gostring -> gostring) (cfg : config).
Context (corpus embedded : list migration).
Hypothesis Hcorpus : consecutive corpus.
Hypothesis Hembedded : embedded `prefix_of` corpus.
Hypothesis scripts_keep_the_ledger : forall m w w',
  m ∈ corpus -> execute scripts (sql m) w = Ok w' -> ledger w' = Some (default ∅ (ledger w)).

Local Abbreviation boot := (Bootstrap pg scripts undefined_schema Sanitize quoted cfg (Ok embedded)).
Local Abbreviation claim := (claimAndCreateSchema undefined_schema Sanitize quoted cfg).

(** The comment that makes the schema this instance's. *)
Definition schema_is_ours (w : world realm) : Prop :=
  namespace (rest_of w) = Some (Some (marker_text schemaMarkerForm (Instance_name cfg))).

(** What everyone else may do meanwhile: migrate the same history, work on the tables, and leave a
    schema that is this instance's alone. No script touches the schema itself. *)
Record neighbourly (s : boot_session) : Prop := {
  nb_ledger c w : sound corpus w -> evolves scripts corpus w (before s c w);
  nb_runs : well_behaved scripts corpus (migrating s);
  nb_schema c w : schema_is_ours w -> schema_is_ours (before s c w);
  nb_schema_runs n w : schema_is_ours w -> schema_is_ours (meantime (migrating s n) w);
  nb_scripts script w w' : execute scripts script w = Ok w' -> namespace (rest_of w') = namespace (rest_of w)
}.

Lemma statement_ledger s c effect w r w' :
  (forall w w', effect w = Ok w' -> ledger w' = ledger w) ->
  neighbourly s -> sound corpus w -> statement s c effect w = (r, w') -> evolves scripts corpus w w'.
Proof.
  intros He Hs Hw. pose proof (nb_ledger s Hs c w Hw) as Hb. unfold statement. set (v := before s c w) in *.
  destruct (effect v) as [v'|e] eqn:Ev.
  - assert (Hv : evolves scripts corpus w v') by (eapply rtc_r; [exact Hb|right; by apply (He v)]).
    destruct (boot_fails s c); intros [= <- <-]; [by destruct (took_effect s c)|done].
  - destruct (boot_fails s c); intros [= <- <-]; exact Hb.
Qed.

Lemma claim_ledger s w r w' : neighbourly s -> sound corpus w -> claim s w = (r, w') -> evolves scripts corpus w w'.
Proof.
  intros Hs Hw. unfold claimAndCreateSchema. destruct (schemaObject _ _ _) as [marked|]; [|intros [= <- <-]; apply rtc_refl].
  destruct (schema_marker s marked w) as [reading v] eqn:Em. unfold schema_marker in Em. injection Em as Em <-.
  pose proof (nb_ledger s Hs BMarker w Hw) as H1. set (v := before s BMarker w) in *.
  destruct reading as [reading|]; [|by intros [= <- <-]]. destruct (ownershipRefusal cfg reading); [by intros [= <- <-]|].
  assert (Hv : sound corpus v) by (by eapply evolves_sound).
  assert (Hcreate : forall w w', create_schema w = Ok w' -> ledger w' = ledger w).
  { intros x x'. unfold create_schema. destruct (namespace (rest_of x)); by intros [= <-]. }
  assert (Hcomment : forall w w', comment_on_schema undefined_schema marked w = Ok w' -> ledger w' = ledger w).
  { intros x x'. unfold comment_on_schema. destruct (namespace (rest_of x)); [|done]. by intros [= <-]. }
  destruct (statement s BCreate create_schema v) as [[[]|e] u] eqn:Ec;
    pose proof (statement_ledger _ _ _ _ _ _ Hcreate Hs Hv Ec) as H2; assert (H12 : evolves scripts corpus w u) by (by etrans);
    [|by intros [= <- <-]].
  destruct (negb _); [by intros [= <- <-]|]. assert (Hu : sound corpus u) by (by eapply evolves_sound).
  unfold claim_schema. destruct (statement s BRenderComment Ok u) as [[[]|e] x] eqn:Er;
    (assert (H3 : evolves scripts corpus u x) by (eapply statement_ledger; [|done|done|exact Er]; by intros ? ? [= <-]));
    assert (H13 : evolves scripts corpus w x) by (by etrans); [|by intros [= <- <-]].
  assert (Hx : sound corpus x) by (by eapply evolves_sound).
  destruct (statement s BComment _ x) as [[[]|e] y] eqn:Eo; pose proof (statement_ledger _ _ _ _ _ _ Hcomment Hs Hx Eo);
    intros [= <- <-]; by etrans.
Qed.

Lemma boot_statement_Ok s c effect w w' :
  statement s c effect w = (Ok tt, w') -> effect (before s c w) = Ok w'.
Proof. unfold statement. destruct (boot_fails s c), (effect (before s c w)); intros [= <-]; done. Qed.

Lemma claim_Ok s w w' : neighbourly s -> claim s w = (None, w') -> schema_is_ours w'.
Proof.
  intros Hs. unfold claimAndCreateSchema, schemaObject. destruct (Quoted _ _) as [target|]; [|done].
  set (marked := MarkedObject _ _ _ _). destruct (schema_marker s marked w) as [reading v] eqn:Em.
  unfold schema_marker in Em. injection Em as Em <-. set (v := before s BMarker w) in *.
  destruct reading as [reading|]; [|done]. destruct (boot_fails s BMarker); [done|]. injection Em as Em.
  destruct (ownershipRefusal cfg reading) eqn:Eo; [done|].
  destruct (statement s BCreate create_schema v) as [[[]|e] u] eqn:Ec; [|done]. apply boot_statement_Ok in Ec.
  destruct (bool_decide_reflect (state reading = markerAbsent)) as [Hstate|Hstate]; cbn [negb].
  - unfold claim_schema. destruct (statement s BRenderComment Ok u) as [[[]|e] x] eqn:Er; [|done].
    destruct (statement s BComment _ x) as [[[]|e] y] eqn:Ey; [|done]. intros [= <-]. apply boot_statement_Ok in Ey.
    unfold comment_on_schema in Ey. destruct (namespace (rest_of (before s BComment x))); [|done]. by injection Ey as <-.
  - intros [= <-]. assert (Hours : state reading = markerOurs).
    { unfold ownershipRefusal in Eo. by destruct (state reading). }
    rewrite <- Em in Hours. apply marker_ours_iff in Hours as [_ Hours].
    assert (Hv : schema_is_ours v).
    { unfold schema_is_ours. destruct (namespace (rest_of v)) as [[text|]|]; cbn in Hours; [|done..]. by injection Hours as ->. }
    apply (nb_schema s Hs BCreate) in Hv. unfold create_schema in Ec. unfold schema_is_ours in *. rewrite Hv in Ec.
    by injection Ec as <-.
Qed.

(** C30. A boot that answers nil vouches for the database. Whatever the neighbours do short of taking
    the schema away, and whatever failed inside the maintenance pass, the schema then carries this
    instance's marker, every migration this binary embeds is recorded, and the catalog last read
    holds a partition for every instant up to the horizon -- so no row written before it needs the
    DEFAULT partition. A reserved name and an unservable horizon never get that far. *)
Theorem boot_vouches s w w' :
  server_laws pg -> neighbourly s -> sound corpus w -> 0 <= Precreate (retention cfg) <= max_int64 ->
  boot s w = Some (None, w') ->
  claimsReservedSchemaPrefix (Schema cfg) = false /\ unservableHorizonIn (retention cfg) = Some None /\
  exists u, w' = before s BUnlock u /\
    schema_is_ours u /\ schema_is_ours w' /\ reaches corpus (length embedded) u /\ reaches corpus (length embedded) w' /\
    (sound_catalog (Schema cfg) (store (rest_of u)) ->
     forall t, server_now (covering s) <= t < server_now (covering s) + Precreate (retention cfg) ->
       exists name r f g, relations (store (rest_of u)) !! name = Some r /\ attached r = Some (RangeBound f g) /\ f <= t < g).
Proof.
  intros laws Hs Hw Hp. unfold Bootstrap. destruct (claimsReservedSchemaPrefix _); [done|].
  destruct (unservableHorizonIn (retention cfg)) as [[|]|] eqn:Eh; [done| |done]. cbn [mbind option_bind].
  destruct (boot_fails s BAcquire); [done|]. destruct (boot_fails s BLock); [done|].
  pose proof (nb_ledger s Hs BLock w Hw) as H0. set (w0 := before s BLock w) in *.
  assert (Hw0 : sound corpus w0) by (by eapply evolves_sound).
  destruct (underTheLock _ _ _ _ _ _ _ s w0) as [[err u]|] eqn:Eu; [|done]. cbn [mbind option_bind].
  unfold release_lock. destruct err; [done|]. destruct (boot_fails s BUnlock); [done|]. intros [= <-].
  split; [done|]. split; [done|]. exists u. split; [done|].
  unfold underTheLock in Eu. destruct (claim s w0) as [[f|] w1] eqn:Ec; [done|].
  pose proof (claim_ledger s w0 None w1 Hs Hw0 Ec) as H1. assert (Hw1 : sound corpus w1) by (by eapply evolves_sound).
  assert (Ho1 : schema_is_ours w1) by (by eapply claim_Ok). unfold migrateEmbedded in Eu.
  destruct (migrate_installs scripts Sanitize quoted corpus Hcorpus scripts_keep_the_ledger (migrating s) (Schema cfg) embedded w1
    Hembedded (nb_runs s Hs) Hw1) as (run & f & w2 & Em & _ & Hw2 & _ & Hdone).
  rewrite Em in Eu. cbn [mbind option_bind] in Eu. destruct f as [f|]; [done|]. destruct (Hdone eq_refl) as [Hr2 _].
  assert (Ho2 : schema_is_ours w2).
  { apply (migrate_preserves scripts Sanitize quoted schema_is_ours (migrating s) (Schema cfg) embedded w1 (run, None, w2)); try done.
    - intros n x. apply (nb_schema_runs s Hs).
    - intros script x x' Hx Hex. unfold schema_is_ours. by rewrite (nb_scripts s Hs _ _ _ Hex). }
  destruct (Maintain _ _ _ _ _ _ _) as [[[[? ?] ?] db]|]; [|done]. cbn [mbind option_bind] in Eu.
  destruct (refuseShortCoverage pg cfg (covering s) db) as [short db'] eqn:Er. injection Eu as -> <-.
  assert (Hou : schema_is_ours (with_store db' w2)) by exact Ho2.
  assert (Hru : reaches corpus (length embedded) (with_store db' w2)) by exact Hr2.
  assert (Hsu : sound corpus (with_store db' w2)) by exact Hw2.
  split_and!; [done|by apply nb_schema|done| |].
  { eapply evolves_grows; [exact Hcorpus|by apply (nb_ledger s Hs BUnlock)|done]. }
  intros Hsound t Ht. cbn [rest_of with_store store] in *. unfold refuseShortCoverage, readCoverage in Er.
  destruct (boundedTx (covering s) _ _ _ db) as [[seen|] db2] eqn:Et; [|done]. injection Er as Er <-.
  apply boundedTx_Ok in Et. apply rbind_Ok in Et as (now & Hn & Et). apply rbind_Ok in Et as (found & Hf & Et).
  injection Et as <- Hdb. rewrite Hdb in Hf. unfold dbNow in Hn. apply rbind_Ok in Hn as (? & _ & Hn). injection Hn as <-.
  unfold shortCoverageRefusal in Er. cbn [read_now bounded] in Er.
  destruct (CoverageShortfall_exact (Bounded found) (server_now (covering s)) (Precreate (retention cfg)) Hp) as (Hb & _ & _ & Hz).
  destruct (Z.leb_spec (CoverageShortfall (Bounded found) (server_now (covering s)) (Precreate (retention cfg))) 0); [|done].
  destruct (proj1 Hz ltac:(lia) t Ht) as (y & Hy & Hholds).
  apply (observePartitions_spec pg laws _ _ _ _ Hsound Hf) in Hy as (part & Hpart & Ha & _).
  exists (Name y), part, (From_ y), (To_ y). unfold holds in Hholds. done.
Qed.

(** C31. A schema that is another's is not touched. If, when a boot of a named instance reads the
    schema's comment, that comment is anything but this instance's marker -- another instance's, or a
    text that is no marker -- the boot fails, and whatever else fails and whatever others do to the
    database before any of its statements, what it leaves is their doing alone: it commits nothing of
    its own, and where nobody else acts the database is as it was. Where nothing else is wrong the
    refusal is ErrForeignInstance exactly when the comment is some instance's marker. What others do
    between that reading and a later boot's is not excluded: [two_instances_boot_one_schema]. *)
Theorem foreign_schema_is_untouched s w written answer :
  namespace (rest_of (before s BMarker (before s BLock w))) = Some (Some written) ->
  Instance_name cfg <> [] -> written <> marker_text schemaMarkerForm (Instance_name cfg) ->
  boot s w = Some answer ->
  exists f others, answer = (Some f, foldl (λ x c, before s c x) w others) /\
    ((forall c x, before s c x = x) -> answer = (Some f, w)) /\
    (claimsReservedSchemaPrefix (Schema cfg) = false -> unservableHorizonIn (retention cfg) = Some None ->
     WhyUnusable (Schema cfg) = IdentifierOK -> (forall c, boot_fails s c = None) ->
     (ErrForeignInstance ∈ wraps f <-> is_Some (instanceIn schemaMarkerForm written))).
Proof.
  intros Hn Hi Hw Hb.
  assert (Halone : forall calls, (forall c x, before s c x = x) -> foldl (λ x c, before s c x) w calls = w).
  { intros calls Hq. induction calls as [|c calls IH]; [done|]. cbn. by rewrite Hq. }
  cut (exists f others, answer = (Some f, foldl (λ x c, before s c x) w others) /\
    (claimsReservedSchemaPrefix (Schema cfg) = false -> unservableHorizonIn (retention cfg) = Some None ->
     WhyUnusable (Schema cfg) = IdentifierOK -> (forall c, boot_fails s c = None) ->
     (ErrForeignInstance ∈ wraps f <-> is_Some (instanceIn schemaMarkerForm written)))).
  { intros (f & others & -> & H). exists f, others. split; [done|]. split; [|exact H]. intros Hq. by rewrite (Halone _ Hq). }
  revert Hb. unfold Bootstrap.
  destruct (claimsReservedSchemaPrefix _); [intros [= <-]; by eexists _, []|].
  destruct (unservableHorizonIn (retention cfg)) as [[|]|]; [intros [= <-]; by eexists _, []| |done]. cbn [mbind option_bind].
  destruct (boot_fails s BAcquire) eqn:E1; [intros [= <-]; eexists _, []; split; [done|intros; congruence]|].
  destruct (boot_fails s BLock) eqn:E2; [intros [= <-]; eexists _, [BLock]; split; [done|intros; congruence]|].
  unfold underTheLock, claimAndCreateSchema, schemaObject, release_lock.
  destruct (Quoted Sanitize (Schema cfg)) as [target|fault] eqn:Eq.
  2: { cbn [mbind option_bind]. intros [= <-]. eexists _, [BLock; BUnlock]. split; [done|].
       intros _ _ Hu. unfold Quoted in Eq. by rewrite Hu in Eq. }
  unfold schema_marker. rewrite Hn. change (default None (Some (Some written))) with (Some written).
  change (default [] (Some written)) with written. rewrite bool_decide_eq_true_2 by eauto. cbn [form Catalog.instance].
  destruct (boot_fails s BMarker) eqn:E3.
  { cbn [mbind option_bind]. intros [= <-]. eexists _, [BLock; BMarker; BUnlock]. split; [done|]. intros; congruence. }
  unfold markerReadingOf, ownershipRefusal. cbn [negb].
  destruct (instanceIn schemaMarkerForm written) as [owner|] eqn:Eo.
  - assert (Hne : owner <> Instance_name cfg).
    { intros ->. apply Hw. pose proof (marker_ours_iff schemaMarkerForm (Some written) (Instance_name cfg)) as Hm.
      change (default [] (Some written)) with written in Hm. unfold markerReadingOf in Hm. rewrite bool_decide_eq_true_2 in Hm by eauto. cbn [negb] in Hm.
      rewrite Eo, (bool_decide_eq_true_2 (Instance_name cfg = Instance_name cfg)) in Hm by done. destruct (proj1 Hm eq_refl) as [_ E]. by injection E. }
    rewrite (bool_decide_eq_false_2 (owner = Instance_name cfg)) by done. cbn [state mbind option_bind]. intros [= <-].
    eexists _, [BLock; BMarker; BUnlock]. split; [done|]. intros _ _ _ _. split; [eauto|]. intros _. by left.
  - cbn [state mbind option_bind]. intros [= <-]. eexists _, [BLock; BMarker; BUnlock]. split; [done|]. intros _ _ _ _.
    split; [by intros ?%elem_of_nil|by intros [? ?]].
Qed.
End Vouching.

(** ** At concrete inputs *)

(** The two migrations of [Ledger.v]'s sample: the ledger, then the event log with its DEFAULT
    partition. *)
Definition realm_scripts : script_server realm := ScriptServer
  (λ script w,
     match namespace (rest_of w), ledger w with
     | None, _ => Err (RawError (bs "no schema has been selected to create in") None)
     | Some _, None =>
         if bool_decide (script = ledger_script) then Ok (World (Some ∅) (rest_of w)) else Err table_exists
     | Some n, Some rows =>
         if bool_decide (script = ledger_script) then Err table_exists
         else Ok (World (Some rows) (Realm (Some n)
                (Database {[ PartitionDefault := Relation (Some DefaultBound) None ]} [] (Tables ∅ ∅ ∅ 1))))
     end)
  (λ v, RawError (bs "duplicate key " ++ format_int v) (Some (bs "23505", bs "duplicate key")))
  (RawError (bs "no ledger") None).

Definition empty_world : world realm := World None (Realm None (Database ∅ [] (Tables ∅ ∅ ∅ 1))).

Definition quiet_boot : boot_session :=
  BootSession (λ _ w, w) (λ _, None) (λ _, false) (λ _, LedgerSession id (λ _, None) false)
    (λ _, quiet_tx 5000) (quiet_tx 5000).

Definition boot_of (cfg : config) (s : boot_session) (w : world realm) : option (option failure * world realm) :=
  Bootstrap sample_server realm_scripts (sample_refusal "schema does not exist: ") documented_Sanitize id cfg
    (Ok sample_corpus) s w.

Definition of_instance (instance : gostring) : config := Config (bs "noty") instance (MkRetention one_hour one_hour (2 * one_hour)).

Definition booted (answer : option (option failure * world realm)) : world realm :=
  match answer with Some (_, w) => w | None => empty_world end.

(** "us" boots the same schema between this boot's reading of the comment and its first statement. *)
Definition interrupted : boot_session :=
  BootSession (λ c w, match c with BCreate => booted (boot_of (of_instance (bs "us")) quiet_boot w) | _ => w end)
    (λ _, None) (λ _, false) (λ _, LedgerSession id (λ _, None) false) (λ _, quiet_tx 5000) (quiet_tx 5000).

(** The second migration's script is refused. *)
Definition refused_script : boot_session :=
  BootSession (λ _ w, w) (λ _, None) (λ _, false)
    (λ n, LedgerSession id (λ c, match c with LScript => if (n =? 2)%nat then Some table_exists else None | _ => None end) false)
    (λ _, quiet_tx 5000) (quiet_tx 5000).

Lemma lock_texts_are_distinct_witness :
  lock_text bootstrapDomain (bs "noty") (bs "eu") <> lock_text reconcileDomain (bs "noty") (bs "eu") /\
  int64_range (lockKeyIn bootstrapDomain (bs "noty") (bs "eu")).
Proof.
  destruct (lock_texts_are_distinct bootstrapDomain (bs "noty") (bs "eu") reconcileDomain (bs "noty") (bs "eu")) as [H Hr].
  - by_compute.
  - by_compute.
  - by_compute.
  - by_compute.
  - by_compute.
  - by_compute.
  - split; [|exact Hr]. intros E. destruct (proj1 H E) as [Hd _]. discriminate Hd.
Defined.

Lemma grants_all_or_none_witness :
  GrantStatements documented_Sanitize (bs "noty") (bs "app") [bs "public.orders"; bs "orders"] = [] /\
  GrantStatements documented_Sanitize (bs "noty") (bs "app") [bs "public.b"; bs "public.a"; bs "public.b"] =
  GrantStatements documented_Sanitize (bs "noty") (bs "app") [bs "public.a"; bs "public.b"].
Proof.
  split.
  - destruct (grants_all_or_none documented_Sanitize (bs "noty") (bs "app") [bs "public.orders"; bs "orders"]) as (_ & H & _).
    apply H. do 3 right. exists (bs "orders"). split; [by_compute|].
    intros text (schema & table & E & _). assert (Hd : "."%char ∈ bs "orders").
    { rewrite E. apply elem_of_app. right. apply elem_of_app. left. by left. }
    revert Hd. by_compute.
  - destruct (grants_all_or_none documented_Sanitize (bs "noty") (bs "app") [bs "public.a"; bs "public.b"]) as (_ & _ & _ & _ & H).
    apply H. intros x. set_solver.
Defined.

Lemma sample_realm_keeps m w w' :
  m ∈ sample_corpus -> execute realm_scripts (sql m) w = Ok w' -> ledger w' = Some (default ∅ (ledger w)).
Proof.
  intros _. cbn. destruct (namespace (rest_of w)), (ledger w); try done; case_bool_decide; by intros [= <-].
Qed.

Lemma quiet_neighbourly cfg : neighbourly realm_scripts cfg sample_corpus quiet_boot.
Proof.
  split.
  - intros c w _. apply rtc_refl.
  - intros n w _. apply rtc_refl.
  - done.
  - done.
  - intros script w w'. cbn. destruct (namespace (rest_of w)) eqn:E, (ledger w); try done; case_bool_decide; intros [= <-]; done.
Qed.

Definition sound_store (db : database) : bool :=
  bool_decide (map_Forall (λ _ r, sound_relation r = true) (relations db)) && (length (elsewhere db) =? 0)%nat.

Lemma sound_store_catalog schema db : sound_store db = true -> sound_catalog schema db.
Proof. intros [H1 H2]%andb_true_iff. apply sound_catalog_dec; [by apply bool_decide_eq_true in H1|].
  by apply Nat.eqb_eq, nil_length_inv in H2.
Qed.

Lemma boot_vouches_witness :
  exists w', boot_of (of_instance (bs "eu")) quiet_boot empty_world = Some (None, w') /\
    schema_is_ours (of_instance (bs "eu")) w' /\ reaches sample_corpus 2 w' /\
    exists name r f g, relations (store (rest_of w')) !! name = Some r /\ attached r = Some (RangeBound f g) /\
      f <= 5000 + one_hour < g.
Proof.
  assert (H : match boot_of (of_instance (bs "eu")) quiet_boot empty_world with
              | Some (None, w) => sound_store (store (rest_of w)) = true
              | _ => False
              end) by (vm_compute; reflexivity).
  destruct (boot_of (of_instance (bs "eu")) quiet_boot empty_world) as [[[f|] w']|] eqn:E;
    [exact (False_ind _ H)| |exact (False_ind _ H)].
  destruct (boot_vouches sample_server realm_scripts (sample_refusal "schema does not exist: ") documented_Sanitize id
    (of_instance (bs "eu")) sample_corpus sample_corpus sample_consecutive (reflexivity sample_corpus) sample_realm_keeps
    quiet_boot empty_world w') as (_ & _ & u & Hu & _ & Ho & _ & Hr & Hc).
  - exact sample_server_laws.
  - apply quiet_neighbourly.
  - exists 0%nat. split; [cbn; lia|reflexivity].
  - split; vm_compute; discriminate.
  - exact E.
  - exists w'. split; [reflexivity|]. split; [exact Ho|]. split; [exact Hr|]. cbn [before quiet_boot] in Hu. rewrite Hu in *.
    apply Hc; [apply sound_store_catalog; exact H|]. split; vm_compute; [discriminate|reflexivity].
Defined.

(** Another instance claims the schema while this boot waits for the lock. *)
Definition overtaken : boot_session :=
  BootSession (λ c w, match c with BLock => with_namespace (Some (Some (marker_text schemaMarkerForm (bs "us")))) w | _ => w end)
    (λ _, None) (λ _, false) (λ _, LedgerSession id (λ _, None) false) (λ _, quiet_tx 5000) (quiet_tx 5000).

Lemma foreign_schema_is_untouched_witness :
  exists f, boot_of (of_instance (bs "eu")) overtaken empty_world =
      Some (Some f, with_namespace (Some (Some (marker_text schemaMarkerForm (bs "us")))) empty_world) /\
    ErrForeignInstance ∈ wraps f.
Proof.
  destruct (boot_of (of_instance (bs "eu")) overtaken empty_world) as [answer|] eqn:E; [|vm_compute in E; discriminate E].
  destruct (foreign_schema_is_untouched sample_server realm_scripts (sample_refusal "schema does not exist: ") documented_Sanitize id
    (of_instance (bs "eu")) sample_corpus overtaken empty_world (marker_text schemaMarkerForm (bs "us")) answer)
    as (f & others & Ha & _ & Hf).
  - reflexivity.
  - discriminate.
  - vm_compute. discriminate.
  - exact E.
  - assert (Hw : answer.2 = with_namespace (Some (Some (marker_text schemaMarkerForm (bs "us")))) empty_world).
    { vm_compute in E. injection E as <-. vm_compute. reflexivity. }
    exists f. rewrite Ha in Hw |- *. cbn [snd] in Hw. rewrite Hw. split; [reflexivity|].
    apply Hf; try reflexivity. eexists. vm_compute. reflexivity.
Defined.

(** Two instances can both boot one schema. The lock's key names the instance, so two instances
    do not wait for each other, and the comment is read and written in separate statements: when one
    boots while the other is between the two, both answer nil. The later comment stands, and the
    instance whose marker it replaced is told at its next boot that its own schema is foreign. *)
Theorem two_instances_boot_one_schema :
  lockKey (bs "noty") (bs "us") <> lockKey (bs "noty") (bs "eu") /\
  exists w2 w3 f, boot_of (of_instance (bs "us")) quiet_boot (before interrupted BMarker empty_world) = Some (None, w2) /\
    schema_is_ours (of_instance (bs "us")) w2 /\
    boot_of (of_instance (bs "eu")) interrupted empty_world = Some (None, w3) /\
    schema_is_ours (of_instance (bs "eu")) w3 /\
    boot_of (of_instance (bs "us")) quiet_boot w3 = Some (Some f, w3) /\ ErrForeignInstance ∈ wraps f.
Proof.
  split; [vm_compute; discriminate|].
  assert (H2 : match boot_of (of_instance (bs "us")) quiet_boot empty_world with
               | Some (None, w2) => schema_is_ours (of_instance (bs "us")) w2 | _ => False end) by (vm_compute; reflexivity).
  assert (H3 : match boot_of (of_instance (bs "eu")) interrupted empty_world with
               | Some (None, w3) => schema_is_ours (of_instance (bs "eu")) w3 /\
                   match boot_of (of_instance (bs "us")) quiet_boot w3 with
                   | Some (Some f, w4) => wraps f = [ErrForeignInstance] /\ w4 = w3 | _ => False end
               | _ => False end) by (vm_compute; repeat split).
  change (before interrupted BMarker empty_world) with empty_world.
  destruct (boot_of (of_instance (bs "us")) quiet_boot empty_world) as [[[?|] w2]|] eqn:E2;
    [exact (False_ind _ H2)| |exact (False_ind _ H2)].
  destruct (boot_of (of_instance (bs "eu")) interrupted empty_world) as [[[?|] w3]|] eqn:E3;
    [exact (False_ind _ H3)| |exact (False_ind _ H3)]. destruct H3 as [H3 H4].
  destruct (boot_of (of_instance (bs "us")) quiet_boot w3) as [[[f|] w4]|] eqn:E4;
    [|exact (False_ind _ H4)|exact (False_ind _ H4)]. destruct H4 as [Hf H4].
  exists w2, w3, f. split; [exact eq_refl|]. split; [exact H2|]. split; [exact eq_refl|]. split; [exact H3|].
  split; [rewrite E4, H4; reflexivity|]. rewrite Hf. by left.
Qed.

(** A boot that fails may have done part of its work. When the second migration is refused the
    boot fails, and the schema is there, is this instance's, and has a ledger that records the first:
    neither what it was nor complete. *)
Theorem failed_boot_leaves_its_work :
  exists f w', boot_of (of_instance (bs "eu")) refused_script empty_world = Some (Some f, w') /\
    namespace (rest_of empty_world) = None /\ schema_is_ours (of_instance (bs "eu")) w' /\
    holds_first sample_corpus 1 w' /\ ~ reaches sample_corpus 2 w'.
Proof.
  assert (H : match boot_of (of_instance (bs "eu")) refused_script empty_world with
              | Some (Some f, w') => schema_is_ours (of_instance (bs "eu")) w' /\ ledger w' = Some (rows_of (take 1 sample_corpus))
              | _ => False end) by (vm_compute; split; reflexivity).
  destruct (boot_of (of_instance (bs "eu")) refused_script empty_world) as [[[f|] w']|];
    [|exact (False_ind _ H)|exact (False_ind _ H)]. destruct H as [Ho Hl].
  assert (Hh : holds_first sample_corpus 1 w') by (split; [cbn; lia|by rewrite Hl]).
  exists f, w'. split; [exact eq_refl|]. split; [exact eq_refl|]. split; [exact Ho|]. split; [exact Hh|]. intros (k & Hk & Hh'). pose proof (holds_first_inj sample_corpus sample_consecutive _ _ _ Hh Hh').
  lia.
Qed.
