(* ===== verification/Pool.v ===== *)
(** * The connection pool and what its errors show: [internal/schema/pool.go] and the elision of
    [errorelision.go].

    [OpenPool] hands every password a connection string spells, and the one the driver resolved, to the
    point every error leaves the package by. [net/url.Parse] and the driver's three calls are parameters. *)

From S2P Require Import Prelude Quote Catalog.

(** ** errorelision.go *)

Definition elidedPassword : gostring := bs "***".

(** [strings.ReplaceAll] with a pattern that is not empty; each round moves past a match. *)
Fixpoint replace_all_from (fuel : nat) (s old new : gostring) : gostring :=
  match fuel with
  | 0 => s
  | S fuel =>
      match index_of old s with
      | None => s
      | Some n => take n s ++ new ++ replace_all_from fuel (drop (n + length old) s) old new
      end
  end.
Definition ReplaceAll (s old new : gostring) : gostring := replace_all_from (length s) s old new.

Definition withoutSecrets (text : gostring) (secrets : list gostring) : gostring :=
  foldl (λ text secret, if bool_decide (secret = []) then text else ReplaceAll text secret elidedPassword) text secrets.

(** [finished] with what to elide; without secrets it is [Catalog.finished]. *)
Definition finishedWithout (e : tx_error) (secrets : list gostring) : failure :=
  Failure (withoutSecrets (error_text e) secrets) (option_list (sentinelMatching e)).

(** ** pool.go *)

Definition passwordParameter : gostring := bs "password".
Definition postgresScheme : gostring := bs "postgres".
Definition postgresqlScheme : gostring := bs "postgresql".

(** What is read of a parsed URL. *)
Record parsedURL := { Scheme : gostring; User_Password : option gostring; RawQuery : gostring }.

Definition hex_value (c : ascii) : option Z :=
  if is_digit c then Some (code c - 48)%Z
  else if ((97 <=? code c) && (code c <=? 102))%Z then Some (code c - 87)%Z
  else if ((65 <=? code c) && (code c <=? 70))%Z then Some (code c - 55)%Z else None.

(** [url.QueryUnescape], [None] for its error. *)
Fixpoint QueryUnescape (s : gostring) : option gostring :=
  match s with
  | [] => Some []
  | c :: r =>
      if bool_decide (c = "+"%char) then cons " "%char <$> QueryUnescape r
      else if bool_decide (c = "%"%char) then
        match r with
        | a :: b :: r => high ← hex_value a; low ← hex_value b; cons (byte_of (16 * high + low)) <$> QueryUnescape r
        | _ => None
        end
      else cons c <$> QueryUnescape r
  end.

Definition queryPasswords (rawQuery : gostring) : list gostring :=
  split_on "&"%char rawQuery ≫= λ parameter,
    match cut_prefix parameter (passwordParameter ++ bs "=") with
    | None => []
    | Some written =>
        written :: match QueryUnescape written with
                   | Some received => if bool_decide (received = written) then [] else [received]
                   | None => []
                   end
    end.

Section pool.
Context (url_Parse : gostring -> option parsedURL) {pool conf : Type}.
(** The driver: reading a string, the password it resolved, building a pool and its first round trip. *)
Context (ParseConfig : gostring -> result tx_error conf) (resolved_Password : conf -> gostring)
        (NewWithConfig : conf -> result tx_error pool) (Ping : pool -> option tx_error).

Definition passwordsWritten (dsn : gostring) : list gostring :=
  match url_Parse dsn with
  | None => []
  | Some parsed =>
      if negb (bool_decide (Scheme parsed = postgresScheme)) && negb (bool_decide (Scheme parsed = postgresqlScheme)) then []
      else option_list (User_Password parsed) ++ queryPasswords (RawQuery parsed)
  end.

Definition credentialsOf (dsn : gostring) (resolved : option conf) : list gostring :=
  let written := passwordsWritten dsn in
  match resolved with
  | None => written
  | Some c => if bool_decide (resolved_Password c ∈ written) then written else written ++ [resolved_Password c]
  end.

Definition errNoDatabaseURL : tx_error := Own (Failure (bs "no database URL is configured") []).

(** The pool, or the error and whether a pool that had been built was closed. *)
Definition OpenPool (dsn : gostring) : result (failure * bool) pool :=
  if bool_decide (dsn = []) then Err (finishedWithout errNoDatabaseURL [], false)
  else
    match ParseConfig dsn with
    | Err e => Err (finishedWithout e (credentialsOf dsn None), false)
    | Ok c =>
        let secrets := credentialsOf dsn (Some c) in
        match NewWithConfig c with
        | Err e => Err (finishedWithout e secrets, false)
        | Ok p => match Ping p with
                  | Some e => Err (finishedWithout e secrets, true)
                  | None => Ok p
                  end
        end
    end.
End pool.

(** ** What leaves *)

Definition star : ascii := "*"%char.

Lemma contains_around c x y sub : c ∉ sub -> sub <> [] -> contains_sub (x ++ c :: y) sub = true ->
  contains_sub x sub = true \/ contains_sub y sub = true.
Proof.
  rewrite !contains_sub_app. intros Hc Hn (a & b & Heq). apply app_eq_app in Heq as [l [[-> Hl]|[-> Hl]]].
  - apply app_eq_app in Hl as [l2 [[-> Hl2]|[-> Hl2]]].
    + destruct l2 as [|d l2]; [left; exists a, []; by rewrite !app_nil_r|]. cbn in Hl2. injection Hl2 as <- _. set_solver.
    + left. by exists a, l2.
  - destruct l as [|d l]; cbn in Hl.
    + destruct sub as [|d sub]; [done|]. cbn in Hl. injection Hl as <- _. set_solver.
    + injection Hl as <- ->. right. by exists l, b.
Qed.

(** A replacement creates no occurrence of a text without the placeholder's byte. *)
Lemma replace_creates_nothing fuel old sub : star ∉ sub -> sub <> [] -> forall s,
  contains_sub (replace_all_from fuel s old elidedPassword) sub = true -> contains_sub s sub = true.
Proof.
  intros Hs Hn. induction fuel as [|fuel IH]; intros s; cbn [replace_all_from]; [done|]. destruct (index_of old s) as [n|] eqn:Hi; [|done].
  change elidedPassword with [star; star; star]. cbn [app].
  intros [H|H]%contains_around; [| |done|done].
  - rewrite contains_sub_app in *. destruct H as (a & b & H). exists a, (b ++ drop n s). by rewrite !app_assoc, <- (app_assoc a), <- H, take_drop.
  - apply (contains_around star [star]) in H as [H|H]; [| |done|done].
    + apply (contains_around star []) in H as [H|H]; [| |done|done]; rewrite contains_sub_app in H; destruct H as (a & b & H);
        symmetry in H; apply app_nil in H as [_ [? _]%app_nil]; by destruct Hn.
    + apply IH in H. rewrite contains_sub_app in *. destruct H as (a & b & H). exists (take (n + length old) s ++ a), b.
      by rewrite <- (take_drop (n + length old) s) at 1; rewrite H, <- app_assoc.
Qed.

(** It leaves no occurrence of what it replaces. *)
Lemma replace_removes old : star ∉ old -> old <> [] -> forall fuel s, (length s <= fuel)%nat ->
  contains_sub (replace_all_from fuel s old elidedPassword) old = false.
Proof.
  intros Hs Hn. assert (Hl : (0 < length old)%nat) by (destruct old; [done|cbn; lia]).
  induction fuel as [|fuel IH]; intros s Hf; cbn [replace_all_from].
  { destruct s; [|cbn in Hf; lia]. apply not_true_iff_false. rewrite contains_sub_app. intros (a & b & H).
    symmetry in H. by apply app_nil in H as [_ [? _]%app_nil]. }
  destruct (index_of old s) as [n|] eqn:Hi; [|unfold contains_sub; rewrite Hi; by apply bool_decide_eq_false_2; intros [? [=]]].
  apply index_of_Some in Hi as (Hp & Hle & Hfirst). apply not_true_iff_false. change elidedPassword with [star; star; star]. cbn [app].
  intros [H|H]%contains_around; [| |done|done].
  - rewrite contains_sub_app in H. destruct H as (a & b & H). assert (Hlen : length (take n s) = n) by (rewrite length_take; lia).
    rewrite H, !length_app in Hlen. assert (Hno := Hfirst (length a) ltac:(lia)).
    apply not_true_iff_false in Hno. apply Hno, has_prefix_spec. exists (b ++ drop n s). rewrite <- (take_drop n s), H at 1. by rewrite <- !app_assoc, drop_app_length.
  - apply (contains_around star [star]) in H as [H|H]; [| |done|done].
    + apply (contains_around star []) in H as [H|H]; [| |done|done]; rewrite contains_sub_app in H; destruct H as (a & b & H);
        symmetry in H; apply app_nil in H as [_ [? _]%app_nil]; by destruct Hn.
    + change [star; star; star] with elidedPassword in H. rewrite IH in H; [done|]. rewrite length_drop. apply has_prefix_spec in Hp as [r Hp].
      apply (f_equal length) in Hp. rewrite length_drop, length_app in Hp. lia.
Qed.

Abbreviation elide_all := (foldl (λ text secret, if bool_decide (secret = []) then text else ReplaceAll text secret elidedPassword)).

Lemma elision_keeps s secrets : star ∉ s -> s <> [] -> forall text, contains_sub text s = false -> contains_sub (elide_all text secrets) s = false.
Proof.
  intros Hs Hn. induction secrets as [|secret secrets IH]; intros text Ht; cbn [foldl]; [done|]. apply IH. case_bool_decide; [done|].
  apply not_true_iff_false. intros Hc%replace_creates_nothing; [congruence|done|done].
Qed.

Lemma elided secrets : Forall (λ s, star ∉ s) secrets -> forall text s, s ∈ secrets -> s <> [] -> contains_sub (withoutSecrets text secrets) s = false.
Proof.
  intros Hall. unfold withoutSecrets. induction Hall as [|secret secrets Hsec Hall IH]; intros text s Hin Hn; [by apply elem_of_nil in Hin|]. cbn [foldl].
  apply elem_of_cons in Hin as [->|Hin]; [|by apply IH]. apply elision_keeps; [done|done|].
  rewrite bool_decide_eq_false_2 by done. apply replace_removes; [done|done|lia].
Qed.

(** ** The passwords a connection string spells

    Stated of the string's parts: a password is written after [password=], between the query's start or a
    separator and its end or the next separator, wherever that is; and it is spelled as written and as
    the server receives it. *)

(** What a text reads as once its percent signs and plus signs are decoded. *)
Inductive unescapes : gostring -> gostring -> Prop :=
  | unescapes_end : unescapes [] []
  | unescapes_space s r : unescapes s r -> unescapes ("+"%char :: s) (" "%char :: r)
  | unescapes_byte a b high low s r : hex_value a = Some high -> hex_value b = Some low -> unescapes s r ->
      unescapes ("%"%char :: a :: b :: s) (byte_of (16 * high + low) :: r)
  | unescapes_plain c s r : c <> "+"%char -> c <> "%"%char -> unescapes s r -> unescapes (c :: s) (c :: r).

Definition query_spells (query password : gostring) : Prop := exists before written after,
  query = before ++ (bs "password=" ++ written) ++ after /\ "&"%char ∉ written /\
  (before = [] \/ exists before', before = before' ++ ["&"%char]) /\ (after = [] \/ exists after', after = "&"%char :: after') /\
  (password = written \/ unescapes written password).

Lemma QueryUnescape_iff s r : QueryUnescape s = Some r <-> unescapes s r.
Proof.
  split.
  - revert r. induction s as [s IH] using (induction_ltof1 _ (@length ascii)). unfold ltof in IH.
    destruct s as [|c s]; cbn [QueryUnescape]; intros r; [intros [= <-]; constructor|].
    case_bool_decide as H1; [|case_bool_decide as H2].
    + subst c. intros (r' & E & ->)%fmap_Some. constructor. apply IH; [cbn; lia|done].
    + subst c. destruct s as [|a [|b s]]; [done..|]. intros (high & Ha & (low & Hb & (r' & E & ->)%fmap_Some)%bind_Some)%bind_Some.
      constructor; [done..|]. apply IH; [cbn; lia|done].
    + intros (r' & E & ->)%fmap_Some. constructor; [done..|]. apply IH; [cbn; lia|done].
  - induction 1 as [|s r _ IH|a b high low s r Ha Hb _ IH|c s r H1 H2 _ IH]; cbn [QueryUnescape]; [done|..].
    + by rewrite bool_decide_eq_true_2, IH.
    + rewrite bool_decide_eq_false_2, bool_decide_eq_true_2 by done. by rewrite Ha, Hb; cbn; rewrite IH.
    + rewrite !bool_decide_eq_false_2 by done. by rewrite IH.
Qed.

Lemma split_on_cons c s : exists p b, s = p ++ b /\ c ∉ p /\
  (b = [] /\ split_on c s = [p] \/ exists b', b = c :: b' /\ split_on c s = p :: split_on c b').
Proof.
  induction s as [|x s (p & b & -> & Hp & Hs)]; [exists [], []; split_and!; [done|set_solver|by left]|]. cbn [split_on].
  case_bool_decide as Hx.
  - subst x. exists [], (c :: p ++ b). split_and!; [done|set_solver|right; eauto].
  - exists (x :: p), b. split; [done|]. split; [set_solver|]. destruct Hs as [[-> ->]|(b' & -> & ->)]; eauto.
Qed.

Lemma split_on_middle c a b : split_on c (a ++ c :: b) = split_on c a ++ split_on c b.
Proof.
  induction a as [|x a IH]; cbn [app split_on]; [by rewrite bool_decide_eq_true_2|]. rewrite IH.
  case_bool_decide; [done|]. by destruct (split_on c a) eqn:E; [apply split_on_nonempty in E|].
Qed.

(** The parts of a text are what lies between its separators. *)
Lemma elem_of_split_on c s p : p ∈ split_on c s <-> exists a b, s = a ++ p ++ b /\ c ∉ p /\
  (a = [] \/ exists a', a = a' ++ [c]) /\ (b = [] \/ exists b', b = c :: b').
Proof.
  split.
  - induction s as [s IH] using (induction_ltof1 _ (@length ascii)). unfold ltof in IH.
    destruct (split_on_cons c s) as (q & b & -> & Hq & [[-> ->]|(b' & -> & ->)]).
    + intros ->%list_elem_of_singleton. exists [], []. split_and!; auto.
    + intros [->|Hin]%elem_of_cons; [exists [], (c :: b'); split_and!; eauto|].
      destruct (IH b' ltac:(rewrite length_app; cbn; lia) Hin) as (a & b & -> & Hp & Ha & Hb).
      exists (q ++ c :: a), b. split; [by rewrite <- app_assoc|]. split; [done|]. split; [right|done].
      destruct Ha as [->|[a' ->]]; [by exists q|]. exists (q ++ c :: a'). by rewrite <- app_assoc.
  - intros (a & b & -> & Hp & Ha & Hb).
    assert (Hfirst : p ∈ split_on c (p ++ b)).
    { destruct Hb as [->|[b' ->]]; [rewrite app_nil_r, split_on_no_sep by done; left|rewrite split_on_app by done; left]. }
    destruct Ha as [->|[a' ->]]; [done|]. rewrite <- app_assoc. cbn [app]. rewrite split_on_middle. apply elem_of_app. by right.
Qed.

Lemma queryPasswords_iff query password : password ∈ queryPasswords query <-> query_spells query password.
Proof.
  unfold queryPasswords, query_spells. rewrite list_elem_of_bind. split.
  - intros (parameter & Hin & (before & after & -> & Hamp & Hb & Ha)%elem_of_split_on). revert Hin.
    destruct (cut_prefix _ _) as [written|] eqn:Hcut; [|by intros ?%elem_of_nil]. apply cut_prefix_iff in Hcut as ->.
    intros Hin. exists before, written, after. split_and!; [done|set_solver|done|done|].
    apply elem_of_cons in Hin as [->|Hin]; [by left|]. destruct (QueryUnescape written) as [received|] eqn:Hu; [|by apply elem_of_nil in Hin].
    case_bool_decide; [by apply elem_of_nil in Hin|]. apply list_elem_of_singleton in Hin as ->. right. by apply QueryUnescape_iff.
  - intros (before & written & after & -> & Hamp & Hb & Ha & Hp). exists (bs "password=" ++ written). split.
    + unfold passwordParameter. rewrite cut_prefix_app. destruct Hp as [->|Hu%QueryUnescape_iff]; [left|rewrite Hu].
      case_bool_decide as He; [subst; left|right; left].
    + apply elem_of_split_on. exists before, after. split_and!; [done| |done|done].
      intros [Hin|Hin]%elem_of_app; [|done]. by apply (bool_decide_eq_true_2 _) in Hin.
Qed.

Section leaving.
Context (url_Parse : gostring -> option parsedURL) {pool conf : Type}.
Context (ParseConfig : gostring -> result tx_error conf) (resolved_Password : conf -> gostring)
        (NewWithConfig : conf -> result tx_error pool) (Ping : pool -> option tx_error).
Abbreviation open := (OpenPool url_Parse ParseConfig resolved_Password NewWithConfig Ping).

(** The passwords a connection URI spells: the user's, and those of its query. *)
Definition spelled (dsn password : gostring) : Prop := exists parsed, url_Parse dsn = Some parsed /\
  (Scheme parsed = bs "postgres" \/ Scheme parsed = bs "postgresql") /\
  (User_Password parsed = Some password \/ query_spells (RawQuery parsed) password).

Definition resolved (dsn password : gostring) : Prop := exists c, ParseConfig dsn = Ok c /\ password = resolved_Password c.

Lemma passwordsWritten_iff dsn password : password ∈ passwordsWritten url_Parse dsn <-> spelled dsn password.
Proof.
  unfold passwordsWritten, spelled. destruct (url_Parse dsn) as [parsed|]; [|split; [by intros ?%elem_of_nil|by intros (? & ? & _)]].
  assert (Hin : password ∈ option_list (User_Password parsed) ++ queryPasswords (RawQuery parsed) <->
    User_Password parsed = Some password \/ query_spells (RawQuery parsed) password).
  { rewrite elem_of_app, queryPasswords_iff. destruct (User_Password parsed) as [user|]; cbn.
    - rewrite list_elem_of_singleton. by split; (intros [Hp|Hp]; [left; congruence|right]).
    - rewrite elem_of_nil. by split; (intros [Hp|Hp]; [|right]). }
  rewrite <- negb_orb. destruct (bool_decide (Scheme parsed = postgresScheme) || _) eqn:Hs; cbn [negb].
  - rewrite Hin. apply orb_true_iff in Hs as [Hs%bool_decide_eq_true|Hs%bool_decide_eq_true]; (split; [intros ?; exists parsed; auto|by intros (? & [= <-] & _ & ?)]).
  - split; [by intros ?%elem_of_nil|]. intros (? & [= <-] & Hs' & _).
    apply orb_false_iff in Hs as [H1%bool_decide_eq_false H2%bool_decide_eq_false]. by destruct Hs'.
Qed.

(** What [OpenPool] hands to the elision: every password the string spells, and the driver's where it read the string. *)
Lemma credentialsOf_iff dsn password :
  password ∈ credentialsOf url_Parse resolved_Password dsn (match ParseConfig dsn with Ok c => Some c | Err _ => None end) <->
  spelled dsn password \/ resolved dsn password.
Proof.
  unfold credentialsOf, resolved. rewrite <- passwordsWritten_iff. destruct (ParseConfig dsn) as [c|e]; [case_bool_decide|].
  - split; [auto|]. intros [|(? & [= <-] & ->)]; done.
  - rewrite elem_of_app, list_elem_of_singleton. split; (intros [Hp|Hp]; [by left|right]); [by exists c|].
    by destruct Hp as (? & [= <-] & ->).
  - split; [auto|]. by intros [|(? & ? & _)].
Qed.

(** C40. An error of [OpenPool] for a string holds no password: none the string spells -- the user's, or a
    [password] parameter anywhere in its query, as written and as the server receives it -- and not the
    one the driver resolved, wherever the driver's text had them. It unwraps to one sentinel of
    the package at most, never to the driver's error, and a pool that was built and did not answer is
    closed. No password holds a byte of the placeholder, and an empty one is not looked for. *)
Theorem no_password_leaves_the_pool dsn f closed :
  (forall password, spelled dsn password \/ resolved dsn password -> star ∉ password) -> open dsn = Err (f, closed) ->
  (forall password, spelled dsn password \/ resolved dsn password -> password <> [] -> dsn <> [] -> contains_sub (text f) password = false) /\
  (length (wraps f) <= 1)%nat /\ Forall (λ s, s ∈ packageSentinels) (wraps f) /\
  (closed = true <-> dsn <> [] /\ exists c p, ParseConfig dsn = Ok c /\ NewWithConfig c = Ok p /\ is_Some (Ping p)).
Proof.
  intros Hstar Ho.
  assert (Hsent : forall e, (length (option_list (sentinelMatching e)) <= 1)%nat /\ Forall (λ s, s ∈ packageSentinels) (option_list (sentinelMatching e))).
  { intros e. unfold sentinelMatching. destruct (head (filter _ _)) as [s|] eqn:Hh; [|by split; [cbn; lia|constructor]]. split; [done|].
    apply Forall_singleton. apply head_Some_elem_of in Hh. by apply list_elem_of_filter in Hh as [_ Hh]. }
  pose proof (credentialsOf_iff dsn) as Hcred.
  set (secrets := credentialsOf _ _ _ _) in Hcred. assert (Hfree : Forall (λ s, star ∉ s) secrets).
  { apply Forall_forall. intros s Hs. by apply Hstar, Hcred. }
  unfold OpenPool in Ho. case_bool_decide as Hd.
  { injection Ho as <- <-. destruct (Hsent errNoDatabaseURL). split_and!; [done|done|done|]. split; [done|by intros [? _]]. }
  assert (exists e, f = finishedWithout e secrets) as [e ->].
  { unfold secrets. destruct (ParseConfig dsn) as [c|e]; [destruct (NewWithConfig c) as [p|e]; [destruct (Ping p) as [e|]; [|done]|]|];
      injection Ho as <- _; by eexists. }
  destruct (Hsent e). split_and!; [|done|done|].
  - intros s Hs Hn _. by apply elided; [|apply Hcred|].
  - destruct (ParseConfig dsn) as [c|e'] eqn:Hp; [destruct (NewWithConfig c) as [p|e'] eqn:Hnew; [destruct (Ping p) as [e'|] eqn:Hping; [|done]|]|].
    + assert (closed = true) as -> by congruence. split; [|done]. intros _. split; [done|]. exists c, p. by rewrite Hping.
    + assert (closed = false) as -> by congruence. split; [done|]. intros (_ & c' & p & [= <-] & Hn & _). congruence.
    + assert (closed = false) as -> by congruence. split; [done|]. by intros (_ & c & p & [=] & _).
Qed.
End leaving.

(** A user's password and three in the query, in a text the driver wrote. *)
Definition sample_query : gostring := bs "password=first&sslmode=require&password=a%40b&password=third".
Definition sample_url (dsn : gostring) : option parsedURL :=
  Some {| Scheme := postgresqlScheme; User_Password := Some (bs "hunter2"); RawQuery := sample_query |}.
Definition sample_refusal : tx_error :=
  Raw (RawError (bs "cannot parse postgresql://app:hunter2@db/app?" ++ sample_query ++ bs ": password a@b refused, third, PGPASSWORD s3cret") None).

Lemma no_password_leaves_the_pool_witness :
  exists f, OpenPool sample_url Ok (λ _, bs "s3cret") (λ _, Ok tt) (λ _, Some sample_refusal) (bs "dsn") = Err (f, true) /\
    text f = bs "cannot parse postgresql://app:***@db/app?password=***&sslmode=require&password=***&password=***: password *** refused, ***, PGPASSWORD ***" /\
    Forall (λ s, contains_sub (text f) s = false) [bs "hunter2"; bs "first"; bs "a%40b"; bs "a@b"; bs "third"; bs "s3cret"].
Proof.
  eexists. split; [reflexivity|]. split; [vm_compute; reflexivity|].
  assert (Hall : forall s, s ∈ [bs "hunter2"; bs "first"; bs "a%40b"; bs "a@b"; bs "third"; bs "s3cret"] <->
      spelled sample_url (bs "dsn") s \/ resolved Ok (λ _ : gostring, bs "s3cret") (bs "dsn") s).
  { intros s. rewrite <- credentialsOf_iff. by vm_compute. }
  apply Forall_forall. intros s Hs.
  eapply (no_password_leaves_the_pool sample_url Ok (λ _ : gostring, bs "s3cret") (λ _, Ok tt) (λ _, Some sample_refusal) (bs "dsn") _ true);
    [|reflexivity|by apply Hall|by intros ->; vm_compute in Hs; repeat (apply elem_of_cons in Hs as [[=]|Hs]); apply elem_of_nil in Hs|discriminate].
  intros s' Hs'%Hall. revert Hs'. vm_compute. intros Hs' Hstar.
  repeat (apply elem_of_cons in Hs' as [->|Hs']; [repeat (apply elem_of_cons in Hstar as [[=]|Hstar]); by apply elem_of_nil in Hstar|]).
  by apply elem_of_nil in Hs'.
Defined.

(** The secrets are elided in the order they were found: where one occurs in another found later, the rest of
    the longer one stays. *)
Example shorter_password_first :
  withoutSecrets (bs "postgres://u:a@h/db?password=abc") [bs "a"; bs "abc"] = bs "postgres://u:***@h/db?p***ssword=***bc".
Proof. vm_compute. reflexivity. Qed.
