(* ===== verification/SqlLex.v ===== *)
(** * Reading SQL: the tokens PostgreSQL's lexer makes of rendered text.

    A reader of the documented lexical structure, for the statements [Generate.v] renders: blanks,
    words (names, key words and numbers), quoted names, string constants with and without the [E]
    prefix, dollar-quoted constants, and single-byte symbols. It refuses what the templates never
    hold -- comments, other prefixed constants, a string constant continued by another, parameters
    -- so a text it reads is one without them. *)

From S2P Require Import Prelude Utf8 Quote.

Inductive token :=
  | Word (w : gostring)
  | Name_token (name : gostring)
  | Constant (value : gostring)
  | Dollar (body : gostring)
  | Symbol (c : ascii).

#[export] Instance token_eq_dec : EqDecision token.
Proof. solve_decision. Defined.

Definition is_blank (c : ascii) : bool := ((code c =? 32) || ((9 <=? code c) && (code c <=? 13)))%Z.

Fixpoint skip_blank (s : gostring) : gostring :=
  match s with c :: rest => if is_blank c then skip_blank rest else s | [] => [] end.

(** The longest run of word bytes, and the rest. *)
Fixpoint word_run (s : gostring) : gostring * gostring :=
  match s with
  | c :: rest => if is_word c then let (w, next) := word_run rest in (c :: w, next) else ([], s)
  | [] => ([], [])
  end.

Definition dollar : ascii := "$"%char.

Definition quote_next (s : gostring) : bool :=
  match s with c :: _ => bool_decide (c = squote) || bool_decide (c = dquote) | [] => false end.

(** A string constant that another one after a blank would continue is refused. *)
Definition read_constant (escapes : bool) (s : gostring) : option (option token * gostring) :=
  match literal_body escapes s with
  | Some (v, next) => if quote_next (skip_blank next) then None else Some (Some (Constant v), next)
  | None => None
  end.

(** [$tag$ ... $tag$]; [s] starts after the first dollar. *)
Definition read_dollar (s : gostring) : option (option token * gostring) :=
  match index_of [dollar] s with
  | None => None
  | Some n =>
      let tag := take n s in
      if forallb is_word tag then
        let rest := drop (S n) s in
        match index_of (dollar_delimiter tag) rest with
        | None => None
        | Some m => Some (Some (Dollar (take m rest)), drop (m + length (dollar_delimiter tag)) rest)
        end
      else None
  end.

(** One token, or a blank, and what follows it. *)
Definition next_token (s : gostring) : option (option token * gostring) :=
  match s with
  | [] => None
  | c :: rest =>
      if is_blank c then Some (None, rest)
      else if bool_decide (c = squote) then read_constant false rest
      else if bool_decide (c = "E"%char) && bool_decide (head rest = Some squote) then read_constant true (tail rest)
      else if bool_decide (c = dquote) then
        match quoted_part rest with Some (name, next) => Some (Some (Name_token name), next) | None => None end
      else if bool_decide (c = dollar) then read_dollar rest
      else if has_prefix s (bs "--") || has_prefix s (bs "/*") || bool_decide (c = "&"%char) then None
      else if is_word c then
        let (w, next) := word_run s in if quote_next next then None else Some (Some (Word w), next)
      else Some (Some (Symbol c), rest)
  end.

Definition emitted (t : option token) : list token := match t with Some t => [t] | None => [] end.

Fixpoint lex_from (fuel : nat) (s : gostring) : option (list token) :=
  match fuel with
  | O => None
  | S fuel =>
      match s with
      | [] => Some []
      | _ :: _ =>
          match next_token s with
          | Some (t, next) =>
              match lex_from fuel next with Some ts => Some (emitted t ++ ts) | None => None end
          | None => None
          end
      end
  end.

(** Every token takes at least a byte, so the text's length is fuel enough. *)
Definition lex (s : gostring) : option (list token) := lex_from (S (length s)) s.

(** The reader as a relation, for composing texts. *)
Inductive reads : gostring -> list token -> Prop :=
  | reads_end : reads [] []
  | reads_token s t next ts : next_token s = Some (t, next) -> reads next ts -> reads s (emitted t ++ ts).

(** ** Progress *)

Lemma literal_body_shorter escapes s v next : literal_body escapes s = Some (v, next) -> length next < length s.
Proof.
  remember (length s) as n eqn:Hn. revert s v next Hn. induction (lt_wf n) as [n _ IH]. intros s v next Hn.
  destruct s as [|c rest]; simpl; [done|]. simpl in Hn. destruct (_ && escapes).
  - destruct rest as [|d rest']; [done|]. case_bool_decide; [|done]. destruct (literal_body _ _) as [[w k]|] eqn:E; [|done].
    intros [= <- <-]. simpl in Hn. apply (IH (length rest')) in E; lia.
  - case_bool_decide.
    + destruct (literal_body _ _) as [[w k]|] eqn:E; [|done]. intros [= <- <-]. apply (IH (length rest)) in E; lia.
    + destruct rest as [|d rest']; simpl in Hn; [intros [= <- <-]; simpl; lia|]. case_bool_decide.
      * destruct (literal_body _ _) as [[w k]|] eqn:E; [|done]. intros [= <- <-]. apply (IH (length rest')) in E; lia.
      * intros [= <- <-]. simpl. lia.
Qed.

Lemma read_constant_shorter escapes s t next : read_constant escapes s = Some (t, next) -> length next < length s.
Proof.
  unfold read_constant. destruct (literal_body escapes s) as [[v k]|] eqn:E; [|done].
  destruct (quote_next _); [done|]. intros [= <- <-]. by eapply literal_body_shorter.
Qed.

Lemma word_run_length s : length (snd (word_run s)) <= length s.
Proof.
  induction s as [|c rest IH]; simpl; [done|]. destruct (is_word c); [|done].
  destruct (word_run rest). simpl in *. lia.
Qed.

Lemma next_token_shorter s t next : next_token s = Some (t, next) -> length next < length s.
Proof.
  destruct s as [|c rest]; [done|]. unfold next_token. destruct (is_blank c); [intros [= <- <-]; simpl; lia|].
  case_bool_decide. { intros E%read_constant_shorter. simpl. lia. }
  destruct (bool_decide (c = "E"%char) && _).
  { intros E%read_constant_shorter. destruct rest; simpl in *; lia. }
  case_bool_decide.
  { destruct (quoted_part rest) as [[n k]|] eqn:E; [|done]. intros [= <- <-].
    apply quoted_part_Some in E as [-> _]. simpl. rewrite !length_app. simpl. lia. }
  case_bool_decide.
  { unfold read_dollar. destruct (index_of _ rest) as [n|]; [|done]. destruct (forallb _ _); [|done].
    destruct (index_of _ (drop (S n) rest)); [|done]. intros [= <- <-]. rewrite !length_drop. simpl. lia. }
  destruct (_ || _); [done|]. destruct (is_word c) eqn:Hw.
  - cbn [word_run]. rewrite Hw. pose proof (word_run_length rest). destruct (word_run rest) as [w k].
    destruct (quote_next k); [done|]. intros [= <- <-]. simpl in *. lia.
  - intros [= <- <-]. simpl. lia.
Qed.

Lemma reads_lex_from s ts : reads s ts -> forall fuel, length s < fuel -> lex_from fuel s = Some ts.
Proof.
  induction 1 as [|s t next ts Hn _ IH]; intros [|fuel] Hf; try lia; [done|]. simpl.
  pose proof (next_token_shorter _ _ _ Hn). destruct s as [|c s]; [done|].
  rewrite Hn, IH; [done|simpl in *; lia].
Qed.

Lemma reads_lex s ts : reads s ts -> lex s = Some ts.
Proof. intros H. apply (reads_lex_from _ _ H). lia. Qed.

Lemma lex_from_reads fuel s ts : lex_from fuel s = Some ts -> reads s ts.
Proof.
  revert s ts. induction fuel as [|fuel IH]; intros s ts; simpl; [done|].
  destruct s as [|c s]; [intros [= <-]; constructor|].
  destruct (next_token (c :: s)) as [[t next]|] eqn:E; [|done].
  destruct (lex_from fuel next) as [us|] eqn:F; [|done]. intros [= <-]. econstructor; eauto.
Qed.

Lemma lex_reads s ts : lex s = Some ts -> reads s ts.
Proof. apply lex_from_reads. Qed.

(** ** Texts put together *)

(** Text that holds no quote and no dollar. *)
Definition plain (s : gostring) : bool :=
  forallb (λ c, negb (bool_decide (c = squote) || bool_decide (c = dquote) || bool_decide (c = dollar))) s.

(** Text whose last byte no following byte can extend to another token. *)
Definition ends_token (s : gostring) : bool :=
  match last s with
  | Some c => negb (is_word c || bool_decide (c = "-"%char) || bool_decide (c = "/"%char))
  | None => true
  end.

(** Text whose first byte extends no token before it. *)
Definition separates (rest : gostring) : bool :=
  match rest with
  | c :: _ => negb (is_word c || bool_decide (c = squote) || bool_decide (c = dquote) ||
                    bool_decide (c = "-"%char) || bool_decide (c = "*"%char))
  | [] => true
  end.

Definition joins (s rest : gostring) : bool := ends_token s || separates rest.

(** Text of a template: it reads by itself, and starts no quote. *)
Definition template (s : gostring) : bool :=
  plain s && negb (bool_decide (skip_blank s = [])) && bool_decide (is_Some (lex s)).

Definition follows (rest : gostring) : Prop := quote_next (skip_blank rest) = false.

Lemma plain_cons c s : plain (c :: s) = true ->
  c <> squote /\ c <> dquote /\ c <> dollar /\ plain s = true.
Proof.
  unfold plain. cbn [forallb]. intros H. apply andb_true_iff in H as [H ?]. apply negb_true_iff in H. bool_to_prop.
  done.
Qed.

Lemma word_run_app s rest :
  plain s = true -> joins s rest = true -> s <> [] -> word_run (s ++ rest) =
  (fst (word_run s), snd (word_run s) ++ rest) /\
  plain (snd (word_run s)) = true /\ joins (snd (word_run s)) rest = true /\
  (snd (word_run s) = [] -> separates rest = true).
Proof.
  induction s as [|c s IH]; [done|]. intros Hp He _. cbn [app word_run].
  pose proof (plain_cons _ _ Hp) as (? & ? & ? & Hp'). destruct (is_word c) eqn:Hw; [|done].
  destruct s as [|d s].
  - unfold joins, ends_token in He. cbn [last] in He. rewrite Hw in He. cbn [orb negb] in He.
    cbn [app]. split; [|by split].
    destruct rest as [|e rest]; [done|]. cbn [separates] in He. cbn [word_run]. bool_to_prop.
    by match goal with H : is_word e = false |- _ => rewrite H end.
  - destruct (IH Hp' He ltac:(done)) as (-> & ? & ? & ?). by destruct (word_run (d :: s)).
Qed.

Lemma joins_tail c s rest : joins (c :: s) rest = true -> joins s rest = true.
Proof. by destruct s. Qed.

(** What follows the last byte of a text. *)
Lemma joins_last c rest d : joins [c] rest = true -> head rest = Some d ->
  (is_word c = false \/ (is_word d = false /\ d <> squote /\ d <> dquote)) /\
  (c = "-"%char \/ c = "/"%char -> d <> "-"%char /\ d <> "*"%char).
Proof.
  unfold joins, ends_token. cbn [last]. intros H Hd. destruct rest as [|e rest]; [done|]. injection Hd as ->.
  cbn [separates] in H. apply orb_true_iff in H as [H|H]; apply negb_true_iff in H; bool_to_prop; naive_solver.
Qed.

Lemma has_prefix_two (c d x : ascii) s rest :
  (s = [] -> c = x -> head rest <> Some d) -> has_prefix (c :: s ++ rest) [x; d] = has_prefix (c :: s) [x; d].
Proof.
  intros H. destruct s as [|e s]; [|done]. unfold has_prefix. cbn [app take length].
  destruct rest as [|e rest]; [done|]. cbn [take]. rewrite !bool_decide_eq_false_2; [done|done|].
  intros [= -> ->]. by apply H.
Qed.

Lemma next_token_app s rest t next :
  plain s = true -> joins s rest = true -> next_token s = Some (t, next) ->
  next_token (s ++ rest) = Some (t, next ++ rest) /\ plain next = true /\ joins next rest = true.
Proof.
  destruct s as [|c s]; [done|]. intros Hp He.
  pose proof (plain_cons _ _ Hp) as (Hs & Hd & Ho & Hp'). cbn [app]. unfold next_token.
  pose proof (joins_tail _ _ _ He) as He'.
  destruct (is_blank c); [intros [= <- <-]; done|]. rewrite !bool_decide_eq_false_2 with (P := c = squote) by done.
  assert (He1 : c = "E"%char -> head s <> Some squote /\ head (s ++ rest) <> Some squote).
  { intros ->. split; intros Hk; (destruct s as [|e s]; [|injection Hk as ->; by destruct (plain_cons _ _ Hp')]); [done|].
    destruct (joins_last _ _ _ He Hk) as [[?|(_ & ? & _)] _]; done. }
  assert (forall k, k = s \/ k = s ++ rest -> bool_decide (c = "E"%char) && bool_decide (head k = Some squote) = false)
    as HE.
  { intros k Hk. case_bool_decide as Hc; [|done]. destruct (He1 Hc). apply bool_decide_eq_false_2.
    by destruct Hk as [->| ->]. }
  rewrite (HE s), (HE (s ++ rest)) by auto. clear HE He1.
  rewrite !bool_decide_eq_false_2 with (P := c = dquote) by done.
  rewrite !bool_decide_eq_false_2 with (P := c = dollar) by done.
  change (bs "--") with ["-"; "-"]%char. change (bs "/*") with ["/"; "*"]%char.
  rewrite !has_prefix_two
    by (intros -> -> Hk; destruct (joins_last _ _ _ He Hk) as [_ Hx]; destruct Hx; auto).
  destruct (_ || _ || _); [done|].
  destruct (is_word c) eqn:Hw; [|intros [= <- <-]; done].
  destruct (word_run_app (c :: s) rest Hp He ltac:(done)) as (E & Hpn & Hen & Hsep).
  change (c :: s ++ rest) with ((c :: s) ++ rest). rewrite E.
  destruct (word_run (c :: s)) as [w k]; cbn [fst snd] in *.
  assert (quote_next (k ++ rest) = quote_next k) as ->.
  { destruct k as [|d k]; [|done]. specialize (Hsep eq_refl). destruct rest as [|d rest]; [done|].
    cbn [separates] in Hsep. apply negb_true_iff in Hsep. cbn [app quote_next]. bool_to_prop.
    by rewrite !bool_decide_eq_false_2. }
  destruct (quote_next k); [done|]. by intros [= <- <-].
Qed.

Lemma reads_app s ts rest us :
  plain s = true -> joins s rest = true -> reads s ts -> reads rest us -> reads (s ++ rest) (ts ++ us).
Proof.
  intros Hp He H Hr. induction H as [|s t next ts Hn _ IH]; [done|].
  destruct (next_token_app s rest t next Hp He Hn) as (Hn' & Hp' & He').
  rewrite <- app_assoc. econstructor; eauto.
Qed.

(** A literal, a quoted name and a dollar-quoted text each read as one token. *)
Lemma follows_squote rest : follows rest -> ~ starts_with squote rest.
Proof. unfold follows, starts_with. destruct rest as [|c rest]; [done|]. intros H [= ->]. discriminate H. Qed.

Lemma follows_dquote rest : follows rest -> ~ starts_with dquote rest.
Proof. unfold follows, starts_with. destruct rest as [|c rest]; [done|]. intros H [= ->]. discriminate H. Qed.

Lemma read_literal_next v s next :
  read_literal s = Some (v, next) -> follows next -> next_token s = Some (Some (Constant v), next).
Proof.
  unfold read_literal, next_token, follows. destruct s as [|c rest]; [done|]. case_bool_decide as Hc.
  - subst c. intros H Hf. cbn [is_blank]. replace (is_blank squote) with false by done.
    unfold read_constant. by rewrite H, Hf.
  - case_bool_decide as He; [|done]. subst c. replace (is_blank "E"%char) with false by done.
    destruct rest as [|d rest]; [done|]. case_bool_decide; [|done]. subst d. intros H Hf.
    cbn [head andb]. rewrite bool_decide_eq_true_2 by done. cbn [tail]. unfold read_constant. by rewrite H, Hf.
Qed.

Lemma reads_literal v rest ts :
  follows rest -> reads rest ts -> reads (quoteLiteral v ++ rest) (Constant v :: ts).
Proof.
  intros Hf H. apply (reads_token _ (Some (Constant v)) rest); [|done].
  apply read_literal_next; [|done]. by apply literal_reads_back, follows_squote.
Qed.

Lemma reads_name n rest ts :
  ~ starts_with dquote rest -> reads rest ts -> reads (spelled n ++ rest) (Name_token n :: ts).
Proof.
  intros Hf H. apply (reads_token _ (Some (Name_token n)) rest); [|done].
  pose proof (proj2 (splitQualifiedPart_iff (spelled n ++ rest) n rest) (conj eq_refl Hf)) as E.
  unfold spelled in *. cbn [app splitQualifiedPart] in E |- *. unfold next_token.
  rewrite bool_decide_eq_false_2 in E by auto. by rewrite E.
Qed.

Lemma reads_pair s n rest ts :
  ~ starts_with dquote rest -> reads rest ts ->
  reads (spelled_pair s n ++ rest) (Name_token s :: Symbol "."%char :: Name_token n :: ts).
Proof.
  intros Hf H. unfold spelled_pair. rewrite <- app_assoc. apply reads_name; [done|]. cbn [app].
  apply (reads_token _ (Some (Symbol "."%char)) (spelled n ++ rest)); [done|]. by apply reads_name.
Qed.

Lemma index_of_dollar (t rest : gostring) : dollar ∉ t -> index_of [dollar] (t ++ dollar :: rest) = Some (length t).
Proof.
  induction t as [|c t IH]; intros Hn; cbn [app index_of].
  - change (dollar :: rest) with ([dollar] ++ rest). by rewrite has_prefix_app.
  - apply not_elem_of_cons in Hn as [Hc Hn]. rewrite has_prefix_head by (simpl; congruence || done).
    by rewrite IH.
Qed.

(** The function DDL's body, whatever it holds. *)
Lemma reads_dollar body rest ts :
  let tag := default [] (dollarQuoteTag body) in
  reads rest ts ->
  reads (dollar_delimiter tag ++ newline ++ body ++ newline ++ dollar_delimiter tag ++ rest)
        (Dollar (newline ++ body ++ newline) :: ts).
Proof.
  intros tag H. destruct (dollarQuoteTag_total body) as [tag' E]. unfold tag. rewrite E. cbn [default from_option id].
  unfold id. destruct (dollarQuoteTag_from_Some _ _ _ _ E) as [[k ->] Hno].
  pose proof (index_of_wrapped body k rest Hno) as Hi.
  apply (reads_token _ (Some (Dollar (newline ++ body ++ newline))) rest); [|done].
  set (t := dollar_tag k) in *. set (inner := newline ++ body ++ newline ++ dollar_delimiter t ++ rest) in *.
  assert (Hl : inner = (newline ++ body ++ newline) ++ dollar_delimiter t ++ rest).
  { unfold inner. by rewrite <- !app_assoc. }
  assert (Hlen : S (S (length body)) = length (newline ++ body ++ newline)).
  { rewrite !length_app. simpl. lia. }
  assert (dollar_delimiter t ++ inner = dollar :: t ++ dollar :: inner) as ->.
  { unfold dollar_delimiter. change (bs "$") with [dollar]. by rewrite <- !app_assoc. }
  unfold next_token. replace (is_blank dollar) with false by done.
  cbn [bool_decide]. change (bool_decide (dollar = squote)) with false.
  change (bool_decide (dollar = "E"%char)) with false. change (bool_decide (dollar = dquote)) with false.
  change (bool_decide (dollar = dollar)) with true. cbn [andb]. cbv iota.
  unfold read_dollar. rewrite index_of_dollar by apply dollar_tag_no_dollar.
  rewrite take_app_length. assert (forallb is_word t = true) as ->.
  { apply forallb_forall. intros c Hc%list_elem_of_In. unfold t, dollar_tag in Hc.
    destruct (0 <? k)%nat.
    - apply elem_of_app in Hc as [Hc|Hc].
      + revert c Hc. apply Forall_forall. by_compute.
      + pose proof (format_int_digits (Z.of_nat k) ltac:(lia)) as (_ & Hd & _). rewrite Forall_forall in Hd.
        specialize (Hd _ Hc). unfold is_digit, is_word in *. by rewrite Hd.
    - revert c Hc. apply Forall_forall. by_compute. }
  replace (drop (S (length t)) (t ++ dollar :: inner)) with inner.
  2: { change (dollar :: inner) with ([dollar] ++ inner). rewrite app_assoc.
       replace (S (length t)) with (length (t ++ [dollar])) by (rewrite length_app; simpl; lia).
       by rewrite drop_app_length. }
  rewrite Hi, Hlen. rewrite Hl at 1. rewrite take_app_length. do 3 f_equal.
  rewrite Hl. rewrite (app_assoc (newline ++ body ++ newline)).
  rewrite <- (length_app (newline ++ body ++ newline)). by rewrite drop_app_length.
Qed.
