(* ===== verification/Config.v ===== *)
(** * The validated configuration: [internal/config/config.go].

    The data every other part receives. Durations are [int64] nanoseconds ([Z]), [int] fields are
    [Z], text is bytes. The positions a validated value still carries ([Positioned]) serve only the
    diagnostics of [internal/config] and have no field here; [Retention] is in [Partition.v], whose
    grid it configures. *)

From S2P Require Import Prelude Partition.

Record Payload := {
  Mode : gostring;
  Payload_Columns : list gostring;
  Exclude : list gostring;
  IncludeOld : bool;
  MaxBytes : Z
}.

Record Operation := {
  Kind : gostring;
  Columns : list gostring;
  IsDistinct : bool;
  When : gostring
}.

Abbreviation Operations := (list Operation).

Record TriggerSpec := {
  Table : gostring;
  Operations_ : Operations;
  Payload_ : Payload
}.

Record Signing := { Secrets : list gostring }.

Record Destination := {
  Destination_URL : gostring;
  Method : gostring;
  Headers : gmap gostring gostring;
  Signing_ : Signing
}.

Record Retry := {
  MaxAttempts : Z;
  Backoff : gostring;
  InitialInterval : Z;
  MaxInterval : Z;
  Jitter : bool
}.

Record DeliverySpec := {
  Destination_ : Destination;
  Retry_ : Retry;
  Timeout : Z;
  Listener_Concurrency : Z
}.

Record Listener := {
  Name : gostring;
  Enabled : bool;
  Trigger : TriggerSpec;
  Delivery : DeliverySpec
}.

Record Database := {
  Database_URL : gostring;
  Schema : gostring;
  ListenURL : gostring
}.

Record Worker := {
  Concurrency : Z;
  BatchSize : Z;
  PollInterval : Z;
  LeaseTimeout : Z;
  DrainTimeout : Z;
  AllowedDestinationCIDRs : list gostring
}.

Record Config := {
  Version : Z;
  Config_Instance : gostring;
  AutoReconcile : bool;
  Config_Database : Database;
  Config_Worker : Worker;
  Config_Retention : Retention;
  Listeners : list Listener
}.

#[export] Instance Payload_eq_dec : EqDecision Payload.
Proof. solve_decision. Defined.
#[export] Instance Operation_eq_dec : EqDecision Operation.
Proof. solve_decision. Defined.
#[export] Instance TriggerSpec_eq_dec : EqDecision TriggerSpec.
Proof. solve_decision. Defined.
#[export] Instance Signing_eq_dec : EqDecision Signing.
Proof. solve_decision. Defined.
#[export] Instance Destination_eq_dec : EqDecision Destination.
Proof. solve_decision. Defined.
#[export] Instance Retry_eq_dec : EqDecision Retry.
Proof. solve_decision. Defined.
#[export] Instance DeliverySpec_eq_dec : EqDecision DeliverySpec.
Proof. solve_decision. Defined.
#[export] Instance Listener_eq_dec : EqDecision Listener.
Proof. solve_decision. Defined.

(** A listener with the given name and trigger, and a delivery half that nothing below reads. *)
Definition idle_delivery : DeliverySpec :=
  {| Destination_ := {| Destination_URL := bs "https://example.test/hook"; Method := bs "POST";
                        Headers := ∅; Signing_ := {| Secrets := [] |} |};
     Retry_ := {| MaxAttempts := 5; Backoff := bs "exponential"; InitialInterval := 10 ^ 9;
                  MaxInterval := 60 * 10 ^ 9; Jitter := false |};
     Timeout := 10 * 10 ^ 9; Listener_Concurrency := 1 |}.

(** The zero value of a listener, what a lookup that misses answers. *)
Definition no_listener : Listener :=
  {| Name := []; Enabled := false;
     Trigger := {| Table := []; Operations_ := [];
                   Payload_ := {| Mode := []; Payload_Columns := []; Exclude := []; IncludeOld := false; MaxBytes := 0 |} |};
     Delivery := {| Destination_ := {| Destination_URL := []; Method := []; Headers := ∅; Signing_ := {| Secrets := [] |} |};
                    Retry_ := {| MaxAttempts := 0; Backoff := []; InitialInterval := 0; MaxInterval := 0; Jitter := false |};
                    Timeout := 0; Listener_Concurrency := 0 |} |}.

(** ** dbvalidator.go *)

Inductive DeferredKind := TableExists | ColumnsExist | PrimaryKeyPresent | WhenParses | OtherDeferred (text : gostring).

#[export] Instance DeferredKind_eq_dec : EqDecision DeferredKind.
Proof. solve_decision. Defined.

Record DeferredCheck := {
  Check_Listener : gostring;
  Check_Operation : gostring;
  Check_Kind : DeferredKind;
  Check_Schema : gostring;
  Check_Table : gostring;
  Check_Columns : list gostring;
  Check_When : gostring
}.

Definition tableSeparator : ascii := ".".

(** [ident.go]: a name with exactly one separator, cut there. *)
Definition splitQualifiedTable (value : gostring) : option (gostring * gostring) :=
  match split_on tableSeparator value with [schema; table] => Some (schema, table) | _ => None end.

Definition deferredCheck (listener : Listener) (operation : gostring) (kind : DeferredKind) : DeferredCheck :=
  let (schema, table) := default ([], []) (splitQualifiedTable (Table (Trigger listener))) in
  {| Check_Listener := Name listener; Check_Operation := operation; Check_Kind := kind; Check_Schema := schema;
     Check_Table := table; Check_Columns := []; Check_When := [] |}.

Definition operation_checks (listener : Listener) (operation : Operation) : list DeferredCheck :=
  let check kind := deferredCheck listener (Kind operation) kind in
  (if negb (length (Columns operation) =? 0)%nat then
     [{| Check_Listener := Check_Listener (check ColumnsExist); Check_Operation := Kind operation;
         Check_Kind := ColumnsExist; Check_Schema := Check_Schema (check ColumnsExist);
         Check_Table := Check_Table (check ColumnsExist); Check_Columns := Columns operation; Check_When := [] |}]
   else []) ++
  (if negb (bool_decide (When operation = [])) then
     [{| Check_Listener := Check_Listener (check WhenParses); Check_Operation := Kind operation;
         Check_Kind := WhenParses; Check_Schema := Check_Schema (check WhenParses);
         Check_Table := Check_Table (check WhenParses); Check_Columns := []; Check_When := When operation |}]
   else []).

Definition DeferredChecks (c : Config) : list DeferredCheck :=
  filter (λ listener, Enabled listener = true) (Listeners c) ≫= λ listener,
    [deferredCheck listener [] TableExists] ++
    (if bool_decide (Mode (Payload_ (Trigger listener)) = bs "keys_only")
     then [deferredCheck listener [] PrimaryKeyPresent] else []) ++
    (Operations_ (Trigger listener) ≫= operation_checks listener).
