(* ===== verification/Listen.v ===== *)
(** * The listening session: [internal/source/listen.go] and [triggersource.go].

    The goroutine that connects, listens and reconnects, beside callers that close the source and a
    reader of its wake-up channel. What the driver answers -- a connection, its failure, a notification,
    a loss -- and how the goroutines interleave are the actions of a run; a send on a closed channel and
    a second close of one are the panics they are in the language. Durations are nanoseconds. *)

From S2P Require Import Prelude Quote Config.

Local Open Scope Z_scope.

(** ** listen.go *)

Definition listenInitialBackoff : Z := 20 * 10 ^ 6.
Definition listenMaximumBackoff : Z := 500 * 10 ^ 6.

Definition channel_name (instance : gostring) : gostring := bs "pg_noty_events_" ++ instance.

(** [Sanitize] is [pgx.Identifier.Sanitize]. *)
Definition listenChannelName (Sanitize : list gostring -> gostring) (instance : gostring) : result gostring gostring :=
  match Quoted Sanitize (channel_name instance) with
  | Ok channel => Ok channel
  | Err why => Err (bs "listen channel is unusable: " ++ fault_text why)
  end.

Definition listenURL (database : Database) : gostring :=
  if bool_decide (ListenURL database = []) then Database_URL database else ListenURL database.

Definition nextListenBackoff (backoff : Z) : Z :=
  let next := wrap64 (backoff * 2) in if listenMaximumBackoff <? next then listenMaximumBackoff else next.

(** ** The goroutine and its callers *)

(** Where [listenLoop] stands: at its test of the context, connecting, receiving, waiting a backoff
    out, or returned. *)
Inductive loop_at := Testing | Dialling | Receiving | Waiting | Returned.
#[export] Instance loop_at_eq_dec : EqDecision loop_at.
Proof. solve_decision. Defined.

(** Where the [Close] that found the source open stands. *)
Inductive closer_at := NotClosing | AwaitingListener | WakeClosed | CloserReturned.
#[export] Instance closer_at_eq_dec : EqDecision closer_at.
Proof. solve_decision. Defined.

Inductive report := Connected | Unavailable | ConnectionLost.
#[export] Instance report_eq_dec : EqDecision report.
Proof. solve_decision. Defined.

Record triggerSource := {
  at_ : loop_at;
  backoff : Z;
  reported : bool;
  cancelled : bool;
  wake : bool;            (* the buffered signal *)
  wake_closed : bool;
  listenerDone : bool;
  closeDone : bool;
  closed : bool;
  closer : closer_at;
  log : list report
}.

(** [Open]. *)
Definition Open (Sanitize : list gostring -> gostring) (cfg : Config) (listen : bool) : result gostring triggerSource :=
  match listenChannelName Sanitize (Config_Instance cfg) with
  | Err why => Err why
  | Ok _ => Ok {| at_ := if listen then Testing else Returned; backoff := listenInitialBackoff; reported := false;
                  cancelled := false; wake := false; wake_closed := false; listenerDone := negb listen;
                  closeDone := false; closed := false; closer := NotClosing; log := [] |}
  end.

(** What happens next, and to whom. *)
Inductive action :=
  | LoopTests                      (* [if ctx.Err() != nil] *)
  | ConnectAnswers (ok : bool)
  | NotificationArrives
  | ReceiveEnds                    (* [LISTEN] or the wait for a notification failed *)
  | BackoffExpires
  | BackoffCancelled
  | ContextCancelled               (* the caller's context *)
  | CloseCalled
  | CloserContinues
  | ReaderTakes.

(** What a step comes to: it cannot happen now, it panics, or the source as it leaves it. *)
Inductive stepped := Blocked | Panics | Ran (s : triggerSource).

Definition loop_to (at_' : loop_at) (s : triggerSource) : triggerSource :=
  {| at_ := at_'; backoff := backoff s; reported := reported s; cancelled := cancelled s; wake := wake s;
     wake_closed := wake_closed s; listenerDone := listenerDone s; closeDone := closeDone s; closed := closed s;
     closer := closer s; log := log s |}.

Definition telling (b : Z) (r : bool) (what : list report) (s : triggerSource) : triggerSource :=
  {| at_ := at_ s; backoff := b; reported := r; cancelled := cancelled s; wake := wake s;
     wake_closed := wake_closed s; listenerDone := listenerDone s; closeDone := closeDone s; closed := closed s;
     closer := closer s; log := log s ++ what |}.

Definition cancel (s : triggerSource) : triggerSource :=
  {| at_ := at_ s; backoff := backoff s; reported := reported s; cancelled := true; wake := wake s;
     wake_closed := wake_closed s; listenerDone := listenerDone s; closeDone := closeDone s; closed := closed s;
     closer := closer s; log := log s |}.

Definition set_wake (signal : bool) (s : triggerSource) : triggerSource :=
  {| at_ := at_ s; backoff := backoff s; reported := reported s; cancelled := cancelled s; wake := signal;
     wake_closed := wake_closed s; listenerDone := listenerDone s; closeDone := closeDone s; closed := closed s;
     closer := closer s; log := log s |}.

Definition set_closing (closed_ : bool) (closer_ : closer_at) (s : triggerSource) : triggerSource :=
  {| at_ := at_ s; backoff := backoff s; reported := reported s; cancelled := cancelled s; wake := wake s;
     wake_closed := wake_closed s; listenerDone := listenerDone s; closeDone := closeDone s; closed := closed_;
     closer := closer_; log := log s |}.

(** [close] of each channel, which panics on one already closed. *)
Definition close_listenerDone (s : triggerSource) : stepped :=
  if listenerDone s then Panics
  else Ran {| at_ := at_ s; backoff := backoff s; reported := reported s; cancelled := cancelled s; wake := wake s;
              wake_closed := wake_closed s; listenerDone := true; closeDone := closeDone s; closed := closed s;
              closer := closer s; log := log s |}.
Definition close_wake (s : triggerSource) : stepped :=
  if wake_closed s then Panics
  else Ran {| at_ := at_ s; backoff := backoff s; reported := reported s; cancelled := cancelled s; wake := wake s;
              wake_closed := true; listenerDone := listenerDone s; closeDone := closeDone s; closed := closed s;
              closer := closer s; log := log s |}.
Definition close_closeDone (s : triggerSource) : stepped :=
  if closeDone s then Panics
  else Ran {| at_ := at_ s; backoff := backoff s; reported := reported s; cancelled := cancelled s; wake := wake s;
              wake_closed := wake_closed s; listenerDone := listenerDone s; closeDone := true; closed := closed s;
              closer := closer s; log := log s |}.

(** [signalWake]: a send into the buffer, or nothing when it is full. *)
Definition signalWake (s : triggerSource) : stepped := if wake_closed s then Panics else Ran (set_wake true s).

(** The loop returns, its deferred close included. *)
Definition return_ (s : triggerSource) : stepped := close_listenerDone (loop_to Returned s).

Definition step (a : action) (s : triggerSource) : stepped :=
  match a, at_ s with
  | LoopTests, Testing => if cancelled s then return_ s else Ran (loop_to Dialling s)
  | ConnectAnswers ok, Dialling =>
      if ok then Ran (loop_to Receiving (telling listenInitialBackoff false [Connected] s))
      else Ran (loop_to Waiting (telling (backoff s) true (if reported s then [] else [Unavailable]) s))
  | NotificationArrives, Receiving => signalWake s
  | ReceiveEnds, Receiving =>
      if cancelled s then return_ s
      else Ran (loop_to Waiting (telling (backoff s) true (if reported s then [] else [ConnectionLost]) s))
  | BackoffExpires, Waiting => Ran (loop_to Testing (telling (nextListenBackoff (backoff s)) (reported s) [] s))
  | BackoffCancelled, Waiting => if cancelled s then return_ s else Blocked
  | ContextCancelled, _ => Ran (cancel s)
  | CloseCalled, _ =>
      (* a later call waits for [closeDone] and changes nothing *)
      if closed s then Ran s else Ran (set_closing true AwaitingListener (cancel s))
  | CloserContinues, _ =>
      match closer s with
      | AwaitingListener =>
          if listenerDone s then match close_wake s with Ran s' => Ran (set_closing true WakeClosed s') | r => r end else Blocked
      | WakeClosed => match close_closeDone s with Ran s' => Ran (set_closing true CloserReturned s') | r => r end
      | _ => Blocked
      end
  | ReaderTakes, _ => if wake s || wake_closed s then Ran (set_wake false s) else Blocked
  | _, _ => Blocked
  end.

Fixpoint run (actions : list action) (s : triggerSource) : stepped :=
  match actions with
  | [] => Ran s
  | a :: rest => match step a s with Ran s' => run rest s' | r => r end
  end.

(** ** The channels are closed once, and not written to after *)

Record well_formed (s : triggerSource) : Prop := {
  done_when_returned : listenerDone s = true <-> at_ s = Returned;
  wake_closed_by_closer : wake_closed s = true <-> closer s = WakeClosed \/ closer s = CloserReturned;
  wake_after_listener : wake_closed s = true -> listenerDone s = true;
  done_by_closer : closeDone s = true <-> closer s = CloserReturned;
  closing : closed s = true <-> closer s <> NotClosing;
  closing_cancels : closed s = true -> cancelled s = true;
  waits_bounded : listenInitialBackoff <= backoff s <= listenMaximumBackoff
}.

Lemma Open_well_formed Sanitize cfg listen s : Open Sanitize cfg listen = Ok s -> well_formed s.
Proof.
  unfold Open. destruct (listenChannelName _ _); [|done]. intros [= <-].
  split; cbn; try done; try (by destruct listen); try (split; [done|by intros [?|?]]).
Qed.

Lemma nextListenBackoff_bounds b :
  listenInitialBackoff <= b <= listenMaximumBackoff ->
  listenInitialBackoff <= nextListenBackoff b <= listenMaximumBackoff.
Proof.
  unfold nextListenBackoff, listenInitialBackoff, listenMaximumBackoff. intros Hb.
  rewrite wrap64_id by (unfold int64_range, min_int64, max_int64; lia). destruct (_ <? _) eqn:E; lia.
Qed.

Lemma step_safe a s :
  well_formed s -> match step a s with Panics => False | Ran s' => well_formed s' | Blocked => True end.
Proof.
  intros [Hd Hw Hwl Hc Hcl Hcc Hb]. pose proof (nextListenBackoff_bounds _ Hb) as Hnext.
  assert (listenInitialBackoff <= listenInitialBackoff <= listenMaximumBackoff) as Hinit by done.
  destruct s as [at_ b r can w wc ld cd clo cl lg]. cbn in *.
  destruct a as [|[]| | | | | | | |], at_; cbn; try done;
    unfold return_, signalWake, close_listenerDone, close_wake, close_closeDone; cbn;
    repeat case_match; simplify_eq/=; try done; try (split; cbn; naive_solver); naive_solver.
Qed.

(** A state of the connection is logged once: after a failure nothing until a connection, and the
    other way round. *)
Definition is_failure (r : report) : bool := match r with Connected => false | _ => true end.

Fixpoint alternating (log : list report) : Prop :=
  match log with
  | a :: ((b :: _) as rest) => is_failure a <> is_failure b /\ alternating rest
  | _ => True
  end.

Lemma alternating_snoc log r :
  alternating log -> (forall last_, last log = Some last_ -> is_failure last_ <> is_failure r) -> alternating (log ++ [r]).
Proof.
  induction log as [|a log IH]; [done|]. intros Ha Hl. destruct log as [|b log]; cbn in *; [by auto|].
  destruct Ha as [Hab Ha]. split; [done|]. by apply IH.
Qed.

Record log_ok (s : triggerSource) : Prop := {
  log_alternates : alternating (log s);
  log_says : at_ s <> Returned -> last (log s) = None /\ reported s = false /\ at_ s <> Receiving \/
    last (log s) = Some Connected /\ reported s = false /\ at_ s = Receiving \/
    (exists r, last (log s) = Some r /\ is_failure r = true) /\ reported s = true /\ at_ s <> Receiving
}.

Lemma step_logs a s : log_ok s -> match step a s with Ran s' => log_ok s' | _ => True end.
Proof.
  intros [Ha Hs]. destruct s as [at_ b r can w wc ld cd clo cl lg]. cbn in *.
  assert (Hone : at_ = Dialling -> alternating (lg ++ [Connected])).
  { intros ->. apply alternating_snoc; [done|]. intros x Hx.
    destruct Hs as [(Hn & _)|[(_ & _ & [=])|((r' & Hr' & Hf) & _)]]; [done|congruence|]. rewrite Hx in Hr'. injection Hr' as ->.
    by rewrite Hf. }
  assert (Hfail : forall f, is_failure f = true -> (at_ = Dialling \/ at_ = Receiving) -> r = false -> alternating (lg ++ [f])).
  { intros f Hf Hat ->. apply alternating_snoc; [done|]. intros x Hx. rewrite Hf.
    destruct Hs as [(Hn & _)|[(Hn & _)|(_ & [=] & _)]]; [by destruct Hat as [-> | ->]|congruence|].
    rewrite Hx in Hn. by injection Hn as ->. }
  destruct a as [|[]| | | | | | | |], at_; cbn; try done;
    unfold return_, signalWake, close_listenerDone, close_wake, close_closeDone; cbn;
    repeat case_match; simplify_eq/=; try done; rewrite ?app_nil_r; split; cbn; rewrite ?app_nil_r, ?last_snoc; naive_solver.
Qed.

(** What is left of a close that has begun: the loop's way out, then the closer's. *)
Definition loop_leaves (s : triggerSource) : list action :=
  match at_ s with
  | Testing => [LoopTests]
  | Dialling => [ConnectAnswers false; BackoffCancelled]
  | Receiving => [ReceiveEnds]
  | Waiting => [BackoffCancelled]
  | Returned => []
  end.
Definition closer_finishes (s : triggerSource) : list action :=
  match closer s with
  | AwaitingListener => [CloserContinues; CloserContinues]
  | WakeClosed => [CloserContinues]
  | _ => []
  end.

Lemma run_app actions later s :
  run (actions ++ later) s = match run actions s with Ran s' => run later s' | r => r end.
Proof. revert s. induction actions as [|a actions IH]; intros s; cbn; [done|]. destruct (step a s); auto. Qed.

Lemma close_finishes s : well_formed s -> closed s = true ->
  exists s', run (loop_leaves s ++ closer_finishes s) s = Ran s' /\ closeDone s' = true /\ wake_closed s' = true /\ at_ s' = Returned.
Proof.
  intros [Hd Hw Hwl Hc Hcl Hcc _] Hclosed. destruct s as [at_ b r can w wc ld cd clo cl lg]. cbn in *. subst clo.
  assert (can = true) as -> by auto. assert (cl <> NotClosing) as Hne by (by apply Hcl).
  destruct cl; [done| | |].
  - assert (wc = false) as -> by (destruct wc; naive_solver). assert (cd = false) as -> by (destruct cd; naive_solver).
    assert (ld = bool_decide (at_ = Returned)) as -> by (case_bool_decide; destruct ld; naive_solver).
    destruct at_, r; cbn; eexists; done.
  - assert (wc = true) as -> by naive_solver. assert (ld = true) as -> by auto.
    assert (cd = false) as -> by (destruct cd; naive_solver). assert (at_ = Returned) as -> by naive_solver. by eexists.
  - assert (wc = true) as -> by naive_solver. assert (ld = true) as -> by auto.
    assert (cd = true) as -> by naive_solver. assert (at_ = Returned) as -> by naive_solver. by eexists.
Qed.

Lemma run_preserves actions s :
  well_formed s -> log_ok s -> match run actions s with Panics => False | Ran s' => well_formed s' /\ log_ok s' | Blocked => True end.
Proof.
  revert s. induction actions as [|a actions IH]; intros s Hw Hl; cbn [run]; [done|].
  pose proof (step_safe a s Hw) as Hsafe. pose proof (step_logs a s Hl) as Hlogs.
  destruct (step a s) as [| |s']; [done|done|]. by apply IH.
Qed.

(** C33. However the listening goroutine, the driver, the reader and any number of callers of [Close]
    interleave, an opened source never sends on or closes a closed channel, never waits outside 20ms to
    500ms between two connections, logs each loss and each connection once, and once a [Close] has begun
    the remaining steps of the goroutine and of that [Close] run through and leave everything closed. *)
Theorem listening_is_safe Sanitize cfg listen actions s0 :
  Open Sanitize cfg listen = Ok s0 ->
  run actions s0 <> Panics /\
  forall s, run actions s0 = Ran s ->
    listenInitialBackoff <= backoff s <= listenMaximumBackoff /\ alternating (log s) /\
    (wake_closed s = true -> at_ s = Returned) /\
    (closed s = true -> exists rest s', Forall (λ a, a <> ContextCancelled /\ a <> CloseCalled) rest /\ (length rest <= 4)%nat /\
       run rest s = Ran s' /\ closeDone s' = true /\ wake_closed s' = true /\ at_ s' = Returned).
Proof.
  intros Hopen. pose proof (Open_well_formed _ _ _ _ Hopen) as Hw.
  assert (log_ok s0) as Hl.
  { unfold Open in Hopen. destruct (listenChannelName _ _); [|done]. injection Hopen as <-.
    split; [done|]. cbn. intros Hat. left. by destruct listen. }
  pose proof (run_preserves actions s0 Hw Hl) as Hrun. split; [by intros Hp; rewrite Hp in Hrun|].
  intros s Hs. rewrite Hs in Hrun. destruct Hrun as [Hw' Hl']. split_and!.
  - apply Hw'.
  - apply Hw'.
  - apply Hl'.
  - intros Hwc. apply (done_when_returned _ Hw'), (wake_after_listener _ Hw'), Hwc.
  - intros Hclosed. destruct (close_finishes s Hw' Hclosed) as (s' & Hrest & Hdone).
    exists (loop_leaves s ++ closer_finishes s), s'. split_and!; try done; try apply Hdone.
    + unfold loop_leaves, closer_finishes. by destruct (at_ s), (closer s); repeat constructor.
    + unfold loop_leaves, closer_finishes. destruct (at_ s), (closer s); cbn; lia.
Qed.

(** A source that connects, is notified, loses its connection twice and is closed. *)
Definition quote_plainly (parts : list gostring) : gostring := join (bs ".") (map (λ part, dquote :: part ++ [dquote]) parts).
Definition config_named (instance : gostring) : Config :=
  {| Version := 1; Config_Instance := instance; AutoReconcile := false;
     Config_Database := {| Database_URL := []; Schema := instance; ListenURL := [] |};
     Config_Worker := {| Concurrency := 1; BatchSize := 1; PollInterval := 1; LeaseTimeout := 1; DrainTimeout := 1;
                         AllowedDestinationCIDRs := [] |};
     Config_Retention := Partition.MkRetention 1 1 1; Listeners := [] |}.

Definition sample_session : list action :=
  [LoopTests; ConnectAnswers true; NotificationArrives; NotificationArrives; ReceiveEnds; BackoffExpires; LoopTests;
   ConnectAnswers false; CloseCalled; BackoffCancelled; ReaderTakes; CloserContinues; CloserContinues; CloseCalled].

Definition opened : triggerSource :=
  {| at_ := Testing; backoff := listenInitialBackoff; reported := false; cancelled := false; wake := false;
     wake_closed := false; listenerDone := false; closeDone := false; closed := false; closer := NotClosing; log := [] |}.

Lemma listening_is_safe_witness :
  Open quote_plainly (config_named (bs "app")) true = Ok opened /\
  run sample_session opened <> Panics.
Proof.
  assert (Open quote_plainly (config_named (bs "app")) true = Ok opened) as Hopen
    by (vm_compute; reflexivity).
  split; [exact Hopen|]. exact (proj1 (listening_is_safe quote_plainly _ true sample_session _ Hopen)).
Defined.
