(* ===== verification/Interpolate.v ===== *)
(** * Environment references in configuration values: [internal/config/envreference.go],
    [envexpansion.go] and [env.go].

    The grammar of one scalar's text and what it becomes once the environment has been consulted.
    The scan walks an index through the text; here it takes the text that remains. Each step and each
    re-entry into a default reads a strictly shorter text, so the length of the text, plus one, is
    enough fuel ([scan_fuel]). *)

From S2P Require Import Prelude Quote.

(** ** envreference.go: what an author may spell *)

Definition referenceOpen : gostring := bs "${".
Definition referenceClose : gostring := bs "}".
Definition escapeSentinel : gostring := bs "$" ++ referenceOpen.
Definition defaultMarker : gostring := bs ":-".
Definition variableNamePattern : gostring := bs "[A-Za-z_][A-Za-z0-9_]*".

Definition name_start (c : ascii) : bool :=
  let v := code c in (((65 <=? v) && (v <=? 90)) || ((97 <=? v) && (v <=? 122)) || (v =? 95))%Z.
Definition name_byte (c : ascii) : bool := name_start c || is_digit c.

(** [variableName.MatchString]. *)
Definition variableName (name : gostring) : bool :=
  match name with
  | [] => false
  | c :: rest => name_start c && forallb name_byte rest
  end.

Definition emptyNameRefusal : gostring := bs "malformed environment reference: a variable name is required".
Definition badNameRefusal : gostring :=
  bs "malformed environment reference: a variable name must match " ++ variableNamePattern.
Definition unterminatedRefusal : gostring := bs "malformed environment reference: no closing brace".
Definition escapeHint : gostring := bs "write $${ to mean a literal ${".

(** An empty message is what "no fault" means. *)
Record fault := { message : gostring; hint : gostring }.
Definition no_fault : fault := {| message := []; hint := [] |}.

Record reference := {
  width : nat;
  name : gostring;
  fallback : gostring;
  hasDefault : bool;
  refusal : gostring
}.

(** [strings.Cut]. *)
Definition cut_at (sep s : gostring) : gostring * gostring * bool :=
  match index_of sep s with
  | Some n => (take n s, drop (n + length sep) s, true)
  | None => (s, [], false)
  end.

Definition nameRefusal (name : gostring) : gostring :=
  if bool_decide (name = []) then emptyNameRefusal
  else if negb (variableName name) then badNameRefusal
  else [].

Definition refused_reference (width : nat) (refusal : gostring) : reference :=
  {| width := width; name := []; fallback := []; hasDefault := false; refusal := refusal |}.

Definition readReference (text : gostring) : reference :=
  if length text <? length referenceOpen then refused_reference (length text) unterminatedRefusal
  else
    let inside := drop (length referenceOpen) text in
    match index_of referenceClose inside with
    | None => refused_reference (length text) unterminatedRefusal
    | Some closed =>
        let width := length referenceOpen + closed + length referenceClose in
        let '(name, fallback, hasDefault) := cut_at defaultMarker (take closed inside) in
        if negb (bool_decide (nameRefusal name = [])) then refused_reference width (nameRefusal name)
        else {| width := width; name := name; fallback := fallback; hasDefault := hasDefault; refusal := [] |}
    end.

(** ** envexpansion.go: what a reference stands for *)

(** The lookup reports three states: unset, set to the empty string, set to a value. *)
Definition EnvLookup : Type := gostring -> gostring * bool.

Definition MapEnv (vars : gmap gostring gostring) : EnvLookup := λ name,
  match vars !! name with Some value => (value, true) | None => ([], false) end.

Record expansion := { text : gostring; faults : list fault; fromEnvironment : bool }.

Definition quoted_name (name : gostring) : gostring := dquote :: name ++ [dquote].

(** The name holds letters, digits and underscores only, so [%q] writes it between quotes. *)
Definition unresolved (r : reference) : fault :=
  {| message := bs "environment variable " ++ quoted_name (name r) ++ bs " is not set";
     hint := bs "set " ++ name r ++ bs ", or write ${" ++ name r ++ bs ":-default} to supply a fallback" |}.

(** The text a reference stands for and whether the environment supplied it, or why it stands for nothing. *)
Definition substitution (env : EnvLookup) (r : reference) : (gostring * bool) * fault :=
  if negb (bool_decide (refusal r = [])) then (([], false), {| message := refusal r; hint := escapeHint |})
  else
    let (value, set) := env (name r) in
    if hasDefault r && bool_decide (value = []) then ((fallback r, false), no_fault)
    else if negb set then (([], false), unresolved r)
    else ((value, true), no_fault).

(** [reference.expanded], over the expansion of a default's own text. *)
Definition expanded (expand : gostring -> expansion) (env : EnvLookup) (r : reference) : expansion :=
  let '((resolved, fromEnv), refused) := substitution env r in
  if negb (bool_decide (message refused = [])) then
    {| text := []; faults := [refused]; fromEnvironment := false |}
  else if fromEnv then {| text := resolved; faults := []; fromEnvironment := true |}
  else expand resolved.

(** One contribution in front of what the rest of the text contributes. *)
Definition then_ (a b : expansion) : expansion :=
  {| text := text a ++ text b; faults := faults a ++ faults b;
     fromEnvironment := fromEnvironment a || fromEnvironment b |}.

Definition written (s : gostring) : expansion := {| text := s; faults := []; fromEnvironment := false |}.

(** A scalar the grammar refused has no text. *)
Definition settled_text (e : expansion) : expansion :=
  if negb (bool_decide (faults e = []))
  then {| text := []; faults := faults e; fromEnvironment := fromEnvironment e |} else e.

Fixpoint scan (fuel : nat) (env : EnvLookup) (rest : gostring) : expansion :=
  match fuel, rest with
  | S fuel, c :: after =>
      if has_prefix rest escapeSentinel then
        then_ (written referenceOpen) (scan fuel env (drop (length escapeSentinel) rest))
      else if negb (has_prefix rest referenceOpen) then then_ (written [c]) (scan fuel env after)
      else
        let found := readReference rest in
        then_ (expanded (λ t, settled_text (scan fuel env t)) env found) (scan fuel env (drop (width found) rest))
  | _, _ => written []
  end.

Definition expand (text : gostring) (env : EnvLookup) : expansion :=
  settled_text (scan (S (length text)) env text).

(** ** The grammar, as [doc.go] states it

    [${NAME}] and [${NAME:-default}], where a default holds no [}]; [$${] is the only escape; every
    other [${] is a diagnostic; everything else is literal. *)

Definition spell (name : gostring) (default_ : option gostring) : gostring :=
  bs "${" ++ name ++ match default_ with Some d => bs ":-" ++ d | None => [] end ++ bs "}".

Definition opens (s : gostring) : Prop := (exists r, s = bs "${" ++ r) \/ (exists r, s = bs "$${" ++ r).

(** What stands between the braces is a variable name, alone or with a default. *)
Definition names_a_variable (inside : gostring) : Prop :=
  exists name, variableName name = true /\ (inside = name \/ exists d, inside = name ++ bs ":-" ++ d).

Definition refused_with (why : gostring) : expansion :=
  {| text := []; faults := [{| message := why; hint := escapeHint |}]; fromEnvironment := false |}.

Inductive denotes (env : EnvLookup) : gostring -> expansion -> Prop :=
  | denotes_end : denotes env [] (written [])
  | denotes_escape rest e :
      denotes env rest e -> denotes env (bs "$${" ++ rest) (then_ (written (bs "${")) e)
  | denotes_byte c rest e :
      ~ opens (c :: rest) -> denotes env rest e -> denotes env (c :: rest) (then_ (written [c]) e)
  | denotes_value name default_ value rest e :
      variableName name = true -> "}"%char ∉ default [] default_ ->
      env name = (value, true) -> default_ = None \/ value <> [] -> denotes env rest e ->
      denotes env (spell name default_ ++ rest)
        (then_ {| text := value; faults := []; fromEnvironment := true |} e)
  | denotes_default name d rest inner e :
      variableName name = true -> "}"%char ∉ d -> (env name).1 = [] ->
      denotes env d inner -> denotes env rest e ->
      denotes env (spell name (Some d) ++ rest) (then_ (settled_text inner) e)
  | denotes_unset name default_ value rest e :
      variableName name = true -> "}"%char ∉ default [] default_ ->
      env name = (value, false) -> default_ = None \/ value <> [] -> denotes env rest e ->
      denotes env (spell name default_ ++ rest)
        (then_ {| text := []; fromEnvironment := false;
                  faults := [{| message := bs "environment variable " ++ quoted_name name ++ bs " is not set";
                                hint := bs "set " ++ name ++ bs ", or write ${" ++ name ++
                                        bs ":-default} to supply a fallback" |}] |} e)
  | denotes_malformed inside rest e :
      "}"%char ∉ inside -> ~ names_a_variable inside -> denotes env rest e ->
      denotes env (bs "${" ++ inside ++ bs "}" ++ rest)
        (then_ (refused_with (if bool_decide (inside = []) || has_prefix inside (bs ":-")
                              then emptyNameRefusal else badNameRefusal)) e)
  | denotes_unterminated inside :
      "}"%char ∉ inside -> denotes env (bs "${" ++ inside) (then_ (refused_with unterminatedRefusal) (written [])).

(** ** Reading one occurrence *)

Lemma name_start_no c x : name_start c = true -> name_byte x = false -> c <> x.
Proof. intros Hc Hx ->. unfold name_byte in Hx. by rewrite Hc in Hx. Qed.

Lemma variableName_bytes n : variableName n = true -> forall c, c ∈ n -> name_byte c = true.
Proof.
  destruct n as [|a n]; [done|]. cbn. intros [Ha Hn]%andb_true_iff c [->|Hc]%elem_of_cons.
  - unfold name_byte. by rewrite Ha.
  - rewrite forallb_forall in Hn. apply Hn. by apply list_elem_of_In.
Qed.

Lemma variableName_not_in n c : variableName n = true -> name_byte c = false -> c ∉ n.
Proof. intros Hn Hc Hin. rewrite (variableName_bytes n Hn c Hin) in Hc. done. Qed.

Lemma nameRefusal_ok n : nameRefusal n = [] <-> variableName n = true.
Proof.
  unfold nameRefusal. case_bool_decide as He; [subst; done|].
  by destruct (variableName n).
Qed.

Lemma index_of_close inside rest : "}"%char ∉ inside ->
  index_of referenceClose (inside ++ bs "}" ++ rest) = Some (length inside).
Proof. apply index_of_first_sep. Qed.

Lemma index_of_no_close inside : "}"%char ∉ inside -> index_of referenceClose inside = None.
Proof.
  intros Hn. apply index_of_None. intros m _. apply not_true_is_false. intros [r E]%has_prefix_spec.
  apply Hn. rewrite <- (take_drop m inside), E. set_solver.
Qed.

Lemma index_of_marker n d : variableName n = true -> index_of defaultMarker (n ++ bs ":-" ++ d) = Some (length n).
Proof.
  intros Hn. assert (":"%char ∉ n) as Hc by (by apply variableName_not_in). clear Hn.
  induction n as [|x n IH]; cbn [app index_of].
  - change (bs ":-" ++ d) with (":"%char :: "-"%char :: d). cbn [index_of].
    replace (has_prefix _ _) with true; [done|]. symmetry. apply has_prefix_spec. by exists d.
  - apply not_elem_of_cons in Hc as [Hx Hc].
    replace (has_prefix _ _) with false; [by rewrite IH|].
    symmetry. apply has_prefix_head; [change (Some ":"%char <> Some x); congruence|done].
Qed.

Lemma index_of_no_marker n : variableName n = true -> index_of defaultMarker n = None.
Proof.
  intros Hn. apply index_of_None. intros m _. apply not_true_is_false. intros [r E]%has_prefix_spec.
  apply (variableName_not_in n ":" Hn); [done|]. rewrite <- (take_drop m n), E. set_solver.
Qed.

(** Where the marker first stands, the text is cut. *)
Lemma cut_at_marker inside :
  let '(n, d, has) := cut_at defaultMarker inside in
  inside = n ++ (if has then bs ":-" ++ d else []).
Proof.
  unfold cut_at. destruct (index_of defaultMarker inside) as [k|] eqn:E; [|by rewrite app_nil_r].
  apply index_of_Some in E as ([r E]%has_prefix_spec & _ & _).
  replace (drop (k + length defaultMarker) inside) with r; [change (bs ":-") with defaultMarker; by rewrite <- E, take_drop|].
  by rewrite <- drop_drop, E, drop_app_length.
Qed.

Lemma readReference_closed inside rest : "}"%char ∉ inside ->
  let '(n, d, has) := cut_at defaultMarker inside in
  readReference (bs "${" ++ inside ++ bs "}" ++ rest) =
  if negb (bool_decide (nameRefusal n = []))
  then refused_reference (length (bs "${" ++ inside ++ bs "}")) (nameRefusal n)
  else {| width := length (bs "${" ++ inside ++ bs "}"); name := n; fallback := d; hasDefault := has; refusal := [] |}.
Proof.
  intros Hi. unfold readReference.
  change (length (bs "${" ++ inside ++ bs "}" ++ rest) <? length referenceOpen) with false. cbn match.
  change (drop (length referenceOpen) (bs "${" ++ inside ++ bs "}" ++ rest)) with (inside ++ bs "}" ++ rest).
  rewrite index_of_close by done. cbn zeta. rewrite take_app_length.
  destruct (cut_at defaultMarker inside) as [[n d] has].
  replace (length referenceOpen + length inside + length referenceClose)
    with (length (bs "${" ++ inside ++ bs "}")); [done|].
  rewrite !length_app. unfold referenceOpen, referenceClose. lia.
Qed.

Lemma readReference_unterminated inside : "}"%char ∉ inside ->
  readReference (bs "${" ++ inside) = refused_reference (length (bs "${" ++ inside)) unterminatedRefusal.
Proof.
  intros Hi. unfold readReference.
  change (length (bs "${" ++ inside) <? length referenceOpen) with false. cbn match.
  change (drop (length referenceOpen) (bs "${" ++ inside)) with inside.
  by rewrite index_of_no_close.
Qed.

(** A variable's name, alone or before a default, is read as one. *)
Lemma cut_at_name n default_ : variableName n = true ->
  cut_at defaultMarker (n ++ match default_ with Some d => bs ":-" ++ d | None => [] end) =
  (n, default [] default_, bool_decide (is_Some default_)).
Proof.
  intros Hn. unfold cut_at. destruct default_ as [d|].
  - rewrite index_of_marker by done. rewrite take_app_length, <- drop_drop, drop_app_length.
    by change (drop (length defaultMarker) (bs ":-" ++ d)) with d.
  - rewrite app_nil_r, index_of_no_marker by done. done.
Qed.

Lemma readReference_spell n default_ rest : variableName n = true -> "}"%char ∉ default [] default_ ->
  readReference (spell n default_ ++ rest) =
  {| width := length (spell n default_); name := n; fallback := default [] default_;
     hasDefault := bool_decide (is_Some default_); refusal := [] |}.
Proof.
  intros Hn Hd. set (inside := n ++ match default_ with Some d => bs ":-" ++ d | None => [] end).
  assert ("}"%char ∉ inside) as Hi.
  { unfold inside. pose proof (variableName_not_in n "}" Hn eq_refl).
    destruct default_ as [d|]; cbn in Hd; change (bs ":-") with [":"; "-"]%char; set_solver. }
  assert (spell n default_ = bs "${" ++ inside ++ bs "}") as -> by (unfold spell, inside; by rewrite <- app_assoc).
  rewrite <- !app_assoc. pose proof (readReference_closed inside rest Hi) as H.
  unfold inside in H. rewrite cut_at_name in H by done. rewrite (proj2 (nameRefusal_ok n)) in H by done.
  exact H.
Qed.

Lemma readReference_malformed inside rest : "}"%char ∉ inside -> ~ names_a_variable inside ->
  readReference (bs "${" ++ inside ++ bs "}" ++ rest) =
  refused_reference (length (bs "${" ++ inside ++ bs "}"))
    (if bool_decide (inside = []) || has_prefix inside (bs ":-") then emptyNameRefusal else badNameRefusal).
Proof.
  intros Hi Hno. pose proof (readReference_closed inside rest Hi) as H. pose proof (cut_at_marker inside) as Hcut.
  destruct (cut_at defaultMarker inside) as [[n d] has] eqn:E. rewrite H.
  assert (variableName n = false) as Hbad.
  { apply not_true_is_false. intros Hv. apply Hno. exists n. split; [done|].
    destruct has; [right; eauto|left; by rewrite Hcut, app_nil_r]. }
  assert (nameRefusal n = if bool_decide (n = []) then emptyNameRefusal else badNameRefusal) as Hr.
  { unfold nameRefusal. by rewrite Hbad. }
  assert (bool_decide (inside = []) || has_prefix inside (bs ":-") = bool_decide (n = [])) as ->.
  { case_bool_decide as Hn.
    - subst n. rewrite app_nil_l in Hcut. destruct has; subst inside; [|done]. by rewrite has_prefix_app, orb_true_r.
    - rewrite (bool_decide_eq_false_2 (inside = [])) by (intros ->; by destruct n).
      apply not_true_is_false. rewrite orb_false_l. intros Hp. apply Hn. unfold cut_at in E.
      assert (index_of defaultMarker inside = Some 0) as E0 by (destruct inside; cbn; unfold defaultMarker; by rewrite Hp).
      rewrite E0 in E. by injection E as <- _ _. }
  rewrite Hr. by case_bool_decide.
Qed.

(** ** The scan, step by step *)

Lemma opens_prefix s : opens s <-> has_prefix s referenceOpen = true \/ has_prefix s escapeSentinel = true.
Proof. unfold opens. by rewrite !has_prefix_spec. Qed.

Lemma open_is_no_escape x : has_prefix (bs "${" ++ x) escapeSentinel = false.
Proof. apply not_true_is_false. intros [r [=]]%has_prefix_spec. Qed.

Lemma scan_escape fuel env rest :
  scan (S fuel) env (bs "$${" ++ rest) = then_ (written (bs "${")) (scan fuel env rest).
Proof.
  change (bs "$${" ++ rest) with ("$"%char :: bs "${" ++ rest). cbn [scan].
  by rewrite (proj2 (has_prefix_spec ("$"%char :: bs "${" ++ rest) escapeSentinel)) by (by exists rest).
Qed.

Lemma scan_byte fuel env c rest : ~ opens (c :: rest) ->
  scan (S fuel) env (c :: rest) = then_ (written [c]) (scan fuel env rest).
Proof.
  rewrite opens_prefix. intros Hno. cbn [scan].
  destruct (has_prefix (c :: rest) escapeSentinel); [tauto|].
  destruct (has_prefix (c :: rest) referenceOpen); [tauto|done].
Qed.

Lemma scan_reference fuel env x :
  scan (S fuel) env (bs "${" ++ x) =
  then_ (expanded (λ t, settled_text (scan fuel env t)) env (readReference (bs "${" ++ x)))
        (scan fuel env (drop (width (readReference (bs "${" ++ x))) (bs "${" ++ x))).
Proof.
  pose proof (open_is_no_escape x) as He. change (bs "${" ++ x) with ("$"%char :: "{"%char :: x) in *.
  cbn [scan]. rewrite He.
  by rewrite (proj2 (has_prefix_spec ("$"%char :: "{"%char :: x) referenceOpen)) by (by exists x).
Qed.

(** What one occurrence contributes, from what the reference reads as. *)
Lemma scan_occurrence fuel env occurrence rest r :
  has_prefix occurrence (bs "${") = true -> readReference (occurrence ++ rest) = r -> width r = length occurrence ->
  scan (S fuel) env (occurrence ++ rest) =
  then_ (expanded (λ t, settled_text (scan fuel env t)) env r) (scan fuel env rest).
Proof.
  intros [x ->]%has_prefix_spec Hr Hw. rewrite <- app_assoc in *. rewrite scan_reference, Hr, Hw.
  by rewrite app_assoc, drop_app_length.
Qed.

Lemma spell_open n default_ : has_prefix (spell n default_) (bs "${") = true.
Proof. apply has_prefix_app. Qed.

Lemma length_spell_default n d : length d < length (spell n (Some d)).
Proof. unfold spell. rewrite !length_app. change (length (bs "${")) with 2. lia. Qed.

Lemma expanded_value expand env r value :
  refusal r = [] -> env (name r) = (value, true) -> hasDefault r = false \/ value <> [] ->
  expanded expand env r = {| text := value; faults := []; fromEnvironment := true |}.
Proof.
  intros Hr He Hd. unfold expanded, substitution. rewrite Hr, He. cbn.
  destruct Hd as [-> |Hd]; [done|]. rewrite (bool_decide_eq_false_2 (value = [])) by done. by rewrite andb_false_r.
Qed.

Lemma expanded_default expand env r :
  refusal r = [] -> (env (name r)).1 = [] -> hasDefault r = true -> expanded expand env r = expand (fallback r).
Proof.
  intros Hr He Hd. unfold expanded, substitution. rewrite Hr. destruct (env (name r)) as [v s]. cbn in He. subst v.
  by rewrite Hd.
Qed.

Lemma expanded_unset expand env r value :
  refusal r = [] -> env (name r) = (value, false) -> hasDefault r = false \/ value <> [] ->
  expanded expand env r = {| text := []; faults := [unresolved r]; fromEnvironment := false |}.
Proof.
  intros Hr He Hd. unfold expanded, substitution. rewrite Hr, He. cbn.
  destruct Hd as [-> |Hd]; [done|]. rewrite (bool_decide_eq_false_2 (value = [])) by done. by rewrite andb_false_r.
Qed.

Lemma expanded_refused expand env width why : why <> [] ->
  expanded expand env (refused_reference width why) = refused_with why.
Proof.
  intros Hw. unfold expanded, substitution, refused_reference. cbn.
  rewrite !(bool_decide_eq_false_2 (why = [])) by done. cbn.
  by rewrite (bool_decide_eq_false_2 (why = [])) by done.
Qed.

(** ** The scan decides the grammar *)

(** Enough fuel: more than the length of the text. *)
Lemma denotes_scan env text e : denotes env text e -> forall fuel, length text < fuel -> scan fuel env text = e.
Proof.
  induction 1 as [|rest e H IH|c rest e Hno H IH|n dflt v rest e Hn Hd He Hv H IH|n d rest inner e Hn Hd He Hi IHi H IH
    |n dflt v rest e Hn Hd He Hv H IH|inside rest e Hi Hno H IH|inside Hi];
    intros [|fuel] Hf; try lia; try (rewrite !length_app in Hf; change (length (bs "${")) with 2 in Hf).
  - done.
  - rewrite scan_escape. rewrite IH; [done|]. change (length (bs "$${")) with 3 in Hf. lia.
  - rewrite scan_byte by done. rewrite IH; [done|]. cbn in Hf. lia.
  - pose proof (length_spell_default n (default [] dflt)).
    rewrite (scan_occurrence _ _ _ _ _ (spell_open n dflt) (readReference_spell n dflt rest Hn Hd) eq_refl).
    rewrite (expanded_value _ _ _ v); [|done..|]; [|cbn; destruct dflt; [right|left]; naive_solver].
    f_equal. apply IH. unfold spell in Hf. rewrite length_app in Hf. change (length (bs "${")) with 2 in Hf. lia.
  - pose proof (length_spell_default n d).
    rewrite (scan_occurrence _ _ _ _ _ (spell_open n (Some d)) (readReference_spell n (Some d) rest Hn Hd) eq_refl).
    rewrite expanded_default by done. cbn [fallback default].
    rewrite IHi by lia. f_equal. apply IH. lia.
  - rewrite (scan_occurrence _ _ _ _ _ (spell_open n dflt) (readReference_spell n dflt rest Hn Hd) eq_refl).
    rewrite (expanded_unset _ _ _ v); [|done..|]; [|cbn; destruct dflt; [right|left]; naive_solver].
    f_equal. apply IH. unfold spell in Hf. rewrite length_app in Hf. change (length (bs "${")) with 2 in Hf. lia.
  - pose proof (readReference_malformed inside rest Hi Hno) as Hr.
    replace (bs "${" ++ inside ++ bs "}" ++ rest) with ((bs "${" ++ inside ++ bs "}") ++ rest) in *
      by (by rewrite <- !app_assoc).
    rewrite (scan_occurrence _ _ _ _ _ (has_prefix_app _ _) Hr eq_refl).
    rewrite expanded_refused by (by destruct (_ || _)). f_equal. apply IH. lia.
  - pose proof (readReference_unterminated inside Hi) as Hr.
    rewrite <- (app_nil_r (bs "${" ++ inside)) in Hr at 1. rewrite <- (app_nil_r (bs "${" ++ inside)).
    rewrite (scan_occurrence _ _ _ _ _ (has_prefix_app _ _) Hr eq_refl).
    rewrite expanded_refused by done. by destruct fuel.
Qed.

(** Every text begins with exactly one of the grammar's forms. *)
Lemma closed_occurrence x :
  "}"%char ∉ x \/ exists inside rest, x = inside ++ bs "}" ++ rest /\ "}"%char ∉ inside.
Proof.
  destruct (decide ("}"%char ∈ x)) as [Hin|]; [right|by left].
  apply list_elem_of_split_l in Hin as (inside & rest & -> & Hn). by exists inside, rest.
Qed.

Lemma named_or_not inside : names_a_variable inside \/ ~ names_a_variable inside.
Proof.
  pose proof (cut_at_marker inside) as Hcut. destruct (cut_at defaultMarker inside) as [[n d] has] eqn:E.
  destruct (variableName n) eqn:Hn.
  - left. exists n. split; [done|]. destruct has; [right; eauto|left; by rewrite Hcut, app_nil_r].
  - right. intros (m & Hm & [Ei|[d' Ei]]).
    + pose proof (cut_at_name m None Hm) as H. rewrite app_nil_r, <- Ei, E in H. injection H as -> _ _. congruence.
    + pose proof (cut_at_name m (Some d') Hm) as H. cbn match in H. rewrite <- Ei, E in H.
      injection H as -> _ _. congruence.
Qed.

(** Whatever follows an occurrence has a denotation when every shorter text has one. *)
Lemma denotes_occurrence env inside rest :
  "}"%char ∉ inside -> (forall t, length t < length (bs "${" ++ inside ++ bs "}" ++ rest) -> exists e, denotes env t e) ->
  exists e, denotes env (bs "${" ++ inside ++ bs "}" ++ rest) e.
Proof.
  intros Hi IH. rewrite !length_app in IH. change (length (bs "${")) with 2 in IH.
  destruct (IH rest ltac:(lia)) as [e He].
  destruct (named_or_not inside) as [(n & Hn & Hform)|Hno]; [|eauto using denotes_malformed].
  assert (exists dflt, bs "${" ++ inside ++ bs "}" ++ rest = spell n dflt ++ rest /\ "}"%char ∉ default [] dflt /\
            length (default [] dflt) <= length inside) as (dflt & -> & Hd & Hl).
  { destruct Hform as [-> |[d ->]].
    - exists None. split_and!; [by unfold spell; rewrite <- !app_assoc|cbn; set_solver|cbn; lia].
    - exists (Some d). split_and!; [by unfold spell; rewrite <- !app_assoc|cbn; set_solver|].
      rewrite !length_app. cbn. lia. }
  destruct (env n) as [v set] eqn:Ev.
  destruct (decide (dflt = None \/ v <> [])) as [Hv|Hv].
  - destruct set; [eauto using denotes_value|eauto using denotes_unset].
  - destruct dflt as [d|]; [|tauto]. destruct v as [|x v]; [|naive_solver].
    destruct (IH d) as [inner Hinner]; [cbn in Hl; lia|].
    eexists. eapply denotes_default; [done..| |exact Hinner|exact He]. by rewrite Ev.
Qed.

Lemma denotes_total env text : exists e, denotes env text e.
Proof.
  remember (length text) as k eqn:Hk. revert text Hk.
  induction (lt_wf k) as [k _ IH]. intros text ->.
  assert (forall t, length t < length text -> exists e, denotes env t e) as IHt by (intros t Ht; by eapply IH).
  clear IH. destruct text as [|c rest]; [eauto using denotes_end|].
  destruct (has_prefix (c :: rest) escapeSentinel) eqn:Hesc.
  - apply has_prefix_spec in Hesc as [r E]. rewrite E in IHt |- *.
    destruct (IHt r) as [e He]; [rewrite length_app; change (length escapeSentinel) with 3; lia|].
    eexists. by apply (denotes_escape env r).
  - destruct (has_prefix (c :: rest) referenceOpen) eqn:Hopen.
    + apply has_prefix_spec in Hopen as [x E]. rewrite E in IHt |- *.
      destruct (closed_occurrence x) as [Hx|(inside & after & -> & Hi)].
      * eexists. by apply (denotes_unterminated env x).
      * by apply denotes_occurrence.
    + destruct (IHt rest) as [e He]; [cbn; lia|]. eexists. apply denotes_byte; [|exact He].
      rewrite opens_prefix. rewrite Hesc, Hopen. by intros [|].
Qed.

(** C34. Interpolation reads exactly the documented grammar: what a scalar becomes, its faults in the
    order they are written and whether the environment supplied any byte of it are what the grammar
    denotes, a text has one denotation only, and each has one. Environment bytes are never read
    again; an author's default is. *)
Theorem expand_reads_the_grammar env text :
  exists d, expand text env = settled_text d /\ forall d', denotes env text d' <-> d' = d.
Proof.
  destruct (denotes_total env text) as [d Hd].
  pose proof (denotes_scan env text d Hd (S (length text)) ltac:(lia)) as Hs.
  exists d. split; [unfold expand; by rewrite Hs|]. intros d'. split; [|by intros ->].
  intros Hd'. by rewrite <- Hs, (denotes_scan env text d' Hd' (S (length text)) ltac:(lia)).
Qed.

(** ** Every text can be written *)

(** Each [${] of the text as [$${]. *)
Fixpoint escaped (text : gostring) : gostring :=
  match text with
  | [] => []
  | c :: rest =>
      if bool_decide (c = "$"%char) && bool_decide (head rest = Some "{"%char)
      then bs "$$" ++ escaped rest else c :: escaped rest
  end.

Lemma head_escaped text : head (escaped text) = head text.
Proof. destruct text as [|c rest]; [done|]. cbn. destruct (bool_decide (c = _)) eqn:E; [|done].
  bool_to_prop. subst. by destruct (bool_decide (head rest = _)). Qed.

Lemma escaped_opens text : ~ (exists r, escaped text = bs "${" ++ r).
Proof.
  intros [r E]. destruct text as [|c rest]; [done|]. cbn [escaped] in E.
  destruct (_ && _) eqn:H; [discriminate E|].
  injection E as -> E. pose proof (head_escaped rest) as Hh. rewrite E in Hh. cbn in Hh.
  rewrite <- Hh in H. done.
Qed.

Lemma escaped_denotes env text : denotes env (escaped text) (written text).
Proof.
  remember (length text) as k eqn:Hk. revert text Hk.
  induction (lt_wf k) as [k _ IH]. intros [|c rest] ->; [constructor|]. cbn [escaped].
  destruct (_ && _) eqn:H.
  - apply andb_true_iff in H as [->%bool_decide_eq_true H%bool_decide_eq_true].
    destruct rest as [|d rest]; [done|]. injection H as ->.
    apply (denotes_escape env (escaped rest) (written rest)). eapply IH; [|done]. cbn. lia.
  - apply (denotes_byte env c (escaped rest) (written rest)); [|apply (IH (length rest)); [cbn; lia|done]].
    intros [[r [= -> E]]|[r [= -> E]]]; [|by eapply escaped_opens; exists r; exact E].
    pose proof (head_escaped rest) as Hh. rewrite E in Hh. rewrite <- Hh in H. done.
Qed.

(** Any text can be written in a configuration: with each [${] doubled to [$${] it reads back as
    itself, in every environment and as the document's own bytes. *)
Theorem escaped_reads_back env text : expand (escaped text) env = written text.
Proof.
  unfold expand. by rewrite (denotes_scan env _ _ (escaped_denotes env text)) by lia.
Qed.

(** What the environment supplies is opaque, whatever it holds. *)
Lemma environment_bytes_are_opaque env n value :
  variableName n = true -> env n = (value, true) ->
  expand (spell n None) env = {| text := value; faults := []; fromEnvironment := true |}.
Proof.
  intros Hn He. unfold expand. rewrite <- (app_nil_r (spell n None)).
  rewrite (denotes_scan env _ (then_ {| text := value; faults := []; fromEnvironment := true |} (written []))); [| |lia].
  - unfold then_. cbn. by rewrite app_nil_r.
  - apply denotes_value; [done|cbn; set_solver|done|by left|constructor].
Qed.

Definition sample_env : EnvLookup := MapEnv {[ bs "A" := bs "one${B}"; bs "E" := [] ]}.

Example expand_samples :
  map (λ t, let e := expand (bs t) sample_env in (text e, length (faults e), fromEnvironment e))
    ["x${A}y"; "${E}"; "${E:-d}"; "${N:-}"; "${N:-${A}"; "$${A}$$"; "${N}${1}${A"; "${${A}}"]%string =
  [(bs "xone${B}y", 0, true); ([], 0, true); (bs "d", 0, false); ([], 0, false); ([], 1, false);
   (bs "${A}$$", 0, false); ([], 3, false); ([], 1, false)].
Proof. vm_compute. reflexivity. Qed.
