(* ===== verification/Ident.v ===== *)
(** * What a configuration value may be: [internal/config/ident.go] and [libpqgrammar.go].

    Each predicate answers one question about one value. [IsLetter] is the Unicode table behind
    [unicode.IsLetter] and [url_parse] is [net/url.Parse], read as its scheme and host or the parser's
    reason; of the first only the answer on ASCII and on the replacement rune is relied on. *)

From S2P Require Import Prelude Utf8 Quote Config.

Definition maxIdentifierBytes : nat := 63.

(** ** Names of pg_noty's own: [instance] and a listener's [name] *)

Definition lower_letter (c : ascii) : bool := ((97 <=? code c) && (code c <=? 122))%Z.
Definition name_tail_byte (c : ascii) : bool := lower_letter c || is_digit c || (code c =? 95)%Z.

(** [^[a-z][a-z0-9_]*$] and, with at most 40 further characters, the name rule itself. *)
Definition nameCharsetPattern (value : gostring) : bool :=
  match value with [] => false | c :: rest => lower_letter c && forallb name_tail_byte rest end.
Definition namePattern (value : gostring) : bool :=
  match value with
  | [] => false
  | c :: rest => lower_letter c && forallb name_tail_byte rest && (length rest <=? 40)%nat
  end.

Inductive nameDefect := nameOK | nameEmpty | nameBadCharset | nameTooLong.
#[export] Instance nameDefect_eq_dec : EqDecision nameDefect.
Proof. solve_decision. Defined.

Definition nameDefect_text (d : nameDefect) : gostring :=
  match d with
  | nameOK => bs "ok"
  | nameEmpty => bs "empty"
  | nameBadCharset => bs "illegal character"
  | nameTooLong => bs "over the character limit"
  end.

Definition nameRuleDefect (value : gostring) : nameDefect :=
  if namePattern value then nameOK
  else if bool_decide (value = []) then nameEmpty
  else if negb (nameCharsetPattern value) then nameBadCharset
  else nameTooLong.

(** ** PostgreSQL identifiers *)

Inductive identDefect := identOK | identEmpty | identBadCharset | identTooLong.
#[export] Instance identDefect_eq_dec : EqDecision identDefect.
Proof. solve_decision. Defined.

Definition identDefect_text (d : identDefect) : gostring :=
  match d with
  | identOK => bs "ok"
  | identEmpty => bs "empty"
  | identBadCharset => bs "illegal character"
  | identTooLong => bs "over the byte limit"
  end.

Inductive tableFault := tableOK | tableNotQualified | tableSchemaPartInvalid | tableNamePartInvalid.
#[export] Instance tableFault_eq_dec : EqDecision tableFault.
Proof. solve_decision. Defined.

Definition tableFault_text (f : tableFault) : gostring :=
  match f with
  | tableOK => bs "ok"
  | tableNotQualified => bs "not schema-qualified"
  | tableSchemaPartInvalid => bs "schema part"
  | tableNamePartInvalid => bs "table part"
  end.

(** A comparison of an opening that ignores case; both prefixes it is used with fold within ASCII. *)
Definition hasPrefixFold (value prefix : gostring) : bool :=
  (length prefix <=? length value)%nat && equal_fold (take (length prefix) value) prefix.

Definition config_reservedSchemaPrefix : gostring := bs "pg_".
Definition suggestedSchema : gostring := bs "noty".
Definition usesReservedSchemaPrefix (name : gostring) : bool := hasPrefixFold name config_reservedSchemaPrefix.

(** [isDigit] of a rune. *)
Definition isDigit (char : Z) : bool := ((48 <=? char) && (char <=? 57))%Z.

Section identifiers.
Context (IsLetter : Z -> bool).

Definition isIdentifierStart (char : Z) : bool := (char =? 95)%Z || IsLetter char.
Definition isIdentifierChar (char : Z) : bool := isIdentifierStart char || isDigit char || (char =? 36)%Z.

Definition isIdentifierText (value : gostring) : bool :=
  let '(first, width) := DecodeRune value in
  if negb (isIdentifierStart first) then false
  else let rest := drop width value in
       over_runes (λ char _ later, isIdentifierChar char && later) true (length rest) rest.

Definition identifierDefect (value : gostring) : identDefect :=
  if bool_decide (value = []) then identEmpty
  else if negb (isIdentifierText value) then identBadCharset
  else if (maxIdentifierBytes <? length value)%nat then identTooLong
  else identOK.

Definition qualifiedTableFault (value : gostring) : tableFault * identDefect :=
  match splitQualifiedTable value with
  | None => (tableNotQualified, identOK)
  | Some (schema, table) =>
      if negb (bool_decide (identifierDefect schema = identOK)) then (tableSchemaPartInvalid, identifierDefect schema)
      else if negb (bool_decide (identifierDefect table = identOK)) then (tableNamePartInvalid, identifierDefect table)
      else (tableOK, identOK)
  end.

(** ** Connection strings *)

Inductive connStringForm := connStringInvalid | connStringURI | connStringKeywordValue.
#[export] Instance connStringForm_eq_dec : EqDecision connStringForm.
Proof. solve_decision. Defined.

Definition isConnectionKeywordChar (char : Z) : bool := isIdentifierStart char || isDigit char.

(** The bytes of parameter name a text opens with: the loop over its runes after the first. *)
Definition connectionKeywordWidth (text : gostring) : nat :=
  match text with
  | [] => 0
  | _ =>
      if negb (isIdentifierStart (DecodeRune text).1) then 0
      else over_runes (λ char width later, if isConnectionKeywordChar char then Nat.max width 1 + later else 0)
             0 (length text) text
  end.
End identifiers.

(** [libpqgrammar.go]: C [isspace] in the C locale. *)
Definition libpqSeparators : gostring := map byte_of [32; 9; 10; 11; 12; 13]%Z.

Fixpoint trim_separators (text : gostring) : gostring :=
  match text with
  | [] => []
  | c :: rest => if contains_byte c libpqSeparators then trim_separators rest else text
  end.

Definition separatorWidth (text : gostring) : nat := length text - length (trim_separators text).

Definition libpqValueAfter (text : gostring) (afterKeyword : nat) : option nat :=
  let equals := afterKeyword + separatorWidth (drop afterKeyword text) in
  if negb (has_prefix (drop equals text) (bs "=")) then None
  else let value := S equals in Some (value + separatorWidth (drop value text)).

Definition connectionURIDesignator : gostring := bs "postgresql://".
Definition shortConnectionURIDesignator : gostring := bs "postgres://".

Definition hasConnectionURIDesignator (value : gostring) : bool :=
  has_prefix value connectionURIDesignator || has_prefix value shortConnectionURIDesignator.

Section forms.
Context (IsLetter : Z -> bool).

Definition beginsWithConnectionKeyword (value : gostring) : bool :=
  let from := separatorWidth value in
  let keyword := connectionKeywordWidth IsLetter (drop from value) in
  if (keyword =? 0)%nat then false
  else bool_decide (is_Some (libpqValueAfter value (from + keyword))).

Definition connectionStringForm (value : gostring) : connStringForm :=
  if hasConnectionURIDesignator value then connStringURI
  else if beginsWithConnectionKeyword value then connStringKeywordValue
  else connStringInvalid.
End forms.

(** ** HTTP field names *)

(** A byte of RFC 9110's [token]. *)
Definition is_tchar (c : ascii) : bool :=
  let v := code c in
  lower_letter c || is_digit c || ((65 <=? v) && (v <=? 90))%Z || contains_byte c (bs "-!#$%&'*+.^_`|~").

Definition validHTTPFieldName (name : gostring) : bool := negb (bool_decide (name = [])) && forallb is_tchar name.

Definition to_upper (c : ascii) : ascii := if lower_letter c then byte_of (code c - 32) else c.

Definition is_hyphen (c : ascii) : bool := bool_decide (c = "-"%char).

(** [textproto.CanonicalMIMEHeaderKey] on a valid name: a letter that opens the name or follows a
    hyphen in upper case, every other in lower case. *)
Fixpoint canonical_key (upper : bool) (name : gostring) : gostring :=
  match name with
  | [] => []
  | c :: rest => (if upper then to_upper c else to_lower c) :: canonical_key (is_hyphen c) rest
  end.

Definition canonicalHTTPFieldName (name : gostring) : option gostring :=
  if validHTTPFieldName name then Some (canonical_key true name) else None.

Definition reservedHeaderPrefix : gostring := bs "X-Pg-Noty-".
Definition usesReservedHeaderPrefix (name : gostring) : bool := hasPrefixFold name reservedHeaderPrefix.

(** ** Destination URLs *)

Inductive urlDefect := urlOK | urlEmpty | urlUnparseable | urlBadScheme | urlNoHost.
#[export] Instance urlDefect_eq_dec : EqDecision urlDefect.
Proof. solve_decision. Defined.

Definition urlDefect_text (d : urlDefect) : gostring :=
  match d with
  | urlOK => bs "ok"
  | urlEmpty => bs "empty"
  | urlUnparseable => bs "does not parse"
  | urlBadScheme => bs "scheme is neither http nor https"
  | urlNoHost => bs "no host"
  end.

(** What [url.Parse] answers: the scheme and the host, or the reason inside its [*url.Error]. *)
Definition url_parser : Type := gostring -> result gostring (gostring * gostring).

Definition destinationURLDefect (url_parse : url_parser) (value : gostring) : urlDefect * gostring :=
  if bool_decide (value = []) then (urlEmpty, [])
  else match url_parse value with
       | Err reason => (urlUnparseable, reason)
       | Ok (scheme, host) =>
           if negb (bool_decide (scheme = bs "http")) && negb (bool_decide (scheme = bs "https")) then (urlBadScheme, [])
           else if bool_decide (host = []) then (urlNoHost, [])
           else (urlOK, [])
       end.

(** ** pg_noty's own names *)

Lemma namePattern_iff value :
  namePattern value = true <-> nameCharsetPattern value = true /\ (length value <= 41)%nat.
Proof.
  destruct value as [|c rest]; [cbn; naive_solver|]. cbn. rewrite !andb_true_iff, Nat.leb_le. split; intuition lia.
Qed.

(** The defect named is the one the value has. *)
Lemma nameRuleDefect_iff value :
  match nameRuleDefect value with
  | nameOK => nameCharsetPattern value = true /\ (length value <= 41)%nat
  | nameEmpty => value = []
  | nameBadCharset => value <> [] /\ nameCharsetPattern value = false
  | nameTooLong => nameCharsetPattern value = true /\ (41 < length value)%nat
  end.
Proof.
  unfold nameRuleDefect. pose proof (namePattern_iff value) as Hp.
  destruct (namePattern value); [by apply Hp|]. case_bool_decide; [done|].
  destruct (nameCharsetPattern value); cbn; [|done]. split; [done|]. apply Nat.nle_gt. intros Hl.
  assert (false = true) by (by apply Hp). done.
Qed.

Lemma name_tail_not c x : name_tail_byte c = true -> name_tail_byte x = false -> c <> x.
Proof. intros Hc Hx ->. congruence. Qed.

Lemma name_bytes value : nameRuleDefect value = nameOK -> forall c, c ∈ value -> name_tail_byte c = true.
Proof.
  intros Hd. pose proof (nameRuleDefect_iff value) as Hn. rewrite Hd in Hn. destruct Hn as [Hn _].
  destruct value as [|c rest]; [done|]. cbn in Hn. apply andb_true_iff in Hn as [Hc Hr].
  rewrite forallb_forall in Hr. intros x [-> |Hx]%elem_of_cons; [|apply Hr; by apply list_elem_of_In].
  unfold name_tail_byte. by rewrite Hc.
Qed.

(** A name under the rule can stand where pg_noty puts it: as a field of an ownership marker, and,
    after the notification prefix, inside an identifier. *)
Lemma name_rule_usable value : nameRuleDefect value = nameOK ->
  marker_field value /\ NUL ∉ value /\ (length value <= 41)%nat.
Proof.
  intros Hd. pose proof (name_bytes value Hd) as Hb.
  pose proof (nameRuleDefect_iff value) as Hn. rewrite Hd in Hn. destruct Hn as [Hn Hl].
  split_and!; [split| |done].
  - by intros ->.
  - intros Hin. by specialize (Hb _ Hin).
  - intros Hin. by specialize (Hb _ Hin).
Qed.

(** ** Identifiers *)

(** What is relied on of the Unicode table. *)
Class Letters (IsLetter : Z -> bool) : Prop := {
  ascii_letters r : (0 <= r < 128)%Z ->
    IsLetter r = ((65 <=? r) && (r <=? 90) || (97 <=? r) && (r <=? 122))%Z;
  replacement_is_no_letter : IsLetter RuneError = false
}.

(** The letters of ASCII and, of the rest, those a table names. *)
Definition ascii_table (above : Z -> bool) (r : Z) : bool :=
  if ((0 <=? r) && (r <? 128))%Z then ((65 <=? r) && (r <=? 90) || (97 <=? r) && (r <=? 122))%Z
  else above r && negb (r =? RuneError)%Z.

#[export] Instance ascii_table_letters above : Letters (ascii_table above).
Proof.
  split.
  - intros r Hr. unfold ascii_table. rewrite (proj2 (Z.leb_le 0 r)), (proj2 (Z.ltb_lt r 128)) by lia. done.
  - unfold ascii_table. change ((0 <=? RuneError)%Z && (RuneError <? 128)%Z) with false. cbn match.
    change (RuneError =? RuneError)%Z with true. apply andb_false_r.
Qed.

Section letters.
Context (IsLetter : Z -> bool) `{!Letters IsLetter}.

Lemma RuneError_no_char : isIdentifierChar IsLetter RuneError = false.
Proof. unfold isIdentifierChar, isIdentifierStart. rewrite (replacement_is_no_letter (IsLetter := IsLetter)). done. Qed.

Lemma NUL_no_char : isIdentifierChar IsLetter 0 = false.
Proof. unfold isIdentifierChar, isIdentifierStart. rewrite (ascii_letters (IsLetter := IsLetter) 0) by lia. done. Qed.

(** Every rune of an identifier's text is one of its characters. *)
Definition all_chars (value : gostring) : bool :=
  over_runes (λ char _ later, isIdentifierChar IsLetter char && later) true (length value) value.

Lemma isIdentifierText_chars value : isIdentifierText IsLetter value = true -> value <> [] /\ all_chars value = true.
Proof.
  unfold isIdentifierText. destruct (DecodeRune value) as [first width] eqn:Hd.
  destruct (isIdentifierStart IsLetter first) eqn:Hs; [|done]. cbn [negb]. intros Hrest.
  destruct value as [|b t]; [injection Hd as <- <-|].
  { exfalso. assert (isIdentifierChar IsLetter RuneError = true) by (unfold isIdentifierChar; by rewrite Hs).
    by rewrite RuneError_no_char in *. }
  split; [done|]. unfold all_chars. cbn [length over_runes]. rewrite Hd.
  unfold isIdentifierChar at 1. rewrite Hs. cbn [orb andb].
  destruct (DecodeRune_cases (b :: t)) as [(seq & r & u & Heq & He)|He]; [done| |].
  - rewrite Heq, (DecodeRune_encodes seq r u He) in Hd. injection Hd as <- <-.
    pose proof (encodes_length _ _ He). rewrite Nat.max_l by lia. rewrite (over_runes_fuel _ _ _ (length (drop (length seq) (b :: t)))); [done| |done].
    rewrite length_drop. cbn. lia.
  - rewrite He in Hd. injection Hd as <- <-. cbn [Nat.max drop] in *. done.
Qed.

Lemma all_chars_storable value : all_chars value = true -> storable value.
Proof.
  unfold all_chars. induction value as [|seq r t He IH|b t Hd IH] using rune_ind.
  - intros _. split; [done|apply not_elem_of_nil].
  - rewrite (over_runes_seq _ _ _ _ _ He). intros [Hc Hrest]%andb_true_iff. destruct (IH Hrest) as [Hv Hn].
    split; [by rewrite (ValidString_seq _ _ _ He)|]. intros [Hin|Hin]%elem_of_app; [|done].
    apply (encodes_zero _ _ He) in Hin. subst r. by rewrite NUL_no_char in Hc.
  - rewrite (over_runes_error _ _ _ _ Hd), RuneError_no_char. done.
Qed.

(** An identifier the configuration accepts is one the quoting authority of [internal/schema] accepts. *)
Lemma identifier_usable value : identifierDefect IsLetter value = identOK -> WhyUnusable value = IdentifierOK.
Proof.
  unfold identifierDefect. case_bool_decide as He; [done|].
  destruct (isIdentifierText IsLetter value) eqn:Ht; [|done]. cbn [negb].
  destruct (Nat.ltb_spec maxIdentifierBytes (length value)); [done|]. intros _.
  apply isIdentifierText_chars in Ht as [_ Hc]. apply WhyUnusable_ok. split_and!; [done| |done].
  by apply all_chars_storable in Hc as [_ ?].
Qed.

(** A dot is no identifier character, so an accepted pair has one spelling. *)
Lemma qualifiedTableFault_ok value :
  (qualifiedTableFault IsLetter value).1 = tableOK ->
  exists schema table, splitQualifiedTable value = Some (schema, table) /\
    WhyUnusable schema = IdentifierOK /\ WhyUnusable table = IdentifierOK.
Proof.
  unfold qualifiedTableFault. destruct (splitQualifiedTable value) as [[schema table]|]; [|done].
  case_bool_decide as Hs; [|done]. case_bool_decide as Ht; [|done]. intros _.
  exists schema, table. split_and!; [done|by apply identifier_usable..].
Qed.
End letters.

(** The two readings of the reserved prefix, here and in [internal/schema], agree. *)
Lemma reserved_prefix_agrees name : usesReservedSchemaPrefix name = claimsReservedSchemaPrefix name.
Proof. done. Qed.

(** ** Header names collapse exactly when HTTP says they are one *)

(** Two functions of a byte agree when they agree on each of the 256. *)
Lemma byte_ext {A} `{EqDecision A} (f g : ascii -> A) :
  forallb (λ c, bool_decide (f c = g c)) (map byte_of (seqZ 0 256)) = true -> forall c, f c = g c.
Proof.
  intros H c. rewrite forallb_forall in H. eapply bool_decide_eq_true_1, H, in_map_iff. exists (code c).
  split; [apply byte_of_code|]. apply list_elem_of_In, elem_of_seqZ. pose proof (code_range c). lia.
Qed.

Lemma to_upper_of_lower c : to_upper (to_lower c) = to_upper c.
Proof. apply (byte_ext (λ c, to_upper (to_lower c)) to_upper). vm_compute. reflexivity. Qed.

Lemma to_lower_of_upper c : to_lower (to_upper c) = to_lower c.
Proof. apply (byte_ext (λ c, to_lower (to_upper c)) to_lower). vm_compute. reflexivity. Qed.

Lemma to_lower_idem c : to_lower (to_lower c) = to_lower c.
Proof. apply (byte_ext (λ c, to_lower (to_lower c)) to_lower). vm_compute. reflexivity. Qed.

Lemma hyphen_fold c : is_hyphen (to_lower c) = is_hyphen c.
Proof. apply (byte_ext (λ c, is_hyphen (to_lower c)) is_hyphen). vm_compute. reflexivity. Qed.

Lemma is_tchar_fold c : is_tchar (to_lower c) = is_tchar c.
Proof. apply (byte_ext (λ c, is_tchar (to_lower c)) is_tchar). vm_compute. reflexivity. Qed.

Lemma canonical_key_fold u name : map to_lower (canonical_key u name) = map to_lower name.
Proof.
  revert u. induction name as [|c name IH]; intros u; [done|]. cbn. rewrite IH.
  destruct u; [by rewrite to_lower_of_upper|by rewrite to_lower_idem].
Qed.

Lemma canonical_key_of_lower u name : canonical_key u (map to_lower name) = canonical_key u name.
Proof.
  revert u. induction name as [|c name IH]; intros u; [done|]. cbn. rewrite hyphen_fold, IH.
  destruct u; [by rewrite to_upper_of_lower|by rewrite to_lower_idem].
Qed.

Lemma canonical_key_inj u a b : canonical_key u a = canonical_key u b <-> equal_fold a b = true.
Proof.
  unfold equal_fold. rewrite bool_decide_eq_true. split; intros H.
  - by rewrite <- (canonical_key_fold u a), <- (canonical_key_fold u b), H.
  - by rewrite <- (canonical_key_of_lower u a), H, canonical_key_of_lower.
Qed.

Lemma validHTTPFieldName_lower name : validHTTPFieldName (map to_lower name) = validHTTPFieldName name.
Proof.
  unfold validHTTPFieldName. f_equal; [by destruct name|].
  induction name as [|c name IH]; [done|]. cbn. by rewrite is_tchar_fold, IH.
Qed.

Lemma validHTTPFieldName_fold a b : equal_fold a b = true -> validHTTPFieldName a = validHTTPFieldName b.
Proof.
  unfold equal_fold. intros H%bool_decide_eq_true.
  by rewrite <- (validHTTPFieldName_lower a), H, validHTTPFieldName_lower.
Qed.

Lemma equal_fold_sym a b : equal_fold a b = equal_fold b a.
Proof. unfold equal_fold. apply bool_decide_ext. naive_solver. Qed.

Lemma canonical_fold name c : canonicalHTTPFieldName name = Some c -> equal_fold c name = true.
Proof.
  unfold canonicalHTTPFieldName. destruct (validHTTPFieldName name); [|done]. intros [= <-].
  unfold equal_fold. rewrite canonical_key_fold. by apply bool_decide_eq_true.
Qed.

(** Two names canonicalise to one header exactly when both are field names and HTTP, which ignores
    their case, takes them for one. *)
Lemma canonical_names_collapse a b c :
  canonicalHTTPFieldName a = Some c ->
  canonicalHTTPFieldName b = Some c <-> equal_fold a b = true.
Proof.
  unfold canonicalHTTPFieldName. destruct (validHTTPFieldName a) eqn:Ha; [|done]. intros [= <-].
  rewrite <- (canonical_key_inj true a b). destruct (validHTTPFieldName b) eqn:Hb.
  - split; [intros [= ->]; done|by intros ->].
  - split; [done|]. intros H%canonical_key_inj. apply validHTTPFieldName_fold in H. congruence.
Qed.

(** A canonical name is its own canonical name. *)
Lemma canonical_idempotent name c : canonicalHTTPFieldName name = Some c -> canonicalHTTPFieldName c = Some c.
Proof. intros H. apply (canonical_names_collapse name c c H). rewrite equal_fold_sym. by eapply canonical_fold. Qed.

Lemma hasPrefixFold_fold a b prefix : equal_fold a b = true -> hasPrefixFold a prefix = hasPrefixFold b prefix.
Proof.
  unfold hasPrefixFold, equal_fold. intros H%bool_decide_eq_true.
  assert (length a = length b) as -> by (by rewrite <- (length_map to_lower a), H, length_map).
  f_equal. apply bool_decide_ext. by rewrite <- !firstn_map, H.
Qed.
