(* ===== verification/Suggest.v ===== *)
(** * The did-you-mean rule: [internal/config/suggest.go].

    The distance is computed in one row of the table, updated in place; it is shown to be the least
    number of insertions, deletions and substitutions, which is how the file describes it. *)

From S2P Require Import Prelude Utf8 Source.

Definition suggestionThreshold : nat := 2.

(** The body of the inner loop at column [j]: the row and the value its diagonal cell held. *)
Definition edit_cell (from to : list Z) (i : nat) (held : list nat * nat) (j : nat) : list nat * nat :=
  let '(row, diagonal) := held in
  let above := nth j row 0 in
  let substitution := if bool_decide (nth (i - 1) from 0%Z = nth (j - 1) to 0%Z) then diagonal else S diagonal in
  (<[j := Nat.min (above + 1) (Nat.min (nth (j - 1) row 0 + 1) substitution)]> row, above).

(** The body of the outer loop at row [i]. *)
Definition edit_row (from to : list Z) (row : list nat) (i : nat) : list nat :=
  let diagonal := nth 0 row 0 in
  (foldl (edit_cell from to i) (<[0 := i]> row, diagonal) (seq 1 (length to))).1.

Definition editDistance (a b : gostring) : nat :=
  let from := runes a in
  let to := runes b in
  let row := foldl (edit_row from to) (seq 0 (S (length to))) (seq 1 (length from)) in
  nth (length to) row 0.

(** The loop body of [closestName], over the name held and its distance. *)
Definition nearer (written : gostring) (held : gostring * nat) (candidate : gostring) : gostring * nat :=
  let '(closest, nearest) := held in
  let distance := editDistance written candidate in
  if (distance <? nearest)%nat || ((distance =? nearest)%nat && bool_decide (string_compare candidate closest = Lt))
  then (candidate, distance) else (closest, nearest).

Definition closestName (written : gostring) (candidates : list gostring) : gostring * bool :=
  let '(closest, nearest) := foldl (nearer written) ([], suggestionThreshold + 1) candidates in
  (closest, (nearest <=? suggestionThreshold)%nat).

(** ** The reference: edit scripts *)

Inductive edits : list Z -> list Z -> nat -> Prop :=
  | edits_nil : edits [] [] 0
  | edits_keep x a b n : edits a b n -> edits (x :: a) (x :: b) n
  | edits_substitute x y a b n : edits a b n -> edits (x :: a) (y :: b) (S n)
  | edits_delete x a b n : edits a b n -> edits (x :: a) b (S n)
  | edits_insert y a b n : edits a b n -> edits a (y :: b) (S n).

Definition least_edits (a b : list Z) (n : nat) : Prop := edits a b n /\ forall m, edits a b m -> n <= m.

#[local] Hint Constructors edits : noty.

Lemma edits_app a b n a' b' n' : edits a b n -> edits a' b' n' -> edits (a ++ a') (b ++ b') (n + n').
Proof. intros H H'. induction H; cbn; eauto with noty. Qed.

Lemma edits_rev a b n : edits a b n -> edits (rev a) (rev b) n.
Proof.
  assert (forall x y m, edits [x] [y] m -> forall a b n, edits a b n -> edits (a ++ [x]) (b ++ [y]) (n + m)) as Hsnoc
    by (intros; by apply edits_app).
  induction 1 as [|x a b n H IH|x y a b n H IH|x a b n H IH|y a b n H IH]; cbn [rev].
  - constructor.
  - rewrite <- (Nat.add_0_r n). apply edits_app; eauto with noty.
  - rewrite <- Nat.add_1_r. apply edits_app; eauto with noty.
  - rewrite <- Nat.add_1_r, <- (app_nil_r (rev b)). apply edits_app; eauto with noty.
  - rewrite <- Nat.add_1_r, <- (app_nil_r (rev a)). apply edits_app; eauto with noty.
Qed.

Lemma least_edits_rev a b n : least_edits (rev a) (rev b) n -> least_edits a b n.
Proof.
  intros [H Hm]. split; [|intros m Hab; by apply Hm, edits_rev].
  apply edits_rev in H. by rewrite !rev_involutive in H.
Qed.

(** The recurrence the table fills. *)
Fixpoint lev (a : list Z) : list Z -> nat :=
  match a with
  | [] => length
  | x :: a' =>
      fix along (b : list Z) : nat :=
        match b with
        | [] => S (length a')
        | y :: b' =>
            Nat.min (lev a' (y :: b') + 1)
              (Nat.min (along b' + 1) (if bool_decide (x = y) then lev a' b' else S (lev a' b')))
        end
  end.

Lemma lev_nil_r a : lev a [] = length a.
Proof. by destruct a. Qed.

Lemma lev_cons x a y b :
  lev (x :: a) (y :: b) =
  Nat.min (lev a (y :: b) + 1) (Nat.min (lev (x :: a) b + 1) (if bool_decide (x = y) then lev a b else S (lev a b))).
Proof. done. Qed.

Lemma edits_all_in b : edits [] b (length b).
Proof. induction b; cbn; eauto with noty. Qed.
Lemma edits_all_out a : edits a [] (length a).
Proof. induction a; cbn; eauto with noty. Qed.

Lemma lev_edits a b : edits a b (lev a b).
Proof.
  revert b. induction a as [|x a IHa]; intros b; [apply edits_all_in|].
  induction b as [|y b IHb]; [apply edits_all_out|]. rewrite lev_cons, !Nat.add_1_r.
  apply Nat.min_case; [eauto with noty|]. apply Nat.min_case; [eauto with noty|].
  case_bool_decide; subst; eauto with noty.
Qed.

Lemma lev_least a b m : edits a b m -> lev a b <= m.
Proof.
  induction 1 as [|x a b n H IH|x y a b n H IH|x a b n H IH|y a b n H IH].
  - done.
  - rewrite lev_cons, bool_decide_eq_true_2 by done. lia.
  - rewrite lev_cons. case_bool_decide; lia.
  - destruct b as [|y b]; [rewrite lev_nil_r in *; cbn; lia|]. rewrite lev_cons. lia.
  - destruct a as [|x a]; [cbn in *; lia|]. rewrite lev_cons. lia.
Qed.

(** ** The row holds the recurrence *)

Section table.
Context (from to : list Z).

(** The cost of turning the first [i] runes of one name into the first [j] of the other. *)
Definition cost (i j : nat) : nat := lev (rev (take i from)) (rev (take j to)).

Lemma cost_0_l j : j <= length to -> cost 0 j = j.
Proof. intros Hj. unfold cost. change (length (rev (take j to)) = j). rewrite length_rev, length_take. lia. Qed.

Lemma cost_0_r i : i <= length from -> cost i 0 = i.
Proof. intros Hi. unfold cost. change (lev (rev (take i from)) [] = i). rewrite lev_nil_r, length_rev, length_take. lia. Qed.

Lemma rev_take_S (l : list Z) i : i < length l -> rev (take (S i) l) = nth i l 0%Z :: rev (take i l).
Proof.
  intros Hi. destruct (lookup_lt_is_Some_2 l i Hi) as [x Hx].
  rewrite (take_S_r l i x Hx), rev_app_distr. cbn. by rewrite (nth_lookup_Some l i 0%Z x Hx).
Qed.

Lemma cost_S i j : i < length from -> j < length to ->
  cost (S i) (S j) =
  Nat.min (cost i (S j) + 1)
    (Nat.min (cost (S i) j + 1) (if bool_decide (nth i from 0%Z = nth j to 0%Z) then cost i j else S (cost i j))).
Proof. intros Hi Hj. unfold cost. rewrite (rev_take_S from i Hi), (rev_take_S to j Hj). apply lev_cons. Qed.

(** The row while row [S i] is being written: its first cells are new, the others still row [i]'s. *)
Definition half_row (i j : nat) (row : list nat) : Prop :=
  length row = S (length to) /\
  forall k, k <= length to -> nth k row 0 = if (k <=? j)%nat then cost (S i) k else cost i k.

Definition full_row (i : nat) (row : list nat) : Prop :=
  length row = S (length to) /\ forall k, k <= length to -> nth k row 0 = cost i k.

Lemma nth_insert (row : list nat) j v k : j < length row -> nth k (<[j := v]> row) 0 = if decide (k = j) then v else nth k row 0.
Proof.
  intros Hj. rewrite !nth_lookup. destruct (decide (k = j)) as [-> |Hk].
  - by rewrite list_lookup_insert_eq.
  - by rewrite list_lookup_insert_ne.
Qed.

Lemma edit_cell_half i j row :
  i < length from -> j < length to -> half_row i j row ->
  let '(row', diagonal) := edit_cell from to (S i) (row, cost i j) (S j) in
  half_row i (S j) row' /\ diagonal = cost i (S j).
Proof.
  intros Hi Hj [Hl Hrow]. cbn [edit_cell]. rewrite !Nat.sub_succ, !Nat.sub_0_r.
  rewrite (Hrow (S j)), (Hrow j) by lia. rewrite (proj2 (Nat.leb_gt (S j) j)), (proj2 (Nat.leb_le j j)) by lia.
  rewrite <- (cost_S i j Hi Hj). split; [|done]. split; [by rewrite length_insert|].
  intros k Hk. rewrite nth_insert by lia. destruct (decide (k = S j)) as [-> |Hne].
  - by rewrite (proj2 (Nat.leb_le (S j) (S j))).
  - rewrite (Hrow k Hk). by destruct (Nat.leb_spec k j), (Nat.leb_spec k (S j)); try lia.
Qed.

Lemma edit_cells_half i n j row :
  i < length from -> j + n <= length to -> half_row i j row ->
  half_row i (j + n) (foldl (edit_cell from to (S i)) (row, cost i j) (seq (S j) n)).1.
Proof.
  revert j row. induction n as [|n IH]; intros j row Hi Hn Hrow; [by rewrite Nat.add_0_r|].
  cbn [seq foldl]. pose proof (edit_cell_half i j row Hi ltac:(lia) Hrow) as H.
  destruct (edit_cell from to (S i) (row, cost i j) (S j)) as [row' diagonal]. destruct H as [H ->].
  rewrite Nat.add_succ_r, <- Nat.add_succ_l. apply IH; [done|lia|done].
Qed.

Lemma edit_row_full i row : i < length from -> full_row i row -> full_row (S i) (edit_row from to row (S i)).
Proof.
  intros Hi [Hl Hrow]. unfold edit_row. rewrite (Hrow 0) by lia.
  assert (half_row i 0 (<[0 := S i]> row)) as H0.
  { split; [by rewrite length_insert|]. intros k Hk. rewrite nth_insert by lia. destruct (decide (k = 0)) as [-> |Hne].
    - cbn. by rewrite cost_0_r.
    - destruct k; [done|]. cbn [Nat.leb]. by apply Hrow. }
  pose proof (edit_cells_half i (length to) 0 _ Hi ltac:(lia) H0) as [Hl' Hrow']. split; [done|].
  intros k Hk. rewrite (Hrow' k Hk), (proj2 (Nat.leb_le k (0 + length to))) by lia. done.
Qed.

Lemma edit_rows_full n i row : i + n <= length from -> full_row i row ->
  full_row (i + n) (foldl (edit_row from to) row (seq (S i) n)).
Proof.
  revert i row. induction n as [|n IH]; intros i row Hn Hrow; [by rewrite Nat.add_0_r|].
  cbn [seq foldl]. rewrite Nat.add_succ_r, <- Nat.add_succ_l. apply IH; [lia|].
  apply edit_row_full; [lia|done].
Qed.

Lemma first_row : full_row 0 (seq 0 (S (length to))).
Proof.
  split; [by rewrite length_seq|]. intros k Hk. rewrite seq_nth by lia. by rewrite cost_0_l.
Qed.
End table.

(** The distance is what the file says it is: the fewest insertions, deletions and substitutions,
    counted in runes, that turn one name into the other. *)
Theorem editDistance_least a b : least_edits (runes a) (runes b) (editDistance a b).
Proof.
  unfold editDistance. set (from := runes a). set (to := runes b).
  pose proof (edit_rows_full from to (length from) 0 _ ltac:(lia) (first_row from to)) as [_ Hrow].
  rewrite (Hrow (length to)) by lia. cbn [Nat.add]. apply least_edits_rev. unfold cost. rewrite !firstn_all.
  split; [apply lev_edits|apply lev_least].
Qed.

(** ** The name suggested *)

(** The names seen so far, none nearer than the one held. *)
Definition nearest_of (written : gostring) (seen : list gostring) (held : gostring * nat) : Prop :=
  (held = ([], S suggestionThreshold) /\ forall d, d ∈ seen -> suggestionThreshold < editDistance written d) \/
  (held.1 ∈ seen /\ held.2 = editDistance written held.1 /\ held.2 <= suggestionThreshold /\
   forall d, d ∈ seen -> held.2 < editDistance written d \/ (editDistance written d = held.2 /\ go_le held.1 d)).

Lemma go_le_refl a : go_le a a.
Proof. by destruct (total go_le a a). Qed.
#[local] Hint Resolve go_le_refl : core.

Lemma nearer_nearest written seen held c :
  nearest_of written seen held -> nearest_of written (seen ++ [c]) (nearer written held c).
Proof.
  destruct held as [closest nearest]. unfold nearer.
  destruct (Nat.ltb_spec (editDistance written c) nearest) as [Hlt|Hge]; cbn [orb].
  - intros [[[= -> ->] Hall]|(Hin & Hd & Ht & Hall)]; right; cbn [fst snd] in *.
    + split_and!; [set_solver|done|lia|]. intros d [Hd%Hall|Hd]%elem_of_app; [left; lia|].
      apply list_elem_of_singleton in Hd as ->. by right.
    + split_and!; [set_solver|done|lia|]. intros d [Hd'|Hd']%elem_of_app.
      * left. destruct (Hall d Hd') as [?|[? _]]; lia.
      * apply list_elem_of_singleton in Hd' as ->. by right.
  - intros H. destruct (_ && _) eqn:Heq.
    + apply andb_true_iff in Heq as [Eq%Nat.eqb_eq [Hne Hle]%bool_decide_eq_true%string_compare_Lt].
      destruct H as [[[= -> E] Hall]|(Hin & Hd & Ht & Hall)]; cbn [fst snd] in *; [by destruct c|].
      right. cbn [fst snd]. split_and!; [set_solver|done|lia|]. intros d [Hd'|Hd']%elem_of_app.
      * destruct (Hall d Hd') as [?|[? Hdle]]; [left; lia|right]. split; [lia|]. by transitivity closest.
      * apply list_elem_of_singleton in Hd' as ->. by right.
    + destruct H as [[[= -> ->] Hall]|(Hin & Hd & Ht & Hall)]; cbn [fst snd] in *.
      * left. split; [done|]. intros d [Hd'|Hd']%elem_of_app; [by apply Hall|].
        apply list_elem_of_singleton in Hd' as ->. lia.
      * right. cbn [fst snd]. split_and!; [set_solver|done|done|]. intros d [Hd'|Hd']%elem_of_app; [by apply Hall|].
        apply list_elem_of_singleton in Hd' as ->. destruct (decide (editDistance written c = nearest)) as [E|]; [|left; lia].
        right. split; [done|]. apply andb_false_iff in Heq as [Heq%Nat.eqb_neq|Heq%bool_decide_eq_false]; [lia|].
        rewrite string_compare_Lt in Heq. destruct (decide (c = closest)) as [-> |Hne]; [done|].
        destruct (total go_le closest c); tauto.
Qed.

(** The suggestion is the declared name nearest the written one, the first in byte order of those
    equally near; there is none exactly when every declared name is more than the threshold away. *)
Theorem closestName_nearest written candidates :
  match closestName written candidates with
  | (c, true) =>
      c ∈ candidates /\ editDistance written c <= suggestionThreshold /\
      forall d, d ∈ candidates -> editDistance written c < editDistance written d \/
        (editDistance written d = editDistance written c /\ go_le c d)
  | (_, false) => forall d, d ∈ candidates -> suggestionThreshold < editDistance written d
  end.
Proof.
  assert (forall cs seen held, nearest_of written seen held ->
    nearest_of written (seen ++ cs) (foldl (nearer written) held cs)) as Hfold.
  { induction cs as [|c cs IH]; intros seen held H; cbn; [by rewrite app_nil_r|].
    rewrite (cons_middle c seen cs), app_assoc. by apply IH, nearer_nearest. }
  unfold closestName. specialize (Hfold candidates [] ([], suggestionThreshold + 1)).
  destruct (foldl _ _ _) as [closest nearest].
  destruct Hfold as [[[= -> ->] Hall]|(Hin & Hd & Ht & Hall)].
  - left. split; [done|]. intros d Hd. by apply elem_of_nil in Hd.
  - exact Hall.
  - cbn [fst snd app] in *. rewrite (proj2 (Nat.leb_le _ _) Ht). rewrite <- Hd. done.
Qed.

Example suggestions :
  map (λ w, closestName (bs w) [bs "timeout"; bs "table"; bs "name"]) ["tiemout"; "tabel"; "nmae"; "url"]%string =
  [(bs "timeout", true); (bs "table", true); (bs "name", true); ([], false)].
Proof. vm_compute. reflexivity. Qed.
