(* ===== verification/ConnString.v ===== *)
(** * Passwords in connection strings: [internal/config/connstring.go] and the connection-string half
    of [redact.go].

    Where a password can stand in a quoted connection string, and the quotation without it. Positions
    are byte offsets, as in the source. The keyword scan advances by the keyword's length or ends, so
    the length of the text, plus one, is enough fuel. *)

From S2P Require Import Prelude Source Quote Interpolate Ident.

Record span := { from : nat; to : nat }.

#[export] Instance span_eq_dec : EqDecision span.
Proof. solve_decision. Defined.

Definition byteSpan (text : gostring) (s : span) : gostring := take (to s - from s) (drop (from s) text).

(** One step of [mergedSpans], the spans merged so far with the last first. *)
Definition merge_span (merged : list span) (next : span) : list span :=
  match merged with
  | last :: before =>
      if (from next <=? to last)%nat then {| from := from last; to := Nat.max (to last) (to next) |} :: before
      else next :: merged
  | [] => [next]
  end.

Definition mergedSpans (ascending : list span) : list span := reverse (foldl merge_span [] ascending).

Definition schemeSeparator : gostring := bs "://".

(** [strings.LastIndexByte]. *)
Fixpoint last_index_byte (c : ascii) (s : gostring) : option nat :=
  match s with
  | [] => None
  | x :: rest =>
      match last_index_byte c rest with
      | Some n => Some (S n)
      | None => if bool_decide (x = c) then Some 0 else None
      end
  end.

Definition uriPasswordSpan (text : gostring) : option span :=
  match index_of schemeSeparator text with
  | None => None
  | Some scheme =>
      let authority := scheme + length schemeSeparator in
      match last_index_byte "@" text with
      | None => None
      | Some host =>
          if (host <? authority)%nat then None
          else match index_of [":"%char] (take (host - authority) (drop authority text)) with
               | None => None
               | Some colon => Some {| from := authority + colon + 1; to := host |}
               end
      end
  end.

Definition passwordKeyword : gostring := bs "password".

Fixpoint valueAfterKeyword_from (fuel : nat) (text keyword : gostring) (at_ : nat) : option nat :=
  match fuel with
  | O => None
  | S fuel =>
      match index_of keyword (drop at_ text) with
      | None => None
      | Some found =>
          let afterKeyword := at_ + found + length keyword in
          match libpqValueAfter text afterKeyword with
          | Some value => Some value
          | None => valueAfterKeyword_from fuel text keyword afterKeyword
          end
      end
  end.

Definition valueAfterKeyword (text keyword : gostring) : option nat :=
  valueAfterKeyword_from (S (length text)) text keyword 0.

Definition keywordPasswordSpans (text : gostring) : list span :=
  match valueAfterKeyword text passwordKeyword with
  | Some value => [{| from := value; to := length text |}]
  | None => []
  end.

Definition starts_before (a b : span) : Prop := from a <= from b.
#[export] Instance starts_before_dec : RelDecision starts_before.
Proof. intros a b. unfold starts_before. apply _. Defined.

Definition found_spans (text : gostring) : list span :=
  keywordPasswordSpans text ++ option_list (uriPasswordSpan text).

(** The spans a password can stand in, last first. *)
Definition passwordSpans (text : gostring) : list span :=
  reverse (mergedSpans (merge_sort starts_before (found_spans text))).

(** ** redact.go *)


(** [^\$\{NAME\}$]. *)
Definition isBareEnvReference (text : gostring) : bool :=
  match cut_prefix text referenceOpen with
  | Some rest => match cut_suffix rest referenceClose with Some name => variableName name | None => false end
  | None => false
  end.

Definition redactedText (text : gostring) : gostring :=
  if isBareEnvReference text then text else redactionPlaceholder.

Definition redact_span (text : gostring) (held : gostring * list span) (password : span) : gostring * list span :=
  let '(redacted, replaced) := held in
  if isBareEnvReference (byteSpan text password) then held
  else (take (from password) redacted ++ redactionPlaceholder ++ drop (to password) redacted, replaced ++ [password]).

Definition redactedConnectionStringSpans (text : gostring) : gostring * list span :=
  foldl (redact_span text) (text, []) (passwordSpans text).

Definition redactedConnectionString (text : gostring) : gostring := (redactedConnectionStringSpans text).1.

Example redacted_samples :
  map (λ t, redactedConnectionString (bs t))
    ["postgres://u:s3cret@db/app"; "host=db password = 'a b' user=x"; "postgres://u:${PW}@db/app";
     "postgres://u:p@db/app?password=q"; "host=db"; "password password=x"]%string =
  map bs ["postgres://u:[redacted]@db/app"; "host=db password = [redacted]"; "postgres://u:${PW}@db/app";
     "postgres://u:[redacted]@db/app?password=[redacted]"; "host=db"; "password password=[redacted]"]%string.
Proof. vm_compute. reflexivity. Qed.

(** ** The libpq grammar between a keyword and its value *)

Definition is_separator (c : ascii) : bool := contains_byte c libpqSeparators.

Lemma trim_separators_split s :
  exists w, s = w ++ trim_separators s /\ forallb is_separator w = true /\
    forall c r, trim_separators s = c :: r -> is_separator c = false.
Proof.
  induction s as [|c s (w & E & Hw & Hr)]; [by exists []|]. cbn [trim_separators].
  destruct (contains_byte c libpqSeparators) eqn:Hc.
  - exists (c :: w). split_and!; [by rewrite <- app_comm_cons, <- E|cbn [forallb]; unfold is_separator at 1; by rewrite Hc|done].
  - exists []. split_and!; [done|done|]. by intros ? ? [= <- <-].
Qed.

Lemma drop_separators s : drop (separatorWidth s) s = trim_separators s.
Proof.
  destruct (trim_separators_split s) as (w & E & _). unfold separatorWidth.
  rewrite E at 1 3. rewrite length_app, Nat.add_sub. apply drop_app_length.
Qed.

Lemma separatorWidth_spec w s : forallb is_separator w = true ->
  (forall c r, s = c :: r -> is_separator c = false) -> separatorWidth (w ++ s) = length w.
Proof.
  intros Hw Hs. assert (trim_separators (w ++ s) = s) as E.
  { induction w as [|c w IH]; cbn [app trim_separators forallb] in *.
    - destruct s as [|c r]; [done|]. cbn [trim_separators]. specialize (Hs c r eq_refl). unfold is_separator in Hs. by rewrite Hs.
    - apply andb_true_iff in Hw as [Hc Hw]. unfold is_separator in Hc. rewrite Hc. by apply IH. }
  unfold separatorWidth. rewrite E, length_app. lia.
Qed.

(** What stands between a keyword and its value: separators around one equals sign. *)
Definition assignment (gap : gostring) : Prop :=
  exists w1 w2, gap = w1 ++ bs "=" ++ w2 /\ forallb is_separator w1 = true /\ forallb is_separator w2 = true.

Lemma libpqValueAfter_gap text i gap rest :
  drop i text = gap ++ rest -> assignment gap -> (forall c r, rest = c :: r -> is_separator c = false) ->
  libpqValueAfter text i = Some (i + length gap).
Proof.
  intros E (w1 & w2 & -> & H1 & H2) Hr. unfold libpqValueAfter. rewrite E.
  replace ((w1 ++ bs "=" ++ w2) ++ rest) with (w1 ++ bs "=" ++ w2 ++ rest) in * by (by rewrite <- !app_assoc).
  rewrite (separatorWidth_spec w1) by (try done; by intros ? ? [= <- _]).
  assert (drop (i + length w1) text = bs "=" ++ w2 ++ rest) as Eq by (by rewrite <- drop_drop, E, drop_app_length).
  rewrite Eq, has_prefix_app. cbn [negb].
  assert (drop (S (i + length w1)) text = w2 ++ rest) as Ev.
  { rewrite <- Nat.add_1_r, <- drop_drop, Eq. done. }
  rewrite Ev, (separatorWidth_spec w2) by done. f_equal. rewrite !length_app. change (length (bs "=")) with 1. lia.
Qed.

Lemma libpqValueAfter_Some text i v : libpqValueAfter text i = Some v ->
  exists gap rest, drop i text = gap ++ rest /\ assignment gap /\ v = i + length gap /\
    (forall c r, rest = c :: r -> is_separator c = false).
Proof.
  unfold libpqValueAfter. destruct (has_prefix _ _) eqn:Hp; [|done]. cbn [negb]. intros [= <-].
  apply has_prefix_spec in Hp as [r Hr]. rewrite <- drop_drop, drop_separators in Hr.
  destruct (trim_separators_split (drop i text)) as (w1 & E1 & H1 & _).
  destruct (trim_separators_split r) as (w2 & E2 & H2 & Hnext).
  assert (drop i text = (w1 ++ bs "=" ++ w2) ++ trim_separators r) as E
    by (rewrite <- !app_assoc, <- E2, <- Hr; exact E1).
  exists (w1 ++ bs "=" ++ w2), (trim_separators r). split_and!; [done|by exists w1, w2| |done].
  assert (separatorWidth (drop i text) = length w1) as L1 by (unfold separatorWidth; rewrite E1 at 1; rewrite length_app; lia).
  rewrite L1. assert (drop (S (i + length w1)) text = r) as ->.
  { rewrite <- Nat.add_1_r, <- Nat.add_assoc, <- drop_drop, E1, <- drop_drop, drop_app_length, Hr. done. }
  assert (separatorWidth r = length w2) as -> by (unfold separatorWidth; rewrite E2 at 1; rewrite length_app; lia).
  rewrite !length_app. change (length (bs "=")) with 1. lia.
Qed.

(** ** No assignment of the keyword is passed over *)

Definition occurs (text : gostring) (i : nat) : Prop := has_prefix (drop i text) passwordKeyword = true.

(** The keyword does not overlap itself. *)
Lemma occurs_apart text i j : occurs text i -> occurs text j -> i < j -> i + length passwordKeyword <= j.
Proof.
  intros [r Hi]%has_prefix_spec [r' Hj]%has_prefix_spec Hlt. change (length passwordKeyword) with 8.
  destruct (decide (i + 8 <= j)) as [|Hn]; [done|exfalso].
  replace j with (i + (j - i)) in Hj by lia. rewrite <- drop_drop, Hi in Hj.
  assert (forall k, 0 < k < 8 -> ~ (exists r r', drop k (passwordKeyword ++ r) = passwordKeyword ++ r')) as Hk.
  { intros k Hk (s & s' & E). do 8 (destruct k as [|k]; [first [lia|by injection E]|]). lia. }
  apply (Hk (j - i)); [lia|]. by exists r, r'.
Qed.

(** The bytes of a gap hold no keyword. *)
Lemma gap_no_keyword text i gap rest k :
  drop i text = gap ++ rest -> assignment gap -> occurs text k -> i <= k -> i + length gap <= k.
Proof.
  intros E (w1 & w2 & Hg & H1 & H2) [r Hk]%has_prefix_spec Hik.
  destruct (decide (i + length gap <= k)) as [|Hn]; [done|exfalso].
  assert (gap !! (k - i) = Some "p"%char) as Hp.
  { rewrite <- (lookup_app_l gap rest) by lia. rewrite <- E, lookup_drop. replace (i + (k - i)) with (k + 0) by lia.
    rewrite <- lookup_drop, Hk. done. }
  apply list_elem_of_lookup_2 in Hp. rewrite Hg in Hp. rewrite forallb_forall in H1, H2.
  apply elem_of_app in Hp as [Hp|[Hp|Hp]%elem_of_app].
  - by specialize (H1 _ (proj1 (list_elem_of_In _ _) Hp)).
  - apply list_elem_of_singleton in Hp. done.
  - by specialize (H2 _ (proj1 (list_elem_of_In _ _) Hp)).
Qed.

Lemma valueAfterKeyword_from_first fuel text at_ i v :
  length text - at_ < fuel -> at_ <= i -> occurs text i -> libpqValueAfter text (i + length passwordKeyword) = Some v ->
  exists v', valueAfterKeyword_from fuel text passwordKeyword at_ = Some v' /\ v' <= v.
Proof.
  revert at_. induction fuel as [|fuel IH]; intros at_ Hf Hat Hi Hv; [lia|]. cbn [valueAfterKeyword_from].
  destruct (index_of passwordKeyword (drop at_ text)) as [found|] eqn:Ef.
  - apply index_of_Some in Ef as (Hj & Hl & Hfirst). rewrite drop_drop in Hj. rewrite length_drop in Hl.
    assert (at_ + found <= i) as Hle.
    { destruct (decide (at_ + found <= i)) as [|Hn]; [done|exfalso].
      specialize (Hfirst (i - at_) ltac:(lia)). rewrite drop_drop, Nat.add_comm, Nat.sub_add in Hfirst by lia.
      by rewrite Hi in Hfirst. }
    destruct (decide (at_ + found = i)) as [-> |Hne]; [rewrite Hv; by exists v|].
    pose proof (occurs_apart text (at_ + found) i Hj Hi ltac:(lia)) as Hap.
    apply libpqValueAfter_Some in Hv as Hv'. destruct Hv' as (g & r & _ & _ & -> & _).
    destruct (libpqValueAfter text (at_ + found + length passwordKeyword)) as [v'|] eqn:E'.
    + exists v'. split; [done|]. apply libpqValueAfter_Some in E' as (gap & rest & Eg & Hg & -> & _).
      pose proof (gap_no_keyword _ _ _ _ _ Eg Hg Hi Hap). lia.
    + apply IH; [|done..]. apply has_prefix_spec in Hj as [t Ht]. apply (f_equal length) in Ht.
      rewrite length_drop, length_app in Ht. change (length passwordKeyword) with 8 in *. lia.
  - exfalso. rewrite index_of_None in Ef. apply has_prefix_spec in Hi as Hi'. destruct Hi' as [t Ht].
    assert (i < length text) as Hlt.
    { apply (f_equal length) in Ht. rewrite length_drop, length_app in Ht. change (length passwordKeyword) with 8 in Ht. lia. }
    specialize (Ef (i - at_)). rewrite length_drop, drop_drop, Nat.add_comm, Nat.sub_add in Ef by lia.
    specialize (Ef ltac:(lia)). by rewrite Hi in Ef.
Qed.

(** Wherever the text spells [password = value], the keyword's span starts no later than the value
    and runs to the end. *)
Lemma keyword_value_covered text pre gap value :
  text = pre ++ passwordKeyword ++ gap ++ value -> assignment gap ->
  (forall c r, value = c :: r -> is_separator c = false) ->
  exists start, keywordPasswordSpans text = [{| from := start; to := length text |}] /\
    start <= length (pre ++ passwordKeyword ++ gap).
Proof.
  intros E Hg Hr. assert (occurs text (length pre)) as Ho.
  { unfold occurs. rewrite E, drop_app_length. apply has_prefix_app. }
  assert (drop (length pre + length passwordKeyword) text = gap ++ value) as Ed.
  { by rewrite E, <- drop_drop, drop_app_length, drop_app_length. }
  pose proof (libpqValueAfter_gap _ _ _ _ Ed Hg Hr) as Hv.
  destruct (valueAfterKeyword_from_first (S (length text)) text 0 _ _ ltac:(lia) ltac:(lia) Ho Hv) as (v & Hs & Hle).
  exists v. unfold keywordPasswordSpans, valueAfterKeyword. rewrite Hs. split; [done|].
  rewrite !length_app. lia.
Qed.

(** ** The userinfo of a URI *)

Lemma last_index_byte_app c s r : c ∉ r -> last_index_byte c (s ++ c :: r) = Some (length s).
Proof.
  intros Hr. assert (last_index_byte c r = None) as Hn.
  { induction r as [|x r IH]; [done|]. apply not_elem_of_cons in Hr as [Hx Hr]. cbn.
    by rewrite IH, bool_decide_eq_false_2. }
  induction s as [|x s IH]; cbn; [by rewrite Hn, bool_decide_eq_true_2|by rewrite IH].
Qed.

Lemma index_of_scheme scheme rest : ":"%char ∉ scheme ->
  index_of schemeSeparator (scheme ++ schemeSeparator ++ rest) = Some (length scheme).
Proof.
  induction scheme as [|x scheme IH]; intros Hn.
  - change ([] ++ schemeSeparator ++ rest) with (":"%char :: "/"%char :: "/"%char :: rest). cbn [index_of].
    replace (has_prefix _ _) with true; [done|]. symmetry. apply has_prefix_spec. by exists rest.
  - apply not_elem_of_cons in Hn as [Hx Hn]. cbn [app index_of].
    replace (has_prefix _ _) with false; [by rewrite IH|].
    symmetry. apply has_prefix_head; [change (Some ":"%char <> Some x); congruence|done].
Qed.

Lemma uriPasswordSpan_userinfo scheme user password host :
  ":"%char ∉ scheme -> ":"%char ∉ user -> "@"%char ∉ host ->
  uriPasswordSpan (scheme ++ schemeSeparator ++ user ++ ":"%char :: password ++ "@"%char :: host) =
  Some {| from := length (scheme ++ schemeSeparator ++ user) + 1;
          to := length (scheme ++ schemeSeparator ++ user) + 1 + length password |}.
Proof.
  intros Hs Hu Hh. unfold uriPasswordSpan. rewrite index_of_scheme by done.
  set (front := scheme ++ schemeSeparator ++ user ++ ":"%char :: password).
  assert (scheme ++ schemeSeparator ++ user ++ ":"%char :: password ++ "@"%char :: host = front ++ "@"%char :: host) as E.
  { unfold front. by rewrite <- !app_assoc. }
  assert (length front = length (scheme ++ schemeSeparator ++ user) + 1 + length password) as Hl.
  { unfold front. rewrite !length_app. cbn [length]. rewrite ?length_app. lia. }
  rewrite E, last_index_byte_app by done. rewrite !length_app in Hl.
  destruct (Nat.ltb_spec (length front) (length scheme + length schemeSeparator)); [lia|].
  assert (take (length front - (length scheme + length schemeSeparator))
            (drop (length scheme + length schemeSeparator) (front ++ "@"%char :: host)) = user ++ ":"%char :: password) as ->.
  { assert (front = (scheme ++ schemeSeparator) ++ user ++ ":"%char :: password) as Ef by (unfold front; by rewrite <- app_assoc).
    rewrite <- length_app, Ef, <- (app_assoc _ _ ("@"%char :: host)), drop_app_length, length_app, Nat.add_comm, Nat.add_sub.
    apply take_app_length. }
  rewrite index_of_first_sep by done. f_equal. rewrite !length_app, Hl. f_equal; lia.
Qed.

(** ** Merged spans are apart and cover what was found *)

Definition sound_span (n : nat) (s : span) : Prop := from s <= to s /\ to s <= n.

(** The spans merged so far, last first. *)
Definition apart (merged : list span) : Prop := StronglySorted (λ a b, to b < from a) merged.

Definition covered (s : span) (merged : list span) : Prop := exists m, m ∈ merged /\ from m <= from s /\ to s <= to m.

Lemma merge_span_ok n merged next :
  apart merged -> Forall (sound_span n) merged -> sound_span n next ->
  (forall m, m ∈ merged -> from m <= from next) ->
  apart (merge_span merged next) /\ Forall (sound_span n) (merge_span merged next) /\
  covered next (merge_span merged next) /\ (forall s, covered s merged -> covered s (merge_span merged next)) /\
  forall m, m ∈ merge_span merged next -> from m <= from next.
Proof.
  intros Ha Hs Hn Hle. destruct merged as [|last before]; cbn [merge_span].
  - split_and!.
    + apply SSorted_cons; [apply SSorted_nil|done].
    + by apply Forall_singleton.
    + exists next. split; [by left|done].
    + by intros s (m & Hm%elem_of_nil & _).
    + by intros m ->%list_elem_of_singleton.
  - apply Forall_cons in Hs as [[Hl1 Hl2] Hb]. apply StronglySorted_inv in Ha as [Ha1 Ha2]. destruct Hn as [Hn1 Hn2].
    assert (from last <= from next) as Hfl by (apply Hle; set_solver).
    destruct (Nat.leb_spec (from next) (to last)) as [Hm|Hm]; split_and!.
    + by constructor.
    + constructor; [split; cbn; lia|done].
    + eexists. split; [by left|]. cbn. lia.
    + intros s (m & [-> |Hin]%elem_of_cons & H1 & H2).
      * eexists. split; [by left|]. cbn. lia.
      * exists m. split; [by right|done].
    + intros m [-> |Hin]%elem_of_cons; [done|apply Hle; by right].
    + constructor; [by constructor|]. constructor; [done|]. rewrite Forall_forall in Ha2 |- *.
      intros b Hb'. specialize (Ha2 b Hb'). lia.
    + by repeat constructor.
    + exists next. split; [by left|done].
    + intros s (m & Hin & H1 & H2). exists m. split; [by right|done].
    + intros m [-> |Hin]%elem_of_cons; [done|by apply Hle].
Qed.

Lemma merge_spans_ok n l merged :
  StronglySorted starts_before l -> Forall (sound_span n) l -> apart merged -> Forall (sound_span n) merged ->
  (forall m s, m ∈ merged -> s ∈ l -> from m <= from s) ->
  let result := foldl merge_span merged l in
  apart result /\ Forall (sound_span n) result /\ (forall s, s ∈ l \/ covered s merged -> covered s result).
Proof.
  revert merged. induction l as [|x l IH]; intros merged Hl Hs Ha Hm Hle; cbn.
  - split_and!; [done|done|]. intros s [Hs'%elem_of_nil|Hs']; done.
  - apply StronglySorted_inv in Hl as [Hl Hx]. apply Forall_cons in Hs as [Hxs Hs].
    destruct (merge_span_ok n merged x Ha Hm Hxs) as (Ha' & Hm' & Hc & Hkeep & Hle'); [intros m Hin; apply Hle; set_solver|].
    destruct (IH (merge_span merged x) Hl Hs Ha' Hm') as (H1 & H2 & H3).
    { intros m s Hin Hins. rewrite Forall_forall in Hx. specialize (Hx s Hins). unfold starts_before in Hx.
      specialize (Hle' m Hin). lia. }
    split_and!; [done|done|]. intros s [[-> |Hin]%elem_of_cons|Hcov]; apply H3; eauto.
Qed.

#[export] Instance starts_before_total : Total starts_before.
Proof. intros a b. unfold starts_before. lia. Qed.
#[export] Instance starts_before_trans : Transitive starts_before.
Proof. intros a b c. unfold starts_before. lia. Qed.

Lemma found_spans_sound text : Forall (sound_span (length text)) (found_spans text).
Proof.
  unfold found_spans. apply Forall_app. split.
  - unfold keywordPasswordSpans. destruct (valueAfterKeyword text passwordKeyword) as [v|] eqn:E; [|done].
    apply Forall_singleton. split; [|done]. cbn. unfold valueAfterKeyword in E.
    assert (forall fuel at_, valueAfterKeyword_from fuel text passwordKeyword at_ = Some v -> v <= length text) as H.
    { clear E. induction fuel as [|fuel IH]; intros at_ E; [done|]. cbn [valueAfterKeyword_from] in E.
      destruct (index_of _ _) as [found|]; [|done]. destruct (libpqValueAfter _ _) as [v'|] eqn:Ev; [|by eapply IH].
      injection E as ->. apply libpqValueAfter_Some in Ev as (gap & rest & Eg & (w1 & w2 & Hg & _) & -> & _).
      apply (f_equal length) in Eg. rewrite length_drop, length_app in Eg.
      assert (0 < length gap) by (rewrite Hg, !length_app; change (length (bs "=")) with 1; lia). lia. }
    by eapply H.
  - unfold uriPasswordSpan. destruct (index_of schemeSeparator text) as [scheme|]; [|done].
    destruct (last_index_byte "@" text) as [host|] eqn:Eh; [|done].
    destruct (Nat.ltb_spec host (scheme + length schemeSeparator)); [done|].
    destruct (index_of [":"%char] _) as [colon|] eqn:Ec; [|done]. apply Forall_singleton.
    assert (host < length text) as Hlt.
    { clear -Eh. revert host Eh. induction text as [|x text IH]; intros host Eh; [done|]. cbn in *.
      destruct (last_index_byte "@" text) as [n|]; [injection Eh as <-; specialize (IH n eq_refl); lia|].
      case_bool_decide; [injection Eh as <-; lia|done]. }
    apply index_of_Some in Ec as ([r Er]%has_prefix_spec & _ & _). apply (f_equal length) in Er.
    rewrite length_drop, length_take, length_drop, length_app in Er. cbn [length] in Er.
    split; cbn [from to]; lia.
Qed.

(** The spans of a text, in order: apart from one another, inside the text, and covering what was found. *)
Definition ordered_spans (text : gostring) : list span := reverse (passwordSpans text).

Lemma passwordSpans_ok text :
  apart (passwordSpans text) /\ Forall (sound_span (length text)) (passwordSpans text) /\
  forall s, s ∈ found_spans text -> covered s (ordered_spans text).
Proof.
  unfold ordered_spans, passwordSpans, mergedSpans. rewrite !reverse_involutive.
  destruct (merge_spans_ok (length text) (merge_sort starts_before (found_spans text)) []) as (H1 & H2 & H3).
  - apply (StronglySorted_merge_sort starts_before).
  - rewrite (merge_sort_Permutation starts_before). apply found_spans_sound.
  - apply SSorted_nil.
  - done.
  - by intros m s Hm%elem_of_nil.
  - split_and!; [done|done|]. intros s Hs.
    destruct (H3 s) as (m & Hm & Hc); [left; by rewrite (merge_sort_Permutation starts_before)|].
    exists m. by rewrite elem_of_reverse.
Qed.

(** ** What is quoted *)

(** The text with each span replaced by what is shown of it. *)
Fixpoint stitch (text : gostring) (at_ : nat) (ascending : list span) : gostring :=
  match ascending with
  | [] => drop at_ text
  | s :: later => take (from s - at_) (drop at_ text) ++ redactedText (byteSpan text s) ++ stitch text (to s) later
  end.

Lemma take_from (text : gostring) a b : a <= b -> b <= length text -> take b text = take a text ++ take (b - a) (drop a text).
Proof.
  intros H Hb. rewrite <- (take_drop a (take b text)), take_take, Nat.min_l by lia. f_equal.
  by rewrite take_drop_commute, Nat.add_comm, Nat.sub_add.
Qed.

Lemma redact_stitch text at_ ascending :
  apart (reverse ascending) -> Forall (sound_span (length text)) ascending ->
  Forall (λ s, at_ <= from s) ascending -> at_ <= length text ->
  (foldl (redact_span text) (text, []) (reverse ascending)).1 = take at_ text ++ stitch text at_ ascending.
Proof.
  revert at_. induction ascending as [|s later IH]; intros at_ Ha Hs Hat Hl; [by cbn; rewrite take_drop|].
  rewrite reverse_cons in *. apply Forall_cons in Hs as [[Hs1 Hs2] Hs], Hat as [Hat Hats].
  assert (apart (reverse later) /\ Forall (λ b, to s <= from b) later) as [Hal Hsep].
  { clear -Ha. unfold apart in *. pose proof (StronglySorted_app_1_l _ _ _ Ha) as H1.
    split; [done|]. apply Forall_forall. intros b Hb.
    assert (to s < from b); [|lia].
    apply (StronglySorted_app_1_elem_of _ (reverse later) [s] b s Ha); [by rewrite elem_of_reverse|by left]. }
  specialize (IH (to s) Hal Hs Hsep Hs2). rewrite foldl_app. cbn [foldl stitch].
  destruct (foldl (redact_span text) (text, []) (reverse later)) as [redacted replaced]. cbn [fst] in IH. subst redacted.
  unfold redact_span, redactedText. pose proof (take_from text (from s) (to s) Hs1 Hs2) as Ht.
  destruct (isBareEnvReference (byteSpan text s)); cbn [fst].
  - rewrite Ht, (take_from text at_ (from s)) by lia. unfold byteSpan. by rewrite <- !app_assoc.
  - rewrite Ht at 1. rewrite <- !app_assoc.
    rewrite (take_app_le _ _ (from s)) by (rewrite length_take; lia).
    rewrite (take_take text (from s) (from s)), Nat.min_l by lia.
    rewrite (take_from text at_ (from s)) by lia. rewrite <- !app_assoc. do 3 f_equal.
    rewrite drop_app_ge by (rewrite length_take; lia). rewrite length_take, Nat.min_l by lia.
    rewrite Nat.sub_diag. done.
Qed.

Lemma apart_ascending spans : apart (reverse spans) -> StronglySorted (λ a b, to a < from b) spans.
Proof.
  unfold apart. induction spans as [|s later IH]; [intros _; apply SSorted_nil|].
  rewrite reverse_cons. intros (Hlt & Hl & _)%StronglySorted_app. apply SSorted_cons; [by apply IH|].
  apply Forall_forall. intros b Hb. apply Hlt; [by rewrite elem_of_reverse|by left].
Qed.

(** Where a password stands in a connection string: the value of a pair whose keyword ends in
    [password], to the end of the text, or the second half of a URI's userinfo. *)
Inductive password_at : gostring -> nat -> nat -> Prop :=
  | password_pair pre gap value :
      assignment gap -> (forall c r, value = c :: r -> is_separator c = false) ->
      password_at (pre ++ passwordKeyword ++ gap ++ value)
        (length (pre ++ passwordKeyword ++ gap)) (length (pre ++ passwordKeyword ++ gap ++ value))
  | password_userinfo scheme user password host :
      ":"%char ∉ scheme -> ":"%char ∉ user -> "@"%char ∉ host ->
      password_at (scheme ++ schemeSeparator ++ user ++ ":"%char :: password ++ "@"%char :: host)
        (length (scheme ++ schemeSeparator ++ user) + 1) (length (scheme ++ schemeSeparator ++ user) + 1 + length password).

(** C35. No byte of a password is quoted. The quotation is the text with a list of spans -- in order,
    none touching the next -- each shown as the placeholder unless it is a bare environment
    reference, and every password of the text lies inside one of them. *)
Theorem passwords_are_not_quoted text first past :
  password_at text first past ->
  exists spans, redactedConnectionString text = stitch text 0 spans /\
    StronglySorted (λ a b, to a < from b) spans /\ Forall (λ s, from s <= to s <= length text) spans /\
    exists s, s ∈ spans /\ from s <= first /\ past <= to s.
Proof.
  intros Hp. destruct (passwordSpans_ok text) as (Ha & Hs & Hc). exists (ordered_spans text).
  assert (reverse (ordered_spans text) = passwordSpans text) as Er by apply reverse_involutive.
  assert (Forall (sound_span (length text)) (ordered_spans text)) as Hso by (by apply Forall_reverse).
  split_and!.
  - unfold redactedConnectionString, redactedConnectionStringSpans. rewrite <- Er, (redact_stitch text 0); [done| |done| |lia].
    + by rewrite Er.
    + apply Forall_forall. lia.
  - apply apart_ascending. by rewrite Er.
  - exact Hso.
  - assert (exists f, f ∈ found_spans text /\ from f <= first /\ past <= to f) as (f & Hf & Hf1 & Hf2).
    { unfold found_spans. destruct Hp as [pre gap value Hg Hv|scheme user password host H1 H2 H3].
      - destruct (keyword_value_covered _ pre gap value eq_refl Hg Hv) as (start & -> & Hle).
        eexists. split; [apply elem_of_app; left; by left|]. cbn [from to]. lia.
      - rewrite uriPasswordSpan_userinfo by done.
        eexists. split; [apply elem_of_app; right; by left|]. cbn [from to]. lia. }
    destruct (Hc f Hf) as (m & Hm & Hm1 & Hm2). exists m. split; [done|lia].
Qed.

Lemma passwords_are_not_quoted_witness :
  password_at (bs "host=db password = s3cret") 19 25 /\
  exists spans, redactedConnectionString (bs "host=db password = s3cret") = stitch (bs "host=db password = s3cret") 0 spans /\
    StronglySorted (λ a b, to a < from b) spans /\
    Forall (λ s, from s <= to s <= length (bs "host=db password = s3cret")) spans /\
    exists s, s ∈ spans /\ from s <= 19 /\ 25 <= to s.
Proof.
  assert (password_at (bs "host=db password = s3cret") 19 25) as H.
  { apply (password_pair (bs "host=db ") (bs " = ") (bs "s3cret")).
    - exists (bs " "), (bs " "). by split_and!.
    - by intros c r [= <- _]. }
  split; [exact H|]. apply (passwords_are_not_quoted _ 19 25 H).
Defined.
