(* ===== verification/Diag.v ===== *)
(** * Diagnostics: [internal/config/diag.go], [diagorder.go] and [stage.go].

    A diagnostic is a value; a stage accumulates them in the order it meets them, and the entry points
    de-duplicate and order them. The de-duplication walks a Go map, whose iteration order is any order:
    [any_order] is that order, and nothing is relied on but that it enumerates the map. *)

From S2P Require Import Prelude Interpolate.

(** ** diag.go *)

Abbreviation RuleID := gostring.

Definition R (n : nat) : RuleID := bs "R" ++ format_int (Z.of_nat n).
Definition W1 : RuleID := bs "W1".
Definition W2 : RuleID := bs "W2".
Definition RuleRead : RuleID := bs "read".
Definition RuleSyntax : RuleID := bs "syntax".
Definition RuleDocument : RuleID := bs "document".
Definition RuleInterpolate : RuleID := bs "interpolate".
Definition RuleNormalize : RuleID := bs "normalize".
Definition RuleShape : RuleID := bs "shape".
Definition RuleDecode : RuleID := bs "decode".
Definition noRule : RuleID := [].

(** What a value knows of where it is written: the interface and its zero, [sourcePos{}]. *)
Record Positioned := { File : gostring; Line : Z; Col : Z; Path : gostring }.

#[export] Instance Positioned_eq_dec : EqDecision Positioned.
Proof. solve_decision. Defined.

Definition nowhere : Positioned := {| File := []; Line := 0; Col := 0; Path := [] |}.

(** A [Warning] has the same fields. *)
Record Error := {
  Rule : RuleID;
  Error_File : gostring;
  Error_Line : Z;
  Error_Col : Z;
  Error_Path : gostring;
  Msg : gostring;
  Hint : gostring
}.

#[export] Instance Error_eq_dec : EqDecision Error.
Proof. solve_decision. Defined.

Abbreviation Errors := (list Error).
Abbreviation Warnings := (list Error).

Definition yamlPathRoot : gostring := bs "$".

Definition diagnosticPath (path : gostring) : gostring := if bool_decide (path = []) then yamlPathRoot else path.

Definition NewError (rule : RuleID) (at_ : Positioned) (msg : gostring) : Error :=
  {| Rule := rule; Error_File := File at_; Error_Line := Line at_; Error_Col := Col at_;
     Error_Path := diagnosticPath (Path at_); Msg := msg; Hint := [] |}.

Definition NewFileError (rule : RuleID) (file msg : gostring) : Error :=
  {| Rule := rule; Error_File := file; Error_Line := 0; Error_Col := 0; Error_Path := yamlPathRoot; Msg := msg; Hint := [] |}.

Definition NewWarning (rule : RuleID) (at_ : Positioned) (msg : gostring) : Error := NewError rule at_ msg.

Definition WithHint (e : Error) (hint : gostring) : Error :=
  {| Rule := Rule e; Error_File := Error_File e; Error_Line := Error_Line e; Error_Col := Error_Col e;
     Error_Path := Error_Path e; Msg := Msg e; Hint := hint |}.

(** [stage.reportPositionedAs]: what a stage appends for a fault. *)
Definition reported (rule : RuleID) (at_ : Positioned) (why : fault) : Error :=
  WithHint (NewError rule at_ (message why)) (hint why).

(** ** diagorder.go *)

Abbreviation complaint := (gostring * Z * Z * gostring)%type.

Definition complaint_of (e : Error) : complaint := (Error_File e, Error_Line e, Error_Col e, Msg e).

(** [cmp.Compare] on integers and strings, one after the other. *)
Definition compareByPosition (a b : Error) : comparison :=
  or_else (string_compare (Error_File a) (Error_File b))
  (or_else (Z.compare (Error_Line a) (Error_Line b))
  (or_else (Z.compare (Error_Col a) (Error_Col b))
  (or_else (string_compare (Error_Path a) (Error_Path b)) (string_compare (Msg a) (Msg b))))).

Definition string_lt (a b : gostring) : bool := bool_decide (string_compare a b = Lt).

Definition prefersOver (e other : Error) : bool :=
  if negb (bool_decide (Error_Path e = Error_Path other)) then string_lt (Error_Path e) (Error_Path other)
  else if bool_decide (Hint e = Hint other) then string_lt (Rule e) (Rule other)
  else if bool_decide (Hint other = []) then true
  else if bool_decide (Hint e = []) then false
  else string_lt (Hint e) (Hint other).

(** The loop body of [deduped] over the map of the diagnostics kept. *)
Definition keep_best (best : gmap complaint Error) (diag : Error) : gmap complaint Error :=
  match best !! complaint_of diag with
  | Some kept => if prefersOver diag kept then <[complaint_of diag := diag]> best else best
  | None => <[complaint_of diag := diag]> best
  end.

Definition best_of (e : Errors) : gmap complaint Error := foldl keep_best ∅ e.

Section ordering.
Context (any_order : gmap complaint Error -> list Error).

Definition deduped (e : Errors) : Errors := any_order (best_of e).

(** [slices.SortFunc] of what is left; nil stays nil. *)
Definition normalized (e : Errors) : Errors :=
  match e with [] => [] | _ => merge_sort (below compareByPosition) (deduped e) end.

Definition normalizedResult {A} (result : A * Warnings * Errors) : A * Warnings * Errors :=
  let '(cfg, warnings, errs) := result in (cfg, normalized warnings, normalized errs).
End ordering.

(** ** The two orders are orders on keys *)

#[export] Instance Z_compare_order : Comparison Z.compare.
Proof. split; intros; [apply Z.compare_eq_iff|apply Z.compare_antisym|]. rewrite Z.compare_lt_iff in *. lia. Qed.

(** Comparing by a key that a smaller comparison orders. *)
Abbreviation sort_key := (gostring * (Z * (Z * (gostring * gostring))))%type.

Definition position_key (e : Error) : sort_key :=
  (Error_File e, (Error_Line e, (Error_Col e, (Error_Path e, Msg e)))).

(** One comparison and then another, on pairs. *)
Definition pairwise {A B} (c : A -> A -> comparison) (d : B -> B -> comparison) (a b : A * B) : comparison :=
  or_else (c a.1 b.1) (d a.2 b.2).

#[export] Instance pairwise_order {A B} (c : A -> A -> comparison) (d : B -> B -> comparison) :
  Comparison c -> Comparison d -> Comparison (pairwise c d).
Proof. intros Hc Hd. apply (or_else_order fst snd c d Hc Hd). intros [??] [??]. cbn. by intros -> ->. Qed.

Definition compare_keys : sort_key -> sort_key -> comparison :=
  pairwise string_compare (pairwise Z.compare (pairwise Z.compare (pairwise string_compare string_compare))).

Lemma compareByPosition_keys a b : compareByPosition a b = compare_keys (position_key a) (position_key b).
Proof. done. Qed.

#[export] Instance compare_keys_order : Comparison compare_keys.
Proof. apply _. Qed.

Definition empty_last (hint : gostring) : Z := if bool_decide (hint = []) then 1 else 0.

Abbreviation preference_key := (gostring * ((Z * gostring) * gostring))%type.

(** Smaller is preferred: the locator, then a hint rather than none, the hint, the rule. *)
Definition preference (e : Error) : preference_key := (Error_Path e, ((empty_last (Hint e), Hint e), Rule e)).

Definition compare_preference : preference_key -> preference_key -> comparison :=
  pairwise string_compare (pairwise (pairwise Z.compare string_compare) string_compare).

#[export] Instance compare_preference_order : Comparison compare_preference.
Proof. apply _. Qed.

Lemma string_compare_refl a : string_compare a a = Eq.
Proof. by apply cmp_eq. Qed.

Lemma string_compare_neq a b : a <> b -> string_compare a b <> Eq.
Proof. by rewrite cmp_eq. Qed.

Lemma prefersOver_iff a b : prefersOver a b = true <-> compare_preference (preference a) (preference b) = Lt.
Proof.
  unfold prefersOver, compare_preference, pairwise, preference, string_lt, empty_last. cbn.
  destruct (decide (Error_Path a = Error_Path b)) as [->|Hp].
  - rewrite (bool_decide_eq_true_2 (Error_Path b = _)), string_compare_refl by done. cbn.
    destruct (decide (Hint a = Hint b)) as [->|Hh].
    + rewrite (bool_decide_eq_true_2 (Hint b = Hint b)), Z.compare_refl, string_compare_refl by done. cbn.
      by rewrite bool_decide_eq_true.
    + rewrite (bool_decide_eq_false_2 (Hint a = Hint b)) by done. pose proof (string_compare_neq _ _ Hh).
      destruct (decide (Hint b = [])) as [Eb|Eb], (decide (Hint a = [])) as [Ea|Ea];
        [congruence|rewrite (bool_decide_eq_true_2 (Hint b = [])), (bool_decide_eq_false_2 (Hint a = [])) by done; done
        |rewrite (bool_decide_eq_false_2 (Hint b = [])), (bool_decide_eq_true_2 (Hint a = [])) by done; done|].
      rewrite (bool_decide_eq_false_2 (Hint b = [])), (bool_decide_eq_false_2 (Hint a = [])) by done. cbn.
      rewrite bool_decide_eq_true. by destruct (string_compare (Hint a) (Hint b)).
  - rewrite (bool_decide_eq_false_2 (Error_Path a = _)) by done. cbn. rewrite bool_decide_eq_true.
    pose proof (string_compare_neq _ _ Hp). by destruct (string_compare (Error_Path a) (Error_Path b)).
Qed.

(** Two diagnostics of one complaint that are equally preferred are one. *)
Lemma same_complaint_same_preference a b :
  complaint_of a = complaint_of b -> preference a = preference b -> a = b.
Proof.
  destruct a, b. unfold complaint_of, preference. cbn. intros [= -> -> -> ->] H. by injection H as -> _ -> ->.
Qed.

(** ** De-duplication keeps one representative, whatever came first *)

(** The representative of a complaint: one of its diagnostics, preferred over every other. *)
Definition represents (seen : Errors) (c : complaint) (d : Error) : Prop :=
  d ∈ seen /\ complaint_of d = c /\
  forall d', d' ∈ seen -> complaint_of d' = c -> d' = d \/ prefersOver d d' = true.

Definition keeps_best (seen : Errors) (best : gmap complaint Error) : Prop :=
  forall c, match best !! c with
            | Some d => represents seen c d
            | None => forall d, d ∈ seen -> complaint_of d <> c
            end.

Lemma prefersOver_total a b : complaint_of a = complaint_of b -> a = b \/ prefersOver a b = true \/ prefersOver b a = true.
Proof.
  intros Hc. rewrite !prefersOver_iff, (cmp_opp (cmp := compare_preference) (preference a) (preference b)).
  destruct (compare_preference (preference a) (preference b)) eqn:E; [left|by right; left|by right; right].
  apply cmp_eq in E. by apply same_complaint_same_preference.
Qed.

Lemma prefersOver_asym a b : prefersOver a b = true -> prefersOver b a = true -> False.
Proof.
  rewrite !prefersOver_iff, (cmp_opp (cmp := compare_preference) (preference a) (preference b)).
  intros ->. done.
Qed.

Lemma prefersOver_trans a b c : prefersOver a b = true -> prefersOver b c = true -> prefersOver a c = true.
Proof. rewrite !prefersOver_iff. apply cmp_lt. Qed.

Lemma keep_best_keeps seen best diag : keeps_best seen best -> keeps_best (seen ++ [diag]) (keep_best best diag).
Proof.
  intros H c. unfold keep_best. pose proof (H c) as Hc. pose proof (H (complaint_of diag)) as Hd.
  destruct (decide (c = complaint_of diag)) as [-> |Hne].
  - destruct (best !! complaint_of diag) as [kept|] eqn:Eb.
    + destruct Hd as (Hin & Ek & Hall). destruct (prefersOver diag kept) eqn:Ep.
      * rewrite lookup_insert_eq. split_and!; [set_solver|done|].
        intros d' [Hd'| ->%list_elem_of_singleton]%elem_of_app He; [right|by left].
        destruct (Hall d' Hd' He) as [-> |Hk]; [done|]. by eapply prefersOver_trans.
      * rewrite Eb. split_and!; [set_solver|done|].
        intros d' [Hd'| ->%list_elem_of_singleton]%elem_of_app He; [by apply Hall|].
        destruct (prefersOver_total diag kept) as [-> |[?|?]]; [done|by left|congruence|by right].
    + rewrite lookup_insert_eq. split_and!; [set_solver|done|].
      intros d' [Hd'| ->%list_elem_of_singleton]%elem_of_app He; [|by left]. by destruct (Hd d' Hd').
  - assert ((match best !! complaint_of diag with
             | Some kept => if prefersOver diag kept then <[complaint_of diag := diag]> best else best
             | None => <[complaint_of diag := diag]> best end) !! c = best !! c) as ->.
    { destruct (best !! complaint_of diag) as [kept|]; [destruct (prefersOver diag kept)|];
        rewrite ?lookup_insert_ne; done. }
    destruct (best !! c) as [d|].
    + destruct Hc as (Hin & Ed & Hall). split_and!; [set_solver|done|].
      intros d' [Hd'| ->%list_elem_of_singleton]%elem_of_app He; [by apply Hall|congruence].
    + intros d' [Hd'| ->%list_elem_of_singleton]%elem_of_app He; [by apply (Hc d')|congruence].
Qed.

Lemma best_of_keeps e : keeps_best e (best_of e).
Proof.
  assert (forall l seen best, keeps_best seen best -> keeps_best (seen ++ l) (foldl keep_best best l)) as H.
  { induction l as [|d l IH]; intros seen best Hb; cbn; [by rewrite app_nil_r|].
    rewrite (cons_middle d seen l), app_assoc. by apply IH, keep_best_keeps. }
  apply (H e [] ∅). intros c. rewrite lookup_empty. by intros d Hd%elem_of_nil.
Qed.

Lemma best_of_iff e c d : best_of e !! c = Some d <-> represents e c d.
Proof.
  pose proof (best_of_keeps e c) as H. split; [by intros E; rewrite E in H|].
  intros (Hin & Hc & Hall). destruct (best_of e !! c) as [k|]; [|by destruct (H d Hin)].
  destruct H as (Hk & Ek & Hkall). f_equal.
  destruct (Hall k Hk Ek) as [->|H1]; [done|]. destruct (Hkall d Hin Hc) as [->|H2]; [done|].
  by destruct (prefersOver_asym d k).
Qed.

Lemma best_of_perm e e' : e ≡ₚ e' -> best_of e = best_of e'.
Proof.
  intros He. apply map_eq. intros c. apply option_eq. intros d. rewrite !best_of_iff. unfold represents.
  setoid_rewrite He. done.
Qed.

(** ** The order *)

#[export] Instance below_position_total : Total (below compareByPosition).
Proof. intros a b. unfold below. rewrite !compareByPosition_keys. apply (total (below compare_keys)). Qed.

#[export] Instance below_position_trans : Transitive (below compareByPosition).
Proof. intros a b c. unfold below. rewrite !compareByPosition_keys. apply (below_trans compare_keys). Qed.

Lemma position_antisym a b :
  below compareByPosition a b -> below compareByPosition b a -> complaint_of a = complaint_of b.
Proof.
  unfold below. rewrite !compareByPosition_keys. intros H H'.
  assert (position_key a = position_key b) as E by (by apply (anti_symm (below compare_keys))).
  unfold position_key in E. unfold complaint_of. by injection E as -> -> -> _ ->.
Qed.

(** An order in which a Go map may be walked. *)
Class Enumerates (any_order : gmap complaint Error -> list Error) : Prop :=
  enumerates best : any_order best ≡ₚ (map_to_list best).*2.

Lemma deduped_elements any_order `{!Enumerates any_order} e d :
  d ∈ deduped any_order e <-> represents e (complaint_of d) d.
Proof.
  unfold deduped. rewrite enumerates, list_elem_of_fmap. split.
  - intros ([c k] & -> & Hin). apply elem_of_map_to_list, best_of_iff in Hin. cbn.
    destruct Hin as (H1 & <- & H3). done.
  - intros H%best_of_iff. exists (complaint_of d, d). split; [done|]. by apply elem_of_map_to_list.
Qed.

Lemma normalized_perm any_order e : normalized any_order e ≡ₚ (match e with [] => [] | _ => deduped any_order e end).
Proof. destruct e; [done|]. cbn. apply merge_sort_Permutation. Qed.

(** C36. Rendered findings do not depend on chance or on the order rules ran in. Whatever order the map
    is walked in and however the same diagnostics arrived, the result is one and the same list: in
    order of position, and, for each complaint, exactly its preferred diagnostic. *)
Theorem findings_are_order_free any_order any_order' e e' :
  Enumerates any_order -> Enumerates any_order' -> e ≡ₚ e' ->
  normalized any_order e = normalized any_order' e' /\
  StronglySorted (below compareByPosition) (normalized any_order e) /\
  forall d, d ∈ normalized any_order e <-> represents e (complaint_of d) d.
Proof.
  intros Ho Ho' He. split_and!.
  - destruct e as [|x e]; [apply Permutation_nil_l in He; subst; reflexivity|].
    destruct e' as [|x' e']; [by apply Permutation_nil_r in He|].
    assert (deduped any_order (x :: e) ≡ₚ deduped any_order' (x' :: e')) as Hd.
    { unfold deduped. by rewrite (enumerates (any_order := any_order)), (enumerates (any_order := any_order')), (best_of_perm _ _ He). }
    apply (StronglySorted_unique_strong (below compareByPosition));
      [|apply (StronglySorted_merge_sort _)..|by cbn; rewrite !merge_sort_Permutation].
    intros a b Ha Hb Hab Hba. cbn in Ha, Hb. rewrite merge_sort_Permutation in Ha. rewrite merge_sort_Permutation, <- Hd in Hb.
    apply (deduped_elements any_order), best_of_iff in Ha. apply (deduped_elements any_order), best_of_iff in Hb.
    rewrite (position_antisym a b Hab Hba) in Ha. congruence.
  - destruct e; [apply SSorted_nil|]. apply (StronglySorted_merge_sort _).
  - intros d. rewrite normalized_perm. destruct e; [|by rewrite deduped_elements].
    split; [by intros ?%elem_of_nil|by intros [?%elem_of_nil _]].
Qed.

#[export] Instance sorted_walk : Enumerates (λ best, (map_to_list best).*2).
Proof. intros best. done. Qed.

#[export] Instance reversed_walk : Enumerates (λ best, reverse (map_to_list best).*2).
Proof. intros best. apply reverse_Permutation. Qed.

Definition sample_finding (line : Z) (hint : gostring) : Error :=
  WithHint (NewError (R 4) {| File := bs "noty.yaml"; Line := line; Col := 3; Path := bs "database.schema" |} (bs "empty")) hint.

Lemma findings_are_order_free_witness :
  let e := [sample_finding 9 []; sample_finding 2 []; sample_finding 2 (bs "use noty")] in
  normalized (λ best, (map_to_list best).*2) e = normalized (λ best, reverse (map_to_list best).*2) (reverse e) /\
  StronglySorted (below compareByPosition) (normalized (λ best, (map_to_list best).*2) e) /\
  forall d, d ∈ normalized (λ best, (map_to_list best).*2) e <-> represents e (complaint_of d) d.
Proof.
  cbv zeta. apply findings_are_order_free; [apply _..|]. symmetry. apply reverse_Permutation.
Defined.
