(* ===== verification/Yaml.v ===== *)
(** * The document tree as the loader sees it: [internal/config/valueposition.go], [nodeproperties.go],
    [nontextualscalar.go], [nodekind.go], [keyidentity.go], [keyreference.go], [keyrepeats.go],
    [mappinganchor.go] and the position half of [position.go].

    The parser is a library, and what it parses is data here: a node is what the loader's type switches
    tell apart, with the token position and locator the library gives it and, for a scalar that is not
    text, the value it parsed. A literal block is a [StringNode]: both hold one text. *)

From S2P Require Import Prelude Source Quote Interpolate Diag.

(** Where the library says a node is written, and which node it is. *)
Record mark := { node_id : nat; at_line : Z; at_col : Z; locator : gostring }.

Inductive node : Type :=
  | StringNode (m : mark) (value : gostring)
  | ValueNode (m : mark) (type value : gostring)  (* integer, float, boolean, infinity *)
  | NullNode (m : mark)
  | NanNode (m : mark)
  | MappingNode (m : mark) (values : list (node * node))
  | SequenceNode (m : mark) (entries : nat) (values : list node)
  | AnchorNode (m : mark) (name : gostring) (value : node)
  | TagNode (m : mark) (value : node)
  | AliasNode (m : mark) (name : gostring)
  | MergeKeyNode (m : mark)
  | MappingKeyNode (m : mark) (value : node)
  | OtherNode (m : mark) (type : gostring).

Definition mark_of (n : node) : mark :=
  match n with
  | StringNode m _ | ValueNode m _ _ | NullNode m | NanNode m | MappingNode m _ | SequenceNode m _ _
  | AnchorNode m _ _ | TagNode m _ | AliasNode m _ | MergeKeyNode m | MappingKeyNode m _ | OtherNode m _ => m
  end.

(** Induction on a document, through the entries of its mappings and sequences. *)
Section node_induction.
Variable P : node -> Prop.
Hypothesis Hstring : forall m v, P (StringNode m v).
Hypothesis Hvalue : forall m t v, P (ValueNode m t v).
Hypothesis Hnull : forall m, P (NullNode m).
Hypothesis Hnan : forall m, P (NanNode m).
Hypothesis Hmapping : forall m es, Forall (λ e, P e.1 /\ P e.2) es -> P (MappingNode m es).
Hypothesis Hsequence : forall m k vs, Forall P vs -> P (SequenceNode m k vs).
Hypothesis Hanchor : forall m a v, P v -> P (AnchorNode m a v).
Hypothesis Htag : forall m v, P v -> P (TagNode m v).
Hypothesis Halias : forall m a, P (AliasNode m a).
Hypothesis Hmerge : forall m, P (MergeKeyNode m).
Hypothesis Hkey : forall m v, P v -> P (MappingKeyNode m v).
Hypothesis Hother : forall m t, P (OtherNode m t).

Fixpoint node_induction (n : node) : P n :=
  match n with
  | StringNode m v => Hstring m v
  | ValueNode m t v => Hvalue m t v
  | NullNode m => Hnull m
  | NanNode m => Hnan m
  | MappingNode m es =>
      Hmapping m es ((fix each es : Forall (λ e, P e.1 /\ P e.2) es :=
        match es with
        | [] => List.Forall_nil _
        | (k, v) :: es => @List.Forall_cons _ (λ e, P e.1 /\ P e.2) (k, v) es (conj (node_induction k) (node_induction v)) (each es)
        end) es)
  | SequenceNode m k vs =>
      Hsequence m k vs ((fix each vs : Forall P vs :=
        match vs with [] => List.Forall_nil _ | v :: vs => @List.Forall_cons _ P v vs (node_induction v) (each vs) end) vs)
  | AnchorNode m a v => Hanchor m a v (node_induction v)
  | TagNode m v => Htag m v (node_induction v)
  | AliasNode m a => Halias m a
  | MergeKeyNode m => Hmerge m
  | MappingKeyNode m v => Hkey m v (node_induction v)
  | OtherNode m t => Hother m t
  end.
End node_induction.

(** ** nodeproperties.go *)

Fixpoint beneathNodeProperties (n : node) : node :=
  match n with
  | AnchorNode _ _ v | TagNode _ v => beneathNodeProperties v
  | _ => n
  end.

Fixpoint beneathKeyProperties (n : node) : node :=
  match n with
  | AnchorNode _ _ v | TagNode _ v | MappingKeyNode _ v => beneathKeyProperties v
  | _ => n
  end.

(** ** valueposition.go, nontextualscalar.go, nodekind.go *)

Definition scalarTextOf (n : node) : option gostring := match n with StringNode _ v => Some v | _ => None end.

Definition parsedScalarValue (n : node) : option gostring :=
  match n with
  | ValueNode _ _ v => Some v
  | NullNode _ | NanNode _ => Some []
  | _ => None
  end.

Definition isNonTextualScalar (n : node) : bool := bool_decide (is_Some (parsedScalarValue n)).

Definition keyTextOf (key : node) : option gostring :=
  let beneath := beneathKeyProperties key in
  match scalarTextOf beneath with
  | Some text => Some text
  | None =>
      if isNonTextualScalar beneath then Some []
      else match beneath with MergeKeyNode _ => Some [] | _ => None end
  end.

Definition keyPositionsOf (n : node) : list node := match n with MappingNode _ es => es.*1 | _ => [] end.

Definition valuePositionsOf (n : node) : option (list node) :=
  if isNonTextualScalar n then Some []
  else match n with
       | MappingNode _ es => Some es.*2
       | SequenceNode _ _ vs => Some vs
       | AnchorNode _ _ v | TagNode _ v => Some [v]
       | AliasNode _ _ => Some []
       | _ => None
       end.

Inductive nodeKind := scalarValue | mappingValue | sequenceValue.
#[export] Instance nodeKind_eq_dec : EqDecision nodeKind.
Proof. solve_decision. Defined.

(** The kinds a key may hold, a bit set in the source. *)
Abbreviation nodeKinds := (list nodeKind).

Definition kindNames : list (nodeKind * gostring) :=
  [(scalarValue, bs "a scalar"); (mappingValue, bs "a mapping"); (sequenceValue, bs "a list")].

Definition nodeKindOf (n : node) : option nodeKind :=
  if bool_decide (is_Some (scalarTextOf n)) || isNonTextualScalar n then Some scalarValue
  else match n with
       | MappingNode _ _ => Some mappingValue
       | SequenceNode _ _ _ => Some sequenceValue
       | _ => None
       end.

Definition namesOfKinds (kinds : nodeKinds) : gostring :=
  join (bs " or ") (filter (λ kind, kind.1 ∈ kinds) kindNames).*2.

Definition holdsNothing (n : node) : bool :=
  match n with MappingNode _ es => bool_decide (es = []) | SequenceNode _ _ vs => bool_decide (vs = []) | _ => false end.

(** ** keyidentity.go

    [described] is the library's type name and rendering of a key that is not a scalar. *)

Definition textualKey : gostring := bs "text ".

Section identity.
Context (described : node -> gostring * gostring).

Definition nonTextualKeyValue (n : node) : gostring := default (described n).2 (parsedScalarValue n).

Definition keyIdentity (key : node) : gostring :=
  let beneath := beneathKeyProperties key in
  match scalarTextOf beneath with
  | Some text => textualKey ++ text
  | None => (described beneath).1 ++ bs " " ++ nonTextualKeyValue beneath
  end.

Definition keyIdentitiesOf (entries : list (node * node)) : list gostring := map (λ e, keyIdentity e.1) entries.
End identity.

(** ** keyreference.go *)

Definition referenceInKey : fault :=
  {| message := bs "interpolation is not applied to mapping keys";
     hint := bs "write the key out in full, and put the ${...} reference in its value" |}.
Definition unreadableKey : fault :=
  {| message := bs "unsupported YAML shape in a key position";
     hint := bs "a key has to be readable before it can be checked for ${...}; write it as a scalar" |}.

Definition keyReferenceFault (key : node) : option fault :=
  match keyTextOf key with
  | None => Some unreadableKey
  | Some text => if contains_sub text referenceOpen then Some referenceInKey else None
  end.

(** ** position.go and mappinganchor.go: positions in the file named [file] *)

Definition pathOf (n : node) : gostring :=
  let path := locator (mark_of n) in
  if bool_decide (path = yamlPathRoot) then [] else trim_prefix path (yamlPathRoot ++ bs ".").

Section positions.
Context (src : source).

(** A node without a token position has line zero, and then no column. *)
Definition tokenPosition (m : mark) (path : gostring) : Positioned :=
  {| File := src_name src; Line := at_line m;
     Col := if (at_line m =? 0)%Z then noColumn else runeColumn (src_Line src (at_line m)) (at_col m); Path := path |}.

Definition positionOf (n : node) : Positioned := tokenPosition (mark_of n) (pathOf n).

Definition comparePositions (a b : Positioned) : comparison :=
  or_else (Z.compare (Line a) (Line b)) (Z.compare (Col a) (Col b)).

(** Whether a key's locator is one step or more below its mapping's. *)
Definition writtenIn (mapping key : node) : bool :=
  match cut_prefix (locator (mark_of key)) (locator (mark_of mapping)) with
  | None => false
  | Some within => has_prefix within (bs ".") || has_prefix within (bs "[")
  end.

Definition earlier_key (mapping : node) (first : option node) (entry : node * node) : option node :=
  if negb (writtenIn mapping entry.1) then first
  else match first with
       | None => Some entry.1
       | Some key => if bool_decide (comparePositions (positionOf entry.1) (positionOf key) = Lt) then Some entry.1 else first
       end.

Definition firstKeyWrittenIn (mapping : node) (values : list (node * node)) : option node :=
  foldl (earlier_key mapping) None values.

Definition positionOfMapping (n : node) : Positioned :=
  match n with
  | MappingNode _ values =>
      match firstKeyWrittenIn n values with
      | Some first => tokenPosition (mark_of first) (pathOf n)
      | None => positionOf n
      end
  | _ => positionOf n
  end.

(** ** keyrepeats.go *)

Definition written_before (a b : node * node) : comparison := comparePositions (positionOf a.1) (positionOf b.1).

(** The stable sort by position. *)
Definition entriesInWrittenOrder (values : list (node * node)) : list (node * node) :=
  merge_sort (below written_before) values.

(** The keys whose name stands earlier, with the position of the first that bore it. *)
Fixpoint repeats_from (naming : node -> option gostring) (firstAt : gmap gostring Positioned)
    (ordered : list (node * node)) : list (node * Positioned) :=
  match ordered with
  | [] => []
  | entry :: rest =>
      match naming entry.1 with
      | None => repeats_from naming firstAt rest
      | Some named =>
          match firstAt !! named with
          | Some at_ => (entry.1, at_) :: repeats_from naming firstAt rest
          | None => repeats_from naming (<[named := positionOf entry.1]> firstAt) rest
          end
      end
  end.

Definition repeatsIn (ordered : list (node * node)) (naming : node -> option gostring) : list (node * Positioned) :=
  repeats_from naming ∅ ordered.
End positions.
