(* ===== verification/Substitute.v ===== *)
(** * Interpolation of a document: [internal/config/interpolate.go] (stage D).

    Stage D walks the parsed tree, substitutes the references of every scalar in a value position and
    refuses a reference in a key. The source rewrites nodes in place; the tree has no sharing before
    stage E, so the walk here answers the rewritten tree with what it recorded. *)

From S2P Require Import Prelude Source Quote Interpolate Diag Yaml.

Definition unrecognisedValueShape : fault :=
  {| message := bs "unsupported YAML shape in a value position";
     hint := bs "interpolation reaches scalars, sequences and mappings; write the value as one of those" |}.

(** The text written at each value the environment supplied bytes to, by node. *)
Abbreviation originalTexts := (gmap nat gostring).

Record interpolated := { tree : node; in_diags : Errors; originals : originalTexts }.

Section stage_d.
Context (src : source) (env : EnvLookup).

Definition in_report (n : node) (why : fault) : Error := reported RuleInterpolate (positionOf src n) why.

(** [substitute], on the text a scalar was written with. *)
Definition substitute (m : mark) (written : gostring) : interpolated :=
  let result := expand written env in
  if negb (bool_decide (faults result = [])) then
    {| tree := StringNode m written; in_diags := map (in_report (StringNode m written)) (faults result); originals := ∅ |}
  else
    {| tree := StringNode m (text result); in_diags := [];
       originals := if fromEnvironment result then {[ node_id m := written ]} else ∅ |}.

Definition refuseReferenceInKey (key : node) : Errors :=
  match keyReferenceFault key with Some why => [in_report key why] | None => [] end.

Definition kept (n : node) : interpolated := {| tree := n; in_diags := []; originals := ∅ |}.

(** What the values of one node came to, in the order they were walked. *)
Definition gathered (parts : list interpolated) : Errors * originalTexts :=
  (parts ≫= in_diags, foldl (λ seen part, originals part ∪ seen) ∅ parts).

Fixpoint substituteValuesUnder (n : node) : interpolated :=
  match n with
  | StringNode m written => substitute m written
  | ValueNode _ _ _ | NullNode _ | NanNode _ | AliasNode _ _ => kept n
  | MappingNode m values =>
      let parts := map (λ '(key, value), substituteValuesUnder value) values in
      let '(diags, found) := gathered parts in
      {| tree := MappingNode m (zip values.*1 (map tree parts));
         in_diags := (values.*1 ≫= refuseReferenceInKey) ++ diags; originals := found |}
  | SequenceNode m entries values =>
      let parts := map substituteValuesUnder values in
      let '(diags, found) := gathered parts in
      {| tree := SequenceNode m entries (map tree parts); in_diags := diags; originals := found |}
  | AnchorNode m name value =>
      let part := substituteValuesUnder value in
      {| tree := AnchorNode m name (tree part); in_diags := in_diags part; originals := originals part |}
  | TagNode m value =>
      let part := substituteValuesUnder value in
      {| tree := TagNode m (tree part); in_diags := in_diags part; originals := originals part |}
  | MergeKeyNode _ | MappingKeyNode _ _ | OtherNode _ _ =>
      {| tree := n; in_diags := [in_report n unrecognisedValueShape]; originals := ∅ |}
  end.

Definition interpolate (root : node) : interpolated := substituteValuesUnder root.

(** ** What a clean run did

    The document it read and the document it leaves, side by side: the same shape and the same keys,
    none of which reads like a reference, and each scalar in a value position expanded. *)

Definition plain_key (key : node) : Prop := keyReferenceFault key = None.

Inductive substituted : node -> node -> Prop :=
  | substituted_string m written :
      faults (expand written env) = [] -> substituted (StringNode m written) (StringNode m (text (expand written env)))
  | substituted_value m t v : substituted (ValueNode m t v) (ValueNode m t v)
  | substituted_null m : substituted (NullNode m) (NullNode m)
  | substituted_nan m : substituted (NanNode m) (NanNode m)
  | substituted_alias m a : substituted (AliasNode m a) (AliasNode m a)
  | substituted_mapping m es es' :
      Forall2 (λ e e', e'.1 = e.1 /\ plain_key e.1 /\ substituted e.2 e'.2) es es' ->
      substituted (MappingNode m es) (MappingNode m es')
  | substituted_sequence m k vs vs' : Forall2 substituted vs vs' -> substituted (SequenceNode m k vs) (SequenceNode m k vs')
  | substituted_anchor m a v v' : substituted v v' -> substituted (AnchorNode m a v) (AnchorNode m a v')
  | substituted_tag m v v' : substituted v v' -> substituted (TagNode m v) (TagNode m v').

Lemma bind_nil {A B} (f : A -> list B) l : l ≫= f = [] -> Forall (λ x, f x = []) l.
Proof. induction l as [|x l IH]; cbn; [constructor|]. intros [? ?]%app_eq_nil. constructor; auto. Qed.

Lemma refuseReferenceInKey_nil key : refuseReferenceInKey key = [] -> plain_key key.
Proof. unfold refuseReferenceInKey, plain_key. by destruct (keyReferenceFault key). Qed.

Lemma interpolate_substituted n :
  in_diags (substituteValuesUnder n) = [] -> substituted n (tree (substituteValuesUnder n)).
Proof.
  induction n as [m v|m t v|m|m|m es IH|m k vs IH|m a v IH|m v IH|m a|m|m v IH|m t] using node_induction;
    cbn [substituteValuesUnder]; try (by constructor); try done.
  - unfold substitute. case_bool_decide as Hf; cbn; [intros _; by constructor|].
    intros H. by destruct (faults (expand v env)).
  - cbn [gathered in_diags tree]. intros [Hk Hd]%app_eq_nil. constructor.
    apply bind_nil in Hk. apply bind_nil in Hd. rewrite Forall_fmap in Hk. rewrite Forall_map in Hd.
    induction IH as [|[k v] es [_ Hv] Hes IHes]; cbn; [constructor|].
    apply Forall_cons in Hk as [Hk Hks], Hd as [Hd Hds]. constructor; [|by apply IHes].
    cbn in *. split_and!; [done|by apply refuseReferenceInKey_nil|by apply Hv].
  - cbn [gathered in_diags tree]. intros Hd. constructor. apply bind_nil in Hd. rewrite Forall_map in Hd.
    induction IH as [|v vs Hv Hvs IHvs]; cbn; [constructor|].
    apply Forall_cons in Hd as [Hd Hds]. constructor; [by apply Hv|by apply IHvs].
  - cbn. intros Hd. constructor. by apply IH.
  - cbn. intros Hd. constructor. by apply IH.
Qed.
End stage_d.
