(* ===== verification/Normalize.v ===== *)
(** * Anchors, aliases, merge keys and the operations list: [internal/config/normalize.go], [anchor.go],
    [mergekey.go], [unreducibleshape.go] and [listsugar.go] (stage E).

    Stage E leaves a tree in which every alias is its anchored value, every merge key is expanded and a
    list of operations is the mapping it abbreviates. What an alias expands to was reduced when its
    anchor was met and is not written again, so the sharing of the source is a copy here.
    [IsMergeKey] and [canBeAKey] are the library's answers about a key node. *)

From S2P Require Import Prelude Source Quote Interpolate Diag Yaml.

Definition undefinedAlias : fault :=
  {| message := bs "alias refers to an anchor that is not defined earlier in this document";
     hint := bs "define the anchor with &name before the alias, or write the value out in full" |}.
Definition selfReferentialAnchor : fault :=
  {| message := bs "alias refers to the anchor whose own value it is written inside";
     hint := bs "an anchor cannot contain an alias to itself; write the inner value out in full" |}.
Definition nonMappingMergeSource : fault :=
  {| message := bs "a merge key can only merge a mapping";
     hint := bs "point << at an anchor whose value is a mapping, or at a list of them" |}.
Definition unreducibleShape : fault :=
  {| message := bs "unsupported YAML shape where an alias could be written";
     hint := bs "aliases are resolved inside mappings, sequences and tagged values; write the value as one of those" |}.

Definition operationsKey : gostring := bs "operations".
Definition bothOperationForms : gostring :=
  bs "write operations: [insert, update], or use the map form operations: {update: {...}}".
Definition unnameableOperation : fault :=
  {| message := bs "an operations list entry must be a name"; hint := bothOperationForms |}.
Definition repeatedOperation (first : Z) : fault :=
  {| message := bs "this entry names the operation already written on line " ++ format_int first;
     hint := bs "write each operation once; a list entry stands for one operation with no filter" |}.

Abbreviation entries_ := (list (node * node)).

Record normalizer := { anchors : gmap gostring node; reducing : gset gostring; nz_diags : Errors }.

Section stage_e.
Context (src : source) (described : node -> gostring * gostring) (IsMergeKey canBeAKey : node -> bool).

Definition nz_report (n : node) (why : fault) (nz : normalizer) : normalizer :=
  {| anchors := anchors nz; reducing := reducing nz;
     nz_diags := nz_diags nz ++ [reported RuleNormalize (positionOf src n) why] |}.

Definition remember (name : gostring) (value : node) (nz : normalizer) : normalizer :=
  {| anchors := <[name := value]> (anchors nz); reducing := reducing nz; nz_diags := nz_diags nz |}.

Definition set_reducing (names : gset gostring) (nz : normalizer) : normalizer :=
  {| anchors := anchors nz; reducing := names; nz_diags := nz_diags nz |}.

Definition unresolvable (alias : gostring) (nz : normalizer) : fault :=
  if bool_decide (alias ∈ reducing nz) then selfReferentialAnchor else undefinedAlias.

Fixpoint rememberAnchoredKey (key : node) (nz : normalizer) : normalizer :=
  match key with
  | AnchorNode _ name value => rememberAnchoredKey value (remember name value nz)
  | TagNode _ value | MappingKeyNode _ value => rememberAnchoredKey value nz
  | _ => nz
  end.

(** *** mergekey.go *)

(** The merged entries that no entry before them holds the key of. *)
Fixpoint merge_entries (held : list gostring) (entries : entries_) : entries_ :=
  match entries with
  | [] => []
  | entry :: rest =>
      let identity := keyIdentity described entry.1 in
      if bool_decide (identity ∈ held) then merge_entries held rest
      else entry :: merge_entries (identity :: held) rest
  end.

Definition expandedWith (direct : entries_) (sources : list entries_) : entries_ :=
  direct ++ merge_entries (keyIdentitiesOf described direct) (concat sources).

(** The mappings of a list of sources; an alias already refused is passed over. *)
Fixpoint sequence_sources (elements : list node) : option (list entries_) :=
  match elements with
  | [] => Some []
  | AliasNode _ _ :: rest => sequence_sources rest
  | element :: rest =>
      match beneathNodeProperties element with
      | MappingNode _ values => (λ sources, values :: sources) <$> sequence_sources rest
      | _ => None
      end
  end.

Definition mergeSourcesOf (held : node) : option (list entries_) :=
  match held with
  | MappingNode _ values => Some [values]
  | SequenceNode _ _ values => sequence_sources values
  | _ => None
  end.

(** *** listsugar.go *)

Definition operationKeyOf (element : node) : fault + node :=
  if negb (canBeAKey element) then inl unnameableOperation
  else match keyReferenceFault element with Some why => inl why | None => inr element end.

Definition filterFreeOperation (named : node) : node * node := (named, MappingNode (mark_of named) []).

(** What one element is: an operation to fold, or refused -- an alias already has been. *)
Definition operation_entry (namedOn : gmap gostring Z) (element : node) : option fault + node :=
  match element with
  | AliasNode _ _ => inl None
  | _ =>
      match operationKeyOf element with
      | inl why => inl (Some why)
      | inr operation =>
          match namedOn !! keyIdentity described operation with
          | Some first => inl (Some (repeatedOperation first))
          | None => inr operation
          end
      end
  end.

(** The loop of [operationEntriesOf]: the entries folded and whether none was refused, with the lines
    names stand on. *)
Fixpoint operation_entries (elements : list node) (namedOn : gmap gostring Z) (nz : normalizer) : entries_ * bool * normalizer :=
  match elements with
  | [] => ([], true, nz)
  | element :: rest =>
      match operation_entry namedOn element with
      | inl refused =>
          let nz := match refused with Some why => nz_report element why nz | None => nz end in
          let '(folded, _, nz) := operation_entries rest namedOn nz in (folded, false, nz)
      | inr operation =>
          let line := Line (positionOf src operation) in
          let '(folded, complete, nz) :=
            operation_entries rest (<[keyIdentity described operation := line]> namedOn) nz in
          (filterFreeOperation operation :: folded, complete, nz)
      end
  end.

Definition foldedOperations (key value : node) (nz : normalizer) : node * normalizer :=
  if negb (bool_decide (keyTextOf key = Some operationsKey)) then (value, nz)
  else match beneathNodeProperties value with
       | SequenceNode m _ elements =>
           let '(folded, complete, nz) := operation_entries elements ∅ nz in
           if complete
           then (MappingNode {| node_id := node_id m; at_line := at_line m; at_col := at_col m;
                                locator := locator (mark_of value) |} folded, nz)
           else (value, nz)
       | _ => (value, nz)
       end.

(** *** normalize.go *)

(** The resolved sources of a merge key, from what reducing its value answered. *)
Definition merge_sources_reported (held : node) (nz : normalizer) : list entries_ * normalizer :=
  match mergeSourcesOf held with
  | Some sources => (sources, nz)
  | None => ([], nz_report held nonMappingMergeSource nz)
  end.

(** The two loops over what a node holds, over the reduction of one value. *)
Section loops.
Context (reduce : node -> normalizer -> node * normalizer).

(** [mergedMappings] of the value written under a merge key. *)
Definition mergedMappings (value : node) (nz : normalizer) : list entries_ * normalizer :=
  match value with
  | AliasNode _ name =>
      match anchors nz !! name with
      | Some anchored => merge_sources_reported (beneathNodeProperties anchored) nz
      | None => ([], nz_report value (unresolvable name nz) nz)
      end
  | _ => let '(reduced, nz) := reduce value nz in merge_sources_reported (beneathNodeProperties reduced) nz
  end.

Fixpoint reduce_entries (values : entries_) (nz : normalizer) : entries_ * list entries_ * normalizer :=
  match values with
  | [] => ([], [], nz)
  | (key, value) :: rest =>
      let nz := rememberAnchoredKey key nz in
      if IsMergeKey key then
        let '(merged, nz) := mergedMappings value nz in
        let '(direct, sources, nz) := reduce_entries rest nz in (direct, merged ++ sources, nz)
      else
        let '(reduced, nz) := reduce value nz in
        let '(folded, nz) := foldedOperations key reduced nz in
        let '(direct, sources, nz) := reduce_entries rest nz in ((key, folded) :: direct, sources, nz)
  end.

Fixpoint reduce_elements (values : list node) (nz : normalizer) : list node * normalizer :=
  match values with
  | [] => ([], nz)
  | value :: rest =>
      let '(reduced, nz) := reduce value nz in
      let '(later, nz) := reduce_elements rest nz in (reduced :: later, nz)
  end.
End loops.

Fixpoint reduceValue (n : node) (nz : normalizer) {struct n} : node * normalizer :=
  match n with
  | StringNode _ _ | ValueNode _ _ _ | NullNode _ | NanNode _ => (n, nz)
  | AliasNode _ name =>
      match anchors nz !! name with
      | Some anchored => (anchored, nz)
      | None => (n, nz_report n (unresolvable name nz) nz)
      end
  | AnchorNode _ name value =>
      let '(reduced, nz) := reduceValue value (set_reducing ({[name]} ∪ reducing nz) nz) in
      (reduced, remember name reduced (set_reducing (reducing nz ∖ {[name]}) nz))
  | TagNode m value => let '(reduced, nz) := reduceValue value nz in (TagNode m reduced, nz)
  | MappingNode m values =>
      let '(direct, sources, nz) := reduce_entries reduceValue values nz in
      (MappingNode m (if (length direct =? length values)%nat then direct else expandedWith direct sources), nz)
  | SequenceNode m entries values =>
      if negb (entries =? length values)%nat then (n, nz_report n unreducibleShape nz)
      else let '(reduced, nz) := reduce_elements reduceValue values nz in (SequenceNode m entries reduced, nz)
  | MergeKeyNode _ | MappingKeyNode _ _ | OtherNode _ _ => (n, nz_report n unreducibleShape nz)
  end.

Definition newNormalizer : normalizer := {| anchors := ∅; reducing := ∅; nz_diags := [] |}.

(** The root is a bare mapping, so [reduceWithin] and [reduceValue] are one on it. *)
Definition normalize (root : node) : node * Errors :=
  let '(reduced, nz) := reduceValue root newNormalizer in (reduced, nz_diags nz).
End stage_e.

(** ** No alias is left *)

(** No alias stands where a value is read. *)
Inductive alias_free : node -> Prop :=
  | free_string m v : alias_free (StringNode m v)
  | free_value m t v : alias_free (ValueNode m t v)
  | free_null m : alias_free (NullNode m)
  | free_nan m : alias_free (NanNode m)
  | free_mapping m es : Forall (λ e, alias_free e.2) es -> alias_free (MappingNode m es)
  | free_sequence m k vs : Forall alias_free vs -> alias_free (SequenceNode m k vs)
  | free_anchor m a v : alias_free v -> alias_free (AnchorNode m a v)
  | free_tag m v : alias_free v -> alias_free (TagNode m v)
  | free_merge m : alias_free (MergeKeyNode m)
  | free_key m v : alias_free v -> alias_free (MappingKeyNode m v)
  | free_other m t : alias_free (OtherNode m t).

#[local] Hint Constructors alias_free : noty.

(** Every key of the document can be read, which stage D has seen to. *)
Inductive readable : node -> Prop :=
  | readable_leaf n : match n with
      | MappingNode _ _ | SequenceNode _ _ _ | AnchorNode _ _ _ | TagNode _ _ | MappingKeyNode _ _ => False
      | _ => True
      end -> readable n
  | readable_mapping m es : Forall (λ e, is_Some (keyTextOf e.1) /\ readable e.2) es -> readable (MappingNode m es)
  | readable_sequence m k vs : Forall readable vs -> readable (SequenceNode m k vs)
  | readable_anchor m a v : readable v -> readable (AnchorNode m a v)
  | readable_tag m v : readable v -> readable (TagNode m v)
  | readable_key m v : readable (MappingKeyNode m v).

Lemma readable_inv n : readable n ->
  match n with
  | MappingNode _ es => Forall (λ e, is_Some (keyTextOf e.1) /\ readable e.2) es
  | SequenceNode _ _ vs => Forall readable vs
  | AnchorNode _ _ v | TagNode _ v => readable v
  | _ => True
  end.
Proof. destruct 1 as [n Hn| | | | |]; [by destruct n|done..]. Qed.

Lemma beneath_alias_free n : alias_free n -> alias_free (beneathNodeProperties n).
Proof. induction 1; cbn; eauto with noty. Qed.

Lemma key_alias_free key : is_Some (keyTextOf key) -> alias_free key.
Proof.
  induction key using node_induction; unfold keyTextOf in *; cbn; intros [text H0]; try done; eauto with noty.
Qed.

Section reduced.
Context (src : source) (described : node -> gostring * gostring) (IsMergeKey canBeAKey : node -> bool).

#[local] Abbreviation reduced_value := (reduceValue src described IsMergeKey canBeAKey).
#[local] Abbreviation reduced_entries := (reduce_entries src described IsMergeKey canBeAKey).

Definition anchors_free (nz : normalizer) : Prop := forall name v, anchors nz !! name = Some v -> alias_free v.

(** A step that reported nothing left an anchor table it can trust. *)
Definition clean_step (nz nz' : normalizer) (P : Prop) : Prop :=
  nz_diags nz' = [] -> nz_diags nz = [] /\ (anchors_free nz -> anchors_free nz' /\ P).

Lemma clean_step_report nz n why P : clean_step nz (nz_report src n why nz) P.
Proof. unfold clean_step, nz_report. cbn. intros H. by destruct (nz_diags nz). Qed.

Lemma clean_step_refl nz (P : Prop) : (anchors_free nz -> P) -> clean_step nz nz P.
Proof. intros H E. auto. Qed.

Lemma clean_step_trans a b c (P Q S : Prop) :
  clean_step a b P -> clean_step b c Q -> (P -> Q -> S) -> clean_step a c S.
Proof.
  intros Hab Hbc Hs E. destruct (Hbc E) as [Eb Hb]. destruct (Hab Eb) as [Ea Ha]. split; [done|].
  intros Hf. destruct (Ha Hf) as [Hf' HP]. destruct (Hb Hf') as [Hf'' HQ]. auto.
Qed.

Lemma clean_step_weaken a b (P Q : Prop) : (P -> Q) -> clean_step a b P -> clean_step a b Q.
Proof. intros H Hab E. destruct (Hab E) as [Ea Ha]. split; [done|]. intros Hf. destruct (Ha Hf). auto. Qed.

Lemma remember_clean name v nz : alias_free v -> clean_step nz (remember name v nz) True.
Proof.
  intros Hv E. split; [done|]. intros Hf. split; [|done]. intros name' v'. cbn.
  destruct (decide (name' = name)) as [-> |Hne].
  - rewrite lookup_insert_eq. by intros [= <-].
  - rewrite lookup_insert_ne by done. apply Hf.
Qed.

Lemma set_reducing_clean names nz : clean_step nz (set_reducing names nz) True.
Proof. intros E. split; [exact E|]. intros Hf. split; [exact Hf|done]. Qed.

Lemma rememberAnchoredKey_clean key nz : alias_free key -> clean_step nz (rememberAnchoredKey key nz) True.
Proof.
  intros H. revert nz. induction H; intros nz; cbn; try (by apply clean_step_refl); eauto.
  eapply clean_step_trans; [by apply (remember_clean a v)|apply IHalias_free|done].
Qed.

(** Sources of a merge hold alias-free values when the node they come from is alias-free. *)
Definition free_entries (es : entries_) : Prop := Forall (λ e, alias_free e.2) es.

Lemma sequence_sources_free vs sources :
  Forall alias_free vs -> sequence_sources vs = Some sources -> Forall free_entries sources.
Proof.
  intros H. revert sources. induction H as [|v vs Hv Hvs IH]; intros sources E; [injection E as <-; constructor|].
  pose proof (beneath_alias_free v Hv) as Hb.
  destruct v; try discriminate E; try (inversion Hv; fail); cbn [sequence_sources beneathNodeProperties] in *.
  - apply fmap_Some in E as (s & Es & ->). constructor; [by inversion Hb|by apply IH].
  - destruct (beneathNodeProperties v) eqn:Ev; try discriminate E.
    apply fmap_Some in E as (s & Es & ->). constructor; [by inversion Hb|by apply IH].
  - destruct (beneathNodeProperties v) eqn:Ev; try discriminate E.
    apply fmap_Some in E as (s & Es & ->). constructor; [by inversion Hb|by apply IH].
Qed.

Lemma merge_sources_clean held nz : 
  let '(sources, nz') := merge_sources_reported src held nz in
  clean_step nz nz' (alias_free held -> Forall free_entries sources).
Proof.
  unfold merge_sources_reported. destruct (mergeSourcesOf held) as [sources|] eqn:E; [|apply clean_step_report].
  apply clean_step_refl. intros _ Hh. destruct held; try discriminate E; cbn in E.
  - injection E as <-. constructor; [by inversion Hh|constructor].
  - eapply sequence_sources_free; [by inversion Hh|exact E].
Qed.

Lemma merge_entries_free held es : free_entries es -> free_entries (merge_entries described held es).
Proof.
  intros H. revert held. induction H; intros held; cbn; [constructor|]. case_bool_decide; [done|]. constructor; auto.
  apply IHForall.
Qed.

Lemma expandedWith_free direct sources :
  free_entries direct -> Forall free_entries sources -> free_entries (expandedWith described direct sources).
Proof.
  intros Hd Hs. unfold expandedWith. apply Forall_app. split; [done|]. apply merge_entries_free.
  induction Hs; cbn; [constructor|]. by apply Forall_app.
Qed.

Lemma operation_entries_free elements namedOn nz :
  let '(folded, _, nz') := operation_entries src described canBeAKey elements namedOn nz in
  clean_step nz nz' True /\ free_entries folded.
Proof.
  revert namedOn nz. induction elements as [|e rest IH]; intros namedOn nz; cbn [operation_entries].
  - split; [by apply clean_step_refl|constructor].
  - destruct (operation_entry described canBeAKey namedOn e) as [refused|operation].
    + set (nz1 := match refused with Some why => nz_report src e why nz | None => nz end).
      assert (clean_step nz nz1 True) as H1.
      { destruct refused; [apply clean_step_report|by apply clean_step_refl]. }
      specialize (IH namedOn nz1). destruct (operation_entries _ _ _ rest _ _) as [[folded c] nz'].
      destruct IH as [H2 H3]. split; [by eapply clean_step_trans|done].
    + specialize (IH (<[keyIdentity described operation := Line (positionOf src operation)]> namedOn) nz).
      destruct (operation_entries _ _ _ rest _ _) as [[folded c] nz']. destruct IH as [H1 H2]. split; [done|].
      constructor; [by repeat constructor|done].
Qed.

Lemma foldedOperations_clean key value nz :
  let '(folded, nz') := foldedOperations src described canBeAKey key value nz in
  clean_step nz nz' (alias_free value -> alias_free folded).
Proof.
  unfold foldedOperations. destruct (negb _); [by apply clean_step_refl|].
  destruct (beneathNodeProperties value); try (by apply clean_step_refl).
  pose proof (operation_entries_free values ∅ nz) as H. destruct (operation_entries _ _ _ values _ _) as [[folded c] nz'].
  destruct H as [H1 H2]. destruct c; (eapply clean_step_weaken; [|exact H1]); [|done]. intros _ _. by constructor.
Qed.

(** Reducing a value, as the loops are given it. *)
Definition reduces (n : node) : Prop := forall nz, let '(n', nz') := reduced_value n nz in clean_step nz nz' (alias_free n').

Lemma mergedMappings_clean value nz : reduces value ->
  let '(sources, nz') := mergedMappings src reduced_value value nz in clean_step nz nz' (Forall free_entries sources).
Proof.
  intros Hr. specialize (Hr nz). unfold mergedMappings. destruct value.
  all: try (destruct (reduced_value _ nz) as [n' nz1];
    pose proof (merge_sources_clean (beneathNodeProperties n') nz1) as Hm;
    destruct (merge_sources_reported _ _ _) as [sources nz2];
    eapply clean_step_trans; [exact Hr|exact Hm|]; intros H1 H2; by apply H2, beneath_alias_free).
  destruct (anchors nz !! name) as [v|] eqn:E; [|apply clean_step_report].
  pose proof (merge_sources_clean (beneathNodeProperties v) nz) as Hm.
  destruct (merge_sources_reported _ _ _) as [sources nz2]. intros Ed. destruct (Hm Ed) as [E1 H1]. split; [done|].
  intros Hf. destruct (H1 Hf) as [Hf' H2]. split; [done|]. apply H2, beneath_alias_free. by eapply Hf.
Qed.

Lemma reduce_entries_clean es nz :
  Forall (λ e, is_Some (keyTextOf e.1) /\ reduces e.2) es ->
  let '(direct, sources, nz') := reduced_entries reduced_value es nz in
  clean_step nz nz' (free_entries direct /\ Forall free_entries sources).
Proof.
  intros H. revert nz. induction H as [|[key value] rest [Hk Hv] Hrest IH]; intros nz; cbn [reduce_entries fst snd] in *.
  - apply clean_step_refl. by repeat constructor.
  - pose proof (rememberAnchoredKey_clean key nz (key_alias_free key Hk)) as H0.
    set (nz0 := rememberAnchoredKey key nz) in *. destruct (IsMergeKey key).
    + pose proof (mergedMappings_clean value nz0 Hv) as H1. destruct (mergedMappings _ _ value nz0) as [merged nz1].
      specialize (IH nz1). destruct (reduced_entries _ rest nz1) as [[direct sources] nz2].
      eapply clean_step_trans; [exact H0| |intros _ H; exact H].
      eapply clean_step_trans; [exact H1|exact IH|]. intros Hm [Hd Hs]. split; [done|]. by apply Forall_app.
    + specialize (Hv nz0). destruct (reduced_value value nz0) as [reduced nz1].
      pose proof (foldedOperations_clean key reduced nz1) as H2.
      destruct (foldedOperations _ _ _ key reduced nz1) as [folded nz2].
      specialize (IH nz2). destruct (reduced_entries _ rest nz2) as [[direct sources] nz3].
      eapply clean_step_trans; [exact H0| |intros _ H; exact H].
      eapply clean_step_trans; [eapply (clean_step_trans nz0 nz1 nz2); [exact Hv|exact H2|]|exact IH|].
      * intros Hr Hf. exact (Hf Hr).
      * intros Hf [Hd Hs]. split; [by constructor|done].
Qed.

Lemma reduce_elements_clean vs nz :
  Forall reduces vs ->
  let '(reduced, nz') := reduce_elements reduced_value vs nz in clean_step nz nz' (Forall alias_free reduced).
Proof.
  intros H. revert nz. induction H as [|v rest Hv Hrest IH]; intros nz; cbn [reduce_elements].
  - apply clean_step_refl. by constructor.
  - specialize (Hv nz). destruct (reduced_value v nz) as [v' nz1]. specialize (IH nz1).
    destruct (reduce_elements _ rest nz1) as [vs' nz2]. eapply clean_step_trans; [exact Hv|exact IH|]. by constructor.
Qed.

Lemma readable_reduces n : readable n -> reduces n.
Proof.
  induction n as [m v|m t v|m|m|m es IH|m k vs IH|m a v IH|m v IH|m a|m|m v IH|m t] using node_induction;
    intros Hr nz; cbn [reduceValue]; try (apply clean_step_refl; by constructor); try apply clean_step_report.
  - assert (Forall (λ e, is_Some (keyTextOf e.1) /\ reduces e.2) es) as H.
    { pose proof (readable_inv _ Hr) as He. rewrite Forall_forall in IH, He |- *. intros e Hin.
      destruct (IH e Hin) as [_ Hv]. destruct (He e Hin). auto. }
    pose proof (reduce_entries_clean es nz H) as Hc. destruct (reduced_entries _ es nz) as [[direct sources] nz'].
    eapply clean_step_weaken; [|exact Hc]. intros [Hd Hs]. constructor.
    destruct (length direct =? length es)%nat; [exact Hd|by apply expandedWith_free].
  - destruct (negb _); [apply clean_step_report|].
    assert (Forall reduces vs) as H.
    { pose proof (readable_inv _ Hr) as He. rewrite Forall_forall in IH, He |- *. auto. }
    pose proof (reduce_elements_clean vs nz H) as Hc. destruct (reduce_elements _ vs nz) as [reduced nz'].
    eapply clean_step_weaken; [|exact Hc]. by constructor.
  - assert (readable v) as Hv by exact (readable_inv _ Hr). specialize (IH Hv (set_reducing ({[a]} ∪ reducing nz) nz)).
    destruct (reduced_value v _) as [v' nz1]. intros E. cbn in E. destruct (IH E) as [E1 H1]. split; [exact E1|].
    intros Hf. destruct (H1 Hf) as [Hf1 Hv']. split; [|done].
    by destruct (remember_clean a v' (set_reducing (reducing nz1 ∖ {[a]}) nz1) Hv' E) as [_ [? _]].
  - assert (readable v) as Hv by exact (readable_inv _ Hr). specialize (IH Hv nz).
    destruct (reduced_value v nz) as [v' nz1]. eapply clean_step_weaken; [|exact IH]. by constructor.
  - destruct (anchors nz !! a) as [v|] eqn:E; [|apply clean_step_report].
    intros Ed. split; [done|]. intros Hf. split; [done|]. by eapply Hf.
Qed.

(** A clean stage E leaves no alias: what every later stage reads is written out in full, however the
    document shared it -- through anchors on values or keys, merge keys and lists of them. *)
Theorem normalized_without_aliases root :
  readable root ->
  let '(reduced, diags) := normalize src described IsMergeKey canBeAKey root in diags = [] -> alias_free reduced.
Proof.
  intros Hr. unfold normalize. pose proof (readable_reduces root Hr newNormalizer) as H.
  destruct (reduceValue _ _ _ _ root newNormalizer) as [reduced nz]. intros E.
  destruct (H E) as [_ Hf]. apply Hf. intros name v. cbn. by rewrite lookup_empty.
Qed.
End reduced.

(** ** What a merge key means *)

Section merged.
Context (described : node -> gostring * gostring).

(** The first entry of a key. *)
Definition entry_of (identity : gostring) (es : entries_) : option (node * node) :=
  head (filter (λ e, keyIdentity described e.1 = identity) es).

Lemma entry_of_cons identity e es :
  entry_of identity (e :: es) =
  if bool_decide (keyIdentity described e.1 = identity) then Some e else entry_of identity es.
Proof. unfold entry_of. rewrite filter_cons. case_bool_decide as H; by destruct (decide _). Qed.

Lemma merge_entries_entry identity held es :
  entry_of identity (merge_entries described held es) =
  if bool_decide (identity ∈ held) then None else entry_of identity es.
Proof.
  revert held. induction es as [|e es IH]; intros held; cbn [merge_entries]; [by case_bool_decide|].
  rewrite entry_of_cons. destruct (decide (keyIdentity described e.1 ∈ held)) as [Hin|Hn].
  - rewrite (bool_decide_eq_true_2 (keyIdentity described e.1 ∈ held)), IH by done.
    destruct (decide (identity ∈ held)); [by rewrite bool_decide_eq_true_2|].
    rewrite !(bool_decide_eq_false_2 (identity ∈ held)) by done.
    rewrite bool_decide_eq_false_2; [done|]. intros E. by rewrite E in Hin.
  - rewrite (bool_decide_eq_false_2 (keyIdentity described e.1 ∈ held)) by done. rewrite entry_of_cons, IH.
    destruct (decide (keyIdentity described e.1 = identity)) as [<- |Hne].
    + rewrite (bool_decide_eq_true_2 (keyIdentity described e.1 = _)) by done. by rewrite bool_decide_eq_false_2 by done.
    + rewrite !(bool_decide_eq_false_2 (keyIdentity described e.1 = identity)) by done.
      destruct (decide (identity ∈ held)).
      * rewrite !bool_decide_eq_true_2; [done|done|by right].
      * rewrite !bool_decide_eq_false_2; [done|done|by intros [?|?]%elem_of_cons].
Qed.

(** A merge key gives a mapping exactly the entries it does not write itself, and of several sources
    the first that holds a key decides it. *)
Lemma expandedWith_entry direct sources identity :
  entry_of identity (expandedWith described direct sources) = entry_of identity (direct ++ concat sources).
Proof.
  unfold expandedWith, entry_of. rewrite !filter_app. 
  assert (head (filter (λ e, keyIdentity described e.1 = identity) (merge_entries described (keyIdentitiesOf described direct) (concat sources)))
          = if bool_decide (identity ∈ keyIdentitiesOf described direct) then None else entry_of identity (concat sources)) as Hm
    by apply merge_entries_entry.
  destruct (filter (λ e, keyIdentity described e.1 = identity) direct) as [|d ds] eqn:Ed; [|done].
  cbn. rewrite Hm, bool_decide_eq_false_2; [done|]. unfold keyIdentitiesOf. intros Hin.
  apply list_elem_of_fmap in Hin as (e & He & Hin).
  assert (e ∈ filter (λ e, keyIdentity described e.1 = identity) direct) as H by (by apply list_elem_of_filter).
  rewrite Ed in H. by apply elem_of_nil in H.
Qed.
End merged.

Definition at_line_ (line : Z) : mark := {| node_id := 0; at_line := line; at_col := 1; locator := bs "$" |}.
Definition text_node (line : Z) (s : string) : node := StringNode (at_line_ line) (bs s).
Definition plain_described (n : node) : gostring * gostring := ([], []).
Definition is_merge (n : node) : bool := match n with MergeKeyNode _ => true | _ => false end.

(** An anchored mapping, merged under two others, with an operations list. *)
Definition sample_shared : node :=
  MappingNode (at_line_ 1)
    [(text_node 1 "base", AnchorNode (at_line_ 1) (bs "b") (MappingNode (at_line_ 2) [(text_node 2 "timeout", text_node 2 "5s")]));
     (text_node 3 "one", MappingNode (at_line_ 4) [(MergeKeyNode (at_line_ 4), AliasNode (at_line_ 4) (bs "b"));
                                                   (text_node 5 "timeout", text_node 5 "9s")]);
     (text_node 6 "operations", SequenceNode (at_line_ 6) 2 [text_node 6 "insert"; text_node 6 "update"])].

Lemma normalized_without_aliases_witness :
  readable sample_shared /\
  let '(reduced, diags) := normalize (newSource (bs "f") []) plain_described is_merge (λ _, true) sample_shared in
  diags = [] /\ alias_free reduced.
Proof.
  assert (readable sample_shared) as Hr.
  { repeat constructor; by eexists. }
  split; [exact Hr|].
  pose proof (normalized_without_aliases (newSource (bs "f") []) plain_described is_merge (λ _, true) sample_shared Hr) as H.
  destruct (normalize (newSource (bs "f") []) plain_described is_merge (λ _, true) sample_shared) as [reduced diags] eqn:E.
  assert (diags = []) as Hd.
  { change diags with (reduced, diags).2. rewrite <- E. vm_compute. reflexivity. }
  exact (conj Hd (H Hd)).
Defined.
