(* ===== verification/Schema.v ===== *)
(** * The contract's shape: [internal/config/schema.go], [declaredkey.go], [mappinglevel.go], [shapecheck.go],
    [valueshape.go], [requiredkeys.go], [unknownkey.go] and [keyrepeats.go] (stage F).

    The table of every key the configuration declares, and the pass that holds a document to it. The
    source walks a mapping and the value of an entry by two functions that call each other and peel
    node properties as they go; here one structural walk is told which of the two it is doing. *)

From S2P Require Import Prelude Source Quote Interpolate Diag Suggest Ident Yaml Normalize.

(** ** The table *)

Inductive sensitivity := publicValue | urlPassword | entireValue.

Inductive levelName :=
  | noLevel | levelRoot | levelDatabase | levelWorker | levelRetention | levelDefaults | levelRetry | levelHeaders
  | levelListener | levelOperations | levelOperation | levelPayload | levelDestination | levelSigning.
#[export] Instance levelName_eq_dec : EqDecision levelName.
Proof. solve_decision. Defined.

Record keySpec := {
  spec_name : gostring;
  kinds : nodeKinds;
  presence_ : RuleID;
  emptiness : RuleID;
  legality : RuleID;
  legalUnder : gostring;
  shapeHint : gostring;
  conversion : RuleID;
  sensitive : sensitivity;
  logSensitivity : sensitivity;
  child : levelName
}.

Record mappingLevel := {
  freeForm : bool;
  httpFieldNames : bool;
  scope : bool;
  keys : list keySpec;
  removed : list (gostring * gostring);
  closedBy : RuleID * gostring
}.

Definition key (name : gostring) (kinds : nodeKinds) : keySpec :=
  {| spec_name := name; kinds := kinds; presence_ := noRule; emptiness := noRule; legality := noRule; legalUnder := [];
     shapeHint := []; conversion := noRule; sensitive := publicValue; logSensitivity := publicValue; child := noLevel |}.

Definition scalars (names : list string) : list keySpec := map (λ name, key (bs name) [scalarValue]) names.

Definition mandatory (rule : RuleID) (k : keySpec) : keySpec :=
  {| spec_name := spec_name k; kinds := kinds k; presence_ := rule; emptiness := emptiness k; legality := legality k;
     legalUnder := legalUnder k; shapeHint := shapeHint k; conversion := conversion k; sensitive := sensitive k;
     logSensitivity := logSensitivity k; child := child k |}.
Definition holdingSomething (rule : RuleID) (k : keySpec) : keySpec :=
  {| spec_name := spec_name k; kinds := kinds k; presence_ := presence_ k; emptiness := rule; legality := legality k;
     legalUnder := legalUnder k; shapeHint := shapeHint k; conversion := conversion k; sensitive := sensitive k;
     logSensitivity := logSensitivity k; child := child k |}.
Definition onlyUnder (sibling : gostring) (rule : RuleID) (k : keySpec) : keySpec :=
  {| spec_name := spec_name k; kinds := kinds k; presence_ := presence_ k; emptiness := emptiness k; legality := rule;
     legalUnder := sibling; shapeHint := shapeHint k; conversion := conversion k; sensitive := sensitive k;
     logSensitivity := logSensitivity k; child := child k |}.
Definition shapedLike (hint : gostring) (k : keySpec) : keySpec :=
  {| spec_name := spec_name k; kinds := kinds k; presence_ := presence_ k; emptiness := emptiness k; legality := legality k;
     legalUnder := legalUnder k; shapeHint := hint; conversion := conversion k; sensitive := sensitive k;
     logSensitivity := logSensitivity k; child := child k |}.
Definition convertedBy (rule : RuleID) (k : keySpec) : keySpec :=
  {| spec_name := spec_name k; kinds := kinds k; presence_ := presence_ k; emptiness := emptiness k; legality := legality k;
     legalUnder := legalUnder k; shapeHint := shapeHint k; conversion := rule; sensitive := sensitive k;
     logSensitivity := logSensitivity k; child := child k |}.
Definition of_level (level : levelName) (k : keySpec) : keySpec :=
  {| spec_name := spec_name k; kinds := kinds k; presence_ := presence_ k; emptiness := emptiness k; legality := legality k;
     legalUnder := legalUnder k; shapeHint := shapeHint k; conversion := conversion k; sensitive := sensitive k;
     logSensitivity := logSensitivity k; child := level |}.
Definition holding (secret : sensitivity) (k : keySpec) : keySpec :=
  {| spec_name := spec_name k; kinds := kinds k; presence_ := presence_ k; emptiness := emptiness k; legality := legality k;
     legalUnder := legalUnder k; shapeHint := shapeHint k; conversion := conversion k; sensitive := secret;
     logSensitivity := secret; child := child k |}.
Definition loggedHolding (secret : sensitivity) (k : keySpec) : keySpec :=
  {| spec_name := spec_name k; kinds := kinds k; presence_ := presence_ k; emptiness := emptiness k; legality := legality k;
     legalUnder := legalUnder k; shapeHint := shapeHint k; conversion := conversion k; sensitive := sensitive k;
     logSensitivity := secret; child := child k |}.

Definition required (k : keySpec) : bool := negb (bool_decide (presence_ k = noRule)).

(** [a |> f]: the source chains these as methods. *)
Notation "a '|>' f" := (f a) (at level 50, only parsing, left associativity).

Definition scalar_key (name : string) : keySpec := key (bs name) [scalarValue].
Definition mapping_key (name : string) : keySpec := key (bs name) [mappingValue].
Definition sequence_key (name : string) : keySpec := key (bs name) [sequenceValue].

Definition level_of (keys : list keySpec) : mappingLevel :=
  {| freeForm := false; httpFieldNames := false; scope := false; keys := keys; removed := []; closedBy := (noRule, []) |}.

Definition updateOperation : gostring := bs "update".

Definition schemaLevels (name : levelName) : option mappingLevel :=
  match name with
  | noLevel => None
  | levelRoot => Some
      {| freeForm := false; httpFieldNames := false; scope := true; removed := []; closedBy := (noRule, []);
         keys := [scalar_key "version" |> mandatory (R 1);
                  scalar_key "instance";
                  scalar_key "auto_reconcile";
                  mapping_key "database" |> of_level levelDatabase;
                  mapping_key "worker" |> of_level levelWorker;
                  mapping_key "retention" |> of_level levelRetention;
                  mapping_key "defaults" |> of_level levelDefaults;
                  sequence_key "listeners" |> mandatory (R 22) |> of_level levelListener] |}
  | levelDatabase => Some (level_of
      [scalar_key "url" |> mandatory (R 3) |> holding urlPassword;
       scalar_key "schema";
       scalar_key "listen_url" |> holding urlPassword])
  | levelWorker => Some (level_of
      (scalars ["concurrency"; "batch_size"; "poll_interval"; "lease_timeout"; "drain_timeout"]%string ++
       [sequence_key "allowed_destination_cidrs"]))
  | levelRetention => Some (level_of (scalars ["keep"; "partition_interval"; "precreate"]%string))
  | levelDefaults => Some (level_of
      [scalar_key "timeout";
       mapping_key "retry" |> of_level levelRetry;
       mapping_key "headers" |> of_level levelHeaders])
  | levelRetry => Some (level_of
      [scalar_key "max_attempts"; scalar_key "backoff"; scalar_key "initial_interval"; scalar_key "max_interval";
       scalar_key "jitter" |> convertedBy (R 18)])
  | levelHeaders => Some
      {| freeForm := true; httpFieldNames := true; scope := false; keys := []; removed := []; closedBy := (noRule, []) |}
  | levelListener => Some
      {| freeForm := false; httpFieldNames := false; scope := true; closedBy := (noRule, []);
         keys := [scalar_key "name" |> mandatory (R 23);
                  scalar_key "enabled" |> convertedBy (R 25);
                  scalar_key "table" |> mandatory (R 26);
                  key operationsKey [mappingValue; sequenceValue] |> mandatory (R 27) |> holdingSomething (R 27)
                    |> shapedLike bothOperationForms |> of_level levelOperations;
                  mapping_key "payload" |> of_level levelPayload;
                  mapping_key "destination" |> of_level levelDestination;
                  mapping_key "retry" |> of_level levelRetry;
                  scalar_key "timeout";
                  scalar_key "concurrency"];
         removed := [(bs "when", bs "move it under operations.<op>.when, so it applies to the statement it was written for");
                     (bs "columns", bs "move it under operations.update.columns, the only statement a column filter applies to")] |}
  | levelOperations => Some
      {| freeForm := false; httpFieldNames := false; scope := false; removed := [];
         closedBy := (R 28, bs "only insert, update and delete are supported");
         keys := [mapping_key "insert" |> of_level levelOperation;
                  key updateOperation [mappingValue] |> of_level levelOperation;
                  mapping_key "delete" |> of_level levelOperation] |}
  | levelOperation => Some (level_of
      [sequence_key "columns" |> onlyUnder updateOperation (R 29) |> holdingSomething (R 29);
       scalar_key "is_distinct" |> onlyUnder updateOperation (R 43) |> convertedBy (R 43);
       scalar_key "when"])
  | levelPayload => Some (level_of
      [scalar_key "mode"; sequence_key "columns"; sequence_key "exclude";
       scalar_key "include_old" |> convertedBy (R 34); scalar_key "max_bytes"])
  | levelDestination => Some
      {| freeForm := false; httpFieldNames := false; scope := false; closedBy := (noRule, []);
         keys := [scalar_key "url" |> mandatory (R 36) |> loggedHolding urlPassword;
                  scalar_key "method";
                  mapping_key "headers" |> of_level levelHeaders;
                  mapping_key "signing" |> of_level levelSigning];
         removed := [(bs "type", bs "HTTP is the only destination kind, so there is nothing left to choose; remove the key")] |}
  | levelSigning => Some
      {| freeForm := false; httpFieldNames := false; scope := false; closedBy := (noRule, []);
         keys := [sequence_key "secrets" |> holding entireValue];
         removed := [(bs "secret", bs "use signing.secrets, a list, so a secret can be rotated without downtime")] |}
  end.

Definition all_levels : list levelName :=
  [levelRoot; levelDatabase; levelWorker; levelRetention; levelDefaults; levelRetry; levelHeaders; levelListener;
   levelOperations; levelOperation; levelPayload; levelDestination; levelSigning].

Definition declaredNames (l : mappingLevel) : list gostring := map spec_name (keys l).

Definition level_key (l : mappingLevel) (name : gostring) : option keySpec :=
  head (filter (λ spec, spec_name spec = name) (keys l)).

Definition removedKey (l : mappingLevel) (name : gostring) : option gostring :=
  snd <$> head (filter (λ moved, moved.1 = name) (removed l)).

Definition refusalOfAnUndeclaredName (l : mappingLevel) : RuleID * gostring :=
  if bool_decide ((closedBy l).1 = noRule) then (R 41, []) else closedBy l.

(** The part of a path after its last dot. *)
Definition leaf_of (path : gostring) : gostring := List.last (split_on "." path) [].

(** The source walks the table in any order; no leaf name declares two conversions. *)
Definition conversionRuleAt (path : gostring) : RuleID :=
  default noRule (conversion <$> head (filter (λ spec, spec_name spec = leaf_of path /\ conversion spec <> noRule)
    (all_levels ≫= λ name, default [] (keys <$> schemaLevels name)))).

Definition sensitive_key (spec : keySpec) : bool := match sensitive spec with publicValue => false | _ => true end.

(** ** What stage F says *)

Definition quoted_text (s : gostring) : gostring := dquote :: s ++ [dquote].

Section shape.
(** [quote] is [strconv.Quote]. *)
Context (src : source) (described : node -> gostring * gostring) (quote : gostring -> gostring).

Definition mustHold (spec : keySpec) : fault :=
  {| message := quote (spec_name spec) ++ bs " must be " ++ namesOfKinds (kinds spec); hint := shapeHint spec |}.
Definition mustHoldSomething (name : gostring) : fault :=
  {| message := quote name ++ bs " must hold at least one entry"; hint := [] |}.
Definition everyEntryMustHold (name : gostring) (kinds : nodeKinds) : fault :=
  {| message := bs "each " ++ quote name ++ bs " entry must be " ++ namesOfKinds kinds; hint := [] |}.
Definition legalOnlyUnder (name sibling : gostring) : fault :=
  {| message := quote name ++ bs " is legal only under " ++ quote sibling; hint := [] |}.
Definition missingRequiredKey (path : gostring) : fault :=
  {| message := bs "missing required key " ++ quote path; hint := [] |}.
Definition anotherSpellingOfOneKey (first : Z) : fault :=
  {| message := bs "this key is another spelling of the one already written on line " ++ format_int first;
     hint := bs "two spellings of one value are one key, so write it once" |}.
Definition headerWrittenTwice (name : gostring) (first : Z) : fault :=
  {| message := bs "header " ++ quote name ++ bs " differs only in case from the one on line " ++ format_int first;
     hint := bs "HTTP field names are case-insensitive, so the two would be one header on the wire" |}.
Definition unreadableKeyShape : fault :=
  {| message := bs "unsupported YAML shape in a key position";
     hint := bs "a key has to be readable before it can be matched against the contract; write it as a scalar" |}.
Definition unreadableValueShape : fault :=
  {| message := bs "unsupported YAML shape in a value position";
     hint := bs "interpolation reaches scalars, sequences and mappings; write the value as one of those" |}.

Definition unknownField (name : gostring) : gostring := bs "unknown field " ++ quote name.
Definition didYouMean (candidate : gostring) : gostring := bs "did you mean " ++ quote candidate ++ bs "?".

(** What the pass has reported, and whether a later stage could not read the tree. *)
Record shapePass := { shape_diags : Errors; undecodable : bool }.

Definition nothing : shapePass := {| shape_diags := []; undecodable := false |}.
Definition and_then (a b : shapePass) : shapePass :=
  {| shape_diags := shape_diags a ++ shape_diags b; undecodable := undecodable a || undecodable b |}.
Definition all_of : list shapePass -> shapePass := foldr and_then nothing.

Definition says (rule : RuleID) (n : node) (why : fault) : shapePass :=
  {| shape_diags := [reported rule (positionOf src n) why]; undecodable := false |}.
Definition stops (p : shapePass) : shapePass := {| shape_diags := shape_diags p; undecodable := true |}.

(** *** keyrepeats.go *)

Definition oneKey (k : node) : option gostring := Some (keyIdentity described k).

(** Folding a header name is folding ASCII: a name with other letters is refused by R19. *)
Definition oneHeaderName (to_lower : gostring -> gostring) (k : node) : option gostring :=
  match keyTextOf k with
  | Some text => if bool_decide (text = []) then None else Some (to_lower text)
  | None => None
  end.

Definition refuseARepeatedName (ordered : list (node * node)) : shapePass :=
  all_of (map (λ '(at_, first), stops (says (R 42) at_ (anotherSpellingOfOneKey (Line first))))
              (repeatsIn src ordered oneKey)).

Definition refuseNamesDifferingOnlyInCase (to_lower : gostring -> gostring) (ordered : list (node * node)) : shapePass :=
  all_of (map (λ '(at_, first), says (R 20) at_ (headerWrittenTwice (default [] (keyTextOf at_)) (Line first)))
              (repeatsIn src ordered (oneHeaderName to_lower))).

(** *** unknownkey.go *)

Definition keyAsWritten (k : node) (token_value : node -> gostring) : gostring :=
  let beneath := beneathKeyProperties k in
  match scalarTextOf beneath with Some text => text | None => token_value beneath end.

Definition refuseAnUndeclaredName (level : mappingLevel) (k : node) (written : gostring) : shapePass :=
  let refusal := refusalOfAnUndeclaredName level in
  let hint_ :=
    match removedKey level written with
    | Some moved => moved
    | None => match closestName written (declaredNames level) with
              | (closest, true) => didYouMean closest
              | (_, false) => refusal.2
              end
    end in
  says refusal.1 k {| message := unknownField written; hint := hint_ |}.

(** *** requiredkeys.go: the paths of the required keys a scope does not write, with their rules.

    A level nests at most four deep, so that much fuel reads the whole table ([required_fuel]). *)

Definition entryValueNamed (values : option (list (node * node))) (name : gostring) : option node :=
  match values with
  | None => None
  | Some values => snd <$> head (filter (λ e, keyTextOf e.1 = Some name) values)
  end.

Fixpoint requiredKeysAbsentFrom (fuel : nat) (level : mappingLevel) (written : option (list (node * node)))
    (prefix : gostring) : list (gostring * RuleID) :=
  match fuel with
  | O => []
  | S fuel =>
      keys level ≫= λ spec,
        let path := prefix ++ spec_name spec in
        let value := entryValueNamed written (spec_name spec) in
        let beneath :=
          match schemaLevels (child spec) with
          | Some inner =>
              if scope inner then []
              else match value with
                   | None => requiredKeysAbsentFrom fuel inner None (path ++ bs ".")
                   | Some value =>
                       match beneathNodeProperties value with
                       | MappingNode _ values => requiredKeysAbsentFrom fuel inner (Some values) (path ++ bs ".")
                       | _ => []
                       end
                   end
          | None => []
          end in
        (if bool_decide (value = None) && required spec then [(path, presence_ spec)] else []) ++ beneath
  end.

Definition level_depth : nat := 4.

Definition reportMissingRequiredKeys (level : mappingLevel) (m : node) (values : list (node * node)) : shapePass :=
  if negb (scope level) then nothing
  else all_of (map (λ '(path, rule),
         {| shape_diags := [reported rule (positionOfMapping src m) (missingRequiredKey path)]; undecodable := false |})
       (requiredKeysAbsentFrom level_depth level (Some values) [])).

(** *** shapecheck.go and valueshape.go *)

(** What a node is being held to: to be a mapping of a level, reached through a name and reported at
    the node as it stands, or to be the value of a key. *)
Inductive job := AsMapping (level : mappingLevel) (whole : node) (reachedThrough : gostring) | AsValue (spec : keySpec).

Context (to_lower : gostring -> gostring) (token_value : node -> gostring).

(** [checkEntry], over the walk of the entry's value. *)
Definition checkEntry (level : mappingLevel) (reachedThrough : gostring) (entry : node * (job -> shapePass)) : shapePass :=
  let '(k, check) := entry in
  match keyTextOf k with
  | None => stops (says RuleShape k unreadableKeyShape)
  | Some name =>
      if freeForm level then nothing
      else match level_key level name with
           | None => refuseAnUndeclaredName level k (keyAsWritten k token_value)
           | Some spec =>
               if negb (bool_decide (legalUnder spec = [])) && negb (bool_decide (legalUnder spec = reachedThrough))
               then says (legality spec) k (legalOnlyUnder name (legalUnder spec))
               else check (AsValue spec)
           end
  end.

(** The body of [checkMapping] once the node is known to be a mapping. *)
Definition check_level (level : mappingLevel) (m : node) (values : list (node * node)) (reachedThrough : gostring)
    (entries : list (node * (job -> shapePass))) : shapePass :=
  let ordered := entriesInWrittenOrder src values in
  and_then (refuseARepeatedName ordered)
    (and_then (if httpFieldNames level then refuseNamesDifferingOnlyInCase to_lower ordered else nothing)
      (and_then (all_of (map (checkEntry level reachedThrough) entries))
        (reportMissingRequiredKeys level m values))).

(** [checkValue] up to the children, for the node beneath its properties. *)
Definition check_kind (spec : keySpec) (held : node) (children : mappingLevel -> shapePass) : shapePass :=
  match nodeKindOf held with
  | None => stops (says RuleShape held unreadableValueShape)
  | Some kind =>
      if negb (bool_decide (kind ∈ kinds spec)) then stops (says RuleShape held (mustHold spec))
      else if negb (bool_decide (emptiness spec = noRule)) && holdsNothing held
           then says (emptiness spec) held (mustHoldSomething (spec_name spec))
           else match schemaLevels (child spec) with Some level => children level | None => nothing end
  end.

Definition refuse_shape (whole : node) (reachedThrough : gostring) : shapePass :=
  stops (says RuleShape whole (everyEntryMustHold reachedThrough [mappingValue])).

Fixpoint check (n : node) (j : job) : shapePass :=
  match n with
  | AnchorNode _ _ v | TagNode _ v => check v j
  | MappingNode _ values =>
      let entries := map (λ '(k, v), (k, check v)) values in
      match j with
      | AsMapping level _ reachedThrough => check_level level n values reachedThrough entries
      | AsValue spec => check_kind spec n (λ level, check_level level n values (spec_name spec) entries)
      end
  | SequenceNode _ _ elements =>
      match j with
      | AsMapping _ whole reachedThrough => refuse_shape whole reachedThrough
      | AsValue spec =>
          check_kind spec n (λ level, all_of (map (λ e, check e (AsMapping level e (spec_name spec))) elements))
      end
  | _ =>
      match j with
      | AsMapping _ whole reachedThrough => refuse_shape whole reachedThrough
      | AsValue spec => check_kind spec n (λ _, refuse_shape n (spec_name spec))
      end
  end.

Definition checkMapping (level : mappingLevel) (n : node) (reachedThrough : gostring) : shapePass :=
  check n (AsMapping level n reachedThrough).

Definition checkValue (spec : keySpec) (value : node) : shapePass := check value (AsValue spec).

(** [checkShape]: what is reported, and whether the tree can be decoded. *)
Definition checkShape (root : node) : Errors * bool :=
  match schemaLevels levelRoot with
  | Some level => let p := checkMapping level root [] in (shape_diags p, negb (undecodable p))
  | None => ([], true)
  end.
End shape.

(** ** A tree that cannot be decoded was reported *)

Definition accounted (p : shapePass) : Prop := undecodable p = true -> shape_diags p <> [].

Lemma and_then_accounted a b : accounted a -> accounted b -> accounted (and_then a b).
Proof.
  unfold accounted. cbn. intros Ha Hb [H|H]%orb_true_iff [Hna Hnb]%app_eq_nil; [by apply Ha|by apply Hb].
Qed.

Lemma all_of_accounted ps : Forall accounted ps -> accounted (all_of ps).
Proof. induction 1 as [|p ps Hp _ IH]; [done|]. by apply and_then_accounted. Qed.

Section accounting.
Context (src : source) (described : node -> gostring * gostring) (quote to_lower : gostring -> gostring)
        (token_value : node -> gostring).

Abbreviation checks := (check src described quote to_lower token_value).

Lemma says_accounted rule n why : accounted (says src rule n why).
Proof. done. Qed.

Lemma stops_accounted rule n why : accounted (stops (says src rule n why)).
Proof. done. Qed.

Lemma check_entry_accounted level reached k walk :
  (forall j, accounted (walk j)) -> accounted (checkEntry src quote token_value level reached (k, walk)).
Proof.
  intros Hw. unfold checkEntry. destruct (keyTextOf k); [|done]. destruct (freeForm level); [done|].
  destruct (level_key level _); [|done]. destruct (_ && _); [done|apply Hw].
Qed.

Lemma check_level_accounted level m values reached entries :
  Forall (λ e, forall j, accounted (e.2 j)) entries ->
  accounted (check_level src described quote to_lower token_value level m values reached entries).
Proof.
  intros He. unfold check_level. repeat apply and_then_accounted.
  - apply all_of_accounted, Forall_map, Forall_true. intros [at_ first]. done.
  - destruct (httpFieldNames level); [|done]. apply all_of_accounted, Forall_map, Forall_true. by intros [at_ first].
  - apply all_of_accounted, Forall_map. eapply Forall_impl; [exact He|]. intros [k walk]. apply check_entry_accounted.
  - unfold reportMissingRequiredKeys. destruct (negb _); [done|].
    apply all_of_accounted, Forall_map, Forall_true. by intros [path rule].
Qed.

Lemma check_kind_accounted spec held children :
  (forall level, accounted (children level)) -> accounted (check_kind src quote spec held children).
Proof.
  intros Hc. unfold check_kind. destruct (nodeKindOf held); [|done]. destruct (negb _); [done|].
  destruct (_ && _); [done|]. destruct (schemaLevels (child spec)); [apply Hc|done].
Qed.

Lemma check_accounted n : forall j, accounted (checks n j).
Proof.
  induction n as [m v|m t v|m|m|m es IH|m k vs IH|m a v IH|m v IH|m a|m|m v IH|m t] using node_induction;
    intros j; cbn [check]; try apply IH;
    try (by destruct j; [|apply check_kind_accounted]).
  - assert (Forall (λ e, forall j, accounted (e.2 j)) (map (λ '(k, v), (k, checks v)) es)) as He.
    { apply Forall_map. eapply Forall_impl; [exact IH|]. intros [k v] [_ Hv]. exact Hv. }
    destruct j; [by apply check_level_accounted|]. apply check_kind_accounted. intros level. by apply check_level_accounted.
  - destruct j; [done|]. apply check_kind_accounted. intros level. apply all_of_accounted, Forall_map.
    eapply Forall_impl; [exact IH|]. intros e He. apply He.
Qed.
End accounting.

(** ** The required keys need no more fuel *)

Definition rank (name : levelName) : nat :=
  match name with
  | noLevel => 0
  | levelRoot | levelListener => 3
  | levelDefaults | levelOperations | levelDestination => 2
  | _ => 1
  end.

(** A level whose keys are read in its parent's scope nests in it. *)
Lemma rank_decreases name level spec inner :
  schemaLevels name = Some level -> spec ∈ keys level -> schemaLevels (child spec) = Some inner -> scope inner = false ->
  (rank (child spec) < rank name)%nat.
Proof.
  intros Hl Hin Hi Hs.
  assert (forallb (λ name, forallb (λ spec, match schemaLevels (child spec) with
            | Some inner => scope inner || (rank (child spec) <? rank name)%nat
            | None => true end) (default [] (keys <$> schemaLevels name))) (noLevel :: all_levels) = true) as Hall by reflexivity.
  rewrite forallb_forall in Hall. specialize (Hall name). rewrite Hl in Hall. cbn [fmap option_fmap option_map default] in Hall.
  rewrite forallb_forall in Hall. specialize (Hall (ltac:(destruct name; cbn; tauto)) spec (proj1 (list_elem_of_In _ _) Hin)).
  rewrite Hi, Hs in Hall. cbn in Hall. by apply Nat.ltb_lt.
Qed.

Lemma required_enough n : forall k name level written prefix,
  schemaLevels name = Some level -> (rank name <= n)%nat -> (rank name <= k)%nat ->
  requiredKeysAbsentFrom n level written prefix = requiredKeysAbsentFrom k level written prefix.
Proof.
  induction n as [|n IH]; intros k name level written prefix Hl Hn Hk.
  { assert (rank name = 0%nat) as Hz by lia. by destruct name. }
  destruct k as [|k]; [assert (rank name = 0%nat) as Hz by lia; by destruct name|].
  cbn [requiredKeysAbsentFrom]. assert (forall spec, spec ∈ keys level -> forall inner, schemaLevels (child spec) = Some inner ->
    scope inner = false -> forall w p, requiredKeysAbsentFrom n inner w p = requiredKeysAbsentFrom k inner w p) as Hin.
  { intros spec Hin inner Hi Hs w p. pose proof (rank_decreases _ _ _ _ Hl Hin Hi Hs). apply (IH k (child spec)); [done|lia|lia]. }
  clear IH Hl. revert Hin. induction (keys level) as [|spec specs IHs]; intros Hin; [done|]. cbn [mbind list_bind].
  f_equal; [|apply IHs; intros s Hs; apply Hin; by right]. f_equal.
  destruct (schemaLevels (child spec)) as [inner|] eqn:Ei; [|done]. destruct (scope inner) eqn:Es; [done|].
  assert (forall w p, requiredKeysAbsentFrom n inner w p = requiredKeysAbsentFrom k inner w p) as H
    by (intros; apply (Hin spec); [by left|done..]).
  by repeat case_match.
Qed.

(** The fuel reads the whole table, below any level and for any document. *)
Lemma required_fuel name level written prefix n :
  schemaLevels name = Some level -> (level_depth <= n)%nat ->
  requiredKeysAbsentFrom n level written prefix = requiredKeysAbsentFrom level_depth level written prefix.
Proof.
  intros Hl Hn. assert (rank name <= 3)%nat by (destruct name; cbn; lia). unfold level_depth in *.
  apply (required_enough n _ name); [done|lia|lia].
Qed.

(** ** What a document without a shape diagnostic holds *)

Section clean_shape.
Context (src : source) (described : node -> gostring * gostring) (quote to_lower : gostring -> gostring)
        (token_value : node -> gostring).

Abbreviation checks := (check src described quote to_lower token_value).

(** Every key of the mapping is readable, declared (unless the level takes any) and legal where it
    stands, its value clean; no key is written twice; and what a scope requires is there. *)
Record clean_level (level : mappingLevel) (es : list (node * node)) (reached : gostring) : Prop := {
  level_keys : Forall (λ e, exists name, keyTextOf e.1 = Some name /\
    (freeForm level = true \/
     exists spec, level_key level name = Some spec /\ (legalUnder spec = [] \/ legalUnder spec = reached) /\
       shape_diags (checks e.2 (AsValue spec)) = [])) es;
  level_unique : NoDup (keyIdentitiesOf described es);
  level_complete : scope level = true -> requiredKeysAbsentFrom level_depth level (Some es) [] = []
}.

Lemma all_of_nil ps : shape_diags (all_of ps) = [] -> Forall (λ p, shape_diags p = []) ps.
Proof.
  induction ps as [|p ps IH]; [constructor|]. cbn. intros [H1 H2]%app_eq_nil. constructor; [done|by apply IH].
Qed.

Lemma repeats_from_nil naming ordered : forall first,
  repeats_from src naming first ordered = [] ->
  NoDup (omap (λ e, naming e.1) ordered) /\
  Forall (λ e, forall named, naming e.1 = Some named -> first !! named = None) ordered.
Proof.
  induction ordered as [|e ordered IH]; intros first; cbn [repeats_from]; [by repeat constructor|].
  destruct (naming e.1) as [named|] eqn:En.
  - destruct (first !! named) eqn:Ef; [done|]. intros (Hnd & Hf)%IH. rewrite Forall_forall in Hf. split.
    + cbn. rewrite En. constructor; [|done]. intros Hin. apply list_elem_of_omap in Hin as (e' & Hin & He').
      specialize (Hf e' Hin named He'). by rewrite lookup_insert_eq in Hf.
    + constructor; [congruence|]. apply Forall_forall. intros e' Hin n Hn. specialize (Hf e' Hin n Hn).
      rewrite lookup_insert in Hf. by case_decide.
  - intros (Hnd & Hf)%IH. split; [by cbn; rewrite En|constructor; [congruence|done]].
Qed.

Lemma map_says_nil {A} (f : A -> shapePass) l :
  (forall x, shape_diags (f x) <> []) -> shape_diags (all_of (map f l)) = [] -> l = [].
Proof. intros Hf. destruct l as [|x l]; [done|]. cbn. intros [H _]%app_eq_nil. by apply Hf in H. Qed.

Lemma check_level_clean level m es reached :
  shape_diags (check_level src described quote to_lower token_value level m es reached
                 (map (λ '(k, v), (k, checks v)) es)) = [] ->
  clean_level level es reached.
Proof.
  unfold check_level. cbn [and_then shape_diags]. intros [Hr [_ [Hk Hm]%app_eq_nil]%app_eq_nil]%app_eq_nil. split.
  - apply all_of_nil in Hk. rewrite !Forall_map in Hk. eapply Forall_impl; [exact Hk|]. intros [k v]. cbn.
    unfold checkEntry. destruct (keyTextOf k) as [name|]; [|done]. intros H. exists name. split; [done|].
    destruct (freeForm level); [by left|right]. destruct (level_key level name) as [spec|]; [|done].
    exists spec. split; [done|]. destruct (decide (legalUnder spec = [])) as [Hu|Hu].
    { rewrite Hu in *. split; [by left|done]. }
    rewrite (bool_decide_eq_false_2 _ Hu) in H. case_bool_decide as Hl; [|done]. split; [by right|done].
  - unfold refuseARepeatedName in Hr. apply map_says_nil in Hr; [|by intros [? ?]].
    unfold repeatsIn in Hr. apply repeats_from_nil in Hr as [Hnd _].
    assert (omap (λ e, oneKey described e.1) (entriesInWrittenOrder src es) = keyIdentitiesOf described (entriesInWrittenOrder src es)) as Ho.
    { induction (entriesInWrittenOrder src es) as [|e l IH]; [done|]. cbn. f_equal; done. }
    rewrite Ho in Hnd. unfold keyIdentitiesOf, entriesInWrittenOrder in *.
    by rewrite merge_sort_Permutation in Hnd.
  - intros Hs. unfold reportMissingRequiredKeys in Hm. rewrite Hs in Hm. cbn [negb] in Hm.
    apply map_says_nil in Hm; [done|by intros [? ?]].
Qed.

Lemma check_beneath n j : checks n j = checks (beneathNodeProperties n) j.
Proof.
  revert j. induction n as [m v|m t v|m|m|m es IH|m k vs IH|m a v IH|m v IH|m a|m|m v IH|m t] using node_induction;
    intros j; cbn [check beneathNodeProperties]; auto.
Qed.

Lemma checkMapping_clean level whole n reached :
  shape_diags (checks n (AsMapping level whole reached)) = [] ->
  exists m es, beneathNodeProperties n = MappingNode m es /\ clean_level level es reached.
Proof.
  rewrite check_beneath. assert (beneathNodeProperties (beneathNodeProperties n) = beneathNodeProperties n) as Hb.
  { induction n using node_induction; done. }
  destruct (beneathNodeProperties n) as [| | | |m es|m k vs|m a v|m v| | | |] eqn:E; try done.
  - intros H. exists m, es. split; [done|]. by apply check_level_clean in H.
  - exfalso. clear -E. induction n using node_induction; try done; auto.
  - exfalso. clear -E. induction n using node_induction; try done; auto.
Qed.

Lemma checkValue_clean spec v :
  shape_diags (checks v (AsValue spec)) = [] ->
  (exists kind, nodeKindOf (beneathNodeProperties v) = Some kind /\ kind ∈ kinds spec) /\
  (emptiness spec <> noRule -> holdsNothing (beneathNodeProperties v) = false) /\
  forall level, schemaLevels (child spec) = Some level ->
    match beneathNodeProperties v with
    | MappingNode _ es => clean_level level es (spec_name spec)
    | SequenceNode _ _ vs => Forall (λ e, shape_diags (checks e (AsMapping level e (spec_name spec))) = []) vs
    | _ => True
    end.
Proof.
  rewrite check_beneath. assert (forall P held, (forall level, schemaLevels (child spec) = Some level ->
      shape_diags (P level) = [] -> match held with
        | MappingNode _ es => clean_level level es (spec_name spec)
        | SequenceNode _ _ vs => Forall (λ e, shape_diags (checks e (AsMapping level e (spec_name spec))) = []) vs
        | _ => True end) ->
    shape_diags (check_kind src quote spec held P) = [] ->
    (exists kind, nodeKindOf held = Some kind /\ kind ∈ kinds spec) /\
    (emptiness spec <> noRule -> holdsNothing held = false) /\
    forall level, schemaLevels (child spec) = Some level -> match held with
        | MappingNode _ es => clean_level level es (spec_name spec)
        | SequenceNode _ _ vs => Forall (λ e, shape_diags (checks e (AsMapping level e (spec_name spec))) = []) vs
        | _ => True end) as Hkind.
  { intros P held HP. unfold check_kind. destruct (nodeKindOf held) as [kind|]; [|done].
    destruct (decide (kind ∈ kinds spec)) as [Hin|Hin];
      [rewrite (bool_decide_eq_true_2 _ Hin)|by rewrite (bool_decide_eq_false_2 _ Hin)]. cbn [negb].
    destruct (negb _ && _) eqn:Ee; [done|]. intros H. split_and!; [by eexists| |].
    - intros Hne. rewrite (bool_decide_eq_false_2 _ Hne) in Ee. by destruct (holdsNothing held).
    - intros level Hl. rewrite Hl in H. by apply HP. }
  destruct (beneathNodeProperties v) as [| | | |m es|m k vs|m a w|m w| | | |] eqn:E; try (apply Hkind; by intros).
  - apply Hkind. intros level _ H. by apply check_level_clean in H.
  - apply Hkind. intros level _ H. apply all_of_nil in H. by rewrite Forall_map in H.
  - exfalso. clear -E. induction v using node_induction; try done; auto.
  - exfalso. clear -E. induction v using node_induction; try done; auto.
Qed.
End clean_shape.
