(* ===== verification/Fallback.v ===== *)
(** * Redaction of a document that does not parse: [internal/config/sensitivekeys.go],
    [sensitivekeyforms.go], [sensitivequote.go], [leadingkey.go], [unreadablekey.go],
    [uncoveredline.go] and [fallbackstate.go].

    The key-scoped branch of redaction walks the raw lines and decides, line by line, what is shown.
    An index that a scan of the source moves by hand is the text that remains, with the byte before it
    where a comment is looked for; a scan that steps over an escaped byte is told to [skip] it. *)

From S2P Require Import Prelude Utf8 Source Policy Schema.

Local Open Scope Z_scope.

(** ** sensitivequote.go *)

Definition SQUOTE : ascii := "'"%char.
Definition DQUOTE : ascii := ascii_of_nat 34.
Definition is_quote (c : ascii) : bool := bool_decide (c = SQUOTE) || bool_decide (c = DQUOTE).

Record sensitiveContinuation := { quote_ : option ascii; sequences : nat; mappings : nat; taintedClose : bool }.

Definition noSensitiveContinuation : sensitiveContinuation :=
  {| quote_ := None; sequences := 0; mappings := 0; taintedClose := false |}.

Definition open (s : sensitiveContinuation) : bool :=
  bool_decide (quote_ s <> None) || negb (sequences s =? 0)%nat || negb (mappings s =? 0)%nat || taintedClose s.

Definition with_quote (q : option ascii) (s : sensitiveContinuation) : sensitiveContinuation :=
  {| quote_ := q; sequences := sequences s; mappings := mappings s; taintedClose := taintedClose s |}.
Definition with_flow (sequences mappings : nat) (s : sensitiveContinuation) : sensitiveContinuation :=
  {| quote_ := quote_ s; sequences := sequences; mappings := mappings; taintedClose := taintedClose s |}.
Definition with_taint (tainted : bool) (s : sensitiveContinuation) : sensitiveContinuation :=
  {| quote_ := quote_ s; sequences := sequences s; mappings := mappings s; taintedClose := tainted |}.

Fixpoint trusted_suffix (separated : bool) (suffix : gostring) : bool :=
  match suffix with
  | [] => true
  | c :: rest =>
      if bool_decide (c ∈ indentCharacters) then trusted_suffix true rest
      else if bool_decide (c ∈ [CR; LF]) then true
      else if bool_decide (c = "#"%char) then separated
      else false
  end.
Definition trustedFlowCloseSuffix : gostring -> bool := trusted_suffix false.

(** The quote still open after the first byte of [text], and whether the byte after it is part of an
    escape. *)
Definition insideQuotedScalar (text : gostring) (quote : ascii) : option ascii * bool :=
  match text with
  | [] => (Some quote, false)
  | char :: rest =>
      if bool_decide (quote = DQUOTE /\ char = "\"%char) then (Some quote, true)
      else if bool_decide (char <> quote) then (Some quote, false)
      else if bool_decide (quote = SQUOTE /\ head rest = Some SQUOTE) then (Some quote, true)
      else (None, false)
  end.

Definition beginsYAMLComment (before : option ascii) (char : ascii) : bool :=
  bool_decide (char = "#"%char) &&
  match before with None => true | Some b => bool_decide (b ∈ indentCharacters) end.

(** The switch of [afterFrom]. *)
Definition delimited (s : sensitiveContinuation) (char : ascii) : sensitiveContinuation :=
  if is_quote char then with_quote (Some char) s
  else if bool_decide (char = "["%char) then with_flow (S (sequences s)) (mappings s) s
  else if bool_decide (char = "]"%char) then with_flow (pred (sequences s)) (mappings s) s
  else if bool_decide (char = "{"%char) then with_flow (sequences s) (S (mappings s)) s
  else if bool_decide (char = "}"%char) then with_flow (sequences s) (pred (mappings s)) s
  else s.

Fixpoint after_loop (flowWasOpen skip : bool) (before : option ascii) (s : sensitiveContinuation) (text : gostring) :
    sensitiveContinuation :=
  match text with
  | [] => s
  | char :: rest =>
      if skip then after_loop flowWasOpen false (Some char) s rest
      else match quote_ s with
           | Some q =>
               let '(still, escaped) := insideQuotedScalar text q in
               after_loop flowWasOpen escaped (Some char) (with_quote still s) rest
           | None =>
               if beginsYAMLComment before char then s
               else let s := delimited s char in
                    if flowWasOpen && (sequences s =? 0)%nat && (mappings s =? 0)%nat
                    then with_taint (negb (trustedFlowCloseSuffix rest)) s
                    else after_loop flowWasOpen false (Some char) s rest
           end
  end.

Definition before_ (line : gostring) (start : nat) : option ascii :=
  match start with O => None | S k => line !! k end.

Definition afterFrom (s : sensitiveContinuation) (line : gostring) (start : nat) : sensitiveContinuation :=
  if taintedClose s then with_taint false s
  else after_loop (negb (sequences s =? 0)%nat || negb (mappings s =? 0)%nat) false (before_ line start) s (drop start line).

Definition after (s : sensitiveContinuation) (line : gostring) : sensitiveContinuation := afterFrom s line 0.

Definition sensitiveContinuationAfter (line : gostring) (at_ : nat) : sensitiveContinuation :=
  afterFrom noSensitiveContinuation line at_.

(** ** sensitivekeyforms.go *)

(** The leaf name of every key the table of [Schema.v] declares sensitive. *)
Definition declaredSensitiveKeyNames : list gostring :=
  Compact (merge_sort go_le (all_levels ≫= λ name,
    match schemaLevels name with
    | None => []
    | Some level => map spec_name (List.filter sensitive_key (keys level))
    end)).

Definition sensitiveKeyNames : list gostring := Eval vm_compute in declaredSensitiveKeyNames.

(** [(?:^|[\s{\[,-])]. *)
Definition keyBoundary : gostring := [" "%char; TAB; LF; ascii_of_nat 12; CR; "{"%char; "["%char; ","%char; "-"%char].

Definition past_quote (text : gostring) : gostring :=
  match text with c :: rest => if is_quote c then rest else text | [] => [] end.

(** What a match of [['"]?name['"]?[ \t]*:] at the start of [text] leaves after it. A name opens with no
    quote, so neither optional quote is ever given back. *)
Definition key_form (name text : gostring) : option gostring :=
  let text := past_quote text in
  if has_prefix text name then
    match TrimLeft (past_quote (drop (length name) text)) indentCharacters with
    | c :: rest => if bool_decide (c = ":"%char) then Some rest else None
    | [] => None
    end
  else None.

(** What the leftmost match leaves: the expression's [^] holds only at the line's start. *)
Fixpoint key_form_from (name text : gostring) : option gostring :=
  match text with
  | [] => None
  | c :: rest =>
      match (if bool_decide (c ∈ keyBoundary) then key_form name rest else None) with
      | Some left_ => Some left_
      | None => key_form_from name rest
      end
  end.

Definition key_form_end (name line : gostring) : option nat :=
  (λ left_, (length line - length left_)%nat) <$>
    match key_form name line with Some left_ => Some left_ | None => key_form_from name line end.

Definition namesASensitiveKey (name : gostring) : bool := bool_decide (name ∈ sensitiveKeyNames).

Definition earliest (end_ : option nat) (past : option nat) : option nat :=
  match past, end_ with
  | None, _ => end_
  | Some past, Some end_ => Some (if (past <? end_)%nat then past else end_)
  | Some past, None => Some past
  end.

Definition earliestSensitiveKeyEnd (line : gostring) : option nat :=
  foldl (λ end_ name, earliest end_ (key_form_end name line)) None sensitiveKeyNames.

Definition blankValueAfter (line : gostring) (at_ : nat) : gostring :=
  if bool_decide (TrimSpace (drop at_ line) = []) then line
  else take at_ line ++ bs " " ++ redactionPlaceholder.

(** ** leadingkey.go *)

Inductive leadingToken := aKeyThisFileCanRead | aKeyThisFileCannotRead | noKeyAtAll.
#[export] Instance leadingToken_eq_dec : EqDecision leadingToken.
Proof. solve_decision. Defined.

Definition whitespaceOrEndFollows (text : gostring) : bool :=
  match text with [] => true | c :: _ => bool_decide (c ∈ indentCharacters) end.

Definition opensAnItem (text : gostring) : bool :=
  has_prefix text sequenceItemMarker && whitespaceOrEndFollows (drop (length sequenceItemMarker) text).

(** The loop of [sequenceMarkerWidth]: each marker is a byte at least, so the text's length is enough
    fuel. *)
Fixpoint marker_width (fuel : nat) (content : gostring) : nat :=
  match fuel with
  | O => 0
  | S fuel =>
      if opensAnItem content then
        let past := drop (length sequenceItemMarker) content in
        let width := (length sequenceItemMarker + Z.to_nat (indentWidth past))%nat in
        (width + marker_width fuel (drop width content))%nat
      else 0%nat
  end.
Definition sequenceMarkerWidth (content : gostring) : nat := marker_width (length content) content.

Definition plainScalarEnders : gostring := bs ",[]{}#".

Fixpoint opens_plain (at_zero : bool) (scalar : gostring) : bool :=
  match scalar with
  | [] => false
  | c :: rest =>
      if bool_decide (c ∈ plainScalarEnders) then false
      else if bool_decide (c = ":"%char) && whitespaceOrEndFollows rest then negb at_zero
      else opens_plain false rest
  end.
Definition opensWithAPlainKey : gostring -> bool := opens_plain true.

Definition opensWithAColon (after : gostring) : bool := has_prefix (TrimLeft after indentCharacters) (bs ":").

Definition quotedLeadingToken (scalar : gostring) : leadingToken :=
  let quote := take 1 scalar in
  let body := drop 1 scalar in
  match index_of quote body with
  | None => noKeyAtAll
  | Some end_ =>
      if bool_decide ("\"%char ∈ take end_ body) || has_prefix (drop (end_ + 1) body) quote then aKeyThisFileCannotRead
      else if opensWithAColon (drop (end_ + 1) body) then aKeyThisFileCanRead
      else noKeyAtAll
  end.

(** ** unreadablekey.go *)

Definition unreadableKeyIndicators : gostring := bs "*&!?".

(** [strings.LastIndexAny] for a set of ASCII characters. *)
Definition LastIndexAny (s chars : gostring) : option nat :=
  (λ found, (length s - 1 - found.1)%nat) <$> list_find (λ c, c ∈ chars) (rev s).

Definition opensPlainURI (text : gostring) (colon : nat) : bool :=
  has_prefix (drop colon text) (bs "://") &&
  match LastIndexAny (take colon text) indentCharacters with
  | Some boundary => (boundary + 1 <? colon)%nat
  | None => false
  end.

(** The state of the scan of a key that begins with an indicator. *)
Record keyScan := { ks_quote : option ascii; plainURI : bool; verbatimTag : bool; ks_sequences : Z; ks_mappings : Z }.

Definition quoted_by (q : option ascii) (s : keyScan) : keyScan :=
  {| ks_quote := q; plainURI := plainURI s; verbatimTag := verbatimTag s; ks_sequences := ks_sequences s; ks_mappings := ks_mappings s |}.
Definition in_uri (uri : bool) (s : keyScan) : keyScan :=
  {| ks_quote := ks_quote s; plainURI := uri; verbatimTag := verbatimTag s; ks_sequences := ks_sequences s; ks_mappings := ks_mappings s |}.
Definition in_tag (tag : bool) (s : keyScan) : keyScan :=
  {| ks_quote := ks_quote s; plainURI := plainURI s; verbatimTag := tag; ks_sequences := ks_sequences s; ks_mappings := ks_mappings s |}.
Definition in_flow (sequences mappings : Z) (s : keyScan) : keyScan :=
  {| ks_quote := ks_quote s; plainURI := plainURI s; verbatimTag := verbatimTag s; ks_sequences := sequences; ks_mappings := mappings |}.

Fixpoint indicator_scan (text : gostring) (at_ : nat) (skip : bool) (s : keyScan) (rest : gostring) : bool :=
  match rest with
  | [] => false
  | char :: tail =>
      if skip then indicator_scan text (S at_) false s tail
      else match ks_quote s with
           | Some q =>
               let '(still, escaped) := insideQuotedScalar rest q in
               indicator_scan text (S at_) escaped (quoted_by still s) tail
           | None =>
               if verbatimTag s then indicator_scan text (S at_) false (in_tag (bool_decide (char <> ">"%char)) s) tail
               else if plainURI s && bool_decide (char ∉ indentCharacters) then indicator_scan text (S at_) false s tail
               else let s := in_uri false s in
                    if beginsYAMLComment (before_ text at_) char then false
                    else if is_quote char then indicator_scan text (S at_) false (quoted_by (Some char) s) tail
                    else if bool_decide (char = "<"%char) then
                      indicator_scan text (S at_) false (in_tag ((at_ =? 1)%nat && bool_decide (head text = Some "!"%char)) s) tail
                    else if bool_decide (char = "["%char) then indicator_scan text (S at_) false (in_flow (ks_sequences s + 1) (ks_mappings s) s) tail
                    else if bool_decide (char = "]"%char) then indicator_scan text (S at_) false (in_flow (ks_sequences s - 1) (ks_mappings s) s) tail
                    else if bool_decide (char = "{"%char) then indicator_scan text (S at_) false (in_flow (ks_sequences s) (ks_mappings s + 1) s) tail
                    else if bool_decide (char = "}"%char) then indicator_scan text (S at_) false (in_flow (ks_sequences s) (ks_mappings s - 1) s) tail
                    else if bool_decide (char = ":"%char) then
                      if negb (ks_sequences s =? 0) || negb (ks_mappings s =? 0) then indicator_scan text (S at_) false s tail
                      else if opensPlainURI text at_ then indicator_scan text (S at_) false (in_uri true s) tail
                      else true
                    else indicator_scan text (S at_) false s tail
           end
  end.

Definition beginsWithUnreadableKeyIndicator (text : gostring) : bool :=
  match text with
  | [] => false
  | c :: rest =>
      bool_decide (c ∈ unreadableKeyIndicators) &&
      indicator_scan text 1 false {| ks_quote := None; plainURI := false; verbatimTag := false; ks_sequences := 0; ks_mappings := 0 |} rest
  end.

Definition leadingTokenOf (content : gostring) : leadingToken :=
  let scalar := drop (sequenceMarkerWidth content) content in
  if has_prefix scalar [DQUOTE] || has_prefix scalar [SQUOTE] then quotedLeadingToken scalar
  else if beginsWithUnreadableKeyIndicator scalar then aKeyThisFileCannotRead
  else if opensWithAPlainKey scalar then aKeyThisFileCanRead
  else noKeyAtAll.

Definition beginsWithUnreadableQuotedKey (text : gostring) : bool :=
  match text with
  | [] => false
  | c :: _ => is_quote c && bool_decide (quotedLeadingToken text = aKeyThisFileCannotRead)
  end.

Definition opensAnUnreadableKey (text : gostring) : bool :=
  beginsWithUnreadableKeyIndicator text || beginsWithUnreadableQuotedKey text ||
  has_prefix text (bs "[") || has_prefix text (bs "{").

Record flowKeyContext := { kind : ascii; expectsKey : bool; atKeyStart : bool }.

Definition awaits_key (contexts : list flowKeyContext) : bool :=
  match contexts with top :: _ => bool_decide (kind top = "{"%char) && expectsKey top | [] => false end.
Definition on_top (f : flowKeyContext -> flowKeyContext) (contexts : list flowKeyContext) : list flowKeyContext :=
  match contexts with top :: below => f top :: below | [] => [] end.
Definition past_key_start (c : flowKeyContext) : flowKeyContext := {| kind := kind c; expectsKey := expectsKey c; atKeyStart := false |}.
Definition key_read (c : flowKeyContext) : flowKeyContext := {| kind := kind c; expectsKey := false; atKeyStart := atKeyStart c |}.
Definition next_key (c : flowKeyContext) : flowKeyContext :=
  if bool_decide (kind c = "{"%char) then {| kind := kind c; expectsKey := true; atKeyStart := true |} else c.

(** The contexts of the scan are a stack, its top first. *)
Fixpoint flow_scan (skip : bool) (before : option ascii) (quote : option ascii) (contexts : list flowKeyContext) (line : gostring) : bool :=
  match line with
  | [] => false
  | char :: rest =>
      if skip then flow_scan false (Some char) quote contexts rest
      else match quote with
           | Some q =>
               let '(still, escaped) := insideQuotedScalar line q in flow_scan escaped (Some char) still contexts rest
           | None =>
               if beginsYAMLComment before char then false
               else if awaits_key contexts && bool_decide (char ∈ indentCharacters) then flow_scan false (Some char) None contexts rest
               else if awaits_key contexts && from_option atKeyStart false (head contexts) && opensAnUnreadableKey line then true
               else
                 let contexts := if awaits_key contexts then on_top past_key_start contexts else contexts in
                 if is_quote char then flow_scan false (Some char) (Some char) contexts rest
                 else if bool_decide (char = "{"%char) then
                   flow_scan false (Some char) None ({| kind := char; expectsKey := true; atKeyStart := true |} :: contexts) rest
                 else if bool_decide (char = "["%char) then
                   flow_scan false (Some char) None ({| kind := char; expectsKey := false; atKeyStart := false |} :: contexts) rest
                 else if bool_decide (char = "}"%char \/ char = "]"%char) then flow_scan false (Some char) None (tail contexts) rest
                 else if bool_decide (char = ":"%char) then
                   flow_scan false (Some char) None (if awaits_key contexts then on_top key_read contexts else contexts) rest
                 else if bool_decide (char = ","%char) then flow_scan false (Some char) None (on_top next_key contexts) rest
                 else flow_scan false (Some char) None contexts rest
           end
  end.

Definition containsUnreadableFlowKey : gostring -> bool := flow_scan false None None [].

(** ** sensitivekeyforms.go: what governs a line *)

Inductive keyGovernance := noSensitiveKeyGoverns | theValueOnThisLine | thisLineAndTheBlockBelow.

Definition explicitKeyValueIndicator : gostring := bs ":".

Definition opensAnExplicitKeysValue (content : gostring) : bool :=
  has_prefix (drop (sequenceMarkerWidth content) content) explicitKeyValueIndicator.

Definition governanceOf (line content : gostring) : nat * keyGovernance :=
  if opensAnExplicitKeysValue content then ((length line - length content)%nat, thisLineAndTheBlockBelow)
  else match earliestSensitiveKeyEnd line with
       | Some at_ => (at_, theValueOnThisLine)
       | None => (0%nat, noSensitiveKeyGoverns)
       end.

(** ** fallbackstate.go, uncoveredline.go and sensitivekeys.go *)

Definition outsideSensitiveBlock : Z := -1.

Record fallbackLineState := { blockIndent : Z; continuation : sensitiveContinuation }.

Definition blanked (state : fallbackLineState) (line : gostring) : fallbackLineState :=
  {| blockIndent := blockIndent state; continuation := after (continuation state) line |}.

Definition keptVerbatim (token : leadingToken) (blockIndent : Z) : bool :=
  match token with
  | aKeyThisFileCanRead => true
  | noKeyAtAll => blockIndent =? outsideSensitiveBlock
  | aKeyThisFileCannotRead => false
  end.

Definition redactedOutsideAnyBlock (line content : gostring) (indent blockIndent_ : Z) : gostring * Z * sensitiveContinuation :=
  match governanceOf line content with
  | (at_, theValueOnThisLine) => (blankValueAfter line at_, indent, sensitiveContinuationAfter line at_)
  | (at_, thisLineAndTheBlockBelow) => (blankPastIndentation line, indent, sensitiveContinuationAfter line at_)
  | (_, noSensitiveKeyGoverns) =>
      let token := leadingTokenOf content in
      if bool_decide (token = aKeyThisFileCannotRead) || containsUnreadableFlowKey line then
        (blankPastIndentation line, indent, sensitiveContinuationAfter line 0)
      else if keptVerbatim token blockIndent_ then (line, outsideSensitiveBlock, noSensitiveContinuation)
      else (blankPastIndentation line, blockIndent_, sensitiveContinuationAfter line 0)
  end.

Definition coveredByBlockOpenedAt (indent : Z) (content : gostring) (blockIndent_ : Z) : bool :=
  if (blockIndent_ =? outsideSensitiveBlock) || holdsNoBytesToHide content then false
  else if (blockIndent_ <? indent) || looksLikeAComment content then true
  else (indent =? blockIndent_) && has_prefix content sequenceItemMarker.

Definition redactedFallbackLine (line : gostring) (continuesAbove : bool) (state : fallbackLineState) : gostring * fallbackLineState :=
  let '(content, indent) := pastIndentation line in
  if open (continuation state) then (blankPastIndentation line, blanked state line)
  else if continuesAbove && negb (holdsNoBytesToHide content) then (blankPastIndentation line, blanked state line)
  else if coveredByBlockOpenedAt indent content (blockIndent state) then (blankPastIndentation line, blanked state line)
  else if closesNoBlock content then
    (line, {| blockIndent := blockIndent state; continuation := noSensitiveContinuation |})
  else
    let '(rewritten, opened, continued) := redactedOutsideAnyBlock line content indent (blockIndent state) in
    (rewritten, {| blockIndent := opened; continuation := continued |}).

Definition at_the_start : fallbackLineState :=
  {| blockIndent := outsideSensitiveBlock; continuation := noSensitiveContinuation |}.

(** The walk from the line of 0-based index [number]: the lines it answers and the state it ends in. *)
Fixpoint fallback_walk (marks : list bool) (number : nat) (state : fallbackLineState) (lines : list gostring) :
    list gostring * fallbackLineState :=
  match lines with
  | [] => ([], state)
  | line :: rest =>
      let '(rewritten, state) := redactedFallbackLine line (continuesTheLineAbove marks (Z.of_nat number + 1)) state in
      let '(redacted, state) := fallback_walk marks (S number) state rest in
      (rewritten :: redacted, state)
  end.

Definition redactBySensitiveKeyName (lines : list gostring) (continuesPhysicalLine : list bool) : list gostring :=
  (fallback_walk continuesPhysicalLine 0 at_the_start lines).1.

(** What a document that does not parse shows. *)
Definition unparsed_lines (data : gostring) : list gostring :=
  redactBySensitiveKeyName (splitLines data) (carriageReturnSplits data).

(** ** Where a sensitive name is spelled with its colon *)

Definition opt_quote (q : gostring) : Prop := q = [] \/ exists c, q = [c] /\ is_quote c = true.

Definition spelled_here (name text left_ : gostring) : Prop :=
  exists q1 q2 ws, text = q1 ++ name ++ q2 ++ ws ++ ":"%char :: left_ /\
    opt_quote q1 /\ opt_quote q2 /\ Forall (λ c, c ∈ indentCharacters) ws.

(** [name], quoted or not, behind the line's start or a boundary, and its colon: [at_] is just past it. *)
Definition spelled (name line : gostring) (at_ : nat) : Prop :=
  exists pre text left_, line = pre ++ text /\ spelled_here name text left_ /\
    (pre = [] \/ exists pre' b, pre = pre' ++ [b] /\ b ∈ keyBoundary) /\
    at_ = (length line - length left_)%nat.

Definition readable_name (name : gostring) : Prop :=
  ":"%char ∉ name /\ exists c rest, name = c :: rest /\ is_quote c = false.

Definition readable_nameb (name : gostring) : bool :=
  negb (contains_byte ":" name) && match name with c :: _ => negb (is_quote c) | [] => false end.

Lemma sensitive_names_readable name : name ∈ sensitiveKeyNames -> readable_name name.
Proof.
  assert (H : forallb readable_nameb sensitiveKeyNames = true) by (vm_compute; done).
  intros Hn%list_elem_of_In. pose proof (proj1 (forallb_forall _ _) H _ Hn) as Hr.
  unfold readable_nameb in Hr. apply andb_true_iff in Hr as [Hc Hq]. split.
  - apply negb_true_iff in Hc. unfold contains_byte in Hc. by apply bool_decide_eq_false_1 in Hc.
  - destruct name as [|c rest]; [done|]. apply negb_true_iff in Hq. eauto.
Qed.

Lemma past_quote_spec text : exists q, text = q ++ past_quote text /\ opt_quote q.
Proof.
  destruct text as [|c rest]; [by exists []; split; [|left]|]. cbn [past_quote]. destruct (is_quote c) eqn:Hc.
  - exists [c]. split; [done|]. right. eauto.
  - exists []. by split; [|left].
Qed.

Lemma past_quote_app q text : opt_quote q -> (forall c rest, text = c :: rest -> is_quote c = false) -> past_quote (q ++ text) = text.
Proof.
  intros [->|(c & -> & Hc)] Ht; cbn [app past_quote]; [|by rewrite Hc].
  destruct text as [|c rest]; [done|]. cbn [past_quote]. by rewrite (Ht c rest eq_refl).
Qed.

Lemma TrimLeft_app ws text : Forall (λ c, c ∈ indentCharacters) ws -> TrimLeft (ws ++ text) indentCharacters = TrimLeft text indentCharacters.
Proof. induction 1 as [|c ws Hc _ IH]; [done|]. cbn [app TrimLeft]. unfold contains_byte. by rewrite bool_decide_eq_true_2. Qed.

Lemma indent_not_quote c : c ∈ indentCharacters -> is_quote c = false.
Proof. intros Hc. unfold indentCharacters in Hc. by set_unfold in Hc; destruct Hc as [-> |[-> |[]]]. Qed.

(** The matcher is the expression. *)
Lemma key_form_iff name text left_ : readable_name name -> key_form name text = Some left_ <-> spelled_here name text left_.
Proof.
  intros (_ & c & rest & -> & Hc). unfold key_form. split.
  - destruct (past_quote_spec text) as (q1 & Ht & Hq1). destruct (has_prefix _ _) eqn:Hp; [|done].
    apply has_prefix_spec in Hp as [after Hp]. rewrite Hp in *. rewrite drop_app_length.
    destruct (past_quote_spec after) as (q2 & Ha & Hq2). rewrite (indentation_content (past_quote after)) in Ha.
    destruct (TrimLeft (past_quote after) _) as [|d left'] eqn:Hl; [done|]. case_bool_decide as Hd; [|done].
    intros [= ->]. exists q1, q2, (indentation (past_quote after)). subst d.
    split_and!; [|done|done|apply indentation_bytes]. rewrite Ht at 1. by do 2 f_equal.
  - intros (q1 & q2 & ws & -> & Hq1 & Hq2 & Hws).
    rewrite past_quote_app; [|done|by intros d l [= -> _]]. rewrite has_prefix_app, drop_app_length.
    rewrite past_quote_app; [|done|].
    + rewrite TrimLeft_app by done. cbn [TrimLeft]. done.
    + intros d l. destruct Hws as [|e ws He _]; intros [= <- _]; [done|]. by apply indent_not_quote.
Qed.

Lemma spelled_here_colon name text left_ : readable_name name -> spelled_here name text left_ ->
  exists m, text = m ++ ":"%char :: left_ /\ ":"%char ∉ m.
Proof.
  intros [Hn _] (q1 & q2 & ws & -> & Hq1 & Hq2 & Hws). exists (q1 ++ name ++ q2 ++ ws). split; [by rewrite <- !app_assoc|].
  assert (Hq : forall q, opt_quote q -> ":"%char ∉ q).
  { intros q [->|(c & -> & Hc)]; [by apply not_elem_of_nil|]. intros <-%list_elem_of_singleton. by vm_compute in Hc. }
  rewrite !elem_of_app. intros [H|[H|[H|H]]]; [by eapply (Hq q1)|done|by eapply (Hq q2)|].
  apply (proj1 (Forall_forall _ _) Hws) in H. unfold indentCharacters in H. by set_unfold in H; destruct H as [|[|[]]].
Qed.

Lemma first_stop (c : ascii) a l a' l' : a ++ c :: l = a' ++ c :: l' -> c ∉ a -> (length l' <= length l)%nat.
Proof.
  revert a'. induction a as [|x a IH]; intros a' He Ha.
  - apply (f_equal length) in He. rewrite !length_app in He. cbn [length] in He. lia.
  - apply not_elem_of_cons in Ha as [Hx Ha]. destruct a' as [|y a']; cbn [app] in He; injection He as -> He; [done|]. eauto.
Qed.

Lemma later_stop (c : ascii) a l a' l' pre : c ∉ a -> a ++ c :: l = pre ++ a' ++ c :: l' -> (length l' <= length l)%nat.
Proof. intros Ha He. rewrite app_assoc in He. by eapply first_stop. Qed.

Lemma key_form_from_earliest name text : readable_name name ->
  match key_form_from name text with
  | Some left_ =>
      (exists pre b rest, text = pre ++ b :: rest /\ b ∈ keyBoundary /\ spelled_here name rest left_) /\
      (forall pre b rest left', text = pre ++ b :: rest -> b ∈ keyBoundary -> spelled_here name rest left' ->
        (length left' <= length left_)%nat)
  | None => forall pre b rest left', text = pre ++ b :: rest -> b ∈ keyBoundary -> ~ spelled_here name rest left'
  end.
Proof.
  intros Hn. induction text as [|c text IH]; cbn [key_form_from]; [by intros []|].
  destruct (if bool_decide (c ∈ keyBoundary) then _ else _) as [left_|] eqn:Hc.
  - case_bool_decide as Hb; [|done]. apply key_form_iff in Hc; [|done]. split; [by exists [], c, text|].
    intros pre b rest left' Ht _ Hs'. apply spelled_here_colon in Hc as (m & Hm & Hcolon); [|done].
    apply spelled_here_colon in Hs' as (m' & -> & _); [|done].
    destruct pre as [|x pre]; injection Ht as -> Ht.
    + rewrite Hm in Ht. by eapply first_stop.
    + rewrite Hm in Ht. eapply (later_stop _ m left_ m' left' (pre ++ [b])); [done|].
      rewrite Ht. by rewrite <- app_assoc.
  - assert (Hmiss : c ∈ keyBoundary -> forall left', ~ spelled_here name text left').
    { intros Hb left' Hs%key_form_iff; [|done]. rewrite bool_decide_eq_true_2 in Hc by done. congruence. }
    destruct (key_form_from name text) as [left_|].
    + destruct IH as [(pre & b & rest & -> & Hb & Hs) Hmin]. split; [by exists (c :: pre), b, rest|].
      intros pre' b' rest' left' Ht Hb' Hs'. destruct pre' as [|x pre']; injection Ht as -> Ht; [|by eauto].
      subst rest'. by destruct (Hmiss Hb' left').
    + intros pre b rest left' Ht Hb Hs. destruct pre as [|x pre]; injection Ht as -> Ht; [|by eapply IH].
      subst rest. by eapply Hmiss.
Qed.

Lemma spelled_split name pre text left_ (line : gostring) : line = pre ++ text -> spelled_here name text left_ ->
  (length left_ < length line)%nat.
Proof. intros -> (q1 & q2 & ws & -> & _). rewrite !length_app. cbn [length]. lia. Qed.

Lemma key_form_end_spec name line : readable_name name ->
  match key_form_end name line with
  | Some at_ => spelled name line at_ /\ forall at', spelled name line at' -> (at_ <= at')%nat
  | None => forall at', ~ spelled name line at'
  end.
Proof.
  intros Hn. unfold key_form_end. pose proof (key_form_from_earliest name line Hn) as Hfrom.
  destruct (key_form name line) as [left_|] eqn:Hk; cbn [fmap option_fmap option_map].
  - apply key_form_iff in Hk; [|done]. split; [exists [], line, left_; split_and!; [done|done|by left|done]|].
    intros at' (pre & text & left' & Hl & Hs' & _ & ->).
    destruct (spelled_here_colon _ _ _ Hn Hk) as (m & Hm & Hc). destruct (spelled_here_colon _ _ _ Hn Hs') as (m' & -> & _).
    pose proof (later_stop ":" m left_ m' left' pre Hc) as H. rewrite <- Hm in H. specialize (H Hl). lia.
  - assert (Hzero : forall left', ~ spelled_here name line left').
    { intros left' Hs%key_form_iff; [|done]. congruence. }
    destruct (key_form_from name line) as [left_|]; cbn [fmap option_fmap option_map].
    + destruct Hfrom as [(pre & b & rest & Hl & Hb & Hs) Hmin]. split.
      * exists (pre ++ [b]), rest, left_. rewrite <- app_assoc. split_and!; [done|done|right; by exists pre, b|done].
      * intros at' (pre' & text & left' & Hl' & Hs' & [->|(p & b' & -> & Hb')] & ->).
        -- cbn [app] in Hl'. subst text. by destruct (Hzero left').
        -- rewrite <- app_assoc in Hl'. specialize (Hmin _ _ _ _ Hl' Hb' Hs'). lia.
    + intros at' (pre' & text & left' & Hl' & Hs' & [->|(p & b' & -> & Hb')] & ->).
      * cbn [app] in Hl'. subst text. by destruct (Hzero left').
      * rewrite <- app_assoc in Hl'. by eapply Hfrom.
Qed.

Lemma fold_earliest {A} (f : A -> option nat) l e :
  match foldl (λ end_ x, earliest end_ (f x)) e l with
  | Some at_ => (e = Some at_ \/ exists x, x ∈ l /\ f x = Some at_) /\
                (forall x, e = Some x -> (at_ <= x)%nat) /\ (forall x y, x ∈ l -> f x = Some y -> (at_ <= y)%nat)
  | None => e = None /\ forall x, x ∈ l -> f x = None
  end.
Proof.
  revert e. induction l as [|x l IH]; intros e; cbn [foldl].
  - destruct e as [at_|]; [|by split; [|intros x ?%elem_of_nil]].
    split_and!; [by left|by intros x [= ->]|by intros x y ?%elem_of_nil].
  - specialize (IH (earliest e (f x))). destruct (foldl _ _ l) as [at_|].
    + destruct IH as (Hin & He & Hl).
      assert (Hle : forall y, e = Some y \/ f x = Some y -> (at_ <= y)%nat).
      { intros y Hy. destruct e as [a|], (f x) as [b|]; cbn [earliest] in He;
          [destruct (Nat.ltb_spec b a)| | |]; (pose proof (He _ eq_refl) as H1 || idtac); destruct Hy as [[= <-]|[= <-]]; try done; lia. }
      split_and!.
      * destruct Hin as [Hin|(y & Hy & Hf)]; [|right; exists y; split; [by apply list_elem_of_further|done]].
        destruct e as [a|], (f x) as [b|] eqn:Hf; cbn [earliest] in Hin; try done;
          [destruct (b <? a)%nat| |]; injection Hin as <-; try (by left); right; exists x; (split; [apply list_elem_of_here|done]).
      * intros y Hy. apply Hle. by left.
      * intros z y [->|Hz]%elem_of_cons Hf; [apply Hle; by right|by eapply Hl].
    + destruct IH as [He Hl]. destruct e as [a|], (f x) as [b|] eqn:Hf; cbn [earliest] in He; try done.
      split; [done|]. intros z [->|Hz]%elem_of_cons; [done|by apply Hl].
Qed.

(** What follows the colon of a sensitive name, however many the line has, is past the offset found. *)
Lemma earliestSensitiveKeyEnd_spec line :
  match earliestSensitiveKeyEnd line with
  | Some at_ => (exists name, name ∈ sensitiveKeyNames /\ spelled name line at_) /\
                (forall name at', name ∈ sensitiveKeyNames -> spelled name line at' -> (at_ <= at')%nat)
  | None => forall name at', name ∈ sensitiveKeyNames -> ~ spelled name line at'
  end.
Proof.
  pose proof (fold_earliest (λ name, key_form_end name line) sensitiveKeyNames None) as H.
  change (foldl _ None sensitiveKeyNames) with (earliestSensitiveKeyEnd line) in H.
  assert (Hspec := λ name Hn, key_form_end_spec name line (sensitive_names_readable name Hn)).
  destruct (earliestSensitiveKeyEnd line) as [at_|].
  - destruct H as ([?|(name & Hn & Hf)] & _ & Hmin); [done|]. split.
    + exists name. split; [done|]. specialize (Hspec name Hn). rewrite Hf in Hspec. by destruct Hspec.
    + intros name' at' Hn' Hs'. specialize (Hspec name' Hn'). destruct (key_form_end name' line) as [b|] eqn:Hb.
      * specialize (Hmin _ _ Hn' Hb). destruct Hspec as [_ Hle]. specialize (Hle _ Hs'). lia.
      * by destruct (Hspec at').
  - destruct H as [_ H]. intros name at' Hn Hs. specialize (Hspec name Hn). rewrite (H name Hn) in Hspec. by eapply Hspec.
Qed.

(** ** The walk *)

Section walk.
Context (marks : list bool).

Definition mark (number : nat) : bool := continuesTheLineAbove marks (Z.of_nat number + 1).

(** The state in which the line of index [n] is met. *)
Definition state_before (lines : list gostring) (n : nat) : fallbackLineState :=
  (fallback_walk marks 0 at_the_start (take n lines)).2.

Lemma fallback_walk_app n st a b :
  fallback_walk marks n st (a ++ b) =
  let '(ra, st1) := fallback_walk marks n st a in
  let '(rb, st2) := fallback_walk marks (n + length a) st1 b in (ra ++ rb, st2).
Proof.
  revert n st. induction a as [|line a IH]; intros n st; cbn [app fallback_walk length].
  - rewrite Nat.add_0_r. by destruct (fallback_walk marks n st b).
  - destruct (redactedFallbackLine _ _ _) as [rewritten st0]. rewrite IH.
    destruct (fallback_walk marks (S n) st0 a) as [ra st1]. rewrite Nat.add_succ_l, Nat.add_succ_r.
    by destruct (fallback_walk marks _ st1 b).
Qed.

Lemma fallback_walk_length n st lines : length (fallback_walk marks n st lines).1 = length lines.
Proof.
  revert n st. induction lines as [|line lines IH]; intros n st; [done|]. cbn [fallback_walk].
  destruct (redactedFallbackLine _ _ _) as [rewritten st0]. specialize (IH (S n) st0).
  destruct (fallback_walk _ _ _ lines). cbn [fst length] in *. lia.
Qed.

Lemma walk_at lines n line : lines !! n = Some line ->
  redactBySensitiveKeyName lines marks !! n = Some (redactedFallbackLine line (mark n) (state_before lines n)).1 /\
  state_before lines (S n) = (redactedFallbackLine line (mark n) (state_before lines n)).2.
Proof.
  intros Hl. pose proof (lookup_lt_Some _ _ _ Hl) as Hlt. unfold redactBySensitiveKeyName, state_before, mark. split.
  - rewrite <- (take_drop_middle _ _ _ Hl) at 1. rewrite fallback_walk_app. cbn [fallback_walk].
    pose proof (fallback_walk_length 0 at_the_start (take n lines)) as Hlen.
    destruct (fallback_walk marks 0 at_the_start (take n lines)) as [ra st1]. cbn [fst snd] in *.
    rewrite length_take, Nat.min_l in * by lia. cbn [Nat.add].
    destruct (redactedFallbackLine _ _ st1) as [rewritten st2]. destruct (fallback_walk _ (S n) st2 _). cbn [fst].
    by rewrite <- Hlen, lookup_app_r, Nat.sub_diag by lia.
  - rewrite (take_S_r _ _ _ Hl), fallback_walk_app. destruct (fallback_walk marks 0 at_the_start (take n lines)) as [ra st1].
    cbn [fallback_walk snd]. rewrite length_take, Nat.min_l by lia. cbn [Nat.add].
    by destruct (redactedFallbackLine _ _ st1).
Qed.
End walk.

(** ** Keys that only a parser can read

    Stated of the bytes: a name behind an alias, an anchor, a tag or an explicit key's mark; a quoted name with
    an escape in it, or with its quote doubled; in a flow mapping, at its start or behind a comma, one
    of those or a container that stands for a name. *)

Definition calm (c : ascii) : Prop := is_quote c = false /\ c ∉ bs "[]{}#".

Inductive undecodable : gostring -> Prop :=
  | undecodable_indicator c name rest : c ∈ bs "*&!?" -> Forall (λ x, calm x /\ x ∉ bs "<:") name -> has_prefix rest (bs "//") = false ->
      undecodable (c :: name ++ ":"%char :: rest)
  | undecodable_escape q body rest : is_quote q = true -> q ∉ body -> "\"%char ∈ body -> undecodable (q :: body ++ q :: rest)
  | undecodable_doubled q body rest : is_quote q = true -> q ∉ body -> undecodable (q :: body ++ q :: q :: rest).

(** Markers of items, each with the blanks behind it. *)
Inductive item_markers : gostring -> Prop :=
  | no_marker : item_markers []
  | a_marker blanks ms : blanks <> [] -> Forall (λ c, c ∈ indentCharacters) blanks -> item_markers ms ->
      item_markers ("-"%char :: blanks ++ ms).

Definition undecodable_block_key (content : gostring) : Prop :=
  exists ms t, content = ms ++ t /\ item_markers ms /\ undecodable t.

Definition undecodable_flow_key (line : gostring) : Prop := exists pre entries blanks t,
  line = pre ++ "{"%char :: entries ++ blanks ++ t /\ Forall calm pre /\
  (entries = [] \/ exists e, entries = e ++ bs "," /\ Forall calm e) /\ Forall (λ c, c ∈ indentCharacters) blanks /\
  (undecodable t \/ has_prefix t (bs "[") = true \/ has_prefix t (bs "{") = true).

Lemma indicator_scan_reads text name rest : Forall (λ x, calm x /\ x ∉ bs "<:") name -> has_prefix rest (bs "//") = false ->
  forall at_, drop at_ text = name ++ ":"%char :: rest ->
  indicator_scan text at_ false {| ks_quote := None; plainURI := false; verbatimTag := false; ks_sequences := 0; ks_mappings := 0 |}
    (name ++ ":"%char :: rest) = true.
Proof.
  intros Hname Hrest. induction Hname as [|c name [[Hq Hc] Hs] _ IH]; intros at_ Hd; cbn [app indicator_scan ks_quote verbatimTag plainURI andb].
  - unfold beginsYAMLComment. rewrite bool_decide_eq_false_2 by done. cbn [andb ks_sequences ks_mappings]. cbn [app] in Hd.
    unfold opensPlainURI. rewrite Hd.
    assert (has_prefix (":"%char :: rest) (bs "://") = false) as ->; [|reflexivity].
    apply not_true_is_false. intros [r Hr]%has_prefix_spec. injection Hr as Hr. apply not_true_iff_false in Hrest. apply Hrest, has_prefix_spec. by exists r.
  - assert (forall x, x ∈ bs "[]{}#" -> c <> x) as Hne by (by intros x Hx ->).
    assert (forall x, x ∈ bs "<:" -> c <> x) as Hne' by (by intros x Hx ->).
    unfold beginsYAMLComment. rewrite Hq. repeat (rewrite bool_decide_eq_false_2 by (first [apply Hne; by_compute | apply Hne'; by_compute])). cbn [andb].
    unfold in_uri. cbn. apply IH. apply (f_equal (drop 1)) in Hd. rewrite drop_drop in Hd. by rewrite Nat.add_1_r in Hd.
Qed.

Lemma head_prefix q c l : has_prefix (c :: l) [q] = bool_decide (c = q).
Proof. unfold has_prefix. cbn. apply bool_decide_ext. split; [by intros [=]|by intros ->]. Qed.

Lemma index_of_byte q body rest : q ∉ body -> index_of [q] (body ++ q :: rest) = Some (length body).
Proof.
  induction body as [|c body IH]; intros Hb; cbn [app index_of]; rewrite head_prefix.
  - by rewrite bool_decide_eq_true_2.
  - apply not_elem_of_cons in Hb as [Hc Hb]. rewrite bool_decide_eq_false_2 by congruence. by rewrite (IH Hb).
Qed.

Lemma quoted_unreadable q body rest : q ∉ body -> "\"%char ∈ body \/ has_prefix rest [q] = true ->
  quotedLeadingToken (q :: body ++ q :: rest) = aKeyThisFileCannotRead.
Proof.
  intros Hb He. unfold quotedLeadingToken. change (take 1 (q :: ?l)) with [q]. change (drop 1 (q :: ?l)) with l.
  rewrite index_of_byte by done. rewrite take_app_length.
  replace (drop (length body + 1) (body ++ q :: rest)) with rest by (by rewrite <- drop_drop, drop_app_length).
  destruct He as [He|He]; [rewrite (bool_decide_eq_true_2 _ He)|rewrite He, orb_true_r]; done.
Qed.

(** The scan cannot read what is undecodable, at a key's place in a flow mapping as at a line's start. *)
Lemma indicator_unreadable c name rest : c ∈ bs "*&!?" -> Forall (λ x, calm x /\ x ∉ bs "<:") name -> has_prefix rest (bs "//") = false ->
  beginsWithUnreadableKeyIndicator (c :: name ++ ":"%char :: rest) = true.
Proof.
  intros Hc Hname Hrest. cbn [beginsWithUnreadableKeyIndicator]. rewrite bool_decide_eq_true_2 by done. cbn [andb].
  by apply indicator_scan_reads.
Qed.

Lemma undecodable_quoted t : undecodable t ->
  beginsWithUnreadableKeyIndicator t = true \/
  exists q l, t = q :: l /\ is_quote q = true /\ quotedLeadingToken t = aKeyThisFileCannotRead.
Proof.
  intros [c name rest Hc Hname Hrest|q body rest Hq Hb He|q body rest Hq Hb]; [left; by apply indicator_unreadable|right..];
    (eexists _, _; split; [done|]; split; [done|]); apply quoted_unreadable; auto.
  right. rewrite head_prefix. by apply bool_decide_eq_true_2.
Qed.

Lemma undecodable_flow t : undecodable t -> opensAnUnreadableKey t = true.
Proof.
  unfold opensAnUnreadableKey. intros [Hi|(q & l & -> & Hq & He)]%undecodable_quoted; [by rewrite Hi|].
  unfold beginsWithUnreadableQuotedKey. rewrite Hq, He. by rewrite bool_decide_eq_true_2, !orb_true_r.
Qed.

Lemma undecodable_no_item t : undecodable t -> opensAnItem t = false.
Proof.
  assert (Hno : forall c l, c <> "-"%char -> opensAnItem (c :: l) = false).
  { intros c l Hc. unfold opensAnItem. change sequenceItemMarker with ["-"%char]. by rewrite head_prefix, bool_decide_eq_false_2. }
  intros [c name rest Hc _ _|q body rest Hq _ _|q body rest Hq _]; apply Hno; intros ->; [by apply (bool_decide_eq_true_2 _) in Hc|done|done].
Qed.

Lemma indentation_app blanks c rest : Forall (λ c, c ∈ indentCharacters) blanks -> c ∉ indentCharacters ->
  indentation (blanks ++ c :: rest) = blanks.
Proof.
  intros Hb Hc. induction Hb as [|b blanks Hb _ IH]; cbn [app indentation]; unfold contains_byte.
  - by rewrite bool_decide_eq_false_2.
  - by rewrite bool_decide_eq_true_2, IH.
Qed.

Lemma undecodable_head t : undecodable t -> exists c rest, t = c :: rest /\ c ∉ indentCharacters /\ c <> "#"%char.
Proof.
  assert (Hno : forall c, c ∈ bs "*&!?" \/ is_quote c = true -> c ∉ indentCharacters /\ c <> "#"%char).
  { intros c Hc. split; [intros Hin; unfold indentCharacters in Hin; repeat (apply elem_of_cons in Hin as [->|Hin]; [by destruct Hc as [Hc%(bool_decide_eq_true_2 _)|Hc]|]); by apply elem_of_nil in Hin|].
    intros ->. by destruct Hc as [Hc%(bool_decide_eq_true_2 _)|Hc]. }
  intros [c name rest Hc _ _|q body rest Hq _ _|q body rest Hq _]; (eexists _, _; split; [done|]); apply Hno; auto.
Qed.

Lemma markers_width fuel ms t : item_markers ms -> undecodable t -> (length ms + length t <= fuel)%nat ->
  marker_width fuel (ms ++ t) = length ms.
Proof.
  intros Hms Ht. revert fuel. induction Hms as [|blanks ms Hne Hb Hms IH]; intros fuel Hf.
  - destruct fuel; [done|]. cbn [app marker_width]. by rewrite undecodable_no_item.
  - destruct fuel as [|fuel]; [cbn in Hf; lia|]. cbn [app length] in *. rewrite length_app in *. cbn [marker_width].
    assert (Hitem : opensAnItem ("-"%char :: (blanks ++ ms) ++ t) = true).
    { unfold opensAnItem. change sequenceItemMarker with ["-"%char]. rewrite head_prefix, bool_decide_eq_true_2 by done. destruct Hb as [|c blanks Hc _]; [done|].
      cbn. by rewrite bool_decide_eq_true_2. }
    rewrite Hitem. change (drop (length sequenceItemMarker) (_ :: ?l)) with l.
    assert (Hhead : exists c rest, ms ++ t = c :: rest /\ c ∉ indentCharacters).
    { destruct Hms; [by destruct (undecodable_head t Ht) as (c & rest & -> & ? & _); eauto|]. eexists _, _. split; [done|]. by_compute. }
    destruct Hhead as (c & rest & Hcr & Hc).
    assert (Hw : indentWidth ((blanks ++ ms) ++ t) = Z.of_nat (length blanks)).
    { rewrite indentWidth_indentation, <- app_assoc, Hcr, indentation_app by done. done. }
    rewrite Hw, Nat2Z.id. change (length sequenceItemMarker + ?n)%nat with (S n). cbn [drop skipn].
    rewrite <- app_assoc, drop_app_length, IH by lia. lia.
Qed.

Lemma undecodable_block content : undecodable_block_key content -> leadingTokenOf content = aKeyThisFileCannotRead.
Proof.
  intros (ms & t & -> & Hms & Ht). unfold leadingTokenOf, sequenceMarkerWidth.
  rewrite markers_width by (done || (rewrite length_app; lia)). rewrite drop_app_length.
  destruct (undecodable_head t Ht) as (c & l & Heq & _). pose proof (undecodable_quoted t Ht) as [Hi|(q & l' & -> & Hq & He)].
  - destruct (_ || _) eqn:Hquote; [|by rewrite Hi]. exfalso. rewrite Heq in Hi, Hquote. rewrite !head_prefix in Hquote.
    cbn [beginsWithUnreadableKeyIndicator] in Hi. apply andb_true_iff in Hi as [Hi%bool_decide_eq_true _].
    apply orb_true_iff in Hquote as [Hc%bool_decide_eq_true|Hc%bool_decide_eq_true]; subst c; by apply (bool_decide_eq_true_2 _) in Hi.
  - rewrite !head_prefix. unfold is_quote in Hq. rewrite orb_comm in Hq. by rewrite Hq.
Qed.

(** *** The scan of a flow mapping *)

Definition awaiting : flowKeyContext := {| kind := "{"%char; expectsKey := true; atKeyStart := true |}.

Lemma calm_not c x : calm c -> x ∈ bs "[]{}#" -> c <> x.
Proof. by intros [_ Hc] Hx ->. Qed.

(** Where a key is awaited, blanks are stepped over and an unreadable one is found. *)
Lemma flow_awaited blanks t : Forall (λ c, c ∈ indentCharacters) blanks -> opensAnUnreadableKey t = true ->
  (exists c rest, t = c :: rest /\ c ∉ indentCharacters /\ c <> "#"%char) ->
  forall before, flow_scan false before None [awaiting] (blanks ++ t) = true.
Proof.
  intros Hb Ht (c & rest & Heq & Hc & Hhash). induction Hb as [|b blanks Hb _ IH]; intros before; cbn [app].
  - rewrite Heq in *. cbn [flow_scan]. unfold beginsYAMLComment. rewrite bool_decide_eq_false_2 by done. cbn [andb].
    change (awaits_key [awaiting]) with true. rewrite bool_decide_eq_false_2 by done. cbn [andb]. by rewrite Ht.
  - cbn [flow_scan]. unfold beginsYAMLComment. rewrite bool_decide_eq_false_2; [|intros ->; by apply (bool_decide_eq_true_2 _) in Hb].
    cbn [andb]. change (awaits_key [awaiting]) with true. rewrite bool_decide_eq_true_2 by done. apply IH.
Qed.

(** Entries without a quote or a bracket leave the mapping at the next key. *)
Lemma flow_entries e rest : Forall calm e -> (forall before, flow_scan false before None [awaiting] rest = true) ->
  forall before ctx, kind ctx = "{"%char -> flow_scan false before None [ctx] (e ++ ","%char :: rest) = true.
Proof.
  intros He Hrest.
  assert (Hstep : forall c tail, c = ","%char /\ tail = rest \/
      calm c /\ (forall before ctx, kind ctx = "{"%char -> flow_scan false before None [ctx] tail = true) ->
      forall before ctx, kind ctx = "{"%char -> flow_scan false before None [ctx] (c :: tail) = true).
  { intros c tail Hc before ctx Hk.
    assert (Hcalm : calm c) by (destruct Hc as [[-> _]|[? _]]; [split; [done|by_compute]|done]).
    assert (Hnot : forall x, x ∈ bs "[]{}#" -> c <> x) by (intros x Hx; by apply calm_not).
    cbn [flow_scan]. unfold beginsYAMLComment. rewrite bool_decide_eq_false_2 by (apply Hnot; by_compute). cbn [andb].
    destruct (awaits_key [ctx] && bool_decide (c ∈ indentCharacters)) eqn:Hb.
    { destruct Hc as [[-> _]|[_ Hc]]; [by rewrite andb_false_r in Hb|by apply Hc]. }
    destruct (awaits_key [ctx] && _ && _); [done|].
    assert (exists ctx', (if awaits_key [ctx] then on_top past_key_start [ctx] else [ctx]) = [ctx'] /\ kind ctx' = "{"%char)
      as (ctx' & -> & Hk') by (destruct (awaits_key [ctx]); by eexists).
    destruct Hcalm as [-> _]. repeat (rewrite bool_decide_eq_false_2 by (first [apply Hnot; by_compute|intros [?|?]; by eapply Hnot; [|done]; by_compute])).
    destruct Hc as [[-> ->]|[_ Hc]].
    - rewrite bool_decide_eq_false_2, bool_decide_eq_true_2 by done. cbn [on_top]. unfold next_key. rewrite Hk', bool_decide_eq_true_2 by done. apply Hrest.
    - clear Hb. case_bool_decide; [destruct (awaits_key [ctx']); by apply Hc|]. case_bool_decide; [|by apply Hc].
      cbn [on_top]. apply Hc. unfold next_key. by case_bool_decide. }
  induction He as [|c e Hc _ IH]; intros before ctx Hk; cbn [app]; apply Hstep; auto.
Qed.

Lemma undecodable_flow_line line : undecodable_flow_key line -> containsUnreadableFlowKey line = true.
Proof.
  intros (pre & entries & blanks & t & -> & Hpre & Hent & Hb & Ht). unfold containsUnreadableFlowKey.
  enough (forall before, flow_scan false before None [] (pre ++ "{"%char :: entries ++ blanks ++ t) = true) as H by apply H.
  assert (Hkey : opensAnUnreadableKey t = true).
  { destruct Ht as [Ht|Ht]; [by apply undecodable_flow|]. unfold opensAnUnreadableKey. destruct Ht as [->| ->]; by rewrite ?orb_true_r. }
  assert (Hhead : exists c rest, t = c :: rest /\ c ∉ indentCharacters /\ c <> "#"%char).
  { destruct Ht as [Ht|[[r ->]%has_prefix_spec|[r ->]%has_prefix_spec]]; [by apply undecodable_head|..];
      (eexists _, _; split; [reflexivity|]; split; by_compute). }
  induction Hpre as [|c pre Hc _ IH]; intros before; cbn [app].
  - assert (Hopen : forall l, flow_scan false before None [] ("{"%char :: l) = flow_scan false (Some "{"%char) None [awaiting] l) by done.
    rewrite Hopen. destruct Hent as [->|(e & -> & He)]; [cbn [app]; by apply flow_awaited|].
    rewrite <- app_assoc. apply (flow_entries e (blanks ++ t)); [done| |done]. intros ?. by apply flow_awaited.
  - assert (Hnot : forall x, x ∈ bs "[]{}#" -> c <> x) by (intros x Hx; by apply calm_not).
    cbn [flow_scan]. unfold beginsYAMLComment. rewrite bool_decide_eq_false_2 by (apply Hnot; by_compute). cbn [andb awaits_key].
    destruct Hc as [-> _]. repeat (rewrite bool_decide_eq_false_2 by (first [apply Hnot; by_compute|intros [?|?]; by eapply Hnot; [|done]; by_compute])).
    case_bool_decide; [apply IH|]. case_bool_decide; apply IH.
Qed.

(** *** What a line does to an open block *)

Abbreviation content_of line := ((pastIndentation line).1).

(** A line that ends a value written under a key indented by [k]. *)
Definition closes (k : Z) (line : gostring) : Prop :=
  closesNoBlock (content_of line) = false /\
  (indentWidth line < k \/ indentWidth line = k /\ has_prefix (content_of line) sequenceItemMarker = false).

(** A line at which the value of a key begins that is sensitive, that only a parser can read, or whose
    second half stands here. *)
Definition opens_a_value (line : gostring) : Prop :=
  (exists name at_, name ∈ sensitiveKeyNames /\ spelled name line at_) \/
  opensAnExplicitKeysValue (content_of line) = true \/ undecodable_block_key (content_of line) \/ undecodable_flow_key line \/
  leadingTokenOf (content_of line) = aKeyThisFileCannotRead \/ containsUnreadableFlowKey line = true.

Lemma opens_a_value_governs line : opens_a_value line ->
  (governanceOf line (content_of line)).2 <> noSensitiveKeyGoverns \/
  leadingTokenOf (content_of line) = aKeyThisFileCannotRead \/ containsUnreadableFlowKey line = true.
Proof.
  intros [(name & at_ & Hn & Hs)|[He|[Hb|[Hf|H]]]].
  - left. unfold governanceOf. destruct (opensAnExplicitKeysValue _); [done|].
    pose proof (earliestSensitiveKeyEnd_spec line) as Hend. destruct (earliestSensitiveKeyEnd line); [done|]. by destruct (Hend name at_).
  - left. unfold governanceOf. by rewrite He.
  - right. left. by apply undecodable_block.
  - right. right. by apply undecodable_flow_line.
  - by right.
Qed.

Definition block_within (k : Z) (st : fallbackLineState) : Prop :=
  blockIndent st <> outsideSensitiveBlock /\ blockIndent st <= k.

Lemma indentWidth_nonneg line : 0 <= indentWidth line.
Proof. rewrite indentWidth_indentation. lia. Qed.

Lemma redactedFallbackLine_eq line mark st :
  redactedFallbackLine line mark st =
  if open (continuation st) then (blankPastIndentation line, blanked st line)
  else if mark && negb (holdsNoBytesToHide (content_of line)) then (blankPastIndentation line, blanked st line)
  else if coveredByBlockOpenedAt (indentWidth line) (content_of line) (blockIndent st) then (blankPastIndentation line, blanked st line)
  else if closesNoBlock (content_of line) then (line, {| blockIndent := blockIndent st; continuation := noSensitiveContinuation |})
  else let out := redactedOutsideAnyBlock line (content_of line) (indentWidth line) (blockIndent st) in
       (out.1.1, {| blockIndent := out.1.2; continuation := out.2 |}).
Proof.
  unfold redactedFallbackLine, indentWidth. destruct (pastIndentation line) as [content indent]. cbn [fst snd].
  repeat (destruct (open (continuation st)); [done|]). destruct (mark && _); [done|].
  destruct (coveredByBlockOpenedAt _ _ _); [done|]. destruct (closesNoBlock content); [done|].
  by destruct (redactedOutsideAnyBlock _ _ _ _) as [[??] ?].
Qed.

(** A line an open block does not cover ends the value, if it holds anything. *)
Lemma uncovered_closes line st k : block_within k st -> holdsNoBytesToHide (content_of line) = false ->
  coveredByBlockOpenedAt (indentWidth line) (content_of line) (blockIndent st) = false -> closes k line.
Proof.
  intros [Hne Hle] Hb Hc. unfold coveredByBlockOpenedAt in Hc. rewrite Hb, (proj2 (Z.eqb_neq _ _) Hne) in Hc. cbn [orb] in Hc.
  destruct (Z.ltb_spec (blockIndent st) (indentWidth line)); [done|]. cbn [orb] in Hc.
  destruct (looksLikeAComment _) eqn:Hcom; [done|]. split; [unfold closesNoBlock; by rewrite Hb, Hcom|].
  destruct (Z.eqb_spec (indentWidth line) (blockIndent st)) as [He|He]; cbn [andb] in Hc; [|left; lia].
  destruct (Z.eq_dec (indentWidth line) k); [right; by split|left; lia].
Qed.

(** An open block is closed by nothing but a line that ends the value. *)
Lemma block_step line mark st k : block_within k st ->
  closes k line \/ block_within k (redactedFallbackLine line mark st).2.
Proof.
  intros Hw. rewrite redactedFallbackLine_eq.
  destruct (open _); [by right|]. destruct (mark && _); [by right|].
  destruct (coveredByBlockOpenedAt _ _ _) eqn:Hc; [by right|]. destruct (closesNoBlock _) eqn:Hn; [by right|].
  left. apply orb_false_iff in Hn as [Hb _]. by eapply uncovered_closes.
Qed.

(** A key that opens a value opens a block, or is within one that reaches further out. *)
Lemma opener_step line mark st :
  open (continuation st) = false -> mark = false -> closesNoBlock (content_of line) = false -> opens_a_value line ->
  block_within (indentWidth line) (redactedFallbackLine line mark st).2.
Proof.
  intros Ho -> Hn Hv. pose proof (indentWidth_nonneg line) as Hi. rewrite redactedFallbackLine_eq, Ho, Hn. cbn [andb].
  destruct (coveredByBlockOpenedAt _ _ _) eqn:Hc.
  - unfold coveredByBlockOpenedAt in Hc. apply orb_false_iff in Hn as [Hb Hcom]. rewrite Hb, Hcom, orb_false_r in Hc.
    destruct (Z.eqb_spec (blockIndent st) outsideSensitiveBlock) as [|Hne]; [done|]. cbn [orb] in Hc. split; [done|].
    cbn [blanked snd blockIndent]. rewrite orb_false_r in Hc.
    destruct (Z.ltb_spec (blockIndent st) (indentWidth line)); [lia|].
    apply andb_true_iff in Hc as [He%Z.eqb_eq _]. lia.
  - cbn [snd]. unfold redactedOutsideAnyBlock, block_within, outsideSensitiveBlock. apply opens_a_value_governs in Hv.
    destruct (governanceOf _ _) as [at_ []]; cbn [fst snd blockIndent] in *; try (split; lia).
    assert (Hk : bool_decide (leadingTokenOf (content_of line) = aKeyThisFileCannotRead) || containsUnreadableFlowKey line = true).
    { destruct Hv as [Hv|[Hv|Hv]]; [done|by rewrite bool_decide_eq_true_2|by rewrite Hv, orb_true_r]. }
    rewrite Hk. cbn [fst snd blockIndent]. split; lia.
Qed.

(** *** What a line does to an open quote *)

Definition well_scanned (s : sensitiveContinuation) : Prop := taintedClose s = true -> quote_ s = None.

Lemma delimited_taint s c : taintedClose (delimited s c) = taintedClose s.
Proof. unfold delimited, with_quote, with_flow. by repeat case_match. Qed.

Lemma delimited_quote s c : is_quote c = false -> quote_ (delimited s c) = quote_ s.
Proof. intros Hc. unfold delimited. rewrite Hc. by repeat case_match. Qed.

Definition flows (s : sensitiveContinuation) : Prop := sequences s <> 0%nat \/ mappings s <> 0%nat.

Lemma after_loop_scanned fw text : forall skip before s,
  taintedClose s = false -> (fw = true -> flows s) -> well_scanned (after_loop fw skip before s text).
Proof.
  induction text as [|c rest IH]; intros skip before s Ht Hf; cbn [after_loop]; [intros H; congruence|].
  destruct skip; [by apply IH|]. destruct (quote_ s) as [q|] eqn:Hq.
  - destruct (insideQuotedScalar _ _) as [still escaped]. by apply IH.
  - destruct (beginsYAMLComment _ _); [intros H; congruence|].
    destruct (fw && _ && _) eqn:Hx.
    + intros _. cbn [with_taint quote_]. destruct (is_quote c) eqn:Hc; [|by rewrite delimited_quote].
      apply andb_true_iff in Hx as [[-> Hs%Nat.eqb_eq]%andb_true_iff Hm%Nat.eqb_eq].
      unfold delimited in Hs, Hm. rewrite Hc in Hs, Hm. by destruct (Hf eq_refl).
    + apply IH; [by rewrite delimited_taint|]. intros ->. unfold flows.
      destruct (Nat.eqb_spec (sequences (delimited s c)) 0); [|by left].
      destruct (Nat.eqb_spec (mappings (delimited s c)) 0); [done|by right].
Qed.

Lemma afterFrom_scanned s line start : well_scanned (afterFrom s line start).
Proof.
  unfold afterFrom. destruct (taintedClose s) eqn:Ht; [done|]. apply after_loop_scanned; [done|]. unfold flows.
  destruct (Nat.eqb_spec (sequences s) 0), (Nat.eqb_spec (mappings s) 0); cbn [negb orb]; auto.
Qed.

Lemma after_loop_quote fw text q : q ∉ text -> forall skip before s, quote_ s = Some q ->
  quote_ (after_loop fw skip before s text) = Some q.
Proof.
  induction text as [|c rest IH]; intros Hq skip before s Hs; cbn [after_loop]; [done|].
  apply not_elem_of_cons in Hq as [Hc Hq]. destruct skip; [by apply IH|]. rewrite Hs. cbn [insideQuotedScalar].
  case_bool_decide; [by apply IH|]. rewrite bool_decide_eq_true_2 by done. by apply IH.
Qed.

(** An open quote is closed by nothing but its own byte. *)
Lemma quote_step line mark st q :
  well_scanned (continuation st) -> quote_ (continuation st) = Some q ->
  q ∈ line \/ quote_ (continuation (redactedFallbackLine line mark st).2) = Some q.
Proof.
  intros Hw Hq. rewrite redactedFallbackLine_eq. unfold open. rewrite Hq, bool_decide_eq_true_2 by done.
  cbn [orb blanked continuation snd]. destruct (decide (q ∈ line)) as [|Hn]; [by left|]. right. unfold after, afterFrom.
  destruct (taintedClose (continuation st)) eqn:Ht; [by rewrite (Hw Ht) in Hq|]. by apply after_loop_quote.
Qed.

Lemma walk_scanned line mark st : well_scanned (continuation st) -> well_scanned (continuation (redactedFallbackLine line mark st).2).
Proof.
  intros Hw. rewrite redactedFallbackLine_eq. destruct (open _); [apply afterFrom_scanned|].
  destruct (mark && _); [apply afterFrom_scanned|]. destruct (coveredByBlockOpenedAt _ _ _); [apply afterFrom_scanned|].
  destruct (closesNoBlock _); [done|]. cbn [snd continuation]. unfold redactedOutsideAnyBlock.
  destruct (governanceOf _ _) as [at_ []]; try apply afterFrom_scanned.
  destruct (_ || _); [apply afterFrom_scanned|]. by destruct (keptVerbatim _ _); [|apply afterFrom_scanned].
Qed.

(** ** What is shown of a document that does not parse *)

Section shown.
Context (lines : list gostring) (marks : list bool).

(** The line of index [m] opens a value: nothing above it is still open and it is a line of its own. *)
Definition opener (m : nat) (line : gostring) : Prop :=
  lines !! m = Some line /\ mark marks m = false /\ open (continuation (state_before marks lines m)) = false /\
  closesNoBlock (content_of line) = false /\ opens_a_value line.

(** Every value opened above the line of index [n] was ended, by that line at the latest, and every quote
    a withheld line left open was closed before it. *)
Definition beyond_reach (n : nat) : Prop :=
  mark marks n = false /\
  (forall m line, (m < n)%nat -> opener m line ->
    exists j closing, (m < j <= n)%nat /\ lines !! j = Some closing /\ closes (indentWidth line) closing) /\
  (forall m q, (m < n)%nat -> quote_ (continuation (state_before marks lines (S m))) = Some q ->
    exists j closing, (m < j < n)%nat /\ lines !! j = Some closing /\ q ∈ closing).

(** The line spells no sensitive name with its colon, holds no half of an explicit entry and no key that
    only a parser can read. *)
Definition names_nothing (line : gostring) : Prop :=
  looksLikeAComment (content_of line) = true \/
  (forall name at_, name ∈ sensitiveKeyNames -> ~ spelled name line at_) /\
  opensAnExplicitKeysValue (content_of line) = false /\
  ~ undecodable_block_key (content_of line) /\ ~ undecodable_flow_key line /\
  leadingTokenOf (content_of line) <> aKeyThisFileCannotRead /\ containsUnreadableFlowKey line = false.

(** The line up to the colon of the sensitive name that ends first, and nothing of what follows it. *)
Definition value_withheld (line shown : gostring) : Prop :=
  exists name at_, name ∈ sensitiveKeyNames /\ spelled name line at_ /\
    (forall name' at', name' ∈ sensitiveKeyNames -> spelled name' line at' -> (at_ <= at')%nat) /\
    (shown = take at_ line ++ bs " " ++ redactionPlaceholder \/ shown = line /\ TrimSpace (drop at_ line) = []).

Lemma state_step n line : lines !! n = Some line ->
  state_before marks lines (S n) = (redactedFallbackLine line (mark marks n) (state_before marks lines n)).2.
Proof. intros Hl. by apply walk_at. Qed.

Lemma state_scanned n : (n <= length lines)%nat -> well_scanned (continuation (state_before marks lines n)).
Proof.
  induction n as [|n IH]; intros Hn; [done|]. destruct (lookup_lt_is_Some_2 lines n) as [line Hl]; [lia|].
  rewrite (state_step _ _ Hl). apply walk_scanned, IH. lia.
Qed.

Lemma openers_reach n m line : (n <= length lines)%nat -> (m < n)%nat -> opener m line ->
  (exists j closing, (m < j < n)%nat /\ lines !! j = Some closing /\ closes (indentWidth line) closing) \/
  block_within (indentWidth line) (state_before marks lines n).
Proof.
  intros Hn Hm Ho. induction n as [|n IH]; [lia|]. destruct (lookup_lt_is_Some_2 lines n) as [now Hnow]; [lia|].
  rewrite (state_step _ _ Hnow). destruct (decide (m = n)) as [->|Hne].
  - destruct Ho as (Hl & Hmark & Hopen & Hc & Hv). rewrite Hl in Hnow. injection Hnow as <-. right. by apply opener_step.
  - destruct IH as [(j & closing & Hj & Hl & Hc)|Hb]; [lia|lia|left; exists j, closing; split; [lia|done]|].
    destruct (block_step now (mark marks n) _ _ Hb) as [Hc|Hb']; [|by right]. left. exists n, now. split; [lia|done].
Qed.

Lemma quotes_reach n m q : (n <= length lines)%nat -> (m < n)%nat ->
  quote_ (continuation (state_before marks lines (S m))) = Some q ->
  (exists j closing, (m < j < n)%nat /\ lines !! j = Some closing /\ q ∈ closing) \/
  quote_ (continuation (state_before marks lines n)) = Some q.
Proof.
  intros Hn Hm Hq. induction n as [|n IH]; [lia|]. destruct (decide (m = n)) as [->|Hne]; [by right|].
  destruct (lookup_lt_is_Some_2 lines n) as [now Hnow]; [lia|]. rewrite (state_step _ _ Hnow).
  destruct IH as [(j & closing & Hj & Hl & Hc)|Hb]; [lia|lia|left; exists j, closing; split; [lia|done]|].
  destruct (quote_step now (mark marks n) _ _ (state_scanned n ltac:(lia)) Hb) as [Hc|Hb']; [|by right].
  left. exists n, now. split; [lia|done].
Qed.

(** A line no value above it covers is beyond the reach of each. *)
Lemma uncovered_beyond n line :
  lines !! n = Some line -> holdsNoBytesToHide (content_of line) = false -> mark marks n = false ->
  open (continuation (state_before marks lines n)) = false ->
  coveredByBlockOpenedAt (indentWidth line) (content_of line) (blockIndent (state_before marks lines n)) = false ->
  beyond_reach n.
Proof.
  intros Hl Hb Hm Ho Hc. pose proof (lookup_lt_Some _ _ _ Hl) as Hlt. split; [done|]. split.
  - intros m above Hmn Hop. destruct (openers_reach n m above ltac:(lia) Hmn Hop) as [(j & closing & Hj & Hcl)|Hw].
    { exists j, closing. split; [lia|done]. }
    exists n, line. split; [lia|]. split; [done|]. by eapply uncovered_closes.
  - intros m q Hmn Hq. destruct (quotes_reach n m q ltac:(lia) Hmn Hq) as [Hj|Hq']; [done|].
    unfold open in Ho. rewrite Hq', bool_decide_eq_true_2 in Ho by done. done.
Qed.
End shown.

Lemma uncovered_shows line blockIndent_ :
  let shown := (redactedOutsideAnyBlock line (content_of line) (indentWidth line) blockIndent_).1.1 in
  shown = indentation line ++ redactionPlaceholder \/ value_withheld line shown \/ shown = line /\ names_nothing line.
Proof.
  unfold redactedOutsideAnyBlock, governanceOf. destruct (opensAnExplicitKeysValue _) eqn:He; [left; apply blankPastIndentation_shows|].
  pose proof (earliestSensitiveKeyEnd_spec line) as Hs. destruct (earliestSensitiveKeyEnd line) as [at_|]; cbn [fst].
  - right. left. destruct Hs as [(name & Hn & Hsp) Hmin]. exists name, at_. split_and!; [done|done|done|].
    unfold blankValueAfter. case_bool_decide; [by right|by left].
  - case_bool_decide as Ht; [left; apply blankPastIndentation_shows|]. cbn [orb].
    destruct (containsUnreadableFlowKey line) eqn:Hf; [left; apply blankPastIndentation_shows|].
    destruct (keptVerbatim _ _); [|left; apply blankPastIndentation_shows]. right. right. split; [done|]. right. split_and!; try done.
    + by intros ?%undecodable_block.
    + intros ?%undecodable_flow_line. congruence.
Qed.


(** A list of secrets that does not close, a line of it at the key's own column, and keys that only a
    parser can read, each with a value beside it or below. *)
Definition unclosed_list : list gostring :=
  [bs "version: 1"; bs "secrets: [a,"; bs "name: b]"; bs "- *key : hunter1"; bs "  hunter2"; bs "!k n: hunter3"; bs "? x: hunter4";
   bs "m: {a: 1, &k b: hunter5}"; bs "  hunter6"; bs "m: { ? b: hunter7}"; bs "'u''rl': hunter8"; bs "name: c"].


(** A sensitive key behind a lone carriage return opens no block either, and what it governs is shown. *)
Example split_line_shows_its_block :
  unparsed_lines (bs "a: 1" ++ [CR] ++ bs "secrets:" ++ [LF] ++ bs "  - hunter2") = [bs "a: 1"; bs "[redacted]"; bs "  - hunter2"].
Proof. vm_compute. reflexivity. Qed.

(** A key whose name a lone carriage return splits opens no block: what is written below it is shown,
    although the name's own second half and the value beside it are withheld. *)
Example split_key_shows_its_block :
  unparsed_lines (bs "sec" ++ [CR] ++ bs "rets:" ++ [LF] ++ bs "  - hunter2" ++ [LF] ++ bs "version: 2") =
  [bs "sec"; bs "[redacted]"; bs "  - hunter2"; bs "version: 2"].
Proof. vm_compute. reflexivity. Qed.
