(* ===== verification/Redact.v ===== *)
(** * Redaction of a document that parses: [internal/config/schemawalk.go], [undeclaredshape.go],
    [sensitiveextent.go], [writtenstart.go], [containerinterior.go], [blockextent.go],
    [sensitivepaths.go], [sensitivereach.go], [redactiongeometry.go] and [rendercopy.go].

    The values the table of [Schema.v] declares sensitive are found by walking the reduced document beside
    the table, and each is replaced in a copy of the file's lines. What the code asks of the library beyond
    the tree of [Yaml.v] -- a container's style and closing token, the tokens before a node's own, a node's
    text -- is an interface. The copy is a list of lines; a write past its end is a panic, [None]. *)

From S2P Require Import Prelude Policy Utf8 Source Quote Interpolate Diag Yaml Normalize Schema ConnString Fallback.

Local Open Scope Z_scope.

Definition firstLine : Z := 1.

(** lineshape.go: blank by Unicode's account of whitespace. *)
Definition isBlankLine (line : gostring) : bool := bool_decide (TrimSpace line = []).

(** What the parser knows of a node besides its place: whether a container is written in flow style, its
    closing token, its text, and the tokens before its first one, nearest first, each with whether it is a
    mapping value's colon. *)
Class ParsedText := {
  IsFlowStyle : node -> bool;
  End_ : node -> option Yaml.mark;
  String_ : node -> gostring;
  Prev : node -> list (bool * Yaml.mark)
}.

(** ** writtenstart.go *)

Record writtenStart := { ws_line : Z; ws_column : Z; ws_beginsOnALineOfItsOwn : bool; ws_reachesBackTo : Z }.

Definition writtenInBlockStyle `{ParsedText} (n : node) : bool :=
  match n with MappingNode _ _ | SequenceNode _ _ _ => negb (IsFlowStyle n) | _ => false end.

(** [None] for a value no key introduced. *)
Definition blockOpenerLineOf `{ParsedText} (n : node) : option Z :=
  (λ colon, at_line colon.2) <$> head (filter (λ token, token.1 = true) (Prev n)).

(** ** schemawalk.go: what is found *)

Record sensitiveValue := {
  sv_line : Z;
  sv_column : Z;
  beginsOnALineOfItsOwn : bool;
  reachesBackTo : Z;
  writtenAsAContainer : bool;
  sv_text : gostring;
  throughLine : Z;
  ownsUnclaimedBytes : bool;
  sv_kind : sensitivity
}.
#[export] Instance sensitivity_eq_dec : EqDecision sensitivity.
Proof. solve_decision. Defined.
#[export] Instance sensitiveValue_eq_dec : EqDecision sensitiveValue.
Proof. solve_decision. Defined.

Definition ending_at (through : Z) (v : sensitiveValue) : sensitiveValue :=
  {| sv_line := sv_line v; sv_column := sv_column v; beginsOnALineOfItsOwn := beginsOnALineOfItsOwn v; reachesBackTo := reachesBackTo v;
     writtenAsAContainer := writtenAsAContainer v; sv_text := sv_text v; throughLine := through;
     ownsUnclaimedBytes := ownsUnclaimedBytes v; sv_kind := sv_kind v |}.
Definition owning (v : sensitiveValue) : sensitiveValue :=
  {| sv_line := sv_line v; sv_column := sv_column v; beginsOnALineOfItsOwn := beginsOnALineOfItsOwn v; reachesBackTo := reachesBackTo v;
     writtenAsAContainer := writtenAsAContainer v; sv_text := sv_text v; throughLine := throughLine v;
     ownsUnclaimedBytes := true; sv_kind := sv_kind v |}.

(** ** containerinterior.go *)

Definition containerPunctuation : gostring := bs "[]{},-:?|>".

Record childToken := { ct_from : Z; ct_past : Z }.

Definition isContainerPunctuation (letter : Z) : bool :=
  (letter =? 32) || (letter =? 9) || bool_decide (letter ∈ map code containerPunctuation).

Definition coveredByAToken (at_ : Z) (tokens : list childToken) : bool :=
  existsb (λ token, (ct_from token <=? at_) && (at_ <? ct_past token)) tokens.

Fixpoint unclaimed_from (at_ past : Z) (tokens : list childToken) (letters : list Z) : bool :=
  match letters with
  | [] => false
  | letter :: letters =>
      if past <=? at_ then false
      else if coveredByAToken at_ tokens || isContainerPunctuation letter then unclaimed_from (at_ + 1) past tokens letters
      else true
  end.

Definition holdsUnclaimedRunes (written : gostring) (from past : Z) (tokens : list childToken) : bool :=
  unclaimed_from from past tokens (runes (runesFrom written from)).

Definition childTokensOn (children : list sensitiveValue) (number : Z) : list childToken :=
  map (λ child, {| ct_from := sv_column child; ct_past := sv_column child + runeCount (sv_text child) |})
      (List.filter (λ child, sv_line child =? number) children).

Definition interiorEndsAt (written : gostring) (number last : Z) (tokens : list childToken) (closesWithADelimiter : bool) : Z :=
  let endOfLine := firstColumn + runeCount written in
  if negb (number =? last) || bool_decide (tokens = []) || negb closesWithADelimiter then endOfLine
  else Z.min (foldl (λ past token, Z.max past (ct_past token)) 0 tokens) endOfLine.

Definition childrenWrittenInside (start : writtenStart) (found : list sensitiveValue) : list sensitiveValue :=
  List.filter (λ child, ws_line start <=? sv_line child) found.

(** ** sensitivereach.go and blockextent.go: how far a value reaches *)

Definition leastIndentInsideTheValue (anchor : gostring) (ownLine : bool) : Z :=
  if ownLine then indentWidth anchor else indentWidth anchor + 1.

(** The lines below [last], from the one after it. *)
Fixpoint last_line_from (least last number : Z) (lines : list gostring) : Z :=
  match lines with
  | [] => last
  | written :: lines =>
      if isBlankLine written then last_line_from least last (number + 1) lines
      else if indentWidth written <? least then last
      else last_line_from least number (number + 1) lines
  end.

(** ** sensitiveextent.go *)

Definition noClosingIndicator : Z := -1.

Definition held_as_a_container (n : node) : bool :=
  match beneathNodeProperties n with MappingNode _ _ | SequenceNode _ _ _ => true | _ => false end.

Definition valuesOf (value : node) : list node :=
  match beneathNodeProperties value with SequenceNode _ _ vs => vs | held => [held] end.

Section found.
Context `{ParsedText} (src : source).

Definition lastLineOfTheValueAt (number : Z) (ownLine : bool) : Z :=
  last_line_from (leastIndentInsideTheValue (src_Line src number) ownLine) number (number + 1)
    (drop (Z.to_nat number) (src_lines src)).

Definition lastLineOfTheInterior (start : writtenStart) (closesOn : Z) : Z :=
  if negb (closesOn =? noClosingIndicator) then closesOn
  else lastLineOfTheValueAt (ws_line start) (ws_beginsOnALineOfItsOwn start).

Definition containerHoldsUnclaimedBytes (start : writtenStart) (found : list sensitiveValue) (closesOn : Z) : bool :=
  let children := childrenWrittenInside start found in
  let last := lastLineOfTheInterior start closesOn in
  existsb (λ number,
    let written := src_Line src number in
    let tokens := childTokensOn children number in
    let from := if number =? ws_line start then ws_column start else firstColumn + indentWidth written in
    holdsUnclaimedRunes written from
      (interiorEndsAt written number last tokens (negb (closesOn =? noClosingIndicator))) tokens)
    (seqZ (ws_reachesBackTo start) (last - ws_reachesBackTo start + 1)).

Definition writtenStartOf (n : node) : writtenStart :=
  let at_ := positionOf src n in
  let number := Line at_ in
  if number <? firstLine then
    {| ws_line := number; ws_column := Col at_; ws_beginsOnALineOfItsOwn := false; ws_reachesBackTo := number |}
  else match n with
       | MappingNode _ _ =>
           if negb (IsFlowStyle n)
           then {| ws_line := number; ws_column := indentWidth (src_Line src number) + firstColumn;
                   ws_beginsOnALineOfItsOwn := true; ws_reachesBackTo := number |}
           else {| ws_line := number; ws_column := Col at_; ws_beginsOnALineOfItsOwn := writtenInBlockStyle n; ws_reachesBackTo := number |}
       | _ => {| ws_line := number; ws_column := Col at_; ws_beginsOnALineOfItsOwn := writtenInBlockStyle n; ws_reachesBackTo := number |}
       end.

Definition writtenStartReachingItsBlockOpener (n : node) : writtenStart :=
  let written := writtenStartOf n in
  match blockOpenerLineOf n with
  | None => written
  | Some opener =>
      if ws_line written <=? opener then written
      else {| ws_line := ws_line written; ws_column := ws_column written;
              ws_beginsOnALineOfItsOwn := ws_beginsOnALineOfItsOwn written; ws_reachesBackTo := opener + 1 |}
  end.

Definition containerEndLine (n : node) : Z :=
  let held := beneathNodeProperties n in
  match held with
  | MappingNode _ _ | SequenceNode _ _ _ => match End_ held with None => noClosingIndicator | Some closer => at_line closer end
  | _ => noClosingIndicator
  end.

Definition locatedAt (written : writtenStart) (n : node) (kind : sensitivity) : option sensitiveValue :=
  if ws_line written <? firstLine then None
  else Some {| sv_line := ws_line written; sv_column := ws_column written;
               beginsOnALineOfItsOwn := ws_beginsOnALineOfItsOwn written; reachesBackTo := ws_reachesBackTo written;
               writtenAsAContainer := held_as_a_container n; sv_text := String_ n; throughLine := containerEndLine n;
               ownsUnclaimedBytes := false; sv_kind := kind |}.

Definition locate (n : node) (kind : sensitivity) : option sensitiveValue :=
  locatedAt (writtenStartReachingItsBlockOpener n) n kind.

Definition locateElement (n : node) (kind : sensitivity) : option sensitiveValue := locatedAt (writtenStartOf n) n kind.

(** A child written inside the container ends no earlier than the container's closer. *)
Definition inheriting (start : writtenStart) (end_ : Z) (v : sensitiveValue) : sensitiveValue :=
  if (firstLine <=? ws_line start) && (ws_line start <=? sv_line v) && (sv_line v <=? end_) && (throughLine v <? end_)
  then ending_at end_ v else v.

Definition locateSensitiveChildren (container : node) (kind : sensitivity) : list sensitiveValue :=
  let start := writtenStartReachingItsBlockOpener container in
  let end_ := containerEndLine container in
  let found := inheriting start end_ <$> omap (λ child, locateElement child kind) (valuesOf container) in
  if (ws_line start <? firstLine) || negb (containerHoldsUnclaimedBytes start found end_) then found
  else match locate container entireValue with None => found | Some owner => found ++ [owning owner] end.

Definition locateSensitiveValues (container : node) (kind : sensitivity) : list sensitiveValue :=
  if negb (bool_decide (kind = entireValue)) then option_list (locate container kind)
  else locateSensitiveChildren container kind.

(** *** undeclaredshape.go *)

(** [sensitiveValuesOfUnknownEntry] over what the value's shape contributes. *)
Definition unknown_entry (name : gostring) (value : node) (beneath : list sensitiveValue) : list sensitiveValue :=
  if namesASensitiveKey name then
    match locateSensitiveValues value entireValue with [] => beneath | found => found end
  else beneath.

Definition unknown_mapping_entry (k value : node) (beneath : list sensitiveValue) : list sensitiveValue :=
  match keyTextOf k with
  | Some name => unknown_entry name value beneath
  | None => option_list (locate value entireValue)
  end.

Fixpoint sensitiveValuesBeneathAnUndeclaredShape (n : node) : list sensitiveValue :=
  match n with
  | AnchorNode _ _ v | TagNode _ v => sensitiveValuesBeneathAnUndeclaredShape v
  | MappingNode _ es =>
      flat_map (λ '(k, v), unknown_mapping_entry k v (sensitiveValuesBeneathAnUndeclaredShape v)) es
  | SequenceNode _ _ vs => flat_map sensitiveValuesBeneathAnUndeclaredShape vs
  | _ => []
  end.

Definition sensitiveValuesOfUnknownEntry (name : gostring) (value : node) : list sensitiveValue :=
  unknown_entry name value (sensitiveValuesBeneathAnUndeclaredShape value).

(** *** schemawalk.go *)

(** [sensitiveValuesUnder] over the walk of the value's nodes at the level beneath. *)
Definition declared_entry (spec : keySpec) (value : node) (children : mappingLevel -> list sensitiveValue) : list sensitiveValue :=
  let beneath :=
    match schemaLevels (child spec) with
    | None => sensitiveValuesBeneathAnUndeclaredShape value
    | Some level => children level
    end in
  if sensitive_key spec then match locateSensitiveValues value (sensitive spec) with [] => beneath | found => found end
  else beneath.

(** One entry of a mapping of a level. *)
Definition level_entry (level : mappingLevel) (k value : node) (children : mappingLevel -> list sensitiveValue) : list sensitiveValue :=
  match keyTextOf k with
  | None => option_list (locate value entireValue)
  | Some name =>
      match level_key level name with
      | None =>
          if freeForm level then sensitiveValuesBeneathAnUndeclaredShape value
          else sensitiveValuesOfUnknownEntry name value
      | Some spec => declared_entry spec value children
      end
  end.

(** [sensitiveValues] of a node at a level; with [each], of every node [valuesOf] answers for it. *)
Fixpoint walk (level : mappingLevel) (each : bool) (n : node) : list sensitiveValue :=
  match n with
  | AnchorNode _ _ v | TagNode _ v => walk level each v
  | MappingNode _ es => flat_map (λ '(k, v), level_entry level k v (λ below, walk below true v)) es
  | SequenceNode _ _ vs => if each then flat_map (walk level false) vs else sensitiveValuesBeneathAnUndeclaredShape n
  | _ => sensitiveValuesBeneathAnUndeclaredShape n
  end.

Definition sensitiveValues (level : mappingLevel) (n : node) : list sensitiveValue := walk level false n.

Definition sensitiveValuesUnder (spec : keySpec) (value : node) : list sensitiveValue :=
  declared_entry spec value (λ below, valuesOf value ≫= sensitiveValues below).

Lemma walk_each level n : walk level true n = valuesOf n ≫= sensitiveValues level.
Proof.
  unfold valuesOf. induction n as [| | | |m es _|m k vs _|m a v IH|m v IH| | | |] using node_induction; cbn [beneathNodeProperties];
    try exact IH; try (symmetry; apply app_nil_r).
  cbn [walk]. induction vs as [|v vs IH]; [done|]. cbn [flat_map]. by rewrite IH, bind_cons.
Qed.

(** A mapping's entries answer what the source's loop over them does. *)
Lemma sensitiveValues_mapping level m es :
  sensitiveValues level (MappingNode m es) =
  es ≫= λ '(k, value), level_entry level k value (λ below, valuesOf value ≫= sensitiveValues below).
Proof.
  unfold sensitiveValues. cbn [walk]. induction es as [|[k v] es IH]; [done|]. cbn [flat_map]. rewrite bind_cons, IH. f_equal.
  unfold level_entry. destruct (keyTextOf k); [|done]. destruct (level_key _ _); [|done]. unfold declared_entry.
  destruct (schemaLevels _); [|done]. by rewrite walk_each.
Qed.
End found.

(** ** rendercopy.go *)

Record columnShift := { shift_from : Z; shift_past : Z; shift_by : Z }.
Record renderCopy := { rc_lines : list gostring; continues : list bool; shifts : list (list columnShift) }.
Record quotableLines := { q_text : list gostring; q_shifts : list (list columnShift); withheld : list gostring }.

Definition newRenderCopy (src : source) : renderCopy :=
  {| rc_lines := src_lines src; continues := continuesPhysicalLine src; shifts := replicate (length (src_lines src)) [] |}.

(** The 0-based index of a 1-based line, [None] where indexing panics. *)
Definition line_index {A} (l : list A) (number : Z) : option nat :=
  if (firstLine <=? number) && (number <=? Z.of_nat (length l)) then Some (Z.to_nat (number - 1)) else None.

Definition rc_line (c : renderCopy) (number : Z) : option gostring :=
  i ← line_index (rc_lines c) number; rc_lines c !! i.

Definition rewrite_line (c : renderCopy) (number : Z) (text : gostring) : option renderCopy :=
  i ← line_index (rc_lines c) number;
  Some {| rc_lines := <[i := text]> (rc_lines c); continues := continues c; shifts := shifts c |}.

Definition count (c : renderCopy) : Z := Z.of_nat (length (rc_lines c)).

Definition carryReplacement (c : renderCopy) (number from past replacementRunes : Z) : option renderCopy :=
  if past <? from then Some c
  else
    i ← line_index (shifts c) number;
    Some {| rc_lines := rc_lines c; continues := continues c;
            shifts := alter (λ l, l ++ [{| shift_from := from; shift_past := past; shift_by := replacementRunes - (past - from) |}]) i (shifts c) |}.

Definition newQuotableLines (lines : list gostring) : quotableLines :=
  {| q_text := lines; q_shifts := replicate (length lines) []; withheld := [] |}.

Definition copy_quotable (c : renderCopy) : quotableLines := {| q_text := rc_lines c; q_shifts := shifts c; withheld := [] |}.

Definition withholding (q : quotableLines) (words : list gostring) : quotableLines :=
  {| q_text := q_text q; q_shifts := q_shifts q; withheld := words |}.

Definition shifted (original adjusted : Z) (s : columnShift) : Z :=
  if shift_past s <=? original then adjusted + shift_by s
  else if shift_from s <=? original then adjusted + (shift_from s - original)
  else adjusted.

(** [quotableLines.column]. *)
Definition rendered_column (q : quotableLines) (number original : Z) : Z :=
  match line_index (q_shifts q) number with
  | None => original
  | Some i => Z.max firstColumn (foldl (shifted original) original (q_shifts q !!! i))
  end.

(** ** redactiongeometry.go *)

Record redactionEdit := { edit_from : Z; edit_past : Z; edit_runes : Z }.

Definition placeholderRunes : Z := runeCount redactionPlaceholder.

Definition wholeValueEdit (v : sensitiveValue) (replacement : gostring) : redactionEdit :=
  {| edit_from := sv_column v; edit_past := sv_column v + runeCount (sv_text v); edit_runes := runeCount replacement |}.

Definition passwordEdits (text : gostring) (passwords : list span) (start : Z) : list redactionEdit :=
  map (λ password,
    let from_ := start + runeCount (take (from password) text) in
    {| edit_from := from_; edit_past := from_ + runeCount (byteSpan text password); edit_runes := placeholderRunes |}) passwords.

Definition connectionStringGeometry (v : sensitiveValue) : gostring * list redactionEdit :=
  if writtenAsAContainer v then let whole := redactedText (sv_text v) in (whole, [wholeValueEdit v whole])
  else let '(replacement, passwords) := redactedConnectionStringSpans (sv_text v) in
       (replacement, passwordEdits (sv_text v) passwords (sv_column v)).

Definition redactionGeometry (v : sensitiveValue) : gostring * list redactionEdit :=
  if bool_decide (sv_kind v = urlPassword) then connectionStringGeometry v
  else let replacement := redactedText (sv_text v) in
       if bool_decide (replacement = sv_text v) then (sv_text v, []) else (replacement, [wholeValueEdit v replacement]).

(** ** sensitivepaths.go *)

Definition strictness (kind : sensitivity) : nat :=
  match kind with publicValue => 0 | urlPassword => 1 | entireValue => 2 end.
Definition stricter (a b : sensitivity) : sensitivity := if (strictness a <? strictness b)%nat then b else a.

Definition strictestOf (kept value : sensitiveValue) : sensitiveValue :=
  {| sv_line := sv_line kept; sv_column := sv_column kept; beginsOnALineOfItsOwn := beginsOnALineOfItsOwn kept;
     reachesBackTo :=
       if (firstLine <=? reachesBackTo value) && ((reachesBackTo kept <? firstLine) || (reachesBackTo value <? reachesBackTo kept))
       then reachesBackTo value else reachesBackTo kept;
     writtenAsAContainer := writtenAsAContainer kept; sv_text := sv_text kept;
     throughLine := Z.max (throughLine kept) (throughLine value);
     ownsUnclaimedBytes := ownsUnclaimedBytes kept || ownsUnclaimedBytes value;
     sv_kind := stricter (sv_kind kept) (sv_kind value) |}.

Definition extent (v : sensitiveValue) : Z * Z * gostring := (sv_line v, sv_column v, sv_text v).

(** The value of an extent is merged into the one that came first. *)
Fixpoint coalesce (found : list sensitiveValue) (value : sensitiveValue) : list sensitiveValue :=
  match found with
  | [] => [value]
  | kept :: later => if bool_decide (extent kept = extent value) then strictestOf kept value :: later else kept :: coalesce later value
  end.

Definition coalescedSensitiveValues (values : list sensitiveValue) : list sensitiveValue := foldl coalesce [] values.

Definition rightmostOnItsLineFirst (a b : sensitiveValue) : comparison :=
  or_else (Z.compare (sv_line a) (sv_line b)) (Z.compare (sv_column b) (sv_column a)).

(** The line rewritten, whether the value's other lines go too, and what moved to its right. *)
Definition redactValue (src : source) (copied : gostring) (v : sensitiveValue) : gostring * bool * list redactionEdit :=
  if bool_decide (sv_text v = []) then (copied, true, [])
  else
    let written := src_Line src (sv_line v) in
    let start := sv_column v in
    if start <? firstColumn then (blankFromColumn copied firstColumn, true, [])
    else if negb (has_prefix (runesFrom written start) (sv_text v)) || ownsUnclaimedBytes v
    then (blankFromColumn copied start, true, [])
    else
      let split := continuesTheLineAbove (continuesPhysicalLine src) (sv_line v + 1) in
      let '(replacement, edits) := redactionGeometry v in
      if bool_decide (replacement = sv_text v) then (copied, split, [])
      else (replaceRunes copied start (runeCount (sv_text v)) replacement, split, edits).

(** ** sensitivereach.go *)

Definition leftOpenAfter (written : gostring) (start : Z) : sensitiveContinuation :=
  sensitiveContinuationAfter written (byteOffsetOf written start).

(** The loops over line numbers. *)
Fixpoint blank_gap (numbers : list Z) (c : renderCopy) : option renderCopy :=
  match numbers with
  | [] => Some c
  | number :: numbers =>
      written ← rc_line c number;
      c ← (if isBlankLine written then Some c else rewrite_line c number (blankPastIndentation written));
      blank_gap numbers c
  end.

Definition blankTheOpenerGapAbove (c : renderCopy) (v : sensitiveValue) : option renderCopy :=
  if reachesBackTo v <? firstLine then Some c
  else blank_gap (seqZ (reachesBackTo v) (sv_line v - reachesBackTo v)) c.

Fixpoint blank_through (numbers : list Z) (c : renderCopy) : option renderCopy :=
  match numbers with
  | [] => Some c
  | number :: numbers =>
      written ← rc_line c number;
      c ← rewrite_line c number (blankPastIndentation written);
      blank_through numbers c
  end.

Definition blankThroughClosingLine (c : renderCopy) (anchor through : Z) : option renderCopy :=
  blank_through (seqZ (anchor + 1) (Z.min through (count c) - anchor)) c.

Fixpoint blank_continuation (numbers : list Z) (least : Z) (opened : sensitiveContinuation) (c : renderCopy) : option renderCopy :=
  match numbers with
  | [] => Some c
  | number :: numbers =>
      written ← rc_line c number;
      if isBlankLine written then blank_continuation numbers least opened c
      else if negb (open opened) && (indentWidth written <? least) && negb (continuesTheLineAbove (continues c) number) then Some c
      else
        c ← rewrite_line c number (blankPastIndentation written);
        blank_continuation numbers least (if open opened then after opened written else opened) c
  end.

Definition blankIndentedContinuation (c : renderCopy) (anchor least : Z) (opened : sensitiveContinuation) : option renderCopy :=
  blank_continuation (seqZ (anchor + 1) (count c - anchor)) least opened c.

Definition blankValueReach (src : source) (c : renderCopy) (v : sensitiveValue) : option renderCopy :=
  if sv_line v <? throughLine v then blankThroughClosingLine c (sv_line v) (throughLine v)
  else
    let written := src_Line src (sv_line v) in
    blankIndentedContinuation c (sv_line v) (leastIndentInsideTheValue written (beginsOnALineOfItsOwn v))
      (leftOpenAfter written (sv_column v)).

Definition carry (number : Z) (c : renderCopy) (e : redactionEdit) : option renderCopy :=
  carryReplacement c number (edit_from e) (edit_past e) (edit_runes e).

(** One round of [redactDeclaredPaths]. *)
Definition redact_one (src : source) (c : renderCopy) (v : sensitiveValue) : option renderCopy :=
  copied ← rc_line c (sv_line v);
  let '(rewritten, spansLines, replacements) := redactValue src copied v in
  c ← rewrite_line c (sv_line v) rewritten;
  c ← foldl (λ c e, c ← c; carry (sv_line v) c e) (Some c) replacements;
  c ← blankTheOpenerGapAbove c v;
  if spansLines : bool then blankValueReach src c v else Some c.

Definition redact_all (src : source) (c : renderCopy) (values : list sensitiveValue) : option renderCopy :=
  foldl (λ c v, c ← c; redact_one src c v) (Some c) values.

Section paths.
Context `{ParsedText}.
(** [slices.SortFunc], which keeps no order among values that compare equal. *)
Context (SortFunc : list sensitiveValue -> list sensitiveValue).
Context (described : node -> gostring * gostring) (IsMergeKey canBeAKey : node -> bool).

(** What the table declares sensitive in a document, each extent once. *)
Definition declared_values (src : source) (root : node) : list sensitiveValue :=
  coalescedSensitiveValues
    match schemaLevels levelRoot with Some level => sensitiveValues src level (normalize src described IsMergeKey canBeAKey root).1 | None => [] end.

Definition redactDeclaredPaths (src : source) (root : node) : option quotableLines :=
  copy_quotable <$> redact_all src (newRenderCopy src) (SortFunc (declared_values src root)).

(** redact.go's [redactedBranch], given what the parser answers. *)
Definition pathsAreResolvable (root : option node) (diags : Errors) : bool :=
  bool_decide (diags = []) && bool_decide (is_Some root).

Definition redactedBranch (src : source) (root : option node) (diags : Errors) : option quotableLines :=
  match root with
  | Some root =>
      if pathsAreResolvable (Some root) diags then redactDeclaredPaths src root
      else Some (newQuotableLines (redactBySensitiveKeyName (src_lines src) (continuesPhysicalLine src)))
  | None => Some (newQuotableLines (redactBySensitiveKeyName (src_lines src) (continuesPhysicalLine src)))
  end.
End paths.
