(* ===== verification/Withheld.v ===== *)
(** * What is shown of a document that parses: the theorem of [Redact.v].

    A line's columns under a change to its right, the line with extents replaced, the line with nothing
    left but its indentation, and the round of [redactDeclaredPaths] as steps that keep each line in one of
    the two. *)

From S2P Require Import Prelude Policy Utf8 Source Quote Interpolate Diag Yaml Normalize Schema ConnString Fallback Redact.

Local Open Scope Z_scope.

(** ** The bytes of a text's first runes *)

(** [byteOffsetOf] counts from the first column. *)
Definition skip (n : nat) (s : gostring) : nat := offset_walk (Z.of_nat n) s 0.

Lemma offset_walk_shift s : forall c k d, offset_walk (c + d) s (k + d) = offset_walk c s k.
Proof.
  unfold offset_walk. induction s as [|seq r t He IH|b t He IH] using rune_ind; intros c k d; [done| |].
  - rewrite !(over_runes_seq _ _ _ _ _ He). replace (k + d =? c + d) with (k =? c) by (apply eq_true_iff_eq; lia).
    destruct (k =? c); [done|]. f_equal. rewrite <- (IH c (k + 1) d). f_equal. lia.
  - rewrite !(over_runes_error _ _ _ _ He). replace (k + d =? c + d) with (k =? c) by (apply eq_true_iff_eq; lia).
    destruct (k =? c); [done|]. f_equal. rewrite <- (IH c (k + 1) d). f_equal. lia.
Qed.

Lemma byteOffsetOf_skip line c : firstColumn <= c -> byteOffsetOf line c = skip (Z.to_nat (c - firstColumn)) line.
Proof.
  intros Hc. change (byteOffsetOf line c) with (offset_walk c line firstColumn). unfold skip.
  rewrite <- (offset_walk_shift line _ 0 firstColumn). f_equal; lia.
Qed.

Lemma skip_0 s : skip 0 s = 0%nat.
Proof. apply offset_walk_here. Qed.

Lemma skip_nil n : skip n [] = 0%nat.
Proof. done. Qed.

Lemma skip_seq n seq r t : encodes seq r -> skip (S n) (seq ++ t) = (length seq + skip n t)%nat.
Proof.
  intros He. unfold skip, offset_walk. rewrite (over_runes_seq _ _ _ _ _ He), (proj2 (Z.eqb_neq _ _)) by lia. f_equal.
  change (offset_walk (Z.of_nat (S n)) t (0 + 1) = offset_walk (Z.of_nat n) t 0).
  rewrite <- (offset_walk_shift t (Z.of_nat n) 0 1). f_equal. lia.
Qed.

Lemma skip_error n b t : DecodeRune (b :: t) = (RuneError, 1%nat) -> skip (S n) (b :: t) = S (skip n t).
Proof.
  intros He. unfold skip, offset_walk. rewrite (over_runes_error _ _ _ _ He), (proj2 (Z.eqb_neq _ _)) by lia. cbn [Nat.add]. f_equal.
  change (offset_walk (Z.of_nat (S n)) t (0 + 1) = offset_walk (Z.of_nat n) t 0).
  rewrite <- (offset_walk_shift t (Z.of_nat n) 0 1). f_equal. lia.
Qed.

Lemma runes_error b t : DecodeRune (b :: t) = (RuneError, 1%nat) -> runes (b :: t) = RuneError :: runes t.
Proof. intros He. unfold runes. by rewrite (over_runes_error _ _ _ _ He). Qed.

Lemma skip_le n s : (skip n s <= length s)%nat.
Proof.
  revert n. induction s as [|seq r t He IH|b t He IH] using rune_ind; intros [|n]; rewrite ?skip_0; try lia; [done| |].
  - rewrite (skip_seq _ _ _ _ He), length_app. specialize (IH n). lia.
  - rewrite (skip_error _ _ _ He). cbn [length]. specialize (IH n). lia.
Qed.

Lemma skip_add m n s : skip (m + n) s = (skip m s + skip n (drop (skip m s) s))%nat.
Proof.
  revert m. induction s as [|seq r t He IH|b t He IH] using rune_ind; intros [|m]; rewrite ?skip_0, ?drop_0; try done.
  - cbn [Nat.add]. rewrite !(skip_seq _ _ _ _ He), drop_app_add, IH. lia.
  - cbn [Nat.add]. rewrite !(skip_error _ _ _ He). cbn [drop]. rewrite IH. lia.
Qed.

Lemma skip_mono m n s : (m <= n)%nat -> (skip m s <= skip n s)%nat.
Proof. intros Hm. replace n with (m + (n - m))%nat by lia. rewrite skip_add. lia. Qed.

(** A text of whole runes is skipped by their number, whatever follows it. *)
Lemma skip_text text t : ValidString text = true -> skip (length (runes text)) (text ++ t) = length text.
Proof.
  induction text as [|seq r u He IH|b u He _] using rune_ind; intros Hv; [apply skip_0| |].
  - rewrite (ValidString_seq _ _ _ He) in Hv. rewrite (runes_seq _ _ _ He), <- app_assoc, length_app. cbn [length].
    by rewrite (skip_seq _ _ _ _ He), IH.
  - by rewrite (ValidString_error _ _ He) in Hv.
Qed.

(** A text that begins with no part of a rune begun before it. *)
Definition fresh (t : gostring) : Prop := match t with [] => True | c :: _ => code c < 128 end.

Lemma encodes_prefix seq r u v w : encodes seq r -> fresh v -> u <> [] -> u ++ v = seq ++ w -> exists u', u = seq ++ u'.
Proof.
  intros He Hv Hu Heq. destruct (decide (length seq <= length u)%nat) as [Hl|Hl].
  - exists (drop (length seq) u). apply (f_equal (take (length seq))) in Heq. rewrite take_app_length, take_app_le in Heq by done.
    by rewrite <- Heq at 1; rewrite take_drop.
  - exfalso. assert (Hv' : v !! 0%nat = seq !! length u).
    { rewrite <- (lookup_app_l seq w) by lia. rewrite <- Heq, lookup_app_r, Nat.sub_diag by lia. done. }
    destruct (lookup_lt_is_Some_2 seq (length u)) as [c Hc]; [lia|]. rewrite Hc in Hv'. destruct v as [|d v]; [done|].
    cbn in Hv'. injection Hv' as ->. cbn in Hv. apply list_elem_of_lookup_2 in Hc.
    destruct (encodes_ascii _ _ _ He Hc Hv) as [-> _]. destruct u; [done|cbn in Hl; lia].
Qed.

(** Where a column begins does not depend on what replaces the text to its right. *)
Lemma skip_prefix u : forall n v v', (n <= length (runes (u ++ v)))%nat -> (skip n (u ++ v) <= length u)%nat -> fresh v' ->
  skip n (u ++ v') = skip n (u ++ v).
Proof.
  induction u as [u IH] using (induction_ltof1 _ (@length ascii)). unfold ltof in IH. intros [|n] v v' Hn Hs Hv'; [by rewrite !skip_0|].
  destruct u as [|b u].
  { exfalso. cbn [app length] in *. destruct v as [|c v]; [cbn in Hn; lia|].
    destruct (DecodeRune_cases (c :: v)) as [(seq & r & t & Heq & He)|He]; [done| |].
    - rewrite Heq, (skip_seq _ _ _ _ He) in Hs. pose proof (encodes_length _ _ He). lia.
    - rewrite (skip_error _ _ _ He) in Hs. lia. }
  destruct (DecodeRune_cases ((b :: u) ++ v)) as [(seq & r & t & Heq & He)|He]; [done| |].
  - pose proof (encodes_length _ _ He) as Hl. rewrite Heq in Hn, Hs |- *.
    rewrite (skip_seq _ _ _ _ He) in Hs |- *. rewrite (runes_seq _ _ _ He) in Hn. cbn [length] in Hn.
    assert (Hu : exists u', b :: u = seq ++ u' /\ t = u' ++ v).
    { exists (drop (length seq) (b :: u)). pose proof (f_equal (take (length seq)) Heq) as H1. pose proof (f_equal (drop (length seq)) Heq) as H2.
      rewrite take_app_length, take_app_le in H1 by (cbn [length] in *; lia). rewrite drop_app_length, drop_app_le in H2 by (cbn [length] in *; lia).
      split; [by rewrite <- H1 at 1; rewrite take_drop|done]. }
    destruct Hu as (u' & Hu & ->). rewrite Hu, <- app_assoc, (skip_seq _ _ _ _ He). f_equal. apply IH; [|lia| |done].
    + rewrite Hu, length_app. lia.
    + rewrite Hu, length_app in Hs. lia.
  - cbn [app] in He, Hn, Hs |- *. rewrite (skip_error _ _ _ He) in Hs |- *. rewrite (runes_error _ _ He) in Hn. cbn [length] in Hn, Hs.
    assert (He' : DecodeRune (b :: u ++ v') = (RuneError, 1%nat)).
    { destruct (DecodeRune_cases (b :: u ++ v')) as [(seq & r & w & Heq & Hseq)|]; [done| |done].
      destruct (encodes_prefix seq r (b :: u) v' w Hseq Hv' ltac:(done) Heq) as [u' Hu].
      change (b :: u ++ v) with ((b :: u) ++ v) in He. rewrite Hu, <- app_assoc, (DecodeRune_encodes _ _ _ Hseq) in He.
      injection He as He1 He2. pose proof (encodes_no_error _ _ Hseq) as Hno. rewrite He1, He2 in Hno. done. }
    rewrite (skip_error _ _ _ He'). f_equal. apply IH; [cbn; lia|lia|lia|done].
Qed.

(** ** A line with extents replaced *)

(** The line from [at_] with each extent, in bytes, shown as the placeholder. *)
Fixpoint masked (raw : gostring) (at_ : nat) (extents : list (nat * nat)) : gostring :=
  match extents with
  | [] => drop at_ raw
  | (f, p) :: later => take (f - at_) (drop at_ raw) ++ redactionPlaceholder ++ masked raw p later
  end.

(** The extents stand in order from [at_] to [n]. *)
Fixpoint ordered (n at_ : nat) (extents : list (nat * nat)) : Prop :=
  match extents with
  | [] => (at_ <= n)%nat
  | (f, p) :: later => (at_ <= f)%nat /\ (f <= p)%nat /\ ordered n p later
  end.

Definition first_at (n : nat) (extents : list (nat * nat)) : nat := match extents with [] => n | (f, _) :: _ => f end.

Lemma ordered_le n at_ extents : ordered n at_ extents -> (at_ <= first_at n extents <= n)%nat.
Proof.
  revert at_. induction extents as [|[f p] later IH]; intros at_; cbn [ordered first_at]; [lia|]. intros (Hf & Hp & H).
  apply IH in H. lia.
Qed.

Lemma ordered_from n at_ b extents : ordered n at_ extents -> (b <= first_at n extents)%nat -> ordered n b extents.
Proof. destruct extents as [|[f p] later]; cbn [ordered first_at]; [lia|]. intros (_ & Hp & H) Hb. done. Qed.

Lemma masked_from raw at_ b extents : (at_ <= b)%nat -> (b <= first_at (length raw) extents)%nat -> ordered (length raw) at_ extents ->
  masked raw at_ extents = take (b - at_) (drop at_ raw) ++ masked raw b extents.
Proof.
  intros Hb Hf Ho. destruct extents as [|[f p] later]; cbn [masked first_at ordered] in *.
  - rewrite <- (take_drop (b - at_) (drop at_ raw)) at 1. by rewrite drop_drop, Nat.add_comm, Nat.sub_add.
  - rewrite <- (take_drop (b - at_) (take (f - at_) (drop at_ raw))), take_take, Nat.min_l, <- app_assoc by lia.
    f_equal. rewrite List.skipn_firstn_comm, drop_drop, (Nat.add_comm at_), Nat.sub_add by lia.
    by replace (f - at_ - (b - at_))%nat with (f - b)%nat by lia.
Qed.

(** What follows the first extent begins with the placeholder. *)
Lemma masked_split raw extents : ordered (length raw) 0 extents ->
  exists tail, masked raw 0 extents = take (first_at (length raw) extents) raw ++ tail /\ fresh tail /\
    masked raw (first_at (length raw) extents) extents = tail.
Proof.
  intros Ho. pose proof (ordered_le _ _ _ Ho) as Hle. rewrite (masked_from raw 0 (first_at (length raw) extents)) by (done || lia).
  rewrite drop_0, Nat.sub_0_r. eexists. split; [done|]. split; [|done].
  destruct extents as [|[f p] later]; cbn [masked first_at]; [by rewrite drop_all|]. rewrite Nat.sub_diag. done.
Qed.

Lemma runes_count line : runeCount line = Z.of_nat (length (runes line)).
Proof. done. Qed.

Lemma masked_column raw extents c : ordered (length raw) 0 extents -> firstColumn <= c <= firstColumn + runeCount raw ->
  (byteOffsetOf raw c <= first_at (length raw) extents)%nat ->
  byteOffsetOf (masked raw 0 extents) c = byteOffsetOf raw c.
Proof.
  intros Ho Hc Hle. destruct (masked_split raw extents Ho) as (tail & -> & Hfresh & _). rewrite !byteOffsetOf_skip in * by lia.
  pose proof (ordered_le _ _ _ Ho) as Hf. rewrite runes_count in Hc.
  pose proof (take_drop (first_at (length raw) extents) raw) as Hraw. rewrite <- Hraw at 3.
  apply skip_prefix; [rewrite Hraw; lia| |done]. by rewrite Hraw, length_take, Nat.min_l by lia.
Qed.

(** *** The three ways a value is replaced on its line *)

Lemma cut_masked raw extents c : ordered (length raw) 0 extents -> firstColumn <= c <= firstColumn + runeCount raw ->
  (byteOffsetOf raw c <= first_at (length raw) extents)%nat ->
  blankFromColumn (masked raw 0 extents) c = masked raw 0 [(byteOffsetOf raw c, length raw)].
Proof.
  intros Ho Hc Hle. unfold blankFromColumn. rewrite masked_column by done. destruct (masked_split raw extents Ho) as (tail & -> & _).
  pose proof (ordered_le _ _ _ Ho). cbn [masked]. rewrite Nat.sub_0_r, drop_0, drop_all, app_nil_r.
  rewrite take_app_le by (rewrite length_take; lia). by rewrite take_take, Nat.min_l.
Qed.

Lemma has_prefix_take s p : has_prefix s p = true -> s = p ++ drop (length p) s.
Proof. intros H. apply has_prefix_spec in H as [r ->]. by rewrite drop_app_length. Qed.

Lemma replace_masked raw extents c text replacement : ordered (length raw) 0 extents -> firstColumn <= c <= firstColumn + runeCount raw ->
  ValidString text = true -> has_prefix (runesFrom raw c) text = true ->
  (byteOffsetOf raw c + length text <= first_at (length raw) extents)%nat ->
  replaceRunes (masked raw 0 extents) c (runeCount text) replacement =
  take (byteOffsetOf raw c) raw ++ replacement ++ masked raw (byteOffsetOf raw c + length text) extents.
Proof.
  intros Ho Hc Hv Hp Hle. pose proof (ordered_le _ _ _ Ho) as Hf. unfold replaceRunes, byteSpanOf.
  rewrite masked_column by (done || lia). set (o := byteOffsetOf raw c) in *.
  rewrite (masked_from raw 0 o) by (done || lia). rewrite drop_0, Nat.sub_0_r.
  rewrite take_app_le, take_take, Nat.min_id by (rewrite length_take; lia). do 2 f_equal.
  rewrite drop_app_ge by (rewrite length_take; lia). rewrite length_take, Nat.min_l by lia.
  rewrite (drop_app_ge _ _ o) by (rewrite length_take; lia). rewrite length_take, Nat.min_l, Nat.sub_diag, drop_0 by lia.
  assert (Ho' : ordered (length raw) o extents) by (apply (ordered_from _ 0); [done|lia]).
  assert (Htext : masked raw o extents = text ++ masked raw (o + length text) extents).
  { rewrite (masked_from raw o (o + length text)) by (done || lia). f_equal. rewrite Nat.add_comm, Nat.add_sub.
    unfold runesFrom in Hp. fold o in Hp. rewrite (has_prefix_take _ _ Hp). apply take_app_length. }
  rewrite Htext. unfold runeCount. rewrite byteOffsetOf_skip by (unfold firstColumn; lia).
  replace (Z.to_nat _) with (length (runes text)) by (unfold firstColumn; lia). rewrite skip_text by done.
  rewrite Nat.add_comm, Nat.add_sub. by rewrite drop_app_length.
Qed.

Definition shifted_by (o : nat) (extents : list (nat * nat)) : list (nat * nat) := map (λ e, (o + e.1, o + e.2)%nat) extents.

(** What is shown of a text that stands in a line is what is shown of the line there. *)
Lemma masked_embed raw o text extents inner at_ : has_prefix (drop o raw) text = true -> (at_ <= length text)%nat ->
  ordered (length text) at_ inner -> ordered (length raw) (o + length text) extents ->
  masked text at_ inner ++ masked raw (o + length text) extents = masked raw (o + at_) (shifted_by o inner ++ extents).
Proof.
  intros Hp. pose proof (has_prefix_take _ _ Hp) as Hraw. revert at_. induction inner as [|[f p] later IH]; intros at_ Hat Hi He;
    pose proof (ordered_le _ _ _ He) as Hle.
  - cbn [masked shifted_by map app]. rewrite (masked_from raw (o + at_) (o + length text));
      [|lia|lia|by apply (ordered_from _ (o + length text)); [|lia]].
    f_equal. rewrite <- drop_drop, Hraw, drop_app_le, take_app_le by (rewrite ?length_drop; lia).
    symmetry. apply take_ge. rewrite length_drop. lia.
  - cbn [masked shifted_by map app ordered fst snd] in *. destruct Hi as (Hf & Hfp & Hi). pose proof (ordered_le _ _ _ Hi) as Hl.
    rewrite <- !app_assoc. f_equal; [|f_equal; by apply IH; [lia|..]].
    replace (o + f - (o + at_))%nat with (f - at_)%nat by lia.
    rewrite <- drop_drop, Hraw, drop_app_le, take_app_le by (rewrite ?length_drop; lia). done.
Qed.

Lemma ordered_app n k at_ inner extents : ordered k at_ inner -> ordered n k extents -> (k <= n)%nat -> ordered n at_ (inner ++ extents).
Proof.
  revert at_. induction inner as [|[f p] later IH]; intros at_; cbn [ordered app].
  - intros Hk He Hn. apply (ordered_from _ k); [done|]. apply ordered_le in He. lia.
  - intros (Hf & Hp & H) He Hn. split_and!; [done|done|by apply IH].
Qed.

Lemma ordered_shifted n at_ o extents : ordered n at_ extents -> ordered (o + n) (o + at_) (shifted_by o extents).
Proof.
  revert at_. induction extents as [|[f p] later IH]; intros at_; cbn [ordered shifted_by map fst snd]; [lia|].
  intros (Hf & Hp & H). split_and!; [lia|lia|by apply IH].
Qed.

(** *** Connection strings *)

Definition extent_of (s : span) : nat * nat := (from s, to s).

(** The passwords written in a text, without those that are bare references. *)
Definition string_extents (text : gostring) : list (nat * nat) :=
  map extent_of (filter (λ s, isBareEnvReference (byteSpan text s) = false) (ordered_spans text)).

Lemma spans_ordered (text : gostring) (P : span -> Prop) `{!forall s, Decision (P s)} spans at_ : StronglySorted (λ a b, to a < from b)%nat spans ->
  Forall (sound_span (length text)) spans -> Forall (λ s, at_ <= from s)%nat spans -> (at_ <= length text)%nat ->
  ordered (length text) at_ (map extent_of (filter P spans)).
Proof.
  revert at_. induction spans as [|s spans IH]; intros at_ Hs Hin Hat Hl; [done|].
  apply StronglySorted_cons in Hs as [Hall Hs]. apply Forall_cons in Hin as [[H1 H2] Hin], Hat as [Ha Hat].
  assert (Hto : Forall (λ b, to s <= from b)%nat spans) by (eapply Forall_impl; [exact Hall|cbn; lia]).
  rewrite filter_cons. destruct (decide (P s)); [|by apply IH]. cbn [map ordered extent_of]. split_and!; [done|done|by apply IH].
Qed.

Lemma stitch_masked (text : gostring) spans at_ : StronglySorted (λ a b, to a < from b)%nat spans ->
  Forall (sound_span (length text)) spans -> Forall (λ s, at_ <= from s)%nat spans -> (at_ <= length text)%nat ->
  stitch text at_ spans = masked text at_ (map extent_of (filter (λ s, isBareEnvReference (byteSpan text s) = false) spans)).
Proof.
  revert at_. induction spans as [|s spans IH]; intros at_ Hs Hin Hat Hl; [done|].
  apply StronglySorted_cons in Hs as [Hall Hs]. apply Forall_cons in Hin as [[H1 H2] Hin], Hat as [Ha Hat].
  assert (Hto : Forall (λ b, to s <= from b)%nat spans) by (eapply Forall_impl; [exact Hall|cbn; lia]).
  cbn [stitch]. rewrite (IH (to s)) by done. unfold redactedText. rewrite filter_cons.
  destruct (isBareEnvReference (byteSpan text s)) eqn:Hb; cbn [decide].
  - rewrite decide_False by done. set (es := map extent_of _).
    assert (Ho : ordered (length text) (to s) es) by by apply spans_ordered.
    pose proof (ordered_le _ _ _ Ho) as Hle.
    rewrite (masked_from text at_ (to s) es); [|lia|lia|by apply (ordered_from _ (to s)); [|lia]].
    rewrite app_assoc. f_equal. unfold byteSpan.
    rewrite <- (take_drop (from s - at_) (take (to s - at_) (drop at_ text))), take_take, Nat.min_l by lia. f_equal.
    rewrite List.skipn_firstn_comm, drop_drop, (Nat.add_comm at_), Nat.sub_add by lia. f_equal. lia.
  - rewrite decide_True by done. done.
Qed.

Lemma redactedConnectionString_masked text : (redactedConnectionStringSpans text).1 = masked text 0 (string_extents text).
Proof.
  destruct (passwordSpans_ok text) as (Ha & Hin & _). unfold redactedConnectionStringSpans.
  rewrite <- (reverse_involutive (passwordSpans text)). fold (ordered_spans text).
  assert (Hin' : Forall (sound_span (length text)) (ordered_spans text)) by (unfold ordered_spans; by apply Forall_reverse).
  assert (Hat : Forall (λ s, 0 <= from s)%nat (ordered_spans text)) by (apply Forall_true; lia).
  assert (Hr : apart (reverse (ordered_spans text))) by (unfold ordered_spans; by rewrite reverse_involutive).
  rewrite (redact_stitch text 0) by (done || lia). cbn [take app]. apply stitch_masked; [by apply apart_ascending|done|done|lia].
Qed.

Lemma string_extents_ordered text : ordered (length text) 0 (string_extents text).
Proof.
  destruct (passwordSpans_ok text) as (Ha & Hin & _). apply spans_ordered; [|by apply Forall_reverse|apply Forall_true; lia|lia].
  apply apart_ascending. unfold ordered_spans. by rewrite reverse_involutive.
Qed.

(** ** A line with nothing left *)

Definition filler : gostring := indentCharacters ++ redactionPlaceholder.
Definition nothing_left (s : gostring) : Prop := Forall (λ c, c ∈ filler) s.

Lemma placeholder_blanked : nothing_left redactionPlaceholder.
Proof. apply Forall_forall. intros c Hc. unfold filler. set_solver. Qed.

Lemma blanked_app a b : nothing_left a -> nothing_left b -> nothing_left (a ++ b).
Proof. intros. by apply Forall_app. Qed.

Lemma blankFromColumn_blanked s c : nothing_left s -> nothing_left (blankFromColumn s c).
Proof. intros Hs. apply blanked_app; [by apply Forall_take|apply placeholder_blanked]. Qed.

Lemma replaceRunes_blanked s c n : nothing_left s -> nothing_left (replaceRunes s c n redactionPlaceholder).
Proof.
  intros Hs. unfold replaceRunes. destruct (byteSpanOf s c n).
  apply blanked_app; [by apply Forall_take|apply blanked_app; [apply placeholder_blanked|by apply Forall_drop]].
Qed.

Lemma blankPastIndentation_blanked s : nothing_left (blankPastIndentation s).
Proof.
  rewrite blankPastIndentation_shows. apply blanked_app; [|apply placeholder_blanked].
  eapply Forall_impl; [apply indentation_bytes|]. intros c Hc. unfold filler. set_solver.
Qed.

Lemma indentation_blanked_line s : indentation (blankPastIndentation s) = indentation s.
Proof.
  rewrite blankPastIndentation_shows. induction s as [|c s IH]; [done|]. cbn [indentation].
  destruct (contains_byte c indentCharacters) eqn:E; [|done]. cbn [app indentation]. by rewrite E, IH.
Qed.

Lemma blankPastIndentation_twice s : blankPastIndentation (blankPastIndentation s) = blankPastIndentation s.
Proof. by rewrite (blankPastIndentation_shows (blankPastIndentation s)), indentation_blanked_line, blankPastIndentation_shows. Qed.

Lemma indentWidth_blanked s : indentWidth (blankPastIndentation s) = indentWidth s.
Proof. by rewrite !indentWidth_indentation, indentation_blanked_line. Qed.

(** *** What is not blank *)

Lemma trim_all_keeps cut (c : ascii) : (forall s r s', cut s r = Some s' -> c ∈ s -> c ∉ r -> c ∈ s') -> Forall (λ r, c ∉ r) space_runes ->
  forall fuel s, c ∈ s -> c ∈ trim_all cut fuel s.
Proof.
  intros Hcut Hr fuel. induction fuel as [|fuel IH]; intros s Hs; [done|]. cbn [trim_all]. destruct (trim_one cut s) as [s'|] eqn:E; [|done].
  apply IH. unfold trim_one in E. apply bind_Some in E as ([i r] & Hf & E). apply list_find_Some in Hf as (Hi & _ & _).
  eapply Hcut; [exact E|done|]. exact (Forall_lookup_1 _ _ _ _ Hr Hi).
Qed.

Lemma TrimSpace_keeps c s : Forall (λ r, c ∉ r) space_runes -> c ∈ s -> c ∈ TrimSpace s.
Proof.
  intros Hr Hs. unfold TrimSpace. apply trim_all_keeps; [|done|apply trim_all_keeps; [|done|done]].
  - intros s0 r s'. unfold cut_back, has_suffix. destruct (_ && _) eqn:E; [|done]. intros [= <-] Hc Hn. bool_to_prop. simplify_eq/=.
    rewrite <- (take_drop (length s0 - length r) s0) in Hc. apply elem_of_app in Hc as [Hc|Hc]; [done|]. congruence.
  - intros s0 r s'. unfold cut_front. destruct (has_prefix s0 r) eqn:E; [|done]. intros [= <-] Hc Hn.
    apply has_prefix_spec in E as [p ->]. rewrite drop_app_length. set_solver.
Qed.

Lemma placeholder_not_blank a b : isBlankLine (a ++ redactionPlaceholder ++ b) = false.
Proof.
  unfold isBlankLine. apply bool_decide_eq_false_2. intros H.
  assert (Hc : "["%char ∈ TrimSpace (a ++ redactionPlaceholder ++ b)).
  { apply TrimSpace_keeps; [|apply elem_of_app; right; apply elem_of_app; left; vm_compute; left].
    apply (bool_decide_unpack (Forall (λ r, "["%char ∉ r) space_runes)). vm_compute. exact I. }
  rewrite H in Hc. by apply elem_of_nil in Hc.
Qed.

Lemma blanked_line_not_blank s : isBlankLine (blankPastIndentation s) = false.
Proof. rewrite blankPastIndentation_shows, <- (app_nil_r redactionPlaceholder). apply placeholder_not_blank. Qed.

(** ** What a value replaces *)

Section withheld.
Context (src : source).

Abbreviation raw := (src_Line src).
Abbreviation marks := (continuesPhysicalLine src).
Abbreviation lines_ := (Z.of_nat (length (src_lines src))).

(** The value is what its line holds from its column on, and is replaced there. *)
Definition in_place (v : sensitiveValue) : bool :=
  negb (bool_decide (sv_text v = [])) && (firstColumn <=? sv_column v) &&
  has_prefix (runesFrom (raw (sv_line v)) (sv_column v)) (sv_text v) && negb (ownsUnclaimedBytes v).

(** Its other lines go as well. *)
Definition spans_lines (v : sensitiveValue) : bool := negb (in_place v) || continuesTheLineAbove marks (sv_line v + 1).

(** Only the passwords of a connection string go. *)
Definition in_place_string (v : sensitiveValue) : bool :=
  in_place v && bool_decide (sv_kind v = urlPassword) && negb (writtenAsAContainer v).

Definition start_of (v : sensitiveValue) : nat := byteOffsetOf (raw (sv_line v)) (Z.max firstColumn (sv_column v)).

(** The bytes of its text that a value replaced in place has to hide. *)
Definition text_extents (v : sensitiveValue) : list (nat * nat) :=
  if in_place_string v then string_extents (sv_text v)
  else if isBareEnvReference (sv_text v) then [] else [(0, length (sv_text v))]%nat.

(** The bytes of its own line that a value has to hide: of a value that cannot be read off its line, all
    that follows. *)
Definition secret_extents (v : sensitiveValue) : list (nat * nat) :=
  if bool_decide (sv_text v = []) then []
  else if in_place v then shifted_by (start_of v) (text_extents v)
  else [(start_of v, length (raw (sv_line v)))].

(** What the walk says of a value it located. *)
Record well_located (v : sensitiveValue) : Prop := {
  located_line : firstLine <= sv_line v;
  located_column : sv_column v <= firstColumn + runeCount (raw (sv_line v));
  located_text : ValidString (sv_text v) = true
}.

Definition replaced_extents (v : sensitiveValue) (extents : list (nat * nat)) : list (nat * nat) :=
  if bool_decide (sv_text v = []) then extents
  else if in_place v then secret_extents v ++ extents else secret_extents v.

Lemma redactValue_spans copied v : (redactValue src copied v).1.2 = spans_lines v.
Proof.
  unfold redactValue, spans_lines, in_place. case_bool_decide; [done|]. rewrite Z.ltb_antisym.
  destruct (firstColumn <=? sv_column v); cbn [negb andb]; [|done].
  destruct (has_prefix _ _); cbn [negb orb andb]; [|done]. destruct (ownsUnclaimedBytes v); cbn [negb orb]; [done|].
  destruct (redactionGeometry v) as [replacement edits]. by case_bool_decide.
Qed.

Lemma in_place_text v : in_place v = true -> sv_text v <> [].
Proof. unfold in_place. by case_bool_decide. Qed.

Lemma text_in_line v : in_place v = true -> has_prefix (drop (start_of v) (raw (sv_line v))) (sv_text v) = true /\
  firstColumn <= sv_column v /\ start_of v = byteOffsetOf (raw (sv_line v)) (sv_column v).
Proof.
  unfold in_place, start_of, runesFrom. intros H. bool_to_prop. rewrite Z.max_r by lia. split_and!; [done|lia|done].
Qed.

Lemma text_fits v : in_place v = true -> (start_of v + length (sv_text v) <= length (raw (sv_line v)))%nat.
Proof.
  intros (Hp & _ & _)%text_in_line. apply has_prefix_take, (f_equal length) in Hp. rewrite length_app, !length_drop in Hp.
  unfold start_of. pose proof (skip_le (Z.to_nat (Z.max firstColumn (sv_column v) - firstColumn)) (raw (sv_line v))) as Hs.
  rewrite <- byteOffsetOf_skip in Hs by lia. fold (start_of v) in *. lia.
Qed.

(** What stands past a value's last rune begins past its last byte. *)
Lemma start_beyond v column : in_place v = true -> well_located v -> sv_column v + runeCount (sv_text v) <= column ->
  (start_of v + length (sv_text v) <= byteOffsetOf (raw (sv_line v)) column)%nat.
Proof.
  intros Hin [_ _ Hv] Hc. destruct (text_in_line _ Hin) as (Hp & H1 & Ho). rewrite runes_count in Hc.
  rewrite Ho in *. rewrite !byteOffsetOf_skip in * by lia. set (m := Z.to_nat (sv_column v - firstColumn)) in *.
  etransitivity; [|apply (skip_mono (m + length (runes (sv_text v)))); lia].
  rewrite skip_add. apply Nat.add_le_mono_l. rewrite (has_prefix_take _ _ Hp), skip_text by done. lia.
Qed.

Lemma redactionGeometry_shows v : in_place v = true -> (redactionGeometry v).1 = masked (sv_text v) 0 (text_extents v).
Proof.
  intros Hin. unfold text_extents, in_place_string, redactionGeometry, connectionStringGeometry. rewrite Hin. cbn [andb].
  assert (Hredacted : redactedText (sv_text v) =
    masked (sv_text v) 0 (if isBareEnvReference (sv_text v) then [] else [(0, length (sv_text v))]%nat)).
  { unfold redactedText. destruct (isBareEnvReference _); [done|]. cbn [masked]. by rewrite drop_all. }
  case_bool_decide; cbn [andb].
  - destruct (writtenAsAContainer v); cbn [negb fst]; [exact Hredacted|]. rewrite <- redactedConnectionString_masked.
    by destruct (redactedConnectionStringSpans (sv_text v)).
  - case_bool_decide as Hs; cbn [fst]; [|exact Hredacted]. rewrite <- Hs at 1. exact Hredacted.
Qed.

Lemma text_extents_ordered v : ordered (length (sv_text v)) 0 (text_extents v).
Proof.
  unfold text_extents. destruct (in_place_string v); [apply string_extents_ordered|].
  destruct (isBareEnvReference _); cbn [ordered]; lia.
Qed.

Lemma redactValue_masked v extents : well_located v -> ordered (length (raw (sv_line v))) 0 extents ->
  (sv_text v <> [] -> start_of v <= first_at (length (raw (sv_line v))) extents)%nat ->
  (in_place v = true -> start_of v + length (sv_text v) <= first_at (length (raw (sv_line v))) extents)%nat ->
  (redactValue src (masked (raw (sv_line v)) 0 extents) v).1.1 = masked (raw (sv_line v)) 0 (replaced_extents v extents) /\
  ordered (length (raw (sv_line v))) 0 (replaced_extents v extents).
Proof.
  intros [Hl Hc Hv] Ho Hstart Hin. unfold redactValue, replaced_extents, secret_extents. case_bool_decide as Ht; [done|]. specialize (Hstart Ht).
  pose proof (ordered_le _ _ _ Ho) as Hle. destruct (in_place v) eqn:E.
  - destruct (text_in_line _ E) as (Hp & H1 & Hs). specialize (Hin eq_refl). rewrite (proj2 (Z.ltb_ge (sv_column v) firstColumn)) by lia.
    assert (Hcut : negb (has_prefix (runesFrom (raw (sv_line v)) (sv_column v)) (sv_text v)) || ownsUnclaimedBytes v = false).
    { unfold in_place in E. apply andb_true_iff in E as [[_ E1]%andb_true_iff E2]. rewrite E1. by destruct (ownsUnclaimedBytes v). }
    rewrite Hcut. pose proof (redactionGeometry_shows v E) as Hg. destruct (redactionGeometry v) as [replacement edits]. cbn [fst] in Hg.
    assert (He : ordered (length (raw (sv_line v))) (start_of v + length (sv_text v)) extents) by (apply (ordered_from _ 0); [done|lia]).
    assert (Hshow : take (start_of v) (raw (sv_line v)) ++ replacement ++ masked (raw (sv_line v)) (start_of v + length (sv_text v)) extents =
      masked (raw (sv_line v)) 0 (shifted_by (start_of v) (text_extents v) ++ extents)).
    { rewrite Hg, masked_embed by (done || apply text_extents_ordered || lia). rewrite Nat.add_0_r.
      assert (Hall : ordered (length (raw (sv_line v))) (start_of v) (shifted_by (start_of v) (text_extents v) ++ extents)).
      { apply (ordered_app _ (start_of v + length (sv_text v))); [|done|lia].
        rewrite <- (Nat.add_0_r (start_of v)) at 2. apply ordered_shifted, text_extents_ordered. }
      pose proof (ordered_le _ _ _ Hall). rewrite (masked_from (raw (sv_line v)) 0 (start_of v));
        [by rewrite drop_0, Nat.sub_0_r|lia|lia|by apply (ordered_from _ (start_of v)); [|lia]]. }
    split.
    + case_bool_decide as Hr; cbn [fst].
      * rewrite <- Hshow, Hr. rewrite (masked_from (raw (sv_line v)) 0 (start_of v)) by (done || lia). rewrite drop_0, Nat.sub_0_r. f_equal.
        assert (Ho' : ordered (length (raw (sv_line v))) (start_of v) extents) by (apply (ordered_from _ 0); [done|lia]).
        rewrite (masked_from _ _ (start_of v + length (sv_text v))) by (done || lia). f_equal.
        rewrite Nat.add_comm, Nat.add_sub, (has_prefix_take _ _ Hp). apply take_app_length.
      * rewrite <- Hshow, Hs in *. apply replace_masked; [done|lia|done|by rewrite <- (has_prefix_take _ _ Hp) || exact Hp|lia].
    + apply (ordered_app _ (start_of v + length (sv_text v))); [|done|lia].
      apply (ordered_from _ (start_of v + 0)); [apply ordered_shifted, text_extents_ordered|lia].
  - split; [|cbn [ordered]; lia]. unfold start_of in *.
    assert (0 <= runeCount (raw (sv_line v))) by (unfold runeCount; lia).
    destruct (Z.ltb_spec (sv_column v) firstColumn) as [Hlow|Hcol].
    + rewrite Z.max_l in * by lia. cbn [fst]. apply cut_masked; [done|lia|done].
    + rewrite Z.max_r in * by lia.
      assert (Hcut : negb (has_prefix (runesFrom (raw (sv_line v)) (sv_column v)) (sv_text v)) || ownsUnclaimedBytes v = true).
      { unfold in_place in E. rewrite bool_decide_eq_false_2, (proj2 (Z.leb_le firstColumn (sv_column v))) in E by done. cbn [negb andb] in E.
        by destruct (has_prefix _ _), (ownsUnclaimedBytes v). }
      rewrite Hcut. cbn [fst]. apply cut_masked; [done|lia|done].
Qed.

Lemma redactValue_blanked copied v : in_place_string v = false -> nothing_left copied -> nothing_left (redactValue src copied v).1.1.
Proof.
  unfold in_place_string, redactValue. intros Hs Hb. destruct (bool_decide_reflect (sv_text v = [])) as [Ht|Ht]; [exact Hb|].
  destruct (sv_column v <? firstColumn) eqn:Hc; [by apply blankFromColumn_blanked|].
  destruct (negb _ || _) eqn:Hcut; [by apply blankFromColumn_blanked|].
  assert (Hin : in_place v = true).
  { apply orb_false_iff in Hcut as [Hp%negb_false_iff Ho]. unfold in_place. rewrite bool_decide_eq_false_2, Hp, Ho by done.
    cbn [negb andb]. apply Z.ltb_ge in Hc. rewrite (proj2 (Z.leb_le _ _)) by lia. done. }
  rewrite Hin in Hs. cbn [andb] in Hs.
  assert (Hg : (redactionGeometry v).1 = redactedText (sv_text v)).
  { unfold redactionGeometry, connectionStringGeometry. case_bool_decide; cbn [andb] in Hs.
    - by destruct (writtenAsAContainer v).
    - case_bool_decide as Hr; [by rewrite Hr|done]. }
  destruct (redactionGeometry v) as [replacement edits]. cbn [fst] in Hg. subst replacement.
  destruct (bool_decide_reflect (redactedText (sv_text v) = sv_text v)) as [Hr|Hr]; [exact Hb|]. unfold redactedText in *. destruct (isBareEnvReference _); [done|]. by apply replaceRunes_blanked.
Qed.

(** ** How far a value reaches *)

(** A value that begins on a line of its own reaches the lines indented as far as that line; one that begins
    beside its key, those indented further than the key's line. *)
Definition least_indent (v : sensitiveValue) : Z :=
  indentWidth (raw (sv_line v)) + if beginsOnALineOfItsOwn v then 0 else 1.
Abbreviation anchor_indent v := (least_indent v).

Lemma least_indent_eq v : leastIndentInsideTheValue (raw (sv_line v)) (beginsOnALineOfItsOwn v) = least_indent v.
Proof. unfold leastIndentInsideTheValue, least_indent. destruct (beginsOnALineOfItsOwn v); lia. Qed.

Abbreviation left_open v := (leftOpenAfter (raw (sv_line v)) (sv_column v)).

(** A later line is inside the value by its indentation, as a blank line or the tail of a split one, or by
    a quote left open on the value's line and not written since. *)
Definition inside (v : sensitiveValue) (j : Z) : Prop :=
  isBlankLine (raw j) = true \/ anchor_indent v <= indentWidth (raw j) \/ continuesTheLineAbove marks j = true \/
  exists q, quote_ (left_open v) = Some q /\ forall i, sv_line v < i < j -> q ∉ raw i.

Definition reached (v : sensitiveValue) (k : Z) : Prop :=
  sv_line v < k /\
  if sv_line v <? throughLine v then k <= throughLine v else forall j, sv_line v < j <= k -> inside v j.

(** The most a value may blank: a value that leaves a quote or a flow container open, everything below. *)
Definition may_blank (v : sensitiveValue) (k : Z) : Prop :=
  (firstLine <= reachesBackTo v /\ reachesBackTo v <= k < sv_line v) \/
  (spans_lines v = true /\ sv_line v < k /\
   if sv_line v <? throughLine v then k <= throughLine v
   else open (left_open v) = true \/ forall j, sv_line v < j <= k ->
     isBlankLine (raw j) = true \/ anchor_indent v <= indentWidth (raw j) \/ continuesTheLineAbove marks j = true).

(** *** The loops over line numbers *)

Definition alike (c c' : renderCopy) : Prop :=
  length (rc_lines c') = length (rc_lines c) /\ continues c' = continues c /\ shifts c' = shifts c.

(** Some lines are blanked past their indentation, and nothing else. *)
Definition blanks (c c' : renderCopy) (may : Z -> Prop) (must : Z -> gostring -> Prop) : Prop :=
  alike c c' /\ forall k out, rc_line c k = Some out ->
    (rc_line c' k = Some out /\ ~ must k out) \/ (rc_line c' k = Some (blankPastIndentation out) /\ may k).

Lemma rc_line_in c k : firstLine <= k <= count c -> is_Some (rc_line c k).
Proof.
  intros Hk. unfold rc_line, line_index, count in *. unfold firstLine in *. rewrite (proj2 (Z.leb_le 1 k)), (proj2 (Z.leb_le k _)) by lia. cbn.
  apply lookup_lt_is_Some_2. lia.
Qed.

Lemma rc_line_bounds c k out : rc_line c k = Some out -> firstLine <= k <= count c.
Proof.
  unfold rc_line, line_index, count. destruct (_ && _) eqn:E; [|done]. intros _. apply andb_true_iff in E as [E1%Z.leb_le E2%Z.leb_le]. lia.
Qed.

Lemma rewrite_line_in c k text : firstLine <= k <= count c ->
  exists c', rewrite_line c k text = Some c' /\ alike c c' /\ rc_line c' k = Some text /\
    forall j, j <> k -> rc_line c' j = rc_line c j.
Proof.
  intros Hk. unfold rewrite_line, rc_line, line_index, count, firstLine in *.
  rewrite (proj2 (Z.leb_le 1 k)), (proj2 (Z.leb_le k _)) by lia. cbn [andb mbind option_bind].
  eexists. split; [done|]. cbn [rc_lines continues shifts]. unfold alike. cbn [rc_lines continues shifts].
  rewrite !length_insert. split_and!; [done|done|done| |].
  - rewrite (proj2 (Z.leb_le k _)) by lia. cbn. apply list_lookup_insert_eq. lia.
  - intros j Hj. destruct (_ && _) eqn:E; [|done]. apply andb_true_iff in E as [E1%Z.leb_le E2%Z.leb_le]. cbn.
    apply list_lookup_insert_ne. lia.
Qed.

Lemma alike_trans a b c : alike a b -> alike b c -> alike a c.
Proof. intros (H1 & H2 & H3) (H4 & H5 & H6). split_and!; congruence. Qed.

Lemma alike_count c c' : alike c c' -> count c' = count c.
Proof. intros (H & _). unfold count. by rewrite H. Qed.

Lemma blanks_refl c may must : (forall k out, rc_line c k = Some out -> ~ must k out) -> blanks c c may must.
Proof. intros Hm. split; [done|]. intros k out Ho. left. split; [done|by apply Hm]. Qed.

Lemma blanks_trans c c1 c2 may1 may2 must1 must2 (may : Z -> Prop) (must : Z -> gostring -> Prop) :
  blanks c c1 may1 must1 -> blanks c1 c2 may2 must2 -> (forall k, may1 k \/ may2 k -> may k) ->
  (forall k out, rc_line c k = Some out -> must k out -> must1 k out \/ must2 k out) -> blanks c c2 may must.
Proof.
  intros [Ha H1] [Hb H2] Hmay Hmust. split; [by eapply alike_trans|]. intros k out Ho.
  destruct (H1 k out Ho) as [[Ho1 Hn1]|[Ho1 Hm1]]; destruct (H2 _ _ Ho1) as [[Ho2 Hn2]|[Ho2 Hm2]].
  - left. split; [done|]. intros Hm. by destruct (Hmust _ _ Ho Hm).
  - right. eauto.
  - right. eauto.
  - right. rewrite blankPastIndentation_twice in Ho2. eauto.
Qed.

Lemma blank_one c k out : rc_line c k = Some out ->
  exists c', rewrite_line c k (blankPastIndentation out) = Some c' /\ blanks c c' (eq k) (λ j _, j = k) /\
    forall j, j <> k -> rc_line c' j = rc_line c j.
Proof.
  intros Ho. destruct (rewrite_line_in c k (blankPastIndentation out) (rc_line_bounds _ _ _ Ho)) as (c' & -> & Ha & Hk & Hj).
  exists c'. split; [done|]. split; [|done]. split; [done|]. intros j out' Ho'. destruct (decide (j = k)) as [->|Hn].
  - right. rewrite Ho in Ho'. by injection Ho' as <-.
  - left. by rewrite Hj.
Qed.

Lemma blank_gap_spec numbers : forall c, Forall (λ k, firstLine <= k <= count c) numbers ->
  exists c', blank_gap numbers c = Some c' /\ blanks c c' (.∈ numbers) (λ k out, k ∈ numbers /\ isBlankLine out = false).
Proof.
  induction numbers as [|k numbers IH]; intros c Hr; cbn [blank_gap].
  { exists c. split; [done|]. apply blanks_refl. by intros k out _ [Hk%elem_of_nil _]. }
  apply Forall_cons in Hr as [Hk Hr]. destruct (rc_line_in c k Hk) as [out Ho]. rewrite Ho. cbn [mbind option_bind].
  destruct (isBlankLine out) eqn:Hb; cbn [mbind option_bind].
  - destruct (IH c Hr) as (c' & -> & Hc'). exists c'. split; [done|]. eapply blanks_trans; [by apply (blanks_refl c (λ _, False) (λ _ _, False)); tauto|exact Hc'| |].
    + intros j [[]|Hj]. by right.
    + intros j out' Ho' [[->|Hj]%elem_of_cons Hb']; [|by right]. rewrite Ho in Ho'. injection Ho' as <-. congruence.
  - destruct (blank_one c k out Ho) as (c1 & -> & Hc1 & _). cbn [mbind option_bind].
    destruct (IH c1) as (c' & -> & Hc'). { by rewrite (alike_count c c1 (proj1 Hc1)). }
    exists c'. split; [done|]. eapply blanks_trans; [exact Hc1|exact Hc'| |].
    + intros j [->|Hj]; [by left|by right].
    + intros j out' _ [[->|Hj]%elem_of_cons Hb']; [by left|by right].
Qed.

Lemma blank_through_spec numbers : forall c, Forall (λ k, firstLine <= k <= count c) numbers ->
  exists c', blank_through numbers c = Some c' /\ blanks c c' (.∈ numbers) (λ k _, k ∈ numbers).
Proof.
  induction numbers as [|k numbers IH]; intros c Hr; cbn [blank_through].
  { exists c. split; [done|]. apply blanks_refl. by intros k out _ Hk%elem_of_nil. }
  apply Forall_cons in Hr as [Hk Hr]. destruct (rc_line_in c k Hk) as [out Ho]. rewrite Ho. cbn [mbind option_bind].
  destruct (blank_one c k out Ho) as (c1 & -> & Hc1 & _). cbn [mbind option_bind].
  destruct (IH c1) as (c' & -> & Hc'). { by rewrite (alike_count c c1 (proj1 Hc1)). }
  exists c'. split; [done|]. eapply blanks_trans; [exact Hc1|exact Hc'| |].
  - intros j [->|Hj]; [by left|by right].
  - intros j out' _ [->|Hj]%elem_of_cons; [by left|by right].
Qed.

(** What a quote left open is made of, and that only its own byte closes it. *)
Lemma after_loop_quotes fw text : forall skip before s, (forall q, quote_ s = Some q -> is_quote q = true) ->
  forall q, quote_ (after_loop fw skip before s text) = Some q -> is_quote q = true.
Proof.
  induction text as [|c rest IH]; intros skip before s Hs q; cbn [after_loop]; [apply Hs|]. destruct skip; [by apply IH|].
  destruct (quote_ s) as [o|] eqn:Ho.
  - unfold insideQuotedScalar. repeat case_bool_decide; apply IH; cbn [quote_ with_quote]; intros p; try done; intros [= <-]; by apply Hs.
  - destruct (beginsYAMLComment _ _); [by rewrite Ho|].
    assert (Hd : forall p, quote_ (delimited s c) = Some p -> is_quote p = true).
    { intros p. destruct (is_quote c) eqn:Hc; [|rewrite delimited_quote, Ho by done; done].
      unfold delimited. rewrite Hc. cbn. by intros [= <-]. }
    destruct (_ && _ && _); [exact (Hd q)|by apply IH].
Qed.

Lemma left_open_quotes v q : quote_ (left_open v) = Some q -> is_quote q = true.
Proof. unfold leftOpenAfter, sensitiveContinuationAfter, afterFrom. cbn [taintedClose noSensitiveContinuation]. by apply after_loop_quotes. Qed.

Lemma after_keeps_quote s out q : well_scanned s -> quote_ s = Some q -> q ∉ out -> quote_ (after s out) = Some q.
Proof.
  intros Hw Hq Hn. unfold after, afterFrom. destruct (taintedClose s) eqn:Ht; [by rewrite (Hw Ht) in Hq|]. rewrite drop_0. by apply after_loop_quote.
Qed.

Lemma quote_not_filler q s : is_quote q = true -> nothing_left s -> q ∉ s.
Proof.
  intros Hq Hs Hin. assert (Hf : q ∈ filler) by exact (proj1 (Forall_forall _ _) Hs q Hin). revert Hq.
  apply not_true_iff_false. clear Hin. revert q Hf. apply Forall_forall, (bool_decide_unpack _). vm_compute. exact I.
Qed.

(** A line as it was read, or blanked past its indentation. *)
Definition read_or_blanked (j : Z) (out : gostring) : Prop := out = raw j \/ out = blankPastIndentation (raw j).

Lemma read_indent j out : read_or_blanked j out -> indentWidth out = indentWidth (raw j).
Proof. intros [-> | ->]; [done|apply indentWidth_blanked]. Qed.

Lemma read_blank j out : read_or_blanked j out -> isBlankLine out = true -> out = raw j.
Proof. intros [-> | ->]; [done|by rewrite blanked_line_not_blank]. Qed.

Lemma read_no_quote j out q : read_or_blanked j out -> is_quote q = true -> q ∉ raw j -> q ∉ out.
Proof. intros [-> | ->] Hq Hn; [done|]. apply quote_not_filler; [done|apply blankPastIndentation_blanked]. Qed.

(** The quote open before the line [j], when nothing since the value's line closed it. *)
Definition quote_held (v : sensitiveValue) (j : Z) (opened : sensitiveContinuation) : Prop :=
  well_scanned opened /\ (open opened = true -> open (left_open v) = true) /\
  forall q, quote_ (left_open v) = Some q -> (forall i, sv_line v < i < j -> q ∉ raw i) -> quote_ opened = Some q.

Lemma quote_held_next v j opened out : read_or_blanked j out -> quote_held v j opened -> sv_line v < j ->
  quote_held v (j + 1) (if open opened then after opened out else opened).
Proof.
  intros Hr (Hw & Ho & Hq) Hj. split_and!.
  - destruct (open opened); [apply afterFrom_scanned|done].
  - by destruct (open opened) eqn:E; [intros _; apply Ho|rewrite E].
  - intros q Hv Hn. assert (Hopen : quote_ opened = Some q) by (apply Hq; [done|intros i Hi; apply Hn; lia]).
    assert (Ht : open opened = true) by (unfold open; rewrite Hopen; by rewrite bool_decide_eq_true_2).
    rewrite Ht. apply after_keeps_quote; [done|done|]. apply (read_no_quote j); [done|by apply (left_open_quotes v)|apply Hn; lia].
Qed.

Lemma quote_held_skip v j opened : quote_held v j opened -> quote_held v (j + 1) opened.
Proof. intros (Hw & Ho & Hq). split_and!; [done|done|]. intros q Hv Hn. apply Hq; [done|]. intros i Hi. apply Hn. lia. Qed.

Definition may_continue (v : sensitiveValue) (from k : Z) : Prop :=
  open (left_open v) = true \/ forall j, from <= j <= k ->
    isBlankLine (raw j) = true \/ anchor_indent v <= indentWidth (raw j) \/ continuesTheLineAbove marks j = true.

Lemma may_continue_back v from k : may_continue v (from + 1) k ->
  open (left_open v) = true \/ isBlankLine (raw from) = true \/ anchor_indent v <= indentWidth (raw from) \/ continuesTheLineAbove marks from = true ->
  may_continue v from k.
Proof.
  intros [H|H]; [by left|]. intros [Ho|Hf]; [by left|]. right. intros j Hj. destruct (decide (j = from)) as [->|]; [done|apply H; lia].
Qed.

Lemma blank_continuation_spec v n : forall from opened c, sv_line v < from -> firstLine <= from -> from + Z.of_nat n - 1 <= count c ->
  continues c = marks -> (forall j out, from <= j -> rc_line c j = Some out -> read_or_blanked j out) -> quote_held v from opened ->
  exists c', blank_continuation (seqZ from (Z.of_nat n)) (anchor_indent v) opened c = Some c' /\
    blanks c c' (λ k, from <= k < from + Z.of_nat n /\ may_continue v from k)
      (λ k out, from <= k < from + Z.of_nat n /\ isBlankLine out = false /\
         forall j, from <= j <= k -> inside v j /\ (isBlankLine (raw j) = true -> rc_line c j = Some (raw j))) /\
    forall k out, rc_line c k = Some out -> isBlankLine out = true -> rc_line c' k = Some out.
Proof.
  induction n as [|n IH]; intros from opened c Hv H1 Hn Hm Hr Hq.
  { rewrite seqZ_nil by lia. exists c. split_and!; [done| |done]. apply blanks_refl. intros k out _ [Hk _]. lia. }
  rewrite seqZ_cons by lia. replace (Z.pred (Z.of_nat (S n))) with (Z.of_nat n) by lia. rewrite <- Z.add_1_r. cbn [blank_continuation].
  destruct (rc_line_in c from ltac:(lia)) as [out Ho]. pose proof (Hr from out ltac:(lia) Ho) as Hread. rewrite Ho. cbn [mbind option_bind].
  destruct (isBlankLine out) eqn:Hb.
  - destruct (IH (from + 1) opened c ltac:(lia) ltac:(lia) ltac:(lia) Hm) as (c' & -> & Hc' & Hskip);
      [intros j out' Hj; apply Hr; lia|by apply quote_held_skip|].
    exists c'. split; [done|]. split; [|done]. pose proof (read_blank _ _ Hread Hb) as ->.
    eapply blanks_trans; [by apply (blanks_refl c (λ _, False) (λ _ _, False)); tauto|exact Hc'| |].
    + intros k [[]|[Hk Hmay]]. split; [lia|]. apply may_continue_back; auto.
    + intros k out' Ho' (Hk & Hb' & Hj). right. destruct (decide (k = from)) as [->|]; [rewrite Ho in Ho'; injection Ho' as <-; congruence|].
      split; [lia|]. split; [done|]. intros j Hjk. apply Hj. lia.
  - destruct (negb (open opened) && (indentWidth out <? anchor_indent v) && negb (continuesTheLineAbove (continues c) from)) eqn:Hstop.
    { exists c. split_and!; [done| |done]. apply blanks_refl. intros k out' _ (Hk & _ & Hj).
      apply andb_true_iff in Hstop as [[Hs1%negb_true_iff Hs2%Z.ltb_lt]%andb_true_iff Hs3%negb_true_iff]. rewrite Hm in Hs3.
      destruct (Hj from ltac:(lia)) as [[Hi|[Hi|[Hi|(q & Hi & Hno)]]] Hbl].
      - specialize (Hbl Hi). rewrite Ho in Hbl. injection Hbl as ->. congruence.
      - rewrite (read_indent _ _ Hread) in Hs2. lia.
      - congruence.
      - destruct Hq as (_ & _ & Hq). unfold open in Hs1. rewrite (Hq q Hi Hno) in Hs1. by rewrite bool_decide_eq_true_2 in Hs1. }
    assert (Hhere : open (left_open v) = true \/ isBlankLine (raw from) = true \/ anchor_indent v <= indentWidth (raw from) \/
      continuesTheLineAbove marks from = true).
    { rewrite Hm in Hstop. rewrite <- (read_indent _ _ Hread). destruct (continuesTheLineAbove marks from); [auto|].
      destruct (open opened) eqn:Eo; [left; by apply Hq|]. destruct (Z.ltb_spec (indentWidth out) (anchor_indent v)); [done|auto]. }
    destruct (blank_one c from out Ho) as (c1 & -> & Hc1 & Hothers). cbn [mbind option_bind]. destruct (proj1 Hc1) as (_ & Hcm & _).
    destruct (IH (from + 1) (if open opened then after opened out else opened) c1 ltac:(lia) ltac:(lia)) as (c' & -> & Hc' & Hskip).
    + rewrite (alike_count c c1 (proj1 Hc1)). lia.
    + by rewrite Hcm.
    + intros j out' Hj. rewrite Hothers by lia. apply Hr. lia.
    + by apply quote_held_next.
    + exists c'. split; [done|]. split.
      2: { intros k out' Ho' Hb'. apply Hskip; [|done]. destruct (decide (k = from)) as [->|]; [congruence|by rewrite Hothers]. }
      eapply blanks_trans; [exact Hc1|exact Hc'| |].
      * intros k [<-|[Hk Hmay]]; (split; [lia|]); [|by apply may_continue_back].
        destruct Hhere as [|Hhere]; [by left|]. right. intros j Hj. by replace j with from by lia.
      * intros k out' Ho' (Hk & Hb' & Hj). destruct (decide (k = from)) as [->|Hne]; [by left|]. right. split; [lia|]. split; [done|].
        intros j Hjk. destruct (Hj j ltac:(lia)) as [Hi Hbl]. split; [done|]. intros Hraw. rewrite Hothers by lia. by apply Hbl.
Qed.

(** ** The rounds *)

Definition before (a b : sensitiveValue) : Prop :=
  sv_line a < sv_line b \/ (sv_line a = sv_line b /\ sv_column b <= sv_column a).

(** What the sort's comparison does not put after is before. *)
Lemma ordered_before a b : rightmostOnItsLineFirst a b <> Gt -> before a b.
Proof.
  unfold rightmostOnItsLineFirst, before, or_else.
  destruct (Z.compare_spec (sv_line a) (sv_line b)) as [Hl|Hl|Hl], (Z.compare_spec (sv_column b) (sv_column a)); intros Hc; try done; lia.
Qed.

(** The values stand apart: none begins within the text of another that is replaced in place, and no
    connection string is replaced on a line another value may blank. *)
Record standing_apart (found : list sensitiveValue) : Prop := {
  apart_on_a_line : forall a b, a ∈ found -> b ∈ found -> a <> b -> sv_line a = sv_line b -> in_place a = true -> sv_text b <> [] ->
    sv_column a <= sv_column b -> sv_column a + runeCount (sv_text a) <= sv_column b;
  apart_strings : forall a b, a ∈ found -> b ∈ found -> in_place_string b = true -> ~ may_blank a (sv_line b)
}.

Definition covered_by (e : nat * nat) (extents : list (nat * nat)) : Prop :=
  exists e', e' ∈ extents /\ (e'.1 <= e.1)%nat /\ (e.2 <= e'.2)%nat.

(** The line as read, with extents replaced that cover what the values have to hide. *)
Definition line_masked (values : list sensitiveValue) (k : Z) (out : gostring) : Prop :=
  exists extents, out = masked (raw k) 0 extents /\ ordered (length (raw k)) 0 extents /\
    (forall v, v ∈ values -> sv_line v = k -> Forall (λ e, covered_by e extents) (secret_extents v)) /\
    (extents = [] \/ exists v, v ∈ values /\ sv_line v = k /\ sv_text v <> [] /\ start_of v <= first_at (length (raw k)) extents)%nat.

Record state (values : list sensitiveValue) (c : renderCopy) : Prop := {
  st_count : length (rc_lines c) = length (src_lines src);
  st_marks : continues c = marks;
  st_shifts : length (shifts c) = length (src_lines src);
  st_line : forall k out, rc_line c k = Some out ->
    line_masked values k out \/ (nothing_left out /\ exists a, a ∈ values /\ may_blank a k);
  st_below : forall k out, (forall v, v ∈ values -> sv_line v < k) -> rc_line c k = Some out ->
    read_or_blanked k out /\ (isBlankLine (raw k) = true -> out = raw k \/ exists z, z ∈ values /\ k <= throughLine z)
}.

Lemma ordered_in n at_ extents e : ordered n at_ extents -> e ∈ extents -> (first_at n extents <= e.1)%nat /\ (e.2 <= n)%nat.
Proof.
  revert at_. induction extents as [|[f p] later IH]; intros at_ Ho He; [by apply elem_of_nil in He|]. cbn [ordered first_at] in *.
  destruct Ho as (Hf & Hp & Ho). pose proof (ordered_le _ _ _ Ho). apply elem_of_cons in He as [->|He]; cbn [fst snd]; [lia|].
  destruct (IH p Ho He). lia.
Qed.

Lemma start_in_line v : (start_of v <= length (raw (sv_line v)))%nat.
Proof. unfold start_of. rewrite byteOffsetOf_skip by lia. apply skip_le. Qed.

Lemma start_mono a b : sv_line a = sv_line b -> sv_column a <= sv_column b -> (start_of a <= start_of b)%nat.
Proof. unfold start_of. intros ->. intros Hc. rewrite !byteOffsetOf_skip by lia. apply skip_mono. lia. Qed.

Lemma replaced_first v extents : ordered (length (raw (sv_line v))) 0 (replaced_extents v extents) -> sv_text v <> [] ->
  (in_place v = true -> start_of v + length (sv_text v) <= first_at (length (raw (sv_line v))) extents)%nat ->
  (start_of v <= first_at (length (raw (sv_line v))) (replaced_extents v extents))%nat.
Proof.
  unfold replaced_extents, secret_extents. intros Ho Ht Hin. rewrite bool_decide_eq_false_2 in * by done.
  destruct (in_place v); [|cbn [first_at]; lia]. specialize (Hin eq_refl).
  destruct (text_extents v) as [|[f p] later]; cbn [shifted_by map app first_at fst snd]; lia.
Qed.

Lemma replaced_covers v extents e : ordered (length (raw (sv_line v))) 0 extents ->
  (sv_text v <> [] -> start_of v <= first_at (length (raw (sv_line v))) extents)%nat -> covered_by e extents ->
  covered_by e (replaced_extents v extents).
Proof.
  intros Ho Hs (e' & He' & H1 & H2). unfold replaced_extents, secret_extents. case_bool_decide as Ht; [by exists e'|].
  destruct (in_place v).
  - exists e'. split; [apply elem_of_app; by right|done].
  - exists (start_of v, length (raw (sv_line v))). split; [by left|]. destruct (ordered_in _ _ _ _ Ho He'). specialize (Hs Ht). cbn [fst snd]. lia.
Qed.

Lemma own_extents_covered v extents : Forall (λ e, covered_by e (replaced_extents v extents)) (secret_extents v).
Proof.
  apply Forall_forall. intros e He. exists e. split; [|lia]. unfold replaced_extents. revert He. unfold secret_extents.
  case_bool_decide; [by intros He%elem_of_nil|]. destruct (in_place v); [|done]. intros He. apply elem_of_app. by left.
Qed.

(** A value's own line, after its round. *)
Lemma own_line found values v copied : standing_apart found -> v ∈ found -> (forall z, z ∈ values -> z ∈ found /\ z <> v /\ before z v) ->
  well_located v -> line_masked values (sv_line v) copied \/ (nothing_left copied /\ exists a, a ∈ values /\ may_blank a (sv_line v)) ->
  let out := (redactValue src copied v).1.1 in
  line_masked (values ++ [v]) (sv_line v) out \/ (nothing_left out /\ exists a, a ∈ values ++ [v] /\ may_blank a (sv_line v)).
Proof.
  intros Hapart Hv Hvalues Hw [(extents & -> & Ho & Hcov & Hfirst)|(Hb & a & Ha & Hm)]; cbv zeta.
  - left. assert (Hnext : forall z, z ∈ values -> sv_line z = sv_line v -> sv_text z <> [] ->
      sv_column v <= sv_column z /\ (in_place v = true -> sv_column v + runeCount (sv_text v) <= sv_column z)).
    { intros z Hz Hl Ht. destruct (Hvalues z Hz) as (Hf & Hne & [Hb|[_ Hb]]); [lia|]. split; [done|]. intros Hin.
      apply (apart_on_a_line found Hapart v z); auto. }
    assert (Hs : (sv_text v <> [] -> start_of v <= first_at (length (raw (sv_line v))) extents)%nat).
    { intros _. destruct Hfirst as [->|(z & Hz & Hl & Ht & Hf)]; [apply start_in_line|].
      destruct (Hnext z Hz Hl Ht) as [Hc _]. pose proof (start_mono v z (eq_sym Hl) Hc). lia. }
    assert (Hin : (in_place v = true -> start_of v + length (sv_text v) <= first_at (length (raw (sv_line v))) extents)%nat).
    { intros Hin. destruct Hfirst as [->|(z & Hz & Hl & Ht & Hf)]; [by apply text_fits|].
      destruct (Hnext z Hz Hl Ht) as [_ Hc]. pose proof (start_beyond v (Z.max firstColumn (sv_column z)) Hin Hw ltac:(specialize (Hc Hin); lia)) as H.
      unfold start_of in Hf at 1. rewrite Hl in Hf. lia. }
    destruct (redactValue_masked v extents Hw Ho Hs Hin) as [-> Ho']. exists (replaced_extents v extents). split_and!; [done|done| |].
    + intros z [Hz| ->%list_elem_of_singleton]%elem_of_app Hl; [|apply own_extents_covered].
      eapply Forall_impl; [by apply Hcov|]. intros e. by apply replaced_covers.
    + destruct (decide (sv_text v = [])) as [Ht|Ht].
      * unfold replaced_extents. rewrite bool_decide_eq_true_2 by done. destruct Hfirst as [|(z & Hz & H)]; [by left|right].
        exists z. split; [apply elem_of_app; by left|done].
      * right. exists v. split_and!; [apply elem_of_app; right; by left|done|done|by apply replaced_first].
  - right. split; [|exists a; split; [apply elem_of_app; by left|done]]. apply redactValue_blanked; [|done].
    destruct (in_place_string v) eqn:E; [|done]. destruct (apart_strings found Hapart a v); [by apply Hvalues|done|done|done].
Qed.

(** *** One round *)

Lemma carry_all number edits : forall c, firstLine <= number <= Z.of_nat (length (shifts c)) ->
  exists c', foldl (λ c e, c ← c; carry number c e) (Some c) edits = Some c' /\ rc_lines c' = rc_lines c /\ continues c' = continues c /\
    length (shifts c') = length (shifts c).
Proof.
  induction edits as [|e edits IH]; intros c Hn; cbn [foldl]; [by exists c|]. cbn [mbind option_bind].
  assert (exists c1, carry number c e = Some c1 /\ rc_lines c1 = rc_lines c /\ continues c1 = continues c /\ length (shifts c1) = length (shifts c)) as
    (c1 & -> & H1 & H2 & H3).
  { unfold carry, carryReplacement. destruct (_ <? _); [by exists c|]. unfold line_index, firstLine in *.
    rewrite (proj2 (Z.leb_le 1 number)), (proj2 (Z.leb_le number _)) by lia. cbn [andb mbind option_bind].
    eexists. split; [done|]. cbn [rc_lines continues shifts]. by rewrite length_alter. }
  destruct (IH c1) as (c' & -> & H4 & H5 & H6); [by rewrite H3|]. exists c'. split_and!; congruence.
Qed.

Lemma own_round values c v : state values c -> firstLine <= sv_line v <= lines_ ->
  exists c1 copied, rc_line c (sv_line v) = Some copied /\
    (forall k, (let '(rewritten, spansLines, replacements) := redactValue src copied v in
       c ← rewrite_line c (sv_line v) rewritten;
       c ← foldl (λ c e, c ← c; carry (sv_line v) c e) (Some c) replacements; k c spansLines) = k c1 (spans_lines v) :> option renderCopy) /\
    length (rc_lines c1) = length (src_lines src) /\ continues c1 = marks /\ length (shifts c1) = length (src_lines src) /\
    rc_line c1 (sv_line v) = Some (redactValue src copied v).1.1 /\ forall j, j <> sv_line v -> rc_line c1 j = rc_line c j.
Proof.
  intros [Hc Hm Hs _ _] Hl. destruct (rc_line_in c (sv_line v)) as [copied Ho]; [unfold count; by rewrite Hc|].
  pose proof (redactValue_spans copied v) as Hspans. destruct (redactValue src copied v) as [[rewritten spansLines] replacements] eqn:Ev. cbn [fst snd] in *.
  subst spansLines. destruct (rewrite_line_in c (sv_line v) rewritten) as (c1 & Hr & (Ha1 & Ha2 & Ha3) & Hk & Hj); [unfold count; by rewrite Hc|].
  destruct (carry_all (sv_line v) replacements c1) as (c2 & Hf & H1 & H2 & H3); [by rewrite Ha3, Hs|].
  exists c2, copied. split_and!; [done| |congruence|congruence|congruence| |].
  - intros k. rewrite Ev, Hr. cbn [mbind option_bind]. by rewrite Hf.
  - rewrite Ev. unfold rc_line in *. by rewrite H1.
  - intros j Hne. rewrite <- (Hj j Hne). unfold rc_line. by rewrite H1.
Qed.

Lemma gap_round c v : firstLine <= sv_line v <= count c ->
  exists c', blankTheOpenerGapAbove c v = Some c' /\
    blanks c c' (λ k, firstLine <= reachesBackTo v /\ reachesBackTo v <= k < sv_line v)
      (λ k out, firstLine <= reachesBackTo v /\ reachesBackTo v <= k < sv_line v /\ isBlankLine out = false).
Proof.
  intros Hl. unfold blankTheOpenerGapAbove. destruct (Z.ltb_spec (reachesBackTo v) firstLine).
  { exists c. split; [done|]. apply blanks_refl. intros k out _ (H1 & _). lia. }
  destruct (blank_gap_spec (seqZ (reachesBackTo v) (sv_line v - reachesBackTo v)) c) as (c' & -> & Ha & Hb).
  { apply Forall_forall. intros k Hk%elem_of_seqZ. lia. }
  exists c'. split; [done|]. split; [done|]. intros k out Ho. destruct (Hb k out Ho) as [[Ho' Hn]|[Ho' Hk%elem_of_seqZ]]; [left|right].
  - split; [done|]. intros (H1 & H2 & H3). apply Hn. split; [|done]. apply elem_of_seqZ. lia.
  - split; [done|]. lia.
Qed.

Lemma reach_round c v : firstLine <= sv_line v <= count c -> continues c = marks ->
  (forall j out, sv_line v < j -> rc_line c j = Some out -> read_or_blanked j out) ->
  exists c', blankValueReach src c v = Some c' /\
    blanks c c' (λ k, spans_lines v = true -> may_blank v k)
      (λ k out, reached v k /\ isBlankLine out = false /\
         (sv_line v < throughLine v \/ forall j, sv_line v < j <= k -> isBlankLine (raw j) = true -> rc_line c j = Some (raw j))) /\
    forall k out, rc_line c k = Some out -> isBlankLine out = true -> rc_line c' k = Some out \/ k <= throughLine v.
Proof.
  intros Hl Hm Hr. unfold blankValueReach, reached, may_blank. destruct (Z.ltb_spec (sv_line v) (throughLine v)) as [Ht|Ht].
  - unfold blankThroughClosingLine.
    destruct (blank_through_spec (seqZ (sv_line v + 1) (Z.min (throughLine v) (count c) - sv_line v)) c) as (c' & -> & Ha & Hb).
    { apply Forall_forall. intros k Hk%elem_of_seqZ. lia. }
    exists c'. split; [done|]. split.
    2: { intros k out Ho _. destruct (Hb k out Ho) as [[Ho' _]|[_ Hin%elem_of_seqZ]]; [by left|right; lia]. }
    split; [done|]. intros k out Ho. pose proof (rc_line_bounds _ _ _ Ho) as Hk.
    destruct (Hb k out Ho) as [[Ho' Hn]|[Ho' Hin%elem_of_seqZ]]; [left|right].
    + split; [done|]. intros ((H1 & H2) & _). apply Hn, elem_of_seqZ. lia.
    + split; [done|]. intros Hs. right. split_and!; [done|lia|lia].
  - rewrite least_indent_eq. unfold blankIndentedContinuation. replace (count c - sv_line v) with (Z.of_nat (Z.to_nat (count c - sv_line v))) by lia.
    destruct (blank_continuation_spec v (Z.to_nat (count c - sv_line v)) (sv_line v + 1) (left_open v) c) as (c' & -> & [Ha Hb] & Hskip);
      [lia|lia|lia|done|intros j out Hj; apply Hr; lia| |].
    { split_and!; [apply afterFrom_scanned|done|done]. }
    exists c'. split; [done|]. split; [|by intros k out Ho Hbl; left; apply Hskip].
    split; [done|]. intros k out Ho. pose proof (rc_line_bounds _ _ _ Ho) as Hk.
    destruct (Hb k out Ho) as [[Ho' Hn]|[Ho' [Hin Hmay]]]; [left|right].
    + split; [done|]. intros ((H1 & H2) & Hbl & [H3|H3]); [lia|]. apply Hn. split; [lia|]. split; [done|]. intros j Hj. split; [apply H2; lia|apply H3; lia].
    + split; [done|]. intros Hs. right. split_and!; [done|lia|]. destruct Hmay as [|Hmay]; [by left|right]. intros j Hj. apply Hmay. lia.
Qed.

(** The lines a value takes besides its own: those between its key and its text, and those it reaches
    below, unless it stands in a container another value closes. *)
Definition takes_line (found : list sensitiveValue) (v : sensitiveValue) (k : Z) : Prop :=
  (firstLine <= reachesBackTo v /\ reachesBackTo v <= k < sv_line v) \/
  (spans_lines v = true /\ reached v k /\
   (sv_line v < throughLine v \/ forall z, z ∈ found -> sv_line z <= sv_line v -> throughLine z <= sv_line v)).

Definition shows_nothing (c : renderCopy) (k : Z) : Prop := exists out, rc_line c k = Some out /\ nothing_left out.

Lemma masked_not_blank s extents : extents <> [] -> isBlankLine (masked s 0 extents) = false.
Proof. destruct extents as [|[f p] later]; [done|]. intros _. cbn [masked]. apply placeholder_not_blank. Qed.

Lemma nothing_shown c c' may must k : blanks c c' may must -> shows_nothing c k -> shows_nothing c' k.
Proof.
  intros [_ Hb] (out & Ho & Hbl). destruct (Hb k out Ho) as [[Ho' _]|[Ho' _]]; [by exists out|].
  eexists. split; [exact Ho'|apply blankPastIndentation_blanked].
Qed.

Section one_round.
Context (found values : list sensitiveValue) (v : sensitiveValue).
Hypothesis Hapart : standing_apart found.
Hypothesis Hv : v ∈ found.
Hypothesis Hvalues : forall z, z ∈ values -> z ∈ found /\ z <> v /\ before z v.
Hypothesis Hwell : well_located v.

Lemma earlier_lines z k : z ∈ values -> sv_line v < k -> sv_line z < k.
Proof using Hvalues. intros Hz Hk. destruct (Hvalues z Hz) as (_ & _ & [|[]]); lia. Qed.

Lemma gap_hides c c' k : state values c -> (forall j, j <> sv_line v -> rc_line c j = rc_line c' j) ->
  forall c3 may, blanks c' c3 may (λ k out, firstLine <= reachesBackTo v /\ reachesBackTo v <= k < sv_line v /\ isBlankLine out = false) ->
  firstLine <= reachesBackTo v /\ reachesBackTo v <= k < sv_line v -> k <= count c -> isBlankLine (raw k) = false -> shows_nothing c3 k.
Proof using.
  intros Hst Hsame c3 may [_ Hb] Hk Hin Hraw. destruct (rc_line_in c k ltac:(lia)) as [out Ho]. pose proof Ho as Ho'. rewrite Hsame in Ho' by lia.
  destruct (Hb k out Ho') as [[H3 Hn]|[H3 _]]; [|by eexists; split; [exact H3|apply blankPastIndentation_blanked]].
  exists out. split; [done|]. destruct (st_line _ _ Hst k out Ho) as [(extents & -> & _ & _)|[Hbl _]]; [|done].
  destruct Hn. split; [lia|]. split; [lia|]. destruct extents; [cbn [masked]; by rewrite drop_0|by apply masked_not_blank].
Qed.

Lemma reach_hides c c1 c3 c4 may k : state values c -> (forall j, j <> sv_line v -> rc_line c j = rc_line c1 j) ->
  (forall j, sv_line v < j -> rc_line c3 j = rc_line c1 j) ->
  blanks c3 c4 may (λ k out, reached v k /\ isBlankLine out = false /\
         (sv_line v < throughLine v \/ forall j, sv_line v < j <= k -> isBlankLine (raw j) = true -> rc_line c3 j = Some (raw j))) ->
  reached v k -> (sv_line v < throughLine v \/ forall z, z ∈ found -> sv_line z <= sv_line v -> throughLine z <= sv_line v) ->
  firstLine <= k <= count c -> isBlankLine (raw k) = false -> shows_nothing c4 k.
Proof using Hvalues Hwell.
  intros Hst Hsame Hlater [_ Hb] Hreach Hclear Hk Hraw. assert (Hlt : sv_line v < k) by apply Hreach.
  destruct (rc_line_in c k Hk) as [out Ho]. assert (Ho3 : rc_line c3 k = Some out) by (rewrite Hlater, <- Hsame by lia; done).
  destruct (Hb k out Ho3) as [[H4 Hn]|[H4 _]]; [|by eexists; split; [exact H4|apply blankPastIndentation_blanked]].
  destruct (st_below _ _ Hst k out (λ z Hz, earlier_lines z k Hz Hlt) Ho) as [[->| ->] _];
    [|by eexists; split; [exact H4|apply blankPastIndentation_blanked]].
  destruct Hn. split; [done|]. split; [done|]. destruct Hclear as [|Hclear]; [by left|right]. intros j Hj Hblank.
  rewrite Hlater, <- Hsame by lia. destruct (rc_line_in c j) as [outj Hoj]; [unfold firstLine in *; split; [|lia]|].
  { destruct Hwell as [Hl _ _]. unfold firstLine in Hl. lia. }
  destruct (st_below _ _ Hst j outj (λ z Hz, earlier_lines z j Hz (proj1 Hj)) Hoj) as [_ Hor].
  destruct (Hor Hblank) as [->|(z & Hz & Hthrough)]; [done|]. destruct (Hvalues z Hz) as (Hf & _ & [Hb'|[Hb' _]]);
    specialize (Hclear z Hf ltac:(lia)); lia.
Qed.

Lemma state_after c c1 c4 out : state values c -> firstLine <= sv_line v <= lines_ ->
  length (rc_lines c1) = length (src_lines src) -> continues c1 = marks -> length (shifts c1) = length (src_lines src) ->
  rc_line c1 (sv_line v) = Some out ->
  line_masked (values ++ [v]) (sv_line v) out \/ (nothing_left out /\ exists a, a ∈ values ++ [v] /\ may_blank a (sv_line v)) ->
  (forall j, j <> sv_line v -> rc_line c j = rc_line c1 j) ->
  (forall k out, sv_line v < k -> rc_line c1 k = Some out -> isBlankLine out = true -> rc_line c4 k = Some out \/ k <= throughLine v) ->
  forall must, blanks c1 c4 (may_blank v) must -> state (values ++ [v]) c4.
Proof using Hvalues.
  intros Hst Hl H1 H2 H3 Hout Hown Hsame Hskip must [(Ha1 & Ha2 & Ha3) Hb]. split; [congruence|congruence|congruence| |].
  - intros k out4 H4. destruct (rc_line_in c1 k) as [out1 Ho1]; [pose proof (rc_line_bounds _ _ _ H4) as Hk; unfold count in *; by rewrite Ha1 in Hk|].
    assert (Hkept : line_masked (values ++ [v]) k out1 \/ (nothing_left out1 /\ exists a, a ∈ values ++ [v] /\ may_blank a k)).
    { destruct (decide (k = sv_line v)) as [->|Hne]; [rewrite Hout in Ho1; by injection Ho1 as <-|].
      pose proof Ho1 as Ho. rewrite <- Hsame in Ho by done. destruct (st_line _ _ Hst k out1 Ho) as [(extents & -> & Ho' & Hcov & Hf)|(Hbl & a & Ha & Hm)].
      - left. exists extents. split_and!; [done|done| |].
        + intros z [Hz| ->%list_elem_of_singleton]%elem_of_app Hz'; [by apply Hcov|by destruct Hne].
        + destruct Hf as [|(z & Hz & Hrest)]; [by left|right]. exists z. split; [apply elem_of_app; by left|done].
      - right. split; [done|]. exists a. split; [apply elem_of_app; by left|done]. }
    destruct (Hb k out1 Ho1) as [[H4' _]|[H4' Hm]]; rewrite H4 in H4'; injection H4' as ->; [done|].
    right. split; [apply blankPastIndentation_blanked|]. exists v. split; [apply elem_of_app; right; by left|done].
  - intros k out4 Hbelow H4. assert (Hlt : sv_line v < k) by (apply Hbelow, elem_of_app; right; by left).
    destruct (rc_line_in c1 k) as [out1 Ho1]; [pose proof (rc_line_bounds _ _ _ H4) as Hk; unfold count in *; by rewrite Ha1 in Hk|].
    pose proof Ho1 as Ho. rewrite <- Hsame in Ho by lia.
    destruct (st_below _ _ Hst k out1 (λ z Hz, earlier_lines z k Hz Hlt) Ho) as [Hread Hor].
    destruct (Hb k out1 Ho1) as [[H4' _]|[H4' Hm]]; rewrite H4 in H4'; injection H4' as ->.
    + split; [done|]. intros Hbl. destruct (Hor Hbl) as [|(z & Hz & Ht)]; [by left|right]. exists z. split; [apply elem_of_app; by left|done].
    + split.
      * right. destruct Hread as [->| ->]; [done|apply blankPastIndentation_twice].
      * intros Hbl. destruct (Hor Hbl) as [->|(z & Hz & Ht)]; [|right; exists z; split; [apply elem_of_app; by left|done]].
        destruct (Hskip k (raw k) Hlt Ho1 Hbl) as [Hk|Ht]; [left; congruence|right]. exists v. split; [apply elem_of_app; right; by left|done].
Qed.

Lemma round c : state values c -> sv_line v <= lines_ ->
  exists c', redact_one src c v = Some c' /\ state (values ++ [v]) c' /\
    (forall k, takes_line found v k -> firstLine <= k <= lines_ -> isBlankLine (raw k) = false -> shows_nothing c' k) /\
    (forall k, (sv_line v = k -> in_place_string v = false) -> shows_nothing c k -> shows_nothing c' k).
Proof using Hapart Hv Hvalues Hwell.
  intros Hst Hl. pose proof (located_line _ Hwell) as H1. assert (Hcount : count c = lines_) by (unfold count; by rewrite (st_count _ _ Hst)).
  destruct (own_round values c v Hst ltac:(lia)) as (c1 & copied & Ho & Hone & Hc1 & Hm1 & Hs1 & Hown & Hothers).
  assert (Hcount1 : count c1 = lines_) by (unfold count; by rewrite Hc1).
  assert (Hsame : forall j, j <> sv_line v -> rc_line c j = rc_line c1 j) by (intros j Hj; symmetry; by apply Hothers).
  destruct (gap_round c1 v ltac:(lia)) as (c3 & Hgap & Hgapped). pose proof (alike_count _ _ (proj1 Hgapped)) as Hcount3.
  assert (Hlater : forall j, sv_line v <= j -> rc_line c3 j = rc_line c1 j).
  { intros j Hj. destruct (rc_line c1 j) as [o|] eqn:E.
    - destruct (proj2 Hgapped j o E) as [[-> _]|[_ Hno]]; [done|lia].
    - destruct (rc_line c3 j) as [o|] eqn:E3; [|done]. apply rc_line_bounds in E3. destruct (rc_line_in c1 j) as [o' Ho']; [lia|congruence]. }
  assert (Hreach : exists c4, (if spans_lines v then blankValueReach src c3 v else Some c3) = Some c4 /\
    blanks c3 c4 (λ k, may_blank v k) (λ k out, spans_lines v = true /\ reached v k /\ isBlankLine out = false /\
         (sv_line v < throughLine v \/ forall j, sv_line v < j <= k -> isBlankLine (raw j) = true -> rc_line c3 j = Some (raw j))) /\
    forall k out, rc_line c3 k = Some out -> isBlankLine out = true -> rc_line c4 k = Some out \/ k <= throughLine v).
  { destruct (spans_lines v) eqn:Hsp.
    - destruct (reach_round c3 v ltac:(lia)) as (c4 & -> & Hb & Hskip).
      + rewrite (proj1 (proj2 (proj1 Hgapped))). done.
      + intros j out Hj Hoj. rewrite Hlater in Hoj by lia. rewrite Hothers in Hoj by lia.
        apply (st_below _ _ Hst j out (λ z Hz, earlier_lines z j Hz Hj) Hoj).
      + exists c4. split; [done|]. split; [|done]. split; [apply Hb|]. intros k out Hk.
        destruct (proj2 Hb k out Hk) as [[H4 Hn]|[H4 Hmay]]; [left|right]; (split; [done|]); [by intros [_ H]|by apply Hmay].
    - exists c3. split; [done|]. split; [|by left]. apply blanks_refl. by intros k out _ [? _]. }
  destruct Hreach as (c4 & Hr & Hb & Hskip).
  assert (Hall : blanks c1 c4 (may_blank v) (λ _ _, False)).
  { eapply blanks_trans; [exact Hgapped|exact Hb| |by intros ??? []]. intros k [Hk|Hk]; [by left|done]. }
  exists c4. split_and!.
  - unfold redact_one. rewrite Ho. cbn [mbind option_bind]. etransitivity; [apply (Hone (λ c s, c ← blankTheOpenerGapAbove c v; if s : bool then blankValueReach src c v else Some c))|].
    by rewrite Hgap.
  - eapply (state_after c c1); [done|lia|done|done|done|exact Hown| |exact Hsame| |exact Hall].
    + apply (own_line found values v copied); [done|done|done|done|by apply (st_line _ _ Hst)].
    + intros k out Hk. rewrite <- Hlater by lia. by apply Hskip.
  - intros k [Hk|(Hsp & Hk & Hclear)] Hin Hraw.
    + eapply nothing_shown; [exact Hb|]. eapply (gap_hides c c1 k); [done|done|exact Hgapped|done|lia|done].
    + eapply (reach_hides c c1 c3 c4); [done|done|intros j Hj; apply Hlater; lia| |exact Hk|exact Hclear|lia|exact Hraw].
      split; [apply Hb|]. intros j out Hj. destruct (proj2 Hb j out Hj) as [[H4 Hn]|H4]; [left|by right]. split; [done|]. intros H. by apply Hn.
  - intros k Hstring (out & Hk & Hbl). eapply nothing_shown; [exact Hall|]. destruct (decide (k = sv_line v)) as [->|Hne].
    + exists (redactValue src copied v).1.1. split; [done|]. rewrite Ho in Hk. injection Hk as ->. by apply redactValue_blanked; [apply Hstring|].
    + exists out. by rewrite Hothers.
Qed.
End one_round.

(** *** All of them *)

Lemma takes_may_blank found v k : takes_line found v k -> may_blank v k.
Proof.
  intros [Hgap|(Hs & (Hk & Hreach) & _)]; [by left|right]. split; [done|]. split; [done|]. destruct (_ <? _); [done|].
  destruct (quote_ (left_open v)) as [q|] eqn:Hq; [left; unfold open; by rewrite Hq, bool_decide_eq_true_2|right].
  intros j Hj. destruct (Hreach j Hj) as [|[|[|(q & H & _)]]]; auto. congruence.
Qed.

Lemma every_round found rest : standing_apart found -> Forall well_located found -> Forall (λ v, sv_line v <= lines_) found ->
  forall values c, state values c -> NoDup (values ++ rest) -> (forall v, v ∈ values ++ rest -> v ∈ found) ->
  StronglySorted before (values ++ rest) ->
  exists c', redact_all src c rest = Some c' /\ state (values ++ rest) c' /\
    (forall v k, v ∈ rest -> takes_line found v k -> firstLine <= k <= lines_ -> isBlankLine (raw k) = false -> shows_nothing c' k) /\
    (forall k, (forall b, b ∈ found -> sv_line b = k -> in_place_string b = false) -> shows_nothing c k -> shows_nothing c' k).
Proof.
  intros Hapart Hwell Hin. unfold redact_all. induction rest as [|v rest IH]; intros values c Hst Hnd Hfound Hsort; cbn [foldl].
  { exists c. split; [done|]. rewrite app_nil_r in *. split_and!; [done|by intros v k ?%elem_of_nil|done]. }
  assert (Hv : v ∈ found) by (apply Hfound, elem_of_app; right; by left).
  assert (Hvalues : forall z, z ∈ values -> z ∈ found /\ z <> v /\ before z v).
  { intros z Hz. split_and!; [apply Hfound, elem_of_app; by left| |].
    - intros ->. apply NoDup_app in Hnd as (_ & Hno & _). apply (Hno v Hz). by left.
    - eapply (StronglySorted_app_1_elem_of _ values (v :: rest)); [exact Hsort|done|by left]. }
  rewrite (cons_middle v values rest), (app_assoc values) in *. cbn [mbind option_bind].
  destruct (round found values v Hapart Hv Hvalues (proj1 (Forall_forall _ _) Hwell v Hv) c Hst (proj1 (Forall_forall _ _) Hin v Hv))
    as (c1 & -> & Hst1 & Htaken & Hkeep).
  destruct (IH (values ++ [v]) c1 Hst1 Hnd Hfound Hsort) as (c' & -> & Hst' & Htaken' & Hkeep').
  exists c'. split_and!; [done|done| |].
  - intros z k [->|Hz]%elem_of_cons Ht Hk Hraw; [|by apply (Htaken' z)]. apply Hkeep'; [|by apply Htaken].
    intros b Hb Hl. destruct (in_place_string b) eqn:E; [|done]. destruct (apart_strings found Hapart v b Hv Hb E). rewrite Hl.
    by apply (takes_may_blank found).
  - intros k Hno Hk. apply Hkeep'; [done|]. apply Hkeep; [by apply Hno|done].
Qed.

Lemma rc_line_initial k out : rc_line (newRenderCopy src) k = Some out -> out = raw k.
Proof.
  intros Ho. pose proof (rc_line_bounds _ _ _ Ho) as Hb. unfold rc_line, line_index in Ho. unfold src_Line, count, firstLine in *.
  cbn [rc_lines newRenderCopy] in *. rewrite (proj2 (Z.leb_le 1 k)), (proj2 (Z.leb_le k _)) in Ho by lia.
  rewrite (proj2 (Z.ltb_ge k 1)), (proj2 (Z.ltb_ge _ k)) by lia. cbn in Ho |- *. symmetry. by apply list_lookup_total_correct.
Qed.

Lemma state_initial : state [] (newRenderCopy src).
Proof.
  split; [done|done|apply length_replicate| |].
  - intros k out ->%rc_line_initial. left. exists []. split_and!; [cbn [masked]; by rewrite drop_0|cbn; lia|by intros v ?%elem_of_nil|by left].
  - intros k out _ ->%rc_line_initial. split; [by left|by left].
Qed.
End withheld.

(** ** What the walk locates *)

Lemma scan_columns_range reported line : forall p r s, s <= r ->
  (scan_columns reported line p r s).1 = r + Z.of_nat (length line) /\ (scan_columns reported line p r s).2 <= r + Z.of_nat (length line).
Proof.
  induction line as [|char rest IH]; intros p r s Hs; cbn [scan_columns length]; [cbn; lia|].
  assert (Hnext : (if p =? reported then r else s) <= r + tabColumns) by (unfold tabColumns; destruct (p =? reported); lia).
  assert (Hnext1 : (if p =? reported then r else s) <= r + 1) by (destruct (p =? reported); lia). unfold tabColumns in *.
  destruct (char =? code TAB); [destruct (IH p _ _ Hnext)|destruct (IH (p + 1) _ _ Hnext1)]; lia.
Qed.

Lemma runeColumn_in_line line reported : runeColumn line reported <= firstColumn + runeCount line.
Proof.
  unfold runeColumn, runeCount, noColumn, firstColumn. destruct (reported <? 1); [lia|].
  destruct (scan_columns_range reported (runes line) 1 1 0 ltac:(lia)) as [H1 H2].
  destruct (scan_columns _ _ _ _ _) as [rendered start]. cbn [fst snd] in *. destruct (start =? 0); lia.
Qed.

Section located.
Context `{ParsedText} (src : source).
Hypothesis texts_are_valid : forall n, ValidString (String_ n) = true.

Lemma writtenStartOf_in_line n :
  ws_column (writtenStartOf src n) <= firstColumn + runeCount (src_Line src (ws_line (writtenStartOf src n))).
Proof.
  assert (Hcol : Col (positionOf src n) <= firstColumn + runeCount (src_Line src (Line (positionOf src n)))).
  { unfold positionOf, tokenPosition. cbn [Col Line]. destruct (_ =? 0); [unfold noColumn, firstColumn, runeCount; lia|apply runeColumn_in_line]. }
  assert (Hind : indentWidth (src_Line src (Line (positionOf src n))) + firstColumn <=
    firstColumn + runeCount (src_Line src (Line (positionOf src n)))).
  { rewrite indentWidth_indentation. rewrite (indentation_content (src_Line src _)) at 2.
    rewrite runeCount_ascii_app by apply indentation_ascii. unfold runeCount. lia. }
  unfold writtenStartOf. destruct (_ <? _); [exact Hcol|]. destruct n; try exact Hcol. destruct (negb _); [exact Hind|exact Hcol].
Qed.

Lemma reaching_start n : ws_line (writtenStartReachingItsBlockOpener src n) = ws_line (writtenStartOf src n) /\
  ws_column (writtenStartReachingItsBlockOpener src n) = ws_column (writtenStartOf src n).
Proof. unfold writtenStartReachingItsBlockOpener. destruct (blockOpenerLineOf n); [|done]. by destruct (_ <=? _). Qed.

Abbreviation placed := (well_located src).

Lemma locatedAt_placed written n kind v :
  ws_column written <= firstColumn + runeCount (src_Line src (ws_line written)) -> locatedAt written n kind = Some v -> placed v.
Proof.
  intros Hc. unfold locatedAt. destruct (Z.ltb_spec (ws_line written) firstLine); [done|]. intros [= <-]. split; [done|done|apply texts_are_valid].
Qed.

Lemma locate_placed n kind v : locate src n kind = Some v -> placed v.
Proof. apply locatedAt_placed. destruct (reaching_start n) as [-> ->]. apply writtenStartOf_in_line. Qed.

Lemma locateSensitiveValues_placed n kind : Forall placed (locateSensitiveValues src n kind).
Proof.
  unfold locateSensitiveValues. assert (Hlocate : forall kind, Forall placed (option_list (locate src n kind))).
  { intros k. destruct (locate src n k) as [v|] eqn:E; [|done]. by apply Forall_singleton, (locate_placed n k). }
  destruct (negb _); [apply Hlocate|]. unfold locateSensitiveChildren. set (found := inheriting _ _ <$> _).
  assert (Hfound : Forall placed found).
  { apply Forall_fmap, Forall_forall. intros v (child & _ & Hv)%list_elem_of_omap. unfold locateElement in Hv.
    apply locatedAt_placed in Hv as [H1 H2 H3]; [|apply writtenStartOf_in_line]. unfold compose, inheriting. by destruct (_ && _). }
  destruct (_ || _); [done|]. destruct (locate src n entireValue) as [owner|] eqn:E; [|done]. apply Forall_app. split; [done|].
  apply Forall_singleton. by destruct (locate_placed n entireValue owner E).
Qed.

Lemma unknown_entry_placed name n beneath : Forall placed beneath -> Forall placed (unknown_entry src name n beneath).
Proof.
  intros Hb. unfold unknown_entry. destruct (namesASensitiveKey name); [|done].
  pose proof (locateSensitiveValues_placed n entireValue) as Hl. by destruct (locateSensitiveValues _ _ _).
Qed.

Lemma beneath_placed n : Forall placed (sensitiveValuesBeneathAnUndeclaredShape src n).
Proof.
  induction n as [| | | |m es IH|m k vs IH|m a v IH|m v IH| | | |] using node_induction; try done; cbn [sensitiveValuesBeneathAnUndeclaredShape].
  - apply Forall_flat_map. eapply Forall_impl; [exact IH|]. intros [k v] [_ Hv]. cbn [fst snd] in *. unfold unknown_mapping_entry.
    destruct (keyTextOf k); [by apply unknown_entry_placed|].
    destruct (locate src v entireValue) as [w|] eqn:E; [|done]. by apply Forall_singleton, (locate_placed v entireValue).
  - by apply Forall_flat_map.
Qed.

Lemma walk_placed n : forall level each, Forall placed (walk src level each n).
Proof.
  induction n as [| | | |m es IH|m k vs IH|m a v IH|m v IH| | | |] using node_induction; intros level each; cbn [walk]; try apply beneath_placed; try apply IH.
  - apply Forall_flat_map. eapply Forall_impl; [exact IH|]. intros [k v] [_ Hv]. cbn [fst snd] in *. unfold level_entry.
    destruct (keyTextOf k); [|destruct (locate src v entireValue) as [w|] eqn:E; [|done]; by apply Forall_singleton, (locate_placed v entireValue)].
    destruct (level_key _ _) as [spec|].
    + unfold declared_entry.
      assert (Hb : Forall placed match schemaLevels (child spec) with
        | None => sensitiveValuesBeneathAnUndeclaredShape src v | Some below => walk src below true v end).
      { destruct (schemaLevels _); [apply Hv|apply beneath_placed]. }
      destruct (sensitive_key spec); [|done].
      pose proof (locateSensitiveValues_placed v (sensitive spec)) as Hl. by destruct (locateSensitiveValues _ _ _).
    + destruct (freeForm level); [apply beneath_placed|]. apply unknown_entry_placed, beneath_placed.
  - destruct each; [|apply beneath_placed]. apply Forall_flat_map. eapply Forall_impl; [exact IH|]. intros v Hv. apply Hv.
Qed.
End located.

(** ** What a document declares secret *)

Section secrets.
Context `{ParsedText} (src : source).

(** What a key governs: the elements of a written list one by one, or the value as a whole, in the extent the
    declaration names. *)
Record governed_value := { gv_node : node; gv_split : bool; gv_kind : sensitivity }.

(** In a context the table does not describe: what a sensitive name or a name that cannot be read governs,
    at any depth. *)
Inductive unknown_secret : node -> governed_value -> Prop :=
  | unknown_anchor m a v g : unknown_secret v g -> unknown_secret (AnchorNode m a v) g
  | unknown_tag m v g : unknown_secret v g -> unknown_secret (TagNode m v) g
  | unknown_element m k vs v g : v ∈ vs -> unknown_secret v g -> unknown_secret (SequenceNode m k vs) g
  | unknown_named m es k v name : (k, v) ∈ es -> keyTextOf k = Some name -> namesASensitiveKey name = true ->
      unknown_secret (MappingNode m es) {| gv_node := v; gv_split := true; gv_kind := entireValue |}
  | unknown_unreadable m es k v : (k, v) ∈ es -> keyTextOf k = None ->
      unknown_secret (MappingNode m es) {| gv_node := v; gv_split := false; gv_kind := entireValue |}
  | unknown_below m es k v name g : (k, v) ∈ es -> keyTextOf k = Some name -> namesASensitiveKey name = false ->
      unknown_secret v g -> unknown_secret (MappingNode m es) g.

(** The elements of a written list, whatever properties the list has, or the one value. *)
Inductive element_of : node -> node -> Prop :=
  | element_anchor m a v e : element_of v e -> element_of (AnchorNode m a v) e
  | element_tag m v e : element_of v e -> element_of (TagNode m v) e
  | element_item m k vs e : e ∈ vs -> element_of (SequenceNode m k vs) e
  | element_itself n : match n with AnchorNode _ _ _ | TagNode _ _ | SequenceNode _ _ _ => False | _ => True end -> element_of n n.

(** What a node held to a level of the table holds: what a key declared sensitive governs, in the extent
    its declaration names, and what stands where the table describes nothing. *)
Inductive secret : mappingLevel -> node -> governed_value -> Prop :=
  | secret_anchor level m a v g : secret level v g -> secret level (AnchorNode m a v) g
  | secret_tag level m v g : secret level v g -> secret level (TagNode m v) g
  | secret_declared level m es k v name spec : (k, v) ∈ es -> keyTextOf k = Some name -> level_key level name = Some spec ->
      sensitive spec <> publicValue ->
      secret level (MappingNode m es)
        {| gv_node := v; gv_split := bool_decide (sensitive spec = entireValue); gv_kind := sensitive spec |}
  | secret_below level m es k v name spec below e g : (k, v) ∈ es -> keyTextOf k = Some name -> level_key level name = Some spec ->
      sensitive spec = publicValue -> schemaLevels (child spec) = Some below -> element_of v e -> secret below e g ->
      secret level (MappingNode m es) g
  | secret_in_a_leaf level m es k v name spec g : (k, v) ∈ es -> keyTextOf k = Some name -> level_key level name = Some spec ->
      sensitive spec = publicValue -> schemaLevels (child spec) = None -> unknown_secret v g -> secret level (MappingNode m es) g
  | secret_free_form level m es k v name g : (k, v) ∈ es -> keyTextOf k = Some name -> level_key level name = None ->
      freeForm level = true -> unknown_secret v g -> secret level (MappingNode m es) g
  | secret_undeclared level m es k v name g : (k, v) ∈ es -> keyTextOf k = Some name -> level_key level name = None ->
      freeForm level = false -> unknown_secret (MappingNode m [(k, v)]) g -> secret level (MappingNode m es) g
  | secret_unreadable level m es k v : (k, v) ∈ es -> keyTextOf k = None ->
      secret level (MappingNode m es) {| gv_node := v; gv_split := false; gv_kind := entireValue |}
  | secret_misplaced level n g : match n with MappingNode _ _ | AnchorNode _ _ _ | TagNode _ _ => False | _ => True end -> unknown_secret n g -> secret level n g.

(** What the walk locates of a governed value. *)
Definition located (g : governed_value) : list sensitiveValue :=
  if gv_split g then locateSensitiveChildren src (gv_node g) (gv_kind g) else option_list (locate src (gv_node g) (gv_kind g)).

Lemma located_children v : located {| gv_node := v; gv_split := true; gv_kind := entireValue |} = locateSensitiveValues src v entireValue.
Proof. done. Qed.

Lemma in_flat_map {A B} (f : A -> list B) l x y : x ∈ l -> y ∈ f x -> y ∈ flat_map f l.
Proof. intros Hx Hy. apply list_elem_of_In, in_flat_map. exists x. by rewrite <- !list_elem_of_In. Qed.

Lemma found_first {A} (x : A) (l other : list A) : x ∈ l -> x ∈ match l with [] => other | y :: l' => y :: l' end.
Proof. by destruct l as [|y l]; [intros ?%elem_of_nil|]. Qed.

Lemma element_values n e : element_of n e -> e ∈ valuesOf n.
Proof.
  unfold valuesOf. induction 1 as [| |m k vs e He|n Hn]; cbn [beneathNodeProperties]; [done|done|done|].
  destruct n; try contradiction; by apply list_elem_of_singleton.
Qed.

Lemma unknown_found n g w : unknown_secret n g -> w ∈ located g -> w ∈ sensitiveValuesBeneathAnUndeclaredShape src n.
Proof.
  intros Hg Hw. induction Hg as [| |m k vs v g Hv _ IH|m es k v name He Hk Hn|m es k v He Hk|m es k v name g He Hk Hn _ IH];
    cbn [sensitiveValuesBeneathAnUndeclaredShape]; auto.
  - eapply in_flat_map; [exact Hv|auto].
  - eapply in_flat_map; [exact He|]. cbn. unfold unknown_mapping_entry, unknown_entry. rewrite Hk, Hn. by apply found_first.
  - eapply in_flat_map; [exact He|]. cbn. unfold unknown_mapping_entry. by rewrite Hk.
  - eapply in_flat_map; [exact He|]. cbn. unfold unknown_mapping_entry, unknown_entry. rewrite Hk, Hn. auto.
Qed.

(** The walk finds every one. *)
Lemma secret_found level n g w : secret level n g -> w ∈ located g -> w ∈ sensitiveValues src level n.
Proof.
  intros Hg Hw. induction Hg as [| |level m es k v name spec He Hk Hs Hp|level m es k v name spec below e g He Hk Hs Hp Hb Hv _ IH
    |level m es k v name spec g He Hk Hs Hp Hb Hu|level m es k v name g He Hk Hs Hf Hu|level m es k v name g He Hk Hs Hf Hu
    |level m es k v He Hk|level n g Hn Hu]; auto.
  1-6: rewrite sensitiveValues_mapping; apply list_elem_of_bind; exists (k, v); (split; [|done]); unfold level_entry; rewrite Hk.
  - rewrite Hs. unfold declared_entry, sensitive_key.
    assert (Hin : w ∈ locateSensitiveValues src v (sensitive spec)).
    { unfold locateSensitiveValues. unfold located in Hw. cbn [gv_split gv_node gv_kind] in Hw. by destruct (bool_decide _). }
    destruct (sensitive spec); [done|by apply found_first..].
  - rewrite Hs. unfold declared_entry, sensitive_key. rewrite Hp, Hb. apply list_elem_of_bind. exists e. split; [auto|by apply element_values].
  - rewrite Hs. unfold declared_entry, sensitive_key. rewrite Hp, Hb. by eapply unknown_found.
  - rewrite Hs, Hf. by eapply unknown_found.
  - rewrite Hs, Hf. pose proof (unknown_found _ _ _ Hu Hw) as H'. cbn in H'. rewrite app_nil_r in H'. unfold unknown_mapping_entry in H'. by rewrite Hk in H'.
  - done.
  - pose proof (unknown_found _ _ _ Hu Hw) as H'. by destruct n.
Qed.

(** *** Where the elements stand, and the lines between a key and its value *)

(** The element's text stands where the parser says, a block mapping's at its line's first letter. *)
Record stands (e : node) (w : sensitiveValue) : Prop := {
  stands_line : sv_line w = Line (positionOf src e);
  stands_column : sv_column w =
    match e with
    | MappingNode _ _ => if IsFlowStyle e then Col (positionOf src e) else indentWidth (src_Line src (sv_line w)) + 1
    | _ => Col (positionOf src e)
    end;
  stands_text : sv_text w = String_ e
}.

Definition holder_of (g : governed_value) (e : node) : Prop :=
  if gv_split g then element_of (gv_node g) e else e = gv_node g.

Lemma written_line n : ws_line (writtenStartOf src n) = Line (positionOf src n).
Proof. unfold writtenStartOf. destruct (_ <? _); [done|]. destruct n; try done. by destruct (negb (IsFlowStyle _)). Qed.

Lemma locatedAt_stands e w written kind :
  ws_line written = ws_line (writtenStartOf src e) -> ws_column written = ws_column (writtenStartOf src e) ->
  1 <= Line (positionOf src e) -> locatedAt written e kind = Some w -> stands e w /\ sv_kind w = kind /\ reachesBackTo w = ws_reachesBackTo written.
Proof.
  intros Hl Hc H1. unfold locatedAt. rewrite Hl, written_line. rewrite (proj2 (Z.ltb_ge _ _)) by (unfold firstLine; lia). intros [= <-]. split; [|done].
  split; cbn [sv_line sv_column sv_text]; [done| |done]. rewrite Hc. unfold writtenStartOf. rewrite (proj2 (Z.ltb_ge _ _)) by (unfold firstLine; lia).
  destruct e; try done. by destruct (IsFlowStyle _).
Qed.

(** Each element a governed value holds is located, where it stands. *)
Lemma holder_located g e : holder_of g e -> 1 <= Line (positionOf src e) ->
  exists w, w ∈ located g /\ stands e w /\ sv_kind w = gv_kind g.
Proof.
  unfold holder_of, located. destruct (gv_split g).
  - intros He H1. unfold locateSensitiveChildren. set (start := writtenStartReachingItsBlockOpener _ _).
    assert (exists w, locateElement src e (gv_kind g) = Some w) as [w Hw].
    { unfold locateElement, locatedAt. rewrite written_line, (proj2 (Z.ltb_ge _ _)) by (unfold firstLine; lia). by eexists. }
    set (children := inheriting start (containerEndLine (gv_node g)) <$> _).
    assert (Hin : inheriting start (containerEndLine (gv_node g)) w ∈ children).
    { apply list_elem_of_fmap. exists w. split; [done|]. apply list_elem_of_omap. exists e. split; [by apply element_values|exact Hw]. }
    destruct (locatedAt_stands e w _ _ eq_refl eq_refl H1 Hw) as ([S1 S2 S3] & Hk & _).
    exists (inheriting start (containerEndLine (gv_node g)) w). split; [|unfold inheriting; destruct (_ && _); (split; [split; done|done])].
    destruct (_ || _); [done|]. destruct (locate _ _ _); [|done]. apply elem_of_app. by left.
  - intros -> H1. destruct (reaching_start src (gv_node g)) as [Hl Hc].
    assert (exists w, locate src (gv_node g) (gv_kind g) = Some w) as [w Hw].
    { unfold locate, locatedAt. rewrite Hl, written_line, (proj2 (Z.ltb_ge _ _)) by (unfold firstLine; lia). by eexists. }
    exists w. rewrite Hw. split; [left|]. by destruct (locatedAt_stands _ w _ _ Hl Hc H1 Hw) as (? & ? & _).
Qed.

(** The colon of the key that introduced a node: the first one before it. *)
Definition colon_above (n : node) (k : Z) : Prop := exists between m above,
  Prev n = between ++ (true, m) :: above /\ Forall (λ token, token.1 = false) between /\ at_line m = k.

Lemma colon_opener n k : colon_above n k -> blockOpenerLineOf n = Some k.
Proof.
  intros (between & m & above & Hp & Hb & <-). unfold blockOpenerLineOf. rewrite Hp. clear Hp.
  induction Hb as [|t between Ht _ IH]; cbn [app]; rewrite filter_cons.
  - by rewrite decide_True.
  - by rewrite decide_False by (by rewrite Ht).
Qed.

(** A line holds more than a container's own punctuation. *)
Definition holds_more (line : gostring) : Prop :=
  exists r, r ∈ runes (TrimLeft line indentCharacters) /\ r <> 32 /\ r <> 9 /\ r ∉ map code (bs "[]{},-:?|>").

Lemma runesFrom_indent line : runesFrom line (firstColumn + indentWidth line) = TrimLeft line indentCharacters.
Proof.
  unfold runesFrom. rewrite indentWidth_indentation, (Z.add_comm firstColumn).
  assert (byteOffsetOf line (Z.of_nat (length (indentation line)) + firstColumn) = length (indentation line)) as ->.
  { rewrite (indentation_content line) at 1. apply byteOffsetOf_ascii, indentation_ascii. }
  rewrite (indentation_content line) at 2. apply drop_app_length.
Qed.

Lemma unclaimed_there letters : forall at_ past, (exists i r, letters !! i = Some r /\ at_ + Z.of_nat i < past /\ isContainerPunctuation r = false) ->
  unclaimed_from at_ past [] letters = true.
Proof.
  induction letters as [|letter letters IH]; intros at_ past (i & r & Hi & Hlt & Hr); [done|]. cbn [unclaimed_from].
  rewrite (proj2 (Z.leb_gt _ _)) by lia. cbn [coveredByAToken existsb orb]. destruct (isContainerPunctuation letter) eqn:Hp; [|done].
  destruct i as [|i]; [injection Hi as ->; congruence|]. apply IH. exists i, r. split; [done|]. split; [lia|done].
Qed.

Lemma holds_more_unclaimed line : holds_more line ->
  holdsUnclaimedRunes line (firstColumn + indentWidth line) (firstColumn + runeCount line) [] = true.
Proof.
  intros (r & Hr & H1 & H2 & H3). unfold holdsUnclaimedRunes. rewrite runesFrom_indent. apply list_elem_of_lookup in Hr as [i Hi].
  apply unclaimed_there. exists i, r. split; [done|]. split.
  - apply lookup_lt_Some in Hi. unfold indentWidth, pastIndentation, runeCount. cbn [snd]. lia.
  - unfold isContainerPunctuation. rewrite (proj2 (Z.eqb_neq r 32)), (proj2 (Z.eqb_neq r 9)) by done. cbn [orb].
    by apply bool_decide_eq_false_2.
Qed.

Lemma last_line_from_ge least lines : forall last number, last <= number -> last <= last_line_from least last number lines.
Proof.
  induction lines as [|line lines IH]; intros last number Hl; cbn [last_line_from]; [lia|].
  destruct (isBlankLine line); [apply IH; lia|]. destruct (_ <? _); [lia|]. etrans; [exact Hl|]. apply IH. lia.
Qed.

(** A line between the key's colon and the value is within what is located, unless a list's lines hold only
    punctuation there. *)
Lemma gap_located g k line : colon_above (gv_node g) k -> 1 <= k -> k < line < Line (positionOf src (gv_node g)) ->
  (forall closer, End_ (beneathNodeProperties (gv_node g)) = Some closer -> Line (positionOf src (gv_node g)) <= at_line closer) ->
  gv_split g = false \/ holds_more (src_Line src line) ->
  exists w, w ∈ located g /\ sv_line w = Line (positionOf src (gv_node g)) /\ reachesBackTo w = k + 1.
Proof.
  intros Hcolon Hk Hline Hclose Hmore. set (n := gv_node g) in *.
  destruct (reaching_start src n) as [Hl Hc].
  pose proof (written_line n) as Hwl.
  assert (Hback : ws_reachesBackTo (writtenStartReachingItsBlockOpener src n) = k + 1).
  { unfold writtenStartReachingItsBlockOpener. rewrite (colon_opener _ _ Hcolon), Hwl. by rewrite (proj2 (Z.leb_gt _ _)) by lia. }
  assert (Hlocate : forall kind, exists w, locate src n kind = Some w /\ sv_line w = Line (positionOf src n) /\ reachesBackTo w = k + 1).
  { intros kind. unfold locate, locatedAt. rewrite Hl, Hwl, (proj2 (Z.ltb_ge _ _)) by (unfold firstLine; lia).
    eexists. split; [reflexivity|]. cbn. split; [congruence|done]. }
  unfold located. fold n. destruct (gv_split g) eqn:Hsplit.
  2: { destruct (Hlocate (gv_kind g)) as (w & -> & Hw). exists w. split; [left|done]. }
  destruct Hmore as [?|Hmore]; [done|]. unfold locateSensitiveChildren. rewrite Hl, Hwl, (proj2 (Z.ltb_ge _ _)) by (unfold firstLine; lia). cbn [orb].
  set (children := inheriting _ _ <$> _).
  assert (containerHoldsUnclaimedBytes src (writtenStartReachingItsBlockOpener src n) children (containerEndLine n) = true) as ->.
  { unfold containerHoldsUnclaimedBytes. apply existsb_exists. exists line. rewrite Hback.
    assert (Hlast : Line (positionOf src n) <= lastLineOfTheInterior src (writtenStartReachingItsBlockOpener src n) (containerEndLine n)).
    { unfold lastLineOfTheInterior. rewrite Hl, Hwl. destruct (Z.eqb_spec (containerEndLine n) noClosingIndicator) as [|Hne]; cbn [negb].
      - apply last_line_from_ge. lia.
      - unfold containerEndLine in *. destruct (beneathNodeProperties n); try (by destruct Hne);
          (destruct (End_ _) as [closer|] eqn:He; [by apply Hclose|by destruct Hne]). }
    split; [apply list_elem_of_In, elem_of_seqZ; lia|]. rewrite Hl, Hwl, (proj2 (Z.eqb_neq line _)) by lia.
    assert (childTokensOn (childrenWrittenInside (writtenStartReachingItsBlockOpener src n) children) line = []) as ->.
    { unfold childTokensOn, childrenWrittenInside. rewrite Hl, Hwl. clear -Hline. induction children as [|c cs IH]; [done|]. cbn [List.filter].
      destruct (Z.leb_spec (Line (positionOf src n)) (sv_line c)); [|done]. cbn [List.filter]. by rewrite (proj2 (Z.eqb_neq _ line)) by lia. }
    unfold interiorEndsAt. rewrite (proj2 (Z.eqb_neq line _)) by lia. cbn [negb orb]. by apply holds_more_unclaimed. }
  cbn [negb]. destruct (Hlocate entireValue) as (w & -> & Hw). exists (owning w). split; [apply elem_of_app; right; left|done].
Qed.

(** *** Each extent once, with the strictest of what declares it *)

Record as_strict (w v : sensitiveValue) : Prop := {
  strict_extent : extent v = extent w;
  strict_kind : (strictness (sv_kind w) <= strictness (sv_kind v))%nat;
  strict_owner : ownsUnclaimedBytes w = true -> ownsUnclaimedBytes v = true;
  strict_through : throughLine w <= throughLine v;
  strict_back : firstLine <= reachesBackTo w -> firstLine <= reachesBackTo v <= reachesBackTo w
}.

Lemma as_strict_refl v : as_strict v v.
Proof. split; [done|lia|done|lia|lia]. Qed.

Lemma as_strict_trans a b c : as_strict a b -> as_strict b c -> as_strict a c.
Proof. intros [A1 A2 A3 A4 A5] [B1 B2 B3 B4 B5]. split; [congruence|lia|auto|lia|]. intros H1. specialize (A5 H1). specialize (B5 ltac:(lia)). lia. Qed.

Lemma stricter_kinds a b : (strictness a <= strictness (stricter a b))%nat /\ (strictness b <= strictness (stricter a b))%nat.
Proof. destruct a, b; cbn; lia. Qed.

Lemma strictestOf_strict kept value : extent kept = extent value -> as_strict kept (strictestOf kept value) /\ as_strict value (strictestOf kept value).
Proof.
  intros He. destruct (stricter_kinds (sv_kind kept) (sv_kind value)) as [Hk1 Hk2].
  split; (split; cbn [extent strictestOf sv_line sv_column sv_text sv_kind ownsUnclaimedBytes throughLine reachesBackTo]; [done|done| |lia|]).
  - by intros ->.
  - unfold firstLine. intros H1. destruct (_ && _) eqn:E; [|lia]. apply andb_true_iff in E as [E1%Z.leb_le [E2%Z.ltb_lt|E2%Z.ltb_lt]%orb_true_iff]; lia.
  - intros ->. apply orb_true_r.
  - unfold firstLine. intros H1. destruct (1 <=? reachesBackTo value) eqn:E; [|lia]. cbn [andb].
    destruct (Z.ltb_spec (reachesBackTo kept) 1); cbn [orb]; [lia|]. destruct (Z.ltb_spec (reachesBackTo value) (reachesBackTo kept)); lia.
Qed.

Lemma coalesce_strict found value : exists v, v ∈ coalesce found value /\ as_strict value v.
Proof.
  induction found as [|kept later (v & Hv & Hs)]; cbn [coalesce]; [exists value; split; [by left|apply as_strict_refl]|].
  case_bool_decide as He; [|exists v; split; [by right|done]].
  eexists. split; [by left|]. by apply strictestOf_strict.
Qed.

Lemma coalesce_keeps found value w : w ∈ found -> exists v, v ∈ coalesce found value /\ as_strict w v.
Proof.
  induction found as [|kept later IH]; [by intros ?%elem_of_nil|]. cbn [coalesce]. intros [->|Hw]%elem_of_cons.
  - case_bool_decide as He; [|exists kept; split; [by left|apply as_strict_refl]].
    eexists. split; [by left|]. by apply strictestOf_strict.
  - case_bool_decide; [exists w; split; [by right|apply as_strict_refl]|]. destruct (IH Hw) as (v & Hv & Hs). exists v. split; [by right|done].
Qed.

Lemma coalesced_strict values w : w ∈ values -> exists v, v ∈ coalescedSensitiveValues values /\ as_strict w v.
Proof.
  unfold coalescedSensitiveValues. assert (forall found, (exists v, v ∈ found /\ as_strict w v) \/ w ∈ values ->
    exists v, v ∈ foldl coalesce found values /\ as_strict w v) as Hall; [|by intros Hw; apply Hall; right].
  induction values as [|value values IH]; intros found [(v & Hv & Hs)|Hw]; cbn [foldl]; [by exists v|by apply elem_of_nil in Hw| |].
  - apply IH. left. destruct (coalesce_keeps found value v Hv) as (u & Hu & Hsu). exists u. split; [done|by eapply as_strict_trans].
  - apply IH. apply elem_of_cons in Hw as [->|Hw]; [left; apply coalesce_strict|by right].
Qed.

Lemma coalesce_extents found value : map extent (coalesce found value) = map extent found \/
  (map extent (coalesce found value) = map extent found ++ [extent value] /\ extent value ∉ map extent found).
Proof.
  induction found as [|kept later IH]; cbn [coalesce map]; [right; split; [done|by intros ?%elem_of_nil]|]. case_bool_decide as He; [by left|]. cbn [map].
  destruct IH as [-> |[-> Hn]]; [by left|right]. split; [done|]. intros [Hc|Hc]%elem_of_cons; [by destruct He|done].
Qed.

Lemma coalesced_NoDup values : NoDup (coalescedSensitiveValues values).
Proof.
  apply (NoDup_fmap_1 extent). unfold coalescedSensitiveValues. assert (forall found, NoDup (map extent found) ->
    NoDup (map extent (foldl coalesce found values))) as Hall; [|by apply Hall; constructor].
  induction values as [|value values IH]; intros found Hn; cbn [foldl]; [done|]. apply IH.
  destruct (coalesce_extents found value) as [-> |[-> Hno]]; [done|]. apply NoDup_app. split_and!; [done| |by apply NoDup_singleton].
  by intros x Hx ->%list_elem_of_singleton.
Qed.

Lemma coalesced_placed values : Forall (well_located src) values -> Forall (well_located src) (coalescedSensitiveValues values).
Proof.
  unfold coalescedSensitiveValues. assert (forall found, Forall (well_located src) found -> Forall (well_located src) values ->
    Forall (well_located src) (foldl coalesce found values)) as Hall; [|by apply Hall].
  induction values as [|value values IH]; intros found Hf Hv; cbn [foldl]; [done|]. apply Forall_cons in Hv as [Hv1 Hv]. apply IH; [|done]. clear IH Hv.
  induction Hf as [|kept later Hk Hf IHf]; cbn [coalesce]; [by constructor|]. case_bool_decide; constructor; try done. by destruct Hk.
Qed.
End secrets.

(** ** The theorem *)

(** A line of what may be quoted, by its number in the file. *)
Definition quoted_line (q : quotableLines) (k : Z) : option gostring := i ← line_index (q_text q) k; q_text q !! i.

Section theorem.
Context `{ParsedText} (SortFunc : list sensitiveValue -> list sensitiveValue).
Context (described : node -> gostring * gostring) (IsMergeKey canBeAKey : node -> bool) (src : source) (root : node).
Abbreviation found := (declared_values described IsMergeKey canBeAKey src root).

End theorem.

(** *** A document with a connection string and a literal block of an undeclared name *)

Definition sample_written : gostring :=
  bs "database:" ++ [LF] ++ bs "  url: postgres://app:hunter2@db/app" ++ [LF] ++ bs "secrets: |" ++ [LF] ++
  bs "  first" ++ [LF] ++ bs "  second" ++ [LF] ++ [LF] ++ bs "name: hooks".
Definition sample_src : source := newSource (bs "noty.yaml") sample_written.

Definition mark_at (id : nat) (line col : Z) : Yaml.mark := {| node_id := id; at_line := line; at_col := col; locator := bs "$" |}.

Definition sample_tree : node :=
  MappingNode (mark_at 0 1 1)
    [(StringNode (mark_at 1 1 1) (bs "database"),
      MappingNode (mark_at 2 2 3) [(StringNode (mark_at 3 2 3) (bs "url"), StringNode (mark_at 4 2 8) (bs "postgres://app:hunter2@db/app"))]);
     (StringNode (mark_at 5 3 1) (bs "secrets"), StringNode (mark_at 6 3 10) (bs "first" ++ [LF] ++ bs "second"));
     (StringNode (mark_at 7 7 1) (bs "name"), StringNode (mark_at 8 7 7) (bs "hooks"))].

(** The parser's account of it. *)
#[local] Instance sample_parsed : ParsedText := {
  IsFlowStyle n := false;
  End_ n := None;
  String_ n := match n with
    | StringNode m v => if (node_id m =? 6)%nat then bs "|" ++ [LF] ++ bs "  first" ++ [LF] ++ bs "  second" else if ValidString v then v else []
    | _ => []
    end;
  Prev n := [(true, mark_at 0 (at_line (mark_of n)) 1)]
}.

(** A sort by the comparison. *)
Definition sorted_by_place : list sensitiveValue -> list sensitiveValue := merge_sort (λ a b, rightmostOnItsLineFirst a b <> Gt).

Definition sample_string : sensitiveValue :=
  {| sv_line := 2; sv_column := 8; beginsOnALineOfItsOwn := false; reachesBackTo := 2; writtenAsAContainer := false;
     sv_text := bs "postgres://app:hunter2@db/app"; throughLine := -1; ownsUnclaimedBytes := false; sv_kind := urlPassword |}.
Definition sample_block : sensitiveValue :=
  {| sv_line := 3; sv_column := 10; beginsOnALineOfItsOwn := false; reachesBackTo := 3; writtenAsAContainer := false;
     sv_text := bs "|" ++ [LF] ++ bs "  first" ++ [LF] ++ bs "  second"; throughLine := -1; ownsUnclaimedBytes := true; sv_kind := entireValue |}.

Lemma sample_found : declared_values plain_described is_merge (λ _, true) sample_src sample_tree = [sample_string; sample_block].
Proof. vm_compute. reflexivity. Qed.

Lemma sample_stands_apart : standing_apart sample_src [sample_string; sample_block].
Proof.
  split.
  - intros a b Ha Hb Hne Hl. apply elem_of_cons in Ha as [-> | ->%list_elem_of_singleton], Hb as [-> | ->%list_elem_of_singleton]; done.
  - intros a b Ha Hb Hs Hm. apply elem_of_cons in Hb as [-> | ->%list_elem_of_singleton]; [|discriminate Hs].
    assert (Hlines : reachesBackTo a <= 2 < sv_line a \/ sv_line a < 2) by (destruct Hm as [[_ Hm]|(_ & Hm & _)]; [left; exact Hm|right; exact Hm]).
    apply elem_of_cons in Ha as [-> | ->%list_elem_of_singleton]; cbn in Hlines; lia.
Qed.

(** The block's last line is taken. *)
Lemma sample_block_reaches : takes_line sample_src [sample_string; sample_block] sample_block 5.
Proof.
  right. split; [reflexivity|]. split.
  - split; [done|]. cbn. intros j Hj. assert (j = 4 \/ j = 5) as [-> | ->] by lia; right; left; vm_compute; discriminate.
  - right. intros z [-> | ->%list_elem_of_singleton]%elem_of_cons; done.
Qed.


Example sample_rendered :
  q_text <$> redactDeclaredPaths sorted_by_place plain_described is_merge (λ _, true) sample_src sample_tree =
  Some [bs "database:"; bs "  url: postgres://app:[redacted]@db/app"; bs "secrets: [redacted]"; bs "  [redacted]"; bs "  [redacted]";
        []; bs "name: hooks"].
Proof. vm_compute. reflexivity. Qed.

(** *** Where values do not stand apart

    An alias makes one text the value of a connection string key and, beneath a key that expects no mapping,
    the holder of a sensitive entry. The entry is replaced first and the text grows; the text is then
    replaced by the length it was read with, and its last bytes are left. *)

Definition aliased_tree : node :=
  let shared := MappingNode (mark_at 4 2 11)
    [(StringNode (mark_at 5 2 12) (bs "secrets"), SequenceNode (mark_at 15 2 21) 1 [StringNode (mark_at 6 2 22) (bs "b")]);
     (StringNode (mark_at 7 2 26) (bs "p"), StringNode (mark_at 8 2 29) (bs "hunter2"))] in
  MappingNode (mark_at 0 1 1)
    [(StringNode (mark_at 1 1 1) (bs "database"),
      MappingNode (mark_at 2 2 3) [(StringNode (mark_at 3 2 3) (bs "url"), AnchorNode (mark_at 9 2 8) (bs "u") shared)]);
     (StringNode (mark_at 10 3 1) (bs "worker"),
      MappingNode (mark_at 11 4 3) [(StringNode (mark_at 12 4 3) (bs "concurrency"), AliasNode (mark_at 13 4 16) (bs "u"))])].

Definition aliased_src : source :=
  newSource (bs "noty.yaml") (bs "database:" ++ [LF] ++ bs "  url: &u {secrets: [b], p: hunter2}" ++ [LF] ++
    bs "worker:" ++ [LF] ++ bs "  concurrency: *u").

#[local] Instance aliased_parsed : ParsedText := {
  IsFlowStyle n := match n with MappingNode m _ => (node_id m =? 4)%nat | SequenceNode _ _ _ => true | _ => false end;
  End_ n := match n with MappingNode m _ => if (node_id m =? 4)%nat then Some (mark_at 14 2 36) else None | SequenceNode _ _ _ => Some (mark_at 16 2 23) | _ => None end;
  String_ n := match n with MappingNode m _ => if (node_id m =? 4)%nat then bs "{secrets: [b], p: hunter2}" else [] | StringNode _ v => v | _ => [] end;
  Prev n := [(true, mark_at 0 (at_line (mark_of n)) 1)]
}.

Example overlapping_values_show_a_secret :
  q_text <$> redactDeclaredPaths (H := aliased_parsed) sorted_by_place plain_described is_merge (λ _, true) aliased_src aliased_tree =
  Some [bs "database:"; bs "  url: &u [redacted] hunter2}"; bs "worker:"; bs "  concurrency: *u"].
Proof. vm_compute. reflexivity. Qed.
