(* ===== verification/Raw.v ===== *)
(** * The document as written: [internal/config/raw.go], [presence.go], [scalar.go], [conversion.go],
    [rawcontainer.go], [scalarlist.go], [rawheaders.go], [rawoperations.go], [resolvewalk.go] and
    [decode.go] (stage G).

    Every value of the raw tree records whether it was written, where, and what could not be read of
    it; decoding never fails. The library that fills a struct from a mapping is three functions --
    the text it reads of a scalar, the entries it decodes a struct from and the value it hands a
    tagged field -- and [time.ParseDuration] is a fourth. *)

From S2P Require Import Prelude Source Quote Interpolate Diag Yaml Normalize Schema.

(** ** presence.go *)

Record refusal_ := { refused_node : node; refused_why : fault }.

(** [node] is nil until a value is handed over; [at_] is what stage G derives from it. *)
Record presence := { Set_ : bool; held_node : option node; refused : list refusal_ }.

(** A wrapper: what every decoded value carries, with the value read -- zero where none was. *)
Record wrapper (A : Type) := { pres : presence; value : A }.
Arguments pres {A} w.
Arguments value {A} w.
Arguments Build_wrapper {A} pres value.

Abbreviation Str := (wrapper gostring).
Abbreviation Int := (wrapper Z).
Abbreviation Bool := (wrapper bool).
Abbreviation Dur := (wrapper Z).
Abbreviation StrList := (wrapper (list (wrapper gostring))).

Definition unwritten {A} (zero : A) : wrapper A :=
  {| pres := {| Set_ := false; held_node := None; refused := [] |}; value := zero |}.

Definition written_set {A} (w : wrapper A) : bool := Set_ (pres w).
Definition Valid {A} (w : wrapper A) : bool := Set_ (pres w) && bool_decide (length (refused (pres w)) = 0%nat).

(** A wrapper handed [n], with the value it read or what it declined. *)
Definition read_as {A} (n : node) (v : A) : wrapper A :=
  {| pres := {| Set_ := true; held_node := Some n; refused := [] |}; value := v |}.
Definition refuse_at {A} (n : node) (refusals : list refusal_) (v : A) : wrapper A :=
  {| pres := {| Set_ := true; held_node := Some n; refused := refusals |}; value := v |}.
Definition refuse {A} (n : node) (why : fault) (zero : A) : wrapper A :=
  refuse_at n [{| refused_node := n; refused_why := why |}] zero.

Definition says_ (text : string) : fault := {| message := bs text; hint := [] |}.

(** ** conversion.go *)

Definition writtenTrue : gostring := bs "true".
Definition writtenFalse : gostring := bs "false".

(** [strings.ToLower] against two ASCII words. *)
Definition asBool (text : gostring) : option bool :=
  if equal_fold text writtenTrue then Some true
  else if equal_fold text writtenFalse then Some false
  else None.

(** [strconv.Atoi]: an optional sign and decimal digits, within an [int]. *)
Definition asInt (text : gostring) : option Z :=
  let '(sign, digits) :=
    match text with
    | c :: rest => if bool_decide (c = "-"%char) then (-1, rest)%Z else if bool_decide (c = "+"%char) then (1, rest)%Z else (1%Z, text)
    | [] => (1%Z, text)
    end in
  if bool_decide (digits = []) || negb (forallb is_digit digits) then None
  else let v := (sign * digits_value digits)%Z in
       if ((min_int64 <=? v) && (v <=? max_int64))%Z then Some v else None.

Definition durationUnitFamilies : gostring := bs "ns, us/µs, ms, s, m, h".

(** [strings.FieldsFunc] with a set of ASCII bytes: the runs of bytes outside it, none empty. *)
Fixpoint fields_from (separates : ascii -> bool) (field s : gostring) : list gostring :=
  match s with
  | [] => if bool_decide (field = []) then [] else [field]
  | c :: rest =>
      if separates c then (if bool_decide (field = []) then [] else [field]) ++ fields_from separates [] rest
      else fields_from separates (field ++ [c]) rest
  end.
Definition FieldsFunc (separates : ascii -> bool) (s : gostring) : list gostring := fields_from separates [] s.

Definition durationUnitSpellings : list gostring :=
  FieldsFunc (λ c, contains_byte c (bs ",/ ")) durationUnitFamilies.

Definition durationRefusalPrefix : gostring := bs "must use a Go duration with units ".

(** [strings.LastIndex]. *)
Fixpoint last_index_of (sub s : gostring) : option nat :=
  let here := if has_prefix s sub then Some 0 else None in
  match s with
  | [] => here
  | _ :: rest => match last_index_of sub rest with Some n => Some (S n) | None => here end
  end.

Definition durationUnitsForSentence : gostring :=
  match last_index_of (bs ", ") durationUnitFamilies with
  | Some last => take last durationUnitFamilies ++ bs " or " ++ drop (last + 2) durationUnitFamilies
  | None => []
  end.
Definition durationRefusal : gostring := durationRefusalPrefix ++ durationUnitsForSentence.

Definition durationUsesOnlyRatifiedUnits (text : gostring) : bool :=
  forallb (λ unit, bool_decide (unit ∈ durationUnitSpellings))
    (FieldsFunc (λ c, contains_byte c (bs "+-.") || is_digit c) text).

Definition mustBeText : fault := says_ "expected text".
Definition mustBeAnInteger : fault := says_ "expected an integer".
Definition mustBeABoolean : fault := says_ "expected true or false".
Definition mustBeADuration : fault := {| message := durationRefusal; hint := [] |}.
Definition mustBeAMapping : fault := says_ "expected a mapping".
Definition mustBeAnEntryOf : fault := says_ "expected a list of mappings".
Definition mustBeAList : fault := says_ "expected a list".
Definition mustBeAnElement : fault := says_ "expected a list of scalars".
Definition mustBeAHeaderMapping : fault := says_ "expected a mapping of header names".
Definition mustBeAHeaderName : fault := says_ "expected a header name".
Definition mustBeAnOperationsMapping : fault := says_ "expected a mapping of operation names".
Definition mustBeAnOperationName : fault := says_ "expected an operation name".

Definition durationDayExample : gostring := bs "7d".
Definition durationDayHint : gostring := bs "use " ++ quoted_text (bs "168h") ++ bs " instead".

(** ** raw.go *)

Record writtenHeader := { Header_Name : Str; Header_Value : Str }.
Abbreviation rawHeaders := (wrapper (list writtenHeader)).

Record rawOperation := { raw_op_Columns : StrList; raw_op_IsDistinct : Bool; raw_op_When : Str }.
Record namedOperation := { op_Name : Str; Filter : rawOperation }.
Abbreviation rawOperations := (wrapper (list namedOperation)).

Record rawDatabase := { raw_URL : Str; raw_Schema : Str; raw_ListenURL : Str }.
Record rawWorker := {
  raw_Concurrency : Int; raw_BatchSize : Int; raw_PollInterval : Dur; raw_LeaseTimeout : Dur; raw_DrainTimeout : Dur;
  raw_AllowedDestinationCIDRs : StrList
}.
Record rawRetention := { raw_Keep : Dur; raw_PartitionInterval : Dur; raw_Precreate : Dur }.
Record rawRetry := {
  raw_MaxAttempts : Int; raw_Backoff : Str; raw_InitialInterval : Dur; raw_MaxInterval : Dur; raw_Jitter : Bool
}.
Record rawDefaults := { def_Timeout : Dur; def_Retry : wrapper rawRetry; def_Headers : rawHeaders }.
Record rawPayload := {
  raw_Mode : Str; raw_Columns : StrList; raw_Exclude : StrList; raw_IncludeOld : Bool; raw_MaxBytes : Int
}.
Record rawSigning := { raw_Secrets : StrList }.
Record rawDestination := {
  dest_URL : Str; raw_Method : Str; raw_Headers : rawHeaders; raw_Signing : wrapper rawSigning
}.
Record rawListener := {
  raw_Name : Str; raw_Enabled : Bool; raw_Table : Str; raw_Operations : rawOperations; raw_Payload : wrapper rawPayload;
  raw_Destination : wrapper rawDestination; raw_Retry : wrapper rawRetry; raw_Timeout : Dur; listener_Concurrency : Int
}.
Record rawConfig := {
  raw_Version : Int; raw_Instance : Str; raw_AutoReconcile : Bool; raw_Database : wrapper rawDatabase;
  raw_Worker : wrapper rawWorker; raw_Retention : wrapper rawRetention; raw_Defaults : wrapper rawDefaults;
  raw_Listeners : wrapper (list rawListener)
}.

Example duration_vocabulary :
  durationUnitsForSentence = bs "ns, us/µs, ms, s, m or h" /\
  durationUnitSpellings = map bs ["ns"; "us"; "µs"; "ms"; "s"; "m"; "h"]%string /\
  map (λ t, durationUsesOnlyRatifiedUnits (bs t)) ["168h"; "1h30m"; "-1.5s"; "7d"; "1w"; "10"]%string =
  [true; true; true; false; false; true].
Proof. split_and!; vm_compute; reflexivity. Qed.

(** ** Decoding *)

(** What the YAML library answers: the text it reads of a scalar, the entries it fills a struct from
    -- [None] is an error -- and the value it hands the field a key names, which is none for a value
    it takes for null. *)
Class Yaml := {
  text_of : node -> option gostring;
  struct_entries : node -> option entries_;
  field_of : entries_ -> gostring -> option node
}.

(** A value the library may take for null. *)
Definition null_beneath (n : node) : bool := match beneathNodeProperties n with NullNode _ => true | _ => false end.

(** What is relied on, for a mapping in which no key is written twice: a struct is filled from a
    mapping's own entries, and a field gets the value its key names unless that value is null. *)
Class YamlLaws (described : node -> gostring * gostring) `{Yaml} : Prop := {
  mapping_fills m es : struct_entries (MappingNode m es) = Some es;
  field_is_named es name v : NoDup (keyIdentitiesOf described es) ->
    field_of es name = Some v -> entryValueNamed (Some es) name = Some v;
  field_is_found es name v : NoDup (keyIdentitiesOf described es) ->
    entryValueNamed (Some es) name = Some v -> null_beneath v = false -> field_of es name = Some v
}.

Section decoding.
Context `{Yaml} (ParseDuration : gostring -> option Z).

Definition asDuration (text : gostring) : option Z :=
  if negb (durationUsesOnlyRatifiedUnits text) then None else ParseDuration text.

Definition valueTextOf (n : node) : option gostring := text_of (beneathNodeProperties n).

(** The four scalar wrappers' [UnmarshalYAML]. *)
Definition Str_UnmarshalYAML (n : node) : Str :=
  match valueTextOf n with Some text => read_as n text | None => refuse n mustBeText [] end.

Definition Int_UnmarshalYAML (n : node) : Int :=
  match valueTextOf n with
  | None => refuse n mustBeAnInteger 0%Z
  | Some text => match asInt text with Some v => read_as n v | None => refuse n mustBeAnInteger 0%Z end
  end.

Definition Bool_UnmarshalYAML (n : node) : Bool :=
  match valueTextOf n with
  | None => refuse n mustBeABoolean false
  | Some text => match asBool text with Some v => read_as n v | None => refuse n mustBeABoolean false end
  end.

Definition Dur_UnmarshalYAML (n : node) : Dur :=
  match valueTextOf n with
  | None => refuse n mustBeADuration 0%Z
  | Some text =>
      match asDuration text with
      | Some v => read_as n v
      | None =>
          let why := if bool_decide (text = durationDayExample)
                     then {| message := message mustBeADuration; hint := durationDayHint |} else mustBeADuration in
          refuse n why 0%Z
      end
  end.

(** A list's elements read one by one: those read and the refusals of the others, in order. *)
Fixpoint read_elements {A} (read : node -> A + refusal_) (elements : list node) : list A * list refusal_ :=
  match elements with
  | [] => ([], [])
  | e :: rest =>
      let '(values, refusals) := read_elements read rest in
      match read e with inl v => (v :: values, refusals) | inr r => (values, r :: refusals) end
  end.

Definition StrList_UnmarshalYAML (n : node) : StrList :=
  match beneathNodeProperties n with
  | SequenceNode _ _ elements =>
      let read e :=
        let held := Str_UnmarshalYAML e in
        if Valid held then inl held else inr {| refused_node := e; refused_why := mustBeAnElement |} in
      let '(values, refusals) := read_elements read elements in refuse_at n refusals values
  | _ => refuse n mustBeAList []
  end.

(** [mappingOf[T]]: [fill] decodes the struct from its entries, [zero] is the struct of absent wrappers. *)
Definition mappingOf_UnmarshalYAML {T} (fill : entries_ -> T) (zero : T) (n : node) : wrapper T :=
  match struct_entries (beneathNodeProperties n) with
  | Some entries => read_as n (fill entries)
  | None => refuse n mustBeAMapping zero
  end.

Definition listOf_UnmarshalYAML {T} (fill : entries_ -> T) (n : node) : wrapper (list T) :=
  match beneathNodeProperties n with
  | SequenceNode _ _ elements =>
      let read e :=
        match struct_entries (beneathNodeProperties e) with
        | Some entries => inl (fill entries)
        | None => inr {| refused_node := e; refused_why := mustBeAnEntryOf |}
        end in
      let '(values, refusals) := read_elements read elements in refuse_at n refusals values
  | _ => refuse n mustBeAList []
  end.

(** One entry of a mapping read by a container, as an element is. *)
Fixpoint read_entries {A} (read : node * node -> A + refusal_) (entries : entries_) : list A * list refusal_ :=
  match entries with
  | [] => ([], [])
  | e :: rest =>
      let '(values, refusals) := read_entries read rest in
      match read e with inl v => (v :: values, refusals) | inr r => (values, r :: refusals) end
  end.

Definition read_header (entry : node * node) : writtenHeader + refusal_ :=
  match keyTextOf entry.1 with
  | None => inr {| refused_node := entry.1; refused_why := mustBeAHeaderName |}
  | Some name => inl {| Header_Name := read_as entry.1 name; Header_Value := Str_UnmarshalYAML entry.2 |}
  end.

Definition rawHeaders_UnmarshalYAML (n : node) : rawHeaders :=
  match beneathNodeProperties n with
  | MappingNode _ entries =>
      let '(values, refusals) := read_entries read_header entries in refuse_at n refusals values
  | _ => refuse n mustBeAHeaderMapping []
  end.

(** The value of a field: decoded when the library hands one over, absent otherwise. *)
Definition field {A} (decode : node -> wrapper A) (zero : A) (entries : entries_) (name : string) : wrapper A :=
  match field_of entries (bs name) with Some v => decode v | None => unwritten zero end.

Definition fill_operation (es : entries_) : rawOperation :=
  {| raw_op_Columns := field StrList_UnmarshalYAML [] es "columns";
     raw_op_IsDistinct := field Bool_UnmarshalYAML false es "is_distinct";
     raw_op_When := field Str_UnmarshalYAML [] es "when" |}.

(** [operationOf]. *)
Definition operationOf (entry : node * node) : namedOperation + refusal_ :=
  match keyTextOf entry.1 with
  | None => inr {| refused_node := entry.1; refused_why := mustBeAnOperationName |}
  | Some name =>
      if bool_decide (name = []) then inr {| refused_node := entry.1; refused_why := mustBeAnOperationName |}
      else match struct_entries (beneathNodeProperties entry.2) with
           | None => inr {| refused_node := entry.2; refused_why := mustBeAnOperationsMapping |}
           | Some entries => inl {| op_Name := read_as entry.1 name; Filter := fill_operation entries |}
           end
  end.

(** [slices.Index] in the declared operations, their number when it is none of them. *)
Fixpoint index_in (name : gostring) (names : list gostring) : nat :=
  match names with
  | [] => 0
  | n :: rest => if bool_decide (n = name) then 0 else S (index_in name rest)
  end.

Definition declaredOperationIndex (name : gostring) : nat :=
  index_in name (default [] (declaredNames <$> schemaLevels levelOperations)).

Definition compareOperationNames (a b : gostring) : comparison :=
  or_else (Nat.compare (declaredOperationIndex a) (declaredOperationIndex b)) (string_compare a b).

Definition by_operation_name (a b : namedOperation) : comparison :=
  compareOperationNames (value (op_Name a)) (value (op_Name b)).

Definition rawOperations_UnmarshalYAML (n : node) : rawOperations :=
  match beneathNodeProperties n with
  | MappingNode _ entries =>
      let '(values, refusals) := read_entries operationOf entries in
      refuse_at n refusals (merge_sort (below by_operation_name) values)
  | _ => refuse n mustBeAnOperationsMapping []
  end.

(** *** The structs, field by field *)

Definition fill_database (es : entries_) : rawDatabase :=
  {| raw_URL := field Str_UnmarshalYAML [] es "url"; raw_Schema := field Str_UnmarshalYAML [] es "schema";
     raw_ListenURL := field Str_UnmarshalYAML [] es "listen_url" |}.

Definition fill_worker (es : entries_) : rawWorker :=
  {| raw_Concurrency := field Int_UnmarshalYAML 0%Z es "concurrency";
     raw_BatchSize := field Int_UnmarshalYAML 0%Z es "batch_size";
     raw_PollInterval := field Dur_UnmarshalYAML 0%Z es "poll_interval";
     raw_LeaseTimeout := field Dur_UnmarshalYAML 0%Z es "lease_timeout";
     raw_DrainTimeout := field Dur_UnmarshalYAML 0%Z es "drain_timeout";
     raw_AllowedDestinationCIDRs := field StrList_UnmarshalYAML [] es "allowed_destination_cidrs" |}.

Definition fill_retention (es : entries_) : rawRetention :=
  {| raw_Keep := field Dur_UnmarshalYAML 0%Z es "keep";
     raw_PartitionInterval := field Dur_UnmarshalYAML 0%Z es "partition_interval";
     raw_Precreate := field Dur_UnmarshalYAML 0%Z es "precreate" |}.

Definition fill_retry (es : entries_) : rawRetry :=
  {| raw_MaxAttempts := field Int_UnmarshalYAML 0%Z es "max_attempts";
     raw_Backoff := field Str_UnmarshalYAML [] es "backoff";
     raw_InitialInterval := field Dur_UnmarshalYAML 0%Z es "initial_interval";
     raw_MaxInterval := field Dur_UnmarshalYAML 0%Z es "max_interval";
     raw_Jitter := field Bool_UnmarshalYAML false es "jitter" |}.

(** A nested mapping, and the struct of a mapping that was not written. *)
Definition nested {T} (fill : entries_ -> T) (es : entries_) (name : string) : wrapper T :=
  field (mappingOf_UnmarshalYAML fill (fill [])) (fill []) es name.

Definition fill_defaults (es : entries_) : rawDefaults :=
  {| def_Timeout := field Dur_UnmarshalYAML 0%Z es "timeout"; def_Retry := nested fill_retry es "retry";
     def_Headers := field rawHeaders_UnmarshalYAML [] es "headers" |}.

Definition fill_payload (es : entries_) : rawPayload :=
  {| raw_Mode := field Str_UnmarshalYAML [] es "mode";
     raw_Columns := field StrList_UnmarshalYAML [] es "columns";
     raw_Exclude := field StrList_UnmarshalYAML [] es "exclude";
     raw_IncludeOld := field Bool_UnmarshalYAML false es "include_old";
     raw_MaxBytes := field Int_UnmarshalYAML 0%Z es "max_bytes" |}.

Definition fill_signing (es : entries_) : rawSigning := {| raw_Secrets := field StrList_UnmarshalYAML [] es "secrets" |}.

Definition fill_destination (es : entries_) : rawDestination :=
  {| dest_URL := field Str_UnmarshalYAML [] es "url"; raw_Method := field Str_UnmarshalYAML [] es "method";
     raw_Headers := field rawHeaders_UnmarshalYAML [] es "headers"; raw_Signing := nested fill_signing es "signing" |}.

Definition fill_listener (es : entries_) : rawListener :=
  {| raw_Name := field Str_UnmarshalYAML [] es "name";
     raw_Enabled := field Bool_UnmarshalYAML false es "enabled";
     raw_Table := field Str_UnmarshalYAML [] es "table";
     raw_Operations := field rawOperations_UnmarshalYAML [] es "operations";
     raw_Payload := nested fill_payload es "payload";
     raw_Destination := nested fill_destination es "destination";
     raw_Retry := nested fill_retry es "retry";
     raw_Timeout := field Dur_UnmarshalYAML 0%Z es "timeout";
     listener_Concurrency := field Int_UnmarshalYAML 0%Z es "concurrency" |}.

Definition fill_config (es : entries_) : rawConfig :=
  {| raw_Version := field Int_UnmarshalYAML 0%Z es "version";
     raw_Instance := field Str_UnmarshalYAML [] es "instance";
     raw_AutoReconcile := field Bool_UnmarshalYAML false es "auto_reconcile";
     raw_Database := nested fill_database es "database";
     raw_Worker := nested fill_worker es "worker";
     raw_Retention := nested fill_retention es "retention";
     raw_Defaults := nested fill_defaults es "defaults";
     raw_Listeners := field (listOf_UnmarshalYAML fill_listener) [] es "listeners" |}.

(** ** resolvewalk.go: a recorded refusal becomes a diagnostic

    Each wrapper is met before what it holds, in the order the structs declare their fields. *)

Section resolving.
Context (src : source).

(** [presence.where]: the position stage G derives, the bare file for a value that was not written. *)
Definition where_ {A} (w : wrapper A) : Positioned :=
  match held_node (pres w) with
  | Some n => positionOf src n
  | None => {| File := src_name src; Line := 0; Col := 0; Path := [] |}
  end.

Definition resolveAs {A} (rule : RuleID) (w : wrapper A) : Errors :=
  map (λ r, reported rule (positionOf src (refused_node r)) (refused_why r)) (refused (pres w)).

Definition resolve {A} (w : wrapper A) : Errors := resolveAs RuleDecode w.
Definition resolve_Dur (d : Dur) : Errors := resolveAs (R 40) d.

Definition resolve_Bool (b : Bool) : Errors :=
  let reportedBy := match held_node (pres b) with Some n => conversionRuleAt (pathOf n) | None => noRule end in
  resolveAs (if bool_decide (reportedBy = noRule) then RuleDecode else reportedBy) b.

Definition resolve_StrList (l : StrList) : Errors := resolve l ++ (value l ≫= resolve).

Definition resolve_Headers (h : rawHeaders) : Errors :=
  resolve h ++ (value h ≫= λ header, resolve (Header_Name header) ++ resolve (Header_Value header)).

Definition resolve_Operations (o : rawOperations) : Errors :=
  resolve o ++ (value o ≫= λ named,
    resolve (op_Name named) ++ resolve_StrList (raw_op_Columns (Filter named)) ++
    resolve_Bool (raw_op_IsDistinct (Filter named)) ++ resolve (raw_op_When (Filter named))).

Definition within {T} (walk : T -> Errors) (m : wrapper T) : Errors := resolve m ++ walk (value m).

Definition walk_database (d : rawDatabase) : Errors := resolve (raw_URL d) ++ resolve (raw_Schema d) ++ resolve (raw_ListenURL d).
Definition walk_worker (w : rawWorker) : Errors :=
  resolve (raw_Concurrency w) ++ resolve (raw_BatchSize w) ++ resolve_Dur (raw_PollInterval w) ++
  resolve_Dur (raw_LeaseTimeout w) ++ resolve_Dur (raw_DrainTimeout w) ++ resolve_StrList (raw_AllowedDestinationCIDRs w).
Definition walk_retention (r : rawRetention) : Errors :=
  resolve_Dur (raw_Keep r) ++ resolve_Dur (raw_PartitionInterval r) ++ resolve_Dur (raw_Precreate r).
Definition walk_retry (r : rawRetry) : Errors :=
  resolve (raw_MaxAttempts r) ++ resolve (raw_Backoff r) ++ resolve_Dur (raw_InitialInterval r) ++
  resolve_Dur (raw_MaxInterval r) ++ resolve_Bool (raw_Jitter r).
Definition walk_defaults (d : rawDefaults) : Errors :=
  resolve_Dur (def_Timeout d) ++ within walk_retry (def_Retry d) ++ resolve_Headers (def_Headers d).
Definition walk_payload (p : rawPayload) : Errors :=
  resolve (raw_Mode p) ++ resolve_StrList (raw_Columns p) ++ resolve_StrList (raw_Exclude p) ++
  resolve_Bool (raw_IncludeOld p) ++ resolve (raw_MaxBytes p).
Definition walk_signing (s : rawSigning) : Errors := resolve_StrList (raw_Secrets s).
Definition walk_destination (d : rawDestination) : Errors :=
  resolve (dest_URL d) ++ resolve (raw_Method d) ++ resolve_Headers (raw_Headers d) ++ within walk_signing (raw_Signing d).
Definition walk_listener (l : rawListener) : Errors :=
  resolve (raw_Name l) ++ resolve_Bool (raw_Enabled l) ++ resolve (raw_Table l) ++ resolve_Operations (raw_Operations l) ++
  within walk_payload (raw_Payload l) ++ within walk_destination (raw_Destination l) ++ within walk_retry (raw_Retry l) ++
  resolve_Dur (raw_Timeout l) ++ resolve (listener_Concurrency l).

Definition resolveEveryValue (c : rawConfig) : Errors :=
  resolve (raw_Version c) ++ resolve (raw_Instance c) ++ resolve_Bool (raw_AutoReconcile c) ++
  within walk_database (raw_Database c) ++ within walk_worker (raw_Worker c) ++ within walk_retention (raw_Retention c) ++
  within walk_defaults (raw_Defaults c) ++ resolve (raw_Listeners c) ++ (value (raw_Listeners c) ≫= walk_listener).

(** [decodeDocument], of a root stage C has seen to be a mapping and stage F to hold no key twice. *)
Definition decodeDocument (root : node) : rawConfig * Errors :=
  let decoded := fill_config (default [] (struct_entries root)) in (decoded, resolveEveryValue decoded).
End resolving.
End decoding.
