(* ===== verification/Merge.v ===== *)
(** * Resolution: [internal/config/merge.go] and [defaults.go] (stage I, first half).

    Built-in defaults, then the [defaults] block, then the listener, one field at a time. Whether a
    layer overrides is whether it was written, never what it holds. Durations are nanoseconds. *)

From S2P Require Import Prelude Quote Partition Config Ident Diag Yaml Normalize Schema Raw.

Local Open Scope Z_scope.

(** ** defaults.go *)

Record listenerDefaults := {
  enabled : bool; timeout : Z; retry : Retry; operationDistinct : bool; payload : Payload; destinationMethod : gostring
}.

Record defaultState := {
  database : Database; worker : Worker; retention : Retention; instance : gostring -> gostring; autoReconcile : bool;
  listener : listenerDefaults
}.

Definition seconds (n : Z) : Z := n * 10 ^ 9.
Definition minutes (n : Z) : Z := n * 60 * 10 ^ 9.
Definition hours (n : Z) : Z := n * 3600 * 10 ^ 9.

(** The zero state the rows are applied to. *)
Definition no_retry : Retry := {| MaxAttempts := 0; Backoff := []; InitialInterval := 0; MaxInterval := 0; Jitter := false |}.
Definition no_payload : Payload := {| Mode := []; Payload_Columns := []; Exclude := []; IncludeOld := false; MaxBytes := 0 |}.
Definition no_defaults : defaultState :=
  {| database := {| Database_URL := []; Schema := []; ListenURL := [] |};
     worker := {| Concurrency := 0; BatchSize := 0; PollInterval := 0; LeaseTimeout := 0; DrainTimeout := 0;
                  AllowedDestinationCIDRs := [] |};
     retention := MkRetention 0 0 0; instance := λ _, []; autoReconcile := false;
     listener := {| enabled := false; timeout := 0; retry := no_retry; operationDistinct := false; payload := no_payload;
                    destinationMethod := [] |} |}.

(** Field updates of the state, one for each part a row writes. *)
Definition on_database (f : Database -> Database) (d : defaultState) : defaultState :=
  {| database := f (database d); worker := worker d; retention := retention d; instance := instance d;
     autoReconcile := autoReconcile d; listener := listener d |}.
Definition on_worker (f : Worker -> Worker) (d : defaultState) : defaultState :=
  {| database := database d; worker := f (worker d); retention := retention d; instance := instance d;
     autoReconcile := autoReconcile d; listener := listener d |}.
Definition on_retention (f : Retention -> Retention) (d : defaultState) : defaultState :=
  {| database := database d; worker := worker d; retention := f (retention d); instance := instance d;
     autoReconcile := autoReconcile d; listener := listener d |}.
Definition on_listener (f : listenerDefaults -> listenerDefaults) (d : defaultState) : defaultState :=
  {| database := database d; worker := worker d; retention := retention d; instance := instance d;
     autoReconcile := autoReconcile d; listener := f (listener d) |}.
Definition set_instance (f : gostring -> gostring) (d : defaultState) : defaultState :=
  {| database := database d; worker := worker d; retention := retention d; instance := f;
     autoReconcile := autoReconcile d; listener := listener d |}.
Definition set_autoReconcile (b : bool) (d : defaultState) : defaultState :=
  {| database := database d; worker := worker d; retention := retention d; instance := instance d;
     autoReconcile := b; listener := listener d |}.

Definition set_Schema (s : gostring) (d : Database) : Database :=
  {| Database_URL := Database_URL d; Schema := s; ListenURL := ListenURL d |}.

Definition set_Concurrency (z : Z) (w : Worker) : Worker :=
  {| Concurrency := z; BatchSize := BatchSize w; PollInterval := PollInterval w; LeaseTimeout := LeaseTimeout w;
     DrainTimeout := DrainTimeout w; AllowedDestinationCIDRs := AllowedDestinationCIDRs w |}.
Definition set_BatchSize (z : Z) (w : Worker) : Worker :=
  {| Concurrency := Concurrency w; BatchSize := z; PollInterval := PollInterval w; LeaseTimeout := LeaseTimeout w;
     DrainTimeout := DrainTimeout w; AllowedDestinationCIDRs := AllowedDestinationCIDRs w |}.
Definition set_PollInterval (z : Z) (w : Worker) : Worker :=
  {| Concurrency := Concurrency w; BatchSize := BatchSize w; PollInterval := z; LeaseTimeout := LeaseTimeout w;
     DrainTimeout := DrainTimeout w; AllowedDestinationCIDRs := AllowedDestinationCIDRs w |}.
Definition set_LeaseTimeout (z : Z) (w : Worker) : Worker :=
  {| Concurrency := Concurrency w; BatchSize := BatchSize w; PollInterval := PollInterval w; LeaseTimeout := z;
     DrainTimeout := DrainTimeout w; AllowedDestinationCIDRs := AllowedDestinationCIDRs w |}.
Definition set_DrainTimeout (z : Z) (w : Worker) : Worker :=
  {| Concurrency := Concurrency w; BatchSize := BatchSize w; PollInterval := PollInterval w; LeaseTimeout := LeaseTimeout w;
     DrainTimeout := z; AllowedDestinationCIDRs := AllowedDestinationCIDRs w |}.

Definition set_Keep (z : Z) (r : Retention) : Retention := MkRetention z (PartitionInterval r) (Precreate r).
Definition set_PartitionInterval (z : Z) (r : Retention) : Retention := MkRetention (Keep r) z (Precreate r).
Definition set_Precreate (z : Z) (r : Retention) : Retention := MkRetention (Keep r) (PartitionInterval r) z.

Definition set_enabled (b : bool) (l : listenerDefaults) : listenerDefaults :=
  {| enabled := b; timeout := timeout l; retry := retry l; operationDistinct := operationDistinct l;
     payload := payload l; destinationMethod := destinationMethod l |}.
Definition set_timeout (z : Z) (l : listenerDefaults) : listenerDefaults :=
  {| enabled := enabled l; timeout := z; retry := retry l; operationDistinct := operationDistinct l;
     payload := payload l; destinationMethod := destinationMethod l |}.
Definition on_retry (f : Retry -> Retry) (l : listenerDefaults) : listenerDefaults :=
  {| enabled := enabled l; timeout := timeout l; retry := f (retry l); operationDistinct := operationDistinct l;
     payload := payload l; destinationMethod := destinationMethod l |}.
Definition set_operationDistinct (b : bool) (l : listenerDefaults) : listenerDefaults :=
  {| enabled := enabled l; timeout := timeout l; retry := retry l; operationDistinct := b;
     payload := payload l; destinationMethod := destinationMethod l |}.
Definition on_payload (f : Payload -> Payload) (l : listenerDefaults) : listenerDefaults :=
  {| enabled := enabled l; timeout := timeout l; retry := retry l; operationDistinct := operationDistinct l;
     payload := f (payload l); destinationMethod := destinationMethod l |}.
Definition set_destinationMethod (m : gostring) (l : listenerDefaults) : listenerDefaults :=
  {| enabled := enabled l; timeout := timeout l; retry := retry l; operationDistinct := operationDistinct l;
     payload := payload l; destinationMethod := m |}.

Definition set_MaxAttempts (z : Z) (r : Retry) : Retry :=
  {| MaxAttempts := z; Backoff := Backoff r; InitialInterval := InitialInterval r; MaxInterval := MaxInterval r; Jitter := Jitter r |}.
Definition set_Backoff (s : gostring) (r : Retry) : Retry :=
  {| MaxAttempts := MaxAttempts r; Backoff := s; InitialInterval := InitialInterval r; MaxInterval := MaxInterval r; Jitter := Jitter r |}.
Definition set_InitialInterval (z : Z) (r : Retry) : Retry :=
  {| MaxAttempts := MaxAttempts r; Backoff := Backoff r; InitialInterval := z; MaxInterval := MaxInterval r; Jitter := Jitter r |}.
Definition set_MaxInterval (z : Z) (r : Retry) : Retry :=
  {| MaxAttempts := MaxAttempts r; Backoff := Backoff r; InitialInterval := InitialInterval r; MaxInterval := z; Jitter := Jitter r |}.
Definition set_Jitter (b : bool) (r : Retry) : Retry :=
  {| MaxAttempts := MaxAttempts r; Backoff := Backoff r; InitialInterval := InitialInterval r; MaxInterval := MaxInterval r; Jitter := b |}.

Definition set_Mode (s : gostring) (p : Payload) : Payload :=
  {| Mode := s; Payload_Columns := Payload_Columns p; Exclude := Exclude p; IncludeOld := IncludeOld p; MaxBytes := MaxBytes p |}.
Definition set_IncludeOld (b : bool) (p : Payload) : Payload :=
  {| Mode := Mode p; Payload_Columns := Payload_Columns p; Exclude := Exclude p; IncludeOld := b; MaxBytes := MaxBytes p |}.
Definition set_MaxBytes (z : Z) (p : Payload) : Payload :=
  {| Mode := Mode p; Payload_Columns := Payload_Columns p; Exclude := Exclude p; IncludeOld := IncludeOld p; MaxBytes := z |}.

Definition payloadModeFull : gostring := bs "full".
Definition payloadModeCols : gostring := bs "columns".
Definition payloadModeKeys : gostring := bs "keys_only".

(** The complete default table, a row for each. *)
Definition builtInDefaults : list (gostring * (defaultState -> defaultState)) :=
  [(bs "database.schema", on_database (set_Schema suggestedSchema));
   (bs "instance", set_instance (λ schema, schema));
   (bs "auto_reconcile", set_autoReconcile false);
   (bs "worker.concurrency", on_worker (set_Concurrency 16));
   (bs "worker.batch_size", on_worker (set_BatchSize 100));
   (bs "worker.poll_interval", on_worker (set_PollInterval (seconds 10)));
   (bs "worker.lease_timeout", on_worker (set_LeaseTimeout (minutes 5)));
   (bs "worker.drain_timeout", on_worker (set_DrainTimeout (seconds 30)));
   (bs "retention.keep", on_retention (set_Keep (hours 168)));
   (bs "retention.partition_interval", on_retention (set_PartitionInterval (hours 24)));
   (bs "retention.precreate", on_retention (set_Precreate (hours 168)));
   (bs "timeout", on_listener (set_timeout (seconds 5)));
   (bs "retry.max_attempts", on_listener (on_retry (set_MaxAttempts 5)));
   (bs "retry.backoff", on_listener (on_retry (set_Backoff (bs "exponential"))));
   (bs "retry.initial_interval", on_listener (on_retry (set_InitialInterval (seconds 10))));
   (bs "retry.max_interval", on_listener (on_retry (set_MaxInterval (hours 1))));
   (bs "retry.jitter", on_listener (on_retry (set_Jitter true)));
   (bs "enabled", on_listener (set_enabled true));
   (bs "operations.update.is_distinct", on_listener (set_operationDistinct false));
   (bs "payload.mode", on_listener (on_payload (set_Mode payloadModeFull)));
   (bs "payload.include_old", on_listener (on_payload (set_IncludeOld false)));
   (bs "payload.max_bytes", on_listener (on_payload (set_MaxBytes 262144)));
   (bs "destination.method", on_listener (set_destinationMethod (bs "POST")))].

Definition resolvedBuiltInDefaults : defaultState := foldl (λ d entry, entry.2 d) no_defaults builtInDefaults.

(** ** merge.go *)

(** [mergedString], [mergedInt], [mergedBool] and [mergedDuration] are one function of the type. *)
Definition merged {A} (raw : wrapper A) (inherited : A) : A := if Set_ (pres raw) then value raw else inherited.

Definition mergedStrings (raw : StrList) (inherited : list gostring) : list gostring :=
  if negb (Set_ (pres raw)) then inherited else map value (value raw).

Definition resolveDatabase (raw : rawConfig) (defaults : defaultState) : Database * gostring :=
  let d := value (raw_Database raw) in
  let schema := merged (raw_Schema d) (Schema (database defaults)) in
  ({| Database_URL := merged (raw_URL d) []; Schema := schema; ListenURL := merged (raw_ListenURL d) [] |},
   merged (raw_Instance raw) (instance defaults schema)).

Definition resolveWorker (inherited : Worker) (raw : rawWorker) : Worker :=
  {| Concurrency := merged (raw_Concurrency raw) (Concurrency inherited);
     BatchSize := merged (raw_BatchSize raw) (BatchSize inherited);
     PollInterval := merged (raw_PollInterval raw) (PollInterval inherited);
     LeaseTimeout := merged (raw_LeaseTimeout raw) (LeaseTimeout inherited);
     DrainTimeout := merged (raw_DrainTimeout raw) (DrainTimeout inherited);
     AllowedDestinationCIDRs := mergedStrings (raw_AllowedDestinationCIDRs raw) (AllowedDestinationCIDRs inherited) |}.

Definition resolveRetention (inherited : Retention) (raw : rawRetention) : Retention :=
  MkRetention (merged (raw_Keep raw) (Keep inherited)) (merged (raw_PartitionInterval raw) (PartitionInterval inherited))
    (merged (raw_Precreate raw) (Precreate inherited)).

Definition resolvePayload (raw : rawPayload) (inherited : Payload) : Payload :=
  {| Mode := merged (raw_Mode raw) (Mode inherited);
     Payload_Columns := mergedStrings (raw_Columns raw) (Payload_Columns inherited);
     Exclude := mergedStrings (raw_Exclude raw) (Exclude inherited);
     IncludeOld := merged (raw_IncludeOld raw) (IncludeOld inherited);
     MaxBytes := merged (raw_MaxBytes raw) (MaxBytes inherited) |}.

Definition mergeRetry (inherited : Retry) (raw : rawRetry) : Retry :=
  {| MaxAttempts := merged (raw_MaxAttempts raw) (MaxAttempts inherited);
     Backoff := merged (raw_Backoff raw) (Backoff inherited);
     InitialInterval := merged (raw_InitialInterval raw) (InitialInterval inherited);
     MaxInterval := merged (raw_MaxInterval raw) (MaxInterval inherited);
     Jitter := merged (raw_Jitter raw) (Jitter inherited) |}.

Definition resolve_operation (defaultIsDistinct : bool) (operation : namedOperation) : Operation :=
  {| Kind := merged (op_Name operation) [];
     Columns := mergedStrings (raw_op_Columns (Filter operation)) [];
     IsDistinct := merged (raw_op_IsDistinct (Filter operation)) defaultIsDistinct;
     When := merged (raw_op_When (Filter operation)) [] |}.

Definition by_kind (a b : Operation) : comparison := compareOperationNames (Kind a) (Kind b).

Definition resolveOperations (raw : rawOperations) (defaultIsDistinct : bool) : Operations :=
  merge_sort (below by_kind) (map (resolve_operation defaultIsDistinct) (value raw)).

(** One header of a layer; a name that is no field name is left out. *)
Definition merge_header (resolved : gmap gostring gostring) (header : writtenHeader) : gmap gostring gostring :=
  match canonicalHTTPFieldName (merged (Header_Name header) []) with
  | Some name => <[name := merged (Header_Value header) []]> resolved
  | None => resolved
  end.

Definition mergeHeaders (layers : list rawHeaders) : gmap gostring gostring :=
  foldl (λ resolved layer, if negb (Set_ (pres layer)) then resolved else foldl merge_header resolved (value layer)) ∅ layers.

Definition resolveListener (raw : rawListener) (inheritedHeaders : rawHeaders) (defaults : listenerDefaults) : Listener :=
  let destination := value (raw_Destination raw) in
  {| Name := merged (raw_Name raw) [];
     Enabled := merged (raw_Enabled raw) (enabled defaults);
     Trigger := {| Table := merged (raw_Table raw) [];
                   Operations_ := resolveOperations (raw_Operations raw) (operationDistinct defaults);
                   Payload_ := resolvePayload (value (raw_Payload raw)) (payload defaults) |};
     Delivery := {| Destination_ := {| Destination_URL := merged (dest_URL destination) [];
                                       Method := merged (raw_Method destination) (destinationMethod defaults);
                                       Headers := mergeHeaders [inheritedHeaders; raw_Headers destination];
                                       Signing_ := {| Secrets := mergedStrings (raw_Secrets (value (raw_Signing destination))) [] |} |};
                    Retry_ := mergeRetry (retry defaults) (value (raw_Retry raw));
                    Timeout := merged (raw_Timeout raw) (timeout defaults);
                    Listener_Concurrency := merged (listener_Concurrency raw) 0 |} |}.

(** The defaults a listener inherits: the built-in ones under the [defaults] block. *)
Definition listener_defaults (raw : rawConfig) : listenerDefaults :=
  let block := value (raw_Defaults raw) in
  let builtin := listener resolvedBuiltInDefaults in
  on_retry (λ r, mergeRetry r (value (def_Retry block))) (set_timeout (merged (def_Timeout block) (timeout builtin)) builtin).

Definition resolveConfig (raw : rawConfig) : Config :=
  let defaults := resolvedBuiltInDefaults in
  let '(database_, instance_) := resolveDatabase raw defaults in
  {| Version := merged (raw_Version raw) 0;
     Config_Instance := instance_;
     AutoReconcile := merged (raw_AutoReconcile raw) (autoReconcile defaults);
     Config_Database := database_;
     Config_Worker := resolveWorker (worker defaults) (value (raw_Worker raw));
     Config_Retention := resolveRetention (retention defaults) (value (raw_Retention raw));
     Listeners := map (λ l, resolveListener l (def_Headers (value (raw_Defaults raw))) (listener_defaults raw))
                    (value (raw_Listeners raw)) |}.
