(* ===== verification/Validate.v ===== *)
(** * The rules: [internal/config/validate.go], [validatelists.go], [validatestructured.go],
    [validateprereq.go], [validateanchor.go], [compare.go] and [warn.go] (stages H and I).

    A rule judges a value that was written and could be read; the comparisons between fields judge the
    resolved values. A report without an anchor class for its rule panics, which is [None] here
    ([reports_are_anchored] shows none is). *)

From S2P Require Import Prelude Source Quote WhenLex Partition Config Interpolate Ident Diag Yaml Normalize Schema Raw Merge.

Local Open Scope Z_scope.

(** ** validateanchor.go *)

Inductive anchorClass := keyAnchor | mappingAnchor | valueAnchor | elementAnchor.

Record anchorSet := {
  key_at : option Positioned; mapping_at : option Positioned; value_at : option Positioned; element_at : option Positioned
}.

Definition semanticAnchors (class : anchorClass) (a : anchorSet) : option Positioned :=
  match class with
  | keyAnchor => key_at a
  | mappingAnchor => mapping_at a
  | valueAnchor => value_at a
  | elementAnchor => element_at a
  end.

Inductive semanticAnchorUse :=
  | scalarValueUse | structuredValueUse | headerNameUse | headerValueUse | listElementUse | effectiveValueUse.
#[export] Instance semanticAnchorUse_eq_dec : EqDecision semanticAnchorUse.
Proof. solve_decision. Defined.

(** The assignment table, by the number of the rule. *)
Definition stageHAnchorClass (rule : nat) (use : semanticAnchorUse) : option anchorClass :=
  let scalar := if bool_decide (use = scalarValueUse) then Some valueAnchor else None in
  let structured := if bool_decide (use = structuredValueUse) then Some valueAnchor else None in
  let effective := if bool_decide (use = effectiveValueUse) then Some valueAnchor else None in
  let element := if bool_decide (use = listElementUse) then Some elementAnchor else None in
  match rule with
  | 1 | 2 | 4 | 6 | 7 | 8 | 10 | 13 | 14 | 15 | 17 | 18 | 23 | 25 | 31 | 34 | 35 | 37 | 40 | 43 => scalar
  | 3 | 5 | 24 | 26 | 30 | 36 => structured
  | 9 | 11 | 12 | 16 => effective
  | 19 => match use with headerNameUse => Some keyAnchor | headerValueUse => Some valueAnchor | _ => None end
  | 21 => match use with headerNameUse => Some keyAnchor | _ => None end
  | 29 | 38 => element
  | 32 | 33 => match use with structuredValueUse => Some valueAnchor | listElementUse => Some elementAnchor | _ => None end
  | 39 => match use with scalarValueUse | effectiveValueUse => Some valueAnchor | _ => None end
  | _ => None
  end%nat.

(** One report as a rule makes it. *)
Record semantic := { sem_rule : nat; sem_use : semanticAnchorUse; sem_anchors : anchorSet; sem_why : fault }.

(** [reportSemanticUsing]. *)
Definition positioned (s : semantic) : option Error :=
  class ← stageHAnchorClass (sem_rule s) (sem_use s);
  at_ ← semanticAnchors class (sem_anchors s);
  Some (reported (R (sem_rule s)) at_ (sem_why s)).

Definition semanticFault (message : gostring) : fault := {| message := message; hint := [] |}.

Definition readableList (values : list gostring) : gostring :=
  join (bs ", ") (take (length values - 1) values) ++ bs " or " ++ List.last values [].

Definition retryBackoffs : list gostring := [bs "exponential"; bs "linear"; bs "fixed"].
Definition payloadModes : list gostring := [payloadModeFull; payloadModeCols; payloadModeKeys].
Definition destinationMethods : list gostring := [bs "POST"; bs "PUT"; bs "PATCH"].

Definition reservedSchemaFault : fault :=
  {| message := bs "the prefix " ++ quoted_text (bs "pg_") ++ bs " is reserved for system schemas";
     hint := bs "use " ++ quoted_text suggestedSchema ++ bs " instead" |}.

Definition minConcurrency : Z := 1.
Definition maxConcurrency : Z := 1024.
Definition concurrencyCanParticipateInComparison (v : Z) : bool := (minConcurrency <=? v) && (v <=? maxConcurrency).

Section rules.
Context (src : source) (IsLetter : Z -> bool) (url_parse : url_parser) (quote : gostring -> gostring).

Definition at_value {A} (w : wrapper A) : anchorSet :=
  {| key_at := None; mapping_at := None; value_at := Some (where_ src w); element_at := None |}.
Definition at_element (entry : Str) : anchorSet :=
  {| key_at := None; mapping_at := None; value_at := None; element_at := Some (where_ src entry) |}.
Definition at_header (header : writtenHeader) : anchorSet :=
  {| key_at := Some (where_ src (Header_Name header)); mapping_at := None;
     value_at := Some (where_ src (Header_Value header)); element_at := None |}.

Definition report (rule : nat) (use : semanticAnchorUse) (anchors : anchorSet) (why : fault) : list semantic :=
  [{| sem_rule := rule; sem_use := use; sem_anchors := anchors; sem_why := why |}].

(** [reject]: the uniform gate. *)
Definition reject {A} (rule : nat) (v : wrapper A) (broken : bool) (why : fault) : list semantic :=
  if negb (Valid v) || negb broken then [] else report rule scalarValueUse (at_value v) why.

Definition reportStructured {A} (rule : nat) (v : wrapper A) (why : fault) : list semantic :=
  report rule structuredValueUse (at_value v) why.
Definition reportListElement (rule : nat) (entry : Str) (why : fault) : list semantic :=
  report rule listElementUse (at_element entry) why.
Definition reportHeader (rule : nat) (use : semanticAnchorUse) (header : writtenHeader) (why : fault) : list semantic :=
  report rule use (at_header header) why.

(** *** validate.go: the rules on one value *)

Definition namePattern_text : gostring := bs "^[a-z][a-z0-9_]{0,40}$".

Definition validateName (rule : nat) (named : Str) : list semantic :=
  if negb (Valid named) then []
  else let defect := nameRuleDefect (value named) in
       reject rule named (negb (bool_decide (defect = nameOK)))
         (semanticFault (bs "must match " ++ namePattern_text ++ bs ": " ++ nameDefect_text defect)).

Definition between (rule : nat) (v : Int) (low high : Z) : list semantic :=
  reject rule v ((value v <? low) || (high <? value v))
    (semanticFault (bs "must be in the range " ++ format_int low ++ bs " to " ++ format_int high)).

Definition validateConcurrencyRange (rule : nat) (v : Int) : list semantic :=
  reject rule v (negb (concurrencyCanParticipateInComparison (value v)))
    (semanticFault (bs "must be in the range " ++ format_int minConcurrency ++ bs " to " ++ format_int maxConcurrency)).

Definition atLeast (rule : nat) (v : Int) (low : Z) : list semantic :=
  reject rule v (value v <? low) (semanticFault (bs "must be at least " ++ format_int low)).

Definition positiveInt (rule : nat) (v : Int) : list semantic :=
  reject rule v (value v <=? 0) (semanticFault (bs "must be greater than zero")).

Definition positiveDuration (rule : nat) (v : Dur) : list semantic :=
  reject rule v (value v <=? 0) (semanticFault (bs "must be greater than zero")).

Definition oneOf (rule : nat) (v : Str) (permitted : list gostring) : list semantic :=
  reject rule v (negb (bool_decide (value v ∈ permitted))) (semanticFault (bs "must be one of " ++ readableList permitted)).

Definition identifier_message (defect : identDefect) : gostring :=
  bs "must be a PostgreSQL identifier of at most " ++ format_int 63 ++ bs " bytes: " ++ identDefect_text defect.

(** *** validatelists.go *)

(** The loop of [validateUniqueList]: an entry at fault, or one written before. *)
Fixpoint unique_entries (rule : nat) (invalid : gostring -> option fault) (first : gmap gostring Str) (entries : list Str)
    : list semantic :=
  match entries with
  | [] => []
  | entry :: rest =>
      match invalid (value entry) with
      | Some why => reportListElement rule entry why ++ unique_entries rule invalid first rest
      | None =>
          match first !! value entry with
          | Some prior =>
              reportListElement rule entry
                (semanticFault (bs "entry duplicates the one first written on line " ++ format_int (Line (where_ src prior)))) ++
              unique_entries rule invalid first rest
          | None => unique_entries rule invalid (<[value entry := entry]> first) rest
          end
      end
  end.

Definition validateUniqueList (rule : nat) (list_ : StrList) (invalid : gostring -> option fault) : list semantic :=
  unique_entries rule invalid ∅ (value list_).

Definition identifierEntryFault (v : gostring) : option fault :=
  let defect := identifierDefect IsLetter v in
  if bool_decide (defect = identOK) then None else Some (semanticFault (identifier_message defect)).

Definition validateIdentifierList (rule : nat) (list_ : StrList) (nonEmpty : bool) : list semantic :=
  if negb (Valid list_) then []
  else if nonEmpty && bool_decide (length (value list_) = 0%nat)
       then reportStructured rule list_ (semanticFault (bs "must hold at least one identifier"))
       else validateUniqueList rule list_ identifierEntryFault.

Definition nonEmptyEntryFault (v : gostring) : option fault :=
  if bool_decide (v = []) then Some (semanticFault (bs "signing secret must not be empty")) else None.

Definition validateSigningSecrets (list_ : StrList) : list semantic :=
  if negb (Valid list_) then [] else validateUniqueList 38 list_ nonEmptyEntryFault.

(** *** validatestructured.go *)

Definition validateConnection (rule : nat) (v : Str) : list semantic :=
  if negb (Valid v) then []
  else if bool_decide (connectionStringForm IsLetter (value v) = connStringInvalid)
       then reportStructured rule v (semanticFault
              (bs "must be a postgres or postgresql URI, or a libpq keyword/value connection string"))
       else [].

Definition validateTable (v : Str) : list semantic :=
  if negb (Valid v) then []
  else let '(part, defect) := qualifiedTableFault IsLetter (value v) in
       match part with
       | tableNotQualified => reportStructured 26 v (semanticFault (bs "must be schema-qualified in schema.table form"))
       | tableSchemaPartInvalid | tableNamePartInvalid =>
           reportStructured 26 v (semanticFault (tableFault_text part ++ bs " " ++ identifier_message defect))
       | tableOK => []
       end.

Fixpoint listener_names (first : gmap gostring Str) (listeners : list rawListener) : list semantic :=
  match listeners with
  | [] => []
  | l :: rest =>
      let name := raw_Name l in
      if negb (Valid name) then listener_names first rest
      else match first !! value name with
           | Some prior =>
               reportStructured 24 name (semanticFault
                 (bs "must be unique; the first listener with this name is on line " ++ format_int (Line (where_ src prior)))) ++
               listener_names first rest
           | None => listener_names (<[value name := name]> first) rest
           end
  end.

Definition validateListenerNames (listeners : list rawListener) : list semantic := listener_names ∅ listeners.

Definition validate_header (header : writtenHeader) : list semantic :=
  match canonicalHTTPFieldName (value (Header_Name header)) with
  | None => reportHeader 19 headerNameUse header (semanticFault (bs "header name must be a valid HTTP field name"))
  | Some canonical =>
      if usesReservedHeaderPrefix canonical
      then reportHeader 21 headerNameUse header (semanticFault
             (bs "headers beginning with " ++ quote reservedHeaderPrefix ++ bs " are generated by pg_noty itself"))
      else []
  end ++
  (if Valid (Header_Value header) && bool_decide (value (Header_Value header) = [])
   then reportHeader 19 headerValueUse header (semanticFault (bs "header value must not be empty")) else []).

Definition validateHeaders (headers : rawHeaders) : list semantic := value headers ≫= validate_header.

Definition validate_operation (named : namedOperation) : list semantic :=
  (if bool_decide (value (op_Name named) = updateOperation)
   then validateIdentifierList 29 (raw_op_Columns (Filter named)) false else []) ++
  (let when := raw_op_When (Filter named) in
   if negb (Valid when) then []
   else match forbiddenWhenReference (value (op_Name named)) (value when) with
        | Some ref => reportStructured 30 when (semanticFault
                        (Statement ref ++ bs " trigger's WHEN condition cannot reference " ++ Word ref ++ bs " values"))
        | None => []
        end).

Definition validateOperations (operations : rawOperations) : list semantic := value operations ≫= validate_operation.

Definition validateDestinationURL (v : Str) : list semantic :=
  if negb (Valid v) then []
  else let '(defect, reason) := destinationURLDefect url_parse (value v) in
       if bool_decide (defect = urlOK) then []
       else reportStructured 36 v (semanticFault
              (bs "must be a non-empty http or https URL with a host: " ++ urlDefect_text defect ++
               (if bool_decide (reason = []) then [] else bs ": " ++ reason))).

Definition validateDestination (raw : rawDestination) : list semantic :=
  validateDestinationURL (dest_URL raw) ++ oneOf 37 (raw_Method raw) destinationMethods ++
  validateHeaders (raw_Headers raw) ++ validateSigningSecrets (raw_Secrets (value (raw_Signing raw))).

(** *** validateprereq.go *)

Definition payloadModeCanGovernCompatibility (mode : Str) : bool :=
  negb (written_set mode) || (Valid mode && bool_decide (value mode ∈ payloadModes)).

(** The path up to and with its last dot. *)
Fixpoint through_last_dot (path : gostring) : option gostring :=
  match path with
  | [] => None
  | c :: rest =>
      match through_last_dot rest with
      | Some prefix => Some (c :: prefix)
      | None => if bool_decide (c = "."%char) then Some [c] else None
      end
  end.

Definition payloadColumnsKey : gostring := bs "columns".

(** Whether stage F named the written key that was meant to satisfy the complaint. *)
Definition hasPriorCorrection (prior : Errors) (at_ : Positioned) (intended : gostring) : bool :=
  match through_last_dot (Path at_) with
  | None => false
  | Some prefix =>
      existsb (λ diag, bool_decide (Rule diag = R 41) && has_prefix (Error_Path diag) prefix &&
                       bool_decide (Hint diag = didYouMean quote intended)) prior
  end.

Context (prior : Errors).

Definition validatePayloadCompatibility (raw : rawPayload) : list semantic :=
  let mode := if negb (written_set (raw_Mode raw)) then payloadModeFull else value (raw_Mode raw) in
  (if bool_decide (mode = payloadModeCols) && negb (written_set (raw_Columns raw)) &&
      negb (hasPriorCorrection prior (where_ src (raw_Mode raw)) payloadColumnsKey)
   then reportStructured 32 (raw_Mode raw) (semanticFault (bs "payload.columns is required when payload.mode is columns"))
   else []) ++
  (if negb (bool_decide (mode = payloadModeCols)) && written_set (raw_Columns raw)
   then reportStructured 32 (raw_Columns raw) (semanticFault (bs "payload.columns is legal only when payload.mode is columns"))
   else []) ++
  (if negb (bool_decide (mode = payloadModeFull)) && written_set (raw_Exclude raw)
   then reportStructured 33 (raw_Exclude raw) (semanticFault (bs "payload.exclude is legal only when payload.mode is full"))
   else []).

Definition validatePayload (raw : rawPayload) : list semantic :=
  let governs := payloadModeCanGovernCompatibility (raw_Mode raw) in
  validateIdentifierList 32 (raw_Columns raw) true ++
  validateIdentifierList 33 (raw_Exclude raw) false ++
  reject 31 (raw_Mode raw) (negb governs) (semanticFault (bs "must be one of " ++ readableList payloadModes)) ++
  positiveInt 35 (raw_MaxBytes raw) ++
  (if written_set (raw_Columns raw) && written_set (raw_Exclude raw)
   then reportStructured 33 (raw_Exclude raw) (semanticFault (bs "payload.columns and payload.exclude are mutually exclusive"))
   else if negb governs then [] else validatePayloadCompatibility raw).

(** *** validate.go: the pass *)

Definition validateRoot (raw : rawConfig) : list semantic :=
  reject 1 (raw_Version raw) (negb (value (raw_Version raw) =? 1)) (semanticFault (bs "must equal 1")) ++
  validateName 2 (raw_Instance raw).

Definition validateDatabase (raw : rawDatabase) : list semantic :=
  validateConnection 3 (raw_URL raw) ++ validateConnection 5 (raw_ListenURL raw) ++
  (if negb (Valid (raw_Schema raw)) then []
   else let defect := identifierDefect IsLetter (value (raw_Schema raw)) in
        if negb (bool_decide (defect = identOK))
        then reject 4 (raw_Schema raw) true (semanticFault (identifier_message defect))
        else reject 4 (raw_Schema raw) (usesReservedSchemaPrefix (value (raw_Schema raw))) reservedSchemaFault).

Definition validateWorker (raw : rawWorker) : list semantic :=
  validateConcurrencyRange 6 (raw_Concurrency raw) ++ between 7 (raw_BatchSize raw) 1 10000 ++
  positiveDuration 8 (raw_PollInterval raw) ++ positiveDuration 8 (raw_LeaseTimeout raw) ++
  positiveDuration 8 (raw_DrainTimeout raw).

Definition validateRetention (raw : rawRetention) : list semantic :=
  positiveDuration 10 (raw_Keep raw) ++ positiveDuration 10 (raw_PartitionInterval raw) ++
  positiveDuration 10 (raw_Precreate raw).

Definition validateRetry (raw : rawRetry) : list semantic :=
  atLeast 14 (raw_MaxAttempts raw) 1 ++ oneOf 15 (raw_Backoff raw) retryBackoffs ++
  positiveDuration 17 (raw_MaxInterval raw).

Definition validateDefaults (raw : rawDefaults) : list semantic :=
  positiveDuration 13 (def_Timeout raw) ++ validateRetry (value (def_Retry raw)) ++ validateHeaders (def_Headers raw).

Definition validateListener (raw : rawListener) : list semantic :=
  validateName 23 (raw_Name raw) ++ validateTable (raw_Table raw) ++ validateOperations (raw_Operations raw) ++
  positiveDuration 13 (raw_Timeout raw) ++ validateConcurrencyRange 39 (listener_Concurrency raw) ++
  validateRetry (value (raw_Retry raw)) ++ validatePayload (value (raw_Payload raw)) ++
  validateDestination (value (raw_Destination raw)).

Definition validate_reports (raw : rawConfig) : list semantic :=
  validateRoot raw ++ validateDatabase (value (raw_Database raw)) ++ validateWorker (value (raw_Worker raw)) ++
  validateRetention (value (raw_Retention raw)) ++ validateDefaults (value (raw_Defaults raw)) ++
  validateListenerNames (value (raw_Listeners raw)) ++ (value (raw_Listeners raw) ≫= validateListener).

Definition validate (raw : rawConfig) : option Errors := mapM positioned (validate_reports raw).
End rules.

(** ** compare.go: the rules between resolved values *)

(** A resolved value with the written wrapper it came from; [unwritten] stands for none. *)
Record effective (A : Type) := { effective_value : A; effective_source : wrapper A }.
Arguments effective_value {A} e.
Arguments effective_source {A} e.
Abbreviation effectiveDuration := (effective Z).
Abbreviation effectiveInt := (effective Z).

Definition resolved_from (v : Z) (written : list (wrapper Z)) : effective Z :=
  {| effective_value := v;
     effective_source := default (unwritten 0%Z) (head (List.filter written_set written)) |}.

Definition effective_readable (e : effective Z) : bool := negb (written_set (effective_source e)) || Valid (effective_source e).
Definition effective_positive (e : effective Z) : bool := effective_readable e && (0 <? effective_value e)%Z.
Definition comparableConcurrency (e : effective Z) : bool :=
  effective_readable e && concurrencyCanParticipateInComparison (effective_value e).

Definition comparisonAnchor (left right : wrapper Z) : option (wrapper Z) :=
  if written_set left then Some left else if written_set right then Some right else None.

Definition leaseComparisonFault : fault := semanticFault
  (bs "worker.lease_timeout must be greater than the largest effective listeners[].timeout; " ++
   bs "increase the lease or lower the timeout because a lease no longer than a request timeout causes duplicate deliveries").
Definition keepComparisonFault : fault := semanticFault
  (bs "retention.keep must be at least retention.partition_interval; increase retention.keep or lower retention.partition_interval").
Definition precreateComparisonFault : fault := semanticFault
  (bs "retention.precreate must be at least retention.partition_interval; " ++
   bs "increase retention.precreate or lower retention.partition_interval").
Definition retryPositiveFault : fault := semanticFault (bs "retry.initial_interval must be greater than zero").
Definition retryComparisonFault : fault := semanticFault
  (bs "retry.initial_interval must be no greater than retry.max_interval; lower retry.initial_interval or raise retry.max_interval").
Definition concurrencyComparisonFault : fault := semanticFault
  (bs "listeners[].concurrency must be no greater than worker.concurrency; " ++
   bs "lower the listener concurrency or raise worker.concurrency").

(** What a listener's timeout resolves from. *)
Definition listener_timeout (raw : rawConfig) (l : rawListener) (resolved : Listener) : effectiveDuration :=
  resolved_from (Timeout (Delivery resolved)) [raw_Timeout l; def_Timeout (value (raw_Defaults raw))].

Definition larger_timeout (largest : option effectiveDuration) (candidate : effectiveDuration) : option effectiveDuration :=
  if negb (effective_positive candidate) then largest
  else match largest with
       | Some e => if (effective_value e <? effective_value candidate)%Z then Some candidate else largest
       | None => Some candidate
       end.

(** The source indexes the two lists together; [resolveConfig] gives them one length. *)
Definition largestListenerTimeout (raw : rawConfig) (cfg : Config) : option effectiveDuration :=
  foldl larger_timeout None
    (zip_with (listener_timeout raw) (value (raw_Listeners raw)) (Listeners cfg)).

Section comparisons.
Context (src : source).

Definition reportEffective (rule : nat) (at_ : wrapper Z) (why : fault) : list semantic :=
  report rule effectiveValueUse (at_value src at_) why.

Definition report_comparison (rule : nat) (left right : wrapper Z) (why : fault) : list semantic :=
  match comparisonAnchor left right with Some at_ => reportEffective rule at_ why | None => [] end.

Definition validateLeaseComparison (rule : nat) (raw : rawConfig) (cfg : Config) : list semantic :=
  let lease := resolved_from (LeaseTimeout (Config_Worker cfg)) [raw_LeaseTimeout (value (raw_Worker raw))] in
  match largestListenerTimeout raw cfg with
  | None => []
  | Some timeout =>
      if negb (effective_positive lease) || (effective_value timeout <? effective_value lease)%Z then []
      else report_comparison rule (effective_source lease) (effective_source timeout) leaseComparisonFault
  end.

Definition validateAtLeast (rule : nat) (left right : effectiveDuration) (why : fault) : list semantic :=
  if negb (effective_positive left) || negb (effective_positive right) || (effective_value right <=? effective_value left)%Z
  then [] else report_comparison rule (effective_source left) (effective_source right) why.

Definition validateRetentionComparisons (keepRule precreateRule : nat) (raw : rawConfig) (cfg : Config) : list semantic :=
  let r := value (raw_Retention raw) in
  let partition := resolved_from (PartitionInterval (Config_Retention cfg)) [raw_PartitionInterval r] in
  let keep := resolved_from (Keep (Config_Retention cfg)) [raw_Keep r] in
  let precreate := resolved_from (Precreate (Config_Retention cfg)) [raw_Precreate r] in
  validateAtLeast keepRule keep partition keepComparisonFault ++
  validateAtLeast precreateRule precreate partition precreateComparisonFault.

Definition validateRetryComparison (rule : nat) (defaults listener : rawRetry) (retry : Retry) : list semantic :=
  let initial := resolved_from (InitialInterval retry) [raw_InitialInterval listener; raw_InitialInterval defaults] in
  if negb (effective_readable initial) then []
  else if (effective_value initial <=? 0)%Z then
    if written_set (effective_source initial) then reportEffective rule (effective_source initial) retryPositiveFault else []
  else
    let maximum := resolved_from (MaxInterval retry) [raw_MaxInterval listener; raw_MaxInterval defaults] in
    if negb (effective_positive maximum) || (effective_value initial <=? effective_value maximum)%Z then []
    else report_comparison rule (effective_source initial) (effective_source maximum) retryComparisonFault.

Definition validateConcurrencyComparison (rule : nat) (rawWorker_ rawListener_ : Int) (worker listener : Z) : list semantic :=
  let left := resolved_from listener [rawListener_] in
  let right := resolved_from worker [rawWorker_] in
  if negb (comparableConcurrency left) || negb (comparableConcurrency right) || (effective_value left <=? effective_value right)%Z
  then [] else report_comparison rule (effective_source left) (effective_source right) concurrencyComparisonFault.

Definition listener_comparisons (raw : rawConfig) (cfg : Config) (l : rawListener) (resolved : Listener) : list semantic :=
  validateRetryComparison 16 (value (def_Retry (value (raw_Defaults raw)))) (value (raw_Retry l)) (Retry_ (Delivery resolved)) ++
  validateConcurrencyComparison 39 (raw_Concurrency (value (raw_Worker raw))) (listener_Concurrency l)
    (Concurrency (Config_Worker cfg)) (Listener_Concurrency (Delivery resolved)).

Definition effective_reports (raw : rawConfig) (cfg : Config) : list semantic :=
  validateLeaseComparison 9 raw cfg ++ validateRetentionComparisons 11 12 raw cfg ++
  concat (zip_with (listener_comparisons raw cfg) (value (raw_Listeners raw)) (Listeners cfg)).

Definition validateEffective (raw : rawConfig) (cfg : Config) : option Errors := mapM positioned (effective_reports raw cfg).

(** ** warn.go *)

Definition literalSecretWarning : gostring :=
  bs "destination.signing.secrets should use an interpolated environment " ++
  bs "reference instead of a YAML literal; move the secret to the environment and write ${VARIABLE_NAME}".
Definition drainTimeoutWarning : gostring :=
  bs "worker.drain_timeout is smaller than the largest effective " ++
  bs "listeners[].timeout; increase the drain timeout or lower the listener timeout so shutdown " ++
  bs "does not abandon in-flight requests".

(** [originals] are the nodes the environment supplied bytes to. *)
Definition literalSecretWarnings (raw : rawConfig) (originals : gmap nat gostring) : Warnings :=
  value (raw_Listeners raw) ≫= λ l,
    value (raw_Secrets (value (raw_Signing (value (raw_Destination l))))) ≫= λ secret,
      match held_node (pres secret) with
      | Some n => if bool_decide (is_Some (originals !! node_id (mark_of n))) then []
                  else [NewWarning W1 (where_ src secret) literalSecretWarning]
      | None => [NewWarning W1 (where_ src secret) literalSecretWarning]
      end.

Definition drainTimeoutTooSmall (raw : rawConfig) (cfg : Config) : option Error :=
  let drain := resolved_from (DrainTimeout (Config_Worker cfg)) [raw_DrainTimeout (value (raw_Worker raw))] in
  match largestListenerTimeout raw cfg with
  | None => None
  | Some timeout =>
      if negb (effective_positive drain) || (effective_value timeout <=? effective_value drain)%Z then None
      else match comparisonAnchor (effective_source drain) (effective_source timeout) with
           | Some at_ => Some (NewWarning W2 (where_ src at_) drainTimeoutWarning)
           | None => None
           end
  end.

Definition warningsFor (raw : rawConfig) (cfg : Config) (originals : gmap nat gostring) : Warnings :=
  literalSecretWarnings raw originals ++ option_list (drainTimeoutTooSmall raw cfg).
End comparisons.

(** ** Every report is anchored

    The classes assigned to the rules cover every report a rule makes, so none panics. *)

Definition anchored (s : semantic) : Prop := is_Some (positioned s).

Section anchored.
Context (src : source) (IsLetter : Z -> bool) (url_parse : url_parser) (quote : gostring -> gostring) (prior : Errors).

Lemma report_anchored rule use anchors why :
  is_Some (stageHAnchorClass rule use ≫= λ class, semanticAnchors class anchors) ->
  Forall anchored (report rule use anchors why).
Proof.
  intros H. constructor; [|done]. unfold anchored, positioned. cbn [sem_rule sem_use sem_anchors sem_why].
  destruct (stageHAnchorClass rule use) as [class|]; [|by destruct H]. cbn in *.
  destruct (semanticAnchors class anchors); [by eexists|by destruct H].
Qed.

Lemma reject_anchored {A} rule (v : wrapper A) broken why :
  stageHAnchorClass rule scalarValueUse = Some valueAnchor -> Forall anchored (reject src rule v broken why).
Proof.
  intros Hr. unfold reject. destruct (_ || _); [constructor|]. apply report_anchored. rewrite Hr. by eexists.
Qed.

Lemma structured_anchored {A} rule (v : wrapper A) why :
  stageHAnchorClass rule structuredValueUse = Some valueAnchor -> Forall anchored (reportStructured src rule v why).
Proof. intros Hr. apply report_anchored. rewrite Hr. by eexists. Qed.

Lemma unique_entries_anchored rule invalid entries : forall first,
  stageHAnchorClass rule listElementUse = Some elementAnchor ->
  Forall anchored (unique_entries src rule invalid first entries).
Proof.
  induction entries as [|e entries IH]; intros first Hr; cbn [unique_entries]; [constructor|].
  assert (forall why, Forall anchored (reportListElement src rule e why)) as He
    by (intros why; apply report_anchored; rewrite Hr; by eexists).
  destruct (invalid (value e)); [apply Forall_app_2; auto|].
  destruct (first !! value e); [apply Forall_app_2; auto|auto].
Qed.

Lemma identifiers_anchored rule l nonEmpty :
  stageHAnchorClass rule structuredValueUse = Some valueAnchor \/ nonEmpty = false ->
  stageHAnchorClass rule listElementUse = Some elementAnchor ->
  Forall anchored (validateIdentifierList src IsLetter rule l nonEmpty).
Proof.
  intros Hs He. unfold validateIdentifierList. destruct (Valid l); [|constructor]. cbn [negb].
  destruct Hs as [Hs| ->]; [|by apply unique_entries_anchored].
  destruct (_ && _); [by apply structured_anchored|by apply unique_entries_anchored].
Qed.

Lemma name_anchored rule v : stageHAnchorClass rule scalarValueUse = Some valueAnchor ->
  Forall anchored (validateName src rule v).
Proof. intros Hr. unfold validateName. destruct (negb _); [constructor|by apply reject_anchored]. Qed.

(** Splits a rule into its branches and closes each by the lemma of the gate it reports through. *)
Ltac anchors :=
  repeat (cbv beta zeta; first
    [ progress auto with anchored
    | apply Forall_app_2
    | match goal with
      | |- Forall anchored (if ?b then _ else _) => destruct b
      | |- Forall anchored (match ?x with _ => _ end) => destruct x
      end ]).

#[local] Hint Extern 0 (Forall anchored []) => constructor : anchored.
#[local] Hint Extern 1 (Forall anchored (report _ _ _ _)) => (apply report_anchored; by eexists) : anchored.
#[local] Hint Extern 1 (Forall anchored (reportHeader _ _ _ _ _)) => (apply report_anchored; by eexists) : anchored.
#[local] Hint Extern 1 (Forall anchored (reject _ _ _ _ _)) => (apply reject_anchored; reflexivity) : anchored.
#[local] Hint Extern 1 (Forall anchored (reportStructured _ _ _ _)) => (apply structured_anchored; reflexivity) : anchored.
#[local] Hint Extern 1 (Forall anchored (validateIdentifierList _ _ _ _ _)) =>
  (apply identifiers_anchored; [auto|reflexivity]) : anchored.
#[local] Hint Extern 1 (Forall anchored (validateUniqueList _ _ _ _)) =>
  (apply unique_entries_anchored; reflexivity) : anchored.
#[local] Hint Extern 1 (Forall anchored (validateName _ _ _)) => (apply name_anchored; reflexivity) : anchored.

Lemma validateHeaders_anchored headers : Forall anchored (validateHeaders src quote headers).
Proof. apply Forall_bind, Forall_true. intros h. unfold validate_header. anchors. Qed.

Lemma validateOperations_anchored operations : Forall anchored (validateOperations src IsLetter operations).
Proof. apply Forall_bind, Forall_true. intros o. unfold validate_operation. anchors. Qed.

Lemma validateRetry_anchored r : Forall anchored (validateRetry src r).
Proof. unfold validateRetry, atLeast, oneOf, positiveDuration. anchors. Qed.

Lemma validatePayload_anchored p : Forall anchored (validatePayload src IsLetter quote prior p).
Proof. unfold validatePayload, validatePayloadCompatibility, positiveInt. anchors. Qed.

Lemma validateDestination_anchored d : Forall anchored (validateDestination src url_parse quote d).
Proof.
  pose proof (validateHeaders_anchored (raw_Headers d)).
  unfold validateDestination, validateDestinationURL, oneOf, validateSigningSecrets. anchors.
Qed.

Lemma listener_names_anchored listeners : forall first, Forall anchored (listener_names src first listeners).
Proof.
  induction listeners as [|l listeners IH]; intros first; cbn [listener_names]; [constructor|].
  destruct (negb _); [done|]. destruct (first !! _); [apply Forall_app_2; [|done]|done]. anchors.
Qed.

Lemma validateListener_anchored l : Forall anchored (validateListener src IsLetter url_parse quote prior l).
Proof.
  pose proof (validateRetry_anchored (value (raw_Retry l))). pose proof (validateOperations_anchored (raw_Operations l)).
  pose proof (validatePayload_anchored (value (raw_Payload l))).
  pose proof (validateDestination_anchored (value (raw_Destination l))).
  unfold validateListener, validateTable, positiveDuration, validateConcurrencyRange. anchors.
Qed.

Lemma validate_anchored raw : Forall anchored (validate_reports src IsLetter url_parse quote prior raw).
Proof.
  pose proof (validateRetry_anchored (value (def_Retry (value (raw_Defaults raw))))).
  pose proof (validateHeaders_anchored (def_Headers (value (raw_Defaults raw)))).
  pose proof (listener_names_anchored (value (raw_Listeners raw)) ∅).
  assert (Forall anchored (value (raw_Listeners raw) ≫= validateListener src IsLetter url_parse quote prior))
    by (apply Forall_bind, Forall_true, validateListener_anchored).
  unfold validate_reports, validateRoot, validateDatabase, validateConnection, validateWorker, validateRetention,
    validateDefaults, validateListenerNames, positiveDuration, between, validateConcurrencyRange. anchors.
Qed.

Lemma comparison_anchored rule left right why :
  stageHAnchorClass rule effectiveValueUse = Some valueAnchor ->
  Forall anchored (report_comparison src rule left right why).
Proof.
  intros Hr. unfold report_comparison, comparisonAnchor.
  destruct (written_set left); [|destruct (written_set right); [|constructor]];
    apply report_anchored; rewrite Hr; by eexists.
Qed.
#[local] Hint Extern 1 (Forall anchored (report_comparison _ _ _ _ _)) => (apply comparison_anchored; reflexivity) : anchored.
#[local] Hint Extern 1 (Forall anchored (reportEffective _ _ _ _)) => (apply report_anchored; by eexists) : anchored.

Lemma effective_anchored raw cfg : Forall anchored (effective_reports src raw cfg).
Proof.
  unfold effective_reports, validateLeaseComparison, validateRetentionComparisons, validateAtLeast.
  assert (forall l r, Forall anchored (listener_comparisons src raw cfg l r)) as Hl.
  { intros l r. unfold listener_comparisons, validateRetryComparison, validateConcurrencyComparison. anchors. }
  assert (Forall anchored (concat (zip_with (listener_comparisons src raw cfg) (value (raw_Listeners raw)) (Listeners cfg)))).
  { apply Forall_concat, Forall_zip_with_snd with (P := λ _, True); [|by apply Forall_true]. auto using Forall_true. }
  anchors.
Qed.

(** Both passes answer: no report of theirs panics for want of an anchor. *)
Lemma reports_are_anchored raw cfg :
  is_Some (validate src IsLetter url_parse quote prior raw) /\ is_Some (validateEffective src raw cfg).
Proof.
  split; unfold validate, validateEffective; rewrite mapM_is_Some; [apply validate_anchored|apply effective_anchored].
Qed.
End anchored.
