(* ===== verification/Sound.v ===== *)
(** * What a loaded configuration satisfies

    The rules of stages H and I judge what was written; the other components read what was resolved.
    This file relates the two: where no stage has anything to say, every resolved value satisfies the
    rule its key is held to, whether it was written, inherited from the [defaults] block or built in. *)

From S2P Require Import Prelude Utf8 Source Quote WhenLex Partition Config Interpolate Ident Diag Yaml Substitute Normalize.
From S2P Require Import Schema Raw Merge Validate.

Local Open Scope Z_scope.

(** ** The promise *)

Section promise.
Context (IsLetter : Z -> bool) (url_parse : url_parser).

Record sound_retry (r : Retry) : Prop := {
  retry_attempts : 1 <= MaxAttempts r;
  retry_backoff : Backoff r ∈ retryBackoffs;
  retry_positive : 0 < InitialInterval r;
  retry_ordered : InitialInterval r <= MaxInterval r
}.

Definition identifier_list (l : list gostring) : Prop :=
  NoDup l /\ Forall (λ name, identifierDefect IsLetter name = identOK) l.

Record sound_payload (p : Payload) : Prop := {
  payload_mode : Mode p ∈ payloadModes;
  payload_columns : identifier_list (Payload_Columns p);
  payload_excluded : identifier_list (Exclude p);
  payload_columns_iff : Mode p = payloadModeCols <-> Payload_Columns p <> [];
  payload_exclude_full : Exclude p <> [] -> Mode p = payloadModeFull;
  payload_bytes : 0 < MaxBytes p
}.

(** A header's name is spelled as it is sent and is none the sender writes itself. *)
Definition sound_headers (headers : gmap gostring gostring) : Prop :=
  map_Forall (λ name text, canonicalHTTPFieldName name = Some name /\ usesReservedHeaderPrefix name = false /\ text <> []) headers.

Record sound_destination (d : Destination) : Prop := {
  destination_url : Destination_URL d = [] \/ (destinationURLDefect url_parse (Destination_URL d)).1 = urlOK;
  destination_method : Method d ∈ destinationMethods;
  destination_headers : sound_headers (Headers d);
  destination_secrets : NoDup (Secrets (Signing_ d)) /\ [] ∉ Secrets (Signing_ d)
}.

Definition sound_operation (o : Operation) : Prop :=
  forbiddenWhenReference (Kind o) (When o) = None /\ (Kind o = updateOperation -> identifier_list (Columns o)).

Record sound_listener (worker : Worker) (l : Listener) : Prop := {
  listener_named : Name l = [] \/ nameRuleDefect (Name l) = nameOK;
  listener_table : Table (Trigger l) = [] \/ qualifiedTableFault IsLetter (Table (Trigger l)) = (tableOK, identOK);
  listener_operations : Forall sound_operation (Operations_ (Trigger l));
  listener_payload : sound_payload (Payload_ (Trigger l));
  listener_destination : sound_destination (Destination_ (Delivery l));
  listener_retry : sound_retry (Retry_ (Delivery l));
  listener_positive : 0 < Timeout (Delivery l);
  listener_leased : Timeout (Delivery l) < LeaseTimeout worker;
  listener_slots : Listener_Concurrency (Delivery l) = 0 \/
    1 <= Listener_Concurrency (Delivery l) <= Concurrency worker
}.

Record sound_worker (w : Worker) : Prop := {
  worker_slots : 1 <= Concurrency w <= 1024;
  worker_batch : 1 <= BatchSize w <= 10000;
  worker_polls : 0 < PollInterval w;
  worker_leases : 0 < LeaseTimeout w;
  worker_drains : 0 < DrainTimeout w
}.

Record sound_retention (r : Retention) : Prop := {
  retention_interval : 0 < PartitionInterval r;
  retention_keep : PartitionInterval r <= Keep r;
  retention_precreate : PartitionInterval r <= Precreate r
}.

(** An empty name, table, destination or connection and version zero are what a required key written
    as null leaves; nothing else escapes its rule. *)
Record sound (c : Config) : Prop := {
  sound_version : Version c = 1 \/ Version c = 0;
  sound_connection : Database_URL (Config_Database c) = [] \/
    connectionStringForm IsLetter (Database_URL (Config_Database c)) <> connStringInvalid;
  sound_listen_url : ListenURL (Config_Database c) = [] \/
    connectionStringForm IsLetter (ListenURL (Config_Database c)) <> connStringInvalid;
  sound_schema : identifierDefect IsLetter (Schema (Config_Database c)) = identOK /\
    usesReservedSchemaPrefix (Schema (Config_Database c)) = false;
  sound_instance : Config_Instance c = Schema (Config_Database c) \/ nameRuleDefect (Config_Instance c) = nameOK;
  sound_workers : sound_worker (Config_Worker c);
  sound_kept : sound_retention (Config_Retention c);
  sound_listeners : Forall (sound_listener (Config_Worker c)) (Listeners c);
  sound_names : NoDup (filter (.≠ []) (map Name (Listeners c)))
}.
End promise.

(** ** Readings

    A wrapper without a refusal reads what its rule admits. *)

Definition clean {A} (w : wrapper A) : Prop := refused (pres w) = [].
Definition reads {A} (P : A -> Prop) (w : wrapper A) : Prop := Set_ (pres w) = true -> P (value w).

Lemma resolveAs_nil {A} src rule (w : wrapper A) : resolveAs src rule w = [] -> clean w.
Proof. apply map_eq_nil. Qed.

Lemma clean_Valid {A} (w : wrapper A) : clean w -> Valid w = Set_ (pres w).
Proof. intros Hc. unfold Valid. rewrite Hc. cbn. apply andb_true_r. Qed.

Lemma merged_reads {A} (P : A -> Prop) (w : wrapper A) d : reads P w -> P d -> P (merged w d).
Proof. unfold reads, merged. destruct (Set_ (pres w)); auto. Qed.

Lemma report_cons rule use anchors why : report rule use anchors why = [] -> False.
Proof. done. Qed.

Section readings.
Context (src : source) (IsLetter : Z -> bool) (url_parse : url_parser) (quote : gostring -> gostring).

Lemma reject_reads {A} rule (v : wrapper A) broken why :
  clean v -> reject src rule v broken why = [] -> Set_ (pres v) = true -> broken = false.
Proof.
  intros Hc. unfold reject. rewrite (clean_Valid v Hc). intros H Hs. rewrite Hs in H. cbn [negb orb] in H.
  destruct broken; [by apply report_cons in H|done].
Qed.

Lemma between_reads rule v low high : clean v -> between src rule v low high = [] -> reads (λ z, low <= z <= high) v.
Proof. intros Hc H Hs. apply (reject_reads _ _ _ _ Hc H) in Hs. lia. Qed.

Lemma concurrency_reads rule v : clean v -> validateConcurrencyRange src rule v = [] -> reads (λ z, 1 <= z <= 1024) v.
Proof.
  intros Hc H Hs. apply (reject_reads _ _ _ _ Hc H) in Hs.
  unfold concurrencyCanParticipateInComparison, minConcurrency, maxConcurrency in Hs. lia.
Qed.

Lemma atLeast_reads rule v low : clean v -> atLeast src rule v low = [] -> reads (λ z, low <= z) v.
Proof. intros Hc H Hs. apply (reject_reads _ _ _ _ Hc H) in Hs. lia. Qed.

Lemma positive_reads rule v : clean v -> positiveInt src rule v = [] -> reads (λ z, 0 < z) v.
Proof. intros Hc H Hs. apply (reject_reads _ _ _ _ Hc H) in Hs. lia. Qed.

Lemma oneOf_reads rule v permitted : clean v -> oneOf src rule v permitted = [] -> reads (.∈ permitted) v.
Proof. intros Hc H Hs. apply (reject_reads _ _ _ _ Hc H) in Hs. apply negb_false_iff in Hs. by apply bool_decide_eq_true in Hs. Qed.

Lemma name_reads rule v : clean v -> validateName src rule v = [] -> reads (λ name, nameRuleDefect name = nameOK) v.
Proof.
  intros Hc H Hs. unfold validateName in H. rewrite (clean_Valid v Hc), Hs in H. cbn [negb] in H.
  apply (reject_reads _ _ _ _ Hc H) in Hs. apply negb_false_iff in Hs. by apply bool_decide_eq_true in Hs.
Qed.

Lemma connection_reads rule v : clean v -> validateConnection src IsLetter rule v = [] ->
  reads (λ text, connectionStringForm IsLetter text <> connStringInvalid) v.
Proof.
  intros Hc H Hs. unfold validateConnection in H. rewrite (clean_Valid v Hc), Hs in H. cbn [negb] in H.
  case_bool_decide; [by apply report_cons in H|done].
Qed.

Lemma table_reads v : clean v -> validateTable src IsLetter v = [] ->
  reads (λ table, qualifiedTableFault IsLetter table = (tableOK, identOK)) v.
Proof.
  intros Hc H Hs. unfold validateTable in H. rewrite (clean_Valid v Hc), Hs in H. cbn [negb] in H.
  destruct (qualifiedTableFault IsLetter (value v)) as [part defect] eqn:E. destruct part; try by apply report_cons in H.
  f_equal. unfold qualifiedTableFault in E. repeat case_match; simplify_eq; done.
Qed.

Lemma destination_reads v : clean v -> validateDestinationURL src url_parse v = [] ->
  reads (λ url, (destinationURLDefect url_parse url).1 = urlOK) v.
Proof.
  intros Hc H Hs. unfold validateDestinationURL in H. rewrite (clean_Valid v Hc), Hs in H. cbn [negb] in H.
  destruct (destinationURLDefect url_parse (value v)) as [defect reason]. cbn [fst].
  case_bool_decide; [done|by apply report_cons in H].
Qed.

(** *** Lists *)

Lemma unique_entries_nil rule invalid entries : forall first,
  unique_entries src rule invalid first entries = [] ->
  Forall (λ e, invalid (value e) = None) entries /\ NoDup (map value entries) /\
  Forall (λ e, first !! value e = None) entries.
Proof.
  induction entries as [|e entries IH]; intros first; cbn [unique_entries]; [by repeat constructor|].
  destruct (invalid (value e)) eqn:Hi; [done|]. destruct (first !! value e) eqn:Hf; [done|].
  intros (Hin & Hnd & Hfirst)%IH. rewrite Forall_forall in Hfirst. split_and!.
  - by constructor.
  - cbn [map]. constructor; [|done]. intros Hin'. apply list_elem_of_fmap in Hin' as (e' & He & Hin').
    apply Hfirst in Hin'. by rewrite <- He, lookup_insert_eq in Hin'.
  - constructor; [done|]. apply Forall_forall. intros e' Hin'. apply Hfirst in Hin'.
    rewrite lookup_insert in Hin'. by case_decide.
Qed.

Lemma identifierEntryFault_None v : identifierEntryFault IsLetter v = None -> identifierDefect IsLetter v = identOK.
Proof. unfold identifierEntryFault. by case_bool_decide. Qed.

Lemma identifiers_read rule l nonEmpty : clean l -> validateIdentifierList src IsLetter rule l nonEmpty = [] ->
  reads (λ es, identifier_list IsLetter (map value es) /\ (nonEmpty = true -> es <> [])) l.
Proof.
  intros Hc H Hs. unfold validateIdentifierList in H. rewrite (clean_Valid l Hc), Hs in H. cbn [negb] in H.
  destruct (nonEmpty && _) eqn:Hn; [by apply report_cons in H|].
  apply unique_entries_nil in H as (Hin & Hnd & _). split; [split; [done|]|].
  - apply Forall_map. eapply Forall_impl; [exact Hin|]. intros e. apply identifierEntryFault_None.
  - intros -> Hes. rewrite Hes in Hn. done.
Qed.

Lemma secrets_read l : clean l -> validateSigningSecrets src l = [] ->
  reads (λ es, NoDup (map value es) /\ [] ∉ map value es) l.
Proof.
  intros Hc H Hs. unfold validateSigningSecrets in H. rewrite (clean_Valid l Hc), Hs in H. cbn [negb] in H.
  apply unique_entries_nil in H as (Hin & Hnd & _). split; [done|]. intros Hempty.
  apply list_elem_of_fmap in Hempty as (e & He & Hine). rewrite Forall_forall in Hin. apply Hin in Hine.
  unfold nonEmptyEntryFault in Hine. by rewrite bool_decide_eq_true_2 in Hine.
Qed.

Lemma mergedStrings_reads (P : list gostring -> Prop) (w : StrList) d :
  reads (λ es, P (map value es)) w -> P d -> P (mergedStrings w d).
Proof. unfold reads, mergedStrings. destruct (Set_ (pres w)); auto. Qed.
End readings.

(** ** The table's values *)

Lemma builtin_worker : worker resolvedBuiltInDefaults =
  {| Concurrency := 16; BatchSize := 100; PollInterval := seconds 10; LeaseTimeout := minutes 5;
     DrainTimeout := seconds 30; AllowedDestinationCIDRs := [] |}.
Proof. reflexivity. Qed.

Lemma builtin_retention : retention resolvedBuiltInDefaults = MkRetention (hours 168) (hours 24) (hours 168).
Proof. reflexivity. Qed.

Lemma builtin_retry : retry (listener resolvedBuiltInDefaults) =
  {| MaxAttempts := 5; Backoff := bs "exponential"; InitialInterval := seconds 10; MaxInterval := hours 1; Jitter := true |}.
Proof. reflexivity. Qed.

Lemma builtin_payload : payload (listener resolvedBuiltInDefaults) =
  {| Mode := payloadModeFull; Payload_Columns := []; Exclude := []; IncludeOld := false; MaxBytes := 262144 |}.
Proof. reflexivity. Qed.

(** ** Comparisons *)

Lemma resolved_unwritten v written :
  written_set (effective_source (resolved_from v written)) = false -> Forall (λ w, written_set w = false) written.
Proof.
  unfold resolved_from. cbn [effective_source]. induction written as [|w written IH]; [by constructor|].
  cbn [List.filter]. destruct (written_set w) eqn:Hw; cbn [head default].
  - cbn. by rewrite Hw.
  - intros H. constructor; [done|by apply IH].
Qed.

Lemma resolved_readable v written : Forall clean written -> effective_readable (resolved_from v written) = true.
Proof.
  intros Hc. unfold effective_readable, resolved_from. cbn [effective_source].
  induction Hc as [|w written Hw _ IH]; [done|]. cbn [List.filter]. destruct (written_set w) eqn:Hs; [|done].
  cbn. unfold written_set in Hs. rewrite (clean_Valid w Hw), Hs. apply orb_true_r.
Qed.

Lemma resolved_positive v written : Forall clean written -> effective_positive (resolved_from v written) = (0 <? v).
Proof. intros Hc. unfold effective_positive. by rewrite resolved_readable. Qed.

Section comparing.
Context (src : source).

Lemma report_comparison_nil rule left right why :
  report_comparison src rule left right why = [] -> written_set left = false /\ written_set right = false.
Proof.
  unfold report_comparison, comparisonAnchor. destruct (written_set left); [done|]. by destruct (written_set right).
Qed.

Lemma validateAtLeast_nil rule v vs w ws why :
  Forall clean vs -> Forall clean ws -> 0 < v -> 0 < w ->
  validateAtLeast src rule (resolved_from v vs) (resolved_from w ws) why = [] ->
  w <= v \/ (Forall (λ x, written_set x = false) vs /\ Forall (λ x, written_set x = false) ws).
Proof.
  intros Hv Hw H0 H1. unfold validateAtLeast. rewrite !resolved_positive by done.
  rewrite (proj2 (Z.ltb_lt 0 v) H0), (proj2 (Z.ltb_lt 0 w) H1). cbn [negb orb effective_value resolved_from].
  destruct (w <=? v) eqn:E; [left; lia|]. intros [Hl Hr]%report_comparison_nil.
  right. by split; apply resolved_unwritten in Hl, Hr.
Qed.

Lemma unwritten_merged {A} (w : wrapper A) d : written_set w = false -> merged w d = d.
Proof. unfold written_set, merged. by intros ->. Qed.

Definition clean_retry (r : rawRetry) : Prop :=
  clean (raw_MaxAttempts r) /\ clean (raw_Backoff r) /\ clean (raw_InitialInterval r) /\ clean (raw_MaxInterval r).

Record retry_reads (r : rawRetry) : Prop := {
  reads_attempts : reads (λ z, 1 <= z) (raw_MaxAttempts r);
  reads_backoff : reads (.∈ retryBackoffs) (raw_Backoff r);
  reads_max : reads (λ z, 0 < z) (raw_MaxInterval r)
}.

Lemma validateRetry_reads r : clean_retry r -> validateRetry src r = [] -> retry_reads r.
Proof.
  intros (Ha & Hb & Hi & Hm) H. unfold validateRetry in H. apply app_eq_nil in H as [H1 H]. apply app_eq_nil in H as [H2 H3].
  split; [by eapply atLeast_reads|by eapply oneOf_reads|by eapply positive_reads].
Qed.

Lemma retry_sound rd rl : clean_retry rd -> clean_retry rl -> retry_reads rd -> retry_reads rl ->
  let r := mergeRetry (mergeRetry (retry (listener resolvedBuiltInDefaults)) rd) rl in
  validateRetryComparison src 16 rd rl r = [] -> sound_retry r.
Proof.
  intros (_ & _ & Hdi & Hdm) (_ & _ & Hli & Hlm) [Hda Hdb Hdx] [Hla Hlb Hlx] r.
  unfold validateRetryComparison. set (vs := [raw_InitialInterval rl; raw_InitialInterval rd]).
  set (ws := [raw_MaxInterval rl; raw_MaxInterval rd]).
  assert (Hvs : Forall clean vs) by (by repeat constructor). assert (Hws : Forall clean ws) by (by repeat constructor).
  assert (Hmax : 0 < MaxInterval r).
  { apply (merged_reads (λ z, 0 < z)); [done|]. apply (merged_reads (λ z, 0 < z)); [done|]. by rewrite builtin_retry. }
  assert (Hzi : Forall (λ x, written_set x = false) vs -> InitialInterval r = seconds 10).
  { intros Hu. apply Forall_cons in Hu as [Hu1 Hu]. apply Forall_cons in Hu as [Hu2 _]. unfold r, mergeRetry. cbn [InitialInterval].
    by rewrite !unwritten_merged. }
  assert (Hzm : Forall (λ x, written_set x = false) ws -> MaxInterval r = hours 1).
  { intros Hu. apply Forall_cons in Hu as [Hu1 Hu]. apply Forall_cons in Hu as [Hu2 _]. unfold r, mergeRetry. cbn [MaxInterval].
    by rewrite !unwritten_merged. }
  rewrite (resolved_readable _ vs), (resolved_positive _ ws) by done. cbn [negb effective_value resolved_from].
  rewrite (proj2 (Z.ltb_lt 0 (MaxInterval r)) Hmax). cbn [negb orb].
  intros H. assert (0 < InitialInterval r /\ InitialInterval r <= MaxInterval r) as [Hpos Hle].
  { destruct (InitialInterval r <=? 0) eqn:E.
    - change (effective_source _) with (effective_source (resolved_from (InitialInterval r) vs)) in H.
      destruct (written_set (effective_source (resolved_from (InitialInterval r) vs))) eqn:Ew; [done|].
      apply resolved_unwritten in Ew. rewrite Hzi in E by done. done.
    - split; [lia|]. destruct (InitialInterval r <=? MaxInterval r) eqn:E2; [lia|].
      apply report_comparison_nil in H as [Hl%resolved_unwritten Hr%resolved_unwritten].
      rewrite Hzi, Hzm in E2 by done. done. }
  split; [| |done|done].
  - apply (merged_reads (λ z, 1 <= z)); [done|]. apply (merged_reads (λ z, 1 <= z)); [done|]. by rewrite builtin_retry.
  - apply (merged_reads (.∈ retryBackoffs)); [done|]. apply (merged_reads (.∈ retryBackoffs)); [done|].
    rewrite builtin_retry. by constructor.
Qed.
End comparing.

(** ** Payload, headers and destination *)

Section listener_parts.
Context (src : source) (IsLetter : Z -> bool) (url_parse : url_parser) (quote : gostring -> gostring).

Record clean_payload (p : rawPayload) : Prop := {
  clean_mode : clean (raw_Mode p);
  clean_columns : clean (raw_Columns p);
  clean_exclude : clean (raw_Exclude p);
  clean_bytes : clean (raw_MaxBytes p)
}.

Lemma unwritten_strings w d : written_set w = false -> mergedStrings w d = d.
Proof. unfold written_set, mergedStrings. by intros ->. Qed.

(** Compatibility, with no earlier stage having named a correction. *)
Lemma compatible p : validatePayloadCompatibility src quote [] p = [] ->
  let mode := if written_set (raw_Mode p) then value (raw_Mode p) else payloadModeFull in
  (mode = payloadModeCols <-> written_set (raw_Columns p) = true) /\
  (written_set (raw_Exclude p) = true -> mode = payloadModeFull).
Proof.
  unfold validatePayloadCompatibility. cbv zeta.
  assert (forall at_ k, hasPriorCorrection quote [] at_ k = false) as Hprior
    by (intros; unfold hasPriorCorrection; by destruct (through_last_dot _)).
  rewrite Hprior. replace (if negb (written_set (raw_Mode p)) then payloadModeFull else value (raw_Mode p))
    with (if written_set (raw_Mode p) then value (raw_Mode p) else payloadModeFull) by (by destruct (written_set (raw_Mode p))).
  generalize (if written_set (raw_Mode p) then value (raw_Mode p) else payloadModeFull). intros mode.
  intros [H1 [H2 H3]%app_eq_nil]%app_eq_nil.
  destruct (decide (mode = payloadModeCols)) as [Hm|Hm];
    [rewrite (bool_decide_eq_true_2 _ Hm) in H1, H2|rewrite (bool_decide_eq_false_2 _ Hm) in H1, H2];
    destruct (written_set (raw_Columns p)); try done; cbn in H1, H2;
    (split; [done|]); intros He; rewrite He in H3; case_bool_decide; done.
Qed.

Lemma payload_sound p : clean_payload p -> validatePayload src IsLetter quote [] p = [] ->
  sound_payload IsLetter (resolvePayload p (payload (listener resolvedBuiltInDefaults))).
Proof.
  intros [Hm Hc He Hb] H. unfold validatePayload in H.
  apply app_eq_nil in H as [H1 H]. apply app_eq_nil in H as [H2 H]. apply app_eq_nil in H as [H3 H].
  apply app_eq_nil in H as [H4 H5].
  apply (identifiers_read src IsLetter 32 _ true Hc) in H1. apply (identifiers_read src IsLetter 33 _ false He) in H2.
  apply (positive_reads src 35 _ Hb) in H4.
  assert (Hgov : payloadModeCanGovernCompatibility (raw_Mode p) = true).
  { destruct (payloadModeCanGovernCompatibility (raw_Mode p)) eqn:E; [done|].
    assert (Hs : Set_ (pres (raw_Mode p)) = true).
    { unfold payloadModeCanGovernCompatibility, written_set in E. by destruct (Set_ (pres (raw_Mode p))). }
    by apply (reject_reads src _ _ _ _ Hm H3) in Hs. }
  rewrite Hgov in H5. destruct (written_set (raw_Columns p) && written_set (raw_Exclude p)) eqn:Hboth; [done|].
  apply compatible in H5 as [Hcols Hexcl]. rewrite builtin_payload.
  set (mode := if written_set (raw_Mode p) then value (raw_Mode p) else payloadModeFull) in *.
  assert (Hmode : merged (raw_Mode p) payloadModeFull = mode) by done.
  split; cbn [resolvePayload Mode Payload_Columns Exclude MaxBytes]; rewrite ?Hmode.
  - unfold payloadModeCanGovernCompatibility in Hgov. unfold mode. destruct (written_set (raw_Mode p)); [|by constructor].
    cbn in Hgov. apply andb_true_iff in Hgov as [_ Hin]. by apply bool_decide_eq_true in Hin.
  - apply mergedStrings_reads; [|by repeat constructor]. intros Hs. by apply H1.
  - apply mergedStrings_reads; [|by repeat constructor]. intros Hs. by apply H2.
  - rewrite Hcols. split.
    + intros Hs. unfold mergedStrings. unfold written_set in Hs. rewrite Hs. cbn. intros Hnil%map_eq_nil. by apply H1 in Hnil.
    + intros Hne. destruct (written_set (raw_Columns p)) eqn:E; [done|]. by rewrite unwritten_strings in Hne.
  - intros Hne. apply Hexcl. destruct (written_set (raw_Exclude p)) eqn:E; [done|]. by rewrite unwritten_strings in Hne.
  - apply (merged_reads (λ z, 0 < z)); [done|]. cbn. lia.
Qed.

(** Every header value was handed over by the library. *)
Definition headers_handed (h : rawHeaders) : Prop := Forall (λ header, Set_ (pres (Header_Value header)) = true) (value h).
Definition clean_headers (h : rawHeaders) : Prop := Forall (λ header, clean (Header_Value header)) (value h).

Lemma merge_header_sound resolved header :
  Set_ (pres (Header_Value header)) = true -> clean (Header_Value header) ->
  validate_header src quote header = [] -> sound_headers resolved -> sound_headers (merge_header resolved header).
Proof.
  intros Hs Hc H Hres. unfold validate_header in H. apply app_eq_nil in H as [H1 H2]. unfold merge_header.
  destruct (canonicalHTTPFieldName (merged (Header_Name header) [])) as [name|] eqn:Ec; [|done].
  apply map_Forall_insert_2; [|done].
  assert (merged (Header_Name header) [] = value (Header_Name header)) as Hn.
  { unfold merged in *. destruct (Set_ (pres (Header_Name header))); [done|by cbn in Ec]. }
  rewrite Hn in Ec. rewrite Ec in H1. destruct (usesReservedHeaderPrefix name) eqn:Er; [by apply report_cons in H1|].
  rewrite (clean_Valid _ Hc), Hs in H2. cbn [andb] in H2. case_bool_decide as Hv; [by apply report_cons in H2|].
  split_and!; [by eapply canonical_idempotent|done|]. unfold merged. by rewrite Hs.
Qed.

Lemma mergeHeaders_sound layers :
  Forall (λ h, headers_handed h /\ clean_headers h /\ validateHeaders src quote h = []) layers ->
  sound_headers (mergeHeaders layers).
Proof.
  intros Hall. unfold mergeHeaders. assert (Hempty : sound_headers ∅) by apply map_Forall_empty.
  revert Hempty. generalize (∅ : gmap gostring gostring).
  induction Hall as [|h layers (Hh & Hc & Hv) _ IH]; intros resolved Hres; [done|]. cbn [foldl]. apply IH. clear IH.
  destruct (negb (Set_ (pres h))); [done|]. unfold headers_handed, clean_headers in *. apply bind_nil in Hv.
  revert resolved Hres. induction (value h) as [|header headers IH]; intros resolved Hres; [done|]. cbn [foldl].
  apply Forall_cons in Hh as [Hh Hhs], Hc as [Hc Hcs], Hv as [Hv Hvs].
  apply IH; [done..|]. by apply merge_header_sound.
Qed.

Record clean_destination (d : rawDestination) : Prop := {
  clean_url : clean (dest_URL d);
  clean_method : clean (raw_Method d);
  clean_own_headers : headers_handed (raw_Headers d) /\ clean_headers (raw_Headers d);
  clean_secrets : clean (raw_Secrets (value (raw_Signing d)))
}.

Definition resolved_destination (raw : rawDestination) (inherited : rawHeaders) : Destination :=
  {| Destination_URL := merged (dest_URL raw) [];
     Method := merged (raw_Method raw) (destinationMethod (listener resolvedBuiltInDefaults));
     Headers := mergeHeaders [inherited; raw_Headers raw];
     Signing_ := {| Secrets := mergedStrings (raw_Secrets (value (raw_Signing raw))) [] |} |}.

Lemma destination_sound d inherited :
  clean_destination d -> headers_handed inherited -> clean_headers inherited -> validateHeaders src quote inherited = [] ->
  validateDestination src url_parse quote d = [] -> sound_destination url_parse (resolved_destination d inherited).
Proof.
  intros [Hu Hm [Hh Hhc] Hs] Hi Hic Hiv H. unfold validateDestination in H.
  apply app_eq_nil in H as [H1 H]. apply app_eq_nil in H as [H2 H]. apply app_eq_nil in H as [H3 H4].
  apply (destination_reads src url_parse _ Hu) in H1. apply (oneOf_reads src 37 _ _ Hm) in H2. apply (secrets_read src _ Hs) in H4.
  split; cbn [resolved_destination Destination_URL Method Headers Signing_ Secrets].
  - unfold merged. destruct (Set_ (pres (dest_URL d))) eqn:E; [right; by apply H1|by left].
  - apply (merged_reads (.∈ destinationMethods)); [done|]. by constructor.
  - by apply mergeHeaders_sound; repeat constructor.
  - apply (mergedStrings_reads (λ l, NoDup l /\ [] ∉ l)); [done|]. split; [constructor|apply not_elem_of_nil].
Qed.
End listener_parts.

(** ** What decoding always hands over *)

Section handed.
Context `{Yaml} (ParseDuration : gostring -> option Z).

Lemma field_ind {A} (P : wrapper A -> Prop) decode zero es name :
  (forall v, P (decode v)) -> P (unwritten zero) -> P (field decode zero es name).
Proof. intros Hd Hz. unfold field. destruct (field_of es (bs name)); auto. Qed.

Lemma read_entries_values {A} (read : node * node -> A + refusal_) es :
  Forall (λ a, exists e, read e = inl a) (read_entries read es).1.
Proof.
  induction es as [|e es IH]; cbn [read_entries]; [constructor|]. destruct (read_entries read es) as [values refusals].
  destruct (read e) eqn:E; cbn in *; [|done]. constructor; [by exists e|done].
Qed.

Lemma read_elements_values {A} (read : node -> A + refusal_) es :
  Forall (λ a, exists e, read e = inl a) (read_elements read es).1.
Proof.
  induction es as [|e es IH]; cbn [read_elements]; [constructor|]. destruct (read_elements read es) as [values refusals].
  destruct (read e) eqn:E; cbn in *; [|done]. constructor; [by exists e|done].
Qed.

Lemma Str_handed n : Set_ (pres (Str_UnmarshalYAML n)) = true.
Proof. unfold Str_UnmarshalYAML. by destruct (valueTextOf n). Qed.

Lemma headers_are_handed es name : headers_handed (field rawHeaders_UnmarshalYAML [] es name).
Proof.
  apply field_ind; [|constructor]. intros v. unfold rawHeaders_UnmarshalYAML, headers_handed.
  destruct (beneathNodeProperties v); try constructor.
  pose proof (read_entries_values read_header values) as Hr. destruct (read_entries read_header values) as [read refusals].
  cbn in *. eapply Forall_impl; [exact Hr|]. intros h [e He]. unfold read_header in He.
  destruct (keyTextOf e.1); [|done]. injection He as <-. apply Str_handed.
Qed.

Definition operations_handed (o : rawOperations) : Prop := Forall (λ named, Set_ (pres (op_Name named)) = true) (value o).

Lemma operations_are_handed es name : operations_handed (field rawOperations_UnmarshalYAML [] es name).
Proof.
  apply field_ind; [|constructor]. intros v. unfold rawOperations_UnmarshalYAML, operations_handed.
  destruct (beneathNodeProperties v); try constructor.
  pose proof (read_entries_values operationOf values) as Hr. destruct (read_entries operationOf values) as [read refusals].
  cbn in *. rewrite merge_sort_Permutation. eapply Forall_impl; [exact Hr|]. intros o [e He]. unfold operationOf in He.
  destruct (keyTextOf e.1); [|done]. case_bool_decide; [done|].
  destruct (struct_entries _); [|done]. by injection He as <-.
Qed.

Record listener_handed (l : rawListener) : Prop := {
  handed_operations : operations_handed (raw_Operations l);
  handed_headers : headers_handed (raw_Headers (value (raw_Destination l)))
}.

Lemma nested_ind {T} (P : T -> Prop) (fill : entries_ -> T) es name : (forall es, P (fill es)) -> P (value (nested fill es name)).
Proof.
  intros Hf. unfold nested. apply (field_ind (λ w, P (value w))); [|apply Hf]. intros v. unfold mappingOf_UnmarshalYAML.
  destruct (struct_entries _); apply Hf.
Qed.

Lemma fill_listener_handed es : listener_handed (fill_listener ParseDuration es).
Proof.
  split; [apply operations_are_handed|]. cbn [fill_listener raw_Destination].
  apply (nested_ind (λ d, headers_handed (raw_Headers d))). intros es'. apply headers_are_handed.
Qed.

Lemma fill_config_handed es :
  headers_handed (def_Headers (value (raw_Defaults (fill_config ParseDuration es)))) /\
  Forall listener_handed (value (raw_Listeners (fill_config ParseDuration es))).
Proof.
  split.
  - apply (nested_ind (λ d, headers_handed (def_Headers d))). intros es'. apply headers_are_handed.
  - cbn [fill_config raw_Listeners]. apply (field_ind (λ w, Forall listener_handed (value w))); [|constructor].
    intros v. unfold listOf_UnmarshalYAML. destruct (beneathNodeProperties v); try constructor.
    set (read := λ e, match struct_entries (beneathNodeProperties e) with
                      | Some entries => inl (fill_listener ParseDuration entries)
                      | None => inr {| refused_node := e; refused_why := mustBeAnEntryOf |} end).
    pose proof (read_elements_values read values) as Hr. destruct (read_elements read values) as [ls refusals]. cbn in *.
    eapply Forall_impl; [exact Hr|]. intros l [e He]. unfold read in He. destruct (struct_entries _); [|done].
    injection He as <-. apply fill_listener_handed.
Qed.
End handed.

(** ** A document without a conversion diagnostic *)

Section cleaned.
Context (src : source).

Ltac nils := repeat match goal with
  | H : _ ++ _ = [] |- _ => apply app_eq_nil in H as [? ?]
  | H : resolve src _ = [] |- _ => apply resolveAs_nil in H
  | H : resolve_Dur src _ = [] |- _ => apply resolveAs_nil in H
  | H : resolve_Bool src _ = [] |- _ => apply resolveAs_nil in H
  | H : resolve_StrList src _ = [] |- _ => apply app_eq_nil in H as [? _]
  | H : within src _ _ = [] |- _ => apply app_eq_nil in H as [_ ?]
  end.

Definition clean_operation (named : namedOperation) : Prop :=
  clean (raw_op_Columns (Filter named)) /\ clean (raw_op_When (Filter named)).

Record clean_listener (l : rawListener) : Prop := {
  clean_name : clean (raw_Name l);
  clean_table : clean (raw_Table l);
  clean_operations : Forall clean_operation (value (raw_Operations l));
  clean_payload_ : clean_payload (value (raw_Payload l));
  clean_destination_ : clean_destination (value (raw_Destination l));
  clean_retry_ : clean_retry (value (raw_Retry l));
  clean_timeout : clean (raw_Timeout l);
  clean_concurrency : clean (listener_Concurrency l)
}.

Lemma headers_clean h : resolve_Headers src h = [] -> clean_headers h.
Proof.
  intros [_ Hv]%app_eq_nil. apply bind_nil in Hv. eapply Forall_impl; [exact Hv|]. cbn. intros header Hh. by nils.
Qed.

Lemma retry_clean r : walk_retry src r = [] -> clean_retry r.
Proof. unfold walk_retry, clean_retry. intros Hw. by nils. Qed.

Lemma listener_clean l : listener_handed l -> walk_listener src l = [] -> clean_listener l.
Proof.
  intros [Ho Hh] Hw. unfold walk_listener, walk_payload, walk_destination, walk_signing in Hw. nils.
  split; try done.
  - unfold resolve_Operations in *. nils.
    match goal with H : _ ≫= _ = [] |- _ => apply bind_nil in H; eapply Forall_impl; [exact H|] end.
    cbn. intros o Hw. unfold clean_operation. by nils.
  - unfold walk_destination, walk_signing in *. nils. split; try done. split; [done|]. by apply headers_clean.
  - by apply retry_clean.
Qed.

Record clean_config (c : rawConfig) : Prop := {
  clean_version : clean (raw_Version c);
  clean_instance : clean (raw_Instance c);
  clean_database : clean (raw_URL (value (raw_Database c))) /\ clean (raw_Schema (value (raw_Database c))) /\
    clean (raw_ListenURL (value (raw_Database c)));
  clean_worker : clean (raw_Concurrency (value (raw_Worker c))) /\ clean (raw_BatchSize (value (raw_Worker c))) /\
    clean (raw_PollInterval (value (raw_Worker c))) /\ clean (raw_LeaseTimeout (value (raw_Worker c))) /\
    clean (raw_DrainTimeout (value (raw_Worker c)));
  clean_retention : clean (raw_Keep (value (raw_Retention c))) /\ clean (raw_PartitionInterval (value (raw_Retention c))) /\
    clean (raw_Precreate (value (raw_Retention c)));
  clean_defaults : clean (def_Timeout (value (raw_Defaults c))) /\ clean_retry (value (def_Retry (value (raw_Defaults c)))) /\
    headers_handed (def_Headers (value (raw_Defaults c))) /\ clean_headers (def_Headers (value (raw_Defaults c)));
  clean_listeners : Forall clean_listener (value (raw_Listeners c))
}.

Lemma config_clean c :
  headers_handed (def_Headers (value (raw_Defaults c))) -> Forall listener_handed (value (raw_Listeners c)) ->
  resolveEveryValue src c = [] -> clean_config c.
Proof.
  intros Hh Hl Hw. unfold resolveEveryValue in Hw. nils.
  unfold walk_database, walk_worker, walk_retention, walk_defaults in *. nils.
  split; try done; try (split_and!; done).
  - split_and!; [done|by apply retry_clean|done|by apply headers_clean].
  - match goal with H : _ ≫= _ = [] |- _ => apply bind_nil in H; rename H into Hwalk end.
    rewrite Forall_forall in Hwalk, Hl. apply Forall_forall. intros l Hin. apply listener_clean; auto.
Qed.
End cleaned.

Lemma suggested_schema_sound (IsLetter : Z -> bool) `{!Letters IsLetter} : identifierDefect IsLetter suggestedSchema = identOK.
Proof.
  unfold identifierDefect. rewrite bool_decide_eq_false_2 by done.
  assert (isIdentifierText IsLetter suggestedSchema = true) as ->; [|done].
  vm_compute. rewrite !(ascii_letters (IsLetter := IsLetter)) by lia. done.
Qed.

(** ** The largest timeout bounds every timeout *)

Lemma larger_timeout_step acc c e :
  larger_timeout acc c = Some e ->
  (acc = Some e \/ (e = c /\ effective_positive c = true)) /\
  (effective_positive c = true -> effective_value c <= effective_value e) /\
  (forall a, acc = Some a -> effective_value a <= effective_value e).
Proof.
  unfold larger_timeout. destruct (effective_positive c) eqn:Hp; cbn [negb].
  - destruct acc as [a|]; [destruct (effective_value a <? effective_value c) eqn:Hlt|]; intros [= <-].
    + split_and!; [by right|lia|]. intros a' [= <-]. lia.
    + split_and!; [by left|lia|]. intros a' [= <-]. lia.
    + split_and!; [by right|lia|done].
  - intros ->. split_and!; [by left|done|]. intros a [= <-]. lia.
Qed.

Lemma largest_bounds es : forall acc e,
  foldl larger_timeout acc es = Some e ->
  (acc = Some e \/ e ∈ es) /\
  (forall c, c ∈ es -> effective_positive c = true -> effective_value c <= effective_value e) /\
  (forall a, acc = Some a -> effective_value a <= effective_value e).
Proof.
  induction es as [|c es IH]; intros acc e; cbn [foldl].
  - intros ->. split_and!; [by left|by intros c ?%elem_of_nil|]. intros a [= <-]. lia.
  - intros H. pose proof (IH _ _ H) as (Hin & Hall & Hacc).
    destruct (larger_timeout acc c) as [a|] eqn:Hstep.
    + pose proof (larger_timeout_step _ _ _ Hstep) as (Hfrom & Hc & Ha). specialize (Hacc a eq_refl). split_and!.
      * destruct Hin as [[= ->]|Hin]; [|right; by right]. destruct Hfrom as [->|[-> _]]; [by left|right; by left].
      * intros c' [->|Hc']%elem_of_cons Hp; [specialize (Hc Hp); lia|auto].
      * intros a' Ha'. specialize (Ha a' Ha'). lia.
    + destruct Hin as [[=]|Hin]. split_and!; [right; by right| |].
      * intros c' [->|Hc']%elem_of_cons Hp; [|auto]. unfold larger_timeout in Hstep. rewrite Hp in Hstep. cbn [negb] in Hstep.
        destruct acc; [by case_match|done].
      * intros a ->. unfold larger_timeout in Hstep. by repeat case_match.
Qed.

Lemma largest_exists es acc : (is_Some acc \/ exists c, c ∈ es /\ effective_positive c = true) ->
  is_Some (foldl larger_timeout acc es).
Proof.
  revert acc. induction es as [|c es IH]; intros acc; cbn [foldl]; [intros [?|(c & ?%elem_of_nil & _)]; done|].
  intros H. apply IH. assert (is_Some acc -> is_Some (larger_timeout acc c)) as Hkeep.
  { intros [a ->]. unfold larger_timeout. repeat case_match; by eexists. }
  destruct H as [H|(c' & [->|Hin]%elem_of_cons & Hp)]; [left; auto| |right; by exists c'].
  left. unfold larger_timeout. rewrite Hp. cbn. destruct acc; [case_match|]; by eexists.
Qed.

(** ** The resolved configuration *)

Section sound_config.
Context (src : source) (IsLetter : Z -> bool) `{!Letters IsLetter} (url_parse : url_parser) (quote : gostring -> gostring).
Context (raw : rawConfig).

Abbreviation cfg := (resolveConfig raw).
Abbreviation def_block := (value (raw_Defaults raw)).
Abbreviation resolved_listener l := (resolveListener l (def_Headers def_block) (listener_defaults raw)).

Hypothesis Hclean : clean_config raw.
Hypothesis Hhanded : Forall listener_handed (value (raw_Listeners raw)).
Hypothesis Hrules : validate_reports src IsLetter url_parse quote [] raw = [].
Hypothesis Heffective : effective_reports src raw cfg = [].

Lemma rules_split :
  validateRoot src raw = [] /\ validateDatabase src IsLetter (value (raw_Database raw)) = [] /\
  validateWorker src (value (raw_Worker raw)) = [] /\ validateRetention src (value (raw_Retention raw)) = [] /\
  validateDefaults src quote def_block = [] /\ listener_names src ∅ (value (raw_Listeners raw)) = [] /\
  Forall (λ l, validateListener src IsLetter url_parse quote [] l = []) (value (raw_Listeners raw)).
Proof.
  unfold validate_reports in Hrules. do 6 (apply app_eq_nil in Hrules as [? Hrules]). split_and!; try done. by apply bind_nil.
Qed.

Lemma effective_split :
  validateLeaseComparison src 9 raw cfg = [] /\ validateRetentionComparisons src 11 12 raw cfg = [] /\
  Forall (λ l, listener_comparisons src raw cfg l (resolved_listener l) = []) (value (raw_Listeners raw)).
Proof.
  unfold effective_reports in Heffective. do 2 (apply app_eq_nil in Heffective as [? Heffective]). split_and!; [done..|].
  unfold resolveConfig in Heffective. destruct (resolveDatabase raw _) as [d i] eqn:E. cbn [Listeners] in Heffective.
  apply Forall_forall. intros l Hin. unfold cfg, resolveConfig. rewrite E.
  revert Heffective Hin. clear Hclean Hhanded. set (c := {| Version := _ |}). clearbody c.
  induction (value (raw_Listeners raw)) as [|l' ls IH]; [by intros _ ?%elem_of_nil|].
  cbn. intros [H1 H2]%app_eq_nil [->|Hin]%elem_of_cons; [done|by apply IH].
Qed.

Lemma worker_sound : sound_worker (Config_Worker cfg).
Proof.
  destruct rules_split as (_ & _ & H & _). destruct (clean_worker _ Hclean) as (H1 & H2 & H3 & H4 & H5).
  unfold validateWorker in H. do 4 (apply app_eq_nil in H as [? H]).
  unfold resolveConfig. destruct (resolveDatabase raw _). cbn [Config_Worker]. rewrite builtin_worker.
  split; cbn [resolveWorker Concurrency BatchSize PollInterval LeaseTimeout DrainTimeout].
  - apply (merged_reads (λ z, 1 <= z <= 1024)); [by eapply concurrency_reads|lia].
  - apply (merged_reads (λ z, 1 <= z <= 10000)); [by eapply between_reads|lia].
  - apply (merged_reads (λ z, 0 < z)); [by eapply positive_reads|done].
  - apply (merged_reads (λ z, 0 < z)); [by eapply positive_reads|done].
  - apply (merged_reads (λ z, 0 < z)); [by eapply positive_reads|done].
Qed.

Lemma retention_sound : sound_retention (Config_Retention cfg).
Proof.
  destruct rules_split as (_ & _ & _ & H & _). destruct effective_split as (_ & He & _).
  destruct (clean_retention _ Hclean) as (H1 & H2 & H3). unfold validateRetention in H. do 2 (apply app_eq_nil in H as [? H]).
  set (r := value (raw_Retention raw)) in *.
  assert (Hr : Config_Retention cfg = resolveRetention (MkRetention (hours 168) (hours 24) (hours 168)) r).
  { unfold resolveConfig. by destruct (resolveDatabase raw _). }
  assert (Hp : forall (w : Dur) d, clean w -> positiveDuration src 10 w = [] -> 0 < d -> 0 < merged w d).
  { intros w d Hc Hw Hd. apply (merged_reads (λ z, 0 < z)); [by eapply positive_reads|done]. }
  unfold validateRetentionComparisons in He. apply app_eq_nil in He as [He1 He2]. rewrite Hr in *.
  cbn [resolveRetention Keep PartitionInterval Precreate] in *. fold r in He1, He2.
  apply validateAtLeast_nil in He1; [|by repeat constructor..|by apply Hp|by apply Hp].
  apply validateAtLeast_nil in He2; [|by repeat constructor..|by apply Hp|by apply Hp].
  split; cbn; [by apply Hp| |].
  - destruct He1 as [?|[[Hu _]%Forall_cons [Hv _]%Forall_cons]]; [lia|]. by rewrite !unwritten_merged.
  - destruct He2 as [?|[[Hu _]%Forall_cons [Hv _]%Forall_cons]]; [lia|]. by rewrite !unwritten_merged.
Qed.

Lemma listener_timeout_positive l :
  l ∈ value (raw_Listeners raw) ->
  effective_value (listener_timeout raw l (resolved_listener l)) = Timeout (Delivery (resolved_listener l)) /\
  effective_positive (listener_timeout raw l (resolved_listener l)) = true /\
  0 < Timeout (Delivery (resolved_listener l)).
Proof.
  intros Hin. destruct rules_split as (_ & _ & _ & _ & Hd & _ & Hl). rewrite Forall_forall in Hl.
  pose proof (clean_listeners _ Hclean) as Hcl. rewrite Forall_forall in Hcl.
  specialize (Hl l Hin). specialize (Hcl l Hin). destruct (clean_defaults _ Hclean) as (Hcd & _).
  unfold validateListener in Hl. do 3 (apply app_eq_nil in Hl as [_ Hl]). apply app_eq_nil in Hl as [Hl _].
  unfold validateDefaults in Hd. apply app_eq_nil in Hd as [Hd _].
  assert (0 < Timeout (Delivery (resolved_listener l))) as Hpos.
  { cbn. apply (merged_reads (λ z, 0 < z)); [eapply positive_reads; [apply (clean_timeout _ Hcl)|done]|].
    apply (merged_reads (λ z, 0 < z)); [by eapply positive_reads|done]. }
  split_and!; [done| |done]. unfold listener_timeout. rewrite resolved_positive; [lia|].
  repeat constructor; [apply (clean_timeout _ Hcl)|done].
Qed.

Lemma listeners_resolved : Listeners cfg = map (λ l, resolved_listener l) (value (raw_Listeners raw)).
Proof. unfold resolveConfig. by destruct (resolveDatabase raw _). Qed.

Lemma timeouts_zip : zip_with (listener_timeout raw) (value (raw_Listeners raw)) (Listeners cfg) =
  map (λ l, listener_timeout raw l (resolved_listener l)) (value (raw_Listeners raw)).
Proof. rewrite listeners_resolved, zip_with_fmap_r, zip_with_diag. done. Qed.

Lemma lease_sound l : l ∈ value (raw_Listeners raw) ->
  Timeout (Delivery (resolved_listener l)) < LeaseTimeout (Config_Worker cfg).
Proof.
  intros Hin. destruct effective_split as (He & _). destruct (clean_worker _ Hclean) as (_ & _ & _ & Hcl & _).
  destruct (listener_timeout_positive l Hin) as (Hv & Hp & _).
  pose proof (worker_leases _ worker_sound) as Hlease.
  unfold validateLeaseComparison, largestListenerTimeout in He. rewrite timeouts_zip in He.
  set (es := map _ _) in He. assert (Hes : listener_timeout raw l (resolved_listener l) ∈ es)
    by (apply list_elem_of_fmap; by exists l).
  destruct (largest_exists es None) as [e Hlarge]; [right; by eexists|]. rewrite Hlarge in He.
  destruct (largest_bounds es None e Hlarge) as ([[=]|Hfrom] & Hall & _). specialize (Hall _ Hes Hp). rewrite Hv in Hall.
  rewrite resolved_positive in He by (by repeat constructor). rewrite (proj2 (Z.ltb_lt 0 _) Hlease) in He.
  cbn [negb orb effective_value resolved_from] in He.
  destruct (effective_value e <? LeaseTimeout (Config_Worker cfg)) eqn:Elt; [lia|].
  apply report_comparison_nil in He as [Hl%resolved_unwritten He].
  apply list_elem_of_fmap in Hfrom as (l' & -> & Hl'). destruct (listener_timeout_positive l' Hl') as (Hv' & _).
  rewrite Hv' in Hall. apply resolved_unwritten in He. apply Forall_cons in He as [Hu He], Hl as [Hl _].
  apply Forall_cons in He as [Hd _].
  assert (LeaseTimeout (Config_Worker cfg) = minutes 5) as ->.
  { unfold resolveConfig. destruct (resolveDatabase raw _). cbn. by rewrite unwritten_merged. }
  assert (Timeout (Delivery (resolved_listener l')) = seconds 5) as Ht.
  { cbn. by rewrite !unwritten_merged. }
  rewrite Ht in Hall. change (seconds 5) with 5000000000 in Hall. change (minutes 5) with 300000000000. lia.
Qed.

Lemma concurrency_sound l : l ∈ value (raw_Listeners raw) ->
  Listener_Concurrency (Delivery (resolved_listener l)) = 0 \/
  1 <= Listener_Concurrency (Delivery (resolved_listener l)) <= Concurrency (Config_Worker cfg).
Proof.
  intros Hin. destruct rules_split as (_ & _ & _ & _ & _ & _ & Hl). destruct effective_split as (_ & _ & He).
  pose proof (clean_listeners _ Hclean) as Hcl. rewrite Forall_forall in Hl, He, Hcl.
  specialize (Hl l Hin). specialize (He l Hin). specialize (Hcl l Hin). cbv beta in He.
  unfold validateListener in Hl. do 4 (apply app_eq_nil in Hl as [_ Hl]). apply app_eq_nil in Hl as [Hl _].
  pose proof (concurrency_reads src 39 _ (clean_concurrency _ Hcl) Hl) as Hr.
  unfold listener_comparisons in He. apply app_eq_nil in He as [_ He].
  cbn [resolveListener Delivery Listener_Concurrency] in *.
  destruct (Set_ (pres (listener_Concurrency l))) eqn:Hs; [right|left; unfold merged; by rewrite Hs].
  specialize (Hr Hs). cbn beta in Hr. pose proof (worker_slots _ worker_sound) as Hw. unfold validateConcurrencyComparison in He.
  assert (forall v (w : Int), clean w -> 1 <= v <= 1024 -> comparableConcurrency (resolved_from v [w]) = true) as Hcomp.
  { intros v w Hc Hv. unfold comparableConcurrency, concurrencyCanParticipateInComparison, minConcurrency, maxConcurrency.
    rewrite resolved_readable by (by repeat constructor). cbn [andb effective_value resolved_from]. lia. }
  assert (merged (listener_Concurrency l) 0 = value (listener_Concurrency l)) as Hm by (unfold merged; by rewrite Hs).
  rewrite Hm in *. rewrite !Hcomp in He; [|apply (clean_worker _ Hclean)|done|apply (clean_concurrency _ Hcl)|done].
  cbn [negb orb effective_value resolved_from] in He.
  destruct (value (listener_Concurrency l) <=? Concurrency (Config_Worker cfg)) eqn:E; [lia|].
  apply report_comparison_nil in He as [Hu _]. apply resolved_unwritten in Hu. apply Forall_cons in Hu as [Hu _].
  unfold written_set in Hu. by rewrite Hs in Hu.
Qed.

Lemma operations_sound (o : rawOperations) distinct :
  operations_handed o -> Forall clean_operation (value o) -> validateOperations src IsLetter o = [] ->
  Forall (sound_operation IsLetter) (resolveOperations o distinct).
Proof.
  intros Hh Hc Hv. apply bind_nil in Hv. unfold resolveOperations, operations_handed in *.
  rewrite merge_sort_Permutation, Forall_map. rewrite Forall_forall in Hh, Hc, Hv. apply Forall_forall. intros named Hin.
  specialize (Hh _ Hin). specialize (Hv _ Hin). destruct (Hc _ Hin) as [Hcc Hcw].
  unfold validate_operation in Hv. apply app_eq_nil in Hv as [Hcols Hwhen].
  assert (merged (op_Name named) [] = value (op_Name named)) as Hn by (unfold merged; by rewrite Hh).
  split; cbn [resolve_operation Kind When Columns]; rewrite Hn.
  - apply (merged_reads (λ clause, forbiddenWhenReference (value (op_Name named)) clause = None)).
    + intros Hs. rewrite (clean_Valid _ Hcw), Hs in Hwhen. cbn [negb] in Hwhen.
      by destruct (forbiddenWhenReference _ _).
    + unfold forbiddenWhenReference. destruct (whenRefusal _) as [variable statement].
      destruct (bool_decide (variable = [])); reflexivity.
  - intros Hu. rewrite bool_decide_eq_true_2 in Hcols by done.
    apply mergedStrings_reads; [|by repeat constructor]. intros Hs. by apply (identifiers_read src IsLetter 29 _ false Hcc Hcols).
Qed.

Lemma inherited raw_ : let d := listener_defaults raw_ in
  payload d = payload (listener resolvedBuiltInDefaults) /\
  destinationMethod d = destinationMethod (listener resolvedBuiltInDefaults) /\
  retry d = mergeRetry (retry (listener resolvedBuiltInDefaults)) (value (def_Retry (value (raw_Defaults raw_)))).
Proof.
  unfold listener_defaults. generalize (listener resolvedBuiltInDefaults). intros [??????]. done.
Qed.

Lemma listener_sound l : l ∈ value (raw_Listeners raw) ->
  sound_listener IsLetter url_parse (Config_Worker cfg) (resolved_listener l).
Proof.
  intros Hin. pose proof (lease_sound l Hin) as Hlease. pose proof (concurrency_sound l Hin) as Hslots.
  destruct (listener_timeout_positive l Hin) as (_ & _ & Hpos).
  destruct rules_split as (_ & _ & _ & _ & Hd & _ & Hl). destruct effective_split as (_ & _ & He).
  pose proof (clean_listeners _ Hclean) as Hcl. rewrite Forall_forall in Hl, He, Hcl, Hhanded.
  specialize (Hl l Hin). specialize (He l Hin). specialize (Hcl l Hin). specialize (Hhanded l Hin).
  destruct (clean_defaults _ Hclean) as (_ & Hcr & Hdh & Hdc). destruct Hcl as [Hcn Hct Hco Hcp Hcd Hcre _ _].
  unfold validateDefaults in Hd. apply app_eq_nil in Hd as [_ [Hdr Hdv]%app_eq_nil].
  unfold validateListener in Hl. apply app_eq_nil in Hl as [Hn Hl]. apply app_eq_nil in Hl as [Ht Hl].
  apply app_eq_nil in Hl as [Ho Hl]. do 2 (apply app_eq_nil in Hl as [_ Hl]). apply app_eq_nil in Hl as [Hr Hl].
  apply app_eq_nil in Hl as [Hp Hde]. cbv beta in He. unfold listener_comparisons in He. apply app_eq_nil in He as [He _].
  split; try done.
  - cbn. unfold merged. destruct (Set_ (pres (raw_Name l))) eqn:E; [right|by left]. by apply (name_reads src 23 _ Hcn Hn).
  - cbn. unfold merged. destruct (Set_ (pres (raw_Table l))) eqn:E; [right|by left]. by apply (table_reads src IsLetter _ Hct Ht).
  - apply operations_sound; [apply (handed_operations _ Hhanded)|done..].
  - cbn [resolveListener Trigger Payload_]. rewrite (proj1 (inherited raw)). by apply (payload_sound src IsLetter quote).
  - cbn [resolveListener Delivery Destination_]. rewrite (proj1 (proj2 (inherited raw))).
    apply (destination_sound src url_parse quote (value (raw_Destination l))); try done.
  - cbn [resolveListener Delivery Retry_] in *. rewrite (proj2 (proj2 (inherited raw))) in *.
    apply (retry_sound src); try done; by apply (validateRetry_reads src).
Qed.

Lemma names_nodup listeners : forall first,
  Forall clean_listener listeners -> listener_names src first listeners = [] ->
  NoDup (filter (.≠ []) (map (λ l, merged (raw_Name l) []) listeners)) /\
  Forall (λ l, Set_ (pres (raw_Name l)) = true -> first !! value (raw_Name l) = None) listeners.
Proof.
  induction listeners as [|l listeners IH]; intros first Hc; cbn [listener_names]; [by repeat constructor|].
  apply Forall_cons in Hc as [Hcl Hc]. rewrite (clean_Valid _ (clean_name _ Hcl)).
  destruct (Set_ (pres (raw_Name l))) eqn:Hs; cbn [negb].
  - destruct (first !! value (raw_Name l)) eqn:Hf; [done|]. intros (Hnd & Hfirst)%IH; [|done].
    rewrite Forall_forall in Hfirst. split.
    + cbn [map]. assert (merged (raw_Name l) [] = value (raw_Name l)) as -> by (unfold merged; by rewrite Hs).
      rewrite filter_cons. case_decide as Hne; [|done]. constructor; [|done].
      intros (Hn & Hin)%list_elem_of_filter. apply list_elem_of_fmap in Hin as (l' & Heq & Hin).
      unfold merged in Heq. destruct (Set_ (pres (raw_Name l'))) eqn:Hs'; [|done].
      specialize (Hfirst l' Hin Hs'). by rewrite <- Heq, lookup_insert_eq in Hfirst.
    + constructor; [done|]. apply Forall_forall. intros l' Hin Hs'. specialize (Hfirst l' Hin Hs').
      rewrite lookup_insert in Hfirst. by case_decide.
  - intros (Hnd & Hfirst)%IH; [|done]. split; [|constructor; [congruence|done]].
    cbn [map]. unfold merged at 1. rewrite Hs, filter_cons_False by (intros []; done). done.
Qed.

Lemma config_sound : sound IsLetter url_parse cfg.
Proof.
  destruct rules_split as (Hroot & Hdb & _ & _ & _ & Hnames & _).
  unfold validateRoot in Hroot. apply app_eq_nil in Hroot as [Hv Hi].
  unfold validateDatabase in Hdb. apply app_eq_nil in Hdb as [Hu [Hlu Hs]%app_eq_nil].
  destruct (clean_database _ Hclean) as (Hcu & Hcs & Hcl).
  assert (Hl : Listeners cfg = map (λ l, resolved_listener l) (value (raw_Listeners raw))) by apply listeners_resolved.
  assert (Hw : sound_worker (Config_Worker cfg)) by apply worker_sound.
  assert (Hr : sound_retention (Config_Retention cfg)) by apply retention_sound.
  assert (Hls : Forall (sound_listener IsLetter url_parse (Config_Worker cfg)) (Listeners cfg)).
  { rewrite Hl. apply Forall_map, Forall_forall, listener_sound. }
  split; try done.
  - cbn. unfold merged. destruct (Set_ (pres (raw_Version raw))) eqn:E; [left|by right].
    apply (reject_reads src _ _ _ _ (clean_version _ Hclean) Hv) in E. lia.
  - cbn. unfold merged. destruct (Set_ (pres (raw_URL (value (raw_Database raw))))) eqn:E; [right|by left].
    by apply (connection_reads src IsLetter 3 _ Hcu Hu).
  - cbn. unfold merged. destruct (Set_ (pres (raw_ListenURL (value (raw_Database raw))))) eqn:E; [right|by left].
    by apply (connection_reads src IsLetter 5 _ Hcl Hlu).
  - cbn. apply (merged_reads (λ s, identifierDefect IsLetter s = identOK /\ usesReservedSchemaPrefix s = false)).
    + intros E. rewrite (clean_Valid _ Hcs), E in Hs. cbn [negb] in Hs.
      case_bool_decide as Hd; cbn [negb] in Hs.
      * split; [done|]. by apply (reject_reads src _ _ _ _ Hcs Hs).
      * by apply (reject_reads src _ _ _ _ Hcs Hs) in E.
    + split; [by apply suggested_schema_sound|done].
  - cbn. change (merged (raw_Instance raw) ?d) with (if Set_ (pres (raw_Instance raw)) then value (raw_Instance raw) else d).
    destruct (Set_ (pres (raw_Instance raw))) eqn:E; [right|by left].
    by apply (name_reads src 2 _ (clean_instance _ Hclean) Hi).
  - rewrite Hl, map_map. cbn. apply (names_nodup _ ∅); [apply (clean_listeners _ Hclean)|done].
Qed.
End sound_config.

Lemma clean_operations_read src c : resolveEveryValue src c = [] ->
  Forall (λ l, clean (raw_Operations l)) (value (raw_Listeners c)).
Proof.
  intros Hw. unfold resolveEveryValue in Hw. do 8 (apply app_eq_nil in Hw as [_ Hw]). apply bind_nil in Hw.
  eapply Forall_impl; [exact Hw|]. intros l Hl. unfold walk_listener in Hl. do 3 (apply app_eq_nil in Hl as [_ Hl]).
  apply app_eq_nil in Hl as [Hl _]. apply app_eq_nil in Hl as [Hl _]. by apply resolveAs_nil in Hl.
Qed.

(** ** Operations: what the shape pass adds *)

Section shaped.
Context `{Yaml} (ParseDuration : gostring -> option Z).
Context (src : source) (described : node -> gostring * gostring) (quote to_lower : gostring -> gostring)
        (token_value : node -> gostring) `{!YamlLaws described}.

Abbreviation clean_at := (clean_level src described quote to_lower token_value).
Abbreviation checks := (check src described quote to_lower token_value).

Lemma entryValueNamed_elem es name v : entryValueNamed (Some es) name = Some v -> exists k, (k, v) ∈ es /\ keyTextOf k = Some name.
Proof.
  unfold entryValueNamed. destruct (filter _ es) as [|[k v'] rest] eqn:E; [done|]. intros [= ->]. exists k.
  assert ((k, v) ∈ filter (λ e, keyTextOf e.1 = Some name) es) as [Hn Hin]%list_elem_of_filter by (rewrite E; by left).
  done.
Qed.

Lemma field_clean level es reached name v :
  clean_at level es reached -> freeForm level = false -> field_of es name = Some v ->
  exists spec, level_key level name = Some spec /\ (legalUnder spec = [] \/ legalUnder spec = reached) /\
    shape_diags (checks v (AsValue spec)) = [].
Proof.
  intros [Hk Hu _] Hf Hv. apply (field_is_named es name v Hu) in Hv as (k & Hin & Hname)%entryValueNamed_elem.
  rewrite Forall_forall in Hk. destruct (Hk _ Hin) as (name' & Hn & [Hff|Hspec]); [congruence|].
  cbn in Hn. rewrite Hname in Hn. by injection Hn as <-.
Qed.

Lemma required_written level es reached spec :
  clean_at level es reached -> scope level = true -> spec ∈ keys level -> required spec = true ->
  is_Some (entryValueNamed (Some es) (spec_name spec)).
Proof.
  intros [_ _ Hc] Hs Hin Hr. specialize (Hc Hs). cbn [level_depth requiredKeysAbsentFrom] in Hc. apply bind_nil in Hc.
  rewrite Forall_forall in Hc. specialize (Hc spec Hin). apply app_eq_nil in Hc as [Hc _].
  destruct (entryValueNamed (Some es) (spec_name spec)) eqn:E; [by eexists|]. cbn -[entryValueNamed] in Hc.
  rewrite ?E, Hr in Hc. done.
Qed.

(** A listener's entries, read from a list without a shape diagnostic. *)
Lemma listeners_shaped es : clean_at (default (level_of []) (schemaLevels levelRoot)) es [] ->
  Forall (λ l, exists es', l = fill_listener ParseDuration es' /\
            clean_at (default (level_of []) (schemaLevels levelListener)) es' (bs "listeners"))
    (value (raw_Listeners (fill_config ParseDuration es))).
Proof.
  intros Hroot. cbn [fill_config raw_Listeners]. unfold field.
  destruct (field_of es (bs "listeners")) as [v|] eqn:Hv; [|constructor].
  destruct (field_clean _ _ _ _ _ Hroot eq_refl Hv) as (spec & Hspec & _ & Hclean). injection Hspec as <-.
  apply checkValue_clean in Hclean as (_ & _ & Hclean). specialize (Hclean _ eq_refl).
  unfold listOf_UnmarshalYAML. destruct (beneathNodeProperties v) as [| | | | |m k vs| | | | | |]; try constructor.
  set (read := λ e, match struct_entries (beneathNodeProperties e) with
                    | Some entries => inl (fill_listener ParseDuration entries)
                    | None => inr {| refused_node := e; refused_why := mustBeAnEntryOf |} end).
  assert (Forall (λ l, exists es', l = fill_listener ParseDuration es' /\
            clean_at (default (level_of []) (schemaLevels levelListener)) es' (bs "listeners")) (read_elements read vs).1) as Hall.
  { induction Hclean as [|e vs He _ IH]; [constructor|]. cbn [read_elements].
    destruct (read_elements read vs) as [values refusals]. cbn [fst] in *.
    apply checkMapping_clean in He as (m' & es' & Hb & Hl). unfold read. rewrite Hb, mapping_fills. cbn [fst].
    constructor; [|done]. by exists es'. }
  destruct (read_elements read vs) as [values refusals]. done.
Qed.

Definition declared_operations : list gostring := [bs "insert"; bs "update"; bs "delete"].

Lemma nodeKind_mapping n : nodeKindOf n = Some mappingValue -> exists m es, n = MappingNode m es.
Proof. destruct n; try done. intros _. by do 2 eexists. Qed.

(** An operation as the document holds it: its name is its key's, and what only an update may carry
    is written under no other. *)
Definition shaped_operation (o : namedOperation) : Prop :=
  value (op_Name o) ∈ declared_operations /\
  (value (op_Name o) <> updateOperation ->
    Set_ (pres (raw_op_Columns (Filter o))) = false /\ Set_ (pres (raw_op_IsDistinct (Filter o))) = false).

Lemma operation_shaped e o :
  (exists name, keyTextOf e.1 = Some name /\
     (exists spec, level_key (default (level_of []) (schemaLevels levelOperations)) name = Some spec /\
        shape_diags (checks e.2 (AsValue spec)) = [])) ->
  operationOf e = inl o -> shaped_operation o /\ keyTextOf e.1 = Some (value (op_Name o)).
Proof.
  intros (name & Hn & spec & Hspec & Hclean). unfold operationOf. rewrite Hn. case_bool_decide; [done|].
  assert (spec_name spec = name /\ name ∈ declared_operations /\ child spec = levelOperation /\ kinds spec = [mappingValue])
    as (Hname & Hin & Hchild & Hkinds).
  { unfold level_key in Hspec. destruct (filter _ _) as [|s rest] eqn:E; [done|]. injection Hspec as ->.
    assert (spec ∈ filter (λ spec, spec_name spec = name) (keys (default (level_of []) (schemaLevels levelOperations)))) as Hs
      by (rewrite E; by left). apply list_elem_of_filter in Hs as [Hs Hin]. split; [done|]. subst name.
    cbn in Hin. rewrite !elem_of_cons in Hin. unfold declared_operations. destruct Hin as [-> |[-> |[-> |Hin%elem_of_nil]]]; [..|done];
      (split; [rewrite !elem_of_cons; auto|done]). }
  apply checkValue_clean in Hclean as ((kind & Hkind & Hin') & _ & Hclean). rewrite Hchild, Hname in Hclean.
  specialize (Hclean _ eq_refl). assert (kind = mappingValue) as ->.
  { rewrite Hkinds in Hin'. by apply list_elem_of_singleton in Hin'. }
  destruct (nodeKind_mapping _ Hkind) as (m & es & Hes). rewrite Hes in Hclean |- *. rewrite mapping_fills. intros [= <-].
  split; [|done]. split; [done|]. cbn [op_Name value read_as Filter fill_operation raw_op_Columns raw_op_IsDistinct].
  intros Hne. split; unfold field.
  - destruct (field_of es (bs "columns")) as [v|] eqn:Ev; [|done].
    by destruct (field_clean _ _ _ _ _ Hclean eq_refl Ev) as (s & [= <-] & [Hu|Hu] & _).
  - destruct (field_of es (bs "is_distinct")) as [v|] eqn:Ev; [|done].
    by destruct (field_clean _ _ _ _ _ Hclean eq_refl Ev) as (s & [= <-] & [Hu|Hu] & _).
Qed.

Lemma operations_read eso values refusals :
  clean_at (default (level_of []) (schemaLevels levelOperations)) eso (bs "operations") ->
  read_entries operationOf eso = (values, refusals) -> refusals = [] ->
  length values = length eso /\ Forall shaped_operation values /\
  Forall2 (λ e o, keyTextOf e.1 = Some (value (op_Name o))) eso values.
Proof.
  intros [Hk _ _]. revert values refusals. induction eso as [|e eso IH]; intros values refusals; cbn [read_entries].
  { intros [= <- <-]. done. }
  apply Forall_cons in Hk as [He Hk]. destruct (read_entries operationOf eso) as [vs rs] eqn:Er.
  destruct (operationOf e) as [o|r] eqn:Eo; intros [= <- <-] Hr; [|done].
  destruct (IH Hk vs rs eq_refl Hr) as (Hl & Hall & H2).
  assert (shaped_operation o /\ keyTextOf e.1 = Some (value (op_Name o))) as [Ho Hn].
  { apply operation_shaped; [|done]. destruct He as (name & Hn & [[=]|(spec & Hs & _ & Hc)]). exists name. split; [done|]. by exists spec. }
  split_and!; [cbn; by rewrite Hl|by constructor|by constructor].
Qed.

Lemma keyIdentity_text e name : keyTextOf e = Some name -> name <> [] -> keyIdentity described e = textualKey ++ name.
Proof.
  unfold keyTextOf, keyIdentity. destruct (scalarTextOf (beneathKeyProperties e)) as [text|]; [by intros [= ->]|].
  intros Hn Hne. by repeat case_match; simplify_eq.
Qed.

Lemma names_unique eso values :
  NoDup (keyIdentitiesOf described eso) -> Forall shaped_operation values ->
  Forall2 (λ e o, keyTextOf e.1 = Some (value (op_Name o))) eso values -> NoDup (map (λ o, value (op_Name o)) values).
Proof.
  intros Hnd Hs H2. assert (keyIdentitiesOf described eso = map (app textualKey) (map (λ o, value (op_Name o)) values)) as Heq.
  { clear Hnd. induction H2 as [|e o eso values Heo H2 IH]; [done|]. apply Forall_cons in Hs as [[Hin _] Hs].
    cbn. rewrite (keyIdentity_text _ _ Heo); [f_equal; by apply IH|].
    intros Hz. rewrite Hz in Hin. unfold declared_operations in Hin. rewrite !elem_of_cons in Hin.
    destruct Hin as [?|[?|[?|Hin%elem_of_nil]]]; [discriminate..|done]. }
  rewrite Heq in Hnd. by apply NoDup_fmap_1 in Hnd.
Qed.

(** The operations of a listener without a finding: at least one, each declared, none twice. *)
Lemma listener_operations_shaped es :
  clean_at (default (level_of []) (schemaLevels levelListener)) es (bs "listeners") ->
  clean (raw_Operations (fill_listener ParseDuration es)) ->
  let os := value (raw_Operations (fill_listener ParseDuration es)) in
  os <> [] /\ NoDup (map (λ o, value (op_Name o)) os) /\ Forall shaped_operation os.
Proof.
  intros Hl. cbn [fill_listener raw_Operations]. unfold field.
  set (spec := key operationsKey [mappingValue; sequenceValue] |> mandatory (R 27) |> holdingSomething (R 27)
                    |> shapedLike bothOperationForms |> of_level levelOperations).
  assert (spec ∈ keys (default (level_of []) (schemaLevels levelListener))) as Hspec by (do 3 apply list_elem_of_further; apply list_elem_of_here).
  destruct (required_written _ _ _ _ Hl eq_refl Hspec eq_refl) as [v Hv].
  assert (shape_diags (checks v (AsValue spec)) = []) as Hclean.
  { destruct (entryValueNamed_elem _ _ _ Hv) as (k & Hin & Hname). destruct Hl as [Hk _ _]. rewrite Forall_forall in Hk.
    destruct (Hk _ Hin) as (name' & Hn & [[=]|(s & Hs & _ & Hc)]). cbn in Hn. rewrite Hname in Hn. injection Hn as <-.
    by injection Hs as <-. }
  apply checkValue_clean in Hclean as ((kind & Hkind & Hkin) & Hsome & Hclean). specialize (Hsome ltac:(done)). specialize (Hclean _ eq_refl).
  assert (field_of es (bs "operations") = Some v) as Hf.
  { eapply field_is_found; [apply (level_unique _ _ _ _ _ _ _ _ Hl)|exact Hv|]. unfold null_beneath.
    destruct (beneathNodeProperties v); try done. injection Hkind as <-. cbn in Hkin. rewrite !elem_of_cons in Hkin.
    destruct Hkin as [?|[?|Hkin%elem_of_nil]]; done. }
  rewrite Hf. unfold rawOperations_UnmarshalYAML.
  destruct (beneathNodeProperties v) as [| | | |m eso| | | | | | |]; try done.
  destruct (read_entries operationOf eso) as [values refusals] eqn:Er. unfold clean. cbn [refuse_at pres refused value]. intros Href.
  destruct (operations_read eso values refusals Hclean Er Href) as (Hlen & Hall & H2).
  pose proof (names_unique _ _ (level_unique _ _ _ _ _ _ _ _ Hclean) Hall H2) as Hnd. split_and!.
  - intros Hnil. apply (f_equal length) in Hnil. rewrite merge_sort_Permutation, Hlen in Hnil. by destruct eso.
  - by rewrite merge_sort_Permutation.
  - by rewrite merge_sort_Permutation.
Qed.
End shaped.

(** What a listener captures: at least one operation, each of the three, none twice, and a filter that
    only an update may carry on no other. *)
Definition sound_operations (os : Operations) : Prop :=
  os <> [] /\ NoDup (map Kind os) /\
  Forall (λ o, Kind o ∈ declared_operations /\ (Kind o <> updateOperation -> Columns o = [] /\ IsDistinct o = false)) os.

Lemma resolved_operations_sound (o : rawOperations) :
  operations_handed o -> value o <> [] -> NoDup (map (λ o, value (op_Name o)) (value o)) ->
  Forall shaped_operation (value o) -> sound_operations (resolveOperations o false).
Proof.
  intros Hh Hne Hnd Hs. unfold resolveOperations, operations_handed in *.
  assert (map Kind (map (resolve_operation false) (value o)) = map (λ o, value (op_Name o)) (value o)) as Hk.
  { rewrite map_map. apply map_ext_in. intros n Hin%list_elem_of_In. rewrite Forall_forall in Hh. cbn. unfold merged. by rewrite Hh. }
  split_and!.
  - intros Hnil. apply (f_equal length) in Hnil. rewrite merge_sort_Permutation, length_map in Hnil. by destruct (value o).
  - by rewrite merge_sort_Permutation, Hk.
  - rewrite merge_sort_Permutation, Forall_map. rewrite Forall_forall in Hh, Hs. apply Forall_forall. intros n Hin.
    destruct (Hs n Hin) as [Hd Hu]. specialize (Hh n Hin). cbn [resolve_operation Kind Columns IsDistinct].
    assert (merged (op_Name n) [] = value (op_Name n)) as -> by (unfold merged; by rewrite Hh).
    split; [done|]. intros Hne'. destruct (Hu Hne') as [H1 H2]. unfold mergedStrings, merged. by rewrite H1, H2.
Qed.

Lemma inherited_distinct raw : operationDistinct (listener_defaults raw) = false.
Proof. reflexivity. Qed.
