(* ===== verification/Load.v ===== *)
(** * Loading a configuration: [internal/config/load.go] and [parse.go].

    The stage machine, over a parser that is a parameter, and what it vouches for: a configuration that
    loads satisfies every rule the other components rely on ([sound]). What a required key written as
    null lets through is in the statement, and [null_required_keys_load] shows that it does. *)

From S2P Require Import Prelude Utf8 Source Quote WhenLex Partition Config Listen Interpolate Ident Diag Yaml Substitute Normalize.
From S2P Require Import Schema Raw Merge Validate Sound.

Local Open Scope Z_scope.

(** ** parse.go: stages B and C *)

(** What the parser answers of a text. *)
Inductive body := NoBody | CommentBody | Content (n : node).
Inductive parsed :=
  | SyntaxError (message : gostring) (token : option mark)
  | UnrecognisedError
  | Parsed (docs : list body).

Definition all_digits (s : gostring) : bool := negb (bool_decide (s = [])) && forallb is_digit s.

(** The last field of a split at [c], with what stands before it. *)
Definition cut_last (c : ascii) (s : gostring) : option (gostring * gostring) :=
  match index_of [c] (rev s) with
  | Some n => Some (take (length s - S n) s, drop (length s - n) s)
  | None => None
  end.

(** [^mapping key .* already defined at \[\d+:\d+\]$], read from the end; [.] is no line feed. *)
Definition duplicateKeyMessage (msg : gostring) : bool :=
  default false (
    '(front, last) ← cut_last "]" msg;
    '(front, col) ← cut_last ":" front;
    '(front, line) ← cut_last "[" front;
    middle ← (if has_suffix front (bs " already defined at ")
              then Some (take (length front - length (bs " already defined at ")) front) else None);
    Some (bool_decide (last = []) && all_digits col && all_digits line &&
          has_prefix middle (bs "mapping key ") && negb (contains_byte LF middle))).

Example duplicate_key_messages :
  map (λ s, duplicateKeyMessage (bs s))
    ["mapping key a already defined at [3:7]"; "mapping key a already defined at [3:7] x"; "mapping key a already defined at [3:]";
     "a mapping key a already defined at [3:7]"; "mapping key already defined at [1:1]"]%string = [true; false; false; false; false].
Proof. vm_compute. reflexivity. Qed.

Definition unrecognisedParseFailureMessage : gostring := bs "configuration file could not be parsed".
Definition emptyDocumentMessage : gostring := bs "configuration file is empty or contains only comments".

Definition classifyParseError (message : gostring) (token : option mark) : RuleID * gostring * option mark :=
  (if duplicateKeyMessage message then R 42 else RuleSyntax, message, token).

Definition contentBodies (docs : list body) : list node :=
  docs ≫= λ b, match b with Content n => [n] | _ => [] end.

Abbreviation outcome := (option Config * Warnings * Errors)%type.

Section loading.
Context `{Yaml} (described : node -> gostring * gostring) (YAMLName : node -> gostring)
        (IsMergeKey canBeAKey : node -> bool) (token_value : node -> gostring)
        (quote to_lower : gostring -> gostring) (IsLetter : Z -> bool) (url_parse : url_parser)
        (ParseDuration : gostring -> option Z) (ParseBytes : gostring -> parsed)
        (any_order : gmap complaint Error -> list Error).

Definition syntaxDiagnostic (src : source) (failure : RuleID * gostring * option mark) : Error :=
  let '(rule, message, at_) := failure in
  match at_ with
  | None => NewFileError rule (src_name src) message
  | Some token => NewError rule (tokenPosition src token []) message
  end.

Definition documentRoot (src : source) (docs : list body) : node + Errors :=
  match contentBodies docs with
  | [] => inr [NewFileError RuleDocument (src_name src) emptyDocumentMessage]
  | [MappingNode m values] => inl (MappingNode m values)
  | [root] => inr [NewError RuleDocument (positionOf src root)
                     (bs "configuration root must be a mapping, found " ++ YAMLName root)]
  | _ :: second :: _ as bodies =>
      inr [NewError RuleDocument (positionOfMapping src second)
             (bs "configuration file must contain exactly one YAML document, found " ++
              format_int (Z.of_nat (length bodies)))]
  end.

Definition parseDocument (src : source) : node + Errors :=
  match ParseBytes (src_bytes src) with
  | SyntaxError message token => inr [syntaxDiagnostic src (classifyParseError message token)]
  | UnrecognisedError => inr [syntaxDiagnostic src (RuleSyntax, unrecognisedParseFailureMessage, None)]
  | Parsed docs => documentRoot src docs
  end.

(** ** load.go *)

(** Stages F to I, on the tree stage E leaves; [None] is the panic of a rule without an anchor. *)
Definition findings_of (src : source) (root : node) (originals : originalTexts) : option outcome :=
  let '(shape, decodable) := checkShape src described quote to_lower token_value root in
  if negb decodable then Some (None, [], shape)
  else
    let '(decoded, conversions) := decodeDocument ParseDuration src root in
    semantics ← validate src IsLetter url_parse quote shape decoded;
    let resolved := resolveConfig decoded in
    effective ← validateEffective src decoded resolved;
    let warnings := warningsFor src decoded resolved originals in
    let findings := shape ++ conversions ++ semantics ++ effective in
    Some (if bool_decide (findings = []) then Some resolved else None, warnings, findings).

Definition runPipeline (src : source) (env : EnvLookup) : option outcome :=
  match parseDocument src with
  | inr diags => Some (None, [], diags)
  | inl root =>
      let d := interpolate src env root in
      if negb (bool_decide (in_diags d = [])) then Some (None, [], in_diags d)
      else
        let '(reduced, diags) := normalize src described IsMergeKey canBeAKey (tree d) in
        if negb (bool_decide (diags = [])) then Some (None, [], diags)
        else findings_of src reduced (originals d)
  end.

Definition Parse (data filename : gostring) (env : EnvLookup) : option outcome :=
  normalizedResult any_order <$> runPipeline (newSource filename data) env.

(** [ReadFile] answers the file's bytes or why it could not be read. *)
Definition Load (ReadFile : gostring -> gostring + gostring) (path : gostring) (env : EnvLookup) : option outcome :=
  match ReadFile path with
  | inl data => Parse data path env
  | inr reason => Some (normalizedResult any_order
      (None, [], [NewFileError RuleRead path (bs "cannot read configuration file: " ++ reason)]))
  end.
End loading.

(** ** The pipeline answers, and what it lets through is sound *)

Lemma mapM_nil {A B} (f : A -> option B) l : mapM f l = Some [] -> l = [].
Proof. intros H%length_mapM. by destruct l. Qed.

Lemma interpolate_mapping src env m es : exists es', tree (interpolate src env (MappingNode m es)) = MappingNode m es'.
Proof.
  unfold interpolate. cbn [substituteValuesUnder]. set (parts := map _ es). destruct (gathered parts) as [ds os].
  by eexists.
Qed.

Lemma normalize_mapping src described IsMergeKey canBeAKey m es reduced diags :
  normalize src described IsMergeKey canBeAKey (MappingNode m es) = (reduced, diags) ->
  exists m' es', reduced = MappingNode m' es'.
Proof.
  unfold normalize. cbn [reduceValue]. destruct (reduce_entries _ _ _ _ _ es _) as [[direct sources] nz].
  intros [= <- _]. by do 2 eexists.
Qed.

Section accepted.
Context `{Yaml} (described : node -> gostring * gostring) (YAMLName : node -> gostring)
        (IsMergeKey canBeAKey : node -> bool) (token_value : node -> gostring)
        (quote to_lower : gostring -> gostring) (IsLetter : Z -> bool) (url_parse : url_parser)
        (ParseDuration : gostring -> option Z) (ParseBytes : gostring -> parsed)
        (any_order : gmap complaint Error -> list Error).

Abbreviation pipeline := (runPipeline described YAMLName IsMergeKey canBeAKey token_value quote to_lower IsLetter
  url_parse ParseDuration ParseBytes).
Abbreviation findings := (findings_of described token_value quote to_lower IsLetter url_parse ParseDuration).
Abbreviation parse := (Parse described YAMLName IsMergeKey canBeAKey token_value quote to_lower IsLetter
  url_parse ParseDuration ParseBytes any_order).

(** A configuration comes with no errors, and no configuration with some. *)
Definition answered (out : outcome) : Prop :=
  let '(cfg, _, errs) := out in is_Some cfg <-> errs = [].

Lemma refused_answered warnings errs : errs <> [] -> answered (None, warnings, errs).
Proof. intros Hne. split; [by intros []|done]. Qed.

Lemma findings_answered src root originals : exists out, findings src root originals = Some out /\ answered out.
Proof.
  unfold findings_of, checkShape, checkMapping. cbn [schemaLevels].
  set (p := check _ _ _ _ _ root _).
  assert (accounted p) as Hp by apply check_accounted. destruct (undecodable p) eqn:Eu; cbn [negb].
  { eexists. split; [done|]. apply refused_answered, Hp, Eu. }
  destruct (decodeDocument ParseDuration src root) as [decoded conversions].
  destruct (reports_are_anchored src IsLetter url_parse quote (shape_diags p) decoded (resolveConfig decoded)) as [[s ->] [e ->]].
  cbn. eexists. split; [done|]. by case_bool_decide; split; try done; intros [].
Qed.

Lemma parseDocument_cases src :
  match parseDocument YAMLName ParseBytes src with
  | inl root => exists m es, root = MappingNode m es
  | inr errs => errs <> []
  end.
Proof.
  unfold parseDocument. destruct (ParseBytes (src_bytes src)) as [msg tok| |docs]; [done|done|].
  unfold documentRoot. destruct (contentBodies docs) as [|[] [|]]; try done. by do 2 eexists.
Qed.

Lemma runPipeline_answered src env : exists out, pipeline src env = Some out /\ answered out.
Proof.
  unfold runPipeline. pose proof (parseDocument_cases src) as Hd.
  destruct (parseDocument YAMLName ParseBytes src) as [root|errs]; [|eexists; split; [done|by apply refused_answered]].
  case_bool_decide as Hi; cbn [negb]; [|eexists; split; [done|by apply refused_answered]].
  destruct (normalize _ _ _ _ _) as [reduced diags].
  case_bool_decide as Hn; cbn [negb]; [|eexists; split; [done|by apply refused_answered]].
  apply findings_answered.
Qed.

Context `{!Enumerates any_order}.

Lemma normalized_nil errs : normalized any_order errs = [] <-> errs = [].
Proof.
  split; [|by intros ->]. destruct errs as [|e errs]; [done|]. unfold normalized. intros Hs.
  assert (deduped any_order (e :: errs) = []) as Hd.
  { apply Permutation_nil_r. by rewrite <- Hs, merge_sort_Permutation. }
  unfold deduped in Hd. pose proof (enumerates (any_order := any_order) (best_of (e :: errs))) as Hp. rewrite Hd in Hp.
  symmetry in Hp. apply Permutation_nil_r, fmap_nil_inv in Hp. apply map_to_list_empty_iff in Hp.
  assert (forall l best, best <> ∅ -> foldl keep_best best l <> ∅) as Hkeep.
  { induction l as [|d l IH]; intros best Hb; cbn [foldl]; [done|]. apply IH. unfold keep_best.
    repeat case_match; try done; apply insert_non_empty. }
  unfold best_of in Hp. cbn [foldl] in Hp. exfalso. eapply Hkeep; [|exact Hp]. unfold keep_best. rewrite lookup_empty. apply insert_non_empty.
Qed.

Lemma parse_answered data filename env :
  exists cfg warnings errs, parse data filename env = Some (cfg, warnings, errs) /\ (is_Some cfg <-> errs = []).
Proof.
  unfold Parse. destruct (runPipeline_answered (newSource filename data) env) as ([[cfg warnings] errs] & -> & Ha).
  cbn. eexists _, _, _. split; [done|]. rewrite normalized_nil. exact Ha.
Qed.

Context `{!Letters IsLetter} `{!YamlLaws described}.

Lemma findings_sound src root originals cfg warnings errs :
  (exists m es, root = MappingNode m es) -> findings src root originals = Some (Some cfg, warnings, errs) ->
  errs = [] /\ sound IsLetter url_parse cfg /\ Forall (λ l, sound_operations (Operations_ (Trigger l))) (Listeners cfg).
Proof.
  intros (m & es & ->). unfold findings_of, checkShape, checkMapping. cbn [schemaLevels].
  set (p := check _ _ _ _ _ _ _). destruct (undecodable p) eqn:Eu; cbn [negb]; [done|].
  unfold decodeDocument. rewrite mapping_fills. change (default [] (Some es)) with es. set (raw := fill_config ParseDuration es).
  destruct (validate src IsLetter url_parse quote (shape_diags p) raw) as [semantics|] eqn:Ev; [|done]. cbn [mbind option_bind].
  destruct (validateEffective src raw (resolveConfig raw)) as [effective|] eqn:Ee; [|done]. cbn [mbind option_bind].
  case_bool_decide as Hnil; [|done]. intros [= <- _ <-]. split; [exact Hnil|].
  apply app_eq_nil in Hnil as [Hp Hnil]. apply app_eq_nil in Hnil as [Hc Hnil]. apply app_eq_nil in Hnil as [-> ->].
  rewrite Hp in Ev. unfold validate in Ev. apply mapM_nil in Ev. unfold validateEffective in Ee. apply mapM_nil in Ee.
  destruct (fill_config_handed ParseDuration es) as [Hh Hl].
  pose proof (config_clean src raw Hh Hl Hc) as Hclean. split; [by apply (config_sound src IsLetter url_parse quote)|].
  apply checkMapping_clean in Hp as (m' & es' & [= <- <-] & Hroot).
  pose proof (listeners_shaped ParseDuration src described quote to_lower token_value es Hroot) as Hshaped.
  rewrite listeners_resolved, Forall_map. pose proof (clean_operations_read src raw Hc) as Hops.
  unfold raw in *. rewrite Forall_forall in Hshaped, Hl, Hops. apply Forall_forall. intros l Hin.
  destruct (Hshaped l Hin) as (es' & -> & Hlevel).
  destruct (listener_operations_shaped ParseDuration src described quote to_lower token_value es' Hlevel (Hops _ Hin)) as (Hne & Hnd & Hall).
  cbn [resolveListener Trigger Operations_]. rewrite inherited_distinct.
  apply resolved_operations_sound; [apply (handed_operations _ (Hl _ Hin))|done..].
Qed.

Lemma parse_sound data filename env cfg warnings errs :
  parse data filename env = Some (Some cfg, warnings, errs) ->
  sound IsLetter url_parse cfg /\ Forall (λ l, sound_operations (Operations_ (Trigger l))) (Listeners cfg).
Proof.
  unfold Parse, runPipeline. pose proof (parseDocument_cases (newSource filename data)) as Hd.
  destruct (parseDocument YAMLName ParseBytes _) as [root|]; [|done]. destruct Hd as (m & es & ->).
  destruct (bool_decide (in_diags _ = [])); cbn [negb]; [|done].
  destruct (normalize _ _ _ _ _) as [reduced diags] eqn:En. destruct (bool_decide (diags = [])); cbn [negb]; [|done].
  destruct (findings _ reduced _) as [[[cfg' w] e]|] eqn:Ef; [|done]. cbn. intros [= -> <- <-].
  assert (exists m' es', reduced = MappingNode m' es') as Hm.
  { destruct (interpolate_mapping (newSource filename data) env m es) as (es' & Ht). rewrite Ht in En. by eapply normalize_mapping. }
  by destruct (findings_sound _ _ _ _ _ _ Hm Ef) as (_ & Hs).
Qed.

(** C3. Loading is total, refuses for a reason and vouches for what it accepts. Whatever bytes the file holds
    and whatever the parser makes of them, no stage panics, and there is a configuration exactly when there
    is no error. A configuration that loads keeps every promise the other components rely on: its schema
    and instance, its worker and retention settings and each listener's table, operations, filters,
    payload, headers, secrets, retry and timeouts satisfy the rules of their keys and the comparisons
    between them, whether written, inherited or built in -- save that the value of a required scalar key
    may be empty. *)
Theorem loading_is_sound data filename env :
  exists cfg warnings errs,
    Parse described YAMLName IsMergeKey canBeAKey token_value quote to_lower IsLetter url_parse ParseDuration ParseBytes
      any_order data filename env = Some (cfg, warnings, errs) /\
    (is_Some cfg <-> errs = []) /\
    forall c, cfg = Some c ->
      sound IsLetter url_parse c /\ Forall (λ l, sound_operations (Operations_ (Trigger l))) (Listeners c).
Proof.
  destruct (parse_answered data filename env) as (cfg & warnings & errs & Hp & Hiff).
  exists cfg, warnings, errs. split; [done|]. split; [done|]. intros c ->. by eapply parse_sound.
Qed.
End accepted.

(** ** Documents *)

Definition here (line : Z) : mark := {| node_id := Z.to_nat line; at_line := line; at_col := 1; locator := bs "$" |}.
Definition str (line : Z) (s : string) : node := StringNode (here line) (bs s).
Definition int_ (line : Z) (s : string) : node := ValueNode (here line) (bs "Integer") (bs s).
Definition null (line : Z) : node := NullNode (here line).
Definition map_ (line : Z) (entries : list (string * node)) : node :=
  MappingNode (here line) (map (λ '(k, v), (str line k, v)) entries).
Definition list_ (line : Z) (values : list node) : node := SequenceNode (here line) (length values) values.

(** A library that reads text and integers, and gives a field what its key names. *)
#[export] Instance plain_yaml : Yaml := {
  text_of n := match n with StringNode _ v | ValueNode _ _ v => Some v | _ => None end;
  struct_entries n := match n with MappingNode _ es => Some es | _ => None end;
  field_of es name := match entryValueNamed (Some es) name with
                      | Some v => if null_beneath v then None else Some v
                      | None => None end
}.

#[export] Instance plain_yaml_laws : YamlLaws plain_described.
Proof.
  split; cbn [struct_entries field_of plain_yaml]; [done| |].
  - intros es name v _. destruct (entryValueNamed _ _); [|done]. destruct (null_beneath _); [done|]. by intros [= ->].
  - intros es name v _ Hv Hn. by rewrite Hv, Hn.
Qed.

Definition in_some_order (best : gmap complaint Error) : list Error := (map_to_list best).*2.
#[export] Instance in_some_order_enumerates : Enumerates in_some_order.
Proof. intros best. reflexivity. Qed.

(** [Parse] of a text the parser reads as [root]. *)
Abbreviation parse_of root :=
  (Parse plain_described (λ _, bs "other") is_merge (λ _, true) (λ _, []) quoted_text (λ s, s)
    (ascii_table (λ _, false)) (λ _, Ok (bs "https", bs "example.test")) (λ _, None) (λ _, Parsed [Content root])
    in_some_order [] (bs "noty.yaml") (λ _, ([], false))).

Definition sample_listener : node :=
  map_ 5 [("name", str 5 "orders"); ("table", str 6 "public.orders");
          ("operations", map_ 7 [("update", map_ 8 [("columns", list_ 8 [str 8 "total"; str 8 "state"])]); ("insert", map_ 9 [])]);
          ("destination", map_ 10 [("url", str 10 "https://example.test/hook");
                                   ("headers", map_ 11 [("x-team", str 11 "billing")])])]%string.

Definition sample_document (schema : string) : node :=
  map_ 1 [("version", int_ 1 "1");
          ("database", map_ 2 [("url", str 2 "postgres://localhost/app"); ("schema", str 3 schema)]);
          ("listeners", list_ 4 [sample_listener])]%string.

(** The same document with every required scalar written as null. *)
Definition null_document : node :=
  map_ 1 [("version", null 1); ("database", map_ 2 [("url", null 2)]);
          ("listeners", list_ 4 [
             map_ 5 [("name", null 5); ("table", null 6); ("operations", map_ 7 [("insert", map_ 9 [])]);
                     ("destination", map_ 10 [("url", null 10)])]])]%string.

(** Reading a computed answer. *)
Definition loads_as (P : Config -> Prop) (out : option outcome) : Prop :=
  match out with Some (Some c, [], []) => P c | _ => False end.

Lemma loads_as_inv P out : loads_as P out -> exists c, out = Some (Some c, [], []) /\ P c.
Proof. destruct out as [[[[c|] [|]] [|]]|]; try contradiction. intros H. by exists c. Qed.

Lemma loading_is_sound_witness :
  exists cfg warnings errs, parse_of (sample_document "noty") = Some (cfg, warnings, errs) /\ (is_Some cfg <-> errs = []) /\
    forall c, cfg = Some c -> sound (ascii_table (λ _, false)) (λ _, Ok (bs "https", bs "example.test")) c /\
      Forall (λ l, sound_operations (Operations_ (Trigger l))) (Listeners c).
Proof.
  exact (loading_is_sound plain_described (λ _, bs "other") is_merge (λ _, true) (λ _, []) quoted_text (λ s, s)
    (ascii_table (λ _, false)) (λ _, Ok (bs "https", bs "example.test")) (λ _, None) (λ _, Parsed [Content (sample_document "noty")])
    in_some_order [] (bs "noty.yaml") (λ _, ([], false))).
Defined.

(** The document loads, with what it writes. *)
Example sample_loads :
  loads_as (λ c, Version c = 1 /\ Config_Instance c = bs "noty" /\ Schema (Config_Database c) = bs "noty" /\
    map (λ l, (map Kind (Operations_ (Trigger l)), Headers (Destination_ (Delivery l)) !! bs "X-Team")) (Listeners c) =
    [([bs "insert"; bs "update"], Some (bs "billing"))]) (parse_of (sample_document "noty")).
Proof. vm_compute. split_and!; reflexivity. Qed.

(** A required key whose value is written as null is present to the pass that looks for missing keys and
    absent to the rules that judge values: the configuration loads without a finding, with version zero,
    no connection, and a listener without a name, a table or a destination. *)
Theorem null_required_keys_load :
  exists cfg l, parse_of null_document = Some (Some cfg, [], []) /\ Version cfg = 0 /\
    Database_URL (Config_Database cfg) = [] /\ Listeners cfg = [l] /\ Name l = [] /\ Table (Trigger l) = [] /\
    Destination_URL (Destination_ (Delivery l)) = [].
Proof.
  assert (loads_as (λ c, match Listeners c with
              | [l] => Version c = 0 /\ Database_URL (Config_Database c) = [] /\ Name l = [] /\ Table (Trigger l) = [] /\
                       Destination_URL (Destination_ (Delivery l)) = []
              | _ => False end) (parse_of null_document)) as H by (vm_compute; split_and!; reflexivity).
  apply loads_as_inv in H as (c & E & H). destruct (Listeners c) as [|l [|]] eqn:El; try contradiction. exists c, l. tauto.
Qed.

(** Opening the source comes to whether the channel's name is within an identifier's length. *)
Lemma Open_channel Sanitize cfg listen :
  NUL ∉ Config_Instance cfg ->
  is_ok (Open Sanitize cfg listen) = true <-> (length (Config_Instance cfg) <= 48)%nat.
Proof.
  intros Hn. unfold Open, listenChannelName, Quoted, WhyUnusable, channel_name.
  rewrite bool_decide_eq_false_2 by (intros [Hb _]%app_eq_nil; discriminate).
  unfold contains_byte. rewrite bool_decide_eq_false_2; [|].
  - rewrite length_app. change (length (bs "pg_noty_events_")) with 15%nat. unfold MaxIdentifierBytes.
    destruct (Nat.ltb_spec 63 (15 + length (Config_Instance cfg))); cbn; split; (done || lia).
  - intros [Hb|Hb]%elem_of_app; [|done]. by apply (bool_decide_eq_true_2 _) in Hb.
Qed.

(** A text of [k] letters, as a schema's name. *)
Definition letters (k : nat) : string := String.string_of_list_ascii (repeat "a"%char k).

(** What a document answers: the configuration of a schema of [k] letters, under the schema's own name. *)
Definition loads_under (k : nat) (out : option outcome) : bool :=
  match out with
  | Some (Some c, [], []) => bool_decide (Schema (Config_Database c) = bs (letters k)) &&
      bool_decide (Config_Instance c = Schema (Config_Database c))
  | _ => false
  end.

Lemma loads_under_inv k out : loads_under k out = true ->
  exists c, out = Some (Some c, [], []) /\ Schema (Config_Database c) = bs (letters k) /\ Config_Instance c = Schema (Config_Database c).
Proof.
  destruct out as [[[[c|] [|]] [|]]|]; try discriminate. cbn [loads_under]. intros [Hs Hi]%andb_true_iff.
  exists c. split; [done|]. split; by eapply bool_decide_eq_true_1.
Qed.

Lemma long_schemas_load : forallb (λ k, loads_under k (parse_of (sample_document (letters k)))) (seq 49 15) = true.
Proof. vm_compute. reflexivity. Qed.

Lemma long_schema_loads k : (49 <= k <= 63)%nat -> loads_under k (parse_of (sample_document (letters k))) = true.
Proof. intros Hk. apply (proj1 (forallb_forall _ _) long_schemas_load). apply in_seq. lia. Qed.

(** C32. What loads can be listened to, unless its instance is a long schema name. Whatever the parser
    makes of whatever bytes, the source of a configuration that loads opens exactly when its instance
    has at most 48 bytes -- the channel's prefix takes 15 of an identifier's 63. It refuses to open for
    no other instance than one that is the schema's own name, of 49 to 63 bytes: a name written under
    the instance's own rule never has more than 41. And each such length does load: a document that
    writes no instance and a schema of 49 to 63 letters loads without an error or a warning, and its
    source refuses to open. *)
Theorem only_a_derived_instance_cannot_listen :
  (forall (Y : Yaml) described YAMLName IsMergeKey canBeAKey token_value quote to_lower IsLetter url_parse ParseDuration
     ParseBytes any_order (L : Letters IsLetter) (YL : YamlLaws described) data filename env cfg warnings errs Sanitize listen,
     Parse described YAMLName IsMergeKey canBeAKey token_value quote to_lower IsLetter url_parse ParseDuration ParseBytes
       any_order data filename env = Some (Some cfg, warnings, errs) ->
     (is_ok (Open Sanitize cfg listen) = true <-> (length (Config_Instance cfg) <= 48)%nat) /\
     (is_ok (Open Sanitize cfg listen) = false ->
        Config_Instance cfg = Schema (Config_Database cfg) /\ (49 <= length (Schema (Config_Database cfg)) <= 63)%nat /\
        nameRuleDefect (Config_Instance cfg) <> nameOK)) /\
  (forall k, (49 <= k <= 63)%nat ->
     exists cfg, parse_of (sample_document (letters k)) = Some (Some cfg, [], []) /\
       Schema (Config_Database cfg) = bs (letters k) /\ Config_Instance cfg = Schema (Config_Database cfg) /\
       forall Sanitize listen, is_ok (Open Sanitize cfg listen) = false).
Proof.
  split.
  - intros * L YL data filename env cfg warnings errs Sanitize listen Hp.
    destruct (parse_sound _ _ _ _ _ _ _ _ _ _ _ _ _ _ _ _ _ _ Hp) as [Hs _].
    pose proof (identifier_usable IsLetter _ (proj1 (sound_schema _ _ _ Hs))) as (_ & Hnul & Hlen)%WhyUnusable_ok.
    assert (NUL ∉ Config_Instance cfg) as Hn.
    { destruct (sound_instance _ _ _ Hs) as [->|(_ & ? & _)%name_rule_usable]; done. }
    pose proof (Open_channel Sanitize cfg listen Hn) as Ho. split; [done|]. intros Hno.
    assert (48 < length (Config_Instance cfg))%nat as Hlong.
    { destruct (Nat.le_gt_cases (length (Config_Instance cfg)) 48) as [Hle|]; [|done]. apply Ho in Hle. congruence. }
    assert (nameRuleDefect (Config_Instance cfg) <> nameOK) as Hrule
      by (intros (_ & _ & ?)%name_rule_usable; lia).
    destruct (sound_instance _ _ _ Hs) as [Hi|]; [|done]. rewrite <- Hi in Hlen |- *. unfold MaxIdentifierBytes in Hlen.
    split_and!; (done || lia).
  - intros k Hk.
    destruct (loads_under_inv _ _ (long_schema_loads k Hk)) as (c & E & Hs & Hi).
    exists c. split; [exact E|]. split; [exact Hs|]. split; [exact Hi|].
    intros Sanitize listen. apply not_true_is_false. rewrite Open_channel.
    + rewrite Hi, Hs. unfold letters, bs. rewrite String.list_ascii_of_string_of_list_ascii, repeat_length. lia.
    + rewrite Hi, Hs. unfold letters, bs. rewrite String.list_ascii_of_string_of_list_ascii.
      intros Hin%list_elem_of_In%repeat_spec. discriminate Hin.
Qed.

(** The shortest schema that cannot be listened to, and a configuration that can. *)
Lemma only_a_derived_instance_cannot_listen_witness :
  (exists cfg, parse_of (sample_document (letters 49)) = Some (Some cfg, [], []) /\
     is_ok (Open quote_plainly cfg true) = false) /\
  exists cfg, parse_of (sample_document "noty") = Some (Some cfg, [], []) /\ is_ok (Open quote_plainly cfg true) = true.
Proof.
  split.
  - destruct (proj2 only_a_derived_instance_cannot_listen 49%nat ltac:(lia)) as (cfg & E & _ & _ & Ho).
    exists cfg. split; [exact E|apply Ho].
  - destruct (loads_as_inv (λ c, Config_Instance c = bs "noty") (parse_of (sample_document "noty"))) as (cfg & E & Hi).
    { vm_compute. reflexivity. }
    exists cfg. split; [exact E|].
    apply (proj1 only_a_derived_instance_cannot_listen _ _ _ _ _ _ _ _ _ _ _ _ _ _ _ _ _ _ _ _ _ quote_plainly true E).
    rewrite Hi. by_compute.
Defined.
