(* ===== verification/Generate.v ===== *)
(** * The trigger generator: [internal/source/generate.go], [payload.go], [body.go],
    [statements.go], [whenclause.go], [operation.go], [payloadmode.go], [refusal.go], [target.go]
    and [objectset.go].

    [Sanitize] is the driver's identifier quoter, a parameter as in [Quote.v]. A fallible builder
    answers a [result] over the four refusals generation can expose. The section on reading says
    what PostgreSQL's lexer makes of the rendered text. *)

From S2P Require Import Prelude Utf8 Quote SqlLex Config.

(** ** target.go and objectset.go *)

Record Target := {
  Target_Schema : gostring;
  Target_Table : gostring;
  PrimaryKeyColumns : list gostring
}.

Record Request := {
  Instance : gostring;
  ServiceSchema : gostring;
  Request_Listener : Listener;
  Request_Target : Target
}.

Record ObjectSet := {
  Set_Operation : gostring;
  FunctionName : gostring;
  TriggerName : gostring;
  Marker : gostring;
  CreateFunction : gostring;
  RevokeExecute : gostring;
  CommentFunction : gostring;
  CreateTrigger : gostring;
  CommentTrigger : gostring
}.

(** ** refusal.go *)

(** The four refusal classes, with what each names. *)
Inductive generation_error :=
  | unusableIdentifier (field value : gostring) (reason : IdentifierFault)
  | missingPrimaryKey (listener : gostring)
  | unknownOperation (kind : gostring)
  | unknownPayloadMode (mode : gostring).

#[export] Instance generation_error_eq_dec : EqDecision generation_error.
Proof. solve_decision. Defined.

Definition generation_error_text (e : generation_error) : gostring :=
  match e with
  | unusableIdentifier field value reason =>
      bs "unusable " ++ field ++ bs " " ++ value ++ bs ": " ++ fault_text reason
  | missingPrimaryKey listener => bs "listener " ++ listener ++ bs " has no primary key for keys_only"
  | unknownOperation kind => bs "unknown operation " ++ kind ++ bs ": no trigger abbreviation"
  | unknownPayloadMode mode => bs "unknown payload mode " ++ mode ++ bs ": no payload expression"
  end.

(** An [error] alone: [nil] is [Ok tt]. *)
Abbreviation check := (result generation_error unit).

Definition identifierRefusal (field value : gostring) : check :=
  match WhyUnusable value with
  | IdentifierOK => Ok tt
  | reason => Err (unusableIdentifier field value reason)
  end.

(** A loop that returns the first refusal. *)
Fixpoint each {A} (f : A -> check) (items : list A) : check :=
  match items with
  | [] => Ok tt
  | x :: rest => (let! _ := f x in each f rest)%res
  end.

Definition validateTargetIdentifiers (target : Target) : check :=
  (let! _ := each (λ field, identifierRefusal (fst field) (snd field))
               [(bs "target schema", Target_Schema target); (bs "target table", Target_Table target)] in
   each (identifierRefusal (bs "primary key column")) (PrimaryKeyColumns target))%res.

Definition validateRequestIdentifiers (request : Request) : check :=
  (let! _ := each (λ field, identifierRefusal (fst field) (snd field))
               [(bs "service schema", ServiceSchema request);
                (bs "listener", Name (Request_Listener request))] in
   validateTargetIdentifiers (Request_Target request))%res.

(** ** operation.go and payloadmode.go *)

Definition operationAbbreviations : list (gostring * gostring) :=
  [(bs "insert", bs "ins"); (bs "update", bs "upd"); (bs "delete", bs "del")].

Definition operationAbbreviationFor (kind : gostring) : result generation_error gostring :=
  match list_find (λ entry, fst entry = kind) operationAbbreviations with
  | Some (_, entry) => Ok (snd entry)
  | None => Err (unknownOperation kind)
  end.

Definition payloadModes : list gostring := [bs "full"; bs "columns"; bs "keys_only"].

Definition payloadModeKnown (mode : gostring) : check :=
  if bool_decide (mode ∈ payloadModes) then Ok tt else Err (unknownPayloadMode mode).

(** ** generate.go: the whole input, before anything is rendered *)

Definition validateGenerationInput (request : Request) : check :=
  (let! _ := validateRequestIdentifiers request in
   let payload := Payload_ (Trigger (Request_Listener request)) in
   let! _ := payloadModeKnown (Mode payload) in
   let! _ := each (λ operation,
               let! _ := operationAbbreviationFor (Kind operation) in
               each (identifierRefusal (bs "update column")) (Columns operation))
             (Operations_ (Trigger (Request_Listener request))) in
   let! _ := each (identifierRefusal (bs "payload column")) (Payload_Columns payload ++ Exclude payload) in
   if bool_decide (Mode payload = bs "keys_only") &&
      (length (PrimaryKeyColumns (Request_Target request)) =? 0)%nat
   then Err (missingPrimaryKey (Name (Request_Listener request)))
   else Ok tt)%res.

Definition orderedOperations (operations : Operations) : list Operation :=
  operationAbbreviations ≫= λ known, filter (λ operation, Kind operation = fst known) operations.

Section Rendering.
Variable Sanitize : list gostring -> gostring.

(** A name the quoting authority renders, or the refusal that names the field. *)
Definition rendered (field value : gostring) (name : result IdentifierFault gostring) :
    result generation_error gostring :=
  match name with
  | Ok quoted => Ok quoted
  | Err reason => Err (unusableIdentifier field value reason)
  end.

(** ** payload.go *)

Record payloadExpressions := { new_ : gostring; old_ : gostring }.

Definition payloadKey (column : gostring) : result generation_error gostring :=
  (let! _ := identifierRefusal (bs "payload column") column in Ok (quoteLiteral column))%res.

Fixpoint excluding (expression : gostring) (exclude : list gostring) : result generation_error gostring :=
  match exclude with
  | [] => Ok expression
  | column :: rest =>
      (let! key := payloadKey column in excluding (expression ++ bs " - " ++ key) rest)%res
  end.

Definition fullPayloadExpression (exclude : list gostring) (row : gostring) : result generation_error gostring :=
  excluding (bs "to_jsonb(" ++ row ++ bs ")") exclude.

Fixpoint object_parts (columns : list gostring) (row : gostring) : result generation_error (list gostring) :=
  match columns with
  | [] => Ok []
  | column :: rest =>
      (let! quoted := rendered (bs "payload column") column (Quoted Sanitize column) in
       let! parts := object_parts rest row in
       Ok (quoteLiteral column :: (row ++ bs "." ++ quoted) :: parts))%res
  end.

Definition objectPayloadExpression (columns : list gostring) (row : gostring) : result generation_error gostring :=
  (let! parts := object_parts columns row in
   Ok (bs "jsonb_build_object(" ++ join (bs ", ") parts ++ bs ")"))%res.

Definition rowPayloadExpression (payload : Payload) (target : Target) (listener row : gostring) :
    result generation_error gostring :=
  if bool_decide (Mode payload = bs "full") then fullPayloadExpression (Exclude payload) row
  else if bool_decide (Mode payload = bs "columns") then objectPayloadExpression (Payload_Columns payload) row
  else if bool_decide (Mode payload = bs "keys_only") then
    if (length (PrimaryKeyColumns target) =? 0)%nat then Err (missingPrimaryKey listener)
    else objectPayloadExpression (PrimaryKeyColumns target) row
  else Err (unknownPayloadMode (Mode payload)).

Definition oldPayloadExpression (operation : gostring) (payload : Payload) (target : Target)
    (listener : gostring) : result generation_error gostring :=
  if bool_decide (operation = bs "insert") then Ok (bs "NULL::jsonb")
  else if bool_decide (operation = bs "delete") then rowPayloadExpression payload target listener (bs "OLD")
  else if bool_decide (operation = bs "update") then
    if negb (IncludeOld payload) then Ok (bs "NULL::jsonb")
    else rowPayloadExpression payload target listener (bs "OLD")
  else Ok (bs "NULL::jsonb").

Definition payloadExpressionsFor (operation : gostring) (listener : Listener) (target : Target) :
    result generation_error payloadExpressions :=
  (let! _ := operationAbbreviationFor operation in
   let! _ := payloadModeKnown (Mode (Payload_ (Trigger listener))) in
   let! newExpression := rowPayloadExpression (Payload_ (Trigger listener)) target (Name listener) (bs "NEW") in
   let newExpression := if bool_decide (operation = bs "delete") then bs "NULL::jsonb" else newExpression in
   let! oldExpression := oldPayloadExpression operation (Payload_ (Trigger listener)) target (Name listener) in
   Ok {| new_ := newExpression; old_ := oldExpression |})%res.
(** ** body.go *)

Definition serviceTable (serviceSchema table : gostring) : result generation_error gostring :=
  rendered (bs "service schema") serviceSchema (Qualified Sanitize serviceSchema table).

Definition triggerBody (request : Request) (operation : Operation) : result generation_error gostring :=
  (let! events := serviceTable (ServiceSchema request) TableEvents in
   let! queue := serviceTable (ServiceSchema request) TableEventQueue in
   let! target := rendered (bs "target") (Target_Table (Request_Target request))
     (Qualified Sanitize (Target_Schema (Request_Target request)) (Target_Table (Request_Target request))) in
   let! payload := payloadExpressionsFor (Kind operation) (Request_Listener request) (Request_Target request) in
   let listener := quoteLiteral (Name (Request_Listener request)) in
   let storedTable := quoteLiteral target in
   let operationName := quoteLiteral (Kind operation) in
   let channel := quoteLiteral (bs "pg_noty_events_" ++ Instance request) in
   let guard := bs "  IF coalesce(current_setting(" ++ quoteLiteral (bs "pg_noty.n") ++ bs ", true), " ++
     quoteLiteral [] ++ bs ") = " ++ quoteLiteral [] ++ bs " THEN" in
   Ok (join newline
     [bs "BEGIN"; bs "  WITH e AS (";
      bs "    INSERT INTO " ++ events ++ bs " (listener, table_name, operation, payload, txid, occurred_at)";
      bs "    VALUES (" ++ listener ++ bs ", " ++ storedTable ++ bs ", " ++ operationName ++ bs ",";
      bs "            jsonb_build_object(" ++ quoteLiteral (bs "old") ++ bs ", " ++ old_ payload ++ bs ", " ++
        quoteLiteral (bs "new") ++ bs ", " ++ new_ payload ++ bs "),";
      bs "            pg_current_xact_id(), clock_timestamp())"; bs "    RETURNING id, occurred_at"; bs "  )";
      bs "  INSERT INTO " ++ queue;
      bs "         (event_id, occurred_at, listener, status, attempts, next_attempt_at)";
      bs "  SELECT e.id, e.occurred_at, " ++ listener ++ bs ", " ++ quoteLiteral (bs "pending") ++
        bs ", 0, e.occurred_at FROM e;";
      [];
      guard; bs "    PERFORM pg_notify(" ++ channel ++ bs ", " ++ quoteLiteral [] ++ bs ");";
      bs "    PERFORM set_config(" ++ quoteLiteral (bs "pg_noty.n") ++ bs ", " ++ quoteLiteral (bs "1") ++
        bs ", true);";
      bs "  END IF;"; bs "  RETURN NULL;"; bs "END"]))%res.

(** ** whenclause.go *)

Fixpoint distinct_columns (columns : list gostring) :
    result generation_error (list gostring * list gostring) :=
  match columns with
  | [] => Ok ([], [])
  | column :: rest =>
      (let! quoted := rendered (bs "update column") column (Quoted Sanitize column) in
       let! (olds, news) := distinct_columns rest in
       Ok ((bs "OLD." ++ quoted) :: olds, (bs "NEW." ++ quoted) :: news))%res
  end.

Definition distinctCondition (operation : Operation) : result generation_error gostring :=
  if negb (bool_decide (Kind operation = bs "update")) || negb (IsDistinct operation) then Ok []
  else if (length (Columns operation) =? 0)%nat then
    Ok (bs "pg_catalog.to_jsonb(OLD) IS DISTINCT FROM pg_catalog.to_jsonb(NEW)")
  else
    (let! (oldColumns, newColumns) := distinct_columns (Columns operation) in
     Ok (bs "pg_catalog.to_jsonb(ROW(" ++ join (bs ", ") oldColumns ++ bs ")) IS DISTINCT FROM " ++
         bs "pg_catalog.to_jsonb(ROW(" ++ join (bs ", ") newColumns ++ bs "))"))%res.

Definition whenClause (operation : Operation) : result generation_error gostring :=
  (let! distinct := distinctCondition operation in
   let given := negb (bool_decide (When operation = [])) in
   if negb (bool_decide (distinct = [])) && given
   then Ok (bs " WHEN ((" ++ distinct ++ bs ") AND (" ++ When operation ++ bs "))")
   else if negb (bool_decide (distinct = [])) then Ok (bs " WHEN (" ++ distinct ++ bs ")")
   else if negb given then Ok []
   else Ok (bs " WHEN (" ++ When operation ++ bs ")"))%res.

(** ** statements.go *)

Record triggerStatements := {
  createFunction : gostring;
  revokeExecute : gostring;
  commentFunction : gostring;
  createTrigger : gostring;
  commentTrigger : gostring
}.

Fixpoint quoted_columns (columns : list gostring) : result generation_error (list gostring) :=
  match columns with
  | [] => Ok []
  | column :: rest =>
      (let! name := rendered (bs "update column") column (Quoted Sanitize column) in
       let! names := quoted_columns rest in Ok (name :: names))%res
  end.

Definition updateColumns (operation : Operation) : result generation_error gostring :=
  if negb (bool_decide (Kind operation = bs "update")) || IsDistinct operation ||
     (length (Columns operation) =? 0)%nat
  then Ok []
  else (let! quoted := quoted_columns (Columns operation) in Ok (bs " OF " ++ join (bs ", ") quoted))%res.

(** [strings.ToUpper] on the ASCII spelling of an operation. *)
Definition to_upper (c : ascii) : ascii :=
  if ((97 <=? code c) && (code c <=? 122))%Z then byte_of (code c - 32) else c.

(** The search for a tag always ends ([dollarQuoteTag_total]); [default] is never taken. *)
Definition statementsFor (request : Request) (operation : Operation) (functionName : gostring) :
    result generation_error triggerStatements :=
  (let! _ := validateRequestIdentifiers request in
   let! _ := operationAbbreviationFor (Kind operation) in
   let! _ := identifierRefusal (bs "function") functionName in
   let! function := rendered (bs "function") functionName
     (Qualified Sanitize (ServiceSchema request) functionName) in
   let! target := rendered (bs "target") (Target_Table (Request_Target request))
     (Qualified Sanitize (Target_Schema (Request_Target request)) (Target_Table (Request_Target request))) in
   let! body := triggerBody request operation in
   let tag := default [] (dollarQuoteTag body) in
   let markerText := quoteLiteral
     (marker (Instance request) (Name (Request_Listener request)) (Kind operation)) in
   let! trigger := rendered (bs "trigger") functionName (Quoted Sanitize functionName) in
   let! columns := updateColumns operation in
   let! when := whenClause operation in
   Ok {| createFunction :=
           bs "CREATE OR REPLACE FUNCTION " ++ function ++ bs "() RETURNS trigger" ++ newline ++
           bs "  LANGUAGE plpgsql" ++ newline ++ bs "  SECURITY DEFINER" ++ newline ++
           bs "  SET search_path = pg_catalog, pg_temp" ++ newline ++
           bs "AS " ++ dollar_delimiter tag ++ newline ++ body ++ newline ++ dollar_delimiter tag ++ bs ";";
         revokeExecute := bs "REVOKE EXECUTE ON FUNCTION " ++ function ++ bs "() FROM PUBLIC;";
         commentFunction := bs "COMMENT ON FUNCTION " ++ function ++ bs "() IS " ++ markerText ++ bs ";";
         createTrigger :=
           bs "CREATE TRIGGER " ++ trigger ++ bs " AFTER " ++ map to_upper (Kind operation) ++ columns ++
           bs " ON " ++ target ++ bs " FOR EACH ROW" ++ when ++ bs " EXECUTE FUNCTION " ++ function ++ bs "();";
         commentTrigger :=
           bs "COMMENT ON TRIGGER " ++ trigger ++ bs " ON " ++ target ++ bs " IS " ++ markerText ++ bs ";" |})%res.

(** ** generate.go *)

Definition object_set (request : Request) (operation : Operation) : result generation_error ObjectSet :=
  (let abbreviation := match operationAbbreviationFor (Kind operation) with Ok a => a | Err _ => [] end in
   let functionName := ObjectName (bs "pg_noty_" ++ Name (Request_Listener request)) abbreviation in
   let! statements := statementsFor request operation functionName in
   Ok {| Set_Operation := Kind operation; FunctionName := functionName; TriggerName := functionName;
         Marker := marker (Instance request) (Name (Request_Listener request)) (Kind operation);
         CreateFunction := createFunction statements; RevokeExecute := revokeExecute statements;
         CommentFunction := commentFunction statements; CreateTrigger := createTrigger statements;
         CommentTrigger := commentTrigger statements |})%res.

Fixpoint object_sets (request : Request) (operations : Operations) : result generation_error (list ObjectSet) :=
  match operations with
  | [] => Ok []
  | operation :: rest =>
      (let! set_ := object_set request operation in
       let! sets := object_sets request rest in Ok (set_ :: sets))%res
  end.

Definition Generate (request : Request) : result generation_error (list ObjectSet) :=
  (let! _ := validateGenerationInput request in
   object_sets request (orderedOperations (Operations_ (Trigger (Request_Listener request)))))%res.
End Rendering.

(** ** What a request must be *)

Definition usable (name : gostring) : Prop := WhyUnusable name = IdentifierOK.

Definition known_kinds : list gostring := fst <$> operationAbbreviations.

Record valid_request (r : Request) : Prop := {
  usable_service : usable (ServiceSchema r);
  usable_listener : usable (Name (Request_Listener r));
  usable_schema : usable (Target_Schema (Request_Target r));
  usable_table : usable (Target_Table (Request_Target r));
  usable_keys : Forall usable (PrimaryKeyColumns (Request_Target r));
  known_mode : Mode (Payload_ (Trigger (Request_Listener r))) ∈ payloadModes;
  known_operations : Forall (λ o, Kind o ∈ known_kinds /\ Forall usable (Columns o))
                       (Operations_ (Trigger (Request_Listener r)));
  usable_payload : Forall usable (Payload_Columns (Payload_ (Trigger (Request_Listener r))) ++
                                  Exclude (Payload_ (Trigger (Request_Listener r))));
  keyed : Mode (Payload_ (Trigger (Request_Listener r))) = bs "keys_only" ->
          PrimaryKeyColumns (Request_Target r) <> []
}.

(** Every name a request holds, under the field a refusal would blame. *)
Definition named_fields (r : Request) : list (gostring * gostring) :=
  [(bs "service schema", ServiceSchema r); (bs "listener", Name (Request_Listener r));
   (bs "target schema", Target_Schema (Request_Target r));
   (bs "target table", Target_Table (Request_Target r))] ++
  map (pair (bs "primary key column")) (PrimaryKeyColumns (Request_Target r)) ++
  map (pair (bs "update column")) (Operations_ (Trigger (Request_Listener r)) ≫= Columns) ++
  map (pair (bs "payload column")) (Payload_Columns (Payload_ (Trigger (Request_Listener r))) ++
                                    Exclude (Payload_ (Trigger (Request_Listener r)))).

(** A refusal names something that is wrong with the request. *)
Definition at_fault (r : Request) (e : generation_error) : Prop :=
  match e with
  | unusableIdentifier field value reason =>
      (field, value) ∈ named_fields r /\ WhyUnusable value = reason /\ reason <> IdentifierOK
  | missingPrimaryKey listener =>
      listener = Name (Request_Listener r) /\
      Mode (Payload_ (Trigger (Request_Listener r))) = bs "keys_only" /\
      PrimaryKeyColumns (Request_Target r) = []
  | unknownOperation kind =>
      kind ∈ map Kind (Operations_ (Trigger (Request_Listener r))) /\ kind ∉ known_kinds
  | unknownPayloadMode mode =>
      mode = Mode (Payload_ (Trigger (Request_Listener r))) /\ mode ∉ payloadModes
  end.

(** ** Validation *)

Lemma each_Ok {A} (f : A -> check) l : each f l = Ok tt <-> Forall (λ x, f x = Ok tt) l.
Proof.
  induction l as [|x l IH]; simpl; [done|]. rewrite Forall_cons. destruct (f x) as [[]|]; simpl; naive_solver.
Qed.

Lemma each_Err {A} (f : A -> check) l e : each f l = Err e -> exists x, x ∈ l /\ f x = Err e.
Proof.
  induction l as [|x l IH]; simpl; [done|]. intros [H|([] & _ & H)]%rbind_Err; [set_solver|].
  apply IH in H. set_solver.
Qed.

Lemma identifierRefusal_Ok field value : identifierRefusal field value = Ok tt <-> usable value.
Proof. unfold identifierRefusal, usable. destruct (WhyUnusable value); naive_solver. Qed.

Lemma identifierRefusal_Err field value e :
  identifierRefusal field value = Err e ->
  e = unusableIdentifier field value (WhyUnusable value) /\ WhyUnusable value <> IdentifierOK.
Proof. unfold identifierRefusal. destruct (WhyUnusable value); naive_solver. Qed.

Lemma operationAbbreviationFor_Ok kind :
  is_ok (operationAbbreviationFor kind) = true <-> kind ∈ known_kinds.
Proof.
  unfold operationAbbreviationFor, known_kinds. destruct (list_find _ _) as [[i [k a]]|] eqn:H; cbn [is_ok].
  - apply list_find_Some in H as (Hl & Hk & _). split; [|done]. intros _. apply list_elem_of_lookup_2 in Hl.
    apply (list_elem_of_fmap_2' fst _ _ _ Hl). by symmetry.
  - apply list_find_None in H. rewrite Forall_forall in H. split; [done|].
    intros ([k a] & -> & Hin)%(list_elem_of_fmap_1 fst). by destruct (H _ Hin).
Qed.

Lemma operationAbbreviationFor_Err kind e :
  operationAbbreviationFor kind = Err e -> e = unknownOperation kind /\ kind ∉ known_kinds.
Proof.
  intros H. split; [|rewrite <- operationAbbreviationFor_Ok, H; done].
  unfold operationAbbreviationFor in H. by destruct (list_find _ _) as [[]|]; naive_solver.
Qed.

Lemma operationAbbreviationFor_known kind :
  kind ∈ known_kinds -> exists a, operationAbbreviationFor kind = Ok a.
Proof. rewrite <- operationAbbreviationFor_Ok. destruct (operationAbbreviationFor kind); naive_solver. Qed.

Lemma payloadModeKnown_Ok mode : payloadModeKnown mode = Ok tt <-> mode ∈ payloadModes.
Proof. unfold payloadModeKnown. case_bool_decide; naive_solver. Qed.

Lemma rbind_tt {E B} (m : result E unit) (k : result E B) b :
  (let! _ := m in k)%res = Ok b <-> m = Ok tt /\ k = Ok b.
Proof. destruct m as [[]|]; naive_solver. Qed.

Lemma operation_check o :
  (let! _ := operationAbbreviationFor (Kind o) in each (identifierRefusal (bs "update column")) (Columns o))%res
  = Ok tt <-> Kind o ∈ known_kinds /\ Forall usable (Columns o).
Proof.
  rewrite <- operationAbbreviationFor_Ok. destruct (operationAbbreviationFor (Kind o)); simpl; [|naive_solver].
  rewrite each_Ok. setoid_rewrite identifierRefusal_Ok. naive_solver.
Qed.

Lemma validateRequestIdentifiers_Ok r :
  validateRequestIdentifiers r = Ok tt <->
  usable (ServiceSchema r) /\ usable (Name (Request_Listener r)) /\
  usable (Target_Schema (Request_Target r)) /\ usable (Target_Table (Request_Target r)) /\
  Forall usable (PrimaryKeyColumns (Request_Target r)).
Proof.
  unfold validateRequestIdentifiers, validateTargetIdentifiers. rewrite !rbind_tt, !each_Ok.
  rewrite !Forall_cons, !Forall_nil. setoid_rewrite identifierRefusal_Ok. simpl. naive_solver.
Qed.

Lemma validateGenerationInput_Ok r : validateGenerationInput r = Ok tt <-> valid_request r.
Proof.
  unfold validateGenerationInput.
  rewrite !rbind_tt, validateRequestIdentifiers_Ok, payloadModeKnown_Ok, !each_Ok.
  setoid_rewrite identifierRefusal_Ok. setoid_rewrite operation_check.
  set (k := PrimaryKeyColumns _). set (m := Mode _).
  assert ((if bool_decide (m = bs "keys_only") && (length k =? 0)%nat
           then Err (missingPrimaryKey (Name (Request_Listener r))) else Ok tt) = Ok tt <->
          (m = bs "keys_only" -> k <> [])) as ->.
  { case_bool_decide; destruct k; simpl; naive_solver. }
  split; [by intros (? & ? & ? & ? & ?); constructor; naive_solver|].
  intros []. naive_solver.
Qed.

Lemma validateGenerationInput_Err r e : validateGenerationInput r = Err e -> at_fault r e.
Proof.
  assert (Hid : forall f v, (f, v) ∈ named_fields r -> identifierRefusal f v = Err e -> at_fault r e).
  { intros f v Hf [-> Hn]%identifierRefusal_Err. done. }
  unfold validateGenerationInput, validateRequestIdentifiers, validateTargetIdentifiers.
  intros [H|(_ & _ & [H|(_ & _ & [H|(_ & _ & [H|(_ & _ & H)]%rbind_Err)]%rbind_Err)]%rbind_Err)]%rbind_Err.
  - apply rbind_Err in H as [H|(_ & _ & [H|(_ & _ & H)]%rbind_Err)];
      apply each_Err in H as (x & Hx & H); (eapply Hid; [|exact H]); unfold named_fields;
      [set_solver..|]. apply elem_of_app. right. apply elem_of_app. left.
    apply list_elem_of_fmap. eauto.
  - unfold payloadModeKnown in H. case_bool_decide; [done|]. by injection H as <-.
  - apply each_Err in H as (o & Ho & [H|(_ & _ & H)]%rbind_Err).
    + apply operationAbbreviationFor_Err in H as [-> Hk]. split; [|done]. apply list_elem_of_fmap. eauto.
    + apply each_Err in H as (c & Hc & H). eapply Hid; [|exact H]. unfold named_fields.
      do 2 (apply elem_of_app; right). apply elem_of_app. left. apply list_elem_of_fmap.
      eexists. split; [done|]. apply list_elem_of_bind. eauto.
  - apply each_Err in H as (c & Hc & H). eapply Hid; [|exact H]. unfold named_fields.
    do 3 (apply elem_of_app; right). apply list_elem_of_fmap. eauto.
  - case_match eqn:E; [|done]. injection H as <-. bool_to_prop. simpl. split_and!; [done..|].
    by apply nil_length_inv.
Qed.

(** ** Rendered text as pieces

    What the builders write, piece by piece: text of the template, a quoted name, a quoted pair or
    a literal. *)

Inductive piece :=
  | Fixed (text : gostring)
  | Quoted_name (name : gostring)
  | Quoted_pair (schema name : gostring)
  | Value (value : gostring).

Fixpoint comma_joined (parts : list (list piece)) : list piece :=
  match parts with
  | [] => []
  | [p] => p
  | p :: rest => p ++ Fixed (bs ", ") :: comma_joined rest
  end.

Definition row_text (old : bool) : gostring := if old then bs "OLD" else bs "NEW".

Definition object_pieces (columns : list gostring) (old : bool) : list piece :=
  Fixed (bs "jsonb_build_object(") ::
  comma_joined (columns ≫= λ c, [[Value c]; [Fixed (row_text old ++ bs "."); Quoted_name c]]) ++ [Fixed (bs ")")].

Definition row_pieces (payload : Payload) (target : Target) (old : bool) : list piece :=
  if bool_decide (Mode payload = bs "full") then
    Fixed (bs "to_jsonb(" ++ row_text old ++ bs ")") ::
    (Exclude payload ≫= λ c, [Fixed (bs " - "); Value c])
  else object_pieces (if bool_decide (Mode payload = bs "columns") then Payload_Columns payload
                      else PrimaryKeyColumns target) old.

Definition new_pieces (request : Request) (operation : Operation) : list piece :=
  if bool_decide (Kind operation = bs "delete") then [Fixed (bs "NULL::jsonb")]
  else row_pieces (Payload_ (Trigger (Request_Listener request))) (Request_Target request) false.

(** The old row: what a delete ships, what an update ships when asked to, nothing for an insert. *)
Definition old_pieces (request : Request) (operation : Operation) : list piece :=
  if bool_decide (Kind operation = bs "delete") ||
     (bool_decide (Kind operation = bs "update") &&
      IncludeOld (Payload_ (Trigger (Request_Listener request))))
  then row_pieces (Payload_ (Trigger (Request_Listener request))) (Request_Target request) true
  else [Fixed (bs "NULL::jsonb")].

Section Pieces.
Variable Sanitize : list gostring -> gostring.

Definition render_piece (p : piece) : gostring :=
  match p with
  | Fixed text => text
  | Quoted_name name => sanitized Sanitize [name]
  | Quoted_pair schema name => sanitized Sanitize [schema; name]
  | Value value => quoteLiteral value
  end.

Definition render (ps : list piece) : gostring := ps ≫= render_piece.

(** The body, less its last line. *)
Definition body_pieces (request : Request) (operation : Operation) : list piece :=
  let listener := Name (Request_Listener request) in
  let target := Request_Target request in
  [Fixed (bs "BEGIN" ++ newline ++ bs "  WITH e AS (" ++ newline ++ bs "    INSERT INTO ");
   Quoted_pair (ServiceSchema request) TableEvents;
   Fixed (bs " (listener, table_name, operation, payload, txid, occurred_at)" ++ newline ++ bs "    VALUES (");
   Value listener; Fixed (bs ", ");
   Value (sanitized Sanitize [Target_Schema target; Target_Table target]); Fixed (bs ", ");
   Value (Kind operation);
   Fixed (bs "," ++ newline ++ bs "            jsonb_build_object("); Value (bs "old"); Fixed (bs ", ")] ++
  old_pieces request operation ++
  [Fixed (bs ", "); Value (bs "new"); Fixed (bs ", ")] ++
  new_pieces request operation ++
  [Fixed (bs ")," ++ newline ++ bs "            pg_current_xact_id(), clock_timestamp())" ++ newline ++
          bs "    RETURNING id, occurred_at" ++ newline ++ bs "  )" ++ newline ++ bs "  INSERT INTO ");
   Quoted_pair (ServiceSchema request) TableEventQueue;
   Fixed (newline ++ bs "         (event_id, occurred_at, listener, status, attempts, next_attempt_at)" ++
          newline ++ bs "  SELECT e.id, e.occurred_at, ");
   Value listener; Fixed (bs ", "); Value (bs "pending");
   Fixed (bs ", 0, e.occurred_at FROM e;" ++ newline ++ newline ++ bs "  IF coalesce(current_setting(");
   Value (bs "pg_noty.n"); Fixed (bs ", true), "); Value []; Fixed (bs ") = "); Value [];
   Fixed (bs " THEN" ++ newline ++ bs "    PERFORM pg_notify(");
   Value (bs "pg_noty_events_" ++ Instance request); Fixed (bs ", "); Value [];
   Fixed (bs ");" ++ newline ++ bs "    PERFORM set_config("); Value (bs "pg_noty.n"); Fixed (bs ", ");
   Value (bs "1")].

Definition body_end : gostring :=
  bs ", true);" ++ newline ++ bs "  END IF;" ++ newline ++ bs "  RETURN NULL;" ++ newline ++ bs "END".

Definition body_text (request : Request) (operation : Operation) : gostring :=
  render (body_pieces request operation) ++ body_end.

Lemma render_app l k : render (l ++ k) = render l ++ render k.
Proof. apply bind_app. Qed.

Lemma render_cons p k : render (p :: k) = render_piece p ++ render k.
Proof. done. Qed.

Lemma render_comma_joined parts : render (comma_joined parts) = join (bs ", ") (map render parts).
Proof.
  induction parts as [|p [|q rest] IH]; [done..|].
  change (comma_joined (p :: q :: rest)) with (p ++ Fixed (bs ", ") :: comma_joined (q :: rest)).
  by rewrite render_app, render_cons, IH.
Qed.

Lemma rendered_Quoted field name : usable name -> rendered field name (Quoted Sanitize name) = Ok (sanitized Sanitize [name]).
Proof. unfold usable, Quoted. by intros ->. Qed.

Lemma rendered_Qualified field value schema name :
  usable schema -> usable name ->
  rendered field value (Qualified Sanitize schema name) = Ok (sanitized Sanitize [schema; name]).
Proof. unfold usable, Qualified. by intros -> ->. Qed.

Lemma excluding_ok exclude e :
  Forall usable exclude ->
  excluding e exclude = Ok (e ++ render (exclude ≫= λ c, [Fixed (bs " - "); Value c])).
Proof.
  intros H. revert e. induction H as [|c rest Hc _ IH]; intros e; [by rewrite app_nil_r|]. simpl.
  unfold payloadKey. rewrite (proj2 (identifierRefusal_Ok _ c)) by done. simpl. rewrite IH.
  unfold render. simpl. by rewrite <- !app_assoc.
Qed.

Lemma object_parts_ok columns old :
  Forall usable columns ->
  object_parts Sanitize columns (row_text old) =
  Ok (map render (columns ≫= λ c, [[Value c]; [Fixed (row_text old ++ bs "."); Quoted_name c]])).
Proof.
  induction 1 as [|c rest Hc _ IH]; [done|]. simpl. rewrite rendered_Quoted by done. simpl. rewrite IH. simpl.
  unfold render. simpl. rewrite !app_nil_r, <- !app_assoc. done.
Qed.

Lemma objectPayloadExpression_ok columns old :
  Forall usable columns ->
  objectPayloadExpression Sanitize columns (row_text old) = Ok (render (object_pieces columns old)).
Proof.
  intros H. unfold objectPayloadExpression, object_pieces. rewrite object_parts_ok by done. cbn [rbind].
  rewrite render_cons, render_app, render_comma_joined. done.
Qed.

Lemma rowPayloadExpression_ok r old :
  valid_request r ->
  rowPayloadExpression Sanitize (Payload_ (Trigger (Request_Listener r))) (Request_Target r)
    (Name (Request_Listener r)) (row_text old)
  = Ok (render (row_pieces (Payload_ (Trigger (Request_Listener r))) (Request_Target r) old)).
Proof.
  intros []. apply Forall_app in usable_payload0 as [Hc He].
  unfold rowPayloadExpression, row_pieces. set (payload := Payload_ _) in *.
  case_bool_decide as Hf.
  { unfold fullPayloadExpression. rewrite excluding_ok by done. by rewrite render_cons. }
  case_bool_decide as Hm; [by apply objectPayloadExpression_ok|].
  unfold payloadModes in known_mode0. rewrite bool_decide_eq_true_2 by set_solver.
  destruct (Nat.eqb_spec (length (PrimaryKeyColumns (Request_Target r))) 0) as [E|_].
  - apply nil_length_inv in E. destruct keyed0; [set_solver|done].
  - by apply objectPayloadExpression_ok.
Qed.

Lemma payloadExpressionsFor_ok r o :
  valid_request r -> Kind o ∈ known_kinds ->
  payloadExpressionsFor Sanitize (Kind o) (Request_Listener r) (Request_Target r) =
  Ok {| new_ := render (new_pieces r o); old_ := render (old_pieces r o) |}.
Proof.
  intros Hv Hk. destruct (operationAbbreviationFor_known _ Hk) as [a Ha]. unfold payloadExpressionsFor.
  rewrite Ha. cbn [rbind]. rewrite (proj2 (payloadModeKnown_Ok _) (known_mode _ Hv)). cbn [rbind].
  change (bs "NEW") with (row_text false). rewrite rowPayloadExpression_ok by done. cbn [rbind].
  assert (oldPayloadExpression Sanitize (Kind o) (Payload_ (Trigger (Request_Listener r)))
            (Request_Target r) (Name (Request_Listener r)) = Ok (render (old_pieces r o))) as ->.
  { unfold oldPayloadExpression, old_pieces. change (bs "OLD") with (row_text true).
    rewrite rowPayloadExpression_ok by done.
    destruct (decide (Kind o = bs "insert")) as [->|]; [done|].
    rewrite (bool_decide_eq_false_2 (Kind o = bs "insert")) by done.
    case_bool_decide; [done|]. case_bool_decide; [|done]. cbn [orb andb]. by destruct (IncludeOld _). }
  cbn [rbind]. unfold new_pieces. by case_bool_decide.
Qed.

Lemma triggerBody_ok r o :
  valid_request r -> Kind o ∈ known_kinds -> triggerBody Sanitize r o = Ok (body_text r o).
Proof.
  intros Hv Hk. unfold triggerBody, serviceTable. pose proof Hv as [].
  rewrite !rendered_Qualified by (done || by_compute). cbn [rbind].
  rewrite payloadExpressionsFor_ok by done. cbn [rbind new_ old_]. unfold body_text, body_pieces.
  rewrite !render_app. generalize (render (old_pieces r o)) (render (new_pieces r o)). intros old new.
  unfold render, body_end. cbn [mbind list_bind render_piece join].
  rewrite !app_nil_r, <- !app_assoc. reflexivity.
Qed.
(** *** The statements *)

Definition distinct_pieces (operation : Operation) : list piece :=
  match Columns operation with
  | [] => [Fixed (bs "pg_catalog.to_jsonb(OLD) IS DISTINCT FROM pg_catalog.to_jsonb(NEW)")]
  | columns =>
      Fixed (bs "pg_catalog.to_jsonb(ROW(") ::
      comma_joined (map (λ c, [Fixed (bs "OLD."); Quoted_name c]) columns) ++
      Fixed (bs ")) IS DISTINCT FROM pg_catalog.to_jsonb(ROW(") ::
      comma_joined (map (λ c, [Fixed (bs "NEW."); Quoted_name c]) columns) ++ [Fixed (bs "))")]
  end.

(** An update that compares values, and the columns an update names otherwise. *)
Definition distinguishing (operation : Operation) : bool :=
  bool_decide (Kind operation = bs "update") && IsDistinct operation.

Definition column_pieces (operation : Operation) : list piece :=
  if bool_decide (Kind operation = bs "update") && negb (IsDistinct operation) &&
     negb (length (Columns operation) =? 0)%nat
  then Fixed (bs " OF ") :: comma_joined (map (λ c, [Quoted_name c]) (Columns operation))
  else [].

(** The condition, around the author's own text. *)
Definition when_pieces (operation : Operation) (raw : list piece) : list piece :=
  if distinguishing operation then
    if bool_decide (When operation = []) then Fixed (bs " WHEN (") :: distinct_pieces operation ++ [Fixed (bs ")")]
    else Fixed (bs " WHEN ((") :: distinct_pieces operation ++ Fixed (bs ") AND (") :: raw ++ [Fixed (bs "))")]
  else if bool_decide (When operation = []) then []
  else Fixed (bs " WHEN (") :: raw ++ [Fixed (bs ")")].

Definition trigger_pieces (request : Request) (operation : Operation) (name : gostring) (raw : list piece) :
    list piece :=
  let target := Request_Target request in
  [Fixed (bs "CREATE TRIGGER "); Quoted_name name;
   Fixed (bs " AFTER " ++ map to_upper (Kind operation))] ++ column_pieces operation ++
  [Fixed (bs " ON "); Quoted_pair (Target_Schema target) (Target_Table target); Fixed (bs " FOR EACH ROW")] ++
  when_pieces operation raw ++
  [Fixed (bs " EXECUTE FUNCTION "); Quoted_pair (ServiceSchema request) name; Fixed (bs "();")].

Definition revoke_pieces (request : Request) (name : gostring) : list piece :=
  [Fixed (bs "REVOKE EXECUTE ON FUNCTION "); Quoted_pair (ServiceSchema request) name;
   Fixed (bs "() FROM PUBLIC;")].

Definition comment_function_pieces (request : Request) (name text : gostring) : list piece :=
  [Fixed (bs "COMMENT ON FUNCTION "); Quoted_pair (ServiceSchema request) name; Fixed (bs "() IS ");
   Value text; Fixed (bs ";")].

Definition comment_trigger_pieces (request : Request) (name text : gostring) : list piece :=
  [Fixed (bs "COMMENT ON TRIGGER "); Quoted_name name; Fixed (bs " ON ");
   Quoted_pair (Target_Schema (Request_Target request)) (Target_Table (Request_Target request));
   Fixed (bs " IS "); Value text; Fixed (bs ";")].

(** The function DDL up to the opening delimiter of its body. *)
Definition function_pieces (request : Request) (name : gostring) : list piece :=
  [Fixed (bs "CREATE OR REPLACE FUNCTION "); Quoted_pair (ServiceSchema request) name;
   Fixed (bs "() RETURNS trigger" ++ newline ++ bs "  LANGUAGE plpgsql" ++ newline ++
          bs "  SECURITY DEFINER" ++ newline ++ bs "  SET search_path = pg_catalog, pg_temp" ++ newline ++ bs "AS ")].

Definition statements_of (request : Request) (operation : Operation) (name : gostring) : triggerStatements :=
  let body := body_text request operation in
  let delimiter := dollar_delimiter (default [] (dollarQuoteTag body)) in
  let text := marker (Instance request) (Name (Request_Listener request)) (Kind operation) in
  {| createFunction := render (function_pieces request name) ++ delimiter ++ newline ++ body ++ newline ++
                       delimiter ++ bs ";";
     revokeExecute := render (revoke_pieces request name);
     commentFunction := render (comment_function_pieces request name text);
     createTrigger := render (trigger_pieces request operation name [Fixed (When operation)]);
     commentTrigger := render (comment_trigger_pieces request name text) |}.

Lemma quoted_columns_ok columns :
  Forall usable columns -> quoted_columns Sanitize columns = Ok (map (λ c, sanitized Sanitize [c]) columns).
Proof. induction 1 as [|c rest Hc _ IH]; [done|]. simpl. by rewrite rendered_Quoted, IH. Qed.

Lemma distinct_columns_ok columns :
  Forall usable columns ->
  distinct_columns Sanitize columns =
  Ok (map (λ c, bs "OLD." ++ sanitized Sanitize [c]) columns,
      map (λ c, bs "NEW." ++ sanitized Sanitize [c]) columns).
Proof. induction 1 as [|c rest Hc _ IH]; [done|]. cbn [distinct_columns]. by rewrite rendered_Quoted, IH. Qed.

Lemma render_row_names prefix columns :
  render (comma_joined (map (λ c, [Fixed prefix; Quoted_name c]) columns)) =
  join (bs ", ") (map (λ c, prefix ++ sanitized Sanitize [c]) columns).
Proof.
  rewrite render_comma_joined. f_equal. rewrite map_map. apply map_ext. intros c. unfold render. simpl.
  by rewrite app_nil_r.
Qed.

Lemma render_names columns :
  render (comma_joined (map (λ c, [Quoted_name c]) columns)) =
  join (bs ", ") (map (λ c, sanitized Sanitize [c]) columns).
Proof. rewrite render_comma_joined. f_equal. rewrite map_map. apply map_ext. intros c. apply app_nil_r. Qed.

Lemma updateColumns_ok o :
  Forall usable (Columns o) -> updateColumns Sanitize o = Ok (render (column_pieces o)).
Proof.
  intros Hc. unfold updateColumns, column_pieces. rewrite quoted_columns_ok by done.
  destruct (bool_decide _), (IsDistinct o), (length (Columns o) =? 0)%nat; try done.
  cbn [negb orb andb rbind]. by rewrite render_cons, render_names.
Qed.

Lemma distinctCondition_ok o :
  Forall usable (Columns o) ->
  distinctCondition Sanitize o = Ok (if distinguishing o then render (distinct_pieces o) else []).
Proof.
  intros Hc. unfold distinctCondition, distinguishing, distinct_pieces.
  destruct (bool_decide _), (IsDistinct o); try done. cbn [negb orb andb].
  rewrite distinct_columns_ok by done. destruct (Columns o) as [|c rest] eqn:E.
  { unfold render. cbn [mbind list_bind render_piece]. by rewrite app_nil_r. }
  rewrite render_cons, render_app, render_cons, render_app, !render_row_names. done.
Qed.

Lemma distinct_nonempty o : render (distinct_pieces o) <> [].
Proof. unfold distinct_pieces. by destruct (Columns o). Qed.

Lemma whenClause_ok o :
  Forall usable (Columns o) -> whenClause Sanitize o = Ok (render (when_pieces o [Fixed (When o)])).
Proof.
  intros Hc. unfold whenClause, when_pieces. rewrite distinctCondition_ok by done. cbn [rbind].
  destruct (distinguishing o).
  - rewrite (bool_decide_eq_false_2 (render _ = [])) by apply distinct_nonempty. cbn [negb andb].
    case_bool_decide; cbn [negb]; f_equal; rewrite render_cons, render_app; [done|].
    rewrite render_cons. done.
  - rewrite bool_decide_eq_true_2 by done. cbn [negb andb]. case_bool_decide; [done|]. cbn [negb]. f_equal.
Qed.

Lemma statementsFor_ok r o name :
  valid_request r -> Kind o ∈ known_kinds -> Forall usable (Columns o) -> usable name ->
  statementsFor Sanitize r o name = Ok (statements_of r o name).
Proof.
  intros Hv Hk Hc Hn. pose proof Hv as []. unfold statementsFor.
  rewrite (proj2 (validateRequestIdentifiers_Ok r)) by done. cbn [rbind].
  destruct (operationAbbreviationFor_known _ Hk) as [a ->]. cbn [rbind].
  rewrite (proj2 (identifierRefusal_Ok _ name)) by done. cbn [rbind].
  rewrite !rendered_Qualified, rendered_Quoted, triggerBody_ok by done. cbn [rbind].
  rewrite updateColumns_ok, whenClause_ok by done. cbn [rbind]. unfold statements_of.
  f_equal. f_equal.
  - generalize (body_text r o) (dollar_delimiter (default [] (dollarQuoteTag (body_text r o)))). intros b d.
    unfold render, function_pieces. cbn [mbind list_bind render_piece]. rewrite !app_nil_r, <- !app_assoc. done.
  - unfold trigger_pieces. rewrite !render_app. generalize (render (column_pieces o)).
    generalize (render (when_pieces o [Fixed (When o)])). intros w c.
    unfold render. cbn [mbind list_bind render_piece]. rewrite !app_nil_r, <- !app_assoc. done.
Qed.
End Pieces.

(** ** What is generated *)

Definition abbreviation_of (operation : Operation) : gostring :=
  match operationAbbreviationFor (Kind operation) with Ok a => a | Err _ => [] end.

Definition function_name (request : Request) (operation : Operation) : gostring :=
  ObjectName (bs "pg_noty_" ++ Name (Request_Listener request)) (abbreviation_of operation).

Definition set_of (Sanitize : list gostring -> gostring) (request : Request) (operation : Operation) : ObjectSet :=
  let name := function_name request operation in
  let statements := statements_of Sanitize request operation name in
  {| Set_Operation := Kind operation; FunctionName := name; TriggerName := name;
     Marker := marker (Instance request) (Name (Request_Listener request)) (Kind operation);
     CreateFunction := createFunction statements; RevokeExecute := revokeExecute statements;
     CommentFunction := commentFunction statements; CreateTrigger := createTrigger statements;
     CommentTrigger := commentTrigger statements |}.

Lemma abbreviation_bytes o : Forall (λ c, is_word c = true /\ c <> NUL) (abbreviation_of o).
Proof.
  unfold abbreviation_of, operationAbbreviationFor.
  destruct (list_find _ _) as [[i [k a]]|] eqn:H; [|constructor].
  apply list_find_Some in H as (H & _). cbn [snd]. unfold operationAbbreviations in H.
  destruct i as [|[|[|]]]; simpl in H; simplify_eq; repeat constructor; by_compute.
Qed.

Lemma NUL_not_word : is_word NUL = false.
Proof. reflexivity. Qed.

Lemma function_name_usable r o : usable (Name (Request_Listener r)) -> usable (function_name r o).
Proof.
  intros (_ & Hz & _)%WhyUnusable_ok. unfold usable, function_name. apply WhyUnusable_ok.
  set (base := bs "pg_noty_" ++ _). set (full := base ++ bs "_" ++ abbreviation_of o).
  assert (Hfull : NUL ∉ full).
  { unfold full, base. rewrite !not_elem_of_app. split_and!; [by_compute|done|by_compute|].
    intros Hin. pose proof (abbreviation_bytes o) as Hall. rewrite Forall_forall in Hall.
    by destruct (Hall _ Hin). }
  pose proof (ObjectName_length base (abbreviation_of o)) as Hlen.
  destruct (Nat.le_gt_cases (length full) MaxIdentifierBytes) as [Hle|Hgt].
  - rewrite ObjectName_full in * by done. split_and!; [|done..]. by intros [E _]%app_eq_nil.
  - rewrite ObjectName_long in * by done. fold full in Hlen |- *. split_and!; [|..|done].
    + intros E. apply app_eq_nil in E as [_ E]. discriminate E.
    + rewrite !not_elem_of_app. split_and!; [|by_compute|].
      * intros Hin. apply Hfull. rewrite <- (take_drop (runeBoundaryAtOrBefore full 54) full).
        apply elem_of_app. by left.
      * intros Hin. pose proof (hex_padded_bytes identifierHashHexDigits _ (proj1 (fnv32a_range full))) as Hall.
        rewrite Forall_forall in Hall. by specialize (Hall _ Hin).
Qed.

Lemma orderedOperations_elem o ops : o ∈ orderedOperations ops <-> o ∈ ops /\ Kind o ∈ known_kinds.
Proof.
  unfold orderedOperations, known_kinds. rewrite list_elem_of_bind. setoid_rewrite list_elem_of_fmap.
  setoid_rewrite list_elem_of_filter. naive_solver.
Qed.

Lemma Generate_ok Sanitize r :
  valid_request r ->
  Generate Sanitize r =
  Ok (map (set_of Sanitize r) (orderedOperations (Operations_ (Trigger (Request_Listener r))))).
Proof.
  intros Hv. unfold Generate. rewrite (proj2 (validateGenerationInput_Ok r) Hv). cbn [rbind].
  assert (Hall : Forall (λ o, Kind o ∈ known_kinds /\ Forall usable (Columns o))
    (orderedOperations (Operations_ (Trigger (Request_Listener r))))).
  { pose proof (known_operations _ Hv) as H. rewrite Forall_forall in H |- *.
    intros o Ho%orderedOperations_elem. apply H, Ho. }
  induction Hall as [|o rest [Hk Hc] _ IH]; [done|]. cbn [object_sets]. unfold object_set.
  fold (abbreviation_of o). fold (function_name r o).
  rewrite statementsFor_ok by (done || apply function_name_usable, Hv). cbn [rbind].
  rewrite IH. done.
Qed.

(** Generation refuses for a reason, refuses before it renders anything, and never refuses late:
    whatever the quoting authority does, it fails exactly when the validation of its whole input
    does, every refusal names something that is wrong with the request -- an unusable name under its
    field, an operation or a payload mode outside the closed vocabularies, a missing primary key --
    and a request with nothing wrong always yields its objects. *)
Theorem Generate_refuses Sanitize r :
  (forall e, Generate Sanitize r = Err e <-> validateGenerationInput r = Err e) /\
  (forall e, Generate Sanitize r = Err e -> at_fault r e) /\
  (is_ok (Generate Sanitize r) = true <-> valid_request r) /\
  (forall e, at_fault r e -> ~ valid_request r).
Proof.
  assert (Hok : validateGenerationInput r = Ok tt -> is_ok (Generate Sanitize r) = true).
  { intros Hv%validateGenerationInput_Ok. by rewrite Generate_ok. }
  assert (Herr : forall e, Generate Sanitize r = Err e <-> validateGenerationInput r = Err e).
  { intros e. destruct (validateGenerationInput r) as [[]|e'] eqn:E.
    - specialize (Hok eq_refl). destruct (Generate Sanitize r); naive_solver.
    - unfold Generate. rewrite E. simpl. naive_solver. }
  split_and!; [done| | |].
  - intros e H%Herr. by apply validateGenerationInput_Err.
  - rewrite <- validateGenerationInput_Ok. split; [|done].
    destruct (validateGenerationInput r) as [[]|e] eqn:E; [done|]. by rewrite (proj2 (Herr e)).
  - intros [field value reason|listener|kind|mode] Hf [].
    + destruct Hf as (Hin & <- & Hn). apply Hn. fold (usable value). unfold named_fields in Hin.
      rewrite Forall_forall in usable_keys0, usable_payload0. rewrite Forall_forall in known_operations0.
      rewrite !elem_of_app in Hin. destruct Hin as [Hin|[Hin|[Hin|Hin]]].
      * set_solver.
      * apply list_elem_of_fmap in Hin as (? & [= _ ->] & ?). auto.
      * apply list_elem_of_fmap in Hin as (? & [= _ ->] & (o & Hc & Ho)%list_elem_of_bind).
        destruct (known_operations0 o Ho) as [_ Hall]. rewrite Forall_forall in Hall. auto.
      * apply list_elem_of_fmap in Hin as (? & [= _ ->] & ?). auto.
    + destruct Hf as (_ & Hm & Hk). by apply keyed0.
    + destruct Hf as [(o & -> & Ho)%list_elem_of_fmap Hk]. rewrite Forall_forall in known_operations0.
      by destruct (known_operations0 o Ho).
    + by destruct Hf as [-> Hm].
Qed.

(** ** What PostgreSQL reads *)

Definition piece_tokens (p : piece) : list token :=
  match p with
  | Fixed text => default [] (lex text)
  | Quoted_name name => [Name_token name]
  | Quoted_pair schema name => [Name_token schema; Symbol "."; Name_token name]
  | Value value => [Constant value]
  end.

Definition tokens (ps : list piece) : list token := ps ≫= piece_tokens.

Definition starts_fixed (ps : list piece) : bool :=
  match ps with [] | Fixed _ :: _ => true | _ => false end.

(** Text that ends in a word is followed by text that does not extend it. *)
Definition separated (ps : list piece) : bool :=
  match ps with Fixed text :: _ => negb (bool_decide (text = [])) && separates text | _ => false end.

(** Every name and value is followed by text of the template. *)
Fixpoint woven (ps : list piece) : bool :=
  match ps with
  | [] => true
  | Fixed text :: rest => template text && (ends_token text || separated rest) && woven rest
  | _ :: rest => starts_fixed rest && woven rest
  end.

(** The names a piece quotes hold no NUL, as the quoting authority asks. *)
Definition quotable (p : piece) : Prop :=
  match p with
  | Quoted_name name => NUL ∉ name
  | Quoted_pair schema name => NUL ∉ schema /\ NUL ∉ name
  | _ => True
  end.

Lemma woven_cons_inv p rest : woven (p :: rest) = true -> woven rest = true.
Proof. destruct p; simpl; intros H; bool_to_prop; done. Qed.

Lemma woven_app l k : woven l = true -> woven k = true -> starts_fixed k = true -> woven (l ++ k) = true.
Proof.
  intros Hl Hk Hs. induction l as [|p l IH]; [done|]. pose proof (woven_cons_inv _ _ Hl) as Hl'.
  specialize (IH Hl'). destruct l as [|q l].
  - destruct p; cbn [app woven starts_fixed separated] in *; rewrite Hk, ?Hs; try done.
    by rewrite andb_true_r, orb_false_r in Hl; destruct (template text); [destruct (ends_token text)|].
  - cbn [app]. cbn [app] in IH. destruct p; cbn [woven] in Hl |- *; change (woven (q :: l ++ k)) with (woven (q :: l ++ k)) in IH;
      apply andb_true_iff in Hl as [Hl _]; apply andb_true_iff; (split; [|exact IH]); by destruct q.
Qed.

Lemma tokens_app l k : tokens (l ++ k) = tokens l ++ tokens k.
Proof. apply bind_app. Qed.

Lemma template_lex text : template text = true -> exists ts, lex text = Some ts /\ plain text = true.
Proof. unfold template. intros H. bool_to_prop. destruct H0 as [ts Hts]. eauto. Qed.

Lemma template_follows text rest : template text = true -> follows (text ++ rest).
Proof.
  unfold template, follows. intros H. bool_to_prop.
  match goal with H : plain text = true |- _ => revert H end.
  match goal with H : skip_blank text <> [] |- _ => revert H end. clear. induction text as [|c text IH]; [done|].
  cbn [skip_blank app]. destruct (is_blank c); intros Hn Hp; pose proof (plain_cons _ _ Hp) as (? & ? & _ & ?).
  - by apply IH.
  - cbn [quote_next]. by rewrite !bool_decide_eq_false_2.
Qed.

Section Reading.
Variable Sanitize : list gostring -> gostring.
Hypothesis Sanitize_quotes : forall parts,
  Forall (λ p, NUL ∉ p) parts -> Sanitize parts = join ["."%char] (map spelled parts).

Lemma render_follows ps rest : woven ps = true -> starts_fixed ps = true -> follows rest -> follows (render Sanitize ps ++ rest).
Proof.
  destruct ps as [|[text| | |] ps]; intros Hw Hs Hf; try done. cbn [woven] in Hw. bool_to_prop.
  rewrite render_cons, <- app_assoc. by apply template_follows.
Qed.

Lemma reads_pieces ps rest ts :
  woven ps = true -> Forall quotable ps -> follows rest -> reads rest ts ->
  reads (render Sanitize ps ++ rest) (tokens ps ++ ts).
Proof.
  intros Hw Hq Hf H. induction Hq as [|p ps Hp _ IH]; [done|].
  specialize (IH (woven_cons_inv _ _ Hw)). change (tokens (p :: ps)) with (piece_tokens p ++ tokens ps).
  rewrite render_cons, <- !app_assoc.
  destruct p as [text|name|schema name|value]; cbn [woven] in Hw; apply andb_true_iff in Hw as [Hw Hw'];
    cbn [render_piece piece_tokens].
  - apply andb_true_iff in Hw as [Ht Hj]. destruct (template_lex _ Ht) as (us & E & Hpl). rewrite E.
    cbn [default from_option id]. apply reads_app; [done| |by apply lex_reads|by apply IH].
    unfold joins. apply orb_true_iff in Hj as [->|Hj]; [done|]. apply orb_true_iff. right.
    destruct ps as [|[next| | |] ps]; try done. cbn [separated] in Hj. bool_to_prop.
    rewrite render_cons. by destruct next.
  - unfold sanitized. rewrite Sanitize_quotes by (by repeat constructor). cbn [map join].
    by apply reads_name, IH; apply follows_dquote, render_follows.
  - destruct Hp. unfold sanitized. rewrite Sanitize_quotes by (by repeat constructor).
    change (join ["."%char] (map spelled [schema; name])) with (spelled_pair schema name).
    by apply reads_pair, IH; apply follows_dquote, render_follows.
  - by apply reads_literal, IH; apply render_follows.
Qed.
End Reading.

(** *** The pieces are woven *)

Lemma woven_comma_joined parts : Forall (λ p, woven p = true) parts -> woven (comma_joined parts) = true.
Proof.
  induction 1 as [|p [|q rest] Hp _ IH]; [done..|].
  change (comma_joined (p :: q :: rest)) with (p ++ Fixed (bs ", ") :: comma_joined (q :: rest)).
  apply woven_app; [done| |done]. cbn [woven]. rewrite IH. reflexivity.
Qed.

Lemma quotable_comma_joined parts : Forall (Forall quotable) parts -> Forall quotable (comma_joined parts).
Proof.
  induction 1 as [|p [|q rest] Hp _ IH]; [done..|].
  change (comma_joined (p :: q :: rest)) with (p ++ Fixed (bs ", ") :: comma_joined (q :: rest)).
  apply Forall_app. split; [done|]. by constructor.
Qed.

Lemma usable_NUL name : usable name -> NUL ∉ name.
Proof. by intros (_ & ? & _)%WhyUnusable_ok. Qed.

(** A list of pieces ready to be read. *)
Definition legible (ps : list piece) : Prop := woven ps = true /\ Forall quotable ps.

Lemma legible_nil : legible [].
Proof. by split. Qed.

Lemma legible_app l k : legible l -> legible k -> starts_fixed k = true -> legible (l ++ k).
Proof. intros [] [] Hs. split; [by apply woven_app|]. by apply Forall_app. Qed.

Lemma legible_fixed text ps :
  template text && (ends_token text || separated ps) = true -> legible ps -> legible (Fixed text :: ps).
Proof. intros Ht []. split; [cbn [woven]; by rewrite Ht|]. by constructor. Qed.

Lemma legible_comma_joined parts : Forall legible parts -> legible (comma_joined parts).
Proof.
  intros H. split; [apply woven_comma_joined|apply quotable_comma_joined];
    (eapply Forall_impl; [exact H|by intros ? []]).
Qed.

Lemma row_template old ps : template (row_text old ++ bs ".") && (ends_token (row_text old ++ bs ".") || separated ps) = true /\
  template (bs "to_jsonb(" ++ row_text old ++ bs ")") &&
  (ends_token (bs "to_jsonb(" ++ row_text old ++ bs ")") || separated ps) = true.
Proof. by destruct old. Qed.

Lemma legible_object columns old : Forall usable columns -> legible (object_pieces columns old).
Proof.
  intros H. unfold object_pieces. apply legible_fixed; [reflexivity|]. apply legible_app; [|by repeat constructor|done].
  apply legible_comma_joined. induction H as [|c rest Hc _ IH]; [constructor|]. simpl.
  constructor; [by repeat constructor|]. constructor; [|done]. apply legible_fixed; [apply row_template|].
  split; [done|]. constructor; [by apply usable_NUL|constructor].
Qed.

Lemma legible_row r old : valid_request r ->
  legible (row_pieces (Payload_ (Trigger (Request_Listener r))) (Request_Target r) old) /\
  starts_fixed (row_pieces (Payload_ (Trigger (Request_Listener r))) (Request_Target r) old) = true.
Proof.
  intros []. apply Forall_app in usable_payload0 as [Hc He]. unfold row_pieces. case_bool_decide.
  - split; [|done]. apply legible_fixed; [apply row_template|].
    clear -He. induction He as [|c rest Hc _ IH]; [by repeat constructor|]. cbn [mbind list_bind].
    apply legible_app; [|exact IH|by destruct rest]. split; [reflexivity|by repeat constructor].
  - split; [|done]. apply legible_object. by case_bool_decide.
Qed.

Lemma legible_payload r ps k :
  valid_request r -> legible k -> separated k = true ->
  (exists old, ps = row_pieces (Payload_ (Trigger (Request_Listener r))) (Request_Target r) old) \/
  ps = [Fixed (bs "NULL::jsonb")] -> legible (ps ++ k) /\ starts_fixed (ps ++ k) = true.
Proof.
  intros Hv Hk Hs [[old ->]| ->].
  - destruct (legible_row r old Hv) as [Hl Hf]. split.
    + apply legible_app; [done..|]. by destruct k as [|[]].
    + by destruct (row_pieces _ _ old) as [|[]]; [by destruct k as [|[]]|..].
  - split; [|done]. apply legible_fixed; [|done]. by rewrite Hs.
Qed.

Lemma legible_body Sanitize r o : valid_request r -> legible (body_pieces Sanitize r o).
Proof.
  intros Hv. pose proof (usable_NUL _ (usable_service _ Hv)) as Hs.
  assert (Hold : (exists old, old_pieces r o = row_pieces (Payload_ (Trigger (Request_Listener r))) (Request_Target r) old) \/
    old_pieces r o = [Fixed (bs "NULL::jsonb")]) by (unfold old_pieces; case_match; eauto).
  assert (Hnew : (exists old, new_pieces r o = row_pieces (Payload_ (Trigger (Request_Listener r))) (Request_Target r) old) \/
    new_pieces r o = [Fixed (bs "NULL::jsonb")]) by (unfold new_pieces; case_match; eauto).
  unfold body_pieces.
  assert (forall ps k, legible ps -> legible k /\ starts_fixed k = true -> legible (ps ++ k)) as Happ.
  { intros ps k Hps []. by apply legible_app. }
  apply Happ; [split; [vm_compute; reflexivity|repeat constructor; done || by_compute]|].
  apply (legible_payload r); [done| |done|done].
  apply Happ; [split; [vm_compute; reflexivity|by repeat constructor]|].
  apply (legible_payload r); [done| |done|done].
  split; [vm_compute; reflexivity|repeat constructor; done || by_compute].
Qed.

Lemma legible_names prefix columns k :
  Forall usable columns -> columns <> [] -> (forall ps, template prefix && (ends_token prefix || separated ps) = true) ->
  legible k -> starts_fixed k = true ->
  legible (comma_joined (map (λ c, [Fixed prefix; Quoted_name c]) columns) ++ k) /\
  starts_fixed (comma_joined (map (λ c, [Fixed prefix; Quoted_name c]) columns) ++ k) = true.
Proof.
  intros Hc Hn Hp Hk Hs. split; [|by destruct columns as [|? []]]. apply legible_app; [|done..].
  apply legible_comma_joined. rewrite Forall_map. eapply Forall_impl; [exact Hc|]. intros c Hu.
  apply legible_fixed; [done|]. split; [done|]. constructor; [by apply usable_NUL|constructor].
Qed.

Lemma legible_columns o k :
  Forall usable (Columns o) -> legible k -> starts_fixed k = true -> separated k = true ->
  legible (column_pieces o ++ k) /\ separated (column_pieces o ++ k) = true.
Proof.
  intros Hc Hk Hf Hs. unfold column_pieces. case_match; [|done]. split; [|done]. cbn [app].
  apply legible_fixed; [done|]. apply legible_app; [|done..]. apply legible_comma_joined. rewrite Forall_map.
  eapply Forall_impl; [exact Hc|]. intros c Hu. split; [done|]. constructor; [by apply usable_NUL|constructor].
Qed.

Lemma legible_distinct o k :
  Forall usable (Columns o) -> legible k -> starts_fixed k = true ->
  legible (distinct_pieces o ++ k) /\ starts_fixed (distinct_pieces o ++ k) = true.
Proof.
  intros Hc Hk Hs. unfold distinct_pieces. destruct (Columns o) as [|c rest].
  - split; [|done]. by apply legible_fixed.
  - split; [|done]. cbn [app]. apply legible_fixed; [done|]. rewrite <- app_assoc.
    apply legible_names; try done. cbn [app]. apply legible_fixed; [done|]. rewrite <- app_assoc.
    apply legible_names; try done. by apply legible_fixed.
Qed.

(** What stands before and after the author's own condition in the trigger's statement. *)
Definition trigger_before (request : Request) (operation : Operation) (name : gostring) : list piece :=
  let target := Request_Target request in
  [Fixed (bs "CREATE TRIGGER "); Quoted_name name;
   Fixed (bs " AFTER " ++ map to_upper (Kind operation))] ++ column_pieces operation ++
  [Fixed (bs " ON "); Quoted_pair (Target_Schema target) (Target_Table target); Fixed (bs " FOR EACH ROW")] ++
  (if distinguishing operation
   then Fixed (bs " WHEN ((") :: distinct_pieces operation ++ [Fixed (bs ") AND (")]
   else [Fixed (bs " WHEN (")]).

Definition trigger_after (request : Request) (operation : Operation) (name : gostring) : list piece :=
  (if distinguishing operation then [Fixed (bs "))")] else [Fixed (bs ")")]) ++
  [Fixed (bs " EXECUTE FUNCTION "); Quoted_pair (ServiceSchema request) name; Fixed (bs "();")].

Lemma kind_template o ps : Kind o ∈ known_kinds -> separated ps = true ->
  template (bs " AFTER " ++ map to_upper (Kind o)) &&
  (ends_token (bs " AFTER " ++ map to_upper (Kind o)) || separated ps) = true.
Proof.
  intros Hk ->. rewrite orb_true_r, andb_true_r. revert Hk. generalize (Kind o). intros k Hk.
  unfold known_kinds in Hk. cbn [fmap list_fmap operationAbbreviations fst] in Hk.
  rewrite !elem_of_cons in Hk. destruct Hk as [->|[->|[->|Hk]]]; [vm_compute; reflexivity..|]. by apply not_elem_of_nil in Hk.
Qed.

Lemma legible_trigger r o name k :
  valid_request r -> Kind o ∈ known_kinds -> Forall usable (Columns o) -> usable name ->
  legible k -> separated k = true ->
  legible ([Fixed (bs "CREATE TRIGGER "); Quoted_name name;
            Fixed (bs " AFTER " ++ map to_upper (Kind o))] ++ column_pieces o ++
           [Fixed (bs " ON "); Quoted_pair (Target_Schema (Request_Target r)) (Target_Table (Request_Target r));
            Fixed (bs " FOR EACH ROW")] ++ k).
Proof.
  intros Hv Hk Hc Hn Hl Hs. pose proof (usable_NUL _ (usable_schema _ Hv)). pose proof (usable_NUL _ (usable_table _ Hv)).
  assert (Htail : legible ([Fixed (bs " ON "); Quoted_pair (Target_Schema (Request_Target r)) (Target_Table (Request_Target r));
            Fixed (bs " FOR EACH ROW")] ++ k)).
  { destruct Hl as [Hw Hq]. split; [|by repeat constructor].
    cbn [app woven starts_fixed]. rewrite Hw, Hs. reflexivity. }
  destruct (legible_columns o _ Hc Htail eq_refl eq_refl) as [Hl' Hs'].
  apply (legible_app [Fixed (bs "CREATE TRIGGER "); Quoted_name name]); [|by apply legible_fixed; [apply kind_template|]|done].
  split; [reflexivity|]. constructor; [done|]. constructor; [by apply usable_NUL|constructor].
Qed.

Lemma legible_trigger_before r o name :
  valid_request r -> Kind o ∈ known_kinds -> Forall usable (Columns o) -> usable name ->
  legible (trigger_before r o name).
Proof.
  intros Hv Hk Hc Hn. apply legible_trigger; try done; destruct (distinguishing o); try done.
  - apply legible_fixed; [done|]. apply legible_distinct; [done| |done]. apply legible_fixed; [done|apply legible_nil].
  - apply legible_fixed; [done|apply legible_nil].
Qed.

Lemma legible_after r o name : valid_request r -> usable name -> legible (trigger_after r o name).
Proof.
  intros Hv Hn%usable_NUL. pose proof (usable_NUL _ (usable_service _ Hv)). unfold trigger_after.
  destruct (distinguishing o); (split; [reflexivity|by repeat constructor]).
Qed.

Lemma legible_unconditional r o name :
  valid_request r -> Kind o ∈ known_kinds -> Forall usable (Columns o) -> usable name -> When o = [] ->
  legible (trigger_pieces r o name []).
Proof.
  intros Hv Hk Hc Hn Hw. pose proof (usable_NUL _ Hn). pose proof (usable_NUL _ (usable_service _ Hv)).
  assert (Hend : legible [Fixed (bs " EXECUTE FUNCTION "); Quoted_pair (ServiceSchema r) name; Fixed (bs "();")])
    by (split; [reflexivity|by repeat constructor]).
  unfold trigger_pieces, when_pieces. rewrite Hw. rewrite bool_decide_eq_true_2 by done.
  apply legible_trigger; try done; destruct (distinguishing o); try done.
  cbn [app]. apply legible_fixed; [done|]. rewrite <- app_assoc. apply legible_distinct; [done| |done].
  by apply legible_fixed.
Qed.

(** Texts that read as their pieces say. *)
Definition reads_as (text : gostring) (ts : list token) : Prop := lex text = Some ts.

Section Statements.
Variable Sanitize : list gostring -> gostring.
Hypothesis Sanitize_quotes : forall parts,
  Forall (λ p, NUL ∉ p) parts -> Sanitize parts = join ["."%char] (map spelled parts).

Lemma lex_pieces ps : legible ps -> lex (render Sanitize ps) = Some (tokens ps).
Proof.
  intros [Hw Hq]. apply reads_lex. rewrite <- (app_nil_r (render _ ps)), <- (app_nil_r (tokens ps)).
  apply reads_pieces; try done. constructor.
Qed.

Lemma lex_body r o : valid_request r ->
  lex (body_text Sanitize r o) = Some (tokens (body_pieces Sanitize r o) ++ default [] (lex body_end)).
Proof.
  intros Hv. destruct (legible_body Sanitize r o Hv). apply reads_lex. unfold body_text.
  apply reads_pieces; try done. by apply lex_reads.
Qed.

Lemma lex_function r o name : valid_request r -> usable name ->
  lex (createFunction (statements_of Sanitize r o name)) =
  Some (tokens (function_pieces r name) ++
        [Dollar (newline ++ body_text Sanitize r o ++ newline); Symbol ";"]).
Proof.
  intros Hv Hn%usable_NUL. pose proof (usable_NUL _ (usable_service _ Hv)). apply reads_lex.
  unfold statements_of. cbn [createFunction]. apply reads_pieces; [done|reflexivity|by repeat constructor|done|].
  apply reads_dollar, lex_reads. reflexivity.
Qed.

Lemma createTrigger_unconditional r o name : When o = [] ->
  createTrigger (statements_of Sanitize r o name) = render Sanitize (trigger_pieces r o name []).
Proof.
  intros Hw. unfold statements_of, trigger_pieces, when_pieces. cbn [createTrigger]. rewrite Hw.
  by rewrite bool_decide_eq_true_2.
Qed.

Lemma createTrigger_conditional r o name : When o <> [] ->
  createTrigger (statements_of Sanitize r o name) =
  render Sanitize (trigger_before r o name) ++ When o ++ render Sanitize (trigger_after r o name).
Proof.
  intros Hw. unfold statements_of. cbn [createTrigger].
  assert (trigger_pieces r o name [Fixed (When o)] = trigger_before r o name ++ Fixed (When o) :: trigger_after r o name) as ->.
  { unfold trigger_pieces, when_pieces, trigger_before, trigger_after.
    rewrite (bool_decide_eq_false_2 (When o = [])) by done.
    destruct (distinguishing o); repeat (progress cbn [app] || rewrite <- app_assoc); done. }
  by rewrite render_app, render_cons.
Qed.
End Statements.

(** ** The properties *)

Lemma orderedOperations_perm ops :
  Forall (λ o, Kind o ∈ known_kinds) ops -> orderedOperations ops ≡ₚ ops.
Proof.
  unfold orderedOperations, known_kinds, operationAbbreviations. cbn [fmap list_fmap fst].
  cbn [mbind list_bind]. rewrite app_nil_r. induction 1 as [|o ops Hk _ IH]; [done|].
  rewrite !filter_cons. rewrite !elem_of_cons in Hk.
  destruct Hk as [->|[->|[->|Hk]]]; [| | |by apply not_elem_of_nil in Hk]; cbn [fst];
    repeat (case_decide as E; [try discriminate E|try (by destruct E)]; clear E).
  - by constructor.
  - cbn [app]. rewrite <- Permutation_middle. by constructor.
  - rewrite app_assoc, <- Permutation_middle, <- app_assoc. by constructor.
Qed.

Lemma Generate_sets Sanitize r sets :
  Generate Sanitize r = Ok sets ->
  valid_request r /\ sets = map (set_of Sanitize r) (orderedOperations (Operations_ (Trigger (Request_Listener r)))).
Proof.
  intros H. assert (Hv : valid_request r).
  { apply validateGenerationInput_Ok. unfold Generate in H. by apply rbind_Ok in H as ([] & H & _). }
  split; [done|]. rewrite Generate_ok in H by done. by injection H.
Qed.

(** What one generated set answers for. *)
Record set_serves (r : Request) (o : Operation) (s : ObjectSet) : Prop := {
  serves_operation : Set_Operation s = Kind o;
  serves_name : FunctionName s = TriggerName s /\ usable (FunctionName s);
  serves_marker : marker_field (Instance r) -> marker_field (Name (Request_Listener r)) ->
    parseCatalogMarker (Some (Marker s)) =
    Some {| Instance_ := Instance r; Listener_ := Name (Request_Listener r); Operation_ := Kind o |}
}.

(** Generation yields one object set per configured operation, and in an order the configuration
    does not choose: inserts first, then updates, then deletes, whatever the order written. Each
    set's function and trigger share a name the server keeps whole, and its marker reads back to the
    instance, the listener and that operation. *)
Theorem Generate_objects Sanitize r sets :
  Generate Sanitize r = Ok sets ->
  let operations := Operations_ (Trigger (Request_Listener r)) in
  exists ordered, ordered ≡ₚ operations /\ Forall2 (set_serves r) ordered sets /\
    map Kind ordered = concat (map (λ k, filter (λ k', k' = k) (map Kind operations)) known_kinds).
Proof.
  intros [Hv ->]%Generate_sets operations. pose proof (known_operations _ Hv) as Hk. fold operations in Hk.
  exists (orderedOperations operations). split_and!.
  - apply orderedOperations_perm. eapply Forall_impl; [exact Hk|by intros ? []].
  - apply Forall2_fmap_r, Forall_Forall2_diag, Forall_forall. intros o [Ho Hko]%orderedOperations_elem.
    constructor; [done|split; [done|]|].
    + apply function_name_usable, Hv.
    + intros Hi Hl. apply parseCatalogMarker_iff. split_and!; try done.
      split; [|]; revert Hko; generalize (Kind o); clear; intros k Hk; unfold known_kinds in Hk;
        cbn [fmap list_fmap operationAbbreviations fst] in Hk; rewrite !elem_of_cons in Hk;
        destruct Hk as [->|[->|[->|Hk]]]; try by_compute; by apply not_elem_of_nil in Hk.
  - unfold orderedOperations, known_kinds.
    generalize operationAbbreviations. intros l. induction l as [|[k a] l IH]; [done|].
    cbn [mbind list_bind map fmap list_fmap concat fst]. rewrite map_app, IH. f_equal.
    clear. induction operations as [|o ops IH]; [done|]. cbn [map]. rewrite !filter_cons.
    destruct (decide (Kind o = k)); cbn [map]; by rewrite IH.
Qed.

(** C15. Nothing configured escapes its place in the generated SQL: as PostgreSQL reads them, the
    trigger body, the function's definition, the grant's revocation and both comments are token for
    token their templates, every configured or catalogued value -- listener, table, column, channel,
    schema, marker -- lying inside exactly one quoted name or one constant; the definition's
    dollar-quoted constant is the whole body; and of the trigger's statement the same holds before
    and after the author's own condition, the one text that is given to the server as SQL. *)
Theorem Generate_reads Sanitize r sets s :
  (forall parts, Forall (λ p, NUL ∉ p) parts -> Sanitize parts = join ["."%char] (map spelled parts)) ->
  Generate Sanitize r = Ok sets -> s ∈ sets ->
  exists o, o ∈ Operations_ (Trigger (Request_Listener r)) /\ Set_Operation s = Kind o /\
  let body := body_text Sanitize r o in
  triggerBody Sanitize r o = Ok body /\
  reads_as body (tokens (body_pieces Sanitize r o) ++ default [] (lex body_end)) /\
  reads_as (CreateFunction s) (tokens (function_pieces r (FunctionName s)) ++
                               [Dollar (newline ++ body ++ newline); Symbol ";"]) /\
  reads_as (RevokeExecute s) (tokens (revoke_pieces r (FunctionName s))) /\
  reads_as (CommentFunction s) (tokens (comment_function_pieces r (FunctionName s) (Marker s))) /\
  reads_as (CommentTrigger s) (tokens (comment_trigger_pieces r (TriggerName s) (Marker s))) /\
  (When o = [] -> reads_as (CreateTrigger s) (tokens (trigger_pieces r o (TriggerName s) []))) /\
  (When o <> [] -> exists before after, CreateTrigger s = before ++ When o ++ after /\
     reads_as before (tokens (trigger_before r o (TriggerName s))) /\
     reads_as after (tokens (trigger_after r o (TriggerName s)))).
Proof.
  intros HS [Hv ->]%Generate_sets (o & -> & [Ho Hk]%orderedOperations_elem)%list_elem_of_fmap.
  pose proof (known_operations _ Hv) as Hall. rewrite Forall_forall in Hall. destruct (Hall _ Ho) as [_ Hc].
  pose proof (function_name_usable r o (usable_listener _ Hv)) as Hn. pose proof (usable_NUL _ Hn).
  pose proof (usable_NUL _ (usable_service _ Hv)). pose proof (usable_NUL _ (usable_schema _ Hv)).
  pose proof (usable_NUL _ (usable_table _ Hv)).
  exists o. unfold reads_as. cbn [set_of Set_Operation FunctionName TriggerName Marker CreateFunction RevokeExecute
    CommentFunction CreateTrigger CommentTrigger]. split_and!; try done.
  - by apply triggerBody_ok.
  - by apply lex_body.
  - by apply lex_function.
  - apply lex_pieces; [done|]. split; [reflexivity|by repeat constructor].
  - apply lex_pieces; [done|]. split; [reflexivity|by repeat constructor].
  - apply lex_pieces; [done|]. split; [reflexivity|by repeat constructor].
  - intros Hw. rewrite createTrigger_unconditional by done. apply lex_pieces; [done|]. by apply legible_unconditional.
  - intros Hw. rewrite createTrigger_conditional by done. do 2 eexists. split; [done|].
    split; apply lex_pieces; try done; [by apply legible_trigger_before|by apply legible_after].
Qed.

(** ** Witnesses *)

Definition sample_request : Request :=
  {| Instance := bs "prod"; ServiceSchema := bs "pg_noty";
     Request_Listener :=
       {| Name := bs "or'ders"; Enabled := true;
          Trigger := {| Table := bs "shop.orders";
            Operations_ := [{| Kind := bs "update"; Columns := [bs "state"]; IsDistinct := true; When := bs "NEW.n > 1" |};
                            {| Kind := bs "insert"; Columns := []; IsDistinct := false; When := [] |}];
            Payload_ := {| Mode := bs "full"; Payload_Columns := []; Exclude := [bs "it's \ secret"];
                           IncludeOld := true; MaxBytes := 65536 |} |};
          Delivery := idle_delivery |};
     Request_Target := {| Target_Schema := bs "shop.eu"; Target_Table := bs "orders"; PrimaryKeyColumns := [bs "id"] |} |}.

Definition sample_sets : list ObjectSet :=
  match Generate documented_Sanitize sample_request with Ok sets => sets | Err _ => [] end.

Lemma sample_generated : Generate documented_Sanitize sample_request = Ok sample_sets /\ length sample_sets = 2.
Proof. split; vm_compute; reflexivity. Qed.

Lemma Generate_refuses_witness :
  at_fault (Build_Request (bs "prod") (bs "pg_noty") (Request_Listener sample_request)
              (Build_Target (bs "shop") [] [bs "id"]))
    (unusableIdentifier (bs "target table") [] IdentifierEmpty).
Proof.
  apply (proj1 (proj2 (Generate_refuses documented_Sanitize _))). vm_compute. reflexivity.
Defined.

Lemma Generate_objects_witness :
  exists ordered, map Kind ordered = [bs "insert"; bs "update"] /\ Forall2 (set_serves sample_request) ordered sample_sets.
Proof.
  destruct (Generate_objects documented_Sanitize sample_request sample_sets (proj1 sample_generated))
    as (ordered & _ & H & Hk).
  exists ordered. split; [rewrite Hk; vm_compute; reflexivity|exact H].
Defined.

Lemma Generate_reads_witness :
  exists s o, s ∈ sample_sets /\ o ∈ Operations_ (Trigger (Request_Listener sample_request)) /\
    reads_as (CommentFunction s) (tokens (comment_function_pieces sample_request (FunctionName s) (Marker s))) /\
    triggerBody documented_Sanitize sample_request o = Ok (body_text documented_Sanitize sample_request o).
Proof.
  assert (Hin : exists s, s ∈ sample_sets).
  { pose proof (proj2 sample_generated) as Hl. destruct sample_sets as [|s rest]; [discriminate Hl|].
    exists s. apply list_elem_of_here. }
  destruct Hin as [s Hin].
  destruct (Generate_reads documented_Sanitize sample_request sample_sets s (λ _ _, eq_refl)
              (proj1 sample_generated) Hin) as (o & Ho & _ & Hb & _ & _ & _ & Hc & _).
  exists s, o. split; [exact Hin|]. split; [exact Ho|]. split; [exact Hc|exact Hb].
Defined.
