(* ===== verification/Reconcile.v ===== *)
(** * The reconciliation plan: [internal/reconcile]'s pure half -- [action.go], [verdict.go],
    [decision.go], [plan.go], [refusal.go], [ownership.go], [targetresolve.go], [classify.go],
    [diff.go], [fingerprint.go], [spechash.go] and [render.go].

    The three sources -- the configuration, the registry and the catalog -- arrive as values; who
    reads them is in [Apply.v]. Go's zero values are written out where the code relies on them: a
    map lookup that misses, a struct nobody filled. [quoted] is [strconv.Quote], which only refusal
    texts use; [sha256_hex] is the digest in hex and [marshal] is [encoding/json] on a trigger
    specification and on an operation. All three are parameters. *)

From S2P Require Import Prelude Utf8 Quote Config Generate.

(** An error is its text. *)
Abbreviation outcome := (result gostring).

(** ** action.go *)

(** The type is a string, so a value outside the vocabulary is one too. *)
Abbreviation ActionKind := gostring (only parsing).

Definition ActionCreate : ActionKind := bs "create".
Definition ActionReplace : ActionKind := bs "replace".
Definition ActionDrop : ActionKind := bs "drop".
Definition ActionRename : ActionKind := bs "rename".
Definition ActionDisable : ActionKind := bs "disable".

Definition actionKinds : list ActionKind :=
  [ActionCreate; ActionReplace; ActionDrop; ActionRename; ActionDisable].

Definition Kind_Destructive (kind : ActionKind) : bool :=
  negb (bool_decide (kind = ActionCreate) || bool_decide (kind = ActionReplace) || bool_decide (kind = ActionRename)).

Definition Symbol_ (kind : ActionKind) : gostring :=
  if bool_decide (kind = ActionCreate) then bs "+"
  else if bool_decide (kind = ActionReplace) then bs "-/+"
  else if bool_decide (kind = ActionDrop) || bool_decide (kind = ActionDisable) then bs "-"
  else if bool_decide (kind = ActionRename) then bs "~"
  else [].

(** ** verdict.go *)

(** [VerdictUnset] is the empty string, the verdict of a result nobody judged. *)
Inductive Verdict := VerdictUnset | VerdictClean | VerdictChangesPending | VerdictError.

#[export] Instance Verdict_eq_dec : EqDecision Verdict.
Proof. solve_decision. Defined.

Definition ExitCode (verdict : Verdict) : Z :=
  match verdict with VerdictClean => 0 | VerdictChangesPending => 2 | _ => 1 end.

(** ** decision.go *)

Inductive StopReason :=
  | NotStopped
  | StopOwnership
  | StopPermission
  | StopApproval
  | StopValidation
  | StopRunLockWaitExpired
  | StopTargetDropped.

#[export] Instance StopReason_eq_dec : EqDecision StopReason.
Proof. solve_decision. Defined.

Record Decision_ := { Proceed : bool; Stopped : StopReason }.

Definition Decide (destructive permitted approved interactive : bool) : Decision_ :=
  if destructive && negb permitted then {| Proceed := false; Stopped := StopPermission |}
  else if negb approved && negb interactive then {| Proceed := false; Stopped := StopApproval |}
  else {| Proceed := true; Stopped := NotStopped |}.

(** ** plan.go *)

Record Pair := { Pair_Listener : gostring; Pair_Operation : gostring }.

#[export] Instance Pair_eq_dec : EqDecision Pair.
Proof. solve_decision. Defined.
#[export] Instance Pair_countable : Countable Pair.
Proof.
  refine (inj_countable' (λ p, (Pair_Listener p, Pair_Operation p))
            (λ p, {| Pair_Listener := fst p; Pair_Operation := snd p |}) _); by intros [].
Defined.

Record Action := { Action_Pair : Pair; Action_Kind : ActionKind }.

#[export] Instance Action_eq_dec : EqDecision Action.
Proof. solve_decision. Defined.

(** [cmp.Compare] on the listener, then the operation. *)
Definition comparePairs (left right : Pair) : comparison :=
  or_else (string_compare (Pair_Listener left) (Pair_Listener right))
          (string_compare (Pair_Operation left) (Pair_Operation right)).

Definition compareActions (left right : Action) : comparison :=
  or_else (string_compare (Pair_Listener (Action_Pair left)) (Pair_Listener (Action_Pair right)))
    (or_else (string_compare (Pair_Operation (Action_Pair left)) (Pair_Operation (Action_Pair right)))
             (string_compare (Action_Kind left) (Action_Kind right))).

Definition orderedActions (actions : list Action) : list Action := merge_sort (below compareActions) actions.

(** ** refusal.go *)

Record Refusal := { message : gostring; remediation : gostring }.

#[export] Instance Refusal_eq_dec : EqDecision Refusal.
Proof. solve_decision. Defined.

Section Refusals.
Variable quoted : gostring -> gostring.

Definition ownershipRefusal (identity : gostring) (marker : option gostring) : Refusal :=
  let evidence := match marker with
                  | None => bs "no ownership marker was found"
                  | Some marker => bs "found ownership marker " ++ quoted marker
                  end in
  {| message := bs "refusing " ++ identity ++ bs ": " ++ evidence;
     remediation := bs "leave the object untouched or remove the conflicting marker only after confirming its owner" |}.

Definition absentBootstrapRefusal (subject : gostring) : Refusal :=
  {| message := bs "cannot reconcile: required bootstrap object " ++ subject ++ bs " is absent";
     remediation := bs "run bootstrap for this service schema before reconciling" |}.

Definition targetsMissingTable : gostring := bs "targets missing table".

Definition droppedTargetRefusal (listener target : gostring) : Refusal :=
  {| message := bs "listener " ++ quoted listener ++ bs " targets missing table " ++ target;
     remediation := bs "restore the target table or remove the listener from configuration" |}.

Definition retargetedListenerRefusal (listener recorded configured : gostring) : Refusal :=
  {| message := bs "listener " ++ quoted listener ++ bs " is recorded against " ++ recorded ++
       bs " but configured against " ++ configured;
     remediation := bs "remove listener " ++ quoted listener ++ bs ", apply so its triggers on " ++ recorded ++
       bs " are dropped, then add it back against " ++ configured ++
       bs "; or restore the configured table to " ++ recorded |}.

Definition tableLockTimeoutRefusal (table blocker : gostring) : Refusal :=
  {| message := bs "timed out waiting for table lock on " ++ table ++ bs "; blocker backend is " ++ blocker;
     remediation := bs "wait for backend " ++ blocker ++ bs " or end its transaction, then retry reconciliation" |}.

Definition runLockWaitExpiredRefusal (instance holder : gostring) : Refusal :=
  {| message := bs "timed out waiting for reconcile run lock for instance " ++ quoted instance ++
       bs "; holder backend is " ++ holder;
     remediation := bs "wait for backend " ++ holder ++ bs " to finish or investigate that instance before retrying" |}.

Definition unknownDeferredKindRefusal (kind : gostring) : Refusal :=
  {| message := bs "cannot validate unknown deferred check kind " ++ quoted kind;
     remediation := bs "upgrade the reconciler to a version that understands " ++ quoted kind ++
       bs " or remove that check" |}.

(** ** plan.go: the result *)

(** A diagnostic of [internal/config] is its rule and its message; its position is not modelled. *)
Record PlanResult := {
  Actions : list Action;
  Examined : nat;
  Refusals : list Refusal;
  Diagnostics : list (gostring * gostring);
  Plan_Verdict : Verdict
}.

Definition no_plan : PlanResult :=
  {| Actions := []; Examined := 0; Refusals := []; Diagnostics := []; Plan_Verdict := VerdictUnset |}.

Definition Destructive (result : PlanResult) : bool :=
  existsb (λ action, Kind_Destructive (Action_Kind action)) (Actions result).

(** ** ownership.go *)

Inductive Disagreement_ :=
  | Agreed
  | DisagreementMarkerAbsent
  | DisagreementForeignInstance
  | DisagreementAnotherPair
  | DisagreementNoRegistryRow.

Record RegistryRow := { Present : bool; Row_Listener : gostring; Row_Operation : gostring }.

Record CatalogObject := { Object_Kind : gostring; Identity : gostring; Object_Marker : option gostring }.

Record Ownership := { Owned : bool; Disagreement : Disagreement_; Found : gostring }.

Definition markerValue (marker : option gostring) : gostring := default [] marker.

Definition DetermineOwnership (recorded : RegistryRow) (found : CatalogObject) (instance : gostring) : Ownership :=
  let refused d := {| Owned := false; Disagreement := d; Found := markerValue (Object_Marker found) |} in
  if negb (Present recorded) then refused DisagreementNoRegistryRow
  else match parseCatalogMarker (Object_Marker found) with
       | None => refused DisagreementMarkerAbsent
       | Some marker =>
           if negb (bool_decide (Instance_ marker = instance)) then refused DisagreementForeignInstance
           else if negb (bool_decide (Listener_ marker = Row_Listener recorded)) ||
                   negb (bool_decide (Operation_ marker = Row_Operation recorded))
           then refused DisagreementAnotherPair
           else {| Owned := true; Disagreement := Agreed; Found := markerValue (Object_Marker found) |}
       end.

(** ** catalog.go and registry.go: the readings *)

Record TargetReading := {
  Reading_OID : Z;
  Reading_Schema : gostring;
  Reading_Table : gostring;
  Reading_Columns : list gostring;
  Reading_PrimaryKeyColumns : list gostring
}.

Definition no_target : TargetReading :=
  {| Reading_OID := 0; Reading_Schema := []; Reading_Table := []; Reading_Columns := [];
     Reading_PrimaryKeyColumns := [] |}.

Record TriggerReading := {
  Trigger_OID : Z;
  FunctionOID : Z;
  Trigger_Marker : option gostring;
  Trigger_Definition : gostring
}.

Definition no_trigger : TriggerReading :=
  {| Trigger_OID := 0; FunctionOID := 0; Trigger_Marker := None; Trigger_Definition := [] |}.

Record FunctionReading := {
  Function_OID : Z;
  Function_Marker : option gostring;
  Function_Definition : gostring
}.

Definition no_function : FunctionReading :=
  {| Function_OID := 0; Function_Marker := None; Function_Definition := [] |}.

Record registryListener := {
  Registry_Name : gostring;
  Spec : gostring;
  Registry_SpecHash : gostring;
  TargetTable : gostring;
  TargetOID : Z;
  Registry_Enabled : bool;
  AppliedAt : Z
}.

Definition no_registry_listener : registryListener :=
  {| Registry_Name := []; Spec := []; Registry_SpecHash := []; TargetTable := []; TargetOID := 0;
     Registry_Enabled := false; AppliedAt := 0 |}.

Record registryTrigger := {
  Registry_Operation : gostring;
  Registry_TriggerName : gostring;
  Registry_FunctionName : gostring;
  DDLHash : gostring
}.

Definition no_registry_trigger : registryTrigger :=
  {| Registry_Operation := []; Registry_TriggerName := []; Registry_FunctionName := []; DDLHash := [] |}.

Record registryReading := { Reading_Listener : registryListener; Triggers : list registryTrigger }.

Definition no_registry : registryReading := {| Reading_Listener := no_registry_listener; Triggers := [] |}.

#[export] Instance registryTrigger_eq_dec : EqDecision registryTrigger.
Proof. solve_decision. Defined.
#[export] Instance TargetReading_eq_dec : EqDecision TargetReading.
Proof. solve_decision. Defined.

(** ** targetresolve.go *)

Inductive targetOutcome :=
  | targetUnresolved
  | targetNew
  | targetHealthy
  | targetRenamed
  | targetDropped
  | targetDroppedAndRecreated.

#[export] Instance targetOutcome_eq_dec : EqDecision targetOutcome.
Proof. solve_decision. Defined.

Record targetState := { state_recorded : bool; state_oid : bool; state_named : bool; state_sameName : bool }.

Record targetResolution := {
  Resolution_Outcome : targetOutcome;
  Resolution_Target : TargetReading;
  Resolution_Refusal : option Refusal
}.

Definition unresolved : targetResolution :=
  {| Resolution_Outcome := targetUnresolved; Resolution_Target := no_target; Resolution_Refusal := None |}.

Definition classifyTarget (state : targetState) : targetOutcome :=
  if negb (state_recorded state) && state_named state then targetNew
  else if state_oid state && state_sameName state then targetHealthy
  else if state_oid state then targetRenamed
  else if state_named state then targetDroppedAndRecreated
  else targetDropped.

Definition droppedResolution (listener table : gostring) : targetResolution :=
  {| Resolution_Outcome := targetDropped; Resolution_Target := no_target;
     Resolution_Refusal := Some (droppedTargetRefusal listener table) |}.

Section Resolution.
Variable Sanitize : list gostring -> gostring.

Definition targetHasRecordedName (reading : option TargetReading) (recorded : gostring) : outcome bool :=
  match reading with
  | None => Ok false
  | Some reading =>
      match Qualified Sanitize (Reading_Schema reading) (Reading_Table reading) with
      | Ok name => Ok (bool_decide (name = recorded))
      | Err fault =>
          Err (bs "catalog target " ++ quoted (Reading_Schema reading) ++ bs "." ++
               quoted (Reading_Table reading) ++ bs " is unusable: " ++ fault_text fault)
      end
  end.

Definition resolvedNewTarget (listener : Listener) (name : gostring) (reading : option TargetReading) :
    targetResolution :=
  let found := match reading with Some _ => true | None => false end in
  let o := classifyTarget {| state_recorded := false; state_oid := false; state_named := found;
                             state_sameName := false |} in
  if bool_decide (o = targetDropped) then droppedResolution (Name listener) name
  else {| Resolution_Outcome := o; Resolution_Target := default no_target reading; Resolution_Refusal := None |}.

Definition resolvedRecordedTarget (listener : Listener) (name : gostring)
    (byOID byName : option TargetReading) (o : targetOutcome) : targetResolution :=
  if bool_decide (o = targetDropped) then droppedResolution (Name listener) name
  else if bool_decide (o = targetDroppedAndRecreated)
  then {| Resolution_Outcome := o; Resolution_Target := default no_target byName; Resolution_Refusal := None |}
  else {| Resolution_Outcome := o; Resolution_Target := default no_target byOID; Resolution_Refusal := None |}.

(** The two catalog lookups a resolution makes; [None] is a name or an OID nothing answers to. *)
Record target_reader := {
  ResolveTarget : gostring -> outcome (option TargetReading);
  ResolveTargetOID : Z -> outcome (option TargetReading)
}.

Definition resolveListenerTarget (catalog : target_reader) (listener : Listener)
    (recorded : option registryListener) : outcome targetResolution :=
  (let name := Table (Trigger listener) in
   match recorded with
   | None =>
       let! reading := ResolveTarget catalog name in Ok (resolvedNewTarget listener name reading)
   | Some recorded =>
       let! byOID := ResolveTargetOID catalog (TargetOID recorded) in
       let! byName := ResolveTarget catalog (TargetTable recorded) in
       let! byConfigured :=
         if bool_decide (name = TargetTable recorded) then Ok byName else ResolveTarget catalog name in
       let moved := match byOID, byConfigured with
                    | Some _, Some c => negb (bool_decide (Reading_OID c = TargetOID recorded))
                    | _, _ => false
                    end in
       if moved then
         Ok {| Resolution_Outcome := targetDropped; Resolution_Target := no_target;
               Resolution_Refusal := Some (retargetedListenerRefusal (Name listener) (TargetTable recorded) name) |}
       else
         let! sameName := targetHasRecordedName byOID (TargetTable recorded) in
         let state := {| state_recorded := true;
                         state_oid := match byOID with Some _ => true | None => false end;
                         state_named := match byName with Some _ => true | None => false end;
                         state_sameName := sameName |} in
         Ok (resolvedRecordedTarget listener (TargetTable recorded) byOID byName (classifyTarget state))
   end)%res.
End Resolution.

(** ** fingerprint.go *)

Section Fingerprint.
Variable sha256_hex : gostring -> gostring.

Definition fingerprintVersion : gostring := bs "1:".

Definition fingerprint (triggerDefinition functionDefinition : gostring) : gostring :=
  fingerprintVersion ++ sha256_hex (triggerDefinition ++ [NUL] ++ functionDefinition).

(** ** classify.go *)

Record desiredPair := {
  Desired_Pair : Pair;
  Desired_ListenerPresent : bool;
  OperationPresent : bool;
  Desired_Enabled : bool;
  SpecificationChanged : bool;
  SpecificationKnown : bool;
  Desired_SpecHash : gostring
}.

Definition no_pair : Pair := {| Pair_Listener := []; Pair_Operation := [] |}.

Definition no_desired : desiredPair :=
  {| Desired_Pair := no_pair; Desired_ListenerPresent := false; OperationPresent := false;
     Desired_Enabled := false; SpecificationChanged := false; SpecificationKnown := false;
     Desired_SpecHash := [] |}.

Record recordedPair := {
  Recorded_Pair : Pair;
  Recorded_ListenerPresent : bool;
  Recorded_TriggerPresent : bool;
  Recorded_Listener : registryListener;
  Recorded_Trigger : registryTrigger
}.

Definition no_recorded : recordedPair :=
  {| Recorded_Pair := no_pair; Recorded_ListenerPresent := false; Recorded_TriggerPresent := false;
     Recorded_Listener := no_registry_listener; Recorded_Trigger := no_registry_trigger |}.

Record observedPair := {
  Observed_Pair : Pair;
  Observed_TriggerPresent : bool;
  FunctionPresent : bool;
  Observed_Trigger : TriggerReading;
  Observed_Function : FunctionReading
}.

Definition no_observed : observedPair :=
  {| Observed_Pair := no_pair; Observed_TriggerPresent := false; FunctionPresent := false;
     Observed_Trigger := no_trigger; Observed_Function := no_function |}.

Record pairSources := {
  Desired : desiredPair;
  Recorded : recordedPair;
  Observed : observedPair;
  Source_Target : targetResolution;
  Source_Instance : gostring
}.

Definition no_sources : pairSources :=
  {| Desired := no_desired; Recorded := no_recorded; Observed := no_observed; Source_Target := unresolved;
     Source_Instance := [] |}.

Record pairClassification := {
  Classified_Action : option Action;
  Classified_Refusal : option Refusal;
  RetainListener : bool
}.

Definition unclassified : pairClassification :=
  {| Classified_Action := None; Classified_Refusal := None; RetainListener := false |}.

Definition pair_of (source : pairSources) : Pair :=
  if negb (bool_decide (Pair_Listener (Desired_Pair (Desired source)) = [])) then Desired_Pair (Desired source)
  else if negb (bool_decide (Pair_Listener (Recorded_Pair (Recorded source)) = []))
  then Recorded_Pair (Recorded source)
  else Observed_Pair (Observed source).

Definition observedAny (source : pairSources) : bool :=
  Observed_TriggerPresent (Observed source) || FunctionPresent (Observed source).

Definition observedComplete (source : pairSources) : bool :=
  Observed_TriggerPresent (Observed source) && FunctionPresent (Observed source).

Definition observedFingerprint (source : pairSources) : gostring :=
  fingerprint (Trigger_Definition (Observed_Trigger (Observed source)))
              (Function_Definition (Observed_Function (Observed source))).

Definition objectIdentity (source : pairSources) (kind : gostring) : gostring :=
  let pair := pair_of source in
  let name := if bool_decide (kind = bs "function")
              then Registry_FunctionName (Recorded_Trigger (Recorded source))
              else Registry_TriggerName (Recorded_Trigger (Recorded source)) in
  let name := if bool_decide (name = []) then Pair_Listener pair ++ bs "/" ++ Pair_Operation pair else name in
  kind ++ bs " " ++ name.

Definition registryOwnershipRow (recorded : recordedPair) : RegistryRow :=
  {| Present := Recorded_TriggerPresent recorded; Row_Listener := Pair_Listener (Recorded_Pair recorded);
     Row_Operation := Pair_Operation (Recorded_Pair recorded) |}.

Definition catalogTriggerObject (reading : TriggerReading) (identity : gostring) : CatalogObject :=
  {| Object_Kind := bs "trigger"; Identity := identity; Object_Marker := Trigger_Marker reading |}.

Definition catalogFunctionObject (reading : FunctionReading) (identity : gostring) : CatalogObject :=
  {| Object_Kind := bs "function"; Identity := identity; Object_Marker := Function_Marker reading |}.

Definition observedOwnershipRefusal (source : pairSources) : option Refusal :=
  let row := registryOwnershipRow (Recorded source) in
  let judged present object :=
    if (present : bool) && negb (Owned (DetermineOwnership row object (Source_Instance source)))
    then Some (ownershipRefusal (Identity object) (Object_Marker object)) else None in
  match judged (Observed_TriggerPresent (Observed source))
          (catalogTriggerObject (Observed_Trigger (Observed source)) (objectIdentity source (bs "trigger"))) with
  | Some refusal => Some refusal
  | None =>
      judged (FunctionPresent (Observed source))
        (catalogFunctionObject (Observed_Function (Observed source)) (objectIdentity source (bs "function")))
  end.

Definition classifiedAction (pair : Pair) (kind : ActionKind) (retainListener : bool) : pairClassification :=
  {| Classified_Action := Some {| Action_Pair := pair; Action_Kind := kind |}; Classified_Refusal := None;
     RetainListener := retainListener |}.

Definition refusedWith (refusal : Refusal) : pairClassification :=
  {| Classified_Action := None; Classified_Refusal := Some refusal; RetainListener := false |}.

(** Neither the registry nor the catalog holds anything of the pair. *)
Definition nothing_there (source : pairSources) : bool :=
  negb (Recorded_TriggerPresent (Recorded source)) && negb (observedAny source).

Definition classifyRemovedListener (source : pairSources) : pairClassification :=
  if nothing_there source then
    if Recorded_ListenerPresent (Recorded source) then classifiedAction (pair_of source) ActionDrop false
    else unclassified
  else classifiedAction (pair_of source) ActionDrop false.

Definition classifyRemovedOperation (source : pairSources) : pairClassification :=
  if nothing_there source then unclassified else classifiedAction (pair_of source) ActionDrop true.

Definition classifyDisabled (source : pairSources) : pairClassification :=
  if nothing_there source then unclassified else classifiedAction (pair_of source) ActionDisable true.

Definition classifyManagedPair (source : pairSources) : pairClassification :=
  if bool_decide (Resolution_Outcome (Source_Target source) = targetDroppedAndRecreated)
  then classifiedAction (pair_of source) ActionReplace true
  else if negb (Recorded_TriggerPresent (Recorded source)) || negb (observedComplete source)
  then classifiedAction (pair_of source) ActionCreate true
  else if bool_decide (Resolution_Outcome (Source_Target source) = targetRenamed)
  then classifiedAction (pair_of source) ActionRename true
  else if SpecificationChanged (Desired source) ||
          negb (bool_decide (observedFingerprint source = DDLHash (Recorded_Trigger (Recorded source))))
  then classifiedAction (pair_of source) ActionReplace true
  else unclassified.

Definition classifyPair (source : pairSources) : pairClassification :=
  match Resolution_Refusal (Source_Target source) with
  | Some refusal => refusedWith refusal
  | None =>
      match observedOwnershipRefusal source with
      | Some refusal => refusedWith refusal
      | None =>
          if negb (Desired_ListenerPresent (Desired source)) then classifyRemovedListener source
          else if negb (OperationPresent (Desired source)) then classifyRemovedOperation source
          else if negb (Desired_Enabled (Desired source)) then classifyDisabled source
          else classifyManagedPair source
      end
  end.

(** ** diff.go *)

Record desiredListener := {
  Desired_Name : gostring;
  Listener_SpecHash : gostring;
  Listener_Enabled : bool;
  Listener_SpecificationKnown : bool;
  ChangedOperations : gmap gostring bool
}.

Record diffInput := {
  Input_Desired : list desiredPair;
  Input_Recorded : list recordedPair;
  Input_Observed : list observedPair;
  Input_Listeners : list desiredListener;
  Targets : gmap gostring targetResolution;
  Input_Instance : gostring
}.

Abbreviation sources_map := (gmap Pair pairSources).

Definition with_desired (desired : desiredPair) (source : pairSources) : pairSources :=
  {| Desired := desired; Recorded := Recorded source; Observed := Observed source;
     Source_Target := Source_Target source; Source_Instance := Source_Instance source |}.
Definition with_recorded (recorded : recordedPair) (source : pairSources) : pairSources :=
  {| Desired := Desired source; Recorded := recorded; Observed := Observed source;
     Source_Target := Source_Target source; Source_Instance := Source_Instance source |}.
Definition with_observed (observed : observedPair) (source : pairSources) : pairSources :=
  {| Desired := Desired source; Recorded := Recorded source; Observed := observed;
     Source_Target := Source_Target source; Source_Instance := Source_Instance source |}.

(** [source := sources[pair]; source.Field = v; sources[pair] = source]. *)
Definition put (pair : Pair) (set_field : pairSources -> pairSources) (sources : sources_map) : sources_map :=
  <[pair := set_field (default no_sources (sources !! pair))]> sources.

(** What a configured listener says of every pair that bears its name. *)
Definition with_listener (listener : desiredListener) (pair : Pair) (source : pairSources) : pairSources :=
  with_desired
    {| Desired_Pair := pair; Desired_ListenerPresent := true; OperationPresent := OperationPresent (Desired source);
       Desired_Enabled := Listener_Enabled listener;
       SpecificationChanged := default false (ChangedOperations listener !! Pair_Operation pair);
       SpecificationKnown := Listener_SpecificationKnown listener;
       Desired_SpecHash := Listener_SpecHash listener |} source.

Definition applyDesiredListeners (sources : sources_map) (listeners : list desiredListener) : sources_map :=
  let byName := foldl (λ m listener, <[Desired_Name listener := listener]> m)
                      (∅ : gmap gostring desiredListener) listeners in
  map_imap (λ pair source, Some (match byName !! Pair_Listener pair with
                                 | Some listener => with_listener listener pair source
                                 | None => source
                                 end)) sources.

Definition collectPairSources (input : diffInput) : sources_map :=
  let sources := foldl (λ m d, put (Desired_Pair d) (with_desired d) m) ∅ (Input_Desired input) in
  let sources := foldl (λ m r, put (Recorded_Pair r) (with_recorded r) m) sources (Input_Recorded input) in
  let sources := foldl (λ m o, put (Observed_Pair o) (with_observed o) m) sources (Input_Observed input) in
  applyDesiredListeners sources (Input_Listeners input).

(** Go ranges over the map of sources in an order of its own: [walk] is that order. *)
Variable walk : sources_map -> list Pair.

Definition orderedPairs (sources : sources_map) : list Pair := merge_sort (below comparePairs) (walk sources).

Definition shortCircuitSpecificationComparison (source : pairSources) : pairSources :=
  if SpecificationKnown (Desired source) then source
  else
    with_desired
      {| Desired_Pair := Desired_Pair (Desired source);
         Desired_ListenerPresent := Desired_ListenerPresent (Desired source);
         OperationPresent := OperationPresent (Desired source);
         Desired_Enabled := Desired_Enabled (Desired source);
         SpecificationChanged :=
           Recorded_ListenerPresent (Recorded source) &&
           negb (bool_decide (Desired_SpecHash (Desired source) =
                              Registry_SpecHash (Recorded_Listener (Recorded source))));
         SpecificationKnown := SpecificationKnown (Desired source);
         Desired_SpecHash := Desired_SpecHash (Desired source) |} source.

Definition preparedPairSource (input : diffInput) (sources : sources_map) (pair : Pair) : pairSources :=
  let source := default no_sources (sources !! pair) in
  shortCircuitSpecificationComparison
    {| Desired := Desired source; Recorded := Recorded source; Observed := Observed source;
       Source_Target := default unresolved (Targets input !! Pair_Listener pair);
       Source_Instance := Input_Instance input |}.

Definition with_actions (actions : list Action) (verdict : Verdict) (result : PlanResult) : PlanResult :=
  {| Actions := actions; Examined := Examined result; Refusals := Refusals result;
     Diagnostics := Diagnostics result; Plan_Verdict := verdict |}.

Definition appendClassification (result : PlanResult) (classification : pairClassification) : PlanResult :=
  match Classified_Refusal classification with
  | Some refusal =>
      {| Actions := Actions result; Examined := Examined result; Refusals := Refusals result ++ [refusal];
         Diagnostics := Diagnostics result; Plan_Verdict := Plan_Verdict result |}
  | None =>
      match Classified_Action classification with
      | Some action => with_actions (Actions result ++ [action]) (Plan_Verdict result) result
      | None => result
      end
  end.

Definition finaliseDiff (result : PlanResult) : PlanResult :=
  if negb (length (Refusals result) =? 0)%nat then with_actions [] VerdictError result
  else
    let actions := orderedActions (Actions result) in
    with_actions actions (if (length actions =? 0)%nat then VerdictClean else VerdictChangesPending) result.

Definition diff (input : diffInput) : PlanResult :=
  let sources := collectPairSources input in
  let pairs := orderedPairs sources in
  finaliseDiff
    (foldl (λ result pair, appendClassification result (classifyPair (preparedPairSource input sources pair)))
       {| Actions := []; Examined := length pairs; Refusals := []; Diagnostics := []; Plan_Verdict := VerdictUnset |}
       pairs).
End Fingerprint.
End Refusals.

(** ** render.go *)

(** The builder's text, and the listener and operation last written. *)
Definition render_action (at_ : gostring * gostring * gostring) (action : Action) : gostring * gostring * gostring :=
  let '(text, listener, operation) := at_ in
  let '(text, listener, operation) :=
    if negb (bool_decide (Pair_Listener (Action_Pair action) = listener))
    then (text ++ bs "listener " ++ Pair_Listener (Action_Pair action) ++ bs ":" ++ newline,
          Pair_Listener (Action_Pair action), [])
    else (text, listener, operation) in
  let '(text, operation) :=
    if negb (bool_decide (Pair_Operation (Action_Pair action) = operation))
    then (text ++ bs "  operation " ++ Pair_Operation (Action_Pair action) ++ bs ":" ++ newline,
          Pair_Operation (Action_Pair action))
    else (text, operation) in
  (text ++ bs "    " ++ Symbol_ (Action_Kind action) ++ bs " " ++ Action_Kind action ++ newline,
   listener, operation).

Definition Render (result : PlanResult) : gostring :=
  fst (fst (foldl render_action ([], [], []) (orderedActions (Actions result)))).

(** ** spechash.go *)

Section Specification.
Variable sha256_hex : gostring -> gostring.
(** [json.Marshal] of a trigger specification, of the part of one that all operations share, and of
    an operation; and [json.Unmarshal] of the first. None of the values marshalled can fail to. *)
Variable marshal_spec : TriggerSpec -> gostring.
Variable marshal_operation : Operation -> gostring.
Variable unmarshal_spec : gostring -> outcome TriggerSpec.

Record listenerSpec := { Spec_Bytes : gostring; Spec_Hash : gostring }.

Definition deriveListenerSpec (trigger : TriggerSpec) : listenerSpec :=
  {| Spec_Bytes := marshal_spec trigger; Spec_Hash := sha256_hex (marshal_spec trigger) |}.

Definition without_operations (trigger : TriggerSpec) : TriggerSpec :=
  {| Table := Table trigger; Operations_ := []; Payload_ := Payload_ trigger |}.

Definition triggerSharedFieldsChanged (recorded desired : TriggerSpec) : bool :=
  negb (bool_decide (Spec_Hash (deriveListenerSpec (without_operations recorded)) =
                     Spec_Hash (deriveListenerSpec (without_operations desired)))).

Definition operationJSONByKind (operations : Operations) : gmap gostring gostring :=
  foldl (λ encoded operation, <[Kind operation := marshal_operation operation]> encoded) ∅ operations.

(** A kind the recorded specification does not have reads as the empty text. *)
Definition changedTriggerOperations (recorded desired : TriggerSpec) : gmap gostring bool :=
  let shared := triggerSharedFieldsChanged recorded desired in
  let prior := operationJSONByKind (Operations_ recorded) in
  map_imap (λ kind encoded, Some (shared || negb (bool_decide (default [] (prior !! kind) = encoded))))
           (operationJSONByKind (Operations_ desired)).

Definition listenerOperationChanges (prior : registryListener) (desired : TriggerSpec) :
    outcome (gmap gostring bool * bool) :=
  if bool_decide (Registry_Name prior = []) then Ok (∅, false)
  else (let! recorded := unmarshal_spec (Spec prior) in
        Ok (changedTriggerOperations recorded desired, true))%res.

Definition configuredByName (listeners : list Listener) : gmap gostring Listener :=
  foldl (λ byName listener, <[Name listener := listener]> byName) ∅ listeners.
End Specification.

(** ** Sources, one pair at a time *)

(** The last item of a list under a key: what a map filled in order holds. *)
Definition last_for {A K} `{EqDecision K} (key : A -> K) (k : K) (l : list A) : option A :=
  last (filter (λ x, key x = k) l).

Lemma last_for_snoc {A K} `{EqDecision K} (key : A -> K) k l x :
  last_for key k (l ++ [x]) = if decide (key x = k) then Some x else last_for key k l.
Proof.
  unfold last_for. rewrite filter_app, filter_cons, filter_nil.
  destruct (decide (key x = k)); [by rewrite last_snoc|by rewrite app_nil_r].
Qed.

Lemma last_for_Some {A K} `{EqDecision K} (key : A -> K) k l x : last_for key k l = Some x -> x ∈ l /\ key x = k.
Proof.
  unfold last_for. intros H%last_Some_elem_of. apply list_elem_of_filter in H. tauto.
Qed.

Lemma last_for_None {A K} `{EqDecision K} (key : A -> K) k l : last_for key k l = None <-> k ∉ key <$> l.
Proof.
  unfold last_for. rewrite last_None, list_elem_of_fmap. split.
  - intros H (x & -> & Hx). assert (Hf : x ∈ filter (λ y, key y = key x) l) by (by apply list_elem_of_filter).
    rewrite H in Hf. by apply not_elem_of_nil in Hf.
  - intros H. destruct (filter _ l) as [|x r] eqn:E; [done|]. destruct H. exists x.
    assert (Hf : x ∈ filter (λ y, key y = k) l) by (rewrite E; by left).
    apply list_elem_of_filter in Hf as [? ?]. by split.
Qed.

Lemma last_for_perm {A K} `{EqDecision K} (key : A -> K) k l l' :
  NoDup (key <$> l) -> l ≡ₚ l' -> last_for key k l = last_for key k l'.
Proof.
  intros Hnd Hp. unfold last_for.
  assert (Hf : filter (λ x, key x = k) l ≡ₚ filter (λ x, key x = k) l') by (by rewrite Hp).
  assert (Hl : length (filter (λ x, key x = k) l) <= 1).
  { clear -Hnd. induction l as [|x l IH]; [simpl; lia|]. cbn [fmap list_fmap] in Hnd. apply NoDup_cons in Hnd as [Hx Hnd].
    rewrite filter_cons. case_decide as Hk; [|by apply IH]. simpl.
    replace (filter (λ y, key y = k) l) with (@nil A); [simpl; lia|]. symmetry.
    destruct (filter (λ y, key y = k) l) as [|y r] eqn:E; [done|]. destruct Hx. apply list_elem_of_fmap. exists y.
    assert (Hy : y ∈ filter (λ y, key y = k) l) by (rewrite E; by left).
    apply list_elem_of_filter in Hy as [Hyk ?]. by rewrite Hk. }
  destruct (filter (λ x, key x = k) l) as [|x [|]]; simpl in Hl; [|..|lia].
  - by apply Permutation_nil in Hf as ->.
  - by apply Permutation_singleton_l in Hf as ->.
Qed.

Lemma foldl_put {A} (key : A -> Pair) (field : A -> pairSources -> pairSources) l m p :
  (forall x y s, field x (field y s) = field x s) ->
  foldl (λ m x, put (key x) (field x) m) m l !! p =
  match last_for key p l with
  | Some x => Some (field x (default no_sources (m !! p)))
  | None => m !! p
  end.
Proof.
  intros Hf. induction l as [|x l IH] using rev_ind; [done|].
  rewrite foldl_app, last_for_snoc. simpl. unfold put at 1. destruct (decide (key x = p)) as [->|Hk].
  - rewrite lookup_insert_eq, IH. f_equal. destruct (last_for key p l); [apply Hf|done].
  - by rewrite lookup_insert_ne.
Qed.

Lemma foldl_insert_lookup {A K} `{Countable K} (key : A -> K) l k :
  foldl (λ m x, <[key x := x]> m) (∅ : gmap K A) l !! k = last_for key k l.
Proof.
  induction l as [|x l IH] using rev_ind; [done|]. rewrite foldl_app, last_for_snoc. simpl.
  destruct (decide (key x = k)) as [->|]; [by rewrite lookup_insert_eq|by rewrite lookup_insert_ne].
Qed.

(** Every pair one of the three sources names. *)
Definition examined (input : diffInput) : list Pair :=
  (Desired_Pair <$> Input_Desired input) ++ (Recorded_Pair <$> Input_Recorded input) ++
  (Observed_Pair <$> Input_Observed input).

(** What the three sources and the run say of a pair. *)
Definition raw_source (input : diffInput) (p : Pair) : pairSources :=
  {| Desired := default no_desired (last_for Desired_Pair p (Input_Desired input));
     Recorded := default no_recorded (last_for Recorded_Pair p (Input_Recorded input));
     Observed := default no_observed (last_for Observed_Pair p (Input_Observed input));
     Source_Target := unresolved; Source_Instance := [] |}.

Definition listed_source (input : diffInput) (p : Pair) : pairSources :=
  match last_for Desired_Name (Pair_Listener p) (Input_Listeners input) with
  | Some listener => with_listener listener p (raw_source input p)
  | None => raw_source input p
  end.

Definition source_of (input : diffInput) (p : Pair) : pairSources :=
  shortCircuitSpecificationComparison
    {| Desired := Desired (listed_source input p); Recorded := Recorded (listed_source input p);
       Observed := Observed (listed_source input p);
       Source_Target := default unresolved (Targets input !! Pair_Listener p);
       Source_Instance := Input_Instance input |}.

Lemma collect_lookup input p :
  collectPairSources input !! p = if decide (p ∈ examined input) then Some (listed_source input p) else None.
Proof.
  unfold collectPairSources, applyDesiredListeners. rewrite map_lookup_imap, foldl_insert_lookup.
  rewrite (foldl_put Observed_Pair with_observed), (foldl_put Recorded_Pair with_recorded),
    (foldl_put Desired_Pair with_desired) by done.
  rewrite lookup_empty. unfold examined, listed_source, raw_source.
  destruct (last_for Desired_Pair p (Input_Desired input)) eqn:Hd,
    (last_for Recorded_Pair p (Input_Recorded input)) eqn:Hr,
    (last_for Observed_Pair p (Input_Observed input)) eqn:Ho; simpl;
  first [ rewrite decide_True; [by destruct (last_for Desired_Name _ _)|]
        | rewrite decide_False; [done|]; rewrite !not_elem_of_app; split_and!; by eapply last_for_None ];
  rewrite !elem_of_app; clear -Hd Hr Ho;
  first [ apply last_for_Some in Hd as [? <-]; left; by apply list_elem_of_fmap_2
        | apply last_for_Some in Hr as [? <-]; right; left; by apply list_elem_of_fmap_2
        | apply last_for_Some in Ho as [? <-]; right; right; by apply list_elem_of_fmap_2 ].
Qed.

Lemma prepared_source input p :
  p ∈ examined input -> preparedPairSource input (collectPairSources input) p = source_of input p.
Proof. intros Hp. unfold preparedPairSource. by rewrite collect_lookup, decide_True. Qed.

#[export] Instance comparePairs_order : Comparison comparePairs.
Proof. apply (or_else_order Pair_Listener Pair_Operation); [apply _..|]. intros [] []; simpl. congruence. Qed.

(** Nothing is relied on of a walk but that it visits every key once. *)
Class Walks (walk : gmap Pair pairSources -> list Pair) : Prop :=
  walks sources : walk sources ≡ₚ fst <$> map_to_list sources.

(** Two such orders. *)
Definition key_walk (sources : gmap Pair pairSources) : list Pair := fst <$> map_to_list sources.
Definition backward_walk (sources : gmap Pair pairSources) : list Pair := reverse (fst <$> map_to_list sources).
#[export] Instance key_walks : Walks key_walk.
Proof. by intros sources. Qed.
#[export] Instance backward_walks : Walks backward_walk.
Proof. intros sources. apply reverse_Permutation. Qed.

Lemma elem_of_orderedPairs walk `{!Walks walk} input p :
  p ∈ orderedPairs walk (collectPairSources input) <-> p ∈ examined input.
Proof.
  unfold orderedPairs. rewrite merge_sort_Permutation, (walks (walk := walk)), list_elem_of_fmap. split.
  - intros ([q s] & -> & H%elem_of_map_to_list). rewrite collect_lookup in H. by case_decide.
  - intros H. exists (p, listed_source input p). split; [done|]. apply elem_of_map_to_list.
    by rewrite collect_lookup, decide_True.
Qed.

Lemma NoDup_orderedPairs walk `{!Walks walk} sources : NoDup (orderedPairs walk sources).
Proof. unfold orderedPairs. rewrite merge_sort_Permutation, (walks (walk := walk)). apply NoDup_fst_map_to_list. Qed.

Lemma orderedPairs_any walk walk' `{!Walks walk, !Walks walk'} sources :
  orderedPairs walk sources = orderedPairs walk' sources.
Proof.
  unfold orderedPairs. apply (StronglySorted_unique (below comparePairs)); [apply (StronglySorted_merge_sort _)..|].
  by rewrite !merge_sort_Permutation, (walks (walk := walk)), (walks (walk := walk')).
Qed.

(** ** Ownership *)

Lemma Owned_iff row object instance :
  Owned (DetermineOwnership row object instance) = true <->
  Present row = true /\ Object_Marker object = Some (marker instance (Row_Listener row) (Row_Operation row)) /\
  marker_field instance /\ marker_field (Row_Listener row) /\ marker_field (Row_Operation row).
Proof.
  set (mine := {| Instance_ := instance; Listener_ := Row_Listener row; Operation_ := Row_Operation row |}).
  assert (Hmine : parseCatalogMarker (Object_Marker object) = Some mine <->
    Object_Marker object = Some (marker instance (Row_Listener row) (Row_Operation row)) /\
    marker_field instance /\ marker_field (Row_Listener row) /\ marker_field (Row_Operation row)).
  { destruct (Object_Marker object) as [found|]; [|naive_solver]. rewrite parseCatalogMarker_iff. simpl. naive_solver. }
  rewrite <- Hmine. unfold DetermineOwnership. destruct (Present row); cbn [negb]; [|naive_solver].
  destruct (parseCatalogMarker (Object_Marker object)) as [[i l o]|]; [|naive_solver].
  cbn [Instance_ Listener_ Operation_]. unfold mine. repeat case_bool_decide; simpl; naive_solver.
Qed.

(** An object found for a pair is proven this instance's own. *)
Definition ours (instance : gostring) (p : Pair) (marker_found : option gostring) : Prop :=
  marker_found = Some (marker instance (Pair_Listener p) (Pair_Operation p)).

Lemma source_recorded input p : Recorded (source_of input p) = default no_recorded (last_for Recorded_Pair p (Input_Recorded input)).
Proof. unfold source_of, listed_source, shortCircuitSpecificationComparison, raw_source.
  by repeat case_match. Qed.

Lemma source_observed input p : Observed (source_of input p) = default no_observed (last_for Observed_Pair p (Input_Observed input)).
Proof. unfold source_of, listed_source, shortCircuitSpecificationComparison, raw_source.
  by repeat case_match. Qed.

Lemma source_target input p : Source_Target (source_of input p) = default unresolved (Targets input !! Pair_Listener p).
Proof. unfold source_of, shortCircuitSpecificationComparison. by case_match. Qed.

Lemma source_instance input p : Source_Instance (source_of input p) = Input_Instance input.
Proof. unfold source_of, shortCircuitSpecificationComparison. by case_match. Qed.

Lemma source_desired_pair input p :
  Desired_Pair (Desired (source_of input p)) = p \/
  (Desired_Pair (Desired (source_of input p)) = no_pair /\ last_for Desired_Pair p (Input_Desired input) = None).
Proof.
  unfold source_of, listed_source, shortCircuitSpecificationComparison, raw_source.
  destruct (last_for Desired_Name _ _); cbn [Desired with_listener with_desired SpecificationKnown];
    [by case_match; left|].
  destruct (last_for Desired_Pair p _) as [d|] eqn:Hd; cbn [default from_option id];
    [apply last_for_Some in Hd as [_ Hd]|]; case_match; auto.
Qed.

Lemma pair_of_source input p :
  p ∈ examined input -> Pair_Listener p <> [] -> pair_of (source_of input p) = p.
Proof.
  intros Hp Hn. unfold pair_of. rewrite source_recorded, source_observed.
  destruct (source_desired_pair input p) as [->|[-> Hd]]; [by rewrite bool_decide_eq_false_2|].
  cbn [Pair_Listener no_pair]. rewrite bool_decide_eq_true_2 by done. cbn [negb].
  destruct (last_for Recorded_Pair p (Input_Recorded input)) as [r|] eqn:Hr; cbn [default from_option id].
  { apply last_for_Some in Hr as [_ ->]. by rewrite bool_decide_eq_false_2. }
  cbn [Recorded_Pair no_recorded Pair_Listener no_pair]. rewrite bool_decide_eq_true_2 by done. cbn [negb].
  destruct (last_for Observed_Pair p (Input_Observed input)) as [o|] eqn:Ho; cbn [default from_option id].
  { by apply last_for_Some in Ho as [_ ->]. }
  apply last_for_None in Hd, Hr, Ho. unfold examined in Hp. rewrite !elem_of_app in Hp. tauto.
Qed.

(** ** The plan *)

Section Plan.
Context (quoted sha256_hex : gostring -> gostring) (walk : gmap Pair pairSources -> list Pair) `{!Walks walk}.

Local Abbreviation classify := (classifyPair quoted sha256_hex).
Local Abbreviation plan_of := (diff quoted sha256_hex walk).

Lemma foldl_append f (pairs : list Pair) result :
  let result' := foldl (λ result pair, appendClassification result (f pair)) result pairs in
  Refusals result' = Refusals result ++ omap (λ p, Classified_Refusal (f p)) pairs /\
  Actions result' = Actions result ++
    omap (λ p, match Classified_Refusal (f p) with Some _ => None | None => Classified_Action (f p) end) pairs /\
  Examined result' = Examined result /\ Diagnostics result' = Diagnostics result.
Proof.
  revert result. induction pairs as [|p pairs IH]; intros result; simpl; [by rewrite !app_nil_r|].
  destruct (IH (appendClassification result (f p))) as (-> & -> & -> & ->). unfold appendClassification.
  destruct (Classified_Refusal (f p)); simpl; [by rewrite <- app_assoc|].
  destruct (Classified_Action (f p)); simpl; [by rewrite <- app_assoc|done].
Qed.

Definition refusals_of (input : diffInput) : list Refusal :=
  omap (λ p, Classified_Refusal (classify (source_of input p))) (orderedPairs walk (collectPairSources input)).

Definition actions_of (input : diffInput) : list Action :=
  omap (λ p, match Classified_Refusal (classify (source_of input p)) with
             | Some _ => None
             | None => Classified_Action (classify (source_of input p))
             end) (orderedPairs walk (collectPairSources input)).

Lemma omap_ext_in {A B} (f g : A -> option B) (l : list A) : (forall x, x ∈ l -> f x = g x) -> omap f l = omap g l.
Proof.
  induction l as [|x l IH]; intros H; [done|]. cbn [omap list_omap]. rewrite (H x) by (by left).
  rewrite IH; [done|]. intros y Hy. apply H. by right.
Qed.

Lemma diff_eq input :
  plan_of input =
  {| Actions := if bool_decide (refusals_of input = []) then orderedActions (actions_of input) else [];
     Examined := length (orderedPairs walk (collectPairSources input));
     Refusals := refusals_of input; Diagnostics := [];
     Plan_Verdict := if bool_decide (refusals_of input = []) then
                       if bool_decide (actions_of input = []) then VerdictClean else VerdictChangesPending
                     else VerdictError |}.
Proof.
  unfold diff, finaliseDiff.
  set (r0 := {| Actions := []; Examined := _; Refusals := []; Diagnostics := []; Plan_Verdict := _ |}).
  destruct (foldl_append (λ p, classify (preparedPairSource input (collectPairSources input) p))
              (orderedPairs walk (collectPairSources input)) r0) as (Hr & Ha & He & Hd).
  set (r := foldl _ r0 _) in *.
  assert (Hr' : Refusals r = refusals_of input).
  { rewrite Hr. apply omap_ext_in. intros p Hp%(elem_of_orderedPairs walk). by rewrite prepared_source. }
  assert (Ha' : Actions r = actions_of input).
  { rewrite Ha. apply omap_ext_in. intros p Hp%(elem_of_orderedPairs walk). by rewrite prepared_source. }
  rewrite Hr'. destruct (refusals_of input) as [|x rest] eqn:E; cbn [length Nat.eqb negb].
  - rewrite bool_decide_eq_true_2 by done. unfold with_actions. rewrite Ha', Hr', He, Hd. f_equal.
    destruct (actions_of input) as [|a l] eqn:El; [done|].
    rewrite (bool_decide_eq_false_2 (a :: l = [])) by done.
    destruct (orderedActions (a :: l)) eqn:Eo; [|done].
    pose proof (merge_sort_Permutation (below compareActions) (a :: l)) as P.
    unfold orderedActions in Eo. rewrite Eo in P. by apply Permutation_nil_cons in P.
  - rewrite bool_decide_eq_false_2 by done. unfold with_actions. by rewrite Hr', He, Hd.
Qed.

Lemma refusals_nil input :
  refusals_of input = [] <-> forall p, p ∈ examined input -> Classified_Refusal (classify (source_of input p)) = None.
Proof.
  unfold refusals_of. setoid_rewrite <- (elem_of_orderedPairs walk).
  induction (orderedPairs walk (collectPairSources input)) as [|p l IH]; cbn [omap list_omap].
  { split; [|done]. intros _ p Hp. by apply not_elem_of_nil in Hp. }
  destruct (Classified_Refusal (classify (source_of input p))) eqn:E.
  - split; [done|]. intros H. specialize (H p ltac:(by left)). congruence.
  - rewrite IH. split; intros H q; [intros [->|Hq]%elem_of_cons; auto|]. intros Hq. apply H. by right.
Qed.

Lemma actions_nil input :
  refusals_of input = [] ->
  actions_of input = [] <-> forall p, p ∈ examined input -> Classified_Action (classify (source_of input p)) = None.
Proof.
  intros Hr. pose proof (proj1 (refusals_nil input) Hr) as Hn. setoid_rewrite <- (elem_of_orderedPairs walk) in Hn.
  unfold actions_of. setoid_rewrite <- (elem_of_orderedPairs walk). revert Hn.
  induction (orderedPairs walk (collectPairSources input)) as [|p l IH]; intros Hn; cbn [omap list_omap].
  { split; [|done]. intros _ p Hp. by apply not_elem_of_nil in Hp. }
  rewrite Hn by (by left). destruct (Classified_Action (classify (source_of input p))) eqn:E.
  - split; [done|]. intros H. specialize (H p ltac:(by left)). congruence.
  - rewrite IH by (intros q Hq; apply Hn; by right).
    split; intros H q; [intros [->|Hq]%elem_of_cons; auto|]. intros Hq. apply H. by right.
Qed.

Lemma elem_of_actions input a :
  a ∈ Actions (plan_of input) ->
  refusals_of input = [] /\ exists p, p ∈ examined input /\ Classified_Action (classify (source_of input p)) = Some a.
Proof.
  rewrite diff_eq. cbn [Actions]. case_bool_decide as Hr; [|by intros ?%not_elem_of_nil].
  unfold orderedActions. rewrite merge_sort_Permutation. unfold actions_of.
  rewrite list_elem_of_omap. intros (p & Hp%(elem_of_orderedPairs walk) & E). split; [done|]. exists p. split; [done|].
  by destruct (Classified_Refusal _).
Qed.

(** An action concerns the pair it was classified for. *)
Lemma classified_pair source a : Classified_Action (classify source) = Some a -> Action_Pair a = pair_of source.
Proof.
  unfold classifyPair, refusedWith, classifyRemovedListener, classifyRemovedOperation, classifyDisabled,
    classifyManagedPair, classifiedAction.
  repeat case_match; cbn [Classified_Action unclassified]; intros [=]; by subst.
Qed.

(** A pair nothing refuses: its target stands, and whatever is found of it is proven ours. *)
Lemma classify_unrefused source :
  Classified_Refusal (classify source) = None <->
  Resolution_Refusal (Source_Target source) = None /\ observedOwnershipRefusal quoted source = None.
Proof.
  unfold classifyPair. destruct (Resolution_Refusal _); [naive_solver|].
  destruct (observedOwnershipRefusal quoted source); [naive_solver|].
  unfold classifyRemovedListener, classifyRemovedOperation, classifyDisabled, classifyManagedPair, classifiedAction.
  repeat case_match; naive_solver.
Qed.

Lemma unrefused_owned input p :
  p ∈ examined input -> observedOwnershipRefusal quoted (source_of input p) = None ->
  let o := Observed (source_of input p) in
  (Observed_TriggerPresent o = true ->
     Recorded_TriggerPresent (Recorded (source_of input p)) = true /\
     ours (Input_Instance input) p (Trigger_Marker (Observed_Trigger o))) /\
  (FunctionPresent o = true ->
     Recorded_TriggerPresent (Recorded (source_of input p)) = true /\
     ours (Input_Instance input) p (Function_Marker (Observed_Function o))).
Proof.
  intros Hp. unfold observedOwnershipRefusal. rewrite source_instance. cbv zeta. set (s := source_of input p).
  assert (Hrow : Recorded_TriggerPresent (Recorded s) = true -> Recorded_Pair (Recorded s) = p).
  { unfold s. rewrite source_recorded. destruct (last_for Recorded_Pair p _) as [r|] eqn:Hr; [|done].
    by apply last_for_Some in Hr as [_ Hr]. }
  set (row := registryOwnershipRow (Recorded s)).
  assert (Howned : forall object, Owned (DetermineOwnership row object (Input_Instance input)) = true ->
    Recorded_TriggerPresent (Recorded s) = true /\ ours (Input_Instance input) p (Object_Marker object)).
  { intros object (Hpr & Hm & _)%Owned_iff. unfold row, registryOwnershipRow in Hpr, Hm. simpl in Hpr, Hm.
    split; [done|]. unfold ours. by rewrite Hrow in Hm. }
  destruct (Observed_TriggerPresent (Observed s) && _) eqn:E1; [done|].
  destruct (FunctionPresent (Observed s) && _) eqn:E2; [done|]. intros _.
  split; intros Ht.
  - apply andb_false_iff in E1 as [E1|E1%negb_false_iff]; [congruence|]. exact (Howned _ E1).
  - apply andb_false_iff in E2 as [E2|E2%negb_false_iff]; [congruence|]. exact (Howned _ E2).
Qed.

(** C10. The plan touches nothing it does not own, and one doubt stops it all: if a plan holds a
    single action, then no examined pair was refused -- every pair's target is resolved, and every
    trigger and function found under any pair is recorded in the registry and carries, byte for
    byte, this instance's marker for exactly that listener and operation -- and the action concerns
    a pair the three sources name. *)
Theorem plan_is_guarded input a :
  (forall p, p ∈ examined input -> Pair_Listener p <> []) ->
  a ∈ Actions (plan_of input) ->
  Action_Pair a ∈ examined input /\ Refusals (plan_of input) = [] /\
  forall p, p ∈ examined input ->
    let s := source_of input p in
    Resolution_Refusal (Source_Target s) = None /\
    (Observed_TriggerPresent (Observed s) = true ->
       Recorded_TriggerPresent (Recorded s) = true /\
       ours (Input_Instance input) p (Trigger_Marker (Observed_Trigger (Observed s)))) /\
    (FunctionPresent (Observed s) = true ->
       Recorded_TriggerPresent (Recorded s) = true /\
       ours (Input_Instance input) p (Function_Marker (Observed_Function (Observed s)))).
Proof.
  intros Hnames (Hr & q & Hq & Hc)%elem_of_actions. split_and!.
  - rewrite (classified_pair _ _ Hc), pair_of_source by auto. done.
  - by rewrite diff_eq.
  - intros p Hp. rewrite refusals_nil in Hr. specialize (Hr p Hp). apply classify_unrefused in Hr as [Ht Ho].
    split; [done|]. by apply unrefused_owned.
Qed.
End Plan.

(** ** The plan's order *)

#[export] Instance compareActions_order : Comparison compareActions.
Proof.
  apply (or_else_order (λ a, Pair_Listener (Action_Pair a)) (λ a, (Pair_Operation (Action_Pair a), Action_Kind a))
           string_compare (λ x y, or_else (string_compare (fst x) (fst y)) (string_compare (snd x) (snd y)))).
  - apply _.
  - apply (or_else_order fst snd); [apply _..|]. intros [] []; simpl. congruence.
  - intros [[] ?] [[] ?]; simpl. congruence.
Qed.

Lemma NoDup_classified {A} (f : A -> option Action) (g : A -> Pair) (l : list A) :
  (forall x a, x ∈ l -> f x = Some a -> Action_Pair a = g x) -> NoDup (g <$> l) -> NoDup (Action_Pair <$> omap f l).
Proof.
  intros Hf. induction l as [|x l IH]; intros Hnd; [constructor|].
  cbn [fmap list_fmap] in Hnd. apply NoDup_cons in Hnd as [Hx Hnd].
  assert (IH' := IH (λ y a Hy, Hf y a (list_elem_of_further y x l Hy)) Hnd). clear IH.
  cbn [omap list_omap]. destruct (f x) as [a|] eqn:E; [|done]. cbn [fmap list_fmap]. apply NoDup_cons. split; [|done].
  rewrite (Hf x a) by (done || by left). intros (b & Hb & Hin)%list_elem_of_fmap. apply Hx.
  apply list_elem_of_omap in Hin as (y & Hy & Ey). apply list_elem_of_fmap. exists y. split; [|done].
  rewrite Hb. apply (Hf y b); [by right|done].
Qed.

(** The same three sources and listeners, in another order. *)
Record same_input (input input' : diffInput) : Prop := {
  same_desired : Input_Desired input ≡ₚ Input_Desired input';
  same_recorded : Input_Recorded input ≡ₚ Input_Recorded input';
  same_observed : Input_Observed input ≡ₚ Input_Observed input';
  same_listeners : Input_Listeners input ≡ₚ Input_Listeners input';
  same_targets : Targets input = Targets input';
  same_instance : Input_Instance input = Input_Instance input'
}.

(** One item per pair in each source, one listener per name. *)
Record distinct_input (input : diffInput) : Prop := {
  distinct_desired : NoDup (Desired_Pair <$> Input_Desired input);
  distinct_recorded : NoDup (Recorded_Pair <$> Input_Recorded input);
  distinct_observed : NoDup (Observed_Pair <$> Input_Observed input);
  distinct_listeners : NoDup (Desired_Name <$> Input_Listeners input)
}.

Lemma same_examined input input' p : same_input input input' -> p ∈ examined input <-> p ∈ examined input'.
Proof. intros [Hd Hr Ho _ _ _]. unfold examined. by rewrite Hd, Hr, Ho. Qed.

Lemma same_listed input input' p :
  same_input input input' -> distinct_input input -> listed_source input p = listed_source input' p.
Proof.
  intros [Hd Hr Ho Hl Ht Hi] [Nd Nr No Nl]. unfold listed_source, raw_source.
  by rewrite (last_for_perm _ _ _ _ Nd Hd), (last_for_perm _ _ _ _ Nr Hr), (last_for_perm _ _ _ _ No Ho),
    (last_for_perm _ _ _ _ Nl Hl).
Qed.

Lemma same_collect input input' :
  same_input input input' -> distinct_input input -> collectPairSources input = collectPairSources input'.
Proof.
  intros Hs Hd. apply map_eq. intros p. rewrite !collect_lookup, (same_listed _ _ p Hs Hd).
  pose proof (same_examined _ _ p Hs). repeat case_decide; naive_solver.
Qed.

(** A pair that needs nothing. *)
Definition settled (quoted sha256_hex : gostring -> gostring) (source : pairSources) : Prop :=
  Resolution_Refusal (Source_Target source) = None /\ observedOwnershipRefusal quoted source = None /\
  if Desired_ListenerPresent (Desired source) then
    if OperationPresent (Desired source) && Desired_Enabled (Desired source) then
      Recorded_TriggerPresent (Recorded source) = true /\ observedComplete source = true /\
      Resolution_Outcome (Source_Target source) <> targetDroppedAndRecreated /\
      Resolution_Outcome (Source_Target source) <> targetRenamed /\
      SpecificationChanged (Desired source) = false /\
      observedFingerprint sha256_hex source = DDLHash (Recorded_Trigger (Recorded source))
    else nothing_there source = true
  else nothing_there source = true /\ Recorded_ListenerPresent (Recorded source) = false.

Lemma classify_settled quoted sha256_hex source :
  (Classified_Refusal (classifyPair quoted sha256_hex source) = None /\
   Classified_Action (classifyPair quoted sha256_hex source) = None) <-> settled quoted sha256_hex source.
Proof.
  unfold settled. rewrite classify_unrefused. unfold classifyPair.
  destruct (Resolution_Refusal (Source_Target source)); [naive_solver|].
  destruct (observedOwnershipRefusal quoted source); [naive_solver|].
  destruct (Desired_ListenerPresent (Desired source)); cbn [negb].
  2: { unfold classifyRemovedListener. destruct (nothing_there source), (Recorded_ListenerPresent (Recorded source));
       cbn; naive_solver. }
  destruct (OperationPresent (Desired source)); cbn [negb andb].
  2: { unfold classifyRemovedOperation. destruct (nothing_there source); cbn; naive_solver. }
  destruct (Desired_Enabled (Desired source)); cbn [negb].
  2: { unfold classifyDisabled. destruct (nothing_there source); cbn; naive_solver. }
  unfold classifyManagedPair.
  destruct (Recorded_TriggerPresent (Recorded source)), (observedComplete source),
    (SpecificationChanged (Desired source)); repeat case_bool_decide; cbn; naive_solver.
Qed.

Section Verdicts.
Context (quoted sha256_hex : gostring -> gostring) (walk : gmap Pair pairSources -> list Pair) `{!Walks walk}.

(** A verdict means what it says. The plan is clean exactly when every pair the configuration,
    the registry or the catalog names needs nothing: wanted, recorded, installed whole on an
    unmoved table with the recorded fingerprint and the recorded specification; or unwanted and
    nowhere to be found. It is an error exactly when some pair is refused, and then it holds no
    action; otherwise changes are pending and there is an action. The exit codes tell the three
    apart. *)
Theorem verdict_means input :
  let plan := diff quoted sha256_hex walk input in
  (Plan_Verdict plan = VerdictClean <-> forall p, p ∈ examined input -> settled quoted sha256_hex (source_of input p)) /\
  (Plan_Verdict plan = VerdictError <->
     exists p r, p ∈ examined input /\ Classified_Refusal (classifyPair quoted sha256_hex (source_of input p)) = Some r) /\
  (Plan_Verdict plan = VerdictError -> Actions plan = [] /\ Refusals plan <> []) /\
  (Plan_Verdict plan = VerdictChangesPending <-> Actions plan <> []) /\
  ExitCode (Plan_Verdict plan) =
    match Refusals plan, Actions plan with _ :: _, _ => 1%Z | [], [] => 0%Z | [], _ :: _ => 2%Z end.
Proof.
  intros plan. unfold plan. rewrite (diff_eq _ _ walk). cbn [Plan_Verdict Actions Refusals].
  setoid_rewrite <- classify_settled.
  assert (Hperm : orderedActions (actions_of quoted sha256_hex walk input) ≡ₚ actions_of quoted sha256_hex walk input)
    by apply merge_sort_Permutation.
  assert (Hnil : orderedActions (actions_of quoted sha256_hex walk input) = [] <-> actions_of quoted sha256_hex walk input = []).
  { split; intros E; [|by rewrite E]. rewrite E in Hperm. by apply Permutation_nil in Hperm. }
  case_bool_decide as Hr.
  - pose proof (actions_nil quoted sha256_hex walk input Hr) as Ha. pose proof (proj1 (refusals_nil _ _ _ _) Hr) as Hn.
    rewrite Hr. split_and!.
    + case_bool_decide as E; [|split; [done|]; intros Hall; destruct E; apply Ha; intros p Hp; apply Hall, Hp].
      split; [|done]. intros _ p Hp. split; [by apply Hn|by apply Ha].
    + split; [by case_bool_decide|]. intros (p & r & Hp & E). by rewrite Hn in E.
    + by case_bool_decide.
    + rewrite Hnil. case_bool_decide; naive_solver.
    + case_bool_decide as E; [by rewrite (proj2 Hnil E)|].
      destruct (orderedActions _) eqn:El; [by destruct E; apply Hnil|done].
  - assert (exists p r, p ∈ examined input /\
      Classified_Refusal (classifyPair quoted sha256_hex (source_of input p)) = Some r) as (p & r & Hp & E).
    { destruct (refusals_of quoted sha256_hex walk input) as [|r rest] eqn:E; [done|].
      assert (Hin : r ∈ refusals_of quoted sha256_hex walk input) by (rewrite E; by left).
      unfold refusals_of in Hin. apply list_elem_of_omap in Hin as (p & Hp%(elem_of_orderedPairs walk) & Hc). eauto. }
    split_and!; try done.
    + split; [done|]. intros Hall. destruct (Hall p Hp) as [Hc _]. by rewrite E in Hc.
    + split; [|done]. eauto.
    + by destruct (refusals_of quoted sha256_hex walk input).
Qed.

(** C26. The plan is a function of what the sources hold, not of an order: Go's random map iteration
    cannot show, nor the order the sources were read in. Where each source names a pair once and the
    configuration a listener once, walking the map of pairs in any other order, and reordering the pairs
    of any source or the listeners, gives the same plan, refusals and rendering included; its actions
    and the pairs refused are sorted by listener and operation, and actions by kind; and, where every
    pair names its listener, no pair gets two actions. *)
Theorem plan_order_independent walk' `{!Walks walk'} input input' :
  same_input input input' -> distinct_input input ->
  diff quoted sha256_hex walk input = diff quoted sha256_hex walk' input' /\
  Render (diff quoted sha256_hex walk input) = Render (diff quoted sha256_hex walk' input') /\
  Sorted (below compareActions) (Actions (diff quoted sha256_hex walk input)) /\
  (exists pairs, Sorted (below comparePairs) pairs /\ NoDup pairs /\ (forall p, p ∈ pairs <-> p ∈ examined input) /\
     Examined (diff quoted sha256_hex walk input) = length pairs /\
     Refusals (diff quoted sha256_hex walk input) =
       omap (λ p, Classified_Refusal (classifyPair quoted sha256_hex (source_of input p))) pairs) /\
  ((forall p, p ∈ examined input -> Pair_Listener p <> []) ->
   NoDup (Action_Pair <$> Actions (diff quoted sha256_hex walk input))).
Proof.
  intros Hs Hd. assert (E : diff quoted sha256_hex walk input = diff quoted sha256_hex walk' input').
  { unfold diff. rewrite (same_collect _ _ Hs Hd), (orderedPairs_any walk walk'). f_equal. unfold preparedPairSource.
    by rewrite (same_targets _ _ Hs), (same_instance _ _ Hs). }
  split; [done|]. split; [by rewrite E|]. rewrite (diff_eq _ _ walk). cbn [Actions Examined Refusals].
  split; [case_bool_decide; [apply (Sorted_merge_sort _)|constructor]|]. split.
  - exists (orderedPairs walk (collectPairSources input)). split; [apply (Sorted_merge_sort _)|].
    split; [by apply NoDup_orderedPairs|]. split; [intros p; by apply elem_of_orderedPairs|done].
  - intros Hnames. case_bool_decide as Hr; [|constructor]. unfold orderedActions. rewrite merge_sort_Permutation.
    unfold actions_of. apply (NoDup_classified _ (λ p, p)); [|rewrite list_fmap_id; by apply NoDup_orderedPairs].
    intros p a Hp%(elem_of_orderedPairs walk) Hc. case_match; [done|].
    rewrite (classified_pair _ _ _ _ Hc). apply pair_of_source; auto.
Qed.

(** A refused target stops the whole plan, whether or not its listener is still configured: a
    pair whose target could not be resolved is refused before anything else about it is asked, so
    neither disabling the listener nor removing it from the configuration -- which is what the
    refusal of a missing table advises -- yields an action or a clean plan. *)
Theorem refused_target_stops_plan input p refusal :
  p ∈ examined input ->
  Resolution_Refusal (default unresolved (Targets input !! Pair_Listener p)) = Some refusal ->
  let plan := diff quoted sha256_hex walk input in
  Plan_Verdict plan = VerdictError /\ Actions plan = [] /\ refusal ∈ Refusals plan.
Proof.
  intros Hp Ht plan. unfold plan. rewrite (diff_eq _ _ walk). cbn [Plan_Verdict Actions Refusals].
  assert (Hin : refusal ∈ refusals_of quoted sha256_hex walk input).
  { unfold refusals_of. apply list_elem_of_omap. exists p. rewrite (elem_of_orderedPairs walk). split; [done|].
    unfold classifyPair. rewrite source_target, Ht. done. }
  rewrite bool_decide_eq_false_2; [done|]. intros E. rewrite E in Hin. by apply not_elem_of_nil in Hin.
Qed.
End Verdicts.

(** ** Where a recorded listener's table is *)

Section Moves.
Variable quoted : gostring -> gostring.
Variable Sanitize : list gostring -> gostring.

(** The text of the recorded table's refusals. *)
Definition moved_refusal (listener : Listener) (recorded : registryListener) : Refusal :=
  retargetedListenerRefusal quoted (Name listener) (TargetTable recorded) (Table (Trigger listener)).

(** What the configured name answers, given what the recorded one does. *)
Definition configured_answer (catalog : target_reader) (listener : Listener) (recorded : registryListener)
    (byName : option TargetReading) : outcome (option TargetReading) :=
  if bool_decide (Table (Trigger listener) = TargetTable recorded) then Ok byName
  else ResolveTarget catalog (Table (Trigger listener)).

(** A recorded listener's triggers stay on the table they were put on. When resolution ends
    without a refusal, either the recorded OID still stands, the target is that very relation, a
    configured name that answers at all answers to it, and the outcome says whether the name is
    still the recorded one; or that OID is gone and the target is what now answers to the recorded
    name. A configured table that is another than the living recorded one, and a recorded table
    that is gone with its name, are refused. The configured name is not looked at once the recorded
    OID is gone: a listener moved to another table then follows the recorded name all the same. *)
Theorem resolution_stays catalog listener recorded r :
  (forall o t, ResolveTargetOID catalog o = Ok (Some t) -> Reading_OID t = o) ->
  resolveListenerTarget quoted Sanitize catalog listener (Some recorded) = Ok r ->
  exists byOID byName configured,
    ResolveTargetOID catalog (TargetOID recorded) = Ok byOID /\
    ResolveTarget catalog (TargetTable recorded) = Ok byName /\
    configured_answer catalog listener recorded byName = Ok configured /\
    match byOID, byName with
    | Some table, _ =>
        Reading_OID table = TargetOID recorded /\
        match Resolution_Refusal r with
        | None =>
            Resolution_Target r = table /\
            (forall t, configured = Some t -> Reading_OID t = TargetOID recorded) /\
            exists name, Qualified Sanitize (Reading_Schema table) (Reading_Table table) = Ok name /\
              Resolution_Outcome r = if bool_decide (name = TargetTable recorded) then targetHealthy else targetRenamed
        | Some refusal =>
            refusal = moved_refusal listener recorded /\
            exists t, configured = Some t /\ Reading_OID t <> TargetOID recorded
        end
    | None, Some table => r = {| Resolution_Outcome := targetDroppedAndRecreated; Resolution_Target := table;
                                 Resolution_Refusal := None |}
    | None, None => r = droppedResolution quoted (Name listener) (TargetTable recorded)
    end.
Proof.
  intros Hoid H. unfold resolveListenerTarget in H.
  apply rbind_Ok in H as (byOID & Ho & H). apply rbind_Ok in H as (byName & Hn & H).
  apply rbind_Ok in H as (configured & Hc & H). exists byOID, byName, configured. split_and!; try done.
  destruct byOID as [table|].
  - split; [by apply Hoid|]. destruct (match configured with Some _ => _ | None => _ end) eqn:Hm.
    + injection H as <-. cbn. split; [done|]. destruct configured as [t|]; [|done].
      exists t. split; [done|]. by apply negb_true_iff, bool_decide_eq_false in Hm.
    + apply rbind_Ok in H as (same & Hs & H). unfold targetHasRecordedName in Hs.
      destruct (Qualified Sanitize _ _) as [name|] eqn:Eq; [|done]. injection Hs as <-. injection H as <-.
      unfold resolvedRecordedTarget, classifyTarget. cbn [state_recorded state_oid state_named state_sameName negb andb].
      assert (Hsame : forall t, configured = Some t -> Reading_OID t = TargetOID recorded).
      { intros t ->. by apply negb_false_iff, bool_decide_eq_true in Hm. }
      destruct (bool_decide (name = TargetTable recorded)) eqn:Eb; cbn;
        (split; [done|]; split; [done|]; exists name; split; [done|]; by rewrite Eb).
  - cbn [targetHasRecordedName rbind] in H. injection H as <-. by destruct byName.
Qed.
End Moves.

(** ** Witnesses *)

Definition sample_table : TargetReading :=
  {| Reading_OID := 16385; Reading_Schema := bs "shop"; Reading_Table := bs "orders";
     Reading_Columns := [bs "id"; bs "state"]; Reading_PrimaryKeyColumns := [bs "id"] |}.

Definition sample_pair (operation : string) : Pair := {| Pair_Listener := bs "orders"; Pair_Operation := bs operation |}.

(** Two operations wanted and nothing there yet; and a listener the configuration no longer has,
    whose table is gone. *)
Definition sample_input : diffInput :=
  {| Input_Desired :=
       [{| Desired_Pair := sample_pair "insert"; Desired_ListenerPresent := true; OperationPresent := true;
           Desired_Enabled := true; SpecificationChanged := false; SpecificationKnown := false; Desired_SpecHash := [] |};
        {| Desired_Pair := sample_pair "update"; Desired_ListenerPresent := true; OperationPresent := true;
           Desired_Enabled := true; SpecificationChanged := false; SpecificationKnown := false; Desired_SpecHash := [] |}];
     Input_Recorded := []; Input_Observed := [];
     Input_Listeners := [{| Desired_Name := bs "orders"; Listener_SpecHash := bs "1:00"; Listener_Enabled := true;
                            Listener_SpecificationKnown := true; ChangedOperations := ∅ |}];
     Targets := {[ bs "orders" := {| Resolution_Outcome := targetNew; Resolution_Target := sample_table;
                                     Resolution_Refusal := None |} ]};
     Input_Instance := bs "prod" |}.

Definition other_way_round (input : diffInput) : diffInput :=
  {| Input_Desired := reverse (Input_Desired input); Input_Recorded := reverse (Input_Recorded input);
     Input_Observed := reverse (Input_Observed input); Input_Listeners := reverse (Input_Listeners input);
     Targets := Targets input; Input_Instance := Input_Instance input |}.

Definition dropped_input : diffInput :=
  {| Input_Desired := [];
     Input_Recorded := [{| Recorded_Pair := sample_pair "insert"; Recorded_ListenerPresent := true;
                           Recorded_TriggerPresent := true; Recorded_Listener := no_registry_listener;
                           Recorded_Trigger := no_registry_trigger |}];
     Input_Observed := []; Input_Listeners := [];
     Targets := {[ bs "orders" := droppedResolution id (bs "orders") (bs "shop.orders") ]};
     Input_Instance := bs "prod" |}.

Definition sample_action (operation : string) : Action :=
  {| Action_Pair := sample_pair operation; Action_Kind := ActionCreate |}.

Lemma plan_is_guarded_witness :
  Actions (diff id id key_walk sample_input) = [sample_action "insert"; sample_action "update"] /\
  Refusals (diff id id key_walk sample_input) = [].
Proof.
  split; [vm_compute; reflexivity|].
  refine (proj1 (proj2 (plan_is_guarded id id key_walk sample_input (sample_action "insert") _ _))).
  - apply Forall_forall. by_compute.
  - replace (Actions _) with [sample_action "insert"; sample_action "update"] by (vm_compute; reflexivity). by left.
Defined.

(** Both sources read backwards and the map of pairs walked backwards. *)
Lemma plan_order_independent_witness :
  diff id id key_walk sample_input = diff id id backward_walk (other_way_round sample_input) /\
  Input_Desired sample_input <> Input_Desired (other_way_round sample_input) /\
  key_walk (collectPairSources sample_input) <> backward_walk (collectPairSources sample_input).
Proof.
  split; [|split; intros E; vm_compute in E; discriminate E].
  apply (plan_order_independent id id key_walk backward_walk sample_input (other_way_round sample_input)).
  - constructor; cbn [Input_Desired Input_Recorded Input_Observed Input_Listeners Targets Input_Instance other_way_round];
      solve [symmetry; apply reverse_Permutation|reflexivity].
  - constructor; by_compute.
Defined.

Lemma refused_target_stops_plan_witness :
  Plan_Verdict (diff id id key_walk dropped_input) = VerdictError /\ Actions (diff id id key_walk dropped_input) = [] /\
  droppedTargetRefusal id (bs "orders") (bs "shop.orders") ∈ Refusals (diff id id key_walk dropped_input).
Proof.
  apply (refused_target_stops_plan id id key_walk dropped_input (sample_pair "insert")).
  - by_compute.
  - vm_compute. reflexivity.
Defined.

(** A catalog of one table, under another name than the registry's. *)
Definition sample_reader : target_reader :=
  {| ResolveTarget := λ name, Ok (if bool_decide (name = bs "shop.orders") then Some sample_table else None);
     ResolveTargetOID := λ oid, Ok (if bool_decide (oid = 16385%Z) then Some sample_table else None) |}.

Lemma resolution_stays_witness :
  let recorded := {| Registry_Name := bs "orders"; Spec := []; Registry_SpecHash := []; TargetTable := bs "shop.purchases";
                     TargetOID := 16385; Registry_Enabled := true; AppliedAt := 0 |} in
  let listener := {| Name := bs "orders"; Enabled := true;
                     Trigger := {| Table := bs "shop.orders"; Operations_ := [];
                                   Payload_ := Payload_ (Trigger no_listener) |};
                     Delivery := idle_delivery |} in
  resolveListenerTarget id documented_Sanitize sample_reader listener (Some recorded) =
    Ok {| Resolution_Outcome := targetRenamed; Resolution_Target := sample_table; Resolution_Refusal := None |} /\
  exists byOID, ResolveTargetOID sample_reader 16385%Z = Ok byOID.
Proof.
  intros recorded listener.
  assert (E : resolveListenerTarget id documented_Sanitize sample_reader listener (Some recorded) =
    Ok {| Resolution_Outcome := targetRenamed; Resolution_Target := sample_table; Resolution_Refusal := None |})
    by (vm_compute; reflexivity).
  split; [exact E|].
  assert (Hoid : forall o t, ResolveTargetOID sample_reader o = Ok (Some t) -> Reading_OID t = o).
  { intros o t [= Ht]. case_bool_decide; [|discriminate Ht]. injection Ht as <-. symmetry. assumption. }
  destruct (resolution_stays id documented_Sanitize sample_reader listener recorded _ Hoid E) as (byOID & _ & _ & Ho & _).
  exists byOID. exact Ho.
Defined.
