(* ===== verification/Apply.v ===== *)
(** * Reconciliation against a database: [internal/reconcile]'s stateful half -- [catalog.go],
    [bootstrapprobe.go], [validator.go], [checkcatalog.go], [checkwhen.go], [compile.go],
    [registry.go], [reconcile.go], [objectapply.go], [ddltext.go], [applytx.go], [apply.go],
    [runlock.go]'s outcome, [queuecount.go] and [candidates.go].

    A [cluster] is what the code reads and changes: the catalog's relations, triggers and functions,
    the service schema's registry tables and the queue's rows per listener. What the server makes of
    a name, of a [when] clause and of a data-definition statement is a parameter ([ddl_server]), and
    so is which call fails ([read_fails], a driver's message under the name of the call). One apply
    transaction sees its own changes and nobody else's, so its readings and its statements are
    against one cluster. *)

From S2P Require Import Prelude Utf8 Quote Partition Config Generate Reconcile.

(** ** The database *)

Record relation_row := {
  rel_schema : gostring;
  rel_name : gostring;
  rel_columns : list gostring;
  rel_keys : list gostring
}.

Record cluster := {
  schemas : gset gostring;
  relations : gmap Z relation_row;
  triggers_of : gmap (Z * gostring) TriggerReading;
  functions : gmap Z FunctionReading;
  listener_rows : gmap gostring registryListener;
  trigger_rows : gmap (gostring * gostring) registryTrigger;
  queue_rows : gmap gostring (Z * Z * Z)
}.

(** What a table-lock wait saw of the session that blocked it ([blockerwatch.go]). *)
Record blockerObservation := { backend : gostring; monitorUnavailable : bool }.

Definition description (observed : blockerObservation) : gostring :=
  if monitorUnavailable observed then bs "could not be identified"
  else if bool_decide (backend observed = []) then bs "no blocker"
  else backend observed.

Inductive ddl_error :=
  | lock_timed_out (observed : blockerObservation)
  | ddl_refused (text : gostring).

(** What [Prepare] answers about a probe: valid, refused by the server, or no answer. *)
Inductive analysis := analysed | rejected (text : gostring) | unanswered (text : gostring).

(** [jsonb] is what a [jsonb] column keeps of a document, as the server prints it when it is read, or
    the server's refusal of it; [jsonb_equal] is the type's equality, on documents as printed. *)
Record ddl_server := {
  regclass : cluster -> gostring -> option Z;
  analyse : cluster -> gostring -> analysis;
  ddl : gostring -> cluster -> result ddl_error cluster;
  by_name_order : list gostring -> list gostring;
  jsonb : gostring -> outcome gostring;
  jsonb_equal : gostring -> gostring -> bool
}.

Definition with_registry (l : gmap gostring registryListener) (t : gmap (gostring * gostring) registryTrigger)
    (c : cluster) : cluster :=
  {| schemas := schemas c; relations := relations c; triggers_of := triggers_of c; functions := functions c;
     listener_rows := l; trigger_rows := t; queue_rows := queue_rows c |}.

Definition TableListeners : gostring := bs "listeners".
Definition TableListenerTriggers : gostring := bs "listener_triggers".

Section Apply.
Variable Sanitize : list gostring -> gostring.
Variables (quoted sha256_hex : gostring -> gostring).
Variable marshal_spec : TriggerSpec -> gostring.
Variable marshal_operation : Operation -> gostring.
Variable unmarshal_spec : gostring -> outcome TriggerSpec.
Variable server : ddl_server.
Variable read_fails : gostring -> option gostring.
Variable tx_now : Z.

(** A statement, and what the server says should it fail. *)
Definition attempt {A} (doing : gostring) (answer : A) : outcome A :=
  match read_fails doing with Some e => Err e | None => Ok answer end.

(** A catalog query, its failure reported under its name. *)
Definition query {A} (doing : gostring) (answer : A) : outcome A :=
  match attempt doing answer with Err e => Err (doing ++ bs ": " ++ e) | answered => answered end.

(** ** catalog.go *)

Definition reading_of (c : cluster) (oid : Z) : option TargetReading :=
  match relations c !! oid with
  | Some row => Some {| Reading_OID := oid; Reading_Schema := rel_schema row; Reading_Table := rel_name row;
                        Reading_Columns := rel_columns row; Reading_PrimaryKeyColumns := rel_keys row |}
  | None => None
  end.

(** [resolveTarget]: by OID, or by the name the server resolves. *)
Definition resolve_target (c : cluster) (oid : option Z) : outcome (option TargetReading) :=
  query (bs "resolve catalog target") (match oid with Some oid => reading_of c oid | None => None end).

Definition catalog_of (c : cluster) : target_reader :=
  {| ResolveTarget := λ name, resolve_target c (regclass server c name);
     ResolveTargetOID := λ oid, resolve_target c (Some oid) |}.

Definition ReadTrigger (c : cluster) (targetOID : Z) (name : gostring) : outcome (option TriggerReading) :=
  query (bs "read trigger") (triggers_of c !! (targetOID, name)).

Definition ReadFunction (c : cluster) (oid : Z) : outcome (option FunctionReading) :=
  query (bs "read function") (functions c !! oid).

Definition ReadPair (c : cluster) (targetOID : Z) (name : gostring) :
    outcome (option (TriggerReading * FunctionReading)) :=
  (let! trigger := ReadTrigger c targetOID name in
   match trigger with
   | None => Ok None
   | Some trigger =>
       let! function := ReadFunction c (FunctionOID trigger) in
       Ok (match function with Some function => Some (trigger, function) | None => None end)
   end)%res.

Definition SchemaExists (c : cluster) (schema : gostring) : outcome bool :=
  query (bs "read catalog schema") (bool_decide (schema ∈ schemas c)).

(** ** registry.go *)

Definition qualifiedRegistryTable (serviceSchema table : gostring) : outcome gostring :=
  match Qualified Sanitize serviceSchema table with
  | Ok qualified => Ok qualified
  | Err fault => Err (bs "registry table name is unusable: " ++ fault_text fault)
  end.

Definition canonicalTarget (stored : gostring) : outcome gostring :=
  match SplitQualified stored with
  | None => Err (bs "registry target table has an invalid qualified spelling")
  | Some (targetSchema, targetTable) =>
      match Qualified Sanitize targetSchema targetTable with
      | Ok target => Ok target
      | Err fault => Err (bs "registry target name is unusable: " ++ fault_text fault)
      end
  end.

(** The rows of one listener, as [ORDER BY operation] lists them. *)
Definition stored_triggers (c : cluster) (name : gostring) : list registryTrigger :=
  omap (λ operation, trigger_rows c !! (name, operation))
    (by_name_order server (snd <$> filter (λ k, fst k = name) (fst <$> map_to_list (trigger_rows c)))).

(** [Ok None] is [pgx.ErrNoRows]. A row holds its specification as the server keeps and prints it. *)
Definition readRegistry (c : cluster) (serviceSchema name : gostring) : outcome (option registryReading) :=
  (let! _ := qualifiedRegistryTable serviceSchema TableListeners in
   let! _ := qualifiedRegistryTable serviceSchema TableListenerTriggers in
   let! stored := attempt (bs "read registry") (listener_rows c !! name) in
   match stored with
   | None => Ok None
   | Some listener =>
       match SplitQualified (TargetTable listener) with
       | None => Err (bs "registry listener " ++ quoted name ++ bs " has an invalid stored target table")
       | Some _ =>
           let! rows := attempt (bs "read registry triggers") (stored_triggers c name) in
           Ok (Some {| Reading_Listener := listener; Triggers := rows |})
       end
   end)%res.

Fixpoint read_each (c : cluster) (serviceSchema : gostring) (names : list gostring) : outcome (list registryReading) :=
  match names with
  | [] => Ok []
  | name :: rest =>
      (let! reading := readRegistry c serviceSchema name in
       match reading with
       | None => Err (bs "no rows in result set")
       | Some reading => let! readings := read_each c serviceSchema rest in Ok (reading :: readings)
       end)%res
  end.

Definition readRegistries (c : cluster) (serviceSchema : gostring) : outcome (list registryReading) :=
  (let! _ := qualifiedRegistryTable serviceSchema TableListeners in
   let! names := attempt (bs "list registry") (by_name_order server (fst <$> map_to_list (listener_rows c))) in
   read_each c serviceSchema names)%res.

Definition registryByName (readings : list registryReading) : gmap gostring registryReading :=
  foldl (λ byName reading, <[Registry_Name (Reading_Listener reading) := reading]> byName) ∅ readings.

(** The columns the conflict clause compares: the specification as the documents of a [jsonb] column,
    whatever their spelling. *)
Definition same_listener_row (a b : registryListener) : bool :=
  jsonb_equal server (Spec a) (Spec b) && bool_decide (Registry_SpecHash a = Registry_SpecHash b) &&
  bool_decide (TargetTable a = TargetTable b) && bool_decide (TargetOID a = TargetOID b) &&
  bool_decide (Registry_Enabled a = Registry_Enabled b).

Definition stamped (listener : registryListener) : registryListener :=
  {| Registry_Name := Registry_Name listener; Spec := Spec listener; Registry_SpecHash := Registry_SpecHash listener;
     TargetTable := TargetTable listener; TargetOID := TargetOID listener;
     Registry_Enabled := Registry_Enabled listener; AppliedAt := tx_now |}.

(** The upsert of the listener's row, and whether it affected one. *)
Definition upsert_listener (listener : registryListener) (rows : gmap gostring registryListener) :
    gmap gostring registryListener * bool :=
  match rows !! Registry_Name listener with
  | Some stored =>
      if same_listener_row stored listener then (rows, false)
      else (<[Registry_Name listener := stamped listener]> rows, true)
  | None => (<[Registry_Name listener := stamped listener]> rows, true)
  end.

Definition upsert_trigger (name : gostring) (trigger : registryTrigger)
    (at_ : gmap (gostring * gostring) registryTrigger * bool) : gmap (gostring * gostring) registryTrigger * bool :=
  let (rows, changed) := at_ in
  if bool_decide (rows !! (name, Registry_Operation trigger) = Some trigger) then (rows, changed)
  else (<[(name, Registry_Operation trigger) := trigger]> rows, true).

(** [DELETE ... WHERE listener = $1 AND operation <> ALL($2)]. *)
Definition superseded (name : gostring) (operations : list gostring) (k : gostring * gostring) : Prop :=
  fst k = name /\ snd k ∉ operations.
#[export] Instance superseded_dec name operations k : Decision (superseded name operations k).
Proof. unfold superseded. apply _. Defined.

Definition writeRegistry (c : cluster) (serviceSchema : gostring) (listener : registryListener)
    (triggers : list registryTrigger) : outcome (registryListener * cluster) :=
  (let! _ := qualifiedRegistryTable serviceSchema TableListeners in
   let! _ := qualifiedRegistryTable serviceSchema TableListenerTriggers in
   let! target := canonicalTarget (TargetTable listener) in
   let! document := jsonb server (Spec listener) in
   let listener := {| Registry_Name := Registry_Name listener; Spec := document;
                      Registry_SpecHash := Registry_SpecHash listener; TargetTable := target;
                      TargetOID := TargetOID listener; Registry_Enabled := Registry_Enabled listener;
                      AppliedAt := AppliedAt listener |} in
   let! (rows, listenerChanged) := attempt (bs "write registry listener") (upsert_listener listener (listener_rows c)) in
   let! (operations, changed) := attempt (bs "write registry trigger")
     (foldl (λ at_ trigger, upsert_trigger (Registry_Name listener) trigger at_)
        (trigger_rows c, listenerChanged) triggers) in
   let gone := superseded (Registry_Name listener) (Registry_Operation <$> triggers) in
   let! kept := attempt (bs "delete registry triggers") (filter (λ kv, ~ gone (fst kv)) operations) in
   let changed := changed || negb (size kept =? size operations)%nat in
   let! rows := if changed && negb listenerChanged then
                  attempt (bs "touch registry listener") (alter stamped (Registry_Name listener) rows)
                else Ok rows in
   let c' := with_registry rows kept c in
   let! reading := readRegistry c' serviceSchema (Registry_Name listener) in
   match reading with
   | None => Err (bs "no rows in result set")
   | Some reading => Ok (Reading_Listener reading, c')
   end)%res.

(** The foreign key's cascade takes the listener's trigger rows with it. *)
Definition deleteRegistry (c : cluster) (serviceSchema name : gostring) : outcome cluster :=
  (let! _ := qualifiedRegistryTable serviceSchema TableListeners in
   attempt (bs "delete registry listener")
     (with_registry (delete name (listener_rows c)) (filter (λ kv, fst (fst kv) <> name) (trigger_rows c)) c))%res.

(** ** bootstrapprobe.go *)

(** [schema.Objects] declares both tables, so the inventory check never fires. *)
Fixpoint probe_tables (c : cluster) (serviceSchema : gostring) (tables : list gostring) : outcome (option Refusal) :=
  match tables with
  | [] => Ok None
  | table :: rest =>
      (let! qualified := qualifiedRegistryTable serviceSchema table in
       match ResolveTarget (catalog_of c) qualified with
       | Err _ => Err (bs "cannot inspect bootstrap tables")
       | Ok None => Ok (Some (absentBootstrapRefusal qualified))
       | Ok (Some _) => probe_tables c serviceSchema rest
       end)%res
  end.

Definition probeBootstrap (c : cluster) (serviceSchema : gostring) : outcome (option Refusal) :=
  match Quoted Sanitize serviceSchema with
  | Err fault => Err (bs "bootstrap schema name is unusable: " ++ fault_text fault)
  | Ok quotedSchema =>
      match SchemaExists c serviceSchema with
      | Err _ => Err (bs "cannot inspect bootstrap schema")
      | Ok false => Ok (Some (absentBootstrapRefusal (bs "schema " ++ quotedSchema)))
      | Ok true => probe_tables c serviceSchema [TableListeners; TableListenerTriggers]
      end
  end.

(** ** rules.go, checkcatalog.go, checkwhen.go and validator.go *)

Definition deferredRules (kind : DeferredKind) : option gostring :=
  match kind with
  | TableExists => Some (bs "D1")
  | ColumnsExist => Some (bs "D2")
  | PrimaryKeyPresent => Some (bs "D3")
  | WhenParses => Some (bs "D4")
  | OtherDeferred _ => None
  end.

Definition deferred_text (kind : DeferredKind) : gostring :=
  match kind with
  | TableExists => bs "table_exists"
  | ColumnsExist => bs "columns_exist"
  | PrimaryKeyPresent => bs "primary_key_present"
  | WhenParses => bs "when_parses"
  | OtherDeferred text => text
  end.

Abbreviation diagnostic := (gostring * gostring)%type.

Definition deferredDiagnostic (check : DeferredCheck) (text : gostring) : diagnostic :=
  (default [] (deferredRules (Check_Kind check)), text).

Definition missingTargetColumns (want actual : list gostring) : list gostring :=
  filter (λ name, name ∉ actual) want.

Definition resolveDeferredTarget (c : cluster) (check : DeferredCheck) :
    outcome (option TargetReading * gostring) :=
  match Qualified Sanitize (Check_Schema check) (Check_Table check) with
  | Err fault => Err (bs "deferred target is unusable: " ++ fault_text fault)
  | Ok name => (let! target := ResolveTarget (catalog_of c) name in Ok (target, name))%res
  end.

(** A check on a table that has to be there first. *)
Definition on_existing (c : cluster) (check : DeferredCheck)
    (judge : TargetReading -> gostring -> outcome (option diagnostic)) : outcome (option diagnostic) :=
  (let! (target, name) := resolveDeferredTarget c check in
   match target with
   | None => Ok (Some (deferredDiagnostic check (bs "target table " ++ name ++ bs " does not exist")))
   | Some target => judge target name
   end)%res.

Definition checkTableExists (c : cluster) (check : DeferredCheck) : outcome (option diagnostic) :=
  on_existing c check (λ _ _, Ok None).

Definition checkColumnsExist (c : cluster) (check : DeferredCheck) : outcome (option diagnostic) :=
  on_existing c check (λ target name,
    let missing := missingTargetColumns (Check_Columns check) (Reading_Columns target) in
    if (length missing =? 0)%nat then Ok None
    else Ok (Some (deferredDiagnostic check
                     (bs "columns " ++ join (bs ", ") missing ++ bs " do not exist on target table " ++ name)))).

Definition checkPrimaryKeyPresent (c : cluster) (check : DeferredCheck) : outcome (option diagnostic) :=
  on_existing c check (λ target name,
    if negb (length (Reading_PrimaryKeyColumns target) =? 0)%nat then Ok None
    else Ok (Some (deferredDiagnostic check (bs "target table " ++ name ++ bs " has no primary key")))).

Definition whenProbe (oldTarget newTarget clause : gostring) : gostring :=
  bs "SELECT 1 FROM " ++ oldTarget ++ bs " AS OLD, " ++ newTarget ++ bs " AS NEW WHERE (" ++ clause ++ bs ")".

Definition checkWhenParses (c : cluster) (check : DeferredCheck) : outcome (option diagnostic) :=
  on_existing c check (λ target name,
    match Qualified Sanitize (Reading_Schema target) (Reading_Table target) with
    | Err fault => Err (bs "resolved target is unusable: " ++ fault_text fault)
    | Ok qualified =>
        match analyse server c (whenProbe qualified qualified (Check_When check)) with
        | analysed => Ok None
        | rejected text =>
            Ok (Some (deferredDiagnostic check
                        (bs "when clause is not valid for target table " ++ name ++ bs ": " ++ text)))
        | unanswered text => Err (bs "analyse when clause: " ++ text)
        end
    end).

Definition validateCheck (c : cluster) (check : DeferredCheck) : outcome (option diagnostic) :=
  match Check_Kind check with
  | TableExists => checkTableExists c check
  | ColumnsExist => checkColumnsExist c check
  | PrimaryKeyPresent => checkPrimaryKeyPresent c check
  | WhenParses => checkWhenParses c check
  | OtherDeferred text => Err (message (unknownDeferredKindRefusal quoted text))
  end.

Definition validateDeferredKinds (checks : list DeferredCheck) : outcome unit :=
  match list_find (λ check, deferredRules (Check_Kind check) = None) checks with
  | Some (_, check) => Err (message (unknownDeferredKindRefusal quoted (deferred_text (Check_Kind check))))
  | None => Ok tt
  end.

Fixpoint validate_each (c : cluster) (checks : list DeferredCheck) : outcome (list diagnostic) :=
  match checks with
  | [] => Ok []
  | check :: rest =>
      (let! reported := validateCheck c check in
       let! diagnostics := validate_each c rest in
       Ok (match reported with Some d => d :: diagnostics | None => diagnostics end))%res
  end.

Definition validateInTransaction (c : cluster) (cfg : Config) : outcome (list diagnostic) :=
  (let checks := DeferredChecks cfg in
   let! _ := validateDeferredKinds checks in validate_each c checks)%res.
(** ** compile.go *)

Definition compileListener (instance serviceSchema : gostring) (listener : Listener) (reading : TargetReading) :
    outcome (Target * list ObjectSet) :=
  let target := {| Target_Schema := Reading_Schema reading; Target_Table := Reading_Table reading;
                   PrimaryKeyColumns := Reading_PrimaryKeyColumns reading |} in
  match Generate Sanitize {| Instance := instance; ServiceSchema := serviceSchema; Request_Listener := listener;
                             Request_Target := target |} with
  | Ok sets => Ok (target, sets)
  | Err e => Err (bs "generate listener " ++ quoted (Name listener) ++ bs ": " ++ generation_error_text e)
  end.

(** ** reconcile.go: the plan *)

Record objectNames := { trigger_name : gostring; function_name_of : gostring }.

(** What the walk over the configuration and the registry gathers. *)
Record gathered := { input : diffInput; names : gmap Pair objectNames }.

Definition no_names : objectNames := {| trigger_name := []; function_name_of := [] |}.

Definition add_input (desired : list desiredPair) (recorded : list recordedPair) (listeners : list desiredListener)
    (targets : gmap gostring targetResolution) (i : diffInput) : diffInput :=
  {| Input_Desired := Input_Desired i ++ desired; Input_Recorded := Input_Recorded i ++ recorded;
     Input_Observed := Input_Observed i; Input_Listeners := Input_Listeners i ++ listeners; Targets := targets;
     Input_Instance := Input_Instance i |}.

Definition prior_of (recorded : registryReading) : option registryListener :=
  if bool_decide (Registry_Name (Reading_Listener recorded) = []) then None else Some (Reading_Listener recorded).

Definition addConfiguredSource (c : cluster) (cfg : Config) (listener : Listener) (recorded : registryReading)
    (g : gathered) : outcome gathered :=
  (let! target := resolveListenerTarget quoted Sanitize (catalog_of c) listener (prior_of recorded) in
   let targets := <[Name listener := target]> (Targets (input g)) in
   let spec := deriveListenerSpec sha256_hex marshal_spec (Trigger listener) in
   let! (changes, known) :=
     listenerOperationChanges sha256_hex marshal_spec marshal_operation unmarshal_spec
       (Reading_Listener recorded) (Trigger listener) in
   let desired := {| Desired_Name := Name listener; Listener_SpecHash := Spec_Hash spec;
                     Listener_Enabled := Enabled listener; Listener_SpecificationKnown := known;
                     ChangedOperations := changes |} in
   match Resolution_Refusal target with
   | Some _ => Ok {| input := add_input [] [] [desired] targets (input g); names := names g |}
   | None =>
       let! (_, sets) := compileListener (Config_Instance cfg) (Schema (Config_Database cfg)) listener
                           (Resolution_Target target) in
       let of_set set_ := {| Pair_Listener := Name listener; Pair_Operation := Set_Operation set_ |} in
       Ok {| input := add_input
               (map (λ set_, {| Desired_Pair := of_set set_; Desired_ListenerPresent := true; OperationPresent := true;
                                Desired_Enabled := Enabled listener; SpecificationChanged := false;
                                SpecificationKnown := false; Desired_SpecHash := Spec_Hash spec |}) sets)
               [] [desired] targets (input g);
             names := foldl (λ m set_, <[of_set set_ := {| trigger_name := TriggerName set_;
                                                         function_name_of := FunctionName set_ |}]> m)
                        (names g) sets |}
   end)%res.

Fixpoint add_configured (c : cluster) (cfg : Config) (recordedByName : gmap gostring registryReading)
    (listeners : list Listener) (g : gathered) : outcome gathered :=
  match listeners with
  | [] => Ok g
  | listener :: rest =>
      (let! g := addConfiguredSource c cfg listener (default no_registry (recordedByName !! Name listener)) g in
       add_configured c cfg recordedByName rest g)%res
  end.

(** A recorded listener as the configuration would write it, its table alone filled in. *)
Definition recorded_listener (recorded : registryListener) : Listener :=
  {| Name := Registry_Name recorded; Enabled := Enabled no_listener;
     Trigger := {| Table := TargetTable recorded; Operations_ := Operations_ (Trigger no_listener);
                   Payload_ := Payload_ (Trigger no_listener) |};
     Delivery := Delivery no_listener |}.

Definition addRecordedSource (c : cluster) (reading : registryReading)
    (targets : gmap gostring targetResolution) : outcome (gmap gostring targetResolution) :=
  (let! target := resolveListenerTarget quoted Sanitize (catalog_of c) (recorded_listener (Reading_Listener reading))
                    (Some (Reading_Listener reading)) in
   Ok (<[Registry_Name (Reading_Listener reading) := target]> targets))%res.

Definition recorded_pairs (reading : registryReading) : list recordedPair :=
  match Triggers reading with
  | [] => [{| Recorded_Pair := {| Pair_Listener := Registry_Name (Reading_Listener reading); Pair_Operation := [] |};
              Recorded_ListenerPresent := true; Recorded_TriggerPresent := false;
              Recorded_Listener := Reading_Listener reading; Recorded_Trigger := no_registry_trigger |}]
  | triggers =>
      map (λ trigger, {| Recorded_Pair := {| Pair_Listener := Registry_Name (Reading_Listener reading);
                                             Pair_Operation := Registry_Operation trigger |};
                         Recorded_ListenerPresent := true; Recorded_TriggerPresent := true;
                         Recorded_Listener := Reading_Listener reading; Recorded_Trigger := trigger |}) triggers
  end.

Definition add_reading (c : cluster) (reading : registryReading) (g : gathered) : outcome gathered :=
  (let name := Registry_Name (Reading_Listener reading) in
   let! targets := if bool_decide (is_Some (Targets (input g) !! name)) then Ok (Targets (input g))
                   else addRecordedSource c reading (Targets (input g)) in
   Ok {| input := add_input [] (recorded_pairs reading) [] targets (input g);
         names := foldl (λ m trigger, <[{| Pair_Listener := name; Pair_Operation := Registry_Operation trigger |} :=
                                        {| trigger_name := Registry_TriggerName trigger;
                                           function_name_of := Registry_FunctionName trigger |}]> m)
                    (names g) (Triggers reading) |})%res.

Fixpoint add_readings (c : cluster) (readings : list registryReading) (g : gathered) : outcome gathered :=
  match readings with
  | [] => Ok g
  | reading :: rest => (let! g := add_reading c reading g in add_readings c rest g)%res
  end.

Definition readObservedPair (c : cluster) (target : targetResolution) (pair : Pair) (names : objectNames) :
    outcome observedPair :=
  (let observed t f tr fu := {| Observed_Pair := pair; Observed_TriggerPresent := t; FunctionPresent := f;
                                Observed_Trigger := tr; Observed_Function := fu |} in
   match Resolution_Refusal target with
   | Some _ => Ok (observed false false no_trigger no_function)
   | None =>
       let! trigger := ReadTrigger c (Reading_OID (Resolution_Target target)) (trigger_name names) in
       match trigger with
       | None => Ok (observed false false no_trigger no_function)
       | Some trigger =>
           let! function := ReadFunction c (FunctionOID trigger) in
           match function with
           | None => Ok (observed true false trigger no_function)
           | Some function => Ok (observed true true trigger function)
           end
       end
   end)%res.

(** The walk over the map of names; its order is Go's, and [plan_order_independent] says it cannot show. *)
Fixpoint observe_each (c : cluster) (targets : gmap gostring targetResolution) (pairs : list (Pair * objectNames)) :
    outcome (list observedPair) :=
  match pairs with
  | [] => Ok []
  | (p, names) :: rest =>
      (let! observed := readObservedPair c (default unresolved (targets !! Pair_Listener p)) p names in
       let! more := observe_each c targets rest in Ok (observed :: more))%res
  end.

Definition no_input (instance : gostring) : diffInput :=
  {| Input_Desired := []; Input_Recorded := []; Input_Observed := []; Input_Listeners := []; Targets := ∅;
     Input_Instance := instance |}.

Definition with_observations (observed : list observedPair) (i : diffInput) : diffInput :=
  {| Input_Desired := Input_Desired i; Input_Recorded := Input_Recorded i; Input_Observed := observed;
     Input_Listeners := Input_Listeners i; Targets := Targets i; Input_Instance := Input_Instance i |}.

Definition gather (c : cluster) (cfg : Config) : outcome diffInput :=
  (let! readings := readRegistries c (Schema (Config_Database cfg)) in
   let! g := add_configured c cfg (registryByName readings) (Listeners cfg)
               {| input := no_input (Config_Instance cfg); names := ∅ |} in
   let! g := add_readings c readings g in
   let! observed := observe_each c (Targets (input g)) (map_to_list (names g)) in
   Ok (with_observations observed (input g)))%res.

(** The walk over the map of pairs is Go's; [plan_order_independent] says that any other gives this plan. *)
Definition diffFromDatabase (c : cluster) (cfg : Config) : outcome PlanResult :=
  (let! i := gather c cfg in Ok (diff quoted sha256_hex key_walk i))%res.

Definition planInTransaction (c : cluster) (cfg : Config) : outcome PlanResult :=
  (let! refusal := probeBootstrap c (Schema (Config_Database cfg)) in
   match refusal with
   | Some refusal =>
       Ok {| Actions := []; Examined := 0; Refusals := [refusal]; Diagnostics := []; Plan_Verdict := VerdictError |}
   | None =>
       let! diagnostics := validateInTransaction c cfg in
       if negb (length diagnostics =? 0)%nat then
         Ok {| Actions := []; Examined := 0; Refusals := []; Diagnostics := diagnostics; Plan_Verdict := VerdictError |}
       else diffFromDatabase c cfg
   end)%res.

(** ** ddltext.go *)

Definition unusable_text (subject name : gostring) (fault : IdentifierFault) : gostring :=
  subject ++ bs " " ++ quoted name ++ bs " is unusable: " ++ fault_text fault.

Definition ddlQuoted (subject name : gostring) : outcome gostring :=
  match WhyUnusable name with
  | IdentifierOK => match Quoted Sanitize name with Ok q => Ok q | Err fault => Err (unusable_text subject name fault) end
  | fault => Err (unusable_text subject name fault)
  end.

Definition ddlQualified (subject schemaName name : gostring) : outcome gostring :=
  match WhyUnusable schemaName with
  | IdentifierOK =>
      match WhyUnusable name with
      | IdentifierOK =>
          match Qualified Sanitize schemaName name with
          | Ok q => Ok q
          | Err fault => Err (subject ++ bs " " ++ quoted schemaName ++ bs "." ++ quoted name ++ bs " is unusable: " ++
                              fault_text fault)
          end
      | fault => Err (unusable_text (subject ++ bs " name") name fault)
      end
  | fault => Err (unusable_text (subject ++ bs " schema") schemaName fault)
  end.

Definition dropTriggerText (target : TargetReading) (name : gostring) : outcome gostring :=
  (let! trigger := ddlQuoted (bs "trigger") name in
   let! table := ddlQualified (bs "target table") (Reading_Schema target) (Reading_Table target) in
   Ok (bs "DROP TRIGGER " ++ trigger ++ bs " ON " ++ table))%res.

Definition dropFunctionText (serviceSchema name : gostring) : outcome gostring :=
  (let! function := ddlQualified (bs "function") serviceSchema name in
   Ok (bs "DROP FUNCTION " ++ function ++ bs "()"))%res.

(** ** objectapply.go *)

Record applyObject := {
  Object_Target : TargetReading;
  Object_ServiceSchema : gostring;
  Object_TriggerName : gostring;
  Object_FunctionName : gostring;
  Drop : bool;
  Creates : list gostring
}.

Definition no_object : applyObject :=
  {| Object_Target := no_target; Object_ServiceSchema := []; Object_TriggerName := []; Object_FunctionName := [];
     Drop := false; Creates := [] |}.

Definition withDropOfWhatTheCatalogHolds (c : cluster) (object : applyObject) : outcome applyObject :=
  (let! held := ReadTrigger c (Reading_OID (Object_Target object)) (Object_TriggerName object) in
   Ok {| Object_Target := Object_Target object; Object_ServiceSchema := Object_ServiceSchema object;
         Object_TriggerName := Object_TriggerName object; Object_FunctionName := Object_FunctionName object;
         Drop := match held with Some _ => true | None => false end; Creates := Creates object |})%res.

Definition recordedNames (recorded : registryReading) (operation : gostring) : gostring * gostring :=
  match list_find (λ candidate, Registry_Operation candidate = operation) (Triggers recorded) with
  | Some (_, candidate) => (Registry_TriggerName candidate, Registry_FunctionName candidate)
  | None => ([], [])
  end.

Definition setForAction (cfg : Config) (listener : Listener) (target : TargetReading) (operation : gostring) :
    outcome (option ObjectSet) :=
  (let! (_, sets) := compileListener (Config_Instance cfg) (Schema (Config_Database cfg)) listener target in
   Ok (snd <$> list_find (λ candidate, Set_Operation candidate = operation) sets))%res.

Definition create_statements (set_ : option ObjectSet) : list gostring :=
  match set_ with
  | Some set_ => [CreateFunction set_; RevokeExecute set_; CommentFunction set_; CreateTrigger set_; CommentTrigger set_]
  | None => [[]; []; []; []; []]
  end.

Definition objectForAction (c : cluster) (cfg : Config) (action : Action) (listener : Listener)
    (recorded : registryReading) : outcome applyObject :=
  (let listener := if bool_decide (Name listener = []) then recorded_listener (Reading_Listener recorded) else listener in
   let! resolution := resolveListenerTarget quoted Sanitize (catalog_of c) listener (prior_of recorded) in
   match Resolution_Refusal resolution with
   | Some _ => Ok no_object
   | None =>
       let service := Schema (Config_Database cfg) in
       let (trigger, function) := recordedNames recorded (Pair_Operation (Action_Pair action)) in
       if bool_decide (Action_Kind action = ActionDrop) then
         withDropOfWhatTheCatalogHolds c
           {| Object_Target := Resolution_Target resolution; Object_ServiceSchema := service;
              Object_TriggerName := trigger; Object_FunctionName := function; Drop := true; Creates := [] |}
       else
         let! set_ := setForAction cfg listener (Resolution_Target resolution) (Pair_Operation (Action_Pair action)) in
         let (trigger, function) := match set_ with
                                    | Some set_ => (TriggerName set_, FunctionName set_)
                                    | None => (trigger, function)
                                    end in
         let object := {| Object_Target := Resolution_Target resolution; Object_ServiceSchema := service;
                          Object_TriggerName := trigger; Object_FunctionName := function;
                          Drop := bool_decide (Action_Kind action = ActionDisable) ||
                                  bool_decide (Action_Kind action = ActionReplace);
                          Creates := if bool_decide (Action_Kind action = ActionCreate) ||
                                        bool_decide (Action_Kind action = ActionReplace)
                                     then create_statements set_ else [] |} in
         if negb (Drop object) then Ok object else withDropOfWhatTheCatalogHolds c object
   end)%res.

(** The configured listener of an action, or Go's zero listener. *)
Definition configured_listener (cfg : Config) (name : gostring) : Listener :=
  default no_listener (configuredByName (Listeners cfg) !! name).

Fixpoint objects_each (c : cluster) (cfg : Config) (recorded : gmap gostring registryReading)
    (actions : list Action) : outcome (list applyObject) :=
  match actions with
  | [] => Ok []
  | action :: rest =>
      (let listener := configured_listener cfg (Pair_Listener (Action_Pair action)) in
       let reading := default no_registry (recorded !! Pair_Listener (Action_Pair action)) in
       let! object := objectForAction c cfg action listener reading in
       let! objects := objects_each c cfg recorded rest in
       Ok (if negb (bool_decide (Action_Kind action = ActionRename)) &&
              negb (bool_decide (Action_Kind action = ActionDrop) && bool_decide (Name listener = []) &&
                    (length (Triggers reading) =? 0)%nat)
           then object :: objects else objects))%res
  end.

Definition objectsForPlan (c : cluster) (cfg : Config) (plan : PlanResult) : outcome (list applyObject) :=
  (let! readings := readRegistries c (Schema (Config_Database cfg)) in
   objects_each c cfg (registryByName readings) (Actions plan))%res.
(** ** applytx.go

    The run carries its cluster, how many statements changed it, and the statements in the order
    they were sent. *)

Record applyTx := { run_db : cluster; changes : nat; sent : list gostring }.

(** A step of the run: its answer, and the run after it, error or not. *)
Abbreviation step A := (applyTx -> outcome A * applyTx) (only parsing).

Definition and_then {A B} (m : step A) (k : A -> step B) : step B := λ run,
  match m run with
  | (Ok a, run) => k a run
  | (Err e, run) => (Err e, run)
  end.

Definition steps_of {A} (m : outcome A) : step A := λ run, (m, run).

Definition change (target : TargetReading) (statement : gostring) : step unit := λ run,
  let run' n db := {| run_db := db; changes := n + changes run; sent := sent run ++ [statement] |} in
  match ddl server statement (run_db run) with
  | Ok db => (Ok tt, run' 1 db)
  | Err (lock_timed_out observed) =>
      match ddlQualified (bs "target table") (Reading_Schema target) (Reading_Table target) with
      | Err e => (Err e, run' 0 (run_db run))
      | Ok table => (Err (message (tableLockTimeoutRefusal table (description observed))), run' 0 (run_db run))
      end
  | Err (ddl_refused text) => (Err text, run' 0 (run_db run))
  end.

Definition drop (object : applyObject) : step unit :=
  and_then (steps_of (dropTriggerText (Object_Target object) (Object_TriggerName object))) (λ trigger,
  and_then (change (Object_Target object) trigger) (λ _,
  and_then (steps_of (dropFunctionText (Object_ServiceSchema object) (Object_FunctionName object))) (λ function,
  change (Object_Target object) function))).

(** A loop that stops at the first error. *)
Fixpoint each_step {A} (f : A -> step unit) (items : list A) : step unit :=
  match items with
  | [] => steps_of (Ok tt)
  | x :: rest => and_then (f x) (λ _, each_step f rest)
  end.

Record applyGroup := { group_name : gostring; group_target : TargetReading; group_objects : list applyObject }.

Definition applyDrops (group : applyGroup) : step unit :=
  each_step (λ object, if Drop object then drop object else steps_of (Ok tt)) (group_objects group).

Definition applyCreates (group : applyGroup) : step unit :=
  each_step (λ object, each_step (change (group_target group)) (Creates object)) (group_objects group).

Definition apply_group (group : applyGroup) : step unit := and_then (applyDrops group) (λ _, applyCreates group).

Definition add_to_group (byTarget : gmap gostring applyGroup) (name : gostring) (object : applyObject) :
    gmap gostring applyGroup :=
  let group := default {| group_name := name; group_target := Object_Target object; group_objects := [] |}
                 (byTarget !! name) in
  <[name := {| group_name := group_name group; group_target := group_target group;
               group_objects := group_objects group ++ [object] |}]> byTarget.

Fixpoint grouped (objects : list applyObject) (byTarget : gmap gostring applyGroup) :
    outcome (gmap gostring applyGroup) :=
  match objects with
  | [] => Ok byTarget
  | object :: rest =>
      (let! name := ddlQualified (bs "target table") (Reading_Schema (Object_Target object))
                      (Reading_Table (Object_Target object)) in
       grouped rest (add_to_group byTarget name object))%res
  end.

Definition compare_groups (left right : applyGroup) : comparison :=
  string_compare (group_name left) (group_name right).

Definition groupedApplyObjects (objects : list applyObject) : outcome (list applyGroup) :=
  (let! byTarget := grouped objects ∅ in
   Ok (merge_sort (below compare_groups) (snd <$> map_to_list byTarget)))%res.

Definition apply_objects (objects : list applyObject) : step unit :=
  and_then (steps_of (groupedApplyObjects objects)) (each_step apply_group).

Definition applyLockTimeout : Z := 3 * 10 ^ 9.

Definition applyLockTimeoutStatement (bound : Z) : gostring :=
  let bound := if (bound <=? 0)%Z then applyLockTimeout else bound in
  let milliseconds := (bound `quot` 10 ^ 6)%Z in
  let milliseconds := if (milliseconds <? 1)%Z then 1%Z else milliseconds in
  bs "SET LOCAL lock_timeout = " ++ format_int milliseconds.

(** ** queuecount.go *)

Record queueCounts := { Pending : Z; Delivering : Z; Dead_ : Z; Live : Z }.

Definition readQueueCounts (c : cluster) (serviceSchema listener : gostring) : outcome queueCounts :=
  (let! _ := qualifiedRegistryTable serviceSchema TableEventQueue in
   let '(p, d, x) := default (0, 0, 0)%Z (queue_rows c !! listener) in
   attempt (bs "read queue counts") {| Pending := p; Delivering := d; Dead_ := x; Live := (p + d)%Z |})%res.

(** ** apply.go and reconcile.go: the registry, then the whole run *)

Fixpoint registry_triggers (c : cluster) (target : TargetReading) (sets : list ObjectSet) :
    outcome (option (list registryTrigger)) :=
  match sets with
  | [] => Ok (Some [])
  | set_ :: rest =>
      (let! reading := ReadPair c (Reading_OID target) (TriggerName set_) in
       match reading with
       | None => Ok None
       | Some (trigger, function) =>
           let! more := registry_triggers c target rest in
           Ok (match more with
               | Some more =>
                   Some ({| Registry_Operation := Set_Operation set_; Registry_TriggerName := TriggerName set_;
                            Registry_FunctionName := FunctionName set_;
                            DDLHash := fingerprint sha256_hex (Trigger_Definition trigger) (Function_Definition function) |}
                         :: more)
               | None => None
               end)
       end)%res
  end.

(** A pair the catalog does not hold leaves the listener without rows: [nil, nil]. *)
Definition registryTriggers (c : cluster) (cfg : Config) (listener : Listener) (target : TargetReading) :
    outcome (list registryTrigger) :=
  if negb (Enabled listener) then Ok []
  else
    (let! (_, sets) := compileListener (Config_Instance cfg) (Schema (Config_Database cfg)) listener target in
     let! triggers := registry_triggers c target sets in
     Ok (default [] triggers))%res.

Definition syncConfiguredListener (c : cluster) (cfg : Config) (listener : Listener) : outcome cluster :=
  (let service := Schema (Config_Database cfg) in
   let! reading := readRegistry c service (Name listener) in
   let prior := prior_of (default no_registry reading) in
   let! resolution := resolveListenerTarget quoted Sanitize (catalog_of c) listener prior in
   let spec := deriveListenerSpec sha256_hex marshal_spec (Trigger listener) in
   match Qualified Sanitize (Reading_Schema (Resolution_Target resolution))
           (Reading_Table (Resolution_Target resolution)) with
   | Err fault => Err (bs "catalog target is unusable: " ++ fault_text fault)
   | Ok target =>
       let! triggers := registryTriggers c cfg listener (Resolution_Target resolution) in
       let! (_, c) := writeRegistry c service
         {| Registry_Name := Name listener; Spec := Spec_Bytes spec; Registry_SpecHash := Spec_Hash spec;
            TargetTable := target; TargetOID := Reading_OID (Resolution_Target resolution);
            Registry_Enabled := Enabled listener; AppliedAt := 0 |} triggers in
       Ok c
   end)%res.

Fixpoint sync_configured (c : cluster) (cfg : Config) (changed : list gostring) (listeners : list Listener) :
    outcome cluster :=
  match listeners with
  | [] => Ok c
  | listener :: rest =>
      (let! c := if bool_decide (Name listener ∈ changed) then syncConfiguredListener c cfg listener else Ok c in
       sync_configured c cfg changed rest)%res
  end.

Fixpoint sync_removed (c : cluster) (cfg : Config) (actions : list Action) : outcome cluster :=
  match actions with
  | [] => Ok c
  | action :: rest =>
      (let name := Pair_Listener (Action_Pair action) in
       let! c := if bool_decide (is_Some (configuredByName (Listeners cfg) !! name)) then Ok c
                 else deleteRegistry c (Schema (Config_Database cfg)) name in
       sync_removed c cfg rest)%res
  end.

Definition syncRegistry (c : cluster) (cfg : Config) (plan : PlanResult) : outcome cluster :=
  (let! c := sync_configured c cfg (map (λ action, Pair_Listener (Action_Pair action)) (Actions plan)) (Listeners cfg) in
   sync_removed c cfg (Actions plan))%res.

Record Approval := { DestructionPermitted : bool; Approved : bool; Interactive : bool }.

Record ApplyResult := {
  Result_Plan : PlanResult;
  Statements : nat;
  Result_Verdict : Verdict;
  Result_Stopped : StopReason
}.

(** The refusal-time counts, one per removed listener; only their failure is seen. *)
Fixpoint reportLiveQueueCounts (c : cluster) (cfg : Config) (reported : list gostring) (actions : list Action) :
    outcome unit :=
  match actions with
  | [] => Ok tt
  | action :: rest =>
      let name := Pair_Listener (Action_Pair action) in
      if negb (bool_decide (Action_Kind action = ActionDrop)) ||
         negb (bool_decide (Name (configured_listener cfg name) = [])) || bool_decide (name ∈ reported)
      then reportLiveQueueCounts c cfg reported rest
      else (let! _ := readQueueCounts c (Schema (Config_Database cfg)) name in
            reportLiveQueueCounts c cfg (name :: reported) rest)%res
  end.

(** What the transaction's body came to: it stopped with a judgement ([errApplyStopped]), it ran to
    its end, or it failed. *)
Inductive body_end :=
  | stopped_by (plan : PlanResult) (verdict : Verdict) (reason : StopReason)
  | finished_with (plan : PlanResult)
  | failed_with (plan : PlanResult) (text : gostring).

Definition plan_stop (plan : PlanResult) : StopReason :=
  match Refusals plan with
  | refusal :: _ => if contains_sub (message refusal) targetsMissingTable then StopTargetDropped else StopOwnership
  | [] => StopOwnership
  end.

Definition apply_body (cfg : Config) (approval : Approval) : applyTx -> body_end * applyTx := λ run,
  match planInTransaction (run_db run) cfg with
  | Err e => (failed_with no_plan e, run)
  | Ok plan =>
      if negb (length (Diagnostics plan) =? 0)%nat then (stopped_by plan VerdictError StopValidation, run)
      else if negb (length (Refusals plan) =? 0)%nat then (stopped_by plan VerdictError (plan_stop plan), run)
      else if (length (Actions plan) =? 0)%nat then (finished_with plan, run)
      else
        let counted := if Destructive plan && negb (DestructionPermitted approval)
                       then reportLiveQueueCounts (run_db run) cfg [] (Actions plan) else Ok tt in
        match counted with
        | Err e => (failed_with plan e, run)
        | Ok _ =>
            let decision := Decide (Destructive plan) (DestructionPermitted approval) (Approved approval)
                              (Interactive approval) in
            if negb (Proceed decision) then (stopped_by plan VerdictChangesPending (Stopped decision), run)
            else
              let work :=
                and_then (steps_of (objectsForPlan (run_db run) cfg plan)) (λ objects,
                and_then (apply_objects objects) (λ _, λ run,
                match syncRegistry (run_db run) cfg plan with
                | Ok db => (Ok tt, {| run_db := db; changes := changes run; sent := sent run |})
                | Err e => (Err e, run)
                end)) in
              match work run with
              | (Ok _, run) => (finished_with plan, run)
              | (Err e, run) => (failed_with plan e, run)
              end
        end
  end.

(** What [Commit] answers: done, or an error that leaves the changes in or out. *)
Inductive commit_answer := committed | commit_failed (text : gostring) (kept : bool).

(** What waiting for the run lock came to, and giving it back. *)
Inductive lock_answer := acquired | wait_expired (holder : gostring) | lock_failed (text : gostring).

Record apply_session := {
  run_lock : lock_answer;
  begin_fails : option gostring;
  settings_fail : option gostring;
  at_commit : commit_answer;
  release_fails : option gostring
}.

Definition set_aside (result : ApplyResult) (verdict : Verdict) (reason : StopReason) : ApplyResult :=
  {| Result_Plan := Result_Plan result; Statements := Statements result; Result_Verdict := verdict;
     Result_Stopped := reason |}.

Definition begun (plan : PlanResult) (statements : nat) : ApplyResult :=
  {| Result_Plan := plan; Statements := statements; Result_Verdict := VerdictUnset; Result_Stopped := NotStopped |}.

(** [applyInTransactionWithTimeout] and what [Apply] makes of its answer: the result, the error if
    any, the cluster after the run, and the statements sent. *)
Definition apply_locked (s : apply_session) (cfg : Config) (approval : Approval) (c : cluster) :
    ApplyResult * option gostring * cluster * list gostring :=
  match begin_fails s with
  | Some e => (begun no_plan 0, Some (bs "begin apply transaction: " ++ e), c, [])
  | None =>
      match settings_fail s with
      | Some e => (begun no_plan 0, Some e, c, [])
      | None =>
          match apply_body cfg approval {| run_db := c; changes := 0; sent := [] |} with
          | (stopped_by plan verdict reason, run) =>
              (set_aside (begun plan (changes run)) verdict reason, None, c, sent run)
          | (failed_with plan e, run) => (begun plan (changes run), Some e, c, sent run)
          | (finished_with plan, run) =>
              match at_commit s with
              | committed => (set_aside (begun plan (changes run)) VerdictClean NotStopped, None, run_db run, sent run)
              | commit_failed e kept => (begun plan (changes run), Some e, if kept then run_db run else c, sent run)
              end
          end
      end
  end.

(** The deferred release reports its failure where nothing else failed. *)
Definition Apply (s : apply_session) (cfg : Config) (approval : Approval) (c : cluster) :
    ApplyResult * option gostring * cluster * list gostring :=
  match run_lock s with
  | lock_failed e => (begun no_plan 0, Some e, c, [])
  | wait_expired holder =>
      ({| Result_Plan := {| Actions := []; Examined := 0;
                            Refusals := [runLockWaitExpiredRefusal quoted (Config_Instance cfg) holder];
                            Diagnostics := []; Plan_Verdict := VerdictError |};
          Statements := 0; Result_Verdict := VerdictError; Result_Stopped := StopRunLockWaitExpired |}, None, c, [])
  | acquired =>
      let '(result, err, c', sent) := apply_locked s cfg approval c in
      (result, match err with Some e => Some e | None => release_fails s end, c', sent)
  end.

(** ** candidates.go *)

Record Candidate := { Registry : RegistryRow; Catalog : CatalogObject; identity : gostring }.

Definition no_object_found : CatalogObject := {| Object_Kind := []; Identity := []; Object_Marker := None |}.

Definition candidateForTrigger (row : RegistryRow) (name : gostring) (reading : option TriggerReading) : Candidate :=
  match reading with
  | None => {| Registry := row; Catalog := no_object_found; identity := bs "trigger:" ++ name |}
  | Some reading => {| Registry := row; Catalog := catalogTriggerObject reading (bs "trigger " ++ name);
                       identity := bs "trigger:" ++ name |}
  end.

Definition candidateForFunction (row : RegistryRow) (name : gostring) (reading : option FunctionReading) : Candidate :=
  match reading with
  | None => {| Registry := row; Catalog := no_object_found; identity := bs "function:" ++ name |}
  | Some reading => {| Registry := row; Catalog := catalogFunctionObject reading (bs "function " ++ name);
                       identity := bs "function:" ++ name |}
  end.

Definition appendPair (c : cluster) (row : RegistryRow) (targetOID : Z) (triggerName functionName : gostring)
    (absentRecordsTheRow : bool) : outcome (list Candidate) :=
  (let! trigger := ReadTrigger c targetOID triggerName in
   let first := candidateForTrigger row triggerName trigger in
   match trigger with
   | None => Ok (first :: if absentRecordsTheRow
                          then [{| Registry := row; Catalog := no_object_found; identity := [] |}] else [])
   | Some trigger =>
       let! function := ReadFunction c (FunctionOID trigger) in
       Ok [first; candidateForFunction row functionName function]
   end)%res.

(** The candidates of each item, one after the other. *)
Fixpoint gather_candidates {A} (f : A -> outcome (list Candidate)) (items : list A) : outcome (list Candidate) :=
  match items with
  | [] => Ok []
  | x :: rest => (let! these := f x in let! more := gather_candidates f rest in Ok (these ++ more))%res
  end.

Definition appendRecordedCandidates (c : cluster) (reading : registryReading) : outcome (list Candidate) :=
  gather_candidates (λ trigger,
    appendPair c {| Present := true; Row_Listener := Registry_Name (Reading_Listener reading);
                    Row_Operation := Registry_Operation trigger |}
      (TargetOID (Reading_Listener reading)) (Registry_TriggerName trigger) (Registry_FunctionName trigger) true)
    (Triggers reading).

Definition appendConfiguredCandidates (c : cluster) (cfg : Config) (listener : Listener) : outcome (list Candidate) :=
  (let! target := ResolveTarget (catalog_of c) (Table (Trigger listener)) in
   match target with
   | None => Ok []
   | Some target =>
       let! (_, sets) := compileListener (Config_Instance cfg) (Schema (Config_Database cfg)) listener target in
       gather_candidates (λ set_,
         appendPair c {| Present := false; Row_Listener := Name listener; Row_Operation := Set_Operation set_ |}
           (Reading_OID target) (TriggerName set_) (FunctionName set_) false) sets
   end)%res.

Definition candidate_key (candidate : Candidate) : gostring :=
  identity candidate ++ bs ":" ++ Row_Listener (Registry candidate) ++ bs ":" ++ Row_Operation (Registry candidate).

Fixpoint deduplicate_from (seen : gset gostring) (candidates : list Candidate) : list Candidate :=
  match candidates with
  | [] => []
  | candidate :: rest =>
      if bool_decide (candidate_key candidate ∈ seen) then deduplicate_from seen rest
      else candidate :: deduplicate_from ({[candidate_key candidate]} ∪ seen) rest
  end.

Definition deduplicateCandidates (candidates : list Candidate) : list Candidate := deduplicate_from ∅ candidates.

Definition OwnedCandidates (c : cluster) (cfg : Config) : outcome (list Candidate) :=
  (let! readings := readRegistries c (Schema (Config_Database cfg)) in
   let! recorded := gather_candidates (appendRecordedCandidates c) readings in
   let! configured := gather_candidates (appendConfiguredCandidates c cfg) (Listeners cfg) in
   Ok (deduplicateCandidates (recorded ++ configured)))%res.
End Apply.

(** ** Nothing happens without a licence *)

Section Licence.
Context (Sanitize : list gostring -> gostring) (quoted sha256_hex : gostring -> gostring).
Context (marshal_spec : TriggerSpec -> gostring) (marshal_operation : Operation -> gostring).
Context (unmarshal_spec : gostring -> outcome TriggerSpec) (server : ddl_server).
Context (read_fails : gostring -> option gostring) (tx_now : Z).

Local Abbreviation plan_in := (planInTransaction Sanitize quoted sha256_hex marshal_spec marshal_operation
                                 unmarshal_spec server read_fails).
Local Abbreviation body := (apply_body Sanitize quoted sha256_hex marshal_spec marshal_operation
                              unmarshal_spec server read_fails tx_now).
Local Abbreviation apply_run := (Apply Sanitize quoted sha256_hex marshal_spec marshal_operation
                                   unmarshal_spec server read_fails tx_now).

(** What a plan and an approval must say before anything is sent. *)
Record licensed (approval : Approval) (plan : PlanResult) : Prop := {
  no_refusal : Refusals plan = [];
  no_diagnostic : Diagnostics plan = [];
  something_to_do : Actions plan <> [];
  destruction_permitted : Destructive plan = true -> DestructionPermitted approval = true;
  agreed : Approved approval = true \/ Interactive approval = true
}.

(** Why a run over this plan stops, if it does, said of the plan and the approval alone: a diagnostic
    first, then a refusal -- a target table that is gone told apart from an ownership refused -- then a
    destruction that is not permitted, then changes nobody approved or can be asked about. *)
Definition stop_of (approval : Approval) (plan : PlanResult) : StopReason :=
  match Diagnostics plan, Refusals plan, Actions plan with
  | _ :: _, _, _ => StopValidation
  | [], refusal :: _, _ =>
      if contains_sub (message refusal) (bs "targets missing table") then StopTargetDropped else StopOwnership
  | [], [], [] => NotStopped
  | [], [], _ :: _ =>
      if Destructive plan && negb (DestructionPermitted approval) then StopPermission
      else if Approved approval || Interactive approval then NotStopped
      else StopApproval
  end.

(** A deferred check that holds of the database: the table it names is there, has the columns, has a
    primary key, or takes the clause. *)
Definition met (c : cluster) (check : DeferredCheck) : Prop :=
  exists name oid row,
    Qualified Sanitize (Check_Schema check) (Check_Table check) = Ok name /\
    regclass server c name = Some oid /\ relations c !! oid = Some row /\
    match Check_Kind check with
    | TableExists => True
    | ColumnsExist => forall column, column ∈ Check_Columns check -> column ∈ rel_columns row
    | PrimaryKeyPresent => rel_keys row <> []
    | WhenParses =>
        exists target, Qualified Sanitize (rel_schema row) (rel_name row) = Ok target /\
          analyse server c (bs "SELECT 1 FROM " ++ target ++ bs " AS OLD, " ++ target ++ bs " AS NEW WHERE (" ++
                            Check_When check ++ bs ")") = analysed
    | OtherDeferred _ => False
    end.

Lemma query_Ok {A} doing (answer a : A) : query read_fails doing answer = Ok a -> a = answer.
Proof. unfold query, attempt. destruct (read_fails doing); [done|]. by intros [= ->]. Qed.

Lemma validateCheck_met c check :
  validateCheck Sanitize quoted server read_fails c check = Ok None -> met c check.
Proof.
  assert (Hon : forall judge, on_existing Sanitize server read_fails c check judge = Ok None ->
    exists name oid row, Qualified Sanitize (Check_Schema check) (Check_Table check) = Ok name /\
      regclass server c name = Some oid /\ relations c !! oid = Some row /\
      judge {| Reading_OID := oid; Reading_Schema := rel_schema row; Reading_Table := rel_name row;
               Reading_Columns := rel_columns row; Reading_PrimaryKeyColumns := rel_keys row |} name = Ok None).
  { intros judge H. unfold on_existing, resolveDeferredTarget in H. apply rbind_Ok in H as ([target name'] & Hr & H).
    destruct (Qualified Sanitize (Check_Schema check) (Check_Table check)) as [name|]; [|done].
    apply rbind_Ok in Hr as (target' & Hr & [= <- <-]). destruct target' as [target|]; [|done].
    apply query_Ok in Hr. destruct (regclass server c name) as [oid|] eqn:Eo; [|done]. unfold reading_of in Hr.
    destruct (relations c !! oid) as [row|] eqn:Er; [|done]. injection Hr as ->. by exists name, oid, row. }
  unfold validateCheck, met, checkTableExists, checkColumnsExist, checkPrimaryKeyPresent, checkWhenParses.
  destruct (Check_Kind check); try done; intros (name & oid & row & Hq & Ho & Hr & H)%Hon; exists name, oid, row;
    (split_and!; [done..|]); cbn [Reading_Columns Reading_PrimaryKeyColumns Reading_Schema Reading_Table] in H.
  - done.
  - unfold missingTargetColumns in H. intros column Hin.
    destruct (decide (column ∈ rel_columns row)) as [|Hno]; [done|exfalso].
    destruct (filter _ _) as [|x l] eqn:Ef; [|done].
    assert (column ∈ filter (λ name, name ∉ rel_columns row) (Check_Columns check)) as Hf
      by by apply list_elem_of_filter.
    rewrite Ef in Hf. by apply elem_of_nil in Hf.
  - by destruct (rel_keys row).
  - destruct (Qualified Sanitize (rel_schema row) (rel_name row)) as [target|]; [|done]. exists target.
    split; [done|]. unfold whenProbe in H. by destruct (analyse server c _).
Qed.

Lemma validate_each_met c checks check :
  validate_each Sanitize quoted server read_fails c checks = Ok [] -> check ∈ checks -> met c check.
Proof.
  induction checks as [|x l IH]; cbn [validate_each]; [by intros _ ?%elem_of_nil|].
  intros H. apply rbind_Ok in H as (reported & Hx & H). apply rbind_Ok in H as (ds & Hl & H).
  destruct reported; [done|]. injection H as ->. intros [->|Hin]%elem_of_cons; [by apply validateCheck_met|by apply IH].
Qed.

(** A plan with something to do is a plan of a bootstrapped database that meets every deferred check. *)
Lemma plan_in_checks c cfg plan :
  plan_in c cfg = Ok plan -> Actions plan <> [] ->
  Schema (Config_Database cfg) ∈ schemas c /\ forall check, check ∈ DeferredChecks cfg -> met c check.
Proof.
  unfold planInTransaction. intros H Ha. apply rbind_Ok in H as ([refusal|] & Hp & H); [by injection H as <-|].
  apply rbind_Ok in H as (diagnostics & Hv & H). split.
  - unfold probeBootstrap in Hp. destruct (Quoted _ _); [|done].
    destruct (SchemaExists read_fails c (Schema (Config_Database cfg))) as [[]|] eqn:Es; try done.
    apply query_Ok in Es. symmetry in Es. by apply bool_decide_eq_true in Es.
  - destruct diagnostics; [|by injection H as <-]. unfold validateInTransaction in Hv.
    apply rbind_Ok in Hv as (? & _ & Hv). intros check. by apply validate_each_met.
Qed.

(** The body, as far as its ending is concerned. *)
Lemma apply_body_ends cfg approval run ending run' :
  body cfg approval run = (ending, run') ->
  match ending with
  | stopped_by plan verdict reason =>
      plan_in (run_db run) cfg = Ok plan /\ run' = run /\ reason <> NotStopped /\
      match reason with
      | StopValidation => Diagnostics plan <> [] /\ verdict = VerdictError
      | StopOwnership | StopTargetDropped => Refusals plan <> [] /\ Diagnostics plan = [] /\ verdict = VerdictError
      | StopPermission => Refusals plan = [] /\ Destructive plan = true /\ DestructionPermitted approval = false /\
                          verdict = VerdictChangesPending
      | StopApproval => Refusals plan = [] /\ Approved approval = false /\ Interactive approval = false /\
                        verdict = VerdictChangesPending
      | _ => False
      end /\ reason = stop_of approval plan
  | finished_with plan => plan_in (run_db run) cfg = Ok plan /\ Refusals plan = [] /\ Diagnostics plan = [] /\
      ((Actions plan = [] /\ run' = run) \/ licensed approval plan) /\ stop_of approval plan = NotStopped
  | failed_with plan _ =>
      (run' = run \/ (plan_in (run_db run) cfg = Ok plan /\ licensed approval plan)) /\
      (forall plan', plan_in (run_db run) cfg = Ok plan' ->
         stop_of approval plan' = NotStopped \/ stop_of approval plan' = StopPermission)
  end.
Proof.
  unfold apply_body. destruct (plan_in (run_db run) cfg) as [plan|e]; [|intros [= <- <-]; by split; [left|]].
  unfold stop_of. destruct (Diagnostics plan) as [|d ds] eqn:Ed; cbn [length Nat.eqb negb].
  2: { intros [= <- <-]. rewrite Ed. by split_and!. }
  destruct (Refusals plan) as [|r rs] eqn:Er; cbn [length Nat.eqb negb].
  2: { intros [= <- <-]. unfold plan_stop. rewrite Er, Ed. destruct (contains_sub _ _); by split_and!. }
  destruct (Actions plan) as [|a l] eqn:Ea; cbn [length Nat.eqb].
  { intros [= <- <-]. rewrite Er, Ed, Ea. split_and!; [done..|by left|done]. }
  destruct (if Destructive plan && _ then _ else _) as [|e] eqn:Ec.
  2: { intros [= <- <-]. split; [by left|]. intros plan' [= <-]. rewrite Er, Ed, Ea.
       destruct (Destructive plan && negb (DestructionPermitted approval)); [by right|done]. }
  unfold Decide. destruct (Destructive plan) eqn:Es, (DestructionPermitted approval) eqn:Ep; cbn [negb andb];
    try (cbn [Proceed negb]; intros [= <- <-]; rewrite Er, Ed, Ea, Es; by split_and!);
    (destruct (Approved approval) eqn:Ew, (Interactive approval) eqn:Ei; cbn [negb andb Proceed];
     try (intros [= <- <-]; rewrite Er, Ed, Ea, Es; by split_and!));
    (assert (Hl : licensed approval plan) by (constructor; try done; try congruence; auto));
    match goal with |- (match ?w with _ => _ end = _) -> _ => destruct w as [[?|?] ?] end; intros [= <- <-];
    rewrite ?Er, ?Ed, ?Ea, ?Es; split_and!; auto; (intros plan' [= <-]; rewrite Er, Ed, Ea, Es; by left).
Qed.

(** What a run came to, as its body's doing. *)
Lemma Apply_body s cfg approval c result err c' sent_ :
  apply_run s cfg approval c = (result, err, c', sent_) ->
  (c' = c /\ sent_ = []) \/
  exists ending run', body cfg approval {| run_db := c; changes := 0; sent := [] |} = (ending, run') /\
    sent_ = sent run' /\ (c' = c \/ c' = run_db run') /\
    plan_in c cfg = Ok (Result_Plan result) /\ licensed approval (Result_Plan result).
Proof.
  unfold Apply. destruct (run_lock s); try (intros [= <- <- <- <-]; by left).
  destruct (apply_locked _ _ _ _ _ _ _ _ _ s cfg approval c) as [[[result' err'] c''] sent'] eqn:E.
  intros [= <- <- <- <-]. revert E. unfold apply_locked.
  destruct (begin_fails s); [intros [= <- <- <- <-]; by left|].
  destruct (settings_fail s); [intros [= <- <- <- <-]; by left|].
  destruct (body cfg approval _) as [ending run'] eqn:Eb. pose proof (apply_body_ends _ _ _ _ _ Eb) as Hb.
  destruct ending as [plan verdict reason|plan|plan text].
  - destruct Hb as (_ & -> & _). intros [= <- <- <- <-]. by left.
  - destruct Hb as (Hp & _ & _ & [[_ ->]|Hl] & _).
    + intros H. left. destruct (at_commit s) as [|? []]; by injection H as <- <- <- <-.
    + intros H. right. exists (finished_with plan), run'.
      destruct (at_commit s) as [|? []]; injection H as <- <- <- <-; cbn; split_and!; auto.
  - destruct Hb as [[->|[Hp Hl]] _]; intros [= <- <- <- <-]; [by left|]. right.
    exists (failed_with plan text), run'. cbn. split_and!; auto.
Qed.

End Licence.

(** ** The order of the statements *)

Section Order.
Context (Sanitize : list gostring -> gostring) (quoted : gostring -> gostring) (server : ddl_server).

Definition object_table (object : applyObject) : outcome gostring :=
  ddlQualified Sanitize quoted (bs "target table") (Reading_Schema (Object_Target object))
    (Reading_Table (Object_Target object)).

(** What an object's drop sends, when its names are usable. *)
Definition drop_statements (object : applyObject) : list gostring :=
  match dropTriggerText Sanitize quoted (Object_Target object) (Object_TriggerName object),
        dropFunctionText Sanitize quoted (Object_ServiceSchema object) (Object_FunctionName object) with
  | Ok trigger, Ok function => [trigger; function]
  | _, _ => []
  end.

(** One table's statements: every drop, then every creation. *)
Definition group_statements (group : applyGroup) : list gostring :=
  (filter (λ object, Drop object = true) (group_objects group) ≫= drop_statements) ++
  (group_objects group ≫= Creates).

(** A step that succeeds sends exactly these statements, each of them counted. *)
Definition sends (m : applyTx -> outcome unit * applyTx) (statements : list gostring) : Prop :=
  forall run run', m run = (Ok tt, run') ->
    sent run' = sent run ++ statements /\ changes run' = length statements + changes run.

Lemma sends_nothing : sends (steps_of (Ok tt)) [].
Proof. intros run run' [= <-]. by rewrite app_nil_r. Qed.

Lemma sends_change target statement : sends (change Sanitize quoted server target statement) [statement].
Proof.
  intros run run'. unfold change. destruct (ddl server statement (run_db run)) as [db|[observed|text]].
  - by intros [= <-].
  - destruct (ddlQualified _ _ _ _ _); by intros [=].
  - by intros [=].
Qed.

Lemma sends_then m k l l' : sends m l -> sends k l' -> sends (and_then m (λ _, k)) (l ++ l').
Proof.
  intros Hm Hk run run'. unfold and_then. destruct (m run) as [[[]|e] mid] eqn:E; [|done].
  intros H. destruct (Hm _ _ E) as [Hs Hc], (Hk _ _ H) as [Hs' Hc']. rewrite Hs', Hs, Hc', Hc, length_app, app_assoc.
  split; [done|lia].
Qed.

Lemma sends_each {A} (f : A -> applyTx -> outcome unit * applyTx) (g : A -> list gostring) items :
  (forall x, x ∈ items -> sends (f x) (g x)) -> sends (each_step f items) (items ≫= g).
Proof.
  induction items as [|x items IH]; intros H; [apply sends_nothing|].
  cbn [each_step mbind list_bind]. apply sends_then; [apply H; by left|].
  apply IH. intros y Hy. apply H. by right.
Qed.

Lemma sends_drop object : sends (drop Sanitize quoted server object) (drop_statements object).
Proof.
  intros run run'. unfold drop, drop_statements, and_then, steps_of.
  destruct (dropTriggerText _ _ _ _) as [trigger|]; [|done].
  destruct (change Sanitize quoted server (Object_Target object) trigger run) as [[[]|] mid] eqn:E; [|done].
  destruct (dropFunctionText _ _ _ _) as [function|]; [|done]. intros H.
  destruct (sends_change _ _ _ _ H) as [-> ->], (sends_change _ _ _ _ E) as [-> ->].
  rewrite <- app_assoc. done.
Qed.

Lemma bind_filter {A B} (P : A -> Prop) `{forall x, Decision (P x)} (f : A -> list B) (l : list A) :
  (l ≫= λ x, if decide (P x) then f x else []) = filter P l ≫= f.
Proof.
  induction l as [|x l IH]; [done|]. cbn [mbind list_bind]. rewrite filter_cons, IH. by case_decide.
Qed.

Lemma sends_group group : sends (apply_group Sanitize quoted server group) (group_statements group).
Proof.
  unfold apply_group, group_statements. apply sends_then.
  - rewrite <- bind_filter. apply sends_each. intros object _.
    destruct (Drop object); [apply sends_drop|apply sends_nothing].
  - apply sends_each. intros object _. unfold applyCreates.
    assert (Hc : (Creates object ≫= λ s, [s]) = Creates object).
    { induction (Creates object) as [|s l IH]; [done|]. cbn [mbind list_bind]. by rewrite IH. }
    rewrite <- Hc at 2. apply sends_each. intros s _. apply sends_change.
Qed.

(** The groups: one per table, holding that table's objects in the plan's order. *)
Lemma grouped_lookup objects m m' name :
  grouped Sanitize quoted objects m = Ok m' ->
  (forall group, m !! name = Some group -> group_name group = name) ->
  match filter (λ object, object_table object = Ok name) objects with
  | [] => m' !! name = m !! name
  | mine => exists group, m' !! name = Some group /\ group_name group = name /\
      group_objects group = match m !! name with Some g => group_objects g | None => [] end ++ mine
  end.
Proof.
  revert m. induction objects as [|object rest IH]; intros m H Hm; cbn [grouped] in H.
  - injection H as <-. done.
  - apply rbind_Ok in H as (n & Hn & H). fold (object_table object) in Hn. rewrite filter_cons, Hn.
    unfold add_to_group in H. set (g0 := default _ (m !! n)) in *.
    specialize (IH _ H). destruct (decide (n = name)) as [->|Hne].
    + rewrite decide_True by done. rewrite lookup_insert_eq in IH. cbn [group_name group_objects] in IH.
      assert (Hg : group_name g0 = name).
      { unfold g0. destruct (m !! name) as [g|] eqn:E; [by apply Hm|done]. }
      assert (Ho : group_objects g0 = match m !! name with Some g => group_objects g | None => [] end).
      { unfold g0. by destruct (m !! name). }
      specialize (IH ltac:(by intros ? [= <-])). destruct (filter _ rest) as [|o os].
      * eexists. split; [exact IH|]. by rewrite <- Ho.
      * destruct IH as (g & ? & ? & Hobj). exists g. split_and!; [done..|]. by rewrite Hobj, <- Ho, <- app_assoc.
    + rewrite decide_False by congruence. rewrite lookup_insert_ne in IH by done. by apply IH.
Qed.

#[local] Instance compare_groups_names : forall l : list applyGroup, Decision (NoDup (group_name <$> l)).
Proof. apply _. Defined.

(** Groups with distinct names are ordered by them alone. *)
Lemma Sorted_group_names groups :
  Sorted (below compare_groups) groups -> Sorted (below string_compare) (group_name <$> groups).
Proof.
  induction 1 as [|g gs Hs IH Hd]; [constructor|]. cbn [fmap list_fmap]. constructor; [done|].
  destruct Hd as [|h gs Hh]; constructor. exact Hh.
Qed.

Lemma below_groups_total : Total (below compare_groups).
Proof. intros g h. apply (below_total string_compare). Qed.

Lemma groups_of objects groups :
  groupedApplyObjects Sanitize quoted objects = Ok groups ->
  Sorted (below string_compare) (group_name <$> groups) /\ NoDup (group_name <$> groups) /\
  (forall name, name ∈ group_name <$> groups <-> exists object, object ∈ objects /\ object_table object = Ok name) /\
  Forall (λ group, group_objects group = filter (λ object, object_table object = Ok (group_name group)) objects) groups.
Proof.
  unfold groupedApplyObjects. intros (m & Hm & [= <-])%rbind_Ok.
  assert (Hg : forall name, match filter (λ object, object_table object = Ok name) objects with
    | [] => m !! name = None
    | mine => exists group, m !! name = Some group /\ group_name group = name /\ group_objects group = mine
    end).
  { intros name. pose proof (grouped_lookup objects ∅ m name Hm ltac:(by intros ? ?%lookup_empty_Some)) as H.
    rewrite lookup_empty in H. by destruct (filter _ objects). }
  assert (Hkey : forall name group, m !! name = Some group ->
    group_name group = name /\ group_objects group = filter (λ object, object_table object = Ok name) objects).
  { intros name group E. specialize (Hg name). destruct (filter _ objects); [congruence|].
    destruct Hg as (g & Hg & ? & ?). rewrite E in Hg. injection Hg as ->. done. }
  set (sorted := merge_sort _ _).
  assert (Hperm : group_name <$> sorted ≡ₚ fst <$> map_to_list m).
  { unfold sorted. rewrite merge_sort_Permutation, <- list_fmap_compose.
    replace (group_name ∘ snd <$> map_to_list m) with (fst <$> map_to_list m); [done|]. apply list_fmap_ext.
    intros i [n g] Hi. apply list_elem_of_lookup_2, elem_of_map_to_list in Hi. by destruct (Hkey _ _ Hi). }
  split_and!.
  - apply Sorted_group_names. unfold sorted. pose proof below_groups_total. apply (Sorted_merge_sort _).
  - rewrite Hperm. apply NoDup_fst_map_to_list.
  - intros name. rewrite Hperm. rewrite list_elem_of_fmap. specialize (Hg name). split.
    + intros ([n g] & -> & Hin%elem_of_map_to_list). cbn [fst] in *.
      destruct (filter (λ object, object_table object = Ok n) objects) as [|o os] eqn:E; [congruence|].
      exists o. assert (Ho : o ∈ filter (λ object, object_table object = Ok n) objects) by (rewrite E; by left).
      apply list_elem_of_filter in Ho. tauto.
    + intros (o & Ho & Hn). assert (Hf : o ∈ filter (λ object, object_table object = Ok name) objects)
        by (by apply list_elem_of_filter).
      destruct (filter _ objects); [by apply not_elem_of_nil in Hf|]. destruct Hg as (g & Hl & _).
      exists (name, g). split; [done|]. by apply elem_of_map_to_list.
  - apply Forall_forall. intros g Hgin. unfold sorted in Hgin. rewrite merge_sort_Permutation in Hgin.
    apply list_elem_of_fmap in Hgin as ([n g'] & -> & Hin%elem_of_map_to_list). cbn [snd].
    destruct (Hkey _ _ Hin) as [-> ?]. done.
Qed.

(** The statements of an apply have one order, whatever order the configuration lists its
    listeners in: tables are taken by qualified name, each once, so two runs take their table locks
    in the same order; on a table every drop precedes every creation; and a run that succeeds sent
    exactly these statements, each counted. *)
Theorem apply_order objects run run' :
  apply_objects Sanitize quoted server objects run = (Ok tt, run') ->
  exists groups, groupedApplyObjects Sanitize quoted objects = Ok groups /\
    Sorted (below string_compare) (group_name <$> groups) /\ NoDup (group_name <$> groups) /\
    Forall (λ group, group_objects group = filter (λ object, object_table object = Ok (group_name group)) objects) groups /\
    sent run' = sent run ++ (groups ≫= group_statements) /\
    changes run' = length (groups ≫= group_statements) + changes run /\
    (forall objects' groups', objects ≡ₚ objects' -> groupedApplyObjects Sanitize quoted objects' = Ok groups' ->
       group_name <$> groups' = group_name <$> groups).
Proof.
  unfold apply_objects, and_then at 1, steps_of.
  destruct (groupedApplyObjects Sanitize quoted objects) as [groups|e] eqn:E; [|done]. intros H.
  destruct (groups_of _ _ E) as (Hs & Hn & Hin & Ho). exists groups.
  pose proof (sends_each (apply_group Sanitize quoted server) group_statements groups
                (λ g _, sends_group g) _ _ H) as [? ?].
  split_and!; try done. intros objects' groups' Hp E'. destruct (groups_of _ _ E') as (Hs' & Hn' & Hin' & _).
  apply (Sorted_unique (below string_compare)); [done..|]. apply NoDup_Permutation; [done..|].
  intros name. rewrite Hin, Hin'. by setoid_rewrite Hp.
Qed.
End Order.

(** ** The registry keeps what is written *)

Section RegistryRows.
Context (Sanitize : list gostring -> gostring) (quoted : gostring -> gostring) (server : ddl_server).
Context (read_fails : gostring -> option gostring) (tx_now : Z).
(** [ORDER BY] lists every row once, in the server's order. *)
Hypothesis lists_rows : forall l, by_name_order server l ≡ₚ l.
(** A document equals itself. *)
Hypothesis jsonb_reflexive : forall document, jsonb_equal server document document = true.

Local Abbreviation write := (writeRegistry Sanitize quoted server read_fails tx_now).
Local Abbreviation read := (readRegistry Sanitize quoted server read_fails).

(** The primary keys hold: a row is found under its own name. *)
Record keyed_registry (c : cluster) : Prop := {
  listeners_keyed : forall n l, listener_rows c !! n = Some l -> Registry_Name l = n;
  triggers_keyed : forall n o t, trigger_rows c !! (n, o) = Some t -> Registry_Operation t = o
}.

Lemma attempt_Ok {A} doing (answer a : A) :
  attempt read_fails doing answer = Ok a -> a = answer /\ forall B (b : B), attempt read_fails doing b = Ok b.
Proof. unfold attempt. destruct (read_fails doing); [done|]. by intros [= ->]. Qed.

Lemma upserted name triggers rows changed rows' changed' :
  foldl (λ at_ trigger, upsert_trigger name trigger at_) (rows, changed) triggers = (rows', changed') ->
  NoDup (Registry_Operation <$> triggers) ->
  (forall t, t ∈ triggers -> rows' !! (name, Registry_Operation t) = Some t) /\
  (forall k, (fst k <> name \/ snd k ∉ Registry_Operation <$> triggers) -> rows' !! k = rows !! k) /\
  (changed' = false <-> changed = false /\ forall t, t ∈ triggers -> rows !! (name, Registry_Operation t) = Some t).
Proof.
  revert rows changed. induction triggers as [|t ts IH]; intros rows changed H Hnd.
  - injection H as <- <-. split_and!; [by intros ? ?%not_elem_of_nil|done|]. split; [|by intros []].
    intros ->. split; [done|]. by intros ? ?%not_elem_of_nil.
  - cbn [foldl] in H. cbn [fmap list_fmap] in Hnd. apply NoDup_cons in Hnd as [Hni Hnd].
    unfold upsert_trigger in H at 2. case_bool_decide as Ht.
    + destruct (IH _ _ H Hnd) as (H1 & H2 & H3). split_and!.
      * intros t' [->|Ht']%elem_of_cons; [|auto]. rewrite H2; [done|]. by right.
      * intros k Hk. apply H2. cbn in Hk. rewrite not_elem_of_cons in Hk. tauto.
      * rewrite H3. setoid_rewrite elem_of_cons. naive_solver.
    + destruct (IH _ _ H Hnd) as (H1 & H2 & H3). split_and!.
      * intros t' [->|Ht']%elem_of_cons; [|auto]. rewrite H2 by (by right). by rewrite lookup_insert_eq.
      * intros k Hk. rewrite H2 by (cbn in Hk; rewrite not_elem_of_cons in Hk; tauto). rewrite lookup_insert_ne; [done|]. intros <-. cbn in Hk. destruct Hk as [?|Hn]; [done|]. apply Hn. by left.
      * split; [intros [? _]%H3; done|]. intros [-> Hall]. destruct Ht. apply Hall. by left.
Qed.

Lemma stored_triggers_perm c name triggers :
  keyed_registry c -> NoDup (Registry_Operation <$> triggers) ->
  (forall t, t ∈ triggers <-> trigger_rows c !! (name, Registry_Operation t) = Some t) ->
  stored_triggers server c name ≡ₚ triggers.
Proof.
  intros Hk Hnd Hin. unfold stored_triggers.
  set (ops := snd <$> filter (λ k : gostring * gostring, fst k = name) (fst <$> map_to_list (trigger_rows c))).
  rewrite (lists_rows ops).
  assert (Hops : ops ≡ₚ Registry_Operation <$> triggers).
  { apply NoDup_Permutation; [|done|].
    - unfold ops. apply NoDup_fmap_2_strong; [|apply NoDup_filter, NoDup_fst_map_to_list].
      intros [] [] [? _]%list_elem_of_filter [? _]%list_elem_of_filter ?. simpl in *. congruence.
    - intros o. unfold ops. rewrite !list_elem_of_fmap. split.
      + intros ([n o'] & -> & [Hn Hf]%list_elem_of_filter). cbn [fst snd] in *. subst n.
        apply list_elem_of_fmap in Hf as ([k t] & [= <-] & Hm%elem_of_map_to_list).
        pose proof (triggers_keyed _ Hk _ _ _ Hm) as <-. exists t. split; [done|]. by apply Hin.
      + intros (t & -> & Ht). exists (name, Registry_Operation t). split; [done|].
        apply list_elem_of_filter. split; [done|]. apply list_elem_of_fmap. exists ((name, Registry_Operation t), t).
        split; [done|]. apply elem_of_map_to_list. by apply Hin. }
  rewrite Hops. assert (Hall : forall t, t ∈ triggers -> trigger_rows c !! (name, Registry_Operation t) = Some t)
    by (by intros t; apply Hin).
  clear -Hall. induction triggers as [|t ts IH]; [done|]. cbn [fmap list_fmap omap list_omap].
  rewrite Hall by (by left). constructor. apply IH. intros t' ?. apply Hall. by right.
Qed.

Lemma kept_lookup (name : gostring) (wanted : list gostring) (operations : gmap (gostring * gostring) registryTrigger) (k : gostring * gostring) :
  filter (λ kv, ~ superseded name wanted (fst kv)) operations !! k =
    if decide (fst k = name /\ snd k ∉ wanted) then None else operations !! k.
Proof.
  destruct (operations !! k) as [t|] eqn:E.
  - case_decide as Hd.
    + apply map_lookup_filter_None. right. intros t' Ht' Hn. by apply Hn.
    + apply map_lookup_filter_Some. split; [done|]. exact Hd.
  - rewrite (proj2 (map_lookup_filter_None _ _ _)); [by case_decide|by left].
Qed.

Lemma filter_same_size (name : gostring) (wanted : list gostring) (operations : gmap (gostring * gostring) registryTrigger) :
  size (filter (λ kv, ~ superseded name wanted (fst kv)) operations) = size operations ->
  filter (λ kv, ~ superseded name wanted (fst kv)) operations = operations.
Proof.
  intros Hsz. set (kept := filter _ operations) in *. destruct (decide (operations ⊆ kept)) as [Hs|Hs].
  - apply (anti_symm (⊆)); [apply map_filter_subseteq|done].
  - assert (size kept < size operations)%nat; [|lia]. apply map_subset_size. split; [apply map_filter_subseteq|done].
Qed.

Lemma writeRegistry_read c service listener triggers stored c' :
  write c service listener triggers = Ok (stored, c') ->
  read c' service (Registry_Name listener) =
    Ok (Some {| Reading_Listener := stored; Triggers := stored_triggers server c' (Registry_Name listener) |}).
Proof.
  unfold writeRegistry. intros H. do 4 apply rbind_Ok in H as (? & _ & H).
  apply rbind_Ok in H as ([? ?] & _ & H). apply rbind_Ok in H as ([? ?] & _ & H).
  do 2 apply rbind_Ok in H as (? & _ & H). apply rbind_Ok in H as ([reading|] & Hr & H); [|done].
  injection H as <- <-. cbn [Registry_Name] in Hr. rewrite Hr. do 2 f_equal.
  revert Hr. unfold readRegistry. intros H. do 2 apply rbind_Ok in H as (? & _ & H).
  apply rbind_Ok in H as ([l|] & Hl & H); [|done]. destruct (SplitQualified _); [|done].
  apply rbind_Ok in H as (rows' & [-> _]%attempt_Ok & H). by injection H as <-.
Qed.

(** The listener's row after its upsert. *)
Lemma upserted_row given old rows changed :
  upsert_listener server tx_now given old = (rows, changed) ->
  exists row, rows !! Registry_Name given = Some row /\ same_listener_row server row given = true /\
    (forall n, n <> Registry_Name given -> rows !! n = old !! n) /\
    (if changed then AppliedAt row = tx_now else rows = old) /\
    (Spec row = Spec given \/ exists l, old !! Registry_Name given = Some l /\ Spec row = Spec l) /\
    ((forall l, old !! Registry_Name given = Some l -> Registry_Name l = Registry_Name given) ->
     Registry_Name row = Registry_Name given).
Proof.
  assert (Hstamp : same_listener_row server (stamped tx_now given) given = true).
  { unfold same_listener_row, stamped. simpl. by rewrite jsonb_reflexive, !bool_decide_eq_true_2. }
  assert (Hnew : exists row, (<[Registry_Name given := stamped tx_now given]> old) !! Registry_Name given = Some row /\
    same_listener_row server row given = true /\
    (forall n, n <> Registry_Name given -> (<[Registry_Name given := stamped tx_now given]> old) !! n = old !! n) /\
    AppliedAt row = tx_now /\ Spec row = Spec given /\ Registry_Name row = Registry_Name given).
  { exists (stamped tx_now given). rewrite lookup_insert_eq. split_and!; try done.
    intros n Hn. by rewrite lookup_insert_ne. }
  destruct Hnew as (new & ? & ? & ? & ? & ? & ?). unfold upsert_listener.
  destruct (old !! Registry_Name given) as [l|] eqn:El; [destruct (same_listener_row server l given) eqn:Es|];
    intros [= <- <-]; [exists l; split_and!; eauto|exists new; split_and!; auto..].
Qed.

(** And after the touch that follows it. *)
Lemma touched_row given old rows changed touch rows' :
  upsert_listener server tx_now given old = (rows, changed) ->
  (if touch && negb changed then attempt read_fails (bs "touch registry listener") (alter (stamped tx_now) (Registry_Name given) rows)
   else Ok rows) = Ok rows' ->
  exists row, rows' !! Registry_Name given = Some row /\ same_listener_row server row given = true /\
    (forall n, n <> Registry_Name given -> rows' !! n = old !! n) /\
    ((rows' = old /\ touch = false) \/ AppliedAt row = tx_now) /\
    (Spec row = Spec given \/ exists l, old !! Registry_Name given = Some l /\ Spec row = Spec l) /\
    ((forall l, old !! Registry_Name given = Some l -> Registry_Name l = Registry_Name given) ->
     Registry_Name row = Registry_Name given).
Proof.
  intros Hup. destruct (upserted_row _ _ _ _ Hup) as (row & Hrow & Hsame & Hother & Hch & Hspec & Hname).
  destruct touch, changed; cbn [andb negb].
  2: { intros [-> _]%attempt_Ok. exists (stamped tx_now row). rewrite lookup_alter_eq, Hrow. split_and!; try done; [|by right].
       intros n Hn. rewrite lookup_alter_ne by done. auto. }
  all: intros [= <-]; exists row; split_and!; auto.
Qed.

Lemma same_row_fields a b :
  same_listener_row server a b = true ->
  jsonb_equal server (Spec a) (Spec b) = true /\ Registry_SpecHash a = Registry_SpecHash b /\ TargetTable a = TargetTable b /\
  TargetOID a = TargetOID b /\ Registry_Enabled a = Registry_Enabled b.
Proof. unfold same_listener_row. intros H. bool_to_prop. tauto. Qed.

(** What a write leaves of the listeners, whatever its triggers. *)
Lemma writeRegistry_row c service listener triggers stored c' :
  write c service listener triggers = Ok (stored, c') ->
  c' = with_registry (listener_rows c') (trigger_rows c') c /\
  listener_rows c' !! Registry_Name listener = Some stored /\
  (exists document, jsonb server (Spec listener) = Ok document /\ jsonb_equal server (Spec stored) document = true) /\
  Registry_SpecHash stored = Registry_SpecHash listener /\
  (forall n, n <> Registry_Name listener -> listener_rows c' !! n = listener_rows c !! n).
Proof.
  intros H. pose proof (writeRegistry_read _ _ _ _ _ _ H) as Hread. unfold writeRegistry in H.
  do 3 apply rbind_Ok in H as (? & _ & H). apply rbind_Ok in H as (document & Hdoc & H).
  apply rbind_Ok in H as ([rows listenerChanged] & [Hup _]%attempt_Ok & H).
  apply rbind_Ok in H as ([operations changed] & _ & H). apply rbind_Ok in H as (kept & _ & H).
  apply rbind_Ok in H as (rows' & Htouch & H). apply rbind_Ok in H as ([reading|] & _ & H); [|done]. injection H as Hst <-.
  destruct (touched_row _ _ _ _ _ _ (eq_sym Hup) Htouch) as (row & Hrow & Hsame & Hother & _ & _ & _).
  cbn [Registry_Name listener_rows trigger_rows with_registry] in *.
  assert (row = stored) as ->.
  { revert Hread. unfold readRegistry. intros H. do 2 apply rbind_Ok in H as (? & _ & H).
    apply rbind_Ok in H as (found & [-> _]%attempt_Ok & H). cbn [listener_rows with_registry] in H. rewrite Hrow in H.
    destruct (SplitQualified _); [|done]. apply rbind_Ok in H as (? & _ & H). by injection H. }
  apply same_row_fields in Hsame as (? & ? & _). split_and!; eauto.
Qed.

(** What a write leaves, in terms of the rows alone. *)
Lemma writeRegistry_Ok c service listener triggers stored c' :
  keyed_registry c -> NoDup (Registry_Operation <$> triggers) ->
  write c service listener triggers = Ok (stored, c') ->
  exists target, canonicalTarget Sanitize (TargetTable listener) = Ok target /\
    keyed_registry c' /\ listener_rows c' !! Registry_Name listener = Some stored /\
    c' = with_registry (listener_rows c') (trigger_rows c') c /\
    (exists document, jsonb server (Spec listener) = Ok document /\ jsonb_equal server (Spec stored) document = true /\
       (Spec stored = document \/
        exists old, listener_rows c !! Registry_Name listener = Some old /\ Spec stored = Spec old)) /\
    Registry_SpecHash stored = Registry_SpecHash listener /\
    TargetTable stored = target /\ TargetOID stored = TargetOID listener /\
    Registry_Enabled stored = Registry_Enabled listener /\ Registry_Name stored = Registry_Name listener /\
    (forall t, t ∈ triggers <-> trigger_rows c' !! (Registry_Name listener, Registry_Operation t) = Some t) /\
    (forall n, n <> Registry_Name listener -> listener_rows c' !! n = listener_rows c !! n) /\
    (forall k, fst k <> Registry_Name listener -> trigger_rows c' !! k = trigger_rows c !! k) /\
    (c' = c \/ AppliedAt stored = tx_now).
Proof.
  intros Hk Hnd H. destruct (writeRegistry_row _ _ _ _ _ _ H) as (Hc' & Hst & _). unfold writeRegistry in H.
  do 2 apply rbind_Ok in H as (? & _ & H). apply rbind_Ok in H as (target & Ht & H). exists target. split; [done|].
  apply rbind_Ok in H as (document & Hdoc & H). apply rbind_Ok in H as ([rows listenerChanged] & [Hup _]%attempt_Ok & H).
  apply rbind_Ok in H as ([operations changed] & [Hops%eq_sym _]%attempt_Ok & H).
  apply rbind_Ok in H as (kept & [Hkept _]%attempt_Ok & H).
  apply rbind_Ok in H as (rows' & Htouch & H). apply rbind_Ok in H as ([reading|] & _ & H); [|done].
  cbn [Registry_Name] in *. set (name := Registry_Name listener) in *. injection H as _ <-.
  destruct (upserted _ _ _ _ _ _ Hops Hnd) as (Ht1 & Ht2 & Ht3).
  destruct (touched_row _ _ _ _ _ _ (eq_sym Hup) Htouch) as (row & Hrow & Hsame & Hother & Hstamp & Hspec & Hname).
  cbn [Registry_Name listener_rows trigger_rows with_registry] in *. fold name in Hrow, Hother, Hname.
  rewrite Hrow in Hst. injection Hst as ->. pose proof (Hname (listeners_keyed _ Hk _)) as Hnm.
  apply same_row_fields in Hsame as (? & ? & ? & ? & ?). cbn [Spec Registry_SpecHash TargetTable TargetOID Registry_Enabled] in *.
  assert (Hkl : forall k, kept !! k = if decide (fst k = name /\ snd k ∉ Registry_Operation <$> triggers)
                                      then None else operations !! k).
  { intros k. rewrite Hkept. apply kept_lookup. }
  split_and!; try done.
  - split; cbn [listener_rows trigger_rows with_registry].
    + intros n l E. destruct (decide (n = name)) as [->|Hn]; [congruence|]. rewrite Hother in E by done.
      by apply (listeners_keyed _ Hk).
    + intros n o t E. rewrite Hkl in E. case_decide as Hd; [done|]. cbn [fst snd] in *.
      destruct (decide (n = name /\ o ∈ Registry_Operation <$> triggers)) as [[-> Ho]|Hno].
      * apply list_elem_of_fmap in Ho as (t' & -> & Ht'). rewrite (Ht1 _ Ht') in E. by injection E as <-.
      * rewrite Ht2 in E; [by apply (triggers_keyed _ Hk) in E|]. cbn [fst snd].
        destruct (decide (n = name)); [right|by left]. tauto.
  - by exists document.
  - intros t. split.
    + intros Hin. rewrite Hkl, decide_False; [by apply Ht1|]. cbn [fst snd]. intros [_ Hni].
      apply Hni. by apply list_elem_of_fmap_2.
    + intros E. rewrite Hkl in E. case_decide as Hd; [done|]. cbn [fst snd] in Hd.
      assert (Ho : Registry_Operation t ∈ Registry_Operation <$> triggers).
      { destruct (decide (Registry_Operation t ∈ Registry_Operation <$> triggers)); [done|]. by destruct Hd. }
      apply list_elem_of_fmap in Ho as (t' & Heq & Ht'). rewrite Heq, (Ht1 _ Ht') in E. by injection E as <-.
  - intros k Hne. rewrite Hkl, decide_False by tauto. apply Ht2. by left.
  - destruct Hstamp as [[-> Hc]|Hs]; [left|by right]. apply orb_false_iff in Hc as [Hc Hsz].
    apply Ht3 in Hc as [_ Hpres]. apply negb_false_iff, Nat.eqb_eq in Hsz.
    assert (kept = trigger_rows c) as ->; [|by destruct c].
    assert (Hko : kept = operations) by (rewrite Hkept in Hsz |- *; by apply filter_same_size).
    rewrite Hko. apply map_eq. intros k.
    destruct (decide (fst k = name /\ snd k ∈ Registry_Operation <$> triggers)) as [[Hf Hs]|Hn].
    + destruct k as [n o]. cbn [fst snd] in *. subst n. apply list_elem_of_fmap in Hs as (t & -> & Hin).
      by rewrite Ht1, Hpres.
    + apply Ht2. destruct (decide (fst k = name)); [right; tauto|by left].
Qed.

Lemma upserts_nothing name triggers rows changed :
  (forall t, t ∈ triggers -> rows !! (name, Registry_Operation t) = Some t) ->
  foldl (λ at_ trigger, upsert_trigger name trigger at_) (rows, changed) triggers = (rows, changed).
Proof.
  induction triggers as [|t ts IH]; intros H; [done|]. cbn [foldl]. unfold upsert_trigger at 2.
  rewrite bool_decide_eq_true_2 by (apply H; by left). apply IH. intros t' ?. apply H. by right.
Qed.

(** C27. What is written is what is read back, where the triggers given have distinct operations and
    the registry's rows are found under their own names: the listener's row, with its target in the
    canonical spelling and its specification as the server keeps a [jsonb] document -- so equal to the
    one given as [jsonb] and read alike by every decoder that does not tell equal documents apart, but
    not its very bytes -- and exactly the triggers given, whatever rows the listener had before. A
    document the server refuses is an error. The rows of every other listener are untouched and the keys
    stay sound; [applied_at] moves to this transaction's time unless nothing at all changed; and writing
    the same again, at whatever time, changes nothing. *)
Theorem writeRegistry_reads_back c service listener triggers stored c' :
  keyed_registry c -> NoDup (Registry_Operation <$> triggers) ->
  write c service listener triggers = Ok (stored, c') ->
  exists rows document,
    read c' service (Registry_Name listener) = Ok (Some {| Reading_Listener := stored; Triggers := rows |}) /\
    rows ≡ₚ triggers /\ canonicalTarget Sanitize (TargetTable listener) = Ok (TargetTable stored) /\
    stored = {| Registry_Name := Registry_Name listener; Spec := Spec stored; Registry_SpecHash := Registry_SpecHash listener;
                TargetTable := TargetTable stored; TargetOID := TargetOID listener;
                Registry_Enabled := Registry_Enabled listener; AppliedAt := AppliedAt stored |} /\
    jsonb server (Spec listener) = Ok document /\ jsonb_equal server (Spec stored) document = true /\
    (Spec stored = document \/
     exists old, listener_rows c !! Registry_Name listener = Some old /\ Spec stored = Spec old) /\
    (forall decode : gostring -> outcome TriggerSpec,
       (forall x y, jsonb server x = Ok y -> decode x = decode y) ->
       (forall x y, jsonb_equal server x y = true -> decode x = decode y) ->
       decode (Spec stored) = decode (Spec listener)) /\
    keyed_registry c' /\ (c' = c \/ AppliedAt stored = tx_now) /\
    (forall n, n <> Registry_Name listener ->
       listener_rows c' !! n = listener_rows c !! n /\ forall o, trigger_rows c' !! (n, o) = trigger_rows c !! (n, o)) /\
    forall now, writeRegistry Sanitize quoted server read_fails now c' service listener triggers = Ok (stored, c').
Proof.
  intros Hk Hnd H. pose proof (writeRegistry_read _ _ _ _ _ _ H) as Hread.
  destruct (writeRegistry_Ok _ _ _ _ _ _ Hk Hnd H)
    as (target & Ht & Hk' & Hl & Hc' & (document & Hdoc & Heq & Hs) & Hh & Htt & Ho & He & Hn & Htr & Hol & Hot & Hat).
  eexists _, document. split; [exact Hread|]. split; [by apply stored_triggers_perm|]. split.
  { by rewrite Ht, Htt. }
  split; [destruct stored; cbn in *; congruence|]. do 3 (split; [done|]). split.
  { intros decode H1 H2. rewrite (H1 _ _ Hdoc). by apply H2. }
  split; [done|]. split; [done|]. split; [auto|].
  intros now. revert H. unfold writeRegistry. intros H.
  apply rbind_Ok in H as (q1 & E1 & H). apply rbind_Ok in H as (q2 & E2 & H). rewrite E1, E2, Ht. cbn [rbind].
  rewrite Ht in H. cbn [rbind] in H. rewrite Hdoc in H |- *. cbn [rbind Registry_Name] in H |- *.
  apply rbind_Ok in H as ([rows ch] & [_ Q1]%attempt_Ok & H). rewrite Q1. cbn [rbind].
  unfold upsert_listener. cbn [Registry_Name]. rewrite Hl.
  replace (same_listener_row server stored _) with true
    by (unfold same_listener_row; cbn; rewrite Heq, Hh, Htt, Ho, He; by rewrite !bool_decide_eq_true_2).
  rewrite upserts_nothing by (intros t; apply Htr).
  apply rbind_Ok in H as ([ops ch'] & [_ Q2]%attempt_Ok & H). rewrite Q2. cbn [rbind].
  apply rbind_Ok in H as (kept & [_ Q3]%attempt_Ok & H). rewrite Q3. cbn [rbind].
  rewrite (map_filter_id _ (trigger_rows c')).
  2: { intros [n o] t E [Hf Hni]. cbn [fst snd] in *. subst n. apply Hni.
       pose proof (triggers_keyed _ Hk' _ _ _ E) as <-. apply list_elem_of_fmap_2. by apply Htr. }
  rewrite Nat.eqb_refl. cbn [negb orb andb rbind].
  replace (with_registry (listener_rows c') (trigger_rows c') c') with c' by (by destruct c'). by rewrite Hread.
Qed.
End RegistryRows.

(** ** What a rename does *)

Section Renames.
Context (Sanitize : list gostring -> gostring) (quoted sha256_hex : gostring -> gostring).
Context (marshal_spec : TriggerSpec -> gostring) (marshal_operation : Operation -> gostring).
Context (unmarshal_spec : gostring -> outcome TriggerSpec) (server : ddl_server).
Context (read_fails : gostring -> option gostring) (tx_now : Z).

Local Abbreviation plan_in := (planInTransaction Sanitize quoted sha256_hex marshal_spec marshal_operation
                                 unmarshal_spec server read_fails).
Local Abbreviation body := (apply_body Sanitize quoted sha256_hex marshal_spec marshal_operation
                              unmarshal_spec server read_fails tx_now).
Local Abbreviation sync_each := (sync_configured Sanitize quoted sha256_hex marshal_spec server read_fails tx_now).

Lemma renames_need_no_object c cfg recorded actions objects :
  (forall a, a ∈ actions -> Action_Kind a = ActionRename) ->
  objects_each Sanitize quoted server read_fails c cfg recorded actions = Ok objects -> objects = [].
Proof.
  revert objects. induction actions as [|a l IH]; intros objects Hall; cbn [objects_each]; [by intros [= <-]|].
  intros H. apply rbind_Ok in H as (object & _ & H). apply rbind_Ok in H as (more & Hm & H).
  rewrite (Hall a) in H by (by left). cbn in H. injection H as <-.
  apply IH in Hm; [done|]. intros x Hx. apply Hall. by right.
Qed.

Hypothesis jsonb_reflexive : forall document, jsonb_equal server document document = true.

(** A row that records a specification, as the server keeps it. *)
Definition records (spec : TriggerSpec) (row : registryListener) : Prop :=
  exists document, jsonb server (marshal_spec spec) = Ok document /\ jsonb_equal server (Spec row) document = true.

Lemma syncConfiguredListener_writes c cfg listener c' :
  syncConfiguredListener Sanitize quoted sha256_hex marshal_spec server read_fails tx_now c cfg listener = Ok c' ->
  c' = with_registry (listener_rows c') (trigger_rows c') c /\
  (exists row, listener_rows c' !! Name listener = Some row /\ records (Trigger listener) row) /\
  (forall n, n <> Name listener -> listener_rows c' !! n = listener_rows c !! n).
Proof.
  intros H. unfold syncConfiguredListener in H. apply rbind_Ok in H as (reading & _ & H).
  apply rbind_Ok in H as (resolution & _ & H). destruct (Qualified _ _ _) as [target|]; [|done].
  apply rbind_Ok in H as (triggers & _ & H). apply rbind_Ok in H as ([stored c''] & Hw & H). injection H as <-.
  apply (writeRegistry_row _ _ _ _ _ jsonb_reflexive) in Hw as (Hc & Hl & Hs & _ & Ho). cbn [Registry_Name Spec Spec_Bytes deriveListenerSpec] in *.
  split_and!; eauto.
Qed.

Lemma sync_configured_writes cfg changed listeners c c' :
  NoDup (Name <$> listeners) -> sync_each c cfg changed listeners = Ok c' ->
  c' = with_registry (listener_rows c') (trigger_rows c') c /\
  (forall l, l ∈ listeners -> Name l ∈ changed ->
     exists row, listener_rows c' !! Name l = Some row /\ records (Trigger l) row) /\
  (forall n, n ∉ Name <$> listeners -> listener_rows c' !! n = listener_rows c !! n).
Proof.
  revert c. induction listeners as [|l rest IH]; intros c Hnd; cbn [sync_configured].
  { intros [= <-]. split_and!; [by destruct c| |done]. by intros ? ?%not_elem_of_nil. }
  intros H. apply rbind_Ok in H as (c1 & Hone & H). cbn [fmap list_fmap] in *. apply NoDup_cons in Hnd as [Hni Hnd].
  destruct (IH _ Hnd H) as (Hc & Hrows & Hother). clear IH H.
  case_bool_decide as Hin.
  - apply syncConfiguredListener_writes in Hone as (Hc1 & (row & Hrow & Hspec) & Ho). split_and!.
    + rewrite Hc, Hc1. done.
    + intros l' [->|Hl']%elem_of_cons Hch; [|by apply Hrows]. exists row. by rewrite Hother.
    + intros n Hn. apply not_elem_of_cons in Hn as [Hne Hn]. rewrite Hother by done. by apply Ho.
  - injection Hone as <-. split_and!; [done| |].
    + intros l' [->|Hl']%elem_of_cons Hch; [done|by apply Hrows].
    + intros n Hn. apply not_elem_of_cons in Hn as [_ Hn]. by apply Hother.
Qed.

Lemma sync_removed_keeps cfg actions c c' :
  (forall a, a ∈ actions -> is_Some (configuredByName (Listeners cfg) !! Pair_Listener (Action_Pair a))) ->
  sync_removed Sanitize read_fails c cfg actions = Ok c' -> c' = c.
Proof.
  revert c. induction actions as [|a l IH]; intros c Hall; cbn [sync_removed]; [by intros [= <-]|].
  rewrite bool_decide_eq_true_2 by (apply Hall; by left). cbn [rbind]. apply IH. intros x Hx. apply Hall. by right.
Qed.

(** A rename installs nothing and records everything. When a plan of a configuration with
    distinct listener names holds renames alone, the run it licenses sends no statement and leaves
    every relation, trigger and function as they were; and yet each listener it named is recorded
    with the configuration's present specification, so one changed together with its table's name
    counts as applied while the old triggers stand. *)
Theorem rename_records_without_installing cfg approval run plan run' :
  NoDup (Name <$> Listeners cfg) ->
  plan_in (run_db run) cfg = Ok plan -> Actions plan <> [] ->
  (forall a, a ∈ Actions plan -> Action_Kind a = ActionRename /\
     is_Some (configuredByName (Listeners cfg) !! Pair_Listener (Action_Pair a))) ->
  body cfg approval run = (finished_with plan, run') ->
  sent run' = sent run /\ changes run' = changes run /\
  run_db run' = with_registry (listener_rows (run_db run')) (trigger_rows (run_db run')) (run_db run) /\
  forall listener, listener ∈ Listeners cfg -> Name listener ∈ (λ a, Pair_Listener (Action_Pair a)) <$> Actions plan ->
    exists row, listener_rows (run_db run') !! Name listener = Some row /\ records (Trigger listener) row.
Proof.
  intros Hnd Hplan Hne Hall. unfold apply_body. rewrite Hplan.
  destruct (Diagnostics plan); cbn [length Nat.eqb negb]; [|done].
  destruct (Refusals plan); cbn [length Nat.eqb negb]; [|done].
  assert (length (Actions plan) =? 0 = false)%nat as -> by (apply Nat.eqb_neq; by destruct (Actions plan)).
  destruct (if Destructive plan && _ then _ else _); [|done]. case_match; [done|].
  unfold and_then, steps_of. destruct (objectsForPlan _ _ _ _ _ _ plan) as [objects|] eqn:Eo; [|done].
  unfold objectsForPlan in Eo. apply rbind_Ok in Eo as (readings & _ & Eo).
  apply renames_need_no_object in Eo as ->; [|intros x Hx; by apply Hall].
  replace (apply_objects Sanitize quoted server [] run) with (Ok (E := gostring) tt, run) by reflexivity.
  destruct (syncRegistry Sanitize quoted sha256_hex marshal_spec server read_fails tx_now (run_db run) cfg plan)
    as [db|] eqn:Es; [|done].
  intros [= <-]. cbn [run_db changes sent]. unfold syncRegistry in Es. apply rbind_Ok in Es as (c1 & Hs & Hr).
  apply sync_removed_keeps in Hr as ->; [|intros x Hx; by apply Hall].
  destruct (sync_configured_writes _ _ _ _ _ Hnd Hs) as (Hc & Hrows & _). by split_and!.
Qed.
End Renames.

(** ** A small server, and the theorems on it *)

(** What a server does with the statements of the given sets on one table: functions take the OIDs
    from 100 on, in the order of the sets. Drops are told by name; the rest it ignores. *)
Definition sample_ddl (target : TargetReading) (drops : list (gostring * (cluster -> cluster)))
    (sets : list ObjectSet) (statement : gostring) (c : cluster) : result ddl_error cluster :=
  let with_objects t f := {| schemas := schemas c; relations := relations c; triggers_of := t; functions := f;
                             listener_rows := listener_rows c; trigger_rows := trigger_rows c;
                             queue_rows := queue_rows c |} in
  let step '(n, set_) c' :=
    let oid := (100 + Z.of_nat n)%Z in
    let key := (Reading_OID target, TriggerName set_) in
    if bool_decide (statement = CreateFunction set_) then
      with_objects (triggers_of c) (<[oid := {| Function_OID := oid; Function_Marker := None; Function_Definition := statement |}]> (functions c))
    else if bool_decide (statement = CommentFunction set_) then
      with_objects (triggers_of c) (alter (λ f, {| Function_OID := oid; Function_Marker := Some (Marker set_);
                                     Function_Definition := Function_Definition f |}) oid (functions c))
    else if bool_decide (statement = CreateTrigger set_) then
      with_objects (<[key := {| Trigger_OID := oid; FunctionOID := oid; Trigger_Marker := None;
                                Trigger_Definition := statement |}]> (triggers_of c)) (functions c)
    else if bool_decide (statement = CommentTrigger set_) then
      with_objects (alter (λ t, {| Trigger_OID := oid; FunctionOID := oid; Trigger_Marker := Some (Marker set_);
                                   Trigger_Definition := Trigger_Definition t |}) key (triggers_of c)) (functions c)
    else c' in
  let c := foldr step c (imap pair sets) in
  Ok (foldr (λ d c', if bool_decide (statement = fst d) then snd d c else c') c drops).

Definition sample_trigger (table clause : string) : TriggerSpec :=
  {| Table := bs table;
     Operations_ := [{| Kind := bs "insert"; Columns := []; IsDistinct := false; When := bs clause |}];
     Payload_ := {| Mode := bs "full"; Payload_Columns := []; Exclude := []; IncludeOld := false; MaxBytes := 65536 |} |}.

Definition sample_listener (table clause : string) : Listener :=
  {| Name := bs "orders"; Enabled := true; Trigger := sample_trigger table clause; Delivery := idle_delivery |}.

Definition sample_config (table clause : string) : Config :=
  {| Version := 1; Config_Instance := bs "prod"; AutoReconcile := false;
     Config_Database := {| Database_URL := []; Schema := bs "pg_noty"; ListenURL := [] |};
     Config_Worker := {| Concurrency := 1; BatchSize := 10; PollInterval := 10 ^ 9; LeaseTimeout := 60 * 10 ^ 9;
                         DrainTimeout := 10 ^ 9; AllowedDestinationCIDRs := [] |};
     Config_Retention := MkRetention (24 * 3600 * 10 ^ 9) (3600 * 10 ^ 9) (3600 * 10 ^ 9);
     Listeners := [sample_listener table clause] |}.

Definition sample_target (table : string) : TargetReading :=
  {| Reading_OID := 16385; Reading_Schema := bs "shop"; Reading_Table := bs table;
     Reading_Columns := [bs "id"]; Reading_PrimaryKeyColumns := [bs "id"] |}.

(** A bootstrapped cluster with one table. *)
Definition sample_cluster (table : string) : cluster :=
  {| schemas := {[ bs "pg_noty" ]};
     relations := <[1%Z := {| rel_schema := bs "pg_noty"; rel_name := TableListeners; rel_columns := []; rel_keys := [] |}]>
       (<[2%Z := {| rel_schema := bs "pg_noty"; rel_name := TableListenerTriggers; rel_columns := []; rel_keys := [] |}]>
       {[ 16385%Z := {| rel_schema := bs "shop"; rel_name := bs table; rel_columns := [bs "id"]; rel_keys := [bs "id"] |} ]});
     triggers_of := ∅; functions := ∅; listener_rows := ∅; trigger_rows := ∅; queue_rows := ∅ |}.

Definition spelled (row : relation_row) : list gostring :=
  [rel_schema row ++ bs "." ++ rel_name row; documented_Sanitize [rel_schema row; rel_name row]].

Definition sample_regclass (c : cluster) (name : gostring) : option Z :=
  list_find (λ kv, name ∈ spelled (snd kv)) (map_to_list (relations c)) ≫= λ found, Some (fst (snd found)).

Definition sample_sets_of (table clause : string) : list ObjectSet :=
  match compileListener documented_Sanitize id (bs "prod") (bs "pg_noty") (sample_listener table clause)
          (sample_target table) with
  | Ok (_, sets) => sets
  | Err _ => []
  end.

(** A server whose documents lose their blanks, and which refuses an empty one. *)
Definition squeezed (text : gostring) : gostring := filter (λ b, [b] <> bs " ") text.
Definition sample_jsonb (text : gostring) : outcome gostring :=
  if bool_decide (text = []) then Err (bs "invalid input syntax for type json") else Ok (squeezed text).

Definition sample_server (sets : list ObjectSet) : ddl_server :=
  {| regclass := sample_regclass; analyse := λ _ _, analysed; ddl := sample_ddl (sample_target "") [] sets;
     by_name_order := λ l, l; jsonb := sample_jsonb; jsonb_equal := λ x y, bool_decide (x = y) |}.

Definition sample_marshal (t : TriggerSpec) : gostring := Table t ++ bs ":" ++ mjoin (When <$> Operations_ t).
Definition sample_marshal_operation (o : Operation) : gostring := Kind o ++ bs ":" ++ When o.
Definition sample_unmarshal (known : list TriggerSpec) (text : gostring) : outcome TriggerSpec :=
  match list_find (λ t, squeezed (sample_marshal t) = squeezed text) known with Some (_, t) => Ok t | None => Err (bs "unknown") end.

Definition sample_known : list TriggerSpec :=
  [sample_trigger "shop.orders" ""; sample_trigger "shop.orders" "NEW.n > 1"; sample_trigger "shop.purchases" "NEW.n > 1"].

Definition sample_plan (sets : list ObjectSet) (cfg : Config) (c : cluster) : outcome PlanResult :=
  planInTransaction documented_Sanitize id id sample_marshal sample_marshal_operation (sample_unmarshal sample_known)
    (sample_server sets) (λ _, None) c cfg.

Definition calm_session : apply_session :=
  {| run_lock := acquired; begin_fails := None; settings_fail := None; at_commit := committed; release_fails := None |}.

Definition willing : Approval := {| DestructionPermitted := true; Approved := true; Interactive := false |}.

Definition sample_apply (sets : list ObjectSet) (cfg : Config) (c : cluster) :=
  Apply documented_Sanitize id id sample_marshal sample_marshal_operation (sample_unmarshal sample_known)
    (sample_server sets) (λ _, None) 7 calm_session cfg willing c.

(** One listener, applied to a table that has no trigger yet. *)
Definition first_run : ApplyResult * option gostring * cluster * list gostring :=
  sample_apply (sample_sets_of "orders" "") (sample_config "shop.orders" "") (sample_cluster "orders").

Definition run_result (run : ApplyResult * option gostring * cluster * list gostring) : ApplyResult := run.1.1.1.
Definition run_error (run : ApplyResult * option gostring * cluster * list gostring) : option gostring := run.1.1.2.
Definition run_cluster (run : ApplyResult * option gostring * cluster * list gostring) : cluster := run.1.2.
Definition run_sent (run : ApplyResult * option gostring * cluster * list gostring) : list gostring := run.2.


Definition sample_object (table : string) (drops : bool) (creates : list gostring) : applyObject :=
  {| Object_Target := sample_target table; Object_ServiceSchema := bs "pg_noty";
     Object_TriggerName := bs "t"; Object_FunctionName := bs "f"; Drop := drops; Creates := creates |}.

(** Three objects on two tables, named against the order they are taken in. *)
Definition sample_objects : list applyObject :=
  [sample_object "orders" false [bs "CREATE 1"]; sample_object "items" true [bs "CREATE 2"]; sample_object "orders" true []].

Definition idle_run : applyTx := {| run_db := sample_cluster "orders"; changes := 0; sent := [] |}.

Lemma apply_order_witness :
  exists groups, groupedApplyObjects documented_Sanitize id sample_objects = Ok groups /\
    group_name <$> groups = [documented_Sanitize [bs "shop"; bs "items"]; documented_Sanitize [bs "shop"; bs "orders"]] /\
    NoDup (group_name <$> groups) /\
    length (sent (apply_objects documented_Sanitize id (sample_server []) sample_objects idle_run).2) = 6%nat.
Proof.
  assert (exists answer run', apply_objects documented_Sanitize id (sample_server []) sample_objects idle_run = (answer, run'))
    as (answer & run' & E) by (destruct (apply_objects _ _ _ _ _) as [a r]; exists a, r; reflexivity).
  assert (Ha : answer = Ok tt) by (change answer with (answer, run').1; rewrite <- E; vm_compute; reflexivity). subst answer.
  destruct (apply_order documented_Sanitize id (sample_server []) sample_objects idle_run run' E)
    as (groups & Hg & _ & Hnd & _).
  exists groups. split; [exact Hg|]. split.
  - assert (Hn : match groupedApplyObjects documented_Sanitize id sample_objects with
                 | Ok groups => group_name <$> groups = [documented_Sanitize [bs "shop"; bs "items"]; documented_Sanitize [bs "shop"; bs "orders"]]
                 | Err _ => False end) by (vm_compute; reflexivity).
    rewrite Hg in Hn. exact Hn.
  - split; [exact Hnd|]. vm_compute. reflexivity.
Defined.

Definition no_rows : cluster := sample_cluster "orders".

Definition sample_row : registryListener :=
  {| Registry_Name := bs "orders"; Spec := bs "{ }"; Registry_SpecHash := bs "1:00";
     TargetTable := documented_Sanitize [bs "shop"; bs "orders"]; TargetOID := 16385; Registry_Enabled := true;
     AppliedAt := 0 |}.

Definition sample_rows : list registryTrigger :=
  [{| Registry_Operation := bs "update"; Registry_TriggerName := bs "t"; Registry_FunctionName := bs "f"; DDLHash := bs "1:a" |};
   {| Registry_Operation := bs "insert"; Registry_TriggerName := bs "u"; Registry_FunctionName := bs "g"; DDLHash := bs "1:b" |}].

Lemma sample_jsonb_reflexive sets document : jsonb_equal (sample_server sets) document document = true.
Proof. by apply bool_decide_eq_true_2. Qed.

(** The document given is kept without its blank, and every decoder that minds no blank reads it alike. *)
Lemma writeRegistry_reads_back_witness :
  exists stored c' rows,
    writeRegistry documented_Sanitize id (sample_server []) (λ _, None) 7 no_rows (bs "pg_noty") sample_row sample_rows
      = Ok (stored, c') /\
    readRegistry documented_Sanitize id (sample_server []) (λ _, None) c' (bs "pg_noty") (bs "orders")
      = Ok (Some {| Reading_Listener := stored; Triggers := rows |}) /\
    rows ≡ₚ sample_rows /\ Spec stored = bs "{}".
Proof.
  assert (H : match writeRegistry documented_Sanitize id (sample_server []) (λ _, None) 7 no_rows (bs "pg_noty")
                      sample_row sample_rows with Ok _ => True | Err _ => False end) by (vm_compute; exact I).
  destruct (writeRegistry documented_Sanitize id (sample_server []) (λ _, None) 7 no_rows (bs "pg_noty")
                      sample_row sample_rows) as [[stored c']|] eqn:E; [|destruct H].
  assert (Hk : keyed_registry no_rows) by (constructor; intros * Hl; discriminate Hl).
  destruct (writeRegistry_reads_back documented_Sanitize id (sample_server []) (λ _, None) 7 (λ l, Permutation_refl l)
    (sample_jsonb_reflexive []) no_rows (bs "pg_noty") sample_row sample_rows stored c' Hk ltac:(by_compute) E)
    as (rows & document & Hr & Hp & _ & _ & Hd & _ & [Hs|(old & Hold & _)] & _); [|discriminate Hold].
  exists stored, c', rows. split; [reflexivity|]. split; [exact Hr|]. split; [exact Hp|].
  rewrite Hs. injection Hd as <-. vm_compute. reflexivity.
Defined.

(** The table is renamed and the clause changed with it: the plan is a rename, the run sends nothing,
    and the next plan is clean, with the old trigger still there. *)
Definition renamed_cluster : cluster :=
  let c := run_cluster first_run in
  {| schemas := schemas c; relations := relations (sample_cluster "purchases"); triggers_of := triggers_of c;
     functions := functions c; listener_rows := listener_rows c; trigger_rows := trigger_rows c;
     queue_rows := queue_rows c |}.

Definition renamed_config : Config := sample_config "shop.purchases" "NEW.n > 1".
Definition renamed_sets : list ObjectSet := sample_sets_of "purchases" "NEW.n > 1".
Definition renamed_run : applyTx := {| run_db := renamed_cluster; changes := 0; sent := [] |}.
Definition renamed_body : body_end * applyTx :=
  apply_body documented_Sanitize id id sample_marshal sample_marshal_operation (sample_unmarshal sample_known)
    (sample_server renamed_sets) (λ _, None) 7 renamed_config willing renamed_run.

(** Naming the halves of a run without running it. *)
Lemma some_pair {A B} (p : A * B) : exists a b, p = (a, b).
Proof. destruct p as [a b]. by exists a, b. Qed.

Lemma rename_records_without_installing_witness :
  exists plan run', renamed_body = (finished_with plan, run') /\
    Action_Kind <$> Actions plan = [ActionRename] /\ sent run' = [] /\
    triggers_of (run_db run') = triggers_of renamed_cluster /\
    (exists row, listener_rows (run_db run') !! bs "orders" = Some row /\
                 records sample_marshal (sample_server renamed_sets) (sample_trigger "shop.purchases" "NEW.n > 1") row) /\
    match sample_plan renamed_sets renamed_config (run_db run') with
    | Ok next => Plan_Verdict next = VerdictClean
    | Err _ => False
    end.
Proof.
  assert (H : match renamed_body, sample_plan renamed_sets renamed_config renamed_cluster with
              | (finished_with plan, _), Ok plan' =>
                  plan = plan' /\ (λ a, (Pair_Listener (Action_Pair a), Action_Kind a)) <$> Actions plan = [(bs "orders", ActionRename)]
              | _, _ => False
              end) by (vm_compute; split; reflexivity).
  assert (Hnext : match sample_plan renamed_sets renamed_config (run_db renamed_body.2) with
                  | Ok next => Plan_Verdict next = VerdictClean
                  | Err _ => False
                  end) by (vm_compute; reflexivity).
  destruct (some_pair renamed_body) as (ending & run' & E).
  rewrite E in H, Hnext. cbn [snd] in Hnext. destruct ending as [? ? ?|plan|? ?]; [exact (False_ind _ H)| |exact (False_ind _ H)].
  destruct (sample_plan renamed_sets renamed_config renamed_cluster) as [plan'|] eqn:Ep; [|destruct H].
  destruct H as [<- Hkinds]. exists plan, run'. split; [exact E|].
  assert (Hone : exists a, Actions plan = [a] /\ Pair_Listener (Action_Pair a) = bs "orders" /\ Action_Kind a = ActionRename).
  { destruct (Actions plan) as [|a [|b l]]; try discriminate Hkinds. injection Hkinds as Hn Hk. exists a. repeat split; assumption. }
  destruct Hone as (a & Ha & Hn & Hk).
  assert (Hall : forall x, x ∈ Actions plan -> Action_Kind x = ActionRename /\
    is_Some (configuredByName (Listeners renamed_config) !! Pair_Listener (Action_Pair x))).
  { rewrite Ha. intros x Hx. apply list_elem_of_singleton in Hx as ->. rewrite Hn, Hk. split; [reflexivity|].
    exists (sample_listener "shop.purchases" "NEW.n > 1"). vm_compute. reflexivity. }
  destruct (rename_records_without_installing documented_Sanitize id id sample_marshal sample_marshal_operation
    (sample_unmarshal sample_known) (sample_server renamed_sets) (λ _, None) 7 (sample_jsonb_reflexive renamed_sets)
    renamed_config willing renamed_run plan run'
    ltac:(by_compute) Ep ltac:(rewrite Ha; discriminate) Hall E) as (Hs & _ & Hdb & Hrows).
  split; [rewrite Ha; cbn; rewrite Hk; reflexivity|]. split; [exact Hs|].
  split; [exact (f_equal triggers_of Hdb)|]. split; [|exact Hnext].
  apply (Hrows (sample_listener "shop.purchases" "NEW.n > 1")); [apply list_elem_of_here|].
  rewrite Ha. cbn. rewrite Hn. apply list_elem_of_here.
Defined.
