(* ===== verification/RunLock.v ===== *)
(** * The run lock and the blocker watch: [internal/reconcile]'s [runlock.go] and [blockerwatch.go].

    The wait for the session-level advisory lock that an apply holds, and giving it back. The key has one
    holder in the server, a backend or none; [me] is the backend of the pinned connection. What the server
    and the driver answer in a round of the wait, and how long each call takes, is the round's; others
    take and release the key between any two calls, but nobody takes it from the session that has it. A
    context's error is a function of the time, in nanoseconds. *)

From S2P Require Import Prelude Policy Reconcile Apply.

Local Open Scope Z_scope.

Definition DefaultRunLockWait : Z := 60 * second.
Definition runLockPollInterval : Z := 10000000.
Definition runLockTerminationWait : Z := 5 * second.

Inductive lock_error := Canceled | DeadlineExceeded | Driver (text : gostring).
#[export] Instance lock_error_eq_dec : EqDecision lock_error.
Proof. solve_decision. Defined.

(** What happens in a round. A call that fails may have reached the server all the same. *)
Record lock_round := {
  others_before : option Z -> option Z;
  attempt_takes : Z;
  attempt_fails : option lock_error;
  attempt_reaches : bool;
  read_takes : Z;
  read_answer : result lock_error (option gostring);
  (** Whether the poll sees the context's end rather than its timer, when both come at one instant. *)
  poll_sees_done : bool
}.

(** Nobody takes the key from [me] or for [me], and calls take time. *)
Record fair_round (me : Z) (r : lock_round) : Prop := {
  fair_keeps : others_before r (Some me) = Some me;
  fair_gives : forall h, h <> Some me -> others_before r h <> Some me;
  fair_attempt : 0 <= attempt_takes r;
  fair_read : 0 <= read_takes r
}.

Section waiting.
Variable quoted : gostring -> gostring.
Variable me : Z.
Variable deadline : Z.
(** When and how the caller's context ends, if it does. *)
Variable parent_ends : option (Z * lock_error).

(** [waitCtx.Err()] at an instant. *)
Definition ctx_err (now : Z) : option lock_error :=
  match parent_ends with
  | Some (at_, e) => if (at_ <? deadline) && (at_ <=? now) then Some e else if deadline <=? now then Some DeadlineExceeded else None
  | None => if deadline <=? now then Some DeadlineExceeded else None
  end.

(** The connection: pinned to the lock handed out, or given back to the pool. *)
Inductive connection := Pinned | GivenBack.

Inductive lock_outcome := Held | Refused (refusal : Refusal) | Failed (e : lock_error).

Record waited := { outcome_ : lock_outcome; connection_ : connection; key_holder : option Z; at_time : Z }.

Definition runLockWaitExpiry (instance holder : gostring) : lock_outcome :=
  Refused (runLockWaitExpiredRefusal quoted instance holder).

Definition runLockWaitResult (instance holder : gostring) (now : Z) (e : lock_error) : lock_outcome :=
  if bool_decide (ctx_err now = Some DeadlineExceeded) || bool_decide (e = DeadlineExceeded)
  then runLockWaitExpiry instance holder else Failed e.

(** [pg_try_advisory_lock]. *)
Definition try_lock (holder : option Z) : bool * option Z :=
  match holder with
  | None => (true, Some me)
  | Some h => (h =? me, holder)
  end.

(** ** Giving the lock back *)

(** What ending the session that still holds the key meets: the calls that fail, whether the backend
    outlives the server's wait, and what others make of the key before it is read. *)
Record recovery := {
  reach_fails : option lock_error;
  terminate_fails : option lock_error;
  survives : bool;
  others_after : option Z -> option Z;
  confirm_fails : option lock_error
}.

Definition ended (r : recovery) (key : option Z) : option Z :=
  if survives r then key else if bool_decide (key = Some me) then None else key.

Definition endTheSessionStillHoldingTheKey (r : recovery) (key : option Z) : result lock_error unit * option Z :=
  match reach_fails r with
  | Some e => (Err e, key)
  | None =>
      let key := ended r key in
      match terminate_fails r with
      | Some e => (Err e, key)
      | None =>
          let key := others_after r key in
          match confirm_fails r with
          | Some e => (Err e, key)
          | None =>
              if match key with Some holder => bool_decide (format_int holder = format_int me) | None => false end
              then (Err (Driver (bs "backend " ++ format_int me ++ bs " outlived 5s and still holds the reconcile run lock")), key)
              else (Ok tt, key)
          end
      end
  end.

(** [release] on an open connection: the server's answer, if the call answers. *)
Definition unlock (fails : option lock_error) (holder : option Z) : result lock_error unit * option Z :=
  match fails with
  | Some e => (Err e, holder)
  | None =>
      if bool_decide (holder = Some me) then (Ok tt, None)
      else (Err (Driver (bs "pinned connection did not hold reconcile run lock")), holder)
  end.

(** [held.on] is nil after the first call. *)
Definition release (conn : connection) (closed : bool) (unlock_fails : option lock_error) (r : recovery) (key : option Z) :
    result lock_error unit * option Z :=
  match conn with
  | GivenBack => (Err (Driver (bs "release reconcile run lock without a pinned connection")), key)
  | Pinned => if closed then endTheSessionStillHoldingTheKey r key else unlock unlock_fails key
  end.

(** What giving back a lock that was taken too late meets. *)
Record late_release := { closed_by_then : bool; unlock_answers : option lock_error; recovering : recovery }.

(** ** The wait *)

Definition unidentified : gostring := bs "could not be identified".

(** The loop of [acquireRunLockWith], from a connection. [late] is what giving back a lock taken too late
    meets. A connection whose call failed goes back to the pool, which closes it if it is broken;
    a key that such a call took stays its session's until the server ends it. *)
Fixpoint wait_for_lock (fuel : nat) (late : late_release) (instance : gostring) (holder : gostring)
    (rounds : nat -> lock_round) (k : nat) (now : Z) (key : option Z) : option waited :=
  match fuel with
  | O => None
  | S fuel =>
      if deadline - now <=? 0 then Some {| outcome_ := runLockWaitExpiry instance holder; connection_ := GivenBack; key_holder := key; at_time := now |}
      else
        let r := rounds k in
        let key := others_before r key in
        let now := now + attempt_takes r in
        match attempt_fails r with
        | Some e => Some {| outcome_ := runLockWaitResult instance holder now e; connection_ := GivenBack;
                            key_holder := if attempt_reaches r then snd (try_lock key) else key; at_time := now |}
        | None =>
            let '(locked, key) := try_lock key in
            if locked then
              match ctx_err now with
              | None => Some {| outcome_ := Held; connection_ := Pinned; key_holder := key; at_time := now |}
              | Some over =>
                  let '(given, key) := release Pinned (closed_by_then late) (unlock_answers late) (recovering late) key in
                  Some {| outcome_ := match given with Err e => Failed e | Ok _ => runLockWaitResult instance holder now over end;
                          connection_ := GivenBack; key_holder := key; at_time := now |}
              end
            else
              let now := now + read_takes r in
              match read_answer r with
              | Err e => Some {| outcome_ := runLockWaitResult instance holder now e; connection_ := GivenBack; key_holder := key; at_time := now |}
              | Ok seen =>
                  let holder := default unidentified seen in
                  match ctx_err now with
                  | Some e => Some {| outcome_ := runLockWaitResult instance holder now e; connection_ := GivenBack; key_holder := key; at_time := now |}
                  | None =>
                      let now := now + Z.min (deadline - now) runLockPollInterval in
                      match ctx_err now with
                      | Some e =>
                          if poll_sees_done r || bool_decide (is_Some (ctx_err (now - 1)))
                          then Some {| outcome_ := runLockWaitResult instance holder now e; connection_ := GivenBack; key_holder := key; at_time := now |}
                          else wait_for_lock fuel late instance holder rounds (S k) now key
                      | None => wait_for_lock fuel late instance holder rounds (S k) now key
                      end
                  end
              end
        end
  end.

(** A round that goes on waits a poll interval, or reaches the deadline. *)
Definition enough_rounds (now : Z) : nat :=
  if deadline <=? now then 1%nat else S (S (Z.to_nat ((deadline - now) / runLockPollInterval))).

End waiting.

(** [acquireRunLockWith], begun at [now]: [connect_takes] and [connect_fails] are the pool's. *)
Definition acquireRunLockWith (quoted : gostring -> gostring) (me : Z) (parent_ends : option (Z * lock_error)) (instance : gostring)
    (wait now connect_takes : Z) (connect_fails : option lock_error) (late : late_release) (rounds : nat -> lock_round) (key : option Z) : option waited :=
  let wait := if wait =? 0 then DefaultRunLockWait else wait in
  let deadline := now + wait in
  let now := now + connect_takes in
  match connect_fails with
  | Some e => Some {| outcome_ := runLockWaitResult quoted deadline parent_ends instance unidentified now e; connection_ := GivenBack;
                      key_holder := key; at_time := now |}
  | None => wait_for_lock quoted me deadline parent_ends (enough_rounds deadline now) late instance unidentified rounds 0 now key
  end.

(** ** blockerwatch.go *)

(** One poll of the watch: what reading the blocker answers, and whether the context is done by the next. *)
Record blocker_poll := { blocking : result gostring (option gostring); watch_done : bool }.

(** The one value sent on the buffered channel; [None] while the watch goes on. *)
Fixpoint watch_polls (polls : list blocker_poll) : option blockerObservation :=
  match polls with
  | [] => None
  | p :: polls =>
      match blocking p with
      | Err _ => Some {| backend := []; monitorUnavailable := true |}
      | Ok found =>
          let holder := default [] found in
          if negb (bool_decide (holder = [])) then Some {| backend := holder; monitorUnavailable := false |}
          else if watch_done p then Some {| backend := []; monitorUnavailable := false |}
          else watch_polls polls
      end
  end.

Definition observeBlocker (connect_fails : bool) (polls : list blocker_poll) : option blockerObservation :=
  if connect_fails then Some {| backend := []; monitorUnavailable := true |} else watch_polls polls.

(** Once cancelled, the watch sends: [stop] receives. *)
Lemma watch_always_answers connect_fails polls p : p ∈ polls -> watch_done p = true -> is_Some (observeBlocker connect_fails polls).
Proof.
  intros Hp Hd. unfold observeBlocker. destruct connect_fails; [done|]. induction polls as [|q polls IH]; [by apply elem_of_nil in Hp|].
  cbn [watch_polls]. destruct (blocking q) as [found|e]; [|done]. destruct (negb _); [done|].
  apply elem_of_cons in Hp as [<-|Hp]; [by rewrite Hd|]. destruct (watch_done q); [done|by apply IH].
Qed.

(** ** Every wait ends, and is settled *)

(** A release that answers nil has freed the key, on the connection or by ending its session. *)
Lemma release_frees me conn closed unlock_fails r key1 key2 : release me conn closed unlock_fails r key1 = (Ok tt, key2) ->
  conn = Pinned /\ key2 <> Some me.
Proof.
  unfold release. destruct conn; [|done]. destruct closed.
  - unfold endTheSessionStillHoldingTheKey. destruct (reach_fails r); [done|]. destruct (terminate_fails r); [done|].
    destruct (confirm_fails r); [done|]. destruct (others_after r _) as [h|]; [|by intros [= <-]].
    case_bool_decide as Hh; [done|]. intros [= <-]. split; [done|]. congruence.
  - unfold unlock. destruct unlock_fails; [done|]. case_bool_decide; [|done]. by intros [= <-].
Qed.

Section settled.
Context (quoted : gostring -> gostring) (me deadline : Z) (parent_ends : option (Z * lock_error)) (late : late_release).
Context (instance : gostring) (rounds : nat -> lock_round).
Hypothesis fair : forall k, fair_round me (rounds k).

Abbreviation wait_ := (wait_for_lock quoted me deadline parent_ends).
Abbreviation ends := (ctx_err deadline parent_ends).

Lemma ctx_open now : ends now = None <-> now < deadline /\ forall at_ e, parent_ends = Some (at_, e) -> now < at_.
Proof.
  unfold ctx_err. destruct parent_ends as [[at_ e]|].
  - destruct (Z.ltb_spec at_ deadline), (Z.leb_spec at_ now), (Z.leb_spec deadline now); cbn; (split; [try done; intros _|]).
    all: try (split; [lia|by intros ? ? [= <- <-]; lia]). all: intros [? Hp]; specialize (Hp at_ e eq_refl); (done || lia).
  - destruct (Z.leb_spec deadline now); (split; [try done|]); [intros []; lia|intros _; by split].
Qed.

(** The rounds a wait goes through before the one it ends in: each finds another holder, reads who it is
    and polls, the wait's context being open when the reading answers. *)
Inductive passed (start : Z) (key0 : option Z) : nat -> Z -> option Z -> Prop :=
  | passed_none : passed start key0 0 start key0
  | passed_round n now key seen read_at next :
      passed start key0 n now key -> now < deadline ->
      attempt_fails (rounds n) = None -> others_before (rounds n) key <> None ->
      read_answer (rounds n) = Ok seen -> read_at = now + attempt_takes (rounds n) + read_takes (rounds n) -> ends read_at = None ->
      next = read_at + Z.min (deadline - read_at) runLockPollInterval ->
      passed start key0 (S n) next (others_before (rounds n) key).

(** The holder that the last of [n] readings saw. *)
Definition last_seen (n : nat) (holder : gostring) : Prop :=
  match n with
  | O => holder = unidentified
  | S m => exists seen, read_answer (rounds m) = Ok seen /\ holder = default unidentified seen
  end.

(** The round a wait ends in, begun at [now] with the key as [key] has it, answered its reading. *)
Definition round_reads (n : nat) (now : Z) (key : option Z) : Prop :=
  now < deadline /\ attempt_fails (rounds n) = None /\ others_before (rounds n) key <> None /\
  exists seen, read_answer (rounds n) = Ok seen.

(** How a wait that began at [start] may end, after [n] rounds: with the key in hand and the context
    open; or with the connection given back and a refusal that names the holder of the last reading that answered; or
    with an error. A run that was not handed the key does not hold it, unless a call that failed had
    taken it, or giving a late lock back failed and its error is the answer. *)
Definition settled (start : Z) (key0 : option Z) (w : waited) : Prop :=
  exists n now key, passed start key0 n now key /\
  match outcome_ w with
  | Held => connection_ w = Pinned /\ key_holder w = Some me /\ now < deadline /\ others_before (rounds n) key = None /\
      at_time w < deadline /\ forall at_ e, parent_ends = Some (at_, e) -> at_time w < at_
  | Refused refusal => connection_ w = GivenBack /\
      (deadline <= at_time w \/ attempt_fails (rounds n) = Some DeadlineExceeded \/ read_answer (rounds n) = Err DeadlineExceeded \/
       exists at_, parent_ends = Some (at_, DeadlineExceeded) /\ at_ <= at_time w) /\
      exists holder, refusal = runLockWaitExpiredRefusal quoted instance holder /\
        (round_reads n now key -> last_seen (S n) holder) /\ (~ round_reads n now key -> last_seen n holder)
  | Failed _ => connection_ w = GivenBack
  end /\
  (outcome_ w <> Held -> key_holder w = Some me ->
   attempt_fails (rounds n) <> None /\ attempt_reaches (rounds n) = true \/
   exists e taken, outcome_ w = Failed e /\
     (release me Pinned (closed_by_then late) (unlock_answers late) (recovering late) taken).1 = Err e).
Lemma wait_for_lock_ends fuel : forall holder k now key, (enough_rounds deadline now <= fuel)%nat ->
  is_Some (wait_ fuel late instance holder rounds k now key).
Proof.
  induction fuel as [|fuel IH]; intros holder k now key Hf.
  { unfold enough_rounds in Hf. destruct (deadline <=? now); lia. }
  cbn [wait_for_lock]. destruct (Z.leb_spec (deadline - now) 0); [done|]. destruct (fair k) as [_ _ Ha Hr].
  destruct (attempt_fails (rounds k)); [done|]. destruct (try_lock me _) as [[] key'].
  { destruct (ctx_err _ _ _); [by destruct (release _ _ _ _ _ _)|done]. }
  destruct (read_answer (rounds k)) as [seen|e]; [|done].
  set (now' := now + attempt_takes (rounds k) + read_takes (rounds k)). destruct (ctx_err deadline parent_ends now') eqn:Hopen; [done|].
  apply ctx_open in Hopen as [Hopen _].
  assert (Hnext : (enough_rounds deadline (now' + Z.min (deadline - now') runLockPollInterval) <= fuel)%nat).
  { unfold enough_rounds in *. rewrite (proj2 (Z.leb_gt _ _)) in Hf by lia. assert (Hp : 0 < runLockPollInterval) by done.
    destruct (Z.leb_spec deadline (now' + Z.min (deadline - now') runLockPollInterval)); [lia|].
    assert (Hmin : Z.min (deadline - now') runLockPollInterval = runLockPollInterval) by lia. rewrite Hmin in *.
    assert (Hdiv : (deadline - (now' + runLockPollInterval)) / runLockPollInterval + 1 <= (deadline - now) / runLockPollInterval).
    { rewrite <- Z.div_add by lia. apply Z.div_le_mono; lia. }
    assert (0 <= (deadline - (now' + runLockPollInterval)) / runLockPollInterval) by (apply Z.div_pos; lia). lia. }
  destruct (ctx_err _ _ (now' + _)); [|by apply IH]. destruct (_ || _); [done|by apply IH].
Qed.

Lemma ctx_expired now : ends now = Some DeadlineExceeded ->
  deadline <= now \/ exists at_, parent_ends = Some (at_, DeadlineExceeded) /\ at_ <= now.
Proof.
  unfold ctx_err. destruct parent_ends as [[at_ e]|]; [|destruct (Z.leb_spec deadline now); [by left|done]].
  destruct (Z.ltb_spec at_ deadline), (Z.leb_spec at_ now), (Z.leb_spec deadline now); cbn; intros He; first [discriminate He|injection He as ->|idtac]; eauto.
Qed.

(** A wait that gives its connection back for the error [e] of a call or of the context. *)
Lemma given_back start key0 n now key holder key' at_ e : passed start key0 n now key ->
  (round_reads n now key -> last_seen (S n) holder) -> (~ round_reads n now key -> last_seen n holder) ->
  attempt_fails (rounds n) = Some e \/ read_answer (rounds n) = Err e \/ ends at_ = Some e ->
  (key' = Some me -> attempt_fails (rounds n) <> None /\ attempt_reaches (rounds n) = true) ->
  settled start key0 {| outcome_ := runLockWaitResult quoted deadline parent_ends instance holder at_ e; connection_ := GivenBack;
                        key_holder := key'; at_time := at_ |}.
Proof.
  intros Hp Hr Hn He Hk. exists n, now, key. split; [done|]. unfold runLockWaitResult, runLockWaitExpiry.
  cbn [outcome_ connection_ key_holder at_time]. destruct (bool_decide (ends at_ = Some _) || _) eqn:Hd; (split; [|by left; auto]); [|done].
  split; [done|]. split; [|by exists holder].
  apply orb_true_iff in Hd as [Hd%bool_decide_eq_true|Hd%bool_decide_eq_true].
  - apply ctx_expired in Hd. tauto.
  - subst e. destruct He as [|[|He%ctx_expired]]; tauto.
Qed.

Lemma try_lock_others key : key <> Some me -> try_lock me key = (bool_decide (key = None), if bool_decide (key = None) then Some me else key).
Proof. intros Hk. unfold try_lock. destruct key as [h|]; [|done]. rewrite (proj2 (Z.eqb_neq h me)) by congruence. done. Qed.

Lemma wait_for_lock_settled start key0 fuel : forall holder k now key w, passed start key0 k now key -> last_seen k holder -> key <> Some me ->
  wait_ fuel late instance holder rounds k now key = Some w -> settled start key0 w.
Proof.
  induction fuel as [|fuel IH]; intros holder k now key w Hp Hs Hk; cbn [wait_for_lock]; [done|].
  destruct (Z.leb_spec (deadline - now) 0) as [Hover|Htime].
  { intros [= <-]. exists k, now, key. split; [done|]. split; [|done]. split; [done|]. split; [left; cbn; lia|].
    exists holder. split; [done|]. split; [|done]. intros [? _]. lia. }
  pose proof (fair_gives me _ (fair k) key Hk) as Hk'. set (key' := others_before (rounds k) key) in *.
  destruct (attempt_fails (rounds k)) as [e|] eqn:Hf.
  { intros [= <-]. eapply given_back; [exact Hp| |done|by left|].
    - intros (_ & Hf' & _). congruence.
    - rewrite Hf. destruct (attempt_reaches (rounds k)); [done|]. intros ?. congruence. }
  rewrite try_lock_others by done. case_bool_decide as Hfree; cbn iota.
  - assert (Hno : ~ round_reads k now key) by (intros (_ & _ & Hbusy & _); by apply Hbusy).
    destruct (ends (now + attempt_takes (rounds k))) as [over|] eqn:Hc.
    + destruct (release _ _ _ _ _ _) as [[[]|e] key2] eqn:Hrel; intros [= <-].
      * apply release_frees in Hrel as [_ Hrel]. eapply given_back; [exact Hp|done|done|by right; right|by intros ?].
      * exists k, now, key. split; [done|]. split; [done|]. intros _ _. right. exists e, (Some me). by rewrite Hrel.
    + intros [= <-]. apply ctx_open in Hc as [Hc1 Hc2]. exists k, now, key. split; [done|]. split; [|by intros []].
      cbn. split_and!; (done || lia).
  - destruct (read_answer (rounds k)) as [found|e] eqn:Hread.
    2: { intros [= <-]. eapply given_back; [exact Hp| |done|by right; left|done]. intros (_ & _ & _ & ? & ?). congruence. }
    assert (Hs' : last_seen (S k) (default unidentified found)) by (cbn; eauto).
    assert (Hreads : round_reads k now key) by (split_and!; [lia|done|done|by exists found]).
    destruct (ends _) eqn:Hc1; [intros [= <-]; by eapply given_back; [exact Hp|done|done|by right; right|]|].
    set (next := _ + Z.min _ _).
    assert (Hgoes : wait_ fuel late instance (default unidentified found) rounds (S k) next key' = Some w -> settled start key0 w)
      by (apply IH; [by eapply (passed_round _ _ k now key found); [exact Hp|lia|..]|exact Hs'|exact Hk']).
    destruct (ends next) eqn:Hc2; [|done]. destruct (_ || _); [|done].
    intros [= <-]. by eapply given_back; [exact Hp|done|done|by right; right|].
Qed.
End settled.
(** C39. The run lock is taken, refused or given back, and the wait ends. Whatever the server and the
    driver answer, and whenever the caller's context ends, waiting for the key ends within the rounds its
    bound allows, in one of three ways. The run holds the key in the server, found free in the round the
    wait ended in, on the connection it keeps pinned, before its deadline and before the caller's context
    ends. Or the connection is back in the pool and the run is refused -- only past the deadline, the wait's or
    the caller's, or where a call answered that it ran out of time -- naming the holder that the last
    reading to answer saw, in whatever round. Or it ends with an error, the connection given back. In the
    last two the run does not hold the key, unless a call that failed had taken it, or giving back a lock taken too late
    failed, and then that error is the answer. A wait that gets no connection is refused without a name or
    fails with the pool's error. And a release that answers nil, on the connection or by ending its
    session, means that the server no longer counts the run as the holder. Others neither take the key
    from the session that has it nor for it, and the run does not hold it before. *)
Theorem run_lock_is_settled quoted me parent_ends instance wait now connect_takes connect_fails late rounds key :
  (forall k, fair_round me (rounds k)) -> key <> Some me ->
  (exists w, acquireRunLockWith quoted me parent_ends instance wait now connect_takes connect_fails late rounds key = Some w /\
    match connect_fails with
    | Some e => connection_ w = GivenBack /\ key_holder w = key /\
        (outcome_ w = Failed e \/ outcome_ w = Refused (runLockWaitExpiredRefusal quoted instance unidentified))
    | None => settled quoted me (now + if wait =? 0 then DefaultRunLockWait else wait) parent_ends late instance rounds (now + connect_takes) key w
    end) /\
  (forall conn closed unlock_fails r key1 key2, release me conn closed unlock_fails r key1 = (Ok tt, key2) ->
    conn = Pinned /\ key2 <> Some me).
Proof.
  intros Hfair Hk. split; [|intros *; apply release_frees].
  unfold acquireRunLockWith. set (deadline := now + _). destruct connect_fails as [e|].
  - eexists. split; [reflexivity|]. split; [done|]. split; [done|]. cbn. unfold runLockWaitResult, runLockWaitExpiry.
    destruct (_ || _); auto.
  - destruct (wait_for_lock_ends quoted me deadline parent_ends late instance rounds Hfair
      (enough_rounds deadline (now + connect_takes)) unidentified 0 (now + connect_takes) key ltac:(lia)) as [w Hw].
    exists w. split; [exact Hw|]. eapply wait_for_lock_settled; [exact Hfair|apply passed_none|done|exact Hk|exact Hw].
Qed.

(** A holder that gives the key back before the third attempt. *)
Definition sample_rounds (k : nat) : lock_round :=
  {| others_before := λ h, if bool_decide (h = Some 7) && bool_decide (k = 2%nat) then None else h;
     attempt_takes := 1000000; attempt_fails := None; attempt_reaches := false; read_takes := 1000000;
     read_answer := Ok (Some (bs "7")); poll_sees_done := false |}.

Lemma sample_fair k : fair_round 9 (sample_rounds k).
Proof.
  split; cbn; [by rewrite bool_decide_eq_false_2 by done| |lia|lia].
  intros h Hh. by destruct (_ && _).
Qed.

(** Holders that come and go, none of which is this run's. *)
Definition busy_rounds (k : nat) : lock_round :=
  {| others_before := λ h, if bool_decide (h = Some (-1)) then h else Some (Z.of_nat k); attempt_takes := 1000000; attempt_fails := None;
     attempt_reaches := false; read_takes := 1000000; read_answer := Ok (Some (format_int (Z.of_nat k))); poll_sees_done := false |}.

Lemma busy_fair k : fair_round (-1) (busy_rounds k).
Proof.
  split; cbn; [by rewrite bool_decide_eq_true_2| |lia|lia].
  intros h Hh. rewrite bool_decide_eq_false_2 by done. intros [= ?]. lia.
Qed.

Definition plain_release : late_release :=
  {| closed_by_then := false; unlock_answers := None;
     recovering := {| reach_fails := None; terminate_fails := None; survives := false; others_after := id; confirm_fails := None |} |}.

(** The key comes free in the third round; and a wait of 30ms, in which three holders come and go, is
    refused with the third. *)
Lemma run_lock_is_settled_witness :
  (exists w, acquireRunLockWith id 9 None (bs "noty") 0 0 0 None plain_release sample_rounds (Some 7) = Some w /\
     outcome_ w = Held /\ key_holder w = Some 9 /\ connection_ w = Pinned) /\
  exists w, acquireRunLockWith id (-1) None (bs "noty") 30000000 0 0 None plain_release busy_rounds None = Some w /\
     outcome_ w = Refused (runLockWaitExpiredRefusal id (bs "noty") (bs "2")) /\ connection_ w = GivenBack.
Proof.
  split.
  - destruct (run_lock_is_settled id 9 None (bs "noty") 0 0 0 None plain_release sample_rounds (Some 7) sample_fair ltac:(discriminate))
      as [(w & Hw & n & now & key & _ & Hs & _) _].
    exists w. split; [exact Hw|]. assert (Ho : outcome_ w = Held) by (vm_compute in Hw; by injection Hw as <-).
    rewrite Ho in Hs. split; [exact Ho|]. split; apply Hs.
  - destruct (run_lock_is_settled id (-1) None (bs "noty") 30000000 0 0 None plain_release busy_rounds None busy_fair ltac:(discriminate))
      as [(w & Hw & n & now & key & _ & Hs & _) _].
    exists w. split; [exact Hw|]. vm_compute in Hw. injection Hw as <-. split; [vm_compute; reflexivity|]. apply Hs.
Defined.
