(* ===== verification/Cli.v ===== *)
(** * The commands that change triggers: [internal/cli]'s [approval.go], [execute.go], [apply.go],
    [plan.go], [destroy.go], [destroyownership.go], [schemastate.go], [reconcilelatch.go],
    [run.go]'s [startRun] and [runreconcile.go].

    A command is a function from its flags, what its terminal and the queue answer, and the cluster
    to how it ended, the cluster after it and the statements it sent. Flag parsing, the terminal
    probe, the prompt's own text and what is printed are I/O: the prompt's answer is an argument,
    and so is everything the queue and the ledger say. *)

From S2P Require Import Prelude Utf8 Quote Queue Config Generate Reconcile Apply.

(** ** root.go, approval.go and execute.go *)

Record rootOptions := { DryRun : bool; AllowDelete : bool; AutoApprove : bool }.

Definition approvalFor (opts : rootOptions) (interactive : bool) : Approval :=
  {| DestructionPermitted := AllowDelete opts; Approved := AutoApprove opts; Interactive := interactive |}.

Definition approvalReason (plan : PlanResult) (approval : Approval) : gostring :=
  if Destructive plan && negb (DestructionPermitted approval) then bs "destruction permission"
  else if negb (Approved approval) && negb (Interactive approval) then bs "approval"
  else bs "proceed".

(** What [RunE] returns: nil, an [outcomeError], or any other error. *)
Inductive command_end := completed | outcomeError (verdict : Verdict) | failed (text : gostring).

Definition exitStatusOf (ending : command_end) : Z :=
  match ending with
  | completed => ExitCode VerdictClean
  | outcomeError verdict => ExitCode verdict
  | failed _ => ExitCode VerdictError
  end.

(** ** destroyownership.go *)

Definition destroyObjectKinds : list gostring := [bs "trigger"; bs "function"].

Definition destroyCell (disagreement : Disagreement_) : option (gostring * gostring) :=
  match disagreement with
  | DisagreementMarkerAbsent => Some (bs " has no ownership evidence (", bs "); leave it in place and confirm its owner")
  | DisagreementForeignInstance => Some (bs " belongs to another instance (", bs "); remove it only with that instance")
  | DisagreementAnotherPair => Some (bs " is recorded for another listener pair (", bs "); repair the registry first")
  | DisagreementNoRegistryRow => Some (bs " has no registry row (", bs "); restore the record before removing it")
  | _ => None
  end.

Definition destroyMessage (kind : gostring) (disagreement : Disagreement_) (identity evidence : gostring) : gostring :=
  match destroyCell disagreement with
  | Some (before, after) =>
      if bool_decide (kind ∈ destroyObjectKinds) then kind ++ bs " " ++ identity ++ before ++ evidence ++ after
      else kind ++ bs " " ++ identity ++ bs " is not proven owned (" ++ evidence ++ bs "); leave it in place"
  | None => kind ++ bs " " ++ identity ++ bs " is not proven owned (" ++ evidence ++ bs "); leave it in place"
  end.

(** ** schemastate.go *)

Record schemaState := { applied : Z; expected : Z; present : bool }.

Definition current (state : schemaState) : bool := present state && (applied state =? expected state)%Z.

(** ** reconcilelatch.go *)

Inductive latchState := latchPending | latchDischarged | latchFailed.

Definition resolve (err : option gostring) : latchState :=
  match err with None => latchDischarged | Some _ => latchFailed end.

Definition ready (state : latchState) : bool :=
  match state with latchDischarged => true | _ => false end.

(** [destroyed := *loaded.Value; destroyed.Listeners = nil]. *)
Definition without_listeners (cfg : Config) : Config :=
  {| Version := Version cfg; Config_Instance := Config_Instance cfg; AutoReconcile := AutoReconcile cfg;
     Config_Database := Config_Database cfg; Config_Worker := Config_Worker cfg; Config_Retention := Config_Retention cfg; Listeners := [] |}.

Definition verdict_text (verdict : Verdict) : gostring :=
  match verdict with
  | VerdictUnset => []
  | VerdictClean => bs "clean"
  | VerdictChangesPending => bs "changes_pending"
  | VerdictError => bs "error"
  end.

Section Commands.
Variable Sanitize : list gostring -> gostring.
Variables (quoted sha256_hex : gostring -> gostring).
Variable marshal_spec : TriggerSpec -> gostring.
Variable marshal_operation : Operation -> gostring.
Variable unmarshal_spec : gostring -> outcome TriggerSpec.
Variable server : ddl_server.
Variable read_fails : gostring -> option gostring.
Variable tx_now : Z.

Local Abbreviation plan_in := (planInTransaction Sanitize quoted sha256_hex marshal_spec marshal_operation
                                 unmarshal_spec server read_fails).
Local Abbreviation apply_run := (Apply Sanitize quoted sha256_hex marshal_spec marshal_operation
                                   unmarshal_spec server read_fails tx_now).

(** [reconcile.Plan]: the plan, in a read-only transaction that is rolled back. *)
Definition Plan (begin_read : option gostring) (cfg : Config) (c : cluster) : outcome PlanResult :=
  match begin_read with
  | Some e => Err (bs "begin read-only plan: " ++ e)
  | None => plan_in c cfg
  end.

(** ** plan.go *)

Definition plan_command (begin_read : option gostring) (cfg : Config) (c : cluster) : command_end :=
  match Plan begin_read cfg c with Err e => failed e | Ok result => outcomeError (Plan_Verdict result) end.

(** ** apply.go *)

(** [answer] is what the prompt would be answered, should it be asked. *)
Definition apply_command (opts : rootOptions) (interactive answer : bool) (begin_read : option gostring)
    (s : apply_session) (cfg : Config) (c : cluster) : command_end * cluster * list gostring :=
  if DryRun opts then (plan_command begin_read cfg c, c, [])
  else
    let approval := approvalFor opts interactive in
    let go :=
      let '(result, err, c', sent) := apply_run s cfg approval c in
      (match err with Some e => failed e | None => outcomeError (Result_Verdict result) end, c', sent) in
    if Interactive approval && negb (Approved approval) then
      match Plan begin_read cfg c with
      | Err e => (failed e, c, [])
      | Ok planned =>
          if negb (length (Actions planned) =? 0)%nat && negb answer
          then (failed (bs "changes were not confirmed"), c, []) else go
      end
    else go.

(** ** destroy.go *)

(** The first candidate that is not ours, if any. *)
Definition refused_candidate (instance : gostring) (candidates : list Candidate) : option Candidate :=
  snd <$> list_find (λ candidate, Owned (DetermineOwnership (Registry candidate) (Catalog candidate) instance) = false)
            candidates.

Definition destroy_command (opts : rootOptions) (confirmed : bool) (queue : outcome QueueObservation)
    (s : apply_session) (cfg : Config) (c : cluster) : command_end * cluster * list gostring :=
  match queue with
  | Err e => (failed e, c, [])
  | Ok observation =>
      let held := (Queue.Pending observation + Queue.Delivering observation + DeadCount observation)%Z in
      if negb confirmed then (failed (bs "destroy requires --confirm"), c, [])
      else if negb (held =? 0)%Z && negb (AllowDelete opts) then
        (failed (bs "refusing destroy: queue has " ++ format_int held ++
                 bs " undelivered/dead events; pass --allow-delete"), c, [])
      else
        match OwnedCandidates Sanitize quoted server read_fails c cfg with
        | Err e => (failed e, c, [])
        | Ok candidates =>
            match refused_candidate (Config_Instance cfg) candidates with
            | Some _ => (failed (bs "ownership proof refused"), c, [])
            | None =>
                if DryRun opts then (completed, c, [])
                else
                  let '(result, err, c', sent) :=
                    apply_run s (without_listeners cfg)
                      {| DestructionPermitted := true; Approved := true; Interactive := false |} c in
                  (match err with
                   | Some e => failed e
                   | None => if bool_decide (Result_Verdict result = VerdictClean) then completed
                             else outcomeError (Result_Verdict result)
                   end, c', sent)
            end
        end
  end.

(** ** run.go and runreconcile.go *)

Record reconcileChoice := { reconcile : bool; reconcileSet : bool }.

Definition decide_ (choice : reconcileChoice) (configured : bool) : bool :=
  if reconcileSet choice then reconcile choice else configured.

Definition staleSchema (serviceSchema : gostring) (state : schemaState) : gostring :=
  if negb (present state) then
    bs "schema " ++ serviceSchema ++ bs " has not been bootstrapped and auto_reconcile is off: run " ++
    bs "`pg_noty bootstrap` and `pg_noty apply`, or set auto_reconcile: true"
  else if (expected state <? applied state)%Z then
    bs "schema " ++ serviceSchema ++ bs " records version " ++ format_int (applied state) ++
    bs " and this binary embeds only version " ++ format_int (expected state) ++
    bs ", so the database is ahead of the binary: roll the binary forward rather than bootstrapping"
  else
    bs "schema " ++ serviceSchema ++ bs " records version " ++ format_int (applied state) ++
    bs " and this binary embeds version " ++ format_int (expected state) ++
    bs ", and auto_reconcile is off: run `pg_noty bootstrap`, or set auto_reconcile: true".

(** How a start-up ended: [None] goes on to serve; and the latch [/readyz] reads. *)
Definition verifyRun (ledger : outcome schemaState) (begin_read : option gostring) (cfg : Config) (c : cluster) :
    option command_end * latchState :=
  match ledger with
  | Err e => (Some (failed e), resolve (Some e))
  | Ok state =>
      if negb (current state) then
        let e := staleSchema (Schema (Config_Database cfg)) state in (Some (failed e), resolve (Some e))
      else
        match Plan begin_read cfg c with
        | Err e => (Some (failed e), resolve (Some e))
        | Ok result =>
            if negb (bool_decide (Plan_Verdict result = VerdictClean)) then
              (Some (outcomeError (Plan_Verdict result)),
               resolve (Some (bs "the database does not match the configuration: " ++ verdict_text (Plan_Verdict result))))
            else (None, resolve None)
        end
  end.

(** [bootstrap] is [schema.Bootstrap]'s answer: the cluster it leaves, and its error. *)
Definition startRun (mayMutate : bool) (opts : rootOptions) (ledger : outcome schemaState)
    (begin_read : option gostring) (bootstrap : cluster -> option gostring * cluster)
    (s : apply_session) (cfg : Config) (c : cluster) : option command_end * latchState * cluster * list gostring :=
  if negb mayMutate then (verifyRun ledger begin_read cfg c, c, [])
  else
    match bootstrap c with
    | (Some e, c) => (Some (failed e), resolve (Some e), c, [])
    | (None, c) =>
        let approval := {| DestructionPermitted := AllowDelete opts; Approved := true; Interactive := false |} in
        let '(result, err, c', sent) := apply_run s cfg approval c in
        match err with
        | Some e => (Some (failed e), resolve (Some e), c', sent)
        | None =>
            if negb (bool_decide (Result_Verdict result = VerdictClean)) then
              (Some (outcomeError (Result_Verdict result)),
               resolve (Some (bs "startup reconcile did not complete: " ++ verdict_text (Result_Verdict result))), c', sent)
            else (None, resolve None, c', sent)
        end
    end.
End Commands.

(** ** A destroy only drops, and only what is proven ours *)

Section Destroying.
Context (Sanitize : list gostring -> gostring) (quoted sha256_hex : gostring -> gostring).
Context (marshal_spec : TriggerSpec -> gostring) (marshal_operation : Operation -> gostring).
Context (unmarshal_spec : gostring -> outcome TriggerSpec) (server : ddl_server).
Context (read_fails : gostring -> option gostring) (tx_now : Z).

Local Abbreviation plan_in := (planInTransaction Sanitize quoted sha256_hex marshal_spec marshal_operation
                                 unmarshal_spec server read_fails).
Local Abbreviation body := (apply_body Sanitize quoted sha256_hex marshal_spec marshal_operation
                              unmarshal_spec server read_fails tx_now).
Local Abbreviation destroy := (destroy_command Sanitize quoted sha256_hex marshal_spec marshal_operation
                                 unmarshal_spec server read_fails tx_now).

Lemma add_readings_adds_no_wish c readings g g' :
  add_readings Sanitize quoted server read_fails c readings g = Ok g' ->
  Input_Desired (input g') = Input_Desired (input g) /\ Input_Listeners (input g') = Input_Listeners (input g).
Proof.
  revert g. induction readings as [|r rs IH]; intros g; cbn [add_readings]; [by intros [= <-]|].
  intros H. apply rbind_Ok in H as (g1 & H1 & H). destruct (IH _ H) as [-> ->].
  unfold add_reading in H1. apply rbind_Ok in H1 as (targets & _ & H1). injection H1 as <-.
  cbn. by rewrite !app_nil_r.
Qed.

(** A configuration that wants nothing drops what is recorded, and does nothing else. *)
Lemma plan_without_listeners c cfg plan a :
  plan_in c cfg = Ok plan -> Listeners cfg = [] -> a ∈ Actions plan -> Action_Kind a = ActionDrop.
Proof.
  unfold planInTransaction. intros H Hl. apply rbind_Ok in H as ([refusal|] & _ & H).
  { injection H as <-. by intros ?%not_elem_of_nil. }
  apply rbind_Ok in H as (diagnostics & _ & H).
  destruct (negb _); [injection H as <-; by intros ?%not_elem_of_nil|].
  unfold diffFromDatabase in H. apply rbind_Ok in H as (i & Hg & H). injection H as <-.
  intros (_ & p & _ & Hc)%(elem_of_actions _ _ key_walk).
  unfold gather in Hg. apply rbind_Ok in Hg as (readings & _ & Hg). rewrite Hl in Hg. cbn [add_configured rbind] in Hg.
  apply rbind_Ok in Hg as (g & Hadd & Hg). apply rbind_Ok in Hg as (observed & _ & Hg). injection Hg as <-.
  apply add_readings_adds_no_wish in Hadd as [Hd Hn]. cbn [input no_input Input_Desired Input_Listeners] in Hd, Hn.
  set (i := with_observations observed (input g)) in *.
  assert (Hp : Desired_ListenerPresent (Desired (source_of i p)) = false).
  { unfold source_of, listed_source, shortCircuitSpecificationComparison, raw_source, i. cbn [Input_Listeners with_observations Input_Desired].
    rewrite Hd, Hn. reflexivity. }
  revert Hc. unfold classifyPair. rewrite Hp. cbn [negb]. unfold refusedWith, classifyRemovedListener, classifiedAction.
  repeat case_match; cbn [Classified_Action unclassified]; by intros [= <-].
Qed.

Lemma drops_create_nothing c cfg recorded actions objects :
  (forall a, a ∈ actions -> Action_Kind a = ActionDrop) ->
  objects_each Sanitize quoted server read_fails c cfg recorded actions = Ok objects ->
  Forall (λ object, Creates object = []) objects.
Proof.
  revert objects. induction actions as [|a l IH]; intros objects Hall; cbn [objects_each]; [by intros [= <-]|].
  intros H. apply rbind_Ok in H as (object & Ho & H). apply rbind_Ok in H as (more & Hm & H).
  assert (Hmore : Forall (λ object, Creates object = []) more) by (apply IH; [intros x ?; apply Hall; by right|done]).
  injection H as <-. case_match; [|done]. constructor; [|done].
  unfold objectForAction in Ho. apply rbind_Ok in Ho as (resolution & _ & Ho).
  destruct (Resolution_Refusal resolution); [by injection Ho as <-|]. destruct (recordedNames _ _) as [t f].
  rewrite bool_decide_eq_true_2 in Ho by (apply Hall; by left).
  unfold withDropOfWhatTheCatalogHolds in Ho. apply rbind_Ok in Ho as (held & _ & Ho). by injection Ho as <-.
Qed.

(** The two statements that drop. *)
Definition dropping (statement : gostring) : Prop :=
  (exists target name, dropTriggerText Sanitize quoted target name = Ok statement) \/
  (exists schema name, dropFunctionText Sanitize quoted schema name = Ok statement).

(** A step that sends nothing but drops, whether or not it succeeds. *)
Definition only_drops {A} (m : applyTx -> outcome A * applyTx) : Prop :=
  forall run, Forall dropping (sent run) -> Forall dropping (sent (m run).2).

Lemma only_drops_then {A B} (m : applyTx -> outcome A * applyTx) (k : A -> applyTx -> outcome B * applyTx) :
  only_drops m -> (forall a, only_drops (k a)) -> only_drops (and_then m k).
Proof.
  intros Hm Hk run Hr. unfold and_then. specialize (Hm run Hr). destruct (m run) as [[a|e] run']; [|done].
  by apply Hk.
Qed.

Lemma only_drops_of {A} (m : outcome A) : only_drops (steps_of m).
Proof. by intros run Hr. Qed.

Lemma only_drops_change target statement : dropping statement -> only_drops (change Sanitize quoted server target statement).
Proof.
  intros Hs run Hr. unfold change.
  assert (Forall dropping (sent run ++ [statement])) by (apply Forall_app; split; [done|by constructor]).
  repeat case_match; done.
Qed.

Lemma only_drops_each {A} (f : A -> applyTx -> outcome unit * applyTx) items :
  Forall (λ x, only_drops (f x)) items -> only_drops (each_step f items).
Proof.
  induction 1 as [|x l Hx _ IH]; cbn [each_step]; [apply only_drops_of|]. by apply only_drops_then.
Qed.

Lemma only_drops_drop object : only_drops (drop Sanitize quoted server object).
Proof.
  intros run Hr. unfold drop, and_then, steps_of.
  destruct (dropTriggerText _ _ _ _) as [t|] eqn:Et; [|done].
  assert (Ht : dropping t) by (left; eauto). pose proof (only_drops_change (Object_Target object) t Ht run Hr) as H1.
  destruct (change _ _ _ _ t run) as [[|] run1]; [|done].
  destruct (dropFunctionText _ _ _ _) as [f|] eqn:Ef; [|done].
  apply only_drops_change; [right; eauto|done].
Qed.

Lemma only_drops_group group :
  Forall (λ object, Creates object = []) (group_objects group) -> only_drops (apply_group Sanitize quoted server group).
Proof.
  intros Hc. apply only_drops_then.
  - apply only_drops_each, Forall_forall. intros object _. destruct (Drop object); [apply only_drops_drop|apply only_drops_of].
  - intros _. apply only_drops_each. eapply Forall_impl; [exact Hc|]. cbn. intros object ->. apply only_drops_of.
Qed.

Lemma only_drops_objects objects :
  Forall (λ object, Creates object = []) objects -> only_drops (apply_objects Sanitize quoted server objects).
Proof.
  intros Hc run Hr. unfold apply_objects, and_then, steps_of.
  destruct (groupedApplyObjects Sanitize quoted objects) as [groups|] eqn:Eg; [|done].
  apply only_drops_each; [|done]. destruct (groups_of _ _ _ _ Eg) as (_ & _ & _ & Hgroups).
  eapply Forall_impl; [exact Hgroups|]. cbn. intros g Hg. apply only_drops_group. rewrite Hg.
  apply Forall_forall. intros o [_ Ho]%list_elem_of_filter. rewrite Forall_forall in Hc. by apply Hc.
Qed.

Lemma body_only_drops cfg approval run ending run' :
  (forall plan a, plan_in (run_db run) cfg = Ok plan -> a ∈ Actions plan -> Action_Kind a = ActionDrop) ->
  body cfg approval run = (ending, run') -> Forall dropping (sent run) -> Forall dropping (sent run').
Proof.
  intros Hall H Hr. unfold apply_body in H. destruct (plan_in (run_db run) cfg) as [plan|]; [|by injection H as <- <-].
  repeat (case_match; [by injection H as <- <-|]). case_match; [|by injection H as <- <-].
  case_match; [by injection H as <- <-|]. specialize (Hall plan).
  unfold and_then in H. unfold steps_of at 1 in H.
  destruct (objectsForPlan _ _ _ _ (run_db run) cfg plan) as [objects|] eqn:Eo; [|by injection H as <- <-].
  assert (Hc : Forall (λ object, Creates object = []) objects).
  { unfold objectsForPlan in Eo. apply rbind_Ok in Eo as (readings & _ & Eo). eapply drops_create_nothing; [|exact Eo].
    intros x Hx. by apply Hall. }
  pose proof (only_drops_objects _ Hc run Hr) as Hs.
  destruct (apply_objects _ _ _ objects run) as [[|] run1]; [|by injection H as <- <-]. cbn [snd] in Hs.
  destruct (syncRegistry _ _ _ _ _ _ _ _ _ _); by injection H as <- <-.
Qed.

Lemma refused_candidate_None instance candidates :
  refused_candidate instance candidates = None <->
  Forall (λ candidate, Owned (DetermineOwnership (Registry candidate) (Catalog candidate) instance) = true) candidates.
Proof.
  unfold refused_candidate. rewrite fmap_None, list_find_None. rewrite !Forall_forall.
  split; intros H x Hx; specialize (H x Hx); by destruct (Owned _).
Qed.

Lemma gathered_candidates {A} (f : A -> outcome (list Candidate)) (P : Candidate -> Prop) items candidates :
  (forall x l, x ∈ items -> f x = Ok l -> Forall P l) ->
  gather_candidates f items = Ok candidates -> Forall P candidates.
Proof.
  revert candidates. induction items as [|x l IH]; intros candidates Hf; cbn [gather_candidates]; [by intros [= <-]|].
  intros H. apply rbind_Ok in H as (these & Ht & H). apply rbind_Ok in H as (more & Hm & H). injection H as <-.
  apply Forall_app. split; [eapply Hf; [by left|done]|]. apply IH; [|done]. intros y l' Hy. apply Hf. by right.
Qed.

Lemma gathered_somewhere {A} (f : A -> outcome (list Candidate)) items candidates x :
  x ∈ items -> gather_candidates f items = Ok candidates -> exists l, f x = Ok l /\ forall y, y ∈ l -> y ∈ candidates.
Proof.
  revert candidates. induction items as [|z l IH]; intros candidates; [by intros ?%not_elem_of_nil|].
  cbn [gather_candidates]. intros Hx H. apply rbind_Ok in H as (these & Ht & H).
  apply rbind_Ok in H as (more & Hm & H). injection H as <-. apply elem_of_cons in Hx as [->|Hx].
  - exists these. split; [done|]. set_solver.
  - destruct (IH _ Hx Hm) as (l' & Hl & Hin). exists l'. split; [done|]. set_solver.
Qed.

Lemma deduplicate_from_incl seen candidates x : x ∈ deduplicate_from seen candidates -> x ∈ candidates.
Proof.
  revert seen. induction candidates as [|y l IH]; intros seen; cbn [deduplicate_from]; [done|].
  case_bool_decide; [intros ?; right; by eapply IH|]. intros [->|?]%elem_of_cons; [by left|right; by eapply IH].
Qed.

Lemma deduplicate_nonempty candidates : candidates <> [] -> deduplicateCandidates candidates <> [].
Proof.
  destruct candidates as [|x l]; [done|]. intros _. unfold deduplicateCandidates. cbn [deduplicate_from].
  by rewrite bool_decide_eq_false_2 by set_solver.
Qed.

Lemma appendPair_rows c row oid trigger function absent l :
  appendPair read_fails c row oid trigger function absent = Ok l ->
  l <> [] /\ Forall (λ candidate, Registry candidate = row) l.
Proof.
  unfold appendPair. intros H. apply rbind_Ok in H as ([reading|] & _ & H).
  - apply rbind_Ok in H as (f & _ & H). injection H as <-. split; [done|]. repeat constructor. by destruct f.
  - injection H as <-. split; [done|]. constructor; [done|]. by destruct absent; repeat constructor.
Qed.

(** *** Nothing that is recorded or configured goes unasked *)

(** A key tells its parts apart where the listener and the operation hold no colon. *)
Lemma last_colon (a b x y : gostring) :
  ":"%char ∉ x -> ":"%char ∉ y -> a ++ bs ":" ++ x = b ++ bs ":" ++ y -> a = b /\ x = y.
Proof.
  intros Hx Hy H. apply app_eq_inv in H as [(k & -> & Hk)|(k & -> & Hk)]; destruct k as [|z k];
    injection Hk as E1 E2 || injection Hk as E1; subst; rewrite ?app_nil_r; try done; exfalso;
    [apply Hy|apply Hx]; set_solver.
Qed.

Lemma same_key x y :
  marker_field (Row_Listener (Registry x)) -> marker_field (Row_Operation (Registry x)) ->
  marker_field (Row_Listener (Registry y)) -> marker_field (Row_Operation (Registry y)) ->
  candidate_key x = candidate_key y ->
  identity x = identity y /\ Row_Listener (Registry x) = Row_Listener (Registry y) /\
  Row_Operation (Registry x) = Row_Operation (Registry y).
Proof.
  intros [_ H1] [_ H2] [_ H3] [_ H4]. unfold candidate_key. rewrite !app_assoc. rewrite <- (app_assoc _ (bs ":") (Row_Operation _)).
  rewrite <- (app_assoc _ (bs ":") (Row_Operation (Registry y))). intros H. apply last_colon in H as [H ->]; [|done..].
  rewrite <- !app_assoc in H. apply last_colon in H as [-> ->]; done.
Qed.

(** Deduplication keeps a candidate of every key. *)
Lemma deduplicate_from_key seen candidates x :
  x ∈ candidates -> candidate_key x ∈ seen \/ exists y, y ∈ deduplicate_from seen candidates /\ candidate_key y = candidate_key x.
Proof.
  revert seen. induction candidates as [|z l IH]; intros seen; [by intros ?%elem_of_nil|]. cbn [deduplicate_from].
  intros [->|Hx]%elem_of_cons.
  - case_bool_decide; [by left|]. right. exists z. split; [by left|done].
  - case_bool_decide as Hz; [by apply IH|]. destruct (IH ({[candidate_key z]} ∪ seen) Hx) as [Hin|(y & Hy & Hk)].
    + apply elem_of_union in Hin as [Hin%elem_of_singleton|Hin]; [|by left]. right. exists z. split; [by left|done].
    + right. exists y. split; [by right|done].
Qed.

(** What a recorded pair contributes. *)
Definition pair_candidates (c : cluster) (row : registryListener) (trig : registryTrigger) : list Candidate :=
  let r := {| Present := true; Row_Listener := Registry_Name row; Row_Operation := Registry_Operation trig |} in
  let found := triggers_of c !! (TargetOID row, Registry_TriggerName trig) in
  candidateForTrigger r (Registry_TriggerName trig) found ::
  match found with
  | Some trigger => [candidateForFunction r (Registry_FunctionName trig) (functions c !! FunctionOID trigger)]
  | None => [{| Registry := r; Catalog := no_object_found; identity := [] |}]
  end.

Lemma appendPair_recorded c row trig l :
  appendPair read_fails c {| Present := true; Row_Listener := Registry_Name row; Row_Operation := Registry_Operation trig |}
    (TargetOID row) (Registry_TriggerName trig) (Registry_FunctionName trig) true = Ok l ->
  l = pair_candidates c row trig.
Proof.
  unfold appendPair, pair_candidates. intros H. apply rbind_Ok in H as (found & Hf & H).
  unfold ReadTrigger in Hf. apply query_Ok in Hf as <-. destruct found as [trigger|]; [|by injection H as <-].
  apply rbind_Ok in H as (function & Hf & H). unfold ReadFunction in Hf. apply query_Ok in Hf as <-.
  by injection H as <-.
Qed.

Lemma gathered_elem {A} (f : A -> outcome (list Candidate)) items candidates y :
  gather_candidates f items = Ok candidates -> y ∈ candidates -> exists x l, x ∈ items /\ f x = Ok l /\ y ∈ l.
Proof.
  revert candidates. induction items as [|x l IH]; intros candidates; cbn [gather_candidates].
  { intros [= <-]. by intros ?%elem_of_nil. }
  intros H. apply rbind_Ok in H as (these & Ht & H). apply rbind_Ok in H as (more & Hm & H). injection H as <-.
  intros [Hy|Hy]%elem_of_app; [exists x, these; split; [by left|done]|].
  destruct (IH _ Hm Hy) as (x' & l' & ? & ? & ?). exists x', l'. split; [by right|done].
Qed.

Lemma stored_triggers_elem c n trig :
  (forall l, by_name_order server l ≡ₚ l) ->
  trig ∈ stored_triggers server c n <-> exists o, trigger_rows c !! (n, o) = Some trig.
Proof.
  intros Horder. unfold stored_triggers. rewrite list_elem_of_omap. setoid_rewrite (Horder _). split; [naive_solver|].
  intros [o Ho]. exists o. split; [|done]. apply list_elem_of_fmap. exists (n, o). split; [done|].
  apply list_elem_of_filter. split; [done|]. apply list_elem_of_fmap. exists ((n, o), trig). split; [done|].
  by apply elem_of_map_to_list.
Qed.

Lemma read_each_reads c service ns readings :
  read_each Sanitize quoted server read_fails c service ns = Ok readings ->
  Forall2 (λ n reading, listener_rows c !! n = Some (Reading_Listener reading) /\
                        Triggers reading = stored_triggers server c n) ns readings.
Proof.
  revert readings. induction ns as [|n ns IH]; intros readings; cbn [read_each]; [intros [= <-]; constructor|].
  intros H. apply rbind_Ok in H as ([reading|] & H1 & H); [|done]. apply rbind_Ok in H as (more & Hm & H).
  injection H as <-. constructor; [|by apply IH].
  unfold readRegistry in H1. do 2 apply rbind_Ok in H1 as (? & _ & H1).
  apply rbind_Ok in H1 as ([l|] & [Hl _]%attempt_Ok & H1); [|done].
  destruct (SplitQualified _); [|done]. apply rbind_Ok in H1 as (rows & [-> _]%attempt_Ok & H1). by injection H1 as <-.
Qed.

(** The recorded candidates are those of the recorded pairs, and of all of them. *)
Lemma recorded_candidates c service readings recorded :
  (forall l, by_name_order server l ≡ₚ l) ->
  readRegistries Sanitize quoted server read_fails c service = Ok readings ->
  gather_candidates (appendRecordedCandidates read_fails c) readings = Ok recorded ->
  forall y, y ∈ recorded <-> exists n o row trig, listener_rows c !! n = Some row /\ trigger_rows c !! (n, o) = Some trig /\
                                    y ∈ pair_candidates c row trig.
Proof.
  intros Horder Hr Hg y. unfold readRegistries in Hr. apply rbind_Ok in Hr as (? & _ & Hr).
  apply rbind_Ok in Hr as (ns & [-> _]%attempt_Ok & Hr). apply read_each_reads in Hr.
  split.
  - intros Hy. destruct (gathered_elem _ _ _ _ Hg Hy) as (reading & l & Hin & Hf & Hyl).
    apply list_elem_of_lookup in Hin as [i Hi]. destruct (Forall2_lookup_r _ _ _ _ _ Hr Hi) as (n & _ & Hrow & Htr).
    unfold appendRecordedCandidates in Hf. destruct (gathered_elem _ _ _ _ Hf Hyl) as (trig & l' & Ht & Hp & Hyl').
    apply appendPair_recorded in Hp as ->. rewrite Htr in Ht. apply stored_triggers_elem in Ht as [o Ho]; [|done].
    by exists n, o, (Reading_Listener reading), trig.
  - intros (n & o & row & trig & Hrow & Ht & Hy).
    assert (Hn : n ∈ by_name_order server (fst <$> map_to_list (listener_rows c))).
    { rewrite (Horder _). apply list_elem_of_fmap. exists (n, row). split; [done|]. by apply elem_of_map_to_list. }
    apply list_elem_of_lookup in Hn as [i Hi]. destruct (Forall2_lookup_l _ _ _ _ _ Hr Hi) as (reading & Hri & Hrow' & Htr).
    rewrite Hrow in Hrow'. injection Hrow' as ->. apply list_elem_of_lookup_2 in Hri.
    destruct (gathered_somewhere _ _ _ _ Hri Hg) as (l & Hf & Hin). apply Hin. unfold appendRecordedCandidates in Hf.
    assert (Htrig : trig ∈ Triggers reading) by (rewrite Htr; apply stored_triggers_elem; eauto).
    destruct (gathered_somewhere _ _ _ _ Htrig Hf) as (l' & Hp & Hin'). apply Hin'.
    by apply appendPair_recorded in Hp as ->.
Qed.

Lemma configured_unrecorded c cfg configured :
  gather_candidates (appendConfiguredCandidates Sanitize quoted server read_fails c cfg) (Listeners cfg) = Ok configured ->
  Forall (λ candidate, Present (Registry candidate) = false) configured.
Proof.
  intros Hconf. eapply gathered_candidates; [|exact Hconf]. intros x l Hx Hone. unfold appendConfiguredCandidates in Hone.
  apply rbind_Ok in Hone as ([t|] & _ & Hone); [|by injection Hone as <-].
  apply rbind_Ok in Hone as ([? sets] & _ & Hone). eapply gathered_candidates; [|exact Hone].
  intros y l' _ Hpair. apply appendPair_rows in Hpair as [_ Hall]. eapply Forall_impl; [exact Hall|]. by intros ? ->.
Qed.

(** What every recorded pair must be before anything is destroyed: its trigger stands on the recorded
    table under the recorded name, with the function it runs, and both carry this instance's marker. *)
Definition proven (c : cluster) (instance n o : gostring) (row : registryListener) (trig : registryTrigger) : Prop :=
  exists trigger function,
    triggers_of c !! (TargetOID row, Registry_TriggerName trig) = Some trigger /\
    Trigger_Marker trigger = Some (marker instance n o) /\
    functions c !! FunctionOID trigger = Some function /\ Function_Marker function = Some (marker instance n o).

Lemma owned_pair_proven c instance row trig :
  (forall x, x ∈ pair_candidates c row trig -> Owned (DetermineOwnership (Registry x) (Catalog x) instance) = true) ->
  proven c instance (Registry_Name row) (Registry_Operation trig) row trig.
Proof.
  unfold pair_candidates, proven. intros H. pose proof (H _ ltac:(by left)) as (_ & H1 & _)%Owned_iff.
  destruct (triggers_of c !! (TargetOID row, Registry_TriggerName trig)) as [trigger|]; [|done].
  cbn in H1. pose proof (H _ ltac:(right; by left)) as (_ & H2 & _)%Owned_iff. exists trigger.
  destruct (functions c !! FunctionOID trigger) as [function|]; [|done]. cbn in H2. by exists function.
Qed.

(** The identities of one pair's candidates differ. *)
Lemma pair_identity c row trig x y :
  x ∈ pair_candidates c row trig -> y ∈ pair_candidates c row trig -> identity x = identity y -> x = y.
Proof.
  unfold pair_candidates. destruct (triggers_of c !! _); [|];
    intros [->|[->|[]%elem_of_nil]%elem_of_cons]%elem_of_cons [->|[->|[]%elem_of_nil]%elem_of_cons]%elem_of_cons; try done;
    unfold candidateForTrigger, candidateForFunction; try destruct (functions c !! _); done.
Qed.

(** Every candidate owned, every recorded pair is proven, and every configured object is recorded. *)
Lemma owned_candidates_proven c cfg candidates :
  (forall l, by_name_order server l ≡ₚ l) -> keyed_registry c ->
  OwnedCandidates Sanitize quoted server read_fails c cfg = Ok candidates ->
  refused_candidate (Config_Instance cfg) candidates = None ->
  (forall n o row trig, listener_rows c !! n = Some row -> trigger_rows c !! (n, o) = Some trig ->
     marker_field n -> marker_field o -> proven c (Config_Instance cfg) n o row trig) /\
  (forall listener target compiled set_, listener ∈ Listeners cfg ->
     ResolveTarget (catalog_of server read_fails c) (Table (Trigger listener)) = Ok (Some target) ->
     compileListener Sanitize quoted (Config_Instance cfg) (Schema (Config_Database cfg)) listener target = Ok compiled ->
     set_ ∈ compiled.2 -> marker_field (Name listener) -> marker_field (Set_Operation set_) ->
     exists row trig, listener_rows c !! Name listener = Some row /\
       trigger_rows c !! (Name listener, Set_Operation set_) = Some trig /\ Registry_TriggerName trig = TriggerName set_).
Proof.
  intros Horder [Hkl Hkt] Ec Er. apply refused_candidate_None in Er. rewrite Forall_forall in Er. unfold OwnedCandidates in Ec.
  apply rbind_Ok in Ec as (readings & Hr & Ec). apply rbind_Ok in Ec as (recorded & Hrec & Ec).
  apply rbind_Ok in Ec as (configured & Hconf & Ec). injection Ec as <-.
  pose proof (recorded_candidates _ _ _ _ Horder Hr Hrec) as Hall.
  pose proof (configured_unrecorded _ _ _ Hconf) as Habsent. rewrite Forall_forall in Habsent.
  (* every candidate shares its key with an owned one that is recorded *)
  assert (Hkept : forall x, x ∈ recorded ++ configured ->
    marker_field (Row_Listener (Registry x)) -> marker_field (Row_Operation (Registry x)) ->
    exists row trig y, listener_rows c !! Row_Listener (Registry x) = Some row /\
      trigger_rows c !! (Row_Listener (Registry x), Row_Operation (Registry x)) = Some trig /\
      y ∈ pair_candidates c row trig /\ identity y = identity x /\
      Owned (DetermineOwnership (Registry y) (Catalog y) (Config_Instance cfg)) = true).
  { intros x Hx Hl Ho. destruct (deduplicate_from_key ∅ _ _ Hx) as [Hin|(y & Hy & Hk)]; [by apply elem_of_empty in Hin|].
    pose proof (Er y Hy) as Hown. pose proof Hown as (Hp & _ & _ & Hyl & Hyo)%Owned_iff.
    apply deduplicate_from_incl in Hy. apply elem_of_app in Hy as [Hy|Hy].
    2: { specialize (Habsent y Hy). congruence. }
    destruct (same_key y x Hyl Hyo Hl Ho Hk) as (Hi & Hl' & Ho').
    apply Hall in Hy as (n & o & row & trig & Hrow & Ht & Hyp).
    assert (Registry y = {| Present := true; Row_Listener := n; Row_Operation := o |}) as Hreg.
    { rewrite <- (Hkl _ _ Hrow), <- (Hkt _ _ _ Ht). clear -Hyp. unfold pair_candidates in Hyp.
      destruct (triggers_of c !! _) as [trigger|]; apply elem_of_cons in Hyp as [->|Hyp]; try done;
        apply list_elem_of_singleton in Hyp as ->; [by destruct (functions c !! _)|done]. }
    rewrite Hreg in Hl', Ho'. cbn in Hl', Ho'. rewrite <- Hl', <- Ho'. by exists row, trig, y. }
  split.
  - intros n o row trig Hrow Ht Hn Ho. rewrite <- (Hkl _ _ Hrow), <- (Hkt _ _ _ Ht). apply owned_pair_proven.
    intros x Hx. assert (Hreg : Registry x = {| Present := true; Row_Listener := n; Row_Operation := o |}).
    { rewrite <- (Hkl _ _ Hrow), <- (Hkt _ _ _ Ht). clear -Hx. unfold pair_candidates in Hx.
      destruct (triggers_of c !! _) as [trigger|]; apply elem_of_cons in Hx as [->|Hx]; try done;
        apply list_elem_of_singleton in Hx as ->; [by destruct (functions c !! _)|done]. }
    destruct (Hkept x) as (row' & trig' & y & Hrow' & Ht' & Hy & Hi & Hown); rewrite ?Hreg; try done.
    { apply elem_of_app. left. apply Hall. by exists n, o, row, trig. }
    rewrite Hreg in Hrow', Ht'. cbn in Hrow', Ht'. rewrite Hrow in Hrow'. rewrite Ht in Ht'. injection Hrow' as <-.
    injection Ht' as <-. rewrite <- Hreg, (pair_identity _ _ _ _ _ Hx Hy (eq_sym Hi)). exact Hown.
  - intros listener target compiled set_ Hl Htarget Hc Hset Hnl Hno.
    destruct (gathered_somewhere _ _ _ _ Hl Hconf) as (l & Hone & Hin). unfold appendConfiguredCandidates in Hone.
    rewrite Htarget in Hone. cbn [rbind] in Hone. rewrite Hc in Hone. destruct compiled as [? sets]. cbn [rbind snd] in *.
    destruct (gathered_somewhere _ _ _ _ Hset Hone) as (l' & Hpair & Hin').
    assert (exists x, x ∈ l' /\ identity x = bs "trigger:" ++ TriggerName set_ /\
      Registry x = {| Present := false; Row_Listener := Name listener; Row_Operation := Set_Operation set_ |})
      as (x & Hx & Hid & Hreg).
    { unfold appendPair in Hpair. apply rbind_Ok in Hpair as (found & _ & Hpair).
      destruct found as [trigger|]; [apply rbind_Ok in Hpair as (? & _ & Hpair)|]; injection Hpair as <-;
        (eexists; split; [by left|done]). }
    destruct (Hkept x) as (row & trig & y & Hrow & Ht & Hy & Hi & _); rewrite ?Hreg; try done.
    { apply elem_of_app. right. by apply Hin, Hin'. }
    rewrite Hreg in Hrow, Ht. exists row, trig. split_and!; [done..|]. rewrite Hid in Hi. clear -Hy Hi.
    unfold pair_candidates in Hy. destruct (triggers_of c !! _); apply elem_of_cons in Hy as [->|Hy]; try (by apply app_inv_head in Hi);
      apply list_elem_of_singleton in Hy as ->; unfold candidateForFunction in Hi; try destruct (functions c !! _); done.
Qed.

(** C13. Destroy needs every proof and does nothing but drop. If it changes the database or sends
    anything, then removal was confirmed, it is no dry run, and the queue is empty or deletion was
    allowed; and, where the registry's rows are found under their own names and the server's ORDER BY
    lists every row: for every trigger row of every listener the registry records (whose names could be
    written in a marker), the trigger stands on the recorded table under the recorded name, with the
    function it runs, and both carry this instance's marker for exactly that listener and operation; and
    every object the configuration would install is recorded under its own trigger name. The plan
    carried out holds drops alone, and every statement sent, whether or not the run succeeded, drops a
    trigger or a function. *)
Theorem destroy_is_guarded opts confirmed queue s cfg c ending c' sent_ :
  destroy opts confirmed queue s cfg c = (ending, c', sent_) ->
  c' <> c \/ sent_ <> [] ->
  confirmed = true /\ DryRun opts = false /\
  (exists o, queue = Ok o /\
     (Queue.Pending o + Queue.Delivering o + DeadCount o = 0 \/ AllowDelete opts = true)%Z) /\
  ((forall l, by_name_order server l ≡ₚ l) -> keyed_registry c ->
   (forall n o row trig, listener_rows c !! n = Some row -> trigger_rows c !! (n, o) = Some trig ->
      marker_field n -> marker_field o -> proven c (Config_Instance cfg) n o row trig) /\
   (forall listener target compiled set_, listener ∈ Listeners cfg ->
      ResolveTarget (catalog_of server read_fails c) (Table (Trigger listener)) = Ok (Some target) ->
      compileListener Sanitize quoted (Config_Instance cfg) (Schema (Config_Database cfg)) listener target = Ok compiled ->
      set_ ∈ compiled.2 -> marker_field (Name listener) -> marker_field (Set_Operation set_) ->
      exists row trig, listener_rows c !! Name listener = Some row /\
        trigger_rows c !! (Name listener, Set_Operation set_) = Some trig /\ Registry_TriggerName trig = TriggerName set_)) /\
  (exists plan, plan_in c (without_listeners cfg) = Ok plan /\
     forall a, a ∈ Actions plan -> Action_Kind a = ActionDrop) /\
  Forall dropping sent_.
Proof.
  unfold destroy_command. destruct queue as [o|e]; [|intros [= <- <- <-]; tauto].
  destruct confirmed; cbn [negb]; [|intros [= <- <- <-]; tauto].
  destruct (negb _ && _) eqn:Eq; [intros [= <- <- <-]; tauto|].
  destruct (OwnedCandidates _ _ _ _ c cfg) as [candidates|] eqn:Ec; [|intros [= <- <- <-]; tauto].
  destruct (refused_candidate _ candidates) eqn:Er; [intros [= <- <- <-]; tauto|].
  destruct (DryRun opts); [intros [= <- <- <-]; tauto|].
  destruct (Apply _ _ _ _ _ _ _ _ _ s (without_listeners cfg) _ c) as [[[result err] c1] sent1] eqn:Ea.
  intros [= <- <- <-] Hne. destruct (Apply_body _ _ _ _ _ _ _ _ _ _ _ _ _ _ _ _ _ Ea)
    as [[-> ->]|(ending' & run' & Hb & -> & _ & Hp & _)]; [tauto|].
  split_and!; try done.
  - exists o. split; [done|]. apply andb_false_iff in Eq as [Eq%negb_false_iff%Z.eqb_eq|Eq%negb_false_iff]; auto.
  - intros Horder Hkeyed. by eapply owned_candidates_proven.
  - exists (Result_Plan result). split; [done|]. intros a Ha. by eapply plan_without_listeners.
  - eapply body_only_drops; [|exact Hb|by constructor]. cbn [run_db]. intros plan a Hpl Ha.
    by eapply plan_without_listeners.
Qed.

(** What was never recorded cannot be destroyed away. When the registry records no trigger, a
    configured listener whose table exists and that has an operation makes destroy refuse, confirmed
    or not and whether or not anything of it is installed: a configuration nobody has applied yet,
    or one already destroyed, is not destroyed as an empty one but refused. Nothing is touched. *)
Theorem destroy_refuses_the_unrecorded opts confirmed o s cfg c listener target compiled set_ :
  trigger_rows c = ∅ -> (forall l, by_name_order server l ≡ₚ l) ->
  listener ∈ Listeners cfg ->
  ResolveTarget (catalog_of server read_fails c) (Table (Trigger listener)) = Ok (Some target) ->
  compileListener Sanitize quoted (Config_Instance cfg) (Schema (Config_Database cfg)) listener target = Ok compiled ->
  set_ ∈ compiled.2 ->
  exists text, destroy opts confirmed (Ok o) s cfg c = (failed text, c, []).
Proof.
  intros Hrows Horder Hl Ht Hc Hset. unfold destroy_command.
  destruct confirmed; cbn [negb]; [|eauto]. destruct (negb _ && _); [eauto|].
  destruct (OwnedCandidates _ _ _ _ c cfg) as [candidates|] eqn:Ec; [|eauto].
  destruct (refused_candidate (Config_Instance cfg) candidates) eqn:Er; [eauto|]. exfalso.
  apply refused_candidate_None in Er. unfold OwnedCandidates in Ec.
  apply rbind_Ok in Ec as (readings & Hr & Ec). apply rbind_Ok in Ec as (recorded & Hrec & Ec).
  apply rbind_Ok in Ec as (configured & Hconf & Ec). injection Ec as <-.
  assert (Hnone : forall x, x ∈ readings -> Triggers x = []).
  { unfold readRegistries in Hr. apply rbind_Ok in Hr as (? & _ & Hr). apply rbind_Ok in Hr as (names & _ & Hr).
    clear -Hr Hrows Horder. revert readings Hr. induction names as [|n ns IH]; intros readings; cbn [read_each].
    { intros [= <-] x. by intros ?%not_elem_of_nil. }
    intros H. apply rbind_Ok in H as ([reading|] & H1 & H); [|done]. apply rbind_Ok in H as (more & Hm & H).
    injection H as <-. intros x [->|Hx]%elem_of_cons; [|by eapply IH].
    unfold readRegistry in H1. do 2 apply rbind_Ok in H1 as (? & _ & H1). apply rbind_Ok in H1 as ([l|] & _ & H1); [|done].
    destruct (SplitQualified _); [|done]. apply rbind_Ok in H1 as (rows & [-> _]%attempt_Ok & H1). injection H1 as <-.
    cbn [Triggers]. unfold stored_triggers. rewrite Hrows, map_to_list_empty. cbn.
    assert (by_name_order server [] = []) as -> by (by apply Permutation_nil_r, Horder). done. }
  assert (recorded = []) as ->.
  { assert (Hf : Forall (λ _, False) recorded); [|by destruct recorded; [|inversion Hf]].
    eapply gathered_candidates; [|exact Hrec]. intros x l Hx. unfold appendRecordedCandidates.
    rewrite (Hnone x Hx). cbn [gather_candidates]. by intros [= <-]. }
  cbn [app] in Er.
  assert (Habsent : Forall (λ candidate, Present (Registry candidate) = false) configured).
  { eapply gathered_candidates; [|exact Hconf]. intros x l Hx Hone. unfold appendConfiguredCandidates in Hone.
    apply rbind_Ok in Hone as ([t|] & _ & Hone); [|by injection Hone as <-].
    apply rbind_Ok in Hone as ([? sets] & _ & Hone). eapply gathered_candidates; [|exact Hone].
    intros y l' _ Hpair. apply appendPair_rows in Hpair as [_ Hall]. eapply Forall_impl; [exact Hall|]. by intros ? ->. }
  assert (Hsome : configured <> []).
  { destruct (gathered_somewhere _ _ _ _ Hl Hconf) as (l & Hone & Hin). unfold appendConfiguredCandidates in Hone.
    rewrite Ht in Hone. cbn [rbind] in Hone. rewrite Hc in Hone. destruct compiled as [? sets]. cbn [rbind snd] in *.
    destruct (gathered_somewhere _ _ _ _ Hset Hone) as (l' & Hpair & Hin').
    apply appendPair_rows in Hpair as [Hne _]. destruct l' as [|y l']; [done|].
    assert (Hy : y ∈ configured) by (apply Hin, Hin'; by left). intros ->. by apply not_elem_of_nil in Hy. }
  apply deduplicate_nonempty in Hsome. destruct (deduplicateCandidates configured) as [|x rest] eqn:Ed; [done|].
  assert (Hx : x ∈ configured) by (eapply deduplicate_from_incl; unfold deduplicateCandidates in Ed; rewrite Ed; by left).
  apply Forall_cons in Er as [Ho _]. apply Owned_iff in Ho as (Hp & _). rewrite Forall_forall in Habsent.
  by rewrite Habsent in Hp.
Qed.
End Destroying.

(** ** Consent, and what a started run vouches for *)

Section Consent.
Context (Sanitize : list gostring -> gostring) (quoted sha256_hex : gostring -> gostring).
Context (marshal_spec : TriggerSpec -> gostring) (marshal_operation : Operation -> gostring).
Context (unmarshal_spec : gostring -> outcome TriggerSpec) (server : ddl_server).
Context (read_fails : gostring -> option gostring) (tx_now : Z).

Local Abbreviation plan_in := (planInTransaction Sanitize quoted sha256_hex marshal_spec marshal_operation
                                 unmarshal_spec server read_fails).
Local Abbreviation read_plan := (Plan Sanitize quoted sha256_hex marshal_spec marshal_operation
                                   unmarshal_spec server read_fails).
Local Abbreviation apply_run := (Apply Sanitize quoted sha256_hex marshal_spec marshal_operation
                                   unmarshal_spec server read_fails tx_now).
Local Abbreviation apply_cmd := (apply_command Sanitize quoted sha256_hex marshal_spec marshal_operation
                                   unmarshal_spec server read_fails tx_now).
Local Abbreviation start := (startRun Sanitize quoted sha256_hex marshal_spec marshal_operation
                               unmarshal_spec server read_fails tx_now).

(** The apply command changes nothing unasked. If it changes the database or sends a statement,
    then it is no dry run, the plan of this very database holds an action, and either changes were
    approved by flag or a terminal was there and its prompt was answered yes; a destructive plan
    needs deletion allowed as well. A dry run exits with its plan's verdict, and an error never
    exits 0. *)
Theorem apply_needs_consent opts interactive answer begin_read s cfg c ending c' sent_ :
  apply_cmd opts interactive answer begin_read s cfg c = (ending, c', sent_) ->
  (c' <> c \/ sent_ <> [] ->
     DryRun opts = false /\ (AutoApprove opts = true \/ (interactive = true /\ answer = true)) /\
     exists plan, plan_in c cfg = Ok plan /\ Refusals plan = [] /\ Actions plan <> [] /\
       (Destructive plan = true -> AllowDelete opts = true)) /\
  (DryRun opts = true ->
     c' = c /\ sent_ = [] /\
     forall plan, read_plan begin_read cfg c = Ok plan -> exitStatusOf ending = ExitCode (Plan_Verdict plan)) /\
  (forall text, ending = failed text -> exitStatusOf ending = 1%Z) /\
  (AutoApprove opts = false -> interactive = true -> answer = false -> c' = c /\ sent_ = []).
Proof.
  unfold apply_command. intros H. destruct (DryRun opts) eqn:Ed.
  { injection H as <- <- <-. unfold plan_command. split_and!; try tauto; [|by intros ? ->].
    intros _. split_and!; try done. by intros plan ->. }
  set (approval := approvalFor opts interactive) in H.
  destruct (apply_run s cfg approval c) as [[[result err] c1] sent1] eqn:Ea.
  destruct (Apply_body _ _ _ _ _ _ _ _ _ _ _ _ _ _ _ _ _ Ea) as [[-> ->]|(ending' & run' & _ & -> & _ & Hp & Hl)].
  { assert (Hsame : c' = c /\ sent_ = []) by (repeat case_match; by simplify_eq).
    destruct Hsame as [-> ->]. split_and!; try tauto; try done. by intros ? ->. }
  destruct Hl as [Hr _ Ha Hd Hg]. cbn [Approved Interactive DestructionPermitted approval approvalFor] in *.
  assert (Hshape : (c' = c /\ sent_ = []) \/ AutoApprove opts = true \/ (interactive = true /\ answer = true)).
  { destruct (AutoApprove opts); [auto|]. destruct interactive; cbn [andb negb] in H; [|by destruct Hg].
    unfold Plan in H. destruct begin_read; [left; by simplify_eq|]. rewrite Hp in H.
    destruct (Actions (Result_Plan result)) eqn:Eact; [done|]. destruct answer; [auto|]. left.
    cbn in H. by simplify_eq. }
  split_and!; [|done|by intros ? ->|].
  - intros Hne. split; [done|]. split; [destruct Hshape as [[-> ->]|?]; tauto|]. exists (Result_Plan result). by split_and!.
  - intros Hna -> ->. destruct Hshape as [|[|[_ ?]]]; [done|congruence|done].
Qed.

(** A run that serves serves a database that matches. Start-up goes on exactly when the latch
    reads ready. With changes off it writes nothing, and goes on exactly when the ledger is present
    and at this binary's version and the plan is clean; with changes on it goes on only after the
    bootstrap and an apply that ended clean, carrying out what the operator allowed. A start-up that
    stops exits with a status other than 0. *)
Theorem startup_serves_a_match mayMutate opts ledger begin_read bootstrap s cfg c ending latch c' sent_ :
  start mayMutate opts ledger begin_read bootstrap s cfg c = (ending, latch, c', sent_) ->
  (ready latch = true <-> ending = None) /\
  (forall e, ending = Some e -> exitStatusOf e <> 0%Z) /\
  (mayMutate = false -> c' = c /\ sent_ = [] /\
     (ending = None <-> exists state plan, ledger = Ok state /\ present state = true /\ applied state = expected state /\
        read_plan begin_read cfg c = Ok plan /\ Plan_Verdict plan = VerdictClean)) /\
  (mayMutate = true -> ending = None ->
     exists c1 result, bootstrap c = (None, c1) /\ Result_Verdict result = VerdictClean /\
       apply_run s cfg {| DestructionPermitted := AllowDelete opts; Approved := true; Interactive := false |} c1
         = (result, None, c', sent_)).
Proof.
  unfold startRun. destruct mayMutate; cbn [negb].
  - destruct (bootstrap c) as [[e|] c1].
    { intros [= <- <- <- <-]. split_and!; try done. by intros ? [= <-]. }
    destruct (apply_run _ _ _ c1) as [[[result [e|]] c2] sent2] eqn:Ea.
    { intros [= <- <- <- <-]. split_and!; try done. by intros ? [= <-]. }
    case_bool_decide as Hv; cbn [negb]; intros [= <- <- <- <-].
    + split_and!; try done. intros _ _. by exists c1, result.
    + split_and!; try done. intros ? [= <-]. cbn. by destruct (Result_Verdict result).
  - destruct (verifyRun _ _ _ _ _ _ _ _ ledger begin_read cfg c) as [ending' latch'] eqn:Ev.
    intros [= <- <- <- <-].
    assert (Hall : (ready latch' = true <-> ending' = None) /\ (forall e, ending' = Some e -> exitStatusOf e <> 0%Z) /\
      (ending' = None <-> exists state plan, ledger = Ok state /\ present state = true /\ applied state = expected state /\
        read_plan begin_read cfg c = Ok plan /\ Plan_Verdict plan = VerdictClean)); [|naive_solver].
    revert Ev. unfold verifyRun, current. destruct ledger as [state|e].
    2: { intros [= <- <-]. split_and!; [done|by intros ? [= <-]|]. split; [done|]. by intros (? & ? & ? & _). }
    destruct (present state) eqn:Ep; cbn [andb negb].
    2: { intros [= <- <-]. split_and!; [done|by intros ? [= <-]|]. split; [done|]. intros (? & ? & [= <-] & ? & _). congruence. }
    destruct (Z.eqb_spec (applied state) (expected state)) as [Ee|Ee]; cbn [negb].
    2: { intros [= <- <-]. split_and!; [done|by intros ? [= <-]|]. split; [done|]. by intros (? & ? & [= <-] & _ & ? & _). }
    destruct (Plan _ _ _ _ _ _ _ _ begin_read cfg c) as [plan|e] eqn:Epl.
    2: { intros [= <- <-]. split_and!; [done|by intros ? [= <-]|]. split; [done|]. by intros (? & ? & _ & _ & _ & ? & _). }
    case_bool_decide as Hv; cbn [negb]; intros [= <- <-].
    + split_and!; [done|done|]. split; [|done]. intros _. by exists state, plan.
    + split_and!; [done| |].
      * intros ? [= <-]. cbn. by destruct (Plan_Verdict plan).
      * split; [done|]. intros (? & ? & _ & _ & _ & [= <-] & ?). done.
Qed.
End Consent.

(** ** Witnesses *)

Definition no_events : QueueObservation :=
  {| Queue.Pending := 0; Queue.Delivering := 0; DeadCount := 0; OldestPendingAge := 0; DeadByListener := ∅ |}.

Definition empty_queue : outcome QueueObservation := Ok no_events.

Definition plain_options : rootOptions := {| DryRun := false; AllowDelete := false; AutoApprove := false |}.

Definition installed : cluster := run_cluster first_run.

Definition installed_sets : list ObjectSet := sample_sets_of "orders" "".

(** A listener of two operations, installed and destroyed again. *)
Definition two_trigger : TriggerSpec :=
  {| Table := bs "shop.orders";
     Operations_ := map (λ kind, {| Kind := kind; Columns := []; IsDistinct := false; When := [] |}) [bs "insert"; bs "delete"];
     Payload_ := Payload_ (sample_trigger "shop.orders" "") |}.
Definition two_listener : Listener :=
  {| Name := bs "orders"; Enabled := true; Trigger := two_trigger; Delivery := idle_delivery |}.
Definition two_config : Config :=
  let cfg := sample_config "shop.orders" "" in
  {| Version := Version cfg; Config_Instance := Config_Instance cfg; AutoReconcile := AutoReconcile cfg;
     Config_Database := Config_Database cfg; Config_Worker := Config_Worker cfg;
     Config_Retention := Config_Retention cfg; Listeners := [two_listener] |}.
Definition two_sets : list ObjectSet :=
  match compileListener documented_Sanitize id (bs "prod") (bs "pg_noty") two_listener (sample_target "orders") with
  | Ok (_, sets) => sets
  | Err _ => []
  end.
Definition two_installed : cluster :=
  run_cluster (Apply documented_Sanitize id id sample_marshal sample_marshal_operation (sample_unmarshal [two_trigger])
    (sample_server two_sets) (λ _, None) 7 calm_session two_config willing (sample_cluster "orders")).

Definition destroy_run : command_end * cluster * list gostring :=
  destroy_command documented_Sanitize id id sample_marshal sample_marshal_operation (sample_unmarshal [two_trigger])
    (sample_server two_sets) (λ _, None) 7 plain_options true empty_queue calm_session two_config two_installed.

(** Both recorded triggers were asked about, and both were dropped with their functions. *)
Lemma destroy_is_guarded_witness :
  exists c' sent_, destroy_run = (completed, c', sent_) /\ length sent_ = 4%nat /\
    Forall (dropping documented_Sanitize id) sent_ /\ size (trigger_rows two_installed) = 2%nat /\
    forall o trig row, trigger_rows two_installed !! (bs "orders", o) = Some trig ->
      listener_rows two_installed !! bs "orders" = Some row -> marker_field o ->
      proven two_installed (bs "prod") (bs "orders") o row trig.
Proof.
  assert (H : destroy_run.1.1 = completed /\ length destroy_run.2 = 4%nat) by (split; vm_compute; reflexivity).
  destruct (some_pair destroy_run) as ([ending c'] & sent_ & E). rewrite E in H. destruct H as [H1 H2].
  cbn [fst snd] in H1, H2. subst ending. exists c', sent_. split; [exact E|]. split; [exact H2|].
  destruct (destroy_is_guarded documented_Sanitize id id sample_marshal
    sample_marshal_operation (sample_unmarshal [two_trigger]) (sample_server two_sets) (λ _, None) 7 plain_options
    true empty_queue calm_session two_config two_installed completed c' sent_ E) as (_ & _ & _ & Hproven & _ & Hdrops).
  { right. intros Hnil. rewrite Hnil in H2. discriminate H2. }
  split; [exact Hdrops|]. split; [vm_compute; reflexivity|].
  intros o trig row Ht Hl Ho. refine (proj1 (Hproven _ _) _ o row trig Hl Ht _ Ho); [reflexivity| |by_compute].
  split; [change (map_Forall (λ n l, Registry_Name l = n) (listener_rows two_installed)); by_compute|].
  intros n o' t Hno.
  assert (Hall : map_Forall (λ k t, Registry_Operation t = snd k) (trigger_rows two_installed)) by by_compute.
  exact (Hall (n, o') t Hno).
Defined.

Lemma destroy_refuses_the_unrecorded_witness :
  exists text, destroy_command documented_Sanitize id id sample_marshal sample_marshal_operation
    (sample_unmarshal sample_known) (sample_server installed_sets) (λ _, None) 7 plain_options true empty_queue
    calm_session (sample_config "shop.orders" "") (sample_cluster "orders") = (failed text, sample_cluster "orders", []).
Proof.
  assert (H : match compileListener documented_Sanitize id (bs "prod") (bs "pg_noty") (sample_listener "shop.orders" "")
                      (sample_target "orders") with
              | Ok compiled => exists s, s ∈ compiled.2
              | Err _ => False
              end).
  { assert (Hl : match compileListener documented_Sanitize id (bs "prod") (bs "pg_noty") (sample_listener "shop.orders" "")
                       (sample_target "orders") with Ok compiled => length compiled.2 = 1%nat | Err _ => False end)
      by (vm_compute; reflexivity).
    destruct (compileListener documented_Sanitize id (bs "prod") (bs "pg_noty") (sample_listener "shop.orders" "")
                (sample_target "orders")) as [[? [|s l]]|]; try discriminate Hl; [exists s; apply list_elem_of_here|exact Hl]. }
  destruct (compileListener documented_Sanitize id (bs "prod") (bs "pg_noty") (sample_listener "shop.orders" "")
              (sample_target "orders")) as [compiled|] eqn:Ec; [|destruct H].
  destruct H as [s Hs].
  apply (destroy_refuses_the_unrecorded documented_Sanitize id id sample_marshal sample_marshal_operation
    (sample_unmarshal sample_known) (sample_server installed_sets) (λ _, None) 7 plain_options true
    no_events calm_session
    (sample_config "shop.orders" "") (sample_cluster "orders") (sample_listener "shop.orders" "")
    (sample_target "orders") compiled s).
  - reflexivity.
  - intros l. apply Permutation_refl.
  - apply list_elem_of_here.
  - vm_compute. reflexivity.
  - exact Ec.
  - exact Hs.
Defined.

(** An interactive apply answered yes. *)
Definition apply_asked : command_end * cluster * list gostring :=
  apply_command documented_Sanitize id id sample_marshal sample_marshal_operation (sample_unmarshal sample_known)
    (sample_server installed_sets) (λ _, None) 7 plain_options true true None calm_session
    (sample_config "shop.orders" "") (sample_cluster "orders").

Lemma apply_needs_consent_witness :
  exists ending c' sent_, apply_asked = (ending, c', sent_) /\ length sent_ = 5%nat /\ exitStatusOf ending = 0%Z /\
    exists plan, Refusals plan = [] /\ Actions plan <> [].
Proof.
  assert (H : exitStatusOf apply_asked.1.1 = 0%Z /\ length apply_asked.2 = 5%nat) by (split; vm_compute; reflexivity).
  destruct (some_pair apply_asked) as ([ending c'] & sent_ & E). rewrite E in H. destruct H as [H1 H2].
  cbn [fst snd] in H1, H2. exists ending, c', sent_. split; [exact E|]. split; [exact H2|]. split; [exact H1|].
  destruct (proj1 (apply_needs_consent documented_Sanitize id id sample_marshal sample_marshal_operation
    (sample_unmarshal sample_known) (sample_server installed_sets) (λ _, None) 7 plain_options true true None calm_session
    (sample_config "shop.orders" "") (sample_cluster "orders") ending c' sent_ E)) as (_ & _ & plan & _ & Hr & Ha & _).
  - right. intros Hnil. rewrite Hnil in H2. discriminate H2.
  - exists plan. split; [exact Hr|exact Ha].
Defined.

(** A replica that may not change anything, over what first_run installed. *)
Lemma startup_serves_a_match_witness :
  exists latch, ready latch = true /\
    startRun documented_Sanitize id id sample_marshal sample_marshal_operation (sample_unmarshal sample_known)
      (sample_server installed_sets) (λ _, None) 7 false plain_options
      (Ok {| applied := 2; expected := 2; present := true |}) None (λ c, (None, c)) calm_session
      (sample_config "shop.orders" "") installed = (None, latch, installed, []).
Proof.
  set (run := startRun documented_Sanitize id id sample_marshal sample_marshal_operation (sample_unmarshal sample_known)
    (sample_server installed_sets) (λ _, None) 7 false plain_options
    (Ok {| applied := 2; expected := 2; present := true |}) None (λ c, (None, c)) calm_session
    (sample_config "shop.orders" "") installed).
  assert (H : match run.1.1.1 with None => True | Some _ => False end) by (vm_compute; exact I).
  destruct (some_pair run) as ([[ending latch] c'] & sent_ & E). rewrite E in H. cbn [fst] in H.
  destruct ending; [destruct H|].
  destruct (startup_serves_a_match documented_Sanitize id id sample_marshal sample_marshal_operation
    (sample_unmarshal sample_known) (sample_server installed_sets) (λ _, None) 7 false plain_options
    (Ok {| applied := 2; expected := 2; present := true |}) None (λ c, (None, c)) calm_session
    (sample_config "shop.orders" "") installed None latch c' sent_ E) as (Hready & _ & Hsame & _).
  destruct (Hsame eq_refl) as (-> & -> & _). exists latch. split; [apply Hready; reflexivity|exact E].
Defined.
