(* ===== verification/Command.v ===== *)
(** * What every command shares: [internal/cli]'s [root.go], [logging.go], [loadconfig.go],
    [diagnostics.go], [validate.go], [refusalreport.go], [repair.go], [status.go] and [metricshook.go].

    The loader and the renderer are interfaces, [Load.v]'s pipeline an instance of the first. A command is a
    function from what its flags and the calls it makes answer to what it prints and how it ends; [None] is
    a panic. [strings.ToLower], [strings.EqualFold], [time.Parse] and [json.Marshal] are parameters. *)

From S2P Require Import Prelude Policy Quote Partition Config Diag Yaml Schema Raw Validate Ident Normalize Load Reconcile Repair Queue Cli.

Local Open Scope Z_scope.

(** ** root.go: the registry of commands *)

Definition registry (B : Type) : Type := list (gostring * B).

(** A command without a word or a builder, or with a word that is taken, is not added. *)
Definition registerCommand {B} (word : gostring) (build : option B) (commands : registry B) : registry B :=
  match build with
  | None => commands
  | Some b => if bool_decide (word = []) || bool_decide (word ∈ commands.*1) then commands else commands ++ [(word, b)]
  end.

Fixpoint unregisterCommand {B} (word : gostring) (commands : registry B) : registry B :=
  match commands with
  | [] => []
  | command :: commands => if bool_decide (command.1 = word) then commands else command :: unregisterCommand word commands
  end.

Definition by_word {B} (a b : gostring * B) : Prop := go_le a.1 b.1.
#[export] Instance by_word_dec {B} : RelDecision (@by_word B).
Proof. intros a b. unfold by_word. apply _. Defined.

(** The subcommands of [newRoot]; a builder that answers nil adds none. *)
Definition subcommands {B C} (build : B -> option C) (commands : registry B) : list (gostring * C) :=
  omap (λ command, pair command.1 <$> build command.2) (merge_sort by_word commands).

Lemma register_once {B} word (build : option B) commands : NoDup commands.*1 -> [] ∉ commands.*1 ->
  NoDup (registerCommand word build commands).*1 /\ [] ∉ (registerCommand word build commands).*1.
Proof.
  intros Hd Hn. unfold registerCommand. destruct build as [b|]; [|done].
  destruct (bool_decide_reflect (word = [])) as [|Hw]; [done|]. destruct (bool_decide_reflect (word ∈ commands.*1)) as [|Hin]; [done|].
  cbn [orb]. rewrite fmap_app. cbn [fmap list_fmap fst]. split.
  - apply NoDup_app. split_and!; [done| |apply NoDup_singleton]. by intros x Hx ->%list_elem_of_singleton.
  - by intros [|<-%list_elem_of_singleton]%elem_of_app.
Qed.

(** ** logging.go *)

Inductive logLevel := LevelDebug | LevelInfo | LevelWarn | LevelError.
Inductive logHandler := TextHandler | JSONHandler.

Section logging.
Context (ToLower : gostring -> gostring).

Definition parseLogLevel (value : gostring) : result gostring logLevel :=
  let lowered := ToLower (TrimSpace value) in
  if bool_decide (lowered = bs "debug") then Ok LevelDebug
  else if bool_decide (lowered = bs "info") then Ok LevelInfo
  else if bool_decide (lowered = bs "warn") then Ok LevelWarn
  else if bool_decide (lowered = bs "error") then Ok LevelError
  else Err (bs "unrecognised log level " ++ quoted_text value).

Definition newLogger (levelName format : gostring) (out : bool) : result gostring (logHandler * logLevel) :=
  match parseLogLevel levelName with
  | Err e => Err e
  | Ok level =>
      if negb out then Err (bs "log output is nil")
      else let lowered := ToLower (TrimSpace format) in
           if bool_decide (lowered = bs "text") then Ok (TextHandler, level)
           else if bool_decide (lowered = bs "json") then Ok (JSONHandler, level)
           else Err (bs "unrecognised log format " ++ quoted_text format)
  end.
End logging.

(** ** loadconfig.go, diagnostics.go and validate.go *)

(** What the commands need of the loader: it answers, with a configuration exactly when it has no error. *)
Class Loader (parse : gostring -> gostring -> option Load.outcome) := {
  loader_answers data path : exists cfg warnings errs, parse data path = Some (cfg, warnings, errs) /\ (is_Some cfg <-> errs = [])
}.

#[export] Instance pipeline_loads `{Yaml} described YAMLName IsMergeKey canBeAKey token_value quote to_lower IsLetter url_parse ParseDuration
  ParseBytes any_order `{!Enumerates any_order} env :
  Loader (λ data path, Parse described YAMLName IsMergeKey canBeAKey token_value quote to_lower IsLetter url_parse ParseDuration ParseBytes
    any_order data path env).
Proof. split. intros data path. by apply parse_answered. Qed.

Record loadedConfig := { Value : option Config; Source_ : gostring; Warnings_ : Warnings; Errors_ : Errors }.

Record diagRecord := {
  rec_Kind : gostring; rec_File : gostring; rec_Line : Z; rec_Col : Z; rec_Path : gostring; rec_Msg : gostring; rec_Hint : gostring
}.

Definition diag_record (kind : gostring) (diag : Error) : diagRecord :=
  {| rec_Kind := kind; rec_File := Error_File diag; rec_Line := Error_Line diag; rec_Col := Error_Col diag; rec_Path := Error_Path diag;
     rec_Msg := Msg diag; rec_Hint := Hint diag |}.

Section commands.
Context (parse : gostring -> gostring -> option Load.outcome) `{!Loader parse}.
Context (render_errors render_warnings : Errors -> gostring -> option gostring) (contain : Errors -> gostring -> option Errors).
Context (Marshal : list diagRecord -> result gostring gostring) (EqualFold : gostring -> gostring -> bool).
Context (ReadFile : gostring -> gostring + gostring).

Definition loadConfig (path : gostring) : option loadedConfig :=
  match ReadFile path with
  | inr reason => Some {| Value := None; Source_ := []; Warnings_ := []; Errors_ := [NewFileError RuleRead path reason] |}
  | inl data => '(value, warnings, errs) ← parse data path;
                Some {| Value := value; Source_ := data; Warnings_ := warnings; Errors_ := errs |}
  end.

Definition renderDiagnosticsJSON (loaded : loadedConfig) : option (result gostring gostring) :=
  errors ← contain (Errors_ loaded) (Source_ loaded);
  warnings ← contain (Warnings_ loaded) (Source_ loaded);
  Some match Marshal (map (diag_record (bs "error")) errors ++ map (diag_record (bs "warning")) warnings) with
       | Err e => Err (bs "render diagnostics: " ++ e)
       | Ok data => Ok (data ++ [Source.LF])
       end.

Definition renderLoadedDiagnostics (loaded : loadedConfig) (format : gostring) : option (result gostring gostring) :=
  if EqualFold format (bs "json") then renderDiagnosticsJSON loaded
  else errors ← render_errors (Errors_ loaded) (Source_ loaded);
       warnings ← render_warnings (Warnings_ loaded) (Source_ loaded);
       Some (Ok (errors ++ warnings)).

(** What is printed, and the loaded configuration or why there is none. *)
Definition requireConfig (path format : gostring) : option (gostring * result gostring Config) :=
  loaded ← loadConfig path;
  if negb (bool_decide (Errors_ loaded = [])) then
    rendered ← renderLoadedDiagnostics loaded format;
    Some (match rendered with Ok output => output | Err _ => [] end, Err (bs "configuration is invalid"))
  else match Value loaded with
       | None => Some ([], Err (bs "configuration is empty"))
       | Some cfg => Some ([], Ok cfg)
       end.

Definition validate_command (path format : gostring) : option (gostring * command_end) :=
  if bool_decide (path = []) then Some ([], failed (bs "configuration path is required"))
  else
    loaded ← loadConfig path;
    rendered ← renderLoadedDiagnostics loaded format;
    Some match rendered with
         | Err e => ([], failed e)
         | Ok output => (output, if bool_decide (Errors_ loaded = []) then completed else failed (bs "configuration is invalid"))
         end.

Definition requireConfiguredPool {P} (OpenPool : Config -> result gostring P) (path format : gostring) :
    option (gostring * result gostring (Config * P)) :=
  '(printed, required) ← requireConfig path format;
  Some (printed, match required with
                 | Err e => Err e
                 | Ok cfg => match OpenPool cfg with Err e => Err e | Ok pool => Ok (cfg, pool) end
                 end).

(** ** refusalreport.go, repair.go and status.go *)

Definition reportRefusals (refusals : list Refusal) : gostring :=
  concat (map (λ refusal, message refusal ++ [Source.LF] ++
    if bool_decide (remediation refusal = []) then [] else bs "  remedy: " ++ remediation refusal ++ [Source.LF]) refusals).

(** [time.Parse] of RFC 3339 with nanoseconds answers an instant; [repair] is the drain. *)
Definition repair_command {P} (ParseTime : gostring -> result gostring Z) (OpenPool : Config -> result gostring P)
    (repair : P -> Config -> Z -> Z -> gostring -> result gostring RepairResult)
    (dryRun : bool) (fromText toText name path format : gostring) : option (gostring * command_end * bool) :=
  match ParseTime fromText with
  | Err e => Some ([], failed (bs "invalid --from: " ++ e), false)
  | Ok from =>
      match ParseTime toText with
      | Err _ => Some ([], failed (bs "invalid --to: " ++ quoted_text toText), false)
      | Ok to =>
          if to <=? from then Some ([], failed (bs "invalid --to: " ++ quoted_text toText), false)
          else
            '(printed, required) ← requireConfiguredPool OpenPool path format;
            Some match required with
                 | Err e => (printed, failed e, false)
                 | Ok (cfg, pool) =>
                     if dryRun then (printed ++ bs "dry-run: would repair " ++ name ++ [Source.LF], completed, false)
                     else match repair pool cfg from to name with
                          | Err e => (printed, failed e, true)
                          | Ok done_ =>
                              (printed ++ bs "repaired " ++ Repaired done_ ++ bs ": moved=" ++ format_int (Moved done_) ++
                               bs " queue_moved=" ++ format_int (QueueMoved done_) ++ bs " default_before=" ++ format_int (DefaultRowsBefore done_) ++
                               bs " default_after=" ++ format_int (DefaultRowsAfter done_) ++ [Source.LF], completed, true)
                          end
                 end
      end
  end.

(** The ledger is read before the queue is asked anything. *)
Definition status_command {P} (OpenPool : Config -> result gostring P) (ledger : P -> Config -> result gostring schemaState)
    (open_source : P -> Config -> option gostring) (observe : P -> Config -> result gostring QueueObservation) (seconds : Z -> gostring) (path format : gostring) :
    option (gostring * command_end * bool) :=
  '(printed, required) ← requireConfiguredPool OpenPool path format;
  Some match required with
       | Err e => (printed, failed e, false)
       | Ok (cfg, pool) =>
           match ledger pool cfg with
           | Err e => (printed, failed e, false)
           | Ok state =>
               if negb (present state) then
                 (printed, failed (bs "schema " ++ Config.Schema (Config_Database cfg) ++ bs " has not been bootstrapped: run `pg_noty bootstrap`"), false)
               else match open_source pool cfg with
                    | Some e => (printed, failed e, false)
                    | None =>
                    match observe pool cfg with
                    | Err e => (printed, failed e, true)
                    | Ok o =>
                        (printed ++ bs "schema_version: " ++ format_int (applied state) ++ [Source.LF] ++
                         bs "listeners: " ++ format_int (Z.of_nat (length (Listeners cfg))) ++ [Source.LF] ++
                         bs "queue_pending: " ++ format_int (Pending o) ++ [Source.LF] ++
                         bs "queue_delivering: " ++ format_int (Delivering o) ++ [Source.LF] ++
                         bs "queue_dead: " ++ format_int (DeadCount o) ++ [Source.LF] ++
                         bs "lag_seconds: " ++ seconds (OldestPendingAge o) ++ [Source.LF], completed, true)
                    end
                    end
           end
       end.

(** ** What they agree on *)

Lemma requireConfig_answers path format : (forall loaded, is_Some (renderLoadedDiagnostics loaded format)) ->
  exists loaded, loadConfig path = Some loaded /\ (is_Some (Value loaded) <-> Errors_ loaded = []) /\
    exists printed required, requireConfig path format = Some (printed, required) /\ (is_ok required = true <-> Errors_ loaded = []) /\
      (Errors_ loaded <> [] -> forall output, renderLoadedDiagnostics loaded format = Some (Ok output) -> printed = output).
Proof using Loader0.
  intros Hrender. assert (Hload : exists loaded, loadConfig path = Some loaded /\ (is_Some (Value loaded) <-> Errors_ loaded = [])).
  { unfold loadConfig. destruct (ReadFile path) as [data|reason]; [|by eexists; split; [done|]; split; [intros []|done]].
    destruct (loader_answers data path) as (cfg & warnings & errs & -> & Hiff). by eexists. }
  destruct Hload as (loaded & Hl & Hiff). exists loaded. split; [done|]. split; [done|]. unfold requireConfig. rewrite Hl. cbn [mbind option_bind].
  case_bool_decide as He; cbn [negb].
  - destruct (proj2 Hiff He) as [cfg ->]. eexists _, _. split; [done|]. by split.
  - destruct (Hrender loaded) as [rendered Hr]. rewrite Hr. cbn [mbind option_bind]. eexists _, _. split; [done|]. split; [by split|].
    by intros _ output [= ->].
Qed.

(** A file [validate] passes is a file every other command reads, and no other: for every path and format,
    [validate] completes exactly when the precondition the database commands share answers a configuration,
    and where both refuse they print the same diagnostics. Neither panics. *)
Theorem validate_speaks_for_every_command path format : path <> [] ->
  (forall loaded, exists output, renderLoadedDiagnostics loaded format = Some (Ok output)) ->
  exists printed ending printed' required,
    validate_command path format = Some (printed, ending) /\ requireConfig path format = Some (printed', required) /\
    (ending = completed <-> exists cfg, required = Ok cfg) /\
    (ending <> completed -> printed = printed').
Proof using Loader0.
  intros Hp Hrender. destruct (requireConfig_answers path format) as (loaded & Hl & Hiff & printed' & required & Hr & Hok & Hsame).
  { intros loaded. destruct (Hrender loaded) as [output ->]. by eexists. }
  destruct (Hrender loaded) as [output Ho]. unfold validate_command. rewrite bool_decide_eq_false_2 by done. rewrite Hl. cbn [mbind option_bind]. rewrite Ho.
  cbn [mbind option_bind]. eexists _, _, printed', required. split; [done|]. split; [done|].
  assert (Hcfg : (exists cfg, required = Ok cfg) <-> Errors_ loaded = []).
  { rewrite <- Hok. destruct required; cbn; split; try done; [by eexists|by intros [? [=]]]. }
  rewrite Hcfg. case_bool_decide as He; [by split|]. split; [by split|]. intros _. symmetry. by apply Hsame.
Qed.
End commands.

(** A file that is refused, and one that is read, through a loader of one rule. *)
Definition toy_parse (data path : gostring) : option Load.outcome :=
  if bool_decide (data = []) then Some (None, [], [NewFileError RuleDocument path (bs "empty")])
  else Some (Some {| Version := 1; Config_Instance := data; AutoReconcile := false;
                     Config_Database := {| Database_URL := bs "postgres://db"; Config.Schema := bs "noty"; ListenURL := [] |};
                     Config_Worker := {| Concurrency := 1; BatchSize := 1; PollInterval := 1; LeaseTimeout := 1; DrainTimeout := 1; AllowedDestinationCIDRs := [] |};
                     Config_Retention := MkRetention 1 1 1; Listeners := [] |}, [], []).
#[local] Instance toy_loader : Loader toy_parse.
Proof. split. intros data path. unfold toy_parse. case_bool_decide; do 3 eexists; (split; [done|]); split; try done; by intros []. Qed.
Definition toy_render (diags : Errors) (src : gostring) : option gostring := Some (concat (map (λ d, Msg d ++ [Source.LF]) diags)).

Lemma validate_speaks_for_every_command_witness :
  validate_command toy_parse toy_render toy_render (λ ds _, Some ds) (λ _, Ok []) (λ a b, bool_decide (a = b)) (λ _, inl []) (bs "noty.yaml") (bs "text")
    = Some (bs "empty" ++ [Source.LF], failed (bs "configuration is invalid")) /\
  exists printed required,
    requireConfig toy_parse toy_render toy_render (λ ds _, Some ds) (λ _, Ok []) (λ a b, bool_decide (a = b)) (λ _, inl []) (bs "noty.yaml") (bs "text")
      = Some (printed, required) /\ printed = bs "empty" ++ [Source.LF].
Proof.
  split; [vm_compute; reflexivity|].
  destruct (validate_speaks_for_every_command toy_parse toy_render toy_render (λ ds _, Some ds) (λ _, Ok []) (λ a b, bool_decide (a = b)) (λ _, inl [])
    (bs "noty.yaml") (bs "text")) as (printed & ending & printed' & required & Hv & Hr & _ & Hsame).
  - discriminate.
  - intros loaded. unfold renderLoadedDiagnostics. destruct (bool_decide _); eexists; reflexivity.
  - exists printed', required. split; [exact Hr|]. injection Hv as <- <-. rewrite <- Hsame; [vm_compute; reflexivity|discriminate].
Defined.

Lemma commands_have_one_word {B} (words : list (gostring * option B)) :
  NoDup (foldl (λ commands '(word, build), registerCommand word build commands) [] words).*1 /\
  [] ∉ (foldl (λ commands '(word, build), registerCommand word build commands) [] words).*1.
Proof.
  assert (forall commands : registry B, NoDup commands.*1 -> [] ∉ commands.*1 ->
    NoDup (foldl (λ commands '(word, build), registerCommand word build commands) commands words).*1 /\
    [] ∉ (foldl (λ commands '(word, build), registerCommand word build commands) commands words).*1) as Hall.
  { induction words as [|[word build] words IH]; intros commands Hd Hn; cbn [foldl]; [done|]. destruct (register_once word build commands Hd Hn). by apply IH. }
  apply Hall; [constructor|by intros ?%elem_of_nil].
Qed.
