(* ===== verification/Serve.v ===== *)
(** * Serving: [internal/cli]'s [deliveryworker.go], [runready.go], [rundrain.go], [grants.go], [bootstrap.go]
    and the serving half of [run.go].

    From an accepted configuration to a running worker and back out: what the worker is built from, how it
    is kept alive, what readiness answers and how a shutdown ends. The start-up itself is [Cli.startRun];
    here its answer is an argument, as are what binding and shutting down the HTTP server answer. *)

From S2P Require Import Prelude Yaml Policy Signing Quote Queue Deliver Port Worker Config Ident Sound Load Egress Reconcile Cli.

Local Open Scope Z_scope.

(** ** deliveryworker.go *)

Section serving.
(** The order a range over a listener's headers visits them. *)
Context (visits : gmap gostring gostring -> list (gostring * gostring)).

Definition retry_policy (r : Retry) : Policy :=
  {| Policy.MaxAttempts := Config.MaxAttempts r; Policy.Backoff := Config.Backoff r;
     Policy.InitialInterval := Config.InitialInterval r; Policy.MaxInterval := Config.MaxInterval r;
     Policy.Jitter := Config.Jitter r |}.

Definition listenerConfig (l : Listener) : ListenerConfig :=
  let d := Destination_ (Delivery l) in
  {| Deliver.Name := Config.Name l; Deliver.URL := Destination_URL d; Deliver.Method := Config.Method d;
     Deliver.Headers := visits (Config.Headers d); Deliver.Signer_ := NewSigner (Secrets (Signing_ d));
     Deliver.Policy_ := retry_policy (Retry_ (Delivery l)); Deliver.Concurrency := Listener_Concurrency (Delivery l);
     Deliver.MaxPayloadBytes := MaxBytes (Payload_ (Trigger l));
     (** [NewWorker] builds a client for a URL. *)
     Deliver.Client := negb (bool_decide (Destination_URL d = [])) |}.

Definition workerConfig (cfg : Config) : WorkerConfig :=
  let w := Config_Worker cfg in
  {| Worker.BatchSize := Config.BatchSize w; Worker.GlobalConcurrency := Config.Concurrency w;
     Worker.PollInterval := Config.PollInterval w; Worker.LeaseTimeout := Config.LeaseTimeout w;
     Worker.Listeners := map listenerConfig (List.filter Enabled (Config.Listeners cfg));
     Worker.HasReclaimer := true |}.

(** The client [NewWorker] builds for a listener. *)
Definition listenerClient (allowed : list IPNet) (l : Listener) : Egress.Client * Transport :=
  NewListenerClient (Config.Timeout (Delivery l)) (Listener_Concurrency (Delivery l)) allowed.

(** [os.Hostname] answers a name, or an error or none. *)
Definition workerIdentity (instance : gostring) (hostname : option gostring) (pid : Z) : gostring :=
  let host := match hostname with Some host => if bool_decide (host = []) then bs "unknown-host" else host | None => bs "unknown-host" end in
  instance ++ bs "/" ++ host ++ bs "/" ++ format_int pid.

Definition deliveryRestartBackoff (attempt : Z) : Z :=
  Z.min (Z.shiftl second (Z.min attempt 5)) (30 * second).

(** One round of the supervisor: whether the context is done before it, what [Worker.Run] answers, and
    whether the context is done after that, or while it waits. *)
Record supervised := { done_before : bool; run_answer : option gostring; done_after : bool; done_waiting : bool }.

(** The waits of the rounds, and whether the supervisor returned. *)
Fixpoint runDeliveryWorker (attempt : Z) (rounds : list supervised) : list Z * bool :=
  match rounds with
  | [] => ([], false)
  | r :: rounds =>
      if done_before r then ([], true)
      else if done_after r || bool_decide (run_answer r = None) then ([], true)
      else if done_waiting r then ([deliveryRestartBackoff attempt], true)
      else let '(waits, returned) := runDeliveryWorker (attempt + 1) rounds in
           (deliveryRestartBackoff attempt :: waits, returned)
  end.

(** ** runready.go *)

Definition schemaVersionIsCurrent (schema : gostring) (ledger : result gostring schemaState) : option gostring :=
  match ledger with
  | Err e => Some e
  | Ok state =>
      if negb (present state) then Some (bs "schema " ++ schema ++ bs " holds no migration ledger")
      else if negb (applied state =? expected state) then
        Some (bs "schema " ++ schema ++ bs " records version " ++ format_int (applied state) ++
              bs " and this binary embeds version " ++ format_int (expected state))
      else None
  end.

Definition readiness (ping : option gostring) (schema : gostring) (ledger : result gostring schemaState) (latch : latchState) :
    list (gostring * option gostring) :=
  [(bs "reachable", ping);
   (bs "schema version current", schemaVersionIsCurrent schema ledger);
   (bs "reconcile discharged", if ready latch then None else Some (bs "reconcile obligation is not discharged"))].

(** The status and the body of [/readyz]: the first condition that fails answers. *)
Fixpoint ready_handler (conditions : list (gostring * option gostring)) : Z * gostring :=
  match conditions with
  | [] => (200, bs "ready" ++ newline)
  | (name, Some e) :: _ => (503, name ++ bs ": " ++ e ++ newline)
  | (_, None) :: conditions => ready_handler conditions
  end.

(** ** bootstrap.go and grants.go *)

Definition reportSchemaState (ledger : result gostring schemaState) : command_end :=
  match ledger with
  | Err e => failed e
  | Ok state => if current state then completed else outcomeError VerdictChangesPending
  end.

(** [bootstrap], over whatever database [schema.Bootstrap] and the ledger's reading work on; [unavailable]
    is a configuration that cannot be loaded or a pool that cannot be opened. *)
Definition bootstrap_command {D} (dryRun : bool) (unavailable : option gostring) (ledger : D -> result gostring schemaState)
    (bootstrap : D -> option gostring * D) (db : D) : command_end * D :=
  match unavailable with
  | Some e => (failed e, db)
  | None =>
      if dryRun then (reportSchemaState (ledger db), db)
      else match bootstrap db with
           | (Some e, db) => (failed e, db)
           | (None, db) => (match ledger db with Err e => failed e | Ok _ => completed end, db)
           end
  end.

Definition reservedRoleName (role : gostring) : bool := has_prefix role (bs "pg_").

Definition configuredTargets (cfg : Config) : list gostring :=
  Compact (merge_sort go_le (map (λ l, Table (Trigger l)) (Config.Listeners cfg))).

(** [grants]: how it ends and what it prints. [loaded] is the configuration, [None] when it is empty, or
    the diagnostics its loading renders; [statements] is [schema.GrantStatements] and [quoted] is [%q]. *)
Definition grants_command (quoted : gostring -> gostring) (statements : gostring -> gostring -> list gostring -> list gostring) (ConfigPath role : gostring)
    (loaded : result gostring (option Config)) : command_end * gostring :=
  if bool_decide (ConfigPath = []) then (failed (bs "configuration path is required"), [])
  else if reservedRoleName role then (failed (bs "refusing reserved role " ++ quoted role), [])
  else match loaded with
       | Err output => (failed (bs "configuration is invalid"), output)
       | Ok None => (failed (bs "configuration is empty"), [])
       | Ok (Some cfg) =>
           let sql := statements (Schema (Config_Database cfg)) role (configuredTargets cfg) in
           if bool_decide (sql = []) then (failed (bs "configuration has no usable grant set"), [])
           else (completed, join newline sql ++ newline)
       end.

(** ** run.go and rundrain.go *)

Context {P : Type} `{EventSource P}.
Context (range : gmap gostring (list Event) -> list (gostring * list Event)).
Context (attempt : Event -> ListenerConfig -> readings -> http_client -> settlement).

Inductive run_outcome := Ended (ending : command_end) | Serving (w : Worker.Worker P).

(** [refusal_text] renders a CIDR's refusal; [startup] is what [startRun] answers. *)
Definition run_command (refusal_text : egressRefusal -> gostring) (dryRun : bool) (unavailable open_source bind : option gostring)
    (startup : option command_end) (events : P) (cfg : Config) : run_outcome :=
  if dryRun then Ended (failed (bs "run cannot be combined with --dry-run: it settles queue rows, and bootstraps and reconciles when auto_reconcile is on; use `pg_noty plan` for a read-only check"))
  else match unavailable, open_source, bind, startup with
       | Some e, _, _, _ => Ended (failed e)
       | _, Some e, _, _ => Ended (failed e)
       | _, _, Some e, _ => Ended (failed e)
       | _, _, _, Some ending => Ended ending
       | None, None, None, None =>
           match ParseAllowedDestinations (AllowedDestinationCIDRs (Config_Worker cfg)) with
           | Err e => Ended (failed (refusal_text e))
           | Ok allowed => Serving (NewWorker events (workerConfig cfg))
           end
       end.

(** [shutdown] is what shutting the HTTP server down answers within its five seconds. *)
Definition drainAndReport (shutdown : option gostring) (t : Z) (waiting : list disturbance) (late : bool)
    (tracked : gmap Z (list Event) -> list (Z * list Event)) (w : Worker.Worker P) : command_end * Worker.Worker P :=
  match shutdown with
  | Some e => (failed e, w)
  | None =>
      let '(result, w) := Drain range attempt t waiting late tracked w in
      (if Success result then completed else outcomeError VerdictError, w)
  end.
End serving.

(** ** The supervisor *)

Lemma deliveryRestartBackoff_bounds n : 0 <= n -> second <= deliveryRestartBackoff n <= 30 * second.
Proof.
  intros Hn. unfold deliveryRestartBackoff. rewrite Z.shiftl_mul_pow2 by lia.
  assert (1 <= 2 ^ Z.min n 5) by (change 1 with (2 ^ 0); apply Z.pow_le_mono_r; lia). unfold second. lia.
Qed.

(** The supervisor gives up for no error: it returns only when the context is done or the loop ended
    without one, and waits between one and thirty seconds before each restart. *)
Lemma supervisor_gives_up_for_no_error n rounds : 0 <= n ->
  let '(waits, returned) := runDeliveryWorker n rounds in
  Forall (λ wait, second <= wait <= 30 * second) waits /\
  (returned = true -> exists r, r ∈ rounds /\ (done_before r = true \/ done_after r = true \/ done_waiting r = true \/ run_answer r = None)) /\
  (returned = false -> length waits = length rounds).
Proof.
  revert n. induction rounds as [|r rounds IH]; intros n Hn; cbn [runDeliveryWorker]; [by split_and!|].
  pose proof (deliveryRestartBackoff_bounds n Hn) as Hb.
  destruct (done_before r) eqn:E1; [split_and!; [done|intros _; exists r; split; [by left|by left]|done]|].
  destruct (done_after r || _) eqn:E2.
  { split_and!; [done|intros _; exists r; split; [by left|]|done].
    apply orb_true_iff in E2 as [E2|E2%bool_decide_eq_true]; auto. }
  destruct (done_waiting r) eqn:E3; [split_and!; [by constructor|intros _; exists r; split; [by left|auto]|done]|].
  specialize (IH (n + 1) ltac:(lia)). destruct (runDeliveryWorker (n + 1) rounds) as [waits returned].
  destruct IH as (Hw & Hr & Hl). split_and!; [by constructor| |intros Hf; cbn [length]; by rewrite Hl].
  intros (r' & Hin & Hc)%Hr. exists r'. split; [by right|done].
Qed.

(** [/readyz] answers 200 exactly when the database answers, its schema is at this binary's version and
    start-up discharged its obligation. *)
Lemma ready_iff ping schema ledger latch :
  (ready_handler (readiness ping schema ledger latch)).1 = 200 <->
  ping = None /\ (exists state, ledger = Ok state /\ current state = true) /\ ready latch = true.
Proof.
  unfold readiness. cbn [ready_handler]. destruct ping as [e|]; [split; [done|by intros []]|].
  destruct ledger as [state|e]; cbn [schemaVersionIsCurrent].
  - unfold current. destruct (present state) eqn:Hp; cbn [negb andb]; [|split; [done|by intros (_ & (s & [= <-] & Hs) & _); rewrite Hp in Hs]].
    destruct (applied state =? expected state) eqn:Ha; cbn [negb]; [|split; [done|by intros (_ & (s & [= <-] & Hs) & _); rewrite Hp, Ha in Hs]].
    destruct (ready latch); cbn [ready_handler]; [|split; [done|by intros (_ & _ & ?)]].
    split; [|done]. intros _. split_and!; [done|exists state; by rewrite Hp, Ha|done].
  - split; [done|by intros (_ & (s & ? & _) & _)].
Qed.

(** ** An accepted configuration is served *)

Section served.
Context (IsLetter : Z -> bool) (url_parse : url_parser).
Context (visits : gmap gostring gostring -> list (gostring * gostring)).
Context {P : Type} `{EventSource P}.
Context (range : gmap gostring (list Event) -> list (gostring * list Event)).
Context (attempt : Event -> ListenerConfig -> readings -> http_client -> settlement).
Hypothesis range_visits : forall m, range m ≡ₚ map_to_list m.
Hypothesis visits_all : forall m, visits m ≡ₚ map_to_list m.

Lemma named_once name (ls : list Listener) l :
  NoDup (filter (.≠ []) (map Config.Name ls)) -> name <> [] -> l ∈ ls -> Config.Name l = name -> Enabled l = true ->
  head (filter (λ l, Deliver.Name l = name) (map (listenerConfig visits) (List.filter Enabled ls))) = Some (listenerConfig visits l).
Proof.
  intros Hnd Hne Hl Hn He. induction ls as [|k ls IH]; [by apply elem_of_nil in Hl|]. cbn [map] in Hnd. cbn [List.filter].
  apply elem_of_cons in Hl as [<-|Hl].
  - rewrite He. cbn [map]. rewrite filter_cons_True by done. done.
  - assert (Hk : Config.Name k <> name).
    { intros Hk. rewrite filter_cons_True in Hnd by by rewrite Hk. apply NoDup_cons in Hnd as [Hnot _]. apply Hnot.
      apply list_elem_of_filter. split; [by rewrite Hk|]. rewrite Hk, <- Hn. apply list_elem_of_fmap. eauto. }
    assert (Hnd' : NoDup (filter (.≠ []) (map Config.Name ls))).
    { rewrite filter_cons in Hnd. destruct (decide _); [by apply NoDup_cons in Hnd as [_ ?]|done]. }
    destruct (Enabled k); [|by apply IH]. cbn [map]. rewrite filter_cons_False by done. by apply IH.
Qed.

(** What the deliveries of a listener are made with, setting by setting: every header of the destination
    once and no other, and a signature under each of the secrets, in the order the configuration has them. *)
Record own_settings (l : Listener) (k : ListenerConfig) : Prop := {
  own_name : Deliver.Name k = Config.Name l;
  own_url : Deliver.URL k = Destination_URL (Destination_ (Delivery l));
  own_method : Deliver.Method k = Config.Method (Destination_ (Delivery l));
  own_headers : forall name value, (name, value) ∈ Deliver.Headers k <->
    Config.Headers (Destination_ (Delivery l)) !! name = Some value;
  own_header_once : NoDup (map fst (Deliver.Headers k));
  own_signatures : forall hmac timestamp body, Signer_Header hmac (Deliver.Signer_ k) timestamp body =
    join (bs ",") (map (λ secret, bs "v1=" ++ EncodeToString (hmac secret (format_int timestamp ++ bs "." ++ body)))
      (Secrets (Signing_ (Destination_ (Delivery l)))));
  own_attempts : Policy.MaxAttempts (Deliver.Policy_ k) = Config.MaxAttempts (Retry_ (Delivery l));
  own_backoff : Policy.Backoff (Deliver.Policy_ k) = Config.Backoff (Retry_ (Delivery l));
  own_initial : Policy.InitialInterval (Deliver.Policy_ k) = Config.InitialInterval (Retry_ (Delivery l));
  own_longest : Policy.MaxInterval (Deliver.Policy_ k) = Config.MaxInterval (Retry_ (Delivery l));
  own_jitter : Policy.Jitter (Deliver.Policy_ k) = Config.Jitter (Retry_ (Delivery l));
  own_slots : Deliver.Concurrency k = Listener_Concurrency (Delivery l);
  own_payload : Deliver.MaxPayloadBytes k = MaxBytes (Payload_ (Trigger l));
  own_client : Deliver.Client k = true <-> Destination_URL (Destination_ (Delivery l)) <> []
}.

Lemma listenerConfig_own l : own_settings l (listenerConfig visits l).
Proof.
  split; try done; cbn [listenerConfig Deliver.Headers Deliver.Client].
  - intros name value. by rewrite visits_all, elem_of_map_to_list.
  - change (map fst ?x) with (x.*1). rewrite visits_all. apply NoDup_fst_map_to_list.
  - rewrite negb_true_iff. apply bool_decide_eq_false.
Qed.


End served.

(** ** A shutdown drains *)

Section drains.
Context {P : Type} `{EventSource P}.
Context (range : gmap gostring (list Event) -> list (gostring * list Event)).
Context (attempt : Event -> ListenerConfig -> readings -> http_client -> settlement).
Hypothesis range_visits : forall m, range m ≡ₚ map_to_list m.

(** Whatever still happens to a worker: a poll, a single dispatch, a delivery that ends, another drain. *)
Inductive afterwards (w : Worker.Worker P) : Worker.Worker P -> Prop :=
  | after_nothing : afterwards w w
  | after_poll t sched w1 answer w2 : afterwards w w1 -> RunOnce range attempt t sched w1 = Some (answer, w2) -> afterwards w w2
  | after_dispatch e racing w1 : afterwards w w1 -> afterwards w (Dispatch e racing w1).2
  | after_disturbance d w1 : afterwards w w1 -> afterwards w (disturb attempt w1 d)
  | after_drain t waiting late tracked w1 : afterwards w w1 -> afterwards w (Drain range attempt t waiting late tracked w1).2.

(** A worker that takes nothing in: what is offered to it is blocked, or dead-lettered where no listener
    has its name. *)
Definition closed_to_events (w : Worker.Worker P) : Prop :=
  stopping w = true /\ pending_ w = ∅ /\
  (forall t sched, RunOnce range attempt t sched w = Some (Ok 0%nat, w)) /\
  (forall e racing, (Dispatch e racing w).1 = false /\ running (Dispatch e racing w).2 = running w).

Lemma stopping_closed w : stopping w = true -> pending_ w = ∅ -> closed_to_events w.
Proof.
  intros Hs Hp. split; [done|]. split; [done|]. split.
  - intros t sched. unfold RunOnce. by rewrite Hs.
  - intros e racing. unfold Dispatch, tryDispatch. rewrite Hs. destruct (listeners w !! _); [done|].
    unfold consumeUnknown, dead_letter, settleDead. by destruct (es_Dead _ _ _ _).
Qed.

Lemma disturb_running d w : sublist (running (disturb attempt w d)) (running w) /\ pending_ (disturb attempt w d) = pending_ w.
Proof.
  destruct d as [i t client|]; cbn; [|done]. unfold complete. destruct (running w !! i) as [e|]; [|done].
  destruct (listeners w !! Queue.Listener e) as [st|]; [|done]. cbn.
  destruct (settle_same e (attempt e (config st) t client) w) as (_ & _ & _ & _ & _ & ->). split; [apply sublist_delete|].
  unfold settle, settleDead. destruct (attempt _ _ _ _);
    [destruct (es_Ack e d (port w))|destruct (es_Nack e d retryAt (port w))|destruct (es_Dead e d reason (port w))]; done.
Qed.

Lemma disturbed_running ds w : sublist (running (foldl (disturb attempt) w ds)) (running w).
Proof.
  revert w. induction ds as [|d ds IH]; intros w; [done|]. cbn [foldl]. etrans; [apply IH|apply disturb_running].
Qed.

(** No delivery runs that is not tracked. *)
Lemma untracked_idle (w : Worker.Worker P) : admitted w -> activity w = ∅ -> running w = [].
Proof.
  intros Ha Hact. destruct (running w) as [|e l] eqn:E; [done|exfalso].
  pose proof (adm_tracked _ Ha (ID e)) as Ht. rewrite Hact, lookup_empty in Ht. cbn in Ht.
  unfold flights in Ht. by rewrite E, filter_cons_True in Ht by done.
Qed.

(** Each id that a worker still answers for was released, or had been lost to another worker. *)
Definition given_back (t : Z) (waited w' : Worker.Worker P) : Prop :=
  exists released, NoDup released /\ released_ids (history w') = released_ids (history waited) ++ released /\
  forall e, still_held waited e -> exists events, (forall e', e' ∈ events -> still_held waited e') /\
    release_outcome t events released [] (ID e).

(** What a drain leaves behind: the errors of its verdict, recorded, and the deliveries it waited out. *)
Lemma drained t waiting late tracked w : (forall m : gmap Z (list Event), tracked m ≡ₚ map_to_list m) -> admitted w ->
  let waited := foldl (disturb attempt) (set_drain true (releaseErr w) w) waiting in
  let '(r, w') := Drain range attempt t waiting late tracked w in
  stopping w' = true /\ pending_ w' = ∅ /\ held w' = ∅ /\ running w' = running waited /\
  (Success r = true <-> releaseErr w' = []) /\
  (releaseErr w' = [] -> running waited = [] /\ given_back t waited w').
Proof.
  intros Htr Ha waited. assert (Haw : admitted waited).
  { apply disturb_admitted. by apply (same_admission_admitted w). }
  destruct (Drain_eq range attempt range_visits t waiting late tracked w) as (rel & err & w2 & Hr & -> & Hst & _). fold waited in Hr |- *.
  destruct Hr as [(more & -> & Hnd & _ & Hids) Herr Hall (Hp & Hh & _ & Hrun)]. cbn in Hp, Hh, Hrun. cbn [app] in Hall.
  set (timedOut := if bool_decide (activity waited = ∅) then late else true) in *.
  assert (Hnone : err = [] -> timedOut = false).
  { intros ->. destruct timedOut; [|done]. specialize (Herr ErrDrainTimedOut ltac:(left)). by apply elem_of_nil in Herr. }
  split_and!; [done..| |].
  - cbn. unfold Success. cbn. split.
    + intros [_ Hlen%bool_decide_eq_true%length_zero_iff_nil]%andb_true_iff. by apply app_eq_nil in Hlen as [-> ->].
    + intros [Hr [He Hr']%app_eq_nil]%app_eq_nil. rewrite He, Hr', (Hnone He). done.
  - cbn. intros [_ [-> _]%app_eq_nil]%app_eq_nil. specialize (Hnone eq_refl). unfold timedOut in Hnone.
    split; [apply untracked_idle; [done|by case_bool_decide]|]. exists more. split_and!; [done|exact Hids|].
    intros e He%(elem_of_still_held range range_visits tracked _ _ Htr). eexists. split; [|apply Hall; [exact He|set_solver]].
    intros e'. apply elem_of_still_held; [exact range_visits|done].
Qed.

Lemma afterwards_closed w w' : admitted w -> closed_to_events w -> afterwards w w' ->
  admitted w' /\ closed_to_events w' /\ sublist (running w') (running w).
Proof.
  intros Ha Hc. induction 1 as [|t sched w1 answer w2 _ (IHa & IHc & IHr) Hrun|e racing w1 _ (IHa & IHc & IHr)
    |d w1 _ (IHa & IHc & IHr)|t waiting late tracked w1 _ (IHa & IHc & IHr)]; [done|..]; pose proof IHc as (Hs & Hp & Hpoll & Hdisp).
  - rewrite Hpoll in Hrun. by injection Hrun as _ <-.
  - assert (Hsame : stopping (Dispatch e racing w1).2 = true /\ pending_ (Dispatch e racing w1).2 = ∅ /\ admitted (Dispatch e racing w1).2).
    { unfold Dispatch, tryDispatch. rewrite Hs. destruct (listeners w1 !! _); [done|]. cbn [snd]. unfold consumeUnknown.
      destruct (dead_letter_step e (bs "unknown listener " ++ Queue.Listener e) w1) as [Ha' _ _ _ ->].
      split_and!; auto. unfold dead_letter, settleDead. by destruct (es_Dead _ _ _ _). }
    destruct Hsame as (Hs' & Hp' & Ha'). split; [done|]. split; [by apply stopping_closed|]. by rewrite (proj2 (Hdisp e racing)).
  - destruct (disturb_running d w1) as [Hr' Hp']. destruct (disturb_admitted attempt [d] w1 IHa) as [Ha' _].
    destruct (disturb_drain attempt [d] w1 Hs) as [Hs' _]. split; [done|]. split; [|by etrans].
    apply stopping_closed; [done|by rewrite Hp'].
  - destruct (Drain_step range attempt t waiting late tracked w1 IHa) as (Ha' & _ & _).
    destruct (Drain_eq range attempt range_visits t waiting late tracked w1) as (rel & err & w2 & Hr & Hd & Hs' & _).
    rewrite Hd in Ha' |- *. cbn [snd] in *. destruct Hr as [_ _ _ (Hp' & _ & _ & Hr')]. cbn in Hp', Hr'.
    split; [done|]. split; [by apply stopping_closed|]. cbn [running noteDrainError set_drain]. rewrite Hr'.
    etrans; [apply disturbed_running|done].
Qed.

(** C38. A shutdown drains the worker or leaves it alone. When the HTTP server does not shut down in its
    five seconds -- a scrape that outlasts them -- the command fails before the drain: the worker takes no
    step, so what waits in it stays leased until its lease expires. When it does, the drain leaves nothing
    waiting and nothing held, and the worker closed for good: whatever polls, dispatches, endings and
    drains still happen, no poll asks for an event, no dispatch is accepted and no delivery begins. The
    command then ends with status 0 exactly when the worker has no error on record -- of this drain or
    of one before, a timeout included -- and it is no other end than that and the error's. After a
    status of 0 no delivery runs, and each event that the worker tracked or had waiting when the waiting
    ended was released or had been lost to another worker already. *)
Theorem shutdown_drains_unless_the_server_hangs shutdown t waiting late tracked w :
  admitted w -> (forall m : gmap Z (list Event), tracked m ≡ₚ map_to_list m) ->
  let '(ending, w') := drainAndReport range attempt shutdown t waiting late tracked w in
  match shutdown with
  | Some e => ending = failed e /\ w' = w
  | None =>
      let waited := foldl (disturb attempt) (set_drain true (releaseErr w) w) waiting in
      pending_ w' = ∅ /\ held w' = ∅ /\
      (forall w'', afterwards w' w'' -> closed_to_events w'' /\ sublist (running w'') (running w')) /\
      (ending = completed \/ ending = outcomeError VerdictError) /\
      (exitStatusOf ending = 0 <-> releaseErr w' = []) /\
      (exitStatusOf ending = 0 -> running w' = [] /\ given_back t waited w')
  end.
Proof.
  intros Ha Htr. unfold drainAndReport. destruct shutdown as [e|]; [done|].
  pose proof (drained t waiting late tracked w Htr Ha) as Hd.
  destruct (Drain_step range attempt t waiting late tracked w Ha) as (Ha' & _ & _).
  destruct (Drain _ _ _ _ _ _ _) as [r w']. cbn [snd] in *. cbv zeta in Hd |- *. destruct Hd as (Hs & Hp & Hh & Hrun & Hok & Hclean).
  assert (Hstatus : exitStatusOf (if Success r then completed else outcomeError VerdictError) = 0 <-> releaseErr w' = []).
  { rewrite <- Hok. by destruct (Success r). }
  split_and!; [done|done| |destruct (Success r); auto|exact Hstatus|].
  - intros w'' Hw. by apply (afterwards_closed w' w'' Ha' (stopping_closed _ Hs Hp)).
  - intros Hz%Hstatus. rewrite Hrun. by apply Hclean.
Qed.
End drains.

(** ** The properties at concrete inputs *)

#[local] Instance serving_port : EventSource world := queue_source documented_Sanitize id id.

(** A listener with a header and two secrets, the newest first. *)
Definition signed_document : node :=
  map_ 1 [("version", int_ 1 "1"); ("database", map_ 2 [("url", str 2 "postgres://localhost/app"); ("schema", str 3 "noty")]);
          ("listeners", list_ 4 [
             map_ 5 [("name", str 5 "orders"); ("table", str 6 "public.orders"); ("operations", map_ 7 [("insert", map_ 9 [])]);
                     ("destination", map_ 10 [("url", str 10 "https://example.test/hook");
                        ("headers", map_ 11 [("x-team", str 11 "billing")]);
                        ("signing", map_ 12 [("secrets", list_ 13 [str 13 "0123456789abcdef0123456789abcdef"; str 14 "fedcba9876543210fedcba9876543210"])])])]])]%string.

Definition orders_settings (l : Listener) : Prop :=
  Enabled l = true /\ Config.Name l = bs "orders" /\
  Config.Headers (Destination_ (Delivery l)) !! bs "X-Team" = Some (bs "billing") /\
  Secrets (Signing_ (Destination_ (Delivery l))) = [bs "0123456789abcdef0123456789abcdef"; bs "fedcba9876543210fedcba9876543210"].

Definition served : Config :=
  match parse_of signed_document with Some (Some c, _, _) => c | _ => two_config end.

Lemma served_loads : exists warnings, parse_of signed_document = Some (Some served, warnings, []).
Proof.
  unfold served. assert (match parse_of signed_document with Some (Some _, _, []) => True | _ => False end) as H by (vm_compute; exact I).
  destruct (parse_of signed_document) as [[[[c|] warnings] [|]]|]; try contradiction. by exists warnings.
Qed.

Lemma served_sound : sound (ascii_table (λ _, false)) (λ _, Ok (bs "https", bs "example.test")) served.
Proof. destruct served_loads as [warnings E]. exact (proj1 (parse_sound _ _ _ _ _ _ _ _ _ _ _ _ _ _ _ _ _ _ E)). Qed.

Lemma served_orders : match Config.Listeners served with [l] => orders_settings l | _ => False end.
Proof. vm_compute. split_and!; reflexivity. Qed.


Definition sample_readings : readings := {| started := 0; stamped := 0; finished := 0; scheduled := 0 |}.
Definition answering : http_client := λ _,
  Ok {| StatusCode := 200; RetryAfterHeader := []; Body := Some {| body_bytes := []; read_error := None; close_error := None |} |}.

Lemma sample_drain :
  match RunOnce visit_all sample_attempt 0 no_schedule sample_worker with
  | Some (_, w) =>
      let w' := (drainAndReport visit_all sample_attempt None 0 [Completes 0 sample_readings answering] false map_to_list w).2 in
      bool_decide (length (running w) = 1%nat) && bool_decide (releaseErr w' = []) && bool_decide (released_ids (history w') = [2])
  | None => false
  end = true.
Proof. vm_compute. reflexivity. Qed.

(** One event is being delivered and a second waits. A server that hangs leaves both alone; a drain that
    waits the delivery out ends with status 0 and gives the other back. *)
Lemma shutdown_drains_unless_the_server_hangs_witness : exists answer w,
  RunOnce visit_all sample_attempt 0 no_schedule sample_worker = Some (answer, w) /\ length (running w) = 1%nat /\
  (drainAndReport visit_all sample_attempt (Some (bs "context deadline exceeded")) 0 [] false map_to_list w).2 = w /\
  let '(ending, w') := drainAndReport visit_all sample_attempt None 0 [Completes 0 sample_readings answering] false map_to_list w in
  releaseErr w' = [] /\ running w' = [] /\ pending_ w' = ∅ /\ stopping w' = true /\ released_ids (history w') = [2].
Proof.
  destruct (RunOnce visit_all sample_attempt 0 no_schedule sample_worker) as [[answer w]|] eqn:E; [|by vm_compute in E].
  assert (Ha : admitted w).
  { apply (reached_ok visit_all sample_attempt visit_all_ok sample_world sample_config). eapply reached_poll; [apply reached_new|exact E]. }
  exists answer, w. split; [reflexivity|].
  pose proof (shutdown_drains_unless_the_server_hangs visit_all sample_attempt visit_all_ok
    (Some (bs "context deadline exceeded")) 0 [] false map_to_list w Ha (λ _, reflexivity _)) as Hhangs.
  pose proof (shutdown_drains_unless_the_server_hangs visit_all sample_attempt visit_all_ok
    None 0 [Completes 0 sample_readings answering] false map_to_list w Ha (λ _, reflexivity _)) as Hdrains.
  pose proof sample_drain as Hw. rewrite E in Hw.
  apply andb_true_iff in Hw as [[Hn%bool_decide_eq_true He%bool_decide_eq_true]%andb_true_iff Hids%bool_decide_eq_true].
  destruct (drainAndReport _ _ (Some _) _ _ _ _ _) as [ending1 w1], (drainAndReport _ _ None _ _ _ _ _) as [ending2 w2].
  destruct Hhangs as [_ ->], Hdrains as (Hp & _ & Hclosed & _ & Hstatus & Hback).
  split; [exact Hn|]. split; [reflexivity|]. split; [exact He|]. split; [by apply Hback, Hstatus|]. split; [exact Hp|].
  split; [apply (Hclosed w2), after_nothing|exact Hids].
Defined.
